(* ===== verification/_CoqProject ===== *)
-Q . S2P
Prelude.v
OrdMap.v
Order.v
Design.v
RangeStore.v
ParallelCopy.v
ParallelCopyFacts.v
Memory.v
Dependence.v
DependenceFacts.v
Interval.v
LiveInterval.v
StackColor.v
RegAlloc.v
Graph.v
Worklist.v
Dominators.v
DominatorsFacts.v
Liveness.v
LivenessFlow.v
LivenessModel.v
LivenessFacts.v
LivenessExact.v
Specs.v
Backedge.v
NextUse.v
NextUseFacts.v
NextUseFlow.v
NextUseExact.v
SlotUnion.v
SlotUnionFacts.v
SlotMatrix.v
SpillColor.v
SpillTheorems.v
Semidominators.v
Cfg.v
LtSearch.v
LengauerTarjan.v
LtCorrect.v
CfgTree.v
CfgOrder.v
CfgOrderFacts.v
CfgOrderTheorems.v
CfgTreeFacts.v
CfgDominators.v
CfgLoops.v
CfgLoopFacts.v
CfgScc.v
CfgPostdom.v
CfgAnalyze.v
CfgTheorems.v
Ssa.v
SsaFacts.v
SsaRename.v
SsaPaths.v
SsaTheorems.v
MemorySsa.v
MemoryWalk.v
MemoryClobber.v
MemoryBuild.v
MemoryForm.v
MemoryTheorems.v
DagRows.v
DagSchedule.v
DagOrder.v
DagReady.v
DagScheduleFacts.v
DagPressure.v
DagEntry.v
StateLayout.v
StateLayoutFacts.v
Simulation.v
SimulationFacts.v
SimulationTrace.v
SimulationTime.v
Bits.v
BigNum.v
Vm.v
VmFacts.v
VmRun.v
