(* ===== verification/Prelude.v ===== *)
(** * Celox: a verification library for the simulator's analysis and runtime core

    Celox compiles a synchronous RTL design to native or WebAssembly code and
    simulates it. A frontend elaborates Veryl or SystemVerilog into a design;
    symbolic execution turns its combinational logic into logic trees; these
    are scheduled and lowered to an instruction IR, optimised, and compiled by
    a backend that allocates registers and stack slots; a runtime drives the
    compiled code through simulated time, and a small bytecode evaluates
    testbench expressions. This library models the parts of that path that
    carry algorithms of their own and depend on no third-party syntax tree.

    ** Parts and files

    Shared vocabulary
    - [Prelude]: outcomes of fallible code, loops over lists, generic lemmas;
      [Order] ([Ord], sorting, [BinaryHeap] as a class with laws), [OrdMap]
      ([BTreeMap] with its ordered queries), [Specs] (a Hoare-style predicate
      on outcomes, arrays, sums), [Worklist] (queues with membership flags),
      [Graph] (flow graphs, paths, dominance, depth-first postorder).
    - [Design]: the enumerations, bit ranges and atoms of
      [crates/celox-design/src/lib.rs].

    Data structures
    - [RangeStore]: [celox-slt/src/range_store.rs], the partition of a
      variable's bits that symbolic execution updates.
    - [Interval]: [celox-analysis/src/interval.rs], the index of disjoint
      intervals.

    Analyses of [crates/celox-analysis/src]
    - [Memory], [Dependence], [DependenceFacts]: [memory.rs] and
      [dependence.rs], which events must stay ordered.
    - [Cfg], [Semidominators], [LtSearch], [LengauerTarjan],
      [LtCorrect], [CfgTree], [CfgTreeFacts], [CfgDominators],
      [CfgLoops], [CfgLoopFacts], [CfgScc], [CfgPostdom], [CfgAnalyze],
      [CfgTheorems]: [cfg.rs], from edge validation to the tables that
      [analyze] returns. The definitions are in [Cfg], [CfgTree] and
      [CfgLoops], in the order of the source.
    - [CfgOrder], [CfgOrderFacts], [CfgOrderTheorems]: [cfg_order.rs].
    - [Ssa], [SsaFacts], [SsaRename], [SsaPaths], [SsaTheorems]:
      [ssa.rs]. The trait [SsaCfg] is a class; its laws are proved of both
      implementations by the theorems on [cfg.rs].
    - [MemorySsa], [MemoryWalk], [MemoryClobber], [MemoryBuild], [MemoryForm],
      [MemoryTheorems]: [memory_ssa.rs], which calls [Ssa.build] with one
      variable for the whole memory.
    - [DagRows], [DagSchedule], [DagOrder], [DagReady], [DagScheduleFacts],
      [DagPressure], [DagEntry]: [dag_schedule.rs]. The row traits are classes
      with laws, which the constructors of rows discharge.

    Register allocation, [crates/celox-backend-common/src]
    - [RegAlloc] ([regalloc.rs]: register sets, allocation facts, linear
      scan), [Backedge] and [NextUse], [NextUseFacts], [NextUseFlow],
      [NextUseExact] (its next-use analysis).
    - [LiveInterval], [Dominators], [DominatorsFacts], [Liveness],
      [LivenessFlow], [LivenessModel], [LivenessFacts], [LivenessExact]:
      [regalloc/live_interval.rs].
    - [ParallelCopy], [ParallelCopyFacts]: [regalloc/parallel_copy.rs].
    - [StackColor]: [regalloc/stack_color.rs].
    - [SlotUnion], [SlotUnionFacts], [SlotMatrix]:
      [regalloc/interval_union.rs] of [crates/celox-backend-x86], the linked lists
      of occupied ranges of every slot and the matrix of slots. [SpillColor]
      and [SpillTheorems]: [regalloc/stack_color.rs] there, from
      [merge_home_segments] on. The lists live in an arena of numbered nodes;
      a loop over one has a turn for every node. The identity of an [Arc] is a
      number that the caller of [matrix_new] gives.

    State and execution
    - [StateLayout], [StateLayoutFacts]: [celox-state-layout/src/lib.rs],
      where every state object is stored.
    - [Simulation], [SimulationFacts], [SimulationTrace], [SimulationTime]:
      [celox-runtime/src/scheduler.rs] and [simulation.rs], and [run_until]
      of [celox/src/simulation.rs]. Backend and executor are classes of
      operations without laws.
    - [Bits], [BigNum], [Vm], [VmFacts], [VmRun]:
      [celox-testbench/src/vm.rs]. The big-integer crate is a class with laws.

    ** How state and failure are modelled

    A structure is a record, a method that mutates it returns the new record,
    and [result] is the outcome: [Ok], [Err] of the source's error, or [Panic].
    [Panic] stands for an index out of range, a failed [expect], [unwrap] or
    [debug_assert!], [unreachable!], and an overflowing sum where the source
    neither checks nor wraps. [usize] and [u32] values that only number blocks or
    list positions are naturals; sums whose overflow the source handles are
    integers at their width. The sizes and offsets of [StateLayout] are summed
    with overflow as [Panic]; its theorems say how much address space is enough. A
    hash map is a finite map; where the source iterates over one, the model
    has a fixed order, and the theorems do not depend on it.

    Loops that are not structural take fuel and panic, or return [OutOfFuel],
    when it runs out; the
    theorems prove the fuel enough, so [Panic] is excluded by them and never a
    hypothesis. A traversal has fuel for every entry and exit of a block
    ([2 * blocks], plus the edges where targets are pushed unmarked); the
    dominator sweeps of [Dominators] and [CfgOrder] have one sweep for every
    rank an immediate dominator can drop ([blocks ^ 2 + 1]); a work list has one turn for every
    fact that can become true ([upward uses * blocks] in [Ssa]); [MemorySsa.walk_fuel] counts
    the frames an input can push; [Vm.run] has one turn for every opcode, since
    each advances; a step of [Simulation] has one round for every domain. Only
    [run_until] and [analyze_next_uses] have no bound of their own: they take fuel as an
    argument, and theorems give fuel that is enough, or show there is none.

    ** What the theorems show

    - Exactness against a definition over paths: dominators by both
      algorithms, postdominators, control dependence, strongly connected
      regions, natural loops ([CfgTheorems], [DominatorsFacts]), live
      intervals ([LivenessExact]), next-use distances ([NextUseExact]), the
      order of blocks ([CfgOrderTheorems]), retreating edges ([Backedge]).
    - Preservation of executions: SSA form reads what the program reads
      ([SsaTheorems]), a clobber answer covers every execution
      ([MemoryTheorems]), a parallel copy computes the assignment
      ([ParallelCopyFacts]), dependencies connect every conflict and nothing
      else ([DependenceFacts]).
    - Disjointness: registers of linear scan ([RegAlloc]), stack slots, with
      the least number of them ([StackColor]), spill homes, and what a slot
      matrix holds after any assignments ([SpillTheorems]), objects of the state layout
      ([StateLayoutFacts]).
    - Schedules: topological and of least pressure at every step, or refused
      for a stated reason ([DagEntry]); the two-phase protocol of one
      timestamp, reading by reading of the marked domains, progress of time and the end of [run_until] ([SimulationTrace],
      [SimulationFacts], [SimulationTime]).
    - Arithmetic: the evaluator agrees with integers at their width, ends, and
      keeps its values typed ([VmFacts], [VmRun]); round trips of the range
      store ([RangeStore]).
    - Errors: which inputs each entry point refuses, with which error, and
      that it never panics.

    Some hypotheses are the boundary of what holds: reads are preserved when
    the root has no predecessors ([SsaTheorems.entry_value_lost] evaluates the
    other case), [run_until] ends when every clock has a half period of at least
    one ([SimulationTime.run_until_stalls] is the other case), and a clobber session
    may keep a partial result ([MemoryTheorems.session_keeps_partial_result]).

    ** Not modelled

    - The Veryl and SystemVerilog frontends and analyzers: lowering of
      third-party syntax trees.
    - The code generators (x86-64, AArch64, Cranelift, WebAssembly)
      but for the two modules above, and what the second of them reads from the
      machine IR (the conversion of a spill plan to memory SSA): their correctness
      is relative to instruction sets the repository does not define.
    - The passes of [celox-sir-opt] and the logic trees of [celox-slt] other than the
      range store: the instruction IR has no interpreter in the repository to
      prove them against.
    - [Display] implementations, messages of errors (the rule and the data of
      an error are kept), reserved capacities, timing and tracing.
    - The simulator facade, VCD and VPI output, bindings and generators: file
      I/O and calls into other systems. *)

From Stdlib Require Export ZArith Lia.
From Stdlib Require Export List.
From stdpp Require Export base numbers sorting gmap tactics.
From stdpp Require Export strings list list_basics list_relations list_misc list_monad list_numbers sorting.

#[global] Open Scope Z_scope.

(** ** Results, errors and panics *)

(** [Ok] and [Err] are the constructors of Rust's [Result]; [Panic] is the
    outcome of an out-of-range index, a failed [expect] or an
    [unreachable!]. *)
Inductive result (E A : Type) : Type :=
  | Ok (a : A)
  | Err (e : E)
  | Panic.
Arguments Ok {E A} a.
Arguments Err {E A} e.
Arguments Panic {E A}.

#[global] Instance result_ret {E} : MRet (result E) := fun A a => Ok a.
#[global] Instance result_bind {E} : MBind (result E) := fun A B k r =>
  match r with Ok a => k a | Err e => Err e | Panic => Panic end.
#[global] Instance result_fmap {E} : FMap (result E) := fun A B f r =>
  match r with Ok a => Ok (f a) | Err e => Err e | Panic => Panic end.
#[global] Instance result_eq_dec {E A} `{EqDecision E, EqDecision A} :
  EqDecision (result E A).
Proof. solve_decision. Defined.

(** [Option::ok_or] *)
Definition ok_or {E A} (e : E) (o : option A) : result E A :=
  match o with Some a => Ok a | None => Err e end.

(** Indexing, [expect] and [unwrap]: [None] panics. *)
Definition expect {E A} (o : option A) : result E A :=
  match o with Some a => Ok a | None => Panic end.

(** [Vec] update at an index; out of range it panics. *)
Definition vset {E A} (i : nat) (a : A) (l : list A) : result E (list A) :=
  if decide (i < length l)%nat then Ok (<[i := a]> l) else Panic.

(** A fold that may fail, in iteration order. *)
Fixpoint foldM {E A B} (f : A -> B -> result E A) (a : A) (l : list B) : result E A :=
  match l with
  | [] => Ok a
  | b :: l' => a' ← f a b; foldM f a' l'
  end.

Fixpoint mapMr {E A B} (f : A -> result E B) (l : list A) : result E (list B) :=
  match l with
  | [] => Ok []
  | a :: l' => b ← f a; bs ← mapMr f l'; Ok (b :: bs)
  end.

(** ** Machine integers *)

Definition usize_max : Z := 2^64 - 1.
Definition isize_max : Z := 2^63 - 1.
Definition isize_min : Z := - 2^63.
Definition i64_max : Z := 2^63 - 1.
Definition i64_min : Z := - 2^63.

Definition is_usize (z : Z) : Prop := 0 <= z <= usize_max.
Definition is_i64 (z : Z) : Prop := i64_min <= z <= i64_max.

(** [usize::checked_add] and friends. *)
Definition checked_add (a b : Z) : option Z :=
  if decide (a + b <= usize_max) then Some (a + b) else None.
Definition checked_sub (a b : Z) : option Z :=
  if decide (b <= a) then Some (a - b) else None.
(** [i64::checked_add] (also [isize::checked_add] on a 64-bit target). *)
Definition i64_checked_add (a b : Z) : option Z :=
  if decide (i64_min <= a + b <= i64_max) then Some (a + b) else None.
Definition i64_try_from (a : Z) : option Z :=
  if decide (a <= i64_max) then Some a else None.

Lemma checked_add_Some a b c :
  checked_add a b = Some c <-> c = a + b /\ a + b <= usize_max.
Proof. unfold checked_add. case_decide; split; intros; simplify_eq; naive_solver. Qed.
Lemma checked_add_None a b : checked_add a b = None <-> usize_max < a + b.
Proof. unfold checked_add. case_decide; split; intros; try done; lia. Qed.
Lemma checked_sub_Some a b c :
  checked_sub a b = Some c <-> c = a - b /\ b <= a.
Proof. unfold checked_sub. case_decide; split; intros; simplify_eq; naive_solver. Qed.
Lemma checked_sub_None a b : checked_sub a b = None <-> a < b.
Proof. unfold checked_sub. case_decide; split; intros; try done; lia. Qed.

(** ** A state-passing error monad

    [SE S E A] is a [&mut self] method returning [Result<A, E>]: the state
    is returned on every path, so a caller that observes an error also
    observes what the method had already changed. *)

Definition SE (S E A : Type) : Type := S -> S * result E A.

#[global] Instance SE_ret {S E} : MRet (SE S E) := fun A a s => (s, Ok a).
#[global] Instance SE_bind {S E} : MBind (SE S E) := fun A B k m s =>
  match m s with
  | (s', Ok a) => k a s'
  | (s', Err e) => (s', Err e)
  | (s', Panic) => (s', Panic)
  end.
(** [self.field]: read the state. *)
Definition se_get {S E} : SE S E S := fun s => (s, Ok s).
Definition se_put {S E} (s' : S) : SE S E unit := fun _ => (s', Ok tt).
(** [expr?] for an expression that does not change the state. *)
Definition se_lift {S E A} (r : result E A) : SE S E A := fun s => (s, r).

(** Run the monadic plumbing of [result], [option] and [SE] without touching
    the operations themselves. *)
Ltac msimpl :=
  unfold mbind, mret, SE_bind, SE_ret, result_bind, result_ret,
    option_bind, option_ret, se_get, se_put, se_lift, ok_or, expect;
  cbn beta iota match.
Ltac msimpl_in H :=
  unfold mbind, mret, SE_bind, SE_ret, result_bind, result_ret,
    option_bind, option_ret, se_get, se_put, se_lift, ok_or, expect in H;
  cbn beta iota match in H.

(** ** Filters *)

Lemma filter_ext_in {A} (P Q : A -> Prop) `{!forall x, Decision (P x), !forall x, Decision (Q x)} (l : list A) :
  (forall x, x ∈ l -> P x <-> Q x) -> filter P l = filter Q l.
Proof.
  induction l as [|x l IH]; intros Hl; [done|]. rewrite !filter_cons.
  pose proof (Hl x ltac:(by left)). rewrite IH by (intros; apply Hl; by right).
  repeat case_decide; tauto.
Qed.

Lemma filter_none {A} (P : A -> Prop) `{!forall x, Decision (P x)} (l : list A) :
  (forall x, x ∈ l -> ~ P x) -> filter P l = [].
Proof.
  induction l as [|x l IH]; intros Hl; [done|]. rewrite filter_cons.
  rewrite decide_False by (apply Hl; by left). apply IH. intros; apply Hl. by right.
Qed.

Lemma StronglySorted_filter {A} (R : relation A) (P : A -> Prop) `{!forall x, Decision (P x)} (l : list A) :
  StronglySorted R l -> StronglySorted R (filter P l).
Proof.
  induction 1 as [|x l Hs IH Hall]; [constructor|].
  rewrite filter_cons. case_decide; [|done]. constructor; [done|].
  rewrite Forall_forall in *. intros y [_ Hy]%list_elem_of_filter. auto.
Qed.

(** Two elements of a sub-multiset sit at two positions. *)
Lemma submseteq_two {A} (a b : A) (l : list A) :
  [a; b] ⊆+ l -> exists i j, i <> j /\ l !! i = Some a /\ l !! j = Some b.
Proof.
  intros [k Hk]%submseteq_Permutation. symmetry in Hk.
  apply Permutation_inj in Hk as [_ (f & Hf & Hl)]. exists (f 0%nat), (f 1%nat).
  split; [by intros ?%Hf|]. by rewrite <- !Hl.
Qed.

Lemma NoDup_fmap_filter {A B} (f : A -> B) (P : A -> Prop) `{!forall x, Decision (P x)} (l : list A) :
  NoDup (f <$> l) -> NoDup (f <$> filter P l).
Proof.
  induction l as [|x l IH]; csimpl; [done|]. intros [Hx Hl]%NoDup_cons.
  rewrite filter_cons. case_decide; [|by apply IH]. csimpl. constructor; [|by apply IH].
  intros (y & Hy & [_ ?]%list_elem_of_filter)%list_elem_of_fmap. apply Hx, list_elem_of_fmap. eauto.
Qed.

(** ** Positions *)

(** [iter().enumerate()] *)
Abbreviation enumerate l := (zip (seq 0 (length l)) l).

Lemma elem_of_enumerate {A} (l : list A) i a : (i, a) ∈ enumerate l <-> l !! i = Some a.
Proof.
  rewrite list_elem_of_lookup. split.
  - intros [j Hj]. apply lookup_zip_with_Some in Hj as (? & ? & [= <- <-] & [-> _]%lookup_seq & ?). done.
  - intros Ha. exists i. apply lookup_zip_with_Some. exists i, a. split_and!; [done| |done].
    apply lookup_seq. split; [lia|]. by eapply lookup_lt_Some.
Qed.

Lemma enumerate_snoc {A} (l : list A) x : enumerate (l ++ [x]) = enumerate l ++ [(length l, x)].
Proof.
  rewrite length_app, Nat.add_1_r, seq_S. cbn. rewrite zip_with_app; [done|by rewrite length_seq].
Qed.

(** Distinct numbers below [n] are at most [n] many. *)
Lemma NoDup_bounded_length (l : list nat) n : NoDup l -> (forall x, x ∈ l -> (x < n)%nat) -> (length l <= n)%nat.
Proof.
  intros Hnd Hl. rewrite <- (length_seq n 0). apply submseteq_length, NoDup_submseteq; [done|].
  intros x Hx%Hl. apply elem_of_seq. lia.
Qed.

(** An index at which a list has an element is in range. *)
Create HintDb index.
#[export] Hint Resolve lookup_lt_Some : index.
#[export] Hint Extern 1 (_ < length _)%nat => lia : index.

(** [in_range l i as x H] names the element at an index known to be in
    range. *)
Tactic Notation "in_range" constr(l) constr(i) "as" simple_intropattern(x) simple_intropattern(H) :=
  destruct (lookup_lt_is_Some_2 l i) as [x H];
  [try solve [done | lia | eauto with index | rewrite ?length_fmap, ?length_insert, ?length_replicate in *; lia]|].

Lemma bind_nil {A B} (l : list A) : (l ≫= fun _ => []) = ([] : list B).
Proof. by induction l. Qed.

Lemma seq_sorted start k : StronglySorted lt (seq start k).
Proof.
  revert start. induction k as [|k IH]; intros start; cbn; constructor; [apply IH|].
  rewrite Forall_forall. intros x Hx%elem_of_seq. lia.
Qed.

Lemma elem_of_rev {A} (x : A) (l : list A) : x ∈ rev l <-> x ∈ l.
Proof. by rewrite <- Permutation_rev. Qed.
