(* ===== verification/OrdMap.v ===== *)
(** * OrdMap: the ordered view of [BTreeMap<i64/usize, V>]

    A [BTreeMap] is modelled as a [gmap Z V]: insertion, removal and lookup
    are the library's. This file adds what the ordered map has on top: the
    ascending iteration order, [range] iteration and the neighbour queries
    [range(..=p).next_back()], [range(..p).next_back()] and
    [last_key_value()]. *)

From S2P Require Import Prelude.

Section ordmap.
Context {V : Type}.
Implicit Types (m : gmap Z V) (k p : Z) (v : V).

Definition entry_le : relation (Z * V) := fun x y => x.1 <= y.1.
Definition entry_lt : relation (Z * V) := fun x y => x.1 < y.1.

#[global] Instance entry_le_dec : RelDecision entry_le.
Proof. unfold entry_le. intros x y. apply _. Defined.
#[global] Instance entry_le_total : Total entry_le.
Proof. intros x y. unfold entry_le. lia. Qed.
#[global] Instance entry_le_trans : Transitive entry_le.
Proof. intros x y z. unfold entry_le. lia. Qed.

(** [iter()]: ascending by key. *)
Definition entries m : list (Z * V) := merge_sort entry_le (map_to_list m).
(** [range(lo..hi)] *)
Definition range_entries (lo hi : Z) m : list (Z * V) :=
  filter (fun e => lo <= e.1 < hi) (entries m).
(** [range(..=p).next_back()] *)
Definition pred_le p m : option (Z * V) := last (filter (fun e => e.1 <= p) (entries m)).
(** [range(..p).next_back()] *)
Definition pred_lt p m : option (Z * V) := pred_le (p - 1) m.
(** [last_key_value()] *)
Definition last_entry m : option (Z * V) := last (entries m).
(** [extract_if(lo..hi, |_, _| true)] (and a loop removing those keys). *)
Definition remove_range (lo hi : Z) m : gmap Z V :=
  filter (fun e => ~ (lo <= e.1 < hi)) m.

Lemma elem_of_entries m k v : (k, v) ∈ entries m <-> m !! k = Some v.
Proof. unfold entries. by rewrite merge_sort_Permutation, elem_of_map_to_list. Qed.

Lemma entries_NoDup m : NoDup (entries m).*1.
Proof. unfold entries. rewrite merge_sort_Permutation. apply NoDup_fst_map_to_list. Qed.

Lemma sorted_le_lt (l : list (Z * V)) :
  StronglySorted entry_le l -> NoDup l.*1 -> StronglySorted entry_lt l.
Proof.
  induction 1 as [|x l Hs IH Hall]; csimpl; [constructor|].
  intros [Hx Hnd]%NoDup_cons. constructor; [auto|].
  rewrite Forall_forall in *. intros y Hy. specialize (Hall y Hy).
  unfold entry_le, entry_lt in *.
  assert (x.1 <> y.1); [|lia].
  intros Heq. apply Hx. rewrite Heq. apply list_elem_of_fmap. eauto.
Qed.

Lemma entries_sorted m : StronglySorted entry_lt (entries m).
Proof.
  apply sorted_le_lt; [|apply entries_NoDup].
  apply StronglySorted_merge_sort; apply _.
Qed.


Lemma range_entries_sorted lo hi m : StronglySorted entry_lt (range_entries lo hi m).
Proof. apply StronglySorted_filter, entries_sorted. Qed.

Lemma elem_of_range_entries lo hi m k v :
  (k, v) ∈ range_entries lo hi m <-> m !! k = Some v /\ lo <= k < hi.
Proof.
  unfold range_entries. rewrite list_elem_of_filter, elem_of_entries. simpl. tauto.
Qed.

(** The last element of an ascending list is its greatest. *)
Lemma last_sorted_Some (l : list (Z * V)) e :
  StronglySorted entry_lt l ->
  last l = Some e <-> e ∈ l /\ forall e', e' ∈ l -> e'.1 <= e.1.
Proof.
  induction 1 as [|x l Hs IH Hall].
  { simpl. split; [done|]. by intros [?%not_elem_of_nil _]. }
  destruct l as [|y l].
  { simpl. split.
    - intros [= <-]. split; [set_solver|]. intros e' ->%list_elem_of_singleton. lia.
    - intros [->%list_elem_of_singleton _]. done. }
  rewrite last_cons_cons, IH. clear IH.
  rewrite Forall_forall in Hall. split.
  - intros [Hin Hmax]. split; [by apply elem_of_cons; right|].
    intros e' [->|He']%elem_of_cons; [|auto].
    specialize (Hall e Hin). unfold entry_lt in Hall. lia.
  - intros [Hin Hmax]. split.
    + apply elem_of_cons in Hin as [->|Hin]; [|done].
      assert (y ∈ y :: l) as Hy by (apply elem_of_cons; auto).
      pose proof (Hall y Hy). pose proof (Hmax y ltac:(apply elem_of_cons; right; done)).
      unfold entry_lt in *. lia.
    + intros e' He'. apply Hmax. by apply elem_of_cons; right.
Qed.

Lemma last_entry_Some m k v :
  last_entry m = Some (k, v) <->
  m !! k = Some v /\ forall k' v', m !! k' = Some v' -> k' <= k.
Proof.
  unfold last_entry. rewrite last_sorted_Some by apply entries_sorted.
  rewrite elem_of_entries. split; intros [Hk Hmax]; (split; [done|]).
  - intros k' v' H%elem_of_entries. by apply (Hmax (k', v')).
  - intros [k' v'] H%elem_of_entries. simpl. eauto.
Qed.

Lemma last_entry_None m : last_entry m = None <-> m = ∅.
Proof.
  unfold last_entry. rewrite last_None. split.
  - intros H. apply map_empty. intros k. apply eq_None_not_Some.
    intros [v Hv%elem_of_entries]. rewrite H in Hv. by apply not_elem_of_nil in Hv.
  - intros ->. reflexivity.
Qed.

Lemma pred_le_Some p m k v :
  pred_le p m = Some (k, v) <->
  m !! k = Some v /\ k <= p /\ forall k' v', m !! k' = Some v' -> k' <= p -> k' <= k.
Proof.
  unfold pred_le.
  rewrite last_sorted_Some by apply StronglySorted_filter, entries_sorted.
  rewrite list_elem_of_filter, elem_of_entries. simpl. split.
  - intros [[? ?] Hmax]. repeat split; try done.
    intros k' v' Hk' Hle. apply (Hmax (k', v')).
    by rewrite list_elem_of_filter, elem_of_entries.
  - intros (? & ? & Hmax). repeat split; try done.
    intros [k' v']. rewrite list_elem_of_filter, elem_of_entries. simpl. naive_solver.
Qed.

Lemma pred_le_None p m :
  pred_le p m = None <-> forall k v, m !! k = Some v -> p < k.
Proof.
  unfold pred_le. rewrite last_None. split.
  - intros H k v Hk%elem_of_entries.
    destruct (decide (k <= p)) as [Hle|]; [|lia].
    assert ((k, v) ∈ filter (fun e => e.1 <= p) (entries m)) as Hin
      by by rewrite list_elem_of_filter.
    rewrite H in Hin. by apply not_elem_of_nil in Hin.
  - intros H. destruct (filter _ _) as [|[k v] l] eqn:E; [done|].
    assert ((k, v) ∈ filter (fun e => e.1 <= p) (entries m)) as Hin
      by (rewrite E; apply elem_of_cons; auto).
    apply list_elem_of_filter in Hin as [? Hk%elem_of_entries].
    apply H in Hk. simpl in *. lia.
Qed.

Lemma lookup_remove_range lo hi m k :
  remove_range lo hi m !! k = if decide (lo <= k < hi) then None else m !! k.
Proof.
  unfold remove_range. rewrite map_lookup_filter.
  case_decide; destruct (m !! k); simpl; try done; case_guard; simpl; tauto.
Qed.
End ordmap.

