(* ===== verification/Order.v ===== *)
(** * Order: [Ord], sorting and priority queues

    The interfaces through which the components use ordered data: a class
    for Rust's [Ord], the sorts of [slice], and a class for [BinaryHeap] with
    its laws, discharged by a sorted list. *)

From S2P Require Import Prelude.

(** ** [Ord] *)

Class Ord (A : Type) : Type := {
  ord_le : relation A;
  ord_le_dec :: RelDecision ord_le;
  ord_le_total :: Total ord_le;
  ord_le_trans :: Transitive ord_le;
  ord_le_antisymm :: AntiSymm (=) ord_le }.

#[global] Hint Mode Ord ! : typeclass_instances.

Notation "x ⪯ y" := (ord_le x y) (at level 70).

#[global] Instance Z_ord : Ord Z := {| ord_le := Z.le |}.
#[global] Instance nat_ord : Ord nat := {| ord_le := Nat.le |}.

(** Tuples compare lexicographically. *)
Definition lex_le {A B} {HA : Ord A} {HB : Ord B} : relation (A * B) :=
  fun x y => x.1 ⪯ y.1 /\ (y.1 ⪯ x.1 -> x.2 ⪯ y.2).

#[global] Instance prod_ord {A B} {HA : Ord A} {HB : Ord B} : Ord (A * B).
Proof.
  refine (Build_Ord (A * B) (@lex_le A B HA HB) _ _ _ _); unfold lex_le.
  - intros x y. change (Decision (x.1 ⪯ y.1 /\ (y.1 ⪯ x.1 -> x.2 ⪯ y.2))). apply _.
  - intros [a b] [a' b']; simpl.
    destruct (decide (a ⪯ a')), (decide (a' ⪯ a)), (total ord_le a a'), (total ord_le b b'); tauto.
  - intros [a b] [a' b'] [a'' b'']; simpl. intros [? Hb] [? Hb']. split; [by etransitivity|].
    intros ?. transitivity b'; [apply Hb|apply Hb']; by etransitivity.
  - intros [a b] [a' b']; simpl. intros [? Hb] [? Hb'].
    assert (a = a') as -> by by apply (anti_symm ord_le). f_equal. apply (anti_symm ord_le); auto.
Defined.

Lemma ord_le_refl `{Ord A} (x : A) : x ⪯ x.
Proof. by destruct (total ord_le x x). Qed.
#[export] Hint Resolve ord_le_refl : core.

Lemma fst_le `{Ord A, Ord B} (x y : A * B) : x ⪯ y -> x.1 ⪯ y.1.
Proof. by intros [? _]. Qed.

(** The strict order. *)
Definition ord_lt `{Ord A} (x y : A) : Prop := x ⪯ y /\ ~ y ⪯ x.
Notation "x ≺ y" := (ord_lt x y) (at level 70).

Lemma ord_not_le `{Ord A} (x y : A) : ~ x ⪯ y <-> y ≺ x.
Proof. unfold ord_lt. destruct (total ord_le x y); tauto. Qed.
Lemma ord_le_lt_trans `{Ord A} (x y z : A) : x ⪯ y -> y ≺ z -> x ≺ z.
Proof. intros ? [? Hn]. split; [by etransitivity|]. intros ?. apply Hn. by etransitivity. Qed.
Lemma ord_lt_le_trans `{Ord A} (x y z : A) : x ≺ y -> y ⪯ z -> x ≺ z.
Proof. intros [? Hn] ?. split; [by etransitivity|]. intros ?. apply Hn. by etransitivity. Qed.
Lemma ord_lt_le `{Ord A} (x y : A) : x ≺ y -> x ⪯ y.
Proof. by intros []. Qed.

Lemma pair_le (a b c d : Z) : (a, b) ⪯ (c, d) <-> a < c \/ (a = c /\ b <= d).
Proof. unfold ord_le. cbn. unfold lex_le, ord_le. simpl. lia. Qed.
Lemma pair_lt (a b c d : Z) : (a, b) ≺ (c, d) <-> a < c \/ (a = c /\ b < d).
Proof. rewrite <- ord_not_le, pair_le. lia. Qed.

(** ** Sorting: [sort_unstable] and [sort_unstable_by_key] *)

Section sort.
Context {A K : Type} `{Ord K} (key : A -> K).

Definition key_le : relation A := fun x y => key x ⪯ key y.
#[global] Instance key_le_dec : RelDecision key_le.
Proof. unfold key_le. intros x y. apply _. Defined.
#[global] Instance key_le_total : Total key_le.
Proof. intros x y. unfold key_le. apply (total ord_le). Qed.
#[global] Instance key_le_trans : Transitive key_le.
Proof. intros x y z. unfold key_le. by etransitivity. Qed.

(** Elements with equal keys may come out in any order; the list is modelled
    with the order of a stable sort. *)
Definition sort_by_key (l : list A) : list A := merge_sort key_le l.

Lemma sort_by_key_sorted l : StronglySorted key_le (sort_by_key l).
Proof. apply StronglySorted_merge_sort; apply _. Qed.
Lemma sort_by_key_permutation l : sort_by_key l ≡ₚ l.
Proof. apply merge_sort_Permutation. Qed.
Lemma elem_of_sort_by_key x l : x ∈ sort_by_key l <-> x ∈ l.
Proof. by rewrite sort_by_key_permutation. Qed.
End sort.

(** ** Priority queues: [BinaryHeap<Reverse<A>>] *)

(** A queue whose [pq_pop] removes a least element of a total preorder; which
    one of several least elements it removes is not specified. *)
Class PriorityQueue {A : Type} (le : relation A) (Q : Type) : Type := {
  pq_empty : Q;
  pq_push : A -> Q -> Q;
  pq_pop : Q -> option (A * Q);
  pq_elems : Q -> list A;
  pq_elems_empty : pq_elems pq_empty = [];
  pq_elems_push a q : pq_elems (pq_push a q) ≡ₚ a :: pq_elems q;
  pq_pop_None q : pq_pop q = None -> pq_elems q = [];
  pq_pop_Some q a q' : pq_pop q = Some (a, q') ->
    pq_elems q ≡ₚ a :: pq_elems q' /\ Forall (le a) (pq_elems q') }.

#[global] Hint Mode PriorityQueue - - ! : typeclass_instances.

(** [peek] *)
Definition pq_peek {A R Q} `{!@PriorityQueue A R Q} (q : Q) : option A := fst <$> pq_pop q.

Lemma pq_pop_length {A R Q} `{!@PriorityQueue A R Q} (q q' : Q) (a : A) :
  pq_pop q = Some (a, q') -> length (pq_elems q) = S (length (pq_elems q')).
Proof. intros [Hp _]%pq_pop_Some. by rewrite Hp. Qed.

(** The sorted-list implementation. *)
Section sorted_queue.
Context {A : Type} (le : relation A) `{!RelDecision le, !Total le, !Transitive le}.
Implicit Types (a b : A) (l : list A).

Record sorted_queue : Type := SQ { sq_list : list A; sq_sorted : StronglySorted le sq_list }.

Fixpoint sq_insert (a : A) (l : list A) : list A :=
  match l with
  | [] => [a]
  | b :: l' => if decide (le a b) then a :: l else b :: sq_insert a l'
  end.

Lemma sq_insert_permutation a l : sq_insert a l ≡ₚ a :: l.
Proof.
  induction l as [|b l IH]; simpl; [done|]. case_decide; [done|]. rewrite IH. apply Permutation_swap.
Qed.

Lemma sq_insert_sorted a l : StronglySorted le l -> StronglySorted le (sq_insert a l).
Proof.
  induction 1 as [|b l Hs IH Hall]; simpl; [repeat constructor|]. case_decide as Hab.
  - constructor; [by constructor|]. constructor; [done|]. eapply Forall_impl; [exact Hall|].
    intros c ?. by transitivity b.
  - constructor; [done|]. rewrite sq_insert_permutation. constructor; [|done].
    by destruct (total le a b).
Qed.

Definition sq_push (a : A) (q : sorted_queue) : sorted_queue :=
  SQ (sq_insert a (sq_list q)) (sq_insert_sorted a _ (sq_sorted q)).

Lemma sq_tail a l : StronglySorted le (a :: l) -> StronglySorted le l.
Proof. by intros [? _]%StronglySorted_inv. Qed.

Definition sq_pop (q : sorted_queue) : option (A * sorted_queue) :=
  match q with
  | SQ [] _ => None
  | SQ (a :: l) Hs => Some (a, SQ l (sq_tail a l Hs))
  end.

Lemma sq_pop_None q : sq_pop q = None -> sq_list q = [].
Proof. by destruct q as [[] ?]. Qed.

Lemma sq_pop_Some q a q' :
  sq_pop q = Some (a, q') -> sq_list q ≡ₚ a :: sq_list q' /\ Forall (le a) (sq_list q').
Proof.
  destruct q as [[|b l] Hs]; [done|]. intros [= <- <-]. simpl. split; [done|].
  by apply StronglySorted_inv in Hs as [_ ?].
Qed.

#[global] Instance sorted_queue_pq : PriorityQueue le sorted_queue := {|
  pq_empty := SQ [] (SSorted_nil _); pq_push := sq_push; pq_pop := sq_pop; pq_elems := sq_list;
  pq_elems_empty := eq_refl; pq_elems_push a q := sq_insert_permutation a (sq_list q);
  pq_pop_None := sq_pop_None; pq_pop_Some := sq_pop_Some |}.
End sorted_queue.

(** ** [BTreeSet] iteration *)

Section ascending.
Context {A : Type} `{Countable A} `{!Ord A}.
Implicit Types (s : gset A) (x : A).

Definition ascending s : list A := merge_sort ord_le (elements s).

Lemma elem_of_ascending s x : x ∈ ascending s <-> x ∈ s.
Proof. unfold ascending. by rewrite merge_sort_Permutation, elem_of_elements. Qed.
Lemma NoDup_ascending s : NoDup (ascending s).
Proof. unfold ascending. rewrite merge_sort_Permutation. apply NoDup_elements. Qed.
Lemma ascending_ordered s : StronglySorted ord_le (ascending s).
Proof. apply StronglySorted_merge_sort; apply _. Qed.

(** [first]: the least element. *)
Definition first s : option A := head (ascending s).

Lemma first_Some s x : first s = Some x -> x ∈ s /\ forall y, y ∈ s -> x ⪯ y.
Proof.
  unfold first. intros Hx. pose proof (ascending_ordered s) as Hs.
  assert (Hin : forall y, y ∈ ascending s <-> y ∈ s) by (intros; apply elem_of_ascending).
  destruct (ascending s) as [|z l]; [done|]. injection Hx as ->. split; [apply Hin; by left|].
  intros y [->|Hy]%Hin%elem_of_cons; [done|]. apply StronglySorted_inv in Hs as [_ Hs].
  rewrite Forall_forall in Hs. by apply Hs.
Qed.

Lemma first_None s : first s = None -> s = ∅.
Proof.
  unfold first. intros Hx. apply set_eq. intros y. rewrite <- elem_of_ascending.
  destruct (ascending s); [|done]. set_solver.
Qed.
End ascending.

(** ** [std::cmp::Reverse] *)

Record Reverse (A : Type) : Type := Rev { unrev : A }.
Arguments Rev {A} unrev.
Arguments unrev {A} _.

#[global] Instance Reverse_eq_dec {A} `{EqDecision A} : EqDecision (Reverse A).
Proof. solve_decision. Defined.
#[global] Program Instance Reverse_countable {A} `{Countable A} : Countable (Reverse A) :=
  inj_countable' unrev Rev _.
Next Obligation. by intros ? ? ? []. Qed.

#[global] Instance Reverse_ord {A} {HA : Ord A} : Ord (Reverse A).
Proof.
  refine (Build_Ord (Reverse A) (fun x y => @ord_le A HA (unrev y) (unrev x)) _ _ _ _).
  - intros x y. exact (ord_le_dec (unrev y) (unrev x)).
  - intros [x] [y]. apply (total ord_le).
  - intros [x] [y] [z]; simpl. intros. by etransitivity.
  - intros [x] [y]; simpl. intros. f_equal. by apply (anti_symm ord_le).
Defined.

(** [Vec::dedup] *)
Fixpoint dedup {A} `{EqDecision A} (l : list A) : list A :=
  match l with
  | x :: ((y :: _) as l') => if decide (x = y) then dedup l' else x :: dedup l'
  | _ => l
  end.

Lemma elem_of_dedup {A} `{EqDecision A} (l : list A) x : x ∈ dedup l <-> x ∈ l.
Proof.
  induction l as [|y l IH]; [done|]. destruct l as [|z l]; [done|].
  change (dedup (y :: z :: l)) with (if decide (y = z) then dedup (z :: l) else y :: dedup (z :: l)).
  case_decide as Hyz; rewrite ?elem_of_cons, IH; [subst y; rewrite !elem_of_cons; tauto|rewrite !elem_of_cons; tauto].
Qed.
