(* ===== verification/Design.v ===== *)
(** * Design: the semantic vocabulary of [celox-design]

    Models [crates/celox-design/src/lib.rs]: the operator enumerations with
    their width and commutativity rules, inclusive bit ranges ([BitAccess])
    and their decomposition into atoms at a set of boundaries, and the
    event-alias lookup of [EventTopology]. *)

From S2P Require Import Prelude Order.

(** ** Enumerations *)

Inductive DomainKind : Type :=
  | ClockPosedge | ClockNegedge | ResetAsyncHigh | ResetAsyncLow | OtherDomain.
#[global] Instance DomainKind_eq_dec : EqDecision DomainKind.
Proof. solve_decision. Defined.

Inductive BinaryOp : Type :=
  | Add | Sub | Mul | DivU | DivS | RemU | RemS
  | And | Or | Xor | Shl | Shr | Sar
  | Eq_ | Ne | EqCase | NeCase
  | LtU | LtS | LeU | LeS | GtU | GtS | GeU | GeS
  | LogicAnd | LogicOr | EqWildcard | NeWildcard.
#[global] Instance BinaryOp_eq_dec : EqDecision BinaryOp.
Proof. solve_decision. Defined.

Definition is_commutative (op : BinaryOp) : bool :=
  match op with
  | Add | Mul | And | Or | Xor | Eq_ | Ne | EqCase | NeCase
  | LogicAnd | LogicOr => true
  | _ => false
  end.

Inductive UnaryOp : Type :=
  | Ident | ToTwoState | Minus | BitNot | LogicNot
  | RedAnd | RedOr | RedXor | PopCount | CountLeadingZeros | CountTrailingZeros.
#[global] Instance UnaryOp_eq_dec : EqDecision UnaryOp.
Proof. solve_decision. Defined.

(** [usize::BITS - w.leading_zeros()]: the bit length of [w]. *)
Definition bit_length (w : Z) : Z := if decide (w <= 0) then 0 else Z.log2 w + 1.

(** [UnaryOp::result_width] *)
Definition result_width (op : UnaryOp) (operand_width : Z) : Z :=
  match op with
  | LogicNot | RedAnd | RedOr | RedXor => 1
  | Ident | ToTwoState | Minus | BitNot => operand_width
  | PopCount | CountLeadingZeros | CountTrailingZeros => bit_length operand_width
  end.

(** ** Bit ranges *)

(** An inclusive bit range; [BitAccess::new]'s [debug_assert] is absent from
    a release build, so [BitAccess_new] only builds the record. *)
Record BitAccess : Type := BitAccess_new { lsb : Z; msb : Z }.
#[global] Instance BitAccess_eq_dec : EqDecision BitAccess.
Proof. solve_decision. Defined.

Definition overlaps (a b : BitAccess) : bool :=
  negb ((msb a <? lsb b) || (msb b <? lsb a)).

(** Bits of an access, ascending. *)
Definition bits (a : BitAccess) : list Z := seqZ (lsb a) (msb a - lsb a + 1).

(** The loop of [calculate_atoms] over [bounds.range(..)] together with the
    code after it. *)
Fixpoint atoms_loop (current_lsb msb : Z) (bounds : list Z) : list BitAccess :=
  match bounds with
  | [] => if decide (current_lsb <= msb) then [BitAccess_new current_lsb msb] else []
  | bound :: bounds' =>
      BitAccess_new current_lsb (bound - 1) :: atoms_loop bound msb bounds'
  end.

(** [BitAccess::calculate_atoms]. [BTreeSet::range] panics when the start
    of the range is above its end. *)
Definition calculate_atoms {E} (a : BitAccess) (bounds : gset Z) : result E (list BitAccess) :=
  if decide (lsb a <= msb a) then
    Ok (atoms_loop (lsb a) (msb a)
          (filter (fun b => lsb a < b /\ b <= msb a) (ascending bounds)))
  else Panic.

(** ** Event aliases: [EventTopology::canonical] *)

Definition canonical `{Countable A} (aliases : gmap A A) (address : A) : A :=
  default address (aliases !! address).

(** ** Properties *)

Lemma elem_of_bits a b : b ∈ bits a <-> lsb a <= b <= msb a.
Proof. unfold bits. rewrite elem_of_seqZ. lia. Qed.

Lemma bits_cons l m : l <= m -> bits (BitAccess_new l m) = l :: bits (BitAccess_new (l + 1) m).
Proof.
  intros. unfold bits. simpl. rewrite seqZ_cons by lia. f_equal. f_equal; lia.
Qed.

Lemma bits_nil l m : m < l -> bits (BitAccess_new l m) = [].
Proof. intros. unfold bits. simpl. apply seqZ_nil. lia. Qed.

(** An inclusive range is the concatenation of its two parts at a cut. *)
Lemma bits_app l k m :
  l <= k -> k <= m + 1 ->
  bits (BitAccess_new l m) = bits (BitAccess_new l (k - 1)) ++ bits (BitAccess_new k m).
Proof.
  intros. unfold bits. simpl.
  replace (m - l + 1) with ((k - l) + (m - k + 1)) by lia.
  rewrite seqZ_app by lia. f_equal; f_equal; lia.
Qed.

Lemma overlaps_spec a b :
  lsb a <= msb a -> lsb b <= msb b ->
  overlaps a b = true <-> exists x, x ∈ bits a /\ x ∈ bits b.
Proof.
  intros. unfold overlaps. rewrite negb_true_iff, orb_false_iff, !Z.ltb_ge.
  setoid_rewrite elem_of_bits. split.
  - intros. exists (Z.max (lsb a) (lsb b)). lia.
  - intros (x & ? & ?). lia.
Qed.

Lemma ascending_sorted (s : gset Z) : StronglySorted Z.lt (ascending s).
Proof.
  assert (StronglySorted Z.le (ascending s)) as Hs
    by exact (ascending_ordered s).
  pose proof (NoDup_ascending s) as Hnd.
  induction Hs as [|x l Hs IH Hall]; [constructor|].
  apply NoDup_cons in Hnd as [Hx Hnd]. constructor; [auto|].
  rewrite Forall_forall in *. intros y Hy. specialize (Hall y Hy).
  assert (x <> y) by (by intros ->). lia.
Qed.

(** What the atom loop yields from strictly ascending interior bounds. *)
Lemma atoms_loop_spec bs l m :
  l <= m -> StronglySorted Z.lt bs -> Forall (fun b => l < b <= m) bs ->
  concat (bits <$> atoms_loop l m bs) = bits (BitAccess_new l m) /\
  (forall a, a ∈ atoms_loop l m bs ->
     lsb a <= msb a /\ (lsb a = l \/ lsb a ∈ bs) /\
     forall b, b ∈ bs -> ~ (lsb a < b <= msb a)).
Proof.
  revert l. induction bs as [|b bs IH]; intros l Hlm Hs Hf; simpl.
  { rewrite decide_True by done. csimpl. rewrite app_nil_r. split; [done|].
    intros a ->%list_elem_of_singleton. simpl. set_solver. }
  apply StronglySorted_inv in Hs as [Hs Hall].
  apply Forall_cons in Hf as [Hb Hf].
  rewrite Forall_forall in Hf, Hall.
  destruct (IH b ltac:(lia) Hs) as [Hcat Hat].
  { apply Forall_forall. intros x Hx. specialize (Hall x Hx). specialize (Hf x Hx). lia. }
  split.
  { change (bits (BitAccess_new l (b - 1)) ++ concat (bits <$> atoms_loop b m bs)
            = bits (BitAccess_new l m)).
    rewrite Hcat. symmetry. apply bits_app; lia. }
  intros a [->|Ha]%elem_of_cons; simpl.
  - split; [lia|]. split; [auto|]. intros x [->|Hx]%elem_of_cons; [lia|].
    specialize (Hall x Hx). lia.
  - destruct (Hat a Ha) as (? & Hl & Hno). split; [done|]. split.
    { rewrite elem_of_cons. naive_solver. }
    intros x [->|Hx]%elem_of_cons; [|auto].
    destruct Hl as [->|Hl]; [lia|]. specialize (Hall _ Hl). lia.
Qed.

(** [BitAccess::calculate_atoms] cuts a range into consecutive atoms:
    their bits, concatenated in order, are exactly the bits of the range; each
    atom is non-empty, starts at the range or at a boundary, and no boundary
    falls strictly inside it. *)
Lemma calculate_atoms_partition (a : BitAccess) (bounds : gset Z) :
  lsb a <= msb a ->
  exists atoms, @calculate_atoms unit a bounds = Ok atoms /\
    concat (bits <$> atoms) = bits a /\
    (forall x, x ∈ atoms -> lsb x <= msb x /\
       (lsb x = lsb a \/ lsb x ∈ bounds) /\
       forall b, b ∈ bounds -> ~ (lsb x < b <= msb x)).
Proof.
  intros Hle. unfold calculate_atoms. rewrite decide_True by done.
  eexists. split; [done|]. destruct a as [l m]. simpl in *.
  set (bs := filter _ _).
  assert (forall b, b ∈ bs <-> (l < b <= m) /\ b ∈ bounds) as Hbs.
  { intros b. unfold bs. rewrite list_elem_of_filter, elem_of_ascending. tauto. }
  destruct (atoms_loop_spec bs l m Hle) as [Hcat Hat].
  { apply StronglySorted_filter, ascending_sorted. }
  { apply Forall_forall. intros b Hb%Hbs. lia. }
  split; [done|]. intros x Hx.
  destruct (Hat x Hx) as (? & Hl & Hno). split; [done|]. split; [rewrite Hbs in Hl; naive_solver|].
  intros b Hb Hin. apply (Hno b); [|done]. apply Hbs. split; [|done].
  assert (l <= lsb x) by (destruct Hl as [->|?%Hbs]; lia).
  assert (msb x <= m); [|lia].
  assert (msb x ∈ bits (BitAccess_new l m)) as ?%elem_of_bits; [|simpl in *; lia].
  rewrite <- Hcat. apply list_elem_of_In, in_concat.
  exists (bits x). split.
  - apply in_map_iff. eexists. split; [done|]. by apply list_elem_of_In.
  - apply list_elem_of_In, elem_of_bits. lia.
Qed.

