(* ===== verification/RangeStore.v ===== *)
(** * RangeStore: a bit-range partition with origins

    Models [crates/celox-slt/src/range_store.rs]. A store is a [BTreeMap]
    from the least bit of each range to [(value, width, origin)], where
    [origin] is the absolute bit at which bit 0 of [value] was placed. *)

From S2P Require Import Prelude OrdMap Design.

(** One constructor per error message of the source; the numbers are the
    ones the message interpolates. *)
Inductive RangeStoreError : Type :=
  | ZeroWidthTerminal
  | TotalWidthOverflow
  | WidthsDiffer (left right : Z)
  | LeftStoreEmpty
  | RightStoreEmpty
  | NotAtBitZero
  | ZeroWidthRange (lsb : Z)
  | RangeEndOverflow
  | NotEndingAtBoundary (lsb next : Z)
  | BoundariesNotOrdered
  | OriginAboveLsb
  | OriginAboveMsb
  | MalformedAccess (msb lsb : Z)
  | OutsideStore (msb lsb total : Z)
  | SplitOutsideStore (bit total : Z)
  | UpdatedEndOverflow
  | NotCoveringLsb.

Record part (T : Type) : Type := Part { pvalue : T; pwidth : Z; porigin : Z }.
Arguments Part {T} pvalue pwidth porigin.
Arguments pvalue {T} p.
Arguments pwidth {T} p.
Arguments porigin {T} p.

Abbreviation store T := (gmap Z (part T)).

Section store_ops.
Context {T : Type}.
Implicit Types (s : store T) (a : BitAccess).

(** [RangeStore::total_width] *)
Definition total_width s : result RangeStoreError Z :=
match last_entry s with
| None => Ok 0
| Some (last_lsb, p) =>
    if decide (pwidth p = 0) then Err ZeroWidthTerminal
    else ok_or TotalWidthOverflow (checked_add last_lsb (pwidth p))
end.

(** [RangeStore::new] *)
Definition new (initial : T) (width : Z) : store T :=
if decide (width > 0) then {[ 0 := Part initial width 0 ]} else ∅.

(** [RangeStore::validate_access] *)
Definition validate_access s a : result RangeStoreError Z :=
width ← ok_or (MalformedAccess (msb a) (lsb a))
          (span ← checked_sub (msb a) (lsb a); checked_add span 1);
total ← total_width s;
if decide (total = 0 \/ msb a >= total)
then Err (OutsideStore (msb a) (lsb a) total)
else Ok width.

(** [RangeStore::split_at] *)
Definition split_at (bit : Z) : SE (store T) RangeStoreError unit :=
if decide (bit = 0) then mret tt else
s ← se_get;
total ← se_lift (total_width s);
if decide (bit > total) then se_lift (Err (SplitOutsideStore bit total)) else
match pred_lt bit s with
| None => mret tt
| Some (lsb, p) =>
    if decide (pwidth p = 0) then se_lift (Err (ZeroWidthRange lsb)) else
    msb ← se_lift (ok_or RangeEndOverflow (checked_add lsb (pwidth p - 1)));
    if decide (bit > lsb /\ bit <= msb) then
      se_put (<[bit := Part (pvalue p) (msb - bit + 1) (porigin p)]>
              (<[lsb := Part (pvalue p) (bit - lsb) (porigin p)]> s))
    else mret tt
end.

(** [RangeStore::update] *)
Definition update a (value : T) : SE (store T) RangeStoreError unit :=
s ← se_get;
width ← se_lift (validate_access s a);
end_ ← se_lift (ok_or UpdatedEndOverflow (checked_add (msb a) 1));
_ ← split_at (lsb a);
_ ← split_at end_;
s ← se_get;
se_put (<[lsb a := Part value width (lsb a)]> (remove_range (lsb a) (msb a + 1) s)).

(** The loop body of [get_parts_ref] for one range of the store. *)
Definition overlap_part a (range_lsb : Z) (p : part T)
  : result RangeStoreError (option (T * BitAccess)) :=
if decide (pwidth p = 0) then Err (ZeroWidthRange range_lsb) else
range_msb ← ok_or RangeEndOverflow (checked_add range_lsb (pwidth p - 1));
let overlap_lsb := Z.max range_lsb (lsb a) in
let overlap_msb := Z.min range_msb (msb a) in
if decide (overlap_lsb <= overlap_msb) then
  relative_lsb ← ok_or OriginAboveLsb (checked_sub overlap_lsb (porigin p));
  relative_msb ← ok_or OriginAboveMsb (checked_sub overlap_msb (porigin p));
  Ok (Some (pvalue p, BitAccess_new relative_lsb relative_msb))
else Ok None.

Fixpoint collect_parts a (ranges : list (Z * part T))
  : result RangeStoreError (list (T * BitAccess)) :=
match ranges with
| [] => Ok []
| (range_lsb, p) :: ranges' =>
    o ← overlap_part a range_lsb p;
    parts ← collect_parts a ranges';
    Ok (match o with Some x => x :: parts | None => parts end)
end.

(** [RangeStore::get_parts_ref] (and [get_parts], which clones the values). *)
Definition get_parts s a : result RangeStoreError (list (T * BitAccess)) :=
_ ← validate_access s a;
match pred_le (lsb a) s with
| None => Err NotCoveringLsb
| Some (first_lsb, _) => collect_parts a (range_entries first_lsb (msb a + 1) s)
end.
End store_ops.

(** [validate_range_boundary] *)
Definition validate_range_boundary {T} (current : Z * part T) (next_lsb total_width : Z)
    : result RangeStoreError unit :=
  let '(lsb, p) := current in
  if decide (pwidth p = 0) then Err (ZeroWidthRange lsb) else
  end_ ← ok_or RangeEndOverflow (checked_add lsb (pwidth p));
  if decide (end_ <> next_lsb \/ end_ > total_width)
  then Err (NotEndingAtBoundary lsb next_lsb) else Ok tt.

(** [relative_access] *)
Definition relative_access (origin absolute_lsb absolute_msb : Z)
    : result RangeStoreError BitAccess :=
  l ← ok_or OriginAboveLsb (checked_sub absolute_lsb origin);
  m ← ok_or OriginAboveMsb (checked_sub absolute_msb origin);
  Ok (BitAccess_new l m).

Section aligned.
Context {T U : Type}.

(** [peek().map(|(next, _)| next).unwrap_or(total_width)] *)
Definition peek_boundary {W} (total_width : Z) (ranges : list (Z * part W)) : Z :=
match ranges with [] => total_width | (next, _) :: _ => next end.

(** The [while lsb < total_width] loop of [aligned_parts]; each iteration
  that does not return consumes a range of one of the two iterators, so
  [fuel] is the number of ranges of both stores. *)
Fixpoint aligned_loop (fuel : nat) (total_width lsb : Z)
  (left_ : Z * part T) (left_ranges : list (Z * part T))
  (right_ : Z * part U) (right_ranges : list (Z * part U))
  : result RangeStoreError (list (BitAccess * (T * BitAccess) * (U * BitAccess))) :=
if decide (lsb < total_width) then
  match fuel with
  | O => Panic
  | S fuel' =>
      let left_boundary := peek_boundary total_width left_ranges in
      let right_boundary := peek_boundary total_width right_ranges in
      _ ← validate_range_boundary left_ left_boundary total_width;
      _ ← validate_range_boundary right_ right_boundary total_width;
      let next_lsb := Z.min left_boundary right_boundary in
      if decide (next_lsb <= lsb) then Err BoundariesNotOrdered else
      let msb := next_lsb - 1 in
      left_access ← relative_access (porigin left_.2) lsb msb;
      right_access ← relative_access (porigin right_.2) lsb msb;
      '(left', left_ranges') ←
        (if decide (left_boundary = next_lsb /\ next_lsb < total_width) then
           match left_ranges with [] => Panic | e :: r => Ok (e, r) end
         else Ok (left_, left_ranges));
      '(right', right_ranges') ←
        (if decide (right_boundary = next_lsb /\ next_lsb < total_width) then
           match right_ranges with [] => Panic | e :: r => Ok (e, r) end
         else Ok (right_, right_ranges));
      parts ← aligned_loop fuel' total_width next_lsb left' left_ranges' right' right_ranges';
      Ok ((BitAccess_new lsb msb, (pvalue left_.2, left_access),
           (pvalue right_.2, right_access)) :: parts)
  end
else Ok [].

(** [RangeStore::aligned_parts] *)
Definition aligned_parts (s : store T) (other : store U)
  : result RangeStoreError (list (BitAccess * (T * BitAccess) * (U * BitAccess))) :=
tw ← total_width s;
ow ← total_width other;
if decide (tw <> ow) then Err (WidthsDiffer tw ow) else
if decide (tw = 0) then Ok [] else
match entries s with
| [] => Err LeftStoreEmpty
| left_ :: left_ranges =>
    match entries other with
    | [] => Err RightStoreEmpty
    | right_ :: right_ranges =>
        if decide (left_.1 <> 0 \/ right_.1 <> 0) then Err NotAtBitZero else
        aligned_loop (length left_ranges + length right_ranges + 1)
          tw 0 left_ left_ranges right_ right_ranges
    end
end.
End aligned.

(** ** Well-formedness and meaning of a store *)

(** A store of total width [w]: its ranges are non-empty, lie in [0, w),
    are pairwise disjoint, cover every bit, and no origin is above the range
    it belongs to. *)
Record wf {T} (s : store T) (w : Z) : Prop := {
  wf_width : 0 <= w <= usize_max;
  wf_part k p : s !! k = Some p ->
    0 <= k /\ 0 < pwidth p /\ k + pwidth p <= w /\ 0 <= porigin p <= k;
  wf_disj k p k' p' : s !! k = Some p -> s !! k' = Some p' -> k < k' ->
    k + pwidth p <= k';
  wf_cover b : 0 <= b < w -> exists k p, s !! k = Some p /\ k <= b < k + pwidth p
}.

(** Bit [b] of the store is bit [r] of value [v]. *)
Definition holds {T} (s : store T) (b : Z) (v : T) (r : Z) : Prop :=
  exists k p, s !! k = Some p /\ k <= b < k + pwidth p /\ v = pvalue p /\ r = b - porigin p.

(** No range of [s] has [bit] strictly inside. *)
Definition cut_at {T} (s : store T) (bit : Z) : Prop :=
  forall k p, s !! k = Some p -> ~ (k < bit < k + pwidth p).

Section store_facts.
Context {T : Type}.
Implicit Types (s : store T) (a : BitAccess).

Lemma holds_functional s w b v r v' r' :
  wf s w -> holds s b v r -> holds s b v' r' -> v = v' /\ r = r'.
Proof.
  intros Hwf (k & p & Hk & ? & -> & ->) (k' & p' & Hk' & ? & -> & ->).
  destruct (Z.lt_trichotomy k k') as [Hlt|[->|Hlt]].
  - pose proof (wf_disj _ _ Hwf _ _ _ _ Hk Hk' Hlt). lia.
  - by simplify_eq.
  - pose proof (wf_disj _ _ Hwf _ _ _ _ Hk' Hk Hlt). lia.
Qed.

Lemma total_width_wf s w : wf s w -> total_width s = Ok w.
Proof.
  intros Hwf. unfold total_width.
  destruct (last_entry s) as [[k p]|] eqn:Hl.
  - apply last_entry_Some in Hl as [Hk Hmax].
    pose proof (wf_part _ _ Hwf _ _ Hk). pose proof (wf_width _ _ Hwf).
    assert (k + pwidth p = w) as Heq.
    { destruct (wf_cover _ _ Hwf (w - 1)) as (k' & p' & Hk' & ?); [lia|].
      specialize (Hmax k' p' Hk').
      destruct (decide (k' = k)) as [->|]; [simplify_eq; lia|].
      pose proof (wf_disj _ _ Hwf _ _ _ _ Hk' Hk). lia. }
    rewrite decide_False by lia. unfold checked_add.
    rewrite decide_True by lia. simpl. by rewrite Heq.
  - apply last_entry_None in Hl as ->. f_equal.
    destruct (decide (w = 0)) as [->|]; [done|]. pose proof (wf_width _ _ Hwf).
    destruct (wf_cover _ _ Hwf 0) as (k & p & Hk & _); [lia|].
    by rewrite lookup_empty in Hk.
Qed.

Lemma new_wf (v : T) (w : Z) : 0 <= w <= usize_max -> wf (new v w) w.
Proof.
  intros Hw. unfold new. case_decide; split; try lia.
  - intros k p [<- <-]%lookup_singleton_Some. simpl. lia.
  - intros k p k' p' [<- <-]%lookup_singleton_Some [<- <-]%lookup_singleton_Some. lia.
  - intros b Hb. exists 0, (Part v w 0). rewrite lookup_singleton_eq. simpl. split; [done|lia].
  - intros k p. by rewrite lookup_empty.
  - intros k p k' p'. by rewrite lookup_empty.
Qed.

Lemma new_holds (v : T) (w b : Z) : 0 <= b < w -> holds (new v w) b v b.
Proof.
  intros. unfold new. rewrite decide_True by lia. exists 0, (Part v w 0).
  rewrite lookup_singleton_eq. simpl. repeat split; lia.
Qed.

(** *** Splitting *)

(** Replace the range at [k] by its two halves at [bit]. *)
Definition halves s (k bit : Z) (p : part T) : store T :=
  <[bit := Part (pvalue p) (k + pwidth p - bit) (porigin p)]>
    (<[k := Part (pvalue p) (bit - k) (porigin p)]> s).

Lemma halves_lookup s k bit p x q :
  k < bit -> halves s k bit p !! x = Some q <->
  (x = bit /\ q = Part (pvalue p) (k + pwidth p - bit) (porigin p)) \/
  (x = k /\ q = Part (pvalue p) (bit - k) (porigin p)) \/
  (x <> bit /\ x <> k /\ s !! x = Some q).
Proof. intros. unfold halves. rewrite !lookup_insert_Some. naive_solver lia. Qed.

Lemma halves_wf s w k bit p :
  wf s w -> s !! k = Some p -> k < bit < k + pwidth p -> wf (halves s k bit p) w.
Proof.
  intros Hwf Hk Hbit.
  pose proof (wf_part _ _ Hwf _ _ Hk) as Hp.
  assert (forall x q, s !! x = Some q -> x <> k -> x + pwidth q <= k \/ k + pwidth p <= x) as Hsep.
  { intros x q Hx Hne. destruct (decide (x < k)).
    - left. by apply (wf_disj _ _ Hwf _ _ _ _ Hx Hk).
    - right. apply (wf_disj _ _ Hwf _ _ _ _ Hk Hx). lia. }
  split.
  - apply Hwf.
  - intros x q Hx%halves_lookup; [|lia].
    destruct Hx as [[-> ->]|[[-> ->]|(? & ? & Hx)]]; simpl; try lia.
    by apply (wf_part _ _ Hwf).
  - intros x q x' q' Hx%halves_lookup Hx'%halves_lookup Hlt; [|lia..].
    destruct Hx as [[-> ->]|[[-> ->]|(? & ? & Hx)]];
      destruct Hx' as [[-> ->]|[[-> ->]|(? & ? & Hx')]]; simpl; try lia;
      try (pose proof (Hsep _ _ Hx'); pose proof (wf_part _ _ Hwf _ _ Hx'); lia);
      try (pose proof (Hsep _ _ Hx); pose proof (wf_part _ _ Hwf _ _ Hx); lia).
    by apply (wf_disj _ _ Hwf _ _ _ _ Hx Hx').
  - intros b Hb. destruct (wf_cover _ _ Hwf b Hb) as (x & q & Hx & Hin).
    destruct (decide (x = k)) as [->|Hne].
    + simplify_eq. destruct (decide (b < bit)).
      * exists k, (Part (pvalue p) (bit - k) (porigin p)).
        rewrite halves_lookup by lia. simpl. split; [|lia]. right. left. done.
      * exists bit, (Part (pvalue p) (k + pwidth p - bit) (porigin p)).
        rewrite halves_lookup by lia. simpl. split; [|lia]. by left.
    + exists x, q. split; [|done]. apply halves_lookup; [lia|].
      right. right. split; [|done]. intros ->.
      destruct (Hsep _ _ Hx Hne); pose proof (wf_part _ _ Hwf _ _ Hx); lia.
Qed.

Lemma halves_holds s w k bit p b v r :
  wf s w -> s !! k = Some p -> k < bit < k + pwidth p ->
  holds (halves s k bit p) b v r <-> holds s b v r.
Proof.
  intros Hwf Hk Hbit.
  assert (forall v r, holds s b v r -> holds (halves s k bit p) b v r) as Hback.
  { clear v r. intros v r (x & q & Hx & Hin & -> & ->).
    destruct (decide (x = k)) as [->|Hne]; [simplify_eq; destruct (decide (b < bit))|].
    - eexists _, _. rewrite halves_lookup by lia.
      split; [right; left; eauto|]. simpl. repeat split; lia.
    - eexists _, _. rewrite halves_lookup by lia. split; [left; eauto|]. simpl. repeat split; lia.
    - exists x, q. rewrite halves_lookup by lia. split; [|done].
      right. right. split; [|done]. intros ->.
      pose proof (wf_disj _ _ Hwf _ _ _ _ Hk Hx ltac:(lia)). lia. }
  split; [|apply Hback].
  intros Hh. pose proof (halves_wf _ _ _ _ _ Hwf Hk Hbit) as Hwf'.
  assert (exists v r, holds s b v r) as (v' & r' & Hh').
  { assert (0 <= b < w) as Hb.
    { destruct Hh as (x & q & Hx & ? & _). pose proof (wf_part _ _ Hwf' _ _ Hx). lia. }
    destruct (wf_cover _ _ Hwf b Hb) as (x & q & Hx & ?). eexists _, _, _, _. eauto. }
  destruct (holds_functional _ _ _ _ _ _ _ Hwf' Hh (Hback _ _ Hh')) as [-> ->]. done.
Qed.
End store_facts.

Section operation_facts.
Context {T : Type}.
Implicit Types (s : store T) (a : BitAccess).

Lemma split_at_wf s w bit :
  wf s w -> 0 <= bit <= w ->
  exists s', split_at bit s = (s', Ok tt) /\ wf s' w /\ cut_at s' bit /\
    (forall b v r, holds s' b v r <-> holds s b v r) /\
    (forall x, cut_at s x -> cut_at s' x).
Proof.
  intros Hwf Hbit. unfold split_at. case_decide as Hz.
  { exists s. split_and!; try done; subst.
    intros k p Hk. pose proof (wf_part _ _ Hwf _ _ Hk). lia. }
  msimpl. rewrite (total_width_wf _ _ Hwf). msimpl. rewrite decide_False by lia.
  unfold pred_lt. destruct (pred_le (bit - 1) s) as [[k p]|] eqn:Hpred.
  - apply pred_le_Some in Hpred as (Hk & Hle & Hmax).
    pose proof (wf_part _ _ Hwf _ _ Hk) as Hp. pose proof (wf_width _ _ Hwf).
    rewrite decide_False by lia. unfold checked_add. rewrite decide_True by lia. msimpl.
    case_decide as Hin; msimpl.
    + replace (k + (pwidth p - 1) - bit + 1) with (k + pwidth p - bit) by lia.
      exists (halves s k bit p). split; [done|].
      split; [by apply halves_wf; [..|lia]|]. split; [|split].
      * intros x q Hx%halves_lookup Hb; [|lia].
        destruct Hx as [[-> ->]|[[-> ->]|(? & ? & Hx)]]; simpl in *; try lia.
        assert (x <= k) by (apply (Hmax x q Hx); lia).
        pose proof (wf_disj _ _ Hwf _ _ _ _ Hx Hk). lia.
      * intros. apply (halves_holds _ w); try done; lia.
      * intros x Hcut y q Hy%halves_lookup Hb; [|lia].
        destruct Hy as [[-> ->]|[[-> ->]|(? & ? & Hy)]]; simpl in *.
        -- apply (Hcut _ _ Hk). lia.
        -- apply (Hcut _ _ Hk). lia.
        -- by apply (Hcut _ _ Hy).
    + exists s. split_and!; try done.
      intros x q Hx Hb. assert (x <= k) by (apply (Hmax x q Hx); lia).
      destruct (decide (x = k)) as [->|]; [simplify_eq; lia|].
      pose proof (wf_disj _ _ Hwf _ _ _ _ Hx Hk). lia.
  - rewrite pred_le_None in Hpred. msimpl. exists s. split_and!; try done.
    intros x q Hx Hb. specialize (Hpred x q Hx). lia.
Qed.

Lemma split_at_outside s w bit :
  wf s w -> w < bit -> split_at bit s = (s, Err (SplitOutsideStore bit w)).
Proof.
  intros Hwf Hbit. unfold split_at. pose proof (wf_width _ _ Hwf).
  rewrite decide_False by lia. msimpl. rewrite (total_width_wf _ _ Hwf). msimpl.
  by rewrite decide_True by lia.
Qed.

Lemma validate_access_wf s w a :
  wf s w -> 0 <= lsb a <= msb a -> msb a < w ->
  validate_access s a = Ok (msb a - lsb a + 1).
Proof.
  intros Hwf Ha Hin. pose proof (wf_width _ _ Hwf). unfold validate_access, checked_sub.
  rewrite decide_True by lia. msimpl. unfold checked_add. rewrite decide_True by lia.
  msimpl. rewrite (total_width_wf _ _ Hwf). msimpl. by rewrite decide_False by lia.
Qed.

(** Replacing the ranges between two cuts by one. *)
Lemma overwrite_lookup s l m (q : part T) k p :
  <[l := q]> (remove_range l (m + 1) s) !! k = Some p <->
  (k = l /\ p = q) \/ (~ (l <= k <= m) /\ k <> l /\ s !! k = Some p).
Proof.
  rewrite lookup_insert_Some, lookup_remove_range. case_decide; naive_solver lia.
Qed.

Lemma overwrite_wf s w l m v :
  wf s w -> 0 <= l <= m -> m < w -> cut_at s l -> cut_at s (m + 1) ->
  wf (<[l := Part v (m - l + 1) l]> (remove_range l (m + 1) s)) w.
Proof.
  intros Hwf Hlm Hm Hcl Hcm.
  assert (forall k p, s !! k = Some p -> ~ (l <= k <= m) ->
    k + pwidth p <= l \/ m + 1 <= k) as Hout.
  { intros k p Hk Hn. pose proof (Hcl _ _ Hk). pose proof (wf_part _ _ Hwf _ _ Hk). lia. }
  split.
  - apply Hwf.
  - intros k p [[-> ->]|(? & ? & Hk)]%overwrite_lookup; simpl; [lia|].
    by apply (wf_part _ _ Hwf).
  - intros k p k' p' Hk%overwrite_lookup Hk'%overwrite_lookup Hlt.
    destruct Hk as [[-> ->]|(? & ? & Hk)]; destruct Hk' as [[-> ->]|(? & ? & Hk')]; simpl; try lia.
    + pose proof (Hout _ _ Hk). pose proof (wf_part _ _ Hwf _ _ Hk). lia.
    + by apply (wf_disj _ _ Hwf _ _ _ _ Hk Hk').
  - intros b Hb. destruct (decide (l <= b <= m)).
    { exists l, (Part v (m - l + 1) l). rewrite overwrite_lookup. simpl. split; [by left|lia]. }
    destruct (wf_cover _ _ Hwf b Hb) as (k & p & Hk & ?).
    exists k, p. rewrite overwrite_lookup. split; [|done]. right.
    pose proof (Hcl _ _ Hk). pose proof (Hcm _ _ Hk). split; [lia|]. split; [lia|done].
Qed.

Lemma overwrite_holds s w l m v b v' r :
  wf s w -> 0 <= l <= m -> m < w -> cut_at s l -> cut_at s (m + 1) ->
  holds (<[l := Part v (m - l + 1) l]> (remove_range l (m + 1) s)) b v' r <->
  if decide (l <= b <= m) then v' = v /\ r = b - l else holds s b v' r.
Proof.
  intros Hwf Hlm Hm Hcl Hcm. case_decide as Hb; split.
  - intros (k & p & Hk%overwrite_lookup & Hin & -> & ->).
    destruct Hk as [[-> ->]|(? & ? & Hk)]; [done|].
    pose proof (Hcl _ _ Hk). pose proof (Hcm _ _ Hk). lia.
  - intros [-> ->]. eexists _, _. rewrite overwrite_lookup. split; [by left|]. simpl.
    repeat split; lia.
  - intros (k & p & Hk%overwrite_lookup & Hin & -> & ->).
    destruct Hk as [[-> ->]|(? & ? & Hk)]; simpl in *; [lia|]. by exists k, p.
  - intros (k & p & Hk & Hin & -> & ->). exists k, p. rewrite overwrite_lookup.
    split; [|done]. right. pose proof (Hcl _ _ Hk). pose proof (Hcm _ _ Hk).
    split; [lia|]. split; [lia|done].
Qed.
End operation_facts.

(** On a well-formed store, [RangeStore::split_at] at any bit of the
    store succeeds, keeps the store well-formed and the meaning of every bit
    (value and bit within it), and leaves no range straddling the position;
    beyond the store it fails and changes nothing. *)
Lemma split_at_correct {T} (s : store T) (w bit : Z) :
  wf s w -> 0 <= bit ->
  (bit <= w -> exists s', split_at bit s = (s', Ok tt) /\ wf s' w /\ cut_at s' bit /\
     forall b v r, holds s' b v r <-> holds s b v r) /\
  (w < bit -> split_at bit s = (s, Err (SplitOutsideStore bit w))).
Proof.
  intros Hwf Hbit. split.
  - intros Hle. destruct (split_at_wf s w bit Hwf) as (s' & ? & ? & ? & ? & _); [lia|]. by exists s'.
  - by apply split_at_outside.
Qed.

(** C32: [RangeStore::update] on a well-formed store and a range inside it
    succeeds, keeps the store well-formed, and afterwards exactly the bits of
    the range read as the new value, counted from the range's least bit;
    every other bit keeps its value and relative position. *)
Theorem update_correct {T} (s : store T) (w : Z) (a : BitAccess) (v : T) :
  wf s w -> 0 <= lsb a <= msb a -> msb a < w ->
  exists s', update a v s = (s', Ok tt) /\ wf s' w /\
    forall b v' r, holds s' b v' r <->
      if decide (lsb a <= b <= msb a) then v' = v /\ r = b - lsb a else holds s b v' r.
Proof.
  intros Hwf Ha Hin. pose proof (wf_width _ _ Hwf).
  destruct (split_at_wf s w (lsb a) Hwf ltac:(lia)) as (s1 & H1 & Hwf1 & Hc1 & Hh1 & _).
  destruct (split_at_wf s1 w (msb a + 1) Hwf1 ltac:(lia)) as (s2 & H2 & Hwf2 & Hc2 & Hh2 & Hcc).
  exists (<[lsb a := Part v (msb a - lsb a + 1) (lsb a)]> (remove_range (lsb a) (msb a + 1) s2)).
  split; [|split].
  - unfold update. msimpl. rewrite (validate_access_wf _ _ _ Hwf Ha Hin). msimpl.
    unfold checked_add. rewrite decide_True by lia. msimpl. rewrite H1. msimpl. rewrite H2. done.
  - by apply overwrite_wf; auto.
  - intros b v' r. rewrite (overwrite_holds _ w) by auto. case_decide; [done|].
    by rewrite Hh2, Hh1.
Qed.

(** ** Reading *)

(** Consecutive ranges from [cur] to [e]. *)
Fixpoint chain {T} (cur e : Z) (l : list (Z * part T)) : Prop :=
  match l with
  | [] => cur = e
  | (k, p) :: l' => k = cur /\ 0 < pwidth p /\ 0 <= porigin p <= k /\ chain (k + pwidth p) e l'
  end.

(** Bits of the value a part of a read stands for. *)
Definition expand {T} (x : T * BitAccess) : list (T * Z) := (fun r => (x.1, r)) <$> bits x.2.

Section reading.
Context {T : Type}.
Implicit Types (s : store T) (a : BitAccess) (l : list (Z * part T)).

Lemma chain_le cur e l : chain cur e l -> cur <= e.
Proof.
  revert cur. induction l as [|[k p] l IH]; simpl; intros cur; [lia|].
  intros (-> & ? & ? & H). apply IH in H. lia.
Qed.

Lemma chain_elem cur e l k p :
  chain cur e l -> (k, p) ∈ l -> cur <= k /\ k + pwidth p <= e.
Proof.
  revert cur. induction l as [|[k' p'] l IH]; simpl; intros cur.
  { by intros _ ?%not_elem_of_nil. }
  intros (-> & ? & ? & H) [[= -> ->]|Hin]%elem_of_cons.
  - apply chain_le in H. lia.
  - apply (IH _ H) in Hin. lia.
Qed.

(** Ascending, disjoint, covering ranges are consecutive. *)
Lemma chain_of_cover l cur e :
  StronglySorted entry_lt l -> cur <= e ->
  (forall k p, (k, p) ∈ l -> cur <= k /\ 0 < pwidth p /\ k + pwidth p <= e /\
     0 <= porigin p <= k) ->
  (forall k p k' p', (k, p) ∈ l -> (k', p') ∈ l -> k < k' -> k + pwidth p <= k') ->
  (forall b, cur <= b < e -> exists k p, (k, p) ∈ l /\ k <= b < k + pwidth p) ->
  chain cur e l.
Proof.
  intros Hs. revert cur. induction Hs as [|[k p] l Hs IH Hall]; intros cur Hle Hp Hd Hc; simpl.
  { destruct (decide (cur = e)); [done|].
    destruct (Hc cur) as (? & ? & []%not_elem_of_nil & _). lia. }
  rewrite Forall_forall in Hall. setoid_rewrite elem_of_cons in Hp.
  setoid_rewrite elem_of_cons in Hd. setoid_rewrite elem_of_cons in Hc.
  destruct (Hp k p) as (? & ? & ? & ?); [by left|].
  assert (k = cur) as ->.
  { destruct (Hc cur) as (k' & p' & [[= -> ->]|Hin] & ?); [lia..|].
    specialize (Hall _ Hin). unfold entry_lt in Hall. simpl in Hall. lia. }
  split_and!; try lia. apply IH; [lia|..].
  - intros k' p' Hin. specialize (Hall _ Hin). unfold entry_lt in Hall. simpl in Hall.
    pose proof (Hd cur p k' p' ltac:(by left) ltac:(by right) Hall).
    destruct (Hp k' p'); [by right|]. naive_solver.
  - intros k' p' k'' p'' ? ?. apply (Hd k' p' k'' p''); by right.
  - intros b Hb. destruct (Hc b) as (k' & p' & [[= -> ->]|Hin] & ?); [lia..|]. by exists k', p'.
Qed.

Lemma chain_entries s w : wf s w -> chain 0 w (entries s).
Proof.
  intros Hwf. apply chain_of_cover.
  - apply entries_sorted.
  - apply Hwf.
  - intros k p Hk%elem_of_entries. apply (wf_part _ _ Hwf _ _ Hk).
  - intros k p k' p' Hk%elem_of_entries Hk'%elem_of_entries.
    by apply (wf_disj _ _ Hwf k p k' p').
  - intros b Hb. destruct (wf_cover _ _ Hwf b Hb) as (k & p & Hk & ?).
    exists k, p. by rewrite elem_of_entries.
Qed.

(** The ranges [get_parts] visits are consecutive. *)
Lemma chain_range s w first p0 hi :
  wf s w -> s !! first = Some p0 -> first <= hi -> hi < w ->
  exists e, chain first e (range_entries first (hi + 1) s) /\ hi < e <= w.
Proof.
  intros Hwf Hf Hle Hhi. pose proof (wf_part _ _ Hwf _ _ Hf).
  destruct (wf_cover _ _ Hwf hi) as (kl & pl & Hl & Hinl); [lia|].
  pose proof (wf_part _ _ Hwf _ _ Hl).
  assert (first <= kl).
  { destruct (decide (kl < first)); [|lia].
    pose proof (wf_disj _ _ Hwf _ _ _ _ Hl Hf). lia. }
  exists (kl + pwidth pl). split; [|lia]. apply chain_of_cover.
  - apply range_entries_sorted.
  - lia.
  - intros k p [Hk ?]%elem_of_range_entries. pose proof (wf_part _ _ Hwf _ _ Hk).
    split_and!; try lia.
    destruct (Z.lt_trichotomy k kl) as [?|[->|?]].
    + pose proof (wf_disj _ _ Hwf _ _ _ _ Hk Hl). lia.
    + simplify_eq. lia.
    + pose proof (wf_disj _ _ Hwf _ _ _ _ Hl Hk). lia.
  - intros k p k' p' [Hk _]%elem_of_range_entries [Hk' _]%elem_of_range_entries.
    by apply (wf_disj _ _ Hwf k p k' p').
  - intros b Hb. destruct (wf_cover _ _ Hwf b) as (k & p & Hk & Hin); [lia|].
    exists k, p. rewrite elem_of_range_entries. split_and!; try done; try lia.
    + destruct (decide (k < first)); [|lia].
      pose proof (wf_disj _ _ Hwf _ _ _ _ Hk Hf). lia.
    + destruct (decide (hi < k)); [|lia].
      pose proof (wf_disj _ _ Hwf _ _ _ _ Hl Hk). lia.
Qed.

Definition in_part l (b : Z) (x : T * Z) : Prop :=
  exists k p, (k, p) ∈ l /\ k <= b < k + pwidth p /\ x = (pvalue p, b - porigin p).

(** Shifting a range of bits by an origin. *)
Lemma expand_shift (lo m o : Z) (v : T) (P : Z -> T * Z -> Prop) :
  (forall b, lo <= b <= m -> P b (v, b - o)) ->
  Forall2 P (bits (BitAccess_new lo m)) (expand (v, BitAccess_new (lo - o) (m - o))).
Proof.
  intros HP. unfold expand, bits. simpl.
  replace (m - o - (lo - o) + 1) with (m - lo + 1) by lia.
  apply Forall2_fmap_r, Forall2_same_length_lookup.
  rewrite !length_seqZ. split; [done|].
  intros i b r [-> ?]%lookup_seqZ [-> ?]%lookup_seqZ.
  replace (lo - o + Z.of_nat i) with (lo + Z.of_nat i - o) by lia. apply HP. lia.
Qed.

Lemma collect_parts_spec a l cur e :
  chain cur e l -> 0 <= cur -> msb a < e <= usize_max -> (forall k p, (k, p) ∈ l -> k <= msb a) ->
  0 <= lsb a <= msb a ->
  exists parts, collect_parts a l = Ok parts /\
    Forall2 (in_part l) (bits (BitAccess_new (Z.max cur (lsb a)) (msb a)))
      (concat (expand <$> parts)).
Proof.
  revert cur. induction l as [|[k p] l IH]; simpl; intros cur Hch Hcur He Hmax Ha.
  { subst. exists []. split; [done|]. rewrite bits_nil by lia. constructor. }
  destruct Hch as (-> & Hpos & Ho & Hch).
  destruct (IH _ Hch) as (parts & Hcol & Hf2); [lia|done|..].
  { intros k' p' ?. apply (Hmax k' p'). by apply elem_of_cons; right. }
  { done. }
  pose proof (chain_le _ _ _ Hch).
  assert (cur <= msb a) by (apply (Hmax cur p); apply elem_of_cons; by left).
  assert (Himp : forall b x, in_part l b x -> in_part ((cur, p) :: l) b x).
  { intros b x (k' & p' & ? & ? & ?). exists k', p'. rewrite elem_of_cons. auto. }
  unfold overlap_part. rewrite decide_False by lia. unfold checked_add.
  rewrite decide_True by lia. msimpl. unfold checked_sub.
  case_decide as Hov.
  - rewrite decide_True by lia. msimpl. rewrite decide_True by lia. msimpl.
    rewrite Hcol. eexists. split; [reflexivity|]. csimpl.
    set (l0 := Z.max cur (lsb a)) in *. set (m0 := Z.min (cur + (pwidth p - 1)) (msb a)) in *.
    rewrite (bits_app l0 (m0 + 1)) by lia. change (concat (?x :: ?y)) with (x ++ concat y).
    apply Forall2_app.
    + replace (m0 + 1 - 1) with m0 by lia. apply expand_shift.
      intros b Hb. exists cur, p. rewrite elem_of_cons. split_and!; [by left|lia..|done].
    + destruct (decide (cur + (pwidth p - 1) <= msb a)).
      * replace (m0 + 1) with (Z.max (cur + pwidth p) (lsb a)) by lia.
        eapply Forall2_impl; [exact Hf2|]. auto.
      * rewrite bits_nil by lia. rewrite bits_nil in Hf2 by lia.
        apply Forall2_nil_inv_l in Hf2. rewrite Hf2. constructor.
  - rewrite Hcol. eexists. split; [reflexivity|]. simpl.
    replace (Z.max cur (lsb a)) with (Z.max (cur + pwidth p) (lsb a)) by lia.
    eapply Forall2_impl; [exact Hf2|]. auto.
Qed.
End reading.

(** C36: [RangeStore::get_parts] on a well-formed store and a range inside it
    succeeds; expanding the parts it returns, in order, lists for every bit
    of the range, from the least, the value that bit holds and the bit's
    position within it. *)
Theorem get_parts_correct {T} (s : store T) (w : Z) (a : BitAccess) :
  wf s w -> 0 <= lsb a <= msb a -> msb a < w ->
  exists parts, get_parts s a = Ok parts /\
    Forall2 (fun b x => holds s b x.1 x.2) (bits a) (concat (expand <$> parts)).
Proof.
  intros Hwf Ha Hin. pose proof (wf_width _ _ Hwf). unfold get_parts.
  rewrite (validate_access_wf _ _ _ Hwf Ha Hin). msimpl.
  destruct (pred_le (lsb a) s) as [[first p0]|] eqn:Hpred.
  - apply pred_le_Some in Hpred as (Hf & Hle & Hmax).
    destruct (chain_range _ _ _ _ (msb a) Hwf Hf) as (e & Hch & ?); [lia..|].
    pose proof (wf_part _ _ Hwf _ _ Hf).
    destruct (collect_parts_spec a _ _ _ Hch) as (parts & Hcol & Hf2); [lia..| |done|].
    { intros k p [_ ?]%elem_of_range_entries. lia. }
    exists parts. split; [done|]. rewrite Z.max_r in Hf2 by lia.
    destruct a as [l m]. eapply Forall2_impl; [exact Hf2|].
    intros b x (k & p & [Hk _]%elem_of_range_entries & ? & ->). exists k, p. auto.
  - rewrite pred_le_None in Hpred.
    destruct (wf_cover _ _ Hwf (lsb a)) as (k & p & Hk & ?); [lia|].
    specialize (Hpred _ _ Hk). lia.
Qed.

(** A malformed range, or one that reaches past the store, is rejected by
    both [update] and [get_parts], and the rejected update leaves the store
    as it was. *)
Lemma access_outside_rejected {T} (s : store T) (w : Z) (a : BitAccess) (v : T) :
  wf s w -> is_usize (lsb a) -> is_usize (msb a) -> msb a < lsb a \/ w <= msb a ->
  exists e, update a v s = (s, Err e) /\ get_parts s a = Err e /\
    e ∈ [MalformedAccess (msb a) (lsb a); OutsideStore (msb a) (lsb a) w].
Proof.
  intros Hwf Hl Hm Hbad. unfold is_usize in *.
  assert (exists e, validate_access s a = Err e /\
    e ∈ [MalformedAccess (msb a) (lsb a); OutsideStore (msb a) (lsb a) w]) as (e & He & Hin).
  { unfold validate_access, checked_sub. case_decide as Hd; msimpl; [|eexists; split; [done|set_solver]].
    unfold checked_add. case_decide; msimpl; [|eexists; split; [done|set_solver]].
    rewrite (total_width_wf _ _ Hwf). msimpl. rewrite decide_True by lia.
    eexists. split; [done|set_solver]. }
  exists e. unfold update, get_parts. msimpl. by rewrite He.
Qed.

(** ** Aligning two stores *)

(** The bits of one aligned part: absolute bit, left reading, right reading. *)
Definition expand2 {T U} (x : BitAccess * (T * BitAccess) * (U * BitAccess))
    : list (Z * ((T * Z) * (U * Z))) :=
  zip (bits x.1.1) (zip (expand x.1.2) (expand x.2)).

Section aligned_facts.
Context {T U : Type}.

Lemma expand2_shift (lo m o o' : Z) (v : T) (u : U) (P : Z -> Z * ((T * Z) * (U * Z)) -> Prop) :
  (forall b, lo <= b <= m -> P b (b, ((v, b - o), (u, b - o')))) ->
  Forall2 P (bits (BitAccess_new lo m))
    (expand2 (BitAccess_new lo m, (v, BitAccess_new (lo - o) (m - o)),
              (u, BitAccess_new (lo - o') (m - o')))).
Proof.
  intros HP. unfold expand2, expand, bits. simpl.
  replace (m - o - (lo - o) + 1) with (m - lo + 1) by lia.
  replace (m - o' - (lo - o') + 1) with (m - lo + 1) by lia.
  apply Forall2_same_length_lookup. split.
  { rewrite !length_zip, !length_fmap, !length_seqZ. lia. }
  intros i b [b' [x y]] [-> ?]%lookup_seqZ Hz.
  apply lookup_zip_with_Some in Hz as (? & xy & [= -> ->] & [-> ?]%lookup_seqZ & Hz).
  apply lookup_zip_with_Some in Hz as (? & ? & -> & Hx & Hy).
  apply list_lookup_fmap_Some in Hx as (? & -> & [-> ?]%lookup_seqZ).
  apply list_lookup_fmap_Some in Hy as (? & -> & [-> ?]%lookup_seqZ).
  replace (lo - o + Z.of_nat i) with (lo + Z.of_nat i - o) by lia.
  replace (lo - o' + Z.of_nat i) with (lo + Z.of_nat i - o') by lia.
  apply HP. lia.
Qed.

Lemma peek_boundary_chain {W} (k tw : Z) (p : part W) r :
  chain k tw ((k, p) :: r) -> peek_boundary tw r = k + pwidth p.
Proof. destruct r as [|[k' p'] r]; simpl; intros; naive_solver. Qed.

Lemma validate_range_boundary_chain {W} (k tw : Z) (p : part W) r :
  0 <= k -> tw <= usize_max -> chain k tw ((k, p) :: r) ->
  validate_range_boundary (k, p) (k + pwidth p) tw = Ok tt.
Proof.
  intros Hk Htw (_ & ? & ? & Hch). apply chain_le in Hch.
  unfold validate_range_boundary. rewrite decide_False by lia.
  unfold checked_add. rewrite decide_True by lia. msimpl. by rewrite decide_False by lia.
Qed.

(** Advance an iterator at a common boundary. *)
Lemma advance_chain {W} (k tw next : Z) (p : part W) r :
  chain k tw ((k, p) :: r) -> 0 <= k < next -> next <= k + pwidth p -> next < tw ->
  exists k' p' r',
    (if decide (k + pwidth p = next /\ next < tw) then
       match r with [] => Panic | e :: r => Ok (e, r) end
     else Ok ((k, p), r)) = @Ok RangeStoreError _ ((k', p'), r') /\
    chain k' tw ((k', p') :: r') /\ 0 <= k' <= next /\ next < k' + pwidth p' /\
    (k' = next /\ (length r' < length r)%nat \/ next < k + pwidth p /\ (length r' <= length r)%nat) /\
    (forall b x, in_part ((k', p') :: r') b x -> in_part ((k, p) :: r) b x).
Proof.
  intros Hch Hk Hn Htw. destruct Hch as (_ & Hp & Ho & Hch). case_decide as Hd.
  - destruct r as [|[k' p'] r']; [simpl in Hch; lia|].
    pose proof Hch as Hch'. destruct Hch' as (-> & Hp' & _ & _).
    exists (k + pwidth p), p', r'. split_and!; try done; try lia.
    + left. split; [lia|]. simpl. lia.
    + intros b x (k2 & p2 & Hin & ?). exists k2, p2. rewrite elem_of_cons. auto.
  - exists k, p, r. split_and!; try done; try lia.
Qed.

Lemma aligned_loop_spec fuel tw lo kl (pl : part T) lr kr (pr : part U) rr :
  chain kl tw ((kl, pl) :: lr) -> chain kr tw ((kr, pr) :: rr) ->
  0 <= kl <= lo -> lo < kl + pwidth pl -> 0 <= kr <= lo -> lo < kr + pwidth pr ->
  lo < tw <= usize_max -> (length lr + length rr < fuel)%nat ->
  exists parts, aligned_loop fuel tw lo (kl, pl) lr (kr, pr) rr = Ok parts /\
    Forall2 (fun b x => x.1 = b /\ in_part ((kl, pl) :: lr) b x.2.1 /\
                        in_part ((kr, pr) :: rr) b x.2.2)
      (bits (BitAccess_new lo (tw - 1))) (concat (expand2 <$> parts)).
Proof.
  revert lo kl pl lr kr pr rr.
  induction fuel as [|fuel IH]; intros lo kl pl lr kr pr rr Hl Hr ???? Htw Hfuel; [lia|].
  cbn [aligned_loop]. rewrite decide_True by lia.
  rewrite (peek_boundary_chain _ _ _ _ Hl), (peek_boundary_chain _ _ _ _ Hr).
  rewrite (validate_range_boundary_chain kl tw pl lr) by (done || lia).
  rewrite (validate_range_boundary_chain kr tw pr rr) by (done || lia). msimpl.
  set (next := Z.min (kl + pwidth pl) (kr + pwidth pr)).
  rewrite decide_False by lia. pose proof Hl as (_ & ? & ? & Hlt). pose proof Hr as (_ & ? & ? & Hrt).
  apply chain_le in Hlt, Hrt. unfold relative_access, checked_sub. cbn [fst snd].
  rewrite !decide_True by lia. msimpl.
  assert (Hone : Forall2 (fun b x => x.1 = b /\ in_part ((kl, pl) :: lr) b x.2.1 /\
                        in_part ((kr, pr) :: rr) b x.2.2)
    (bits (BitAccess_new lo (next - 1)))
    (expand2 (BitAccess_new lo (next - 1),
      (pvalue pl, BitAccess_new (lo - porigin pl) (next - 1 - porigin pl)),
      (pvalue pr, BitAccess_new (lo - porigin pr) (next - 1 - porigin pr))))).
  { apply expand2_shift. intros b Hb. simpl. split_and!; [done|..].
    - exists kl, pl. rewrite elem_of_cons. split_and!; [by left|lia..|done].
    - exists kr, pr. rewrite elem_of_cons. split_and!; [by left|lia..|done]. }
  destruct (decide (next < tw)) as [Hlast|Hlast].
  - destruct (advance_chain kl tw next pl lr Hl) as (kl' & pl' & lr' & El & Hl' & ? & ? & Hcl & Hil); [lia..|].
    destruct (advance_chain kr tw next pr rr Hr) as (kr' & pr' & rr' & Er & Hr' & ? & ? & Hcr & Hir); [lia..|].
    rewrite El. msimpl. rewrite Er. msimpl.
    destruct (IH next kl' pl' lr' kr' pr' rr' Hl' Hr') as (parts & -> & Hf2); [lia..|].
    eexists. split; [reflexivity|].
    rewrite (bits_app lo next) by lia. csimpl. apply Forall2_app; [exact Hone|].
    eapply Forall2_impl; [exact Hf2|]. naive_solver.
  - rewrite !(decide_False (P := _ /\ next < tw)) by lia. msimpl.
    destruct fuel as [|fuel]; cbn [aligned_loop]; rewrite decide_False by lia;
      (eexists; split; [reflexivity|]; csimpl; rewrite app_nil_r;
       replace (tw - 1) with (next - 1) by lia; exact Hone).
Qed.
End aligned_facts.

(** [RangeStore::aligned_parts] never fails on two well-formed stores of
    the same width (its loop runs to completion), and the parts, expanded in
    order, list every bit from 0 to the width once, with what the left and
    what the right store hold there. *)
Lemma aligned_parts_correct {T U} (s : store T) (o : store U) (w : Z) :
  wf s w -> wf o w ->
  exists parts, aligned_parts s o = Ok parts /\
    Forall2 (fun b x => x.1 = b /\ holds s b x.2.1.1 x.2.1.2 /\ holds o b x.2.2.1 x.2.2.2)
      (bits (BitAccess_new 0 (w - 1))) (concat (expand2 <$> parts)).
Proof.
  intros Hs Ho. pose proof (wf_width _ _ Hs). unfold aligned_parts.
  rewrite (total_width_wf _ _ Hs), (total_width_wf _ _ Ho). msimpl.
  rewrite decide_False by lia. case_decide as Hw.
  { exists []. split; [done|]. rewrite bits_nil by lia. constructor. }
  pose proof (chain_entries _ _ Hs) as Hcs. pose proof (chain_entries _ _ Ho) as Hco.
  destruct (entries s) as [|[kl pl] lr] eqn:Es; [simpl in Hcs; lia|].
  destruct (entries o) as [|[kr pr] rr] eqn:Eo; [simpl in Hco; lia|].
  pose proof Hcs as (-> & ? & ? & _). pose proof Hco as (-> & ? & ? & _).
  rewrite decide_False by (simpl; lia).
  destruct (aligned_loop_spec (length lr + length rr + 1) w 0 0 pl lr 0 pr rr Hcs Hco)
    as (parts & Hl & Hf2); [lia..|].
  exists parts. split; [done|]. eapply Forall2_impl; [exact Hf2|].
  intros b x (-> & (k & p & Hin & ? & Hx) & (k' & p' & Hin' & ? & Hx')).
  split; [done|]. rewrite Hx, Hx'. split.
  - exists k, p. rewrite <- elem_of_entries, Es. auto.
  - exists k', p'. rewrite <- elem_of_entries, Eo. auto.
Qed.

(** ** Concrete runs *)

Definition sample_store : store string :=
  (update (BitAccess_new 2 4) "y"%string (new "x"%string 8)).1.

Example sample_store_parts :
  get_parts sample_store (BitAccess_new 1 6)
  = Ok [("x"%string, BitAccess_new 1 1); ("y"%string, BitAccess_new 0 2);
        ("x"%string, BitAccess_new 5 6)].
Proof. vm_compute. reflexivity. Qed.

Lemma new_byte_wf : wf (new "x"%string 8) 8.
Proof. apply new_wf. unfold usize_max. lia. Qed.

Lemma update_correct_witness :
  exists s', update (BitAccess_new 2 4) "y"%string (new "x"%string 8) = (s', Ok tt) /\ wf s' 8 /\
    holds s' 3 "y"%string 1.
Proof.
  destruct (update_correct (new "x"%string 8) 8 (BitAccess_new 2 4) "y"%string new_byte_wf)
    as (s' & ? & ? & Hh); [simpl; lia..|].
  exists s'. split; [assumption|]. split; [assumption|]. apply Hh. vm_compute. split; reflexivity.
Defined.

Lemma get_parts_correct_witness :
  exists parts, get_parts (new "x"%string 8) (BitAccess_new 1 6) = Ok parts /\
    length (concat (expand <$> parts)) = 6%nat.
Proof.
  destruct (get_parts_correct (new "x"%string 8) 8 (BitAccess_new 1 6) new_byte_wf)
    as (parts & ? & Hf); [simpl; lia..|].
  exists parts. split; [assumption|]. apply Forall2_length in Hf. rewrite <- Hf. reflexivity.
Defined.

