(* ===== verification/ParallelCopy.v ===== *)
(** * ParallelCopy: sequentialising a parallel assignment

    Models [crates/celox-backend-common/src/regalloc/parallel_copy.rs]: the
    resolver that turns the simultaneous assignment of an SSA edge into an
    ordered list of moves, register swaps and saves/restores of one
    temporary. The machine that executes the list is defined here as the
    specification; the theorems say the list computes the assignment. *)

From S2P Require Import Prelude.

Section parallel_copy.
Context {R : Type} `{Countable R}.

Inductive CopyDestination : Type :=
  | DRegister (r : R)
  | DStack (slot : Z).

Inductive CopySource : Type :=
  | SRegister (r : R)
  | SStack (slot : Z)
  | SImmediate (value : Z).

#[global] Instance CopyDestination_eq_dec : EqDecision CopyDestination.
Proof. solve_decision. Defined.
#[global] Instance CopySource_eq_dec : EqDecision CopySource.
Proof. solve_decision. Defined.
#[global] Instance CopyDestination_countable : Countable CopyDestination.
Proof.
  refine (inj_countable' (fun d => match d with DRegister r => inl r | DStack z => inr z end)
    (fun s => match s with inl r => DRegister r | inr z => DStack z end) _).
  by intros [].
Defined.

Record ParallelCopy : Type := { destination : CopyDestination; source : CopySource }.

Definition is_identity (row : ParallelCopy) : bool :=
  match destination row, source row with
  | DRegister d, SRegister s => bool_decide (d = s)
  | DStack d, SStack s => bool_decide (d = s)
  | _, _ => false
  end.

Inductive CopyOperation : Type :=
  | Move (destination : CopyDestination) (source : CopySource)
  | SwapRegisters (left_ right_ : R)
  | SaveTemporary (d : CopyDestination)
  | RestoreTemporary (d : CopyDestination).

Record CopyResolutionWork : Type := {
  effective_copies : nat; direct_moves : nat; register_swaps : nat; cycle_breaks : nat;
  temporary_cycle_breaks : nat; ready_queue_pops : nat; dependency_releases : nat }.

Definition work_add (w d : CopyResolutionWork) : CopyResolutionWork := {|
  effective_copies := effective_copies w + effective_copies d;
  direct_moves := direct_moves w + direct_moves d;
  register_swaps := register_swaps w + register_swaps d;
  cycle_breaks := cycle_breaks w + cycle_breaks d;
  temporary_cycle_breaks := temporary_cycle_breaks w + temporary_cycle_breaks d;
  ready_queue_pops := ready_queue_pops w + ready_queue_pops d;
  dependency_releases := dependency_releases w + dependency_releases d |}%nat.

(** One constructor per rule and message of [CopyResolutionError]; the
    argument is its [destination] and what the message interpolates. *)
Inductive CopyResolutionError : Type :=
  | NonUniqueDestination (d : CopyDestination)
  | RestoreInactiveTemporary (d : CopyDestination)
  | StalledTemporaryLive
  | NoPendingRow
  | CycleShape (readers : nat) (d : CopyDestination)
  | LeftTemporaryLive.

Inductive PendingSource : Type :=
  | Value (s : CopySource)
  | Temporary.

Record PendingCopy : Type := PC { pdest : CopyDestination; psource : PendingSource; pending : bool }.

Definition source_as_destination (s : CopySource) : option CopyDestination :=
  match s with
  | SRegister r => Some (DRegister r)
  | SStack slot => Some (DStack slot)
  | SImmediate _ => None
  end.

(** The loop of [register_cycle]; [None] when the fuel runs out, which
    [length copies + 1] never does since [visited] only holds registers
    that are destinations. *)
Fixpoint register_cycle_loop (fuel : nat) (copies : list PendingCopy)
    (destination_index : gmap CopyDestination nat) (start_register current : R)
    (members : list nat) (swaps : list (R * R)) (visited : gset R)
    : option (option (list nat * list (R * R))) :=
  match fuel with
  | O => None
  | S fuel' =>
      if decide (current ∈ visited) then Some None else
      match destination_index !! DRegister current with
      | None => Some None
      | Some index =>
          match copies !! index with
          | None => Some None
          | Some copy =>
              if negb (pending copy) then Some None else
              match psource copy with
              | Value (SRegister source) =>
                  let members := members ++ [index] in
                  if decide (source = start_register) then
                    Some (if decide (2 <= length members)%nat then Some (members, swaps) else None)
                  else
                    register_cycle_loop fuel' copies destination_index start_register source
                      members (swaps ++ [(current, source)]) ({[current]} ∪ visited)
              | _ => Some None
              end
          end
      end
  end.

Definition register_cycle (copies : list PendingCopy)
    (destination_index : gmap CopyDestination nat) (start : nat)
    : option (option (list nat * list (R * R))) :=
  match copies !! start with
  | Some (PC (DRegister start_register) _ _) =>
      register_cycle_loop (length copies + 1) copies destination_index
        start_register start_register [] [] ∅
  | _ => Some None
  end.

(** The local variables of [resolve_parallel_copies]. *)
Record rstate : Type := RS {
  copies : list PendingCopy;
  readers : gmap CopyDestination (gset nat);
  ready : list nat;
  queued : list bool;
  operations : list CopyOperation;
  remaining : nat;
  temporary_live : bool;
  cycle_search_start : nat;
  work : CopyResolutionWork }.

Definition no_work : CopyResolutionWork := Build_CopyResolutionWork 0 0 0 0 0 0 0.

(** [readers.get_mut(location).is_some_and(..)] with the removal of an empty
    set: the updated readers and whether the location was released. *)
Definition release (location : CopyDestination) (index : nat)
    (readers : gmap CopyDestination (gset nat)) : gmap CopyDestination (gset nat) * bool :=
  match readers !! location with
  | None => (readers, false)
  | Some location_readers =>
      let location_readers := location_readers ∖ {[index]} in
      if decide (location_readers = ∅) then (delete location readers, true)
      else (<[location := location_readers]> readers, false)
  end.

(** [ready.push_back(writer); queued[writer] = true] under the guards. *)
Definition enqueue_writer (destination_index : gmap CopyDestination nat)
    (location : CopyDestination) (copies : list PendingCopy) (ready : list nat)
    (queued : list bool) : result CopyResolutionError (list nat * list bool) :=
  match destination_index !! location with
  | None => Ok (ready, queued)
  | Some writer =>
      copy ← expect (copies !! writer);
      if pending copy then
        q ← expect (queued !! writer);
        if negb q then Ok (ready ++ [writer], <[writer := true]> queued)
        else Ok (ready, queued)
      else Ok (ready, queued)
  end.

(** The body of the [while let Some(index) = ready.pop_front()] loop. *)
Definition pop_step (destination_index : gmap CopyDestination nat) (index : nat) (st : rstate)
    : result CopyResolutionError rstate :=
  queued0 ← vset index false (queued st);
  copy ← expect (copies st !! index);
  if negb (pending copy) then
    Ok (RS (copies st) (readers st) (ready st) queued0 (operations st) (remaining st)
           (temporary_live st) (cycle_search_start st) (work st))
  else
    let done_copies := <[index := PC (pdest copy) (psource copy) false]> (copies st) in
    match psource copy with
    | Value source =>
        let ops := operations st ++ [Move (pdest copy) source] in
        match source_as_destination source with
        | Some location =>
            let '(readers1, released) := release location index (readers st) in
            '(ready1, queued1) ←
              (if released
               then enqueue_writer destination_index location (copies st) (ready st) queued0
               else Ok (ready st, queued0));
            Ok (RS done_copies readers1 ready1 queued1 ops (remaining st - 1)
                   (temporary_live st) (cycle_search_start st)
                   (work_add (work st)
                      (Build_CopyResolutionWork 0 1 0 0 0 1 (if released then 1 else 0))))
        | None =>
            Ok (RS done_copies (readers st) (ready st) queued0 ops (remaining st - 1)
                   (temporary_live st) (cycle_search_start st)
                   (work_add (work st) (Build_CopyResolutionWork 0 1 0 0 0 1 0)))
        end
    | Temporary =>
        if negb (temporary_live st) then Err (RestoreInactiveTemporary (pdest copy)) else
        Ok (RS done_copies (readers st) (ready st) queued0
               (operations st ++ [RestoreTemporary (pdest copy)]) (remaining st - 1)
               false (cycle_search_start st)
               (work_add (work st) (Build_CopyResolutionWork 0 0 0 0 0 1 0)))
    end.

(** The inner [while let] loop: one unit of fuel per popped index. *)
Fixpoint drain (fuel : nat) (destination_index : gmap CopyDestination nat) (st : rstate)
    : result CopyResolutionError rstate :=
  match ready st with
  | [] => Ok st
  | index :: ready' =>
      match fuel with
      | O => Panic
      | S fuel' =>
          st' ← pop_step destination_index index
                  (RS (copies st) (readers st) ready' (queued st) (operations st) (remaining st)
                      (temporary_live st) (cycle_search_start st) (work st));
          drain fuel' destination_index st'
      end
  end.

(** [copies.iter().enumerate().skip(start).find_map(..)]: the first pending
    index from [start] on. *)
Definition next_pending (copies : list PendingCopy) (start : nat) : option nat :=
  fst <$> list_find (fun ic => (start <= ic.1)%nat /\ pending ic.2 = true)
            (enumerate copies).

(** Breaking a stalled cycle: the code of the outer loop after the search. *)
Definition break_cycle (destination_index : gmap CopyDestination nat) (cycle : nat) (st : rstate)
    : result CopyResolutionError rstate :=
  rc ← expect (register_cycle (copies st) destination_index cycle);
  match rc with
  | Some ([m0; m1] as members, swaps) =>
      let ops := operations st ++ ((fun lr => SwapRegisters lr.1 lr.2) <$> swaps) in
      '(copies1, readers1, queued1) ←
        foldM (fun '(cs, rd, qd) member =>
          copy ← expect (cs !! member);
          qd' ← vset member false qd;
          Ok (<[member := PC (pdest copy) (psource copy) false]> cs,
              delete (pdest copy) rd, qd')) (copies st, readers st, queued st) members;
      Ok (RS copies1 readers1 (ready st) queued1 ops (remaining st - length members)
             (temporary_live st) (cycle + 1)
             (work_add (work st)
                (Build_CopyResolutionWork 0 0 (length swaps) 1 0 0 (length members))))
  | _ =>
      copy ← expect (copies st !! cycle);
      let saved := pdest copy in
      let saved_readers := default ∅ (readers st !! saved) in
      match elements saved_readers with
      | [reader] =>
          rcopy ← expect (copies st !! reader);
          q ← expect (queued st !! cycle);
          Ok (RS (<[reader := PC (pdest rcopy) Temporary (pending rcopy)]> (copies st))
                 (delete saved (readers st))
                 (if negb q then ready st ++ [cycle] else ready st)
                 (if negb q then <[cycle := true]> (queued st) else queued st)
                 (operations st ++ [SaveTemporary saved]) (remaining st) true (cycle + 1)
                 (work_add (work st) (Build_CopyResolutionWork 0 0 0 1 1 0 1)))
      | l => Err (CycleShape (length l) saved)
      end
  end.

(** The outer [while remaining != 0] loop. *)
Fixpoint resolve_loop (fuel : nat) (destination_index : gmap CopyDestination nat) (st : rstate)
    : result CopyResolutionError rstate :=
  if decide (remaining st = 0)%nat then Ok st else
  match fuel with
  | O => Panic
  | S fuel' =>
      st ← drain (length (copies st)) destination_index st;
      if decide (remaining st = 0)%nat then Ok st else
      if temporary_live st then Err StalledTemporaryLive else
      match next_pending (copies st) (cycle_search_start st) with
      | None => Err NoPendingRow
      | Some cycle => st ← break_cycle destination_index cycle st; resolve_loop fuel' destination_index st
      end
  end.

(** The duplicate-destination check. *)
Fixpoint check_destinations (owner : gset CopyDestination) (rows : list ParallelCopy)
    : result CopyResolutionError unit :=
  match rows with
  | [] => Ok tt
  | row :: rows' =>
      if decide (destination row ∈ owner) then Err (NonUniqueDestination (destination row))
      else check_destinations ({[destination row]} ∪ owner) rows'
  end.

Definition pending_of (row : ParallelCopy) : PendingCopy :=
  PC (destination row) (Value (source row)) true.

Definition index_destinations (cs : list PendingCopy) : gmap CopyDestination nat :=
  foldl (fun m ic => <[pdest ic.2 := ic.1]> m) ∅ (enumerate cs).

Definition add_reader (m : gmap CopyDestination (gset nat)) (ic : nat * PendingCopy)
    : gmap CopyDestination (gset nat) :=
  match psource ic.2 with
  | Value s =>
      match source_as_destination s with
      | Some location => <[location := {[ic.1]} ∪ default ∅ (m !! location)]> m
      | None => m
      end
  | Temporary => m
  end.

Definition index_readers (cs : list PendingCopy) : gmap CopyDestination (gset nat) :=
  foldl add_reader ∅ (enumerate cs).

(** [resolve_parallel_copies] *)
Definition resolve_parallel_copies (rows : list ParallelCopy)
    : result CopyResolutionError (list CopyOperation * CopyResolutionWork) :=
  _ ← check_destinations ∅ rows;
  let cs := pending_of <$> filter (fun row => is_identity row = false) rows in
  let work0 := Build_CopyResolutionWork (length cs) 0 0 0 0 0 0 in
  if decide (length cs = 0)%nat then Ok ([], work0) else
  let destination_index := index_destinations cs in
  let rd := index_readers cs in
  let is_ready (c : PendingCopy) := bool_decide (rd !! pdest c = None) in
  st ← resolve_loop (length cs + 1) destination_index
         (RS cs rd
            (fst <$> filter (fun ic => is_ready ic.2 = true) (enumerate cs))
            (is_ready <$> cs) [] (length cs) false 0 work0);
  if temporary_live st then Err LeftTemporaryLive else Ok (operations st, work st).
End parallel_copy.
