(* ===== verification/ParallelCopyFacts.v ===== *)
(** * ParallelCopyFacts: the resolver computes the parallel assignment

    The machine that runs [CopyOperation]s, the invariant of the resolver's
    state, and the correctness of [resolve_parallel_copies]. *)

From S2P Require Import Prelude ParallelCopy.

(** ** The machine *)

Section machine.
Context {R : Type} `{Countable R} {V : Type} (imm : Z -> V).

Definition env : Type := CopyDestination (R := R) -> V.

Definition eval_source (e : env) (s : CopySource) : V :=
  match s with
  | SRegister r => e (DRegister r)
  | SStack slot => e (DStack slot)
  | SImmediate z => imm z
  end.

Definition upd (e : env) (d : CopyDestination) (v : V) : env :=
  fun d' => if decide (d' = d) then v else e d'.

(** One operation on the locations and the temporary. *)
Definition exec (m : env * V) (op : CopyOperation) : env * V :=
  let '(e, t) := m in
  match op with
  | Move d s => (upd e d (eval_source e s), t)
  | SwapRegisters l r =>
      (upd (upd e (DRegister l) (e (DRegister r))) (DRegister r) (e (DRegister l)), t)
  | SaveTemporary d => (e, e d)
  | RestoreTemporary d => (upd e d t, t)
  end.

Definition exec_all (m : env * V) (ops : list CopyOperation) : env * V := foldl exec m ops.

Lemma upd_eq e d v : upd e d v d = v.
Proof. unfold upd. by rewrite decide_True. Qed.
Lemma upd_ne e d v d' : d' <> d -> upd e d v d' = e d'.
Proof. intros. unfold upd. by rewrite decide_False. Qed.
Lemma eval_upd_ne e d v s :
  source_as_destination s <> Some d -> eval_source (upd e d v) s = eval_source e s.
Proof. destruct s; simpl; intros; try apply upd_ne; congruence. Qed.
Lemma eval_source_location e s d : source_as_destination s = Some d -> eval_source e s = e d.
Proof. destruct s; simpl; naive_solver. Qed.

Lemma exec_all_app m ops ops' : exec_all m (ops ++ ops') = exec_all (exec_all m ops) ops'.
Proof. apply foldl_app. Qed.
End machine.

(** ** Generic facts on the resolver's tables *)

Section tables.
Context {R : Type} `{Countable R}.
Abbreviation PendingCopy := (@PendingCopy R).
Abbreviation dest_index := (gmap (CopyDestination (R := R)) nat).
Implicit Types (cs : list PendingCopy) (rd : gmap (CopyDestination (R := R)) (gset nat)).

Definition readers_at rd (d : CopyDestination) : gset nat := default ∅ (rd !! d).
Definition no_empty rd : Prop := forall d S, rd !! d = Some S -> S <> ∅.

Lemma readers_none rd d : no_empty rd -> rd !! d = None <-> readers_at rd d = ∅.
Proof.
  intros Hne. unfold readers_at. destruct (rd !! d) eqn:E; simpl; [|done].
  split; [done|]. intros ->. by destruct (Hne _ _ E).
Qed.

Lemma release_spec location index rd :
  no_empty rd -> index ∈ readers_at rd location ->
  no_empty (release location index rd).1 /\
  ((release location index rd).2 = true <-> (release location index rd).1 !! location = None) /\
  (forall d i, i ∈ readers_at (release location index rd).1 d <->
     i ∈ readers_at rd d /\ ~ (d = location /\ i = index)).
Proof.
  intros Hne Hin. unfold release, readers_at in *.
  destruct (rd !! location) as [S|] eqn:E; simpl in *; [|set_solver].
  case_decide as He; simpl; split_and!.
  - intros d S' Hd. apply lookup_delete_Some in Hd as [_ Hd]. eauto.
  - rewrite lookup_delete_eq. done.
  - intros d i. destruct (decide (d = location)) as [->|Hd].
    + rewrite lookup_delete_eq, E. simpl. set_solver.
    + rewrite lookup_delete_ne by done. naive_solver.
  - intros d S' [[-> <-]|[? Hd]]%lookup_insert_Some; [done|eauto].
  - rewrite lookup_insert_eq. done.
  - intros d i. destruct (decide (d = location)) as [->|Hd].
    + rewrite lookup_insert_eq, E. simpl. set_solver.
    + rewrite lookup_insert_ne by done. naive_solver.
Qed.

Definition distinct_dests cs : Prop :=
  forall i j ci cj, cs !! i = Some ci -> cs !! j = Some cj -> pdest ci = pdest cj -> i = j.

Lemma foldl_index_Some (l : list (nat * PendingCopy)) (m : dest_index) d i :
  foldl (fun (m : dest_index) ic => <[pdest ic.2 := ic.1]> m) m l !! d = Some i ->
  m !! d = Some i \/ exists c, (i, c) ∈ l /\ pdest c = d.
Proof.
  revert m. induction l as [|[j c] l IH]; simpl; intros m; [by left|].
  intros [Hm|(c' & ? & ?)]%IH.
  - apply lookup_insert_Some in Hm as [[<- <-]|[? ?]]; [|by left].
    right. exists c. set_solver.
  - right. exists c'. set_solver.
Qed.

Lemma foldl_index_is_Some (l : list (nat * PendingCopy)) (m : dest_index) d :
  is_Some (m !! d) \/ (exists i c, (i, c) ∈ l /\ pdest c = d) ->
  is_Some (foldl (fun (m : dest_index) ic => <[pdest ic.2 := ic.1]> m) m l !! d).
Proof.
  revert m. induction l as [|[j c] l IH]; simpl; intros m.
  { intros [?|(? & ? & ?%not_elem_of_nil & _)]; done. }
  intros Hd. apply IH. destruct (decide (pdest c = d)) as [<-|Hne].
  { left. rewrite lookup_insert_eq. eauto. }
  rewrite lookup_insert_ne by done. destruct Hd as [?|(i & c' & Hin & Hc)]; [by left|right].
  apply elem_of_cons in Hin as [[= -> ->]|Hin]; [done|]. eauto.
Qed.

Lemma index_destinations_spec cs d i :
  distinct_dests cs ->
  index_destinations cs !! d = Some i <-> exists c, cs !! i = Some c /\ pdest c = d.
Proof.
  intros Hd. unfold index_destinations. split.
  - intros [?|(c & Hin%elem_of_enumerate & ?)]%foldl_index_Some; [|by eauto].
    by rewrite lookup_empty in *.
  - intros (c & Hc & Hcd).
    destruct (foldl_index_is_Some (enumerate cs) ∅ d) as [j Hj].
    { right. exists i, c. by rewrite elem_of_enumerate. }
    rewrite Hj. f_equal. apply foldl_index_Some in Hj as [?|(c' & Hin%elem_of_enumerate & ?)].
    + by rewrite lookup_empty in *.
    + eapply Hd; eauto. congruence.
Qed.

Definition reads (c : PendingCopy) (d : CopyDestination) : Prop :=
  exists s, psource c = Value s /\ source_as_destination s = Some d.

Lemma foldl_add_reader (l : list (nat * PendingCopy)) rd :
  no_empty rd ->
  no_empty (foldl add_reader rd l) /\
  forall d i, i ∈ readers_at (foldl add_reader rd l) d <->
    i ∈ readers_at rd d \/ exists c, (i, c) ∈ l /\ reads c d.
Proof.
  revert rd. induction l as [|[j c] l IH]; simpl; intros rd Hne.
  { split; [done|]. intros. split; [by left|]. intros [?|(? & ?%not_elem_of_nil & _)]; done. }
  assert (no_empty (add_reader rd (j, c)) /\ forall d i, i ∈ readers_at (add_reader rd (j, c)) d <->
    i ∈ readers_at rd d \/ i = j /\ reads c d) as [Hne' Hadd].
  { unfold add_reader, reads, readers_at. simpl. destruct (psource c) as [s|] eqn:Es; [|naive_solver].
    destruct (source_as_destination s) as [loc|] eqn:El; [|naive_solver]. split.
    - intros d S [[<- <-]|[_ ?]]%lookup_insert_Some; [set_solver|eauto].
    - intros d i. destruct (decide (d = loc)) as [->|Hd].
      + rewrite lookup_insert_eq. simpl. rewrite elem_of_union, elem_of_singleton. naive_solver.
      + rewrite lookup_insert_ne by done. split; [by left|].
        intros [?|(_ & ? & [= <-] & ?)]; [done|]. congruence. }
  destruct (IH _ Hne') as [? Hl]. split; [done|]. intros d i. rewrite Hl, Hadd.
  setoid_rewrite elem_of_cons. naive_solver.
Qed.

Lemma index_readers_spec cs :
  no_empty (index_readers cs) /\
  forall d i, i ∈ readers_at (index_readers cs) d <-> exists c, cs !! i = Some c /\ reads c d.
Proof.
  destruct (foldl_add_reader (enumerate cs) ∅) as [? Hl].
  { intros d S. by rewrite lookup_empty. }
  split; [done|]. intros d i. unfold index_readers. rewrite Hl.
  setoid_rewrite elem_of_enumerate. unfold readers_at at 1. rewrite lookup_empty. simpl. set_solver.
Qed.

Lemma check_destinations_ok owner rows :
  NoDup (destination <$> rows) -> (forall d, d ∈ destination <$> rows -> d ∉ owner) ->
  @check_destinations R _ _ owner rows = Ok tt.
Proof.
  revert owner. induction rows as [|row rows IH]; csimpl; intros owner; [done|].
  intros [Hn Hnd]%NoDup_cons Ho. rewrite decide_False by (apply Ho; set_solver).
  apply IH; [done|]. intros d Hd. specialize (Ho d). set_solver.
Qed.

Lemma check_destinations_dup owner rows :
  ~ NoDup (destination <$> rows) ->
  exists d, @check_destinations R _ _ owner rows = Err (NonUniqueDestination d) /\
    d ∈ destination <$> rows.
Proof.
  revert owner. induction rows as [|row rows IH]; csimpl; intros owner Hnd.
  { destruct Hnd. constructor. }
  case_decide as Hin; [eexists; split; [done|set_solver]|].
  destruct (decide (NoDup (destination <$> rows))) as [Hnd'|Hnd'].
  - assert (destination row ∈ destination <$> rows) as Hd.
    { destruct (decide (destination row ∈ destination <$> rows)); [done|].
      destruct Hnd. by constructor. }
    clear IH Hnd Hnd' Hin.
    assert (forall o, destination row ∈ o -> exists d,
      @check_destinations R _ _ o rows = Err (NonUniqueDestination d) /\ d ∈ destination <$> rows) as Hgen.
    { induction rows as [|r rows IH]; [by apply not_elem_of_nil in Hd|].
      intros o Ho. csimpl. case_decide as Hr; [eexists; split; [done|set_solver]|].
      csimpl in Hd. apply elem_of_cons in Hd as [Heq|Hd]; [congruence|].
      destruct (IH Hd ({[destination r]} ∪ o)) as (d & ? & ?); [set_solver|].
      exists d. split; [done|set_solver]. }
    destruct (Hgen ({[destination row]} ∪ owner)) as (d & ? & ?); [set_solver|].
    exists d. split; [done|set_solver].
  - destruct (IH ({[destination row]} ∪ owner) Hnd') as (d & ? & ?). exists d. split; [done|set_solver].
Qed.
End tables.

(** ** The invariant of the resolver *)

Section invariant.
Context {R : Type} `{Countable R} {V : Type} (imm : Z -> V).
Abbreviation PendingCopy := (@PendingCopy R).
Abbreviation rstate := (@rstate R _ _).

(** The effective rows and the environment before the assignment. *)
Context (cs0 : list PendingCopy) (env0 : @env R V).
Context (di : gmap (CopyDestination (R := R)) nat).

Hypothesis dests0 : distinct_dests cs0.
Hypothesis rows0 : forall i c, cs0 !! i = Some c ->
  exists s, psource c = Value s /\ source_as_destination s <> Some (pdest c).
Hypothesis di0 : forall d i, di !! d = Some i <-> exists c, cs0 !! i = Some c /\ pdest c = d.

Definition pends (cs : list PendingCopy) (i : nat) (c : PendingCopy) : Prop :=
  cs !! i = Some c /\ pending c = true.

(** The number of pending rows. *)
Definition count_pending (cs : list PendingCopy) : nat :=
  length (filter (fun c => pending c = true) cs).

Record inv (st : rstate) : Prop := {
  i_copies i : is_Some (copies st !! i) <-> is_Some (cs0 !! i);
  i_queued : length (queued st) = length cs0;
  i_orig i c : copies st !! i = Some c -> exists c0, cs0 !! i = Some c0 /\ pdest c = pdest c0 /\
    (psource c = psource c0 \/ psource c = Temporary);
  i_temp i c j c' : pends (copies st) i c -> pends (copies st) j c' ->
    psource c = Temporary -> psource c' = Temporary -> i = j;
  i_live : temporary_live st = true <-> exists i c, pends (copies st) i c /\ psource c = Temporary;
  i_ne : no_empty (readers st);
  i_readers d i : i ∈ readers_at (readers st) d <-> exists c, pends (copies st) i c /\ reads c d;
  i_nodup : NoDup (ready st);
  i_flag i : i ∈ ready st <-> queued st !! i = Some true;
  i_ready i : i ∈ ready st -> exists c, pends (copies st) i c /\ readers st !! pdest c = None;
  i_all i c : pends (copies st) i c -> readers st !! pdest c = None -> i ∈ ready st;
  i_rem : remaining st = count_pending (copies st);
  i_search i c : pends (copies st) i c -> (i < cycle_search_start st)%nat -> i ∈ ready st
}.

(** What the machine holds: finished rows have their value, pending rows
    still find theirs, other locations are untouched. *)
Record sem (cs : list PendingCopy) (m : @env R V * V) : Prop := {
  s_done i c c0 s : cs !! i = Some c -> pending c = false -> cs0 !! i = Some c0 ->
    psource c0 = Value s -> m.1 (pdest c0) = eval_source imm env0 s;
  s_value i c s : pends cs i c -> psource c = Value s -> eval_source imm m.1 s = eval_source imm env0 s;
  s_temp i c c0 s : pends cs i c -> psource c = Temporary -> cs0 !! i = Some c0 ->
    psource c0 = Value s -> m.2 = eval_source imm env0 s;
  s_other d : (forall i c0, cs0 !! i = Some c0 -> pdest c0 <> d) -> m.1 d = env0 d
}.

(** Mark row [i] as finished. *)
Definition finish (i : nat) (c : PendingCopy) (cs : list PendingCopy) : list PendingCopy :=
  <[i := PC (pdest c) (psource c) false]> cs.

Lemma finish_lookup cs i c j cj :
  cs !! i = Some c -> finish i c cs !! j = Some cj <->
  (j = i /\ cj = PC (pdest c) (psource c) false) \/ (j <> i /\ cs !! j = Some cj).
Proof.
  intros Hi. unfold finish. pose proof (lookup_lt_Some _ _ _ Hi).
  rewrite list_lookup_insert_Some. naive_solver.
Qed.

Lemma finish_pends cs i c j cj :
  cs !! i = Some c -> pends (finish i c cs) j cj <-> j <> i /\ pends cs j cj.
Proof. intros Hi. unfold pends. rewrite finish_lookup by done. naive_solver. Qed.

Lemma finish_is_Some cs i c j : is_Some (finish i c cs !! j) <-> is_Some (cs !! j).
Proof. unfold finish. rewrite !lookup_lt_is_Some. by rewrite length_insert. Qed.

Lemma count_finish cs i c : pends cs i c -> count_pending cs = S (count_pending (finish i c cs)).
Proof.
  intros [Hi Hp]. unfold count_pending, finish.
  rewrite <- (take_drop_middle cs i c Hi) at 1. rewrite insert_take_drop by (eauto with index).
  rewrite !filter_app, !filter_cons, Hp. simpl. rewrite !length_app. simpl. lia.
Qed.

(** Two pending-or-not rows of the current table with one destination are one row. *)
Lemma inv_dest st i ci j cj :
  inv st -> copies st !! i = Some ci -> copies st !! j = Some cj -> pdest ci = pdest cj -> i = j.
Proof.
  intros Hinv Hi Hj Hd.
  destruct (i_orig _ Hinv _ _ Hi) as (ci0 & Hi0 & Hdi & _).
  destruct (i_orig _ Hinv _ _ Hj) as (cj0 & Hj0 & Hdj & _).
  eapply dests0; eauto. congruence.
Qed.

Lemma inv_di st d i :
  inv st -> di !! d = Some i <-> exists c, copies st !! i = Some c /\ pdest c = d.
Proof.
  intros Hinv. rewrite di0. split.
  - intros (c0 & H0 & Hd). destruct (proj2 (i_copies _ Hinv i)) as [c Hc]; [eauto|].
    destruct (i_orig _ Hinv _ _ Hc) as (c0' & ? & ? & _). simplify_eq. eauto.
  - intros (c & Hc & Hd). destruct (i_orig _ Hinv _ _ Hc) as (c0 & ? & ? & _).
    exists c0. split; [done|congruence].
Qed.

Lemma inv_not_self st i c d : inv st -> pends (copies st) i c -> reads c d -> d <> pdest c.
Proof.
  intros Hinv [Hc _] (s & Hs & Hd) ->.
  destruct (i_orig _ Hinv _ _ Hc) as (c0 & H0 & Hd0 & [Hs0|]); [|congruence].
  destruct (rows0 _ _ H0) as (s0 & ? & Hne). congruence.
Qed.

(** Writing its value to a row no pending row reads. *)
Lemma sem_write st m i c (v : V) c0 s0 :
  inv st -> sem (copies st) m -> pends (copies st) i c -> readers st !! pdest c = None ->
  cs0 !! i = Some c0 -> psource c0 = Value s0 -> v = eval_source imm env0 s0 ->
  sem (finish i c (copies st)) (upd m.1 (pdest c) v, m.2).
Proof.
  intros Hinv Hsem Hp Hnone H0 Hs0 ->. pose proof Hp as [Hc _].
  destruct (i_orig _ Hinv _ _ Hc) as (c0' & ? & Hd & _). simplify_eq. split; simpl.
  - intros j cj cj0 s Hj Hpj Hj0 Hs. apply finish_lookup in Hj; [|done].
    destruct Hj as [[-> ->]|[Hne Hj]].
    + simplify_eq. assert (s = s0) as -> by congruence. rewrite Hd. apply upd_eq.
    + rewrite upd_ne by (intros Heq; apply Hne; eapply dests0; eauto; congruence).
      by eapply s_done.
  - intros j cj s [Hne Hj]%finish_pends Hs; [|done].
    rewrite eval_upd_ne; [by eapply s_value|]. intros Hd'.
    assert (j ∈ readers_at (readers st) (pdest c)) as Hin.
    { apply (i_readers _ Hinv). exists cj. split; [done|]. by exists s. }
    rewrite (proj1 (readers_none _ _ (i_ne _ Hinv)) Hnone) in Hin. set_solver.
  - intros j cj cj0 s [Hne Hj]%finish_pends ? ? ?; [|done]. by eapply s_temp.
  - intros d Hd'. rewrite upd_ne by (rewrite Hd; intros ->; by eapply Hd').
    by apply (s_other _ _ Hsem).
Qed.

(** *** One popped row *)

Lemma enqueue_writer_spec st loc index c ready0 queued0 :
  inv st -> pends (copies st) index c -> reads c loc -> queued0 = <[index := false]> (queued st) ->
  exists ready' queued', enqueue_writer di loc (copies st) ready0 queued0 = Ok (ready', queued') /\
    length queued' = length queued0 /\
    ((ready' = ready0 /\ queued' = queued0 /\
        (forall w cw, pends (copies st) w cw -> pdest cw = loc -> queued0 !! w = Some true)) \/
     exists w cw, ready' = ready0 ++ [w] /\ queued' = <[w := true]> queued0 /\
        pends (copies st) w cw /\ pdest cw = loc /\ queued0 !! w = Some false).
Proof.
  intros Hinv Hp Hr Hq0. unfold enqueue_writer.
  assert (length queued0 = length cs0) as Hlen by (subst; rewrite length_insert; apply Hinv).
  destruct (di !! loc) as [w|] eqn:Ew.
  - apply (inv_di _ _ _ Hinv) in Ew as (cw & Hw & Hd). rewrite Hw. msimpl.
    destruct (pending cw) eqn:Ep.
    + destruct (queued0 !! w) as [q|] eqn:Eq.
      2:{ apply lookup_ge_None in Eq. rewrite Hlen in Eq.
          destruct (proj1 (i_copies _ Hinv w)) as [? ?%lookup_lt_Some]; [eauto|lia]. }
      msimpl. destruct q; simpl; eexists _, _; (split; [reflexivity|]).
      * split; [done|]. left. split_and!; [done..|]. intros w' cw' [Hw' _] Hd'.
        assert (w' = w) as -> by (eapply inv_dest; eauto; congruence). done.
      * split; [by rewrite length_insert|]. right. exists w, cw.
        split_and!; [done|done|by split|done|done].
    + eexists _, _. split; [reflexivity|]. split; [done|]. left. split_and!; [done..|].
      intros w' cw' [Hw' Hpw'] Hd'. assert (w' = w) as -> by (eapply inv_dest; eauto; congruence).
      congruence.
  - eexists _, _. split; [reflexivity|]. split; [done|]. left. split_and!; [done..|].
    intros w cw [Hw _] Hd. assert (di !! loc = Some w) by (apply (inv_di _ _ _ Hinv); eauto). congruence.
Qed.

(** The part of the invariant a popped row leaves to re-establish. *)
Lemma inv_finish st index c rest rd' ready' queued' tl ops wk :
  inv st -> ready st = index :: rest -> pends (copies st) index c ->
  length queued' = length cs0 ->
  (tl = true <-> exists i ci, pends (finish index c (copies st)) i ci /\ psource ci = Temporary) ->
  no_empty rd' ->
  (forall d i, i ∈ readers_at rd' d <-> exists ci, pends (finish index c (copies st)) i ci /\ reads ci d) ->
  NoDup ready' -> (forall i, i ∈ ready' <-> queued' !! i = Some true) ->
  (forall i, i ∈ rest -> i ∈ ready') ->
  (forall i, i ∈ ready' -> i ∈ rest \/ exists ci, pends (copies st) i ci /\ i <> index /\ rd' !! pdest ci = None) ->
  (forall i ci, pends (copies st) i ci -> i <> index -> rd' !! pdest ci = None ->
     readers st !! pdest ci <> None -> i ∈ ready') ->
  (forall d, readers st !! d = None -> rd' !! d = None) ->
  inv (RS (finish index c (copies st)) rd' ready' queued' ops (remaining st - 1) tl
          (cycle_search_start st) wk).
Proof.
  intros Hinv Hready Hp Hlen Htl Hne Hrd Hnd Hflag Hrest Hin Hall Hmono.
  pose proof Hp as [Hc Hpc].
  assert (NoDup (index :: rest)) as [Hni _]%NoDup_cons by (rewrite <- Hready; apply Hinv).
  split; cbn [copies readers ready queued operations remaining temporary_live cycle_search_start work]; try done.
  - intros i. rewrite finish_is_Some. apply (i_copies _ Hinv).
  - intros i ci [[-> ->]|[_ Hi]]%finish_lookup; [..|done].
    + destruct (i_orig _ Hinv _ _ Hc) as (c0 & ? & ? & ?). exists c0. by simpl.
    + by apply (i_orig _ Hinv).
  - intros i ci j cj [_ Hi]%finish_pends [_ Hj]%finish_pends; [|done..]. by apply (i_temp _ Hinv).
  - intros i [Hi|(ci & Hpi & Hne' & Hn)]%Hin.
    + assert (i <> index) by (by intros ->).
      destruct (i_ready _ Hinv i) as (ci & Hpi & Hn); [rewrite Hready; set_solver|].
      exists ci. rewrite finish_pends by done. auto.
    + exists ci. by rewrite finish_pends by done.
  - intros i ci [Hne' Hpi]%finish_pends Hn; [|done].
    destruct (readers st !! pdest ci) eqn:E; [apply (Hall _ _ Hpi Hne' Hn); by rewrite E|].
    apply Hrest. pose proof (i_all _ Hinv _ _ Hpi E) as Hr. rewrite Hready in Hr. set_solver.
  - rewrite (i_rem _ Hinv), (count_finish _ _ _ Hp). lia.
  - intros i ci [Hne' Hpi]%finish_pends Hlt; [|done]. apply Hrest.
    pose proof (i_search _ Hinv _ _ Hpi Hlt) as Hr. rewrite Hready in Hr. set_solver.
Qed.

Definition with_ready (rest : list nat) (st : rstate) : rstate :=
  RS (copies st) (readers st) rest (queued st) (operations st) (remaining st)
    (temporary_live st) (cycle_search_start st) (work st).

(** Popping a row that no reader has to be released for. *)
Lemma inv_finish_plain st index c rest tl ops wk :
  inv st -> ready st = index :: rest -> pends (copies st) index c ->
  (forall d, ~ reads c d) ->
  (tl = true <-> exists i ci, pends (finish index c (copies st)) i ci /\ psource ci = Temporary) ->
  inv (RS (finish index c (copies st)) (readers st) rest (<[index := false]> (queued st)) ops
          (remaining st - 1) tl (cycle_search_start st) wk).
Proof.
  intros Hinv Hready Hp Hnr Htl. pose proof Hp as [Hc _].
  assert (NoDup (index :: rest)) as [Hni Hnd]%NoDup_cons by (rewrite <- Hready; apply Hinv).
  assert (length (queued st) = length cs0) as Hlen by apply Hinv.
  eapply inv_finish; eauto.
  - by rewrite length_insert.
  - apply Hinv.
  - intros d i. rewrite (i_readers _ Hinv). setoid_rewrite finish_pends; [|done].
    split; [|naive_solver]. intros (ci & Hpi & Hr). exists ci. split_and!; try done.
    intros ->. destruct Hpi as [? _]. simplify_eq. by eapply Hnr.
  - intros i. rewrite list_lookup_insert_Some.
    assert (i ∈ ready st <-> i = index \/ i ∈ rest) as Hi by (rewrite Hready; set_solver).
    rewrite (i_flag _ Hinv) in Hi. naive_solver.
  - naive_solver.
Qed.

Lemma finish_temporary st index c :
  inv st -> pends (copies st) index c ->
  (psource c = Temporary ->
     ~ exists i ci, pends (finish index c (copies st)) i ci /\ psource ci = Temporary) /\
  (psource c <> Temporary ->
     temporary_live st = true <-> exists i ci, pends (finish index c (copies st)) i ci /\ psource ci = Temporary).
Proof.
  intros Hinv Hp. pose proof Hp as [Hc _]. split.
  - intros Ht (i & ci & [Hne Hi]%finish_pends & Hti); [|done]. apply Hne. by eapply i_temp.
  - intros Ht. rewrite (i_live _ Hinv). split; intros (i & ci & Hi & Hti).
    + exists i, ci. rewrite finish_pends by done. split_and!; try done.
      intros ->. destruct Hi as [? _]. simplify_eq.
    + apply finish_pends in Hi as [_ Hi]; [|done]. eauto.
Qed.

(** Popping a row whose source location is released. *)
Lemma inv_finish_release st index c s loc rest ready' queued' ops wk :
  inv st -> ready st = index :: rest -> pends (copies st) index c ->
  psource c = Value s -> source_as_destination s = Some loc ->
  (if (release loc index (readers st)).2
   then enqueue_writer di loc (copies st) rest (<[index := false]> (queued st))
   else Ok (rest, <[index := false]> (queued st))) = Ok (ready', queued') ->
  inv (RS (finish index c (copies st)) (release loc index (readers st)).1 ready' queued' ops
          (remaining st - 1) (temporary_live st) (cycle_search_start st) wk).
Proof.
  intros Hinv Hready Hp Hs Hl Heq. pose proof Hp as [Hc _].
  assert (reads c loc) as Hr by (by exists s).
  assert (NoDup (index :: rest)) as [Hni Hnd]%NoDup_cons by (rewrite <- Hready; apply Hinv).
  assert (length (queued st) = length cs0) as Hlen by apply Hinv.
  assert (index ∈ readers_at (readers st) loc) as Hin by (apply (i_readers _ Hinv); eauto).
  destruct (release_spec loc index (readers st) (i_ne _ Hinv) Hin) as (Hne & Hrel & Hrd).
  assert (forall i, i ∈ rest <-> (<[index := false]> (queued st)) !! i = Some true) as Hflag.
  { intros i. rewrite list_lookup_insert_Some.
    assert (i ∈ ready st <-> i = index \/ i ∈ rest) as Hi by (rewrite Hready; set_solver).
    rewrite (i_flag _ Hinv) in Hi. naive_solver. }
  assert (Hdi : forall d, readers st !! d = None -> (release loc index (readers st)).1 !! d = None).
  { intros d Hd. apply readers_none; [done|]. apply readers_none in Hd; [|apply Hinv].
    apply set_eq. intros i. rewrite Hrd, Hd. set_solver. }
  assert (Hloc : forall i ci, pends (copies st) i ci -> readers st !! pdest ci <> None ->
    (release loc index (readers st)).1 !! pdest ci = None -> pdest ci = loc).
  { intros i ci Hpi Hsome Hnone. destruct (decide (pdest ci = loc)) as [|Hd]; [done|].
    exfalso. apply Hsome. apply readers_none; [apply Hinv|]. apply readers_none in Hnone; [|done].
    apply set_eq. intros j. assert (j ∈ readers_at (release loc index (readers st)).1 (pdest ci) <-> j ∈ (∅ : gset nat)) as Hj
      by (by rewrite Hnone). rewrite Hrd in Hj. naive_solver. }
  assert (Hrd' : forall d i, i ∈ readers_at (release loc index (readers st)).1 d <->
    exists ci, pends (finish index c (copies st)) i ci /\ reads ci d).
  { intros d i. rewrite Hrd, (i_readers _ Hinv). setoid_rewrite finish_pends; [|done]. split.
    - intros [(ci & Hpi & Hri) Hn]. exists ci. split_and!; try done. intros ->. apply Hn.
      split; [|done]. destruct Hpi as [? _]. simplify_eq. destruct Hri as (? & ? & ?). congruence.
    - intros (ci & [Hne' Hpi] & Hri). split; [eauto|]. naive_solver. }
  destruct (finish_temporary st index c Hinv Hp) as [_ Htl].
  assert (psource c <> Temporary) as Hnt by congruence. specialize (Htl Hnt).
  destruct (release loc index (readers st)).2 eqn:Erel.
  - destruct (enqueue_writer_spec st loc index c rest _ Hinv Hp Hr eq_refl)
      as (ready2 & queued2 & Heq2 & Hlen2 & Hcase). rewrite Heq in Heq2. simplify_eq.
    rewrite length_insert in Hlen2.
    destruct Hcase as [(-> & -> & Hqd)|(w & cw & -> & -> & Hpw & Hdw & Hqw)].
    + eapply inv_finish; eauto; [by rewrite length_insert|].
      intros i ci Hpi Hne' Hnone Hsome. apply Hflag. eapply Hqd; eauto.
    + assert (w ∉ rest) as Hwr by (rewrite Hflag; congruence).
      assert (w <> index) as Hwi.
      { intros ->. destruct Hpw as [? _]. simplify_eq.
        by apply (inv_not_self _ _ _ _ Hinv Hp Hr). }
      eapply inv_finish; eauto.
      * by rewrite !length_insert in *.
      * apply NoDup_app. split_and!; [done|set_solver|apply NoDup_singleton].
      * intros i. rewrite elem_of_app, list_elem_of_singleton, Hflag.
        rewrite (list_lookup_insert_Some (<[index:=false]> (queued st))).
        pose proof (lookup_lt_Some _ _ _ Hqw). naive_solver.
      * set_solver.
      * intros i [?|Hx%list_elem_of_singleton]%elem_of_app; [by left|right]. subst i.
        exists cw. split_and!; try done. rewrite Hdw. by apply Hrel.
      * intros i ci Hpi Hne' Hnone Hsome. apply elem_of_app. right. apply list_elem_of_singleton.
        eapply inv_dest; [done|apply Hpi|apply Hpw|]. rewrite Hdw. by eapply Hloc.
  - simplify_eq. eapply inv_finish; eauto; [by rewrite length_insert|].
    intros i ci Hpi Hne' Hnone Hsome. pose proof (Hloc _ _ Hpi Hsome Hnone) as Hd.
    rewrite Hd in Hnone. apply Hrel in Hnone. congruence.
Qed.

Context (m0 : @env R V * V).

(** A state together with what its operations have computed. *)
Record good (st : rstate) : Prop := {
  g_inv : inv st;
  g_sem : sem (copies st) (exec_all imm m0 (operations st))
}.

Lemma pop_step_ok st index rest :
  good st -> ready st = index :: rest ->
  exists st', pop_step di index (with_ready rest st) = Ok st' /\ good st' /\
    remaining st = S (remaining st') /\ length (copies st') = length (copies st).
Proof.
  intros [Hinv Hsem] Hready.
  destruct (i_ready _ Hinv index) as (c & Hp & Hnone); [rewrite Hready; set_solver|].
  pose proof Hp as [Hc Hpc].
  destruct (i_orig _ Hinv _ _ Hc) as (c0 & H0 & _ & Hsrc).
  destruct (rows0 _ _ H0) as (s0 & Hs0 & _).
  assert (length (queued st) = length cs0) as Hlen by apply Hinv.
  assert (remaining st <> 0)%nat as Hrem.
  { rewrite (i_rem _ Hinv), (count_finish _ _ _ Hp). lia. }
  assert (length (finish index c (copies st)) = length (copies st)) as Hlenf by apply length_insert.
  unfold pop_step, vset. cbn [with_ready copies queued readers ready operations remaining temporary_live
    cycle_search_start work].
  rewrite decide_True by (rewrite Hlen; eapply lookup_lt_Some; eauto). msimpl.
  rewrite Hc. msimpl. rewrite Hpc. cbn [negb]. fold (finish index c (copies st)).
  destruct (finish_temporary st index c Hinv Hp) as [Htmp Htmp'].
  destruct (psource c) as [s|] eqn:Es.
  - assert (psource c0 = Value s) as Hs by (destruct Hsrc; congruence).
    assert (Hsem' : sem (finish index c (copies st))
      (exec_all imm m0 (operations st ++ [Move (pdest c) s]))).
    { rewrite exec_all_app. cbn [exec_all foldl].
      destruct (exec_all imm m0 (operations st)) as [e t] eqn:Em. cbn [exec].
      eapply (sem_write st (e, t)); eauto. by eapply (s_value _ _ Hsem). }
    destruct (source_as_destination s) as [loc|] eqn:El.
    + destruct (release loc index (readers st)) as [rd' released] eqn:Er.
      assert (exists r q, (if released
        then enqueue_writer di loc (copies st) rest (<[index := false]> (queued st))
        else Ok (rest, <[index := false]> (queued st))) = Ok (r, q)) as (r & q & Eq).
      { destruct released; [|eauto].
        destruct (enqueue_writer_spec st loc index c rest _ Hinv Hp ltac:(by exists s) eq_refl)
          as (r & q & ? & _). eauto. }
      rewrite Eq. msimpl. eexists. split; [reflexivity|]. cbn [remaining copies].
      split_and!; [|lia|done]. split; [|exact Hsem'].
      pose proof (inv_finish_release st index c s loc rest r q) as Hfr.
      rewrite Er in Hfr. by apply Hfr.
    + eexists. split; [reflexivity|]. cbn [remaining copies]. split_and!; [|lia|done].
      split; [|exact Hsem'].
      apply inv_finish_plain; try done; [|by apply Htmp'].
      intros d (? & ? & ?). congruence.
  - assert (temporary_live st = true) as -> by (apply (i_live _ Hinv); eauto). cbn [negb].
    eexists. split; [reflexivity|]. cbn [remaining copies]. split_and!; [|lia|done]. split.
    + apply inv_finish_plain; try done; [intros d (? & ? & ?); congruence|].
      split; [done|]. intros Hex. by destruct (Htmp eq_refl).
    + cbn [copies operations]. rewrite exec_all_app. cbn [exec_all foldl].
      destruct (exec_all imm m0 (operations st)) as [e t] eqn:Em. cbn [exec].
      eapply (sem_write st (e, t)); eauto. by eapply (s_temp _ _ Hsem).
Qed.

Lemma with_ready_eta st : with_ready (ready st) st = st.
Proof. by destruct st. Qed.

Lemma drain_ok fuel st :
  good st -> (remaining st <= fuel)%nat ->
  exists st', drain fuel di st = Ok st' /\ good st' /\ ready st' = [] /\
    (remaining st' <= remaining st)%nat /\
    (ready st <> [] -> remaining st' < remaining st)%nat /\
    length (copies st') = length (copies st).
Proof.
  revert st. induction fuel as [|fuel IH]; intros st Hg Hf.
  - destruct (ready st) as [|index rest] eqn:Er.
    + exists st. unfold drain. rewrite Er. done.
    + destruct (pop_step_ok st index rest Hg Er) as (st' & _ & _ & ? & _). lia.
  - cbn [drain]. destruct (ready st) as [|index rest] eqn:Er; [by exists st|].
    destruct (pop_step_ok st index rest Hg Er) as (st' & Hpop & Hg' & Hrem & Hlen).
    fold (with_ready rest st). rewrite Hpop. msimpl.
    destruct (IH st' Hg') as (st2 & ? & ? & ? & ? & _ & ?); [lia|].
    exists st2. split_and!; try done; lia.
Qed.

(** *** Stalled states: every location is read exactly once *)

Lemma pigeonhole (l : list nat) (f : nat -> nat) :
  NoDup l -> (forall i, i ∈ l -> f i ∈ l) ->
  (forall i j, i ∈ l -> j ∈ l -> f i = f j -> i = j) ->
  forall k, k ∈ l -> exists i, i ∈ l /\ f i = k.
Proof.
  intros Hnd Hin Hinj k Hk.
  assert (NoDup (f <$> l)) as Hndf.
  { clear Hk Hin. induction Hnd as [|x l Hx Hnd IH]; csimpl; [constructor|]. constructor.
    - intros (y & Heq & Hy)%list_elem_of_fmap. apply Hx.
      assert (x = y) as -> by (apply Hinj; set_solver). done.
    - apply IH. intros; apply Hinj; set_solver. }
  assert (k ∈ f <$> l) as (i & -> & Hi)%list_elem_of_fmap; [|by exists i].
  apply list_elem_of_In. apply (NoDup_length_incl (l := f <$> l) (l' := l)).
  - by apply NoDup_ListNoDup.
  - by rewrite length_fmap.
  - intros x (y & -> & Hy)%list_elem_of_In%list_elem_of_fmap. apply list_elem_of_In. auto.
  - by apply list_elem_of_In.
Qed.

(** In a stalled state, the reader chosen for each pending row. *)
Definition pick_reader (st : rstate) (i : nat) : nat :=
  match copies st !! i with
  | Some c => hd 0%nat (elements (readers_at (readers st) (pdest c)))
  | None => 0%nat
  end.

Lemma pick_reader_spec st i c :
  inv st -> ready st = [] -> pends (copies st) i c ->
  exists cr, pends (copies st) (pick_reader st i) cr /\ reads cr (pdest c).
Proof.
  intros Hinv Hr Hp. apply (i_readers _ Hinv). unfold pick_reader.
  pose proof Hp as [-> _].
  destruct (elements (readers_at (readers st) (pdest c))) as [|r l] eqn:E.
  - apply elements_empty_iff in E. apply leibniz_equiv in E.
    apply readers_none in E; [|apply Hinv].
    pose proof (i_all _ Hinv _ _ Hp E) as Hin. rewrite Hr in Hin. set_solver.
  - simpl. apply elem_of_elements. rewrite E. set_solver.
Qed.

Lemma reads_functional (c : PendingCopy) d d' : reads c d -> reads c d' -> d = d'.
Proof. intros (? & ? & ?) (? & ? & ?). congruence. Qed.

Lemma pick_reader_surj st k ck :
  inv st -> ready st = [] -> pends (copies st) k ck ->
  exists i c, pends (copies st) i c /\ pick_reader st i = k /\ reads ck (pdest c).
Proof.
  intros Hinv Hr Hk.
  set (l := filter (fun i => pending <$> copies st !! i = Some true) (seq 0 (length (copies st)))).
  assert (Hl : forall i, i ∈ l <-> exists c, pends (copies st) i c).
  { intros i. unfold l, pends. rewrite list_elem_of_filter, elem_of_seq, fmap_Some. split.
    - intros [(c & ? & ?) _]. eauto.
    - intros (c & Hc & ?). split; [eauto|]. apply lookup_lt_Some in Hc. lia. }
  destruct (pigeonhole l (pick_reader st)) with (k := k) as (i & Hi & Hik).
  - apply NoDup_filter, NoDup_seq.
  - intros i [c Hc]%Hl. apply Hl. destruct (pick_reader_spec _ _ _ Hinv Hr Hc) as (? & ? & _). eauto.
  - intros i j [c Hc]%Hl [c' Hc']%Hl Heq.
    destruct (pick_reader_spec _ _ _ Hinv Hr Hc) as (cr & [Hcr _] & Hrd).
    destruct (pick_reader_spec _ _ _ Hinv Hr Hc') as (cr' & [Hcr' _] & Hrd').
    rewrite Heq in Hcr. simplify_eq.
    eapply inv_dest; [done|apply Hc|apply Hc'|by eapply reads_functional].
  - apply Hl. eauto.
  - apply Hl in Hi as [c Hc]. exists i, c. split_and!; try done.
    destruct (pick_reader_spec _ _ _ Hinv Hr Hc) as (cr & [Hcr _] & Hrd).
    rewrite Hik in Hcr. destruct Hk as [Hk _]. by simplify_eq.
Qed.

Lemma stalled_readers st i c :
  inv st -> ready st = [] -> pends (copies st) i c ->
  readers_at (readers st) (pdest c) = {[pick_reader st i]}.
Proof.
  intros Hinv Hr Hp. apply set_eq. intros r. rewrite elem_of_singleton, (i_readers _ Hinv). split.
  - intros (cr & Hcr & Hrd).
    destruct (pick_reader_surj _ _ _ Hinv Hr Hcr) as (j & cj & Hj & <- & Hrd'). f_equal.
    eapply inv_dest; [done|apply Hj|apply Hp|by eapply reads_functional].
  - intros ->. by apply pick_reader_spec.
Qed.

Lemma stalled_reads st i c :
  inv st -> ready st = [] -> pends (copies st) i c ->
  exists j cj, pends (copies st) j cj /\ reads c (pdest cj).
Proof.
  intros Hinv Hr Hp. destruct (pick_reader_surj _ _ _ Hinv Hr Hp) as (j & cj & ? & _ & ?). eauto.
Qed.

Lemma stalled_not_live st : inv st -> ready st = [] -> temporary_live st = false.
Proof.
  intros Hinv Hr. apply not_true_iff_false. rewrite (i_live _ Hinv). intros (i & c & Hp & Ht).
  destruct (stalled_reads _ _ _ Hinv Hr Hp) as (j & cj & _ & (s & Hs & _)). congruence.
Qed.

(** *** [register_cycle] on two registers *)

Lemma register_cycle_loop_length fuel (cs : list PendingCopy) dx (start current : R) ms sw vis ms' sw' :
  register_cycle_loop fuel cs dx start current ms sw vis = Some (Some (ms', sw')) ->
  (length ms < length ms')%nat.
Proof.
  revert current ms sw vis. induction fuel as [|fuel IH]; intros current ms sw vis; [done|].
  cbn [register_cycle_loop]. case_decide; [done|].
  destruct (dx !! _) as [ix|]; [|done]. destruct (cs !! ix) as [c|]; [|done].
  destruct (pending c); [|done]. destruct (psource c) as [[s| |]|]; try done. cbn [negb].
  case_decide; [case_decide|].
  - intros [= <- <-]. rewrite length_app. simpl. lia.
  - done.
  - intros Hl%IH. rewrite length_app in Hl. simpl in Hl. lia.
Qed.

Lemma register_cycle_loop_two fuel (cs : list PendingCopy) dx (start : R) m0' m1' sw :
  register_cycle_loop fuel cs dx start start [] [] ∅ = Some (Some ([m0'; m1'], sw)) ->
  exists b c0 c1, b <> start /\ sw = [(start, b)] /\
    dx !! DRegister start = Some m0' /\ pends cs m0' c0 /\ psource c0 = Value (SRegister b) /\
    dx !! DRegister b = Some m1' /\ pends cs m1' c1 /\ psource c1 = Value (SRegister start).
Proof.
  destruct fuel as [|fuel]; [done|]. cbn [register_cycle_loop]. case_decide; [done|].
  destruct (dx !! DRegister start) as [ix|] eqn:Eix; [|done].
  destruct (cs !! ix) as [c|] eqn:Ec; [|done].
  destruct (pending c) eqn:Ep; [|done]. destruct (psource c) as [[b| |]|] eqn:Es; try done. cbn [negb].
  case_decide as Hb; [case_decide; [simpl in *; lia|done]|].
  destruct fuel as [|fuel]; [done|]. cbn [register_cycle_loop]. case_decide; [done|].
  destruct (dx !! DRegister b) as [ix1|] eqn:Eix1; [|done].
  destruct (cs !! ix1) as [c1|] eqn:Ec1; [|done].
  destruct (pending c1) eqn:Ep1; [|done]. destruct (psource c1) as [[b1| |]|] eqn:Es1; try done. cbn [negb].
  case_decide as Hb1.
  - case_decide; [|done]. intros [= <- <- <-]. subst b1. exists b, c, c1. by split_and!.
  - intros Hl%register_cycle_loop_length. simpl in Hl. lia.
Qed.

(** The walk visits each destination register at most once, so the fuel
    never runs out. *)
Lemma register_cycle_loop_total st fuel (start current : R) ms sw vis :
  inv st -> NoDup ms -> (forall i, i ∈ ms -> is_Some (cs0 !! i) /\
    exists r, r ∈ vis /\ di !! DRegister r = Some i) ->
  (length ms + fuel = length cs0 + 1)%nat ->
  register_cycle_loop fuel (copies st) di start current ms sw vis <> None.
Proof.
  intros Hinv. revert current ms sw vis.
  induction fuel as [|fuel IH]; intros current ms sw vis Hnd Hms Hlen.
  - intros _. assert (length ms <= length (seq 0 (length cs0)))%nat as Hle.
    { apply NoDup_incl_length; [by apply NoDup_ListNoDup|].
      intros i Hi. apply list_elem_of_In in Hi. apply Hms in Hi as [[? ?%lookup_lt_Some] _].
      apply in_seq. lia. }
    rewrite length_seq in Hle. lia.
  - cbn [register_cycle_loop]. case_decide as Hv; [done|].
    destruct (di !! DRegister current) as [ix|] eqn:Eix; [|done].
    destruct (copies st !! ix) as [c|] eqn:Ec; [|done].
    destruct (pending c); [|done]. destruct (psource c) as [[b| |]|]; try done. cbn [negb].
    case_decide; [done|]. apply IH.
    + apply NoDup_app. split_and!; [done| |apply NoDup_singleton].
      intros i Hi ->%list_elem_of_singleton. apply Hms in Hi as (_ & r & Hr & Hdr).
      apply di0 in Hdr as (c1 & ? & ?), Eix as (c2 & ? & ?). simplify_eq. congruence.
    + intros i [Hi|Hx%list_elem_of_singleton]%elem_of_app.
      * apply Hms in Hi as (? & r & ? & ?). split; [done|]. exists r. set_solver.
      * subst i. split; [apply (i_copies _ Hinv); eauto|]. exists current. set_solver.
    + rewrite length_app. simpl. lia.
Qed.

Lemma inv_length st : inv st -> length (copies st) = length cs0.
Proof.
  intros Hinv. destruct (Nat.lt_trichotomy (length (copies st)) (length cs0)) as [Hlt|[?|Hlt]]; [|done|].
  - destruct (proj2 (i_copies _ Hinv (length (copies st)))) as [? Hx%lookup_lt_Some];
      [by apply lookup_lt_is_Some|lia].
  - destruct (proj1 (i_copies _ Hinv (length cs0))) as [? Hx%lookup_lt_Some];
      [by apply lookup_lt_is_Some|lia].
Qed.

Lemma register_cycle_total st start :
  inv st -> register_cycle (copies st) di start <> None.
Proof.
  intros Hinv. unfold register_cycle. destruct (copies st !! start) as [[[r|] ? ?]|]; try done.
  apply register_cycle_loop_total; [done|constructor|set_solver|].
  rewrite (inv_length _ Hinv). simpl. lia.
Qed.

Lemma register_cycle_two st cycle m0' m1' sw :
  inv st -> register_cycle (copies st) di cycle = Some (Some ([m0'; m1'], sw)) ->
  exists a b c0 c1, a <> b /\ m0' = cycle /\ m0' <> m1' /\ sw = [(a, b)] /\
    pends (copies st) m0' c0 /\ pdest c0 = DRegister a /\ psource c0 = Value (SRegister b) /\
    pends (copies st) m1' c1 /\ pdest c1 = DRegister b /\ psource c1 = Value (SRegister a).
Proof.
  intros Hinv. unfold register_cycle. destruct (copies st !! cycle) as [[[a|] ? ?]|] eqn:Ecyc; try done.
  intros (b & c0 & c1 & Hab & -> & Hd0 & Hp0 & Hs0 & Hd1 & Hp1 & Hs1)%register_cycle_loop_two.
  apply (inv_di _ _ _ Hinv) in Hd0 as (c0' & Hc0 & Hdc0), Hd1 as (c1' & Hc1 & Hdc1).
  pose proof Hp0 as [? _]. pose proof Hp1 as [? _]. simplify_eq.
  exists a, b, c0', c1'. split_and!; try done.
  - by eapply inv_dest; [..|apply Hc0|apply Ecyc|].
  - intros ->. simplify_eq. congruence.
Qed.

(** *** Breaking a cycle *)

Lemma next_pending_Some (cs : list PendingCopy) start i :
  next_pending cs start = Some i ->
  (exists c, pends cs i c) /\ forall j c, pends cs j c -> (start <= j)%nat -> (i <= j)%nat.
Proof.
  unfold next_pending. intros ([k [i' c]] & Hk & ->)%fmap_Some.
  apply list_find_Some in Hk as (Hk & [_ Hp] & Hmin). simpl in *.
  apply lookup_zip_with_Some in Hk as (? & ? & [= <- <-] & [-> _]%lookup_seq & Hc). simpl in *.
  split; [by exists c|]. intros j cj [Hj Hpj] Hle.
  destruct (decide (k <= j)%nat); [done|].
  exfalso. apply (Hmin j (j, cj)); simpl; [|lia|done].
  apply lookup_zip_with_Some. exists j, cj. split_and!; [done| |done].
  apply lookup_seq. split; [lia|]. eauto with index.
Qed.

Lemma next_pending_exists (cs : list PendingCopy) start j c :
  pends cs j c -> (start <= j)%nat -> is_Some (next_pending cs start).
Proof.
  intros [Hj Hp] Hle. unfold next_pending. apply fmap_is_Some.
  apply (list_find_elem_of _ _ (j, c)); [by apply elem_of_enumerate|done].
Qed.

Lemma count_pending_pos (cs : list PendingCopy) :
  count_pending cs <> 0%nat -> exists i c, pends cs i c.
Proof.
  intros Hc. unfold count_pending in Hc.
  destruct (filter (fun c => pending c = true) cs) as [|c l] eqn:E; [done|].
  assert (c ∈ filter (fun c => pending c = true) cs) as Hin by (rewrite E; set_solver).
  apply list_elem_of_filter in Hin as [Hp [i Hi]%list_elem_of_lookup]. exists i, c. done.
Qed.

Lemma stalled_flags st i : inv st -> ready st = [] -> is_Some (cs0 !! i) -> queued st !! i = Some false.
Proof.
  intros Hinv Hr [c0 Hi%lookup_lt_Some].
  destruct (queued st !! i) as [[]|] eqn:E; [|done|].
  - apply (i_flag _ Hinv) in E. rewrite Hr in E. set_solver.
  - apply lookup_ge_None in E. rewrite (i_queued _ Hinv) in E. lia.
Qed.

(** The semantics of a swap of the two rows of a register cycle. *)
Lemma sem_swap st m i ci j cj a b :
  inv st -> ready st = [] -> sem (copies st) m -> i <> j -> a <> b ->
  pends (copies st) i ci -> pdest ci = DRegister a -> psource ci = Value (SRegister b) ->
  pends (copies st) j cj -> pdest cj = DRegister b -> psource cj = Value (SRegister a) ->
  sem (finish j cj (finish i ci (copies st))) (exec imm m (SwapRegisters a b)).
Proof.
  intros Hinv Hr Hsem Hij Hab Hpi Hdi Hsi Hpj Hdj Hsj.
  pose proof Hpi as [Hi _]. pose proof Hpj as [Hj _]. destruct m as [e t].
  pose proof (s_value _ _ Hsem _ _ _ Hpi Hsi) as Hvi. pose proof (s_value _ _ Hsem _ _ _ Hpj Hsj) as Hvj.
  simpl in Hvi, Hvj.
  assert (Hj' : finish i ci (copies st) !! j = Some cj) by (apply finish_lookup; [done|naive_solver]).
  destruct (i_orig _ Hinv _ _ Hi) as (ci0 & Hi0 & Hdi0 & [Hsi0|]); [|congruence].
  destruct (i_orig _ Hinv _ _ Hj) as (cj0 & Hj0 & Hdj0 & [Hsj0|]); [|congruence].
  assert (Hothers : forall k ck, pends (finish j cj (finish i ci (copies st))) k ck ->
    pends (copies st) k ck /\ ~ reads ck (DRegister a) /\ ~ reads ck (DRegister b)).
  { intros k ck [Hkj [Hki Hk]%finish_pends]%finish_pends; [|done..]. split; [done|].
    assert (Honly : forall x cx, pends (copies st) x cx -> reads ck (pdest cx) -> k = pick_reader st x).
    { intros x cx Hx Hrd. assert (k ∈ readers_at (readers st) (pdest cx)) as Hin
        by (apply (i_readers _ Hinv); eauto).
      rewrite (stalled_readers _ _ _ Hinv Hr Hx) in Hin. set_solver. }
    assert (Hri : pick_reader st i = j).
    { symmetry. assert (j ∈ readers_at (readers st) (pdest ci)) as Hin.
      { apply (i_readers _ Hinv). exists cj. split; [done|]. exists (SRegister a). rewrite Hdi. done. }
      rewrite (stalled_readers _ _ _ Hinv Hr Hpi) in Hin. set_solver. }
    assert (Hrj : pick_reader st j = i).
    { symmetry. assert (i ∈ readers_at (readers st) (pdest cj)) as Hin.
      { apply (i_readers _ Hinv). exists ci. split; [done|]. exists (SRegister b). rewrite Hdj. done. }
      rewrite (stalled_readers _ _ _ Hinv Hr Hpj) in Hin. set_solver. }
    rewrite <- Hdi, <- Hdj. split; intros Hrd.
    - apply (Honly _ _ Hpi) in Hrd. congruence.
    - apply (Honly _ _ Hpj) in Hrd. congruence. }
  cbn [exec]. split; cbn [fst snd].
  - intros k ck ck0 s Hk Hpk Hk0 Hs. apply finish_lookup in Hk; [|done].
    destruct Hk as [[-> ->]|[Hkj Hk]].
    { simplify_eq. rewrite <- Hdj0, Hdj, upd_eq.
      assert (s = SRegister a) as -> by congruence. done. }
    apply finish_lookup in Hk; [|done]. destruct Hk as [[-> ->]|[Hki Hk]].
    { simplify_eq. rewrite <- Hdi0, Hdi, upd_ne, upd_eq by congruence.
      assert (s = SRegister b) as -> by congruence. done. }
    rewrite !upd_ne; [by eapply (s_done _ _ Hsem)|..]; intros Heq.
    + apply Hki. eapply (inv_dest st k ck i ci); eauto.
      destruct (i_orig _ Hinv _ _ Hk) as (? & ? & ? & _). simplify_eq. congruence.
    + apply Hkj. eapply (inv_dest st k ck j cj); eauto.
      destruct (i_orig _ Hinv _ _ Hk) as (? & ? & ? & _). simplify_eq. congruence.
  - intros k ck s Hk Hs. apply Hothers in Hk as (Hk & Hna & Hnb).
    rewrite !eval_upd_ne; [by eapply (s_value _ _ Hsem)|..]; intros Hd.
    + apply Hna. by exists s.
    + apply Hnb. by exists s.
  - intros k ck ck0 s Hk. apply Hothers in Hk as [Hk _]. by apply (s_temp _ _ Hsem).
  - intros d Hd. rewrite !upd_ne; [by apply (s_other _ _ Hsem)|..]; intros ->.
    + apply (Hd _ _ Hi0). congruence.
    + apply (Hd _ _ Hj0). congruence.
Qed.

(** Rows below the search start are finished once the queue is empty. *)
Lemma stalled_next st cycle i c :
  inv st -> ready st = [] -> next_pending (copies st) (cycle_search_start st) = Some cycle ->
  pends (copies st) i c -> (cycle <= i)%nat.
Proof.
  intros Hinv Hr [_ Hmin]%next_pending_Some Hp.
  destruct (decide (cycle_search_start st <= i)%nat); [by eapply Hmin|].
  pose proof (i_search _ Hinv _ _ Hp ltac:(lia)) as Hin. rewrite Hr in Hin. set_solver.
Qed.

Lemma inv_swap st i ci j cj a b ops wk :
  inv st -> ready st = [] -> next_pending (copies st) (cycle_search_start st) = Some i -> i <> j ->
  pends (copies st) i ci -> pdest ci = DRegister a -> psource ci = Value (SRegister b) ->
  pends (copies st) j cj -> pdest cj = DRegister b -> psource cj = Value (SRegister a) ->
  inv (RS (finish j cj (finish i ci (copies st)))
          (delete (pdest cj) (delete (pdest ci) (readers st))) (ready st)
          (<[j := false]> (<[i := false]> (queued st))) ops (remaining st - 2)
          (temporary_live st) (i + 1) wk).
Proof.
  intros Hinv Hr Hnext Hij Hpi Hdi Hsi Hpj Hdj Hsj.
  pose proof Hpi as [Hi _]. pose proof Hpj as [Hj _].
  assert (Hj' : finish i ci (copies st) !! j = Some cj) by (apply finish_lookup; [done|naive_solver]).
  assert (Hpends : forall k ck, pends (finish j cj (finish i ci (copies st))) k ck <->
    k <> j /\ k <> i /\ pends (copies st) k ck).
  { intros k ck. rewrite !finish_pends by done. naive_solver. }
  assert (Hnt : forall k ck, pends (copies st) k ck -> psource ck <> Temporary).
  { intros k ck Hk. destruct (stalled_reads _ _ _ Hinv Hr Hk) as (? & ? & _ & (? & ? & _)). congruence. }
  assert (Hri : reads cj (pdest ci)) by (exists (SRegister a); by rewrite Hdi).
  assert (Hrj : reads ci (pdest cj)) by (exists (SRegister b); by rewrite Hdj).
  assert (Hkill : forall d k, k ∈ readers_at (delete (pdest cj) (delete (pdest ci) (readers st))) d <->
    d <> pdest ci /\ d <> pdest cj /\ k ∈ readers_at (readers st) d).
  { intros d k. unfold readers_at. destruct (decide (d = pdest cj)) as [->|].
    { rewrite lookup_delete_eq. set_solver. }
    rewrite lookup_delete_ne by done. destruct (decide (d = pdest ci)) as [->|].
    { rewrite lookup_delete_eq. set_solver. }
    rewrite lookup_delete_ne by done. naive_solver. }
  assert (Honly : forall x cx k ck, pends (copies st) x cx -> pends (copies st) k ck ->
    reads ck (pdest cx) -> k = pick_reader st x).
  { intros x cx k ck Hx Hk Hrd. assert (k ∈ readers_at (readers st) (pdest cx)) as Hin
        by (apply (i_readers _ Hinv); eauto).
    rewrite (stalled_readers _ _ _ Hinv Hr Hx) in Hin. set_solver. }
  pose proof (Honly _ _ _ _ Hpi Hpj Hri) as Eij. pose proof (Honly _ _ _ _ Hpj Hpi Hrj) as Eji.
  assert (Hstill : forall k ck, k <> j -> k <> i -> pends (copies st) k ck ->
    delete (pdest cj) (delete (pdest ci) (readers st)) !! pdest ck = readers st !! pdest ck).
  { intros k ck Hkj Hki [Hk _]. rewrite !lookup_delete_ne; [done|..]; intros Heq.
    - apply Hki. by eapply inv_dest; [..|apply Hk|apply Hi|].
    - apply Hkj. by eapply inv_dest; [..|apply Hk|apply Hj|]. }
  split; cbn [copies readers ready queued operations remaining temporary_live cycle_search_start work].
  - intros k. rewrite !finish_is_Some. apply Hinv.
  - rewrite !length_insert. apply Hinv.
  - intros k ck [[-> ->]|[_ Hk]]%finish_lookup; [..|done].
    { destruct (i_orig _ Hinv _ _ Hj) as (c0 & ? & ? & ?). by exists c0. }
    apply finish_lookup in Hk as [[-> ->]|[_ Hk]]; [..|done].
    { destruct (i_orig _ Hinv _ _ Hi) as (c0 & ? & ? & ?). by exists c0. }
    by apply (i_orig _ Hinv).
  - intros k ck k' ck' (_ & _ & Hk)%Hpends (_ & _ & Hk')%Hpends. by apply (i_temp _ Hinv).
  - rewrite (stalled_not_live _ Hinv Hr). split; [done|].
    intros (k & ck & (_ & _ & Hk)%Hpends & Ht). by apply Hnt in Hk.
  - intros d S Hd. apply lookup_delete_Some in Hd as [_ Hd].
    apply lookup_delete_Some in Hd as [_ Hd]. by eapply (i_ne _ Hinv).
  - intros d k. rewrite Hkill, (i_readers _ Hinv). setoid_rewrite Hpends. split.
    + intros (Hna & Hnb & ck & Hk & Hrd). exists ck. split_and!; try done; intros ->.
      * apply Hna. destruct Hk as [? _]. simplify_eq. by eapply reads_functional.
      * apply Hnb. destruct Hk as [? _]. simplify_eq. by eapply reads_functional.
    + intros (ck & (Hkj & Hki & Hk) & Hrd). split_and!; [| |by eauto]; intros ->.
      * apply Hkj. rewrite Eij. by eapply Honly.
      * apply Hki. rewrite Eji. by eapply Honly.
  - rewrite Hr. constructor.
  - intros k. rewrite Hr. split; [set_solver|].
    intros [(_ & ? & _)|[_ [(_ & ? & _)|[_ Hk]]%list_lookup_insert_Some]]%list_lookup_insert_Some; [done..|].
    apply (i_flag _ Hinv) in Hk. by rewrite Hr in Hk.
  - intros k. rewrite Hr. set_solver.
  - intros k ck (Hkj & Hki & Hk)%Hpends Hn. rewrite (Hstill k) in Hn by done.
    by apply (i_all _ Hinv _ _ Hk).
  - rewrite (i_rem _ Hinv), (count_finish _ _ _ Hpi), (count_finish (finish i ci (copies st)) j cj); [lia|].
    apply finish_pends; [done|naive_solver].
  - intros k ck (Hkj & Hki & Hk)%Hpends Hlt. pose proof (stalled_next _ _ _ _ Hinv Hr Hnext Hk). lia.
Qed.

(** Redirecting the only reader of the saved location to the temporary. *)
Definition to_temporary (r : nat) (cr : PendingCopy) (cs : list PendingCopy) : list PendingCopy :=
  <[r := PC (pdest cr) Temporary (pending cr)]> cs.

Lemma to_temporary_lookup cs r cr k ck :
  cs !! r = Some cr -> to_temporary r cr cs !! k = Some ck <->
  (k = r /\ ck = PC (pdest cr) Temporary (pending cr)) \/ (k <> r /\ cs !! k = Some ck).
Proof.
  intros Hr. unfold to_temporary. pose proof (lookup_lt_Some _ _ _ Hr).
  rewrite list_lookup_insert_Some. naive_solver.
Qed.

Lemma count_to_temporary cs r cr :
  cs !! r = Some cr -> count_pending (to_temporary r cr cs) = count_pending cs.
Proof.
  intros Hr. unfold count_pending, to_temporary.
  rewrite <- (take_drop_middle cs r cr Hr) at 2. rewrite insert_take_drop by (eauto with index).
  rewrite !filter_app, !filter_cons. simpl. repeat case_decide; try done; rewrite !length_app; simpl; lia.
Qed.

Lemma inv_save st cycle c r cr ops wk :
  inv st -> ready st = [] -> next_pending (copies st) (cycle_search_start st) = Some cycle ->
  pends (copies st) cycle c -> readers_at (readers st) (pdest c) = {[r]} ->
  pends (copies st) r cr -> reads cr (pdest c) ->
  inv (RS (to_temporary r cr (copies st)) (delete (pdest c) (readers st)) [cycle]
          (<[cycle := true]> (queued st)) ops (remaining st) true (cycle + 1) wk).
Proof.
  intros Hinv Hr Hnext Hpc Hone Hpr Hrd. pose proof Hpc as [Hc _]. pose proof Hpr as [Hcr Hpcr].
  assert (Hpends : forall k ck, pends (to_temporary r cr (copies st)) k ck <->
    (k = r /\ ck = PC (pdest cr) Temporary true) \/ (k <> r /\ pends (copies st) k ck)).
  { intros k ck. unfold pends. rewrite to_temporary_lookup by done. rewrite Hpcr. naive_solver. }
  assert (Hnt : forall k ck, pends (copies st) k ck -> psource ck <> Temporary).
  { intros k ck Hk. destruct (stalled_reads _ _ _ Hinv Hr Hk) as (? & ? & _ & (? & ? & _)). congruence. }
  assert (cycle <> r) as Hcyr.
  { intros ->. simplify_eq. by apply (inv_not_self _ _ _ _ Hinv Hpr Hrd). }
  split; cbn [copies readers ready queued operations remaining temporary_live cycle_search_start work].
  - intros k. unfold to_temporary. rewrite <- (i_copies _ Hinv), !lookup_lt_is_Some, length_insert. done.
  - rewrite length_insert. apply Hinv.
  - intros k ck [[-> ->]|[_ Hk]]%to_temporary_lookup; [|by apply (i_orig _ Hinv)|done].
    destruct (i_orig _ Hinv _ _ Hcr) as (c0 & ? & ? & ?). by exists c0; simpl; auto.
  - intros k ck k' ck' [[-> ->]|[? Hk]]%Hpends [[-> ->]|[? Hk']]%Hpends Ht Ht'; [done|..].
    + by apply Hnt in Hk'.
    + by apply Hnt in Hk.
    + by apply Hnt in Hk.
  - split; [|done]. intros _. exists r, (PC (pdest cr) Temporary true). rewrite Hpends. auto.
  - intros d S [_ Hd]%lookup_delete_Some. by eapply (i_ne _ Hinv).
  - intros d k. setoid_rewrite Hpends.
    assert (k ∈ readers_at (delete (pdest c) (readers st)) d <->
      d <> pdest c /\ k ∈ readers_at (readers st) d) as ->.
    { unfold readers_at. destruct (decide (d = pdest c)) as [->|].
      - rewrite lookup_delete_eq. set_solver.
      - rewrite lookup_delete_ne by done. naive_solver. }
    rewrite (i_readers _ Hinv). split.
    + intros (Hne & ck & Hk & Hrk). exists ck. split; [|done]. right. split; [|done].
      intros ->. destruct Hk as [? _]. simplify_eq. apply Hne. by eapply reads_functional.
    + intros (ck & [[-> ->]|[Hne Hk]] & Hrk); [by destruct Hrk as (? & ? & _)|]. split; [|eauto].
      intros ->. apply Hne. assert (k ∈ readers_at (readers st) (pdest c)) as Hin
        by (apply (i_readers _ Hinv); eauto). rewrite Hone in Hin. set_solver.
  - apply NoDup_singleton.
  - intros k. rewrite list_elem_of_singleton, list_lookup_insert_Some.
    pose proof (stalled_flags _ cycle Hinv Hr ltac:(apply (i_copies _ Hinv); eauto)) as Hq%lookup_lt_Some.
    split; [intros ->; by left|]. intros [(-> & _)|[_ Hk]]; [done|].
    apply (i_flag _ Hinv) in Hk. rewrite Hr in Hk. set_solver.
  - intros k ->%list_elem_of_singleton. exists c. rewrite Hpends. split; [by right|]. apply lookup_delete_eq.
  - intros k ck Hk Hn. apply list_elem_of_singleton.
    assert (exists ck', pends (copies st) k ck' /\ pdest ck' = pdest ck) as (ck' & Hk' & Hd).
    { apply Hpends in Hk as [[-> ->]|[_ Hk]]; eauto. }
    apply lookup_delete_None in Hn as [Heq|Hn].
    + eapply inv_dest; [done|apply Hk'|apply Hc|congruence].
    + rewrite <- Hd in Hn. pose proof (i_all _ Hinv _ _ Hk' Hn) as Hin. rewrite Hr in Hin. set_solver.
  - rewrite (i_rem _ Hinv). by rewrite count_to_temporary.
  - intros k ck Hk Hlt. apply list_elem_of_singleton.
    assert (exists ck', pends (copies st) k ck') as (ck' & Hk').
    { apply Hpends in Hk as [[-> ->]|[_ Hk]]; eauto. }
    pose proof (stalled_next _ _ _ _ Hinv Hr Hnext Hk'). lia.
Qed.
Lemma sem_save st m cycle c r cr :
  inv st -> ready st = [] -> sem (copies st) m -> pends (copies st) cycle c ->
  pends (copies st) r cr -> reads cr (pdest c) ->
  sem (to_temporary r cr (copies st)) (exec imm m (SaveTemporary (pdest c))).
Proof.
  intros Hinv Hrdy Hsem Hpc Hpr Hrd. pose proof Hpr as [Hcr Hpcr]. destruct m as [e t].
  destruct Hrd as (sr & Hsr & Hloc).
  destruct (i_orig _ Hinv _ _ Hcr) as (cr0 & Hr0 & _ & [Hsr0|]); [|congruence].
  assert (e (pdest c) = eval_source imm env0 sr) as Hval.
  { rewrite <- (s_value _ _ Hsem _ _ _ Hpr Hsr). symmetry. by apply eval_source_location. }
  split; cbn [exec fst snd].
  - intros k ck ck0 s [[-> ->]|[_ Hk]]%to_temporary_lookup; [simpl; congruence| |done].
    by apply (s_done _ _ Hsem).
  - intros k ck s [[[-> ->]|[_ Hk]]%to_temporary_lookup Hp]; [done| |done].
    apply (s_value _ _ Hsem k). by split.
  - intros k ck ck0 s [[[-> ->]|[_ Hk]]%to_temporary_lookup Hp] Ht Hk0 Hs; [..|done].
    + simplify_eq. rewrite Hval. f_equal. congruence.
    + destruct (stalled_reads _ k ck Hinv Hrdy) as (? & ? & _ & (? & ? & _)); [by split|congruence].
  - apply (s_other _ _ Hsem).
Qed.

(** The work the outer loop still has to do: rows of a non-empty queue
    are popped before the next stall. *)
Definition to_go (st : rstate) : nat :=
  match ready st with [] => remaining st | _ => remaining st - 1 end.

Lemma break_cycle_swap st cycle m1 sw :
  good st -> ready st = [] -> next_pending (copies st) (cycle_search_start st) = Some cycle ->
  register_cycle (copies st) di cycle = Some (Some ([cycle; m1], sw)) ->
  exists st', break_cycle di cycle st = Ok st' /\ good st' /\
    (to_go st' < remaining st)%nat /\ length (copies st') = length (copies st).
Proof.
  intros [Hinv Hsem] Hr Hnext Hrc.
  destruct (register_cycle_two _ _ _ _ _ Hinv Hrc)
    as (a & b & ci & cj & Hab & _ & Hij & -> & Hpi & Hdi & Hsi & Hpj & Hdj & Hsj).
  pose proof Hpi as [Hi _]. pose proof Hpj as [Hj _].
  assert (Hj' : finish cycle ci (copies st) !! m1 = Some cj) by (apply finish_lookup; [done|naive_solver]).
  assert (length (copies st) = length (queued st)) as Hlen
    by (rewrite (inv_length _ Hinv); symmetry; apply Hinv).
  pose proof (lookup_lt_Some _ _ _ Hi) as Hilt. pose proof (lookup_lt_Some _ _ _ Hj) as Hjlt.
  unfold break_cycle. rewrite Hrc. msimpl. cbn [foldM]. unfold vset. rewrite Hi. msimpl.
  rewrite decide_True by lia. msimpl. fold (finish cycle ci (copies st)). rewrite Hj'. msimpl.
  rewrite decide_True by (rewrite length_insert; lia). msimpl.
  fold (finish m1 cj (finish cycle ci (copies st))).
  eexists. split; [reflexivity|]. cbn [length fmap list_fmap fst snd].
  split_and!.
  - split.
    + by eapply inv_swap.
    + cbn [copies operations]. rewrite exec_all_app. cbn [exec_all foldl].
      by eapply sem_swap.
  - unfold to_go. cbn [ready remaining]. rewrite Hr, (i_rem _ Hinv), (count_finish _ _ _ Hpi). lia.
  - cbn [copies]. unfold finish. by rewrite !length_insert.
Qed.

Lemma break_cycle_save st cycle :
  good st -> ready st = [] -> next_pending (copies st) (cycle_search_start st) = Some cycle ->
  (forall m1 sw, register_cycle (copies st) di cycle <> Some (Some ([cycle; m1], sw))) ->
  exists st', break_cycle di cycle st = Ok st' /\ good st' /\
    (to_go st' < remaining st)%nat /\ length (copies st') = length (copies st).
Proof.
  intros [Hinv Hsem] Hr Hnext Hrc.
  destruct (next_pending_Some _ _ _ Hnext) as [[c Hpc] _]. pose proof Hpc as [Hc _].
  pose proof (stalled_readers _ _ _ Hinv Hr Hpc) as Hone.
  destruct (pick_reader_spec _ _ _ Hinv Hr Hpc) as (cr & Hpr & Hrd).
  set (r := pick_reader st cycle) in *. pose proof Hpr as [Hcr _].
  pose proof (stalled_flags _ cycle Hinv Hr ltac:(apply (i_copies _ Hinv); eauto)) as Hq.
  assert (break_cycle di cycle st = Ok (RS (to_temporary r cr (copies st))
    (delete (pdest c) (readers st)) [cycle] (<[cycle := true]> (queued st))
    (operations st ++ [SaveTemporary (pdest c)]) (remaining st) true (cycle + 1)
    (work_add (work st) (Build_CopyResolutionWork 0 0 0 1 1 0 1)))) as ->.
  { unfold break_cycle. destruct (register_cycle _ _ _) as [rc|] eqn:Erc;
      [|by apply register_cycle_total in Erc]. msimpl.
    assert (Hel : elements (default ∅ (readers st !! pdest c)) = [r])
      by (fold (readers_at (readers st) (pdest c)); rewrite Hone; apply elements_singleton).
    destruct rc as [[[|x [|y [|? ?]]] sw]|]; rewrite ?Hc; msimpl; rewrite ?Hel, ?Hcr, ?Hq, ?Hr; try done.
    destruct (register_cycle_two _ _ _ _ _ Hinv Erc) as (? & ? & ? & ? & _ & -> & _).
    by destruct (Hrc y sw). }
  eexists. split; [reflexivity|]. split_and!.
  - split; [by apply inv_save|]. cbn [copies operations]. rewrite exec_all_app.
    cbn [exec_all foldl]. by eapply sem_save.
  - unfold to_go. cbn [ready remaining]. rewrite (i_rem _ Hinv), (count_finish _ _ _ Hpc). lia.
  - cbn [copies]. unfold to_temporary. by rewrite length_insert.
Qed.

Lemma break_cycle_ok st cycle :
  good st -> ready st = [] -> next_pending (copies st) (cycle_search_start st) = Some cycle ->
  exists st', break_cycle di cycle st = Ok st' /\ good st' /\
    (to_go st' < remaining st)%nat /\ length (copies st') = length (copies st).
Proof.
  intros Hg Hr Hnext.
  destruct (register_cycle (copies st) di cycle) as [[[[|m0' [|m1 [|? ?]]] sw]|]|] eqn:E;
    try (apply break_cycle_save; congruence).
  destruct (register_cycle_two _ _ _ _ _ (g_inv _ Hg) E) as (? & ? & ? & ? & _ & -> & _).
  by eapply break_cycle_swap.
Qed.

Lemma resolve_loop_ok fuel st :
  good st -> (to_go st < fuel)%nat ->
  exists st', resolve_loop fuel di st = Ok st' /\ good st' /\ remaining st' = 0%nat.
Proof.
  revert st. induction fuel as [|fuel IH]; intros st Hg Hf; [lia|].
  cbn [resolve_loop]. case_decide; [by exists st|].
  destruct (drain_ok (length (copies st)) st Hg) as (st1 & Hd & Hg1 & Hr1 & Hle & Hlt & Hlen1).
  { rewrite (i_rem _ (g_inv _ Hg)). apply length_filter. }
  rewrite Hd. msimpl. case_decide as Hrem; [by exists st1|].
  rewrite (stalled_not_live _ (g_inv _ Hg1) Hr1).
  destruct (next_pending (copies st1) (cycle_search_start st1)) as [cycle|] eqn:En.
  - destruct (break_cycle_ok st1 cycle Hg1 Hr1 En) as (st2 & Hb & Hg2 & Hlt2 & _).
    rewrite Hb. msimpl. apply IH; [done|]. unfold to_go in Hf, Hlt2 |- *.
    destruct (ready st) eqn:Er; [lia|]. pose proof (Hlt ltac:(done)). lia.
  - exfalso. destruct (count_pending_pos (copies st1)) as (i & c & Hp).
    { by rewrite <- (i_rem _ (g_inv _ Hg1)). }
    destruct (decide (cycle_search_start st1 <= i)%nat) as [Hle'|].
    + destruct (next_pending_exists _ _ _ _ Hp Hle'). congruence.
    + pose proof (i_search _ (g_inv _ Hg1) _ _ Hp ltac:(lia)) as Hin. rewrite Hr1 in Hin. set_solver.
Qed.
End invariant.

(** ** The whole resolver *)

Section resolver.
Context {R : Type} `{Countable R} {V : Type} (imm : Z -> V).
Abbreviation ParallelCopy := (@ParallelCopy R).
Abbreviation PendingCopy := (@PendingCopy R).
Implicit Types (rows : list ParallelCopy).

(** The rows the resolver keeps. *)
Definition effective rows : list PendingCopy := pending_of <$> filter (fun row => is_identity row = false) rows.

Lemma effective_lookup rows i c :
  effective rows !! i = Some c ->
  exists row, row ∈ rows /\ is_identity row = false /\ c = pending_of row.
Proof.
  intros (row & -> & Hin)%list_lookup_fmap_Some. apply list_elem_of_lookup_2 in Hin.
  apply list_elem_of_filter in Hin as [??]. eauto.
Qed.

Lemma effective_elem rows row :
  row ∈ rows -> is_identity row = false -> exists i, effective rows !! i = Some (pending_of row).
Proof.
  intros Hin Hid. apply list_elem_of_lookup. apply list_elem_of_fmap. exists row.
  split; [done|]. by apply list_elem_of_filter.
Qed.

Lemma effective_distinct rows : NoDup (destination <$> rows) -> distinct_dests (effective rows).
Proof.
  intros Hnd i j ci cj Hi Hj Hd.
  assert (NoDup (pdest <$> effective rows)) as Hnd'.
  { unfold effective. rewrite <- list_fmap_compose. by apply (NoDup_fmap_filter destination). }
  eapply (NoDup_lookup _ _ _ (pdest ci)); [exact Hnd'|..]; rewrite list_lookup_fmap.
  - by rewrite Hi.
  - rewrite Hj. simpl. by rewrite Hd.
Qed.

Lemma is_identity_spec (row : ParallelCopy) :
  is_identity row = true <-> source_as_destination (source row) = Some (destination row).
Proof.
  unfold is_identity. destruct (destination row), (source row); simpl; rewrite ?bool_decide_eq_true;
    naive_solver.
Qed.

(** The state before the first pop. *)
Definition initial (cs : list PendingCopy) : @rstate R _ _ :=
  RS cs (index_readers cs)
    (fst <$> filter (fun ic => bool_decide (index_readers cs !! pdest ic.2 = None) = true)
               (enumerate cs))
    ((fun c => bool_decide (index_readers cs !! pdest c = None)) <$> cs) [] (length cs) false 0
    (Build_CopyResolutionWork (length cs) 0 0 0 0 0 0).

Lemma initial_ready (cs : list PendingCopy) i :
  i ∈ ready (initial cs) <-> exists c, cs !! i = Some c /\ index_readers cs !! pdest c = None.
Proof.
  cbn [initial ready]. rewrite list_elem_of_fmap. split.
  - intros ([j c] & -> & [Hd Hin%elem_of_enumerate]%list_elem_of_filter). simpl in *.
    exists c. split; [done|]. by apply bool_decide_eq_true in Hd.
  - intros (c & Hc & Hn). exists (i, c). split; [done|]. apply list_elem_of_filter. simpl.
    rewrite bool_decide_eq_true. split; [done|]. by apply elem_of_enumerate.
Qed.

Lemma initial_good (cs : list PendingCopy) (env0 : @env R V) (t0 : V) :
  (forall i c, cs !! i = Some c -> pending c = true /\ exists s, psource c = Value s) ->
  good imm cs env0 (env0, t0) (initial cs).
Proof.
  intros Hcs. destruct (index_readers_spec cs) as [Hne Hrd].
  assert (Hnt : forall i c, pends cs i c -> psource c <> Temporary).
  { intros i c [Hi _]. destruct (Hcs _ _ Hi) as (_ & s & ->). done. }
  split; [split|split]; try (cbn [initial copies readers queued operations remaining temporary_live cycle_search_start]).
  - done.
  - by rewrite length_fmap.
  - intros i c Hi. exists c. auto.
  - intros i c j c' Hi _ Ht. by apply Hnt in Hi.
  - split; [done|]. intros (i & c & Hi & Ht). by apply Hnt in Hi.
  - done.
  - intros d i. rewrite Hrd. unfold pends. split; [|naive_solver].
    intros (c & Hc & Hr). exists c. split_and!; try done. by apply (Hcs i).
  - apply NoDup_fmap_filter. rewrite fst_zip by (rewrite length_seq; lia). apply NoDup_seq.
  - intros i. rewrite initial_ready, list_lookup_fmap, fmap_Some. split.
    + intros (c & Hc & Hn). exists c. split; [done|]. symmetry. by apply bool_decide_eq_true.
    + intros (c & Hc & Hn). exists c. split; [done|]. symmetry in Hn. by apply bool_decide_eq_true in Hn.
  - intros i (c & Hc & Hn)%initial_ready. exists c. split; [|done]. split; [done|]. by apply (Hcs i).
  - intros i c [Hc _] Hn. apply initial_ready. eauto.
  - unfold count_pending. clear -Hcs. induction cs as [|c cs IH]; [done|].
    rewrite filter_cons, decide_True by (by apply (Hcs 0%nat)). simpl. f_equal. apply IH.
    intros i c' Hi. by apply (Hcs (S i)).
  - intros; lia.
  - intros i c ? ? Hc Hp. by rewrite (proj1 (Hcs _ _ Hc)) in Hp.
  - done.
  - intros i c c0 s Hp Ht. by apply Hnt in Hp.
  - done.
Qed.

Lemma resolve_unfold rows :
  NoDup (destination <$> rows) -> effective rows <> [] ->
  resolve_parallel_copies rows =
  (st ← resolve_loop (length (effective rows) + 1) (index_destinations (effective rows)) (initial (effective rows));
   if temporary_live st then Err LeftTemporaryLive else Ok (operations st, work st)).
Proof.
  intros Hnd Hne. unfold resolve_parallel_copies.
  rewrite check_destinations_ok by (try done; set_solver). msimpl.
  fold (effective rows). rewrite decide_False; [done|]. by intros ?%length_zero_iff_nil.
Qed.

Lemma sem_finished rows (env0 : @env R V) st m :
  NoDup (destination <$> rows) -> inv (effective rows) st ->
  sem imm (effective rows) env0 (copies st) m -> remaining st = 0%nat ->
  temporary_live st = false /\
  (forall row, row ∈ rows -> m.1 (destination row) = eval_source imm env0 (source row)) /\
  (forall d, d ∉ destination <$> rows -> m.1 d = env0 d).
Proof.
  intros Hnd Hinv Hsem Hrem. rewrite (i_rem _ _ Hinv) in Hrem.
  assert (Hnone : forall i c, ~ pends (copies st) i c).
  { intros i c Hp. rewrite (count_finish _ _ _ Hp) in Hrem. done. }
  split_and!.
  - apply not_true_iff_false. rewrite (i_live _ _ Hinv). intros (i & c & Hp & _). by eapply Hnone.
  - intros row Hrow. destruct (is_identity row) eqn:Hid.
    + apply is_identity_spec in Hid. rewrite (eval_source_location _ _ _ _ Hid).
      apply (s_other _ _ _ _ _ Hsem). intros i c0 (row' & Hrow' & Hid' & ->)%effective_lookup Hd.
      simpl in Hd. assert (row' = row) as ->.
      { apply list_elem_of_lookup in Hrow as [x Hx], Hrow' as [y Hy].
        assert (x = y) as ->; [|congruence]. eapply (NoDup_lookup _ _ _ (destination row)); [exact Hnd|..];
          rewrite list_lookup_fmap, ?Hx, ?Hy; simpl; congruence. }
      apply is_identity_spec in Hid. congruence.
    + destruct (effective_elem _ _ Hrow Hid) as [i Hi].
      destruct (proj2 (i_copies _ _ Hinv i)) as [c Hc]; [eauto|].
      destruct (pending c) eqn:Hp; [by destruct (Hnone i c)|].
      by apply (s_done _ _ _ _ _ Hsem i c (pending_of row) (source row)).
  - intros d Hd. apply (s_other _ _ _ _ _ Hsem).
    intros i c0 (row & Hrow & _ & ->)%effective_lookup <-. apply Hd, list_elem_of_fmap. eauto.
Qed.

Lemma resolve_run rows (env0 : @env R V) (t0 : V) :
  NoDup (destination <$> rows) ->
  exists st, resolve_loop (length (effective rows) + 1) (index_destinations (effective rows))
      (initial (effective rows)) = Ok st /\ good imm (effective rows) env0 (env0, t0) st /\
    remaining st = 0%nat.
Proof.
  intros Hnd. eapply resolve_loop_ok.
  - by apply effective_distinct.
  - intros i c (row & _ & Hid & ->)%effective_lookup. exists (source row). split; [done|].
    simpl. rewrite <- is_identity_spec. congruence.
  - intros d i. by apply index_destinations_spec, effective_distinct.
  - apply initial_good. intros i c (row & _ & _ & ->)%effective_lookup. simpl. eauto.
  - unfold to_go. cbn [initial remaining]. destruct (ready _); lia.
Qed.

Lemma effective_nil rows (env0 : @env R V) :
  effective rows = [] ->
  forall row, row ∈ rows -> env0 (destination row) = eval_source imm env0 (source row).
Proof.
  intros Heff row Hrow. destruct (is_identity row) eqn:Hid.
  - apply is_identity_spec in Hid. by rewrite (eval_source_location _ _ _ _ Hid).
  - destruct (effective_elem _ _ Hrow Hid) as [i Hi]. by rewrite Heff in Hi.
Qed.
End resolver.

(** C1: on rows with pairwise distinct destinations
    [resolve_parallel_copies] succeeds, and the list of operations it
    returns, run one after the other, computes the simultaneous assignment:
    every destination ends with the value its source had before, cycles of
    any shape included, and every other location keeps its value. *)
Theorem resolve_parallel_copies_correct {R : Type} `{Countable R} (rows : list (@ParallelCopy R))
    (Hnd : NoDup (destination <$> rows)) :
  exists ops wk, resolve_parallel_copies rows = Ok (ops, wk) /\
    forall (V : Type) (imm : Z -> V) (env0 : CopyDestination -> V) (t0 : V),
      let env1 := (exec_all imm (env0, t0) ops).1 in
      (forall row, row ∈ rows -> env1 (destination row) = eval_source imm env0 (source row)) /\
      (forall d, d ∉ destination <$> rows -> env1 d = env0 d).
Proof.
  destruct (decide (effective rows = [])) as [Heff|Hne].
  - exists [], (Build_CopyResolutionWork 0 0 0 0 0 0 0). split.
    { unfold resolve_parallel_copies.
      rewrite check_destinations_ok by (try done; set_solver). msimpl. fold (effective rows).
      by rewrite Heff. }
    intros V imm env0 t0. simpl. split; [by apply effective_nil|done].
  - rewrite (resolve_unfold _ Hnd Hne).
    destruct (resolve_run (fun _ => tt) rows (fun _ => tt) tt Hnd) as (st & Hst & [Hinv Hsem] & Hrem).
    destruct (sem_finished (fun _ => tt) _ _ _ _ Hnd Hinv Hsem Hrem) as [Htl _].
    rewrite Hst. msimpl. rewrite Htl. eexists _, _. split; [reflexivity|].
    intros V imm env0 t0. destruct (resolve_run imm rows env0 t0 Hnd) as (st' & Hst' & [Hinv' Hsem'] & Hrem').
    rewrite Hst in Hst'. injection Hst' as <-.
    by destruct (sem_finished imm _ _ _ _ Hnd Hinv' Hsem' Hrem') as [_ ?].
Qed.

(** Two rows that write one destination are refused: the resolver
    returns [NonUniqueDestination] naming a destination of the rows, and no
    operation list. *)
Lemma resolve_parallel_copies_duplicate {R : Type} `{Countable R} (rows : list (@ParallelCopy R))
    (Hdup : ~ NoDup (destination <$> rows)) :
  exists d, d ∈ destination <$> rows /\
    resolve_parallel_copies rows = Err (NonUniqueDestination d).
Proof.
  destruct (check_destinations_dup ∅ rows Hdup) as (d & Hc & Hd).
  exists d. split; [done|]. unfold resolve_parallel_copies. rewrite Hc. done.
Qed.

(** A three-cycle through a stack slot, a register swap, a copy out of the
    cycle and an immediate. *)
Definition sample_rows : list (@ParallelCopy nat) :=
  [ Build_ParallelCopy (DRegister 0) (SRegister 1); Build_ParallelCopy (DRegister 1) (SRegister 0);
    Build_ParallelCopy (DStack 0) (SRegister 2); Build_ParallelCopy (DRegister 2) (SRegister 3);
    Build_ParallelCopy (DRegister 3) (SStack 0); Build_ParallelCopy (DRegister 4) (SImmediate 7);
    Build_ParallelCopy (DStack 9) (SRegister 0); Build_ParallelCopy (DRegister 8) (SRegister 8) ]%nat.

Lemma resolve_parallel_copies_correct_witness :
  NoDup (destination <$> sample_rows) /\
  exists ops wk, resolve_parallel_copies sample_rows = Ok (ops, wk) /\
    forall (V : Type) (imm : Z -> V) (env0 : CopyDestination -> V) (t0 : V),
      let env1 := (exec_all imm (env0, t0) ops).1 in
      (forall row, row ∈ sample_rows -> env1 (destination row) = eval_source imm env0 (source row)) /\
      (forall d, d ∉ destination <$> sample_rows -> env1 d = env0 d).
Proof.
  assert (NoDup (destination <$> sample_rows)) as Hnd by (apply (bool_decide_unpack _); vm_compute; done).
  split; [exact Hnd|apply (resolve_parallel_copies_correct sample_rows Hnd)].
Defined.

Example sample_operations :
  resolve_parallel_copies (R := nat) (take 2 sample_rows) =
  Ok ([SwapRegisters 0 1]%nat, Build_CopyResolutionWork 2 0 1 1 0 0 2).
Proof. vm_compute. reflexivity. Qed.
