(* ===== verification/Memory.v ===== *)
(** * Memory: locations, effects and byte-range aliasing

    Models [crates/celox-analysis/src/memory.rs]. *)

From S2P Require Import Prelude.

Section memory.
Context {O : Type} `{EqDecision O}.

Record MemoryLocation : Type := { object : O; offset : Z; byte_len : Z }.

(** [MemoryLocation::end]: [None] when the length or the sum leaves [i64]. *)
Definition end_ (l : MemoryLocation) : option Z :=
  len ← i64_try_from (byte_len l); i64_checked_add (offset l) len.

Inductive MemoryEffect : Type :=
  | Exact (location : MemoryLocation)
  | UnknownObject (o : O)
  | UnknownAll.

Definition effects_may_alias (l r : MemoryEffect) : bool :=
  match l, r with
  | UnknownAll, _ | _, UnknownAll => true
  | UnknownObject a, UnknownObject b => bool_decide (a = b)
  | UnknownObject o, Exact location | Exact location, UnknownObject o =>
      bool_decide (o = object location)
  | Exact a, Exact b =>
      if bool_decide (object a <> object b) then false else
      match end_ a, end_ b with
      | Some a_end, Some b_end => (offset a <? b_end) && (offset b <? a_end)
      | _, _ => true
      end
  end.

(** ** The bytes an effect may touch *)

(** Byte [p] of object [o] is one the effect may touch; an exact range that
    leaves [i64] may touch the whole object. *)
Definition touches (e : MemoryEffect) (o : O) (p : Z) : Prop :=
  match e with
  | Exact l => object l = o /\
      match end_ l with Some e => offset l <= p < e | None => True end
  | UnknownObject o' => o' = o
  | UnknownAll => True
  end.

(** What the callers guarantee: exact ranges are not empty. *)
Definition non_empty (e : MemoryEffect) : Prop :=
  match e with Exact l => 0 < byte_len l | _ => True end.

Lemma end_Some l e : end_ l = Some e -> e = offset l + byte_len l.
Proof.
  unfold end_, i64_try_from, i64_checked_add. msimpl. repeat case_decide; naive_solver.
Qed.

(** A non-empty exact range touches its first byte. *)
Lemma touches_offset l : 0 < byte_len l -> touches (Exact l) (object l) (offset l).
Proof.
  intros. simpl. split; [done|]. destruct (end_ l) as [z|] eqn:E; [|done].
  apply end_Some in E. lia.
Qed.

Lemma touches_inhabited e `{Inhabited O} : non_empty e -> exists o p, touches e o p.
Proof.
  destruct e as [l|o|]; intros He.
  - exists (object l), (offset l). by apply touches_offset.
  - by exists o, 0.
  - by exists inhabitant, 0.
Qed.

(** The exact-exact case. *)
Lemma exact_alias la lb :
  0 < byte_len la -> 0 < byte_len lb ->
  effects_may_alias (Exact la) (Exact lb) = true <->
  exists o p, touches (Exact la) o p /\ touches (Exact lb) o p.
Proof.
  intros Ha Hb. simpl.
  destruct (decide (object la = object lb)) as [Heq|Hne].
  2:{ rewrite bool_decide_true by done. split; [done|]. intros (? & ? & [? _] & [? _]). congruence. }
  rewrite bool_decide_false by (by intros []).
  destruct (end_ la) as [ea|] eqn:Ea, (end_ lb) as [eb|] eqn:Eb.
  - apply end_Some in Ea, Eb. rewrite andb_true_iff, !Z.ltb_lt. split.
    + intros. exists (object la), (Z.max (offset la) (offset lb)). split_and!; try done; lia.
    + intros (o & p & [_ ?] & [_ ?]). lia.
  - split; [|done]. intros _. exists (object la), (offset la). apply end_Some in Ea. split_and!; try done; lia.
  - split; [|done]. intros _. exists (object la), (offset lb). apply end_Some in Eb. split_and!; try done; lia.
  - split; [|done]. intros _. by exists (object la), 0.
Qed.

(** For non-empty effects [effects_may_alias] decides exactly whether
    some byte may be touched by both: it never misses an overlap and never
    reports one between disjoint ranges or distinct objects. *)
Lemma effects_may_alias_exact `{Inhabited O} (a b : MemoryEffect)
    (Ha : non_empty a) (Hb : non_empty b) :
  effects_may_alias a b = true <-> exists o p, touches a o p /\ touches b o p.
Proof.
  destruct a as [la|oa|], b as [lb|ob|].
  1: by apply exact_alias.
  all: try (destruct (touches_inhabited _ Ha) as (oa' & pa & Hta));
    try (destruct (touches_inhabited _ Hb) as (ob' & pb & Htb)); simpl in *;
    rewrite ?bool_decide_eq_true; naive_solver.
Qed.
End memory.

