(* ===== verification/Dependence.v ===== *)
(** * Dependence: ordered memory-dependence construction

    Models [crates/celox-analysis/src/dependence.rs]: the access history of a
    byte range, the interval partition of one object, and the tracker over
    all objects. A [BTreeSet] of dependencies is a [gset]; [dependencies] is
    threaded through the operations that extend it. *)

From S2P Require Import Prelude OrdMap Memory.

Section dependence.
Context {O I : Type} `{Countable O} `{Countable I}.

(** ** Histories and segments *)

Record AccessHistory : Type := AH {
  last_writer : option I;
  readers_since_write : list I }.

#[global] Instance AccessHistory_eq_dec : EqDecision AccessHistory.
Proof. solve_decision. Defined.

Definition AccessHistory_default : AccessHistory := AH None [].

(** The test of the last element before a reader is pushed. *)
Definition push_reader (instruction : I) (readers : list I) : list I :=
  if decide (last readers = Some instruction) then readers else readers ++ [instruction].

Definition record_reader (instruction : I) (h : AccessHistory) : AccessHistory :=
  AH (last_writer h) (push_reader instruction (readers_since_write h)).

Record MemorySegment : Type := Seg { seg_end : Z; history : AccessHistory }.

Abbreviation segments := (gmap Z MemorySegment).

(** [dependencies.extend(option)] and [dependencies.extend(list)]. *)
Definition extend_option (o : option I) (deps : gset I) : gset I :=
  match o with Some i => {[i]} ∪ deps | None => deps end.
Definition extend_list (l : list I) (deps : gset I) : gset I := list_to_set l ∪ deps.

(** [RangeMemoryHistory::split_at] *)
Definition split_at (point : Z) (s : segments) : segments :=
  match pred_le point s with
  | None => s
  | Some (start, segment) =>
      if decide (start = point \/ seg_end segment <= point) then s
      else <[point := segment]> (<[start := Seg point (history segment)]> s)
  end.

(** The gap-filling loop of [read] over the existing segments, and the code
    after it. *)
Fixpoint fill_loop (cursor end_ : Z) (existing : list (Z * Z)) (s : segments) : segments :=
  match existing with
  | [] => if decide (cursor < end_) then <[cursor := Seg end_ AccessHistory_default]> s else s
  | (start, segment_end) :: existing' =>
      fill_loop (Z.max cursor segment_end) end_ existing'
        (if decide (cursor < start) then <[cursor := Seg start AccessHistory_default]> s else s)
  end.

(** One start of the recording loop of [read]. The start is a key just read
    from this map, so its [expect] cannot fail ([record_all] below). *)
Definition record_at (instruction : I) (sd : segments * gset I) (start : Z) : segments * gset I :=
  match sd.1 !! start with
  | Some segment =>
      (<[start := Seg (seg_end segment) (record_reader instruction (history segment))]> sd.1,
       extend_option (last_writer (history segment)) sd.2)
  | None => sd
  end.

(** [RangeMemoryHistory::read] *)
Definition range_read (offset end_ : Z) (instruction : I) (sd : segments * gset I)
    : segments * gset I :=
  let s := split_at end_ (split_at offset sd.1) in
  let existing := (fun e => (e.1, seg_end e.2)) <$> range_entries offset end_ s in
  let s := fill_loop offset end_ existing s in
  foldl (record_at instruction) (s, sd.2) (range_entries offset end_ s).*1.

(** [RangeMemoryHistory::coalesce_around]. In the last branch [start] is a
    key of the map ([coalesce_wf] below relies on it), as its [expect] says. *)
Definition coalesce_around (start : Z) (s : segments) : segments :=
  match s !! start with
  | None => s
  | Some current =>
      let '(s, start, current) :=
        match pred_lt start s with
        | Some (other_start, other) =>
            if decide (seg_end other = start /\ history other = history current)
            then (<[other_start := Seg (seg_end current) (history other)]> (delete start s),
                  other_start, current)
            else (s, start, current)
        | None => (s, start, current)
        end in
      match s !! seg_end current with
      | Some successor =>
          if decide (history successor = history current)
          then
            let s := delete (seg_end current) s in
            match s !! start with
            | Some seg => <[start := Seg (seg_end successor) (history seg)]> s
            | None => s
            end
          else s
      | None => s
      end
  end.

(** Everything a history has recorded: the writer and the readers. *)
Definition extend_history (h : AccessHistory) (deps : gset I) : gset I :=
  extend_list (readers_since_write h) (extend_option (last_writer h) deps).

(** [RangeMemoryHistory::write] *)
Definition range_write (offset end_ : Z) (instruction : I) (sd : segments * gset I)
    : segments * gset I :=
  let s := split_at end_ (split_at offset sd.1) in
  let starts := range_entries offset end_ s in
  let deps := foldl (fun deps e => extend_history (history e.2) deps) sd.2 starts in
  let s := foldl (fun s start => delete start s) s starts.*1 in
  (coalesce_around offset (<[offset := Seg end_ (AH (Some instruction) [])]> s), deps).

(** [RangeMemoryHistory::collect_writers], [collect_reads_and_writes] *)
Definition range_collect_writers (s : segments) (deps : gset I) : gset I :=
  foldl (fun deps e => extend_option (last_writer (history e.2)) deps) deps (entries s).
Definition range_collect_reads_and_writes (s : segments) (deps : gset I) : gset I :=
  foldl (fun deps e => extend_history (history e.2) deps) deps (entries s).

(** ** One object *)

Record MemoryObjectHistory : Type := MOH {
  exact : segments;
  last_unknown_writer : option I;
  unknown_readers_since_write : list I }.

Definition MemoryObjectHistory_default : MemoryObjectHistory := MOH ∅ None [].

Definition read_exact (offset end_ : Z) (instruction : I) (hd : MemoryObjectHistory * gset I)
    : MemoryObjectHistory * gset I :=
  let '(h, deps) := hd in
  let '(s, deps) :=
    range_read offset end_ instruction (exact h, extend_option (last_unknown_writer h) deps) in
  (MOH s (last_unknown_writer h) (unknown_readers_since_write h), deps).

Definition write_exact (offset end_ : Z) (instruction : I) (hd : MemoryObjectHistory * gset I)
    : MemoryObjectHistory * gset I :=
  let '(h, deps) := hd in
  let deps := extend_list (unknown_readers_since_write h) (extend_option (last_unknown_writer h) deps) in
  let '(s, deps) := range_write offset end_ instruction (exact h, deps) in
  (MOH s (last_unknown_writer h) (unknown_readers_since_write h), deps).

Definition collect_writers (h : MemoryObjectHistory) (deps : gset I) : gset I :=
  range_collect_writers (exact h) (extend_option (last_unknown_writer h) deps).

Definition collect_reads_and_writes (h : MemoryObjectHistory) (deps : gset I) : gset I :=
  range_collect_reads_and_writes (exact h)
    (extend_list (unknown_readers_since_write h) (extend_option (last_unknown_writer h) deps)).

Definition read_unknown (instruction : I) (hd : MemoryObjectHistory * gset I)
    : MemoryObjectHistory * gset I :=
  let '(h, deps) := hd in
  (MOH (exact h) (last_unknown_writer h)
       (push_reader instruction (unknown_readers_since_write h)),
   range_collect_writers (exact h) (extend_option (last_unknown_writer h) deps)).

Definition write_unknown (instruction : I) (hd : MemoryObjectHistory * gset I)
    : MemoryObjectHistory * gset I :=
  let '(h, deps) := hd in
  (MOH ∅ (Some instruction) [], collect_reads_and_writes h deps).

(** ** The tracker *)

Record MemoryDependencyTracker : Type := MDT {
  objects : gmap O MemoryObjectHistory;
  last_global_writer : option I;
  global_readers_since_write : list I }.

Definition MemoryDependencyTracker_default : MemoryDependencyTracker := MDT ∅ None [].

(** [self.objects.entry(object).or_default().f(..)] *)
Definition at_object (o : O)
    (f : MemoryObjectHistory * gset I -> MemoryObjectHistory * gset I)
    (td : MemoryDependencyTracker * gset I) : MemoryDependencyTracker * gset I :=
  let '(t, deps) := td in
  let '(h, deps) := f (default MemoryObjectHistory_default (objects t !! o), deps) in
  (MDT (<[o := h]> (objects t)) (last_global_writer t) (global_readers_since_write t), deps).

Definition read (effect : MemoryEffect) (instruction : I)
    (td : MemoryDependencyTracker * gset I) : MemoryDependencyTracker * gset I :=
  let '(t, deps) := td in
  match effect with
  | Exact location =>
      if decide (byte_len location = 0) then (t, deps) else
      let deps := extend_option (last_global_writer t) deps in
      match end_ location with
      | Some e => at_object (object location) (read_exact (offset location) e instruction) (t, deps)
      | None => at_object (object location) (read_unknown instruction) (t, deps)
      end
  | UnknownObject o =>
      at_object o (read_unknown instruction) (t, extend_option (last_global_writer t) deps)
  | UnknownAll =>
      let deps := extend_option (last_global_writer t) deps in
      let deps := foldl (fun deps h => collect_writers h.2 deps) deps (map_to_list (objects t)) in
      (MDT (objects t) (last_global_writer t)
           (push_reader instruction (global_readers_since_write t)), deps)
  end.

Definition collect_global_history (t : MemoryDependencyTracker) (deps : gset I) : gset I :=
  extend_list (global_readers_since_write t) (extend_option (last_global_writer t) deps).

Definition write (effect : MemoryEffect) (instruction : I)
    (td : MemoryDependencyTracker * gset I) : MemoryDependencyTracker * gset I :=
  let '(t, deps) := td in
  match effect with
  | Exact location =>
      if decide (byte_len location = 0) then (t, deps) else
      let deps := collect_global_history t deps in
      match end_ location with
      | Some e => at_object (object location) (write_exact (offset location) e instruction) (t, deps)
      | None => at_object (object location) (write_unknown instruction) (t, deps)
      end
  | UnknownObject o =>
      at_object o (write_unknown instruction) (t, collect_global_history t deps)
  | UnknownAll =>
      let deps := collect_global_history t deps in
      let deps := foldl (fun deps h => collect_reads_and_writes h.2 deps) deps
                    (map_to_list (objects t)) in
      (MDT ∅ (Some instruction) [], deps)
  end.

(** [MemoryDependencyTracker::add_event] *)
Definition add_event (instruction : I) (reads writes : list MemoryEffect)
    (td : MemoryDependencyTracker * gset I) : MemoryDependencyTracker * gset I :=
  let td := foldl (fun td effect => read effect instruction td) td reads in
  let '(t, deps) := foldl (fun td effect => write effect instruction td) td writes in
  (t, deps ∖ {[instruction]}).

(** ** The partition invariant and what a point sees *)

Record wf (s : segments) : Prop := {
  wf_nonempty k sg : s !! k = Some sg -> k < seg_end sg;
  wf_disjoint k1 sg1 k2 sg2 : s !! k1 = Some sg1 -> s !! k2 = Some sg2 -> k1 < k2 -> seg_end sg1 <= k2 }.

(** Some segment covers [p] and its history satisfies [Q]. *)
Definition seg_has (Q : AccessHistory -> Prop) (s : segments) (p : Z) : Prop :=
  exists k sg, s !! k = Some sg /\ k <= p < seg_end sg /\ Q (history sg).

Definition cut_at (p : Z) (s : segments) : Prop :=
  forall k sg, s !! k = Some sg -> ~ (k < p < seg_end sg).

Lemma wf_unique s k1 sg1 k2 sg2 p :
  wf s -> s !! k1 = Some sg1 -> s !! k2 = Some sg2 ->
  k1 <= p < seg_end sg1 -> k2 <= p < seg_end sg2 -> k1 = k2.
Proof.
  intros Hwf G1 G2 ? ?. destruct (Z.lt_trichotomy k1 k2) as [Hlt|[?|Hlt]]; [|done|].
  - pose proof (wf_disjoint _ Hwf _ _ _ _ G1 G2 Hlt). lia.
  - pose proof (wf_disjoint _ Hwf _ _ _ _ G2 G1 Hlt). lia.
Qed.

Lemma wf_empty : wf ∅.
Proof. split; intros *; by rewrite lookup_empty. Qed.

Lemma seg_has_empty Q p : ~ seg_has Q ∅ p.
Proof. intros (k & sg & Hk & _). by rewrite lookup_empty in Hk. Qed.

(** Adding a segment to a free range. *)
Definition free (a b : Z) (s : segments) : Prop :=
  forall k sg, s !! k = Some sg -> seg_end sg <= a \/ b <= k.

Lemma wf_insert s a b h : wf s -> a < b -> free a b s -> wf (<[a := Seg b h]> s).
Proof.
  intros Hwf Hab Hfree. split.
  - intros k sg [[<- <-]|[_ Hk]]%lookup_insert_Some; [done|by eapply wf_nonempty].
  - intros k1 sg1 k2 sg2 [[<- <-]|[? G1]]%lookup_insert_Some
      [[<- <-]|[? G2]]%lookup_insert_Some Hlt; simpl.
    + lia.
    + pose proof (wf_nonempty _ Hwf _ _ G2). destruct (Hfree _ _ G2); lia.
    + pose proof (wf_nonempty _ Hwf _ _ G1). destruct (Hfree _ _ G1); lia.
    + by eapply (wf_disjoint _ Hwf).
Qed.

Lemma free_lookup s a b : wf s -> a < b -> free a b s -> s !! a = None.
Proof.
  intros Hwf Hab Hfree. apply eq_None_not_Some. intros [sg Ha].
  pose proof (wf_nonempty _ Hwf _ _ Ha). destruct (Hfree _ _ Ha); lia.
Qed.

Lemma seg_has_insert_free Q s a b h p :
  wf s -> a < b -> free a b s ->
  seg_has Q (<[a := Seg b h]> s) p <-> seg_has Q s p \/ (a <= p < b /\ Q h).
Proof.
  intros Hwf Hab Hfree. pose proof (free_lookup _ _ _ Hwf Hab Hfree) as Hn. split.
  - intros (k & sg & [[<- <-]|[_ Hk]]%lookup_insert_Some & ? & ?); [by right|left].
    by exists k, sg.
  - intros [(k & sg & Hk & ? & ?)|[? ?]].
    + exists k, sg. rewrite lookup_insert_ne by congruence. done.
    + exists a, (Seg b h). by rewrite lookup_insert_eq.
Qed.

(** Changing the history of one segment. *)
Lemma wf_update s k sg h : wf s -> s !! k = Some sg -> wf (<[k := Seg (seg_end sg) h]> s).
Proof.
  intros Hwf Hk. split.
  - intros k' sg' [[<- <-]|[_ Hk']]%lookup_insert_Some; simpl; by eapply wf_nonempty.
  - intros k1 sg1 k2 sg2 [[<- <-]|[? G1]]%lookup_insert_Some
      [[<- <-]|[? G2]]%lookup_insert_Some Hlt; simpl; [lia|..]; by eapply (wf_disjoint _ Hwf).
Qed.

Lemma split_at_spec s point :
  wf s ->
  wf (split_at point s) /\ cut_at point (split_at point s) /\
  (forall Q p, seg_has Q (split_at point s) p <-> seg_has Q s p) /\
  (forall c, cut_at c s -> cut_at c (split_at point s)).
Proof.
  intros Hwf. unfold split_at. destruct (pred_le point s) as [[k sg]|] eqn:E.
  2:{ rewrite pred_le_None in E. split_and!; try done.
      intros k sg Hk. apply E in Hk. lia. }
  apply pred_le_Some in E as (Hk & Hle & Hmax). case_decide as Hc.
  { split_and!; try done. intros k' sg' Hk' ?.
    pose proof (Hmax _ _ Hk' ltac:(lia)). destruct (decide (k = k')) as [->|]; [simplify_eq; lia|].
    pose proof (wf_disjoint _ Hwf _ _ _ _ Hk' Hk ltac:(lia)). lia. }
  assert (k < point < seg_end sg) as Hin by lia. clear Hc.
  assert (Hwf1 : wf (<[k := Seg point (history sg)]> s)).
  { split.
    - intros k' sg' [[<- <-]|[_ Hk']]%lookup_insert_Some; simpl; [lia|by eapply wf_nonempty].
    - intros k1 sg1 k2 sg2 [[<- <-]|[? G1]]%lookup_insert_Some
        [[<- <-]|[? G2]]%lookup_insert_Some Hlt; simpl.
      + lia.
      + pose proof (wf_disjoint _ Hwf _ _ _ _ Hk G2 Hlt). lia.
      + by eapply (wf_disjoint _ Hwf).
      + by eapply (wf_disjoint _ Hwf). }
  assert (Hfree : free point (seg_end sg) (<[k := Seg point (history sg)]> s)).
  { intros k' sg' [[<- <-]|[Hne Hk']]%lookup_insert_Some; simpl; [lia|].
    destruct (Z.lt_trichotomy k k') as [Hlt|[?|Hlt]]; [|congruence|].
    - right. by eapply (wf_disjoint _ Hwf).
    - left. pose proof (wf_disjoint _ Hwf _ _ _ _ Hk' Hk Hlt). lia. }
  replace (<[point:=sg]> (<[k:=Seg point (history sg)]> s))
    with (<[point:=Seg (seg_end sg) (history sg)]> (<[k:=Seg point (history sg)]> s)) by (by destruct sg).
  split; [|split; [|split]].
  - apply wf_insert; [done|lia|done].
  - intros k' sg' [[<- <-]|[_ [[<- <-]|[Hne Hk']]%lookup_insert_Some]]%lookup_insert_Some ?; simpl in *; [lia..|].
    assert (k = k') as ->; [|done]. eapply (wf_unique _ _ _ _ _ point Hwf Hk Hk'); lia.
  - intros Q p. rewrite seg_has_insert_free by (try done; lia). split.
    + intros [(k' & sg' & [[<- <-]|[_ Hk']]%lookup_insert_Some & ? & ?)|[? ?]]; simpl in *.
      * exists k, sg. split_and!; try done; lia.
      * by exists k', sg'.
      * exists k, sg. split_and!; try done; lia.
    + intros (k' & sg' & Hk' & ? & ?). destruct (decide (k = k')) as [->|Hne].
      * simplify_eq. destruct (decide (p < point)).
        -- left. exists k', (Seg point (history sg)). rewrite lookup_insert_eq. simpl. split_and!; try done; lia.
        -- right. split; [lia|done].
      * left. exists k', sg'. rewrite lookup_insert_ne by done. done.
  - intros c Hc k' sg' [[<- <-]|[_ [[<- <-]|[Hne Hk']]%lookup_insert_Some]]%lookup_insert_Some ?; simpl in *.
    + apply (Hc _ _ Hk). lia.
    + apply (Hc _ _ Hk). lia.
    + by apply (Hc _ _ Hk').
Qed.

Lemma cut_at_end s k sg : wf s -> s !! k = Some sg -> cut_at (seg_end sg) s.
Proof.
  intros Hwf Hk k' sg' Hk' Hin. pose proof (wf_nonempty _ Hwf _ _ Hk).
  destruct (Z.lt_trichotomy k k') as [Hlt|[->|Hlt]].
  - pose proof (wf_disjoint _ Hwf _ _ _ _ Hk Hk' Hlt). lia.
  - simplify_eq. lia.
  - pose proof (wf_disjoint _ Hwf _ _ _ _ Hk' Hk Hlt). lia.
Qed.

(** A range between two cuts is free when no segment starts in it. *)
Lemma free_between s a b :
  wf s -> cut_at a s -> (forall k sg, s !! k = Some sg -> ~ (a <= k < b)) -> free a b s.
Proof.
  intros Hwf Ha Hno k sg Hk. pose proof (Hno _ _ Hk). pose proof (Ha _ _ Hk).
  pose proof (wf_nonempty _ Hwf _ _ Hk). lia.
Qed.

Lemma cut_at_insert s a b h c :
  cut_at c s -> c <= a \/ b <= c -> cut_at c (<[a := Seg b h]> s).
Proof. intros Hc ? k sg [[<- <-]|[_ Hk]]%lookup_insert_Some ?; simpl in *; [lia|by eapply Hc]. Qed.

(** [existing] lists the segments that start in [a, b). *)
Definition lists (existing : list (Z * Z)) (a b : Z) (s : segments) : Prop :=
  StronglySorted (fun x y : Z * Z => x.1 < y.1) existing /\
  forall k e, (k, e) ∈ existing <-> (exists sg, s !! k = Some sg /\ seg_end sg = e) /\ a <= k < b.

Record filled (cursor end_ : Z) (s s' : segments) : Prop := {
  f_wf : wf s';
  f_has Q p : ~ Q AccessHistory_default -> seg_has Q s' p <-> seg_has Q s p;
  f_cover p : cursor <= p < end_ -> seg_has (fun _ => True) s' p;
  f_keep Q p : seg_has Q s p -> seg_has Q s' p;
  f_cut c : c <= cursor \/ end_ <= c -> cut_at c s -> cut_at c s' }.

(** One gap filled. *)
Lemma fill_gap s a b :
  wf s -> a < b -> free a b s -> filled a b s (<[a := Seg b AccessHistory_default]> s).
Proof.
  intros Hwf Hab Hfree. split.
  - by apply wf_insert.
  - intros Q p HQ. rewrite seg_has_insert_free by done. tauto.
  - intros p ?. apply seg_has_insert_free; auto.
  - intros Q p Hp. apply seg_has_insert_free; auto.
  - intros c ? ?. apply cut_at_insert; [done|lia].
Qed.

Lemma filled_refl s a : wf s -> filled a a s s.
Proof. split; try done. lia. Qed.

Lemma filled_step s k sg a b s1 s' :
  s1 !! k = Some sg -> a <= k -> seg_end sg <= b -> k < seg_end sg ->
  filled a k s s1 -> filled (seg_end sg) b s1 s' -> filled a b s s'.
Proof.
  intros Hk Hak Hb Hlt [? Hh1 Hc1 Hk1 Hcut1] [Hwf Hh2 Hc2 Hk2 Hcut2]. split; [done|..].
  - intros Q p HQ. by rewrite Hh2, Hh1.
  - intros p ?. destruct (decide (seg_end sg <= p)); [apply Hc2; lia|].
    apply Hk2. destruct (decide (p < k)); [apply Hc1; lia|]. exists k, sg. split_and!; try done; lia.
  - auto.
  - intros c ? ?. apply Hcut2; [lia|]. apply Hcut1; [lia|done].
Qed.

Lemma fill_loop_spec existing cursor end_ s :
  wf s -> cut_at cursor s -> cut_at end_ s -> cursor <= end_ ->
  lists existing cursor end_ s ->
  filled cursor end_ s (fill_loop cursor end_ existing s).
Proof.
  revert cursor s. induction existing as [|[start e] existing IH]; intros cursor s Hwf Hcc Hce Hle [Hsort Hl].
  - cbn [fill_loop]. case_decide.
    + apply fill_gap; [done..|]. apply free_between; [done..|].
      intros k sg Hk ?. apply (not_elem_of_nil (k, seg_end sg)), Hl. eauto.
    + replace cursor with end_ by lia. by apply filled_refl.
  - apply StronglySorted_inv in Hsort as [Hsort Hall]. rewrite Forall_forall in Hall.
    destruct (proj1 (Hl start e)) as [(sg & Hsg & <-) Hin]; [set_solver|].
    pose proof (wf_nonempty _ Hwf _ _ Hsg) as Hlt.
    assert (seg_end sg <= end_) by (pose proof (Hce _ _ Hsg); lia).
    set (s1 := if decide (cursor < start) then <[cursor := Seg start AccessHistory_default]> s else s).
    assert (filled cursor start s s1) as Hf1.
    { unfold s1. case_decide.
      - apply fill_gap; [done..|]. apply free_between; [done..|]. intros k sg' Hk ?.
        assert ((k, seg_end sg') ∈ (start, seg_end sg) :: existing) as [?|Hin']%elem_of_cons
          by (apply Hl; split; [eauto|lia]); [simplify_eq; lia|].
        specialize (Hall _ Hin'). simpl in Hall. lia.
      - replace cursor with start by lia. by apply filled_refl. }
    assert (s1 !! start = Some sg) as Hs1.
    { unfold s1. case_decide; [|done]. by rewrite lookup_insert_ne by lia. }
    cbn [fill_loop]. fold s1. replace (Z.max cursor (seg_end sg)) with (seg_end sg) by lia.
    eapply filled_step; [exact Hs1|lia|done|done|done|].
    apply IH; [by destruct Hf1| | |done|].
    + eapply cut_at_end; [by destruct Hf1|done].
    + destruct Hf1 as [_ _ _ _ Hcut]. apply Hcut; [lia|done].
    + split; [done|]. intros k e'.
      assert ((k, e') ∈ existing <-> (k, e') ∈ (start, seg_end sg) :: existing /\ seg_end sg <= k) as ->.
      { rewrite elem_of_cons. split.
        - intros Hin'. split; [by right|]. pose proof (Hall _ Hin') as Hgt. simpl in Hgt.
          destruct (proj1 (Hl k e')) as [(sg' & Hsg' & _) _]; [set_solver|].
          by eapply (wf_disjoint _ Hwf).
        - intros [[?|?] ?]; [simplify_eq; lia|done]. }
      rewrite Hl. unfold s1. case_decide.
      * split; [intros [[Hk ?] ?]|intros [Hk ?]]; rewrite lookup_insert_ne in * by lia; (split; [|lia]);
          [done|]. split; [done|lia].
      * split; [intros [[Hk ?] ?]|intros [Hk ?]]; (split; [|lia]); [done|]. split; [done|lia].
Qed.

(** ** Dependency sets *)

Lemma elem_of_extend_option (x : I) o deps : x ∈ extend_option o deps <-> o = Some x \/ x ∈ deps.
Proof. destruct o; simpl; set_solver. Qed.
Lemma elem_of_extend_list (x : I) l deps : x ∈ extend_list l deps <-> x ∈ l \/ x ∈ deps.
Proof. unfold extend_list. set_solver. Qed.

Definition in_history (x : I) (h : AccessHistory) : Prop :=
  last_writer h = Some x \/ x ∈ readers_since_write h.

Lemma elem_of_extend_history x h deps : x ∈ extend_history h deps <-> in_history x h \/ x ∈ deps.
Proof. unfold extend_history, in_history. rewrite elem_of_extend_list, elem_of_extend_option. tauto. Qed.

(** A loop that extends the dependencies at each element. *)
Lemma elem_of_foldl_extend {A} (f : gset I -> A -> gset I) (P : A -> I -> Prop) l deps x :
  (forall deps a, a ∈ l -> x ∈ f deps a <-> P a x \/ x ∈ deps) ->
  x ∈ foldl f deps l <-> (exists a, a ∈ l /\ P a x) \/ x ∈ deps.
Proof.
  revert deps. induction l as [|a l IH]; intros deps Hf; simpl; [set_solver|].
  rewrite IH by (intros; apply Hf; by apply elem_of_cons; right).
  rewrite Hf by (by apply elem_of_cons; left). setoid_rewrite elem_of_cons. naive_solver.
Qed.

Lemma elem_of_push_reader (x i : I) l : x ∈ push_reader i l <-> x = i \/ x ∈ l.
Proof.
  unfold push_reader. case_decide as Hl; [|set_solver].
  apply last_Some_elem_of in Hl. naive_solver.
Qed.

(** ** Reading and writing a range *)

Lemma record_all i (l : list Z) s deps :
  NoDup l -> (forall k, k ∈ l -> is_Some (s !! k)) ->
  (forall k, (foldl (record_at i) (s, deps) l).1 !! k =
     if decide (k ∈ l)
     then (fun sg => Seg (seg_end sg) (record_reader i (history sg))) <$> s !! k else s !! k) /\
  (forall x, x ∈ (foldl (record_at i) (s, deps) l).2 <->
     (exists k sg, k ∈ l /\ s !! k = Some sg /\ last_writer (history sg) = Some x) \/ x ∈ deps).
Proof.
  revert s deps. induction l as [|k l IH]; intros s deps Hnd Hin; cbn [foldl].
  { split; [intros k; by rewrite decide_False by set_solver|]. set_solver. }
  apply NoDup_cons in Hnd as [Hk Hnd]. destruct (Hin k) as [sg Hsg]; [set_solver|].
  assert (record_at i (s, deps) k =
    (<[k := Seg (seg_end sg) (record_reader i (history sg))]> s,
     extend_option (last_writer (history sg)) deps)) as -> by (unfold record_at; simpl; by rewrite Hsg).
  set (s1 := <[k := _]> s).
  assert (forall j, j <> k -> s1 !! j = s !! j) as Hother.
  { intros j ?. unfold s1. by rewrite lookup_insert_ne. }
  destruct (IH s1 (extend_option (last_writer (history sg)) deps) Hnd) as [Hmap Hdeps].
  { intros j Hj. rewrite Hother by set_solver. apply Hin. set_solver. }
  split.
  - intros j. rewrite Hmap. destruct (decide (j = k)) as [->|Hne].
    + rewrite decide_False, decide_True by set_solver. unfold s1. by rewrite lookup_insert_eq, Hsg.
    + rewrite Hother by done. repeat case_decide; set_solver.
  - intros x. rewrite Hdeps, elem_of_extend_option. split.
    + intros [(j & sg' & Hj & Hl & Hw)|[?|?]]; [|left|by right].
      * left. exists j, sg'. rewrite Hother in Hl by set_solver. set_solver.
      * exists k, sg. set_solver.
    + intros [(j & sg' & [->|Hj]%elem_of_cons & Hl & Hw)|?]; [| |by auto].
      * simplify_eq. auto.
      * left. exists j, sg'. rewrite Hother by set_solver. done.
Qed.

Definition writes (x : I) (h : AccessHistory) : Prop := last_writer h = Some x.
Definition has_reader (x : I) (h : AccessHistory) : Prop := x ∈ readers_since_write h.

Lemma range_entries_fst (s : segments) a b k :
  k ∈ (range_entries a b s).*1 <-> is_Some (s !! k) /\ a <= k < b.
Proof.
  rewrite list_elem_of_fmap. split.
  - intros ([k' sg] & -> & [? ?]%elem_of_range_entries). simpl. eauto.
  - intros [[sg Hk] ?]. exists (k, sg). by rewrite elem_of_range_entries.
Qed.

Lemma range_entries_NoDup (s : segments) a b : NoDup (range_entries a b s).*1.
Proof.
  pose proof (range_entries_sorted a b s) as Hs. induction Hs as [|x l Hs IH Hall]; csimpl; [constructor|].
  constructor; [|done]. intros (y & Hy & Hin)%list_elem_of_fmap.
  rewrite Forall_forall in Hall. specialize (Hall y Hin). unfold entry_lt in Hall. lia.
Qed.

(** Between two cuts, starting inside and covering a point inside agree. *)
Lemma seg_in_range s a b k sg :
  wf s -> cut_at a s -> s !! k = Some sg ->
  (a <= k < b <-> exists p, a <= p < b /\ k <= p < seg_end sg).
Proof.
  intros Hwf Ha Hk. pose proof (wf_nonempty _ Hwf _ _ Hk). pose proof (Ha _ _ Hk). split.
  - intros. exists k. lia.
  - intros (p & ? & ?). lia.
Qed.

(** The records the two splits leave. *)
Lemma split_both s a b :
  wf s ->
  let s' := split_at b (split_at a s) in
  wf s' /\ cut_at a s' /\ cut_at b s' /\ forall Q p, seg_has Q s' p <-> seg_has Q s p.
Proof.
  intros Hwf s'. destruct (split_at_spec s a Hwf) as (Hwf1 & Ha1 & Hh1 & _).
  destruct (split_at_spec (split_at a s) b Hwf1) as (Hwf2 & Hb2 & Hh2 & Hc2).
  split; [done|]. split; [by apply Hc2|]. split; [done|]. intros Q p. unfold s'. by rewrite Hh2, Hh1.
Qed.

Lemma recorded_wf s s' (f : AccessHistory -> AccessHistory) (P : Z -> Prop) `{!forall k, Decision (P k)} :
  wf s ->
  (forall k, s' !! k = if decide (P k) then (fun sg => Seg (seg_end sg) (f (history sg))) <$> s !! k else s !! k) ->
  wf s' /\ forall Q p, seg_has Q s' p <->
    exists k sg, s !! k = Some sg /\ k <= p < seg_end sg /\
      Q (if decide (P k) then f (history sg) else history sg).
Proof.
  intros Hwf Hs'.
  assert (Hlook : forall k sg', s' !! k = Some sg' <-> exists sg, s !! k = Some sg /\
    sg' = Seg (seg_end sg) (if decide (P k) then f (history sg) else history sg)).
  { intros k sg'. rewrite Hs'. case_decide; [rewrite fmap_Some; naive_solver|].
    split; [|by intros ([] & ? & ->)]. intros ?. exists sg'. by destruct sg'. }
  split; [split|].
  - intros k sg' (sg & Hk & ->)%Hlook. simpl. by eapply (wf_nonempty _ Hwf).
  - intros k1 sg1 k2 sg2 (? & ? & ->)%Hlook (? & ? & ->)%Hlook. simpl. by eapply (wf_disjoint _ Hwf).
  - intros Q p. unfold seg_has. setoid_rewrite Hlook. split.
    + intros (k & sg' & (sg & Hk & ->) & ? & ?). eauto.
    + intros (k & sg & Hk & ? & ?). eexists k, _. split; [by exists sg|]. done.
Qed.

Lemma range_read_spec s deps a b i :
  wf s -> a < b ->
  let r := range_read a b i (s, deps) in
  wf r.1 /\
  (forall x, x ∈ r.2 <-> (exists p, a <= p < b /\ seg_has (writes x) s p) \/ x ∈ deps) /\
  (forall x p, seg_has (writes x) r.1 p <-> seg_has (writes x) s p) /\
  (forall x p, seg_has (has_reader x) r.1 p <-> seg_has (has_reader x) s p \/ (x = i /\ a <= p < b)).
Proof.
  intros Hwf Hab r. destruct (split_both s a b Hwf) as (Hwf1 & Ha1 & Hb1 & Hh1).
  set (s1 := split_at b (split_at a s)) in *.
  set (ex := (fun e : Z * MemorySegment => (e.1, seg_end e.2)) <$> range_entries a b s1).
  assert (lists ex a b s1) as Hlists.
  { split.
    - unfold ex. apply StronglySorted_fmap with (R1 := entry_lt); [done|apply range_entries_sorted].
    - intros k e. unfold ex. rewrite list_elem_of_fmap. split.
      + intros ([k' sg] & [= -> ->] & [? ?]%elem_of_range_entries). eauto.
      + intros [(sg & ? & <-) ?]. exists (k, sg). by rewrite elem_of_range_entries. }
  pose proof (fill_loop_spec ex a b s1 Hwf1 Ha1 Hb1 ltac:(lia) Hlists) as [Hwf2 Hh2 Hc2 _ Hcut2].
  set (s2 := fill_loop a b ex s1) in *.
  pose proof (Hcut2 a ltac:(lia) Ha1) as Ha2.
  destruct (record_all i (range_entries a b s2).*1 s2 deps) as [Hmap Hdeps].
  { apply range_entries_NoDup. }
  { intros k Hk. by apply range_entries_fst in Hk as [? _]. }
  change (foldl (record_at i) (s2, deps) (range_entries a b s2).*1) with r in Hmap, Hdeps.
  destruct (recorded_wf s2 r.1 (record_reader i) _ Hwf2 Hmap) as [Hwf3 Hh3].
  assert (Hin : forall k sg p, s2 !! k = Some sg -> k <= p < seg_end sg ->
    k ∈ (range_entries a b s2).*1 <-> a <= p < b).
  { intros k sg p Hk Hp. rewrite range_entries_fst. pose proof (Hcut2 b ltac:(lia) Hb1 _ _ Hk).
    pose proof (Ha2 _ _ Hk). split; [lia|]. intros. split; [by eexists|lia]. }
  split; [done|]. split_and!.
  - intros x. rewrite Hdeps. apply or_iff_compat_r. setoid_rewrite <- Hh1.
    setoid_rewrite <- (Hh2 (writes x)); [|done]. split.
    + intros (k & sg & Hk & Hsg & Hw). pose proof (wf_nonempty _ Hwf2 _ _ Hsg).
      exists k. rewrite <- (Hin k sg k) by (done || lia). split; [done|]. exists k, sg. split_and!; try done; lia.
    + intros (p & Hp & k & sg & Hk & Hkp & Hw). exists k, sg. by rewrite Hin by done.
  - intros x p. rewrite Hh3, <- Hh1, <- (Hh2 (writes x)) by done. unfold seg_has, writes.
    split; intros (k & sg & Hk & Hp & Hw); exists k, sg; (split_and!; try done; [lia..|]);
      by case_decide.
  - intros x p. rewrite Hh3, <- Hh1, <- (Hh2 (has_reader x)) by apply not_elem_of_nil.
    split.
    + intros (k & sg & Hk & Hp & Hw). case_decide as Hd; [|left; by exists k, sg].
      rewrite (Hin _ _ _ Hk Hp) in Hd. apply elem_of_push_reader in Hw as [->|?]; [by right|].
      left. by exists k, sg.
    + intros [(k & sg & Hk & Hp & Hw)|[-> Hp]].
      * exists k, sg. split_and!; try done; [lia..|]. case_decide; [|done].
        apply elem_of_push_reader. by right.
      * destruct (Hc2 p Hp) as (k & sg & Hk & Hkp & _). exists k, sg. split_and!; try done; [lia..|].
        rewrite decide_True by (by rewrite Hin). apply elem_of_push_reader. by left.
Qed.

(** Merging a segment with its adjacent successor of equal history. *)
Lemma merge_spec s a b c h :
  wf s -> s !! a = Some (Seg b h) -> s !! b = Some (Seg c h) ->
  let s' := <[a := Seg c h]> (delete b s) in
  wf s' /\ forall Q p, seg_has Q s' p <-> seg_has Q s p.
Proof.
  intros Hwf Ha Hb s'. pose proof (wf_nonempty _ Hwf _ _ Ha). pose proof (wf_nonempty _ Hwf _ _ Hb).
  simpl in *. split; [split|].
  - intros k sg [[<- <-]|[_ [_ Hk]%lookup_delete_Some]]%lookup_insert_Some; simpl; [lia|by eapply (wf_nonempty _ Hwf)].
  - intros k1 sg1 k2 sg2 [[<- <-]|[? [? G1]%lookup_delete_Some]]%lookup_insert_Some
      [[<- <-]|[? [? G2]%lookup_delete_Some]]%lookup_insert_Some Hlt; simpl.
    + lia.
    + destruct (decide (k2 < b)).
      * pose proof (wf_disjoint _ Hwf _ _ _ _ Ha G2 Hlt). simpl in *. lia.
      * by pose proof (wf_disjoint _ Hwf _ _ _ _ Hb G2 ltac:(lia)).
    + by apply (wf_disjoint _ Hwf _ _ _ _ G1 Ha).
    + by apply (wf_disjoint _ Hwf _ _ _ _ G1 G2).
  - intros Q p. split.
    + intros (k & sg & [[<- <-]|[_ [_ Hk]%lookup_delete_Some]]%lookup_insert_Some & ? & ?); simpl in *;
        [|by exists k, sg].
      destruct (decide (p < b)); [exists a, (Seg b h)|exists b, (Seg c h)]; simpl; split_and!; try done; lia.
    + intros (k & sg & Hk & ? & ?).
      destruct (decide (k = a)) as [->|]; [|destruct (decide (k = b)) as [->|]].
      * simplify_eq. exists a, (Seg c h). unfold s'. rewrite lookup_insert_eq. simpl in *. split_and!; try done; lia.
      * simplify_eq. exists a, (Seg c h). unfold s'. rewrite lookup_insert_eq. simpl in *. split_and!; try done; lia.
      * exists k, sg. unfold s'. rewrite lookup_insert_ne, lookup_delete_ne by done. done.
Qed.

Lemma coalesce_wf start s :
  wf s -> wf (coalesce_around start s) /\
  forall Q p, seg_has Q (coalesce_around start s) p <-> seg_has Q s p.
Proof.
  intros Hwf. unfold coalesce_around.
  destruct (s !! start) as [[cend ch]|] eqn:Hc; [|done]. cbn [seg_end history].
  set (r := match pred_lt start s with Some _ => _ | None => _ end).
  assert (exists s1 st1, r = (s1, st1, Seg cend ch) /\ wf s1 /\ s1 !! st1 = Some (Seg cend ch) /\
    forall Q p, seg_has Q s1 p <-> seg_has Q s p) as (s1 & st1 & -> & Hwf1 & Hc1 & Hh1).
  { unfold r. destruct (pred_lt start s) as [[o [oend oh]]|] eqn:Ep; [|by exists s, start].
    apply pred_le_Some in Ep as (Ho & Hle & _). cbn [seg_end history].
    case_decide as Hd; [|by exists s, start]. destruct Hd as [-> ->].
    destruct (merge_spec s o start cend ch Hwf Ho Hc) as [? ?].
    exists (<[o := Seg cend ch]> (delete start s)), o. rewrite lookup_insert_eq. done. }
  cbn [seg_end history]. destruct (s1 !! cend) as [[send sh]|] eqn:Hs; [|done].
  cbn [seg_end history]. case_decide as Hd; [|done]. subst sh.
  pose proof (wf_nonempty _ Hwf1 _ _ Hc1) as Hlt. simpl in Hlt.
  rewrite lookup_delete_ne by lia. rewrite Hc1. cbn [history].
  destruct (merge_spec s1 st1 cend send ch Hwf1 Hc1 Hs) as [? Hm]. split; [done|].
  intros Q p. by rewrite Hm.
Qed.

Lemma lookup_delete_all (l : list Z) (s : segments) k :
  foldl (fun s start => delete start s) s l !! k = if decide (k ∈ l) then None else s !! k.
Proof.
  revert s. induction l as [|j l IH]; intros s; cbn [foldl].
  { by rewrite decide_False by set_solver. }
  rewrite IH. destruct (decide (k = j)) as [->|].
  - rewrite lookup_delete_eq. repeat case_decide; set_solver.
  - rewrite lookup_delete_ne by done. repeat case_decide; set_solver.
Qed.

Lemma wf_subset s s' : (forall k sg, s' !! k = Some sg -> s !! k = Some sg) -> wf s -> wf s'.
Proof.
  intros Hsub Hwf. split.
  - intros k sg Hk%Hsub. by eapply (wf_nonempty _ Hwf).
  - intros k1 sg1 k2 sg2 G1%Hsub G2%Hsub. by eapply (wf_disjoint _ Hwf).
Qed.

Lemma range_write_spec s deps a b i :
  wf s -> a < b ->
  let r := range_write a b i (s, deps) in
  wf r.1 /\
  (forall x, x ∈ r.2 <-> (exists p, a <= p < b /\ seg_has (in_history x) s p) \/ x ∈ deps) /\
  (forall Q p, seg_has Q r.1 p <->
     (a <= p < b /\ Q (AH (Some i) [])) \/ (~ (a <= p < b) /\ seg_has Q s p)).
Proof.
  intros Hwf Hab r. destruct (split_both s a b Hwf) as (Hwf1 & Ha1 & Hb1 & Hh1).
  set (s1 := split_at b (split_at a s)) in *.
  set (s2 := foldl (fun s start => delete start s) s1 (range_entries a b s1).*1).
  assert (Hs2 : forall k sg, s2 !! k = Some sg <-> s1 !! k = Some sg /\ ~ (a <= k < b)).
  { intros k sg. unfold s2. rewrite lookup_delete_all. case_decide as Hd; rewrite range_entries_fst in Hd.
    - naive_solver.
    - split; [|naive_solver]. intros Hk. split; [done|]. intros ?. apply Hd. split; [by eexists|done]. }
  assert (Hwf2 : wf s2) by (eapply wf_subset; [|done]; intros k sg [? _]%Hs2; done).
  assert (Hfree : free a b s2).
  { intros k sg [Hk Hn]%Hs2. pose proof (Ha1 _ _ Hk). lia. }
  pose proof (wf_insert s2 a b (AH (Some i) []) Hwf2 Hab Hfree) as Hwf3.
  destruct (coalesce_wf a (<[a := Seg b (AH (Some i) [])]> s2) Hwf3) as [Hwf4 Hh4].
  split; [exact Hwf4|]. split.
  - intros x. unfold r, range_write. cbn [fst snd]. fold s1.
    rewrite (elem_of_foldl_extend _ (fun e x => in_history x (history e.2)))
      by (intros; apply elem_of_extend_history).
    apply or_iff_compat_r. split.
    + intros ([k sg] & [Hk Hin]%elem_of_range_entries & Hx).
      apply (seg_in_range s1 a b k sg) in Hin as (p & ? & ?); [|done..].
      exists p. split; [done|]. apply Hh1. by exists k, sg.
    + intros (p & ? & (k & sg & Hk & ? & Hx)%Hh1). exists (k, sg). rewrite elem_of_range_entries.
      split_and!; [done|apply (seg_in_range s1 a b k sg); eauto..|done].
  - intros Q p. change (r.1) with (coalesce_around a (<[a := Seg b (AH (Some i) [])]> s2)).
    rewrite Hh4, seg_has_insert_free by done. etransitivity; [apply Logic.or_comm|]. apply or_iff_compat_l.
    rewrite <- Hh1. split.
    + intros (k & sg & [Hk Hn]%Hs2 & ? & ?). split; [|by exists k, sg].
      pose proof (Ha1 _ _ Hk). pose proof (Hb1 _ _ Hk). lia.
    + intros (Hn & k & sg & Hk & ? & ?). exists k, sg. rewrite Hs2.
      pose proof (Ha1 _ _ Hk). pose proof (Hb1 _ _ Hk). split_and!; try done; lia.
Qed.
End dependence.
