(* ===== verification/DependenceFacts.v ===== *)
(** * DependenceFacts: the tracker orders every conflicting pair of events

    An abstract view of the tracker -- who last wrote a byte, who has accessed
    it since -- with one specification per operation, and the two theorems on
    whole event sequences: conflicting events are always connected, and every
    edge is a conflict. *)

From S2P Require Import Prelude OrdMap Memory Dependence.

(** ** One object *)

Section object.
Context {O I : Type} `{Countable O} `{Countable I}.
Abbreviation obj := (@MemoryObjectHistory I).
Implicit Types (h : obj) (x i : I) (p : Z).

Definition obj_writer h p x : Prop := last_unknown_writer h = Some x \/ seg_has (writes x) (exact h) p.
Definition obj_access h p x : Prop :=
  obj_writer h p x \/ x ∈ unknown_readers_since_write h \/ seg_has (has_reader x) (exact h) p.

Lemma obj_access_history h p x :
  obj_access h p x <->
  last_unknown_writer h = Some x \/ x ∈ unknown_readers_since_write h \/ seg_has (in_history x) (exact h) p.
Proof.
  unfold obj_access, obj_writer, seg_has, in_history, writes, has_reader. split.
  - intros [[?|(k & sg & ? & ? & ?)]|[?|(k & sg & ? & ? & ?)]]; eauto 10.
  - intros [?|[?|(k & sg & ? & ? & [?|?])]]; eauto 10.
Qed.

(** An operation on one object, reading the bytes [P]. *)
Record reads_object (P : Z -> Prop) i h (deps : gset I) (r : obj * gset I) : Prop := {
  ro_wf : wf (exact r.1);
  ro_deps x : x ∈ r.2 <-> (exists p, P p /\ obj_writer h p x) \/ x ∈ deps;
  ro_writer p x : obj_writer r.1 p x <-> obj_writer h p x;
  ro_access p x : obj_access r.1 p x <-> obj_access h p x \/ (x = i /\ P p) }.

Record writes_object (P : Z -> Prop) i h (deps : gset I) (r : obj * gset I) : Prop := {
  wo_wf : wf (exact r.1);
  wo_deps x : x ∈ r.2 <-> (exists p, P p /\ obj_access h p x) \/ x ∈ deps;
  wo_self p : P p -> obj_writer r.1 p i;
  wo_writer p x : obj_writer r.1 p x -> (x = i /\ P p) \/ obj_writer h p x;
  wo_access p x : obj_access r.1 p x -> (x = i /\ P p) \/ obj_access h p x;
  wo_writer_other p x : ~ P p -> obj_writer h p x -> obj_writer r.1 p x;
  wo_access_other p x : ~ P p -> obj_access h p x -> obj_access r.1 p x }.

Lemma read_exact_spec h deps a b i :
  wf (exact h) -> a < b ->
  reads_object (fun p => a <= p < b) i h deps (read_exact a b i (h, deps)).
Proof.
  intros Hwf Hab. unfold read_exact.
  destruct (range_read_spec (exact h) (extend_option (last_unknown_writer h) deps) a b i Hwf Hab)
    as (Hwf' & Hdeps & Hw & Hr).
  destruct (range_read _ _ _ _) as [s d]. cbn [fst snd] in *. split; cbn [fst snd exact].
  - done.
  - intros x. rewrite Hdeps, elem_of_extend_option. unfold obj_writer. split.
    + intros [(p & ? & ?)|[?|?]]; [left; exists p; auto|left; exists a; split; [lia|auto]|by right].
    + intros [(p & ? & [?|?])|?]; eauto.
  - intros p x. unfold obj_writer. cbn [exact last_unknown_writer]. by rewrite Hw.
  - intros p x. unfold obj_access, obj_writer. cbn [exact last_unknown_writer unknown_readers_since_write].
    rewrite Hw, Hr. tauto.
Qed.

Lemma write_exact_spec h deps a b i :
  wf (exact h) -> a < b ->
  writes_object (fun p => a <= p < b) i h deps (write_exact a b i (h, deps)).
Proof.
  intros Hwf Hab. unfold write_exact.
  destruct (range_write_spec (exact h) (extend_list (unknown_readers_since_write h)
    (extend_option (last_unknown_writer h) deps)) a b i Hwf Hab) as (Hwf' & Hdeps & Hh).
  destruct (range_write _ _ _ _) as [s d]. cbn [fst snd] in *. split; cbn [fst snd exact].
  - done.
  - intros x. rewrite Hdeps, elem_of_extend_list, elem_of_extend_option.
    setoid_rewrite obj_access_history. split.
    + intros [(p & ? & ?)|[?|[?|?]]]; [left; exists p; auto|left; exists a; split; [lia|auto]..|by right].
    + intros [(p & ? & [?|[?|?]])|?]; eauto.
  - intros p Hp. right. cbn [exact]. apply Hh. by left.
  - intros p x [?|Hx]; cbn [exact last_unknown_writer] in *; [right; by left|].
    apply Hh in Hx as [[? [= <-]]|[? ?]]; [by left|]. right. by right.
  - intros p x. rewrite !obj_access_history. cbn [exact last_unknown_writer unknown_readers_since_write].
    intros [?|[?|Hx]]; [by auto..|]. apply Hh in Hx as [[? [[= <-]|?%not_elem_of_nil]]|[? ?]]; auto; done.
  - intros p x Hn [?|?]; [by left|]. right. cbn [exact]. apply Hh. by right.
  - intros p x Hn. rewrite !obj_access_history. cbn [exact last_unknown_writer unknown_readers_since_write].
    intros [?|[?|?]]; [by auto..|]. right. right. apply Hh. by right.
Qed.

Lemma seg_has_entries (s : gmap Z (@MemorySegment I)) (Q : AccessHistory -> Prop) :
  wf s -> (exists e, e ∈ entries s /\ Q (history e.2)) <-> exists p, seg_has Q s p.
Proof.
  intros Hwf. split.
  - intros ([k sg] & Hk%elem_of_entries & HQ). exists k, k, sg. pose proof (wf_nonempty _ Hwf _ _ Hk).
    split_and!; try done; lia.
  - intros (p & k & sg & Hk & _ & HQ). exists (k, sg). by rewrite elem_of_entries.
Qed.

Lemma elem_of_collect_writers h deps x :
  wf (exact h) -> x ∈ collect_writers h deps <-> (exists p, obj_writer h p x) \/ x ∈ deps.
Proof.
  intros Hwf. unfold collect_writers, range_collect_writers.
  rewrite (elem_of_foldl_extend _ (fun e x => writes x (history e.2)))
    by (intros; apply elem_of_extend_option).
  rewrite (seg_has_entries _ (writes x)) by done. rewrite elem_of_extend_option. unfold obj_writer. split.
  - intros [(p & ?)|[?|?]]; [left; by exists p; right|left; by exists 0; left|by right].
  - intros [(p & [?|?])|?]; eauto.
Qed.

Lemma elem_of_collect_reads_and_writes h deps x :
  wf (exact h) -> x ∈ collect_reads_and_writes h deps <-> (exists p, obj_access h p x) \/ x ∈ deps.
Proof.
  intros Hwf. unfold collect_reads_and_writes, range_collect_reads_and_writes.
  rewrite (elem_of_foldl_extend _ (fun e x => in_history x (history e.2)))
    by (intros; apply elem_of_extend_history).
  rewrite (seg_has_entries _ (in_history x)) by done.
  rewrite elem_of_extend_list, elem_of_extend_option. setoid_rewrite obj_access_history. split.
  - intros [(p & ?)|[?|[?|?]]]; [left; exists p; auto|left; exists 0; auto..|by right].
  - intros [(p & [?|[?|?]])|?]; eauto.
Qed.

Lemma read_unknown_spec h deps i :
  wf (exact h) -> reads_object (fun _ => True) i h deps (read_unknown i (h, deps)).
Proof.
  intros Hwf. split; cbn [read_unknown fst snd exact].
  - done.
  - intros x. fold (collect_writers h deps). rewrite elem_of_collect_writers by done. naive_solver.
  - done.
  - intros p x. unfold obj_access, obj_writer. cbn [exact last_unknown_writer unknown_readers_since_write].
    rewrite elem_of_push_reader. tauto.
Qed.

Lemma write_unknown_spec h deps i :
  wf (exact h) -> writes_object (fun _ => True) i h deps (write_unknown i (h, deps)).
Proof.
  intros Hwf. split; cbn [write_unknown fst snd exact].
  - apply wf_empty.
  - intros x. rewrite elem_of_collect_reads_and_writes by done. naive_solver.
  - intros p _. by left.
  - intros p x [[= <-]|Hx]; [by left|by apply seg_has_empty in Hx].
  - intros p x [[[= <-]|Hx]|[Hx|Hx]]; cbn [exact unknown_readers_since_write] in *;
      [by left|by apply seg_has_empty in Hx|by apply not_elem_of_nil in Hx|by apply seg_has_empty in Hx].
  - done.
  - done.
Qed.
End object.

(** ** The tracker *)

Section tracker.
Context {O I : Type} `{Countable O} `{Countable I} `{Inhabited O}.
Abbreviation tracker := (@MemoryDependencyTracker O I _ _).
Abbreviation effect := (@MemoryEffect O).
Implicit Types (t : tracker) (x y i : I) (o : O) (p : Z) (e : effect).

Definition obj_at t o : @MemoryObjectHistory I := default MemoryObjectHistory_default (objects t !! o).

(** Who last wrote byte [p] of [o], and who has accessed it since. *)
Definition writer_at t o p x : Prop := last_global_writer t = Some x \/ obj_writer (obj_at t o) p x.
Definition access_at t o p x : Prop :=
  last_global_writer t = Some x \/ x ∈ global_readers_since_write t \/ obj_access (obj_at t o) p x.

Definition t_wf t : Prop := forall o, wf (exact (obj_at t o)).

Lemma writer_access t o p x : writer_at t o p x -> access_at t o p x.
Proof. unfold writer_at, access_at, obj_access. tauto. Qed.

Record reads_tracker e i t (deps : gset I) (r : tracker * gset I) : Prop := {
  rt_wf : t_wf r.1;
  rt_deps x : x ∈ r.2 <-> (exists o p, touches e o p /\ writer_at t o p x) \/ x ∈ deps;
  rt_writer o p x : writer_at r.1 o p x <-> writer_at t o p x;
  rt_access o p x : access_at r.1 o p x <-> access_at t o p x \/ (x = i /\ touches e o p) }.

Record writes_tracker e i t (deps : gset I) (r : tracker * gset I) : Prop := {
  wt_wf : t_wf r.1;
  wt_deps x : x ∈ r.2 <-> (exists o p, touches e o p /\ access_at t o p x) \/ x ∈ deps;
  wt_self o p : touches e o p -> writer_at r.1 o p i;
  wt_writer o p x : writer_at r.1 o p x -> (x = i /\ touches e o p) \/ writer_at t o p x;
  wt_access o p x : access_at r.1 o p x -> (x = i /\ touches e o p) \/ access_at t o p x;
  wt_writer_other o p x : ~ touches e o p -> writer_at t o p x -> writer_at r.1 o p x;
  wt_access_other o p x : ~ touches e o p -> access_at t o p x -> access_at r.1 o p x }.

Lemma obj_at_insert t o h o' g l :
  obj_at (MDT (<[o := h]> (objects t)) g l) o' = if decide (o' = o) then h else obj_at t o'.
Proof.
  unfold obj_at. cbn [objects]. case_decide as Ho.
  - subst. by rewrite lookup_insert_eq.
  - by rewrite lookup_insert_ne.
Qed.

(** Lifting an operation on one object to the tracker. *)
Lemma reads_at_object (P : Z -> Prop) f e i t deps o :
  t_wf t -> (exists p, P p) ->
  (forall o' p, touches e o' p <-> o = o' /\ P p) ->
  (forall d, reads_object P i (obj_at t o) d (f (obj_at t o, d))) ->
  reads_tracker e i t deps (at_object o f (t, extend_option (last_global_writer t) deps)).
Proof.
  intros Hwf [p0 Hp0] He Hf. unfold at_object. fold (obj_at t o).
  destruct (Hf (extend_option (last_global_writer t) deps)) as [Hwf' Hdeps Hw Ha].
  destruct (f _) as [h d]. cbn [fst snd] in *. split; cbn [fst snd].
  - intros o'. rewrite obj_at_insert. by case_decide.
  - intros x. rewrite Hdeps, elem_of_extend_option. unfold writer_at. setoid_rewrite He. split.
    + intros [(p & ? & ?)|[?|?]]; eauto 10.
    + intros [(o' & p & [<- ?] & [?|?])|?]; eauto.
  - intros o' p x. unfold writer_at. rewrite obj_at_insert. cbn [last_global_writer].
    case_decide; [subst|done]. by rewrite Hw.
  - intros o' p x. unfold access_at. rewrite obj_at_insert, He.
    cbn [last_global_writer global_readers_since_write].
    case_decide; [subst; rewrite Ha; tauto|]. naive_solver.
Qed.

Lemma writes_at_object (P : Z -> Prop) f e i t deps o :
  t_wf t -> (exists p, P p) ->
  (forall o' p, touches e o' p <-> o = o' /\ P p) ->
  (forall d, writes_object P i (obj_at t o) d (f (obj_at t o, d))) ->
  writes_tracker e i t deps (at_object o f (t, collect_global_history t deps)).
Proof.
  intros Hwf [p0 Hp0] He Hf. unfold at_object. fold (obj_at t o).
  destruct (Hf (collect_global_history t deps)) as [Hwf' Hdeps Hs Hw Ha Hwo Hao].
  destruct (f _) as [h d]. cbn [fst snd] in *.
  split; cbn [fst snd]; unfold writer_at, access_at.
  - intros o'. rewrite obj_at_insert. by case_decide.
  - intros x. unfold collect_global_history in Hdeps.
    rewrite Hdeps, elem_of_extend_list, elem_of_extend_option. setoid_rewrite He. split.
    + intros [(p & ? & ?)|[?|[?|?]]]; eauto 10.
    + intros [(o' & p & [<- ?] & [?|[?|?]])|?]; eauto.
  - intros o' p [<- ?]%He. rewrite obj_at_insert, decide_True by done. auto.
  - intros o' p x. rewrite obj_at_insert, He. cbn [last_global_writer].
    case_decide; [subst|tauto]. intros [?|?%Hw]; tauto.
  - intros o' p x. rewrite obj_at_insert, He. cbn [last_global_writer global_readers_since_write].
    case_decide; [subst|tauto]. intros [?|[?|?%Ha]]; tauto.
  - intros o' p x. rewrite obj_at_insert, He. cbn [last_global_writer].
    case_decide; [subst|tauto]. intros ? [?|?]; [tauto|]. right. apply Hwo; tauto.
  - intros o' p x. rewrite obj_at_insert, He. cbn [last_global_writer global_readers_since_write].
    case_decide; [subst|tauto]. intros ? [?|[?|?]]; [tauto..|]. right. right. apply Hao; tauto.
Qed.

Lemma obj_at_elem t o p (Q : @MemoryObjectHistory I -> Z -> I -> Prop) x :
  (forall p x, ~ Q MemoryObjectHistory_default p x) ->
  Q (obj_at t o) p x -> exists oh, oh ∈ map_to_list (objects t) /\ Q oh.2 p x.
Proof.
  unfold obj_at. intros Hd HQ. destruct (objects t !! o) as [h|] eqn:E; simpl in HQ.
  - exists (o, h). by rewrite elem_of_map_to_list.
  - by apply Hd in HQ.
Qed.

Lemma default_no_access p x : ~ obj_access (MemoryObjectHistory_default (I := I)) p x.
Proof.
  rewrite obj_access_history. intros [?|[?%not_elem_of_nil|?%seg_has_empty]]; done.
Qed.

Lemma elem_obj_at t oh : oh ∈ map_to_list (objects t) -> obj_at t oh.1 = oh.2.
Proof. destruct oh as [o h]. intros Hin%elem_of_map_to_list. unfold obj_at. cbn [fst snd]. by rewrite Hin. Qed.

Lemma reads_all i t deps :
  t_wf t -> reads_tracker UnknownAll i t deps (read UnknownAll i (t, deps)).
Proof.
  intros Hwf. split; cbn [read fst snd].
  - done.
  - intros x. set (d := extend_option _ _).
    rewrite (elem_of_foldl_extend _ (fun oh x => exists p, obj_writer oh.2 p x)).
    2:{ intros ? oh Hin. apply elem_of_collect_writers. rewrite <- (elem_obj_at _ _ Hin). apply Hwf. }
    unfold d. rewrite elem_of_extend_option. unfold writer_at. split.
    + intros [(oh & Hin & p & ?)|[?|?]]; [|left; exists inhabitant, 0; simpl; auto|by right].
      left. exists oh.1, p. rewrite (elem_obj_at _ _ Hin). simpl. auto.
    + intros [(o & p & _ & [?|Hw])|?]; [by auto| |by auto]. left.
      apply (obj_at_elem t o p obj_writer) in Hw as (oh & ? & ?); [eauto|].
      intros p' x' ?. apply (default_no_access p' x'). by left.
  - done.
  - intros o p x. unfold access_at. cbn [last_global_writer global_readers_since_write touches].
    rewrite elem_of_push_reader. unfold obj_at. cbn [objects]. tauto.
Qed.

Lemma writes_all i t deps :
  t_wf t -> writes_tracker UnknownAll i t deps (write UnknownAll i (t, deps)).
Proof.
  intros Hwf. split; cbn [write fst snd]; unfold writer_at, access_at;
    cbn [last_global_writer global_readers_since_write touches].
  - intros o. unfold obj_at. cbn [objects]. rewrite lookup_empty. apply wf_empty.
  - intros x. set (d := collect_global_history _ _).
    rewrite (elem_of_foldl_extend _ (fun oh x => exists p, obj_access oh.2 p x)).
    2:{ intros ? oh Hin. apply elem_of_collect_reads_and_writes. rewrite <- (elem_obj_at _ _ Hin). apply Hwf. }
    unfold d, collect_global_history. rewrite elem_of_extend_list, elem_of_extend_option. split.
    + intros [(oh & Hin & p & ?)|[?|[?|?]]]; [|left; exists inhabitant, 0; auto..|by right].
      left. exists oh.1, p. rewrite (elem_obj_at _ _ Hin). auto.
    + intros [(o & p & _ & [?|[?|Hw]])|?]; [by auto..| |by auto]. left.
      apply (obj_at_elem t o p obj_access) in Hw as (oh & ? & ?); [eauto|]. apply default_no_access.
  - auto.
  - intros o p x [[= <-]|Hx]; [auto|].
    exfalso. apply (default_no_access p x). left. unfold obj_at in Hx. cbn [objects] in Hx.
    by rewrite lookup_empty in Hx.
  - intros o p x [[= <-]|[?%not_elem_of_nil|Hx]]; [by auto|done|].
    exfalso. apply (default_no_access p x). unfold obj_at in Hx. cbn [objects] in Hx.
    by rewrite lookup_empty in Hx.
  - done.
  - done.
Qed.

Lemma exact_offset_lt (l : @MemoryLocation O) z : 0 < byte_len l -> end_ l = Some z -> offset l < z.
Proof. intros ? ?%end_Some. lia. Qed.

Lemma read_spec e i t deps :
  t_wf t -> non_empty e -> reads_tracker e i t deps (read e i (t, deps)).
Proof.
  intros Hwf He. destruct e as [l|o|]; cbn [read].
  - simpl in He. rewrite decide_False by lia. destruct (end_ l) as [z|] eqn:Ez.
    + pose proof (exact_offset_lt _ _ He Ez). apply (reads_at_object (fun p => offset l <= p < z)).
      * done.
      * exists (offset l). lia.
      * intros o p. simpl. by rewrite Ez.
      * intros d. apply read_exact_spec; [apply Hwf|done].
    + apply (reads_at_object (fun _ => True)); [done|by exists 0| |intros; apply read_unknown_spec, Hwf].
      intros o p. simpl. by rewrite Ez.
  - apply (reads_at_object (fun _ => True)); [done|by exists 0| |intros; apply read_unknown_spec, Hwf].
    intros o' p. simpl. tauto.
  - by apply reads_all.
Qed.

Lemma write_spec e i t deps :
  t_wf t -> non_empty e -> writes_tracker e i t deps (write e i (t, deps)).
Proof.
  intros Hwf He. destruct e as [l|o|]; cbn [write].
  - simpl in He. rewrite decide_False by lia. destruct (end_ l) as [z|] eqn:Ez.
    + pose proof (exact_offset_lt _ _ He Ez). apply (writes_at_object (fun p => offset l <= p < z)).
      * done.
      * exists (offset l). lia.
      * intros o p. simpl. by rewrite Ez.
      * intros d. apply write_exact_spec; [apply Hwf|done].
    + apply (writes_at_object (fun _ => True)); [done|by exists 0| |intros; apply write_unknown_spec, Hwf].
      intros o p. simpl. by rewrite Ez.
  - apply (writes_at_object (fun _ => True)); [done|by exists 0| |intros; apply write_unknown_spec, Hwf].
    intros o' p. simpl. tauto.
  - by apply writes_all.
Qed.

(** ** Sequences of accesses *)

(** One access: whether it writes, its effect, and its instruction. *)
Abbreviation access := (bool * effect * I)%type.

Definition do_access (a : access) (td : tracker * gset I) : tracker * gset I :=
  let '(w, e, i) := a in if w then write e i td else read e i td.

(** Two accesses conflict when one of them writes and they may touch a
    common byte. *)
Definition conflict (a b : access) : Prop :=
  orb a.1.1 b.1.1 = true /\ exists o p, touches a.1.2 o p /\ touches b.1.2 o p.

(** Every past access is connected, by edges of [E], to one the tracker
    still holds for the byte. *)
Definition covered (E : relation I) t (past : list access) : Prop :=
  forall (w : bool) e x o p, (w, e, x) ∈ past -> touches e o p ->
    exists z, rtc E x z /\ (if w then writer_at t o p z else access_at t o p z).

(** What the tracker holds for a byte are past accesses to it. *)
Definition explained t (past : list access) : Prop :=
  forall o p z,
    (writer_at t o p z -> exists e, (true, e, z) ∈ past /\ touches e o p) /\
    (access_at t o p z -> exists w e, (w, e, z) ∈ past /\ touches e o p).

Lemma touches_dec e o p : touches e o p \/ ~ touches e o p.
Proof.
  destruct e as [l|o'|]; simpl; [|destruct (decide (o' = o)); tauto|tauto].
  destruct (decide (object l = o)); [|tauto].
  destruct (end_ l) as [z|]; [|tauto]. destruct (decide (offset l <= p < z)); tauto.
Qed.

Lemma do_access_wf a t deps :
  t_wf t -> non_empty a.1.2 -> t_wf (do_access a (t, deps)).1.
Proof.
  destruct a as [[[] e] i]; cbn [do_access fst snd]; intros Hwf He.
  - by apply (wt_wf _ _ _ _ _ (write_spec e i t deps Hwf He)).
  - by apply (rt_wf _ _ _ _ _ (read_spec e i t deps Hwf He)).
Qed.

Lemma do_access_mono a t deps x :
  t_wf t -> non_empty a.1.2 -> x ∈ deps -> x ∈ (do_access a (t, deps)).2.
Proof.
  destruct a as [[[] e] i]; cbn [do_access fst snd]; intros Hwf He Hx.
  - apply (wt_deps _ _ _ _ _ (write_spec e i t deps Hwf He)). by right.
  - apply (rt_deps _ _ _ _ _ (read_spec e i t deps Hwf He)). by right.
Qed.

(** The edges of one access connect every past access it conflicts with. *)
Lemma do_access_sound (E : relation I) a t deps past b :
  t_wf t -> non_empty a.1.2 -> covered E t past ->
  (forall x, x ∈ (do_access a (t, deps)).2 -> rtc E x a.2) ->
  b ∈ past -> conflict b a -> rtc E b.2 a.2.
Proof.
  intros Hwf He Hcov HE Hb (Hw & o & p & Htb & Hta).
  destruct a as [[w e] i], b as [[wb eb] x]; cbn [do_access fst snd] in *.
  destruct (Hcov _ _ _ _ _ Hb Htb) as (z & Hxz & Hz).
  transitivity z; [done|]. apply HE. destruct w.
  - apply (wt_deps _ _ _ _ _ (write_spec e i t deps Hwf He)). left. exists o, p. split; [done|].
    destruct wb; [by apply writer_access|done].
  - apply (rt_deps _ _ _ _ _ (read_spec e i t deps Hwf He)). left. exists o, p. split; [done|].
    by destruct wb.
Qed.

Lemma do_access_covered (E : relation I) a t deps past :
  t_wf t -> non_empty a.1.2 -> covered E t past ->
  (forall x, x ∈ (do_access a (t, deps)).2 -> rtc E x a.2) ->
  covered E (do_access a (t, deps)).1 (past ++ [a]).
Proof.
  intros Hwf He Hcov HE. destruct a as [[[] e] i]; cbn [do_access fst snd] in *.
  - pose proof (write_spec e i t deps Hwf He) as Hs.
    intros w eb x o p [Hin|[= -> -> ->]%list_elem_of_singleton]%elem_of_app Ht.
    2:{ exists i. split; [done|]. by apply (wt_self _ _ _ _ _ Hs). }
    destruct (Hcov _ _ _ _ _ Hin Ht) as (z & Hxz & Hz).
    destruct (touches_dec e o p) as [Hp|Hn].
    + exists i. split.
      * transitivity z; [done|]. apply HE, (wt_deps _ _ _ _ _ Hs). left. exists o, p. split; [done|].
        destruct w; [by apply writer_access|done].
      * pose proof (wt_self _ _ _ _ _ Hs o p Hp). destruct w; [done|by apply writer_access].
    + exists z. split; [done|]. destruct w; [by apply (wt_writer_other _ _ _ _ _ Hs)|by apply (wt_access_other _ _ _ _ _ Hs)].
  - pose proof (read_spec e i t deps Hwf He) as Hs.
    intros w eb x o p [Hin|[= -> -> ->]%list_elem_of_singleton]%elem_of_app Ht.
    2:{ exists i. split; [done|]. apply (rt_access _ _ _ _ _ Hs). auto. }
    destruct (Hcov _ _ _ _ _ Hin Ht) as (z & Hxz & Hz). exists z. split; [done|].
    destruct w; [by apply (rt_writer _ _ _ _ _ Hs)|apply (rt_access _ _ _ _ _ Hs); auto].
Qed.

Lemma do_access_precise a t deps past :
  t_wf t -> non_empty a.1.2 -> explained t past ->
  explained (do_access a (t, deps)).1 (past ++ [a]) /\
  forall x, x ∈ (do_access a (t, deps)).2 -> x ∈ deps \/ exists b, b ∈ past /\ b.2 = x /\ conflict b a.
Proof.
  intros Hwf He Hex. destruct a as [[[] e] i]; cbn [do_access fst snd] in *.
  - pose proof (write_spec e i t deps Hwf He) as Hs. split.
    + intros o p z. setoid_rewrite elem_of_app. setoid_rewrite list_elem_of_singleton. split.
      * intros [[-> ?]|Hz]%(wt_writer _ _ _ _ _ Hs); [eauto|].
        apply Hex in Hz as (e' & ? & ?). eauto.
      * intros [[-> ?]|Hz]%(wt_access _ _ _ _ _ Hs); [eauto|].
        apply Hex in Hz as (w' & e' & ? & ?). eauto.
    + intros x [(o & p & Hp & Ha)|?]%(wt_deps _ _ _ _ _ Hs); [right|by left].
      apply Hex in Ha as (w & e' & Hin & Ht). exists (w, e', x). split_and!; try done.
      split; [by rewrite orb_true_r|]. by exists o, p.
  - pose proof (read_spec e i t deps Hwf He) as Hs. split.
    + intros o p z. setoid_rewrite elem_of_app. setoid_rewrite list_elem_of_singleton. split.
      * intros Hz%(rt_writer _ _ _ _ _ Hs). apply Hex in Hz as (e' & ? & ?). eauto.
      * intros [Hz|[-> ?]]%(rt_access _ _ _ _ _ Hs); [|eauto].
        apply Hex in Hz as (w' & e' & ? & ?). eauto.
    + intros x [(o & p & Hp & Ha)|?]%(rt_deps _ _ _ _ _ Hs); [right|by left].
      apply Hex in Ha as (e' & Hin & Ht). exists (true, e', x). split_and!; try done.
      split; [done|]. by exists o, p.
Qed.

Definition do_all (l : list access) (td : tracker * gset I) : tracker * gset I :=
  foldl (fun td a => do_access a td) td l.

Definition all_non_empty (l : list access) : Prop := forall a, a ∈ l -> non_empty a.1.2.

Lemma do_all_mono l t deps x :
  t_wf t -> all_non_empty l -> x ∈ deps -> x ∈ (do_all l (t, deps)).2.
Proof.
  revert t deps. induction l as [|a l IH]; intros t deps Hwf Hne Hx; [done|].
  assert (non_empty a.1.2) as Ha by (apply Hne; set_solver).
  pose proof (do_access_wf a t deps Hwf Ha). pose proof (do_access_mono a t deps x Hwf Ha Hx).
  cbn [do_all foldl]. destruct (do_access a (t, deps)) as [t1 d1].
  apply IH; [done| |done]. intros b ?. apply Hne. set_solver.
Qed.

Lemma do_all_sound (E : relation I) l t deps past :
  t_wf t -> all_non_empty l -> covered E t past ->
  (forall x a, x ∈ (do_all l (t, deps)).2 -> a ∈ l -> rtc E x a.2) ->
  t_wf (do_all l (t, deps)).1 /\ covered E (do_all l (t, deps)).1 (past ++ l) /\
  forall a b, a ∈ l -> b ∈ past -> conflict b a -> rtc E b.2 a.2.
Proof.
  revert t deps past. induction l as [|a l IH]; intros t deps past Hwf Hne Hcov HE.
  { rewrite app_nil_r. split_and!; try done. intros a b ?%not_elem_of_nil; done. }
  assert (non_empty a.1.2) as Ha by (apply Hne; set_solver).
  assert (all_non_empty l) as Hl by (intros b ?; apply Hne; set_solver).
  pose proof (do_access_wf a t deps Hwf Ha) as Hwf1.
  assert (forall x, x ∈ (do_access a (t, deps)).2 -> rtc E x a.2) as HEa.
  { intros x Hx. apply HE; [|set_solver]. cbn [do_all foldl].
    destruct (do_access a (t, deps)) as [t1 d1]. by apply do_all_mono. }
  pose proof (do_access_covered E a t deps past Hwf Ha Hcov HEa) as Hcov1.
  pose proof (fun b => do_access_sound E a t deps past b Hwf Ha Hcov HEa) as Hs1.
  revert HE. cbn [do_all foldl]. destruct (do_access a (t, deps)) as [t1 d1]. intros HE.
  destruct (IH t1 d1 (past ++ [a]) Hwf1 Hl Hcov1) as (? & Hcov2 & Hs2).
  { intros x c Hx Hc. apply HE; [done|set_solver]. }
  rewrite <- app_assoc in Hcov2. split_and!; try done.
  intros c b [->|Hc]%elem_of_cons Hb Hcon; [by apply Hs1|]. apply Hs2; set_solver.
Qed.

Lemma do_all_precise l t deps past :
  t_wf t -> all_non_empty l -> explained t past ->
  explained (do_all l (t, deps)).1 (past ++ l) /\
  forall x, x ∈ (do_all l (t, deps)).2 ->
    x ∈ deps \/ exists a b, a ∈ l /\ b ∈ past ++ l /\ b.2 = x /\ conflict b a.
Proof.
  revert t deps past. induction l as [|a l IH]; intros t deps past Hwf Hne Hex.
  { rewrite app_nil_r. split; [done|]. by left. }
  assert (non_empty a.1.2) as Ha by (apply Hne; set_solver).
  assert (all_non_empty l) as Hl by (intros b ?; apply Hne; set_solver).
  pose proof (do_access_wf a t deps Hwf Ha) as Hwf1.
  destruct (do_access_precise a t deps past Hwf Ha Hex) as [Hex1 Hd1].
  cbn [do_all foldl]. destruct (do_access a (t, deps)) as [t1 d1].
  destruct (IH t1 d1 (past ++ [a]) Hwf1 Hl Hex1) as [Hex2 Hd2].
  rewrite <- app_assoc in Hex2, Hd2. split; [done|]. intros x [Hx|(c & b & ? & ? & ? & ?)]%Hd2.
  - apply Hd1 in Hx as [?|(b & ? & ? & ?)]; [by left|right]. exists a, b. set_solver.
  - right. exists c, b. set_solver.
Qed.

(** ** Sequences of events *)

Record event : Type := Event { ev_instruction : I; ev_reads : list effect; ev_writes : list effect }.

Definition accesses (ev : event) : list access :=
  ((fun e => (false, e, ev_instruction ev)) <$> ev_reads ev) ++
  ((fun e => (true, e, ev_instruction ev)) <$> ev_writes ev).

(** The dependencies [add_event] returns for each event of a sequence, each
    call starting from an empty set. *)
Fixpoint run_events t (evs : list event) : list (gset I) :=
  match evs with
  | [] => []
  | ev :: evs' =>
      let '(t', deps) := add_event (ev_instruction ev) (ev_reads ev) (ev_writes ev) (t, ∅) in
      deps :: run_events t' evs'
  end.

(** Callers reject empty ranges. *)
Definition valid_event (ev : event) : Prop := all_non_empty (accesses ev).

(** Two events conflict when two of their accesses do. *)
Definition events_conflict (ev ev' : event) : Prop :=
  exists a b, a ∈ accesses ev /\ b ∈ accesses ev' /\ conflict a b.

(** An edge of the dependence graph: [x] is a dependency of an event of [y]. *)
Definition depends_on (evs : list event) (x y : I) : Prop :=
  exists j ev deps, evs !! j = Some ev /\
    run_events MemoryDependencyTracker_default evs !! j = Some deps /\
    x ∈ deps /\ y = ev_instruction ev.

Lemma add_event_do_all ev t deps :
  add_event (ev_instruction ev) (ev_reads ev) (ev_writes ev) (t, deps) =
  ((do_all (accesses ev) (t, deps)).1, (do_all (accesses ev) (t, deps)).2 ∖ {[ev_instruction ev]}).
Proof.
  unfold add_event, do_all, accesses. rewrite foldl_app, !foldl_fmap. cbn [do_access].
  by destruct (foldl _ _ (ev_writes ev)).
Qed.

Lemma accesses_instruction ev a : a ∈ accesses ev -> a.2 = ev_instruction ev.
Proof.
  unfold accesses. rewrite elem_of_app, !list_elem_of_fmap. intros [(? & -> & _)|(? & -> & _)]; done.
Qed.

Lemma run_events_sound (E : relation I) t past evs :
  t_wf t -> Forall valid_event evs -> covered E t past ->
  (forall j ev deps x, evs !! j = Some ev -> run_events t evs !! j = Some deps -> x ∈ deps ->
     E x (ev_instruction ev)) ->
  forall j ev a b, evs !! j = Some ev -> a ∈ accesses ev ->
    (b ∈ past \/ exists (i : nat) evi, (i < j)%nat /\ evs !! i = Some evi /\ b ∈ accesses evi) ->
    conflict b a -> rtc E b.2 a.2.
Proof.
  revert t past. induction evs as [|ev evs IH]; intros t past Hwf Hv Hcov HE j evj a b Hj Ha Hb Hcon; [done|].
  apply Forall_cons in Hv as [Hve Hv]. cbn [run_events] in HE. rewrite add_event_do_all in HE.
  destruct (do_all_sound E (accesses ev) t ∅ past Hwf Hve Hcov) as (Hwf1 & Hcov1 & Hs1).
  { intros x c Hx ->%accesses_instruction. destruct (decide (x = ev_instruction ev)) as [->|]; [done|].
    apply rtc_once. apply (HE 0%nat ev _ x eq_refl eq_refl). set_solver. }
  destruct j as [|j]; simpl in Hj.
  - simplify_eq. destruct Hb as [Hb|(i & ? & ? & _)]; [by apply Hs1|lia].
  - apply (IH _ (past ++ accesses ev) Hwf1 Hv Hcov1) with (j := j) (ev := evj); try done.
    + intros k evk deps x Hk Hdk. by apply (HE (S k)).
    + destruct Hb as [Hb|([|i] & evi & Hlt & Hi & Hb)]; [left; set_solver|simpl in *; simplify_eq; left; set_solver|].
      right. exists i, evi. split_and!; [lia|done..].
Qed.

Lemma run_events_precise t past evs :
  t_wf t -> Forall valid_event evs -> explained t past ->
  forall j ev deps x, evs !! j = Some ev -> run_events t evs !! j = Some deps -> x ∈ deps ->
    x <> ev_instruction ev /\
    exists a b, a ∈ accesses ev /\ b.2 = x /\ conflict b a /\
    (b ∈ past \/ exists (i : nat) evi, (i < j)%nat /\ evs !! i = Some evi /\ b ∈ accesses evi).
Proof.
  revert t past. induction evs as [|ev evs IH]; intros t past Hwf Hv Hex j evj deps x Hj Hd Hx; [done|].
  apply Forall_cons in Hv as [Hve Hv]. cbn [run_events] in Hd. rewrite add_event_do_all in Hd.
  destruct (do_all_precise (accesses ev) t ∅ past Hwf Hve Hex) as [Hex1 Hd1].
  assert (t_wf (do_all (accesses ev) (t, ∅)).1) as Hwf1.
  { apply (do_all_sound (fun _ _ => True) _ _ _ []); [done..| |].
    - intros ????? []%not_elem_of_nil.
    - intros. by apply rtc_once. }
  destruct j as [|j]; simpl in Hj, Hd.
  - simplify_eq. apply elem_of_difference in Hx as [Hx Hne].
    rewrite elem_of_singleton in Hne. split; [done|].
    apply Hd1 in Hx as [[]%not_elem_of_empty|(a & b & Ha & Hb & <- & Hcon)].
    exists a, b. split_and!; try done. left. apply elem_of_app in Hb as [?|Hb]; [done|].
    by apply accesses_instruction in Hb.
  - destruct (IH _ _ Hwf1 Hv Hex1 _ _ _ _ Hj Hd Hx) as (Hne & a & b & Ha & Hbx & Hcon & Hb).
    split; [done|]. exists a, b. split_and!; try done.
    destruct Hb as [[?|?]%elem_of_app|(i & evi & ? & ? & ?)]; [by left|right..].
    + exists 0%nat, ev. split_and!; [lia|done..].
    + exists (S i), evi. split_and!; [lia|done..].
Qed.

Lemma obj_at_default o :
  obj_at MemoryDependencyTracker_default o = MemoryObjectHistory_default.
Proof. unfold obj_at. cbn [MemoryDependencyTracker_default objects]. by rewrite lookup_empty. Qed.

Lemma default_t_wf : t_wf MemoryDependencyTracker_default.
Proof. intros o. rewrite obj_at_default. apply wf_empty. Qed.

(** C2: [MemoryDependencyTracker] preserves memory order. For any sequence of
    events on non-empty ranges, an event that conflicts with an earlier one
    (one of the two writes and they may touch a common byte) is connected to
    it by a chain of the dependencies [add_event] returned. *)
Theorem dependencies_sound (evs : list event) (Hv : Forall valid_event evs)
    (i j : nat) (evi evj : event) (Hlt : (i < j)%nat)
    (Hi : evs !! i = Some evi) (Hj : evs !! j = Some evj) (Hc : events_conflict evi evj) :
  rtc (depends_on evs) (ev_instruction evi) (ev_instruction evj).
Proof.
  destruct Hc as (a & b & Ha & Hb & Hcon).
  rewrite <- (accesses_instruction _ _ Ha), <- (accesses_instruction _ _ Hb).
  apply (run_events_sound (depends_on evs) MemoryDependencyTracker_default [] evs) with (j := j) (ev := evj);
    try done.
  - intros w e x o p ?%not_elem_of_nil. done.
  - intros k ev deps x Hk Hd Hx. by exists k, ev, deps.
  - right. by exists i, evi.
Qed.

(** C33: the tracker is precise. Every dependency [add_event] returns for
    event [j] names another instruction, one with an earlier event that
    conflicts with event [j]: no edge joins two reads, and none joins
    accesses to disjoint bytes. *)
Theorem dependencies_precise (evs : list event) (Hv : Forall valid_event evs)
    (j : nat) (evj : event) (deps : gset I) (x : I)
    (Hj : evs !! j = Some evj)
    (Hd : run_events MemoryDependencyTracker_default evs !! j = Some deps) (Hx : x ∈ deps) :
  x <> ev_instruction evj /\
  exists (i : nat) evi, (i < j)%nat /\ evs !! i = Some evi /\ ev_instruction evi = x /\
    events_conflict evi evj.
Proof.
  destruct (run_events_precise MemoryDependencyTracker_default [] evs default_t_wf Hv) with
    (j := j) (ev := evj) (deps := deps) (x := x) as (Hne & a & b & Ha & Hbx & Hcon & Hb); try done.
  { intros o p z. split.
    - intros [?|Hw]; [done|]. rewrite obj_at_default in Hw.
      by destruct (default_no_access p z); left.
    - intros [?|[?%not_elem_of_nil|Hw]]; [done..|]. rewrite obj_at_default in Hw.
      by destruct (default_no_access p z). }
  split; [done|]. destruct Hb as [?%not_elem_of_nil|(i & evi & ? & ? & Hb)]; [done|].
  exists i, evi. split_and!; try done.
  - by rewrite <- (accesses_instruction _ _ Hb).
  - by exists b, a.
Qed.
End tracker.

(** ** A concrete sequence *)

(** Two overlapping writes of object 1, a read across them, a write of
    object 2 and a barrier write of everything. *)
Definition ex (o : nat) (a n : Z) : MemoryEffect := Exact (Build_MemoryLocation o a n).
Definition sample_read : @event nat nat := Event 12%nat [ex 1 2 4] [].
Definition sample_events : list (@event nat nat) :=
  [ Event 10%nat [] [ex 1 0 8]; Event 11%nat [] [ex 1 4 8]; sample_read;
    Event 13%nat [UnknownObject 2%nat] [ex 2 0 4]; Event 14%nat [] [UnknownAll] ].

Example sample_dependencies :
  run_events MemoryDependencyTracker_default sample_events =
  [∅; {[10]}; {[10; 11]}; ∅; {[10; 11; 12; 13]}]%nat.
Proof. vm_compute. reflexivity. Qed.

Lemma sample_events_valid : Forall valid_event sample_events.
Proof.
  repeat constructor; intros a Ha; apply list_elem_of_In in Ha; simpl in Ha; intuition; subst; simpl; lia.
Qed.

Lemma dependencies_sound_witness :
  rtc (depends_on sample_events) 10%nat 12%nat.
Proof.
  apply (dependencies_sound sample_events sample_events_valid 0 2
    (Event 10%nat [] [ex 1 0 8]) sample_read); [lia|reflexivity|reflexivity|].
  exists (true, ex 1 0 8, 10%nat), (false, ex 1 2 4, 12%nat).
  split; [apply list_elem_of_In; simpl; auto|].
  split; [apply list_elem_of_In; simpl; auto|]. split; [reflexivity|].
  exists 1%nat, 3. vm_compute. intuition congruence.
Defined.

Lemma dependencies_precise_witness :
  11%nat <> 12%nat /\
  exists (i : nat) evi, (i < 2)%nat /\ sample_events !! i = Some evi /\ ev_instruction evi = 11%nat /\
    events_conflict evi sample_read.
Proof.
  apply (dependencies_precise sample_events sample_events_valid 2 sample_read {[10; 11]}%nat 11%nat).
  - reflexivity.
  - vm_compute. reflexivity.
  - set_solver.
Defined.
