(* ===== verification/Interval.v ===== *)
(** * Interval: the exact interval index

    Models [crates/celox-analysis/src/interval.rs]: construction of the
    per-object sorted entry lists with their overlap check, and the query
    that binary-searches the first overlapping entry and iterates from it. *)

From S2P Require Import Prelude.

Section interval.
Context {O V : Type} `{Countable O}.
(** The [Ord] of the object type, which only fixes the order in which
    overlaps of different objects are looked for. *)
Context (O_le : relation O) `{!RelDecision O_le}.

Record ExactInterval : Type := EI { object : O; start : Z; length_ : Z; value : V }.

Definition interval_end (i : ExactInterval) : option Z := checked_add (start i) (length_ i).

Inductive DisjointIntervalError : Type :=
  | Empty (v : V)
  | Overflow (v : V)
  | Overlap (first second : V).

Record Entry : Type := En { e_start : Z; e_end : Z; e_value : V }.

(** [DisjointIntervalMap] *)
Abbreviation imap := (gmap O (list Entry)).

Definition start_le : relation Entry := fun a b => e_start a <= e_start b.
#[global] Instance start_le_dec : RelDecision start_le.
Proof. unfold start_le. intros x y. apply _. Defined.

(** One iteration of the grouping loop of [try_new]. *)
Definition add_interval (objects : imap) (i : ExactInterval) : result DisjointIntervalError imap :=
  if decide (length_ i = 0) then Err (Empty (value i)) else
  match interval_end i with
  | None => Err (Overflow (value i))
  | Some end_ =>
      Ok (<[object i := default [] (objects !! object i) ++ [En (start i) end_ (value i)]]> objects)
  end.

(** The loop over [entries.windows(2)]. *)
Fixpoint check_windows (entries : list Entry) : result DisjointIntervalError unit :=
  match entries with
  | a :: ((b :: _) as rest) =>
      if decide (e_end a > e_start b) then Err (Overlap (e_value a) (e_value b))
      else check_windows rest
  | _ => Ok tt
  end.

(** [sort_unstable_by_key(start)]. Entries with equal starts overlap, so the
    order the unstable sort gives them only decides which of the two an
    [Overlap] names first. *)
Definition sort_entries (entries : list Entry) : list Entry := merge_sort start_le entries.

Definition key_le : relation (O * list Entry) := fun a b => O_le a.1 b.1.
#[global] Instance key_le_dec : RelDecision key_le.
Proof. unfold key_le. intros x y. apply _. Defined.

Definition in_key_order (objects : imap) : list (O * list Entry) :=
  merge_sort key_le (map_to_list objects).

(** The second loop of [try_new], over [objects.values_mut()]: sort, then
    look for an overlap. *)
Definition check_objects (objects : imap) : result DisjointIntervalError unit :=
  foldM (fun (_ : unit) (oe : O * list Entry) => check_windows (sort_entries oe.2)) tt
    (in_key_order objects).

Definition try_new (intervals : list ExactInterval) : result DisjointIntervalError imap :=
  objects ← foldM add_interval ∅ intervals;
  _ ← check_objects objects;
  Ok (sort_entries <$> objects).

Inductive InvalidInterval : Type := InvalidEmpty | InvalidOverflow.

Record Overlapping : Type := Ov { entries : list Entry; cursor : nat; end_ : Z }.

(** [slice::partition_point]: where the predicate stops holding, for a slice
    on which it holds for a prefix. *)
Fixpoint partition_point (p : Entry -> bool) (l : list Entry) : nat :=
  match l with
  | e :: l' => if p e then S (partition_point p l') else 0%nat
  | [] => 0%nat
  end.

Definition overlapping (m : imap) (o : O) (start length : Z) : result InvalidInterval Overlapping :=
  if decide (length = 0) then Err InvalidEmpty else
  end_ ← ok_or InvalidOverflow (checked_add start length);
  let entries := default [] (m !! o) in
  Ok (Ov entries (partition_point (fun e => e_end e <=? start) entries) end_).

(** [Iterator::next] *)
Definition next (it : Overlapping) : option (V * Overlapping) :=
  entry ← entries it !! cursor it;
  if decide (e_start entry >= end_ it) then None
  else Some (e_value entry, Ov (entries it) (S (cursor it)) (end_ it)).

(** [collect]: [next] until it returns [None]. The cursor grows, so the
    number of entries bounds the number of calls ([collect_exact]). *)
Fixpoint collect (fuel : nat) (it : Overlapping) : list V :=
  match fuel with
  | 0%nat => []
  | S fuel' => match next it with None => [] | Some (v, it') => v :: collect fuel' it' end
  end.

(** ** Construction *)

Definition entry_of (i : ExactInterval) : Entry := En (start i) (start i + length_ i) (value i).

(** The intervals a [usize] record can hold. *)
Definition representable (i : ExactInterval) : Prop := 0 <= start i /\ 0 <= length_ i.

Definition valid_interval (i : ExactInterval) : Prop :=
  0 < length_ i /\ start i + length_ i <= usize_max.

Definition on (o : O) (intervals : list ExactInterval) : list ExactInterval :=
  filter (fun i => object i = o) intervals.

Lemma foldM_add intervals m :
  Forall representable intervals ->
  match foldM add_interval m intervals with
  | Ok m' => Forall valid_interval intervals /\
      forall o, default [] (m' !! o) = default [] (m !! o) ++ (entry_of <$> on o intervals)
  | Err (Empty v) => exists i, i ∈ intervals /\ v = value i /\ length_ i = 0
  | Err (Overflow v) => exists i, i ∈ intervals /\ v = value i /\ usize_max < start i + length_ i
  | _ => False
  end.
Proof.
  revert m. induction intervals as [|i intervals IH]; intros m Hr; cbn [foldM].
  { split; [constructor|]. intros o. by rewrite app_nil_r. }
  apply Forall_cons in Hr as [[? ?] Hr]. msimpl. unfold add_interval at 1, interval_end.
  case_decide as Hl; [exists i; set_solver|].
  destruct (checked_add _ _) as [e|] eqn:E.
  2:{ apply checked_add_None in E. exists i. set_solver. }
  apply checked_add_Some in E as [-> ?]. msimpl.
  specialize (IH (<[object i := default [] (m !! object i) ++ [En (start i) (start i + length_ i) (value i)]]> m) Hr).
  destruct (foldM _ _ _) as [m'|[v|v|]|]; [|destruct IH as (j & ? & ?); exists j; set_solver..|done|done].
  destruct IH as [Hv Hm]. split; [constructor; [split; lia|done]|]. intros o. rewrite Hm.
  unfold on. rewrite filter_cons. case_decide as Ho.
  - subst o. rewrite lookup_insert_eq. csimpl. by rewrite <- app_assoc.
  - by rewrite lookup_insert_ne.
Qed.

Definition before : relation Entry := fun a b => e_end a <= e_start b.

Lemma check_windows_ok l :
  Forall (fun e => e_start e < e_end e) l ->
  match check_windows l with
  | Ok _ => StronglySorted before l
  | Err (Overlap v w) => exists a b, [a; b] `sublist_of` l /\ v = e_value a /\ w = e_value b /\ e_start b < e_end a
  | _ => False
  end.
Proof.
  induction l as [|a [|b l] IH]; intros Hne; [constructor|repeat constructor|].
  change (check_windows (a :: b :: l)) with
    (if decide (e_end a > e_start b) then Err (Overlap (e_value a) (e_value b)) else check_windows (b :: l)).
  apply Forall_cons in Hne as [Ha Hne]. case_decide as Hgt.
  { exists a, b. split_and!; [|done|done|lia]. do 2 constructor. apply sublist_nil_l. }
  specialize (IH Hne). destruct (check_windows (b :: l)) as [|[]|]; try done.
  - constructor; [done|]. apply StronglySorted_inv in IH as [_ Hall].
    apply Forall_cons in Hne as [Hb _]. constructor; [unfold before; lia|].
    eapply Forall_impl; [exact Hall|]. unfold before. simpl. lia.
  - destruct IH as (x & y & Hs & ?). exists x, y. split; [by constructor|done].
Qed.

Lemma sort_entries_sorted l : StronglySorted start_le (sort_entries l).
Proof.
  assert (Total start_le) by (intros x y; unfold start_le; lia).
  assert (Transitive start_le) by (intros x y z; unfold start_le; lia).
  apply StronglySorted_merge_sort; apply _.
Qed.

(** Two entries of a list at distinct positions do not overlap. *)
Definition apart (l : list Entry) : Prop :=
  forall i j a b, i <> j -> l !! i = Some a -> l !! j = Some b -> before a b \/ before b a.

Lemma before_apart l : StronglySorted before l -> apart l.
Proof.
  induction 1 as [|x l Hs IH Hall]; intros i j a b Hij Ha Hb; [done|].
  rewrite Forall_forall in Hall. destruct i as [|i], j as [|j]; simpl in *; simplify_eq.
  - left. apply Hall. by eapply list_elem_of_lookup_2.
  - right. apply Hall. by eapply list_elem_of_lookup_2.
  - apply (IH i j); [congruence|done..].
Qed.

Lemma apart_permutation l l' : l ≡ₚ l' -> apart l -> apart l'.
Proof.
  intros [_ (f & Hf & Hl)]%symmetry%Permutation_inj Hap i j a b Hij Ha Hb.
  rewrite Hl in Ha, Hb. by apply (Hap (f i) (f j)); [intros ?%Hf|..].
Qed.

Lemma apart_before l :
  StronglySorted start_le l -> Forall (fun e => e_start e < e_end e) l -> apart l ->
  StronglySorted before l.
Proof.
  induction 1 as [|x l Hs IH Hall]; intros Hne Hap; [constructor|].
  apply Forall_cons in Hne as [Hx Hne]. constructor.
  - apply IH; [done|]. intros i j a b Hij Ha Hb. apply (Hap (S i) (S j)); [congruence|done..].
  - rewrite Forall_forall in *. intros y Hy. specialize (Hall y Hy). specialize (Hne y Hy).
    apply list_elem_of_lookup in Hy as [i Hi].
    destruct (Hap 0%nat (S i) x y) as [?|Hb]; [done..|]. unfold before, start_le in *. lia.
Qed.

(** Two intervals of one object at distinct positions do not overlap. *)
Definition pairwise_disjoint (intervals : list ExactInterval) : Prop :=
  forall i j a b, i <> j -> intervals !! i = Some a -> intervals !! j = Some b ->
    object a = object b -> start a + length_ a <= start b \/ start b + length_ b <= start a.

Lemma on_apart intervals :
  pairwise_disjoint intervals <-> forall o, apart (entry_of <$> on o intervals).
Proof.
  assert (Hf : forall o, exists f, (forall i j, i <> j -> f i <> f j) /\
    forall k a, on o intervals !! k = Some a -> intervals !! (f k) = Some a /\ object a = o).
  { intros o. unfold on. induction intervals as [|x l (f & Hinj & Hf)].
    { exists id. split; [done|]. intros k a. done. }
    rewrite filter_cons. case_decide as Hx.
    - exists (fun k => match k with 0%nat => 0%nat | S k => S (f k) end). split.
      + intros [|i] [|j] Hij; [done..|]. intros [= Heq]. apply (Hinj i j); [congruence|done].
      + intros [|k] a; simpl; [by intros [= <-]|]. apply Hf.
    - exists (fun k => S (f k)). split; [|exact Hf]. intros i j Hij [= Heq]. by apply (Hinj i j). }
  split.
  - intros Hp o i j a b Hij (x & -> & Hx)%list_lookup_fmap_Some (y & -> & Hy)%list_lookup_fmap_Some.
    destruct (Hf o) as (f & Hinj & Hfo). apply Hfo in Hx as [Hx ?], Hy as [Hy ?].
    apply (Hp (f i) (f j)); [by apply Hinj|done|done|congruence].
  - intros Hap. clear Hf. induction intervals as [|x l IH]; intros i j a b Hij Ha Hb Ho; [done|].
    assert (Hx : forall k y, l !! k = Some y -> object x = object y ->
      start x + length_ x <= start y \/ start y + length_ y <= start x).
    { intros k y Hk Hy. specialize (Hap (object x)). unfold on in Hap.
      rewrite filter_cons, decide_True in Hap by done.
      assert (y ∈ filter (fun i => object i = object x) l) as [m Hm]%list_elem_of_lookup.
      { apply list_elem_of_filter. split; [done|]. by eapply list_elem_of_lookup_2. }
      apply (Hap 0%nat (S m) (entry_of x) (entry_of y)); [done..|].
      csimpl. by rewrite list_lookup_fmap, Hm. }
    destruct i as [|i], j as [|j]; simpl in *; simplify_eq.
    + by apply (Hx j).
    + destruct (Hx i a Ha ltac:(done)); auto.
    + apply (IH) with (i := i) (j := j); [|congruence|done..].
      intros o k m y z Hkm Hy Hz. specialize (Hap o). unfold on in Hap. rewrite filter_cons in Hap.
      case_decide; [|by apply (Hap k m)]. apply (Hap (S k) (S m)); [congruence|done..].
Qed.

(** The entries of an object, as construction leaves them. *)
Definition entries_on (o : O) (intervals : list ExactInterval) : list Entry :=
  sort_entries (entry_of <$> on o intervals).

Lemma entries_on_nonempty o intervals :
  Forall valid_interval intervals -> Forall (fun e => e_start e < e_end e) (entries_on o intervals).
Proof.
  intros Hv. unfold entries_on, sort_entries. rewrite merge_sort_Permutation.
  apply Forall_fmap. rewrite Forall_forall in *. intros i [_ Hi]%list_elem_of_filter.
  destruct (Hv i Hi). simpl. lia.
Qed.

Lemma entries_on_before intervals :
  Forall valid_interval intervals ->
  pairwise_disjoint intervals <-> forall o, StronglySorted before (entries_on o intervals).
Proof.
  intros Hv. rewrite on_apart. apply forall_proper. intros o. unfold entries_on, sort_entries. split.
  - intros Hap. apply apart_before; [apply sort_entries_sorted|by apply (entries_on_nonempty o)|].
    eapply apart_permutation; [|exact Hap]. symmetry. apply merge_sort_Permutation.
  - intros Hs%before_apart. eapply apart_permutation; [|exact Hs]. apply merge_sort_Permutation.
Qed.

Lemma foldM_check (l : list (O * list Entry)) :
  Forall (fun oe => Forall (fun e => e_start e < e_end e) oe.2) l ->
  match foldM (fun (_ : unit) (oe : O * list Entry) => check_windows (sort_entries oe.2)) tt l with
  | Ok _ => Forall (fun oe => StronglySorted before (sort_entries oe.2)) l
  | Err (Overlap v w) => exists oe a b, oe ∈ l /\ [a; b] `sublist_of` sort_entries oe.2 /\
      v = e_value a /\ w = e_value b /\ e_start b < e_end a
  | _ => False
  end.
Proof.
  induction 1 as [|oe l Hoe Hl IH]; cbn [foldM]; [constructor|].
  assert (Forall (fun e => e_start e < e_end e) (sort_entries oe.2)) as Hne
    by (unfold sort_entries; by rewrite merge_sort_Permutation).
  pose proof (check_windows_ok _ Hne) as Hc. msimpl.
  destruct (check_windows (sort_entries oe.2)) as [[]|[]|]; try done.
  - destruct (foldM _ _ _) as [|[]|]; try done; [by constructor|].
    destruct IH as (oe' & a & b & ? & ?). exists oe', a, b. set_solver.
  - destruct Hc as (a & b & ? & ?). exists oe, a, b. set_solver.
Qed.

Lemma sublist_on (a b : Entry) o intervals :
  [a; b] `sublist_of` entries_on o intervals ->
  exists x y, [x; y] ⊆+ intervals /\ object x = o /\ object y = o /\ entry_of x = a /\ entry_of y = b.
Proof.
  intros Hs. apply sublist_submseteq, submseteq_Permutation in Hs as [k Hk].
  assert (([a; b] ++ k) ≡ₚ entry_of <$> on o intervals) as Hp
    by (rewrite <- Hk; apply merge_sort_Permutation).
  destruct (Permutation_map_inv _ _ Hp) as (l & Hl & Hlp).
  destruct l as [|x [|y l]]; [done..|]. injection Hl as -> -> _. exists x, y.
  assert (forall z, z ∈ x :: y :: l -> object z = o) as Ho.
  { intros z. rewrite <- Hlp. unfold on. rewrite list_elem_of_filter. tauto. }
  split_and!; try done; [|apply Ho; set_solver..].
  transitivity (on o intervals); [|apply sublist_submseteq, sublist_filter].
  rewrite Hlp. apply (submseteq_inserts_r l [x; y] [x; y]). done.
Qed.

Lemma entries_on_le o intervals a b :
  [a; b] `sublist_of` entries_on o intervals -> e_start a <= e_start b.
Proof.
  intros Hs. pose proof (sort_entries_sorted (entry_of <$> on o intervals)) as Hsort.
  fold (entries_on o intervals) in Hsort. revert Hsort. generalize dependent (entries_on o intervals).
  intros l Hl. remember [a; b] as k eqn:Ek. revert Ek.
  induction Hl as [|x k' l Hl IH|x k' l Hl IH]; intros Ek Hsort; [done|..].
  - injection Ek as -> ->. apply StronglySorted_inv in Hsort as [_ Hall]. rewrite Forall_forall in Hall.
    apply Hall. eapply elem_of_submseteq; [|by apply sublist_submseteq]. set_solver.
  - apply StronglySorted_inv in Hsort as [Hsort _]. by apply IH.
Qed.

Lemma grouped_objects intervals (m : imap) o l :
  (forall o, default [] (m !! o) = default [] ((∅ : imap) !! o) ++ (entry_of <$> on o intervals)) ->
  m !! o = Some l -> sort_entries l = entries_on o intervals.
Proof. intros Hm Ho. specialize (Hm o). rewrite Ho, lookup_empty in Hm. simpl in Hm. by subst. Qed.

(** What construction decides and builds. *)
Lemma try_new_spec intervals :
  Forall representable intervals ->
  match try_new intervals with
  | Ok m => Forall valid_interval intervals /\ pairwise_disjoint intervals /\
      forall o, default [] (m !! o) = entries_on o intervals
  | Err (Empty v) => exists i, i ∈ intervals /\ v = value i /\ length_ i = 0
  | Err (Overflow v) => exists i, i ∈ intervals /\ v = value i /\ usize_max < start i + length_ i
  | Err (Overlap v w) => Forall valid_interval intervals /\
      exists a b, [a; b] ⊆+ intervals /\ v = value a /\ w = value b /\
        object a = object b /\ start b < start a + length_ a /\ start a <= start b
  | Panic => False
  end.
Proof.
  intros Hr. unfold try_new. pose proof (foldM_add intervals ∅ Hr) as Hg. msimpl.
  destruct (foldM add_interval ∅ intervals) as [m|[]|]; try done.
  destruct Hg as [Hv Hm]. unfold check_objects.
  assert (Hin : forall oe, oe ∈ in_key_order m <-> m !! oe.1 = Some oe.2).
  { intros [o l]. unfold in_key_order. by rewrite merge_sort_Permutation, elem_of_map_to_list. }
  assert (Hne : Forall (fun oe => Forall (fun e => e_start e < e_end e) oe.2) (in_key_order m)).
  { apply Forall_forall. intros oe Hoe%Hin. pose proof (entries_on_nonempty oe.1 intervals Hv) as Hne.
    rewrite <- (grouped_objects _ _ _ _ Hm Hoe) in Hne. unfold sort_entries in Hne.
    by rewrite merge_sort_Permutation in Hne. }
  pose proof (foldM_check _ Hne) as Hc. destruct (foldM _ tt _) as [[]|[| |v w]|]; try done.
  - assert (Hall : forall o, default [] ((sort_entries <$> m) !! o) = entries_on o intervals).
    { intros o. rewrite lookup_fmap. destruct (m !! o) as [l|] eqn:Ho; simpl.
      - by apply (grouped_objects _ _ _ _ Hm Ho).
      - specialize (Hm o). rewrite Ho, lookup_empty in Hm. simpl in Hm. unfold entries_on. by rewrite <- Hm. }
    split; [done|]. split; [|done]. apply entries_on_before; [done|]. intros o.
    destruct (m !! o) as [l|] eqn:Ho.
    + rewrite <- (grouped_objects _ _ _ _ Hm Ho). rewrite Forall_forall in Hc.
      by apply (Hc (o, l)), Hin.
    + rewrite <- Hall, lookup_fmap, Ho. constructor.
  - split; [done|]. destruct Hc as ([o l] & a & b & Ho%Hin & Hs & -> & -> & Hlt).
    simpl in *. rewrite (grouped_objects _ _ _ _ Hm Ho) in Hs.
    pose proof (entries_on_le o intervals a b Hs) as Hle.
    apply sublist_on in Hs as (x & y & ? & ? & ? & <- & <-). exists x, y. simpl in *.
    split_and!; try done. congruence.
Qed.

(** ** Queries *)

Definition hits_entry (s e : Z) (x : Entry) : Prop := e_start x < e /\ s < e_end x.
#[global] Instance hits_entry_dec s e x : Decision (hits_entry s e x).
Proof. unfold hits_entry. apply _. Defined.

Lemma partition_drop l s e :
  s < e -> StronglySorted before l -> Forall (fun x => e_start x < e_end x) l ->
  filter (fun x => e_start x < e) (drop (partition_point (fun x => e_end x <=? s) l) l) =
  filter (hits_entry s e) l.
Proof.
  intros Hse. induction 1 as [|x l Hs IH Hall]; intros Hne; [done|].
  apply Forall_cons in Hne as [Hx Hne]. cbn [partition_point].
  destruct (Z.leb_spec (e_end x) s) as [Hle|Hgt].
  - cbn [drop]. rewrite (IH Hne), filter_cons, decide_False; [done|]. intros [? ?]. lia.
  - cbn [drop]. apply filter_ext_in. rewrite Forall_forall in *. intros y Hy.
    apply elem_of_cons in Hy as [->|Hy]; unfold hits_entry; [lia|].
    specialize (Hall y Hy). specialize (Hne y Hy). unfold before in *. simpl in *. lia.
Qed.

Lemma collect_exact fuel l c e :
  StronglySorted before l -> Forall (fun x => e_start x < e_end x) l ->
  (length l <= fuel + c)%nat ->
  collect fuel (Ov l c e) = e_value <$> filter (fun x => e_start x < e) (drop c l).
Proof.
  intros Hs Hne. revert c. induction fuel as [|fuel IH]; intros c Hlen.
  { by rewrite drop_ge by lia. }
  cbn [collect]. unfold next. cbn [entries cursor end_]. msimpl.
  destruct (l !! c) as [x|] eqn:Hx.
  2:{ apply lookup_ge_None in Hx. by rewrite drop_ge by done. }
  rewrite (drop_S _ _ _ Hx), filter_cons. case_decide as Hxe.
  - rewrite decide_False by lia. rewrite filter_none; [done|].
    rewrite <- (take_drop_middle _ _ _ Hx) in Hs. apply StronglySorted_app_1_r in Hs.
    apply StronglySorted_inv in Hs as [_ Hall]. rewrite Forall_forall in *. intros y Hy.
    specialize (Hall y Hy). pose proof (Hne x ltac:(by eapply list_elem_of_lookup_2)).
    unfold before in Hall. lia.
  - rewrite decide_True by lia. csimpl. f_equal. apply IH. lia.
Qed.

(** [DisjointIntervalMap::try_new] accepts exactly the interval lists it
    can index: it succeeds precisely when every interval is non-empty and ends
    within [usize] and no two of them overlap on one object, and it never
    panics. *)
Lemma try_new_accepts (intervals : list ExactInterval) (Hr : Forall representable intervals) :
  ((exists m, try_new intervals = Ok m) <->
   Forall valid_interval intervals /\ pairwise_disjoint intervals) /\
  try_new intervals <> Panic.
Proof.
  pose proof (try_new_spec intervals Hr) as Hs.
  destruct (try_new intervals) as [m|[v|v|v w]|]; [|split; [split|]; try done..|done].
  - split; [|done]. split; [intros _; by destruct Hs as (? & ? & _)|by exists m].
  - by intros [? ?].
  - intros [Hv _]. exfalso. destruct Hs as (i & Hi & _ & ?). rewrite Forall_forall in Hv.
    destruct (Hv i Hi). lia.
  - by intros [? ?].
  - intros [Hv _]. exfalso. destruct Hs as (i & Hi & _ & ?). rewrite Forall_forall in Hv.
    destruct (Hv i Hi). lia.
  - by intros [? ?].
  - intros [Hv Hd]. exfalso. destruct Hs as (_ & a & b & Hsub & _ & _ & Ho & Hlt & Hle).
    apply submseteq_two in Hsub as (i & j & Hij & Hi & Hj).
    rewrite Forall_forall in Hv. destruct (Hv b ltac:(by eapply list_elem_of_lookup_2)).
    destruct (Hd i j a b); [done..|lia|lia].
Qed.

Lemma hits_of_entries o s e intervals :
  (fun x => EI o (e_start x) (e_end x - e_start x) (e_value x)) <$>
    filter (hits_entry s e) (entry_of <$> on o intervals) =
  filter (fun i => object i = o /\ start i < e /\ s < start i + length_ i) intervals.
Proof.
  induction intervals as [|i l IH]; [done|]. unfold on in *. rewrite !filter_cons.
  destruct (decide (object i = o)) as [Ho|Ho].
  - csimpl. rewrite filter_cons. unfold hits_entry at 1. simpl. repeat case_decide; try tauto.
    csimpl. rewrite IH. f_equal. destruct i. simpl in *. subst. f_equal. lia.
  - rewrite decide_False by tauto. done.
Qed.

(** C35: a query of [DisjointIntervalMap::overlapping] is exact. On an index
    that [try_new] built, iterating the query of a non-empty range yields the
    value of every interval of that object that overlaps the range, once, in
    ascending order of position, and no other value. *)
Theorem overlapping_exact (intervals : list ExactInterval) (m : imap) (o : O) (s len : Z)
    (Hr : Forall representable intervals) (Hm : try_new intervals = Ok m)
    (Hlen : 0 < len) (Hend : s + len <= usize_max) :
  exists it hits, overlapping m o s len = Ok it /\
    hits ≡ₚ filter (fun i => object i = o /\ start i < s + len /\ s < start i + length_ i) intervals /\
    StronglySorted (fun a b => start a + length_ a <= start b) hits /\
    collect (length (entries it)) it = value <$> hits.
Proof.
  pose proof (try_new_spec intervals Hr) as Hs. rewrite Hm in Hs. destruct Hs as (Hv & Hd & Hent).
  set (l := entries_on o intervals).
  pose proof (proj1 (entries_on_before _ Hv) Hd o) as Hsorted. fold l in Hsorted.
  pose proof (entries_on_nonempty o _ Hv) as Hne. fold l in Hne.
  set (interval_of := fun x => EI o (e_start x) (e_end x - e_start x) (e_value x)).
  eexists _, (interval_of <$> filter (hits_entry s (s + len)) l). split; [|split; [|split]].
  - unfold overlapping. rewrite decide_False by lia.
    rewrite (proj2 (checked_add_Some s len _)) by (split; [done|lia]). msimpl. by rewrite Hent.
  - unfold l, entries_on, sort_entries. rewrite merge_sort_Permutation.
    unfold interval_of. by rewrite (hits_of_entries o s (s + len) intervals).
  - apply StronglySorted_fmap with (R1 := before); [|by apply StronglySorted_filter].
    intros x y. unfold before, interval_of. simpl. lia.
  - cbn [entries]. fold l. rewrite collect_exact by (done || lia).
    rewrite partition_drop by (done || lia). rewrite <- list_fmap_compose. done.
Qed.
End interval.

(** ** A concrete index *)

Definition sample_intervals : list (@ExactInterval Z Z) :=
  [EI 1 16 8 11; EI 1 0 8 10; EI 2 4 8 12; EI 1 24 4 13].

Lemma sample_representable : Forall representable sample_intervals.
Proof. repeat constructor; simpl; lia. Qed.

Example sample_query :
  (m ← ok_or InvalidEmpty (match try_new Z.le sample_intervals with Ok m => Some m | _ => None end);
   it ← overlapping m 1 4 16; Ok (collect 4 it)) = Ok [10; 11].
Proof. vm_compute. reflexivity. Qed.

Lemma overlapping_exact_witness :
  exists m it hits, try_new Z.le sample_intervals = Ok m /\ overlapping m 1 4 16 = Ok it /\
    hits ≡ₚ filter (fun i => object i = 1 /\ start i < 4 + 16 /\ 4 < start i + length_ i) sample_intervals /\
    StronglySorted (fun a b => start a + length_ a <= start b) hits /\
    collect (length (entries it)) it = value <$> hits.
Proof.
  destruct (try_new Z.le sample_intervals) as [m| |] eqn:E; [|vm_compute in E; discriminate..].
  destruct (overlapping_exact Z.le sample_intervals m 1 4 16 sample_representable E) as (it & hits & ?);
    [lia|vm_compute; discriminate|].
  exists m, it, hits. split; [reflexivity|assumption].
Defined.
