(* ===== verification/LiveInterval.v ===== *)
(** * LiveInterval: sparse live intervals

    Models the data of [crates/celox-backend-common/src/regalloc/live_interval.rs]
    and its queries: segments, membership, overlap, and the two-pointer
    interference test of two intervals. *)

From S2P Require Import Prelude Order.

(** One half-open live segment of a block. *)
Record LiveSegment : Type := LS { block : Z; seg_start : Z; seg_stop : Z }.

Definition contains (s : LiveSegment) (point : Z) : bool :=
  (seg_start s <=? point) && (point <? seg_stop s).

Definition overlaps (a b : LiveSegment) : bool :=
  (block a =? block b) && (seg_start a <? seg_stop b) && (seg_start b <? seg_stop a).

Record LiveInterval (V : Type) : Type := LI { value : V; segments : list LiveSegment }.
Arguments LI {V} _ _.
Arguments value {V} _.
Arguments segments {V} _.

(** [segment_in_block]: the binary search of a list sorted by block. *)
Definition segment_in_block {V} (i : LiveInterval V) (b : Z) : option LiveSegment :=
  snd <$> list_find (fun s => block s = b) (segments i).

(** The two-pointer loop of [interferes] on what is left of both lists. *)
Fixpoint interferes_loop (fuel : nat) (left_ right_ : list LiveSegment) : bool :=
  match fuel, left_, right_ with
  | S fuel', a :: left', b :: right' =>
      if overlaps a b then true
      else if decide ((block a, seg_stop a) ⪯ (block b, seg_stop b))
      then interferes_loop fuel' left' right_
      else interferes_loop fuel' left_ right'
  | _, _, _ => false
  end.

(** Each turn drops one segment, so the two lengths bound the turns. *)
Definition interferes {V} (i j : LiveInterval V) : bool :=
  interferes_loop (length (segments i) + length (segments j)) (segments i) (segments j).

(** ** Well-formed intervals *)

(** [a] ends before [b] starts in block order. *)
Definition seg_before (a b : LiveSegment) : Prop :=
  (block a, seg_stop a) ⪯ (block b, seg_start b).

Record wf_segments (l : list LiveSegment) : Prop := {
  ws_sorted : StronglySorted seg_before l;
  ws_nonempty : Forall (fun s => seg_start s < seg_stop s) l }.

Lemma overlaps_true a b :
  overlaps a b = true <-> block a = block b /\ seg_start a < seg_stop b /\ seg_start b < seg_stop a.
Proof. unfold overlaps. rewrite !andb_true_iff, Z.eqb_eq, !Z.ltb_lt. tauto. Qed.

Lemma contains_true s p : contains s p = true <-> seg_start s <= p < seg_stop s.
Proof. unfold contains. rewrite andb_true_iff, Z.leb_le, Z.ltb_lt. done. Qed.

Lemma overlaps_point a b :
  seg_start a < seg_stop a -> seg_start b < seg_stop b ->
  overlaps a b = true <-> block a = block b /\ exists p, contains a p = true /\ contains b p = true.
Proof.
  intros. rewrite overlaps_true. setoid_rewrite contains_true. split.
  - intros (? & ? & ?). split; [done|]. exists (Z.max (seg_start a) (seg_start b)). lia.
  - intros (? & p & ? & ?). lia.
Qed.

Lemma wf_segments_cons a l : wf_segments (a :: l) -> wf_segments l /\ seg_start a < seg_stop a /\
  forall b, b ∈ l -> seg_before a b /\ seg_start b < seg_stop b.
Proof.
  intros [[Hs Hall]%StronglySorted_inv [Ha Hne]%Forall_cons]. rewrite Forall_forall in Hall.
  split; [by split|]. split; [done|]. intros b Hb. split; [by apply Hall|].
  rewrite Forall_forall in Hne. by apply Hne.
Qed.

(** A segment that ends no later than [b] overlaps nothing after [b]. *)
Lemma no_overlap_after a b c :
  (block a, seg_stop a) ⪯ (block b, seg_stop b) -> seg_before b c -> overlaps a c = false.
Proof.
  unfold seg_before. rewrite !pair_le. intros. apply not_true_iff_false. rewrite overlaps_true. lia.
Qed.

Lemma overlaps_sym a b : overlaps a b = overlaps b a.
Proof. apply eq_true_iff_eq. rewrite !overlaps_true. lia. Qed.

Lemma interferes_loop_spec fuel l r :
  wf_segments l -> wf_segments r -> (length l + length r <= fuel)%nat ->
  interferes_loop fuel l r = true <-> exists a b, a ∈ l /\ b ∈ r /\ overlaps a b = true.
Proof.
  revert l r. induction fuel as [|fuel IH]; intros [|a l] [|b r] Hl Hr Hf;
    cbn [interferes_loop length] in *; try lia;
    try (split; [done|]; intros (x & y & Hx & Hy & _); set_solver).
  pose proof (wf_segments_cons _ _ Hl) as (Hl' & ? & Hla).
  pose proof (wf_segments_cons _ _ Hr) as (Hr' & ? & Hrb).
  destruct (overlaps a b) eqn:Eab.
  { split; [|done]. intros _. exists a, b. set_solver. }
  case_decide as Hle; rewrite IH; cbn [length]; try done; try lia; split;
    intros (x & y & Hx & Hy & Hov); exists x, y.
  - set_solver.
  - apply elem_of_cons in Hx as [->|Hx]; [|done]. exfalso.
    apply elem_of_cons in Hy as [->|Hy]; [congruence|].
    rewrite (no_overlap_after a b y Hle) in Hov; [done|]. by apply Hrb.
  - set_solver.
  - apply elem_of_cons in Hy as [->|Hy]; [|done]. exfalso.
    apply elem_of_cons in Hx as [->|Hx]; [congruence|]. apply ord_not_le, ord_lt_le in Hle.
    rewrite overlaps_sym, (no_overlap_after b a x Hle) in Hov; [done|]. by apply Hla.
Qed.

(** The two-pointer test [LiveInterval::interferes] is exact: on
    well-formed intervals it holds precisely when the two are live at a
    common point of a common block. *)
Lemma interferes_exact {V} (i j : LiveInterval V)
    (Hi : wf_segments (segments i)) (Hj : wf_segments (segments j)) :
  interferes i j = true <->
  exists a b p, a ∈ segments i /\ b ∈ segments j /\ block a = block b /\
    contains a p = true /\ contains b p = true.
Proof.
  unfold interferes. rewrite interferes_loop_spec by done.
  destruct Hi as [_ Hni], Hj as [_ Hnj]. rewrite Forall_forall in Hni, Hnj. split.
  - intros (a & b & Ha & Hb & (? & p & ? & ?)%overlaps_point); eauto 10.
  - intros (a & b & p & Ha & Hb & ? & ? & ?). exists a, b. split_and!; try done.
    apply overlaps_point; eauto.
Qed.

