(* ===== verification/StackColor.v ===== *)
(** * StackColor: stack-slot colouring

    Models [crates/celox-backend-common/src/regalloc/stack_color.rs]: the sweep
    that assigns spill homes to reusable slots. The two binary heaps are taken
    through the [PriorityQueue] interface. *)

From S2P Require Import Prelude Order LiveInterval.

Section stack_color.
Context {V : Type} `{Countable V} `{!Ord V}.

Inductive StackColorError : Type :=
  | DuplicateValue (v : V)
  | EmptyInterval (v : V)
  | SlotCountOverflow.

Record StackSlotColoring : Type := SSC { assignments : gmap V Z; slot_count : Z }.

Definition u32_max : Z := 2^32 - 1.

(** The envelope of an interval: start, end and value. *)
Abbreviation envelope := ((Z * Z) * ((Z * Z) * V))%type.
Definition env_start (e : envelope) : Z * Z := e.1.
Definition env_end (e : envelope) : Z * Z := e.2.1.
Definition env_value (e : envelope) : V := e.2.2.

(** The first loop of [color_stack_slots]. *)
Fixpoint collect_envelopes (seen : gset V) (intervals : list (LiveInterval V))
    : result StackColorError (list envelope) :=
  match intervals with
  | [] => Ok []
  | interval :: rest =>
      if decide (value interval ∈ seen) then Err (DuplicateValue (value interval)) else
      match head (segments interval), last (segments interval) with
      | Some first, Some last =>
          es ← collect_envelopes ({[value interval]} ∪ seen) rest;
          Ok (((block first, seg_start first), ((block last, seg_stop last), value interval)) :: es)
      | _, _ => Err (EmptyInterval (value interval))
      end
  end.

(** The heaps: [active] of (end, slot, value), [available] of slots. *)
Context {QA QS : Type} `{!@PriorityQueue ((Z * Z) * (Z * V)) ord_le QA, !@PriorityQueue Z ord_le QS}.

Record sweep : Type := SW {
  active : QA;
  available : QS;
  next_slot : Z;
  assigned : gmap V Z }.

(** The [while] loop that returns the slots of finished intervals; each turn
    pops one element of [active]. *)
Fixpoint expire (fuel : nat) (start : Z * Z) (active : QA) (available : QS) : QA * QS :=
  match fuel with
  | O => (active, available)
  | S fuel' =>
      match pq_pop active with
      | Some ((end_, (slot, _)), active') =>
          if decide (end_ ⪯ start) then expire fuel' start active' (pq_push slot available)
          else (active, available)
      | None => (active, available)
      end
  end.

(** A free slot, or the next new one: the slot, the remaining free slots and
    the new [next_slot]. *)
Definition choose_slot (available : QS) (next_slot : Z) : result StackColorError (Z * QS * Z) :=
  match pq_pop available with
  | Some (slot, available') => Ok (slot, available', next_slot)
  | None =>
      if decide (next_slot + 1 <= u32_max) then Ok (next_slot, available, next_slot + 1)
      else Err SlotCountOverflow
  end.

(** The body of the sweep. *)
Definition color_step (st : sweep) (e : envelope) : result StackColorError sweep :=
  let '(active, available) :=
    expire (length (pq_elems (active st))) (env_start e) (active st) (available st) in
  '(slot, available, next) ← choose_slot available (next_slot st);
  Ok (SW (pq_push (env_end e, (slot, env_value e)) active) available next
         (<[env_value e := slot]> (assigned st))).

Definition color_stack_slots (intervals : list (LiveInterval V)) : result StackColorError StackSlotColoring :=
  ordered ← collect_envelopes ∅ intervals;
  st ← foldM color_step (SW pq_empty pq_empty 0 ∅) (sort_by_key id ordered);
  Ok (SSC (assigned st) (next_slot st)).

(** [StackSlotColoring::get] *)
Definition get (c : StackSlotColoring) (v : V) : option Z := assignments c !! v.

(** ** The sweep *)

(** Two envelopes overlap. *)
Definition env_overlap (a b : envelope) : Prop := env_start a ≺ env_end b /\ env_start b ≺ env_end a.

(** The slots of both queues. *)
Definition slot_of (x : (Z * Z) * (Z * V)) : Z := x.2.1.
Definition slots (st : sweep) : list Z := (slot_of <$> pq_elems (active st)) ++ pq_elems (available st).

(** The point [p] lies in the envelope. *)
Definition env_contains (p : Z * Z) (e : envelope) : Prop := env_start e ⪯ p /\ p ≺ env_end e.

(** The state after the sweep has placed [placed] and stands at [now]. *)
Record inv (placed : list envelope) (now : Z * Z) (st : sweep) : Prop := {
  i_next : 0 <= next_slot st <= u32_max;
  i_slots : slots st ≡ₚ seqZ 0 (next_slot st);
  i_assigned e : e ∈ placed -> exists s, assigned st !! env_value e = Some s /\ 0 <= s < next_slot st;
  i_active en s v : (en, (s, v)) ∈ pq_elems (active st) ->
    exists e, e ∈ placed /\ env_end e = en /\ env_value e = v /\ assigned st !! v = Some s;
  i_live e : e ∈ placed -> now ≺ env_end e ->
    exists s, (env_end e, (s, env_value e)) ∈ pq_elems (active st) /\ assigned st !! env_value e = Some s;
  i_apart a b s : a ∈ placed -> b ∈ placed -> env_value a <> env_value b -> env_overlap a b ->
    assigned st !! env_value a = Some s -> assigned st !! env_value b = Some s -> False;
  i_depth : next_slot st = 0 \/ exists p es, NoDup es /\ Z.of_nat (length es) = next_slot st /\
    forall e, e ∈ es -> e ∈ placed /\ env_contains p e }.

Lemma expire_spec fuel start (act : QA) (av : QS) :
  (length (pq_elems act) <= fuel)%nat ->
  let '(act', av') := expire fuel start act av in
  exists popped, pq_elems act ≡ₚ popped ++ pq_elems act' /\
    pq_elems av' ≡ₚ (slot_of <$> popped) ++ pq_elems av /\
    Forall (fun x => x.1 ⪯ start) popped /\
    Forall (fun x => start ≺ x.1) (pq_elems act').
Proof.
  revert act av. induction fuel as [|fuel IH]; intros act av Hf; cbn [expire].
  { exists []. assert (pq_elems act = []) as -> by (apply nil_length_inv; lia). by repeat split. }
  destruct (pq_pop act) as [[[en [s v]] act']|] eqn:Ep.
  2:{ apply pq_pop_None in Ep. exists []. rewrite Ep. by repeat split. }
  pose proof (pq_pop_length _ _ _ Ep) as Hlen. apply pq_pop_Some in Ep as [Hp Hmin].
  case_decide as Hle.
  - specialize (IH act' (pq_push s av) ltac:(lia)). destruct (expire fuel start act' _) as [a2 v2].
    destruct IH as (popped & Ha & Hv & Hpop & Hrest). exists ((en, (s, v)) :: popped).
    split_and!; [by rewrite Hp, Ha| |by constructor|done].
    csimpl. rewrite Hv, pq_elems_push. by rewrite Permutation_middle.
  - exists []. split_and!; [done..|]. rewrite Hp. apply ord_not_le in Hle.
    constructor; [done|]. eapply Forall_impl; [exact Hmin|].
    intros x Hx. eapply ord_lt_le_trans; [exact Hle|]. apply (fst_le _ _ Hx).
Qed.

(** The live envelopes behind a list of active entries. *)
Lemma active_envelopes placed now st (l : list ((Z * Z) * (Z * V))) :
  inv placed now st -> (forall x, x ∈ l -> x ∈ pq_elems (active st)) ->
  NoDup (slot_of <$> l) ->
  exists es, NoDup es /\ length es = length l /\
    forall e, e ∈ es -> e ∈ placed /\ exists x, x ∈ l /\ x.1 = env_end e /\ x.2.2 = env_value e /\
      assigned st !! env_value e = Some x.2.1.
Proof.
  intros Hinv. induction l as [|[en [s v]] l IH]; intros Hin Hnd.
  { exists []. split_and!; [constructor|done|]. by intros e ?%not_elem_of_nil. }
  csimpl in Hnd. apply NoDup_cons in Hnd as [Hs Hnd].
  destruct IH as (es & Hes & Hlen & Hall); [intros; apply Hin; set_solver|done|].
  destruct (i_active _ _ _ Hinv en s v) as (e & He & Hen & Hv & Has); [apply Hin; set_solver|].
  exists (e :: es). split_and!; [|simpl; by rewrite Hlen|].
  - constructor; [|done]. intros Hx. destruct (Hall e Hx) as (_ & x & Hxl & _ & _ & Hxs).
    apply Hs. apply list_elem_of_fmap. exists x. split; [|done].
    rewrite Hv in Hxs. unfold slot_of. simpl. congruence.
  - intros e' [->|He']%elem_of_cons.
    + split; [done|]. exists (en, (s, v)). simpl. split_and!; [set_solver|done..|by rewrite Hv].
    + destruct (Hall e' He') as (? & x & ? & ?). split; [done|]. exists x. set_solver.
Qed.

(** The slot chosen after expiry: from the free list, or a new one. *)
Lemma choose_slot_spec (l : list Z) (av : QS) (n : Z) :
  0 <= n <= u32_max -> (l ++ pq_elems av) ≡ₚ seqZ 0 n ->
  (choose_slot av n = Err SlotCountOverflow /\ pq_elems av = [] /\ n = u32_max) \/
  exists slot av2 nx, choose_slot av n = Ok (slot, av2, nx) /\ 0 <= slot < nx /\ n <= nx <= u32_max /\
    (slot ∉ l) /\ (l ++ (slot :: pq_elems av2)) ≡ₚ seqZ 0 nx /\
    (nx = n \/ (nx = n + 1 /\ Z.of_nat (length l) = n)).
Proof.
  intros Hn Hp. unfold choose_slot. destruct (pq_pop av) as [[slot av2]|] eqn:Epop.
  - right. apply pq_pop_Some in Epop as [Hpop _]. rewrite Hpop in Hp.
    assert (0 <= slot < n).
    { assert (slot ∈ seqZ 0 n) as Hin by (rewrite <- Hp; set_solver). apply elem_of_seqZ in Hin. lia. }
    exists slot, av2, n. split_and!; try done; try lia.
    pose proof (NoDup_seqZ 0 n) as Hnd. rewrite <- Hp in Hnd.
    apply NoDup_app in Hnd as (_ & Hd & _). intros Hx%Hd. set_solver.
  - apply pq_pop_None in Epop. rewrite Epop, app_nil_r in Hp. case_decide as Hov.
    + right. exists n, av, (n + 1). rewrite Epop. split_and!; try done; try lia.
      * rewrite Hp. rewrite elem_of_seqZ. lia.
      * rewrite Hp, seqZ_app by lia. done.
      * right. split; [done|]. apply Permutation_length in Hp. rewrite length_seqZ in Hp. lia.
    + left. split_and!; [done..|lia].
Qed.

(** One interval placed: the invariant moves to its start, or the slot
    counter is exhausted. *)
Lemma color_step_spec placed now st e :
  inv placed now st -> now ⪯ env_start e -> (forall x, x ∈ placed -> env_start x ⪯ env_start e) ->
  env_start e ≺ env_end e -> env_value e ∉ env_value <$> placed ->
  (color_step st e = Err SlotCountOverflow /\ next_slot st = u32_max) \/
  exists st', color_step st e = Ok st' /\ inv (placed ++ [e]) (env_start e) st' /\
    next_slot st' <= next_slot st + 1.
Proof.
  intros Hinv Hnow Hsorted He Hnew. unfold color_step.
  pose proof (expire_spec (length (pq_elems (active st))) (env_start e) (active st) (available st)
    ltac:(done)) as Hexp.
  destruct (expire _ _ _ _) as [act' av'].
  destruct Hexp as (popped & Hact & Hav & Hpop & Hrest).
  assert ((slot_of <$> pq_elems act') ++ pq_elems av' ≡ₚ seqZ 0 (next_slot st)) as Hslots.
  { rewrite <- (i_slots _ _ _ Hinv). unfold slots. rewrite Hact, Hav, fmap_app.
    by rewrite (Permutation_app_comm (slot_of <$> popped) (slot_of <$> _)), <- app_assoc. }
  destruct (choose_slot_spec (slot_of <$> pq_elems act') av' (next_slot st) (i_next _ _ _ Hinv) Hslots)
    as [(-> & _ & ?)|(slot & av2 & nx & -> & Hslot & Hnx & Hfree & Hperm & Hdepth)]; [by left|right].
  msimpl. eexists. split; [reflexivity|]. cbn [next_slot]. split; [|destruct Hdepth as [->|[-> _]]; lia].
  rewrite Forall_forall in Hpop, Hrest.
  assert (Hkeep : forall x, x ∈ placed -> (<[env_value e := slot]> (assigned st)) !! env_value x =
    assigned st !! env_value x).
  { intros x Hx. apply lookup_insert_ne. intros Heq. apply Hnew, list_elem_of_fmap. eauto. }
  assert (Hlive : forall x, x ∈ placed -> env_start e ≺ env_end x ->
    exists s, (env_end x, (s, env_value x)) ∈ pq_elems act' /\ assigned st !! env_value x = Some s).
  { intros x Hx Hlt. destruct (i_live _ _ _ Hinv x Hx) as (s & Hin & Hs).
    { by eapply ord_le_lt_trans. }
    exists s. split; [|done]. rewrite Hact in Hin. apply elem_of_app in Hin as [Hin|]; [|done].
    apply Hpop in Hin. simpl in Hin. by destruct Hlt as [_ []]. }
  assert (Hclash : forall x, x ∈ placed -> env_start e ≺ env_end x -> assigned st !! env_value x <> Some slot).
  { intros x Hx Hlt Hs. destruct (Hlive x Hx Hlt) as (s & Hin & Hs').
    apply Hfree, list_elem_of_fmap. eexists. split; [|exact Hin]. unfold slot_of. simpl. congruence. }
  split; cbn [next_slot active available assigned].
  - pose proof (i_next _ _ _ Hinv). lia.
  - unfold slots. cbn [active available]. rewrite pq_elems_push. csimpl.
    rewrite Permutation_middle. exact Hperm.
  - intros x [Hx| ->%list_elem_of_singleton]%elem_of_app.
    + rewrite Hkeep by done. destruct (i_assigned _ _ _ Hinv x Hx) as (s & ? & ?). exists s. split; [done|lia].
    + exists slot. by rewrite lookup_insert_eq.
  - intros en s v Hin. rewrite pq_elems_push in Hin.
    apply elem_of_cons in Hin as [[= -> -> ->]|Hin].
    + exists e. rewrite lookup_insert_eq. set_solver.
    + destruct (i_active _ _ _ Hinv en s v) as (x & Hx & ? & <- & ?); [rewrite Hact; set_solver|].
      exists x. rewrite Hkeep by done. set_solver.
  - intros x [Hx| ->%list_elem_of_singleton]%elem_of_app Hlt.
    + destruct (Hlive x Hx Hlt) as (s & ? & ?). exists s. rewrite Hkeep, pq_elems_push by done. set_solver.
    + exists slot. rewrite lookup_insert_eq, pq_elems_push. set_solver.
  - intros a b s [Ha|Ha%list_elem_of_singleton]%elem_of_app [Hb|Hb%list_elem_of_singleton]%elem_of_app Hne [Hab Hba].
    + rewrite !Hkeep by done. by eapply (i_apart _ _ _ Hinv).
    + subst b. rewrite Hkeep, lookup_insert_eq by done. intros Hs [= <-]. by apply (Hclash a).
    + subst a. rewrite lookup_insert_eq, Hkeep by done. intros [= <-] Hs. by apply (Hclash b).
    + congruence.
  - destruct Hdepth as [->|[-> Hlen]].
    { destruct (i_depth _ _ _ Hinv) as [?|(p & es & ? & ? & Hes)]; [by left|right].
      exists p, es. split_and!; try done. intros x Hx%Hes. set_solver. }
    right. destruct (active_envelopes placed now st (pq_elems act') Hinv) as (es & Hes & Hl & Hall).
    + intros x Hx. rewrite Hact. set_solver.
    + pose proof (NoDup_seqZ 0 (next_slot st)) as Hnd. rewrite <- Hslots in Hnd.
      by apply NoDup_app in Hnd as [? _].
    + exists (env_start e), (es ++ [e]). split_and!.
      * apply NoDup_app. split_and!; [done| |apply NoDup_singleton].
        intros x Hx ->%list_elem_of_singleton. apply Hnew, list_elem_of_fmap. exists e.
        split; [done|]. by apply Hall.
      * rewrite length_app. rewrite length_fmap in Hlen. simpl. lia.
      * intros x [Hx| ->%list_elem_of_singleton]%elem_of_app.
        -- destruct (Hall x Hx) as (Hxp & y & Hy & Hend & _). split; [set_solver|].
           split; [by apply Hsorted|]. rewrite <- Hend. by apply Hrest.
        -- split; [set_solver|]. split; [apply ord_le_refl|done].
Qed.

(** The whole sweep. *)
Lemma sweep_spec rest placed now st :
  inv placed now st -> StronglySorted (key_le id) rest ->
  (forall x y, x ∈ placed -> y ∈ rest -> env_start x ⪯ env_start y) ->
  (forall y, y ∈ rest -> now ⪯ env_start y /\ env_start y ≺ env_end y) ->
  NoDup (env_value <$> placed ++ rest) -> next_slot st <= Z.of_nat (length placed) ->
  (foldM color_step st rest = Err SlotCountOverflow /\
     u32_max < Z.of_nat (length (placed ++ rest))) \/
  exists st' now', foldM color_step st rest = Ok st' /\ inv (placed ++ rest) now' st'.
Proof.
  revert placed now st. induction rest as [|e rest IH]; intros placed now st Hinv Hs Hpr Hnow Hnd Hlen.
  { right. exists st, now. by rewrite app_nil_r. }
  apply StronglySorted_inv in Hs as [Hs Hall]. rewrite Forall_forall in Hall.
  destruct (Hnow e) as [Hne Hee]; [set_solver|].
  assert (env_value e ∉ env_value <$> placed) as Hfresh.
  { rewrite fmap_app in Hnd. apply NoDup_app in Hnd as (_ & Hd & _). intros Hin%Hd. csimpl in Hin. set_solver. }
  destruct (color_step_spec placed now st e Hinv Hne) as [(Hstep & Hn)|(st1 & Hstep & Hinv1 & Hn)];
    [set_solver|done|done|..]; cbn [foldM]; rewrite Hstep; msimpl.
  - left. split; [done|]. rewrite length_app. simpl. lia.
  - assert (Hes : forall y, y ∈ rest -> env_start e ⪯ env_start y).
    { intros y Hy. apply (fst_le _ _ (Hall y Hy)). }
    destruct (IH (placed ++ [e]) (env_start e) st1 Hinv1 Hs) as [(Hf & ?)|(st' & now' & Hf & ?)].
    + intros x y [Hx| ->%list_elem_of_singleton]%elem_of_app Hy; [set_solver|by apply Hes].
    + intros y Hy. split; [by apply Hes|]. apply Hnow. set_solver.
    + by rewrite <- app_assoc.
    + rewrite length_app. simpl. lia.
    + left. rewrite <- app_assoc in *. done.
    + right. exists st', now'. rewrite <- app_assoc in *. done.
Qed.

(** ** Envelopes of intervals *)

Implicit Types (i j : LiveInterval V).

Definition envelope_of i (e : envelope) : Prop :=
  exists first_ last_, head (segments i) = Some first_ /\ last (segments i) = Some last_ /\
    e = ((block first_, seg_start first_), ((block last_, seg_stop last_), value i)).

Definition wf_interval i : Prop := wf_segments (segments i).

Lemma collect_envelopes_spec seen (l : list (LiveInterval V)) :
  match collect_envelopes seen l with
  | Ok es => Forall2 envelope_of l es /\ NoDup (value <$> l) /\ (forall i, i ∈ l -> value i ∉ seen)
  | Err (DuplicateValue v) => v ∈ value <$> l /\ (v ∈ seen \/ ~ NoDup (value <$> l))
  | Err (EmptyInterval v) => exists i, i ∈ l /\ value i = v /\ segments i = []
  | _ => False
  end.
Proof.
  revert seen. induction l as [|i l IH]; intros seen; cbn [collect_envelopes].
  { split_and!; [constructor..|]. by intros i ?%not_elem_of_nil. }
  case_decide as Hseen; [csimpl; set_solver|].
  destruct (head (segments i)) as [f|] eqn:Ef, (last (segments i)) as [la|] eqn:El.
  2-4: exists i; apply head_None in Ef || apply last_None in El; set_solver.
  specialize (IH ({[value i]} ∪ seen)). msimpl.
  destruct (collect_envelopes _ l) as [es|[v|v|]|]; try done.
  - destruct IH as (Hes & Hnd & Hfresh). split_and!.
    + constructor; [by exists f, la|done].
    + csimpl. constructor; [|done]. intros (x & Hx & Hin)%list_elem_of_fmap.
      apply (Hfresh x Hin). set_solver.
    + intros x [->|Hx]%elem_of_cons; [done|]. specialize (Hfresh x Hx). set_solver.
  - destruct IH as [Hin IH]. csimpl. split; [set_solver|].
    destruct (decide (v ∈ seen)) as [|Hv]; [by left|right]. intros [Hi Hnd]%NoDup_cons.
    destruct IH as [IH|IH]; [|done]. set_solver.
  - destruct IH as (x & ? & ?). exists x. set_solver.
Qed.

Lemma wf_first_last (l : list LiveSegment) f la s :
  wf_segments l -> head l = Some f -> last l = Some la -> s ∈ l ->
  (block f, seg_start f) ⪯ (block s, seg_start s) /\ (block s, seg_stop s) ⪯ (block la, seg_stop la).
Proof.
  intros Hwf Hf Hl Hs. destruct l as [|a l]; [done|]. injection Hf as ->.
  pose proof (wf_segments_cons _ _ Hwf) as (Hwf' & Hne & Hall).
  assert (Hstart : (block f, seg_start f) ⪯ (block s, seg_start s)).
  { apply elem_of_cons in Hs as [->|Hs]; [apply ord_le_refl|]. destruct (Hall s Hs) as [Hb _].
    unfold seg_before in Hb. rewrite pair_le in *. lia. }
  split; [done|]. clear Hstart Hall Hne Hwf'.
  revert f Hwf Hl Hs. induction l as [|b l IH]; intros f Hwf Hl Hs.
  { injection Hl as ->. apply list_elem_of_singleton in Hs as ->. apply ord_le_refl. }
  pose proof (wf_segments_cons _ _ Hwf) as (Hwf' & Hne & Hall). rewrite last_cons_cons in Hl.
  apply elem_of_cons in Hs as [->|Hs]; [|by apply (IH b)].
  destruct (Hall la) as [Hb ?]; [by apply last_Some_elem_of in Hl|].
  unfold seg_before in Hb. rewrite pair_le in *. lia.
Qed.

Lemma envelope_nonempty i e : wf_interval i -> envelope_of i e -> env_start e ≺ env_end e.
Proof.
  intros Hwf (f & la & Hf & Hl & ->). unfold env_start, env_end. simpl.
  assert (f ∈ segments i) as Hin by (destruct (segments i); [done|]; injection Hf as ->; set_solver).
  destruct (wf_first_last _ _ _ _ Hwf Hf Hl Hin) as [_ Hle]. destruct Hwf as [_ Hne].
  rewrite Forall_forall in Hne. specialize (Hne f Hin). rewrite pair_le in Hle. rewrite pair_lt. lia.
Qed.

(** Interfering intervals have overlapping envelopes. *)
Lemma interferes_envelopes i j ei ej :
  wf_interval i -> wf_interval j -> envelope_of i ei -> envelope_of j ej ->
  interferes i j = true -> env_overlap ei ej.
Proof.
  intros Hi Hj (fi & li & Hfi & Hli & ->) (fj & lj & Hfj & Hlj & ->).
  unfold interferes. rewrite interferes_loop_spec by done.
  intros (a & b & Ha & Hb & (Hblock & Hab & Hba)%overlaps_true).
  destruct (wf_first_last _ _ _ _ Hi Hfi Hli Ha), (wf_first_last _ _ _ _ Hj Hfj Hlj Hb).
  unfold env_overlap, env_start, env_end. simpl. rewrite !pair_lt. rewrite pair_le in *. lia.
Qed.

Lemma inv_start now : inv [] now (SW pq_empty pq_empty 0 ∅).
Proof.
  split; cbn [next_slot active available assigned].
  - unfold u32_max. lia.
  - unfold slots. cbn [active available]. by rewrite !pq_elems_empty.
  - by intros e ?%not_elem_of_nil.
  - intros en s v. rewrite pq_elems_empty. by intros ?%not_elem_of_nil.
  - by intros e ?%not_elem_of_nil.
  - by intros a b s ?%not_elem_of_nil.
  - by left.
Qed.

Lemma envelopes_values (l : list (LiveInterval V)) es :
  Forall2 envelope_of l es -> env_value <$> es = value <$> l.
Proof. induction 1 as [|i e l es (? & ? & _ & _ & ->) _ IH]; csimpl; [done|]. by rewrite IH. Qed.

Lemma inv_ext placed placed' now st : placed ≡ₚ placed' -> inv placed now st -> inv placed' now st.
Proof.
  intros Hp [? ? ? Ha ? ? Hd]. split; try done; setoid_rewrite <- Hp; done.
Qed.

(** The sweep starts at the first start. *)
Lemma sorted_first (es : list envelope) :
  StronglySorted (key_le id) es -> exists now, forall y, y ∈ es -> now ⪯ env_start y.
Proof.
  destruct 1 as [|e es Hs Hall]; [exists (0, 0); by intros y ?%not_elem_of_nil|].
  exists (env_start e). rewrite Forall_forall in Hall.
  intros y [->|Hy]%elem_of_cons; [apply ord_le_refl|]. apply (fst_le _ _ (Hall y Hy)).
Qed.

(** What the colouring returns. *)
Lemma color_stack_slots_spec (l : list (LiveInterval V)) :
  Forall wf_interval l ->
  match color_stack_slots l with
  | Ok c => NoDup (value <$> l) /\ exists es st now, Forall2 envelope_of l es /\ inv es now st /\
      assigned st = assignments c /\ next_slot st = slot_count c
  | Err (DuplicateValue v) => v ∈ value <$> l /\ ~ NoDup (value <$> l)
  | Err (EmptyInterval v) => exists i, i ∈ l /\ value i = v /\ segments i = []
  | Err SlotCountOverflow => u32_max < Z.of_nat (length l)
  | Panic => False
  end.
Proof.
  intros Hwf. unfold color_stack_slots. pose proof (collect_envelopes_spec ∅ l) as Hc. msimpl.
  destruct (collect_envelopes ∅ l) as [es|[v|v|]|]; try done; [|set_solver].
  destruct Hc as (Hes & Hnd & _).
  destruct (sorted_first (sort_by_key id es) (sort_by_key_sorted id es)) as [now0 Hnow0].
  destruct (sweep_spec (sort_by_key id es) [] now0 _ (inv_start now0)) as [(-> & Hlen)|(st & now & -> & Hinv)].
  - apply sort_by_key_sorted.
  - by intros x y ?%not_elem_of_nil.
  - intros y Hy. split; [by apply Hnow0|]. rewrite elem_of_sort_by_key in Hy.
    apply list_elem_of_lookup in Hy as [k Hk].
    destruct (Forall2_lookup_r _ _ _ _ _ Hes Hk) as (i & Hi%list_elem_of_lookup_2 & Henv).
    rewrite Forall_forall in Hwf. by eapply envelope_nonempty; [apply Hwf|].
  - simpl. rewrite sort_by_key_permutation. by rewrite (envelopes_values _ _ Hes).
  - done.
  - simpl in Hlen. rewrite sort_by_key_permutation in Hlen. by rewrite (Forall2_length _ _ _ Hes).
  - split; [done|]. exists es, st, now. split_and!; try done.
    eapply inv_ext; [|exact Hinv]. simpl. apply sort_by_key_permutation.
Qed.

(** C26: stack-slot colouring never makes interfering homes alias. When
    [color_stack_slots] succeeds on well-formed live intervals, every value
    has a slot below the slot count, and two distinct values that are live at
    a common point have different slots. *)
Theorem color_stack_slots_sound (l : list (LiveInterval V)) (c : StackSlotColoring)
    (Hwf : Forall wf_interval l) (Hc : color_stack_slots l = Ok c) :
  (forall i, i ∈ l -> exists s, get c (value i) = Some s /\ 0 <= s < slot_count c) /\
  (forall i j, i ∈ l -> j ∈ l -> value i <> value j -> interferes i j = true ->
     get c (value i) <> get c (value j)).
Proof.
  pose proof (color_stack_slots_spec l Hwf) as Hs. rewrite Hc in Hs.
  destruct Hs as (_ & es & st & now & Hes & Hinv & Has & Hn). unfold get. rewrite <- Has, <- Hn.
  assert (Henv : forall i, i ∈ l -> exists e, e ∈ es /\ envelope_of i e /\ env_value e = value i).
  { intros i [k Hk]%list_elem_of_lookup. destruct (Forall2_lookup_l _ _ _ _ _ Hes Hk) as (e & He & Hie).
    exists e. split; [by eapply list_elem_of_lookup_2|]. split; [done|]. by destruct Hie as (? & ? & _ & _ & ->). }
  split.
  - intros i (e & He & _ & <-)%Henv. by apply (i_assigned _ _ _ Hinv).
  - intros i j Hi Hj Hne Hint. destruct (Henv i Hi) as (ei & Hei & Hie & Hvi), (Henv j Hj) as (ej & Hej & Hje & Hvj).
    rewrite Forall_forall in Hwf.
    pose proof (interferes_envelopes i j ei ej (Hwf i Hi) (Hwf j Hj) Hie Hje Hint) as Hov.
    destruct (i_assigned _ _ _ Hinv ei Hei) as (s & Hs & _). rewrite <- Hvi, <- Hvj, Hs in *.
    intros Heq. by apply (i_apart _ _ _ Hinv ei ej s).
Qed.

(** The colouring is complete and its errors are the documented ones. On
    well-formed intervals with distinct values it succeeds whenever there are
    fewer than 2^32 of them; it reports [DuplicateValue] only for a value
    listed twice, [EmptyInterval] only for an interval without segments. *)
Lemma color_stack_slots_total (l : list (LiveInterval V)) (Hwf : Forall wf_interval l) :
  (NoDup (value <$> l) -> Forall (fun i => segments i <> []) l -> Z.of_nat (length l) <= u32_max ->
     exists c, color_stack_slots l = Ok c) /\
  match color_stack_slots l with
  | Ok _ => NoDup (value <$> l)
  | Err (DuplicateValue v) => v ∈ value <$> l /\ ~ NoDup (value <$> l)
  | Err (EmptyInterval v) => exists i, i ∈ l /\ value i = v /\ segments i = []
  | Err SlotCountOverflow => u32_max < Z.of_nat (length l)
  | Panic => False
  end.
Proof.
  pose proof (color_stack_slots_spec l Hwf) as Hs.
  destruct (color_stack_slots l) as [c|[v|v|]|]; (split; [|try done]).
  - by exists c.
  - by destruct Hs.
  - intros Hnd. by destruct Hs as [_ []].
  - intros _ Hne. destruct Hs as (i & Hi & _ & ?). rewrite Forall_forall in Hne. by destruct (Hne i Hi).
  - lia.
  - done.
Qed.

(** C39: the sweep uses no slot it does not need: if it uses any, there is a
    program point contained in the envelopes of as many distinct values as
    there are slots, so no colouring of the envelopes has fewer. *)
Theorem color_stack_slots_minimal (l : list (LiveInterval V)) (c : StackSlotColoring)
    (Hwf : Forall wf_interval l) (Hc : color_stack_slots l = Ok c) (Hpos : slot_count c <> 0) :
  exists p es, NoDup (env_value <$> es) /\ Z.of_nat (length es) = slot_count c /\
    forall e, e ∈ es -> env_contains p e /\ exists i, i ∈ l /\ envelope_of i e.
Proof.
  pose proof (color_stack_slots_spec l Hwf) as Hs. rewrite Hc in Hs.
  destruct Hs as (Hnd & es & st & now & Hes & Hinv & _ & Hn).
  destruct (i_depth _ _ _ Hinv) as [?|(p & live & Hlive & Hlen & Hall)]; [congruence|].
  exists p, live. rewrite <- (envelopes_values _ _ Hes) in Hnd. split_and!.
  - apply NoDup_fmap_2_strong; [|done]. intros a b Ha Hb Hv.
    apply Hall in Ha as [[x Hx]%list_elem_of_lookup _], Hb as [[y Hy]%list_elem_of_lookup _].
    assert (x = y) as ->; [|congruence]. eapply (NoDup_lookup _ _ _ (env_value a)); [exact Hnd|..];
      rewrite list_lookup_fmap, ?Hx, ?Hy; simpl; congruence.
  - congruence.
  - intros e [Hin ?]%Hall. split; [done|]. apply list_elem_of_lookup in Hin as [k Hk].
    destruct (Forall2_lookup_r _ _ _ _ _ Hes Hk) as (i & Hi%list_elem_of_lookup_2 & ?). eauto.
Qed.
End stack_color.

(** ** A concrete batch *)

Definition sample_batch : list (LiveInterval Z) :=
  [LI 0 [LS 0 0 2; LS 2 0 8]; LI 1 [LS 1 0 2; LS 2 7 9]; LI 2 [LS 3 0 4]].

Lemma sample_batch_wf : Forall wf_interval sample_batch.
Proof.
  repeat constructor; unfold seg_before; rewrite ?pair_le; simpl; lia.
Qed.

(** The colouring with both heaps as sorted lists. *)
Abbreviation color_sorted :=
  (color_stack_slots (QA := sorted_queue (ord_le (A:=(Z * Z) * (Z * Z)))) (QS := sorted_queue (ord_le (A:=Z)))).

Example sample_colors :
  (c ← color_sorted sample_batch; Ok (get c <$> [0; 1; 2], slot_count c)) =
  Ok ([Some 0; Some 1; Some 0], 2).
Proof. vm_compute. reflexivity. Qed.

Lemma color_stack_slots_sound_witness :
  exists c, color_sorted sample_batch = Ok c /\
  (forall i, i ∈ sample_batch -> exists s, get c (value i) = Some s /\ 0 <= s < slot_count c) /\
  (forall i j, i ∈ sample_batch -> j ∈ sample_batch -> value i <> value j -> interferes i j = true ->
     get c (value i) <> get c (value j)).
Proof.
  destruct (color_sorted sample_batch) as [c| |] eqn:E; [|vm_compute in E; discriminate..].
  exists c. split; [reflexivity|].
  exact (color_stack_slots_sound sample_batch c sample_batch_wf E).
Defined.

Lemma color_stack_slots_minimal_witness :
  exists p es, NoDup (env_value <$> es) /\ Z.of_nat (length es) = 2 /\
    forall e, e ∈ es -> env_contains p e /\ exists i, i ∈ sample_batch /\ envelope_of i e.
Proof.
  destruct (color_sorted sample_batch) as [c| |] eqn:E; [|vm_compute in E; discriminate..].
  assert (slot_count c = 2) as Hc by (vm_compute in E; injection E as <-; reflexivity).
  rewrite <- Hc. apply (color_stack_slots_minimal sample_batch c sample_batch_wf E).
  rewrite Hc. discriminate.
Defined.
