(* ===== verification/RegAlloc.v ===== *)
(** * RegAlloc: register sets, allocation facts and linear scan

    Models the parts of [crates/celox-backend-common/src/regalloc.rs] that
    are not next-use analysis: the compact register set, the shape check of
    [FunctionAllocationFacts] and the linear-scan allocator. *)

From S2P Require Import Prelude Order.

(** ** Registers: the [MachineRegister] trait *)

Class MachineRegister (R : Type) : Type := {
  reg_eq_dec :: EqDecision R;
  index : R -> Z }.

(** What the trait's documentation promises of [index]. *)
Class MachineRegisterLaws (R : Type) `{MachineRegister R} : Prop := {
  index_range r : 0 <= index r < 64;
  index_inj r r' : index r = index r' -> r = r' }.

(** ** [RegisterSet]: a [u64] bit set *)

Section register_set.
Context {R : Type} `{MachineRegister R}.

Definition u64_mask : Z := Z.ones 64.

(** [1_u64.checked_shl(index).expect(..)] *)
Definition register_bit {E} (r : R) : result E Z :=
  if decide (index r < 64) then Ok (Z.shiftl 1 (index r)) else Panic.

Definition set_new : Z := 0.
Definition set_insert {E} (s : Z) (r : R) : result E Z := b ← register_bit r; Ok (Z.lor s b).
Definition set_remove {E} (s : Z) (r : R) : result E Z :=
  b ← register_bit r; Ok (Z.land s (Z.lxor b u64_mask)).
Definition set_contains {E} (s : Z) (r : R) : result E bool :=
  b ← register_bit r; Ok (negb (Z.land s b =? 0)).
Definition set_is_empty (s : Z) : bool := s =? 0.

(** ** Laws *)

Context `{!MachineRegisterLaws R}.

(** [s] represents the set of registers [X]. *)
Definition represents (s : Z) (X : R -> Prop) : Prop :=
  0 <= s <= u64_mask /\ (forall i, Z.testbit s i = true -> exists r, X r /\ index r = i) /\
  forall r, X r -> Z.testbit s (index r) = true.

Lemma bit_of_shift i j : 0 <= i -> Z.testbit (Z.shiftl 1 i) j = (i =? j).
Proof. intros. rewrite Z.shiftl_1_l. by apply Z.pow2_bits_eqb. Qed.

Lemma u64_mask_bit j : Z.testbit u64_mask j = (0 <=? j) && (j <? 64).
Proof. unfold u64_mask. apply Z.testbit_ones. lia. Qed.

(** A 64-bit word has no bit at 64 or above, and conversely. *)
Lemma u64_bits s : 0 <= s -> s <= u64_mask <-> forall j, 64 <= j -> Z.testbit s j = false.
Proof.
  intros Hs. change u64_mask with (2^64 - 1). split.
  - intros Hle j Hj. apply Z.bits_above_log2; [done|].
    destruct (Z.eq_dec s 0) as [->|]; [simpl; lia|]. assert (Z.log2 s < 64); [|lia].
    apply Z.log2_lt_pow2; lia.
  - intros Hb. destruct (Z.eq_dec s 0) as [->|]; [lia|].
    assert (Z.log2 s < 64) as Hl%Z.log2_lt_pow2; [|lia..].
    destruct (decide (Z.log2 s < 64)); [done|]. pose proof (Z.bit_log2 s ltac:(lia)) as Ht.
    rewrite Hb in Ht by lia. done.
Qed.

Lemma land_bit s i : 0 <= i -> (Z.land s (Z.shiftl 1 i) =? 0) = negb (Z.testbit s i).
Proof.
  intros Hi. destruct (Z.eqb_spec (Z.land s (Z.shiftl 1 i)) 0) as [Heq|Hne].
  - assert (Z.testbit (Z.land s (Z.shiftl 1 i)) i = false) as Hb by (rewrite Heq; apply Z.bits_0).
    rewrite Z.land_spec, bit_of_shift, Z.eqb_refl, andb_true_r in Hb by done. by rewrite Hb.
  - destruct (Z.testbit s i) eqn:Hs; [done|]. exfalso. apply Hne. apply Z.bits_inj'. intros j Hj.
    rewrite Z.land_spec, bit_of_shift, Z.bits_0 by done. destruct (Z.eqb_spec i j) as [->|].
    + by rewrite Hs.
    + apply andb_false_r.
Qed.

Lemma register_bit_ok {E} r : @register_bit E r = Ok (Z.shiftl 1 (index r)).
Proof. unfold register_bit. rewrite decide_True; [done|]. apply index_range. Qed.

Lemma represents_insert s r X :
  represents s X -> represents (Z.lor s (Z.shiftl 1 (index r))) (fun x => X x \/ x = r).
Proof.
  intros ([H0 Hle] & Hto & Hof). pose proof (index_range r) as Hr.
  assert (Hb : forall j, Z.testbit (Z.lor s (Z.shiftl 1 (index r))) j = Z.testbit s j || (index r =? j)).
  { intros j. by rewrite Z.lor_spec, bit_of_shift by lia. }
  assert (0 <= Z.lor s (Z.shiftl 1 (index r))) as Hn.
  { apply Z.lor_nonneg. split; [done|]. apply Z.shiftl_nonneg. lia. }
  split; [split; [done|]|split].
  - apply u64_bits; [done|]. intros j Hj. rewrite Hb, (proj1 (u64_bits s H0) Hle j Hj).
    destruct (Z.eqb_spec (index r) j); [lia|done].
  - intros j. rewrite Hb, orb_true_iff, Z.eqb_eq. intros [(x & ? & ?)%Hto|<-]; eauto.
  - intros x [Hx| ->]; rewrite Hb; [by rewrite Hof|]. by rewrite Z.eqb_refl, orb_true_r.
Qed.

Lemma represents_remove s r X :
  represents s X ->
  represents (Z.land s (Z.lxor (Z.shiftl 1 (index r)) u64_mask)) (fun x => X x /\ x <> r).
Proof.
  intros ([H0 Hle] & Hto & Hof). pose proof (index_range r) as Hr.
  assert (Hb : forall j, Z.testbit (Z.land s (Z.lxor (Z.shiftl 1 (index r)) u64_mask)) j =
    Z.testbit s j && negb (index r =? j)).
  { intros j. rewrite Z.land_spec, Z.lxor_spec, bit_of_shift, u64_mask_bit by lia.
    destruct (decide (0 <= j < 64)).
    - rewrite (proj2 (Z.leb_le 0 j)), (proj2 (Z.ltb_lt j 64)) by lia. by rewrite xorb_true_r.
    - destruct (decide (64 <= j)); [by rewrite (proj1 (u64_bits s H0) Hle j) by done|].
      by rewrite Z.testbit_neg_r by lia. }
  assert (0 <= Z.land s (Z.lxor (Z.shiftl 1 (index r)) u64_mask)) as Hn by (apply Z.land_nonneg; by left).
  split; [split; [done|]|split].
  - apply u64_bits; [done|]. intros j Hj. by rewrite Hb, (proj1 (u64_bits s H0) Hle j Hj).
  - intros j. rewrite Hb, andb_true_iff, negb_true_iff, Z.eqb_neq. intros [(x & ? & <-)%Hto Hne].
    exists x. split; [|done]. split; [done|]. congruence.
  - intros x [Hx Hne]. rewrite Hb, Hof by done. simpl. apply negb_true_iff, Z.eqb_neq.
    intros ?%index_inj. congruence.
Qed.

(** For registers with distinct indices below 64, [RegisterSet] is a
    faithful set: insertion, removal, membership and emptiness of the 64-bit
    word are those of the set of registers it represents, and none of them
    panics. *)
Lemma register_set_refines (s : Z) (X : R -> Prop) (r : R) (Hs : represents s X) :
  (exists s', @set_insert unit s r = Ok s' /\ represents s' (fun x => X x \/ x = r)) /\
  (exists s', @set_remove unit s r = Ok s' /\ represents s' (fun x => X x /\ x <> r)) /\
  (exists b, @set_contains unit s r = Ok b /\ (b = true <-> X r)) /\
  (set_is_empty s = true <-> forall x, ~ X x).
Proof.
  unfold set_insert, set_remove, set_contains, set_is_empty. rewrite register_bit_ok. msimpl.
  split_and!.
  - eexists. split; [reflexivity|]. by apply represents_insert.
  - eexists. split; [reflexivity|]. by apply represents_remove.
  - eexists. split; [reflexivity|]. pose proof (index_range r). rewrite land_bit, negb_involutive by lia.
    destruct Hs as (_ & Hto & Hof). split; [|apply Hof].
    intros (x & Hx & ->%index_inj)%Hto. done.
  - destruct Hs as ([H0 _] & Hto & Hof). rewrite Z.eqb_eq. split.
    + intros -> x Hx. specialize (Hof x Hx). by rewrite Z.bits_0 in Hof.
    + intros Hno. apply Z.bits_inj'. intros j _. rewrite Z.bits_0. apply not_true_iff_false.
      intros (x & ? & _)%Hto. by apply (Hno x).
Qed.
End register_set.

(** ** Allocation facts and their shape check *)

Inductive RegConstraint (R : Type) : Type :=
  | AnyRegister
  | Fixed (r : R).

Record InstructionConstraints (V R : Type) : Type := IC {
  fixed_uses : list (V * R);
  fixed_defs : list (V * R);
  clobbers : list R }.
Arguments IC {V R}. Arguments fixed_uses {V R}. Arguments fixed_defs {V R}. Arguments clobbers {V R}.

Record InstructionAllocationFacts (V R : Type) : Type := IAF {
  uses : list V;
  defs : list V;
  constraints : InstructionConstraints V R;
  is_copy : bool }.
Arguments IAF {V R}. Arguments uses {V R}. Arguments defs {V R}. Arguments constraints {V R}.

Record PhiSource (V : Type) : Type := PS { predecessor : nat; phi_value : V }.
Arguments PS {V}. Arguments predecessor {V}. Arguments phi_value {V}.

Record PhiAllocationFacts (V : Type) : Type := PAF { phi_destination : V; sources : list (PhiSource V) }.
Arguments PAF {V}. Arguments phi_destination {V}. Arguments sources {V}.

Record BlockAllocationFacts (V R : Type) : Type := BAF {
  successors : list nat;
  phis : list (PhiAllocationFacts V);
  instructions : list (InstructionAllocationFacts V R) }.
Arguments BAF {V R}. Arguments successors {V R}. Arguments phis {V R}. Arguments instructions {V R}.

Record FunctionAllocationFacts (V R : Type) : Type := FAF {
  entry : nat;
  blocks : list (BlockAllocationFacts V R) }.
Arguments FAF {V R}. Arguments entry {V R}. Arguments blocks {V R}.

Inductive AllocationFactsError (V : Type) : Type :=
  | MissingEntry (entry block_count : nat)
  | MissingSuccessor (block successor block_count : nat)
  | MissingPhiPredecessor (block predecessor : nat) (value : V)
  | FixedUseIsNotUse (block instruction : nat) (value : V)
  | FixedDefIsNotDef (block instruction : nat) (value : V).
Arguments MissingEntry {V}. Arguments MissingSuccessor {V}. Arguments MissingPhiPredecessor {V}.
Arguments FixedUseIsNotUse {V}. Arguments FixedDefIsNotDef {V}.

Section facts.
Context {V R : Type} `{EqDecision V}.
Abbreviation facts := (FunctionAllocationFacts V R).
Abbreviation error := (AllocationFactsError V).

(** The inner loop over the successors of block [block_index]. *)
Definition add_predecessor (block_count block_index : nat) (predecessors : list (list nat))
    (successor : nat) : result error (list (list nat)) :=
  match predecessors !! successor with
  | None => Err (MissingSuccessor block_index successor block_count)
  | Some ps => Ok (<[successor := ps ++ [block_index]]> predecessors)
  end.

Definition collect_predecessors (f : facts) : result error (list (list nat)) :=
  foldM (fun predecessors (ib : nat * BlockAllocationFacts V R) =>
           foldM (add_predecessor (length (blocks f)) ib.1) predecessors (successors ib.2))
    (replicate (length (blocks f)) []) (enumerate (blocks f)).

(** Checks run for their error only. *)
Definition check {A} (p : A -> bool) (err : A -> error) (l : list A) : result error unit :=
  foldM (fun (_ : unit) a => if p a then Ok tt else Err (err a)) tt l.

Definition check_all {A} (f : A -> result error unit) (l : list A) : result error unit :=
  foldM (fun (_ : unit) a => f a) tt l.

Definition check_instruction (block : nat) (ii : nat * InstructionAllocationFacts V R) : result error unit :=
  _ ← check (fun vr => bool_decide (vr.1 ∈ uses ii.2)) (fun vr => FixedUseIsNotUse block ii.1 vr.1)
        (fixed_uses (constraints ii.2));
  check (fun vr => bool_decide (vr.1 ∈ defs ii.2)) (fun vr => FixedDefIsNotDef block ii.1 vr.1)
    (fixed_defs (constraints ii.2)).

(** The body of the second loop of [verify]. *)
Definition check_block (predecessors : list (list nat)) (ib : nat * BlockAllocationFacts V R)
    : result error unit :=
  ps ← expect (predecessors !! ib.1);
  _ ← check_all (fun phi =>
        check (fun s => bool_decide (predecessor s ∈ ps))
          (fun s => MissingPhiPredecessor ib.1 (predecessor s) (phi_value s)) (sources phi)) (phis ib.2);
  check_all (check_instruction ib.1) (enumerate (instructions ib.2)).

(** [FunctionAllocationFacts::verify]. The predecessor list is only indexed by
    blocks that have phi sources in the source; it has one entry per block,
    so reading it first cannot panic ([verify_decides]). *)
Definition verify (f : facts) : result error unit :=
  if decide (length (blocks f) <= entry f)%nat then Err (MissingEntry (entry f) (length (blocks f))) else
  predecessors ← collect_predecessors f;
  check_all (check_block predecessors) (enumerate (blocks f)).

(** ** What the check decides *)

(** [p] lists [b] as a successor. *)
Definition is_predecessor (f : facts) (p b : nat) : Prop :=
  exists blk, blocks f !! p = Some blk /\ b ∈ successors blk.

Record well_shaped (f : facts) : Prop := {
  ws_entry : (entry f < length (blocks f))%nat;
  ws_successors p blk s : blocks f !! p = Some blk -> s ∈ successors blk -> (s < length (blocks f))%nat;
  ws_phis b blk phi s : blocks f !! b = Some blk -> phi ∈ phis blk -> s ∈ sources phi ->
    is_predecessor f (predecessor s) b;
  ws_fixed b blk i : blocks f !! b = Some blk -> i ∈ instructions blk ->
    (forall v r, (v, r) ∈ fixed_uses (constraints i) -> v ∈ uses i) /\
    (forall v r, (v, r) ∈ fixed_defs (constraints i) -> v ∈ defs i) }.

Lemma check_all_ok {A} (f : A -> result error unit) l :
  (forall a, a ∈ l -> f a <> Panic) ->
  (check_all f l = Ok tt <-> forall a, a ∈ l -> f a = Ok tt) /\ check_all f l <> Panic.
Proof.
  unfold check_all. induction l as [|a l IH]; intros Hp; cbn [foldM].
  { split; [split; [|done]; by intros _ a ?%not_elem_of_nil|done]. }
  destruct IH as [IH Hnp]; [intros; apply Hp; set_solver|].
  pose proof (Hp a ltac:(set_solver)). destruct (f a) as [[]| |] eqn:E; msimpl; [|split; [split|]; try done|congruence].
  - split; [|done]. rewrite IH. split; [|set_solver]. intros Hl b [->|?]%elem_of_cons; auto.
  - intros Hl. by rewrite Hl in E by set_solver.
Qed.

Lemma check_ok {A} (p : A -> bool) err l :
  (check p err l = Ok tt <-> forall a, a ∈ l -> p a = true) /\ check p err l <> Panic.
Proof.
  unfold check. fold (check_all (fun a => if p a then Ok tt else Err (err a)) l).
  destruct (check_all_ok (fun a => if p a then Ok tt else Err (err a)) l) as [Hok Hnp].
  { intros a _. by destruct (p a). }
  split; [|done]. rewrite Hok. apply forall_proper. intros a. destruct (p a); naive_solver.
Qed.

Lemma check_instruction_ok b ii :
  (check_instruction b ii = Ok tt <->
    (forall v r, (v, r) ∈ fixed_uses (constraints ii.2) -> v ∈ uses ii.2) /\
    (forall v r, (v, r) ∈ fixed_defs (constraints ii.2) -> v ∈ defs ii.2)) /\
  check_instruction b ii <> Panic.
Proof.
  unfold check_instruction.
  destruct (check_ok (fun vr : V * R => bool_decide (vr.1 ∈ uses ii.2))
    (fun vr => FixedUseIsNotUse b ii.1 vr.1) (fixed_uses (constraints ii.2))) as [Hu Hup].
  destruct (check_ok (fun vr : V * R => bool_decide (vr.1 ∈ defs ii.2))
    (fun vr => FixedDefIsNotDef b ii.1 vr.1) (fixed_defs (constraints ii.2))) as [Hd Hdp].
  setoid_rewrite bool_decide_eq_true in Hu. setoid_rewrite bool_decide_eq_true in Hd.
  msimpl. destruct (check _ _ (fixed_uses _)) as [[]|e|]; [|split; [split|]; try done|done].
  - split; [|done]. rewrite Hd. split.
    + intros Hl. split; [|intros v r Hv; apply (Hl _ Hv)]. intros v r Hv. by apply (proj1 Hu eq_refl (v, r)).
    + intros [_ Hl] [v r] Hv. by apply (Hl v r).
  - intros [Hl _]. assert (Err e = Ok tt) as Heq; [|congruence]. apply Hu. intros [v r] Hv. by apply (Hl v r).
Qed.

Lemma check_block_ok f ps b blk :
  length ps = length (blocks f) -> blocks f !! b = Some blk ->
  (forall p, is_predecessor f p b <-> p ∈ default [] (ps !! b)) ->
  (check_block ps (b, blk) = Ok tt <->
    (forall phi s, phi ∈ phis blk -> s ∈ sources phi -> is_predecessor f (predecessor s) b) /\
    (forall i, i ∈ instructions blk ->
      (forall v r, (v, r) ∈ fixed_uses (constraints i) -> v ∈ uses i) /\
      (forall v r, (v, r) ∈ fixed_defs (constraints i) -> v ∈ defs i))) /\
  check_block ps (b, blk) <> Panic.
Proof.
  intros Hlen Hb Hps. unfold check_block. cbn [fst snd].
  destruct (ps !! b) as [pl|] eqn:Epl.
  2:{ apply lookup_ge_None in Epl. apply lookup_lt_Some in Hb. lia. }
  simpl in Hps. msimpl.
  set (chk := fun phi : PhiAllocationFacts V => check _ _ (sources phi)).
  destruct (check_all_ok chk (phis blk)) as [Hphi Hphip].
  { intros phi _. apply check_ok. }
  destruct (check_all_ok (check_instruction b) (enumerate (instructions blk))) as [Hins Hinsp].
  { intros ii _. apply check_instruction_ok. }
  assert (Hphi' : (forall phi, phi ∈ phis blk -> chk phi = Ok tt) <->
    forall phi s, phi ∈ phis blk -> s ∈ sources phi -> is_predecessor f (predecessor s) b).
  { split.
    - intros Hl phi s Hin Hs. specialize (Hl phi Hin). unfold chk in Hl. rewrite (proj1 (check_ok _ _ _)) in Hl.
      apply Hps. by apply (bool_decide_eq_true_1 _ (Hl s Hs)).
    - intros Hl phi Hin. unfold chk. apply check_ok. intros s Hs. apply bool_decide_eq_true, Hps. eauto. }
  assert (Hins' : (forall ii, ii ∈ enumerate (instructions blk) -> check_instruction b ii = Ok tt) <->
    forall i, i ∈ instructions blk ->
      (forall v r, (v, r) ∈ fixed_uses (constraints i) -> v ∈ uses i) /\
      (forall v r, (v, r) ∈ fixed_defs (constraints i) -> v ∈ defs i)).
  { split.
    - intros Hl i [k Hk]%list_elem_of_lookup. apply elem_of_enumerate in Hk.
      by apply (check_instruction_ok b (k, i)), Hl.
    - intros Hl [k i] Hk%elem_of_enumerate%list_elem_of_lookup_2. by apply check_instruction_ok, Hl. }
  rewrite <- Hphi', <- Hins', <- Hins.
  destruct (check_all chk (phis blk)) as [[]|e|]; [|split; [split|]; try done|done].
  - split; [|done]. split; [|by intros [_ ?]]. intros ?. split; [|done]. by apply Hphi.
  - intros [Hl _]. by apply Hphi in Hl.
Qed.

Definition preds_at (ps : list (list nat)) (b : nat) : list nat := default [] (ps !! b).

Lemma add_predecessors_spec n idx l ps :
  length ps = n ->
  match foldM (add_predecessor n idx) ps l with
  | Ok ps' => length ps' = n /\ (forall s, s ∈ l -> (s < n)%nat) /\
      forall b p, p ∈ preds_at ps' b <-> p ∈ preds_at ps b \/ (p = idx /\ b ∈ l)
  | Err _ => exists s, s ∈ l /\ (n <= s)%nat
  | Panic => False
  end.
Proof.
  revert ps. induction l as [|s l IH]; intros ps Hlen; cbn [foldM].
  { split_and!; [done| |]; [by intros s ?%not_elem_of_nil|]. intros b p. set_solver. }
  msimpl. unfold add_predecessor at 1. destruct (ps !! s) as [q|] eqn:Es.
  2:{ apply lookup_ge_None in Es. exists s. split; [set_solver|lia]. }
  pose proof (lookup_lt_Some _ _ _ Es) as Hlt.
  specialize (IH (<[s := q ++ [idx]]> ps)). rewrite length_insert in IH. specialize (IH Hlen).
  destruct (foldM _ _ _) as [ps'|e|]; [|destruct IH as (x & ? & ?); exists x; set_solver|done].
  destruct IH as (? & Hs & Hp). split_and!; [done|intros x [->|?]%elem_of_cons; [lia|auto]|].
  intros b p. rewrite Hp. unfold preds_at. destruct (decide (b = s)) as [->|Hne].
  - rewrite list_lookup_insert_eq, Es by done. simpl. set_solver.
  - rewrite list_lookup_insert_ne by done. set_solver.
Qed.

Lemma collect_predecessors_fold (f : facts) (l : list (nat * BlockAllocationFacts V R)) ps :
  length ps = length (blocks f) ->
  match foldM (fun predecessors ib => foldM (add_predecessor (length (blocks f)) ib.1) predecessors
                 (successors ib.2)) ps l with
  | Ok ps' => length ps' = length (blocks f) /\
      (forall i blk s, (i, blk) ∈ l -> s ∈ successors blk -> (s < length (blocks f))%nat) /\
      forall b p, p ∈ preds_at ps' b <->
        p ∈ preds_at ps b \/ exists blk, (p, blk) ∈ l /\ b ∈ successors blk
  | Err _ => exists i blk s, (i, blk) ∈ l /\ s ∈ successors blk /\ (length (blocks f) <= s)%nat
  | Panic => False
  end.
Proof.
  revert ps. induction l as [|[i blk] l IH]; intros ps Hlen; cbn [foldM].
  { split_and!; [done|by intros i blk s ?%not_elem_of_nil|]. intros b p. set_solver. }
  cbn [fst snd]. pose proof (add_predecessors_spec _ i (successors blk) ps Hlen) as Hadd. msimpl.
  destruct (foldM (add_predecessor _ _) _ _) as [ps1|e|]; [|destruct Hadd as (s & ? & ?); exists i, blk, s; set_solver|done].
  destruct Hadd as (Hlen1 & Hs1 & Hp1). specialize (IH ps1 Hlen1).
  destruct (foldM _ ps1 l) as [ps'|e|]; [|destruct IH as (x & y & s & ? & ?); exists x, y, s; set_solver|done].
  destruct IH as (? & Hs & Hp). split_and!; [done| |].
  - intros x y s [[= -> ->]|?]%elem_of_cons; [apply Hs1|by eapply Hs].
  - intros b p. rewrite Hp, Hp1. setoid_rewrite elem_of_cons. naive_solver.
Qed.

Lemma collect_predecessors_spec (f : facts) :
  match collect_predecessors f with
  | Ok ps => length ps = length (blocks f) /\
      (forall p blk s, blocks f !! p = Some blk -> s ∈ successors blk -> (s < length (blocks f))%nat) /\
      forall b p, is_predecessor f p b <-> p ∈ preds_at ps b
  | Err _ => exists p blk s, blocks f !! p = Some blk /\ s ∈ successors blk /\ (length (blocks f) <= s)%nat
  | Panic => False
  end.
Proof.
  unfold collect_predecessors.
  pose proof (collect_predecessors_fold f (enumerate (blocks f)) (replicate (length (blocks f)) [])
    (length_replicate _ _)) as Hc.
  destruct (foldM _ _ _) as [ps|e|]; [|setoid_rewrite elem_of_enumerate in Hc; done|done].
  destruct Hc as (? & Hs & Hp). setoid_rewrite elem_of_enumerate in Hs. split_and!; [done..|].
  intros b p. rewrite Hp. setoid_rewrite elem_of_enumerate.
  assert (preds_at (replicate (length (blocks f)) []) b = []) as ->.
  { unfold preds_at. destruct (replicate _ _ !! b) eqn:E; [|done]. by apply lookup_replicate in E as [-> _]. }
  unfold is_predecessor. set_solver.
Qed.

Lemma verify_spec (f : facts) : (verify f = Ok tt <-> well_shaped f) /\ verify f <> Panic.
Proof.
  unfold verify. case_decide as He.
  { split; [|done]. split; [done|]. intros [? _ _ _]. lia. }
  pose proof (collect_predecessors_spec f) as Hc. msimpl.
  destruct (collect_predecessors f) as [ps|e|]; [|split; [split|]; try done|done].
  2:{ intros [_ Hs _ _]. destruct Hc as (p & blk & s & Hp & Hin & Hge). specialize (Hs p blk s Hp Hin). lia. }
  destruct Hc as (Hlen & Hsucc & Hpred).
  assert (Hblk : forall b blk, blocks f !! b = Some blk -> _)
    by (intros b blk Hb; exact (check_block_ok f ps b blk Hlen Hb (Hpred b))).
  destruct (check_all_ok (check_block ps) (enumerate (blocks f))) as [Hok Hnp].
  { intros [b blk] Hb%elem_of_enumerate. by apply (Hblk b blk Hb). }
  split; [|done]. rewrite Hok. split.
  - intros Hl. assert (Hl' : forall b blk, blocks f !! b = Some blk -> check_block ps (b, blk) = Ok tt)
      by (intros b blk Hb; by apply Hl, elem_of_enumerate).
    split; [lia|done|..].
    + intros b blk phi s Hb. by apply (Hblk b blk Hb), Hl'.
    + intros b blk i Hb. apply (proj1 (Hblk b blk Hb)). by apply Hl'.
  - intros [_ _ Hphi Hfix] [b blk] Hb%elem_of_enumerate. apply (Hblk b blk Hb). split.
    + intros phi s. by eapply Hphi.
    + intros i. by eapply Hfix.
Qed.

(** [FunctionAllocationFacts::verify] accepts exactly the well-shaped
    facts: the entry and all successors are blocks, every phi source comes
    from a predecessor of its block, and every fixed operand is an operand of
    its instruction. It never panics. *)
Lemma verify_decides (f : facts) : (verify f = Ok tt <-> well_shaped f) /\ verify f <> Panic.
Proof. apply verify_spec. Qed.
End facts.

(** ** Linear scan *)

Section linear_scan.
Context {V R : Type} `{Countable V} `{!Ord V} `{MachineRegister R}.

(** An inclusive live range. *)
Record LiveRange : Type := LR { value : V; start : Z; end_ : Z }.

Inductive LinearScanError : Type :=
  | EmptyRegisterFile
  | DuplicateValue (v : V)
  | InvalidRange (range : LiveRange)
  | RegisterPressure (value : V) (point : Z).

(** [Allocation]: the register of each value. *)
Abbreviation Allocation := (gmap V R).
Definition get (a : Allocation) (v : V) : option R := a !! v.

Definition range_key (r : LiveRange) : Z * (Z * V) := (start r, (end_ r, value r)).

(** The validation loop over the sorted ranges. *)
Fixpoint check_ranges (seen : gset V) (ordered : list LiveRange) : result LinearScanError unit :=
  match ordered with
  | [] => Ok tt
  | range :: rest =>
      if decide (start range > end_ range) then Err (InvalidRange range) else
      if decide (value range ∈ seen) then Err (DuplicateValue (value range))
      else check_ranges ({[value range]} ∪ seen) rest
  end.

(** [active] entries: end, value, register. *)
Abbreviation active_entry := (Z * (V * R))%type.
Definition active_key (a : active_entry) : Z * (V * Z) := (a.1, (a.2.1, index a.2.2)).

(** The body of the allocation loop. *)
Definition scan_step (allocatable : list R) (st : list active_entry * Allocation) (range : LiveRange)
    : result LinearScanError (list active_entry * Allocation) :=
  let '(active, assignments) := st in
  let active := filter (fun a => a.1 >= start range) active in
  match list_find (fun candidate => Forall (fun a : active_entry => a.2.2 <> candidate) active) allocatable with
  | None => Err (RegisterPressure (value range) (start range))
  | Some (_, register) =>
      Ok (sort_by_key active_key (active ++ [(end_ range, (value range, register))]),
          <[value range := register]> assignments)
  end.

Definition allocate_linear_scan (ranges : list LiveRange) (allocatable : list R)
    : result LinearScanError Allocation :=
  if decide (allocatable = []) then Err EmptyRegisterFile else
  let ordered := sort_by_key range_key ranges in
  _ ← check_ranges ∅ ordered;
  st ← foldM (scan_step allocatable) ([], ∅) ordered;
  Ok st.2.

(** ** The scan invariant *)

(** Inclusive ranges share a point. *)
Definition ranges_overlap (a b : LiveRange) : Prop := start a <= end_ b /\ start b <= end_ a.

Record inv (allocatable : list R) (placed : list LiveRange) (now : Z)
    (st : list active_entry * Allocation) : Prop := {
  i_assigned r : r ∈ placed -> exists reg, st.2 !! value r = Some reg /\ reg ∈ allocatable;
  i_live r reg : r ∈ placed -> now <= end_ r -> st.2 !! value r = Some reg ->
    (end_ r, (value r, reg)) ∈ st.1;
  i_active e v reg : (e, (v, reg)) ∈ st.1 ->
    exists r, r ∈ placed /\ end_ r = e /\ value r = v /\ st.2 !! v = Some reg;
  i_nodup : NoDup ((fun a => a.2.2) <$> st.1);
  i_apart a b reg : a ∈ placed -> b ∈ placed -> value a <> value b -> ranges_overlap a b ->
    st.2 !! value a = Some reg -> st.2 !! value b = Some reg -> False }.

Lemma free_register (allocatable : list R) (active : list active_entry) :
  list_find (fun candidate => Forall (fun a : active_entry => a.2.2 <> candidate) active) allocatable = None ->
  forall r, r ∈ allocatable -> r ∈ (fun a : active_entry => a.2.2) <$> active.
Proof.
  intros Hn%list_find_None r Hr. rewrite Forall_forall in Hn. specialize (Hn r Hr).
  destruct (decide (r ∈ (fun a : active_entry => a.2.2) <$> active)) as [|Hni]; [done|].
  destruct Hn. apply Forall_forall. intros a Ha Heq. apply Hni, list_elem_of_fmap. eauto.
Qed.

(** The placed ranges behind the active entries. *)
Lemma explain_registers (P : LiveRange -> R -> Prop) (active : list active_entry) :
  (forall a, a ∈ active -> exists x, P x a.2.2) ->
  exists regs : list (LiveRange * R), regs.*2 = (fun a : active_entry => a.2.2) <$> active /\
    forall x reg, (x, reg) ∈ regs -> P x reg.
Proof.
  induction active as [|a active IH]; intros Hex.
  { exists []. split; [done|]. by intros x reg ?%not_elem_of_nil. }
  destruct IH as (regs & Hregs & Hp); [intros; apply Hex; set_solver|].
  destruct (Hex a) as [x Hx]; [set_solver|]. exists ((x, a.2.2) :: regs). csimpl. rewrite Hregs.
  split; [done|]. intros y reg [[= -> ->]|?]%elem_of_cons; auto.
Qed.

Lemma scan_step_spec allocatable placed now st r :
  inv allocatable placed now st -> now <= start r ->
  (forall x, x ∈ placed -> start x <= start r) -> value r ∉ value <$> placed ->
  match scan_step allocatable st r with
  | Ok st' => inv allocatable (placed ++ [r]) (start r) st'
  | Err (RegisterPressure v p) => v = value r /\ p = start r /\
      exists regs, NoDup (snd <$> regs) /\ (forall reg, reg ∈ allocatable -> reg ∈ snd <$> regs) /\
        forall x reg, (x, reg) ∈ regs -> x ∈ placed /\ start x <= p <= end_ x /\ st.2 !! value x = Some reg
  | _ => False
  end.
Proof.
  destruct st as [active assigned]. intros Hinv Hnow Hstarts Hnew. unfold scan_step.
  set (kept := filter (fun a => a.1 >= start r) active).
  assert (Hkept : forall a, a ∈ kept <-> a ∈ active /\ start r <= a.1).
  { intros a. unfold kept. rewrite list_elem_of_filter. rewrite Z.ge_le_iff. tauto. }
  assert (Hnd : NoDup ((fun a : active_entry => a.2.2) <$> kept)).
  { apply NoDup_fmap_filter, (i_nodup _ _ _ _ Hinv). }
  destruct (list_find _ _) as [[k reg]|] eqn:Ef.
  - apply list_find_Some in Ef as (Hreg%list_elem_of_lookup_2 & Hfree & _).
    rewrite Forall_forall in Hfree.
    assert (Hkeep : forall x, x ∈ placed -> (<[value r := reg]> assigned) !! value x = assigned !! value x).
    { intros x Hx. apply lookup_insert_ne. intros Heq. apply Hnew, list_elem_of_fmap. eauto. }
    assert (Hclash : forall x, x ∈ placed -> start r <= end_ x -> assigned !! value x <> Some reg).
    { intros x Hx Hle Hs. apply (Hfree (end_ x, (value x, reg))); [|done]. apply Hkept. split; [|done].
      apply (i_live _ _ _ _ Hinv); [done|lia|done]. }
    split; cbn [fst snd].
    + intros x [Hx| ->%list_elem_of_singleton]%elem_of_app; [|exists reg; by rewrite lookup_insert_eq].
      rewrite Hkeep by done. by apply (i_assigned _ _ _ _ Hinv).
    + intros x reg' [Hx| ->%list_elem_of_singleton]%elem_of_app Hle; rewrite elem_of_sort_by_key, elem_of_app.
      * rewrite Hkeep by done. intros Hs. left. apply Hkept. split; [|simpl; lia].
        apply (i_live _ _ _ _ Hinv); [done|lia|done].
      * rewrite lookup_insert_eq. intros [= <-]. right. set_solver.
    + intros e v reg' Hin. rewrite elem_of_sort_by_key in Hin.
      apply elem_of_app in Hin as [[Hin _]%Hkept|[= -> -> ->]%list_elem_of_singleton].
      * destruct (i_active _ _ _ _ Hinv _ _ _ Hin) as (x & Hx & ? & <- & ?).
        exists x. rewrite Hkeep by done. set_solver.
      * exists r. rewrite lookup_insert_eq. set_solver.
    + rewrite sort_by_key_permutation, fmap_app. apply NoDup_app. split_and!; [done| |apply NoDup_singleton].
      intros x (a & -> & Ha)%list_elem_of_fmap Hx%list_elem_of_singleton. by apply (Hfree a).
    + intros a b reg' [Ha|Ha%list_elem_of_singleton]%elem_of_app [Hb|Hb%list_elem_of_singleton]%elem_of_app Hne [? ?].
      * rewrite !Hkeep by done. by apply (i_apart _ _ _ _ Hinv).
      * subst b. rewrite Hkeep, lookup_insert_eq by done. intros Hs [= <-]. by apply (Hclash a).
      * subst a. rewrite lookup_insert_eq, Hkeep by done. intros [= <-] Hs. by apply (Hclash b).
      * congruence.
  - split_and!; [done..|]. pose proof (free_register _ _ Ef) as Hall.
    assert (Hex : forall a, a ∈ kept -> exists x, x ∈ placed /\ start x <= start r <= end_ x /\
      assigned !! value x = Some a.2.2).
    { intros [e [v reg]] [Ha Hle]%Hkept.
      destruct (i_active _ _ _ _ Hinv _ _ _ Ha) as (x & Hx & <- & <- & Hs). simpl in *.
      exists x. split_and!; try done. by apply Hstarts. }
    destruct (explain_registers (fun x reg => x ∈ placed /\ start x <= start r <= end_ x /\
      assigned !! value x = Some reg) kept) as (regs & Hregs & Hp); [done|].
    exists regs. rewrite Hregs. done.
Qed.

Lemma check_ranges_spec seen (l : list LiveRange) :
  match check_ranges seen l with
  | Ok _ => Forall (fun r => start r <= end_ r) l /\ NoDup (value <$> l) /\
      forall r, r ∈ l -> value r ∉ seen
  | Err (DuplicateValue v) => v ∈ value <$> l /\ (v ∈ seen \/ ~ NoDup (value <$> l))
  | Err (InvalidRange r) => r ∈ l /\ end_ r < start r
  | _ => False
  end.
Proof.
  revert seen. induction l as [|r l IH]; intros seen; cbn [check_ranges].
  { split_and!; [constructor..|]. by intros r ?%not_elem_of_nil. }
  case_decide; [set_solver by lia|]. case_decide as Hseen; [csimpl; set_solver|].
  specialize (IH ({[value r]} ∪ seen)). destruct (check_ranges _ l) as [[]|[|v|r'|]|]; try done.
  - destruct IH as (? & Hnd & Hf). split_and!.
    + constructor; [lia|done].
    + csimpl. constructor; [|done]. intros (x & Hx & Hin)%list_elem_of_fmap.
      apply (Hf x Hin). set_solver.
    + intros x [->|Hx]%elem_of_cons; [done|]. specialize (Hf x Hx). set_solver.
  - destruct IH as [Hin IH]. csimpl. split; [set_solver|].
    destruct (decide (v ∈ seen)) as [|Hv]; [by left|right]. intros [Hi Hnd]%NoDup_cons.
    destruct IH as [IH|IH]; [|done]. set_solver.
  - set_solver.
Qed.

(** What the scan knows when it runs out of registers. *)
Definition pressure (allocatable : list R) (ranges : list LiveRange) (v : V) (p : Z) : Prop :=
  exists live, NoDup (value <$> live) /\ v ∈ value <$> live /\
    (forall r, r ∈ live -> r ∈ ranges /\ start r <= p <= end_ r) /\
    (NoDup allocatable -> length allocatable < length live)%nat.

Lemma scan_spec allocatable rest placed now st :
  inv allocatable placed now st -> StronglySorted (key_le range_key) rest ->
  (forall x y, x ∈ placed -> y ∈ rest -> start x <= start y) ->
  (forall y, y ∈ rest -> now <= start y <= end_ y) -> NoDup (value <$> placed ++ rest) ->
  match foldM (scan_step allocatable) st rest with
  | Ok st' => exists now', inv allocatable (placed ++ rest) now' st'
  | Err (RegisterPressure v p) => pressure allocatable (placed ++ rest) v p
  | _ => False
  end.
Proof.
  revert placed now st. induction rest as [|r rest IH]; intros placed now st Hinv Hs Hpr Hnow Hnd.
  { exists now. by rewrite app_nil_r. }
  apply StronglySorted_inv in Hs as [Hs Hall]. rewrite Forall_forall in Hall.
  assert (Hfresh : value r ∉ value <$> placed).
  { rewrite fmap_app in Hnd. apply NoDup_app in Hnd as (_ & Hd & _). intros Hin%Hd. csimpl in Hin. set_solver. }
  destruct (Hnow r) as [Hnr Hrr]; [set_solver|].
  pose proof (scan_step_spec allocatable placed now st r Hinv Hnr) as Hstep.
  specialize (Hstep ltac:(set_solver) Hfresh). cbn [foldM]. msimpl.
  destruct (scan_step allocatable st r) as [st1|[| | |v p]|]; try done.
  - assert (Hstarts : forall y, y ∈ rest -> start r <= start y).
    { intros y Hy. apply (fst_le _ _ (Hall y Hy)). }
    specialize (IH (placed ++ [r]) (start r) st1 Hstep Hs). rewrite <- app_assoc in IH. apply IH; [..|done].
    + intros x y [Hx| ->%list_elem_of_singleton]%elem_of_app Hy; [set_solver|by apply Hstarts].
    + intros y Hy. split; [by apply Hstarts|]. apply Hnow. set_solver.
  - destruct Hstep as (-> & -> & regs & Hnd' & Hcov & Hlive). exists (r :: regs.*1).
    assert (Hvals : NoDup (value <$> regs.*1)).
    { clear Hcov. induction regs as [|[x reg] regs IHr]; csimpl in *; [constructor|].
      apply NoDup_cons in Hnd' as [Hreg Hnd']. constructor; [|apply IHr; [done|]; intros; apply Hlive; set_solver].
      intros (y & Hy & ([y' reg'] & -> & Hin)%list_elem_of_fmap)%list_elem_of_fmap. simpl in *.
      destruct (Hlive x reg) as (_ & _ & Hx); [set_solver|].
      destruct (Hlive y' reg') as (_ & _ & Hy'); [set_solver|].
      apply Hreg, list_elem_of_fmap. exists (y', reg'). split; [simpl; congruence|done]. }
    assert (Hplaced : forall x, x ∈ regs.*1 -> x ∈ placed /\ start x <= start r <= end_ x).
    { intros x ([y reg] & -> & Hin)%list_elem_of_fmap. destruct (Hlive y reg Hin) as (? & ? & _). done. }
    split_and!.
    + csimpl. constructor; [|done]. intros (x & Hx & [Hin _]%Hplaced)%list_elem_of_fmap.
      apply Hfresh, list_elem_of_fmap. eauto.
    + csimpl. set_solver.
    + intros x [->|[? ?]%Hplaced]%elem_of_cons; [|set_solver]. split; [set_solver|lia].
    + intros Ha. simpl. rewrite length_fmap.
      assert (length allocatable <= length (snd <$> regs))%nat as Hle; [|rewrite length_fmap in Hle; lia].
      apply submseteq_length, NoDup_submseteq; done.
Qed.

Lemma scan_inv_start allocatable now : inv allocatable [] now ([], ∅).
Proof.
  split; cbn [fst snd].
  - by intros r ?%not_elem_of_nil.
  - by intros r reg ?%not_elem_of_nil.
  - by intros e v reg ?%not_elem_of_nil.
  - constructor.
  - by intros a b reg ?%not_elem_of_nil.
Qed.

Lemma allocate_linear_scan_spec (ranges : list LiveRange) allocatable :
  match allocate_linear_scan ranges allocatable with
  | Ok a => exists placed now act, placed ≡ₚ ranges /\ inv allocatable placed now (act, a)
  | Err EmptyRegisterFile => allocatable = []
  | Err (DuplicateValue v) => v ∈ value <$> ranges /\ ~ NoDup (value <$> ranges)
  | Err (InvalidRange r) => r ∈ ranges /\ end_ r < start r
  | Err (RegisterPressure v p) => pressure allocatable ranges v p
  | Panic => False
  end.
Proof.
  unfold allocate_linear_scan. case_decide; [done|].
  pose proof (check_ranges_spec ∅ (sort_by_key range_key ranges)) as Hc. msimpl.
  destruct (check_ranges _ _) as [[]|[|v|r|]|]; try done.
  2:{ rewrite sort_by_key_permutation in Hc. set_solver. }
  2:{ by rewrite elem_of_sort_by_key in Hc. }
  destruct Hc as (Hv & Hnd & _). rewrite Forall_forall in Hv.
  pose proof (sort_by_key_sorted range_key ranges) as Hs.
  assert (exists now, forall y, y ∈ sort_by_key range_key ranges -> now <= start y) as [now Hnow].
  { destruct Hs as [|r l Hs Hall]; [exists 0; by intros y ?%not_elem_of_nil|].
    exists (start r). rewrite Forall_forall in Hall. intros y [->|Hy]%elem_of_cons; [lia|].
    apply (fst_le _ _ (Hall y Hy)). }
  pose proof (scan_spec allocatable (sort_by_key range_key ranges) [] now ([], ∅)
    (scan_inv_start allocatable now) Hs) as Hscan.
  specialize (Hscan ltac:(by intros x y ?%not_elem_of_nil)
    ltac:(intros y Hy; split; [by apply Hnow|by apply Hv]) Hnd). simpl in Hscan.
  destruct (foldM _ _ _) as [[act a]|[| | |v p]|]; try done.
  - destruct Hscan as [now' Hinv]. exists (sort_by_key range_key ranges), now', act.
    split; [apply sort_by_key_permutation|done].
  - destruct Hscan as (live & ? & ? & Hl & ?). exists live. split_and!; try done.
    intros r [? ?]%Hl. by rewrite elem_of_sort_by_key in *.
Qed.

(** C17: a linear-scan allocation is valid: every range has an allocatable
    register, and two distinct values whose inclusive ranges share a point
    never share a register. *)
Theorem allocate_linear_scan_sound (ranges : list LiveRange) (allocatable : list R) (a : Allocation)
    (Ha : allocate_linear_scan ranges allocatable = Ok a) :
  (forall r, r ∈ ranges -> exists reg, get a (value r) = Some reg /\ reg ∈ allocatable) /\
  (forall r r', r ∈ ranges -> r' ∈ ranges -> value r <> value r' -> ranges_overlap r r' ->
     get a (value r) <> get a (value r')).
Proof.
  pose proof (allocate_linear_scan_spec ranges allocatable) as Hs. rewrite Ha in Hs.
  destruct Hs as (placed & now & act & Hp & Hinv). unfold get. setoid_rewrite <- Hp. split.
  - apply (i_assigned _ _ _ _ Hinv).
  - intros r r' Hr Hr' Hne Hov Heq. destruct (i_assigned _ _ _ _ Hinv r Hr) as (reg & Hreg & _).
    apply (i_apart _ _ _ _ Hinv r r' reg); try done. simpl in *. congruence.
Qed.

(** Linear scan fails only for a reason: with a register file of
    distinct registers and valid ranges of distinct values it succeeds, or
    reports [RegisterPressure] at a point where strictly more values are live
    than there are registers, the reported one among them. *)
Lemma allocate_linear_scan_pressure (ranges : list LiveRange) (allocatable : list R)
    (Hne : allocatable <> []) (Hregs : NoDup allocatable) (Hnd : NoDup (value <$> ranges))
    (Hv : forall r, r ∈ ranges -> start r <= end_ r) :
  match allocate_linear_scan ranges allocatable with
  | Ok _ => True
  | Err (RegisterPressure v p) => exists live, NoDup (value <$> live) /\ v ∈ value <$> live /\
      (forall r, r ∈ live -> r ∈ ranges /\ start r <= p <= end_ r) /\
      (length allocatable < length live)%nat
  | _ => False
  end.
Proof.
  pose proof (allocate_linear_scan_spec ranges allocatable) as Hs.
  destruct (allocate_linear_scan ranges allocatable) as [a|[|v|r|v p]|]; try done.
  - by destruct Hs.
  - destruct Hs as [Hr ?]. specialize (Hv r Hr). lia.
  - destruct Hs as (live & ? & ? & ? & ?). exists live. auto.
Qed.
End linear_scan.

(** ** Concrete inputs *)

(** Thirty-two registers, as AArch64 numbers them. *)
Record Reg : Type := MkReg { reg_index : Z; reg_ok : bool_decide (0 <= reg_index < 64) = true }.

#[global] Instance Reg_eq_dec : EqDecision Reg.
Proof.
  intros [i Hi] [j Hj]. destruct (decide (i = j)) as [->|]; [left|right; congruence].
  f_equal. apply (Eqdep_dec.UIP_dec Bool.bool_dec).
Defined.
#[global] Instance Reg_register : MachineRegister Reg := {| index := reg_index |}.
#[global] Instance Reg_laws : MachineRegisterLaws Reg.
Proof.
  split.
  - intros [i Hi]. exact (bool_decide_eq_true_1 _ Hi).
  - intros [i Hi] [j Hj]; simpl. intros ->. f_equal. apply (Eqdep_dec.UIP_dec Bool.bool_dec).
Qed.

Definition x (i : Z) (H : bool_decide (0 <= i < 64) = true) : Reg := MkReg i H.

Definition sample_ranges : list (@LiveRange Z) := [LR 0 0 4; LR 1 1 3; LR 2 4 6; LR 3 5 9].
Definition two_registers : list Reg := [x 0 eq_refl; x 1 eq_refl].

Example sample_allocation :
  (a ← allocate_linear_scan sample_ranges two_registers; Ok ((fun v => index <$> get a v) <$> [0; 1; 2; 3])) =
  Ok [Some 0; Some 1; Some 1; Some 0].
Proof. vm_compute. reflexivity. Qed.

Lemma allocate_linear_scan_sound_witness :
  exists a, allocate_linear_scan sample_ranges two_registers = Ok a /\
  (forall r, r ∈ sample_ranges -> exists reg, get a (value r) = Some reg /\ reg ∈ two_registers) /\
  (forall r r', r ∈ sample_ranges -> r' ∈ sample_ranges -> value r <> value r' -> ranges_overlap r r' ->
     get a (value r) <> get a (value r')).
Proof.
  destruct (allocate_linear_scan sample_ranges two_registers) as [a| |] eqn:E;
    [|vm_compute in E; discriminate..].
  exists a. split; [reflexivity|].
  exact (allocate_linear_scan_sound sample_ranges two_registers a E).
Defined.

