(* ===== verification/Graph.v ===== *)
(** * Graph: dense control-flow graphs and depth-first postorder

    A control-flow graph is a list of successor rows indexed by block number.
    This file holds paths and dominance over such graphs, and the iterative
    depth-first search that [compute_dominators] of
    [regalloc/live_interval.rs] runs, with the facts its users need: every
    reachable block is finished once, and the block that discovered another
    is finished after it. *)

From S2P Require Import Prelude.

Abbreviation graph := (list (list nat)).

Definition edge (g : graph) (a b : nat) : Prop := exists row, g !! a = Some row /\ b ∈ row.

(** [l] is the blocks of a walk from [a] to [b], both included. *)
Inductive path (g : graph) : nat -> list nat -> nat -> Prop :=
  | path_one a : path g a [a] a
  | path_step a b c l : edge g a b -> path g b l c -> path g a (a :: l) c.

Definition reachable (g : graph) (a b : nat) : Prop := exists l, path g a l b.

(** [d] is on every path from [entry] to [b]. *)
Definition dominates_spec (g : graph) (entry d b : nat) : Prop :=
  forall l, path g entry l b -> d ∈ l.

(** Every successor is a block. *)
Definition closed (g : graph) : Prop := forall a b, edge g a b -> (b < length g)%nat.

Lemma path_app g a b c l1 l2 : path g a l1 b -> path g b (b :: l2) c -> path g a (l1 ++ l2) c.
Proof.
  induction 1 as [|a x b l1 He Hp IH]; intros H2; [done|]. simpl. econstructor; [done|]. auto.
Qed.

Lemma path_head g a l b : path g a l b -> exists l', l = a :: l'.
Proof. destruct 1; eauto. Qed.

Lemma path_trans g a b c l1 l2 :
  path g a l1 b -> path g b l2 c -> exists l, path g a l c /\ forall x, x ∈ l <-> x ∈ l1 \/ x ∈ l2.
Proof.
  intros H1 H2. destruct (path_head _ _ _ _ H2) as [l2' ->]. exists (l1 ++ l2').
  split; [by eapply path_app|]. intros x. rewrite elem_of_app, elem_of_cons. split; [naive_solver|].
  intros [?|[->|?]]; [tauto| |tauto]. left. clear -H1. induction H1; set_solver.
Qed.

Lemma path_end g a l b : path g a l b -> b ∈ l.
Proof. induction 1; set_solver. Qed.
Lemma path_start g a l b : path g a l b -> a ∈ l.
Proof. destruct 1; set_solver. Qed.

Lemma path_snoc g a b c l : path g a l b -> edge g b c -> path g a (l ++ [c]) c.
Proof. intros Hp He. eapply path_app; [done|]. econstructor; [done|constructor]. Qed.

(** A walk splits at each of its blocks. *)
Lemma path_split g a l1 x l2 b : path g a (l1 ++ x :: l2) b -> path g a (l1 ++ [x]) x /\ path g x (x :: l2) b.
Proof.
  revert a. induction l1 as [|y l1 IH]; intros a Hp; cbn in *.
  - destruct (path_head _ _ _ _ Hp) as [l' [= ->]]. split; [constructor|done].
  - inversion Hp as [|? z ? ? He Hp']; subst; [by destruct l1|]. destruct (IH z Hp') as [H1 H2].
    split; [|done]. by econstructor.
Qed.

(** The last step of a walk. *)
Lemma path_inv_end g a l c :
  path g a l c -> (a = c /\ l = [a]) \/ exists b l', path g a l' b /\ edge g b c /\ l = l' ++ [c].
Proof.
  induction 1 as [a|a b c l He Hp IH]; [by left|]. right.
  destruct IH as [[-> ->]|(x & l' & Hp' & He' & ->)].
  - exists a, [a]. split_and!; [constructor|done|done].
  - exists x, (a :: l'). split_and!; [by econstructor|done|done].
Qed.

Lemma reachable_refl g a : reachable g a a.
Proof. eexists. constructor. Qed.
Lemma reachable_snoc g a b c : reachable g a b -> edge g b c -> reachable g a c.
Proof. intros [l Hp] He. eexists. by eapply path_snoc. Qed.

Lemma reachable_trans g a b c : reachable g a b -> reachable g b c -> reachable g a c.
Proof. intros [l1 H1] [l2 H2]. destruct (path_trans _ _ _ _ _ _ H1 H2) as (l & Hl & _). by exists l. Qed.

Lemma reachable_lt g a b : closed g -> (a < length g)%nat -> reachable g a b -> (b < length g)%nat.
Proof. intros Hc Ha [l Hp]. induction Hp as [|a x b l He Hp IH]; [done|]. by apply IH, (Hc a). Qed.

Lemma closed_rows g : Forall (Forall (fun b => (b < length g)%nat)) g -> closed g.
Proof. intros Hg a b (row & Hrow & Hb). eapply Forall_lookup_1 in Hg; [|done]. rewrite Forall_forall in Hg. auto. Qed.

(** Predecessor rows that hold each edge. *)
Definition reverses (g p : graph) : Prop :=
  length p = length g /\ forall a b, edge p b a <-> edge g a b.

(** ** Parent links *)

(** [d] is on the chain of immediate dominators that starts at [x]. *)
Inductive above (t : list (option nat)) (d : nat) : nat -> Prop :=
  | above_refl : above t d d
  | above_parent x y : t !! x = Some (Some y) -> above t d y -> above t d x.
#[export] Hint Constructors above : core.

Lemma above_trans t a b c : above t a b -> above t b c -> above t a c.
Proof. intros Hab Hbc. induction Hbc; eauto. Qed.

(** Two members of a chain are comparable. *)
Lemma above_linear t a b x : above t a x -> above t b x -> above t a b \/ above t b a.
Proof.
  intros Ha. revert b. induction Ha as [|x y Hx Ha IH]; intros b Hb; [by right|].
  inversion Hb as [|? y' Hx' Hb']; subst; [by left; eauto|]. simplify_eq. by apply IH.
Qed.

(** ** Depth-first search *)

Record dfs_state : Type := DFS {
  discovered : list bool;
  postorder : list nat;
  dfs_stack : list (nat * nat) }.

(** One turn of [while let Some((block, next_successor)) = stack.last_mut()];
    the head of [dfs_stack] is the top of the stack. *)
Definition dfs_step {E} (g : graph) (st : dfs_state) (block next_successor : nat) (rest : list (nat * nat))
    : result E dfs_state :=
  row ← expect (g !! block);
  if decide (next_successor = length row) then
    Ok (DFS (discovered st) (postorder st ++ [block]) rest)
  else
    successor ← expect (row !! next_successor);
    seen ← expect (discovered st !! successor);
    if (seen : bool) then Ok (DFS (discovered st) (postorder st) ((block, S next_successor) :: rest))
    else
      Ok (DFS (<[successor := true]> (discovered st)) (postorder st)
            ((successor, 0%nat) :: (block, S next_successor) :: rest)).

Fixpoint dfs_loop {E} (fuel : nat) (g : graph) (st : dfs_state) : result E dfs_state :=
  match dfs_stack st with
  | [] => Ok st
  | (block, next_successor) :: rest =>
      match fuel with
      | O => Panic
      | S fuel => st ← dfs_step g st block next_successor rest; dfs_loop fuel g st
      end
  end.

(** Every turn of the loop finishes a block or moves past an edge. *)
Definition dfs_fuel (g : graph) : nat := (length g + length (concat g))%nat.

Definition dfs {E} (g : graph) (entry : nat) : result E dfs_state :=
  discovered ← vset entry true (replicate (length g) false);
  dfs_loop (dfs_fuel g) g (DFS discovered [] [(entry, 0%nat)]).

(** ** What the search finds *)

(** [x] occurs before [y]. *)
Definition before {A} (x y : A) (l : list A) : Prop := exists l1 l2, l = l1 ++ x :: l2 /\ y ∈ l2.

Lemma before_insert {A} (x y z : A) l1 l2 : before x y (l1 ++ l2) -> before x y (l1 ++ z :: l2).
Proof.
  intros (k1 & k2 & Heq & Hy). apply app_eq_inv in Heq as [(m & -> & Heq)|(m & -> & ->)].
  - destruct m as [|x' m]; simplify_eq/=.
    + exists (k1 ++ [z]), k2. by rewrite app_nil_r, <- app_assoc.
    + exists k1, (m ++ z :: l2). rewrite <- app_assoc. split; [done|]. set_solver.
  - exists (l1 ++ z :: m), k2. by rewrite <- app_assoc.
Qed.

Lemma before_lookup {A} (x y : A) l :
  before x y l -> exists i j, (i < j)%nat /\ l !! i = Some x /\ l !! j = Some y.
Proof.
  intros (l1 & l2 & -> & [k Hk]%list_elem_of_lookup). exists (length l1), (length l1 + S k)%nat.
  split; [lia|]. rewrite list_lookup_middle by done. split; [done|].
  rewrite lookup_app_r by lia. by replace (length l1 + S k - length l1)%nat with (S k) by lia.
Qed.

Lemma before_reverse {A} (x y : A) l : before x y l -> before y x (rev l).
Proof.
  intros (l1 & l2 & -> & (m1 & m2 & ->)%list_elem_of_split). exists (rev m2), (rev m1 ++ x :: rev l1).
  split; [|set_solver]. rewrite rev_app_distr. simpl. rewrite rev_app_distr. simpl.
  by rewrite <- !app_assoc.
Qed.

(** Turns left: the edges and the finishing turn of every block that is not
    finished. *)
Definition row_weight (seen : bool) (row : list nat) : nat := if seen then 0%nat else S (length row).

Lemma sum_list_insert (l : list bool) (rows : graph) s row :
  l !! s = Some false -> rows !! s = Some row ->
  sum_list (zip_with row_weight l rows) =
  (sum_list (zip_with row_weight (<[s := true]> l) rows) + S (length row))%nat.
Proof.
  revert l rows. induction s as [|s IH]; intros [|b l] [|r rows]; simpl; try done.
  - intros [= ->] [= ->]. unfold row_weight. lia.
  - intros Hl Hr. rewrite (IH _ _ Hl Hr). lia.
Qed.

Lemma initial_weight (rows : graph) :
  sum_list (zip_with row_weight (replicate (length rows) false) rows) = dfs_fuel rows.
Proof.
  unfold dfs_fuel. induction rows as [|r rows IH]; [done|]. cbn. rewrite IH, length_app. lia.
Qed.

Section dfs_facts.
Context (g : graph) (entry : nat) (Hclosed : closed g) (Hentry : (entry < length g)%nat).

(** The order in which the blocks found so far finish. *)
Definition finish_order (st : dfs_state) : list nat := postorder st ++ (dfs_stack st).*1.

Record dfs_inv (st : dfs_state) : Prop := {
  di_length : length (discovered st) = length g;
  di_discovered b : discovered st !! b = Some true <-> b ∈ finish_order st;
  di_nodup : NoDup (finish_order st);
  di_reachable b : b ∈ finish_order st -> reachable g entry b;
  di_entry : last (finish_order st) = Some entry;
  di_finished b s : b ∈ postorder st -> edge g b s -> s ∈ finish_order st;
  di_visited b k row s j : (b, k) ∈ dfs_stack st -> g !! b = Some row -> (j < k)%nat ->
    row !! j = Some s -> s ∈ finish_order st;
  di_cursor b k row : (b, k) ∈ dfs_stack st -> g !! b = Some row -> (k <= length row)%nat;
  di_parent b : b ∈ finish_order st -> b <> entry ->
    exists p, edge g p b /\ before b p (finish_order st) }.

Definition dfs_measure (st : dfs_state) : nat :=
  (sum_list (zip_with row_weight (discovered st) g) +
   sum_list ((fun bk : nat * nat => S (length (default [] (g !! bk.1))) - bk.2)%nat <$> dfs_stack st))%nat.

Lemma finish_order_length st : dfs_inv st -> forall b, b ∈ finish_order st -> (b < length g)%nat.
Proof. intros Hi b Hb%(di_reachable _ Hi). by eapply reachable_lt. Qed.

Lemma dfs_step_spec {E} st block k rest :
  dfs_inv st -> dfs_stack st = (block, k) :: rest ->
  exists st', dfs_step g st block k rest = Ok st' :> result E _ /\ dfs_inv st' /\ dfs_measure st = S (dfs_measure st').
Proof.
  intros Hi Hst. destruct st as [disc post stack]. simpl in Hst. subst stack.
  assert (Hb : block ∈ finish_order (DFS disc post ((block, k) :: rest))) by (unfold finish_order; set_solver).
  in_range g block as row Hrow; [by eapply finish_order_length|].
  pose proof (di_cursor _ Hi block k row ltac:(by left) Hrow) as Hk. simpl in Hk.
  unfold dfs_step. rewrite Hrow. msimpl. cbn [discovered postorder dfs_stack].
  case_decide as Hend.
  { subst k. eexists. split; [done|]. split.
    - destruct Hi as [H1 H2 H3 H4 H5 H6 H7 H8 H9]. unfold finish_order in *. cbn in *.
      split; unfold finish_order; cbn; rewrite <- ?app_assoc; try done.
      + intros b s [Hbp|Hbs%list_elem_of_singleton]%elem_of_app He; [by eapply H6|subst b].
        destruct He as (row' & Hrow' & [j Hj]%list_elem_of_lookup). simplify_eq.
        eapply (H7 block (length row) row s j); [by left|done|eauto with index|done].
      + intros b k row' s j Hin. apply (H7 b k row' s j). by right.
      + intros b k row' Hin. apply H8. by right.
    - unfold dfs_measure. csimpl. rewrite Hrow. csimpl. lia. }
  in_range row k as s Hs. rewrite Hs. msimpl.
  assert (He : edge g block s) by (exists row; split; [done|]; by eapply list_elem_of_lookup_2).
  in_range disc s as seen Hseen.
  { pose proof (di_length _ Hi) as Hl. simpl in Hl. rewrite Hl. by eapply Hclosed. }
  rewrite Hseen. msimpl.
  assert (Hw : (S (length row) - k = S (S (length row) - S k))%nat) by lia.
  destruct seen.
  { eexists. split; [done|]. split.
    - destruct Hi as [H1 H2 H3 H4 H5 H6 H7 H8 H9]. unfold finish_order in *. cbn in *.
      split; unfold finish_order; cbn; try done.
      + intros b k' row' x j [[= -> ->]|Hin]%elem_of_cons Hr Hj Hx; [|apply (H7 b k' row' x j); [by right|done..]].
        simplify_eq. destruct (decide (j = k)) as [->|]; [simplify_eq; by apply H2|].
        apply (H7 block k row x j); [by left|done|lia|done].
      + intros b k' row' [[= -> ->]|Hin]%elem_of_cons Hr; [simplify_eq; lia|apply (H8 b); [by right|done]].
    - unfold dfs_measure. csimpl. rewrite Hrow. csimpl. lia. }
  assert (Hnew : s ∉ finish_order (DFS disc post ((block, k) :: rest))).
  { intros Hin%(di_discovered _ Hi). simpl in Hin. congruence. }
  in_range g s as srow Hsrow.
  eexists. split; [done|]. split.
  - destruct Hi as [H1 H2 H3 H4 H5 H6 H7 H8 H9]. unfold finish_order in *. cbn in *.
    assert (Hmid : forall x, x ∈ post ++ s :: block :: rest.*1 <-> x = s \/ x ∈ post ++ block :: rest.*1) by set_solver.
    split; unfold finish_order; cbn.
    + by rewrite length_insert.
    + intros b. rewrite Hmid, <- H2. destruct (decide (b = s)) as [->|Hne].
      * rewrite list_lookup_insert_eq by (eauto with index). naive_solver.
      * rewrite list_lookup_insert_ne by done. naive_solver.
    + rewrite <- Permutation_middle. by constructor.
    + intros b [->|Hin]%Hmid; [|by apply H4]. eapply reachable_snoc; [apply H4, Hb|done].
    + rewrite last_app_cons in *. done.
    + intros b x Hbp Hx. apply Hmid. right. by eapply H6.
    + intros b k' row' x j Hin Hr Hj Hx. apply Hmid.
      apply elem_of_cons in Hin as [[= -> ->]|[[= -> ->]|Hin]%elem_of_cons]; [lia| |right; apply (H7 b k' row' x j); [by right|done..]].
      simplify_eq. destruct (decide (j = k)) as [->|]; [simplify_eq; by left|right].
      apply (H7 block k row x j); [by left|done|lia|done].
    + intros b k' row' Hin Hr.
      apply elem_of_cons in Hin as [[= -> ->]|[[= -> ->]|Hin]%elem_of_cons]; [lia|simplify_eq; lia|apply (H8 b); [by right|done]].
    + intros b [->|Hin]%Hmid Hne.
      * exists block. split; [done|]. exists post, (block :: rest.*1). split; [done|]. by left.
      * destruct (H9 b Hin Hne) as (p & Hp & Hbef). exists p. split; [done|]. by apply before_insert.
  - unfold dfs_measure. csimpl. rewrite Hrow, Hsrow. csimpl.
    rewrite (sum_list_insert _ _ _ _ Hseen Hsrow). lia.
Qed.

Lemma dfs_loop_spec {E} fuel st :
  dfs_inv st -> (dfs_measure st <= fuel)%nat ->
  exists st', dfs_loop fuel g st = Ok st' :> result E _ /\ dfs_inv st' /\ dfs_stack st' = [].
Proof.
  revert st. induction fuel as [|fuel IH]; intros st Hi Hm;
    cbn [dfs_loop]; destruct (dfs_stack st) as [|[block k] rest] eqn:Hst; try (by exists st).
  - destruct (dfs_step_spec (E:=E) st block k rest Hi Hst) as (st' & _ & _ & Heq). lia.
  - destruct (dfs_step_spec (E:=E) st block k rest Hi Hst) as (st' & -> & Hi' & Heq). msimpl. apply IH; [done|lia].
Qed.

Lemma dfs_initial : dfs_inv (DFS (<[entry := true]> (replicate (length g) false)) [] [(entry, 0%nat)]).
Proof.
  split; unfold finish_order; cbn; try done; try set_solver.
  - by rewrite length_insert, length_replicate.
  - intros b. rewrite list_elem_of_singleton. destruct (decide (b = entry)) as [->|Hne].
    + by rewrite list_lookup_insert_eq by (by rewrite length_replicate).
    + rewrite list_lookup_insert_ne by done. split; [|done]. by intros [? ?]%lookup_replicate.
  - apply NoDup_singleton.
  - intros b ->%list_elem_of_singleton. apply reachable_refl.
  - intros b k row s j Heq%list_elem_of_singleton. simplify_eq. lia.
  - intros b k row Heq%list_elem_of_singleton. simplify_eq. lia.
Qed.

Lemma dfs_measure_initial :
  (dfs_measure (DFS (<[entry := true]> (replicate (length g) false)) [] [(entry, 0%nat)]) <= dfs_fuel g)%nat.
Proof.
  unfold dfs_measure. cbn -[Nat.sub zip_with]. in_range g entry as row Hrow.
  rewrite <- (initial_weight g), (sum_list_insert (replicate (length g) false) g entry row), Hrow.
  - simpl. lia.
  - by apply lookup_replicate_2.
  - done.
Qed.

(** The search ends within its fuel; it finishes each reachable block once,
    the entry last, and each other block before some predecessor of it. *)
Lemma dfs_spec {E} :
  exists st, dfs g entry = Ok st :> result E _ /\ length (discovered st) = length g /\
    (forall b, discovered st !! b = Some true <-> reachable g entry b) /\
    (forall b, b ∈ postorder st <-> reachable g entry b) /\
    NoDup (postorder st) /\ last (postorder st) = Some entry /\
    forall b, b ∈ postorder st -> b <> entry -> exists p, edge g p b /\ before b p (postorder st).
Proof.
  unfold dfs, vset. rewrite decide_True by (by rewrite length_replicate). msimpl.
  destruct (dfs_loop_spec (E:=E) (dfs_fuel g) _ dfs_initial dfs_measure_initial) as (st & -> & Hi & Hst).
  assert (Hfo : finish_order st = postorder st) by (unfold finish_order; by rewrite Hst, app_nil_r).
  destruct Hi as [H1 H2 H3 H4 H5 H6 H7 H8 H9]. rewrite Hfo in *.
  assert (Hall : forall b, b ∈ postorder st <-> reachable g entry b).
  { intros b. split; [apply H4|]. intros [l Hp].
    assert (forall a, a ∈ postorder st -> path g a l b -> b ∈ postorder st) as Hgo.
    { clear Hp. induction l as [|x l IH]; intros a Ha Hp; inversion Hp; subst; [done|].
      eapply IH; [|done]. by eapply H6. }
    eapply Hgo; [|exact Hp]. by apply last_Some_elem_of. }
  exists st. split_and!; try done. intros b. by rewrite H2.
Qed.
End dfs_facts.

(** ** Predecessor rows *)

(** [predecessors[successor].push(block)] for every edge. *)
Definition push_predecessor {E} (block : nat) (predecessors : graph) (successor : nat) : result E graph :=
  row ← expect (predecessors !! successor); Ok (<[successor := row ++ [block]]> predecessors).

Definition predecessor_rows {E} (successors : graph) : result E graph :=
  foldM (fun predecessors (ib : nat * list nat) => foldM (push_predecessor ib.1) predecessors ib.2)
    (replicate (length successors) []) (enumerate successors).

Definition row_of (p : graph) (b : nat) : list nat := default [] (p !! b).

Lemma edge_row p a b : edge p b a <-> a ∈ row_of p b.
Proof.
  unfold edge, row_of. split; [by intros (row & -> & ?)|].
  destruct (p !! b); [by eauto|]. by intros ?%not_elem_of_nil.
Qed.

Lemma push_predecessors_spec {E} n block row p :
  length p = n -> Forall (fun s => (s < n)%nat) row ->
  exists p', foldM (push_predecessor block) p row = Ok p' :> result E _ /\ length p' = n /\
    (forall a b, a ∈ row_of p' b <-> a ∈ row_of p b \/ (a = block /\ b ∈ row)) /\
    forall b, length (row_of p' b) = (length (row_of p b) + length (filter (fun s => s = b) row))%nat.
Proof.
  revert p. induction row as [|s row IH]; intros p Hp Hr; cbn [foldM].
  { exists p. split_and!; [done|done|set_solver|]. intros b. cbn. lia. }
  apply Forall_cons in Hr as [Hs Hr]. in_range p s as r Hrow.
  assert (push_predecessor block p s = Ok (<[s := r ++ [block]]> p) :> result E _) as -> by (unfold push_predecessor; by rewrite Hrow).
  msimpl. destruct (IH (<[s := r ++ [block]]> p)) as (p' & -> & Hl & Hin & Hlen); [by rewrite length_insert|done|].
  exists p'. split; [done|]. split; [done|]. unfold row_of in *. split.
  - intros a b. rewrite Hin, elem_of_cons. destruct (decide (b = s)) as [->|Hne].
    + rewrite list_lookup_insert_eq by lia. rewrite Hrow. set_solver.
    + rewrite list_lookup_insert_ne by done. set_solver.
  - intros b. rewrite Hlen, filter_cons. destruct (decide (b = s)) as [->|Hne].
    + rewrite list_lookup_insert_eq by lia. rewrite decide_True, Hrow by done. cbn. rewrite length_app. cbn. lia.
    + rewrite list_lookup_insert_ne by done. rewrite decide_False by done. lia.
Qed.

(** The number of edges into a block. *)
Definition edges_into (g : graph) (b : nat) : nat := length (filter (fun s => s = b) (concat g)).

Lemma predecessor_rows_spec {E} g :
  closed g -> exists p, predecessor_rows g = Ok p :> result E _ /\ reverses g p /\
    forall b, length (row_of p b) = edges_into g b.
Proof.
  intros Hc. unfold predecessor_rows.
  assert (Hgo : forall (l : list (nat * list nat)) p, length p = length g ->
    (forall i row, (i, row) ∈ l -> Forall (fun s => (s < length g)%nat) row) ->
    exists p', foldM (fun predecessors (ib : nat * list nat) => foldM (push_predecessor ib.1) predecessors ib.2) p l = Ok p' :> result E _ /\
      length p' = length g /\ (forall a b, a ∈ row_of p' b <-> a ∈ row_of p b \/ exists row, (a, row) ∈ l /\ b ∈ row) /\
      forall b, length (row_of p' b) = (length (row_of p b) + edges_into l.*2 b)%nat).
  { induction l as [|[i row] l IH]; intros p Hp Hl; cbn [foldM fst snd].
    { exists p. split_and!; [done|done|set_solver|]. intros b. cbn. lia. }
    destruct (push_predecessors_spec (E:=E) (length g) i row p Hp) as (p1 & -> & Hp1 & Hin1 & Hlen1); [by eapply Hl; left|].
    msimpl. destruct (IH p1 Hp1) as (p2 & -> & Hp2 & Hin2 & Hlen2); [by intros; eapply Hl; right|].
    exists p2. split_and!; [done|done| |].
    - intros a b. rewrite Hin2, Hin1. setoid_rewrite elem_of_cons. naive_solver.
    - intros b. rewrite Hlen2, Hlen1. unfold edges_into. csimpl. rewrite filter_app, length_app. lia. }
  destruct (Hgo (enumerate g) (replicate (length g) [])) as (p & -> & Hl & Hin & Hlen).
  - apply length_replicate.
  - intros i row Hk%elem_of_enumerate. apply Forall_forall. intros s Hs. apply (Hc i). by exists row.
  - assert (Hnil : forall b, row_of (replicate (length g) []) b = []).
    { intros b. unfold row_of. destruct (replicate _ _ !! b) eqn:Hb; [|done]. by apply lookup_replicate in Hb as [-> _]. }
    exists p. split; [done|]. split; [|intros b; by rewrite Hlen, Hnil, snd_zip by (by rewrite length_seq)].
    split; [done|]. intros a b. rewrite edge_row, Hin, Hnil. split.
    + intros [Ha|(row & Hk%elem_of_enumerate & Hb)].
      * by apply not_elem_of_nil in Ha.
      * by exists row.
    + intros (row & Hrow & Hb). right. exists row. by rewrite elem_of_enumerate.
Qed.
