(* ===== verification/Worklist.v ===== *)
(** * Worklist: queues of blocks with membership flags

    The iterative data-flow analyses keep a [VecDeque] of blocks to visit and
    a flag per block that says whether it is queued. This file holds that
    structure, its invariant, and the sums by which the iterations are
    measured. *)

From S2P Require Import Prelude.

(** [if !queued[predecessor] { queued[..] = true; queue.push_back(..) }] *)
Definition enqueue {E} (st : list nat * list bool) (predecessor : nat) : result E (list nat * list bool) :=
  waiting ← expect (st.2 !! predecessor);
  Ok (if (waiting : bool) then st else (st.1 ++ [predecessor], <[predecessor := true]> st.2)).

Section queue.
Context (n : nat).

(** The queue holds the blocks flagged in [flags], once each. *)
Record queue_ok (q : list nat) (qd : list bool) : Prop := {
  qo_length : length qd = n;
  qo_nodup : NoDup q;
  qo_flag b : b ∈ q <-> qd !! b = Some true }.

Lemma enqueue_fold {E} ps q qd :
  queue_ok q qd -> (forall p, p ∈ ps -> (p < n)%nat) ->
  exists q' qd', foldM enqueue (q, qd) ps = Ok (q', qd') :> result E _ /\ queue_ok q' qd' /\
    forall b, b ∈ q' <-> b ∈ q \/ b ∈ ps.
Proof.
  revert q qd. induction ps as [|p ps IH]; intros q qd Hq Hps; cbn [foldM].
  { exists q, qd. split_and!; [done..|]. set_solver. }
  in_range qd p as w Hw; [rewrite (qo_length _ _ Hq); apply Hps; by left|].
  assert (Hps' : forall p, p ∈ ps -> (p < n)%nat) by (intros; apply Hps; by right).
  assert (Hstep : enqueue (q, qd) p = Ok (if w then (q, qd) else (q ++ [p], <[p := true]> qd)) :> result E _).
  { unfold enqueue. cbn. by rewrite Hw. }
  rewrite Hstep. msimpl. destruct w.
  - destruct (IH q qd Hq Hps') as (q' & qd' & -> & Hq' & Hin). exists q', qd'. split_and!; [done..|].
    intros b. rewrite Hin, elem_of_cons. apply (qo_flag _ _ Hq) in Hw. naive_solver.
  - assert (Hp : p ∉ q) by (rewrite (qo_flag _ _ Hq); congruence).
    destruct (IH (q ++ [p]) (<[p := true]> qd)) as (q' & qd' & -> & Hq' & Hin); [|done|].
    + destruct Hq as [Hl Hn Hf]. split.
      * by rewrite length_insert.
      * rewrite <- Permutation_cons_append. by constructor.
      * intros b. rewrite elem_of_app, list_elem_of_singleton, Hf. destruct (decide (b = p)) as [->|Hne].
        -- rewrite list_lookup_insert_eq by (eauto with index). naive_solver.
        -- rewrite list_lookup_insert_ne by done. naive_solver.
    + exists q', qd'. split_and!; [done..|]. intros b. rewrite Hin. set_solver.
Qed.

Lemma pop_queue b rest qd : queue_ok (b :: rest) qd -> queue_ok rest (<[b := false]> qd) /\ (b < n)%nat.
Proof.
  intros [Hl [Hb Hn]%NoDup_cons Hf].
  assert (Hbl : (b < n)%nat) by (rewrite <- Hl; eapply lookup_lt_Some, Hf; by left).
  split; [|done]. split; [by rewrite length_insert|done|]. intros x.
  destruct (decide (x = b)) as [->|Hne].
  - rewrite list_lookup_insert_eq by lia. naive_solver.
  - rewrite list_lookup_insert_ne by done. rewrite <- Hf, elem_of_cons. naive_solver.
Qed.

(** Every block waits at the start. *)
Lemma initial_queue : queue_ok (rev (seq 0 n)) (replicate n true).
Proof.
  split.
  - apply length_replicate.
  - rewrite <- Permutation_rev. apply NoDup_seq.
  - intros b. rewrite <- Permutation_rev, elem_of_seq, lookup_replicate. lia || (split; [intros; split; [done|lia]|lia]).
Qed.

Lemma queue_length q qd : queue_ok q qd -> (length q <= n)%nat.
Proof. intros [Hl Hn Hf]. apply NoDup_bounded_length; [done|]. intros x Hx%Hf%lookup_lt_Some. by rewrite <- Hl. Qed.
End queue.

(** ** Sums over blocks *)

Lemma sum_list_lt {A} (g h : A -> nat) (l : list A) a :
  a ∈ l -> (forall x, x ∈ l -> (g x <= h x)%nat) -> (g a < h a)%nat -> (sum_list (g <$> l) < sum_list (h <$> l))%nat.
Proof.
  intros Ha Hle Hlt. assert (Hmono : forall l', (forall x, x ∈ l' -> (g x <= h x)%nat) -> (sum_list (g <$> l') <= sum_list (h <$> l'))%nat).
  { induction l' as [|x l' IH]; intros Hx; csimpl; [lia|]. pose proof (Hx x ltac:(by left)).
    pose proof (IH ltac:(intros; apply Hx; by right)). lia. }
  induction l as [|x l IH]; [by apply not_elem_of_nil in Ha|]. csimpl.
  apply elem_of_cons in Ha as [->|Ha].
  - pose proof (Hmono l ltac:(intros; apply Hle; by right)). lia.
  - pose proof (Hle x ltac:(by left)). pose proof (IH Ha ltac:(intros; apply Hle; by right)). lia.
Qed.

Lemma sum_list_const {A} (g : A -> nat) k (l : list A) : (forall x, g x = k) -> sum_list (g <$> l) = (length l * k)%nat.
Proof. intros Hg. induction l as [|x l IH]; csimpl; [done|]. rewrite Hg, IH. lia. Qed.
