(* ===== verification/Dominators.v ===== *)
(** * Dominators: the dominator tree behind the live-interval analysis

    Models [compute_dominators], [intersect_dominators] and [DominatorTree]
    of [crates/celox-backend-common/src/regalloc/live_interval.rs]: depth
    first search, the Cooper-Harvey-Kennedy iteration over immediate
    dominators in reverse postorder, and the entry/exit numbering of the
    tree. *)

From S2P Require Import Prelude Graph.

(** Entry and exit times of the tree traversal. *)
Record DominatorTree : Type := DT { enter : list nat; exit : list nat }.

Definition dominates {E} (t : DominatorTree) (dominator block : nat) : result E bool :=
  enter_d ← expect (enter t !! dominator);
  enter_b ← expect (enter t !! block);
  if decide (enter_d <= enter_b)%nat then
    exit_b ← expect (exit t !! block);
    exit_d ← expect (exit t !! dominator);
    Ok (bool_decide (exit_b <= exit_d)%nat)
  else Ok false.

Inductive DominatorError : Type :=
  | UnreachableBlock (block : nat)
  | NoProcessedPredecessor (block : nat).

Abbreviation dom_result := (result DominatorError).

(** [for (position, &block) in postorder.iter().enumerate()] *)
Definition rpo_positions {E} (blocks : nat) (order : list nat) : result E (list nat) :=
  foldM (fun positions (ib : nat * nat) => vset ib.2 ib.1 positions) (replicate blocks 0%nat)
    (enumerate order).

(** [while rpo_position[x] > rpo_position[target] { x = idom[x].expect(..) }] *)
Fixpoint climb {E} (fuel : nat) (idom : list (option nat)) (rpo_position : list nat) (x target : nat)
    : result E nat :=
  position_x ← expect (rpo_position !! x);
  position_target ← expect (rpo_position !! target);
  if decide (position_target < position_x)%nat then
    match fuel with
    | O => Panic
    | S fuel => parent ← expect (mjoin (idom !! x)); climb fuel idom rpo_position parent target
    end
  else Ok x.

(** Each turn of the outer loop lowers the sum of the two positions. *)
Fixpoint intersect_loop {E} (fuel : nat) (idom : list (option nat)) (rpo_position : list nat) (left right : nat)
    : result E nat :=
  if decide (left = right) then Ok left else
  match fuel with
  | O => Panic
  | S fuel =>
      left ← climb (length rpo_position) idom rpo_position left right;
      right ← climb (length rpo_position) idom rpo_position right left;
      intersect_loop fuel idom rpo_position left right
  end.

Definition intersect_dominators {E} (left right : nat) (idom : list (option nat)) (rpo_position : list nat)
    : result E nat :=
  intersect_loop (2 * length rpo_position) idom rpo_position left right.

(** [predecessors[block].iter().filter(|p| idom[p].is_some())] *)
Fixpoint processed {E} (idom : list (option nat)) (predecessors : list nat) : result E (list nat) :=
  match predecessors with
  | [] => Ok []
  | p :: predecessors =>
      o ← expect (idom !! p);
      rest ← processed idom predecessors;
      Ok (match o with Some _ => p :: rest | None => rest end)
  end.

(** One block of a sweep; the flag is [changed]. *)
Definition update_idom (predecessors : graph) (rpo_position : list nat) (st : list (option nat) * bool)
    (block : nat) : dom_result (list (option nat) * bool) :=
  let '(idom, changed) := st in
  row ← expect (predecessors !! block);
  ps ← processed idom row;
  match ps with
  | [] => Err (NoProcessedPredecessor block)
  | first :: rest =>
      next ← foldM (fun next predecessor => intersect_dominators next predecessor idom rpo_position) first rest;
      current ← expect (idom !! block);
      if decide (current = Some next) then Ok (idom, changed)
      else Ok (<[block := Some next]> idom, true)
  end.

(** [while changed]; the fuel is proved enough in [idom_loop_spec]. *)
Fixpoint idom_loop (fuel : nat) (predecessors : graph) (rpo_position order : list nat) (idom : list (option nat))
    : dom_result (list (option nat)) :=
  match fuel with
  | O => Panic
  | S fuel =>
      '(idom, changed) ← foldM (update_idom predecessors rpo_position) (idom, false) order;
      if (changed : bool) then idom_loop fuel predecessors rpo_position order idom else Ok idom
  end.

(** [children[parent].push(block)] for a block with a parent. *)
Definition add_child {E} (children : graph) (ib : nat * option nat) : result E graph :=
  match ib.2 with
  | None => Ok children
  | Some parent => row ← expect (children !! parent); Ok (<[parent := row ++ [ib.1]]> children)
  end.

Definition dominator_children {E} (idom : list (option nat)) : result E graph :=
  foldM add_child (replicate (length idom) []) (enumerate idom).

Record numbering : Type := NB { nb_enter : list nat; nb_exit : list nat; clock : nat }.

(** The traversal of the tree; the head of the list is the top of the stack. *)
Fixpoint number_tree {E} (fuel : nat) (children : graph) (stack : list (nat * bool)) (st : numbering)
    : result E numbering :=
  match stack with
  | [] => Ok st
  | (block, leaving) :: stack =>
      match fuel with
      | O => Panic
      | S fuel =>
          if (leaving : bool) then
            exit ← vset block (clock st) (nb_exit st);
            number_tree fuel children stack (NB (nb_enter st) exit (S (clock st)))
          else
            enter ← vset block (clock st) (nb_enter st);
            row ← expect (children !! block);
            number_tree fuel children (((fun child => (child, false)) <$> row) ++ (block, true) :: stack)
              (NB enter (nb_exit st) (S (clock st)))
      end
  end.

Definition compute_dominators (entry : nat) (successors predecessors : graph) : dom_result DominatorTree :=
  let n := length successors in
  search ← dfs successors entry;
  match list_find (fun reached : bool => reached = false) (discovered search) with
  | Some (block, _) => Err (UnreachableBlock block)
  | None =>
      let order := rev (postorder search) in
      rpo_position ← rpo_positions n order;
      idom ← vset entry (Some entry) (replicate n None);
      idom ← idom_loop (S (n * n)) predecessors rpo_position (tail order) idom;
      idom ← vset entry None idom;
      children ← dominator_children idom;
      st ← number_tree (2 * n) children [(entry, false)] (NB (replicate n 0%nat) (replicate n 0%nat) 0);
      Ok (DT (nb_enter st) (nb_exit st))
  end.

(** Blocks 1 and 2 form a cycle entered at both. *)
Example dominators_of_irreducible :
  (predecessors ← predecessor_rows [[1; 2]; [2; 3]; [1]; []]%nat;
   t ← compute_dominators 0 [[1; 2]; [2; 3]; [1]; []]%nat predecessors;
   mapMr (fun db => dominates t db.1 db.2) [(0, 3); (1, 3); (1, 2); (2, 1); (3, 3)]%nat) =
  Ok [true; true; false; false; true].
Proof. vm_compute. reflexivity. Qed.
