(* ===== verification/DominatorsFacts.v ===== *)
(** * DominatorsFacts: the iteration computes dominance

    Correctness of [compute_dominators]: the Cooper-Harvey-Kennedy iteration
    reaches a fixed point, whose chains are exactly the dominators, and the
    entry/exit numbering decides the ancestor relation of that tree. *)

From S2P Require Import Prelude Graph Dominators.

(** ** Chains of a partial tree *)

(** Changing the parent of a block keeps the chains that avoid it. *)
Lemma above_insert_keep t b o d x :
  (b < length t)%nat -> above t d x -> (forall z, above t z x -> above t d z -> z = b -> z = d) ->
  above (<[b := o]> t) d x.
Proof.
  intros Hb Ha. induction Ha as [|x y Hx Ha IH]; intros Hz; [done|].
  destruct (decide (x = b)) as [->|Hne].
  { rewrite (Hz b); eauto. }
  econstructor; [by rewrite list_lookup_insert_ne|]. apply IH. intros z Hzy Hdz. apply Hz; eauto.
Qed.

Section chk.
(** The graph, its predecessor rows and an order of the blocks its edges
    join in which each but the entry has a predecessor before it. *)
Context (g preds : graph) (entry : nat) (order : list nat).
Context (Hclosed : closed g) (Hreverses : reverses g preds) (Hentry : (entry < length g)%nat).
Context (Hnodup : NoDup order) (Hrange : forall b, b ∈ order -> (b < length g)%nat).
Context (Hmember : forall a b, edge g a b -> a ∈ order /\ b ∈ order).
Context (Hfirst : head order = Some entry).
Context (Hparent : forall b, b ∈ order -> b <> entry -> exists p, edge g p b /\ before p b order).
Context (pos : list nat) (Hpos : forall b i, order !! i = Some b -> pos !! b = Some i).
Context (Hposlen : length pos = length g).

Abbreviation tree := (list (option nat)).
Implicit Types (t : tree) (a b d x y z p : nat).

Definition rank b : nat := default 0%nat (pos !! b).

Lemma rank_lookup b : b ∈ order -> order !! rank b = Some b /\ pos !! b = Some (rank b).
Proof.
  intros [i Hi]%list_elem_of_lookup. unfold rank. rewrite (Hpos _ _ Hi). done.
Qed.

Lemma length_order : (length order <= length g)%nat.
Proof. by apply NoDup_bounded_length. Qed.

Lemma entry_member : entry ∈ order.
Proof. destruct order as [|x l]; [done|]. injection Hfirst as ->. by left. Qed.

Lemma rank_inj a b : a ∈ order -> b ∈ order -> rank a = rank b -> a = b.
Proof. intros [Ha _]%rank_lookup [Hb _]%rank_lookup Heq. congruence. Qed.

Lemma rank_entry : rank entry = 0%nat.
Proof. unfold rank. rewrite (Hpos entry 0); [done|]. by rewrite <- head_lookup. Qed.

Lemma rank_order b : b ∈ order -> (rank b < length order)%nat.
Proof. intros Hb. by destruct (rank_lookup b Hb) as [Ho%lookup_lt_Some _]. Qed.

Lemma rank_lt b : b ∈ order -> (rank b < length g)%nat.
Proof. intros Hb%rank_order. pose proof length_order. lia. Qed.

Lemma edge_lt a b : edge g a b -> a ∈ order /\ b ∈ order.
Proof. apply Hmember. Qed.

(** ** The depth-first parent of a block *)

Definition forward_pred b : nat :=
  default entry (head (filter (fun p => rank p < rank b)%nat (default [] (preds !! b)))).

Lemma forward_pred_spec b :
  b ∈ order -> b <> entry -> edge g (forward_pred b) b /\ (rank (forward_pred b) < rank b)%nat.
Proof.
  intros Hb Hne. destruct (Hparent b) as (p & He & Hbef); [done..|].
  assert (Hlt : (rank p < rank b)%nat).
  { apply before_lookup in Hbef as (i & j & Hij & Hi & Hj). unfold rank.
    by rewrite (Hpos _ _ Hi), (Hpos _ _ Hj). }
  destruct (proj2 (proj2 Hreverses p b) He) as (row & Hrow & Hin).
  unfold forward_pred. rewrite Hrow. simpl.
  destruct (filter _ row) as [|q l] eqn:Hf.
  { exfalso. apply (not_elem_of_nil p). rewrite <- Hf. by apply list_elem_of_filter. }
  assert (q ∈ filter (fun p => rank p < rank b)%nat row) as [Hq Hqr]%list_elem_of_filter by (rewrite Hf; left).
  simpl. split; [|done]. apply Hreverses. by exists row.
Qed.

(** [d] is a depth-first ancestor of [x]. *)
Inductive ancestor d : nat -> Prop :=
  | ancestor_refl : ancestor d d
  | ancestor_parent x : x <> entry -> x ∈ order -> ancestor d (forward_pred x) -> ancestor d x.
#[local] Hint Constructors ancestor : core.

Lemma ancestor_trans a b c : ancestor a b -> ancestor b c -> ancestor a c.
Proof. intros Hab Hbc. induction Hbc; eauto. Qed.

Lemma ancestor_rank d x : ancestor d x -> d = x \/ (rank d < rank x)%nat.
Proof.
  induction 1 as [|x Hne Hx Ha IH]; [by left|]. right.
  pose proof (forward_pred_spec x Hx Hne) as [_ ?]. destruct IH as [->|]; lia.
Qed.

(** The depth-first path to a descendant stays at or after the ancestor. *)
Lemma ancestor_path d x : ancestor d x -> exists l, path g d l x /\ forall y, y ∈ l -> (rank d <= rank y)%nat.
Proof.
  induction 1 as [|x Hne Hx Ha (l & Hl & Hr)].
  - exists [d]. split; [constructor|]. by intros y ->%list_elem_of_singleton.
  - destruct (forward_pred_spec x Hx Hne) as [He Hlt]. exists (l ++ [x]). split; [by eapply path_snoc|].
    intros y [?|Hy%list_elem_of_singleton]%elem_of_app; [auto|subst y].
    destruct (ancestor_rank _ _ Ha) as [->|]; lia.
Qed.

(** ** Partial dominator trees *)

Definition done_ t b : Prop := exists y, t !! b = Some (Some y).

Record tree_ok t : Prop := {
  to_length : length t = length g;
  to_entry : t !! entry = Some (Some entry);
  to_parent b y : b <> entry -> t !! b = Some (Some y) -> done_ t y /\ ancestor y (forward_pred b);
  to_member b : done_ t b -> b ∈ order }.

Lemma done_lt t b : tree_ok t -> done_ t b -> b ∈ order.
Proof. intros Ht. apply (to_member _ Ht). Qed.

Lemma member_lt t b : tree_ok t -> b ∈ order -> (b < length t)%nat.
Proof. intros Ht Hb. rewrite (to_length _ Ht). by apply Hrange. Qed.

Lemma above_done t d x : tree_ok t -> done_ t x -> above t d x -> done_ t d.
Proof.
  intros Ht Hx Ha. induction Ha as [|x y Hxy Ha IH]; [done|]. apply IH.
  destruct (decide (x = entry)) as [->|Hne]; [|by eapply to_parent].
  rewrite (to_entry _ Ht) in Hxy. by simplify_eq.
Qed.

Lemma above_ancestor t d x : tree_ok t -> above t d x -> ancestor d x.
Proof.
  intros Ht Ha. induction Ha as [|x y Hxy Ha IH]; [done|].
  destruct (decide (x = entry)) as [->|Hne].
  { rewrite (to_entry _ Ht) in Hxy. by simplify_eq. }
  destruct (to_parent _ Ht x y Hne Hxy) as [_ Hy].
  constructor; [done| |by eapply ancestor_trans].
  apply (to_member _ Ht). by exists y.
Qed.

Lemma above_rank t d x : tree_ok t -> above t d x -> d = x \/ (rank d < rank x)%nat.
Proof. intros. by eapply ancestor_rank, above_ancestor. Qed.

Lemma above_of_rank t a b x :
  tree_ok t -> above t a x -> above t b x -> (rank a <= rank b)%nat -> above t a b.
Proof.
  intros Ht Ha Hb Hr. destruct (above_linear t a b x Ha Hb) as [|Hba]; [done|].
  destruct (above_rank _ _ _ Ht Hba) as [->|]; [done|lia].
Qed.

Lemma above_entry t d : tree_ok t -> above t d entry -> d = entry.
Proof.
  intros Ht Ha. remember entry as e eqn:He. induction Ha as [|x y Hxy Ha IH]; [done|].
  rewrite He, (to_entry _ Ht) in Hxy. simplify_eq. auto.
Qed.

(** ** Intersection *)

Lemma climb_spec {E} fuel t x target :
  tree_ok t -> done_ t x -> target ∈ order -> (rank x <= fuel)%nat ->
  exists z, climb fuel t pos x target = Ok z :> result E _ /\ above t z x /\ (rank z <= rank target)%nat /\
    forall d, above t d x -> (rank d <= rank target)%nat -> above t d z.
Proof.
  intros Ht. revert x. induction fuel as [|fuel IH]; intros x Hx Htgt Hf; cbn [climb];
    rewrite (proj2 (rank_lookup _ (done_lt _ _ Ht Hx))), (proj2 (rank_lookup _ Htgt)); msimpl.
  { rewrite decide_False by lia. exists x. split_and!; [done|constructor|lia|done]. }
  case_decide as Hlt; [|exists x; split_and!; [done|constructor|lia|done]].
  assert (x <> entry) as Hne by (intros ->; rewrite rank_entry in Hlt; lia).
  destruct Hx as [y Hy]. rewrite Hy. cbn [mjoin option_join].
  destruct (to_parent _ Ht x y Hne Hy) as [Hd Hanc].
  pose proof (above_rank t y x Ht ltac:(eauto)) as Hr.
  assert (y <> x) as Hyx.
  { intros ->. destruct (forward_pred_spec x) as [_ ?]; [eapply done_lt; [done|by eexists]|done|].
    destruct (ancestor_rank _ _ Hanc) as [Heq|]; [rewrite <- Heq in *|]; lia. }
  destruct (IH y Hd Htgt ltac:(destruct Hr; [done|lia])) as (z & -> & Hz & Hzr & Hlow).
  exists z. split_and!; [done|by eauto|done|]. intros d Hd' Hdr.
  inversion Hd' as [|? y' Hy' Ha]; subst; [lia|]. simplify_eq. auto.
Qed.

Lemma intersect_spec {E} fuel t l r :
  tree_ok t -> done_ t l -> done_ t r -> (rank l + rank r <= fuel)%nat ->
  exists z, intersect_loop fuel t pos l r = Ok z :> result E _ /\ done_ t z /\
    forall d, above t d z <-> above t d l /\ above t d r.
Proof.
  intros Ht. revert l r. induction fuel as [|fuel IH]; intros l r Hl Hr Hf; cbn [intersect_loop];
    (case_decide as Heq; [subst r; exists l; split_and!; [done..|tauto]|]);
    pose proof (done_lt _ _ Ht Hl) as Hll; pose proof (done_lt _ _ Ht Hr) as Hrl.
  { destruct Heq. apply rank_inj; [done..|lia]. }
  destruct (climb_spec (E:=E) (length pos) t l r Ht Hl Hrl) as (l' & -> & Hl' & Hl'r & Hlow).
  { rewrite Hposlen. by apply Nat.lt_le_incl, rank_lt. }
  pose proof (above_done _ _ _ Ht Hl Hl') as Hl'd. pose proof (done_lt _ _ Ht Hl'd) as Hl'l. msimpl.
  destruct (climb_spec (E:=E) (length pos) t r l' Ht Hr Hl'l) as (r' & -> & Hr' & Hr'r & Hrow).
  { rewrite Hposlen. by apply Nat.lt_le_incl, rank_lt. }
  pose proof (above_done _ _ _ Ht Hr Hr') as Hr'd. msimpl.
  pose proof (above_rank _ _ _ Ht Hl') as Hlr. pose proof (above_rank _ _ _ Ht Hr') as Hrr.
  destruct (IH l' r' Hl'd Hr'd) as (z & -> & Hz & Hzd).
  { assert (rank l <> rank r) by (intros ?; apply Heq, rank_inj; done).
    destruct Hlr as [->|], Hrr as [->|]; lia. }
  exists z. split_and!; [done..|]. intros d. rewrite Hzd. split.
  - intros [? ?]. split; eauto using above_trans.
  - intros [Hdl Hdr].
    assert (Hd1 : (rank d <= rank r)%nat) by (destruct (above_rank _ _ _ Ht Hdr) as [->|]; lia).
    pose proof (Hlow d Hdl Hd1) as Hdl'. split; [done|]. apply Hrow; [done|].
    destruct (above_rank _ _ _ Ht Hdl') as [->|]; lia.
Qed.

Lemma intersect_fold {E} t first rest :
  tree_ok t -> done_ t first -> (forall p, p ∈ rest -> done_ t p) ->
  exists z, foldM (fun next predecessor => intersect_dominators next predecessor t pos) first rest = Ok z :> result E _ /\
    done_ t z /\ forall d, above t d z <-> above t d first /\ forall p, p ∈ rest -> above t d p.
Proof.
  intros Ht. revert first. induction rest as [|p rest IH]; intros first Hf Hr; cbn [foldM].
  { exists first. split_and!; [done..|]. intros d. split; [|tauto]. intros ?. split; [done|].
    by intros p ?%not_elem_of_nil. }
  assert (done_ t p) as Hp by (apply Hr; by left).
  destruct (intersect_spec (E:=E) (2 * length pos) t first p Ht Hf Hp) as (z & Heq & Hz & Hzd).
  { pose proof (rank_lt _ (done_lt _ _ Ht Hf)). pose proof (rank_lt _ (done_lt _ _ Ht Hp)). lia. }
  change (intersect_dominators first p t pos = Ok z :> result E _) in Heq. rewrite Heq. msimpl.
  destruct (IH z Hz ltac:(intros; apply Hr; by right)) as (w & -> & Hw & Hwd).
  exists w. split_and!; [done..|]. intros d. rewrite Hwd, Hzd. setoid_rewrite elem_of_cons. naive_solver.
Qed.

Lemma processed_spec {E} t ps :
  (forall p, p ∈ ps -> (p < length t)%nat) ->
  exists l, processed t ps = Ok l :> result E _ /\ forall p, p ∈ l <-> p ∈ ps /\ done_ t p.
Proof.
  induction ps as [|p ps IH]; intros Hps; cbn [processed].
  { exists []. split; [done|]. intros p. split; [by intros ?%not_elem_of_nil|by intros [?%not_elem_of_nil _]]. }
  in_range t p as o Ho; [apply Hps; by left|]. rewrite Ho. msimpl.
  destruct IH as (l & -> & Hl); [intros; apply Hps; by right|]. eexists. split; [done|].
  intros q. destruct o as [y|].
  - rewrite !elem_of_cons, Hl. split; [|naive_solver]. intros [->|[? ?]]; [|naive_solver].
    split; [by left|]. by exists y.
  - rewrite Hl, elem_of_cons. split; [naive_solver|]. intros [[->|?] Hd]; [|done].
    destruct Hd as [y Hy]. congruence.
Qed.

(** ** The invariant of a sweep *)

(** [b]'s processed predecessors all lie below its parent. *)
Definition stable t b : Prop :=
  exists y, t !! b = Some (Some y) /\ forall p, edge g p b -> done_ t p -> above t y p.

(** Blocks of rank below [k] were visited in the current sweep. *)
Record chk_inv t (k : nat) : Prop := {
  ci_tree : tree_ok t;
  ci_front b : b ∈ order -> b <> entry -> (rank b < k)%nat ->
    exists y, t !! b = Some (Some y) /\ above t y (forward_pred b);
  ci_low b y a : b <> entry -> t !! b = Some (Some y) ->
    (forall p, edge g p b -> done_ t p -> above t a p) -> (rank a <= rank y)%nat;
  ci_complete x d : done_ t x -> dominates_spec g entry d x -> above t d x }.

(** Ranks of the parents; a block without parent counts most. *)
Definition potential t : nat :=
  sum_list ((fun o => match o with Some y => rank y | None => length g end) <$> t).

Lemma potential_insert t b next :
  (b < length t)%nat ->
  (rank next < match t !! b with Some (Some y) => rank y | _ => length g end)%nat ->
  (potential (<[b := Some next]> t) < potential t)%nat.
Proof.
  unfold potential. revert b. induction t as [|o t IH]; intros [|b] Hb Hr; cbn -[rank] in *; try lia.
  apply Nat.add_lt_mono_l, IH; [lia|exact Hr].
Qed.

Lemma done_insert t b z x : (b < length t)%nat -> done_ (<[b := Some z]> t) x <-> x = b \/ done_ t x.
Proof.
  intros Hb. unfold done_. destruct (decide (x = b)) as [->|Hne].
  - rewrite list_lookup_insert_eq by done. naive_solver.
  - rewrite list_lookup_insert_ne by done. naive_solver.
Qed.

(** A block on a chain of ranks below [b] is not affected by [b]. *)
Lemma above_insert_low t b o d x :
  tree_ok t -> b ∈ order -> x ∈ order -> (rank x < rank b)%nat ->
  above (<[b := o]> t) d x <-> above t d x.
Proof.
  intros Ht Hb Hx Hr. split; intros Ha.
  - induction Ha as [|x y Hxy Ha IH]; [done|]. rewrite list_lookup_insert_ne in Hxy by (intros ->; lia).
    econstructor; [done|]. apply IH.
    + apply (done_lt t); [done|]. destruct (decide (x = entry)) as [->|Hne]; [|by eapply to_parent].
      rewrite (to_entry _ Ht) in Hxy. simplify_eq. eexists; by apply to_entry.
    + destruct (above_rank t y x Ht ltac:(eauto)) as [->|]; lia.
  - apply above_insert_keep; [by apply member_lt|done|]. intros z Hz _ ->.
    destruct (above_rank _ _ _ Ht Hz) as [->|]; lia.
Qed.

(** Following depth-first parents keeps an ancestor that lies higher. *)
Lemma front_peel t k next old x :
  chk_inv t k -> ancestor old x -> (rank x < k)%nat -> done_ t old ->
  above t next x -> (rank next <= rank old)%nat -> above t next old.
Proof.
  intros Hi Ha. induction Ha as [|x Hne Hx Ha IH]; intros Hr Hold Hn Hle; [done|].
  destruct (forward_pred_spec x Hx Hne) as [_ Hlt].
  apply IH; [lia|done| |done]. destruct (ci_front _ _ Hi x Hx Hne Hr) as (y & Hy & Hyf).
  inversion Hn as [|? y' Hy' Hn']; subst; [|simplify_eq; by eapply above_trans].
  destruct (ancestor_rank _ _ Ha) as [->|]; lia.
Qed.

Lemma above_insert_split t b o d x :
  (b < length t)%nat -> above t d x ->
  above (<[b := o]> t) d x \/ (above t b x /\ above t d b /\ d <> b).
Proof.
  intros Hb Ha. induction Ha as [|x y Hx Ha IH]; [by left|].
  destruct (decide (x = b)) as [->|Hne].
  - destruct (decide (d = b)) as [->|]; [by left|right; eauto].
  - destruct IH as [?|(? & ? & ?)]; [left|right; eauto].
    econstructor; [by rewrite list_lookup_insert_ne|done].
Qed.

Section update.
Context t (k : nat) b (next : nat) (Hi : chk_inv t k) (Hb : b ∈ order) (Hne : b <> entry) (Hk : rank b = k).
Context (Hnext : forall d, above t d next <-> forall p, edge g p b -> done_ t p -> above t d p).
Context (Hdone : done_ t next).
Abbreviation t' := (<[b := Some next]> t).

Lemma update_bound : (b < length t)%nat.
Proof. apply member_lt; [apply Hi|done]. Qed.

Lemma forward_pred_done : done_ t (forward_pred b).
Proof.
  destruct (forward_pred_spec b Hb Hne) as [He Hlt]. destruct (decide (forward_pred b = entry)) as [->|Hf].
  - eexists. apply to_entry, Hi.
  - destruct (edge_lt _ _ He) as [Hfl _].
    destruct (ci_front _ _ Hi (forward_pred b)) as (y & Hy & _); [done|done|lia|by exists y].
Qed.

Lemma next_above_forward : above t next (forward_pred b).
Proof. apply Hnext; [done|by apply forward_pred_spec|apply forward_pred_done]. Qed.

Lemma next_rank : (rank next < rank b)%nat.
Proof.
  destruct (forward_pred_spec b Hb Hne) as [_ Hlt].
  destruct (above_rank _ _ _ (ci_tree _ _ Hi) next_above_forward) as [Heq|]; [rewrite Heq|]; lia.
Qed.

Lemma next_lifts old : t !! b = Some (Some old) -> above t next old /\ (rank next <= rank old)%nat.
Proof.
  intros Hold. assert (Hr : (rank next <= rank old)%nat).
  { eapply ci_low; [done..|]. by apply Hnext. }
  destruct (to_parent _ (ci_tree _ _ Hi) b old Hne Hold) as [Hd Ha]. split; [|done].
  eapply front_peel; [done..| |done| |done].
  - rewrite <- Hk. by apply forward_pred_spec.
  - apply next_above_forward.
Qed.

Lemma low_above d x : x ∈ order -> (rank x < rank b)%nat -> above t' d x <-> above t d x.
Proof. intros. by apply above_insert_low; [apply Hi|..]. Qed.

Lemma next_above d : above t' d next <-> above t d next.
Proof. apply low_above; [eapply done_lt; [apply Hi|done]|apply next_rank]. Qed.

Lemma update_shrinks d x : done_ t x -> above t' d x -> above t d x.
Proof.
  intros Hx Ha. induction Ha as [|x y Hxy Ha IH]; [done|].
  destruct (decide (x = b)) as [->|Hxb].
  - rewrite list_lookup_insert_eq in Hxy by apply update_bound. injection Hxy as <-. destruct Hx as [old Hold].
    destruct (next_lifts old Hold) as [Hl _]. econstructor; [done|].
    eapply above_trans; [by apply next_above|done].
  - rewrite list_lookup_insert_ne in Hxy by done. econstructor; [done|]. apply IH.
    eapply above_done; [apply Hi|exact Hx|]. eauto.
Qed.

Lemma update_tree : tree_ok t'.
Proof.
  destruct (ci_tree _ _ Hi) as [Hl He Hp Hm]. split.
  - by rewrite length_insert.
  - by rewrite list_lookup_insert_ne.
  - intros c y Hc. destruct (decide (c = b)) as [->|Hcb].
    + rewrite list_lookup_insert_eq by apply update_bound. intros [= <-].
      rewrite done_insert by apply update_bound. split; [by right|].
      eapply above_ancestor; [apply Hi|apply next_above_forward].
    + rewrite list_lookup_insert_ne by done. intros Hy. rewrite done_insert by apply update_bound.
      destruct (Hp c y Hc Hy). tauto.
  - intros c. rewrite done_insert by apply update_bound. intros [->|?]; auto.
Qed.

(** What dominates [b] is on the chain of every processed predecessor. *)
Lemma dominator_of_b d : d <> b -> dominates_spec g entry d b -> above t d next.
Proof.
  intros Hdb Hd. apply Hnext. intros p He Hp. eapply ci_complete; [done..|]. intros l Hl.
  pose proof (Hd _ (path_snoc _ _ _ _ _ Hl He)) as [?|?%list_elem_of_singleton]%elem_of_app; done.
Qed.

Lemma update_b : t' !! b = Some (Some next).
Proof. apply list_lookup_insert_eq, update_bound. Qed.

Lemma update_complete x d : done_ t' x -> dominates_spec g entry d x -> above t' d x.
Proof.
  rewrite done_insert by apply update_bound. intros Hx Hd.
  assert (Hbase : d <> b -> dominates_spec g entry d b -> above t' d b).
  { intros Hdb Hdom. econstructor; [apply update_b|]. by apply next_above, dominator_of_b. }
  destruct Hx as [->|Hx].
  { destruct (decide (d = b)) as [->|]; [constructor|auto]. }
  pose proof (ci_complete _ _ Hi x d Hx Hd) as Ha.
  destruct (above_insert_split t b (Some next) d x update_bound Ha) as [?|(Hbx & Hdb & Hneq)]; [done|].
  assert (above t' b x) as Hbx'.
  { destruct (above_insert_split t b (Some next) b x update_bound Hbx) as [?|(_ & _ & ?)]; done. }
  eapply above_trans; [|exact Hbx']. apply Hbase; [done|]. intros l Hl.
  destruct (ancestor_path b x) as (l2 & Hl2 & Hr2); [by eapply above_ancestor; [apply Hi|]|].
  destruct (path_trans _ _ _ _ _ _ Hl Hl2) as (l3 & Hl3 & Hel).
  apply Hd, Hel in Hl3 as [?|Hin%Hr2]; [done|].
  destruct (above_rank _ _ _ (ci_tree _ _ Hi) Hdb); [done|lia].
Qed.

Lemma update_inv : chk_inv t' (S k).
Proof.
  split.
  - apply update_tree.
  - intros c Hc Hce Hr. destruct (forward_pred_spec c Hc Hce) as [[Hf _]%edge_lt Hfr].
    destruct (decide (c = b)) as [->|Hcb].
    + exists next. split; [apply update_b|]. apply low_above; [done..|]. apply next_above_forward.
    + assert (rank c <> rank b) by (intros ?; by apply Hcb, rank_inj).
      destruct (ci_front _ _ Hi c Hc Hce) as (y & Hy & Hyf); [lia|]. exists y.
      rewrite list_lookup_insert_ne by done. split; [done|]. apply low_above; [done|lia|done].
  - intros c y a Hc Hy Hlow.
    assert (forall p, edge g p c -> done_ t p -> above t a p) as Hlow'.
    { intros p He Hp. apply update_shrinks; [done|]. apply Hlow; [done|].
      rewrite done_insert by apply update_bound. by right. }
    destruct (decide (c = b)) as [->|Hcb].
    + rewrite list_lookup_insert_eq in Hy by apply update_bound. injection Hy as <-.
      pose proof (proj2 (Hnext a) Hlow') as Ha.
      destruct (above_rank _ _ _ (ci_tree _ _ Hi) Ha) as [->|]; lia.
    + rewrite list_lookup_insert_ne in Hy by done. by eapply ci_low.
  - apply update_complete.
Qed.

Lemma update_potential : t !! b <> Some (Some next) -> (potential t' < potential t)%nat.
Proof.
  intros Hc. apply potential_insert; [apply update_bound|].
  destruct (t !! b) as [[old|]|] eqn:Hold.
  - destruct (next_lifts old Hold) as [Ha Hr].
    destruct (above_rank _ _ _ (ci_tree _ _ Hi) Ha) as [->|]; [done|lia].
  - apply rank_lt. eapply done_lt; [apply Hi|done].
  - apply rank_lt. eapply done_lt; [apply Hi|done].
Qed.
End update.

Lemma chk_inv_step t k b :
  chk_inv t k -> b ∈ order -> rank b = k -> stable t b -> b <> entry -> chk_inv t (S k).
Proof.
  intros [H1 H2 H3 H4] Hb Hk (y & Hy & Hst) Hne. split; [done| |done..].
  intros c Hc Hce Hr. destruct (decide (c = b)) as [->|Hcb].
  - exists y. split; [done|]. apply Hst; [by apply forward_pred_spec|].
    apply (forward_pred_done t (rank b)); [by split; rewrite ?Hk|done..].
  - apply H2; [done..|]. assert (rank c <> rank b) by (intros ?; by apply Hcb, rank_inj). lia.
Qed.

Lemma update_idom_spec t k b c :
  chk_inv t k -> b ∈ order -> b <> entry -> rank b = k ->
  exists t' c', update_idom preds pos (t, c) b = Ok (t', c') /\ chk_inv t' (S k) /\
    ((t' = t /\ c' = c /\ stable t b) \/ (c' = true /\ (potential t' < potential t)%nat)).
Proof.
  intros Hi Hb Hne Hk. unfold update_idom.
  in_range preds b as row Hrow; [rewrite (proj1 Hreverses); by apply Hrange|]. rewrite Hrow. msimpl.
  assert (Hin : forall p, p ∈ row <-> edge g p b).
  { intros p. rewrite <- (proj2 Hreverses). split; [by exists row|]. intros (row' & ? & ?). by simplify_eq. }
  pose proof (ci_tree _ _ Hi) as Ht.
  destruct (processed_spec (E:=DominatorError) t row) as (ps & -> & Hps).
  { intros p [? _]%Hin%edge_lt. by apply member_lt. }
  msimpl. destruct ps as [|first rest].
  { destruct (not_elem_of_nil (forward_pred b)). apply Hps. rewrite Hin.
    split; [by apply forward_pred_spec|by eapply forward_pred_done]. }
  assert (Hd : forall p, p ∈ first :: rest -> done_ t p) by (intros p [_ ?]%Hps; done).
  destruct (intersect_fold (E:=DominatorError) t first rest Ht) as (next & -> & Hdn & Hnext).
  { apply Hd. by left. } { intros p Hp. apply Hd. by right. }
  assert (Hnext' : forall d, above t d next <-> forall p, edge g p b -> done_ t p -> above t d p).
  { intros d. rewrite Hnext. split.
    - intros [Hf Hr] p He Hp. assert (p ∈ first :: rest) as [->|?]%elem_of_cons by (apply Hps; rewrite Hin; done); auto.
    - intros Hall'. split; [apply Hall'|intros p Hp; apply Hall'];
        (apply Hin || apply Hd); try (by left); try (by right).
      + apply Hps. by left.
      + apply Hps. by right. }
  in_range t b as cur Hcur; [by apply member_lt|]. rewrite Hcur. msimpl.
  case_decide as Hc.
  - subst cur. assert (stable t b) as Hst.
    { exists next. split; [done|]. by apply Hnext'. }
    exists t, c. split; [done|]. split; [by eapply chk_inv_step|]. by left.
  - exists (<[b := Some next]> t), true. split; [done|]. split; [by eapply update_inv|]. right.
    split; [done|]. eapply update_potential; [done..|]. rewrite Hcur. congruence.
Qed.

(** ** Sweeps *)

Lemma order_rank i b : order !! i = Some b -> rank b = i /\ b ∈ order.
Proof. intros Hi. split; [unfold rank; by rewrite (Hpos _ _ Hi)|]. by eapply list_elem_of_lookup_2. Qed.

Lemma order_tail_ne i b : order !! S i = Some b -> b <> entry.
Proof. intros [Hr _]%order_rank ->. rewrite rank_entry in Hr. lia. Qed.

Lemma idom_sweep_spec suf i t c :
  drop (S i) order = suf -> chk_inv t (S i) ->
  exists t' c', foldM (update_idom preds pos) (t, c) suf = Ok (t', c') /\ chk_inv t' (S i + length suf) /\
    ((t' = t /\ c' = c /\ forall b, b ∈ suf -> stable t b) \/ (c' = true /\ (potential t' < potential t)%nat)).
Proof.
  revert i t c. induction suf as [|b suf IH]; intros i t c Hs Hi; cbn [foldM].
  { exists t, c. rewrite Nat.add_0_r. split_and!; [done..|]. left. split_and!; [done..|]. by intros b ?%not_elem_of_nil. }
  assert (Hb : order !! S i = Some b).
  { rewrite <- (Nat.add_0_r (S i)), <- lookup_drop, Hs. done. }
  destruct (order_rank _ _ Hb) as [Hr Hbl].
  destruct (update_idom_spec t (S i) b c Hi Hbl (order_tail_ne _ _ Hb) Hr) as (t1 & c1 & -> & Hi1 & Hc1). msimpl.
  destruct (IH (S i) t1 c1) as (t2 & c2 & -> & Hi2 & Hc2); [|done|].
  { rewrite (drop_S _ _ _ Hb) in Hs. by injection Hs. }
  exists t2, c2. split; [done|]. split; [cbn [length]; by rewrite Nat.add_succ_r|].
  destruct Hc1 as [(-> & -> & Hst)|[-> Hp]].
  - destruct Hc2 as [(-> & -> & Hst')|?]; [left|by right]. split_and!; [done..|].
    by intros x [->|?]%elem_of_cons; [|apply Hst'].
  - right. destruct Hc2 as [(-> & -> & _)|[-> Hp']]; [done|]. split; [done|lia].
Qed.

Lemma chk_inv_mono t k k' : (k' <= k)%nat -> chk_inv t k -> chk_inv t k'.
Proof. intros Hk [H1 H2 H3 H4]. split; [done| |done..]. intros b Hb Hne Hr. apply H2; [done..|lia]. Qed.

Lemma order_cons : order = entry :: tail order.
Proof. destruct order as [|x l]; cbn in *; congruence. Qed.

Lemma idom_loop_spec fuel t :
  chk_inv t 1 -> (potential t < fuel)%nat ->
  exists t', idom_loop fuel preds pos (tail order) t = Ok t' /\ chk_inv t' (length order) /\
    forall b, b ∈ tail order -> stable t' b.
Proof.
  revert t. induction fuel as [|fuel IH]; intros t Hi Hf; [lia|]. cbn [idom_loop].
  destruct (idom_sweep_spec (tail order) 0 t false) as (t1 & c1 & -> & Hi1 & Hc1); [|done|].
  { rewrite order_cons at 1. done. }
  assert (Hn : (1 + length (tail order))%nat = length order) by (rewrite order_cons at 2; done).
  rewrite Hn in Hi1. msimpl. destruct Hc1 as [(-> & -> & Hst)|[-> Hp]].
  - by exists t.
  - apply IH; [|lia]. eapply chk_inv_mono; [|done]. lia.
Qed.

Lemma potential_bound t : (forall b y, t !! b = Some (Some y) -> (rank y <= length g)%nat) ->
  (potential t <= length g * length t)%nat.
Proof.
  unfold potential. induction t as [|o t IH]; intros Ht; [cbn; lia|].
  assert (IH' := IH (fun b => Ht (S b))). assert (H0 := Ht 0%nat). csimpl.
  destruct o as [y|]; [specialize (H0 y eq_refl)|]; lia.
Qed.

Definition initial_idom : tree := <[entry := Some entry]> (replicate (length g) None).

Lemma initial_done b y : initial_idom !! b = Some (Some y) -> b = entry /\ y = entry.
Proof.
  unfold initial_idom. destruct (decide (b = entry)) as [->|Hne].
  - rewrite list_lookup_insert_eq by (by rewrite length_replicate). naive_solver.
  - rewrite list_lookup_insert_ne by done. by intros [? _]%lookup_replicate.
Qed.

Lemma initial_inv : chk_inv initial_idom 1.
Proof.
  split.
  - split; unfold initial_idom.
    + by rewrite length_insert, length_replicate.
    + by rewrite list_lookup_insert_eq by (by rewrite length_replicate).
    + intros b y Hne [? _]%initial_done. done.
    + intros b [y [-> _]%initial_done]. apply entry_member.
  - intros b Hb Hne Hr. destruct Hne. apply rank_inj; [done|apply entry_member|]. rewrite rank_entry. lia.
  - intros b y a Hne [? _]%initial_done. done.
  - intros x d [y [-> ->]%initial_done] Hd. specialize (Hd [entry] (path_one _ _)).
    apply list_elem_of_singleton in Hd as ->. constructor.
Qed.

(** ** The fixed point *)

Section fixed_point.
Context t (Hi : chk_inv t (length order)) (Hst : forall b, b ∈ tail order -> stable t b).

Lemma all_done b : b ∈ order -> done_ t b.
Proof.
  intros Hb. destruct (decide (b = entry)) as [->|Hne].
  - eexists. apply to_entry, Hi.
  - destruct (ci_front _ _ Hi b Hb Hne) as (y & Hy & _); [by apply rank_order|by exists y].
Qed.

(** The chain of a block is the set of its dominators. *)
Lemma above_dominates d b : b ∈ order -> above t d b <-> dominates_spec g entry d b.
Proof.
  intros Hb. split; [|by apply (ci_complete _ _ Hi), all_done].
  intros Ha l Hl. revert b d Hb Ha Hl. induction l as [l IH] using (induction_ltof1 _ length).
  intros b d Hb Ha Hl. unfold ltof in IH.
  destruct (decide (d = b)) as [->|Hdb]; [by eapply path_end|].
  destruct (decide (b = entry)) as [->|Hne].
  { destruct Hdb. by apply (above_entry t); [apply Hi|]. }
  destruct (path_inv_end _ _ _ _ Hl) as [[-> ->]|(p & l' & Hl' & He & ->)]; [done|].
  destruct (edge_lt _ _ He) as [Hp _]. apply elem_of_app. left.
  apply (IH l') with (b := p); [rewrite length_app; simpl; lia|done| |done].
  destruct (Hst b) as (y & Hy & Hyp).
  { rewrite order_cons in Hb. set_solver. }
  inversion Ha as [|? y' Hy' Ha']; subst; [done|]. simplify_eq.
  eapply above_trans; [exact Ha'|]. apply Hyp; [done|by apply all_done].
Qed.

(** Dropping the entry's self-loop changes no chain. *)
Lemma above_rooted d b : above (<[entry := None]> t) d b <-> above t d b.
Proof.
  assert (entry < length t)%nat as Hlt by (by rewrite (to_length _ (ci_tree _ _ Hi))).
  split; intros Ha.
  - induction Ha as [|x y Hxy Ha IH]; [done|]. destruct (decide (x = entry)) as [->|Hne].
    + by rewrite list_lookup_insert_eq in Hxy.
    + rewrite list_lookup_insert_ne in Hxy by done. eauto.
  - apply above_insert_keep; [done..|]. intros z _ Hd ->. symmetry. by eapply above_entry; [apply Hi|].
Qed.
End fixed_point.
End chk.

(** ** The numbering of the tree *)

Section numbering.
Context (idom : list (option nat)) (depth : nat -> nat).
Abbreviation n := (length idom).
Context (Hdepth : forall b y, idom !! b = Some (Some y) -> (y < n)%nat /\ (depth y < depth b)%nat).
Context (Hbound : forall b, (b < n)%nat -> (depth b < n)%nat).
Implicit Types (b c d x y : nat) (st : numbering).

Lemma above_depth d x : above idom d x -> d = x \/ (depth d < depth x)%nat.
Proof.
  induction 1 as [|x y Hxy _ IH]; [by left|]. right. destruct (Hdepth _ _ Hxy) as [_ ?].
  destruct IH as [->|]; lia.
Qed.

Lemma above_child b x : above idom b x <-> x = b \/ exists c, idom !! c = Some (Some b) /\ above idom c x.
Proof.
  split.
  - induction 1 as [|x y Hxy Ha IH]; [by left|]. right. destruct IH as [->|(c & Hc & Hcx)]; eauto.
  - intros [->|(c & Hc & Hcx)]; [done|]. eapply above_trans; [|done]. eauto.
Qed.

Lemma siblings_disjoint b c c' x :
  idom !! c = Some (Some b) -> idom !! c' = Some (Some b) -> above idom c x -> above idom c' x -> c = c'.
Proof.
  intros Hc Hc' Hx Hx'.
  assert (forall c c', idom !! c = Some (Some b) -> idom !! c' = Some (Some b) -> above idom c c' -> c = c') as Hgo.
  { intros e e' He He' Ha. inversion Ha as [|? y Hy Hab]; subst; [done|]. simplify_eq.
    destruct (Hdepth _ _ He). destruct (above_depth _ _ Hab) as [->|]; lia. }
  destruct (above_linear idom c c' x Hx Hx') as [?|?]; [by apply Hgo|]. symmetry. by apply Hgo.
Qed.

Lemma above_lt d x : (d < n)%nat -> above idom d x -> (x < n)%nat.
Proof. intros Hd Ha. inversion Ha as [|? y Hy%lookup_lt_Some]; subst; lia. Qed.

(** *** Children *)

Lemma children_fold {E} (l : list (nat * option nat)) (ch : graph) :
  length ch = n -> (forall ib y, ib ∈ l -> ib.2 = Some y -> (y < n)%nat) ->
  exists ch', foldM add_child ch l = Ok ch' :> result E _ /\ length ch' = n /\
    forall p row, ch !! p = Some row -> ch' !! p = Some (row ++ (filter (fun ib => ib.2 = Some p) l).*1).
Proof.
  revert ch. induction l as [|[i o] l IH]; intros ch Hch Hl; cbn [foldM].
  { exists ch. split_and!; [done..|]. intros p row. by rewrite app_nil_r. }
  assert (Hl' : forall ib y, ib ∈ l -> ib.2 = Some y -> (y < n)%nat) by (intros; eapply Hl; [by right|done]).
  destruct o as [y|].
  - destruct (lookup_lt_is_Some_2 ch y) as [row Hrow]; [rewrite Hch; by eapply (Hl (i, Some y)); [left|]|].
    assert (add_child ch (i, Some y) = Ok (<[y := row ++ [i]]> ch) :> result E _) as -> by (unfold add_child; cbn; by rewrite Hrow).
    msimpl. destruct (IH (<[y := row ++ [i]]> ch)) as (ch' & -> & Hch' & Hrows); [by rewrite length_insert|done|].
    exists ch'. split_and!; [done..|]. intros p prow Hp. rewrite filter_cons. cbn [snd].
    destruct (decide (y = p)) as [->|Hne].
    + rewrite decide_True by done. rewrite Hrow in Hp. injection Hp as <-.
      rewrite (Hrows p (row ++ [i])) by (apply list_lookup_insert_eq; eauto with index).
      csimpl. by rewrite <- app_assoc.
    + rewrite decide_False by congruence. apply Hrows. by rewrite list_lookup_insert_ne.
  - destruct (IH ch Hch Hl') as (ch' & Heq & Hch' & Hrows). change (add_child ch (i, None)) with (Ok ch : result E _).
    msimpl. rewrite Heq. exists ch'. split_and!; [done..|].
    intros p prow Hp. rewrite filter_cons. cbn [snd]. rewrite decide_False by done. by apply Hrows.
Qed.

Lemma dominator_children_spec {E} :
  exists children, dominator_children idom = Ok children :> result E _ /\
    forall b, (b < n)%nat -> exists row, children !! b = Some row /\ NoDup row /\
      forall c, c ∈ row <-> idom !! c = Some (Some b).
Proof.
  unfold dominator_children.
  destruct (children_fold (E:=E) (enumerate idom) (replicate (length idom) [])) as (ch & -> & Hl & Hrows).
  { by rewrite length_replicate. }
  { intros [i o] y Hin%elem_of_enumerate Ho. cbn in Ho. subst o. by eapply Hdepth. }
  exists ch. split; [done|]. intros b Hb. eexists. split.
  { rewrite (Hrows b []); [done|]. apply lookup_replicate. split; [done|lia]. }
  split.
  - apply NoDup_fmap_filter. rewrite fst_zip by (by rewrite length_seq). apply NoDup_seq.
  - intros c. cbn [app]. rewrite list_elem_of_fmap. split.
    + intros ([i o] & -> & [Ho Hin%elem_of_enumerate]%list_elem_of_filter). cbn in *. by subst o.
    + intros Hc. exists (c, Some b). split; [done|]. apply list_elem_of_filter. split; [done|].
      by apply elem_of_enumerate.
Qed.

(** *** Entry and exit times *)

Context (children : graph).
Context (Hchildren : forall b, (b < n)%nat -> exists row, children !! b = Some row /\ NoDup row /\
  forall c, c ∈ row <-> idom !! c = Some (Some b)).

Definition enter_of st x : nat := default 0%nat (nb_enter st !! x).
Definition exit_of st x : nat := default 0%nat (nb_exit st !! x).
Definition sized st : Prop := length (nb_enter st) = n /\ length (nb_exit st) = n.

(** What visiting the subtrees [cs] from [st] to [st'] does; [vs] are the
    blocks of the subtrees. *)
Record visited (cs vs : list nat) st st' : Prop := {
  vi_sized : sized st';
  vi_nodup : NoDup vs;
  vi_blocks x : x ∈ vs <-> exists c, c ∈ cs /\ above idom c x;
  vi_clock : clock st' = (clock st + 2 * length vs)%nat;
  vi_other x : x ∉ vs -> enter_of st' x = enter_of st x /\ exit_of st' x = exit_of st x;
  vi_times x : x ∈ vs -> (clock st <= enter_of st' x < exit_of st' x)%nat /\ (exit_of st' x < clock st')%nat;
  vi_nested x y : x ∈ vs -> y ∈ vs ->
    (enter_of st' x <= enter_of st' y /\ exit_of st' y <= exit_of st' x)%nat <-> above idom x y }.

Definition visits (cs : list nat) : Prop := forall st, sized st -> exists vs st',
  visited cs vs st st' /\
  forall E fuel rest, number_tree (2 * length vs + fuel) children (((fun c => (c, false)) <$> cs) ++ rest) st =
    number_tree fuel children rest st' :> result E _.

Lemma visits_nil : visits [].
Proof.
  intros st Hst. exists [], st. split; [|done]. split; [done|constructor|set_solver|simpl; lia|done|set_solver..].
Qed.

Lemma visits_cons c cs :
  visits [c] -> visits cs -> (forall c' x, c' ∈ cs -> above idom c x -> above idom c' x -> False) -> visits (c :: cs).
Proof.
  intros H1 H2 Hdis st Hst. destruct (H1 st Hst) as (vs1 & st1 & Hv1 & Hrun1).
  destruct (H2 st1 (vi_sized _ _ _ _ Hv1)) as (vs2 & st2 & Hv2 & Hrun2).
  assert (Hb1 : forall x, x ∈ vs1 <-> above idom c x).
  { intros x. rewrite (vi_blocks _ _ _ _ Hv1). setoid_rewrite list_elem_of_singleton. naive_solver. }
  assert (Hdisj : forall x, x ∈ vs1 -> x ∉ vs2).
  { intros x Hx%Hb1 (c' & ? & ?)%(vi_blocks _ _ _ _ Hv2). by eapply Hdis. }
  assert (Hold : forall x, x ∈ vs1 -> enter_of st2 x = enter_of st1 x /\ exit_of st2 x = exit_of st1 x).
  { intros x Hx. by apply Hv2, Hdisj. }
  pose proof (vi_clock _ _ _ _ Hv1) as Hc1. pose proof (vi_clock _ _ _ _ Hv2) as Hc2.
  exists (vs1 ++ vs2), st2. split.
  - split.
    + apply Hv2.
    + apply NoDup_app. split_and!; [apply Hv1|done|apply Hv2].
    + intros x. rewrite elem_of_app, Hb1, (vi_blocks _ _ _ _ Hv2). setoid_rewrite elem_of_cons. naive_solver.
    + rewrite length_app. lia.
    + intros x [Hx1 Hx2]%not_elem_of_app. destruct (vi_other _ _ _ _ Hv2 x Hx2) as [-> ->]. by apply Hv1.
    + intros x [Hx|Hx]%elem_of_app.
      * destruct (Hold x Hx) as [-> ->]. pose proof (vi_times _ _ _ _ Hv1 x Hx). lia.
      * pose proof (vi_times _ _ _ _ Hv2 x Hx). lia.
    + assert (Hcross : forall x y, x ∈ vs1 -> y ∈ vs2 -> ~ above idom x y /\ ~ above idom y x).
      { intros x y Hx Hy. pose proof Hy as (c' & Hc' & Ha')%(vi_blocks _ _ _ _ Hv2). apply Hb1 in Hx.
        split; intros Ha.
        - exact (Hdis c' y Hc' (above_trans _ _ _ _ Hx Ha) Ha').
        - exact (Hdis c' x Hc' Hx (above_trans _ _ _ _ Ha' Ha)). }
      intros x y [Hx|Hx]%elem_of_app [Hy|Hy]%elem_of_app.
      * destruct (Hold x Hx) as [-> ->], (Hold y Hy) as [-> ->]. by apply Hv1.
      * destruct (Hold x Hx) as [-> ->]. destruct (Hcross x y Hx Hy) as [? _].
        pose proof (vi_times _ _ _ _ Hv1 x Hx). pose proof (vi_times _ _ _ _ Hv2 y Hy). split; [lia|done].
      * destruct (Hold y Hy) as [-> ->]. destruct (Hcross y x Hy Hx) as [_ ?].
        pose proof (vi_times _ _ _ _ Hv1 y Hy). pose proof (vi_times _ _ _ _ Hv2 x Hx). split; [lia|done].
      * by apply Hv2.
  - intros E fuel rest. rewrite length_app.
    replace (2 * (length vs1 + length vs2) + fuel)%nat with (2 * length vs1 + (2 * length vs2 + fuel))%nat by lia.
    rewrite <- Hrun2. exact (Hrun1 E (2 * length vs2 + fuel)%nat (((fun c => (c, false)) <$> cs) ++ rest)).
Qed.

Lemma visits_list cs :
  NoDup cs -> (forall c, c ∈ cs -> visits [c]) ->
  (forall c c' x, c ∈ cs -> c' ∈ cs -> above idom c x -> above idom c' x -> c = c') -> visits cs.
Proof.
  induction 1 as [|c cs Hc Hnd IH]; intros Hv Hd; [apply visits_nil|]. apply visits_cons.
  - apply Hv. by left.
  - apply IH; [intros; apply Hv; by right|intros; eapply Hd; eauto; by right].
  - intros c' x Hc' Ha Ha'. apply Hc. rewrite (Hd c c' x); [done|by left|by right|done..].
Qed.

Lemma enter_insert st b k x ex ck :
  sized st -> (b < n)%nat -> enter_of (NB (<[b := k]> (nb_enter st)) ex ck) x = if decide (x = b) then k else enter_of st x.
Proof.
  intros [Hs _] Hb. unfold enter_of. cbn. case_decide; subst.
  - by rewrite list_lookup_insert_eq by lia.
  - by rewrite list_lookup_insert_ne.
Qed.
Lemma exit_insert st b k x en ck :
  sized st -> (b < n)%nat -> exit_of (NB en (<[b := k]> (nb_exit st)) ck) x = if decide (x = b) then k else exit_of st x.
Proof.
  intros [_ Hs] Hb. unfold exit_of. cbn. case_decide; subst.
  - by rewrite list_lookup_insert_eq by lia.
  - by rewrite list_lookup_insert_ne.
Qed.

Lemma visits_block b row :
  (b < n)%nat -> children !! b = Some row -> (forall c, c ∈ row <-> idom !! c = Some (Some b)) -> visits row -> visits [b].
Proof.
  intros Hb Hrow Hin Hv st Hst.
  set (st1 := NB (<[b := clock st]> (nb_enter st)) (nb_exit st) (S (clock st))).
  assert (Hst1 : sized st1) by (destruct Hst; split; cbn; by rewrite ?length_insert).
  destruct (Hv st1 Hst1) as (vs & st2 & Hv2 & Hrun).
  assert (Hvs : forall x, x ∈ vs <-> x <> b /\ above idom b x).
  { intros x. rewrite (vi_blocks _ _ _ _ Hv2), (above_child b x). setoid_rewrite Hin. split; [|naive_solver].
    intros (c & Hc & Ha). split; [|by eauto]. intros ->. destruct (Hdepth _ _ Hc).
    destruct (above_depth _ _ Ha) as [->|]; lia. }
  assert (Hbv : b ∉ vs) by (rewrite Hvs; tauto).
  pose proof (vi_clock _ _ _ _ Hv2) as Hc2. cbn in Hc2. pose proof (vi_sized _ _ _ _ Hv2) as Hst2.
  set (st3 := NB (nb_enter st2) (<[b := clock st2]> (nb_exit st2)) (S (clock st2))).
  assert (Hen : forall x, enter_of st3 x = enter_of st2 x) by done.
  assert (Hex : forall x, exit_of st3 x = if decide (x = b) then clock st2 else exit_of st2 x).
  { intros x. by apply exit_insert. }
  assert (Hen1 : forall x, enter_of st1 x = if decide (x = b) then clock st else enter_of st x).
  { intros x. by apply enter_insert. }
  destruct (vi_other _ _ _ _ Hv2 b Hbv) as [Heb _]. rewrite Hen1, decide_True in Heb by done.
  assert (Ht : forall x, x ∈ vs -> x <> b /\ (clock st < enter_of st3 x < exit_of st3 x)%nat /\ (exit_of st3 x < clock st2)%nat).
  { intros x Hx. pose proof (vi_times _ _ _ _ Hv2 x Hx) as Ht. cbn in Ht. apply Hvs in Hx as [Hxb _].
    rewrite Hen, Hex, decide_False by done. split; [done|]. lia. }
  exists (b :: vs), st3. split.
  - split.
    + destruct Hst2. split; cbn; by rewrite ?length_insert.
    + constructor; [done|apply Hv2].
    + intros x. rewrite elem_of_cons, Hvs. setoid_rewrite list_elem_of_singleton.
      destruct (decide (x = b)) as [->|]; split; naive_solver.
    + cbn. lia.
    + intros x [Hxb Hxv]%not_elem_of_cons. rewrite Hen, Hex, decide_False by done.
      destruct (vi_other _ _ _ _ Hv2 x Hxv) as [-> ->]. by rewrite Hen1, decide_False.
    + intros x [->|Hx]%elem_of_cons; [rewrite Hen, Hex, Heb, decide_True by done|apply Ht in Hx]; cbn; lia.
    + intros x y [->|Hx]%elem_of_cons [->|Hy]%elem_of_cons.
      * split; [done|lia].
      * pose proof (Ht y Hy) as (_ & ? & ?). apply Hvs in Hy as [_ ?].
        rewrite Hen, (Hex b), Heb, decide_True by done. split; [done|lia].
      * pose proof (Ht x Hx) as (_ & ? & ?). apply Hvs in Hx as [Hxb Hx].
        rewrite (Hen b), (Hex b), Heb, decide_True by done. split; [lia|].
        intros Ha. destruct (above_depth _ _ Ha), (above_depth _ _ Hx); congruence || lia.
      * rewrite !Hen, !Hex. apply Hvs in Hx as Hx', Hy as Hy'.
        rewrite !decide_False by tauto. by apply Hv2.
  - intros E fuel rest. cbn [length fmap list_fmap app].
    replace (2 * S (length vs) + fuel)%nat with (S (2 * length vs + S fuel)) by lia.
    cbn [number_tree]. unfold vset at 1. rewrite decide_True by (by rewrite (proj1 Hst)). rewrite Hrow. msimpl.
    rewrite Hrun. cbn [number_tree]. unfold vset. rewrite decide_True by (by rewrite (proj2 Hst2)). done.
Qed.

Lemma visits_all h b : (b < n)%nat -> (n - depth b <= h)%nat -> visits [b].
Proof.
  revert b. induction h as [|h IH]; intros b Hb Hh; [pose proof (Hbound b Hb); lia|].
  destruct (Hchildren b Hb) as (row & Hrow & Hnd & Hin).
  eapply visits_block; [done..|]. apply visits_list; [done| |].
  - intros c Hc%Hin. apply IH; [eauto with index|]. destruct (Hdepth _ _ Hc). lia.
  - intros c c' x Hc%Hin Hc'%Hin. by apply (siblings_disjoint b).
Qed.

(** The traversal from [entry] ends, and its intervals nest as the tree
    does. *)
Lemma number_tree_spec {E} entry :
  (entry < n)%nat -> (forall b, (b < n)%nat -> above idom entry b) ->
  exists st, number_tree (2 * n) children [(entry, false)] (NB (replicate n 0%nat) (replicate n 0%nat) 0) = Ok st :> result E _ /\
    forall d b, (d < n)%nat -> (b < n)%nat ->
      dominates (DT (nb_enter st) (nb_exit st)) d b = Ok (bool_decide (enter_of st d <= enter_of st b /\ exit_of st b <= exit_of st d)%nat)
        :> result E _ /\
      ((enter_of st d <= enter_of st b /\ exit_of st b <= exit_of st d)%nat <-> above idom d b).
Proof.
  intros He Hroot. set (st0 := NB (replicate n 0%nat) (replicate n 0%nat) 0).
  destruct (visits_all n entry He ltac:(lia) st0) as (vs & st & Hv & Hrun); [by split; apply length_replicate|].
  assert (Hin : forall x, (x < n)%nat -> x ∈ vs).
  { intros x Hx. apply (vi_blocks _ _ _ _ Hv). exists entry. split; [by left|auto]. }
  assert (Hvs : (length vs <= n)%nat).
  { apply NoDup_bounded_length; [apply Hv|].
    intros x (c & ->%list_elem_of_singleton & Hx)%(vi_blocks _ _ _ _ Hv). by eapply above_lt. }
  exists st. split.
  - replace (2 * n)%nat with (2 * length vs + 2 * (n - length vs))%nat by lia.
    specialize (Hrun E (2 * (n - length vs))%nat []). rewrite app_nil_r in Hrun. cbn in Hrun. cbn. rewrite Hrun.
    by destruct (n - length vs + (n - length vs + 0))%nat.
  - intros d b Hd Hb. split; [|apply (vi_nested _ _ _ _ Hv); auto].
    destruct (vi_sized _ _ _ _ Hv) as [Hen Hex].
    in_range (nb_enter st) d as ed Hed.
    in_range (nb_enter st) b as eb Heb.
    in_range (nb_exit st) d as xd Hxd.
    in_range (nb_exit st) b as xb Hxb.
    unfold dominates, enter_of, exit_of. cbn. rewrite Hed, Heb, Hxd, Hxb. msimpl. cbn.
    case_decide; f_equal; symmetry; [apply bool_decide_ext; tauto|by apply bool_decide_eq_false_2; intros [? _]].
Qed.
End numbering.

(** ** The whole computation *)

Lemma positions_fold {E} (l : list (nat * nat)) (pos : list nat) :
  (forall ib, ib ∈ l -> (ib.2 < length pos)%nat) -> NoDup l.*2 ->
  exists pos', foldM (fun positions (ib : nat * nat) => vset ib.2 ib.1 positions) pos l = Ok pos' :> result E _ /\
    length pos' = length pos /\ (forall ib, ib ∈ l -> pos' !! ib.2 = Some ib.1) /\
    forall b, b ∉ l.*2 -> pos' !! b = pos !! b.
Proof.
  revert pos. induction l as [|[i b] l IH]; intros pos Hl Hnd; cbn [foldM].
  { exists pos. split_and!; [done..|by intros ib ?%not_elem_of_nil|done]. }
  csimpl in *. apply NoDup_cons in Hnd as [Hb Hnd].
  assert (Hbl : (b < length pos)%nat) by (apply (Hl (i, b)); by left).
  unfold vset at 2. rewrite decide_True by done. msimpl.
  destruct (IH (<[b := i]> pos)) as (pos' & -> & Hlen & Hin & Hout); [|done|].
  { intros ib Hib. rewrite length_insert. apply Hl. by right. }
  exists pos'. rewrite length_insert in Hlen. split_and!; [done..| |].
  - intros ib [->|Hib]%elem_of_cons; [|by apply Hin]. cbn. rewrite Hout by done. by apply list_lookup_insert_eq.
  - intros x [Hxb Hx]%not_elem_of_cons. rewrite Hout by done. by apply list_lookup_insert_ne.
Qed.

Lemma rpo_positions_spec {E} n order :
  NoDup order -> (forall b, b ∈ order -> (b < n)%nat) ->
  exists pos, rpo_positions n order = Ok pos :> result E _ /\ length pos = n /\
    forall b i, order !! i = Some b -> pos !! b = Some i.
Proof.
  intros Hnd Hlt. unfold rpo_positions.
  destruct (positions_fold (E:=E) (enumerate order) (replicate n 0%nat)) as (pos & -> & Hlen & Hin & _).
  - intros [i b] Hk%elem_of_enumerate. rewrite length_replicate. cbn. by eapply Hlt, list_elem_of_lookup_2.
  - by rewrite snd_zip by (by rewrite length_seq).
  - exists pos. rewrite length_replicate in Hlen. split_and!; [done..|]. intros b i Hi. by apply (Hin (i, b)), elem_of_enumerate.
Qed.

Lemma compute_dominators_spec (g preds : graph) (entry : nat) :
  closed g -> reverses g preds -> (entry < length g)%nat ->
  match compute_dominators entry g preds with
  | Ok t => (forall b, (b < length g)%nat -> reachable g entry b) /\
      forall d b, (d < length g)%nat -> (b < length g)%nat ->
        exists v, dominates t d b = Ok v :> dom_result bool /\ (v = true <-> dominates_spec g entry d b)
  | Err (UnreachableBlock b) => (b < length g)%nat /\ ~ reachable g entry b
  | _ => False
  end.
Proof.
  intros Hc Hr He. unfold compute_dominators.
  destruct (dfs_spec g entry Hc He (E:=DominatorError)) as (st & -> & Hlen & Hdisc & Hpost & Hnd & Hlast & Hpar). msimpl.
  destruct (list_find _ _) as [[b reached]|] eqn:Hfind.
  { apply list_find_Some in Hfind as (Hb & -> & _). rewrite <- Hlen. split; [eauto with index|].
    intros Hre%Hdisc. congruence. }
  assert (Hall : forall b, (b < length g)%nat -> reachable g entry b).
  { intros b Hb. in_range (discovered st) b as v Hv.
    apply Hdisc. rewrite Hv. apply list_find_None in Hfind. rewrite Forall_forall in Hfind.
    specialize (Hfind v ltac:(by eapply list_elem_of_lookup_2)). by destruct v. }
  set (order := rev (postorder st)).
  assert (Hord : forall b, b ∈ order <-> (b < length g)%nat).
  { intros b. unfold order. rewrite <- Permutation_rev, Hpost. split; [by apply reachable_lt|apply Hall]. }
  assert (Hndo : NoDup order) by (unfold order; by rewrite <- Permutation_rev).
  assert (Hfirst : head order = Some entry).
  { apply last_Some in Hlast as [l Hl]. unfold order. by rewrite Hl, rev_app_distr. }
  assert (Hparent : forall b, b ∈ order -> b <> entry -> exists p, edge g p b /\ before p b order).
  { intros b Hb Hne. destruct (Hpar b) as (p & Hp & Hbef); [by apply Hpost, Hall, Hord|done|].
    exists p. split; [done|]. by apply before_reverse. }
  destruct (rpo_positions_spec (E:=DominatorError) (length g) order Hndo ltac:(intros; by apply Hord)) as (pos & -> & Hposlen & Hpos).
  msimpl. unfold vset at 1. rewrite decide_True by (by rewrite length_replicate). msimpl.
  assert (Hrange : forall b, b ∈ order -> (b < length g)%nat) by (intros; by apply Hord).
  assert (Hmember : forall a b, edge g a b -> a ∈ order /\ b ∈ order).
  { intros a b Hab. rewrite !Hord. split; [destruct Hab as (row & ? & _); eauto with index|by eapply Hc]. }
  assert (Hi0 : chk_inv g preds entry order pos (initial_idom g entry) 1) by (eapply initial_inv; eauto).
  destruct (idom_loop_spec g preds entry order Hr He Hndo Hrange Hmember Hfirst Hparent pos Hpos Hposlen
              (S (length g * length g)) _ Hi0) as (t & Heq & Hi & Hst).
  { apply Nat.lt_succ_r. etransitivity; [eapply potential_bound; [exact He|exact Hposlen|]|].
    - intros b y Hy. assert (b = entry /\ y = entry) as [_ ->] by (eapply initial_done; eauto).
      erewrite rank_entry by eauto. lia.
    - unfold initial_idom. by rewrite length_insert, length_replicate. }
  unfold initial_idom in Heq. rewrite Heq. msimpl.
  pose proof (ci_tree _ _ _ _ _ _ _ Hi) as Ht. pose proof (to_length _ _ _ _ _ _ Ht) as Htl.
  unfold vset at 1. rewrite decide_True by (by rewrite Htl). msimpl.
  set (tF := <[entry := None]> t).
  assert (HtF : length tF = length g) by (unfold tF; by rewrite length_insert).
  assert (Habove : forall d b, (b < length g)%nat -> above tF d b <-> dominates_spec g entry d b).
  { intros d b Hb. unfold tF. erewrite above_rooted by eauto. eapply above_dominates; eauto. by apply Hord. }
  assert (Hdepth : forall b y, tF !! b = Some (Some y) -> (y < length tF)%nat /\ (rank pos y < rank pos b)%nat).
  { intros b y Hy. destruct (decide (b = entry)) as [->|Hne].
    { unfold tF in Hy. rewrite list_lookup_insert_eq in Hy by lia. done. }
    assert (b < length g)%nat as Hb by (rewrite <- HtF; eauto with index).
    unfold tF in Hy. rewrite list_lookup_insert_ne in Hy by done.
    destruct (to_parent _ _ _ _ _ _ Ht b y Hne Hy) as [Hd Ha].
    split; [rewrite HtF; by apply Hrange, (to_member _ _ _ _ _ _ Ht)|].
    set (f := forward_pred preds entry pos b) in *.
    assert (edge g f b /\ (rank pos f < rank pos b)%nat) as [_ Hlt] by (eapply (forward_pred_spec g preds entry order); eauto; by apply Hord).
    destruct (ancestor_rank g preds entry order Hr He Hparent pos Hpos Hposlen y f Ha) as [->|]; lia. }
  destruct (dominator_children_spec tF (rank pos) Hdepth (E:=DominatorError)) as (children & -> & Hch). msimpl.
  destruct (number_tree_spec tF (rank pos) Hdepth) with (children := children) (entry := entry) (E := DominatorError)
    as (nst & Hrun & Hnest).
  - intros b Hb. rewrite HtF in *. eapply (rank_lt g entry order); eauto. by apply Hord.
  - exact Hch.
  - by rewrite HtF.
  - intros b Hb. apply Habove; [by rewrite <- HtF|]. intros l Hl. by eapply path_start.
  - rewrite HtF in Hrun. rewrite Hrun. msimpl. split; [done|]. intros d b Hd Hb.
    rewrite <- HtF in Hd, Hb. destruct (Hnest d b Hd Hb) as [Hdom Hiff]. eexists. split; [exact Hdom|].
    rewrite bool_decide_eq_true, Hiff. apply Habove. by rewrite <- HtF.
Qed.

(** C7: [compute_dominators] terminates and is exact. On a graph whose
    successors are blocks, with the predecessor rows of its edges, it either
    names a block that is not reachable from the entry, or every block is
    reachable and the constant-time test [dominates d b] of the resulting
    tree holds exactly when every path from the entry to [b] passes through
    [d]. It never panics, runs out of fuel, or misses a processed
    predecessor, whatever cycles the graph has. *)
Theorem compute_dominators_correct (g preds : graph) (entry : nat)
    (Hclosed : closed g) (Hrev : reverses g preds) (Hentry : (entry < length g)%nat) :
  match compute_dominators entry g preds with
  | Ok t => (forall b, (b < length g)%nat -> reachable g entry b) /\
      forall d b, (d < length g)%nat -> (b < length g)%nat ->
        exists v, dominates t d b = Ok v :> dom_result bool /\ (v = true <-> dominates_spec g entry d b)
  | Err (UnreachableBlock b) => (b < length g)%nat /\ ~ reachable g entry b
  | _ => False
  end.
Proof. by apply compute_dominators_spec. Qed.

Definition irreducible : graph := [[1; 2]; [2; 3]; [1]; []]%nat.

Lemma irreducible_closed : closed irreducible.
Proof. apply closed_rows. repeat constructor. Qed.

Lemma compute_dominators_correct_witness : exists preds,
  predecessor_rows irreducible = Ok preds :> dom_result _ /\ reverses irreducible preds /\
  exists t, compute_dominators 0 irreducible preds = Ok t /\
    (forall b, (b < 4)%nat -> reachable irreducible 0 b) /\
    exists v, dominates t 1 3 = Ok v :> dom_result bool /\ (v = true <-> dominates_spec irreducible 0 1 3).
Proof.
  destruct (predecessor_rows_spec (E:=DominatorError) irreducible irreducible_closed) as (preds & Hp & Hr & _).
  exists preds. split; [exact Hp|]. split; [exact Hr|].
  pose proof (compute_dominators_correct irreducible preds 0 irreducible_closed Hr ltac:(simpl; lia)) as H.
  destruct (compute_dominators 0 irreducible preds) as [t|e|] eqn:Ht.
  - exists t. split; [reflexivity|]. split; [apply H|]. apply H; simpl; lia.
  - exfalso. vm_compute in Hp. injection Hp as <-. vm_compute in Ht. discriminate Ht.
  - destruct H.
Defined.
