(* ===== verification/Liveness.v ===== *)
(** * Liveness: live intervals of a strict-SSA function

    Models the analysis of
    [crates/celox-backend-common/src/regalloc/live_interval.rs]: program
    points, the facts collected from the blocks, the backward data-flow
    iteration, and [analyze_live_intervals] itself, on the allocation facts of
    [RegAlloc] and with the dominator tree of [Dominators]. Error messages are
    dropped; rule, position and values are kept. *)

From S2P Require Import Prelude Order Worklist RegAlloc LiveInterval Graph Dominators.

Record DefinitionSite : Type := DS { d_block : nat; d_instruction : option nat; d_slot : Z }.
Record UseSite : Type := US { u_block : nat; u_instruction : option nat; u_slot : Z }.

#[global] Instance DefinitionSite_eq_dec : EqDecision DefinitionSite.
Proof. solve_decision. Defined.
#[global] Instance UseSite_eq_dec : EqDecision UseSite.
Proof. solve_decision. Defined.

Inductive LiveIntervalRule : Type :=
  | ALLOCATION_FACTS
  | SLOT_RANGE
  | MULTIPLE_DEFINITIONS
  | PHI_PREDECESSOR
  | UNREACHABLE_BLOCK
  | DOMINATOR_TREE
  | MISSING_DEFINITION
  | USE_BEFORE_DEFINITION
  | EMPTY_SEGMENT
  | DEFINITION_COVERAGE
  | DEFINITION_DOMINANCE.

Record LiveIntervalError (V : Type) : Type := LIE {
  rule : LiveIntervalRule;
  e_block : option nat;
  e_instruction : option nat;
  e_values : list V }.
Arguments LIE {V}. Arguments rule {V}. Arguments e_block {V}. Arguments e_instruction {V}. Arguments e_values {V}.

(** ** Program points *)

Definition checked_mul (a b : Z) : option Z := if decide (a * b <= usize_max) then Some (a * b) else None.

Definition instruction_use_slot (instruction : nat) : option Z :=
  slot ← checked_mul (Z.of_nat instruction) 3; checked_add slot 2.
Definition instruction_def_slot (instruction : nat) : option Z :=
  slot ← instruction_use_slot instruction; checked_add slot 2.

Record BlockSlots : Type := BS { phi_def : Z; exit_slot : Z }.

Section liveness.
Context {V R : Type} `{Countable V} `{!Ord V}.
Abbreviation facts := (FunctionAllocationFacts V R).
Abbreviation error := (LiveIntervalError V).
Abbreviation lv := (result error).
Implicit Types (f : facts) (v : V).

Definition block_slots f : lv (list BlockSlots) :=
  mapMr (fun ib : nat * BlockAllocationFacts V R =>
      exit ← ok_or (LIE SLOT_RANGE (Some ib.1) None [])
        (slot ← checked_mul (Z.of_nat (length (instructions ib.2))) 3; checked_add slot 2);
      Ok (BS 1 exit))
    (enumerate (blocks f)).

(** ** Facts of the blocks *)

Record BlockFacts : Type := BF { definitions : gset V; upward_uses : gset V; last_use : gmap V Z }.
Definition BlockFacts_default : BlockFacts := BF ∅ ∅ ∅.

Record ModelFacts : Type := MF {
  m_definitions : gmap V DefinitionSite;
  m_uses : gmap V (list UseSite);
  m_blocks : list BlockFacts;
  edge_uses : gmap (nat * nat) (gset V) }.

Definition record_definition (sites : gmap V DefinitionSite) v (site : DefinitionSite)
    : lv (gmap V DefinitionSite) :=
  match sites !! v with
  | Some _ => Err (LIE MULTIPLE_DEFINITIONS (Some (d_block site)) (d_instruction site) [v])
  | None => Ok (<[v := site]> sites)
  end.

(** [&mut blocks[b]] *)
Definition edit_block (b : nat) (change : BlockFacts -> BlockFacts) (l : list BlockFacts) : lv (list BlockFacts) :=
  bf ← expect (l !! b); Ok (<[b := change bf]> l).

Definition add_definition v (bf : BlockFacts) : BlockFacts :=
  BF ({[v]} ∪ definitions bf) (upward_uses bf) (last_use bf).
Definition add_upward_use v (bf : BlockFacts) : BlockFacts :=
  BF (definitions bf) ({[v]} ∪ upward_uses bf) (last_use bf).
(** [entry(value).and_modify(|current| max).or_insert(slot)] *)
Definition touch_last_use v (slot : Z) (bf : BlockFacts) : BlockFacts :=
  BF (definitions bf) (upward_uses bf)
    (<[v := match last_use bf !! v with Some current => Z.max current slot | None => slot end]> (last_use bf)).
(** [uses.entry(value).or_default().push(site)] *)
Definition push_use v (site : UseSite) (sites : gmap V (list UseSite)) : gmap V (list UseSite) :=
  <[v := default [] (sites !! v) ++ [site]]> sites.

Definition define_value (site : DefinitionSite) (m : ModelFacts) v : lv ModelFacts :=
  sites ← record_definition (m_definitions m) v site;
  bs ← edit_block (d_block site) (add_definition v) (m_blocks m);
  Ok (MF sites (m_uses m) bs (edge_uses m)).

Definition use_value (site : UseSite) (seen : gset V) (m : ModelFacts) v : lv ModelFacts :=
  bs ← edit_block (u_block site)
    (fun bf => touch_last_use v (u_slot site) (if decide (v ∈ seen) then bf else add_upward_use v bf)) (m_blocks m);
  Ok (MF (m_definitions m) (push_use v site (m_uses m)) bs (edge_uses m)).

(** One instruction; the set is [seen_definitions]. *)
Definition collect_instruction (block : nat) (st : ModelFacts * gset V)
    (ii : nat * InstructionAllocationFacts V R) : lv (ModelFacts * gset V) :=
  let '(m, seen) := st in
  use_slot ← ok_or (LIE SLOT_RANGE (Some block) (Some ii.1) []) (instruction_use_slot ii.1);
  (* [sort_unstable] and [dedup] of the uses *)
  m ← foldM (use_value (US block (Some ii.1) use_slot) seen) m (ascending (list_to_set (uses ii.2)));
  def_slot ← ok_or (LIE SLOT_RANGE (Some block) (Some ii.1) []) (instruction_def_slot ii.1);
  m ← foldM (define_value (DS block (Some ii.1) def_slot)) m (defs ii.2);
  Ok (m, list_to_set (defs ii.2) ∪ seen).

Definition collect_block (slots : list BlockSlots) (m : ModelFacts) (ib : nat * BlockAllocationFacts V R)
    : lv ModelFacts :=
  m ← foldM (fun m phi =>
      slot ← expect (slots !! ib.1);
      define_value (DS ib.1 None (phi_def slot)) m (phi_destination phi)) m (phis ib.2);
  bf ← expect (m_blocks m !! ib.1);
  st ← foldM (collect_instruction ib.1) (m, definitions bf) (enumerate (instructions ib.2));
  Ok st.1.

(** One source of a phi of block [successor]; the set is
    [seen_predecessors]. *)
Definition collect_source (slots : list BlockSlots) (successor : nat) (st : ModelFacts * gset nat) (source : PhiSource V)
    : lv (ModelFacts * gset nat) :=
  let '(m, seen) := st in
  let p := predecessor source in
  let v := phi_value source in
  if decide (p ∈ seen) then Err (LIE PHI_PREDECESSOR (Some successor) None [v]) else
  slot ← expect (slots !! p);
  bs ← edit_block p (touch_last_use v (exit_slot slot)) (m_blocks m);
  Ok (MF (m_definitions m) (push_use v (US p None (exit_slot slot)) (m_uses m)) bs
        (<[(p, successor) := {[v]} ∪ default ∅ (edge_uses m !! (p, successor))]> (edge_uses m)),
      {[p]} ∪ seen).

Definition collect_phi (slots : list BlockSlots) (predecessors : graph) (successor : nat) (m : ModelFacts)
    (phi : PhiAllocationFacts V) : lv ModelFacts :=
  st ← foldM (collect_source slots successor) (m, ∅) (sources phi);
  row ← expect (predecessors !! successor);
  if decide (size st.2 = length row) then Ok st.1
  else Err (LIE PHI_PREDECESSOR (Some successor) None [phi_destination phi]).

(** The derived order of [UseSite]. *)
Definition use_site_key (site : UseSite) : Z * (Z * Z) :=
  (Z.of_nat (u_block site),
   (match u_instruction site with None => -1 | Some i => Z.of_nat i end, u_slot site)).

Definition collect_model f (predecessors : graph) (slots : list BlockSlots) : lv ModelFacts :=
  m ← foldM (collect_block slots)
        (MF ∅ ∅ (replicate (length (blocks f)) BlockFacts_default) ∅) (enumerate (blocks f));
  m ← foldM (fun m (ib : nat * BlockAllocationFacts V R) => foldM (collect_phi slots predecessors ib.1) m (phis ib.2))
        m (enumerate (blocks f));
  Ok (MF (m_definitions m) ((fun sites => dedup (sort_by_key use_site_key sites)) <$> m_uses m)
        (m_blocks m) (edge_uses m)).

(** ** Backward data flow *)

Record LiveState : Type := LVS {
  live_in : list (gset V);
  live_out : list (gset V);
  queue : list nat;
  queued : list bool }.

(** [next_out]: what the successors need. *)
Definition join_successor (m : ModelFacts) (block : nat) (st : LiveState) (out : gset V) (successor : nat) : lv (gset V) :=
  below ← expect (live_in st !! successor);
  Ok (default ∅ (edge_uses m !! (block, successor)) ∪ (below ∪ out)).
Definition next_out f (m : ModelFacts) (block : nat) (st : LiveState) : lv (gset V) :=
  blk ← expect (blocks f !! block); foldM (join_successor m block st) ∅ (successors blk).

Definition visit_block f (predecessors : graph) (m : ModelFacts) (block : nat) (st : LiveState) : lv LiveState :=
  queued' ← vset block false (queued st);
  out ← next_out f m block st;
  bf ← expect (m_blocks m !! block);
  let in_ := upward_uses bf ∪ ((out : gset V) ∖ definitions bf) in
  old_in ← expect (live_in st !! block);
  old_out ← expect (live_out st !! block);
  if decide (in_ = old_in /\ out = old_out) then Ok (LVS (live_in st) (live_out st) (queue st) queued')
  else
    row ← expect (predecessors !! block);
    '(q, qd) ← foldM enqueue (queue st, queued') row;
    Ok (LVS (<[block := in_]> (live_in st)) (<[block := out]> (live_out st)) q qd).

Fixpoint liveness_loop (fuel : nat) f (predecessors : graph) (m : ModelFacts) (st : LiveState) : lv LiveState :=
  match queue st with
  | [] => Ok st
  | block :: rest =>
      match fuel with
      | O => Panic
      | S fuel =>
          st ← visit_block f predecessors m block (LVS (live_in st) (live_out st) rest (queued st));
          liveness_loop fuel f predecessors m st
      end
  end.

(** Every value that a block or an edge needs. *)
Definition needed_values (m : ModelFacts) : gset V :=
  foldr (fun bf s => upward_uses bf ∪ s) (foldr (fun kv s => kv.2 ∪ s) ∅ (map_to_list (edge_uses m))) (m_blocks m).

(** Each change adds one of these values to a live set; between changes the
    queue, which holds a block at most once, shrinks. *)
Definition liveness_fuel f (m : ModelFacts) : nat :=
  let n := length (blocks f) in (2 * n * size (needed_values m) * S n + n)%nat.

Definition solve_liveness f (predecessors : graph) (m : ModelFacts) : lv LiveState :=
  let n := length (blocks f) in
  liveness_loop (liveness_fuel f m) f predecessors m
    (LVS (replicate n ∅) (replicate n ∅) (rev (seq 0 n)) (replicate n true)).

(** ** The analysis *)

Record LiveIntervals : Type := LIS {
  intervals : gmap V (LiveInterval V);
  ls_live_in : list (gset V);
  ls_live_out : list (gset V) }.

Definition lift_dominator_error {A} (r : dom_result A) : lv A :=
  match r with
  | Ok a => Ok a
  | Err (UnreachableBlock b) => Err (LIE UNREACHABLE_BLOCK (Some b) None [])
  | Err (NoProcessedPredecessor b) => Err (LIE DOMINATOR_TREE (Some b) None [])
  | Panic => Panic
  end.

(** The end of the segment of [v] in [block]: past the exit, past the last
    use, or past the definition. *)
Definition segment_end (slots : BlockSlots) (bf : BlockFacts) (out : gset V) (block : nat) (definition : DefinitionSite) v
    : option Z :=
  if decide (v ∈ out) then checked_add (exit_slot slots) 1
  else
    match last_use bf !! v with
    | Some last => checked_add last 1
    | None => if decide (d_block definition = block) then checked_add (d_slot definition) 1 else None
    end.

(** The segment of one value of one block. *)
Definition add_segment (slots : list BlockSlots) (m : ModelFacts) (live : LiveState) (block : nat)
    (segs : gmap V (list LiveSegment)) v : lv (gmap V (list LiveSegment)) :=
  definition ← ok_or (LIE MISSING_DEFINITION (Some block) None [v]) (m_definitions m !! v);
  in_ ← expect (live_in live !! block);
  if decide (d_block definition = block /\ v ∈ (in_ : gset V)) then
    Err (LIE USE_BEFORE_DEFINITION (Some block) (d_instruction definition) [v]) else
  let start := if decide (d_block definition = block) then d_slot definition else 0 in
  out ← expect (live_out live !! block);
  s ← expect (slots !! block);
  bf ← expect (m_blocks m !! block);
  stop ← ok_or (LIE SLOT_RANGE (Some block) None [v]) (segment_end s bf out block definition v);
  if decide (stop <= start) then Err (LIE EMPTY_SEGMENT (Some block) None [v])
  else Ok (<[v := default [] (segs !! v) ++ [LS (Z.of_nat block) start stop]]> segs).

Definition block_values (m : ModelFacts) (live : LiveState) (block : nat) : lv (list V) :=
  in_ ← expect (live_in live !! block);
  out ← expect (live_out live !! block);
  bf ← expect (m_blocks m !! block);
  Ok (ascending ((in_ : gset V) ∪ (out : gset V) ∪ definitions bf ∪ dom (last_use bf))).

Definition build_segments f (slots : list BlockSlots) (m : ModelFacts) (live : LiveState)
    : lv (gmap V (list LiveSegment)) :=
  foldM (fun segs block =>
      values ← block_values m live block;
      foldM (add_segment slots m live block) segs values) ∅ (seq 0 (length (blocks f))).

Definition segment_key (s : LiveSegment) : Z * Z := (LiveInterval.block s, seg_start s).

Definition covers (i : LiveInterval V) (block : nat) (slot : Z) : bool :=
  match segment_in_block i (Z.of_nat block) with Some s => LiveInterval.contains s slot | None => false end.

(** [covered] and [dominated] of one use. *)
Definition check_use (dominators : DominatorTree) (definition : DefinitionSite) (i : LiveInterval V) v (site : UseSite)
    : lv unit :=
  dominated ← (if decide (d_block definition = u_block site) then Ok (bool_decide (d_slot definition < u_slot site))
               else dominates dominators (d_block definition) (u_block site));
  if covers i (u_block site) (u_slot site) && (dominated : bool) then Ok tt
  else Err (LIE DEFINITION_DOMINANCE (Some (u_block site)) (u_instruction site) [v]).

(** The interval of one defined value; its segments leave the map. *)
Definition add_interval (dominators : DominatorTree) (m : ModelFacts)
    (st : gmap V (list LiveSegment) * gmap V (LiveInterval V)) v
    : lv (gmap V (list LiveSegment) * gmap V (LiveInterval V)) :=
  let '(segs, is_) := st in
  definition ← expect (m_definitions m !! v);
  let i := LI v (sort_by_key segment_key (default [] (segs !! v))) in
  if covers i (d_block definition) (d_slot definition) then
    _ ← foldM (fun (_ : unit) site => check_use dominators definition i v site) tt (default [] (m_uses m !! v));
    Ok (delete v segs, <[v := i]> is_)
  else Err (LIE DEFINITION_COVERAGE (Some (d_block definition)) (d_instruction definition) [v]).

(** [uses.iter().find(|(value, _)| !definitions.contains_key(value))] *)
Definition check_defined (m : ModelFacts) : lv unit :=
  match list_find (fun v => m_definitions m !! v = None) (ascending (dom (m_uses m))) with
  | None => Ok tt
  | Some (_, v) =>
      let site := head (default [] (m_uses m !! v)) in
      Err (LIE MISSING_DEFINITION (u_block <$> site) (site ≫= u_instruction) [v])
  end.

Definition analyze_live_intervals f : lv LiveIntervals :=
  _ ← (match verify f with
       | Ok u => Ok u
       | Err _ => Err (LIE ALLOCATION_FACTS None None [])
       | Panic => Panic
       end);
  let rows := successors <$> blocks f in
  predecessors ← predecessor_rows rows;
  dominators ← lift_dominator_error (compute_dominators (entry f) rows predecessors);
  slots ← block_slots f;
  m ← collect_model f predecessors slots;
  live ← solve_liveness f predecessors m;
  segs ← build_segments f slots m live;
  st ← foldM (add_interval dominators m) (segs, ∅) (ascending (dom (m_definitions m)));
  _ ← check_defined m;
  Ok (LIS st.2 (live_in live) (live_out live)).
End liveness.

(** ** A diamond with a loop-carried phi *)

Definition instr (us ds : list Z) : InstructionAllocationFacts Z Reg := IAF us ds (IC [] [] []) false.

(** b0: 1 := ..; b1: 2 := phi(b0: 1, b2: 3); use 2; b2: 3 := f(2), back to b1;
    b3: use 2. *)
Definition loop_facts : FunctionAllocationFacts Z Reg := FAF 0
  [BAF [1%nat] [] [instr [] [1]];
   BAF [2%nat; 3%nat] [PAF 2 [PS 0 1; PS 2 3]] [instr [2] []];
   BAF [1%nat] [] [instr [2] [3]];
   BAF [] [] [instr [2] []]].

Example loop_intervals :
  match analyze_live_intervals loop_facts with
  | Ok r => (fun v => (fun i : LiveInterval Z => (fun s => (LiveInterval.block s, seg_start s, seg_stop s)) <$> segments i) <$> (intervals r !! v)) <$> [1; 2; 3]
  | _ => []
  end =
  [Some [(0, 4, 6)]; Some [(1, 1, 6); (2, 0, 3); (3, 0, 3)]; Some [(2, 4, 6)]].
Proof. vm_compute. reflexivity. Qed.
