(* ===== verification/LivenessFlow.v ===== *)
(** * LivenessFlow: the data-flow iteration is exact

    [solve_liveness] ends within its fuel, and a value is in the live-in set
    of a block exactly when some path from the block's entry reaches a use of
    it that no definition precedes. *)

From S2P Require Import Prelude Order Worklist RegAlloc LiveInterval Graph Dominators DominatorsFacts Liveness.

Section flow.
Context {V R : Type} `{Countable V} `{!Ord V}.
Context (f : FunctionAllocationFacts V R) (preds : graph) (m : ModelFacts (V:=V)).
Abbreviation n := (length (blocks f)).
Abbreviation rows := (successors <$> blocks f).
Context (Hclosed : closed rows) (Hrev : reverses rows preds) (Hblocks : length (m_blocks m) = n).
Implicit Types (b s p : nat) (v : V) (st : LiveState (V:=V)).

Definition row b : list nat := default [] (successors <$> (blocks f !! b)).
Definition facts_of b : BlockFacts (V:=V) := default BlockFacts_default (m_blocks m !! b).
Definition edge_need b s : gset V := default ∅ (edge_uses m !! (b, s)).

Lemma edge_rows b s : edge rows b s <-> s ∈ row b.
Proof.
  unfold edge, row. rewrite list_lookup_fmap. destruct (blocks f !! b) as [blk|]; cbn.
  - split; [by intros (r & [= <-] & ?)|by eauto].
  - split; [by intros (? & ? & _)|by intros ?%not_elem_of_nil].
Qed.

(** [v] is needed at the entry of [b]. *)
Inductive live_entry v : nat -> Prop :=
  | le_use b : v ∈ upward_uses (facts_of b) -> live_entry v b
  | le_edge b s : s ∈ row b -> v ∈ edge_need b s -> v ∉ definitions (facts_of b) -> live_entry v b
  | le_through b s : s ∈ row b -> live_entry v s -> v ∉ definitions (facts_of b) -> live_entry v b.

(** [v] is needed at the exit of [b]. *)
Definition live_exit v b : Prop := exists s, s ∈ row b /\ (v ∈ edge_need b s \/ live_entry v s).

Lemma live_entry_exit v b :
  live_entry v b <-> v ∈ upward_uses (facts_of b) \/ (live_exit v b /\ v ∉ definitions (facts_of b)).
Proof.
  split.
  - intros Hl. destruct Hl as [b ?|b s ? ? ?|b s ? ? ?]; [by left|right..]; split; try done; exists s; tauto.
  - intros [?|[(s & Hs & [?|?]) ?]]; [by apply le_use|by eapply le_edge|by eapply le_through].
Qed.

(** ** One visit *)

Definition in_of st b : gset V := default ∅ (live_in st !! b).
Definition out_of st b : gset V := default ∅ (live_out st !! b).

(** The right-hand sides of the data-flow equations. *)
Definition out_rhs st b : gset V := ⋃ ((fun s => edge_need b s ∪ in_of st s) <$> row b).
Definition in_rhs b (out : gset V) : gset V := upward_uses (facts_of b) ∪ (out ∖ definitions (facts_of b)).

Lemma elem_of_out_rhs st b v : v ∈ out_rhs st b <-> exists s, s ∈ row b /\ (v ∈ edge_need b s \/ v ∈ in_of st s).
Proof.
  unfold out_rhs. rewrite elem_of_union_list. setoid_rewrite list_elem_of_fmap. split.
  - intros (X & (s & -> & Hs) & Hv). exists s. set_solver.
  - intros (s & Hs & Hv). eexists. split; [by exists s|]. set_solver.
Qed.

Definition sized st : Prop := length (live_in st) = n /\ length (live_out st) = n /\ length (queued st) = n.

Lemma next_out_spec st b :
  sized st -> (b < n)%nat -> exists out, next_out f m b st = Ok out /\ out = out_rhs st b.
Proof.
  intros (Hin & _ & _) Hb. unfold next_out. in_range (blocks f) b as blk Hblk.
  rewrite Hblk. msimpl.
  assert (Hgo : forall l acc, (forall s, s ∈ l -> (s < n)%nat) ->
    exists out, foldM (join_successor m b st) acc l = Ok out /\
      forall v, v ∈ out <-> v ∈ acc \/ exists s, s ∈ l /\ (v ∈ edge_need b s \/ v ∈ in_of st s)).
  { induction l as [|s l IH]; intros acc Hl; cbn [foldM]; [exists acc; set_solver|].
    in_range (live_in st) s as X HX; [rewrite Hin; apply Hl; by left|].
    assert (join_successor m b st acc s = Ok (edge_need b s ∪ (X ∪ acc))) as -> by (unfold join_successor; by rewrite HX).
    msimpl. destruct (IH (edge_need b s ∪ (X ∪ acc))) as (out & -> & Hout).
    { intros. apply Hl. by right. }
    exists out. split; [done|]. intros v. rewrite Hout. setoid_rewrite elem_of_cons.
    assert (Hs : in_of st s = X) by (unfold in_of; by rewrite HX). rewrite !elem_of_union. split.
    - intros [[?|[?|?]]|(s' & ? & ?)]; [right; exists s; tauto|right; exists s; rewrite Hs; tauto|tauto|right; exists s'; tauto].
    - intros [?|(s' & [->|?] & Hv)]; [tauto| |right; eauto]. rewrite Hs in Hv. tauto. }
  assert (Hrow : row b = successors blk) by (unfold row; by rewrite Hblk).
  destruct (Hgo (successors blk) ∅) as (out & Heq & Hout).
  { intros s Hs. rewrite <- (length_fmap successors). apply (Hclosed b). apply edge_rows. by rewrite Hrow. }
  exists out. split; [exact Heq|]. apply set_eq. intros v. rewrite Hout, elem_of_out_rhs, Hrow. set_solver.
Qed.

(** ** The invariant *)

Record flow_inv st : Prop := {
  fi_sized : sized st;
  fi_queue : queue_ok n (queue st) (queued st);
  fi_equation b : (b < n)%nat -> b ∉ queue st -> out_of st b = out_rhs st b /\ in_of st b = in_rhs b (out_of st b);
  fi_out b : (b < n)%nat -> out_of st b ⊆ out_rhs st b;
  fi_in b : (b < n)%nat -> in_of st b ⊆ in_rhs b (out_of st b);
  fi_sound b v : v ∈ in_of st b -> live_entry v b }.

Lemma out_sound st b v : flow_inv st -> (b < n)%nat -> v ∈ out_rhs st b -> live_exit v b.
Proof.
  intros Hi Hb (s & Hs & Hv)%elem_of_out_rhs. exists s. split; [done|].
  destruct Hv as [?|?%(fi_sound _ Hi)]; tauto.
Qed.

Lemma rhs_sound st b v : flow_inv st -> (b < n)%nat -> v ∈ in_rhs b (out_rhs st b) -> live_entry v b.
Proof.
  intros Hi Hb. unfold in_rhs. rewrite elem_of_union, elem_of_difference, live_entry_exit.
  intros [?|[?%out_sound ?]]; tauto.
Qed.

(** *** Values still missing from the live sets *)

Lemma elem_of_needed v :
  v ∈ needed_values m <-> (exists b, v ∈ upward_uses (facts_of b)) \/ exists b s, v ∈ edge_need b s.
Proof.
  unfold needed_values.
  assert (He : forall l : list (nat * nat * gset V), v ∈ foldr (fun kv acc => kv.2 ∪ acc) ∅ l <-> exists k X, (k, X) ∈ l /\ v ∈ X).
  { induction l as [|[k X] l IH]; cbn; [set_solver|]. rewrite elem_of_union, IH. setoid_rewrite elem_of_cons. naive_solver. }
  assert (Hb : forall (l : list (BlockFacts (V:=V))) (Y : gset V),
    v ∈ foldr (fun bf acc => upward_uses bf ∪ acc) Y l <-> (exists bf, bf ∈ l /\ v ∈ upward_uses bf) \/ v ∈ Y).
  { induction l as [|bf l IH]; intros Y; cbn; [set_solver|]. rewrite elem_of_union, IH. setoid_rewrite elem_of_cons. naive_solver. }
  rewrite Hb, He. unfold facts_of, edge_need. split.
  - intros [(bf & [b Hbf]%list_elem_of_lookup & Hv)|([b s] & X & HX%elem_of_map_to_list & Hv)].
    + left. exists b. by rewrite Hbf.
    + right. exists b, s. by rewrite HX.
  - intros [[b Hv]|(b & s & Hv)].
    + left. destruct (m_blocks m !! b) as [bf|] eqn:Hbf; [|set_solver]. exists bf.
      split; [by eapply list_elem_of_lookup_2|done].
    + right. destruct (edge_uses m !! (b, s)) as [X|] eqn:HX; [|set_solver].
      exists (b, s), X. by rewrite elem_of_map_to_list.
Qed.

Lemma live_entry_needed v b : live_entry v b -> v ∈ needed_values m.
Proof. rewrite elem_of_needed. induction 1; eauto. Qed.

Definition missing st b : nat :=
  (size (needed_values m) - size (in_of st b) + (size (needed_values m) - size (out_of st b)))%nat.
Definition slack st : nat := sum_list (missing st <$> seq 0 n).
Definition flow_measure st : nat := (slack st * S n + length (queue st))%nat.

Lemma in_bounded st b : flow_inv st -> in_of st b ⊆ needed_values m.
Proof. intros Hi v Hv%(fi_sound _ Hi). by eapply live_entry_needed. Qed.
Lemma out_bounded st b : flow_inv st -> (b < n)%nat -> out_of st b ⊆ needed_values m.
Proof.
  intros Hi Hb v Hv%(fi_out _ Hi); [|done]. apply (out_sound st b v Hi Hb) in Hv as (s & Hs & [?|?]).
  - apply elem_of_needed. eauto.
  - by eapply live_entry_needed.
Qed.

(** *** Changing the sets of one block *)

Section change.
Context st b (Hi : flow_inv st) (Hb : (b < n)%nat) (q' : list nat) (qd' : list bool).
Abbreviation out' := (out_rhs st b).
Abbreviation in' := (in_rhs b out').
Abbreviation st' := (LVS (<[b := in']> (live_in st)) (<[b := out']> (live_out st)) q' qd').

Lemma in_changed x : in_of st' x = if decide (x = b) then in' else in_of st x.
Proof.
  unfold in_of. cbn. case_decide; subst.
  - by rewrite list_lookup_insert_eq by (by rewrite (proj1 (fi_sized _ Hi))).
  - by rewrite list_lookup_insert_ne.
Qed.
Lemma out_changed x : out_of st' x = if decide (x = b) then out' else out_of st x.
Proof.
  unfold out_of. cbn. case_decide; subst.
  - by rewrite list_lookup_insert_eq by (by rewrite (proj1 (proj2 (fi_sized _ Hi)))).
  - by rewrite list_lookup_insert_ne.
Qed.

Lemma in_rhs_mono x (X Y : gset V) : X ⊆ Y -> in_rhs x X ⊆ in_rhs x Y.
Proof. unfold in_rhs. set_solver. Qed.

Lemma in_grows x : in_of st x ⊆ in_of st' x.
Proof.
  rewrite in_changed. case_decide as Hx; [subst x|done].
  etransitivity; [by apply fi_in|]. apply in_rhs_mono, (fi_out _ Hi). done.
Qed.
Lemma out_grows x : out_of st x ⊆ out_of st' x.
Proof. rewrite out_changed. case_decide as Hx; [subst x|done]. by apply fi_out. Qed.

Lemma rhs_grows x : out_rhs st x ⊆ out_rhs st' x.
Proof.
  intros v. rewrite !elem_of_out_rhs. intros (s & Hs & [?|Hv]); exists s; [tauto|].
  split; [done|]. right. by apply in_grows.
Qed.

(** Only the predecessors of [b] see the change. *)
Lemma rhs_same x : b ∉ row x -> out_rhs st' x = out_rhs st x.
Proof.
  intros Hx. apply set_eq. intros v. rewrite !elem_of_out_rhs.
  apply exist_proper. intros s. split; intros [Hs Hv]; (split; [done|]);
    rewrite in_changed in *; (rewrite decide_False in * by congruence); done.
Qed.
End change.

(** A visit that changes nothing. *)
Lemma visit_same st b rest qd :
  flow_inv st -> queue st = b :: rest -> queue_ok n rest qd ->
  in_rhs b (out_rhs st b) = in_of st b -> out_rhs st b = out_of st b ->
  flow_inv (LVS (live_in st) (live_out st) rest qd).
Proof.
  intros [Hs Hq He Ho Hin Hsnd] Hqueue Hq' Heq1 Heq2. destruct Hs as (? & ? & ?).
  split; try done.
  - split_and!; [done..|apply Hq'].
  - intros x Hx Hxr. cbn in Hxr. destruct (decide (x = b)) as [->|Hne].
    + split; [done|]. change (in_of st b = in_rhs b (out_of st b)). congruence.
    + apply He; [done|]. rewrite Hqueue. set_solver.
Qed.

(** A visit that changes the sets of [b] and queues its predecessors. *)
Lemma visit_changed st b rest q' qd' :
  flow_inv st -> queue st = b :: rest -> (b < n)%nat -> queue_ok n q' qd' ->
  (forall x, x ∈ q' <-> x ∈ rest \/ edge rows x b) ->
  flow_inv (LVS (<[b := in_rhs b (out_rhs st b)]> (live_in st)) (<[b := out_rhs st b]> (live_out st)) q' qd').
Proof.
  intros Hi Hqueue Hb Hq' Hin. pose proof Hi as [Hs Hq He Ho Hi' Hsnd]. destruct Hs as (? & ? & ?).
  set (st' := LVS _ _ _ _). split.
  - split_and!; cbn; rewrite ?length_insert; [done..|apply Hq'].
  - done.
  - intros x Hx Hxq. cbn in Hxq. rewrite Hin, edge_rows in Hxq.
    unfold st'. rewrite (rhs_same st b Hi Hb) by tauto. rewrite in_changed, !out_changed by done.
    case_decide as Hxb; [by subst x|]. apply He; [done|]. rewrite Hqueue. set_solver.
  - intros x Hx. unfold st'. rewrite out_changed by done. case_decide as Hxb; [subst x; by apply rhs_grows|].
    etransitivity; [by apply Ho|by apply rhs_grows].
  - intros x Hx. unfold st'. rewrite in_changed, out_changed by done. case_decide as Hxb; [by subst x|]. by apply Hi'.
  - intros x v. unfold st'. rewrite in_changed by done. case_decide as Hxb; [subst x; by apply rhs_sound|]. apply Hsnd.
Qed.

Lemma size_grows (X Y : gset V) : X ⊆ Y -> X <> Y -> (size X < size Y)%nat.
Proof. intros Hs Hne. apply subset_size. split; [done|]. intros ?. by apply Hne, set_eq; set_solver. Qed.

Lemma changed_measure st b rest q' qd' :
  flow_inv st -> queue st = b :: rest -> (b < n)%nat ->
  let st' := LVS (<[b := in_rhs b (out_rhs st b)]> (live_in st)) (<[b := out_rhs st b]> (live_out st)) q' qd' in
  flow_inv st' -> ~ (in_rhs b (out_rhs st b) = in_of st b /\ out_rhs st b = out_of st b) ->
  (flow_measure st' < flow_measure st)%nat.
Proof.
  intros Hi Hqueue Hb st' Hi' Hne. unfold flow_measure.
  assert (Hslack : (slack st' < slack st)%nat).
  { assert (Hle : forall x, x ∈ seq 0 n -> (missing st' x <= missing st x)%nat).
    { intros x _. unfold missing. pose proof (subseteq_size _ _ (in_grows st b Hi Hb q' qd' x)) as H1.
      pose proof (subseteq_size _ _ (out_grows st b Hi Hb q' qd' x)) as H2. fold st' in H1, H2. lia. }
    apply (sum_list_lt _ _ _ b); [by apply elem_of_seq; lia|done|].
    unfold missing. pose proof (in_grows st b Hi Hb q' qd' b) as Hig. pose proof (out_grows st b Hi Hb q' qd' b) as Hog.
    fold st' in Hig, Hog. pose proof (subseteq_size _ _ Hig) as Hsi. pose proof (subseteq_size _ _ Hog) as Hso.
    pose proof (subseteq_size _ _ (in_bounded st' b Hi')). pose proof (subseteq_size _ _ (out_bounded st' b Hi' Hb)).
    assert (in_of st' b = in_rhs b (out_rhs st b)) as Hin' by (unfold st'; rewrite in_changed by done; by rewrite decide_True).
    assert (out_of st' b = out_rhs st b) as Hout' by (unfold st'; rewrite out_changed by done; by rewrite decide_True).
    destruct (decide (in_of st b = in_of st' b)) as [Heq|Hni].
    - assert (out_of st b <> out_of st' b) as Hno by (intros Heq'; apply Hne; split; congruence).
      pose proof (size_grows _ _ Hog Hno). lia.
    - pose proof (size_grows _ _ Hig Hni). lia. }
  assert (Hlen : (length (queue st') <= n)%nat) by (eapply queue_length, (fi_queue _ Hi')).
  cut (slack st' * S n + S n <= slack st * S n)%nat; [lia|].
  replace (slack st' * S n + S n)%nat with (S (slack st') * S n)%nat by lia. by apply Nat.mul_le_mono_r.
Qed.

Lemma visit_block_spec st b rest :
  flow_inv st -> queue st = b :: rest ->
  exists st', visit_block f preds m b (LVS (live_in st) (live_out st) rest (queued st)) = Ok st' /\
    flow_inv st' /\ (flow_measure st' < flow_measure st)%nat.
Proof.
  intros Hi Hqueue. pose proof (fi_queue _ Hi) as Hq. rewrite Hqueue in Hq.
  destruct (pop_queue _ _ _ _ Hq) as [Hq' Hb]. pose proof (fi_sized _ Hi) as (Hin & Hout & Hqd).
  unfold visit_block, vset. cbn [queued live_in live_out queue]. rewrite decide_True by lia. msimpl.
  destruct (next_out_spec (LVS (live_in st) (live_out st) rest (queued st)) b) as (out & -> & ->); [done|done|].
  change (out_rhs (LVS (live_in st) (live_out st) rest (queued st)) b) with (out_rhs st b). msimpl.
  in_range (m_blocks m) b as bf Hbf.
  in_range (live_in st) b as oi Hoi.
  in_range (live_out st) b as oo Hoo.
  rewrite Hbf, Hoi, Hoo. msimpl.
  assert (upward_uses bf ∪ (out_rhs st b ∖ definitions bf) = in_rhs b (out_rhs st b)) as ->
    by (unfold in_rhs, facts_of; by rewrite Hbf).
  assert (oi = in_of st b) as -> by (unfold in_of; by rewrite Hoi).
  assert (oo = out_of st b) as -> by (unfold out_of; by rewrite Hoo).
  case_decide as Hsame.
  - eexists. split; [done|]. destruct Hsame as [Heq1 Heq2]. split; [by eapply visit_same|].
    unfold flow_measure. rewrite Hqueue. cbn [queue length].
    change (slack (LVS (live_in st) (live_out st) rest (<[b := false]> (queued st)))) with (slack st). lia.
  - in_range preds b as prow Hprow; [rewrite (proj1 Hrev), length_fmap; lia|].
    rewrite Hprow. msimpl.
    assert (Hpe : forall x, x ∈ prow <-> edge rows x b).
    { intros x. rewrite <- (proj2 Hrev). split; [by exists prow|]. intros (r & ? & ?). by simplify_eq. }
    destruct (enqueue_fold n (E:=LiveIntervalError V) prow rest (<[b := false]> (queued st)) Hq') as (q' & qd' & -> & Hq2 & Hin2).
    { intros p [r [?%lookup_lt_Some _]]%Hpe. by rewrite length_fmap in *. }
    msimpl. eexists. split; [done|].
    assert (Hi2 : flow_inv (LVS (<[b := in_rhs b (out_rhs st b)]> (live_in st)) (<[b := out_rhs st b]> (live_out st)) q' qd')).
    { eapply visit_changed; [done..|]. intros x. by rewrite Hin2, Hpe. }
    split; [done|]. by eapply changed_measure.
Qed.

Lemma liveness_loop_spec fuel st :
  flow_inv st -> (flow_measure st <= fuel)%nat ->
  exists st', liveness_loop fuel f preds m st = Ok st' /\ flow_inv st' /\ queue st' = [].
Proof.
  revert st. induction fuel as [|fuel IH]; intros st Hi Hm; cbn [liveness_loop];
    destruct (queue st) as [|b rest] eqn:Hq; try (by exists st).
  - unfold flow_measure in Hm. rewrite Hq in Hm. cbn in Hm. lia.
  - destruct (visit_block_spec st b rest Hi Hq) as (st' & -> & Hi' & Hlt). msimpl. apply IH; [done|lia].
Qed.

Lemma initial_flow : flow_inv (LVS (replicate n ∅) (replicate n ∅) (rev (seq 0 n)) (replicate n true)).
Proof.
  assert (Hat : forall b, default ∅ ((replicate n ∅ : list (gset V)) !! b) = ∅).
  { intros b. destruct (replicate n ∅ !! b) eqn:Hb; [|done]. by apply lookup_replicate in Hb as [-> _]. }
  split; unfold in_of, out_of; cbn.
  - split_and!; apply length_replicate.
  - apply initial_queue.
  - intros b Hb []. rewrite <- Permutation_rev, elem_of_seq. lia.
  - intros b Hb. rewrite Hat. set_solver.
  - intros b Hb. rewrite Hat. set_solver.
  - intros b v. rewrite Hat. set_solver.
Qed.

Lemma initial_measure :
  flow_measure (LVS (replicate n ∅) (replicate n ∅) (rev (seq 0 n)) (replicate n true)) = liveness_fuel f m.
Proof.
  unfold flow_measure, liveness_fuel, slack. rewrite (sum_list_const _ (2 * size (needed_values m))), length_seq.
  - cbn [queue]. rewrite length_rev, length_seq. lia.
  - intros b. unfold missing, in_of, out_of. cbn.
    assert (Hat : default ∅ ((replicate n ∅ : list (gset V)) !! b) = ∅).
    { destruct (replicate n ∅ !! b) eqn:Hb; [|done]. by apply lookup_replicate in Hb as [-> _]. }
    rewrite Hat, size_empty. lia.
Qed.

Lemma solve_liveness_spec :
  exists st, solve_liveness f preds m = Ok st /\ sized st /\ forall b v, (b < n)%nat ->
    (v ∈ in_of st b <-> live_entry v b) /\ (v ∈ out_of st b <-> live_exit v b).
Proof.
  unfold solve_liveness.
  destruct (liveness_loop_spec (liveness_fuel f m) _ initial_flow) as (st & -> & Hi & Hq); [by rewrite initial_measure|].
  exists st. split; [done|]. split; [apply Hi|].
  assert (Heq : forall b, (b < n)%nat -> out_of st b = out_rhs st b /\ in_of st b = in_rhs b (out_of st b)).
  { intros b Hb. apply Hi; [done|]. rewrite Hq. apply not_elem_of_nil. }
  assert (Hlt : forall b s, s ∈ row b -> (s < n)%nat).
  { intros b s Hs%edge_rows%Hclosed. by rewrite length_fmap in Hs. }
  assert (Hin : forall b v, live_entry v b -> (b < n)%nat -> v ∈ in_of st b).
  { intros b v Hl. induction Hl as [b Hv|b s Hs Hv Hd|b s Hs Hl IH Hd]; intros Hb; destruct (Heq b Hb) as [Ho ->];
      unfold in_rhs; rewrite elem_of_union, elem_of_difference, Ho, elem_of_out_rhs; [by left|right; split; [|done]; exists s; eauto..]. }
  intros b v Hb. split; [split; [by apply fi_sound|eauto]|]. rewrite (proj1 (Heq b Hb)), elem_of_out_rhs. split.
  - intros (s & Hs & Hv). exists s. split; [done|]. destruct Hv as [?|?%(fi_sound _ Hi)]; tauto.
  - intros (s & Hs & Hv). exists s. split; [done|]. destruct Hv as [?|?]; [tauto|right; eauto].
Qed.

(** The backward iteration [solve_liveness] ends within its fuel and
    leaves the least solution of the liveness equations: a value is in the
    live-in set of a block exactly when a path from the block's entry, along
    which nothing defines it, leads to a use of it, and in the live-out set
    exactly when an outgoing edge or the entry of a successor needs it. *)
Lemma solve_liveness_exact :
  exists st, solve_liveness f preds m = Ok st /\ forall b v, (b < n)%nat ->
    (v ∈ in_of st b <-> live_entry v b) /\ (v ∈ out_of st b <-> live_exit v b).
Proof. destruct solve_liveness_spec as (st & ? & _ & ?). by exists st. Qed.
End flow.

Definition loop_model : ModelFacts (V:=Z) :=
  MF ∅ ∅ [BF {[1]} ∅ ∅; BF {[2]} ∅ ∅; BF {[3]} {[2]} ∅; BF ∅ {[2]} ∅] {[(0, 1)%nat := {[1]}; (2, 1)%nat := {[3]}]}.

Lemma loop_closed : closed (successors <$> blocks loop_facts).
Proof. apply closed_rows. repeat constructor. Qed.

