(* ===== verification/LivenessModel.v ===== *)
(** * LivenessModel: what the collected facts say

    The sites at which a value is defined and used, read off the allocation
    facts, and the proof that [collect_model] records exactly these sites, or
    fails because a value has two definitions or a phi does not have one
    source per predecessor. *)

From S2P Require Import Prelude Order RegAlloc LiveInterval Graph Dominators DominatorsFacts Liveness.

Definition use_slot_of (i : nat) : Z := 3 * Z.of_nat i + 2.
Definition def_slot_of (i : nat) : Z := 3 * Z.of_nat i + 4.

Section model.
Context {V R : Type} `{Countable V} `{!Ord V}.
Abbreviation facts := (FunctionAllocationFacts V R).
Abbreviation block_facts := (BlockAllocationFacts V R).
Implicit Types (f : facts) (v : V) (b : nat) (blk : block_facts) (m : ModelFacts (V:=V)).

Definition exit_slot_of blk : Z := 3 * Z.of_nat (length (instructions blk)) + 2.

(** ** Sites *)

Inductive def_site f v : DefinitionSite -> Prop :=
  | def_phi b blk phi : blocks f !! b = Some blk -> phi ∈ phis blk ->
      phi_destination phi = v -> def_site f v (DS b None 1)
  | def_instruction b blk i ins : blocks f !! b = Some blk -> instructions blk !! i = Some ins -> v ∈ defs ins ->
      def_site f v (DS b (Some i) (def_slot_of i)).

Inductive use_site f v : UseSite -> Prop :=
  | use_instruction b blk i ins : blocks f !! b = Some blk -> instructions blk !! i = Some ins -> v ∈ uses ins ->
      use_site f v (US b (Some i) (use_slot_of i))
  | use_phi b blk phi source p_blk : blocks f !! b = Some blk -> phi ∈ phis blk -> source ∈ sources phi ->
      phi_value source = v -> blocks f !! predecessor source = Some p_blk ->
      use_site f v (US (predecessor source) None (exit_slot_of p_blk)).

(** A phi of block [s] takes [v] along the edge from [p]. *)
Definition edge_use f (p s : nat) v : Prop := exists blk phi source,
  blocks f !! s = Some blk /\ phi ∈ phis blk /\ source ∈ sources phi /\ predecessor source = p /\ phi_value source = v.

(** [v] is used in block [b] before any definition in it. *)
Definition upward_use f b v : Prop := exists blk i ins,
  blocks f !! b = Some blk /\ instructions blk !! i = Some ins /\ v ∈ uses ins /\
  (v ∉ (phi_destination <$> phis blk)) /\ forall j ins', (j < i)%nat -> instructions blk !! j = Some ins' -> v ∉ defs ins'.

(** All definitions, in the order they are recorded. *)
Definition block_definitions blk : list V := (phi_destination <$> phis blk) ++ (instructions blk ≫= defs).
Definition all_definitions f : list V := blocks f ≫= block_definitions.

Definition phi_ok (predecessors : graph) b (phi : PhiAllocationFacts V) : Prop :=
  NoDup (predecessor <$> sources phi) /\ length (sources phi) = length (row_of predecessors b).
Definition phis_ok f (predecessors : graph) : Prop :=
  forall b blk phi, blocks f !! b = Some blk -> phi ∈ phis blk -> phi_ok predecessors b phi.

(** ** What a partial model holds *)

Record sites : Type := SP {
  sD : V -> DefinitionSite -> Prop;
  sU : V -> UseSite -> Prop;
  sUp : nat -> V -> Prop;
  sE : nat -> nat -> V -> Prop }.

Definition sites_equiv (P Q : sites) : Prop :=
  (forall v s, sD P v s <-> sD Q v s) /\ (forall v s, sU P v s <-> sU Q v s) /\
  (forall b v, sUp P b v <-> sUp Q b v) /\ (forall p s v, sE P p s v <-> sE Q p s v).

(** The greatest slot of the uses of [v] in [b]. *)
Definition last_of (P : sites) b v (o : option Z) : Prop :=
  (forall s, sU P v s -> u_block s = b -> exists l, o = Some l /\ u_slot s <= l) /\
  (forall l, o = Some l -> exists s, sU P v s /\ u_block s = b /\ u_slot s = l).

Record block_holds (P : sites) b (bf : BlockFacts (V:=V)) : Prop := {
  bh_definitions v : v ∈ definitions bf <-> exists s, sD P v s /\ d_block s = b;
  bh_upward v : v ∈ upward_uses bf <-> sUp P b v;
  bh_last v : last_of P b v (last_use bf !! v) }.

Record holds (n : nat) (pre : list V) (P : sites) m : Prop := {
  h_length : length (m_blocks m) = n;
  h_nodup : NoDup pre;
  h_pre v : v ∈ pre <-> is_Some (m_definitions m !! v);
  h_defs v s : m_definitions m !! v = Some s <-> sD P v s;
  h_uses v s : s ∈ default [] (m_uses m !! v) <-> sU P v s;
  h_blocks b bf : m_blocks m !! b = Some bf -> block_holds P b bf;
  h_edges p s v : v ∈ default ∅ (edge_uses m !! (p, s)) <-> sE P p s v;
  h_nonempty v : m_uses m !! v <> Some [] }.

Lemma holds_equiv n pre P Q m : sites_equiv P Q -> holds n pre P m -> holds n pre Q m.
Proof.
  intros (HD & HU & HUp & HE) [H1 H2 H3 H4 H5 H6 H7 H8]. split; try done.
  - intros v s. by rewrite H4.
  - intros v s. by rewrite H5.
  - intros b bf Hb. destruct (H6 b bf Hb) as [Hd Hu Hl]. split.
    + intros v. rewrite Hd. by setoid_rewrite HD.
    + intros v. by rewrite Hu.
    + intros v. destruct (Hl v) as [Hl1 Hl2]. split.
      * intros s Hs. by apply Hl1, HU.
      * intros l Hlv. destruct (Hl2 l Hlv) as (s & Hs & ? & ?). exists s. by rewrite <- HU.
  - intros p s v. by rewrite H7.
Qed.

Definition sites_or (P Q : sites) : sites :=
  SP (fun v s => sD P v s \/ sD Q v s) (fun v s => sU P v s \/ sU Q v s)
     (fun b v => sUp P b v \/ sUp Q b v) (fun p s v => sE P p s v \/ sE Q p s v).
Definition no_sites : sites := SP (fun _ _ => False) (fun _ _ => False) (fun _ _ => False) (fun _ _ _ => False).

(** One more definition, use or edge. *)
Definition one_def v site : sites :=
  SP (fun x s => x = v /\ s = site) (fun _ _ => False) (fun _ _ => False) (fun _ _ _ => False).
Definition one_use v site (up : Prop) : sites :=
  SP (fun _ _ => False) (fun x s => x = v /\ s = site) (fun b x => up /\ b = u_block site /\ x = v) (fun _ _ _ => False).
Definition one_edge v (s : nat) site : sites :=
  SP (fun _ _ => False) (fun x u => x = v /\ u = site) (fun _ _ => False)
     (fun p t x => p = u_block site /\ t = s /\ x = v).

Lemma edit_block_spec b (change : BlockFacts (V:=V) -> BlockFacts) (l : list BlockFacts) :
  (b < length l)%nat -> exists bf, l !! b = Some bf /\ edit_block b change l = Ok (<[b := change bf]> l).
Proof.
  intros Hb. in_range l b as bf Hbf. exists bf. unfold edit_block. by rewrite Hbf.
Qed.

(** The facts of every block after the facts of one block were edited. *)
Lemma edited_blocks (P Q : sites) b (change : BlockFacts (V:=V) -> BlockFacts) (l : list BlockFacts) bf :
  l !! b = Some bf -> (forall c x, l !! c = Some x -> block_holds P c x) ->
  (forall c x, c <> b -> block_holds P c x -> block_holds Q c x) ->
  (forall x, block_holds P b x -> block_holds Q b (change x)) ->
  forall c x, <[b := change bf]> l !! c = Some x -> block_holds Q c x.
Proof.
  intros Hb Hl Hother Hsame c x. destruct (decide (c = b)) as [->|Hne].
  - rewrite list_lookup_insert_eq by (eauto with index). intros [= <-]. auto.
  - rewrite list_lookup_insert_ne by done. intros Hc. apply Hother; [done|]. by apply Hl.
Qed.

Lemma last_of_other (P Q : sites) b v o :
  (forall s, u_block s = b -> sU P v s <-> sU Q v s) -> last_of P b v o -> last_of Q b v o.
Proof.
  intros Heq [H1 H2]. split.
  - intros s Hs Hb. apply H1; [|done]. by apply Heq.
  - intros l Hl. destruct (H2 l Hl) as (s & Hs & Hb & ?). exists s. by rewrite <- Heq.
Qed.

Lemma last_of_add (P : sites) b v o site :
  u_block site = b -> last_of P b v o ->
  last_of (sites_or P (one_use v site True)) b v
    (Some (match o with Some current => Z.max current (u_slot site) | None => u_slot site end)).
Proof.
  intros Hb [H1 H2]. split; cbn.
  - intros s [Hs|[_ ->]] Hsb; eexists; (split; [done|]).
    + destruct (H1 s Hs Hsb) as (l & -> & ?). lia.
    + destruct o; lia.
  - intros l [= <-]. destruct o as [c|]; [|exists site; tauto].
    destruct (H2 c eq_refl) as (s & Hs & Hsb & <-).
    destruct (Z.max_spec (u_slot s) (u_slot site)) as [[_ ->]|[_ ->]]; [exists site|exists s]; tauto.
Qed.

(** Recording a use leaves the other values and blocks alone. *)
Lemma touch_holds (P Q : sites) b bf v site (up : Prop) `{!Decision up} :
  u_block site = b -> block_holds P b bf ->
  (forall x s, sD Q x s <-> sD P x s) -> (forall x s, sU Q x s <-> sU P x s \/ (x = v /\ s = site)) ->
  (forall x, sUp Q b x <-> sUp P b x \/ (up /\ x = v)) ->
  block_holds Q b (touch_last_use v (u_slot site) (if decide up then add_upward_use v bf else bf)).
Proof.
  intros Hb [Hd Hu Hl] HD HU HUp. split.
  - intros x. setoid_rewrite HD. rewrite <- Hd. by destruct (decide up).
  - intros x. rewrite HUp, <- Hu. destruct (decide up); cbn; set_solver.
  - intros x. assert (Hlu : last_use (if decide up then add_upward_use v bf else bf) = last_use bf) by (by destruct (decide up)).
    unfold touch_last_use. cbn. rewrite Hlu. destruct (decide (x = v)) as [->|Hne].
    + rewrite lookup_insert_eq. eapply last_of_other; [|by apply (last_of_add P b v _ site)]. cbn. intros s _. rewrite HU. tauto.
    + rewrite lookup_insert_ne by done. eapply last_of_other; [|by apply Hl]. intros s _. rewrite HU. naive_solver.
Qed.

(** Facts about another block do not see a new use. *)
Lemma untouched_holds (P Q : sites) b bf v site :
  u_block site <> b -> block_holds P b bf ->
  (forall x s, sD Q x s <-> sD P x s) -> (forall x s, sU Q x s <-> sU P x s \/ (x = v /\ s = site)) ->
  (forall x, sUp Q b x <-> sUp P b x) -> block_holds Q b bf.
Proof.
  intros Hb [Hd Hu Hl] HD HU HUp. split.
  - intros x. setoid_rewrite HD. apply Hd.
  - intros x. by rewrite HUp.
  - intros x. eapply last_of_other; [|by apply Hl]. intros s Hs. rewrite HU. naive_solver.
Qed.

Lemma push_use_spec v site (us : gmap V (list UseSite)) x s :
  s ∈ default [] (push_use v site us !! x) <-> s ∈ default [] (us !! x) \/ (x = v /\ s = site).
Proof.
  unfold push_use. destruct (decide (x = v)) as [->|Hne].
  - rewrite lookup_insert_eq. cbn. rewrite elem_of_app, list_elem_of_singleton. naive_solver.
  - rewrite lookup_insert_ne by done. naive_solver.
Qed.

Lemma push_use_nonempty v site (us : gmap V (list UseSite)) x :
  us !! x <> Some [] -> push_use v site us !! x <> Some [].
Proof.
  unfold push_use. destruct (decide (x = v)) as [->|Hne].
  - rewrite lookup_insert_eq. intros _ [= Hnil]. by apply app_eq_nil in Hnil as [_ ?].
  - by rewrite lookup_insert_ne.
Qed.

(** ** The recording steps *)

Lemma define_value_spec n pre P m site v :
  holds n pre P m -> (d_block site < n)%nat ->
  match define_value site m v with
  | Ok m' => holds n (pre ++ [v]) (sites_or P (one_def v site)) m'
  | Err _ => v ∈ pre
  | Panic => False
  end.
Proof.
  intros [H1 H2 H3 H4 H5 H6 H7 H8] Hb. unfold define_value, record_definition.
  destruct (m_definitions m !! v) as [old|] eqn:Hv; msimpl.
  { apply H3. by rewrite Hv. }
  destruct (edit_block_spec (d_block site) (add_definition v) (m_blocks m)) as (bf & Hbf & ->); [lia|]. msimpl.
  assert (Hpre : v ∉ pre) by (rewrite H3, Hv; by intros [? ?]).
  split; cbn.
  - by rewrite length_insert.
  - rewrite <- Permutation_cons_append. by constructor.
  - intros x. rewrite elem_of_app, list_elem_of_singleton, H3. destruct (decide (x = v)) as [->|Hne].
    + rewrite lookup_insert_eq. naive_solver.
    + rewrite lookup_insert_ne by done. naive_solver.
  - intros x s. destruct (decide (x = v)) as [->|Hne].
    + rewrite lookup_insert_eq, <- H4, Hv. naive_solver.
    + rewrite lookup_insert_ne, H4 by done. naive_solver.
  - intros x s. rewrite H5. naive_solver.
  - eapply edited_blocks; [done|done| |].
    + intros c x Hc [Hd Hu Hl]. split; cbn; [|naive_solver|intros y; eapply last_of_other; [|by apply Hl]; naive_solver].
      intros y. rewrite Hd. naive_solver.
    + intros x [Hd Hu Hl]. split; cbn; [|naive_solver|intros y; eapply last_of_other; [|by apply Hl]; naive_solver].
      intros y. rewrite elem_of_union, elem_of_singleton, Hd. naive_solver.
  - intros p s x. rewrite H7. naive_solver.
  - done.
Qed.

Lemma use_value_spec n pre P m site seen v :
  holds n pre P m -> (u_block site < n)%nat ->
  exists m', use_value site seen m v = Ok m' /\ holds n pre (sites_or P (one_use v site (v ∉ seen))) m'.
Proof.
  intros [H1 H2 H3 H4 H5 H6 H7 H8] Hb. unfold use_value.
  destruct (edit_block_spec (u_block site)
    (fun bf => touch_last_use v (u_slot site) (if decide (v ∈ seen) then bf else add_upward_use v bf)) (m_blocks m))
    as (bf & Hbf & ->); [lia|]. msimpl.
  eexists. split; [done|]. split; cbn; try done.
  - by rewrite length_insert.
  - intros x s. rewrite H4. naive_solver.
  - intros x s. by rewrite push_use_spec, H5.
  - apply (edited_blocks P _ _ (fun bf => touch_last_use v (u_slot site) (if decide (v ∈ seen) then bf else add_upward_use v bf))); [done|done| |].
    + intros c x Hc Hx. apply (untouched_holds P _ c x v site); cbn; [congruence|done|naive_solver..].
    + intros x Hx.
      assert ((if decide (v ∈ seen) then x else add_upward_use v x) = (if decide (v ∉ seen) then add_upward_use v x else x)) as ->
        by (by repeat case_decide).
      apply (touch_holds P _ _ x v site (v ∉ seen)); cbn; [done|done|naive_solver..].
  - intros p s x. rewrite H7. naive_solver.
  - intros x. by apply push_use_nonempty.
Qed.

Lemma collect_source_spec n pre P m slots successor seen source bs :
  holds n pre P m -> (predecessor source < n)%nat -> slots !! predecessor source = Some bs ->
  match collect_source slots successor (m, seen) source with
  | Ok (m', seen') => (predecessor source ∉ seen) /\ seen' = ({[predecessor source]} ∪ seen) /\
      holds n pre (sites_or P (one_edge (phi_value source) successor (US (predecessor source) None (exit_slot bs)))) m'
  | Err _ => predecessor source ∈ seen
  | Panic => False
  end.
Proof.
  intros [H1 H2 H3 H4 H5 H6 H7 H8] Hp Hslot. unfold collect_source.
  destruct (decide (predecessor source ∈ seen)) as [Hin|Hin]; [done|].
  rewrite Hslot. msimpl.
  set (v := phi_value source). set (p := predecessor source) in *. set (site := US p None (exit_slot bs)).
  destruct (edit_block_spec p (touch_last_use v (exit_slot bs)) (m_blocks m)) as (bf & Hbf & ->); [lia|]. msimpl.
  split_and!; [done..|]. split; cbn; try done.
  - by rewrite length_insert.
  - intros x s. rewrite H4. naive_solver.
  - intros x s. by rewrite push_use_spec, H5.
  - eapply (edited_blocks P); [done|done| |].
    + intros c x Hc Hx. apply (untouched_holds P _ c x v site); cbn; [congruence|done|naive_solver..].
    + intros x Hx. pose proof (touch_holds P (sites_or P (one_edge v successor site)) p x v site False) as Ht.
      rewrite decide_False in Ht by tauto. apply Ht; cbn; [done|done|naive_solver..].
  - intros q s x. destruct (decide ((q, s) = (p, successor))) as [Heq|Hne]; [injection Heq as -> ->|].
    + rewrite lookup_insert_eq. cbn. rewrite elem_of_union, elem_of_singleton, H7. naive_solver.
    + rewrite lookup_insert_ne by congruence. rewrite H7. naive_solver.
  - intros x. by apply push_use_nonempty.
Qed.
(** ** Loops that record *)

Definition sites_all {A} (l : list A) (adds : A -> sites) : sites :=
  SP (fun v s => exists a, a ∈ l /\ sD (adds a) v s) (fun v s => exists a, a ∈ l /\ sU (adds a) v s)
     (fun b v => exists a, a ∈ l /\ sUp (adds a) b v) (fun p s v => exists a, a ∈ l /\ sE (adds a) p s v).

(** What a recording step may do: [emit] are its definitions, [adds] its
    sites, and [good] is what it checks. *)
Definition records {S} (I : list V -> sites -> S -> Prop) (pre : list V) (P : sites) (emit : list V) (adds : sites)
    (good : Prop) (r : result (LiveIntervalError V) S) : Prop :=
  match r with
  | Ok s => I (pre ++ emit) (sites_or P adds) s /\ good
  | Err _ => ~ NoDup (pre ++ emit) \/ ~ good
  | Panic => False
  end.

Lemma not_NoDup_app (l k : list V) : ~ NoDup l -> ~ NoDup (l ++ k).
Proof. intros Hl [? _]%NoDup_app. done. Qed.

Lemma foldM_records {S A} (step : S -> A -> result (LiveIntervalError V) S) (I : list V -> sites -> S -> Prop)
    (emit : A -> list V) (adds : A -> sites) (good : A -> Prop) (l : list A) :
  (forall pre P Q s, sites_equiv P Q -> I pre P s -> I pre Q s) ->
  (forall a pre P s, a ∈ l -> I pre P s -> records I pre P (emit a) (adds a) (good a) (step s a)) ->
  forall pre P s, I pre P s ->
  records I pre P (l ≫= emit) (sites_all l adds) (forall a, a ∈ l -> good a) (foldM step s l).
Proof.
  intros Hext. induction l as [|a l IH]; intros Hstep pre P s Hs; cbn [foldM].
  { split; [|by intros a ?%not_elem_of_nil]. cbn. rewrite app_nil_r. eapply Hext; [|exact Hs].
    unfold sites_equiv; cbn; split_and!; intros; set_solver. }
  pose proof (Hstep a pre P s ltac:(by left) Hs) as Ha. rewrite bind_cons.
  destruct (step s a) as [s1|e|]; msimpl; [|cbn in *|done].
  - destruct Ha as [Hs1 Hgood].
    specialize (IH ltac:(intros; apply Hstep; [by right|done]) _ _ s1 Hs1).
    destruct (foldM step s1 l) as [s2|e|]; cbn in *; [|rewrite <- app_assoc in IH|done].
    + destruct IH as [Hs2 Hg]. rewrite <- app_assoc in Hs2. split.
      * eapply Hext; [|exact Hs2]. unfold sites_equiv; cbn; split_and!; intros; setoid_rewrite elem_of_cons; naive_solver.
      * by intros x [->|?]%elem_of_cons; [|apply Hg].
    + destruct IH as [?|Hn]; [by left|right]. intros Hg. apply Hn. intros x Hx. apply Hg. by right.
  - destruct Ha as [Hd|Hn]; [left|right].
    + rewrite app_assoc. by apply not_NoDup_app.
    + intros Hg. apply Hn, Hg. by left.
Qed.

Lemma records_equiv {S} (I : list V -> sites -> S -> Prop) pre P emit adds adds' (good good' : Prop) r :
  (forall pre P Q s, sites_equiv P Q -> I pre P s -> I pre Q s) ->
  sites_equiv adds adds' -> (good <-> good') -> records I pre P emit adds good r -> records I pre P emit adds' good' r.
Proof.
  intros Hext (HD & HU & HUp & HE) Hg. destruct r as [s|e|]; cbn; [|by rewrite Hg|done].
  rewrite Hg. intros [Hs ?]. split; [|done]. eapply Hext; [|exact Hs].
  unfold sites_equiv; cbn. split_and!; intros; [rewrite HD|rewrite HU|rewrite HUp|rewrite HE]; tauto.
Qed.

Lemma holds_ext n pre P Q m : sites_equiv P Q -> holds n pre P m -> holds n pre Q m.
Proof. apply holds_equiv. Qed.

(** *** One instruction *)

Definition instruction_sites b i (ins : InstructionAllocationFacts V R) (seen : gset V) : sites :=
  SP (fun v s => v ∈ defs ins /\ s = DS b (Some i) (def_slot_of i))
     (fun v s => v ∈ uses ins /\ s = US b (Some i) (use_slot_of i))
     (fun c v => c = b /\ v ∈ uses ins /\ (v ∉ seen)) (fun _ _ _ => False).

Lemma instruction_slots i :
  def_slot_of i <= usize_max ->
  instruction_use_slot i = Some (use_slot_of i) /\ instruction_def_slot i = Some (def_slot_of i).
Proof.
  unfold def_slot_of, use_slot_of. intros Hi.
  assert (instruction_use_slot i = Some (3 * Z.of_nat i + 2)) as Hu.
  { unfold instruction_use_slot, checked_mul. rewrite decide_True by lia. msimpl.
    apply checked_add_Some. lia. }
  split; [done|]. unfold instruction_def_slot. rewrite Hu. msimpl. apply checked_add_Some. lia.
Qed.

Lemma bind_map {A} (g : A -> V) (l : list A) : l ≫= (fun a => [g a]) = g <$> l.
Proof. induction l as [|a l IH]; [done|]. by rewrite bind_cons, IH. Qed.
Lemma bind_singleton (l : list V) : l ≫= (fun v => [v]) = l.
Proof. induction l as [|v l IH]; [done|]. rewrite bind_cons, IH. done. Qed.

Lemma use_values_spec n pre P m site seen (l : list V) :
  holds n pre P m -> (u_block site < n)%nat ->
  exists m', foldM (use_value site seen) m l = Ok m' /\
    holds n pre (sites_or P (sites_all l (fun v => one_use v site (v ∉ seen)))) m'.
Proof.
  intros Hm Hb.
  pose proof (foldM_records (use_value site seen) (holds n) (fun _ => []) (fun v => one_use v site (v ∉ seen))
    (fun _ => True) l (holds_ext n)) as Hf.
  specialize (Hf ltac:(intros v pre' P' m1 _ Hm1; destruct (use_value_spec n pre' P' m1 site seen v Hm1 Hb) as (m' & -> & Hm');
    cbn; rewrite app_nil_r; done) pre P m Hm).
  rewrite bind_nil in Hf. destruct (foldM _ _ _) as [m'|e|]; cbn in Hf; [|destruct Hf as [[]|[]]|done].
  - rewrite app_nil_r in Hf. exists m'. by destruct Hf.
  - rewrite app_nil_r. apply Hm.
  - done.
Qed.

Lemma define_values_spec n pre P m site (l : list V) :
  holds n pre P m -> (d_block site < n)%nat ->
  records (holds n) pre P l (sites_all l (fun v => one_def v site)) True (foldM (define_value site) m l).
Proof.
  intros Hm Hb.
  pose proof (foldM_records (define_value site) (holds n) (fun v => [v]) (fun v => one_def v site) (fun _ => True) l (holds_ext n)) as Hf.
  rewrite bind_singleton in Hf.
  specialize (Hf ltac:(intros v pre' P' m1 _ Hm1; pose proof (define_value_spec n pre' P' m1 site v Hm1 Hb) as Hs;
    destruct (define_value site m1 v) as [m'|e|]; cbn; [done| |done]; left; rewrite NoDup_app; set_solver) pre P m Hm).
  revert Hf. apply records_equiv; [apply holds_ext|unfold sites_equiv; tauto|naive_solver].
Qed.

Lemma collect_instruction_spec n pre P m b i ins seen :
  holds n pre P m -> (b < n)%nat -> def_slot_of i <= usize_max ->
  records (fun pre P st => holds n pre P st.1 /\ st.2 = (list_to_set (defs ins) ∪ seen)) pre P (defs ins)
    (instruction_sites b i ins seen) True (collect_instruction b (m, seen) (i, ins)).
Proof.
  intros Hm Hb Hi. destruct (instruction_slots i Hi) as [Hu Hd]. unfold collect_instruction. cbn [fst snd].
  rewrite Hu. msimpl.
  destruct (use_values_spec n pre P m (US b (Some i) (use_slot_of i)) seen (ascending (list_to_set (uses ins))) Hm Hb)
    as (m1 & -> & Hm1). rewrite Hd. msimpl.
  pose proof (define_values_spec n pre _ m1 (DS b (Some i) (def_slot_of i)) (defs ins) Hm1 Hb) as Hs.
  destruct (foldM _ m1 _) as [m2|e|]; cbn in *; [|done..]. split; [|done]. split; [|done].
  eapply holds_equiv; [|apply Hs]. unfold sites_equiv; cbn.
  setoid_rewrite elem_of_ascending. setoid_rewrite elem_of_list_to_set. split_and!; intros; naive_solver.
Qed.
(** *** The instructions of a block, from the [k]-th on *)

Definition instructions_sites b (k : nat) (l : list (InstructionAllocationFacts V R)) (seen : gset V) : sites :=
  SP (fun v s => exists j ins, l !! j = Some ins /\ v ∈ defs ins /\ s = DS b (Some (k + j)%nat) (def_slot_of (k + j)))
     (fun v s => exists j ins, l !! j = Some ins /\ v ∈ uses ins /\ s = US b (Some (k + j)%nat) (use_slot_of (k + j)))
     (fun c v => c = b /\ exists j ins, l !! j = Some ins /\ v ∈ uses ins /\ (v ∉ seen) /\
        forall j' ins', (j' < j)%nat -> l !! j' = Some ins' -> v ∉ defs ins')
     (fun _ _ _ => False).

Lemma instructions_sites_cons b k ins l seen :
  sites_equiv (sites_or (instruction_sites b k ins seen) (instructions_sites b (S k) l (list_to_set (defs ins) ∪ seen)))
    (instructions_sites b k (ins :: l) seen).
Proof.
  unfold sites_equiv; cbn. split_and!; intros.
  - split.
    + intros [[? ->]|(j & i' & ? & ? & ->)]; [exists 0%nat, ins|exists (S j), i'];
        rewrite ?Nat.add_0_r, ?Nat.add_succ_r; done.
    + intros ([|j] & i' & ? & ? & ->); simplify_eq/=; [left|right; exists j, i'];
        rewrite ?Nat.add_0_r, ?Nat.add_succ_r; done.
  - split.
    + intros [[? ->]|(j & i' & ? & ? & ->)]; [exists 0%nat, ins|exists (S j), i'];
        rewrite ?Nat.add_0_r, ?Nat.add_succ_r; done.
    + intros ([|j] & i' & ? & ? & ->); simplify_eq/=; [left|right; exists j, i'];
        rewrite ?Nat.add_0_r, ?Nat.add_succ_r; done.
  - split.
    + intros [(-> & ? & ?)|(-> & j & i' & ? & ? & Hs & Hj)]; (split; [done|]).
      * exists 0%nat, ins. split_and!; [done..|]. lia.
      * exists (S j), i'. split_and!; [done..|set_solver|]. intros [|j'] ins' Hlt; [intros [= <-]; set_solver|].
        apply Hj. lia.
    + intros (-> & [|j] & i' & ? & ? & Hs & Hj); simplify_eq/=; [by left|right]. split; [done|].
      exists j, i'. pose proof (Hj 0%nat ins ltac:(lia) eq_refl). split_and!; [done..|set_solver|].
      intros j' ins' Hlt Hl. apply (Hj (S j') ins'); [lia|done].
  - tauto.
Qed.

Definition block_state n pre P (st : ModelFacts (V:=V) * gset V) : Prop := holds n pre P st.1.

Lemma collect_instructions_spec n l k pre P m b seen :
  holds n pre P m -> (b < n)%nat -> def_slot_of (k + length l) <= usize_max + 3 ->
  records (block_state n) pre P (l ≫= defs) (instructions_sites b k l seen) True
    (foldM (collect_instruction b) (m, seen) (zip (seq k (length l)) l)).
Proof.
  revert k pre P m seen. induction l as [|ins l IH]; intros k pre P m seen Hm Hb Hk; cbn [length seq zip zip_with foldM].
  { split; [|done]. unfold block_state. cbn. rewrite app_nil_r. eapply holds_equiv; [|exact Hm].
    unfold sites_equiv; cbn; split_and!; intros; naive_solver. }
  cbn [length] in Hk. unfold def_slot_of in Hk.
  pose proof (collect_instruction_spec n pre P m b k ins seen Hm Hb ltac:(unfold def_slot_of; lia)) as Hi.
  rewrite bind_cons. destruct (collect_instruction b (m, seen) (k, ins)) as [[m1 seen1]|e|]; msimpl; cbn in Hi; [|cbn|done].
  - destruct Hi as [[Hm1 ->] _].
    pose proof (IH (S k) _ _ m1 (list_to_set (defs ins) ∪ seen) Hm1 Hb ltac:(unfold def_slot_of; lia)) as Hr.
    destruct (foldM _ _ _) as [st|e|]; cbn in *; [|rewrite app_assoc; tauto|done].
    destruct Hr as [Hst _]. split; [|done]. unfold block_state in *. rewrite app_assoc. eapply holds_equiv; [|exact Hst].
    destruct (instructions_sites_cons b k ins l seen) as (HD & HU & HUp & HE). cbn in HD, HU, HUp, HE.
    unfold sites_equiv; cbn; split_and!; intros; [rewrite <- HD|rewrite <- HU|rewrite <- HUp|]; tauto.
  - left. destruct Hi as [Hi|?]; [|tauto]. rewrite app_assoc. by apply not_NoDup_app.
Qed.

(** *** A block *)

Definition block_sites b blk : sites :=
  sites_or (sites_all (phis blk) (fun phi => one_def (phi_destination phi) (DS b None 1)))
    (instructions_sites b 0 (instructions blk) (list_to_set (phi_destination <$> phis blk))).

Lemma upward_sites_ext b k l (s1 s2 : gset V) : s1 = s2 -> sites_equiv (instructions_sites b k l s1) (instructions_sites b k l s2).
Proof. intros ->. unfold sites_equiv. tauto. Qed.

(** Every block's exit slot is in range. *)
Definition slots_fit f : Prop := forall b blk, blocks f !! b = Some blk -> exit_slot_of blk <= usize_max.
Definition slots_of f (slots : list BlockSlots) : Prop :=
  length slots = length (blocks f) /\
  forall b blk, blocks f !! b = Some blk -> slots !! b = Some (BS 1 (exit_slot_of blk)).

(** Before its turn, a block has no definitions. *)
Definition fresh (P : sites) b : Prop := forall v s, sD P v s -> d_block s <> b.

Lemma collect_block_spec f slots n pre P m b blk :
  holds n pre P m -> (b < n)%nat -> blocks f !! b = Some blk -> slots_of f slots -> slots_fit f -> fresh P b ->
  records (holds n) pre P (block_definitions blk) (block_sites b blk) True (collect_block slots m (b, blk)).
Proof.
  intros Hm Hb Hblk [_ Hslots] Hfit Hfresh. unfold collect_block. cbn [fst snd].
  pose proof (foldM_records (fun m phi => slot ← expect (slots !! b); define_value (DS b None (phi_def slot)) m (phi_destination phi))
    (holds n) (fun phi => [phi_destination phi]) (fun phi => one_def (phi_destination phi) (DS b None 1)) (fun _ => True) (phis blk) (holds_ext n)) as Hf.
  specialize (Hf ltac:(intros phi pre' P' m1 _ Hm1; rewrite (Hslots b blk Hblk); msimpl;
    pose proof (define_value_spec n pre' P' m1 (DS b None 1) (phi_destination phi) Hm1 Hb) as Hs; cbn [phi_def];
    destruct (define_value _ m1 _) as [m'|e|]; cbn; [done| |done]; left; rewrite NoDup_app; set_solver) pre P m Hm).
  rewrite bind_map in Hf. unfold block_definitions.
  destruct (foldM _ m (phis blk)) as [m1|e|]; msimpl; cbn in Hf; [|cbn|done].
  2:{ left. destruct Hf as [?|Hf]; [rewrite app_assoc; by apply not_NoDup_app|]. destruct Hf; naive_solver. }
  destruct Hf as [Hm1 _]. in_range (m_blocks m1) b as bf Hbf; [by rewrite (h_length _ _ _ _ Hm1)|].
  rewrite Hbf. msimpl.
  assert (Hdefs : definitions bf = list_to_set (phi_destination <$> phis blk)).
  { apply set_eq. intros v. rewrite (bh_definitions _ _ _ (h_blocks _ _ _ _ Hm1 b bf Hbf)), elem_of_list_to_set. cbn. split.
    - intros (s & [Hs|(phi & Hphi & -> & ->)] & Hsb); [by destruct (Hfresh v s)|]. apply list_elem_of_fmap. eauto.
    - intros (phi & -> & Hphi)%list_elem_of_fmap. exists (DS b None 1). split; [right|done]. eauto. }
  rewrite Hdefs. specialize (Hfit b blk Hblk).
  pose proof (collect_instructions_spec n (instructions blk) 0 _ _ m1 b (list_to_set (phi_destination <$> phis blk)) Hm1 Hb
    ltac:(unfold exit_slot_of, def_slot_of in *; cbn; lia)) as Hi.
  destruct (foldM _ (m1, _) _) as [st|e|]; msimpl; cbn in *; [|rewrite app_assoc; tauto|done].
  destruct Hi as [Hi _]. split; [|done]. rewrite app_assoc. eapply holds_equiv; [|exact Hi].
  unfold sites_equiv; cbn; split_and!; intros; tauto.
Qed.
(** *** All blocks *)

Lemma block_sites_at b blk v s : sD (block_sites b blk) v s -> d_block s = b.
Proof. cbn. intros [(phi & _ & _ & ->)|(j & ins & _ & _ & ->)]; done. Qed.

Lemma sites_all_cons {A} (a : A) l (adds : A -> sites) :
  sites_equiv (sites_or (adds a) (sites_all l adds)) (sites_all (a :: l) adds).
Proof. unfold sites_equiv; cbn. split_and!; intros; setoid_rewrite elem_of_cons; naive_solver. Qed.

Lemma collect_blocks_spec f slots n l k pre P m :
  (forall j blk, l !! j = Some blk -> blocks f !! (k + j)%nat = Some blk) -> (k + length l <= n)%nat ->
  slots_of f slots -> slots_fit f -> holds n pre P m -> (forall v s, sD P v s -> (d_block s < k)%nat) ->
  records (holds n) pre P (l ≫= block_definitions)
    (sites_all (zip (seq k (length l)) l) (fun ib => block_sites ib.1 ib.2)) True
    (foldM (collect_block slots) m (zip (seq k (length l)) l)).
Proof.
  intros Hl Hn Hslots Hfit. revert k pre P m Hl Hn.
  induction l as [|blk l IH]; intros k pre P m Hl Hn Hm Hbelow; cbn [length seq zip zip_with foldM].
  { split; [|done]. cbn. rewrite app_nil_r. eapply holds_equiv; [|exact Hm].
    unfold sites_equiv; cbn; split_and!; intros; set_solver. }
  cbn [length] in Hn. pose proof (Hl 0%nat blk eq_refl) as Hblk. rewrite Nat.add_0_r in Hblk.
  assert (Hfresh : fresh P k) by (intros v s Hs; specialize (Hbelow v s Hs); lia).
  pose proof (collect_block_spec f slots n pre P m k blk Hm ltac:(lia) Hblk Hslots Hfit Hfresh) as Hb.
  rewrite bind_cons. destruct (collect_block slots m (k, blk)) as [m1|e|]; msimpl; cbn [records] in Hb; [|cbn|done].
  - destruct Hb as [Hm1 _].
    pose proof (IH (S k) _ _ m1 ltac:(intros j x Hx; rewrite Nat.add_succ_comm; by apply (Hl (S j))) ltac:(lia) Hm1) as Hr.
    specialize (Hr ltac:(intros v s [Hs|Hs]; [specialize (Hbelow v s Hs); lia|apply block_sites_at in Hs; lia])).
    destruct (foldM _ m1 _) as [m2|e|]; cbn [records] in *; [|rewrite app_assoc; tauto|done].
    destruct Hr as [Hm2 _]. split; [|done]. rewrite app_assoc. eapply holds_equiv; [|exact Hm2].
    destruct (sites_all_cons (k, blk) (zip (seq (S k) (length l)) l) (fun ib => block_sites ib.1 ib.2)) as (HD & HU & HUp & HE).
    unfold sites_equiv. cbn [sites_or sD sU sUp sE].
    split_and!; intros; [rewrite <- HD|rewrite <- HU|rewrite <- HUp|rewrite <- HE]; cbn [sites_or sD sU sUp sE]; tauto.
  - left. destruct Hb as [Hb|?]; [|tauto]. rewrite app_assoc. by apply not_NoDup_app.
Qed.

(** *** Phi sources *)

Definition phi_sites f (s : nat) (phi : PhiAllocationFacts V) : sites :=
  sites_all (sources phi) (fun source => one_edge (phi_value source) s
    (US (predecessor source) None (default 0 (exit_slot_of <$> (blocks f !! predecessor source))))).

Lemma collect_sources_spec f slots n l s pre P m seen :
  slots_of f slots -> (forall source, source ∈ l -> (predecessor source < n)%nat) -> n = length (blocks f) ->
  holds n pre P m ->
  match foldM (collect_source slots s) (m, seen) l with
  | Ok (m', seen') => holds n pre (sites_or P (sites_all l (fun source => one_edge (phi_value source) s
        (US (predecessor source) None (default 0 (exit_slot_of <$> (blocks f !! predecessor source))))))) m' /\
      NoDup (predecessor <$> l) /\ (forall p, p ∈ predecessor <$> l -> p ∉ seen) /\
      seen' = (list_to_set (predecessor <$> l) ∪ seen)
  | Err _ => ~ (NoDup (predecessor <$> l) /\ forall p, p ∈ predecessor <$> l -> p ∉ seen)
  | Panic => False
  end.
Proof.
  intros Hslots Hl Hn. revert P m seen. induction l as [|source l IH]; intros P m seen Hm; cbn [foldM].
  { split_and!; [|constructor|by intros p ?%not_elem_of_nil|set_solver].
    eapply holds_equiv; [|exact Hm]. unfold sites_equiv; cbn; split_and!; intros; set_solver. }
  pose proof (Hl source ltac:(by left)) as Hp.
  in_range (blocks f) (predecessor source) as blk Hblk.
  pose proof (collect_source_spec n pre P m slots s seen source _ Hm Hp (proj2 Hslots _ _ Hblk)) as Hs.
  destruct (collect_source slots s (m, seen) source) as [[m1 seen1]|e|]; msimpl; csimpl; [| |done].
  2:{ rewrite NoDup_cons. intros [_ Hnot]. apply (Hnot (predecessor source)); [by left|done]. }
  destruct Hs as (Hfresh & -> & Hm1). specialize (IH ltac:(intros; apply Hl; by right) _ m1 ({[predecessor source]} ∪ seen) Hm1).
  destruct (foldM _ _ l) as [[m2 seen2]|e|]; [| |done].
  - destruct IH as (Hm2 & Hnd & Hnot & ->). split_and!.
    + eapply holds_equiv; [|exact Hm2]. cbn [exit_slot].
      unfold sites_equiv; cbn. split_and!; intros; setoid_rewrite elem_of_cons; rewrite ?Hblk; cbn; [naive_solver| |naive_solver|].
      * split; [intros [[?|?]|(a & ? & ?)]|intros [?|(a & [->|?] & ?)]]; rewrite ?Hblk in *; cbn in *; eauto 6.
        right. exists source. rewrite Hblk. cbn. tauto.
      * split; [intros [[?|?]|(a & ? & ?)]|intros [?|(a & [->|?] & ?)]]; cbn in *; eauto 7.
    + constructor; [|done]. intros Hin. specialize (Hnot _ Hin). set_solver.
    + intros p [->|Hin]%elem_of_cons; [done|]. specialize (Hnot p Hin). set_solver.
    + set_solver.
  - intros [[Hn' Hnd]%NoDup_cons Hnot]. apply IH. split; [done|]. intros p Hp'.
    assert (p <> predecessor source) by (by intros ->). set_solver.
Qed.

Lemma collect_phi_spec f slots preds n pre P m s phi :
  slots_of f slots -> (forall source, source ∈ sources phi -> (predecessor source < n)%nat) -> n = length (blocks f) ->
  (s < length preds)%nat -> holds n pre P m ->
  match collect_phi slots preds s m phi with
  | Ok m' => holds n pre (sites_or P (phi_sites f s phi)) m' /\ phi_ok preds s phi
  | Err _ => ~ phi_ok preds s phi
  | Panic => False
  end.
Proof.
  intros Hslots Hp Hn Hs Hm. unfold collect_phi, phi_ok.
  pose proof (collect_sources_spec f slots n (sources phi) s pre P m ∅ Hslots Hp Hn Hm) as Hc.
  destruct (foldM _ _ _) as [[m1 seen]|e|]; msimpl; [| |done].
  2:{ intros [Hnd _]. apply Hc. split; [done|]. set_solver. }
  destruct Hc as (Hm1 & Hnd & _ & ->). in_range preds s as row Hrow. unfold row_of. rewrite Hrow. msimpl.
  cbn [default]. assert (Hsize : size (list_to_set (predecessor <$> sources phi) ∪ ∅ : gset nat) = length (sources phi)).
  { rewrite (right_id_L ∅ (∪)), size_list_to_set by done. apply length_fmap. }
  cbn [snd]. rewrite Hsize. case_decide; [split; [done|]; split; [done|]; done|]. intros [_ ?]. done.
Qed.
(** ** The collected model *)

Definition all_sites f : sites := SP (fun v s => def_site f v s) (fun v s => use_site f v s) (upward_use f) (edge_use f).

Definition model_sites f : sites :=
  sites_or (sites_or no_sites (sites_all (enumerate (blocks f)) (fun ib => block_sites ib.1 ib.2)))
    (sites_all (enumerate (blocks f)) (fun ib => sites_all (phis ib.2) (phi_sites f ib.1))).

Definition phi_sources_in f : Prop := forall b blk phi source,
  blocks f !! b = Some blk -> phi ∈ phis blk -> source ∈ sources phi -> (predecessor source < length (blocks f))%nat.

Lemma model_sites_equiv f : phi_sources_in f -> sites_equiv (model_sites f) (all_sites f).
Proof.
  intros Hin. unfold sites_equiv, model_sites. cbn. split_and!; intros.
  - split.
    + intros [[[]|([b blk] & Hb%elem_of_enumerate & [(phi & ? & -> & ->)|(j & ins & ? & ? & ->)])]|(? & ? & ? & ? & ? & ? & [])].
      * by eapply def_phi.
      * by eapply def_instruction.
    + intros Hs. left. right. destruct Hs as [b blk phi Hb ? <-|b blk i ins Hb ? ?];
        exists (b, blk); (split; [by apply elem_of_enumerate|]); cbn; [left; by exists phi|right; by exists i, ins].
  - split.
    + intros [[[]|([b blk] & Hb%elem_of_enumerate & [(? & ? & [])|(j & ins & ? & ? & ->)])]|
              ([b blk] & Hb%elem_of_enumerate & phi & Hphi & source & Hs & -> & ->)]; cbn in *.
      * by eapply use_instruction.
      * in_range (blocks f) (predecessor source) as pb Hpb.
        rewrite Hpb. by eapply (use_phi f _ b blk phi source pb).
    + intros Hs. destruct Hs as [b blk i ins Hb ? ?|b blk phi source pb Hb Hphi Hs <- Hpb]; [left; right|right];
        exists (b, blk); (split; [by apply elem_of_enumerate|]); cbn.
      * right. by exists i, ins.
      * exists phi. split; [done|]. exists source. rewrite Hpb. done.
  - unfold upward_use. split.
    + intros [[[]|([c blk] & Hb%elem_of_enumerate & [(? & ? & [])|(-> & j & ins & ? & ? & Hn & ?)])]|(? & ? & ? & ? & ? & ? & [])].
      exists blk, j, ins. rewrite elem_of_list_to_set in Hn. by split_and!.
    + intros (blk & i & ins & Hb & ? & ? & Hn & ?). left. right. exists (b, blk). split; [by apply elem_of_enumerate|].
      right. split; [done|]. exists i, ins. rewrite elem_of_list_to_set. by split_and!.
  - unfold edge_use. split.
    + intros [[[]|(? & ? & [(? & ? & [])|[]])]|([b blk] & Hb%elem_of_enumerate & phi & Hphi & source & Hs & -> & -> & ->)].
      by exists blk, phi, source.
    + intros (blk & phi & source & Hb & Hphi & Hs & <- & <-). right. exists (s, blk).
      split; [by apply elem_of_enumerate|]. exists phi. split; [done|]. by exists source.
Qed.

Lemma empty_holds n : holds n [] no_sites (MF ∅ ∅ (replicate n BlockFacts_default) ∅).
Proof.
  split; cbn.
  - apply length_replicate.
  - constructor.
  - intros v. rewrite lookup_empty. split; [by intros ?%not_elem_of_nil|by intros [? ?]].
  - intros v s. by rewrite lookup_empty.
  - intros v s. rewrite lookup_empty. split; [by intros ?%not_elem_of_nil|done].
  - intros b bf [-> _]%lookup_replicate. split; cbn.
    + set_solver.
    + set_solver.
    + intros v. rewrite lookup_empty. split; [by intros ? []|done].
  - intros p s v. rewrite lookup_empty. cbn. set_solver.
  - intros v. by rewrite lookup_empty.
Qed.

(** [collect_model] records exactly the sites of the function, or some value
    has two definitions, or some phi does not name each predecessor once. *)
Lemma collect_model_spec f preds slots :
  slots_of f slots -> slots_fit f -> phi_sources_in f -> length preds = length (blocks f) ->
  match collect_model f preds slots with
  | Ok m => holds (length (blocks f)) (all_definitions f) (all_sites f) m /\ phis_ok f preds
  | Err _ => ~ NoDup (all_definitions f) \/ ~ phis_ok f preds
  | Panic => False
  end.
Proof.
  intros Hslots Hfit Hin Hpreds. unfold collect_model. set (n := length (blocks f)).
  pose proof (collect_blocks_spec f slots n (blocks f) 0 [] no_sites _ ltac:(done) ltac:(done) Hslots Hfit (empty_holds n) ltac:(done)) as Hb.
  destruct (foldM _ _ _) as [m1|e|]; msimpl; cbn [records app] in Hb; [|left; destruct Hb as [?|[]]; done|done].
  destruct Hb as [Hm1 _].
  set (good := fun ib : nat * block_facts => forall phi, phi ∈ phis ib.2 -> phi_ok preds ib.1 phi).
  assert (Hgood : phis_ok f preds <-> forall ib, ib ∈ enumerate (blocks f) -> good ib).
  { split.
    - intros Hok [b blk] Hb%elem_of_enumerate phi. by apply Hok.
    - intros Hok b blk phi Hb. apply (Hok (b, blk)). by apply elem_of_enumerate. }
  pose proof (foldM_records (fun m (ib : nat * block_facts) => foldM (collect_phi slots preds ib.1) m (phis ib.2))
    (holds n) (fun _ => []) (fun ib => sites_all (phis ib.2) (phi_sites f ib.1)) good (enumerate (blocks f)) (holds_ext n)) as Hf.
  rewrite bind_nil in Hf. eapply Hf in Hm1.
  - destruct (foldM _ m1 _) as [m2|e|]; msimpl; cbn [records] in Hm1; [| |done].
    + destruct Hm1 as [Hm2 Hg%Hgood]. rewrite app_nil_r in Hm2. split; [|done].
      apply (holds_equiv _ _ _ (all_sites f)) in Hm2; [|by apply model_sites_equiv].
      destruct Hm2 as [H1 H2 H3 H4 H5 H6 H7 H8]. split; try done.
      * intros v s. rewrite <- H5. cbn. rewrite lookup_fmap. destruct (m_uses m2 !! v); cbn; [|done].
        rewrite elem_of_dedup. apply elem_of_sort_by_key.
      * intros v. cbn. rewrite lookup_fmap. specialize (H8 v). destruct (m_uses m2 !! v) as [[|u l]|]; [done| |done].
        cbn [fmap option_fmap option_map]. intros [= Hnil]. apply (not_elem_of_nil u). rewrite <- Hnil, elem_of_dedup, elem_of_sort_by_key. by left.
    + destruct Hm1 as [?|Hn]; [left; by rewrite app_nil_r in *|right]. by rewrite Hgood.
  - intros [b blk] pre P m Hblk%elem_of_enumerate Hm. cbn [fst snd].
    pose proof (foldM_records (collect_phi slots preds b) (holds n) (fun _ => []) (phi_sites f b) (phi_ok preds b) (phis blk) (holds_ext n)) as Hp.
    rewrite bind_nil in Hp. apply Hp; [|done]. intros phi pre' P' m' Hphi Hm'.
    pose proof (collect_phi_spec f slots preds n pre' P' m' b phi Hslots ltac:(intros; by eapply Hin) eq_refl
      ltac:(rewrite Hpreds; eauto with index) Hm') as Hs.
    destruct (collect_phi slots preds b m' phi); cbn; rewrite ?app_nil_r; tauto.
Qed.

Lemma block_slots_spec f :
  match block_slots f with
  | Ok slots => slots_of f slots /\ slots_fit f
  | Err _ => ~ slots_fit f
  | Panic => False
  end.
Proof.
  assert (Hgo : forall (l : list block_facts) k,
    match (mapMr (fun ib : nat * block_facts =>
      exit ← ok_or (LIE SLOT_RANGE (Some ib.1) None [])
        (slot ← checked_mul (Z.of_nat (length (instructions ib.2))) 3; checked_add slot 2);
      Ok (BS 1 exit)) (zip (seq k (length l)) l) : result (LiveIntervalError V) _) with
    | Ok slots => slots = (fun blk => BS 1 (exit_slot_of blk)) <$> l /\ Forall (fun blk => exit_slot_of blk <= usize_max) l
    | Err _ => ~ Forall (fun blk => exit_slot_of blk <= usize_max) l
    | Panic => False
    end).
  { induction l as [|blk l IH]; intros k; cbn [length seq zip zip_with mapMr]; [done|].
    unfold checked_mul. cbn [fst snd]. unfold exit_slot_of at 1 2 3.
    case_decide as Hm; msimpl; [|intros [? _]%Forall_cons; lia].
    destruct (checked_add _ 2) as [e|] eqn:He; msimpl.
    - apply checked_add_Some in He as [-> He]. specialize (IH (S k)). msimpl_in IH.
      destruct (mapMr _ _) as [slots|er|]; [|intros [_ ?]%Forall_cons; done|done].
      destruct IH as [-> Hl]. split; [|constructor; [lia|done]]. csimpl. f_equal. f_equal. unfold exit_slot_of. lia.
    - apply checked_add_None in He. intros [? _]%Forall_cons. lia. }
  unfold block_slots. specialize (Hgo (blocks f) 0%nat). destruct (mapMr _ _) as [slots|e|]; [| |done].
  - destruct Hgo as [-> Hl]. split; [split; [by rewrite length_fmap|]|].
    + intros b blk Hb. by rewrite list_lookup_fmap, Hb.
    + intros b blk Hb. by eapply Forall_lookup_1 in Hl.
  - intros Hfit. apply Hgo, Forall_lookup_2. intros b blk. apply Hfit.
Qed.
End model.
