(* ===== verification/LivenessFacts.v ===== *)
(** * LivenessFacts: liveness, strict SSA and the segments of a value

    The points at which a value is live, defined over paths, strict SSA, and
    what the passes that build segments and intervals produce from the facts
    and the live sets. *)

From S2P Require Import Prelude Order RegAlloc LiveInterval Graph Dominators DominatorsFacts.
From S2P Require Import Liveness LivenessFlow LivenessModel.

Section specification.
Context {V R : Type} `{Countable V} `{!Ord V}.
Abbreviation facts := (FunctionAllocationFacts V R).
Implicit Types (f : facts) (v : V) (b : nat) (p : Z).

(** [v] is needed at point [p] of block [b]: a use follows that no definition
    of [v] precedes. *)
Inductive live f v : nat -> Z -> Prop :=
  | live_use b p u : use_site f v u -> u_block u = b -> p <= u_slot u ->
      (forall d, def_site f v d -> d_block d = b -> ~ (p < d_slot d <= u_slot u)) -> live f v b p
  | live_succ b p s blk : blocks f !! b = Some blk -> s ∈ successors blk -> p <= exit_slot_of blk ->
      (forall d, def_site f v d -> d_block d = b -> d_slot d <= p) -> live f v s 0 -> live f v b p.

(** Where a register must hold [v]: at its definition and where it is live. *)
Definition occupied f v b p : Prop := (exists d, def_site f v d /\ d_block d = b /\ d_slot d = p) \/ live f v b p.

(** The definition of [v] at [d] reaches the use at [u] on every path. *)
Definition def_dominates f (d : DefinitionSite) (u : UseSite) : Prop :=
  if decide (d_block d = u_block u) then d_slot d < u_slot u
  else dominates_spec (successors <$> blocks f) (entry f) (d_block d) (u_block u).

Definition phis_complete f : Prop := forall b blk phi, blocks f !! b = Some blk -> phi ∈ phis blk ->
  NoDup (predecessor <$> sources phi) /\ length (sources phi) = edges_into (successors <$> blocks f) b.

Record strict_ssa f : Prop := {
  ss_shape : well_shaped f;
  ss_reachable b : (b < length (blocks f))%nat -> reachable (successors <$> blocks f) (entry f) b;
  ss_slots : slots_fit f;
  ss_single : NoDup (all_definitions f);
  ss_phis : phis_complete f;
  ss_uses v u : use_site f v u -> exists d, def_site f v d /\ def_dominates f d u }.

Lemma def_slot_range f v d : def_site f v d -> exists blk, blocks f !! d_block d = Some blk /\ 1 <= d_slot d < exit_slot_of blk.
Proof.
  unfold exit_slot_of. intros [b blk phi Hb _ _|b blk i ins Hb Hi _]; exists blk; (split; [done|]); cbn; [lia|].
  apply lookup_lt_Some in Hi. unfold def_slot_of. lia.
Qed.

Lemma use_slot_range f v u : use_site f v u -> exists blk, blocks f !! u_block u = Some blk /\ 2 <= u_slot u <= exit_slot_of blk.
Proof.
  intros [b blk i ins Hb Hi _|b blk phi src pblk _ _ _ _ Hp]; cbn; eexists; (split; [done|]);
    unfold exit_slot_of, use_slot_of; [apply lookup_lt_Some in Hi|]; lia.
Qed.

(** A live value is used somewhere. *)
Lemma live_used f v b p : live f v b p -> exists u, use_site f v u.
Proof. induction 1; eauto. Qed.
End specification.

Section analysis.
Context {V R : Type} `{Countable V} `{!Ord V}.
Context (f : FunctionAllocationFacts V R) (m : ModelFacts (V:=V)).
Abbreviation n := (length (blocks f)).
Abbreviation rows := (successors <$> blocks f).
Context (Hshape : well_shaped f) (Hfit : slots_fit f).
Context (Hm : holds n (all_definitions f) (all_sites f) m).
Implicit Types (v : V) (b : nat) (d : DefinitionSite) (u : UseSite) (p : Z).

Lemma def_unique v d d' : def_site f v d -> def_site f v d' -> d = d'.
Proof. intros Hd%(h_defs _ _ _ _ Hm) Hd'%(h_defs _ _ _ _ Hm). congruence. Qed.

Lemma defined v d : def_site f v d <-> m_definitions m !! v = Some d.
Proof. symmetry. apply (h_defs _ _ _ _ Hm). Qed.

Lemma facts_hold b : (b < n)%nat -> block_holds (all_sites f) b (facts_of m b).
Proof.
  intros Hb. in_range (m_blocks m) b as bf Hbf; [by rewrite (h_length _ _ _ _ Hm)|].
  unfold facts_of. rewrite Hbf. by apply (h_blocks _ _ _ _ Hm).
Qed.

Lemma row_lt b s : s ∈ row f b -> (s < n)%nat.
Proof.
  unfold row. destruct (blocks f !! b) as [blk|] eqn:Hb; [|by intros ?%not_elem_of_nil].
  cbn. by apply (ws_successors _ Hshape b).
Qed.

Lemma row_spec b blk : blocks f !! b = Some blk -> row f b = successors blk.
Proof. intros Hb. unfold row. by rewrite Hb. Qed.

Lemma edge_need_spec b s v : v ∈ edge_need m b s <-> edge_use f b s v.
Proof. apply (h_edges _ _ _ _ Hm). Qed.

(** An edge use is a use at the end of the predecessor. *)
Lemma edge_use_site b s v blk : blocks f !! b = Some blk -> edge_use f b s v -> use_site f v (US b None (exit_slot_of blk)).
Proof. intros Hb (sblk & phi & src & Hs & Hphi & Hsrc & <- & Hv). by eapply use_phi. Qed.

Lemma no_definition b v : (b < n)%nat -> v ∉ definitions (facts_of m b) -> forall d, def_site f v d -> d_block d <> b.
Proof. intros Hb Hv d Hd Hdb. apply Hv, (bh_definitions _ _ _ (facts_hold b Hb)). by exists d. Qed.

(** ** Block entries and exits *)

Lemma live_entry_live v b : (b < n)%nat -> live_entry f m v b -> live f v b 0.
Proof.
  intros Hb Hl. induction Hl as [b Hv|b s Hs Hv Hd|b s Hs Hl IH Hd];
    in_range (blocks f) b as blk Hblk.
  - apply (bh_upward _ _ _ (facts_hold b Hb)) in Hv as (blk' & i & ins & Hb' & Hi & Hu & Hphi & Hbefore). simplify_eq.
    apply (live_use f v b 0 (US b (Some i) (use_slot_of i))); [by eapply use_instruction|done|unfold use_slot_of; cbn; lia|].
    intros d Hdef Hdb [_ Hle]. cbn in Hle. unfold use_slot_of in Hle.
    destruct Hdef as [b' blk2 phi Hb2 Hin <-|b' blk2 j ins' Hb2 Hj Hin]; cbn in *; simplify_eq.
    + apply Hphi, list_elem_of_fmap. eauto.
    + unfold def_slot_of in Hle. apply (Hbefore j ins'); [lia|done..].
  - apply (live_use f v b 0 (US b None (exit_slot_of blk))); [by eapply edge_use_site, edge_need_spec|done| |].
    + unfold exit_slot_of. cbn. lia.
    + intros d Hdef Hdb _. by eapply no_definition.
  - rewrite (row_spec b blk Hblk) in Hs. eapply (live_succ f v b 0 s); [done..| | |].
    + unfold exit_slot_of. lia.
    + intros d Hdef Hdb. by destruct (no_definition b v Hb Hd d Hdef).
    + apply IH. by apply (ws_successors _ Hshape b blk).
Qed.

Lemma use_edge_or_instruction v b u : use_site f v u -> u_block u = b ->
  (exists blk i ins, blocks f !! b = Some blk /\ instructions blk !! i = Some ins /\ v ∈ uses ins /\ u_slot u = use_slot_of i) \/
  (exists blk s, blocks f !! b = Some blk /\ s ∈ row f b /\ edge_use f b s v /\ u_slot u = exit_slot_of blk).
Proof.
  intros [b' blk i ins Hb Hi Hv|s blk phi src pblk Hb Hphi Hsrc Hv Hp] <-; cbn; [left; eauto 8|right].
  exists pblk, s. split_and!; [done| | |done].
  - destruct (ws_phis _ Hshape s blk phi src Hb Hphi Hsrc) as (pblk' & Hp' & Hin). simplify_eq. by rewrite (row_spec _ pblk).
  - by exists blk, phi, src.
Qed.

Lemma live_live_entry v b p : (b < n)%nat -> live f v b p -> p = 0 -> live_entry f m v b.
Proof.
  intros Hb Hl. induction Hl as [b p u Hu Hub Hp Hd|b p s blk Hblk Hs Hp Hd Hl IH]; intros ->.
  - assert (Hdef : v ∈ definitions (facts_of m b) -> exists d, def_site f v d /\ d_block d = b /\ u_slot u < d_slot d).
    { intros (d & Hdef & Hdb)%(bh_definitions _ _ _ (facts_hold b Hb)). exists d. split_and!; [done..|].
      specialize (Hd d Hdef Hdb). destruct (def_slot_range f v d Hdef) as (? & _ & ?). lia. }
    destruct (use_edge_or_instruction v b u Hu Hub) as [(blk & i & ins & Hblk & Hi & Hv & Hslot)|(blk & s & Hblk & Hs & He & Hslot)].
    + apply le_use, (bh_upward _ _ _ (facts_hold b Hb)). exists blk, i, ins. rewrite Hslot in Hd. split_and!; [done..| |].
      * intros (phi & Hphi1 & Hphi2)%list_elem_of_fmap.
        apply (Hd (DS b None 1)); [by eapply def_phi|done|]. cbn. unfold use_slot_of. lia.
      * intros j ins' Hlt Hj Hin. apply (Hd (DS b (Some j) (def_slot_of j))); [by eapply def_instruction|done|].
        cbn. unfold use_slot_of, def_slot_of. lia.
    + apply (le_edge _ _ _ _ s); [done|by apply edge_need_spec|]. intros (d & Hd' & Hdb & Hlt)%Hdef.
      destruct (def_slot_range f v d Hd') as (blk' & Hb' & ?). subst b. rewrite Hdb in Hb'. simplify_eq. lia.
  - assert (Hs' : s ∈ row f b) by (by rewrite (row_spec b blk)).
    apply (le_through _ _ _ _ s); [done|apply IH; [by eapply row_lt|done]|].
    intros (d & Hdef & Hdb)%(bh_definitions _ _ _ (facts_hold b Hb)). specialize (Hd d Hdef Hdb).
    destruct (def_slot_range f v d Hdef) as (? & _ & ?). lia.
Qed.

(** ** The live sets *)

Context (live_sets : LiveState (V:=V)) (Hsized : LivenessFlow.sized f live_sets).
Context (Hlive : forall b v, (b < n)%nat ->
  (v ∈ in_of live_sets b <-> live_entry f m v b) /\ (v ∈ out_of live_sets b <-> live_exit f m v b)).

Lemma in_live b v : (b < n)%nat -> v ∈ in_of live_sets b <-> live f v b 0.
Proof.
  intros Hb. rewrite (proj1 (Hlive b v Hb)). split; [by apply live_entry_live|]. intros Hl. by eapply live_live_entry.
Qed.

(** A value that leaves a block is live at every point after its definition
    there, if there is one. *)
Lemma out_live b blk v p : blocks f !! b = Some blk -> v ∈ out_of live_sets b -> p <= exit_slot_of blk ->
  (forall d, def_site f v d -> d_block d = b -> d_slot d <= p) -> live f v b p.
Proof.
  intros Hb Hv Hp Hd. assert (b < n)%nat as Hbn by (eauto with index).
  apply (Hlive b v Hbn) in Hv as (s & Hs & [He%edge_need_spec|Hl]).
  - apply (live_use f v b p (US b None (exit_slot_of blk))); [by eapply edge_use_site|done..|].
    intros d Hdef Hdb. specialize (Hd d Hdef Hdb). lia.
  - eapply (live_succ f v b p s); [done|by rewrite <- (row_spec b blk)|done..|].
    apply live_entry_live; [by eapply row_lt|done].
Qed.

Lemma live_out_of b blk v s : blocks f !! b = Some blk -> s ∈ successors blk -> live f v s 0 -> v ∈ out_of live_sets b.
Proof.
  intros Hb Hs Hl. assert (b < n)%nat as Hbn by (eauto with index). apply (Hlive b v Hbn).
  rewrite <- (row_spec b blk) in Hs by done. exists s. split; [done|right].
  eapply live_live_entry; [by eapply row_lt|done..].
Qed.
(** ** Segments *)

Definition in_values b v : Prop :=
  v ∈ in_of live_sets b \/ v ∈ out_of live_sets b \/ v ∈ definitions (facts_of m b) \/ is_Some (last_use (facts_of m b) !! v).

(** [s] is the segment [add_segment] makes for [v] in [b]. *)
Record seg_at b v (s : LiveSegment) : Prop := {
  sa_block : LiveInterval.block s = Z.of_nat b;
  sa_bounds : exists blk d, blocks f !! b = Some blk /\ def_site f v d /\
    ~ (d_block d = b /\ v ∈ in_of live_sets b) /\ seg_start s = (if decide (d_block d = b) then d_slot d else 0) /\
    segment_end (BS 1 (exit_slot_of blk)) (facts_of m b) (out_of live_sets b) b d v = Some (seg_stop s) /\
    seg_start s < seg_stop s }.

Lemma seg_at_unique b v s1 s2 : seg_at b v s1 -> seg_at b v s2 -> s1 = s2.
Proof.
  intros [H1 (blk & d & Hb & Hd & _ & Hs & He & _)] [H2 (blk' & d' & Hb' & Hd' & _ & Hs' & He' & _)].
  rewrite (def_unique v d' d Hd' Hd) in *. destruct s1, s2; cbn in *. simplify_eq. congruence.
Qed.

Lemma occupied_in_values b v p : 0 <= p -> occupied f v b p -> in_values b v.
Proof.
  unfold in_values. intros Hp [(d & Hd & Hdb & _)|Hl].
  - destruct (def_slot_range f v d Hd) as (blk & Hblk%lookup_lt_Some & _). rewrite Hdb in Hblk.
    right. right. left. apply (bh_definitions _ _ _ (facts_hold b Hblk)). by exists d.
  - destruct Hl as [b p u Hu Hub _ _|b p s blk Hb Hs _ _ Hl].
    + destruct (use_slot_range f v u Hu) as (blk & Hblk%lookup_lt_Some & _). rewrite Hub in Hblk.
      destruct (proj1 (bh_last _ _ _ (facts_hold b Hblk) v) u Hu Hub) as (l & Hl & _). right. right. right. by exists l.
    + right. left. by eapply live_out_of.
Qed.

(** A use of [v] before its definition in the same block makes [v] live at
    the block's entry. *)
Lemma use_before_definition b v u d :
  use_site f v u -> u_block u = b -> def_site f v d -> d_block d = b -> u_slot u < d_slot d -> v ∈ in_of live_sets b.
Proof.
  intros Hu Hub Hd Hdb Hlt. destruct (use_slot_range f v u Hu) as (blk & Hblk%lookup_lt_Some & Hr). rewrite Hub in Hblk.
  apply in_live; [done|]. apply (live_use f v b 0 u); [done|done|lia|].
  intros d' Hd' _. rewrite (def_unique v d' d) by done. lia.
Qed.

Lemma seg_at_occupied b v s p : 0 <= p -> seg_at b v s -> in_values b v ->
  LiveInterval.contains s p = true <-> occupied f v b p.
Proof.
  intros Hp [_ (blk & d & Hblk & Hd & Hnin & Hstart & Hend & Hlt)] Hval. rewrite contains_true.
  assert (Hb : (b < n)%nat) by (eauto with index).
  pose proof (facts_hold b Hb) as [Hdefs _ Hlast]. destruct (Hlast v) as [Hl1 Hl2].
  assert (Hthis : forall d', def_site f v d' -> d' = d) by (intros; by eapply def_unique).
  assert (Hfrom : forall q, seg_start s <= q -> forall d', def_site f v d' -> d_block d' = b -> d_slot d' <= q).
  { intros q Hq d' Hd' Hdb. pose proof (Hthis d' Hd') as ->. rewrite Hstart, decide_True in Hq by done. done. }
  unfold segment_end in Hend. split.
  - intros [Hge Hlt']. destruct (decide (v ∈ out_of live_sets b)) as [Hout|Hout].
    + apply checked_add_Some in Hend as [Hend _]. right. eapply out_live; [done|done|cbn in Hend; lia|by apply Hfrom].
    + destruct (last_use (facts_of m b) !! v) as [l|] eqn:Hlu.
      * apply checked_add_Some in Hend as [Hend _]. destruct (Hl2 l eq_refl) as (u & Hu & Hub & Hul). right.
        apply (live_use f v b p u); [done|done|lia|]. intros d' Hd' Hdb. specialize (Hfrom p Hge d' Hd' Hdb). lia.
      * destruct (decide (d_block d = b)) as [Hdb|]; [|done]. apply checked_add_Some in Hend as [Hend _]. left. exists d.
        split_and!; [done..|lia].
  - intros [(d' & Hd' & Hdb & <-)|Hl].
    + pose proof (Hthis d' Hd') as ->. rewrite decide_True in Hstart by done. lia.
    + inversion Hl as [b' p' u Hu Hub Hpu Hbetween|b' p' s' blk' Hb' Hs' Hpe Hbefore Hl']; subst b' p'.
      * split.
        -- rewrite Hstart. destruct (decide (d_block d = b)) as [Hdb|]; [|done]. specialize (Hbetween d Hd Hdb).
           destruct (decide (d_slot d <= u_slot u)); [lia|]. destruct Hnin. split; [done|].
           apply (use_before_definition b v u d); [done..|lia].
        -- destruct (Hl1 u Hu Hub) as (l & Hlu & Hle). destruct (decide (v ∈ out_of live_sets b)) as [Hout|Hout].
           ++ apply checked_add_Some in Hend as [-> _]. destruct (use_slot_range f v u Hu) as (blk' & Hblk' & ?).
              rewrite Hub in Hblk'. simplify_eq. cbn. lia.
           ++ rewrite Hlu in Hend. apply checked_add_Some in Hend as [-> _]. lia.
      * simplify_eq. assert (Hout : v ∈ out_of live_sets b) by (by eapply live_out_of).
        rewrite decide_True in Hend by done. apply checked_add_Some in Hend as [-> _]. cbn. split; [|lia].
        rewrite Hstart. destruct (decide (d_block d = b)) as [Hdb|]; [|done]. by apply Hbefore.
Qed.

(** ** Building the segments *)

Context (slots : list BlockSlots) (Hslots : slots_of f slots).
Abbreviation segmap := (gmap V (list LiveSegment)).
Implicit Types (segs : segmap).

Definition segs_of segs v : list LiveSegment := default [] (segs !! v).

Lemma live_lookup b : (b < n)%nat ->
  live_in live_sets !! b = Some (in_of live_sets b) /\ live_out live_sets !! b = Some (out_of live_sets b) /\
  m_blocks m !! b = Some (facts_of m b).
Proof.
  intros Hb. destruct Hsized as (Hi & Ho & _). unfold in_of, out_of, facts_of.
  destruct (lookup_lt_is_Some_2 (live_in live_sets) b) as [? ->]; [lia|].
  destruct (lookup_lt_is_Some_2 (live_out live_sets) b) as [? ->]; [lia|].
  destruct (lookup_lt_is_Some_2 (m_blocks m) b) as [? ->]; [|done]. rewrite (h_length _ _ _ _ Hm). lia.
Qed.

Lemma add_segment_spec b segs v : (b < n)%nat ->
  match add_segment slots m live_sets b segs v with
  | Ok segs' => exists s, seg_at b v s /\ segs' = <[v := segs_of segs v ++ [s]]> segs
  | Err _ => ~ exists s, seg_at b v s
  | Panic => False
  end.
Proof.
  intros Hb. destruct (live_lookup b Hb) as (Hi & Ho & Hbf).
  in_range (blocks f) b as blk Hblk.
  unfold add_segment. destruct (m_definitions m !! v) as [d|] eqn:Hd; msimpl.
  2:{ intros (s & [_ (blk' & d & _ & Hd'%defined & _)]). congruence. }
  rewrite Hi. msimpl. apply defined in Hd. case_decide as Huse.
  { intros (s & [_ (blk' & d' & _ & Hd' & Hnot & _)]). rewrite (def_unique v d' d) in Hnot by done. tauto. }
  rewrite Ho, (proj2 Hslots b blk Hblk), Hbf. msimpl.
  destruct (segment_end _ _ _ _ _ _) as [stop|] eqn:Hend; msimpl.
  2:{ intros (s & [_ (blk' & d' & Hb' & Hd' & _ & _ & He & _)]). rewrite (def_unique v d' d) in He by done.
      rewrite Hblk in Hb'. injection Hb' as <-. congruence. }
  destruct (decide (stop <= _)) as [Hle|Hle].
  { intros (s & [_ (blk' & d' & Hb' & Hd' & _ & Hs & He & Hlt)]). pose proof (def_unique v d' d Hd' Hd) as ->.
    rewrite Hblk in Hb'. injection Hb' as <-. rewrite Hend in He. injection He as He. lia. }
  eexists. split; [|done]. split; [done|]. cbn. exists blk, d. split_and!; [exact Hblk|exact Hd|exact Huse|reflexivity|exact Hend|lia].
Qed.

Lemma segs_of_insert segs v l x : segs_of (<[v := l]> segs) x = if decide (x = v) then l else segs_of segs x.
Proof.
  unfold segs_of. case_decide as Hx; [subst x; by rewrite lookup_insert_eq|by rewrite lookup_insert_ne].
Qed.

Lemma add_segments_spec b segs vs : (b < n)%nat -> NoDup vs ->
  match foldM (add_segment slots m live_sets b) segs vs with
  | Ok segs' => forall v, (v ∈ vs -> exists s, seg_at b v s /\ segs_of segs' v = segs_of segs v ++ [s]) /\
      (v ∉ vs -> segs_of segs' v = segs_of segs v)
  | Err _ => exists v, v ∈ vs /\ ~ exists s, seg_at b v s
  | Panic => False
  end.
Proof.
  intros Hb Hnd. revert segs. induction Hnd as [|v vs Hv Hnd IH]; intros segs; cbn [foldM].
  { intros v. split; [by intros ?%not_elem_of_nil|done]. }
  pose proof (add_segment_spec b segs v Hb) as Hs. destruct (add_segment _ _ _ _ _ _) as [segs1|e|]; msimpl; [| |done].
  2:{ exists v. split; [by left|done]. }
  destruct Hs as (s & Hs & ->). specialize (IH (<[v := segs_of segs v ++ [s]]> segs)).
  destruct (foldM _ _ _) as [segs2|e|]; [| |done].
  - intros x. destruct (IH x) as [IHin IHout]. rewrite segs_of_insert in IHin, IHout. split.
    + intros [->|Hx]%elem_of_cons.
      * exists s. rewrite IHout by done. by rewrite decide_True.
      * destruct (IHin Hx) as (s' & ? & Heq). exists s'. rewrite decide_False in Heq by (by intros ->). done.
    + intros [Hxv Hx]%not_elem_of_cons. rewrite IHout by done. by rewrite decide_False.
  - destruct IH as (x & Hx & ?). exists x. split; [by right|done].
Qed.

Lemma block_values_spec b : (b < n)%nat -> exists vs, block_values m live_sets b = Ok vs /\ NoDup vs /\
  forall v, v ∈ vs <-> in_values b v.
Proof.
  intros Hb. destruct (live_lookup b Hb) as (Hi & Ho & Hbf). unfold block_values. rewrite Hi, Ho, Hbf. msimpl.
  eexists. split; [done|]. split; [apply NoDup_ascending|]. intros v. rewrite elem_of_ascending. unfold in_values.
  rewrite !elem_of_union, elem_of_dom. tauto.
Qed.

(** [l] is the segments of [v] in the blocks from [k] up to [k'], in order. *)
Record seg_list v (k k' : nat) (l : list LiveSegment) : Prop := {
  sl_sound s : s ∈ l -> exists b, (k <= b < k')%nat /\ in_values b v /\ seg_at b v s;
  sl_complete b : (k <= b < k')%nat -> in_values b v -> exists s, s ∈ l /\ seg_at b v s;
  sl_sorted : StronglySorted (fun s1 s2 => LiveInterval.block s1 < LiveInterval.block s2) l }.

Lemma seg_list_cons v k k' l s : (k < k')%nat -> seg_list v (S k) k' l -> in_values k v -> seg_at k v s -> seg_list v k k' (s :: l).
Proof.
  intros Hk [Hs Hc Hl] Hv Hat. split.
  - intros x [->|Hx]%elem_of_cons; [exists k; split_and!; [lia|lia|done|done]|].
    destruct (Hs x Hx) as (b & ? & ? & ?). exists b. split_and!; [lia|lia|done|done].
  - intros b Hb Hbv. destruct (decide (b = k)) as [->|Hne]; [exists s; split; [by left|done]|].
    destruct (Hc b ltac:(lia) Hbv) as (x & Hx & ?). exists x. split; [by right|done].
  - constructor; [done|]. rewrite Forall_forall. intros x Hx. destruct (Hs x Hx) as (b & ? & _ & Hxb).
    rewrite (sa_block _ _ _ Hat), (sa_block _ _ _ Hxb). lia.
Qed.

Lemma seg_list_skip v k k' l : ~ in_values k v -> seg_list v (S k) k' l -> seg_list v k k' l.
Proof.
  intros Hv [Hs Hc Hl]. split; [| |done].
  - intros x Hx. destruct (Hs x Hx) as (b & ? & ? & ?). exists b. split_and!; [lia|lia|done|done].
  - intros b Hb Hbv. apply Hc; [|done]. assert (b <> k) by (by intros ->). lia.
Qed.

Lemma build_segments_fold k cnt segs : (k + cnt <= n)%nat ->
  match foldM (fun segs block => values ← block_values m live_sets block; foldM (add_segment slots m live_sets block) segs values)
    segs (seq k cnt) with
  | Ok segs' => forall v, exists l, segs_of segs' v = segs_of segs v ++ l /\ seg_list v k (k + cnt) l
  | Err _ => exists b v, (b < n)%nat /\ in_values b v /\ ~ exists s, seg_at b v s
  | Panic => False
  end.
Proof.
  revert k segs. induction cnt as [|cnt IH]; intros k segs Hk; cbn [seq foldM].
  { intros v. exists []. rewrite app_nil_r. split; [done|]. split; [by intros s ?%not_elem_of_nil|lia|constructor]. }
  destruct (block_values_spec k) as (vs & -> & Hnd & Hvs); [lia|]. msimpl.
  pose proof (add_segments_spec k segs vs ltac:(lia) Hnd) as Hs.
  destruct (foldM (add_segment slots m live_sets k) segs vs) as [segs1|e|]; [| |done].
  2:{ destruct Hs as (v & Hv%Hvs & ?). exists k, v. split_and!; [lia|done|done]. }
  specialize (IH (S k) segs1 ltac:(lia)). msimpl_in IH. destruct (foldM _ _ _) as [segs2|e|]; [|done|done].
  intros v. destruct (IH v) as (l & Heq & Hl). rewrite Nat.add_succ_comm in Hl. destruct (Hs v) as [Hin Hout].
  destruct (decide (v ∈ vs)) as [Hv|Hv].
  - destruct (Hin Hv) as (s & Hat & Hs1). exists (s :: l). split; [by rewrite Heq, Hs1, <- app_assoc|].
    apply seg_list_cons; [lia|done|by apply Hvs|done].
  - exists l. rewrite Heq, (Hout Hv). split; [done|]. apply seg_list_skip; [by rewrite <- Hvs|done].
Qed.

(** ** The intervals *)

(** An interval with the points of [v], and no others. *)
Record exact_interval v (i : LiveInterval V) : Prop := {
  ei_value : LiveInterval.value i = v;
  ei_wf : wf_segments (segments i);
  ei_points b p : 0 <= p ->
    (exists s, s ∈ segments i /\ LiveInterval.block s = Z.of_nat b /\ LiveInterval.contains s p = true) <-> occupied f v b p }.

Lemma occupied_block v b p : 0 <= p -> occupied f v b p -> (b < n)%nat.
Proof.
  intros Hp [(d & Hd & <- & _)|Hl].
  - destruct (def_slot_range f v d Hd) as (blk & Hblk & _). eauto with index.
  - destruct Hl as [b p u Hu <- _ _|b p s blk Hb _ _ _ _]; [|eauto with index].
    destruct (use_slot_range f v u Hu) as (blk & Hblk & _). eauto with index.
Qed.

Lemma strongly_sorted_ne {A} (P Q : A -> A -> Prop) (key : A -> Z) (l : list A) :
  StronglySorted P l -> NoDup (key <$> l) -> (forall x y, P x y -> key x <> key y -> Q x y) -> StronglySorted Q l.
Proof.
  intros Hs Hnd Himp. induction Hs as [|x l Hs IH Hx]; [constructor|]. apply NoDup_cons in Hnd as [Hnot Hnd].
  constructor; [by apply IH|]. rewrite Forall_forall in *. intros y Hy. apply Himp; [by apply Hx|].
  intros Heq. apply Hnot. rewrite Heq. by apply list_elem_of_fmap_2.
Qed.

Lemma sorted_blocks_NoDup (l : list LiveSegment) :
  StronglySorted (fun s1 s2 => LiveInterval.block s1 < LiveInterval.block s2) l -> NoDup (LiveInterval.block <$> l).
Proof.
  induction 1 as [|s l Hs IH Hx]; constructor; [|done]. intros (y & Heq & Hy)%list_elem_of_fmap.
  rewrite Forall_forall in Hx. specialize (Hx y Hy). lia.
Qed.

Definition interval_of segs v : LiveInterval V := LI v (sort_by_key segment_key (segs_of segs v)).

Lemma interval_exact segs v : seg_list v 0 n (segs_of segs v) -> exact_interval v (interval_of segs v).
Proof.
  intros [Hsound Hcomplete Hsorted]. split; cbn [interval_of LiveInterval.value segments]; [done| |].
  - split.
    + apply (strongly_sorted_ne (key_le segment_key) _ LiveInterval.block); [apply sort_by_key_sorted| |].
      * rewrite sort_by_key_permutation. by apply sorted_blocks_NoDup.
      * intros x y Hle Hne. unfold key_le, segment_key, seg_before in *. rewrite pair_le in *. lia.
    + rewrite Forall_forall. intros s Hs%elem_of_sort_by_key. destruct (Hsound s Hs) as (b & _ & _ & [_ (? & ? & _ & _ & _ & _ & _ & ?)]). done.
  - intros b p Hp. setoid_rewrite elem_of_sort_by_key. split.
    + intros (s & Hs & Hb & Hc). destruct (Hsound s Hs) as (b' & _ & Hv & Hat). rewrite (sa_block _ _ _ Hat) in Hb.
      apply Nat2Z.inj in Hb as ->. by eapply seg_at_occupied.
    + intros Ho. pose proof (occupied_block v b p Hp Ho) as Hb. pose proof (occupied_in_values b v p Hp Ho) as Hv.
      destruct (Hcomplete b ltac:(lia) Hv) as (s & Hs & Hat). exists s. split; [done|]. split; [apply (sa_block _ _ _ Hat)|].
      by eapply seg_at_occupied.
Qed.

(** [segment_in_block] finds the only segment of a block. *)
Lemma covers_spec segs v b p : seg_list v 0 n (segs_of segs v) -> 0 <= p ->
  covers (interval_of segs v) b p = true <-> occupied f v b p.
Proof.
  intros Hl Hp. pose proof (interval_exact segs v Hl) as [_ _ Hpoints]. rewrite <- (Hpoints b p Hp).
  unfold covers, segment_in_block. cbn [interval_of segments]. setoid_rewrite elem_of_sort_by_key.
  destruct (list_find _ _) as [[k s]|] eqn:Hf; cbn [fmap option_fmap option_map snd].
  - apply list_find_Some in Hf as (Hs%list_elem_of_lookup_2%elem_of_sort_by_key & Hb & _). split; [by eauto|].
    intros (s' & Hs' & Hb' & Hc). destruct (sl_sound _ _ _ _ Hl s Hs) as (b1 & _ & _ & H1), (sl_sound _ _ _ _ Hl s' Hs') as (b2 & _ & _ & H2).
    rewrite (sa_block _ _ _ H1) in Hb. rewrite (sa_block _ _ _ H2) in Hb'. apply Nat2Z.inj in Hb, Hb'. subst b1 b2.
    by rewrite (seg_at_unique b v s s' H1 H2).
  - split; [done|]. intros (s & Hs & Hb & _). apply list_find_None in Hf. rewrite Forall_forall in Hf.
    destruct (Hf s); [by apply elem_of_sort_by_key|done].
Qed.

Lemma site_occupied v u : use_site f v u -> occupied f v (u_block u) (u_slot u).
Proof. intros Hu. right. apply (live_use f v _ _ u); [done|done|lia|]. intros d _ _ ?. lia. Qed.

(** ** The checks *)

Context (t : DominatorTree).
Context (Htree : forall a b, (a < n)%nat -> (b < n)%nat ->
  exists r, dominates t a b = Ok r :> result (LiveIntervalError V) bool /\ (r = true <-> dominates_spec rows (entry f) a b)).

Lemma check_use_spec segs v d u : seg_list v 0 n (segs_of segs v) -> def_site f v d -> use_site f v u ->
  match check_use t d (interval_of segs v) v u with
  | Ok _ => def_dominates f d u
  | Err _ => ~ def_dominates f d u
  | Panic => False
  end.
Proof.
  intros Hl Hd Hu. pose proof (site_occupied v u Hu) as Ho.
  destruct (use_slot_range f v u Hu) as (blk & Hblk%lookup_lt_Some & Hrange).
  destruct (def_slot_range f v d Hd) as (dblk & Hdblk%lookup_lt_Some & _).
  assert (Hdom : exists r, (if decide (d_block d = u_block u) then Ok (bool_decide (d_slot d < u_slot u))
      else dominates t (d_block d) (u_block u)) = Ok r :> result (LiveIntervalError V) bool /\ (r = true <-> def_dominates f d u)).
  { unfold def_dominates. case_decide; [|by apply Htree]. eexists. split; [done|]. apply bool_decide_eq_true. }
  destruct Hdom as (r & Hr & Hspec). unfold check_use. rewrite Hr. msimpl.
  rewrite (proj2 (covers_spec segs v (u_block u) (u_slot u) Hl ltac:(lia)) Ho). cbn [andb].
  destruct r; [by apply Hspec|]. by intros ?%Hspec.
Qed.

Lemma check_uses_spec segs v d us : seg_list v 0 n (segs_of segs v) -> def_site f v d -> (forall u, u ∈ us -> use_site f v u) ->
  match foldM (fun (_ : unit) site => check_use t d (interval_of segs v) v site) tt us with
  | Ok _ => forall u, u ∈ us -> def_dominates f d u
  | Err _ => exists u, use_site f v u /\ ~ def_dominates f d u
  | Panic => False
  end.
Proof.
  intros Hl Hd. induction us as [|u us IH]; intros Hus; cbn [foldM]; [by intros u ?%not_elem_of_nil|].
  pose proof (check_use_spec segs v d u Hl Hd (Hus u ltac:(by left))) as Hu.
  destruct (check_use _ _ _ _ _) as [[]|e|]; msimpl; [|exists u; split; [apply Hus; by left|done]|done].
  specialize (IH ltac:(intros; apply Hus; by right)). destruct (foldM _ _ _) as [[]|e|]; [|done|done].
  intros u' [->|Hu']%elem_of_cons; [done|by apply IH].
Qed.

Lemma add_interval_spec segs is_ v : seg_list v 0 n (segs_of segs v) -> v ∈ all_definitions f ->
  match add_interval t m (segs, is_) v with
  | Ok (segs', is') => is' = <[v := interval_of segs v]> is_ /\ segs' = delete v segs /\
      exists d, def_site f v d /\ forall u, use_site f v u -> def_dominates f d u
  | Err _ => exists d u, def_site f v d /\ use_site f v u /\ ~ def_dominates f d u
  | Panic => False
  end.
Proof.
  intros Hl Hv. apply (h_pre _ _ _ _ Hm) in Hv as [d Hd]. unfold add_interval. rewrite Hd. msimpl. apply defined in Hd.
  fold (segs_of segs v). fold (interval_of segs v).
  destruct (def_slot_range f v d Hd) as (blk & _ & Hrange).
  rewrite (proj2 (covers_spec segs v (d_block d) (d_slot d) Hl ltac:(lia))) by (left; by exists d).
  assert (Hus : forall u, u ∈ default [] (m_uses m !! v) <-> use_site f v u) by apply (h_uses _ _ _ _ Hm).
  pose proof (check_uses_spec segs v d (default [] (m_uses m !! v)) Hl Hd ltac:(intros; by apply Hus)) as Hc.
  destruct (foldM _ _ _) as [[]|e|]; msimpl; [| |done].
  - split_and!; [done..|]. exists d. split; [done|]. intros u Hu. by apply Hc, Hus.
  - destruct Hc as (u & ? & ?). by exists d, u.
Qed.

Lemma segs_of_delete segs v x : x <> v -> segs_of (delete v segs) x = segs_of segs x.
Proof. intros Hx. unfold segs_of. by rewrite lookup_delete_ne. Qed.

Lemma add_intervals_spec l segs is_ : NoDup l -> (forall v, v ∈ l -> v ∈ all_definitions f /\ seg_list v 0 n (segs_of segs v)) ->
  match foldM (add_interval t m) (segs, is_) l with
  | Ok st => (forall v, v ∈ l -> exists i, st.2 !! v = Some i /\ exact_interval v i) /\
      (forall v, v ∉ l -> st.2 !! v = is_ !! v) /\
      forall v u, v ∈ l -> use_site f v u -> exists d, def_site f v d /\ def_dominates f d u
  | Err _ => exists v d u, def_site f v d /\ use_site f v u /\ ~ def_dominates f d u
  | Panic => False
  end.
Proof.
  intros Hnd. revert segs is_. induction Hnd as [|v l Hv Hnd IH]; intros segs is_ Hl; cbn [foldM].
  { split_and!; [by intros v ?%not_elem_of_nil|done|by intros v u ?%not_elem_of_nil]. }
  destruct (Hl v ltac:(by left)) as [Hdef Hsegs]. pose proof (add_interval_spec segs is_ v Hsegs Hdef) as Ha.
  destruct (add_interval t m (segs, is_) v) as [[segs1 is1]|e|]; msimpl; [|by exists v|done].
  destruct Ha as (-> & -> & d & Hd & Hdom).
  specialize (IH (delete v segs) (<[v := interval_of segs v]> is_)).
  assert (Hrest : forall x, x ∈ l -> x ∈ all_definitions f /\ seg_list x 0 n (segs_of (delete v segs) x)).
  { intros x Hx. rewrite segs_of_delete by (by intros ->). apply Hl. by right. }
  specialize (IH Hrest). destruct (foldM _ _ _) as [st|e|]; [destruct IH as (Hin & Hout & Huses)|done|done].
  split_and!.
  - intros x [->|Hx]%elem_of_cons; [|by apply Hin]. rewrite Hout, lookup_insert_eq by done.
    eexists. split; [done|]. by apply interval_exact.
  - intros x [Hxv Hx]%not_elem_of_cons. by rewrite Hout, lookup_insert_ne by done.
  - intros x u [->|Hx]%elem_of_cons Hu; [exists d; auto|by apply Huses].
Qed.

Lemma check_defined_spec :
  match check_defined m with
  | Ok _ => forall v u, use_site f v u -> exists d, def_site f v d
  | Err _ => exists v u, use_site f v u /\ forall d, ~ def_site f v d
  | Panic => False
  end.
Proof.
  unfold check_defined. destruct (list_find _ _) as [[k v]|] eqn:Hf.
  - apply list_find_Some in Hf as (Hv%list_elem_of_lookup_2%elem_of_ascending%elem_of_dom & Hnone & _). exists v.
    destruct Hv as [[|u us] Hus]; [by destruct (h_nonempty _ _ _ _ Hm v)|]. exists u. split.
    + apply (h_uses _ _ _ _ Hm). rewrite Hus. by left.
    + intros d Hd%defined. congruence.
  - apply list_find_None in Hf. rewrite Forall_forall in Hf. intros v u Hu.
    destruct (m_definitions m !! v) as [d|] eqn:Hd; [exists d; by apply defined|]. destruct (Hf v); [|done].
    apply elem_of_ascending, elem_of_dom. apply (h_uses _ _ _ _ Hm) in Hu.
    destruct (m_uses m !! v); [done|]. by apply not_elem_of_nil in Hu.
Qed.

(** ** Strict SSA makes every segment *)

Definition strict_uses : Prop := forall v u, use_site f v u -> exists d, def_site f v d /\ def_dominates f d u.

Lemma strict_use v u d : strict_uses -> use_site f v u -> def_site f v d -> u_block u = d_block d -> d_slot d < u_slot u.
Proof.
  intros Hstrict Hu Hd Hb. destruct (Hstrict v u Hu) as (d' & Hd' & Hdom). rewrite (def_unique v d' d) in Hdom by done.
  unfold def_dominates in Hdom. by rewrite decide_True in Hdom.
Qed.

(** No value is live at the entry of its own block. *)
Lemma not_live_in v d : strict_uses -> def_site f v d -> ~ live f v (d_block d) 0.
Proof.
  intros Hstrict Hd Hl. destruct (def_slot_range f v d Hd) as (blk & _ & Hrange).
  inversion Hl as [b' p' u Hu Hub _ Hbetween|b' p' s blk' _ _ _ Hbefore _]; subst b' p'.
  - pose proof (strict_use v u d Hstrict Hu Hd Hub). apply (Hbetween d); [done|done|lia].
  - specialize (Hbefore d Hd eq_refl). lia.
Qed.

Lemma in_values_defined b v : strict_uses -> (b < n)%nat -> in_values b v -> exists d, def_site f v d.
Proof.
  intros Hstrict Hb Hv. pose proof (facts_hold b Hb) as [Hdefs _ Hlast].
  assert (Hused : (exists u, use_site f v u) -> exists d, def_site f v d).
  { intros (u & Hu). destruct (Hstrict v u Hu) as (d & Hd & _). by exists d. }
  in_range (blocks f) b as blk Hblk.
  destruct Hv as [Hin|[Hout|[Hdef%Hdefs|[l Hl]]]]; [apply Hused|apply Hused| |apply Hused].
  - apply in_live in Hin; [|done]. by eapply live_used.
  - apply (Hlive b v Hb) in Hout as (s & Hs & [He%edge_need_spec|He]).
    + eexists. by eapply edge_use_site.
    + eapply live_used. apply live_entry_live; [by eapply row_lt|done].
  - destruct Hdef as (d & Hd & _). by exists d.
  - destruct (proj2 (Hlast v) l Hl) as (u & Hu & _). by exists u.
Qed.

Lemma exit_fits b blk : blocks f !! b = Some blk -> exit_slot_of blk + 1 <= usize_max.
Proof. intros Hb. pose proof (Hfit b blk Hb). unfold exit_slot_of, usize_max in *. lia. Qed.

Lemma segment_exists b v : strict_uses -> (b < n)%nat -> in_values b v -> exists s, seg_at b v s.
Proof.
  intros Hstrict Hb Hv. destruct (in_values_defined b v Hstrict Hb Hv) as (d & Hd).
  in_range (blocks f) b as blk Hblk. pose proof (facts_hold b Hb) as [Hdefs _ Hlast].
  pose proof (exit_fits b blk Hblk) as Hexit. destruct (def_slot_range f v d Hd) as (dblk & Hdblk & Hrange).
  set (start := if decide (d_block d = b) then d_slot d else 0).
  assert (Hgo : exists stop, segment_end (BS 1 (exit_slot_of blk)) (facts_of m b) (out_of live_sets b) b d v = Some stop /\ start < stop).
  { unfold segment_end, start. destruct (decide (v ∈ out_of live_sets b)) as [Hout|Hout].
    - exists (exit_slot_of blk + 1). split; [by apply checked_add_Some|].
      destruct (decide (d_block d = b)) as [Hdb|]; [rewrite Hdb in Hdblk; simplify_eq; lia|unfold exit_slot_of; lia].
    - destruct (last_use (facts_of m b) !! v) as [l|] eqn:Hl.
      + destruct (proj2 (Hlast v) l Hl) as (u & Hu & Hub & <-). destruct (use_slot_range f v u Hu) as (ublk & Hublk & Hur).
        rewrite Hub in Hublk. simplify_eq. exists (u_slot u + 1). split; [apply checked_add_Some; lia|].
        destruct (decide (d_block d = u_block u)) as [Hdb|]; [|lia].
        pose proof (strict_use v u d Hstrict Hu Hd ltac:(done)). lia.
      + assert (Hdb : d_block d = b).
        { destruct Hv as [Hin|[Hv|[Hv%Hdefs|[? ?]]]]; [|done| |congruence].
          - apply in_live in Hin; [|done]. inversion Hin as [b' p' u Hu Hub _ _|b' p' s blk' Hb' Hs _ _ Hl']; subst b' p'.
            + destruct (proj1 (Hlast v) u Hu Hub) as (? & ? & _). congruence.
            + destruct Hout. by eapply live_out_of.
          - destruct Hv as (d' & Hd' & <-). by rewrite (def_unique v d' d). }
        rewrite !decide_True by done. exists (d_slot d + 1). rewrite Hdb in Hdblk. simplify_eq.
        split; [apply checked_add_Some|]; lia. }
  destruct Hgo as (stop & Hend & Hlt). exists (LS (Z.of_nat b) start stop). split; [done|]. exists blk, d.
  split_and!; [done|done| |done|done|done]. intros [<- Hin]. apply in_live in Hin; [|done]. by eapply not_live_in.
Qed.
End analysis.
