(* ===== verification/LivenessExact.v ===== *)
(** * LivenessExact: [analyze_live_intervals] decides strict SSA, exactly

    The composition of the passes: the analysis never panics, accepts exactly
    the strict-SSA functions, and its intervals and live sets hold exactly the
    points at which a value is defined or live. *)

From S2P Require Import Prelude Order RegAlloc LiveInterval Graph Dominators DominatorsFacts.
From S2P Require Import Liveness LivenessFlow LivenessModel LivenessFacts.

Section exact.
Context {V R : Type} `{Countable V} `{!Ord V}.
Implicit Types (f : FunctionAllocationFacts V R) (v : V) (b : nat) (p : Z).

(** What a successful analysis returns. *)
Record exact_result f (r : LiveIntervals (V:=V)) : Prop := {
  er_values v : is_Some (intervals r !! v) <-> exists d, def_site f v d;
  er_intervals v i : intervals r !! v = Some i -> exact_interval f v i;
  er_live_in b v : (b < length (blocks f))%nat -> v ∈ default ∅ (ls_live_in r !! b) <-> live f v b 0;
  er_live_out b v blk : blocks f !! b = Some blk ->
    v ∈ default ∅ (ls_live_out r !! b) <-> exists s, s ∈ successors blk /\ (edge_use f b s v \/ live f v s 0) }.

Lemma well_shaped_closed f : well_shaped f -> closed (successors <$> blocks f).
Proof.
  intros Hf b s (row & Hrow & Hs). rewrite list_lookup_fmap in Hrow. rewrite length_fmap.
  destruct (blocks f !! b) as [blk|] eqn:Hb; [|done]. injection Hrow as <-. by eapply ws_successors.
Qed.

Lemma phis_complete_ok f preds :
  (forall b, length (row_of preds b) = edges_into (successors <$> blocks f) b) -> phis_complete f <-> phis_ok f preds.
Proof. intros Hlen. unfold phis_complete, phis_ok, phi_ok. by setoid_rewrite Hlen. Qed.

Lemma phi_sources_exist f : well_shaped f -> phi_sources_in f.
Proof.
  intros Hf b blk phi source Hb Hphi Hs. destruct (ws_phis f Hf b blk phi source Hb Hphi Hs) as (pblk & Hp & _).
  eauto with index.
Qed.

(** The passes after the facts are collected. *)
Lemma intervals_of_model f m preds slots t :
  well_shaped f -> slots_fit f -> holds (length (blocks f)) (all_definitions f) (all_sites f) m ->
  reverses (successors <$> blocks f) preds -> slots_of f slots ->
  (forall a b, (a < length (blocks f))%nat -> (b < length (blocks f))%nat ->
    exists r, dominates t a b = Ok r :> result (LiveIntervalError V) bool /\
      (r = true <-> dominates_spec (successors <$> blocks f) (entry f) a b)) ->
  match (live ← solve_liveness f preds m; segs ← build_segments f slots m live;
         st ← foldM (add_interval t m) (segs, ∅) (ascending (dom (m_definitions m)));
         _ ← check_defined m; Ok (LIS st.2 (live_in live) (live_out live))) with
  | Ok r => strict_uses f /\ exact_result f r
  | Err _ => ~ strict_uses f
  | Panic => False
  end.
Proof.
  intros Hf Hfit Hm Hrev Hslots Htree. pose proof (well_shaped_closed f Hf) as Hclosed.
  destruct (solve_liveness_spec f preds m Hclosed Hrev (h_length _ _ _ _ Hm)) as (ls & -> & Hsized & Hlive). msimpl.
  pose proof (build_segments_fold f m Hm ls Hsized slots Hslots 0 (length (blocks f)) ∅ ltac:(lia)) as Hsegs.
  unfold build_segments. destruct (foldM _ ∅ _) as [segs|e|]; msimpl; [| |done].
  2:{ destruct Hsegs as (b & v & Hb & Hv & Hno). intros Hstrict. apply Hno. by eapply segment_exists. }
  assert (Hall : forall v, v ∈ ascending (dom (m_definitions m)) -> v ∈ all_definitions f /\ seg_list f m ls v 0 (length (blocks f)) (segs_of segs v)).
  { intros v Hv%elem_of_ascending%elem_of_dom. split; [by apply (h_pre _ _ _ _ Hm)|].
    destruct (Hsegs v) as (l & Heq & Hl). unfold segs_of at 2 in Heq. rewrite lookup_empty in Heq. by rewrite Heq. }
  pose proof (add_intervals_spec f m Hf Hm ls Hlive t Htree _ segs ∅ (NoDup_ascending _) Hall) as Hi.
  destruct (foldM _ _ _) as [st|e|]; msimpl; [| |done].
  2:{ destruct Hi as (v & d & u & Hd & Hu & Hnot). intros Hstrict. destruct (Hstrict v u Hu) as (d' & Hd' & Hdom).
      by rewrite (def_unique f m Hm v d d') in Hnot. }
  destruct Hi as (Hin & Hout & Huses). pose proof (check_defined_spec f m Hm) as Hc.
  destruct (check_defined m) as [[]|e|]; msimpl; [| |done].
  2:{ destruct Hc as (v & u & Hu & Hnot). intros Hstrict. destruct (Hstrict v u Hu) as (d & Hd & _). by apply (Hnot d). }
  assert (Hdom : forall v, v ∈ ascending (dom (m_definitions m)) <-> exists d, def_site f v d).
  { intros v. rewrite elem_of_ascending, elem_of_dom. setoid_rewrite (defined f m Hm). done. }
  split; [|split; cbn].
  - intros v u Hu. apply (Huses v u); [|done]. by apply Hdom, (Hc v u).
  - intros v. rewrite <- Hdom. destruct (decide (v ∈ ascending (dom (m_definitions m)))) as [Hv|Hv].
    + destruct (Hin v Hv) as (i & -> & _). split; eauto.
    + rewrite (Hout v Hv), lookup_empty. split; [by intros [? ?]|done].
  - intros v i Hvi. destruct (decide (v ∈ ascending (dom (m_definitions m)))) as [Hv|Hv].
    + destruct (Hin v Hv) as (i' & Hi' & Hex). rewrite Hi' in Hvi. by injection Hvi as <-.
    + rewrite (Hout v Hv), lookup_empty in Hvi. done.
  - intros b v Hb. by apply (in_live f m Hf Hm).
  - intros b v blk Hb. assert (b < length (blocks f))%nat as Hbn by (eauto with index).
    change (v ∈ out_of ls b <-> exists s, s ∈ successors blk /\ (edge_use f b s v \/ live f v s 0)).
    rewrite (proj2 (Hlive b v Hbn)). unfold live_exit. rewrite (row_spec f b blk Hb).
    setoid_rewrite (edge_need_spec f m Hm). split; intros (s & Hs & [He|Hl]); exists s; (split; [done|]).
    + by left.
    + right. apply (live_entry_live f m Hf Hm); [by eapply ws_successors|done].
    + by left.
    + right. eapply live_live_entry; [done|done|by eapply ws_successors|done|done].
Qed.

Lemma dominates_error {E E'} t a b r : dominates t a b = Ok r :> result E bool -> dominates t a b = Ok r :> result E' bool.
Proof.
  unfold dominates. destruct (enter t !! a), (enter t !! b); msimpl; try done. case_decide; [|by intros [= ->]].
  destruct (exit t !! b), (exit t !! a); msimpl; try done. by intros [= ->].
Qed.

Lemma analyze_spec f :
  match analyze_live_intervals f with
  | Ok r => strict_ssa f /\ exact_result f r
  | Err _ => ~ strict_ssa f
  | Panic => False
  end.
Proof.
  unfold analyze_live_intervals. destruct (verify_spec f) as [Hv Hnp].
  destruct (verify f) as [[]|e|]; msimpl; [| |done].
  2:{ intros Hs. apply ss_shape, Hv in Hs. done. }
  pose proof (proj1 Hv eq_refl) as Hf. pose proof (well_shaped_closed f Hf) as Hclosed.
  destruct (predecessor_rows_spec (E:=LiveIntervalError V) _ Hclosed) as (preds & -> & Hrev & Hedges). msimpl.
  pose proof (compute_dominators_spec _ preds (entry f) Hclosed Hrev) as Ht. rewrite length_fmap in Ht.
  specialize (Ht (ws_entry f Hf)). destruct (compute_dominators _ _ _) as [t|[b|b]|]; cbn [lift_dominator_error]; msimpl; [| |done..].
  2:{ destruct Ht as [Hb Hnot]. intros Hs. by apply Hnot, (ss_reachable f Hs). }
  destruct Ht as [Hreach Htree]. pose proof (block_slots_spec f) as Hbs.
  destruct (block_slots f) as [slots|e|]; msimpl; [| |done].
  2:{ intros Hs. by apply Hbs, (ss_slots f Hs). }
  destruct Hbs as [Hslots Hfit].
  assert (Hlen : length preds = length (blocks f)) by (rewrite (proj1 Hrev); apply length_fmap).
  pose proof (collect_model_spec f preds slots Hslots Hfit (phi_sources_exist f Hf) Hlen) as Hm.
  destruct (collect_model f preds slots) as [m|e|]; msimpl; [| |done].
  2:{ intros Hs. destruct Hm as [Hn|Hn]; apply Hn; [apply (ss_single f Hs)|]. apply phis_complete_ok; [done|apply (ss_phis f Hs)]. }
  destruct Hm as [Hm Hphis%(phis_complete_ok f preds Hedges)].
  assert (Htree' : forall a b, (a < length (blocks f))%nat -> (b < length (blocks f))%nat ->
    exists r, dominates t a b = Ok r :> result (LiveIntervalError V) bool /\
      (r = true <-> dominates_spec (successors <$> blocks f) (entry f) a b)).
  { intros a b Ha Hb. destruct (Htree a b Ha Hb) as (r & Hr & ?). exists r. split; [by eapply dominates_error|done]. }
  pose proof (intervals_of_model f m preds slots t Hf Hfit Hm Hrev Hslots Htree') as Hi. msimpl_in Hi. revert Hi.
  match goal with |- match ?passes with _ => _ end -> _ => destruct passes as [r|e|] end; [| |done].
  - intros [Huses Hr]. split; [|done]. by split; [..|apply (h_nodup _ _ _ _ Hm)| |].
  - intros Hn Hs. apply Hn. exact (ss_uses f Hs).
Qed.

(** C6: [analyze_live_intervals] decides strict SSA. It succeeds exactly on
    facts that pass [verify], whose blocks are all reachable and fit the slot
    range, in which every value has one definition, every phi one source per
    incoming edge, and every use is dominated by the definition of its value;
    on any other input it returns an error, and it never panics or fails to
    terminate. *)
Theorem analyze_live_intervals_decides f :
  ((exists r, analyze_live_intervals f = Ok r) <-> strict_ssa f) /\ analyze_live_intervals f <> Panic.
Proof.
  pose proof (analyze_spec f) as Hs. destruct (analyze_live_intervals f) as [r|e|].
  - split; [|done]. split; [intros _; apply Hs|by eauto].
  - split; [|done]. split; [by intros (? & ?)|done].
  - done.
Qed.

(** C5: the intervals [analyze_live_intervals] returns are exact. There is one
    for each defined value and no other; its segments are sorted, disjoint and
    not empty; a point of a block lies in a segment precisely when the value
    is defined there or a path leads from it to a use that no definition
    precedes. The live-in and live-out sets are those of the paths, too. *)
Theorem analyze_live_intervals_exact f (r : LiveIntervals (V:=V)) :
  analyze_live_intervals f = Ok r -> exact_result f r.
Proof. intros Hr. pose proof (analyze_spec f) as Hs. rewrite Hr in Hs. apply Hs. Qed.
End exact.

Lemma analyze_live_intervals_exact_witness :
  exists r, analyze_live_intervals loop_facts = Ok r /\ exact_result loop_facts r /\
    (fun i : LiveInterval Z => (fun s => (LiveInterval.block s, seg_start s, seg_stop s)) <$> segments i) <$> (intervals r !! 2) =
      Some [(1, 1, 6); (2, 0, 3); (3, 0, 3)].
Proof.
  destruct (analyze_live_intervals loop_facts) as [r|e|] eqn:Hr; [|exfalso; revert Hr; vm_compute; done..].
  exists r. split; [reflexivity|]. split; [exact (analyze_live_intervals_exact loop_facts r Hr)|].
  pose proof loop_intervals as Hi. rewrite Hr in Hi. by injection Hi.
Defined.
