(* ===== verification/Specs.v ===== *)
(** * Specs: specifying fallible loops over arrays

    A Hoare-style predicate on results with its rules for [bind] and [foldM],
    arrays described by the function of their indices, and finite sums: the
    vocabulary in which the scheduler's invariants are stated. *)

From stdpp Require Import functions.
From S2P Require Import Prelude.

(** ** Results *)

(** [r] returns a value with [good], or fails with an error with [bad]; it
    does not panic. *)
Definition yields {E A} (bad : E -> Prop) (good : A -> Prop) (r : result E A) : Prop :=
  match r with Ok a => good a | Err e => bad e | Panic => False end.

Lemma yields_bind {E A B} (bad : E -> Prop) (P : A -> Prop) (Q : B -> Prop) (r : result E A) (k : A -> result E B) :
  yields bad P r -> (forall a, P a -> yields bad Q (k a)) -> yields bad Q (r ≫= k).
Proof. destruct r; cbn; auto. Qed.

Lemma yields_impl {E A} (bad : E -> Prop) (P Q : A -> Prop) (r : result E A) :
  (forall a, P a -> Q a) -> yields bad P r -> yields bad Q r.
Proof. destruct r; cbn; auto. Qed.

Lemma yields_weaken {E A} (bad bad' : E -> Prop) (P : A -> Prop) (r : result E A) :
  (forall e, bad e -> bad' e) -> yields bad P r -> yields bad' P r.
Proof. destruct r; cbn; auto. Qed.

(** A loop keeps an invariant indexed by the elements it has seen. *)
Lemma yields_foldM {E A B} (bad : E -> Prop) (I : list B -> A -> Prop) (f : A -> B -> result E A) (l : list B) (a : A) :
  I [] a ->
  (forall pre x post a, l = pre ++ x :: post -> I pre a -> yields bad (I (pre ++ [x])) (f a x)) ->
  yields bad (I l) (foldM f a l).
Proof.
  intros Ha Hf.
  assert (Hgo : forall post pre a, l = pre ++ post -> I pre a -> yields bad (I l) (foldM f a post)).
  { induction post as [|x post IH]; intros pre b Hl Hb; cbn [foldM].
    - cbn. by rewrite Hl, app_nil_r.
    - eapply yields_bind; [by eapply Hf|]. intros c Hc. apply (IH (pre ++ [x])); [|done]. by rewrite <- app_assoc. }
  by apply (Hgo l []).
Qed.

(** Loops over the positions of a range or a list. *)
Lemma yields_seq {E A} (bad : E -> Prop) (I : nat -> A -> Prop) (f : A -> nat -> result E A) (n : nat) (a : A) :
  I 0%nat a -> (forall k a, (k < n)%nat -> I k a -> yields bad (I (S k)) (f a k)) -> yields bad (I n) (foldM f a (seq 0 n)).
Proof.
  intros Ha Hf. rewrite <- (length_seq n 0) at 1. apply (yields_foldM bad (fun pre : list nat => I (length pre))); [done|].
  intros pre x post b Heq Hb. rewrite length_app, Nat.add_1_r.
  assert (Hx : seq 0 n !! length pre = Some x) by (rewrite Heq; by apply list_lookup_middle).
  apply lookup_seq in Hx as [-> Hlt]. by apply Hf.
Qed.

Lemma yields_enumerate {E A B} (bad : E -> Prop) (I : nat -> A -> Prop) (f : A -> nat * B -> result E A) (l : list B) (a : A) :
  I 0%nat a -> (forall k x a, l !! k = Some x -> I k a -> yields bad (I (S k)) (f a (k, x))) ->
  yields bad (I (length l)) (foldM f a (enumerate l)).
Proof.
  intros Ha Hf. assert (Hlen : length (enumerate l) = length l) by (rewrite length_zip_with, length_seq; lia).
  rewrite <- Hlen at 1. apply (yields_foldM bad (fun pre : list (nat * B) => I (length pre))); [done|].
  intros pre [k x] post b Heq Hb. rewrite length_app, Nat.add_1_r.
  assert (Hx : enumerate l !! length pre = Some (k, x)) by (rewrite Heq; by apply list_lookup_middle).
  apply lookup_zip_with_Some in Hx as (i & y & [= <- <-] & [-> _]%lookup_seq & Hy). by apply Hf.
Qed.

Lemma foldM_app {E A B} (f : A -> B -> result E A) (a : A) (l k : list B) :
  foldM f a (l ++ k) = a' ← foldM f a l; foldM f a' k.
Proof. revert a. induction l as [|x l IH]; intros a; cbn [app foldM]; [done|]. destruct (f a x); msimpl; [apply IH|done..]. Qed.

(** A loop of checks passes when each check does. *)
Lemma foldM_checks {E B} (f : unit -> B -> result E unit) (l : list B) :
  foldM f tt l = Ok tt <-> forall x, x ∈ l -> f tt x = Ok tt.
Proof.
  induction l as [|x l IH]; cbn [foldM]; [split; [by intros _ x ?%not_elem_of_nil|done]|].
  split.
  - intros Hl y Hy. destruct (f tt x) as [[]|e|] eqn:Hx; [|done|done]. apply elem_of_cons in Hy as [->|Hy]; [done|]. by apply IH.
  - intros Hall. rewrite (Hall x) by (by left). apply IH. intros y Hy. apply Hall. by right.
Qed.

(** A map whose steps succeed. *)
Lemma mapMr_ok {E A B} (f : A -> result E B) (g : A -> B) (l : list A) :
  (forall a, a ∈ l -> f a = Ok (g a)) -> mapMr f l = Ok (g <$> l).
Proof.
  induction l as [|a l IH]; intros Hl; cbn [mapMr]; [done|]. rewrite (Hl a) by (by left). msimpl.
  rewrite IH by (intros; apply Hl; by right). done.
Qed.

Lemma mapMr_enumerate {E A B} (f : nat * A -> result E B) (g : nat -> A -> B) (l : list A) :
  (forall i a, l !! i = Some a -> f (i, a) = Ok (g i a)) ->
  exists r, mapMr f (enumerate l) = Ok r /\ length r = length l /\ forall i a, l !! i = Some a -> r !! i = Some (g i a).
Proof.
  intros Hl. exists ((fun ia => g ia.1 ia.2) <$> enumerate l). split_and!.
  - apply mapMr_ok. intros [i a] Ha%elem_of_enumerate. by apply Hl.
  - rewrite length_fmap, length_zip_with, length_seq. lia.
  - intros i a Ha. rewrite list_lookup_fmap. assert (enumerate l !! i = Some (i, a)) as ->; [|done].
    apply lookup_zip_with_Some. exists i, a. split_and!; [done| |done]. apply lookup_seq. apply lookup_lt_Some in Ha. lia.
Qed.

Lemma yields_expect {E A} (bad : E -> Prop) (P : A -> Prop) (o : option A) (a : A) :
  o = Some a -> P a -> yields bad P (expect o).
Proof. by intros ->. Qed.

(** ** Arrays *)

(** The [n] entries of [l] are the values of [f]. *)
Definition array {A} (n : nat) (f : nat -> A) (l : list A) : Prop :=
  length l = n /\ forall i, (i < n)%nat -> l !! i = Some (f i).

Section array.
Context {A : Type} (n : nat).
Implicit Types (f g : nat -> A) (l : list A) (x : A).

Lemma array_lookup f l i : array n f l -> (i < n)%nat -> l !! i = Some (f i).
Proof. intros [_ Hl]. apply Hl. Qed.

Lemma array_ext f g l : (forall i, (i < n)%nat -> f i = g i) -> array n f l -> array n g l.
Proof. intros Hfg [? Hl]. split; [done|]. intros i Hi. by rewrite <- Hfg, Hl. Qed.

Lemma array_insert f l i x : array n f l -> array n (<[i := x]> f) (<[i := x]> l).
Proof.
  intros [Hlen Hl]. split; [by rewrite length_insert|]. intros j Hj. destruct (decide (i = j)) as [->|Hne].
  - by rewrite list_lookup_insert_eq, fn_lookup_insert by lia.
  - by rewrite list_lookup_insert_ne, fn_lookup_insert_ne, Hl.
Qed.

(** The entries after one update, described pointwise. *)
Lemma array_update f g l i x : array n f l ->
  g i = x -> (forall j, (j < n)%nat -> j <> i -> g j = f j) -> array n g (<[i := x]> l).
Proof.
  intros Hl Hi Hne. eapply array_ext; [|by apply array_insert]. intros j Hj. destruct (decide (i = j)) as [<-|?].
  - by rewrite fn_lookup_insert.
  - rewrite fn_lookup_insert_ne by done. symmetry. by apply Hne.
Qed.

Lemma array_vset {E} (bad : E -> Prop) f g l i x : array n f l -> (i < n)%nat ->
  g i = x -> (forall j, (j < n)%nat -> j <> i -> g j = f j) -> yields bad (array n g) (vset i x l).
Proof.
  intros Hl Hi Hx Hne. unfold vset. rewrite decide_True by (by rewrite (proj1 Hl)). by eapply array_update.
Qed.

Lemma array_replicate x : array n (fun _ => x) (replicate n x).
Proof. split; [apply length_replicate|]. intros. by apply lookup_replicate_2. Qed.

Lemma array_expect {E} (bad : E -> Prop) (P : A -> Prop) f l i :
  array n f l -> (i < n)%nat -> P (f i) -> yields bad P (expect (l !! i)).
Proof. intros Hl Hi. by apply yields_expect, array_lookup. Qed.
End array.

Lemma array_fmap {A B} n (h : A -> B) f (l : list A) : array n f l -> array n (fun i => h (f i)) (h <$> l).
Proof. intros [? Hl]. split; [by rewrite length_fmap|]. intros i Hi. by rewrite list_lookup_fmap, Hl. Qed.

(** ** Sums *)

Fixpoint zsum {A} (f : A -> Z) (l : list A) : Z :=
  match l with [] => 0 | a :: l => f a + zsum f l end.

Section zsum.
Context {A : Type}.
Implicit Types (f g : A -> Z) (l k : list A).

Lemma zsum_app f l k : zsum f (l ++ k) = zsum f l + zsum f k.
Proof. induction l as [|a l IH]; cbn; lia. Qed.

Lemma zsum_ext f g l : (forall a, a ∈ l -> f a = g a) -> zsum f l = zsum g l.
Proof. induction l as [|a l IH]; intros Hfg; cbn; [done|]. rewrite IH, Hfg; [done|by left|]. intros. apply Hfg. by right. Qed.

Lemma zsum_perm f l k : l ≡ₚ k -> zsum f l = zsum f k.
Proof. induction 1; cbn; lia. Qed.

Lemma zsum_add f g l : zsum (fun a => f a + g a) l = zsum f l + zsum g l.
Proof. induction l as [|a l IH]; cbn; lia. Qed.

Lemma zsum_bounds f l lo hi : (forall a, a ∈ l -> lo <= f a <= hi) ->
  lo * Z.of_nat (length l) <= zsum f l <= hi * Z.of_nat (length l).
Proof.
  induction l as [|a l IH]; intros Hf; cbn [zsum length]; [lia|].
  specialize (IH ltac:(intros; apply Hf; by right)). specialize (Hf a ltac:(by left)). lia.
Qed.

Lemma zsum_abs f g l : (forall a, a ∈ l -> Z.abs (f a) <= g a) -> Z.abs (zsum f l) <= zsum g l.
Proof.
  induction l as [|a l IH]; intros Hf; cbn; [done|]. specialize (IH ltac:(intros; apply Hf; by right)).
  specialize (Hf a ltac:(by left)). lia.
Qed.

Lemma zsum_zero l : zsum (fun _ => 0) l = 0.
Proof. by induction l. Qed.

(** Terms outside a sublist that vanish do not count. *)
Lemma zsum_support `{EqDecision A} f l k : NoDup l -> NoDup k -> k ⊆ l -> (forall a, a ∈ l -> a ∉ k -> f a = 0) ->
  zsum f l = zsum f k.
Proof.
  intros Hl Hk Hsub Hz. assert (Hperm : l ≡ₚ k ++ filter (fun a => a ∉ k) l).
  { apply NoDup_Permutation; [done| |].
    - apply NoDup_app. split_and!; [done| |by apply NoDup_filter]. intros a Ha [Hn _]%list_elem_of_filter. done.
    - intros a. rewrite elem_of_app, list_elem_of_filter. destruct (decide (a ∈ k)); [|naive_solver]. split; [by left|]. intros _. by apply Hsub. }
  rewrite (zsum_perm f _ _ Hperm), zsum_app. rewrite (zsum_ext f (fun _ => 0) (filter _ l)).
  - rewrite zsum_zero. lia.
  - intros a [Hn Ha]%list_elem_of_filter. by apply Hz.
Qed.

(** A sum after one term changed. *)
Lemma zsum_update `{EqDecision A} f g l v : NoDup l -> (forall a, a ∈ l -> a <> v -> g a = f a) ->
  zsum g l = zsum f l + if decide (v ∈ l) then g v - f v else 0.
Proof.
  intros Hnd Hne. induction Hnd as [|a l Ha Hnd IH]; cbn; [done|].
  assert (IH' := IH ltac:(intros; apply Hne; [by right|done])). destruct (decide (a = v)) as [->|Hav].
  - rewrite decide_False in IH' by done. rewrite decide_True by (by left). lia.
  - rewrite IH', (Hne a) by (by left || done). rewrite (decide_ext (v ∈ a :: l) (v ∈ l)); [lia|].
    rewrite elem_of_cons. split; [by intros [->|]|by right].
Qed.

Lemma zsum_nonneg f l : (forall a, 0 <= f a) -> 0 <= zsum f l.
Proof. intros Hf. induction l as [|a l IH]; cbn; [done|]. specialize (Hf a). lia. Qed.

Lemma zsum_submseteq f l k : (forall a, 0 <= f a) -> l ⊆+ k -> zsum f l <= zsum f k.
Proof.
  intros Hf [r Hr]%submseteq_Permutation. rewrite (zsum_perm f _ _ Hr), zsum_app.
  pose proof (zsum_nonneg f r Hf). lia.
Qed.
End zsum.
