(* ===== verification/Backedge.v ===== *)
(** * Backedge: the retreating edges of a depth-first forest

    Models [compute_backedge_successors] of
    [crates/celox-backend-common/src/regalloc.rs], which next-use analysis
    uses to find loop edges. A marked edge closes a cycle, and the unmarked
    edges alone have none. *)

From S2P Require Import Prelude Graph Specs.

Inductive Color : Type := White | Gray | Black.
#[global] Instance Color_eq_dec : EqDecision Color.
Proof. solve_decision. Defined.

Record search_state : Type := SrS {
  colors : list Color;
  backedges : graph;
  search_stack : list (nat * nat) }.

(** One turn of [while let Some((node, next_successor)) = stack.last_mut()];
    the head of [search_stack] is the top of the stack. *)
Definition search_step {E} (successors : graph) (node next_successor : nat) (rest : list (nat * nat)) (st : search_state)
    : result E search_state :=
  row ← expect (successors !! node);
  if decide (next_successor = length row) then
    colors' ← vset node Black (colors st); Ok (SrS colors' (backedges st) rest)
  else
    successor ← expect (row !! next_successor);
    let stack := (node, S next_successor) :: rest in
    color ← expect (colors st !! successor);
    match color with
    | White => Ok (SrS (<[successor := Gray]> (colors st)) (backedges st) ((successor, 0%nat) :: stack))
    | Gray =>
        marked ← expect (backedges st !! node);
        Ok (SrS (colors st) (<[node := marked ++ [successor]]> (backedges st)) stack)
    | Black => Ok (SrS (colors st) (backedges st) stack)
    end.

Fixpoint search_loop {E} (fuel : nat) (successors : graph) (st : search_state) : result E search_state :=
  match search_stack st with
  | [] => Ok st
  | (node, next_successor) :: rest =>
      match fuel with
      | O => Panic
      | S fuel => st ← search_step successors node next_successor rest st; search_loop fuel successors st
      end
  end.

(** [for root in 0..successors.len()] *)
Definition search_root {E} (successors : graph) (st : search_state) (root : nat) : result E search_state :=
  color ← expect (colors st !! root);
  if decide (color <> White) then Ok st
  else search_loop (dfs_fuel successors) successors (SrS (<[root := Gray]> (colors st)) (backedges st) [(root, 0%nat)]).

Definition compute_backedge_successors {E} (successors : graph) : result E graph :=
  let n := length successors in
  st ← foldM (search_root successors) (SrS (replicate n White) (replicate n []) []) (seq 0 n);
  Ok (backedges st).

Example backedge_of_loop : compute_backedge_successors (E:=unit) [[1]; [2; 3]; [1]; []]%nat = Ok [[]; []; [1]; []]%nat.
Proof. vm_compute. reflexivity. Qed.

(** ** What is marked *)

Section facts.
Context (g : graph) (Hclosed : closed g).
Implicit Types (st : search_state) (a b s : nat) (post : list nat).
Abbreviation n := (length g).

Definition marked (bs : graph) a b : Prop := b ∈ default [] (bs !! a).
#[global] Instance marked_dec bs a b : Decision (marked bs a b).
Proof. unfold marked. apply _. Defined.

(** [post]: the black nodes as they finished; then the stack from its top. *)
Record search_inv post st : Prop := {
  sr_colors : length (colors st) = n;
  sr_rows : length (backedges st) = n;
  sr_black b : colors st !! b = Some Black <-> b ∈ post;
  sr_gray b : colors st !! b = Some Gray <-> b ∈ (search_stack st).*1;
  sr_nodup : NoDup (post ++ (search_stack st).*1);
  sr_chain : StronglySorted (fun y x => reachable g x y) (search_stack st).*1;
  sr_marked a b : marked (backedges st) a b -> edge g a b /\ reachable g b a;
  sr_finished a s : a ∈ post -> edge g a s ->
    marked (backedges st) a s \/ before s a (post ++ (search_stack st).*1);
  sr_visited a k row j s : (a, k) ∈ search_stack st -> g !! a = Some row -> (j < k)%nat -> row !! j = Some s ->
    marked (backedges st) a s \/ before s a (post ++ (search_stack st).*1);
  sr_cursor a k row : (a, k) ∈ search_stack st -> g !! a = Some row -> (k <= length row)%nat }.

Definition found (c : Color) : bool := bool_decide (c <> White).
Definition search_measure st : nat :=
  (sum_list (zip_with row_weight (found <$> colors st) g) +
   sum_list ((fun bk : nat * nat => S (length (default [] (g !! bk.1))) - bk.2)%nat <$> search_stack st))%nat.

Lemma marked_push bs a s x y : (a < length bs)%nat ->
  marked (<[a := default [] (bs !! a) ++ [s]]> bs) x y <-> marked bs x y \/ (x = a /\ y = s).
Proof.
  intros Ha. unfold marked. destruct (decide (x = a)) as [->|Hne].
  - rewrite list_lookup_insert_eq by done. cbn. set_solver.
  - rewrite list_lookup_insert_ne by done. naive_solver.
Qed.

(** The finishing turn. *)
Lemma finish_inv post colors0 bs a row rest :
  search_inv post (SrS colors0 bs ((a, length row) :: rest)) -> g !! a = Some row ->
  search_inv (post ++ [a]) (SrS (<[a := Black]> colors0) bs rest).
Proof.
  intros [H1 H2 H3 H4 H5 H6 H7 H8 H9 H10] Hrow. cbn in *.
  assert (Ha : (a < length colors0)%nat) by (rewrite H1; by eapply lookup_lt_Some).
  assert (Hnot : (a ∉ post) /\ a ∉ rest.*1) by (apply NoDup_app in H5 as (_ & Hd & [? _]%NoDup_cons); set_solver).
  split; cbn; rewrite <- ?app_assoc; cbn; try done.
  - by rewrite length_insert.
  - intros b. destruct (decide (b = a)) as [->|Hne].
    + rewrite list_lookup_insert_eq by done. set_solver.
    + rewrite list_lookup_insert_ne, H3 by done. set_solver.
  - intros b. destruct (decide (b = a)) as [->|Hne].
    + rewrite list_lookup_insert_eq by done. naive_solver.
    + rewrite list_lookup_insert_ne, H4 by done. set_solver.
  - by apply StronglySorted_inv in H6 as [? _].
  - intros x s [Hx|Hx%list_elem_of_singleton]%elem_of_app He; [by apply H8|subst x].
    destruct He as (row' & Hrow' & [j Hj]%list_elem_of_lookup). simplify_eq.
    apply (H9 a (length row) row j s); [by left|done|eauto with index|done].
  - intros x k row' j s Hin. apply (H9 x k row' j s). by right.
  - intros x k row' Hin. apply H10. by right.
Qed.

(** A turn that moves past the edge to [s], which is then accounted for. *)
Lemma advance_inv post colors0 bs bs' a k row s rest :
  search_inv post (SrS colors0 bs ((a, k) :: rest)) -> g !! a = Some row -> row !! k = Some s ->
  length bs' = n -> (forall x y, marked bs x y -> marked bs' x y) ->
  (forall x y, marked bs' x y -> marked bs x y \/ (edge g x y /\ reachable g y x)) ->
  marked bs' a s \/ before s a (post ++ a :: rest.*1) ->
  search_inv post (SrS colors0 bs' ((a, S k) :: rest)).
Proof.
  intros [H1 H2 H3 H4 H5 H6 H7 H8 H9 H10] Hrow Hs Hlen Hmono Hnew Hedge. cbn in *. split; cbn; try done.
  - intros x y [Hm|?]%Hnew; [by apply H7|done].
  - intros x y Hx He. destruct (H8 x y Hx He); [left; by apply Hmono|by right].
  - intros x k' row' j y [[= -> ->]|Hin]%elem_of_cons Hr Hj Hy.
    + simplify_eq. destruct (decide (j = k)) as [->|]; [by simplify_eq|].
      destruct (H9 a k row j y) as [?|?]; [by left|done|lia|done|left; by apply Hmono|by right].
    + destruct (H9 x k' row' j y) as [?|?]; [by right|done..|left; by apply Hmono|by right].
  - intros x k' row' [[= -> ->]|Hin]%elem_of_cons Hr; [simplify_eq; apply lookup_lt_Some in Hs; lia|apply (H10 x); [by right|done]].
Qed.

(** A turn that discovers [s]. *)
Lemma discover_inv post colors0 bs a k row s rest :
  search_inv post (SrS colors0 bs ((a, k) :: rest)) -> g !! a = Some row -> row !! k = Some s ->
  colors0 !! s = Some White -> search_inv post (SrS (<[s := Gray]> colors0) bs ((s, 0%nat) :: (a, S k) :: rest)).
Proof.
  intros [H1 H2 H3 H4 H5 H6 H7 H8 H9 H10] Hrow Hs Hw. cbn in *.
  assert (Hnew : s ∉ post ++ a :: rest.*1).
  { intros [Hin|Hin]%elem_of_app; [apply H3 in Hin|apply (H4 s) in Hin]; congruence. }
  assert (Hins : forall x y, before x y (post ++ a :: rest.*1) -> before x y (post ++ s :: a :: rest.*1)) by (intros x y; apply before_insert).
  split; cbn; try done.
  - by rewrite length_insert.
  - intros b. destruct (decide (b = s)) as [->|Hne].
    + rewrite list_lookup_insert_eq by (eauto with index). split; [done|]. intros ?. destruct Hnew. set_solver.
    + by rewrite list_lookup_insert_ne, H3.
  - intros b. destruct (decide (b = s)) as [->|Hne].
    + rewrite list_lookup_insert_eq by (eauto with index). set_solver.
    + rewrite list_lookup_insert_ne, H4 by done. set_solver.
  - rewrite <- Permutation_middle. by constructor.
  - constructor; [done|]. apply StronglySorted_inv in H6 as [_ Hall].
    assert (He : edge g a s) by (exists row; split; [done|by eapply list_elem_of_lookup_2]).
    constructor; [by eapply reachable_snoc; [apply reachable_refl|]|]. eapply Forall_impl; [exact Hall|].
    intros x Hx. exact (reachable_snoc _ _ _ _ Hx He).
  - intros x y Hx He. destruct (H8 x y Hx He); [by left|right; by apply Hins].
  - intros x k' row' j y Hin Hr Hj Hy.
    apply elem_of_cons in Hin as [[= -> ->]|[[= -> ->]|Hin]%elem_of_cons]; [lia| |].
    + simplify_eq. destruct (decide (j = k)) as [->|].
      * simplify_eq. right. exists post, (a :: rest.*1). split; [done|by left].
      * destruct (H9 a k row j y) as [?|?]; [by left|done|lia|done|by left|right; by apply Hins].
    + destruct (H9 x k' row' j y) as [?|?]; [by right|done..|by left|right; by apply Hins].
  - intros x k' row' Hin Hr.
    apply elem_of_cons in Hin as [[= -> ->]|[[= -> ->]|Hin]%elem_of_cons]; [lia|simplify_eq; apply lookup_lt_Some in Hs; lia|].
    apply (H10 x); [by right|done].
Qed.

(** ** The search *)

Lemma found_insert (colors0 : list Color) s c : c <> White -> found <$> <[s := c]> colors0 = <[s := true]> (found <$> colors0).
Proof. intros Hc. rewrite list_fmap_insert. f_equal. unfold found. by rewrite bool_decide_eq_true_2. Qed.

Lemma found_same (colors0 : list Color) s c c' : colors0 !! s = Some c' -> c' <> White -> c <> White ->
  found <$> <[s := c]> colors0 = found <$> colors0.
Proof.
  intros Hs Hc' Hc. rewrite found_insert by done. apply list_insert_id. rewrite list_lookup_fmap, Hs. cbn.
  unfold found. by rewrite bool_decide_eq_true_2.
Qed.

Lemma search_step_spec {E} post st a k rest : search_inv post st -> search_stack st = (a, k) :: rest ->
  exists post' st', search_step g a k rest st = Ok st' :> result E _ /\ search_inv post' st' /\
    search_measure st = S (search_measure st') /\ forall b, found <$> colors st !! b = Some true -> found <$> colors st' !! b = Some true.
Proof.
  intros Hi Hst. destruct st as [colors0 bs stack]. cbn in Hst. subst stack. pose proof Hi as [H1 H2 H3 H4 H5 H6 H7 H8 H9 H10].
  cbn in *. assert (Hga : colors0 !! a = Some Gray) by (apply H4; by left).
  in_range g a as row Hrow; [rewrite <- H1; eauto with index|]. pose proof (H10 a k row ltac:(by left) Hrow) as Hk.
  unfold search_step. rewrite Hrow. msimpl. cbn. case_decide as Hend.
  { subst k. unfold vset. rewrite decide_True by (eauto with index). msimpl. exists (post ++ [a]). eexists. split; [done|].
    split; [by eapply finish_inv|]. split.
    - unfold search_measure. cbn [colors search_stack]. rewrite (found_same _ _ _ _ Hga) by done. csimpl. rewrite ?Hrow. csimpl. lia.
    - cbn. intros b Hb. destruct (decide (b = a)) as [->|]; [|by rewrite list_lookup_insert_ne]. by rewrite list_lookup_insert_eq by (eauto with index). }
  in_range row k as s Hs. rewrite Hs. msimpl.
  assert (He : edge g a s) by (exists row; split; [done|by eapply list_elem_of_lookup_2]).
  in_range colors0 s as color Hcolor; [rewrite H1; by apply (Hclosed a)|]. rewrite Hcolor. msimpl.
  assert (Hw : (S (length row) - k = S (S (length row) - S k))%nat) by lia.
  destruct color; [|in_range bs a as marks Hmarks; [rewrite H2; eauto with index|]; rewrite Hmarks; msimpl|].
  - exists post. eexists. split; [done|]. split; [by eapply discover_inv|]. split.
    + in_range g s as srow Hsrow.
      unfold search_measure. cbn [colors search_stack]. rewrite found_insert by done.
      rewrite (sum_list_insert (found <$> colors0) g s srow); [|by rewrite list_lookup_fmap, Hcolor|done]. csimpl. rewrite ?Hrow, ?Hsrow. csimpl. lia.
    + cbn. intros b Hb. destruct (decide (b = s)) as [->|]; [|by rewrite list_lookup_insert_ne]. by rewrite list_lookup_insert_eq by (eauto with index).
  - exists post. eexists. split; [done|]. split; [|split; [unfold search_measure; csimpl; rewrite ?Hrow; csimpl; lia|done]].
    assert (Hm : forall x y, marked (<[a := marks ++ [s]]> bs) x y <-> marked bs x y \/ (x = a /\ y = s)).
    { intros x y. rewrite <- marked_push by (eauto with index). by rewrite Hmarks. }
    eapply advance_inv; [done|done|done| | | |].
    + by rewrite length_insert.
    + intros x y ?. apply Hm. by left.
    + intros x y [?|[-> ->]]%Hm; [by left|right]. split; [done|]. apply H4 in Hcolor as [->|Hin]%elem_of_cons; [apply reachable_refl|].
      apply StronglySorted_inv in H6 as [_ Hall]. rewrite Forall_forall in Hall. by apply Hall.
    + left. apply Hm. by right.
  - exists post. eexists. split; [done|]. split; [|split; [unfold search_measure; csimpl; rewrite ?Hrow; csimpl; lia|done]].
    eapply advance_inv; try done; [by left|]. right. apply H3 in Hcolor as (l1 & l2 & ->)%list_elem_of_split.
    exists l1, (l2 ++ a :: rest.*1). rewrite <- app_assoc. split; [done|]. set_solver.
Qed.

Lemma search_loop_spec {E} fuel post st : search_inv post st -> (search_measure st <= fuel)%nat ->
  exists post' st', search_loop fuel g st = Ok st' :> result E _ /\ search_inv post' st' /\ search_stack st' = [] /\
    forall b, found <$> colors st !! b = Some true -> found <$> colors st' !! b = Some true.
Proof.
  revert post st. induction fuel as [|fuel IH]; intros post st Hi Hm; cbn [search_loop];
    destruct (search_stack st) as [|[a k] rest] eqn:Hst; try (by exists post, st).
  - destruct (search_step_spec (E:=E) post st a k rest Hi Hst) as (? & st' & _ & _ & Heq & _). lia.
  - destruct (search_step_spec (E:=E) post st a k rest Hi Hst) as (post1 & st1 & -> & Hi1 & Heq & Hf). msimpl.
    destruct (IH post1 st1 Hi1) as (post2 & st2 & Hl & Hi2 & Hs & Hf2); [lia|]. exists post2, st2. split_and!; auto.
Qed.

(** Between two roots the stack is empty and the nodes passed are found. *)
Lemma search_root_spec {E} post st root : search_inv post st -> search_stack st = [] -> (root < n)%nat ->
  exists post' st', search_root g st root = Ok st' :> result E _ /\ search_inv post' st' /\ search_stack st' = [] /\
    found <$> colors st' !! root = Some true /\
    forall b, found <$> colors st !! b = Some true -> found <$> colors st' !! b = Some true.
Proof.
  intros Hi Hst Hroot. unfold search_root. in_range (colors st) root as c Hc; [by rewrite (sr_colors _ _ Hi)|].
  rewrite Hc. msimpl. case_decide as Hw.
  { exists post, st. split_and!; try done. rewrite Hc. cbn. unfold found. by rewrite bool_decide_eq_true_2. }
  subst c.
  assert (Hup : forall b, found <$> colors st !! b = Some true \/ b = root -> found <$> <[root := Gray]> (colors st) !! b = Some true).
  { intros b Hb. destruct (decide (b = root)) as [->|Hne]; [by rewrite list_lookup_insert_eq by (eauto with index)|].
    rewrite list_lookup_insert_ne by done. by destruct Hb. }
  destruct Hi as [H1 H2 H3 H4 H5 H6 H7 H8 H9 H10]. rewrite Hst in *. cbn in *.
  assert (Hnew : root ∉ post) by (intros Hin%H3; congruence).
  destruct (search_loop_spec (E:=E) (dfs_fuel g) post (SrS (<[root := Gray]> (colors st)) (backedges st) [(root, 0%nat)]))
    as (post' & st' & -> & Hi' & Hst' & Hf).
  - split; cbn; try done.
    + by rewrite length_insert.
    + intros b. destruct (decide (b = root)) as [->|Hne]; [|by rewrite list_lookup_insert_ne].
      rewrite list_lookup_insert_eq by (eauto with index). naive_solver.
    + intros b. destruct (decide (b = root)) as [->|Hne].
      * rewrite list_lookup_insert_eq by (eauto with index). set_solver.
      * rewrite list_lookup_insert_ne, H4 by done. set_solver.
    + rewrite app_nil_r in H5. rewrite <- Permutation_cons_append. by constructor.
    + repeat constructor.
    + intros a s Ha He. destruct (H8 a s Ha He) as [?|Hbef]; [by left|right]. by apply before_insert.
    + intros a k row j s Hin%list_elem_of_singleton. simplify_eq. lia.
    + intros a k row Hin%list_elem_of_singleton. simplify_eq. lia.
  - unfold search_measure. cbn [colors search_stack]. in_range g root as row Hrow.
    rewrite found_insert by done. csimpl. rewrite Hrow. csimpl.
    transitivity (sum_list (zip_with row_weight (found <$> colors st) g)).
    + rewrite (sum_list_insert (found <$> colors st) g root row); [lia|by rewrite list_lookup_fmap, Hc|done].
    + clear -H1. revert H1. unfold dfs_fuel. generalize (colors st). clear st.
      induction g as [|r g' IH]; intros [|c cs] Hl; try done; cbn. injection Hl as Hl. specialize (IH _ Hl).
      rewrite length_app. unfold row_weight at 1. destruct (found c); lia.
  - exists post', st'. split_and!; try done.
    + apply Hf, Hup. by right.
    + intros b Hb. apply Hf, Hup. by left.
Qed.

(** An edge that is not marked. *)
Definition forward_edge (bs : graph) a b : Prop := edge g a b /\ ~ marked bs a b.

Lemma compute_backedge_successors_spec {E} :
  exists bs, compute_backedge_successors g = Ok bs :> result E _ /\ length bs = n /\
    (forall a b, marked bs a b -> edge g a b /\ reachable g b a) /\
    exists rank : nat -> nat, forall a b, (a < n)%nat -> forward_edge bs a b -> (rank b < rank a)%nat.
Proof.
  unfold compute_backedge_successors.
  assert (Hgo : forall l post st, search_inv post st -> search_stack st = [] -> (forall r, r ∈ l -> (r < n)%nat) ->
    exists post' st', foldM (search_root g) st l = Ok st' :> result E _ /\ search_inv post' st' /\ search_stack st' = [] /\
      forall b, b ∈ l \/ found <$> colors st !! b = Some true -> found <$> colors st' !! b = Some true).
  { induction l as [|r l IH]; intros post st Hi Hst Hl; cbn [foldM].
    - exists post, st. split_and!; try done. by intros b [?%not_elem_of_nil|].
    - destruct (search_root_spec (E:=E) post st r Hi Hst) as (post1 & st1 & -> & Hi1 & Hst1 & Hr & Hf); [apply Hl; by left|]. msimpl.
      destruct (IH post1 st1 Hi1 Hst1) as (post2 & st2 & -> & Hi2 & Hst2 & Hf2); [intros; apply Hl; by right|].
      exists post2, st2. split_and!; try done. intros b [[->|Hb]%elem_of_cons|Hb]; apply Hf2; auto. }
  destruct (Hgo (seq 0 n) [] (SrS (replicate n White) (replicate n []) [])) as (post & st & -> & Hi & Hst & Hf).
  - assert (Hm : forall a b, ~ marked (replicate n []) a b).
    { intros a b. unfold marked. destruct (replicate n [] !! a) eqn:Hr; cbn; [|apply not_elem_of_nil].
      apply lookup_replicate in Hr as [-> _]. apply not_elem_of_nil. }
    split; cbn.
    + apply length_replicate.
    + apply length_replicate.
    + intros b. rewrite elem_of_nil. split; [|done]. by intros [? ?]%lookup_replicate.
    + intros b. rewrite elem_of_nil. split; [|done]. by intros [? ?]%lookup_replicate.
    + constructor.
    + constructor.
    + by intros a b ?%Hm.
    + by intros a s ?%not_elem_of_nil.
    + by intros a k row j s ?%not_elem_of_nil.
    + by intros a k row ?%not_elem_of_nil.
  - done.
  - intros r Hr%elem_of_seq. lia.
  - msimpl. exists (backedges st). split; [done|]. destruct Hi as [H1 H2 H3 H4 H5 H6 H7 H8 H9 H10]. rewrite Hst in *. cbn in *.
    split_and!; [done|done|]. rewrite app_nil_r in *.
    exists (fun a => default 0%nat (fst <$> list_find (a =.) post)). intros a b Ha [He Hnot].
    assert (Hpost : a ∈ post).
    { apply H3. specialize (Hf a ltac:(left; apply elem_of_seq; lia)). destruct (colors st !! a) as [[]|] eqn:Hc; try done.
      by apply (H4 a), elem_of_nil in Hc. }
    destruct (H8 a b Hpost He) as [?|Hbef]; [done|]. apply before_lookup in Hbef as (i & j & Hij & Hb & Haj).
    assert (Hfind : forall i x, post !! i = Some x -> list_find (x =.) post = Some (i, x)).
    { intros i' x Hx. apply list_find_Some. split_and!; [done..|]. intros k y Hy Hk <-. assert (k = i') by (eapply NoDup_lookup; done). lia. }
    rewrite (Hfind _ _ Hb), (Hfind _ _ Haj). done.
Qed.

(** C25: [compute_backedge_successors] ends within its fuel without an
    out-of-range access. Every edge it marks closes a cycle (its target
    reaches its source), and the edges it does not mark form no cycle. *)
Theorem compute_backedge_successors_correct :
  exists bs, compute_backedge_successors g = Ok bs :> result unit _ /\ length bs = n /\
    (forall a b, marked bs a b -> edge g a b /\ reachable g b a) /\
    forall a, ~ tc (forward_edge bs) a a.
Proof.
  destruct (compute_backedge_successors_spec (E:=unit)) as (bs & Hbs & Hlen & Hm & rank & Hrank).
  exists bs. split_and!; try done. assert (Hdec : forall a b, tc (forward_edge bs) a b -> (rank b < rank a)%nat).
  { assert (Hlt : forall a b, forward_edge bs a b -> (a < n)%nat) by (intros a b [(row & ? & _) _]; eauto with index).
    induction 1 as [a b Hab|a b c Hab _ IH]; [by apply Hrank; [eapply Hlt|]|]. specialize (Hrank a b (Hlt _ _ Hab) Hab). lia. }
  intros a Ha%Hdec. lia.
Qed.
End facts.

(** Two nested loops. *)
Definition nested_loops : graph := [[1]; [2]; [3; 1]; [2; 4; 1]; []]%nat.

Lemma compute_backedge_successors_correct_witness :
  compute_backedge_successors nested_loops = Ok [[]; []; [1]; [2; 1]; []]%nat :> result unit _ /\
  exists bs, compute_backedge_successors nested_loops = Ok bs :> result unit _ /\ length bs = 5%nat /\
    (forall a b, marked bs a b -> edge nested_loops a b /\ reachable nested_loops b a) /\
    forall a, ~ tc (forward_edge nested_loops bs) a a.
Proof.
  split; [vm_compute; reflexivity|]. apply (compute_backedge_successors_correct nested_loops).
  apply closed_rows. repeat constructor.
Defined.
