(* ===== verification/NextUse.v ===== *)
(** * NextUse: next-use distances at block boundaries

    Models the next-use analysis of
    [crates/celox-backend-common/src/regalloc.rs]: the distance table
    [NextUseDistances], the transfer facts of a block, the values read on phi
    edges, the equations of one block and the backward work-list iteration
    [analyze_next_uses]. Distances are [u32]s that saturate; the capacities
    the source reserves are left out. *)

From S2P Require Import Prelude Order Worklist RegAlloc Graph Dominators Backedge.

Definition u32_max : Z := 2^32 - 1.
(** [as u32] *)
Definition wrap32 (z : Z) : Z := z mod 2^32.
(** [u32::saturating_add] *)
Definition sat_add (a b : Z) : Z := Z.min u32_max (a + b).

Definition LOOP_EXIT_LENGTH : Z := 100000.

Section next_use.
Context {V R : Type} `{Countable V} `{!Ord V}.
Implicit Types (v : V) (es : list (V * Z)).

(** ** Distance tables *)

Record NextUseDistances : Type := NUD { entries : list (V * Z) }.
#[global] Instance NextUseDistances_eq_dec : EqDecision NextUseDistances.
Proof. solve_decision. Defined.

Definition NextUseDistances_default : NextUseDistances := NUD [].

(** One turn of the merge; the head of [merged] is its last entry. *)
Definition merge_entry (merged : list (V * Z)) (e : V * Z) : list (V * Z) :=
  match merged with
  | (previous_value, previous_distance) :: rest =>
      if decide (previous_value = e.1) then (previous_value, Z.min previous_distance e.2) :: rest else e :: merged
  | [] => [e]
  end.

Definition from_min_entries es : NextUseDistances := NUD (rev (foldl merge_entry [] (sort_by_key fst es))).

(** [binary_search_by] of entries sorted by value finds the entry of the
    value. *)
Definition get (m : NextUseDistances) v : option Z := snd <$> head (filter (fun e => e.1 = v) (entries m)).
Definition contains_key (m : NextUseDistances) v : bool := bool_decide (is_Some (get m v)).
Definition nud_len (m : NextUseDistances) : nat := length (entries m).
Definition nud_is_empty (m : NextUseDistances) : bool := bool_decide (entries m = []).
Definition keys (m : NextUseDistances) : list V := (entries m).*1.
(** [Index::index] panics on a missing key. *)
Definition nud_index {E} (m : NextUseDistances) v : result E Z := expect (get m v).

(** ** Facts of the blocks *)

Abbreviation nu := (result (AllocationFactsError V)).

Record BlockTransfer : Type := BT {
  block_len : Z;
  transfer_defs : gset V;
  local_uses : list (V * Z) }.

Definition add_local_use (position : Z) (defs : gset V) (local : list (V * Z)) (used : V) : list (V * Z) :=
  if decide (used ∈ defs) then local else local ++ [(used, position)].

Definition transfer_instruction (st : gset V * list (V * Z)) (ii : nat * InstructionAllocationFacts V R)
    : gset V * list (V * Z) :=
  let defs' : gset V := st.1 ∪ list_to_set (defs ii.2) in
  (defs', foldl (add_local_use (wrap32 (Z.of_nat ii.1)) defs') st.2 (uses ii.2)).

(** [dedup_by_key]: the first entry of each run of a value. *)
Fixpoint dedup_values (previous : option V) es : list (V * Z) :=
  match es with
  | [] => []
  | e :: es => if decide (previous = Some e.1) then dedup_values previous es else e :: dedup_values (Some e.1) es
  end.

Definition transfer_body (block : BlockAllocationFacts V R) : gset V * list (V * Z) :=
  foldl transfer_instruction (list_to_set (phi_destination <$> phis block), []) (enumerate (instructions block)).
Definition block_transfer (block : BlockAllocationFacts V R) : BlockTransfer :=
  BT (wrap32 (Z.of_nat (length (instructions block)))) (transfer_body block).1
     (dedup_values None (sort_by_key id (transfer_body block).2)).
Definition compute_block_transfers (f : FunctionAllocationFacts V R) : list BlockTransfer := block_transfer <$> blocks f.

(** The values the phis of [block] take from [pred]. *)
Definition phi_uses_from (pred : nat) (block : BlockAllocationFacts V R) : list V :=
  phis block ≫= fun phi => phi_value <$> filter (fun source => predecessor source = pred) (sources phi).

Definition phi_edge_row (f : FunctionAllocationFacts V R) (ir : nat * list nat) : nu (list (list V)) :=
  mapMr (fun successor => phi_uses_from ir.1 <$> expect (blocks f !! successor)) ir.2.
Definition compute_phi_edge_uses (f : FunctionAllocationFacts V R) (successors : graph) : nu (list (list (list V))) :=
  mapMr (phi_edge_row f) (enumerate successors).

(** Which edges of a block are marked. *)
Definition backedge_flags (backedge_successors : graph) (ir : nat * list nat) : nu (list bool) :=
  mapMr (fun successor => row ← expect (backedge_successors !! ir.1); Ok (bool_decide (successor ∈ (row : list nat)))) ir.2.

(** ** The equations of one block *)

Section block.
Context (successors : graph) (backedge_edges : list (list bool)) (phi_edge_uses : list (list (list V))).
Context (transfers : list BlockTransfer).

(** The entries one outgoing edge adds. *)
Definition edge_entries (block : nat) (entry_distances : list NextUseDistances) (acc : list (V * Z)) (es : nat * nat)
    : nu (list (V * Z)) :=
  flags ← expect (backedge_edges !! block);
  flag ← expect ((flags : list bool) !! es.1);
  let edge_length := if (flag : bool) then LOOP_EXIT_LENGTH else 0 in
  distances ← expect (entry_distances !! es.2);
  rows ← expect (phi_edge_uses !! block);
  values ← expect ((rows : list (list V)) !! es.1);
  Ok (acc ++ ((fun vd => (vd.1, sat_add vd.2 edge_length)) <$> entries distances)
          ++ ((fun v => (v, edge_length)) <$> (values : list V))).

Definition entry_entries (transfer : BlockTransfer) (new_exit : NextUseDistances) : list (V * Z) :=
  ((fun vd => (vd.1, sat_add (block_len transfer) vd.2)) <$>
     filter (fun vd => vd.1 ∉ transfer_defs transfer) (entries new_exit)) ++ local_uses transfer.

Definition compute_block_distances (block : nat) (entry_distances : list NextUseDistances)
    : nu (NextUseDistances * NextUseDistances) :=
  transfer ← expect (transfers !! block);
  row ← expect (successors !! block);
  new_exit_entries ← foldM (edge_entries block entry_distances) [] (enumerate (row : list nat));
  let new_exit := from_min_entries new_exit_entries in
  Ok (from_min_entries (entry_entries transfer new_exit), new_exit).

(** ** The iteration *)

Record next_use_state : Type := NUS {
  entry_distances : list NextUseDistances;
  exit_distances : list NextUseDistances;
  worklist : list nat;
  in_worklist : list bool }.

(** One turn of [while let Some(block) = worklist.pop_front()], with the rest
    of the work list in the state. *)
Definition visit_distances (predecessors : graph) (block : nat) (st : next_use_state) : nu next_use_state :=
  in_worklist' ← vset block false (in_worklist st);
  ee ← compute_block_distances block (entry_distances st);
  old_entry ← expect (entry_distances st !! block);
  old_exit ← expect (exit_distances st !! block);
  if decide (ee.1 <> old_entry \/ ee.2 <> old_exit) then
    row ← expect (predecessors !! block);
    q ← foldM enqueue (worklist st, in_worklist') (row : list nat);
    Ok (NUS (<[block := ee.1]> (entry_distances st)) (<[block := ee.2]> (exit_distances st)) q.1 q.2)
  else Ok (NUS (entry_distances st) (exit_distances st) (worklist st) in_worklist').

Fixpoint distance_loop (fuel : nat) (predecessors : graph) (st : next_use_state) : nu next_use_state :=
  match worklist st with
  | [] => Ok st
  | block :: rest =>
      match fuel with
      | O => Panic
      | S fuel =>
          st ← visit_distances predecessors block
                 (NUS (entry_distances st) (exit_distances st) rest (in_worklist st));
          distance_loop fuel predecessors st
      end
  end.
End block.

Record NextUseAnalysis : Type := NUA {
  nua_entry : list NextUseDistances;
  nua_exit : list NextUseDistances;
  nua_predecessors : graph;
  nua_backedges : graph }.

(** The turns needed are bounded by the values of the distances, not by the
    size of the function, so the fuel is an argument;
    [analyze_next_uses_exact] shows that some fuel is enough for every
    input. *)
Definition analyze_next_uses (fuel : nat) (f : FunctionAllocationFacts V R) : nu NextUseAnalysis :=
  _ ← verify f;
  let block_count := length (blocks f) in
  let successors := successors <$> blocks f in
  predecessors ← predecessor_rows successors;
  backedge_successors ← compute_backedge_successors successors;
  backedge_edges ← mapMr (backedge_flags backedge_successors) (enumerate successors);
  phi_edge_uses ← compute_phi_edge_uses f successors;
  let transfers := compute_block_transfers f in
  let default_rows := replicate block_count NextUseDistances_default in
  st ← distance_loop successors backedge_edges phi_edge_uses transfers fuel predecessors
         (NUS default_rows default_rows (rev (seq 0 block_count)) (replicate block_count true));
  Ok (NUA (entry_distances st) (exit_distances st) predecessors backedge_successors).
End next_use.
#[global] Arguments NextUseDistances V : clear implicits.
#[global] Arguments NextUseAnalysis V : clear implicits.
#[global] Arguments BlockTransfer V {_ _}.
#[global] Arguments next_use_state V : clear implicits.

(** Block 1 is a loop that uses value 1; value 2 is used behind it. *)
Definition loop_distance_facts : FunctionAllocationFacts Z Z :=
  let ins u d := IAF u d (IC [] [] []) false in
  FAF 0 [BAF [1%nat] [] [ins [] [1; 2]];
         BAF [1%nat; 2%nat] [] [ins [1] []; ins [] []];
         BAF [] [] [ins [2] []]].

(** At the end of the loop body the use behind the loop is at distance 0 and
    the use in the body at distance 100000: the marked edge is the one back
    into the loop, not the one out of it. *)
Example loop_distances :
  (a ← analyze_next_uses 20 loop_distance_facts; mapMr (fun m => Ok (get m 1, get m 2)) (nua_exit a)) =
  Ok [(Some 0, Some 2); (Some 100000, Some 0); (None, None)].
Proof. vm_compute. reflexivity. Qed.
