(* ===== verification/NextUseFacts.v ===== *)
(** * NextUseFacts: the tables of next-use analysis

    What the distance tables hold: [from_min_entries] keeps the least distance
    of every value, in order of value, and the transfer facts of a block are
    its upward-exposed uses and its definitions. Distance tables are ordered by
    how near their uses are; the weight of a table bounds how often it can get
    nearer. *)

From S2P Require Import Prelude Order Specs Worklist RegAlloc Graph Dominators DominatorsFacts Backedge NextUse.

Section tables.
Context {V : Type} `{EqDecision V} `{!Ord V}.
Implicit Types (v : V) (d : Z) (es l : list (V * Z)) (m : NextUseDistances V).

(** The least distance of [v] among [es]. *)
Definition least es v d : Prop := (v, d) ∈ es /\ forall d', (v, d') ∈ es -> d <= d'.

Lemma least_unique es v d d' : least es v d -> least es v d' -> d = d'.
Proof. intros [H1 H2] [H3 H4]. pose proof (H2 _ H3). pose proof (H4 _ H1). lia. Qed.

(** A table: one entry per value, in order. *)
Definition ordered l : Prop := StronglySorted ord_lt l.*1.

Lemma ordered_cons v d l : ordered ((v, d) :: l) <-> ordered l /\ forall u e, (u, e) ∈ l -> v ≺ u.
Proof.
  unfold ordered. csimpl. split.
  - intros [Hs Hall]%StronglySorted_inv. split; [done|]. rewrite Forall_forall in Hall.
    intros u e Hu. apply Hall, list_elem_of_fmap. by exists (u, e).
  - intros [Hs Hall]. constructor; [done|]. rewrite Forall_forall. intros u ([u' e] & -> & Hu)%list_elem_of_fmap. by eapply Hall.
Qed.

Lemma ordered_unique l v d d' : ordered l -> (v, d) ∈ l -> (v, d') ∈ l -> d = d'.
Proof.
  induction l as [|[u e] l IH]; [by intros _ ?%not_elem_of_nil|]. intros [Hs Hall]%ordered_cons.
  intros [Hd|Hd]%elem_of_cons [Hd'|Hd']%elem_of_cons.
  - congruence.
  - injection Hd as -> ->. by destruct (Hall _ _ Hd') as [_ []].
  - injection Hd' as -> ->. by destruct (Hall _ _ Hd) as [_ []].
  - by apply IH.
Qed.

Lemma elem_of_distances m v d : ordered (entries m) -> (v, d) ∈ entries m <-> get m v = Some d.
Proof.
  intros Hs. unfold get. split.
  - intros Hd. assert (Hf : (v, d) ∈ filter (fun e : V * Z => e.1 = v) (entries m)) by (by apply list_elem_of_filter).
    destruct (filter _ _) as [|[u e] r] eqn:Hr; [by apply not_elem_of_nil in Hf|]. cbn. f_equal.
    assert (Hue : (u, e) ∈ filter (fun e : V * Z => e.1 = v) (entries m)) by (rewrite Hr; by left).
    apply list_elem_of_filter in Hue as [Heq Hue]. cbn in Heq. subst u. by eapply ordered_unique.
  - destruct (filter _ _) as [|[u e] r] eqn:Hr; [done|]. cbn. intros [= ->].
    assert (Hue : (u, d) ∈ filter (fun e : V * Z => e.1 = v) (entries m)) by (rewrite Hr; by left).
    apply list_elem_of_filter in Hue as [Heq Hue]. cbn in Heq. by subst u.
Qed.

Lemma ordered_ext l l' : ordered l -> ordered l' -> (forall e, e ∈ l <-> e ∈ l') -> l = l'.
Proof.
  revert l'. induction l as [|[v d] l IH]; intros [|[v' d'] l'] Hl Hl' Hin; [done| | |].
  - by destruct (not_elem_of_nil _ (proj2 (Hin (v', d')) ltac:(by left))).
  - by destruct (not_elem_of_nil _ (proj1 (Hin (v, d)) ltac:(by left))).
  - apply ordered_cons in Hl as [Hl Hall], Hl' as [Hl' Hall'].
    assert ((v, d) = (v', d')) as Heq.
    { pose proof (proj1 (Hin (v, d)) ltac:(by left)) as Hx. pose proof (proj2 (Hin (v', d')) ltac:(by left)) as Hy.
      apply elem_of_cons in Hx as [?|Hx]; [done|]. apply elem_of_cons in Hy as [?|Hy]; [done|].
      destruct (Hall _ _ Hy) as [? _], (Hall' _ _ Hx) as [_ []]. done. }
    rewrite Heq in *. f_equal. apply IH; [done..|]. intros [u e]. specialize (Hin (u, e)). rewrite !elem_of_cons in Hin.
    injection Heq as -> ->. split; intros He.
    + destruct (proj1 Hin ltac:(by right)) as [[= -> ->]|?]; [|done]. by destruct (Hall _ _ He) as [_ []].
    + destruct (proj2 Hin ltac:(by right)) as [[= -> ->]|?]; [|done]. by destruct (Hall' _ _ He) as [_ []].
Qed.

(** [l] keeps one entry of each value of [es], none of them larger. *)
Record merges es l : Prop := {
  mg_ordered : ordered l;
  mg_from v d : (v, d) ∈ l -> (v, d) ∈ es;
  mg_least v d : (v, d) ∈ es -> exists d', (v, d') ∈ l /\ d' <= d }.

Lemma merge_entry_step es acc u c : merges es (rev acc) -> (forall v d, (v, d) ∈ es -> v ⪯ u) ->
  merges (es ++ [(u, c)]) (rev (merge_entry acc (u, c))).
Proof.
  intros [Ho Hf Hl] Hle. unfold ordered in *. destruct acc as [|[w a] rest]; cbn [merge_entry fst snd rev] in *.
  { split; [repeat constructor| |].
    - intros v d Hv. apply elem_of_app. by right.
    - intros v d [(? & ?%not_elem_of_nil & _)%Hl|[= -> ->]%list_elem_of_singleton]%elem_of_app; [done|]. exists c. split; [by left|done]. }
  case_decide as Hw; cbn [rev].
  - subst w. split.
    + unfold ordered. rewrite fmap_app. rewrite fmap_app in Ho. exact Ho.
    + intros v d. rewrite !elem_of_app, !list_elem_of_singleton. intros [Hv|[= -> ->]].
      * left. apply Hf. set_solver.
      * destruct (Z.min_spec a c) as [[_ ->]|[_ ->]]; [left; apply Hf; set_solver|by right].
    + intros v d. rewrite elem_of_app, list_elem_of_singleton. intros [(d' & Hd' & Hle')%Hl|[= -> ->]].
      * apply elem_of_app in Hd' as [Hd'|[= -> ->]%list_elem_of_singleton]; [exists d'; set_solver|].
        exists (Z.min a c). split; [set_solver|lia].
      * exists (Z.min a c). split; [set_solver|lia].
  - assert (Hwu : w ≺ u).
    { split; [apply (Hle w a), Hf; set_solver|]. intros Huw. apply Hw, (anti_symm ord_le); [apply (Hle w a), Hf; set_solver|done]. }
    split.
    + unfold ordered. rewrite fmap_app. apply StronglySorted_app. split_and!; [|done|repeat constructor].
      intros v v' Hv ->%list_elem_of_singleton. rewrite fmap_app in Ho, Hv. apply StronglySorted_app in Ho as (Ho & _ & _).
      apply elem_of_app in Hv as [Hv| ->%list_elem_of_singleton]; [|done].
      specialize (Ho v w Hv ltac:(by left)). eapply ord_le_lt_trans; [by apply ord_lt_le|done].
    + intros v d. rewrite (elem_of_app (_ ++ _)), list_elem_of_singleton. intros [Hv| ->]; apply elem_of_app; [left; by apply Hf|right; by left].
    + intros v d. rewrite elem_of_app, list_elem_of_singleton. intros [(d' & Hd' & Hle')%Hl|[= -> ->]].
      * exists d'. split; [apply elem_of_app; by left|done].
      * exists c. split; [apply elem_of_app; right; by left|done].
Qed.

Lemma merges_fold es : StronglySorted (key_le fst) es -> merges es (rev (foldl merge_entry [] es)).
Proof.
  induction es as [|[u c] es IH] using rev_ind.
  { intros _. split; [constructor|done|]. by intros v d ?%not_elem_of_nil. }
  intros Hs. rewrite foldl_app. cbn [foldl]. apply StronglySorted_app in Hs as (Hcross & Hs & _).
  apply merge_entry_step; [by apply IH|]. intros v d Hv. by apply (Hcross (v, d) (u, c) Hv ltac:(by left)).
Qed.

Lemma from_min_entries_merges es : merges es (entries (from_min_entries es)).
Proof.
  destruct (merges_fold (sort_by_key fst es) (sort_by_key_sorted _ es)) as [Ho Hf Hl]. unfold from_min_entries. split; cbn.
  - done.
  - intros v d ?%Hf. by apply (elem_of_sort_by_key fst).
  - intros v d Hv. by apply Hl, elem_of_sort_by_key.
Qed.

(** Looking up a value gives its least distance. *)
Lemma get_from_min es v d : get (from_min_entries es) v = Some d <-> least es v d.
Proof.
  destruct (from_min_entries_merges es) as [Ho Hf Hl]. rewrite <- elem_of_distances by done. split.
  - intros Hd. split; [by apply Hf|]. intros d' (e & He & Hle)%Hl. by rewrite (ordered_unique _ v d e Ho Hd He).
  - intros [Hd Hall]. destruct (Hl v d Hd) as (e & He & Hle). specialize (Hall e (Hf _ _ He)). by replace d with e by lia.
Qed.

Lemma get_from_min_le es v d : (v, d) ∈ es -> exists d', get (from_min_entries es) v = Some d' /\ d' <= d.
Proof.
  intros Hd. destruct (from_min_entries_merges es) as [Ho Hf Hl]. destruct (Hl v d Hd) as (e & He & Hle). exists e. split; [|done].
  by apply elem_of_distances.
Qed.

(** ** Comparing tables *)

(** [m] has every value of [m'], at most as far away. *)
Definition nearer m m' : Prop := forall v d', get m' v = Some d' -> exists d, get m v = Some d /\ d <= d'.

Lemma nearer_refl m : nearer m m.
Proof. intros v d ?. by exists d. Qed.
Lemma nearer_trans m1 m2 m3 : nearer m1 m2 -> nearer m2 m3 -> nearer m1 m3.
Proof. intros H1 H2 v d (d2 & (d1 & ? & ?)%H1 & ?)%H2. exists d1. split; [done|lia]. Qed.

Lemma nearer_antisymm m m' : ordered (entries m) -> ordered (entries m') -> nearer m m' -> nearer m' m -> m = m'.
Proof.
  intros Ho Ho' H1 H2. destruct m as [l], m' as [l']. f_equal. cbn in *. apply ordered_ext; [done..|]. intros [v d].
  rewrite (elem_of_distances (NUD l)), (elem_of_distances (NUD l')) by done. split; intros Hd.
  - destruct (H2 _ _ Hd) as (d' & Hd' & ?), (H1 _ _ Hd') as (e & He & ?). rewrite Hd' . f_equal. rewrite Hd in He. injection He as <-. lia.
  - destruct (H1 _ _ Hd) as (d' & Hd' & ?), (H2 _ _ Hd') as (e & He & ?). rewrite Hd' . f_equal. rewrite Hd in He. injection He as <-. lia.
Qed.

Lemma from_min_nearer es es' : (forall v d', (v, d') ∈ es' -> exists d, (v, d) ∈ es /\ d <= d') ->
  nearer (from_min_entries es) (from_min_entries es').
Proof.
  intros Hes v d' [Hd' _]%get_from_min. destruct (Hes v d' Hd') as (d & Hd & ?).
  destruct (get_from_min_le es v d Hd) as (e & ? & ?). exists e. split; [done|lia].
Qed.

(** How far a table is from the nearest one; a missing value counts as one
    more than the largest distance. *)
Definition far m v : Z := default (u32_max + 1) (get m v).
Definition weight_of (U : list V) m : Z := zsum (far m) U.
Definition in_u32 m : Prop := forall v d, get m v = Some d -> 0 <= d <= u32_max.

Lemma far_nearer m m' v : in_u32 m -> nearer m m' -> far m v <= far m' v.
Proof.
  intros Hm Hn. unfold far. destruct (get m' v) as [d'|] eqn:Hd'; cbn.
  - destruct (Hn v d' Hd') as (d & -> & ?). done.
  - destruct (get m v) as [d|] eqn:Hd; cbn; [|done]. specialize (Hm v d Hd). lia.
Qed.

Lemma distances_le U m m' : in_u32 m -> nearer m m' -> weight_of U m <= weight_of U m'.
Proof.
  intros Hm Hn. unfold weight_of. induction U as [|v U IH]; cbn; [done|]. pose proof (far_nearer m m' v Hm Hn). lia.
Qed.

Lemma weight_lt U m m' : in_u32 m -> in_u32 m' -> ordered (entries m) -> ordered (entries m') -> nearer m m' -> m <> m' ->
  (forall v, is_Some (get m v) -> v ∈ U) -> weight_of U m < weight_of U m'.
Proof.
  intros Hm Hm' Ho Ho' Hn Hne HU.
  assert (Hex : Exists (fun v => far m v < far m' v) U).
  { destruct (decide (Exists (fun v => far m v < far m' v) U)) as [?|Hno]; [done|]. destruct Hne.
    apply nearer_antisymm; [done..|]. intros v d Hd. assert (Hv : v ∈ U) by (apply HU; by eexists).
    assert (Hf : ~ far m v < far m' v) by (intros ?; apply Hno, Exists_exists; eauto).
    unfold far in Hf. rewrite Hd in Hf. cbn in Hf. specialize (Hm v d Hd). destruct (get m' v) as [d'|] eqn:Hd'; cbn in Hf; [|lia].
    exists d'. split; [done|lia]. }
  clear HU. unfold weight_of. induction Hex as [v U Hv|v U Hv IH]; cbn.
  - pose proof (distances_le U m m' Hm Hn). unfold weight_of in *. lia.
  - pose proof (far_nearer m m' v Hm Hn). lia.
Qed.

Lemma distances_nonneg U m : in_u32 m -> 0 <= weight_of U m.
Proof.
  intros Hm. apply zsum_nonneg. intros v. unfold far. destruct (get m v) as [d|] eqn:Hd; cbn; [by apply (Hm v d)|done].
Qed.
End tables.

(** ** Transfer facts of a block *)

Section transfer.
Context {V R : Type} `{Countable V} `{!Ord V}.
Implicit Types (v : V) (d : Z) (j k : nat) (l : list (InstructionAllocationFacts V R)) (es : list (V * Z)).

(** Instruction [j] uses [v], and neither it nor an earlier one, nor [D]
    defines [v]. *)
Definition upward_use (D : gset V) l v j : Prop :=
  exists ins, l !! j = Some ins /\ v ∈ uses ins /\ (v ∉ D) /\ forall k ins', (k <= j)%nat -> l !! k = Some ins' -> v ∉ defs ins'.

Lemma elem_of_add_local position (D : gset V) us local v d :
  (v, d) ∈ foldl (add_local_use position D) local us <-> (v, d) ∈ local \/ (v ∈ us /\ (v ∉ D) /\ d = position).
Proof.
  revert local. induction us as [|u us IH]; intros local; cbn [foldl]; [set_solver|].
  rewrite IH. unfold add_local_use. case_decide as Hu; [set_solver|]. rewrite elem_of_app, list_elem_of_singleton, elem_of_cons. split.
  - intros [[?|[= -> ->]]|?]; [by left| |]; right; tauto.
  - intros [?|([->|?] & ? & ->)]; [tauto|left; by right|tauto].
Qed.

Lemma transfer_fold (D : gset V) l : Z.of_nat (length l) <= u32_max ->
  let st := foldl transfer_instruction (D, []) (enumerate l) in
  (forall v, v ∈ st.1 <-> v ∈ D \/ exists ins, ins ∈ l /\ v ∈ defs ins) /\
  forall v d, (v, d) ∈ st.2 <-> exists j, d = Z.of_nat j /\ upward_use D l v j.
Proof.
  cbn zeta. induction l as [|ins l IH] using rev_ind; intros Hlen.
  { cbn. split; [set_solver|]. intros v d. split; [by intros ?%not_elem_of_nil|]. by intros (j & _ & ins & ? & _). }
  rewrite enumerate_snoc, foldl_app. cbn [foldl]. rewrite length_app in Hlen. cbn in Hlen.
  destruct IH as [IH1 IH2]; [lia|]. set (st := foldl _ _ _) in *. unfold transfer_instruction. cbn [fst snd].
  assert (Hd : forall v, v ∈ (st.1 ∪ list_to_set (defs ins) : gset V) <-> v ∈ D \/ exists ins', ins' ∈ l ++ [ins] /\ v ∈ defs ins').
  { intros v. rewrite elem_of_union, elem_of_list_to_set, IH1. setoid_rewrite elem_of_app. setoid_rewrite list_elem_of_singleton. naive_solver. }
  split; [done|]. intros v d. rewrite elem_of_add_local, IH2, Hd. unfold wrap32. rewrite Z.mod_small by (unfold u32_max in *; lia). split.
  - intros [(j & -> & ins' & Hj & Hv & HD & Hall)|(Hv & Hnot & ->)].
    + apply lookup_lt_Some in Hj as Hlt. exists j. split; [done|]. exists ins'. rewrite lookup_app_l by done. split_and!; try done.
      intros k ins2 Hk. rewrite lookup_app_l by lia. by apply Hall.
    + exists (length l). split; [done|]. exists ins. rewrite list_lookup_middle by done. split_and!; [done|done|tauto|].
      intros k ins2 _ Hins2%list_elem_of_lookup_2 Hin. apply Hnot. right. eauto.
  - intros (j & -> & ins' & Hj & Hv & HD & Hall). apply lookup_app_Some in Hj as [Hj|[Hlt Hj]].
    + left. exists j. split; [done|]. exists ins'. split_and!; try done. intros k ins2 Hk Hins2. apply (Hall k); [done|].
      by apply lookup_app_l_Some.
    + right. apply list_lookup_singleton_Some in Hj as [Hj ->]. assert (j = length l) as -> by lia. split_and!; [done| |done].
      intros [?|(ins2 & [k Hk]%list_elem_of_lookup & Hin)]; [done|]. apply (Hall k ins2); [|done|done].
      apply lookup_lt_Some in Hk. rewrite length_app in Hk. cbn in Hk. lia.
Qed.

Lemma dedup_from previous es e : e ∈ dedup_values previous es -> e ∈ es.
Proof.
  revert previous. induction es as [|x es IH]; intros previous; cbn [dedup_values]; [done|].
  case_decide; [intros ?; right; by eapply IH|]. intros [->|He]%elem_of_cons; [by left|right; by eapply IH].
Qed.

Lemma dedup_keeps previous es v d : StronglySorted ord_le es -> (v, d) ∈ es ->
  previous = Some v \/ exists d', (v, d') ∈ dedup_values previous es /\ d' <= d.
Proof.
  intros Hs. revert previous. induction Hs as [|[u c] es Hs IH Hall]; intros previous; [by intros ?%not_elem_of_nil|].
  cbn [dedup_values fst]. rewrite Forall_forall in Hall. intros [[= <- <-]|Hv]%elem_of_cons.
  - case_decide as Hp; [by left|right]. exists d. split; [by left|done].
  - case_decide as Hp; [by apply IH|]. destruct (IH (Some u) Hv) as [[= ->]|(d' & Hd' & ?)].
    + right. exists c. split; [by left|]. destruct (Hall _ Hv) as [_ Hle]. by apply Hle.
    + right. exists d'. split; [by right|done].
Qed.

Definition block_phis (block : BlockAllocationFacts V R) : gset V := list_to_set (phi_destination <$> phis block).

Lemma block_transfer_spec (block : BlockAllocationFacts V R) : Z.of_nat (length (instructions block)) <= u32_max ->
  block_len (block_transfer block) = Z.of_nat (length (instructions block)) /\
  (forall v, v ∈ transfer_defs (block_transfer block) <->
     v ∈ block_phis block \/ exists ins, ins ∈ instructions block /\ v ∈ defs ins) /\
  (forall v d, (v, d) ∈ local_uses (block_transfer block) -> exists j, d = Z.of_nat j /\ upward_use (block_phis block) (instructions block) v j) /\
  forall v j, upward_use (block_phis block) (instructions block) v j ->
    exists d, (v, d) ∈ local_uses (block_transfer block) /\ d <= Z.of_nat j.
Proof.
  intros Hlen. destruct (transfer_fold (block_phis block) (instructions block) Hlen) as [Hd Hl].
  fold (transfer_body block) in Hd, Hl. unfold block_transfer. cbn [block_len transfer_defs local_uses]. split_and!.
  - unfold wrap32. rewrite Z.mod_small; [done|]. unfold u32_max in *. lia.
  - exact Hd.
  - intros v d Hv%dedup_from. apply Hl. by apply (elem_of_sort_by_key id).
  - intros v j Hj. destruct (dedup_keeps None (sort_by_key id (transfer_body block).2) v (Z.of_nat j)) as [?|?]; [|by apply elem_of_sort_by_key, Hl; eauto|done|done].
    apply (sort_by_key_sorted id).
Qed.
End transfer.
