(* ===== verification/NextUseFlow.v ===== *)
(** * NextUseFlow: next-use distances as paths

    The distance from a program point to a use, as an inductive relation over
    the instructions and edges of the function. The equations of a block
    compute one step of it, and a solution of the equations bounds it from
    both sides. *)

From S2P Require Import Prelude Order Specs Worklist RegAlloc Graph Dominators DominatorsFacts Backedge NextUse NextUseFacts.

Section distances.
Context {V R : Type} `{Countable V} `{!Ord V}.
Context (f : FunctionAllocationFacts V R) (bs : graph).
Abbreviation n := (length (blocks f)).
Abbreviation rows := (successors <$> blocks f).
Implicit Types (b s p i j k : nat) (v : V) (d D : Z).

Definition row b : list nat := default [] (successors <$> (blocks f !! b)).
Definition instrs b : list (InstructionAllocationFacts V R) := default [] (instructions <$> (blocks f !! b)).
Definition phi_dests b : list V := default [] ((fun blk => phi_destination <$> phis blk) <$> (blocks f !! b)).
Definition edge_length b s : Z := if decide (marked bs b s) then LOOP_EXIT_LENGTH else 0.
Definition edge_values b s : list V := default [] (phi_uses_from b <$> (blocks f !! s)).

(** A use of [v] lies [d] ahead of position [i] of block [b], on a path along
    which nothing defines [v]: one for each instruction passed and the length
    of each edge. The position after the last instruction is the exit. *)
Inductive use_at v : nat -> nat -> Z -> Prop :=
  | use_here b i ins : instrs b !! i = Some ins -> v ∈ uses ins -> v ∉ defs ins -> use_at v b i 0
  | use_later b i ins d : instrs b !! i = Some ins -> v ∉ defs ins -> use_at v b (S i) d -> use_at v b i (1 + d)
  | use_phi b s : s ∈ row b -> v ∈ edge_values b s -> use_at v b (length (instrs b)) (edge_length b s)
  | use_next b s d : s ∈ row b -> v ∉ phi_dests s -> use_at v s 0 d -> use_at v b (length (instrs b)) (edge_length b s + d).

Definition entry_use v b d : Prop := (v ∉ phi_dests b) /\ use_at v b 0 d.
Definition exit_use v b d : Prop := use_at v b (length (instrs b)) d.

Lemma edge_length_nonneg b s : 0 <= edge_length b s.
Proof. unfold edge_length. by case_decide. Qed.

Lemma use_at_nonneg v b i d : use_at v b i d -> 0 <= d.
Proof. induction 1 as [|?????? IH|b s|b s ???? IH]; try pose proof (edge_length_nonneg b s); lia. Qed.

Lemma exit_use_inv v b d : exit_use v b d <->
  exists s, s ∈ row b /\ ((v ∈ edge_values b s /\ d = edge_length b s) \/ exists d', entry_use v s d' /\ d = edge_length b s + d').
Proof.
  unfold exit_use, entry_use. split.
  - intros Hu. remember (length (instrs b)) as i eqn:Hi. destruct Hu as [b i ins Hins _ _|b i ins d Hins _ _|b s Hs Hv|b s d Hs Hv Hu].
    + apply lookup_lt_Some in Hins. lia.
    + apply lookup_lt_Some in Hins. lia.
    + exists s. tauto.
    + exists s. split; [done|]. right. by exists d.
  - intros (s & Hs & [[Hv ->]|(d' & [Hv Hd'] & ->)]); [by apply use_phi|by apply use_next].
Qed.

(** Nothing defines [v] from position [i] up to [j]. *)
Definition undefined_to v b i j : Prop := forall k ins, (i <= k < j)%nat -> instrs b !! k = Some ins -> v ∉ defs ins.
Definition used_at v b j : Prop := exists ins, instrs b !! j = Some ins /\ v ∈ uses ins.

Lemma use_at_split v b i d : (i <= length (instrs b))%nat -> use_at v b i d <->
  (exists j, (i <= j)%nat /\ used_at v b j /\ undefined_to v b i (S j) /\ d = Z.of_nat (j - i)) \/
  (undefined_to v b i (length (instrs b)) /\ exists d', exit_use v b d' /\ d = Z.of_nat (length (instrs b) - i) + d').
Proof.
  intros Hi. split.
  - intros Hu. induction Hu as [b i ins Hins Hv Hd|b i ins d Hins Hd Hu IH|b s Hs Hv|b s d Hs Hv Hu _].
    + left. exists i. split; [lia|]. split; [by exists ins|]. split; [|lia]. intros k ins' Hk Hins'. assert (k = i) as -> by lia. by simplify_eq.
    + apply lookup_lt_Some in Hins as Hlt. assert (Hund : forall j, undefined_to v b (S i) j -> undefined_to v b i j).
      { intros j Hj k ins' Hk Hins'. destruct (decide (k = i)) as [->|]; [by simplify_eq|]. apply (Hj k); [lia|done]. }
      destruct IH as [(j & Hj & Hused & Hd' & ->)|(Hd' & d' & He & ->)]; [lia| |].
      * left. exists j. split_and!; [lia|done|by apply Hund|lia].
      * right. split; [by apply Hund|]. exists d'. split; [done|lia].
    + right. split; [intros k ins Hk; lia|]. exists (edge_length b s). split; [by apply use_phi|lia].
    + right. split; [intros k ins Hk; lia|]. exists (edge_length b s + d). split; [by apply use_next|lia].
  - assert (Hgo : forall m j d, (i + m = j)%nat -> (j <= length (instrs b))%nat -> undefined_to v b i j -> use_at v b j d -> use_at v b i (Z.of_nat m + d)).
    { clear d Hi. intros m. revert i. induction m as [|m IH]; intros i j d Hj Hlen Hund Hu.
      - assert (i = j) as -> by lia. done.
      - in_range (instrs b) i as ins Hins. replace (Z.of_nat (S m) + d) with (1 + (Z.of_nat m + d)) by lia.
        apply (use_later v b i ins); [done|apply (Hund i); [lia|done]|]. apply (IH (S i) j); [lia|done| |done].
        intros k ins' Hk. apply Hund. lia. }
    intros [(j & Hj & (ins & Hins & Hv) & Hund & ->)|(Hund & d' & He & ->)].
    + apply lookup_lt_Some in Hins as Hlt. rewrite <- (Z.add_0_r (Z.of_nat _)). apply (Hgo (j - i)%nat j); [lia|lia| |].
      * intros k ins' Hk. apply Hund. lia.
      * apply (use_here v b j ins); [done..|]. apply (Hund j); [lia|done].
    + by apply (Hgo (length (instrs b) - i)%nat (length (instrs b))); [lia|lia|..].
Qed.

(** ** The equations *)

Context (Hclosed : closed rows).
Context (Hlens : forall b, Z.of_nat (length (instrs b)) <= u32_max).
Implicit Types (E : nat -> NextUseDistances V) (m : NextUseDistances V) (st : next_use_state V).

Definition sat d : Z := Z.min u32_max d.

(** The entries of an exit, and the tables of both boundaries, from the entry
    tables of the successors. *)
Definition edge_part b E s : list (V * Z) :=
  ((fun vd : V * Z => (vd.1, sat_add vd.2 (edge_length b s))) <$> entries (E s)) ++ ((fun v => (v, edge_length b s)) <$> edge_values b s).
Definition exit_rhs b E : NextUseDistances V := from_min_entries (row b ≫= edge_part b E).
Definition transfer_of b : BlockTransfer V := block_transfer (default (BAF [] [] []) (blocks f !! b)).
Definition entry_of b m : NextUseDistances V := from_min_entries (entry_entries (transfer_of b) m).

Lemma block_at b blk : blocks f !! b = Some blk ->
  instrs b = instructions blk /\ row b = successors blk /\ (forall v, v ∈ phi_dests b <-> v ∈ block_phis blk) /\ transfer_of b = block_transfer blk.
Proof.
  intros Hb. unfold instrs, row, phi_dests, transfer_of, block_phis. rewrite Hb. cbn. split_and!; [done|done| |done].
  intros v. by rewrite elem_of_list_to_set.
Qed.

Lemma flow_row_lt b s : s ∈ row b -> (s < n)%nat.
Proof.
  unfold row. destruct (blocks f !! b) as [blk|] eqn:Hb; cbn; [|by intros ?%not_elem_of_nil]. intros Hs.
  rewrite <- (length_fmap successors). apply (Hclosed b). exists (successors blk). by rewrite list_lookup_fmap, Hb.
Qed.

(** *** Meaning *)

(** [m] holds saturated distances of [P]. *)
Definition attained (P : V -> Z -> Prop) m : Prop := forall v d, get m v = Some d -> exists D, P v D /\ d = sat D.
Lemma elem_of_exit_entries b E v d : (forall s, ordered (entries (E s))) -> (v, d) ∈ row b ≫= edge_part b E <->
  exists s, s ∈ row b /\ ((v ∈ edge_values b s /\ d = edge_length b s) \/ exists d', get (E s) v = Some d' /\ d = sat_add d' (edge_length b s)).
Proof.
  intros Ho. rewrite list_elem_of_bind. unfold edge_part. setoid_rewrite elem_of_app. setoid_rewrite list_elem_of_fmap. split.
  - intros (s & [([u c] & [= -> ->] & Hu)|(u & [= -> ->] & Hu)] & Hs); exists s; (split; [done|]).
    + right. exists c. by rewrite <- elem_of_distances.
    + by left.
  - intros (s & Hs & [[Hv ->]|(d' & Hd' & ->)]); exists s; (split; [|done]).
    + right. by exists v.
    + left. exists (v, d'). by rewrite elem_of_distances.
Qed.

Lemma exit_attained b E : (forall s, ordered (entries (E s))) ->
  (forall s, (s < n)%nat -> attained (fun v => entry_use v s) (E s)) -> attained (fun v => exit_use v b) (exit_rhs b E).
Proof.
  intros Ho HE v d [Hd _]%get_from_min. apply elem_of_exit_entries in Hd as (s & Hs & Hd); [|done]. setoid_rewrite exit_use_inv.
  destruct Hd as [[Hv ->]|(d' & Hd' & ->)].
  - exists (edge_length b s). split; [exists s; tauto|]. unfold sat, edge_length. by case_decide.
  - destruct (HE s (flow_row_lt _ _ Hs) v d' Hd') as (D & HD & ->). exists (edge_length b s + D). split; [exists s; split; [done|]; right; by exists D|].
    unfold sat_add, sat. pose proof (edge_length_nonneg b s). lia.
Qed.

Lemma entry_use_inv b blk v D : blocks f !! b = Some blk -> entry_use v b D <->
  (exists j, upward_use (block_phis blk) (instructions blk) v j /\ D = Z.of_nat j) \/
  ((v ∉ transfer_defs (transfer_of b)) /\ exists D', exit_use v b D' /\ D = Z.of_nat (length (instrs b)) + D').
Proof.
  intros Hb. destruct (block_at b blk Hb) as (Hi & _ & Hphi & ->). pose proof (Hlens b) as Hlen. rewrite Hi in Hlen.
  destruct (block_transfer_spec blk Hlen) as (_ & Hd & _ & _). unfold entry_use. rewrite use_at_split, Hphi, Hd by lia.
  unfold undefined_to, used_at, upward_use. rewrite Hi. split.
  - intros [Hv [(j & _ & (ins & Hins & Hu) & Hund & ->)|(Hund & D' & He & ->)]].
    + left. exists j. split; [|lia]. exists ins. split_and!; [done..|]. intros k ins' Hk. apply Hund. lia.
    + right. split; [|exists D'; split; [done|lia]]. intros [?|(ins & [k Hk]%list_elem_of_lookup & Hin)]; [done|].
      apply (Hund k ins); [|done|done]. apply lookup_lt_Some in Hk. lia.
  - intros [(j & (ins & Hins & Hu & Hv & Hall) & ->)|(Hnot & D' & He & ->)].
    + split; [done|]. left. exists j. split_and!; [lia|by exists ins| |lia]. intros k ins' Hk. apply Hall. lia.
    + split; [tauto|]. right. split; [|exists D'; split; [done|lia]]. intros k ins' _ Hk%list_elem_of_lookup_2 Hin. apply Hnot. right. by exists ins'.
Qed.

Lemma elem_of_entry_entries b m v d : ordered (entries m) -> (v, d) ∈ entry_entries (transfer_of b) m <->
  (v, d) ∈ local_uses (transfer_of b) \/
  ((v ∉ transfer_defs (transfer_of b)) /\ exists d', get m v = Some d' /\ d = sat_add (block_len (transfer_of b)) d').
Proof.
  intros Ho. unfold entry_entries. rewrite elem_of_app, list_elem_of_fmap. setoid_rewrite list_elem_of_filter. split.
  - intros [([u c] & [= -> ->] & Hu & Hin)|?]; [|by left]. right. split; [done|]. exists c. by rewrite <- elem_of_distances.
  - intros [?|(Hv & d' & Hd' & ->)]; [by right|left]. exists (v, d'). rewrite elem_of_distances by done. done.
Qed.

Lemma entry_attained b blk m : blocks f !! b = Some blk -> ordered (entries m) ->
  attained (fun v => exit_use v b) m -> attained (fun v => entry_use v b) (entry_of b m).
Proof.
  intros Hb Ho Hm v d [Hd _]%get_from_min. apply elem_of_entry_entries in Hd; [|done].
  destruct (block_at b blk Hb) as (Hi & _ & _ & HT). pose proof (Hlens b) as Hlen. rewrite Hi in Hlen.
  destruct (block_transfer_spec blk Hlen) as (Hbl & _ & Hlu & _). setoid_rewrite (entry_use_inv b blk); [|done].
  destruct Hd as [Hd|(Hv & d' & Hd' & ->)].
  - rewrite HT in Hd. destruct (Hlu v d Hd) as (j & -> & Hj). exists (Z.of_nat j). split; [left; by exists j|].
    destruct Hj as (ins & Hins%lookup_lt_Some & _). unfold sat. lia.
  - destruct (Hm v d' Hd') as (D & HD & ->). exists (Z.of_nat (length (instrs b)) + D). split; [right; split; [done|]; by exists D|].
    rewrite HT, Hbl, Hi. unfold sat_add, sat. lia.
Qed.

(** *** Monotonicity *)

Lemma exit_nearer b E E' : (forall s, ordered (entries (E s))) -> (forall s, ordered (entries (E' s))) ->
  (forall s, nearer (E s) (E' s)) -> nearer (exit_rhs b E) (exit_rhs b E').
Proof.
  intros Ho Ho' Hn. apply from_min_nearer. intros v d. rewrite elem_of_exit_entries by done. intros (s & Hs & [[Hv ->]|(d' & Hd' & ->)]).
  - exists (edge_length b s). split; [|done]. apply elem_of_exit_entries; [done|]. exists s. tauto.
  - destruct (Hn s v d' Hd') as (e & He & ?). exists (sat_add e (edge_length b s)). split; [|unfold sat_add; lia].
    apply elem_of_exit_entries; [done|]. exists s. split; [done|]. right. by exists e.
Qed.

Lemma entry_nearer b m m' : ordered (entries m) -> ordered (entries m') -> nearer m m' -> nearer (entry_of b m) (entry_of b m').
Proof.
  intros Ho Ho' Hn. apply from_min_nearer. intros v d. rewrite elem_of_entry_entries by done. intros [?|(Hv & d' & Hd' & ->)].
  - exists d. split; [|done]. apply elem_of_entry_entries; [done|]. by left.
  - destruct (Hn v d' Hd') as (e & He & ?). exists (sat_add (block_len (transfer_of b)) e). split; [|unfold sat_add; lia].
    apply elem_of_entry_entries; [done|]. right. split; [done|]. by exists e.
Qed.

(** *** The computed tables *)

Definition flags_ok (flags : list (list bool)) : Prop := forall b, (b < n)%nat -> flags !! b = Some ((fun s => bool_decide (marked bs b s)) <$> row b).
Definition values_ok (values : list (list (list V))) : Prop := forall b, (b < n)%nat -> values !! b = Some (edge_values b <$> row b).

Definition table_at (l : list (NextUseDistances V)) b : NextUseDistances V := default NextUseDistances_default (l !! b).

Lemma compute_block_distances_spec flags values l b : flags_ok flags -> values_ok values -> length l = n -> (b < n)%nat ->
  compute_block_distances rows flags values (compute_block_transfers f) b l =
    Ok (entry_of b (exit_rhs b (table_at l)), exit_rhs b (table_at l)).
Proof.
  intros Hf Hv Hl Hb. unfold compute_block_distances, compute_block_transfers. in_range (blocks f) b as blk Hblk.
  destruct (block_at b blk Hblk) as (_ & Hr & _ & HT). rewrite !list_lookup_fmap, Hblk. cbn [fmap option_fmap option_map]. msimpl.
  assert (Hgo : forall pre post acc, row b = pre ++ post ->
    foldM (edge_entries flags values b l) acc (zip (seq (length pre) (length post)) post) = Ok (acc ++ (post ≫= edge_part b (table_at l)))).
  { intros pre post. revert pre. induction post as [|s post IH]; intros pre acc Hrow; cbn [foldM length seq zip zip_with].
    { cbn. by rewrite app_nil_r. }
    assert (Hs : row b !! length pre = Some s) by (rewrite Hrow; by apply list_lookup_middle).
    assert (Hstep : edge_entries flags values b l acc (length pre, s) = Ok (acc ++ edge_part b (table_at l) s)).
    { unfold edge_entries. cbn [fst snd]. rewrite (Hf b Hb), (Hv b Hb). msimpl. rewrite !list_lookup_fmap, Hs. cbn.
      in_range l s as t Ht; [rewrite Hl; apply (flow_row_lt b); by eapply list_elem_of_lookup_2|]. rewrite Ht. cbn.
      unfold edge_part, edge_length, table_at. rewrite Ht. cbn. by destruct (bool_decide_reflect (marked bs b s)); case_decide. }
    rewrite Hstep. msimpl. specialize (IH (pre ++ [s]) (acc ++ edge_part b (table_at l) s)). rewrite length_app, Nat.add_1_r in IH.
    rewrite IH by (by rewrite <- app_assoc). f_equal. cbn. by rewrite <- app_assoc. }
  rewrite <- Hr. specialize (Hgo [] (row b) [] eq_refl). cbn in Hgo. rewrite Hgo. msimpl. unfold entry_of, exit_rhs. by rewrite HT.
Qed.

(** *** Solutions are bounds *)

Section solution.
Context E (X : nat -> NextUseDistances V) (HoE : forall b, ordered (entries (E b))) (HoX : forall b, ordered (entries (X b))).
Context (HX : forall b, (b < n)%nat -> X b = exit_rhs b E) (HE : forall b, (b < n)%nat -> E b = entry_of b (X b)).

Lemma entry_through v b d : (b < n)%nat -> v ∉ phi_dests b -> undefined_to v b 0 (length (instrs b)) -> get (X b) v = Some d ->
  exists e, get (E b) v = Some e /\ e <= Z.of_nat (length (instrs b)) + d.
Proof.
  intros Hb Hphi Hund Hd. in_range (blocks f) b as blk Hblk. destruct (block_at b blk Hblk) as (Hi & _ & Hp & HT).
  pose proof (Hlens b) as Hlen. rewrite Hi in Hlen. destruct (block_transfer_spec blk Hlen) as (Hbl & Hdefs & _ & _).
  rewrite HE by done. destruct (get_from_min_le (entry_entries (transfer_of b) (X b)) v (sat_add (block_len (transfer_of b)) d)) as (e & ? & ?).
  - apply elem_of_entry_entries; [done|]. right. split; [|by exists d]. rewrite HT, Hdefs.
    intros [?%Hp|(ins & [k Hk]%list_elem_of_lookup & Hin)]; [done|]. apply (Hund k ins); [|by rewrite Hi|done].
    apply lookup_lt_Some in Hk. rewrite Hi. lia.
  - exists e. split; [done|]. rewrite HT, Hbl in *. rewrite Hi. unfold sat_add in *. lia.
Qed.

Lemma entry_local v b i ins : (b < n)%nat -> v ∉ phi_dests b -> undefined_to v b 0 i -> instrs b !! i = Some ins ->
  v ∈ uses ins -> v ∉ defs ins -> exists e, get (E b) v = Some e /\ e <= Z.of_nat i.
Proof.
  intros Hb Hphi Hund Hins Hu Hd. in_range (blocks f) b as blk Hblk. destruct (block_at b blk Hblk) as (Hi & _ & Hp & HT).
  pose proof (Hlens b) as Hlen. rewrite Hi in *. destruct (block_transfer_spec blk Hlen) as (_ & _ & _ & Hlu).
  destruct (Hlu v i) as (d & Hd' & Hle).
  { exists ins. split_and!; [done|done|by rewrite <- Hp|]. intros k ins' Hk Hins'. destruct (decide (k = i)) as [->|]; [by simplify_eq|].
    apply (Hund k ins'); [lia|by rewrite Hi]. }
  rewrite HE by done. destruct (get_from_min_le (entry_entries (transfer_of b) (X b)) v d) as (e & ? & ?).
  - apply elem_of_entry_entries; [done|]. left. by rewrite HT.
  - exists e. split; [done|lia].
Qed.

Lemma solution_bounds v b i d : use_at v b i d -> (b < n)%nat ->
  (v ∉ phi_dests b -> undefined_to v b 0 i -> exists e, get (E b) v = Some e /\ e <= Z.of_nat i + d) /\
  (i = length (instrs b) -> exists e, get (X b) v = Some e /\ e <= d).
Proof.
  assert (Hexit : forall b s c, (b < n)%nat -> s ∈ row b ->
    (v ∈ edge_values b s /\ c = edge_length b s) \/ (exists d', get (E s) v = Some d' /\ c = sat_add d' (edge_length b s)) ->
    exists e, get (X b) v = Some e /\ e <= c).
  { intros b' s c Hb' Hs Hc. rewrite HX by done. apply get_from_min_le. apply elem_of_exit_entries; [done|]. by exists s. }
  assert (Hsplit : forall b d, (b < n)%nat -> (exists e, get (X b) v = Some e /\ e <= d) ->
    (v ∉ phi_dests b -> undefined_to v b 0 (length (instrs b)) -> exists e, get (E b) v = Some e /\ e <= Z.of_nat (length (instrs b)) + d) /\
    (length (instrs b) = length (instrs b) -> exists e, get (X b) v = Some e /\ e <= d)).
  { intros b' d' Hb' (e & He & Hle). split; [|by exists e]. intros Hp Hund.
    destruct (entry_through v b' e Hb' Hp Hund He) as (e' & ? & ?). exists e'. split; [done|lia]. }
  intros Hu. induction Hu as [b i ins Hins Hv Hd|b i ins d Hins Hd Hu IH|b s Hs Hv|b s d Hs Hv Hu IH]; intros Hb.
  - split; [|intros ->; by apply lookup_lt_Some in Hins; lia]. intros Hp Hund. rewrite Z.add_0_r. by eapply entry_local.
  - split; [|intros ->; by apply lookup_lt_Some in Hins; lia]. intros Hp Hund. destruct (proj1 (IH Hb) Hp) as (e & ? & ?).
    + intros k ins' Hk Hins'. destruct (decide (k = i)) as [->|]; [by simplify_eq|]. apply (Hund k ins'); [lia|done].
    + exists e. split; [done|lia].
  - apply Hsplit; [done|]. by apply (Hexit b s); [| |left].
  - apply Hsplit; [done|]. destruct (proj1 (IH (flow_row_lt b s Hs)) Hv) as (e & He & Hle); [intros k ins Hk; lia|].
    destruct (Hexit b s _ Hb Hs (or_intror (ex_intro _ e (conj He eq_refl)))) as (e' & ? & ?). exists e'. split; [done|].
    unfold sat_add in *. lia.
Qed.
End solution.
End distances.
