(* ===== verification/NextUseExact.v ===== *)
(** * NextUseExact: the work-list iteration of next-use analysis

    The invariant and the measure of the iteration, its end, and the
    exactness of [analyze_next_uses]. *)

From S2P Require Import Prelude Order Specs Worklist RegAlloc Graph Dominators DominatorsFacts Backedge NextUse NextUseFacts NextUseFlow.

Section iteration.
Context {V R : Type} `{Countable V} `{!Ord V}.
Context (f : FunctionAllocationFacts V R) (bs preds : graph) (flags : list (list bool)) (values : list (list (list V))).
Abbreviation n := (length (blocks f)).
Abbreviation rows := (successors <$> blocks f).
Context (Hclosed : closed rows) (Hlens : forall b, Z.of_nat (length (instrs f b)) <= u32_max).
Context (Hrev : reverses rows preds) (Hflags : flags_ok f bs flags) (Hvalues : values_ok f values).
Implicit Types (b c s : nat) (v : V) (d D : Z) (m : NextUseDistances V) (st : next_use_state V).

Abbreviation entry_at st := (table_at (entry_distances st)).
Abbreviation exit_at st := (table_at (exit_distances st)).

Record flow_inv st : Prop := {
  fi_entry_length : length (entry_distances st) = n;
  fi_exit_length : length (exit_distances st) = n;
  fi_queue : queue_ok n (worklist st) (in_worklist st);
  fi_ordered b : ordered (entries (entry_at st b)) /\ ordered (entries (exit_at st b));
  fi_equation b : (b < n)%nat -> b ∉ worklist st ->
    exit_at st b = exit_rhs f bs b (entry_at st) /\ entry_at st b = entry_of f b (exit_at st b);
  fi_exit b : (b < n)%nat -> nearer (exit_rhs f bs b (entry_at st)) (exit_at st b);
  fi_entry b : (b < n)%nat -> nearer (entry_of f b (exit_at st b)) (entry_at st b);
  fi_entry_sound b : attained (fun v => entry_use f bs v b) (entry_at st b);
  fi_exit_sound b : attained (fun v => exit_use f bs v b) (exit_at st b) }.

Lemma ordered_entries st : flow_inv st -> forall b, ordered (entries (entry_at st b)).
Proof. intros Hi b. apply (fi_ordered _ Hi). Qed.
Lemma ordered_rhs b (E : nat -> NextUseDistances V) : ordered (entries (exit_rhs f bs b E)).
Proof. apply from_min_entries_merges. Qed.
Lemma ordered_entry b m : ordered (entries (entry_of f b m)).
Proof. apply from_min_entries_merges. Qed.

Lemma table_insert (l : list (NextUseDistances V)) b m c : (b < length l)%nat -> table_at (<[b := m]> l) c = if decide (c = b) then m else table_at l c.
Proof.
  intros Hb. unfold table_at. case_decide as Hc; [subst c; by rewrite list_lookup_insert_eq|]. by rewrite list_lookup_insert_ne.
Qed.

Lemma exit_rhs_ext b (E E' : nat -> NextUseDistances V) : (forall s, s ∈ row f b -> E s = E' s) -> exit_rhs f bs b E = exit_rhs f bs b E'.
Proof.
  intros Heq. unfold exit_rhs. f_equal. induction (row f b) as [|s l IH]; cbn; [done|]. rewrite IH by (intros; apply Heq; by right).
  unfold edge_part. by rewrite (Heq s ltac:(by left)).
Qed.

(** ** A visit that changes the tables of [b] *)

Section change.
Context st b (Hi : flow_inv st) (Hb : (b < n)%nat) (q : list nat) (qd : list bool).
Abbreviation new_exit := (exit_rhs f bs b (entry_at st)).
Abbreviation new_entry := (entry_of f b new_exit).
Abbreviation st' := (NUS (<[b := new_entry]> (entry_distances st)) (<[b := new_exit]> (exit_distances st)) q qd).

Lemma entry_changed c : entry_at st' c = if decide (c = b) then new_entry else entry_at st c.
Proof. cbn. apply table_insert. by rewrite (fi_entry_length _ Hi). Qed.
Lemma exit_changed c : exit_at st' c = if decide (c = b) then new_exit else exit_at st c.
Proof. cbn. apply table_insert. by rewrite (fi_exit_length _ Hi). Qed.

Lemma exit_shrinks c : nearer (exit_at st' c) (exit_at st c).
Proof. rewrite exit_changed. case_decide as Hc; [subst c; by apply fi_exit|apply nearer_refl]. Qed.

Lemma entry_shrinks c : nearer (entry_at st' c) (entry_at st c).
Proof.
  rewrite entry_changed. case_decide as Hc; [subst c|apply nearer_refl]. eapply nearer_trans; [|by apply fi_entry].
  apply entry_nearer; [apply ordered_rhs|apply (fi_ordered _ Hi)|by apply fi_exit].
Qed.

Lemma new_ordered c : ordered (entries (entry_at st' c)) /\ ordered (entries (exit_at st' c)).
Proof.
  rewrite entry_changed, exit_changed. case_decide; [|apply (fi_ordered _ Hi)]. split; [apply ordered_entry|apply ordered_rhs].
Qed.

Lemma rhs_shrinks c : nearer (exit_rhs f bs c (entry_at st')) (exit_rhs f bs c (entry_at st)).
Proof. apply exit_nearer; [apply new_ordered|by apply ordered_entries|apply entry_shrinks]. Qed.

Lemma distance_rhs_same c : b ∉ row f c -> exit_rhs f bs c (entry_at st') = exit_rhs f bs c (entry_at st).
Proof.
  intros Hc. apply exit_rhs_ext. intros s Hs. rewrite entry_changed. by rewrite decide_False by congruence.
Qed.

Lemma changed_inv rest : worklist st = b :: rest -> queue_ok n q qd -> (forall c, c ∈ q <-> c ∈ rest \/ b ∈ row f c) -> flow_inv st'.
Proof.
  intros Hq Hqok Hin. assert (Hsound : attained (fun v => exit_use f bs v b) new_exit).
  { apply exit_attained; [done|by apply ordered_entries|]. intros s _. apply (fi_entry_sound _ Hi). }
  split.
  - cbn. by rewrite length_insert, (fi_entry_length _ Hi).
  - cbn. by rewrite length_insert, (fi_exit_length _ Hi).
  - done.
  - apply new_ordered.
  - intros c Hc Hcq. cbn in Hcq. rewrite Hin in Hcq. rewrite distance_rhs_same, entry_changed, exit_changed by tauto.
    case_decide as Hcb; [by subst c|]. apply (fi_equation _ Hi); [done|]. rewrite Hq. set_solver.
  - intros c Hc. rewrite exit_changed. case_decide as Hcb; [subst c; apply rhs_shrinks|].
    eapply nearer_trans; [apply rhs_shrinks|by apply fi_exit].
  - intros c Hc. rewrite exit_changed, entry_changed. case_decide as Hcb; [subst c; apply nearer_refl|by apply fi_entry].
  - intros c. rewrite entry_changed. case_decide as Hcb; [subst c|apply (fi_entry_sound _ Hi)]. in_range (blocks f) b as blk Hblk.
    eapply entry_attained; [done|exact Hblk|apply ordered_rhs|done].
  - intros c. rewrite exit_changed. case_decide as Hcb; [by subst c|apply (fi_exit_sound _ Hi)].
Qed.
End change.

(** ** The measure *)

(** Every value that is read. *)
Definition all_values : list V :=
  blocks f ≫= fun blk => (instructions blk ≫= uses) ++ (phis blk ≫= fun phi => phi_value <$> sources phi).

Lemma use_in_values v b i d : use_at f bs v b i d -> v ∈ all_values.
Proof.
  unfold all_values. setoid_rewrite list_elem_of_bind. setoid_rewrite elem_of_app. setoid_rewrite list_elem_of_bind.
  induction 1 as [b i ins Hins Hv _| |b s _ Hv|]; [|done| |done].
  - unfold instrs in Hins. destruct (blocks f !! b) as [blk|] eqn:Hblk; cbn in Hins; [|done]. exists blk.
    split; [left; exists ins; split; [done|by eapply list_elem_of_lookup_2]|by eapply list_elem_of_lookup_2].
  - unfold edge_values in Hv. destruct (blocks f !! s) as [blk|] eqn:Hblk; cbn in Hv; [|by apply not_elem_of_nil in Hv].
    exists blk. split; [right|by eapply list_elem_of_lookup_2]. unfold phi_uses_from in Hv.
    apply list_elem_of_bind in Hv as (phi & Hv & Hphi). exists phi. split; [|done].
    apply list_elem_of_fmap in Hv as (src & -> & [_ Hsrc]%list_elem_of_filter). apply list_elem_of_fmap. by exists src.
Qed.

Lemma tables_in_u32 st b : flow_inv st -> in_u32 (entry_at st b) /\ in_u32 (exit_at st b).
Proof.
  intros Hi. split; intros v d Hd.
  - destruct (fi_entry_sound _ Hi b v d Hd) as (D & [_ HD%use_at_nonneg] & ->). unfold sat, u32_max. lia.
  - destruct (fi_exit_sound _ Hi b v d Hd) as (D & HD%use_at_nonneg & ->). unfold sat, u32_max. lia.
Qed.

Lemma tables_in_values st b v : flow_inv st -> is_Some (get (entry_at st b) v) \/ is_Some (get (exit_at st b) v) -> v ∈ all_values.
Proof.
  intros Hi [[d Hd]|[d Hd]].
  - destruct (fi_entry_sound _ Hi b v d Hd) as (D & [_ HD] & _). by eapply use_in_values.
  - destruct (fi_exit_sound _ Hi b v d Hd) as (D & HD & _). by eapply use_in_values.
Qed.

Definition block_weight st b : Z := weight_of all_values (entry_at st b) + weight_of all_values (exit_at st b).
Definition distance_measure st : Z := zsum (block_weight st) (seq 0 n) * (Z.of_nat n + 1) + Z.of_nat (length (worklist st)).

Lemma distance_measure_nonneg st : flow_inv st -> 0 <= distance_measure st.
Proof.
  intros Hi. unfold distance_measure. pose proof (zsum_nonneg (block_weight st) (seq 0 n)) as Hz.
  assert (forall b, 0 <= block_weight st b) as Hw; [|specialize (Hz Hw); lia].
  intros b. destruct (tables_in_u32 st b Hi) as [H1 H2]. unfold block_weight.
  pose proof (distances_nonneg all_values _ H1). pose proof (distances_nonneg all_values _ H2). lia.
Qed.

Lemma zsum_lt {A} (g h : A -> Z) (l : list A) a : a ∈ l -> (forall x, x ∈ l -> g x <= h x) -> g a < h a -> zsum g l < zsum h l.
Proof.
  intros Ha Hle Hlt. assert (Hmono : forall k, (forall x, x ∈ k -> g x <= h x) -> zsum g k <= zsum h k).
  { induction k as [|x k IH]; intros Hk; cbn; [done|]. pose proof (Hk x ltac:(by left)). pose proof (IH ltac:(intros; apply Hk; by right)). lia. }
  induction l as [|x l IH]; [by apply not_elem_of_nil in Ha|]. cbn. apply elem_of_cons in Ha as [->|Ha].
  - pose proof (Hmono l ltac:(intros; apply Hle; by right)). lia.
  - pose proof (Hle x ltac:(by left)). pose proof (IH Ha ltac:(intros; apply Hle; by right)). lia.
Qed.

Lemma distances_decrease st b q qd (Hi : flow_inv st) (Hb : (b < n)%nat) :
  let x := exit_rhs f bs b (entry_at st) in let e := entry_of f b x in
  let st' := NUS (<[b := e]> (entry_distances st)) (<[b := x]> (exit_distances st)) q qd in
  flow_inv st' -> e <> entry_at st b \/ x <> exit_at st b -> distance_measure st' < distance_measure st.
Proof.
  cbn zeta. set (st' := NUS _ _ _ _). intros Hi' Hne. unfold distance_measure.
  assert (Hw : zsum (block_weight st') (seq 0 n) < zsum (block_weight st) (seq 0 n)).
  { apply (zsum_lt _ _ _ b); [apply elem_of_seq; lia| |].
    - intros c _. unfold block_weight. destruct (tables_in_u32 st' c Hi') as [H1 H2].
      pose proof (distances_le all_values _ _ H1 (entry_shrinks st b Hi Hb q qd c)).
      pose proof (distances_le all_values _ _ H2 (exit_shrinks st b Hi Hb q qd c)). lia.
    - unfold block_weight. destruct (tables_in_u32 st' b Hi') as [H1 H2], (tables_in_u32 st b Hi) as [H3 H4].
      destruct (fi_ordered _ Hi' b) as [O1 O2], (fi_ordered _ Hi b) as [O3 O4].
      pose proof (entry_shrinks st b Hi Hb q qd b) as He. pose proof (exit_shrinks st b Hi Hb q qd b) as Hx. fold st' in He, Hx.
      pose proof (distances_le all_values _ _ H1 He). pose proof (distances_le all_values _ _ H2 Hx).
      assert (entry_at st' b = entry_of f b (exit_rhs f bs b (entry_at st))) as Hee by (unfold st'; rewrite entry_changed by done; by rewrite decide_True).
      assert (exit_at st' b = exit_rhs f bs b (entry_at st)) as Hxx by (unfold st'; rewrite exit_changed by done; by rewrite decide_True).
      destruct Hne as [Hne|Hne].
      + assert (weight_of all_values (entry_at st' b) < weight_of all_values (entry_at st b)); [|lia].
        apply weight_lt; try done; [by rewrite Hee|]. intros v Hv. apply (tables_in_values st' b v Hi'). by left.
      + assert (weight_of all_values (exit_at st' b) < weight_of all_values (exit_at st b)); [|lia].
        apply weight_lt; try done; [by rewrite Hxx|]. intros v Hv. apply (tables_in_values st' b v Hi'). by right. }
  pose proof (queue_length _ _ _ (fi_queue _ Hi')) as Hq. nia.
Qed.

(** A visit that changes nothing. *)
Lemma unchanged_inv st b rest qd : flow_inv st -> worklist st = b :: rest -> queue_ok n rest qd ->
  entry_of f b (exit_rhs f bs b (entry_at st)) = entry_at st b -> exit_rhs f bs b (entry_at st) = exit_at st b ->
  flow_inv (NUS (entry_distances st) (exit_distances st) rest qd).
Proof.
  intros [H1 H2 H3 H4 H5 H6 H7 H8 H9] Hq Hqok He Hx. split; try done. intros c Hc Hcq. cbn in *.
  destruct (decide (c = b)) as [->|Hne]; [|apply H5; [done|rewrite Hq; set_solver]]. split; [done|]. by rewrite <- Hx.
Qed.

Lemma visit_distances_spec st b rest : flow_inv st -> worklist st = b :: rest ->
  exists st', visit_distances rows flags values (compute_block_transfers f) preds b
      (NUS (entry_distances st) (exit_distances st) rest (in_worklist st)) = Ok st' /\
    flow_inv st' /\ distance_measure st' < distance_measure st.
Proof.
  intros Hi Hqueue. pose proof (fi_queue _ Hi) as Hq. rewrite Hqueue in Hq. destruct (pop_queue _ _ _ _ Hq) as [Hq' Hb].
  pose proof (fi_entry_length _ Hi) as Hel. pose proof (fi_exit_length _ Hi) as Hxl.
  unfold visit_distances, vset. cbn [in_worklist entry_distances exit_distances worklist].
  rewrite decide_True by (rewrite (qo_length _ _ _ Hq); lia). msimpl.
  rewrite (compute_block_distances_spec f bs Hclosed) by done. msimpl. cbn [fst snd].
  in_range (entry_distances st) b as oe Hoe. in_range (exit_distances st) b as ox Hox. rewrite Hoe, Hox. msimpl.
  assert (entry_at st b = oe) as Hee by (unfold table_at; by rewrite Hoe). assert (exit_at st b = ox) as Hxx by (unfold table_at; by rewrite Hox).
  rewrite <- Hee, <- Hxx. case_decide as Hch.
  - in_range preds b as prow Hprow; [rewrite (proj1 Hrev), length_fmap; lia|]. rewrite Hprow. msimpl.
    assert (Hpe : forall c, c ∈ prow <-> b ∈ row f c).
    { intros c. transitivity (edge preds b c); [split; [by exists prow|]; intros (r & ? & ?); by simplify_eq|]. rewrite (proj2 Hrev).
      unfold edge, row. rewrite list_lookup_fmap. destruct (blocks f !! c) as [blk|]; cbn; [|set_solver].
      split; [by intros (? & [= <-] & ?)|by eauto]. }
    destruct (enqueue_fold n (E:=AllocationFactsError V) prow rest (<[b := false]> (in_worklist st)) Hq') as (q' & qd' & -> & Hq2 & Hin).
    { intros c Hc%Hpe. unfold row in Hc. destruct (blocks f !! c) eqn:Hbc; cbn in Hc; [eauto with index|by apply not_elem_of_nil in Hc]. }
    msimpl. eexists. split; [done|]. cbn [fst snd].
    assert (Hi2 : flow_inv (NUS (<[b := entry_of f b (exit_rhs f bs b (entry_at st))]> (entry_distances st))
      (<[b := exit_rhs f bs b (entry_at st)]> (exit_distances st)) q' qd')).
    { eapply changed_inv; [done..|]. intros c. by rewrite Hin, Hpe. }
    split; [done|]. by apply distances_decrease.
  - assert (entry_of f b (exit_rhs f bs b (entry_at st)) = entry_at st b) as Hch1 by (apply dec_stable; tauto).
    assert (exit_rhs f bs b (entry_at st) = exit_at st b) as Hch2 by (apply dec_stable; tauto). eexists. split; [done|].
    split; [by eapply unchanged_inv|]. unfold distance_measure. cbn [worklist]. rewrite Hqueue. cbn [length].
    change (block_weight (NUS (entry_distances st) (exit_distances st) rest (<[b:=false]> (in_worklist st)))) with (block_weight st). lia.
Qed.

Abbreviation loop := (distance_loop rows flags values (compute_block_transfers f)).

Lemma distance_loop_mono fuel fuel' st st' : loop fuel preds st = Ok st' -> (fuel <= fuel')%nat -> loop fuel' preds st = Ok st'.
Proof.
  revert fuel' st. induction fuel as [|fuel IH]; intros fuel' st; destruct fuel' as [|fuel']; cbn [distance_loop]; intros Hl Hle; try done; [|lia|].
  - by destruct (worklist st).
  - destruct (worklist st) as [|b rest]; [done|]. destruct (visit_distances _ _ _ _ _ _ _) as [st1| |]; msimpl_in Hl; msimpl; [|done..].
    apply IH; [done|lia].
Qed.

(** The iteration ends. *)
Lemma distance_loop_ends st : flow_inv st -> exists fuel st', loop fuel preds st = Ok st' /\ flow_inv st' /\ worklist st' = [].
Proof.
  remember (distance_measure st) as m eqn:Hm. assert (Hm0 : 0 <= m -> True) by done. clear Hm0.
  revert st Hm. induction (Z.lt_wf 0 m) as [m _ IH]. intros st -> Hi.
  destruct (worklist st) as [|b rest] eqn:Hq; [exists 0%nat, st; cbn; by rewrite Hq|].
  destruct (visit_distances_spec st b rest Hi Hq) as (st1 & Hv & Hi1 & Hlt).
  pose proof (distance_measure_nonneg st1 Hi1) as Hpos.
  destruct (IH (distance_measure st1) ltac:(lia) st1 eq_refl Hi1) as (fuel & st' & Hl & ?).
  exists (S fuel), st'. cbn [distance_loop]. rewrite Hq, Hv. done.
Qed.

Lemma initial_distances : flow_inv (NUS (replicate n NextUseDistances_default) (replicate n NextUseDistances_default) (rev (seq 0 n)) (replicate n true)).
Proof.
  assert (Hat : forall b, table_at (replicate n NextUseDistances_default) b = NextUseDistances_default :> NextUseDistances V).
  { intros b. unfold table_at. destruct (replicate n _ !! b) eqn:Hb; [|done]. by apply lookup_replicate in Hb as [-> _]. }
  split; cbn [entry_distances exit_distances worklist in_worklist]; try apply length_replicate.
  - apply initial_queue.
  - intros b. rewrite Hat. split; constructor.
  - intros b Hb []. rewrite <- Permutation_rev, elem_of_seq. lia.
  - intros b Hb. rewrite !Hat. intros v d [=].
  - intros b Hb. rewrite !Hat. intros v d [=].
  - intros b. rewrite Hat. intros v d [=].
  - intros b. rewrite Hat. intros v d [=].
Qed.

(** A table holds exactly the values with a use ahead, with the distance of
    one of them, saturated, that is at most that of any. *)
Definition nearest (P : V -> Z -> Prop) m : Prop :=
  attained P m /\ forall v D, P v D -> exists d, get m v = Some d /\ d <= D.

Lemma distances_exact st b : flow_inv st -> worklist st = [] -> (b < n)%nat ->
  nearest (fun v => entry_use f bs v b) (entry_at st b) /\ nearest (fun v => exit_use f bs v b) (exit_at st b).
Proof.
  intros Hi Hq Hb. assert (Heq : forall c, (c < n)%nat ->
    exit_at st c = exit_rhs f bs c (entry_at st) /\ entry_at st c = entry_of f c (exit_at st c)).
  { intros c Hc. apply (fi_equation _ Hi); [done|]. rewrite Hq. apply not_elem_of_nil. }
  pose proof (solution_bounds f bs Hclosed Hlens (entry_at st) (exit_at st) (fun c => proj1 (fi_ordered _ Hi c))
    (fun c => proj2 (fi_ordered _ Hi c)) (fun c Hc => proj1 (Heq c Hc)) (fun c Hc => proj2 (Heq c Hc))) as Hbound.
  split; (split; [apply Hi|]).
  - intros v D [Hp Hu]. apply (proj1 (Hbound v b 0%nat D Hu Hb) Hp). intros k ins Hk. lia.
  - intros v D Hu. by apply (proj2 (Hbound v b _ D Hu Hb)).
Qed.
End iteration.

(** ** The analysis *)

Section analysis.
Context {V R : Type} `{Countable V} `{!Ord V}.
Implicit Types (f : FunctionAllocationFacts V R).

Lemma next_use_closed f : well_shaped f -> closed (successors <$> blocks f).
Proof.
  intros Hf a b (r & Hr & Hb). rewrite length_fmap. rewrite list_lookup_fmap in Hr.
  destruct (blocks f !! a) as [blk|] eqn:Hblk; [|done]. injection Hr as <-. by eapply (ws_successors f Hf).
Qed.

Lemma backedge_edges_spec f bs : length bs = length (blocks f) ->
  exists flags, mapMr (backedge_flags bs) (enumerate (successors <$> blocks f)) = Ok flags :> result (AllocationFactsError V) _ /\ flags_ok f bs flags.
Proof.
  intros Hbs. destruct (mapMr_enumerate (E:=AllocationFactsError V) (backedge_flags bs)
    (fun b r => (fun s => bool_decide (marked bs b s)) <$> r) (successors <$> blocks f)) as (flags & -> & _ & Hl).
  - intros b r Hr. apply lookup_lt_Some in Hr as Hlt. rewrite length_fmap in Hlt. unfold backedge_flags. cbn [fst snd].
    apply mapMr_ok. intros s _. in_range bs b as m Hm. rewrite Hm. msimpl. f_equal. apply bool_decide_ext. unfold marked. by rewrite Hm.
  - exists flags. split; [done|]. intros b Hb. in_range (blocks f) b as blk Hblk. unfold row. rewrite Hblk. cbn.
    apply Hl. by rewrite list_lookup_fmap, Hblk.
Qed.

Lemma phi_edge_uses_spec f : closed (successors <$> blocks f) ->
  exists values, compute_phi_edge_uses f (successors <$> blocks f) = Ok values /\ values_ok f values.
Proof.
  intros Hc. unfold compute_phi_edge_uses.
  destruct (mapMr_enumerate (phi_edge_row f) (fun b r => edge_values f b <$> r) (successors <$> blocks f)) as (values & -> & _ & Hl).
  - intros b r Hr. unfold phi_edge_row. cbn [fst snd]. apply mapMr_ok. intros s Hs.
    in_range (blocks f) s as blk Hblk; [rewrite <- (length_fmap successors); apply (Hc b); by exists r|].
    unfold edge_values. by rewrite Hblk.
  - exists values. split; [done|]. intros b Hb. in_range (blocks f) b as blk Hblk. unfold row. rewrite Hblk. cbn.
    apply Hl. by rewrite list_lookup_fmap, Hblk.
Qed.

End analysis.

