(* ===== verification/SlotUnion.v ===== *)
(** * SlotUnion: which ranges a stack slot holds

    Models [crates/celox-backend-x86/src/backend/native/regalloc/interval_union.rs]:
    the index of blocks, validated ranges, the union of ranges of one stack
    slot as linked lists in an arena of nodes, and the matrix of all slots.
    A [u32] link is an integer and [u32::MAX] ends a list. An [Arc] is its
    value with the identity of its allocation. Messages of errors are left
    out. *)

From S2P Require Import Prelude Order.

(** ** Segments and errors *)

(** Blocks and slots are [u32]s and [u64]s, compared as numbers. *)
Record LiveSegment : Type := Segment { seg_block : Z; seg_start : Z; seg_end : Z }.
#[global] Instance LiveSegment_eq_dec : EqDecision LiveSegment.
Proof. solve_decision. Defined.

Definition seg_overlaps (s t : LiveSegment) : bool :=
  bool_decide (seg_block s = seg_block t) && bool_decide (seg_start s < seg_end t) && bool_decide (seg_start t < seg_end s).

Inductive UnionRule : Type :=
  | CFG_SHAPE | SEGMENT_RANGE | SEGMENT_BLOCK | SEGMENT_ORDER | SELF_INTERFERENCE | EMPTY_ASSIGNMENT
  | INTERFERENCE | DYNAMIC_NODE_RANGE | DYNAMIC_NODE_CYCLE | RANGE_CFG | DUPLICATE_ASSIGNMENT
  | DYNAMIC_SLOT_RANGE | BLOCK_SLOT_COUNT | EMPTY_DYNAMIC_SLOT | ASSIGNMENT_MAP.
#[global] Instance UnionRule_eq_dec : EqDecision UnionRule.
Proof. solve_decision. Defined.

Record IntervalUnionError : Type := UnionError { rule : UnionRule; err_block : option Z; bundles : list Z }.

(** ** The index of blocks *)

Record Arc (A : Type) : Type := ArcOf { arc_id : nat; arc_value : A }.
Arguments ArcOf {A} arc_id arc_value.
Arguments arc_id {A} _.
Arguments arc_value {A} _.

Record IntervalIndex : Type := Index { block_index : gmap Z nat; block_ids : list Z }.
#[global] Instance IntervalIndex_eq_dec : EqDecision IntervalIndex.
Proof. solve_decision. Defined.

(** The fields of [NormalizedCfg] this part reads. *)
Record NormalizedCfg : Type := Normalized { cfg_block_index : gmap Z nat; cfg_successors : list (list nat) }.

(** [slot.replace(block)] on the row of [index]. *)
Definition name_block (block_ids : list (option Z)) (bi : Z * nat) : result IntervalUnionError (list (option Z)) :=
  match block_ids !! bi.2 with
  | None => Err (UnionError CFG_SHAPE (Some bi.1) [])
  | Some (Some _) => Err (UnionError CFG_SHAPE (Some bi.1) [])
  | Some None => Ok (<[bi.2 := Some bi.1]> block_ids)
  end.

(** The order of the entries of a hash map is not specified; when several
    entries are wrong, it decides which one is reported. *)
Definition IntervalIndex_new (cfg : NormalizedCfg) : result IntervalUnionError IntervalIndex :=
  let block_count := length (cfg_successors cfg) in
  if decide (size (cfg_block_index cfg) <> block_count) then Err (UnionError CFG_SHAPE None []) else
  block_ids ← foldM name_block (replicate block_count None) (map_to_list (cfg_block_index cfg));
  block_ids ← ok_or (UnionError CFG_SHAPE None []) (mapM id block_ids);
  Ok (Index (cfg_block_index cfg) block_ids).

(** ** Ranges *)

Record SparseRange : Type := Range { range_index : Arc IntervalIndex; range_segments : list LiveSegment; range_blocks : list nat }.

(** A borrowed [SparseRange]. *)
Definition ValidatedSegments : Type := SparseRange.

(** [debug_assert_eq!] on the lengths. *)
Definition validated {E} (r : SparseRange) : result E ValidatedSegments :=
  if decide (length (range_segments r) = length (range_blocks r)) then Ok r else Panic.

Definition range_iter {E} (r : ValidatedSegments) : result E (list (LiveSegment * nat)) :=
  if decide (length (range_segments r) = length (range_blocks r)) then Ok (zip (range_segments r) (range_blocks r)) else Panic.

(** [(segment.block, segment.start) <= (prior.block, prior.start)] *)
Definition not_after (segment prior : LiveSegment) : bool :=
  bool_decide ((seg_block segment, seg_start segment) ⪯ (seg_block prior, seg_start prior)).

Definition check_segment (index : IntervalIndex) (bp : list nat * option LiveSegment) (segment : LiveSegment)
    : result IntervalUnionError (list nat * option LiveSegment) :=
  let fail rule := Err (UnionError rule (Some (seg_block segment)) []) in
  if decide (seg_end segment <= seg_start segment) then fail SEGMENT_RANGE else
  match block_index index !! seg_block segment with
  | None => fail SEGMENT_BLOCK
  | Some block =>
      if decide (block_ids index !! block <> Some (seg_block segment)) then fail CFG_SHAPE else
      match bp.2 with
      | Some prior =>
          if not_after segment prior then fail SEGMENT_ORDER else
          if seg_overlaps prior segment then fail SELF_INTERFERENCE else
          Ok (bp.1 ++ [block], Some segment)
      | None => Ok (bp.1 ++ [block], Some segment)
      end
  end.

Definition index_make_range (index : Arc IntervalIndex) (segments : list LiveSegment) : result IntervalUnionError SparseRange :=
  bp ← foldM (check_segment (arc_value index)) ([], None) segments;
  Ok (Range index segments bp.1).

(** ** The union of one slot *)

Record DynamicUnionNode : Type := UnionNode { node_start : Z; node_end : Z; node_next : Z }.

Record DynamicSlotUnion : Type := SlotUnionOf { heads : list Z; nodes : list DynamicUnionNode }.

Definition NONE : Z := 2^32 - 1.
(** [as u32] *)
Definition as_u32 (n : nat) : Z := Z.of_nat n mod 2^32.

Definition DynamicSlotUnion_new (block_count : nat) : DynamicSlotUnion := SlotUnionOf (replicate block_count NONE) [].

(** [self.nodes[current as usize]] *)
Definition node_at {E} (ns : list DynamicUnionNode) (current : Z) : result E DynamicUnionNode := expect (ns !! Z.to_nat current).

Fixpoint interferes_from {E} (fuel : nat) (ns : list DynamicUnionNode) (segment : LiveSegment) (current : Z) : result E bool :=
  if decide (current = NONE) then Ok false else
  match fuel with
  | O => Panic
  | S fuel =>
      node ← node_at ns current;
      if decide (node_end node <= seg_start segment) then interferes_from fuel ns segment (node_next node)
      else Ok (negb (bool_decide (seg_end segment <= node_start node)))
  end.

Definition interferes_segment {E} (u : DynamicSlotUnion) (segment : LiveSegment) (block : nat) : result E bool :=
  head ← expect (heads u !! block);
  interferes_from (length (nodes u)) (nodes u) segment head.

Fixpoint any_interferes {E} (u : DynamicSlotUnion) (l : list (LiveSegment * nat)) : result E bool :=
  match l with
  | [] => Ok false
  | sb :: l => i ← interferes_segment u sb.1 sb.2; if (i : bool) then Ok true else any_interferes u l
  end.

Definition interferes_indexed {E} (u : DynamicSlotUnion) (segments : ValidatedSegments) : result E bool :=
  l ← range_iter segments; any_interferes u l.

(** The segment at [hint] first, then the others. *)
Definition interferes_indexed_with_hint {E} (u : DynamicSlotUnion) (segments : ValidatedSegments) (hint : nat) : result E bool :=
  segment ← expect (range_segments segments !! hint);
  block ← expect (range_blocks segments !! hint);
  i ← interferes_segment u segment block;
  if (i : bool) then Ok true else
  l ← range_iter segments;
  any_interferes u (filter (fun isb : nat * (LiveSegment * nat) => isb.1 <> hint) (enumerate l)).*2.

Fixpoint locate {E} (fuel : nat) (ns : list DynamicUnionNode) (segment : LiveSegment) (previous current : Z) : result E (Z * Z) :=
  if decide (current = NONE) then Ok (previous, current) else
  match fuel with
  | O => Panic
  | S fuel =>
      node ← node_at ns current;
      if decide (node_end node <= seg_start segment) then locate fuel ns segment current (node_next node) else Ok (previous, current)
  end.

(** [previous != NONE && nodes[previous].end == segment.start] *)
Definition touches_left {E} (ns : list DynamicUnionNode) (segment : LiveSegment) (previous : Z) : result E bool :=
  if decide (previous = NONE) then Ok false else n ← node_at ns previous; Ok (bool_decide (node_end n = seg_start segment)).

Definition touches_right {E} (ns : list DynamicUnionNode) (segment : LiveSegment) (current : Z) : result E bool :=
  if decide (current = NONE) then Ok false else n ← node_at ns current; Ok (bool_decide (node_start n = seg_end segment)).

(** The segment between the nodes [previous] and [current]. *)
Definition splice {E} (u : DynamicSlotUnion) (segment : LiveSegment) (block : nat) (previous current : Z) : result E DynamicSlotUnion :=
  merge_left ← touches_left (nodes u) segment previous;
  merge_right ← touches_right (nodes u) segment current;
  match (merge_left : bool), (merge_right : bool) with
  | true, true =>
      right ← node_at (nodes u) current;
      left ← node_at (nodes u) previous;
      ns ← vset (Z.to_nat previous) (UnionNode (node_start left) (node_end right) (node_next right)) (nodes u);
      Ok (SlotUnionOf (heads u) ns)
  | true, false =>
      left ← node_at (nodes u) previous;
      ns ← vset (Z.to_nat previous) (UnionNode (node_start left) (seg_end segment) (node_next left)) (nodes u);
      Ok (SlotUnionOf (heads u) ns)
  | false, true =>
      right ← node_at (nodes u) current;
      ns ← vset (Z.to_nat current) (UnionNode (seg_start segment) (node_end right) (node_next right)) (nodes u);
      Ok (SlotUnionOf (heads u) ns)
  | false, false =>
      let node := as_u32 (length (nodes u)) in
      let ns := nodes u ++ [UnionNode (seg_start segment) (seg_end segment) current] in
      if decide (previous = NONE) then
        hs ← vset block node (heads u);
        Ok (SlotUnionOf hs ns)
      else
        left ← node_at ns previous;
        ns ← vset (Z.to_nat previous) (UnionNode (node_start left) (node_end left) node) ns;
        Ok (SlotUnionOf (heads u) ns)
  end.

Definition insert_segment {E} (u : DynamicSlotUnion) (sb : LiveSegment * nat) : result E DynamicSlotUnion :=
  head ← expect (heads u !! sb.2);
  '(previous, current) ← locate (length (nodes u)) (nodes u) sb.1 NONE head;
  splice u sb.1 sb.2 previous current.

Definition insert_indexed (u : DynamicSlotUnion) (bundle : Z) (segments : ValidatedSegments) : result IntervalUnionError DynamicSlotUnion :=
  let first_block := seg_block <$> head (range_segments segments) in
  if decide (range_segments segments = []) then Err (UnionError EMPTY_ASSIGNMENT None [bundle]) else
  i ← interferes_indexed u segments;
  if (i : bool) then Err (UnionError INTERFERENCE first_block [bundle]) else
  if decide (NONE < Z.of_nat (length (nodes u)) + Z.of_nat (length (range_segments segments))) then Err (UnionError DYNAMIC_NODE_RANGE first_block [bundle]) else
  l ← range_iter segments;
  foldM insert_segment u l.

(** The check of one list; [previous_end] is the end of the node before. *)
Fixpoint verify_chain (fuel : nat) (index : IntervalIndex) (ns : list DynamicUnionNode) (block traversed : nat) (previous_end : option Z) (current : Z)
    : result IntervalUnionError unit :=
  let fail rule := Err (UnionError rule (block_ids index !! block) []) in
  if decide (current = NONE) then Ok tt else
  match fuel with
  | O => Panic
  | S fuel =>
      match ns !! Z.to_nat current with
      | None => fail DYNAMIC_NODE_RANGE
      | Some node =>
          if decide (node_end node <= node_start node) then fail SEGMENT_RANGE else
          if match previous_end with Some end_ => bool_decide (node_start node <= end_) | None => false end then fail INTERFERENCE else
          if decide (length ns < S traversed)%nat then fail DYNAMIC_NODE_CYCLE else
          verify_chain fuel index ns block (S traversed) (Some (node_end node)) (node_next node)
      end
  end.

Definition union_verify (index : IntervalIndex) (u : DynamicSlotUnion) : result IntervalUnionError unit :=
  if decide (length (heads u) <> length (block_ids index)) then Err (UnionError CFG_SHAPE None []) else
  foldM (fun _ bh => verify_chain (S (length (nodes u))) index (nodes u) bh.1 0 None bh.2) tt (enumerate (heads u)).

Fixpoint same_chain {E} (fuel : nat) (ns ns' : list DynamicUnionNode) (l r : Z) : result E bool :=
  if decide (l = NONE) then Ok (bool_decide (r = NONE)) else
  if decide (r = NONE) then Ok false else
  match fuel with
  | O => Panic
  | S fuel =>
      left_node ← node_at ns l;
      right_node ← node_at ns' r;
      if decide ((node_start left_node, node_end left_node) <> (node_start right_node, node_end right_node)) then Ok false
      else same_chain fuel ns ns' (node_next left_node) (node_next right_node)
  end.

(** A test of every element until one fails. *)
Fixpoint all_pass {E A} (test : A -> result E bool) (l : list A) : result E bool :=
  match l with
  | [] => Ok true
  | a :: l => b ← test a; if (b : bool) then all_pass test l else Ok false
  end.

Definition same_occupancy {E} (u v : DynamicSlotUnion) : result E bool :=
  if decide (length (heads u) <> length (heads v)) then Ok false else
  all_pass (fun lr => same_chain (length (nodes u)) (nodes u) (nodes v) lr.1 lr.2) (zip (heads u) (heads v)).

Definition union_is_empty (u : DynamicSlotUnion) : bool := forallb (fun head => bool_decide (head = NONE)) (heads u).

(** ** The matrix of all slots *)

Record DynamicIntervalMatrix : Type := Matrix {
  index : Arc IntervalIndex;
  unions : list DynamicSlotUnion;
  assignments : gmap Z nat;
  block_slot_counts : list Z }.

(** [PartialEq]; an [Arc] is compared by its value. *)
Definition matrix_eq {E} (m m' : DynamicIntervalMatrix) : result E bool :=
  if decide (arc_value (index m) = arc_value (index m') /\ assignments m = assignments m' /\
             block_slot_counts m = block_slot_counts m' /\ length (unions m) = length (unions m'))
  then all_pass (fun lr => same_occupancy lr.1 lr.2) (zip (unions m) (unions m'))
  else Ok false.

(** [fresh] is the identity of the new allocation. *)
Definition matrix_new (fresh : nat) (cfg : NormalizedCfg) : result IntervalUnionError DynamicIntervalMatrix :=
  idx ← IntervalIndex_new cfg;
  Ok (Matrix (ArcOf fresh idx) [] ∅ (replicate (length (cfg_successors cfg)) 0)).

Definition make_range (m : DynamicIntervalMatrix) (segments : list LiveSegment) : result IntervalUnionError SparseRange :=
  index_make_range (index m) segments.

(** [Arc::ptr_eq] *)
Definition validate_token (m : DynamicIntervalMatrix) (segments : ValidatedSegments) : result IntervalUnionError unit :=
  if decide (arc_id (index m) = arc_id (range_index segments)) then Ok tt else Err (UnionError RANGE_CFG None []).

(** [max_by_key] keeps the last of equal keys; the position is that in
    [keys]. *)
Fixpoint last_max (keys : list Z) : option (nat * Z) :=
  match keys with
  | [] => None
  | k :: keys =>
      match last_max keys with
      | Some (i, best) => Some (if decide (best < k) then (0%nat, k) else (S i, best))
      | None => Some (0%nat, k)
      end
  end.

(** [position(|union| !union.interferes_indexed_with_hint(..))] *)
Fixpoint first_free {E} (us : list DynamicSlotUnion) (segments : ValidatedSegments) (hint : nat) : result E nat :=
  match us with
  | [] => Ok 0%nat
  | u :: us => i ← interferes_indexed_with_hint u segments hint; if (i : bool) then S <$> first_free us segments hint else Ok 0%nat
  end.

Definition first_available_validated (m : DynamicIntervalMatrix) (segments : ValidatedSegments) : result IntervalUnionError nat :=
  _ ← validate_token m segments;
  keys ← mapMr (fun block => expect (block_slot_counts m !! block)) (range_blocks segments);
  match last_max keys with
  | None => Ok (length (unions m))
  | Some (hint, _) => first_free (unions m) segments hint
  end.

(** The blocks of a range that [slot] does not occupy yet; a block is taken
    once from each run of its segments. *)
Fixpoint newly_occupied {E} (us : list DynamicSlotUnion) (slot : nat) (previous_block : option nat) (blocks : list nat) : result E (list nat) :=
  match blocks with
  | [] => Ok []
  | block :: blocks =>
      if decide (previous_block = Some block) then newly_occupied us slot previous_block blocks else
      free ← (if decide (slot = length us) then Ok true else u ← expect (us !! slot); head ← expect (heads u !! block); Ok (bool_decide (head = NONE)));
      rest ← newly_occupied us slot (Some block) blocks;
      Ok (if (free : bool) then block :: rest else rest)
  end.

Abbreviation mx := (SE DynamicIntervalMatrix IntervalUnionError).

Definition set_unions (us : list DynamicSlotUnion) : mx unit := fun m => (Matrix (index m) us (assignments m) (block_slot_counts m), Ok tt).

Definition set_assignment (bundle : Z) (slot : nat) : mx unit :=
  fun m => (Matrix (index m) (unions m) (<[bundle := slot]> (assignments m)) (block_slot_counts m), Ok tt).

(** [self.block_slot_counts[block].checked_add(1)] *)
Definition count_block (bundle : Z) (block : nat) : mx unit := fun m =>
  match block_slot_counts m !! block with
  | None => (m, Panic)
  | Some count =>
      if decide (count + 1 <= NONE) then (Matrix (index m) (unions m) (assignments m) (<[block := count + 1]> (block_slot_counts m)), Ok tt)
      else (m, Err (UnionError BLOCK_SLOT_COUNT (block_ids (arc_value (index m)) !! block) [bundle]))
  end.

Fixpoint count_blocks (bundle : Z) (blocks : list nat) : mx unit :=
  match blocks with
  | [] => mret tt
  | block :: blocks => _ ← count_block bundle block; count_blocks bundle blocks
  end.

(** The slots with [segments] added to [slot], which may be a new one. *)
Definition occupy (m : DynamicIntervalMatrix) (bundle : Z) (slot : nat) (segments : ValidatedSegments) : result IntervalUnionError (list DynamicSlotUnion) :=
  if decide (slot = length (unions m)) then
    u ← insert_indexed (DynamicSlotUnion_new (length (block_ids (arc_value (index m))))) bundle segments;
    Ok (unions m ++ [u])
  else
    u ← expect (unions m !! slot);
    u ← insert_indexed u bundle segments;
    Ok (<[slot := u]> (unions m)).

Definition assign_validated (bundle : Z) (slot : nat) (segments : ValidatedSegments) : mx unit :=
  m ← se_get;
  _ ← se_lift (validate_token m segments);
  if decide (is_Some (assignments m !! bundle)) then se_lift (Err (UnionError DUPLICATE_ASSIGNMENT None [bundle])) else
  if decide (length (unions m) < slot)%nat then se_lift (Err (UnionError DYNAMIC_SLOT_RANGE None [bundle])) else
  sb ← se_lift (range_iter segments);
  newly ← se_lift (newly_occupied (unions m) slot None sb.*2);
  us ← se_lift (occupy m bundle slot segments);
  _ ← set_unions us;
  _ ← count_blocks bundle newly;
  set_assignment bundle slot.

Definition slot_count (m : DynamicIntervalMatrix) : nat := length (unions m).
Definition slot (m : DynamicIntervalMatrix) (bundle : Z) : option nat := assignments m !! bundle.

Definition verify_slot (idx : IntervalIndex) (u : DynamicSlotUnion) : result IntervalUnionError unit :=
  _ ← union_verify idx u;
  if union_is_empty u then Err (UnionError EMPTY_DYNAMIC_SLOT None []) else Ok tt.

Definition matrix_verify (m : DynamicIntervalMatrix) : result IntervalUnionError unit :=
  _ ← foldM (fun _ u => verify_slot (arc_value (index m)) u) tt (unions m);
  if existsb (fun bs : Z * nat => bool_decide (length (unions m) <= bs.2)%nat) (map_to_list (assignments m))
  then Err (UnionError ASSIGNMENT_MAP None []) else Ok tt.

(** The tests of the source. *)
Definition one_block_cfg : NormalizedCfg := Normalized {[0 := 0%nat]} [[]].

Fixpoint assign_all (m : DynamicIntervalMatrix) (bundle : Z) (ranges : list (list LiveSegment)) : result IntervalUnionError DynamicIntervalMatrix :=
  match ranges with
  | [] => Ok m
  | segments :: ranges =>
      range ← make_range m segments;
      range ← validated range;
      match assign_validated bundle 0 range m with
      | (m, Ok _) => assign_all m (bundle + 1) ranges
      | (_, Err e) => Err e
      | (_, Panic) => Panic
      end
  end.

Example merges_adjacent_ranges :
  (let seg i := [Segment 0 i (i + 1)] in
   m ← matrix_new 0 one_block_cfg;
   a ← assign_all m 0 [seg 0; seg 2; seg 1];
   b ← assign_all m 0 [seg 2; seg 1; seg 0];
   _ ← matrix_verify a;
   _ ← matrix_verify b;
   matrix_eq a b) = Ok true.
Proof. vm_compute. reflexivity. Qed.
Example range_of_another_cfg :
  (m ← matrix_new 0 one_block_cfg;
   m' ← matrix_new 1 one_block_cfg;
   range ← make_range m [Segment 0 0 1];
   range ← validated range;
   first_available_validated m' range) = Err (UnionError RANGE_CFG None []).
Proof. vm_compute. reflexivity. Qed.
