(* ===== verification/SlotUnionFacts.v ===== *)
(** * SlotUnionFacts: the linked lists of a slot

    The nodes of a slot's arena form one list per block, sorted and with gaps
    between the ranges, and no two lists share a node. Insertion adds the
    points of a segment and keeps that, so the ranges of a list are determined
    by the points it holds. *)

From stdpp Require Import functions.
From S2P Require Import Prelude Specs Order SlotUnion.

(** ** Lists in the arena *)

(** Membership in the ids of an explicit list. *)
Ltac solve_ids := rewrite ?fmap_app, ?elem_of_app; cbn [fmap list_fmap fst]; rewrite ?elem_of_cons, ?elem_of_nil; tauto.

(** A cell is a node's position with its range. *)
Abbreviation cell := (nat * (Z * Z))%type.

(** The links from [p] to [q] visit [l]. *)
Fixpoint chain (ns : list DynamicUnionNode) (p : Z) (l : list cell) (q : Z) : Prop :=
  match l with
  | [] => p = q
  | (i, (s, e)) :: l => p = Z.of_nat i /\ exists next, ns !! i = Some (UnionNode s e next) /\ chain ns next l q
  end.

Lemma chain_app ns p l k q : chain ns p (l ++ k) q <-> exists r, chain ns p l r /\ chain ns r k q.
Proof.
  revert p. induction l as [|[i [s e]] l IH]; intros p; cbn [app chain].
  - split; [by exists p|]. by intros (r & <- & ?).
  - setoid_rewrite IH. naive_solver.
Qed.

Lemma chain_frame ns p l q j nd : j ∉ l.*1 -> chain ns p l q -> chain (<[j := nd]> ns) p l q.
Proof.
  revert p. induction l as [|[i [s e]] l IH]; intros p; cbn [chain fmap list_fmap fst]; [done|]. rewrite not_elem_of_cons. intros [Hj Hl] [Hp (next & Hi & Hc)].
  split; [done|]. exists next. split; [by rewrite list_lookup_insert_ne|]. by apply IH.
Qed.

Lemma chain_extend ns ns' p l q : chain ns p l q -> chain (ns ++ ns') p l q.
Proof.
  revert p. induction l as [|[i [s e]] l IH]; intros p; cbn [chain]; [done|]. intros [Hp (next & Hi & Hc)]. split; [done|]. exists next. split; [by apply lookup_app_l_Some|]. by apply IH.
Qed.

Lemma chain_replace ns p k i s e r m q : (i < length ns)%nat -> i ∉ k.*1 -> i ∉ m.*1 -> chain ns p k (Z.of_nat i) -> chain ns r m q ->
  chain (<[i := UnionNode s e r]> ns) p (k ++ (i, (s, e)) :: m) q.
Proof.
  intros Hi Hk Hm Hck Hcm. apply chain_app. exists (Z.of_nat i). split; [by apply chain_frame|]. split; [done|]. exists r. split; [by apply list_lookup_insert_eq|]. by apply chain_frame.
Qed.

Lemma chain_snoc ns p k i s e q : chain ns p (k ++ [(i, (s, e))]) q -> chain ns p k (Z.of_nat i) /\ ns !! i = Some (UnionNode s e q).
Proof. rewrite chain_app. intros (r & Hk & -> & next & Hi & <-). done. Qed.

Lemma chain_lookup ns p l q i r : chain ns p l q -> (i, r) ∈ l -> exists next, ns !! i = Some (UnionNode r.1 r.2 next).
Proof.
  revert p. induction l as [|[j [s e]] l IH]; intros p; cbn [chain]; [by intros _ ?%not_elem_of_nil|]. intros [_ (next & Hj & Hc)] [[= -> ->]|Hin]%elem_of_cons; [by exists next|by eapply IH].
Qed.

Lemma chain_bound ns p l q i : chain ns p l q -> i ∈ l.*1 -> (i < length ns)%nat.
Proof. intros Hc ([i' r] & -> & Hin)%list_elem_of_fmap. destruct (chain_lookup _ _ _ _ _ _ Hc Hin) as [next Hi]. by eapply lookup_lt_Some. Qed.

(** ** Sorted ranges with gaps *)

Definition gap (x y : cell) : Prop := x.2.2 < y.2.1.
Definition separated (l : list cell) : Prop := StronglySorted gap l /\ forall x, x ∈ l -> x.2.1 < x.2.2.

Definition in_cell (p : Z) (x : cell) : Prop := x.2.1 <= p < x.2.2.
(** The points that a list holds. *)
Definition occupied (l : list cell) (p : Z) : Prop := exists x, x ∈ l /\ in_cell p x.

Lemma occupied_app l k p : occupied (l ++ k) p <-> occupied l p \/ occupied k p.
Proof. unfold occupied. setoid_rewrite elem_of_app. naive_solver. Qed.
Lemma occupied_cons x l p : occupied (x :: l) p <-> in_cell p x \/ occupied l p.
Proof. unfold occupied. setoid_rewrite elem_of_cons. naive_solver. Qed.
Lemma occupied_nil p : ~ occupied [] p.
Proof. by intros (x & ?%not_elem_of_nil & _). Qed.

Lemma separated_nil : separated [].
Proof. split; [constructor|]. by intros x ?%not_elem_of_nil. Qed.

Lemma separated_cons x l : separated (x :: l) <-> x.2.1 < x.2.2 /\ (forall y, y ∈ l -> gap x y) /\ separated l.
Proof. unfold separated. rewrite StronglySorted_cons, Forall_forall. setoid_rewrite elem_of_cons. naive_solver. Qed.

Lemma separated_app l k : separated (l ++ k) <-> separated l /\ separated k /\ forall x y, x ∈ l -> y ∈ k -> gap x y.
Proof. unfold separated. rewrite StronglySorted_app. setoid_rewrite elem_of_app. naive_solver. Qed.

(** Distinct cells hold distinct points. *)
Lemma separated_ids ns p l q : separated l -> chain ns p l q -> NoDup l.*1.
Proof.
  revert p. induction l as [|[i [s e]] l IH]; intros p; [constructor|]. rewrite separated_cons. intros (Hse & Hgap & Hl) [_ (next & Hi & Hc)]. cbn [fmap list_fmap fst]. apply NoDup_cons.
  split; [|by eapply IH]. intros ([i' [s' e']] & -> & Hin)%list_elem_of_fmap. destruct (chain_lookup _ _ _ _ _ _ Hc Hin) as [next' Hi']. cbn in *. simplify_eq.
  specialize (Hgap _ Hin). unfold gap in Hgap. cbn in *. lia.
Qed.

Lemma chain_length ns p l q : separated l -> chain ns p l q -> (length l <= length ns)%nat.
Proof.
  intros Hs Hc. rewrite <- (length_fmap fst). apply NoDup_bounded_length; [by eapply separated_ids|]. intros i Hi. by eapply chain_bound.
Qed.

(** The points determine the ranges. *)
Lemma separated_unique l k : separated l -> separated k -> (forall p, occupied l p <-> occupied k p) -> l.*2 = k.*2.
Proof.
  revert k. induction l as [|[i [s e]] l IH]; intros k Hl Hk Heq.
  - destruct k as [|y k]; [done|]. exfalso. apply separated_cons in Hk as (Hy & _). eapply (occupied_nil y.2.1). apply Heq. exists y. split; [by left|]. unfold in_cell. lia.
  - apply separated_cons in Hl as (Hx & Hgx & Hl). destruct k as [|[j [s' e']] k].
    { exfalso. eapply (occupied_nil s). apply Heq. exists (i, (s, e)). split; [by left|]. unfold in_cell. cbn in *. lia. }
    apply separated_cons in Hk as (Hy & Hgy & Hk). unfold gap in *. cbn [fst snd] in *.
    assert (Hlow : forall (a b : Z) (m : list cell) p, (forall y, y ∈ m -> b < y.2.1) -> occupied m p -> b < p) by (intros a b m p Hm (y & Hym%Hm & Hp); unfold in_cell in Hp; lia).
    assert (Hcase : forall p, (s <= p < e \/ occupied l p) <-> (s' <= p < e' \/ occupied k p)) by (intros p; pose proof (Heq p) as Hp; rewrite !occupied_cons in Hp; exact Hp).
    assert (Hll : forall p, occupied l p -> e < p) by (intros p; apply (Hlow 0); done). assert (Hkk : forall p, occupied k p -> e' < p) by (intros p; apply (Hlow 0); done).
    assert (s = s') as <-.
    { destruct (proj1 (Hcase s)) as [?|?%Hkk]; [left; lia|..]; destruct (proj2 (Hcase s')) as [?|?%Hll]; try (left; lia); lia. }
    assert (e = e') as <-.
    { destruct (Z.lt_trichotomy e e') as [Hlt|[|Hlt]]; [|done|].
      - destruct (proj2 (Hcase e)) as [?|?%Hll]; [left; lia|lia..].
      - destruct (proj1 (Hcase e')) as [?|?%Hkk]; [left; lia|lia..]. }
    cbn. f_equal. apply IH; [done..|]. intros p. split; intros Hp.
    + pose proof (Hll p Hp). destruct (proj1 (Hcase p)) as [?|?]; [by right|lia|done].
    + pose proof (Hkk p Hp). destruct (proj2 (Hcase p)) as [?|?]; [by right|lia|done].
Qed.

(** ** Reading a list *)

(** [x] and the segment share a point. *)
Definition meets (segment : LiveSegment) (x : cell) : Prop := x.2.1 < seg_end segment /\ seg_start segment < x.2.2.

Lemma NONE_pos : 0 <= NONE.
Proof. unfold NONE. lia. Qed.

Section reading.
Context (ns : list DynamicUnionNode) (Hnodes : Z.of_nat (length ns) <= NONE).

(** The link to a node is not the end of a list. *)
Lemma link_not_none i nd : ns !! i = Some nd -> Z.of_nat i <> NONE.
Proof. intros Hi%lookup_lt_Some. lia. Qed.

Lemma node_at_link {E} i nd : ns !! i = Some nd -> node_at ns (Z.of_nat i) = Ok nd :> result E _.
Proof. intros Hi. unfold node_at. by rewrite Nat2Z.id, Hi. Qed.

Lemma interferes_from_spec {E} fuel segment p l : chain ns p l NONE -> separated l -> (length l <= fuel)%nat ->
  exists v, interferes_from fuel ns segment p = Ok v :> result E _ /\ (v = true <-> exists x, x ∈ l /\ meets segment x).
Proof.
  revert p l. induction fuel as [|fuel IH]; intros p [|[i [s e]] l]; cbn [chain length interferes_from]; intros Hc Hs Hf; try lia.
  - subst. rewrite decide_True by done. exists false. split; [done|]. split; [done|]. by intros (x & ?%not_elem_of_nil & _).
  - subst. rewrite decide_True by done. exists false. split; [done|]. split; [done|]. by intros (x & ?%not_elem_of_nil & _).
  - destruct Hc as [-> (next & Hi & Hc)]. rewrite decide_False by (by eapply link_not_none). rewrite (node_at_link _ _ Hi). cbn [mbind result_bind node_start node_end node_next].
    apply separated_cons in Hs as (Hse & Hgap & Hs). unfold gap in Hgap. cbn [fst snd] in *. case_decide as He.
    + destruct (IH next l Hc Hs ltac:(lia)) as (v & -> & Hv). exists v. split; [done|]. rewrite Hv. setoid_rewrite elem_of_cons. split; [naive_solver|].
      intros (x & [->|Hx] & Hm); [unfold meets in Hm; cbn in Hm; lia|eauto].
    + eexists. split; [done|]. rewrite negb_true_iff, bool_decide_eq_false. split.
      * intros Hlt. exists (i, (s, e)). split; [by left|]. unfold meets. cbn. lia.
      * intros (x & [->|Hx]%elem_of_cons & Hm); unfold meets in Hm; cbn in Hm; [lia|]. specialize (Hgap x Hx). lia.
Qed.

(** The position of an insertion: the cells before it end where the segment
    starts or earlier. *)
Lemma locate_spec {E} fuel segment previous p l : chain ns p l NONE -> separated l -> (length l <= fuel)%nat ->
  exists l1 l2 current, l = l1 ++ l2 /\ chain ns p l1 current /\ chain ns current l2 NONE /\
    locate fuel ns segment previous p = Ok (match last l1 with Some x => Z.of_nat x.1 | None => previous end, current) :> result E _ /\
    (forall x, x ∈ l1 -> x.2.2 <= seg_start segment) /\ (forall x, x ∈ l2 -> seg_start segment < x.2.2).
Proof.
  revert previous p l. induction fuel as [|fuel IH]; intros previous p [|[i [s e]] l]; cbn [chain length locate]; intros Hc Hs Hf; try lia.
  - subst. rewrite decide_True by done. exists [], [], NONE. split_and!; try done; by intros x ?%not_elem_of_nil.
  - subst. rewrite decide_True by done. exists [], [], NONE. split_and!; try done; by intros x ?%not_elem_of_nil.
  - destruct Hc as [-> (next & Hi & Hc)]. rewrite decide_False by (by eapply link_not_none). rewrite (node_at_link _ _ Hi). cbn [mbind result_bind node_start node_end node_next].
    apply separated_cons in Hs as (Hse & Hgap & Hs). unfold gap in Hgap. cbn [fst snd] in *. case_decide as He.
    + destruct (IH (Z.of_nat i) next l Hc Hs ltac:(lia)) as (l1 & l2 & current & -> & Hc1 & Hc2 & -> & Hl1 & Hl2). exists ((i, (s, e)) :: l1), l2, current. split_and!; try done.
      * cbn [chain]. split; [done|]. by exists next.
      * rewrite last_cons. by destruct (last l1).
      * intros x [->|Hx]%elem_of_cons; [done|by apply Hl1].
    + exists [], ((i, (s, e)) :: l), (Z.of_nat i). split_and!; try done.
      * cbn [chain]. split; [done|]. by exists next.
      * by intros x ?%not_elem_of_nil.
      * intros x [->|Hx]%elem_of_cons; cbn; [lia|]. pose proof (proj2 Hs x Hx). specialize (Hgap x Hx). lia.
Qed.

Lemma same_chain_spec {E} ns' (Hnodes' : Z.of_nat (length ns') <= NONE) fuel p l q k : chain ns p l NONE -> chain ns' q k NONE -> (length l <= fuel)%nat ->
  same_chain fuel ns ns' p q = Ok (bool_decide (l.*2 = k.*2)) :> result E _.
Proof.
  assert (Hend : forall r (m : list cell), chain ns' r m NONE -> r = NONE <-> m = []).
  { intros r [|[j [s e]] m]; cbn [chain]; [done|]. intros [-> (next & Hj & _)]. apply lookup_lt_Some in Hj. split; [lia|done]. }
  revert p l q k. induction fuel as [|fuel IH]; intros p [|[i [s e]] l] q k; cbn [chain length same_chain]; intros Hc Hk Hf; try lia.
  - subst. rewrite decide_True by done. f_equal. apply bool_decide_ext. rewrite (Hend _ _ Hk). by destruct k.
  - subst. rewrite decide_True by done. f_equal. apply bool_decide_ext. rewrite (Hend _ _ Hk). by destruct k.
  - destruct Hc as [-> (next & Hi & Hc)]. rewrite decide_False by (by eapply link_not_none). rewrite (node_at_link _ _ Hi). case_decide as Hq.
    + apply (Hend _ _ Hk) in Hq as ->. done.
    + destruct k as [|[j [s' e']] k]; [by destruct Hq|]. destruct Hk as [-> (next' & Hj & Hk)]. unfold node_at. rewrite Nat2Z.id, Hj. cbn [expect mbind result_bind node_start node_end node_next].
      case_decide as Hne; [cbn; rewrite bool_decide_eq_false_2; [done|]; intros [= -> -> _]; by destruct Hne|].
      injection Hne as <- <-. rewrite (IH next l next' k Hc Hk) by lia. f_equal. apply bool_decide_ext. cbn. split; [by intros ->|by intros [= ?]].
Qed.
End reading.

(** ** Insertion *)

Section insertion.
Context (ns : list DynamicUnionNode) (Hnodes : Z.of_nat (length ns) < NONE) (segment : LiveSegment) (Hseg : seg_start segment < seg_end segment).
Context (p : Z) (l : list cell) (Hc : chain ns p l NONE) (Hs : separated l) (Hfree : forall x, x ∈ l -> ~ meets segment x).

Definition in_segment (q : Z) : Prop := seg_start segment <= q < seg_end segment.

(** The result of an insertion: new nodes, a new head and a new list. Other
    lists of the arena keep their nodes. *)
Record inserted (ns' : list DynamicUnionNode) (p' : Z) (l' : list cell) : Prop := {
  in_chain : chain ns' p' l' NONE;
  in_separated : separated l';
  in_occupied q : occupied l' q <-> occupied l q \/ in_segment q;
  in_length : (length ns <= length ns' <= S (length ns))%nat;
  in_ids i : i ∈ l'.*1 -> i ∈ l.*1 \/ i = length ns;
  in_frame i : (i < length ns)%nat -> i ∉ l.*1 -> ns' !! i = ns !! i }.

(** The cells around the new one. *)
Lemma around l1 l2 i s e : separated l1 -> separated l2 -> (forall x y, x ∈ l1 -> y ∈ l2 -> gap x y) -> s < e ->
  (forall x, x ∈ l1 -> x.2.2 < s) -> (forall y, y ∈ l2 -> e < y.2.1) -> separated (l1 ++ (i, (s, e)) :: l2).
Proof.
  intros H1 H2 H12 Hse Hl Hr. apply separated_app. split; [done|]. split; [by apply separated_cons|]. intros x y Hx [->|Hy]%elem_of_cons; [by apply Hl|by apply H12].
Qed.

(** A list in front of the last cell of [l1] is before it. *)
Lemma last_bound (l1 : list cell) x : separated l1 -> last l1 = Some x -> exists k, l1 = k ++ [x] /\ forall y, y ∈ k -> y.2.2 < x.2.1.
Proof.
  intros H1 [k ->]%last_Some. exists k. split; [done|]. intros y Hy. apply separated_app in H1 as (_ & _ & H1). apply (H1 y x Hy). by left.
Qed.

Section position.
Context (l1 l2 : list cell) (current : Z) (Hl : l = l1 ++ l2) (Hc1 : chain ns p l1 current) (Hc2 : chain ns current l2 NONE).
Context (Hl1 : forall x, x ∈ l1 -> x.2.2 <= seg_start segment) (Hl2 : forall x, x ∈ l2 -> seg_start segment < x.2.2).

Lemma parts : separated l1 /\ separated l2 /\ forall x y, x ∈ l1 -> y ∈ l2 -> gap x y.
Proof. apply separated_app. by rewrite <- Hl. Qed.

Lemma right_start y : y ∈ l2 -> seg_end segment <= y.2.1.
Proof.
  intros Hy. assert (Hm : ~ meets segment y) by (apply Hfree; rewrite Hl; set_solver). unfold meets in Hm. specialize (Hl2 y Hy). lia.
Qed.

(** When the segment does not touch the neighbours, the ends are strict. *)
Lemma left_strict : (forall x, last l1 = Some x -> x.2.2 <> seg_start segment) -> forall x, x ∈ l1 -> x.2.2 < seg_start segment.
Proof.
  intros Hne x Hx. destruct parts as (H1 & _). destruct (last l1) as [z|] eqn:Hz; [|apply last_None in Hz; subst l1; by apply not_elem_of_nil in Hx].
  destruct (last_bound l1 z H1 Hz) as (k & Hk & Hlow). assert (Hzin : z ∈ l1) by (rewrite Hk; set_solver). pose proof (Hl1 z Hzin). specialize (Hne z eq_refl). pose proof (proj2 H1 z Hzin).
  rewrite Hk in Hx. apply elem_of_app in Hx as [Hx%Hlow| ->%list_elem_of_singleton]; lia.
Qed.

Lemma right_strict : (forall y, head l2 = Some y -> y.2.1 <> seg_end segment) -> forall y, y ∈ l2 -> seg_end segment < y.2.1.
Proof.
  intros Hne y Hy. destruct parts as (_ & H2 & _). pose proof right_start as Hr. assert (Hlow : forall z k, l2 = z :: k -> seg_end segment < z.2.1).
  { intros z k Hk. pose proof (Hr z ltac:(rewrite Hk; by left)). assert (z.2.1 <> seg_end segment) by (apply Hne; by rewrite Hk). lia. }
  clear - Hlow H2 Hy. destruct l2 as [|z k]; [by apply not_elem_of_nil in Hy|]. specialize (Hlow z k eq_refl). apply separated_cons in H2 as (Hse & Hgap & _).
  apply elem_of_cons in Hy as [->|Hy%Hgap]; [lia|]. unfold gap in Hy. lia.
Qed.

Lemma ids_disjoint : NoDup (l1.*1 ++ l2.*1).
Proof. rewrite <- fmap_app, <- Hl. by eapply separated_ids. Qed.

(** A new node between the lists. *)
Lemma insert_between ns' p' : (forall x, last l1 = Some x -> x.2.2 <> seg_start segment) -> (forall y, head l2 = Some y -> y.2.1 <> seg_end segment) ->
  length ns' = S (length ns) -> (forall i, (i < length ns)%nat -> last l1.*1 <> Some i -> ns' !! i = ns !! i) ->
  chain ns' p' (l1 ++ (length ns, (seg_start segment, seg_end segment)) :: l2) NONE ->
  inserted ns' p' (l1 ++ (length ns, (seg_start segment, seg_end segment)) :: l2).
Proof.
  intros Hleft Hright Hlen Hkeep Hch. destruct parts as (H1 & H2 & H12). split; [done| | |lia| |].
  - apply around; try done; [by apply left_strict|by apply right_strict].
  - intros q. rewrite Hl, !occupied_app, occupied_cons. unfold in_cell, in_segment. cbn. tauto.
  - intros i. rewrite Hl, !fmap_app, fmap_cons, !elem_of_app, elem_of_cons. cbn. tauto.
  - intros i Hi Hnot. apply Hkeep; [done|]. intros Hlast. apply Hnot. rewrite Hl, fmap_app. apply elem_of_app. left. apply last_Some in Hlast as [k ->]. set_solver.
Qed.
(** A node of a neighbour takes the segment in. *)
Lemma insert_merged j nd k x m : j ∈ l.*1 -> x.1 = j -> (forall i, i ∈ k.*1 \/ i ∈ m.*1 -> i ∈ l.*1) ->
  chain (<[j := nd]> ns) p (k ++ x :: m) NONE -> separated (k ++ x :: m) ->
  (forall q, occupied (k ++ x :: m) q <-> occupied l q \/ in_segment q) -> inserted (<[j := nd]> ns) p (k ++ x :: m).
Proof.
  intros Hj Hx Hids Hch Hsep Hocc. split; [done..|rewrite length_insert; lia| |].
  - intros i. rewrite fmap_app, fmap_cons, elem_of_app, elem_of_cons, Hx. intros [?|[->|?]]; left; auto.
  - intros i _ Hi. rewrite list_lookup_insert_ne; [done|]. by intros ->.
Qed.
End position.

Section merges.
Context (k m : list cell) (current : Z).

(** The three ways to merge and the two places of a new node, by the cells
    around the segment. *)
Lemma merge_both i s e j s' e' next : l = (k ++ [(i, (s, e))]) ++ (j, (s', e')) :: m ->
  chain ns p (k ++ [(i, (s, e))]) (Z.of_nat j) -> ns !! j = Some (UnionNode s' e' next) -> chain ns next m NONE -> e = seg_start segment -> s' = seg_end segment ->
  inserted (<[i := UnionNode s e' next]> ns) p (k ++ (i, (s, e')) :: m).
Proof.
  intros Hl [Hk Hi]%chain_snoc Hj Hm -> ->. pose proof Hs as Hsep. rewrite Hl, <- app_assoc in Hsep. cbn [app] in Hsep.
  pose proof (separated_ids _ _ _ _ Hs Hc) as Hnd. rewrite Hl, <- app_assoc, fmap_app in Hnd. cbn [app fmap list_fmap fst] in Hnd. apply NoDup_app in Hnd as (_ & Hdis & Hnd).
  apply NoDup_cons in Hnd as [Hij Hnd]. rewrite not_elem_of_cons in Hij. destruct Hij as [Hij Him].
  apply separated_app in Hsep as (Sk & Sr & Skr). apply separated_cons in Sr as (Hse & Hgi & Sr). apply separated_cons in Sr as (Hse' & Hgj & Sm). unfold gap in *. cbn [fst snd] in *.
  apply insert_merged; [rewrite Hl; solve_ids|done|intros z; rewrite Hl; solve_ids| | |].
  - apply chain_replace; [by eapply lookup_lt_Some|intros Hik; apply (Hdis i Hik); by left|done..].
  - apply around; [done..|intros x y Hx Hy; apply (Skr x y Hx); rewrite ?elem_of_cons; tauto|lia| |by intros y Hy%Hgj]. intros x Hx. apply (Skr x (i, (s, seg_start segment)) Hx). by left.
  - intros q. rewrite Hl, !occupied_app, !occupied_cons. unfold in_cell, in_segment. cbn. pose proof (occupied_nil q). intuition lia.
Qed.

Lemma merge_left i s e : l = (k ++ [(i, (s, e))]) ++ m -> chain ns p (k ++ [(i, (s, e))]) current -> chain ns current m NONE -> e = seg_start segment ->
  (forall y, y ∈ m -> seg_end segment < y.2.1) -> inserted (<[i := UnionNode s (seg_end segment) current]> ns) p (k ++ (i, (s, seg_end segment)) :: m).
Proof.
  intros Hl [Hk Hi]%chain_snoc Hm -> Hstrict. pose proof Hs as Hsep. rewrite Hl, <- app_assoc in Hsep. cbn [app] in Hsep.
  pose proof (separated_ids _ _ _ _ Hs Hc) as Hnd. rewrite Hl, <- app_assoc, fmap_app in Hnd. cbn [app fmap list_fmap fst] in Hnd. apply NoDup_app in Hnd as (_ & Hdis & Hnd).
  apply NoDup_cons in Hnd as [Him Hnd]. apply separated_app in Hsep as (Sk & Sr & Skr). apply separated_cons in Sr as (Hse & Hgi & Sm). unfold gap in *. cbn [fst snd] in *.
  apply insert_merged; [rewrite Hl; solve_ids|done|intros z; rewrite Hl; solve_ids| | |].
  - apply chain_replace; [by eapply lookup_lt_Some|intros Hik; apply (Hdis i Hik); by left|done..].
  - apply around; [done..|intros x y Hx Hy; apply (Skr x y Hx); rewrite ?elem_of_cons; tauto|lia| |done]. intros x Hx. apply (Skr x (i, (s, seg_start segment)) Hx). by left.
  - intros q. rewrite Hl, !occupied_app, !occupied_cons. unfold in_cell, in_segment. cbn. pose proof (occupied_nil q). intuition lia.
Qed.

Lemma merge_right j s e next : l = k ++ (j, (s, e)) :: m -> chain ns p k (Z.of_nat j) -> ns !! j = Some (UnionNode s e next) -> chain ns next m NONE -> s = seg_end segment ->
  (forall x, x ∈ k -> x.2.2 < seg_start segment) -> inserted (<[j := UnionNode (seg_start segment) e next]> ns) p (k ++ (j, (seg_start segment, e)) :: m).
Proof.
  intros Hl Hk Hj Hm -> Hstrict. pose proof Hs as Hsep. rewrite Hl in Hsep.
  pose proof (separated_ids _ _ _ _ Hs Hc) as Hnd. rewrite Hl, fmap_app in Hnd. cbn [fmap list_fmap fst] in Hnd. apply NoDup_app in Hnd as (_ & Hdis & Hnd).
  apply NoDup_cons in Hnd as [Hjm Hnd]. apply separated_app in Hsep as (Sk & Sr & Skr). apply separated_cons in Sr as (Hse & Hgi & Sm). unfold gap in *. cbn [fst snd] in *.
  apply insert_merged; [rewrite Hl; solve_ids|done|intros z; rewrite Hl; solve_ids| | |].
  - apply chain_replace; [by eapply lookup_lt_Some|intros Hik; apply (Hdis j Hik); by left|done..].
  - apply around; [done..|intros x y Hx Hy; apply (Skr x y Hx); rewrite ?elem_of_cons; tauto|lia|done|done].
  - intros q. rewrite Hl, !occupied_app, !occupied_cons. unfold in_cell, in_segment. cbn. intuition lia.
Qed.
End merges.
End insertion.

(** A new node after [k], or at the head of the list. *)
Lemma as_u32_small n : Z.of_nat n < NONE -> as_u32 n = Z.of_nat n.
Proof. unfold as_u32, NONE. intros. apply Z.mod_small. lia. Qed.

(** The arena of a slot with the list of every block. *)
Record union_ok (n : nat) (u : DynamicSlotUnion) (L : nat -> list cell) : Prop := {
  uo_heads : length (heads u) = n;
  uo_nodes : Z.of_nat (length (nodes u)) <= NONE;
  uo_chain b p : heads u !! b = Some p -> chain (nodes u) p (L b) NONE;
  uo_separated b : (b < n)%nat -> separated (L b);
  uo_apart b b' i : (b < n)%nat -> (b' < n)%nat -> i ∈ (L b).*1 -> i ∈ (L b').*1 -> b = b' }.

Lemma union_new_ok n : union_ok n (DynamicSlotUnion_new n) (fun _ => []).
Proof.
  split; cbn.
  - by rewrite length_replicate.
  - apply NONE_pos.
  - by intros b p [-> _]%lookup_replicate.
  - intros. apply separated_nil.
  - by intros b b' i _ _ ?%not_elem_of_nil.
Qed.

Section union.
Context (n : nat) (u : DynamicSlotUnion) (L : nat -> list cell) (Hu : union_ok n u L).

Lemma head_at b : (b < n)%nat -> exists p, heads u !! b = Some p /\ chain (nodes u) p (L b) NONE /\ (length (L b) <= length (nodes u))%nat.
Proof.
  intros Hb. in_range (heads u) b as p Hp; [by rewrite (uo_heads _ _ _ Hu)|]. exists p. split; [done|]. pose proof (uo_chain _ _ _ Hu b p Hp) as Hc. split; [done|]. eapply chain_length; [by apply (uo_separated _ _ _ Hu)|done].
Qed.

(** The nodes and the list of one block after an insertion. *)
Lemma inserted_ok b p p' l' ns' segment : (b < n)%nat -> heads u !! b = Some p -> Z.of_nat (length ns') <= NONE -> inserted (nodes u) segment (L b) ns' p' l' ->
  union_ok n (SlotUnionOf (<[b := p']> (heads u)) ns') (<[b := l']> L).
Proof.
  intros Hb Hp Hns [Hc Hs Ho Hlen Hids Hframe]. destruct Hu as [Hh Hn Hch Hsep Hap].
  assert (Hold : forall b' i, (b' < n)%nat -> i ∈ (L b').*1 -> (i < length (nodes u))%nat).
  { intros b' i Hb' Hi. in_range (heads u) b' as p0 Hp0. eapply chain_bound; [by apply Hch|done]. }
  split; cbn [heads nodes].
  - by rewrite length_insert.
  - done.
  - intros b' q. destruct (decide (b' = b)) as [->|Hne].
    + rewrite list_lookup_insert_eq by lia. intros [= <-]. by rewrite fn_lookup_insert.
    + rewrite list_lookup_insert_ne by done. rewrite fn_lookup_insert_ne by done. intros Hq. assert (Hb' : (b' < n)%nat) by (rewrite <- Hh; eauto with index).
      assert (Hgo : forall l q, (forall i, i ∈ l.*1 -> i ∈ (L b').*1) -> chain (nodes u) q l NONE -> chain ns' q l NONE).
      { clear q Hq. induction l as [|[i [s e]] l IH]; intros q Hin; cbn [chain]; [done|]. intros [-> (next & Hi & Hl)]. split; [done|]. exists next. split; [|apply IH; [intros; apply Hin; by right|done]].
        rewrite Hframe; [done|by eapply lookup_lt_Some|]. intros Hib. apply Hne. apply (Hap b' b i); [done..| |done]. apply Hin. by left. }
      apply Hgo; [done|]. by apply Hch.
  - intros b' Hb'. destruct (decide (b' = b)) as [->|Hne]; [by rewrite fn_lookup_insert|rewrite fn_lookup_insert_ne by done; by apply Hsep].
  - assert (Hgo : forall b1 b2 i, (b1 < n)%nat -> (b2 < n)%nat -> b2 <> b -> i ∈ (<[b := l']> L b1).*1 -> i ∈ (L b2).*1 -> b1 = b2).
    { intros b1 b2 i H1 H2 Hne Hi1 Hi2. destruct (decide (b1 = b)) as [->|Hne1]; [|rewrite fn_lookup_insert_ne in Hi1 by done; by eapply Hap].
      rewrite fn_lookup_insert in Hi1. apply Hids in Hi1 as [Hi1| ->]; [by eapply Hap|]. pose proof (Hold b2 _ H2 Hi2). lia. }
    intros b1 b2 i H1 H2 Hi1 Hi2. destruct (decide (b2 = b)) as [->|Hne2].
    + destruct (decide (b1 = b)) as [->|Hne1]; [done|]. rewrite fn_lookup_insert_ne in Hi1 by done. symmetry. by apply (Hgo b b1 i).
    + rewrite fn_lookup_insert_ne in Hi2 by done. by apply (Hgo b1 b2 i).
Qed.

(** The neighbours of the segment, by their cells. *)
Lemma touches_left_spec {E} segment l1 p current : chain (nodes u) p l1 current -> Z.of_nat (length (nodes u)) <= NONE ->
  touches_left (nodes u) segment (match last l1 with Some x => Z.of_nat x.1 | None => NONE end) =
  Ok (match last l1 with Some x => bool_decide (x.2.2 = seg_start segment) | None => false end) :> result E _.
Proof.
  intros Hc Hn. unfold touches_left. destruct (last l1) as [[i [s e]]|] eqn:Hlast; [|by rewrite decide_True].
  apply last_Some in Hlast as [k ->]. apply chain_snoc in Hc as [_ Hi]. rewrite decide_False by (by eapply link_not_none). cbn [fst]. by rewrite (node_at_link _ _ _ Hi).
Qed.

Lemma touches_right_spec {E} segment l2 current : chain (nodes u) current l2 NONE -> Z.of_nat (length (nodes u)) <= NONE ->
  touches_right (nodes u) segment current = Ok (match head l2 with Some x => bool_decide (x.2.1 = seg_end segment) | None => false end) :> result E _.
Proof.
  intros Hc Hn. unfold touches_right. destruct l2 as [|[j [s e]] m]; cbn [chain head] in *; [subst; by rewrite decide_True|].
  destruct Hc as [-> (next & Hj & _)]. rewrite decide_False by (by eapply link_not_none). by rewrite (node_at_link _ _ _ Hj).
Qed.

Lemma insert_segment_spec {E} segment b : (b < n)%nat -> seg_start segment < seg_end segment -> (forall x, x ∈ L b -> ~ meets segment x) -> Z.of_nat (length (nodes u)) < NONE ->
  exists u' l', insert_segment u (segment, b) = Ok u' :> result E _ /\ union_ok n u' (<[b := l']> L) /\ (length (nodes u') <= S (length (nodes u)))%nat /\
    forall q, occupied l' q <-> occupied (L b) q \/ in_segment segment q.
Proof.
  intros Hb Hseg Hfree Hnodes. destruct (head_at b Hb) as (p & Hp & Hc & Hlen). pose proof (uo_separated _ _ _ Hu b Hb) as Hs.
  assert (Hle : Z.of_nat (length (nodes u)) <= NONE) by lia.
  destruct (locate_spec (E:=E) (nodes u) Hle (length (nodes u)) segment NONE p (L b) Hc Hs Hlen) as (l1 & l2 & current & Hl & Hc1 & Hc2 & Hloc & Hl1 & Hl2).
  unfold insert_segment. cbn [fst snd]. rewrite Hp. cbn [expect mbind result_bind]. rewrite Hloc. cbn [mbind result_bind]. clear Hloc.
  enough (Hfin : exists p' ns' l', splice u segment b (match last l1 with Some x => Z.of_nat x.1 | None => NONE end) current = Ok (SlotUnionOf (<[b := p']> (heads u)) ns') :> result E _ /\
    inserted (nodes u) segment (L b) ns' p' l').
  { destruct Hfin as (p' & ns' & l' & -> & Hi). pose proof (in_length _ _ _ _ _ _ Hi). exists (SlotUnionOf (<[b := p']> (heads u)) ns'), l'. split_and!; [done| |cbn; lia|apply Hi]. eapply inserted_ok; [done..|lia|done]. }
  unfold splice. rewrite (touches_left_spec segment l1 p current Hc1 Hle), (touches_right_spec segment l2 current Hc2 Hle). cbn [mbind result_bind].
  assert (Hheads : <[b := p]> (heads u) = heads u) by (by apply list_insert_id).
  assert (Hset : forall (ns : list DynamicUnionNode) i nd, (i < length ns)%nat -> vset (Z.to_nat (Z.of_nat i)) nd ns = Ok (<[i := nd]> ns) :> result E _) by (intros ns i nd Hi; unfold vset; rewrite Nat2Z.id; by rewrite decide_True).
  destruct (match last l1 with Some x => _ | None => false end) eqn:Htl.
  - destruct (last l1) as [[i [s e]]|] eqn:Hlast; [|done]. apply bool_decide_eq_true in Htl. cbn [fst snd] in Htl. apply last_Some in Hlast as [k ->]. destruct (chain_snoc _ _ _ _ _ _ _ Hc1) as [_ Hi]. cbn [fst].
    destruct (match head l2 with Some x => _ | None => false end) eqn:Htr.
    + destruct l2 as [|[j [s' e']] m]; [done|]. cbn [head] in Htr. apply bool_decide_eq_true in Htr. cbn [fst snd] in Htr. destruct Hc2 as [-> (next & Hj & Hm)].
      rewrite (node_at_link _ _ _ Hj), (node_at_link _ _ _ Hi). cbn [mbind result_bind node_start node_end node_next]. rewrite Hset by eauto with index. cbn [mbind result_bind].
      eexists p, _, _. rewrite Hheads. split; [done|]. eapply merge_both; eauto.
    + rewrite (node_at_link _ _ _ Hi). cbn [mbind result_bind node_start node_end node_next]. rewrite Hset by eauto with index. cbn [mbind result_bind].
      eexists p, _, _. rewrite Hheads. split; [done|]. eapply merge_left; eauto. apply (right_strict (nodes u) Hnodes segment Hseg p (L b) Hc Hs Hfree _ l2 current Hl Hc1 Hc2 Hl1 Hl2). intros y Hy Hend. rewrite Hy in Htr. by apply bool_decide_eq_false in Htr.
  - assert (Hleft : forall x, last l1 = Some x -> x.2.2 <> seg_start segment) by (intros x Hx Hend; rewrite Hx in Htl; by apply bool_decide_eq_false in Htl).
    destruct (match head l2 with Some x => _ | None => false end) eqn:Htr.
    + destruct l2 as [|[j [s' e']] m]; [done|]. cbn [head] in Htr. apply bool_decide_eq_true in Htr. cbn [fst snd] in Htr. destruct Hc2 as [-> (next & Hj & Hm)].
      rewrite (node_at_link _ _ _ Hj). cbn [mbind result_bind node_start node_end node_next]. rewrite Hset by eauto with index. cbn [mbind result_bind].
      eexists p, _, _. rewrite Hheads. split; [done|]. eapply merge_right; eauto. apply (left_strict (nodes u) Hnodes segment Hseg p (L b) Hc Hs Hfree l1 ((j, (s', e')) :: m) (Z.of_nat j) Hl Hc1); eauto. split; [done|]. by exists next.
    + assert (Hright : forall y, head l2 = Some y -> y.2.1 <> seg_end segment) by (intros y Hy Hend; rewrite Hy in Htr; by apply bool_decide_eq_false in Htr).
      rewrite as_u32_small by lia. destruct (last l1) as [[i [s e]]|] eqn:Hlast.
      * pose proof Hlast as [k Hk]%last_Some. rewrite Hk in Hc1. destruct (chain_snoc _ _ _ _ _ _ _ Hc1) as [Hck Hi]. rewrite <- Hk in Hc1. cbn [fst]. rewrite decide_False by (by eapply link_not_none).
        assert (Hil : (i < length (nodes u))%nat) by eauto with index. unfold node_at. rewrite Nat2Z.id, lookup_app_l, Hi by done. cbn [expect mbind result_bind node_start node_end node_next].
        unfold vset. rewrite decide_True by (rewrite length_app; lia). cbn [mbind result_bind]. eexists p, _, _. rewrite Hheads. split; [done|].
        apply (insert_between (nodes u) Hnodes segment Hseg p (L b) Hc Hs Hfree l1 l2 current Hl Hc1 Hc2 Hl1 Hl2); [by rewrite Hlast|done|..].
        -- rewrite length_insert, length_app. cbn. lia.
        -- intros j Hj Hne. rewrite list_lookup_insert_ne; [by apply lookup_app_l|]. intros ->. apply Hne. rewrite fmap_last, Hlast. done.
        -- pose proof (ids_disjoint (nodes u) p (L b) Hc Hs l1 l2 Hl) as Hnd. rewrite Hk, fmap_app in Hnd. cbn [fmap list_fmap fst] in Hnd. rewrite <- app_assoc in Hnd. apply NoDup_app in Hnd as (_ & Hdis & Hnd).
           apply NoDup_cons in Hnd as [Hil2 _]. apply chain_app. exists (Z.of_nat (length (nodes u))). split.
           ++ rewrite Hk. apply chain_replace; [rewrite length_app; lia|intros Hik; apply (Hdis i Hik); by left|by apply not_elem_of_nil|by apply chain_extend|done].
           ++ split; [done|]. exists current. split; [rewrite list_lookup_insert_ne by lia; by apply list_lookup_middle|]. apply chain_frame; [done|]. by apply chain_extend.
      * rewrite decide_True by done. unfold vset. rewrite decide_True by (rewrite (uo_heads _ _ _ Hu); lia). cbn [mbind result_bind]. eexists _, _, _. split; [done|]. apply (insert_between (nodes u) Hnodes segment Hseg p (L b) Hc Hs Hfree l1 l2 current Hl Hc1 Hc2 Hl1 Hl2); [by rewrite Hlast|done|..]. all: apply last_None in Hlast.
        -- rewrite length_app. cbn. lia.
        -- intros j Hj _. by apply lookup_app_l.
        -- rewrite Hlast. cbn [app]. split; [done|]. exists current. split; [by apply list_lookup_middle|]. by apply chain_extend.
Qed.
End union.

(** ** Ranges *)

(** Segments with their block rows: nonempty, and in order within a row. *)
Definition pair_before (x y : LiveSegment * nat) : Prop := x.2 = y.2 -> seg_end x.1 <= seg_start y.1.
Record pairs_ok (n : nat) (l : list (LiveSegment * nat)) : Prop := {
  po_row x : x ∈ l -> (x.2 < n)%nat /\ seg_start x.1 < seg_end x.1;
  po_sorted : StronglySorted pair_before l }.

(** The points of the rows that [l] holds. *)
Definition holds (l : list (LiveSegment * nat)) (b : nat) (p : Z) : Prop := exists x, x ∈ l /\ x.2 = b /\ in_segment x.1 p.

Lemma holds_cons x l b p : holds (x :: l) b p <-> (x.2 = b /\ in_segment x.1 p) \/ holds l b p.
Proof. unfold holds. setoid_rewrite elem_of_cons. naive_solver. Qed.

Lemma meets_point segment x : seg_start segment < seg_end segment -> x.2.1 < x.2.2 -> meets segment x <-> exists p, in_segment segment p /\ in_cell p x.
Proof.
  unfold meets, in_segment, in_cell. intros. split; [|intros (p & ? & ?); lia]. intros [? ?]. exists (Z.max (seg_start segment) x.2.1). lia.
Qed.

Section ranges.
Context (n : nat) (u : DynamicSlotUnion) (L : nat -> list cell) (Hu : union_ok n u L).

Lemma interferes_segment_spec {E} segment b : (b < n)%nat -> seg_start segment < seg_end segment ->
  exists v, interferes_segment u segment b = Ok v :> result E _ /\ (v = true <-> exists p, in_segment segment p /\ occupied (L b) p).
Proof.
  intros Hb Hseg. destruct (head_at n u L Hu b Hb) as (p & Hp & Hc & Hlen). unfold interferes_segment. rewrite Hp. cbn [expect mbind result_bind]. pose proof (uo_separated _ _ _ Hu b Hb) as Hs.
  destruct (interferes_from_spec (E:=E) (nodes u) (uo_nodes _ _ _ Hu) (length (nodes u)) segment p (L b) Hc Hs Hlen) as (v & -> & Hv). exists v. split; [done|]. rewrite Hv. unfold occupied. split.
  - intros (x & Hx & Hm). apply meets_point in Hm as (q & ? & ?); [|done|by apply Hs]. eauto 6.
  - intros (q & Hq & x & Hx & Hin). exists x. split; [done|]. apply meets_point; [done|by apply Hs|eauto].
Qed.

Lemma any_interferes_spec {E} l : (forall x, x ∈ l -> (x.2 < n)%nat /\ seg_start x.1 < seg_end x.1) ->
  exists v, any_interferes u l = Ok v :> result E _ /\ (v = true <-> exists b p, holds l b p /\ occupied (L b) p).
Proof.
  induction l as [|[segment b] l IH]; intros Hl; cbn [any_interferes].
  { exists false. split; [done|]. split; [done|]. by intros (b & p & (x & ?%not_elem_of_nil & _) & _). }
  destruct (Hl (segment, b)) as [Hb Hseg]; [by left|]. cbn [fst snd] in *. destruct (interferes_segment_spec (E:=E) segment b Hb Hseg) as (v & -> & Hv). cbn [mbind result_bind].
  destruct IH as (w & Hw & Hwv); [intros; apply Hl; by right|]. setoid_rewrite holds_cons. destruct v.
  - exists true. split; [done|]. split; [|done]. intros _. destruct (proj1 Hv eq_refl) as (p & ? & ?). exists b, p. cbn. tauto.
  - exists w. split; [done|]. rewrite Hwv. split; [naive_solver|]. intros (c & p & [[<- Hp]|Hp] & Ho); [|eauto]. cbn in *. assert (false = true) by (apply Hv; eauto). done.
Qed.
End ranges.

Lemma insert_all_spec {E} n l u L : union_ok n u L -> pairs_ok n l -> (forall b p, holds l b p -> ~ occupied (L b) p) ->
  Z.of_nat (length (nodes u)) + Z.of_nat (length l) <= NONE ->
  exists u' L', foldM insert_segment u l = Ok u' :> result E _ /\ union_ok n u' L' /\ (length (nodes u') <= length (nodes u) + length l)%nat /\
    forall b p, occupied (L' b) p <-> occupied (L b) p \/ holds l b p.
Proof.
  revert u L. induction l as [|[segment b] l IH]; intros u L Hu [Hrow Hsort] Hfree Hlen; cbn [foldM length] in *.
  { exists u, L. split_and!; [done..|lia|]. intros b p. split; [by left|]. intros [?|(x & ?%not_elem_of_nil & _)]; done. }
  destruct (Hrow (segment, b)) as [Hb Hseg]; [by left|]. cbn [fst snd] in *. apply StronglySorted_inv in Hsort as [Hsort Hhead]. rewrite Forall_forall in Hhead.
  destruct (insert_segment_spec (E:=E) n u L Hu segment b Hb Hseg) as (u1 & l1 & -> & Hu1 & Hl1 & Ho1).
  { intros x Hx Hm. apply meets_point in Hm as (p & Hp & Hin); [|done|by apply (uo_separated _ _ _ Hu b Hb)]. apply (Hfree b p); [apply holds_cons; by left|by exists x]. }
  { lia. }
  cbn [mbind result_bind]. destruct (IH u1 (<[b := l1]> L) Hu1) as (u' & L' & -> & Hu' & Hl' & Ho').
  - split; [|done]. intros x Hx. apply Hrow. by right.
  - intros c p Hp. destruct (decide (c = b)) as [->|Hne].
    + rewrite fn_lookup_insert, Ho1. intros [Ho|Ho]; [apply (Hfree b p); [apply holds_cons; by right|done]|]. destruct Hp as (x & Hx & Hxb & Hxp). pose proof (Hhead x Hx (eq_sym Hxb)) as Hbef. unfold in_segment in *. cbn in Hbef. lia.
    + rewrite fn_lookup_insert_ne by done. apply Hfree. apply holds_cons. by right.
  - lia.
  - exists u', L'. split_and!; [done..|lia|]. intros c p. rewrite Ho', holds_cons. cbn [fst snd]. destruct (decide (c = b)) as [->|Hne].
    + rewrite fn_lookup_insert, Ho1. tauto.
    + rewrite fn_lookup_insert_ne by done. intuition congruence.
Qed.

(** ** Comparing and checking unions *)

Lemma same_occupancy_spec {E} n u v L M : union_ok n u L -> union_ok n v M ->
  exists r, same_occupancy u v = Ok r :> result E _ /\ (r = true <-> forall b p, (b < n)%nat -> occupied (L b) p <-> occupied (M b) p).
Proof.
  intros Hu Hv. unfold same_occupancy. rewrite decide_False by (intros Hne; apply Hne; by rewrite (uo_heads _ _ _ Hu), (uo_heads _ _ _ Hv)).
  assert (Hpair : forall b, (b < n)%nat -> forall l r, heads u !! b = Some l -> heads v !! b = Some r ->
    same_chain (length (nodes u)) (nodes u) (nodes v) l r = Ok (bool_decide ((L b).*2 = (M b).*2)) :> result E _).
  { intros b Hb l r Hl Hr. pose proof (uo_chain _ _ _ Hu b l Hl) as Hc. apply same_chain_spec; [apply (uo_nodes _ _ _ Hu)|apply (uo_nodes _ _ _ Hv)|done|by apply (uo_chain _ _ _ Hv)|]. eapply chain_length; [by apply (uo_separated _ _ _ Hu)|done]. }
  assert (Hgo : forall k hs hs', length hs = length hs' -> (forall i l, hs !! i = Some l -> heads u !! (k + i)%nat = Some l) -> (forall i r, hs' !! i = Some r -> heads v !! (k + i)%nat = Some r) ->
    exists r, all_pass (fun lr => same_chain (length (nodes u)) (nodes u) (nodes v) lr.1 lr.2) (zip hs hs') = Ok r :> result E _ /\
      (r = true <-> forall i, (i < length hs)%nat -> (L (k + i)%nat).*2 = (M (k + i)%nat).*2)).
  { intros k hs. revert k. induction hs as [|l hs IH]; intros k [|r hs'] Hlen Hl Hr; try done.
    - exists true. split; [done|]. split; [|done]. intros _ i Hi. cbn in Hi. lia.
    - cbn [zip zip_with all_pass]. pose proof (Hl 0%nat l eq_refl) as Hl0. pose proof (Hr 0%nat r eq_refl) as Hr0. rewrite Nat.add_0_r in Hl0, Hr0.
      assert (Hk : (k < n)%nat) by (rewrite <- (uo_heads _ _ _ Hu); eauto with index). cbn [fst snd]. rewrite (Hpair k Hk l r Hl0 Hr0). cbn [mbind result_bind].
      destruct (IH (S k) hs') as (w & Hw & Hwv); [by injection Hlen|intros i x Hi; specialize (Hl (S i) x Hi); by rewrite Nat.add_succ_r in Hl|intros i x Hi; specialize (Hr (S i) x Hi); by rewrite Nat.add_succ_r in Hr|].
      case_bool_decide as Heq; [exists w|exists false]; (split; [done|]).
      + rewrite Hwv. cbn [length]. split.
        * intros Hall [|i] Hi; [by rewrite Nat.add_0_r|]. rewrite Nat.add_succ_r. apply (Hall i). lia.
        * intros Hall i Hi. specialize (Hall (S i)). rewrite Nat.add_succ_r in Hall. apply Hall. lia.
      + split; [done|]. intros Hall. destruct Heq. specialize (Hall 0%nat). rewrite Nat.add_0_r in Hall. apply Hall. cbn. lia. }
  destruct (Hgo 0%nat (heads u) (heads v)) as (r & -> & Hr); [by rewrite (uo_heads _ _ _ Hu), (uo_heads _ _ _ Hv)|done..|]. exists r. split; [done|]. rewrite Hr, (uo_heads _ _ _ Hu). split.
  - intros Hall b p Hb. specialize (Hall b Hb). cbn in Hall. unfold occupied, in_cell. assert (Hmem : forall r, (exists x, x ∈ L b /\ x.2 = r) <-> exists x, x ∈ M b /\ x.2 = r).
    { assert (Hin : forall l s, s ∈ l.*2 <-> exists x : cell, x ∈ l /\ x.2 = s) by (intros l s; rewrite list_elem_of_fmap; naive_solver). intros s. by rewrite <- !Hin, Hall. }
    split; intros (x & Hx & Hp).
    + destruct (proj1 (Hmem x.2)) as (y & Hy & Hyx); [eauto|]. exists y. by rewrite Hyx.
    + destruct (proj2 (Hmem x.2)) as (y & Hy & Hyx); [eauto|]. exists y. by rewrite Hyx.
  - intros Hall i Hi. apply separated_unique; [by apply (uo_separated _ _ _ Hu)|by apply (uo_separated _ _ _ Hv)|]. intros p. by apply Hall.
Qed.

Lemma verify_chain_ok fuel idx ns (Hnodes : Z.of_nat (length ns) <= NONE) b traversed prev p l : chain ns p l NONE -> separated l ->
  (forall e x, prev = Some e -> x ∈ l -> e < x.2.1) -> (traversed + length l <= length ns)%nat -> (length l <= fuel)%nat ->
  verify_chain fuel idx ns b traversed prev p = Ok tt.
Proof.
  revert traversed prev p l. induction fuel as [|fuel IH]; intros traversed prev p [|[i [s e]] l]; cbn [chain length verify_chain]; intros Hc Hs Hprev Ht Hf; try lia.
  - subst. by rewrite decide_True.
  - subst. by rewrite decide_True.
  - destruct Hc as [-> (next & Hi & Hc)]. rewrite decide_False by (by eapply link_not_none). rewrite Nat2Z.id, Hi. cbn [node_start node_end node_next].
    apply separated_cons in Hs as (Hse & Hgap & Hs). unfold gap in Hgap. cbn [fst snd] in *. rewrite decide_False by lia.
    assert (Hp : (match prev with Some end_ => bool_decide (s <= end_) | None => false end) = false).
    { destruct prev as [e0|]; [|done]. apply bool_decide_eq_false. pose proof (Hprev e0 (i, (s, e)) eq_refl ltac:(by left)). cbn in *. lia. }
    rewrite Hp, decide_False by lia. apply (IH _ _ _ l); [done..| |lia|lia]. intros e1 x [= <-] Hx. by apply Hgap.
Qed.

Lemma union_verify_ok idx n u L : union_ok n u L -> length (block_ids idx) = n -> union_verify idx u = Ok tt.
Proof.
  intros Hu Hn. unfold union_verify. rewrite decide_False by (intros Hne; apply Hne; by rewrite (uo_heads _ _ _ Hu)). apply foldM_checks. intros [b p] Hb%elem_of_enumerate. cbn [fst snd].
  pose proof (uo_chain _ _ _ Hu b p Hb) as Hc. assert (Hs : separated (L b)) by (apply (uo_separated _ _ _ Hu); rewrite <- (uo_heads _ _ _ Hu); eauto with index).
  pose proof (chain_length _ _ _ _ Hs Hc). eapply verify_chain_ok; [apply (uo_nodes _ _ _ Hu)|done|done|done|lia|lia].
Qed.

(** A block is free exactly when its list is empty. *)
Lemma head_free n u L b p : union_ok n u L -> heads u !! b = Some p -> p = NONE <-> forall q, ~ occupied (L b) q.
Proof.
  intros Hu Hp. pose proof (uo_chain _ _ _ Hu b p Hp) as Hc. assert (Hb : (b < n)%nat) by (rewrite <- (uo_heads _ _ _ Hu); eauto with index).
  destruct (L b) as [|[i [s e]] l] eqn:Hl; cbn [chain] in Hc; [subst; split; [intros _ q; apply occupied_nil|done]|]. destruct Hc as [-> (next & Hi & _)]. split.
  - intros Hn. apply lookup_lt_Some in Hi. pose proof (uo_nodes _ _ _ Hu). lia.
  - intros Hno. destruct (Hno s). exists (i, (s, e)). split; [by left|]. pose proof (proj2 (uo_separated _ _ _ Hu b Hb) (i, (s, e))) as Hse. rewrite Hl in Hse. unfold in_cell. cbn in *. specialize (Hse ltac:(by left)). lia.
Qed.
