(* ===== verification/SlotMatrix.v ===== *)
(** * SlotMatrix: the matrix of stack slots

    The index of blocks is a bijection, a validated range is a sorted list of
    disjoint segments, and every slot of a matrix holds exactly the points of
    the ranges assigned to it. Last, what the operations promise about the
    matrices a client can build, for any order of insertion. *)

From stdpp Require Import functions.
From S2P Require Import Prelude Order Specs SlotUnion SlotUnionFacts.

(** ** The index *)

(** Rows and block ids correspond. *)
Definition index_ok (n : nat) (blocks : gmap Z nat) (ids : list Z) : Prop :=
  length ids = n /\ forall b i, blocks !! b = Some i <-> ids !! i = Some b.

Definition cfg_ok (cfg : NormalizedCfg) : Prop := exists ids, index_ok (length (cfg_successors cfg)) (cfg_block_index cfg) ids.

Lemma index_ok_size n blocks ids : index_ok n blocks ids -> size blocks = n.
Proof.
  intros [Hlen Hi]. assert (Hnd : NoDup ids).
  { apply NoDup_alt. intros i j b Hb Hc. apply Hi in Hb, Hc. congruence. }
  assert (Heq : blocks = list_to_map (zip ids (seq 0 n))).
  { apply map_eq. intros b. apply option_eq. intros i. rewrite <- elem_of_list_to_map by (rewrite fst_zip by (rewrite length_seq; lia); done). rewrite Hi, list_elem_of_lookup. split.
    - intros Hb. exists i. apply lookup_zip_with_Some. exists b, i. split_and!; [done..|]. apply lookup_seq. split; [done|]. rewrite <- Hlen. eauto with index.
    - intros [k Hk]. apply lookup_zip_with_Some in Hk as (? & ? & [= <- <-] & Hb & [-> _]%lookup_seq). done. }
  rewrite Heq, map_size_list_to_map by (rewrite fst_zip by (rewrite length_seq; lia); done). rewrite length_zip_with, length_seq. lia.
Qed.

Lemma IntervalIndex_new_spec cfg :
  yields (fun e => rule e = CFG_SHAPE /\ ~ cfg_ok cfg) (fun idx => block_index idx = cfg_block_index cfg /\ index_ok (length (cfg_successors cfg)) (block_index idx) (block_ids idx)) (IntervalIndex_new cfg).
Proof.
  unfold IntervalIndex_new. set (n := length (cfg_successors cfg)). set (blocks := cfg_block_index cfg). case_decide as Hsize.
  { split; [done|]. intros [ids Hids]. apply Hsize. by eapply index_ok_size. }
  eapply yields_bind.
  - apply (yields_foldM _ (fun pre rows => length rows = n /\ forall b i, rows !! i = Some (Some b) <-> (b, i) ∈ pre)).
    + split; [by rewrite length_replicate|]. intros b i. split; [by intros [? _]%lookup_replicate|by intros ?%not_elem_of_nil].
    + intros pre [b i] post rows Heq [Hlen Hrows]. unfold name_block. cbn [fst snd].
      assert (Hb : blocks !! b = Some i) by (apply elem_of_map_to_list; fold blocks in Heq; rewrite Heq; set_solver).
      destruct (rows !! i) as [[c|]|] eqn:Hi.
      * split; [done|]. intros (ids & _ & Hids). apply Hrows in Hi as Hc. assert (Hcb : blocks !! c = Some i) by (apply elem_of_map_to_list; fold blocks in Heq; rewrite Heq; set_solver).
        assert (c = b) as ->. { apply Hids in Hb, Hcb. congruence. }
        pose proof (NoDup_map_to_list blocks) as Hnd. fold blocks in Heq. rewrite Heq in Hnd. apply NoDup_app in Hnd as (_ & Hdis & _). apply (Hdis (b, i) Hc). by left.
      * cbn [yields]. split; [by rewrite length_insert|]. intros c j. rewrite elem_of_app, list_elem_of_singleton, <- Hrows. assert (Hil : (i < length rows)%nat) by eauto with index. destruct (decide (j = i)) as [->|Hne].
        -- rewrite list_lookup_insert_eq, Hi by done. naive_solver.
        -- rewrite list_lookup_insert_ne by done. naive_solver.
      * split; [done|]. intros (ids & Hl & Hids). apply Hids in Hb. apply lookup_ge_None in Hi. apply lookup_lt_Some in Hb. unfold n in Hlen. lia.
  - intros rows [Hlen Hrows]. assert (Hall : forall b i, rows !! i = Some (Some b) <-> blocks !! b = Some i) by (intros b i; by rewrite Hrows, elem_of_map_to_list).
    destruct (mapM id rows) as [ids|] eqn:Hm; cbn [ok_or mbind result_bind yields].
    + split; [done|]. apply mapM_Some in Hm. cbn [block_index block_ids]. split; [rewrite <- Hlen; symmetry; by eapply Forall2_length|]. intros b i.  rewrite <- Hall. split.
      * intros Hi. destruct (Forall2_lookup_l _ _ _ _ _ Hm Hi) as (c & Hc & Hbc). cbn in Hbc. congruence.
      * intros Hi. destruct (Forall2_lookup_r _ _ _ _ _ Hm Hi) as (o & Ho & Hbo). cbn in Hbo. congruence.
    + split; [done|]. intros (ids & Hl & Hids). apply mapM_None, Exists_exists in Hm as (o & [i Hi]%list_elem_of_lookup & Ho). cbn in Ho. subst o.
      in_range ids i as b Hb; [fold n in Hl; rewrite Hl, <- Hlen; eauto with index|]. apply Hids, Hall in Hb. congruence.
Qed.

(** ** Ranges *)

Definition seg_before (s t : LiveSegment) : Prop := seg_block s < seg_block t \/ (seg_block s = seg_block t /\ seg_end s <= seg_start t).

(** Nonempty segments of known blocks, disjoint and in order. *)
Record segments_ok (blocks : gmap Z nat) (segments : list LiveSegment) : Prop := {
  so_segment s : s ∈ segments -> seg_start s < seg_end s /\ is_Some (blocks !! seg_block s);
  so_sorted : StronglySorted seg_before segments }.

(** The points of the program that a list of segments covers. *)
Definition covers (segments : list LiveSegment) (b p : Z) : Prop := exists s, s ∈ segments /\ seg_block s = b /\ in_segment s p.

Section range.
Context (arc : Arc IntervalIndex).
Abbreviation idx := (arc_value arc).
Context (n : nat) (Hidx : index_ok n (block_index idx) (block_ids idx)).

(** A range made for the index [arc]. *)
Record range_ok (segments : list LiveSegment) (r : SparseRange) : Prop := {
  ro_index : range_index r = arc;
  ro_segments : range_segments r = segments;
  ro_rows : Forall2 (fun s i => block_index idx !! seg_block s = Some i) segments (range_blocks r);
  ro_ok : segments_ok (block_index idx) segments }.

Lemma pair_lt_Z (a b c d : Z) : ~ (a, b) ⪯ (c, d) <-> c < a \/ (c = a /\ d < b).
Proof. rewrite pair_le. lia. Qed.

Lemma index_make_range_spec segments :
  yields (fun e => ~ segments_ok (block_index idx) segments) (range_ok segments) (index_make_range arc segments).
Proof.
  unfold index_make_range. eapply yields_bind.
  - apply (yields_foldM _ (fun pre bp => Forall2 (fun s i => block_index idx !! seg_block s = Some i) pre bp.1 /\ segments_ok (block_index idx) pre /\ bp.2 = last pre)).
    + split; [constructor|]. split; [|done]. split; [by intros s ?%not_elem_of_nil|constructor].
    + intros pre s post [rows prior] Heq (Hrows & [Hseg Hsort] & Hprior). cbn [fst snd] in *. unfold check_segment. cbn [snd fst].
      assert (Hin : s ∈ segments) by (rewrite Heq; set_solver). case_decide as Hse; [intros [Hok _]; destruct (Hok s Hin); lia|].
      destruct (block_index idx !! seg_block s) as [i|] eqn:Hi; [|intros [Hok _]; destruct (Hok s Hin) as [_ Hs]; rewrite Hi in Hs; by destruct Hs].
      rewrite decide_False by (intros Hne; apply Hne; by apply Hidx).
      assert (Hdone : (forall t, last pre = Some t -> seg_before t s) -> yields (fun e : IntervalUnionError => ~ segments_ok (block_index idx) segments)
        (fun bp : list nat * option LiveSegment => Forall2 (fun s i => block_index idx !! seg_block s = Some i) (pre ++ [s]) bp.1 /\ segments_ok (block_index idx) (pre ++ [s]) /\ bp.2 = last (pre ++ [s])) (Ok (rows ++ [i], Some s))).
      { intros Hlast. cbn [yields fst snd]. split; [by apply Forall2_app; [|repeat constructor]|]. split; [|by rewrite last_snoc]. split.
        - intros t [Ht| ->%list_elem_of_singleton]%elem_of_app; [by apply Hseg|]. split; [lia|by exists i].
        - apply StronglySorted_app. split_and!; [|done|repeat constructor]. intros t x Ht ->%list_elem_of_singleton.
          destruct (last pre) as [z|] eqn:Hz; [|apply last_None in Hz; subst pre; by apply not_elem_of_nil in Ht]. specialize (Hlast z eq_refl). apply last_Some in Hz as [k ->].
          apply elem_of_app in Ht as [Ht| ->%list_elem_of_singleton]; [|done]. apply StronglySorted_app in Hsort as (Htz & _). specialize (Htz t z Ht ltac:(by left)).
          pose proof (proj1 (Hseg z ltac:(set_solver))). unfold seg_before in *. lia. }
      destruct prior as [t|]; [|apply Hdone; intros t Ht; congruence]. symmetry in Hprior. unfold not_after, seg_overlaps.
      assert (Hbad : ~ seg_before t s -> ~ segments_ok (block_index idx) segments).
      { intros Hno [_ Hs]. apply Hno. apply last_Some in Hprior as [k ->]. rewrite Heq, <- app_assoc in Hs. apply StronglySorted_app in Hs as (_ & _ & Hs). cbn in Hs. apply StronglySorted_inv in Hs as [_ Hs]. rewrite Forall_forall in Hs. apply Hs. by left. }
      pose proof (proj1 (Hseg t ltac:(apply last_Some in Hprior as [k ->]; set_solver))) as Ht.
      case_bool_decide as Hle; [apply Hbad; apply pair_le in Hle; unfold seg_before; lia|]. apply pair_lt_Z in Hle.
      destruct (_ && _) eqn:Hov; [apply Hbad|apply Hdone; intros t' Ht'; replace t' with t by congruence].
      * rewrite !andb_true_iff, !bool_decide_eq_true in Hov. unfold seg_before. lia.
      * rewrite !andb_false_iff, !bool_decide_eq_false in Hov. unfold seg_before. lia.
  - intros [rows prior] (Hrows & Hok & _). by split.
Qed.

Section made.
Context (segments : list LiveSegment) (r : SparseRange) (Hr : range_ok segments r).

Lemma range_iter_ok {E} : range_iter r = Ok (zip segments (range_blocks r)) :> result E _.
Proof. unfold range_iter. rewrite (ro_segments _ _ Hr), decide_True by (by eapply Forall2_length, ro_rows). done. Qed.

Lemma range_member s i : (s, i) ∈ zip segments (range_blocks r) -> s ∈ segments /\ block_index idx !! seg_block s = Some i.
Proof.
  intros [k Hk]%list_elem_of_lookup. apply lookup_zip_with_Some in Hk as (? & ? & [= <- <-] & Hs & Hi). split; [by eapply list_elem_of_lookup_2|].
  destruct (Forall2_lookup_l _ _ _ _ _ (ro_rows _ _ Hr) Hs) as (j & Hj & ?). congruence.
Qed.

Lemma range_row i b : block_index idx !! b = Some i -> (i < n)%nat.
Proof. intros Hb. destruct Hidx as [Hl Hi]. apply Hi in Hb. rewrite <- Hl. eauto with index. Qed.

Lemma range_pairs : pairs_ok n (zip segments (range_blocks r)).
Proof.
  destruct Hr as [_ _ Hrows [Hseg Hsort]]. split.
  - intros [s i] [Hs Hi]%range_member. split; [by eapply range_row|by apply Hseg].
  - clear Hr Hseg. induction Hrows as [|s i l rows Hi Hrows IH]; [constructor|]. cbn. apply StronglySorted_inv in Hsort as [Hsort Hall]. rewrite Forall_forall in Hall. constructor; [by apply IH|].
    rewrite Forall_forall. intros [t j] [k Hk]%list_elem_of_lookup. apply lookup_zip_with_Some in Hk as (? & ? & [= <- <-] & Ht & Hj). unfold pair_before. cbn. intros <-.
    destruct (Forall2_lookup_l _ _ _ _ _ Hrows Ht) as (j & Hj' & Htj). assert (j = i) as -> by congruence. pose proof (Hall t (list_elem_of_lookup_2 _ _ _ Ht)) as Hb.
    assert (seg_block s = seg_block t). { destruct Hidx as [_ Hix]. apply Hix in Hi, Htj. congruence. } unfold seg_before in Hb. lia.
Qed.

Lemma range_holds i b p : block_index idx !! b = Some i -> holds (zip segments (range_blocks r)) i p <-> covers segments b p.
Proof.
  intros Hb. split.
  - intros ([s j] & [Hs Hj]%range_member & Hij & Hp). cbn in *. subst j. exists s. split_and!; [done| |done]. destruct Hidx as [_ Hix]. apply Hix in Hb, Hj. congruence.
  - intros (s & [k Hk]%list_elem_of_lookup & <- & Hp). destruct (Forall2_lookup_l _ _ _ _ _ (ro_rows _ _ Hr) Hk) as (j & Hj & Hsj). exists (s, j). split_and!; [|cbn; congruence|done].
    apply (list_elem_of_lookup_2 _ k). apply lookup_zip_with_Some. by exists s, j.
Qed.
End made.
End range.

(** ** One slot and a range *)

Lemma list_elem_of_enumerate_snd {A} (l : list A) (P : nat -> Prop) `{!forall ia : nat * A, Decision (P ia.1)} x :
  x ∈ (filter (fun ia : nat * A => P ia.1) (enumerate l)).*2 <-> exists i, P i /\ l !! i = Some x.
Proof.
  rewrite list_elem_of_fmap. split.
  - intros ([i y] & -> & [Hp Hi%elem_of_enumerate]%list_elem_of_filter). eauto.
  - intros (i & Hp & Hi). exists (i, x). split; [done|]. apply list_elem_of_filter. split; [done|]. by apply elem_of_enumerate.
Qed.

Section slot.
Context (arc : Arc IntervalIndex) (n : nat) (Hidx : index_ok n (block_index (arc_value arc)) (block_ids (arc_value arc))).
Context (segments : list LiveSegment) (r : SparseRange) (Hr : range_ok arc segments r).
Abbreviation pairs := (zip segments (range_blocks r)).

(** Testing one segment first changes nothing. *)
Lemma interferes_with_hint_spec {E} u L hint : union_ok n u L -> (hint < length segments)%nat ->
  exists v, interferes_indexed_with_hint u r hint = Ok v :> result E _ /\ (v = true <-> exists b p, holds pairs b p /\ occupied (L b) p).
Proof.
  intros Hu Hh. pose proof (range_pairs arc n Hidx segments r Hr) as Hp. unfold interferes_indexed_with_hint. rewrite (ro_segments _ _ _ Hr), (range_iter_ok arc segments r Hr).
  in_range segments hint as s Hs. destruct (Forall2_lookup_l _ _ _ _ _ (ro_rows _ _ _ Hr) Hs) as (i & Hi & Hsi). rewrite Hs, Hi. cbn [expect mbind result_bind].
  assert (Hpair : pairs !! hint = Some (s, i)) by (apply lookup_zip_with_Some; by exists s, i). assert (Hin : (s, i) ∈ pairs) by (by eapply list_elem_of_lookup_2).
  destruct (po_row _ _ Hp _ Hin) as [Hin' Hse]. cbn [fst snd] in *. destruct (interferes_segment_spec (E:=E) n u L Hu s i Hin' Hse) as (v & -> & Hv). cbn [mbind result_bind]. destruct v.
  - exists true. split; [done|]. split; [|done]. intros _. destruct (proj1 Hv eq_refl) as (p & ? & ?). exists i, p. split; [|done]. by exists (s, i).
  - set (rest := (filter (fun isb : nat * (LiveSegment * nat) => isb.1 <> hint) (enumerate pairs)).*2).
    assert (Hrest : forall x, x ∈ rest <-> exists j, j <> hint /\ pairs !! j = Some x) by (intros x; apply (list_elem_of_enumerate_snd pairs (fun j => j <> hint))).
    destruct (any_interferes_spec (E:=E) n u L Hu rest) as (w & -> & Hw).
    { intros x (j & _ & Hj)%Hrest. apply (po_row _ _ Hp). by eapply list_elem_of_lookup_2. }
    exists w. split; [done|]. rewrite Hw. split; intros (b & p & (x & Hx & Hxb & Hxp) & Ho).
    + apply Hrest in Hx as (j & _ & Hj). exists b, p. split; [|done]. exists x. split; [by eapply list_elem_of_lookup_2|done].
    + apply list_elem_of_lookup in Hx as [j Hj]. destruct (decide (j = hint)) as [->|Hne].
      * assert (x = (s, i)) as -> by congruence. cbn in *. subst b. assert (false = true) by (apply Hv; eauto). done.
      * exists b, p. split; [|done]. exists x. split; [|done]. apply Hrest. eauto.
Qed.

Lemma insert_indexed_spec u L bundle : union_ok n u L ->
  match insert_indexed u bundle r with
  | Ok u' => segments <> [] /\ (forall b p, holds pairs b p -> ~ occupied (L b) p) /\ (length (nodes u') <= length (nodes u) + length segments)%nat /\
      exists L', union_ok n u' L' /\ forall b p, occupied (L' b) p <-> occupied (L b) p \/ holds pairs b p
  | Err e => bundles e = [bundle] /\ ((rule e = EMPTY_ASSIGNMENT /\ segments = []) \/ (rule e = INTERFERENCE /\ exists b p, holds pairs b p /\ occupied (L b) p) \/
      (rule e = DYNAMIC_NODE_RANGE /\ NONE < Z.of_nat (length (nodes u)) + Z.of_nat (length segments)))
  | Panic => False
  end.
Proof.
  intros Hu. pose proof (range_pairs arc n Hidx segments r Hr) as Hp. unfold insert_indexed, interferes_indexed. rewrite (ro_segments _ _ _ Hr), (range_iter_ok arc segments r Hr). cbn [mbind result_bind].
  case_decide as Hnil; [cbn; auto|]. destruct (any_interferes_spec (E:=IntervalUnionError) n u L Hu pairs (po_row _ _ Hp)) as (v & -> & Hv). cbn [mbind result_bind]. destruct v.
  { cbn. split; [done|]. right. left. split; [done|]. by apply Hv. }
  case_decide as Hlen; [cbn; auto|]. assert (Hfree : forall b p, holds pairs b p -> ~ occupied (L b) p) by (intros b p Hh Ho; assert (false = true) by (apply Hv; eauto); done).
  assert (Hl : length pairs = length segments) by (rewrite length_zip_with, <- (Forall2_length _ _ _ (ro_rows _ _ _ Hr)); lia).
  destruct (insert_all_spec (E:=IntervalUnionError) n pairs u L Hu Hp Hfree) as (u' & L' & -> & Hu' & Hn & Ho); [rewrite Hl; lia|]. rewrite Hl in Hn. eauto 10.
Qed.
End slot.

(** ** Rows a slot comes to occupy *)

(** Row [i] of [u] is empty. *)
Definition row_free (u : DynamicSlotUnion) (i : nat) : Prop := heads u !! i = Some NONE.
#[global] Instance row_free_dec u i : Decision (row_free u i).
Proof. unfold row_free. apply _. Defined.

Section rows.
Context (blocks : gmap Z nat) (n : nat) (ids : list Z) (Hidx : index_ok n blocks ids).

Lemma same_row b c i : blocks !! b = Some i -> blocks !! c = Some i -> b = c.
Proof. destruct Hidx as [_ Hi]. intros Hb%Hi Hc%Hi. congruence. Qed.

(** [free] is what the loop tests for each row. *)
Lemma newly_occupied_spec {E} us slot (free : nat -> bool) segments rows previous :
  Forall2 (fun s i => blocks !! seg_block s = Some i) segments rows -> StronglySorted (fun s t => seg_block s <= seg_block t) segments ->
  (forall pb, previous = Some pb -> exists b, blocks !! b = Some pb /\ forall s, s ∈ segments -> b <= seg_block s) ->
  (forall i, i ∈ rows -> (if decide (slot = length us) then Ok true else u ← expect (us !! slot); head ← expect (heads u !! i); Ok (bool_decide (head = NONE))) = Ok (free i) :> result E bool) ->
  exists newly, newly_occupied us slot previous rows = Ok newly :> result E _ /\ NoDup newly /\ forall i, i ∈ newly <-> i ∈ rows /\ free i = true /\ previous <> Some i.
Proof.
  intros Hrows. revert previous. induction Hrows as [|s i segments rows Hi Hrows IH]; intros previous Hsort Hprev Hfree; cbn [newly_occupied].
  { exists []. split; [done|]. split; [constructor|]. intros i. split; [by intros ?%not_elem_of_nil|]. by intros [?%not_elem_of_nil _]. }
  apply StronglySorted_inv in Hsort as [Hsort Hall]. rewrite Forall_forall in Hall. destruct (decide (previous = Some i)) as [Hp|Hp].
  - subst previous. destruct (IH (Some i)) as (newly & Hn & Hnd & Hin); [done| |intros; apply Hfree; by right|].
    { intros pb [= <-]. exists (seg_block s). split; [done|]. done. }
    exists newly. split; [done|]. split; [done|]. intros j. rewrite Hin, elem_of_cons. naive_solver.
  - rewrite (Hfree i) by (by left). cbn [mbind result_bind]. destruct (IH (Some i)) as (newly & -> & Hnd & Hin); [done| |intros; apply Hfree; by right|].
    { intros pb [= <-]. exists (seg_block s). split; [done|]. done. }
    cbn [mbind result_bind]. eexists. split; [done|].
    assert (Hlater : forall j, j ∈ rows -> j <> i -> previous <> Some j).
    { intros j [k Hj]%list_elem_of_lookup Hji Hpj. destruct (Hprev j Hpj) as (b & Hb & Hle). destruct (Forall2_lookup_r _ _ _ _ _ Hrows Hj) as (t & Ht & Htj). pose proof (list_elem_of_lookup_2 _ _ _ Ht) as Htin.
      pose proof (same_row _ _ _ Hb Htj) as ->. pose proof (Hle s ltac:(by left)). pose proof (Hall t Htin). assert (seg_block s = seg_block t) by lia. congruence. }
    assert (Hmem : forall j, j ∈ (if free i then i :: newly else newly) <-> j ∈ i :: rows /\ free j = true /\ previous <> Some j).
    { intros j. destruct (free i) eqn:Hfi.
      - rewrite !elem_of_cons, Hin. split.
        + intros [->|(Hj & Hf & Hpj)]; [by auto|]. split; [by right|]. split; [done|]. apply Hlater; [done|congruence].
        + intros ([->|Hj] & Hf & Hpj); [by left|]. destruct (decide (j = i)) as [->|]; [by left|]. right. split_and!; [done..|congruence].
      - rewrite elem_of_cons, Hin. split.
        + intros (Hj & Hf & Hpj). split; [by right|]. split; [done|]. apply Hlater; [done|congruence].
        + intros ([->|Hj] & Hf & Hpj); [congruence|]. split_and!; [done..|congruence]. }
    split; [|done]. destruct (free i); [|done]. apply NoDup_cons. split; [|done]. rewrite Hin. by intros (_ & _ & ?).
Qed.
End rows.

(** How many slots occupy a row. *)
Definition slots_at (us : list DynamicSlotUnion) (i : nat) : Z := Z.of_nat (length (filter (fun u => ~ row_free u i) us)).

Lemma slots_at_bound us i : slots_at us i <= Z.of_nat (length us).
Proof. unfold slots_at. pose proof (length_filter (fun u => ~ row_free u i) us). lia. Qed.

Lemma slots_at_app us vs i : slots_at (us ++ vs) i = slots_at us i + slots_at vs i.
Proof. unfold slots_at. rewrite filter_app, length_app. lia. Qed.

Lemma slots_at_one u i : slots_at [u] i = if decide (row_free u i) then 0 else 1.
Proof. unfold slots_at. cbn [filter list_filter]. unfold filter, list_filter. destruct (decide (~ row_free u i)), (decide (row_free u i)); cbn; try done; tauto. Qed.

Lemma slots_at_insert us slot u u' i : us !! slot = Some u -> slots_at (<[slot := u']> us) i + slots_at [u] i = slots_at us i + slots_at [u'] i.
Proof.
  intros Hs. apply list_elem_of_split_length in Hs as (l1 & l2 & -> & Hlen).
  assert (Heq : <[slot := u']> (l1 ++ u :: l2) = l1 ++ [u'] ++ l2) by (rewrite insert_app_r_alt by lia; rewrite Hlen, Nat.sub_diag; done).
  rewrite Heq. change (u :: l2) with ([u] ++ l2). rewrite !slots_at_app. lia.
Qed.

Lemma count_blocks_spec bundle newly m : NoDup newly -> (forall i, i ∈ newly -> (i < length (block_slot_counts m))%nat) ->
  match count_blocks bundle newly m with
  | (m', Ok _) => index m' = index m /\ unions m' = unions m /\ assignments m' = assignments m /\ length (block_slot_counts m') = length (block_slot_counts m) /\
      forall i c, block_slot_counts m !! i = Some c -> block_slot_counts m' !! i = Some (if decide (i ∈ newly) then c + 1 else c)
  | (_, Err e) => rule e = BLOCK_SLOT_COUNT /\ bundles e = [bundle] /\ exists i c, i ∈ newly /\ block_slot_counts m !! i = Some c /\ NONE <= c
  | (_, Panic) => False
  end.
Proof.
  revert m. induction newly as [|i newly IH]; intros m Hnd Hlt; cbn [count_blocks].
  { cbn. split_and!; [done..|]. intros j c Hj. rewrite Hj. by rewrite decide_False by apply not_elem_of_nil. }
  apply NoDup_cons in Hnd as [Hi Hnd]. in_range (block_slot_counts m) i as c Hc; [apply Hlt; by left|]. unfold mbind, SE_bind, count_block. rewrite Hc. case_decide as Hmax; cbn [fst snd]; cycle 1.
  { split; [done|]. split; [done|]. exists i, c. split; [by left|]. split; [done|lia]. }
  set (m1 := Matrix (index m) (unions m) (assignments m) (<[i := c + 1]> (block_slot_counts m))). specialize (IH m1 Hnd). cbn [block_slot_counts m1 index unions assignments] in IH. rewrite length_insert in IH.
  specialize (IH ltac:(intros; apply Hlt; by right)). destruct (count_blocks bundle newly m1) as [m' [t|e|]]; [|..|done].
  - destruct IH as (? & ? & ? & ? & Hcounts). split_and!; [done..|]. intros j d Hj. destruct (decide (j = i)) as [->|Hne].
    + rewrite (Hcounts i (c + 1)) by (apply list_lookup_insert_eq; eauto with index). rewrite (decide_False (P := i ∈ newly)) by done. rewrite decide_True by (by left). congruence.
    + rewrite (Hcounts j d) by (by rewrite list_lookup_insert_ne). do 2 case_decide; set_solver.
  - destruct IH as (? & ? & j & d & Hj & Hd & Hle). split; [done|]. split; [done|]. exists j, d. split; [by right|]. split; [|done]. rewrite list_lookup_insert_ne in Hd; [done|]. by intros ->.
Qed.

(** ** The matrix *)

Section matrix.
Context (arc : Arc IntervalIndex) (n : nat) (Hidx : index_ok n (block_index (arc_value arc)) (block_ids (arc_value arc))).
Abbreviation blocks := (block_index (arc_value arc)).
Implicit Types (m : DynamicIntervalMatrix) (R : gmap Z (list LiveSegment)) (bundle b p : Z) (slot i : nat) (segments : list LiveSegment) (r : SparseRange).

(** The points of the ranges [R] that are assigned to a slot. *)
Definition slot_covers m R slot b p : Prop := exists bundle segments, assignments m !! bundle = Some slot /\ R !! bundle = Some segments /\ covers segments b p.

Definition total R : nat := map_fold (fun _ segments k => length segments + k)%nat 0%nat R.

Lemma total_insert R bundle segments : R !! bundle = None -> total (<[bundle := segments]> R) = (length segments + total R)%nat.
Proof. intros Hb. unfold total. apply (map_fold_insert_L (fun _ (s : list LiveSegment) k => length s + k)%nat); [intros; lia|done]. Qed.

(** [R] gives the range of every bundle that is assigned. *)
Record matrix_ok m R : Prop := {
  mo_index : index m = arc;
  mo_domain bundle : is_Some (assignments m !! bundle) <-> is_Some (R !! bundle);
  mo_slot bundle slot : assignments m !! bundle = Some slot -> (slot < length (unions m))%nat;
  mo_ranges bundle segments : R !! bundle = Some segments -> segments_ok blocks segments /\ segments <> [];
  mo_used slot : (slot < length (unions m))%nat -> exists bundle, assignments m !! bundle = Some slot;
  mo_union slot u : unions m !! slot = Some u -> (length (nodes u) <= total R)%nat /\
    exists L, union_ok n u L /\ forall b i p, blocks !! b = Some i -> occupied (L i) p <-> slot_covers m R slot b p;
  mo_apart bundle bundle' slot segments segments' b p : bundle <> bundle' -> assignments m !! bundle = Some slot -> assignments m !! bundle' = Some slot ->
    R !! bundle = Some segments -> R !! bundle' = Some segments' -> covers segments b p -> ~ covers segments' b p;
  mo_rows : length (block_slot_counts m) = n;
  mo_counts i c : block_slot_counts m !! i = Some c -> c = slots_at (unions m) i }.

Lemma covers_known segments b p : segments_ok blocks segments -> covers segments b p -> is_Some (blocks !! b).
Proof. intros [Hs _] (s & Hin & <- & _). by apply Hs. Qed.

(** Points of a range, in rows and in blocks. *)
Lemma meets_slot m R slot u L segments r : matrix_ok m R -> range_ok arc segments r -> unions m !! slot = Some u -> union_ok n u L ->
  (forall b i p, blocks !! b = Some i -> occupied (L i) p <-> slot_covers m R slot b p) ->
  (exists i p, holds (zip segments (range_blocks r)) i p /\ occupied (L i) p) <-> exists b p, covers segments b p /\ slot_covers m R slot b p.
Proof.
  intros Hm Hr Hu HL Hocc. split.
  - intros (i & p & Hh & Ho). destruct Hh as ([s j] & Hin & Hij & Hp). cbn in *. subst j. destruct (range_member arc segments r Hr s i Hin) as [_ Hi]. exists (seg_block s), p.
    split; [|by apply (Hocc _ i)]. apply (range_holds arc n Hidx segments r Hr i (seg_block s) p Hi). by exists (s, i).
  - intros (b & p & Hc & Hs). destruct (covers_known segments b p (ro_ok _ _ _ Hr) Hc) as [i Hi]. exists i, p. split; [by apply (range_holds arc n Hidx segments r Hr i b p Hi)|by apply (Hocc b i)].
Qed.

(** What one more range adds. *)
Lemma slot_covers_insert m R m' bundle slot segments s b p : R !! bundle = None -> assignments m !! bundle = None -> assignments m' = <[bundle := slot]> (assignments m) ->
  slot_covers m' (<[bundle := segments]> R) s b p <-> slot_covers m R s b p \/ (s = slot /\ covers segments b p).
Proof.
  intros HR Ha Heq. unfold slot_covers. rewrite Heq. split.
  - intros (c & l & Hc & Hl & Hp). destruct (decide (c = bundle)) as [->|Hne].
    + rewrite lookup_insert_eq in Hc. rewrite lookup_insert_eq in Hl. simplify_eq. by right.
    + rewrite lookup_insert_ne in Hc by done. rewrite lookup_insert_ne in Hl by done. left. eauto.
  - intros [(c & l & Hc & Hl & Hp)|[-> Hp]].
    + assert (c <> bundle) by congruence. exists c, l. by rewrite !lookup_insert_ne.
    + exists bundle, segments. by rewrite !lookup_insert_eq.
Qed.

Lemma matrix_new_ok fresh cfg m : matrix_new fresh cfg = Ok m -> arc = index m -> n = length (cfg_successors cfg) -> matrix_ok m ∅.
Proof.
  intros Hnew -> ->. unfold matrix_new in Hnew. destruct (IntervalIndex_new cfg) as [idx|e|]; cbn in Hnew; [|done..]. injection Hnew as <-. split; cbn.
  - done.
  - intros bundle. by rewrite !lookup_empty.
  - intros bundle slot. by rewrite lookup_empty.
  - intros bundle segments. by rewrite lookup_empty.
  - lia.
  - intros slot u. by rewrite lookup_nil.
  - intros bundle bundle' slot segments segments' b p _. by rewrite lookup_empty.
  - by rewrite length_replicate.
  - by intros i c [-> _]%lookup_replicate.
Qed.

Section made.
Context (m : DynamicIntervalMatrix) (R : gmap Z (list LiveSegment)) (Hm : matrix_ok m R) (segments : list LiveSegment) (r : SparseRange) (Hr : range_ok arc segments r).

Lemma validate_token_ok : validate_token m r = Ok tt.
Proof. unfold validate_token. by rewrite (mo_index _ _ Hm), (ro_index _ _ _ Hr), decide_True. Qed.

Lemma row_bound i : i ∈ range_blocks r -> (i < n)%nat.
Proof.
  intros [k Hk]%list_elem_of_lookup. destruct (Forall2_lookup_r _ _ _ _ _ (ro_rows _ _ _ Hr) Hk) as (s & _ & Hs). by eapply (range_row arc n Hidx).
Qed.

Lemma last_max_bound keys i k : last_max keys = Some (i, k) -> (i < length keys)%nat.
Proof.
  revert i k. induction keys as [|x keys IH]; intros i k; cbn; [done|]. destruct (last_max keys) as [[j y]|]; [|intros [= <- <-]; lia].
  specialize (IH j y eq_refl). case_decide; intros [= <- <-]; lia.
Qed.

Lemma first_free_spec {E} hint us k : (hint < length segments)%nat -> (forall j u, us !! j = Some u -> unions m !! (k + j)%nat = Some u) ->
  exists j, first_free us r hint = Ok j :> result E _ /\ (j <= length us)%nat /\
    (forall j', (j' < j)%nat -> exists b p, covers segments b p /\ slot_covers m R (k + j') b p) /\
    ((j < length us)%nat -> forall b p, covers segments b p -> ~ slot_covers m R (k + j) b p).
Proof.
  intros Hh. revert k. induction us as [|u us IH]; intros k Hus; cbn [first_free length].
  { exists 0%nat. split_and!; [done..|lia|lia]. }
  pose proof (Hus 0%nat u eq_refl) as Hu. rewrite Nat.add_0_r in Hu. destruct (mo_union _ _ Hm k u Hu) as (_ & L & HL & Hocc).
  destruct (interferes_with_hint_spec arc n Hidx segments r Hr (E:=E) u L hint HL Hh) as (v & -> & Hv). rewrite (meets_slot m R k u L segments r Hm Hr Hu HL Hocc) in Hv. cbn [mbind result_bind]. destruct v.
  - destruct (IH (S k)) as (j & -> & Hj & Hlow & Hfree). { intros i x Hi. specialize (Hus (S i) x Hi). by rewrite Nat.add_succ_r in Hus. }
    exists (S j). split; [done|]. split; [lia|]. split.
    + intros [|j'] Hj'; [rewrite Nat.add_0_r; by apply Hv|]. rewrite Nat.add_succ_r. apply Hlow. lia.
    + intros Hlt. rewrite Nat.add_succ_r. apply Hfree. lia.
  - exists 0%nat. split; [done|]. split; [lia|]. split; [lia|]. intros _ b p Hc Hs. rewrite Nat.add_0_r in Hs. assert (false = true) by (apply Hv; eauto). done.
Qed.

Lemma first_available_spec : exists slot, first_available_validated m r = Ok slot /\ (slot <= slot_count m)%nat /\
  (segments <> [] -> forall slot', (slot' < slot)%nat -> exists b p, covers segments b p /\ slot_covers m R slot' b p) /\
  ((slot < slot_count m)%nat -> forall b p, covers segments b p -> ~ slot_covers m R slot b p) /\
  (segments = [] -> slot = slot_count m).
Proof.
  unfold first_available_validated. rewrite validate_token_ok. cbn [mbind result_bind].
  assert (Hkeys : exists keys, mapMr (fun block => expect (block_slot_counts m !! block)) (range_blocks r) = Ok keys :> result IntervalUnionError _ /\ length keys = length (range_blocks r)).
  { assert (Hb : forall i, i ∈ range_blocks r -> is_Some (block_slot_counts m !! i)) by (intros i Hi%row_bound; apply lookup_lt_is_Some_2; by rewrite (mo_rows _ _ Hm)).
    induction (range_blocks r) as [|i l IH]; [by exists []|]. cbn [mapMr]. destruct (Hb i) as [c ->]; [by left|]. destruct IH as (keys & -> & Hl); [intros; apply Hb; by right|]. exists (c :: keys). cbn. by rewrite Hl. }
  destruct Hkeys as (keys & -> & Hlen). cbn [mbind result_bind]. pose proof (Forall2_length _ _ _ (ro_rows _ _ _ Hr)) as Hrows.
  destruct (last_max keys) as [[hint k]|] eqn:Hk.
  - apply last_max_bound in Hk. destruct (first_free_spec (E:=IntervalUnionError) hint (unions m) 0) as (slot & -> & Hle & Hlow & Hfree); [lia|done|]. exists slot. split_and!; [done|done|by intros _|done|]. intros Hnil. rewrite Hnil in Hrows. cbn in *. lia.
  - destruct keys as [|k keys]; [|cbn in Hk; by destruct (last_max keys) as [[? ?]|]]. exists (slot_count m). split_and!; [done..| |unfold slot_count; lia|done]. destruct segments; [done|]. cbn in *. lia.
Qed.

Lemma row_free_spec u L i : union_ok n u L -> (i < n)%nat -> row_free u i <-> forall q, ~ occupied (L i) q.
Proof.
  intros Hu Hi. in_range (heads u) i as p Hp; [by rewrite (uo_heads _ _ _ Hu)|]. rewrite <- (head_free n u L i p Hu Hp). unfold row_free. rewrite Hp. split; [by intros [= ->]|by intros ->].
Qed.

(** Whether [slot] has row [i] free. *)
Definition free_row slot i : bool := match unions m !! slot with Some u => bool_decide (row_free u i) | None => true end.

Lemma slot_new b p : ~ slot_covers m R (length (unions m)) b p.
Proof. intros (bundle & s & Ha & _). apply (mo_slot _ _ Hm) in Ha. lia. Qed.

Lemma pairs_row i : i ∈ range_blocks r <-> exists q, holds (zip segments (range_blocks r)) i q.
Proof.
  split.
  - intros [k Hk]%list_elem_of_lookup. destruct (Forall2_lookup_r _ _ _ _ _ (ro_rows _ _ _ Hr) Hk) as (s & Hs & Hsi). pose proof (proj1 (so_segment _ _ (ro_ok _ _ _ Hr) s (list_elem_of_lookup_2 _ _ _ Hs))).
    exists (seg_start s), (s, i). split_and!; [|done|unfold in_segment; cbn; lia]. apply (list_elem_of_lookup_2 _ k), lookup_zip_with_Some. by exists s, i.
  - intros (q & [s j] & Hin & <- & _). cbn. apply list_elem_of_lookup in Hin as [k Hk]. apply lookup_zip_with_Some in Hk as (? & ? & [= <- <-] & _ & Hj). by eapply list_elem_of_lookup_2.
Qed.

(** What [insert_indexed] makes of the union [u] of [slot]. *)
Lemma insert_slot u u' L bundle slot : union_ok n u L -> (length (nodes u) <= total R)%nat ->
  (forall b i p, blocks !! b = Some i -> occupied (L i) p <-> slot_covers m R slot b p) -> insert_indexed u bundle r = Ok u' ->
  segments <> [] /\ (forall b p, covers segments b p -> ~ slot_covers m R slot b p) /\ (length (nodes u') <= length segments + total R)%nat /\
  (exists L', union_ok n u' L' /\ forall b i p, blocks !! b = Some i -> occupied (L' i) p <-> slot_covers m R slot b p \/ covers segments b p) /\
  forall i, (i < n)%nat -> row_free u' i <-> row_free u i /\ i ∉ range_blocks r.
Proof.
  intros Hu Hn Hocc Hins. pose proof (insert_indexed_spec arc n Hidx segments r Hr u L bundle Hu) as Hs. rewrite Hins in Hs. destruct Hs as (Hne & Hfree & Hlen & L' & Hu' & HL').
  split; [done|]. split; [|split; [lia|split]].
  - intros b p Hc Hsc. destruct (covers_known segments b p (ro_ok _ _ _ Hr) Hc) as [i Hi]. apply (Hfree i p); [by apply (range_holds arc n Hidx segments r Hr i b p Hi)|by apply (Hocc b i)].
  - exists L'. split; [done|]. intros b i p Hi. rewrite HL', (Hocc b i p Hi), (range_holds arc n Hidx segments r Hr i b p Hi). done.
  - intros i Hi. rewrite (row_free_spec u' L' i Hu' Hi), (row_free_spec u L i Hu Hi), pairs_row. setoid_rewrite HL'. split; [|by intros [? Hno] q [?|?]; [naive_solver|apply Hno; eauto]].
    intros Hno. split; [intros q Hq; apply (Hno q); by left|]. intros [q Hq]. apply (Hno q). by right.
Qed.

Record occupied_by slot (us : list DynamicSlotUnion) : Prop := {
  ob_nonempty : segments <> [];
  ob_free b p : covers segments b p -> ~ slot_covers m R slot b p;
  ob_length : length us = Nat.max (length (unions m)) (S slot);
  ob_others s : s <> slot -> us !! s = unions m !! s;
  ob_union : exists u, us !! slot = Some u /\ (length (nodes u) <= length segments + total R)%nat /\
    exists L, union_ok n u L /\ forall b i p, blocks !! b = Some i -> occupied (L i) p <-> slot_covers m R slot b p \/ covers segments b p;
  ob_counts i : (i < n)%nat -> slots_at us i = slots_at (unions m) i + if decide (i ∈ range_blocks r /\ free_row slot i = true) then 1 else 0 }.

Lemma union_of slot : (slot < length (unions m))%nat -> exists u L, unions m !! slot = Some u /\ union_ok n u L /\ (length (nodes u) <= total R)%nat /\
  forall b i p, blocks !! b = Some i -> occupied (L i) p <-> slot_covers m R slot b p.
Proof. intros Hs. in_range (unions m) slot as u Hu. destruct (mo_union _ _ Hm slot u Hu) as (Hn & L & HL & Hocc). eauto 10. Qed.

(** A slot refuses a range. *)
Definition refused slot (e : IntervalUnionError) : Prop :=
  (rule e = EMPTY_ASSIGNMENT /\ segments = []) \/ (rule e = INTERFERENCE /\ exists b p, covers segments b p /\ slot_covers m R slot b p) \/
  (rule e = DYNAMIC_NODE_RANGE /\ NONE < Z.of_nat (total R) + Z.of_nat (length segments)).

Lemma refuse_slot u L bundle slot e : union_ok n u L -> (length (nodes u) <= total R)%nat ->
  (forall b i p, blocks !! b = Some i -> occupied (L i) p <-> slot_covers m R slot b p) -> insert_indexed u bundle r = Err e -> refused slot e.
Proof.
  intros Hu Hn Hocc Hins. pose proof (insert_indexed_spec arc n Hidx segments r Hr u L bundle Hu) as Hs. rewrite Hins in Hs. destruct Hs as (_ & [?|[(? & i & p & Hh & Ho)|[? ?]]]); [by left|right; left|right; right; split; [done|lia]].
  split; [done|]. destruct Hh as ([s j] & Hin & Hij & Hp). cbn in *. subst j. destruct (range_member arc segments r Hr s i Hin) as [_ Hi]. exists (seg_block s), p.
  split; [|by apply (Hocc _ i)]. apply (range_holds arc n Hidx segments r Hr i (seg_block s) p Hi). by exists (s, i).
Qed.

Lemma occupy_spec bundle slot : (slot <= length (unions m))%nat -> yields (refused slot) (occupied_by slot) (occupy m bundle slot r).
Proof.
  intros Hslot. unfold occupy. assert (Hn : length (block_ids (arc_value (index m))) = n) by (rewrite (mo_index _ _ Hm); apply Hidx). rewrite Hn. case_decide as Heq.
  - pose proof (union_new_ok n) as Hu. set (L := fun _ : nat => [] : list cell) in *. assert (Hlen : (length (nodes (DynamicSlotUnion_new n)) <= total R)%nat) by (cbn; lia).
    assert (Hocc : forall b i p, blocks !! b = Some i -> occupied (L i) p <-> slot_covers m R slot b p).
    { intros b i p _. split; [by intros ?%occupied_nil|]. intros Hs. rewrite Heq in Hs. by apply slot_new in Hs. }
    destruct (insert_indexed _ bundle r) as [u'|e|] eqn:Hins; cbn [mbind result_bind yields].
    + destruct (insert_slot _ u' L bundle slot Hu Hlen Hocc Hins) as (Hne & Hfree & Hlen' & HL' & Hrow). split; [done|done|rewrite length_app; cbn; lia| | |].
      * intros s Hs. destruct (decide (s < length (unions m))%nat); [by apply lookup_app_l|]. rewrite lookup_app_r by lia. rewrite (lookup_ge_None_2 (unions m) s) by lia. apply lookup_ge_None. cbn. lia.
      * exists u'. split; [|done]. rewrite Heq. by apply list_lookup_middle.
      * intros i Hi. rewrite slots_at_app, slots_at_one. assert (Hfr : free_row slot i = true) by (unfold free_row; rewrite (lookup_ge_None_2 (unions m) slot) by lia; done).
        assert (Hfi : row_free (DynamicSlotUnion_new n) i) by (unfold row_free; cbn; by apply lookup_replicate). specialize (Hrow i Hi). do 2 case_decide; tauto || lia.
    + by eapply refuse_slot.
    + pose proof (insert_indexed_spec arc n Hidx segments r Hr _ L bundle Hu) as Hs. by rewrite Hins in Hs.
  - destruct (union_of slot ltac:(lia)) as (u & L & Hus & Hu & Hlen & Hocc). rewrite Hus. cbn [expect mbind result_bind].
    destruct (insert_indexed u bundle r) as [u'|e|] eqn:Hins; cbn [mbind result_bind yields].
    + destruct (insert_slot u u' L bundle slot Hu Hlen Hocc Hins) as (Hne & Hfree & Hlen' & HL' & Hrow). assert (Hsl : (slot < length (unions m))%nat) by lia. split; [done|done|rewrite length_insert; lia| | |].
      * intros s Hs. by apply list_lookup_insert_ne.
      * exists u'. split; [by apply list_lookup_insert_eq|done].
      * intros i Hi. pose proof (slots_at_insert (unions m) slot u u' i Hus) as Hc. rewrite !slots_at_one in Hc. assert (Hfr : free_row slot i = bool_decide (row_free u i)) by (unfold free_row; by rewrite Hus).
        rewrite Hfr. specialize (Hrow i Hi). revert Hc. case_bool_decide; do 3 case_decide; tauto || lia.
    + by eapply refuse_slot.
    + pose proof (insert_indexed_spec arc n Hidx segments r Hr u L bundle Hu) as Hs. by rewrite Hins in Hs.
Qed.

Lemma newly_spec {E} slot : (slot <= length (unions m))%nat -> exists newly, newly_occupied (unions m) slot None (range_blocks r) = Ok newly :> result E _ /\ NoDup newly /\
  forall i, i ∈ newly <-> i ∈ range_blocks r /\ free_row slot i = true.
Proof.
  intros Hslot. destruct (newly_occupied_spec (E:=E) blocks n (block_ids (arc_value arc)) Hidx (unions m) slot (free_row slot) segments (range_blocks r) None (ro_rows _ _ _ Hr)) as (newly & Hn & Hnd & Hin).
  - pose proof (so_sorted _ _ (ro_ok _ _ _ Hr)) as Hs. clear -Hs. induction Hs as [|s l _ IH Hall]; constructor; [done|]. eapply Forall_impl; [exact Hall|]. unfold seg_before. cbn. lia.
  - done.
  - intros i Hi%row_bound. case_decide as Heq.
    + unfold free_row. by rewrite (lookup_ge_None_2 (unions m) slot) by lia.
    + destruct (union_of slot ltac:(lia)) as (u & L & Hus & Hu & _). unfold free_row. rewrite Hus. cbn [expect mbind result_bind]. in_range (heads u) i as p Hp; [by rewrite (uo_heads _ _ _ Hu)|].
      rewrite Hp. cbn [expect mbind result_bind]. f_equal. apply bool_decide_ext. unfold row_free. rewrite Hp. split; [by intros ->|by intros [= ->]].
  - exists newly. split; [done|]. split; [done|]. intros i. rewrite Hin. naive_solver.
Qed.

(** The matrix after a range was recorded. *)
Lemma recorded_ok bundle slot us counts : assignments m !! bundle = None -> (slot <= length (unions m))%nat -> occupied_by slot us -> length counts = n ->
  (forall i c, counts !! i = Some c -> c = slots_at us i) ->
  matrix_ok (Matrix arc us (<[bundle := slot]> (assignments m)) counts) (<[bundle := segments]> R).
Proof.
  intros Hnew Hslot [Hne Hfree Hlen Hothers (u' & Hu' & Hnodes & L' & HL' & Hocc') Hcounts] Hcl Hc.
  assert (HRnew : R !! bundle = None). { apply eq_None_not_Some. intros Hs%(mo_domain _ _ Hm). rewrite Hnew in Hs. by destruct Hs. }
  assert (Hcov : forall s b p, slot_covers (Matrix arc us (<[bundle := slot]> (assignments m)) counts) (<[bundle := segments]> R) s b p <-> slot_covers m R s b p \/ (s = slot /\ covers segments b p)).
  { intros s b p. by apply slot_covers_insert. }
  split; cbn [index unions assignments block_slot_counts].
  - done.
  - intros c. destruct (decide (c = bundle)) as [->|Hcb]; [rewrite !lookup_insert_eq; split; by eexists|]. rewrite !lookup_insert_ne by done. apply (mo_domain _ _ Hm).
  - intros c s. destruct (decide (c = bundle)) as [->|Hcb]; [rewrite lookup_insert_eq; intros [= <-]; lia|]. rewrite lookup_insert_ne by done. intros Hs%(mo_slot _ _ Hm). lia.
  - intros c l. destruct (decide (c = bundle)) as [->|Hcb]; [rewrite lookup_insert_eq; intros [= <-]; split; [apply Hr|done]|]. rewrite lookup_insert_ne by done. apply (mo_ranges _ _ Hm).
  - intros s Hs. destruct (decide (s = slot)) as [->|Hss]; [exists bundle; by rewrite lookup_insert_eq|]. destruct (mo_used _ _ Hm s) as [c Hcs]; [lia|]. exists c. rewrite lookup_insert_ne; [done|]. congruence.
  - intros s u Hs. rewrite total_insert by done. destruct (decide (s = slot)) as [->|Hss].
    + assert (u = u') as -> by congruence. split; [done|]. exists L'. split; [done|]. intros b i p Hb. rewrite Hcov, (Hocc' b i p Hb). tauto.
    + rewrite Hothers in Hs by done. destruct (mo_union _ _ Hm s u Hs) as (Hn & L & HL & Hocc). split; [lia|]. exists L. split; [done|]. intros b i p Hb. rewrite Hcov, (Hocc b i p Hb). tauto.
  - assert (Hone : forall c s l b p, c <> bundle -> assignments m !! c = Some s -> s = slot -> R !! c = Some l -> covers l b p -> ~ covers segments b p).
    { intros c s l b p _ Ha -> Hl Hp Hp'. apply (Hfree b p Hp'). by exists c, l. }
    intros c c' s l l' b p Hcc. destruct (decide (c = bundle)) as [->|Hcb], (decide (c' = bundle)) as [->|Hcb']; [done|..].
    + rewrite !lookup_insert_eq, !lookup_insert_ne by done. intros [= <-] Ha [= <-] Hl Hp Hp'. by eapply Hone.
    + rewrite !lookup_insert_eq, !lookup_insert_ne by done. intros Ha [= <-] Hl [= <-] Hp Hp'. by eapply Hone.
    + rewrite !lookup_insert_ne by done. by apply (mo_apart _ _ Hm).
  - done.
  - done.
Qed.

(** Why a range is not assigned. *)
Definition not_assigned bundle slot (e : IntervalUnionError) : Prop :=
  match rule e with
  | DUPLICATE_ASSIGNMENT => is_Some (assignments m !! bundle)
  | DYNAMIC_SLOT_RANGE => (length (unions m) < slot)%nat
  | BLOCK_SLOT_COUNT => NONE <= Z.of_nat (length (unions m))
  | _ => refused slot e
  end.

Lemma assign_validated_spec bundle slot :
  match assign_validated bundle slot r m with
  | (m', Ok _) => matrix_ok m' (<[bundle := segments]> R) /\ assignments m' = <[bundle := slot]> (assignments m) /\ assignments m !! bundle = None /\ (slot <= length (unions m))%nat /\
      length (unions m') = Nat.max (length (unions m)) (S slot) /\ forall b p, covers segments b p -> ~ slot_covers m R slot b p
  | (_, Err e) => not_assigned bundle slot e
  | (_, Panic) => False
  end.
Proof.
  unfold assign_validated, se_get, se_lift, mbind, SE_bind. rewrite validate_token_ok. case_decide as Hdup; [done|]. case_decide as Hslot; [done|].
  rewrite (range_iter_ok arc segments r Hr). assert (Hsnd : (zip segments (range_blocks r)).*2 = range_blocks r) by (apply snd_zip; by rewrite (Forall2_length _ _ _ (ro_rows _ _ _ Hr))). rewrite Hsnd.
  destruct (newly_spec (E:=IntervalUnionError) slot) as (newly & -> & Hnd & Hin); [lia|]. pose proof (occupy_spec bundle slot ltac:(lia)) as Hocc. destruct (occupy m bundle slot r) as [us|e|]; cbn [yields] in Hocc; [| |done]; cycle 1.
  { unfold not_assigned. pose proof Hocc as [[-> _]|[[-> _]|[-> _]]]; done. }
  set (m1 := Matrix (index m) us (assignments m) (block_slot_counts m)). unfold set_unions. fold m1.
  pose proof (count_blocks_spec bundle newly m1 Hnd) as Hcount. cbn [m1 block_slot_counts index unions assignments] in Hcount. rewrite (mo_rows _ _ Hm) in Hcount.
  specialize (Hcount ltac:(intros i [Hi _]%Hin; by apply row_bound)). destruct (count_blocks bundle newly m1) as [m2 [t|e|]]; [| |done].
  - destruct Hcount as (Hi2 & Hu2 & Ha2 & Hl2 & Hc2). unfold set_assignment. cbn [index unions assignments]. rewrite Hi2, Hu2, Ha2, (mo_index _ _ Hm).
    assert (Hnone : assignments m !! bundle = None) by (by apply eq_None_not_Some).
    assert (Hok : matrix_ok (Matrix arc us (<[bundle := slot]> (assignments m)) (block_slot_counts m2)) (<[bundle := segments]> R)).
    { apply recorded_ok; [done|lia|done|done|]. intros i c Hic. assert (Hin' : (i < n)%nat) by (rewrite <- Hl2; eauto with index). in_range (block_slot_counts m) i as c0 Hc0; [by rewrite (mo_rows _ _ Hm)|].
      rewrite (Hc2 i c0 Hc0) in Hic. injection Hic as <-. rewrite (mo_counts _ _ Hm i c0 Hc0), (ob_counts _ _ Hocc i Hin'). do 2 case_decide; rewrite ?Hin in *; tauto || lia. }
    split_and!; [done|done|done|lia|apply Hocc|apply Hocc].
  - destruct Hcount as (Hrule & _ & i & c & Hi & Hc & Hmax). unfold not_assigned. rewrite Hrule. rewrite (mo_counts _ _ Hm i c Hc) in Hmax. pose proof (slots_at_bound (unions m) i). lia.
Qed.
End made.

(** ** Verification and equality *)

Lemma matrix_verify_ok m R : matrix_ok m R -> matrix_verify m = Ok tt.
Proof.
  intros Hm. unfold matrix_verify. assert (Hall : foldM (fun _ u => verify_slot (arc_value (index m)) u) tt (unions m) = Ok tt).
  { apply foldM_checks. intros u [slot Hu]%list_elem_of_lookup. destruct (mo_union _ _ Hm slot u Hu) as (_ & L & HL & Hocc). unfold verify_slot. rewrite (mo_index _ _ Hm).
    rewrite (union_verify_ok _ n u L HL) by apply Hidx. cbn [mbind result_bind]. destruct (union_is_empty u) eqn:He; [|done]. exfalso. unfold union_is_empty in He. rewrite forallb_forall in He.
    destruct (mo_used _ _ Hm slot) as [bundle Hb]; [eauto with index|]. destruct (proj1 (mo_domain _ _ Hm bundle)) as [segments Hs]; [by eexists|].
    destruct (mo_ranges _ _ Hm bundle segments Hs) as [Hok Hne]. destruct segments as [|s l]; [done|]. destruct (so_segment _ _ Hok s ltac:(by left)) as [Hse [i Hi]].
    assert (Hc : slot_covers m R slot (seg_block s) (seg_start s)). { exists bundle, (s :: l). split_and!; [done..|]. exists s. split; [by left|]. split; [done|]. unfold in_segment. lia. }
    apply (Hocc _ i _ Hi) in Hc. assert (Hin : (i < n)%nat) by (by eapply (range_row arc n Hidx)). in_range (heads u) i as p Hp; [by rewrite (uo_heads _ _ _ HL)|].
    apply (head_free n u L i p HL Hp) in Hc; [done|]. specialize (He p). rewrite bool_decide_eq_true in He. apply He. apply list_elem_of_In. by eapply list_elem_of_lookup_2. }
  rewrite Hall. cbn [mbind result_bind]. destruct (existsb _ _) eqn:He; [|done]. apply existsb_exists in He as ([c s] & Hin & Hle). apply bool_decide_eq_true in Hle. apply list_elem_of_In, elem_of_map_to_list in Hin. apply (mo_slot _ _ Hm) in Hin. cbn in Hle. lia.
Qed.
End matrix.

(** ** Equality *)

Lemma all_pass_spec {E A} (test : A -> result E bool) (P : A -> Prop) (l : list A) : (forall x, x ∈ l -> exists v, test x = Ok v /\ (v = true <-> P x)) ->
  exists v, all_pass test l = Ok v /\ (v = true <-> forall x, x ∈ l -> P x).
Proof.
  induction l as [|x l IH]; intros Hl; cbn [all_pass]; [exists true; split; [done|]; split; [by intros _ x ?%not_elem_of_nil|done]|].
  destruct (Hl x) as (v & -> & Hv); [by left|]. cbn [mbind result_bind]. destruct v.
  - destruct IH as (w & -> & Hw); [intros; apply Hl; by right|]. exists w. split; [done|]. rewrite Hw. setoid_rewrite elem_of_cons. naive_solver.
  - exists false. split; [done|]. split; [done|]. intros Hall. assert (false = true); [|done]. apply Hv, Hall. by left.
Qed.

Lemma slots_at_ext us vs i : length us = length vs -> (forall s u v, us !! s = Some u -> vs !! s = Some v -> row_free u i <-> row_free v i) -> slots_at us i = slots_at vs i.
Proof.
  revert vs. induction us as [|u us IH]; intros [|v vs] Hlen Hall; try done. change (u :: us) with ([u] ++ us). change (v :: vs) with ([v] ++ vs). rewrite !slots_at_app, !slots_at_one.
  rewrite (IH vs); [|by injection Hlen|intros s x y Hx Hy; by apply (Hall (S s))]. specialize (Hall 0%nat u v eq_refl eq_refl). do 2 case_decide; tauto || lia.
Qed.

Section equality.
Context (arc arc' : Arc IntervalIndex) (n : nat) (Hidx : index_ok n (block_index (arc_value arc)) (block_ids (arc_value arc))) (Harc : arc_value arc = arc_value arc').
Context (m m' : DynamicIntervalMatrix) (R R' : gmap Z (list LiveSegment)) (Hm : matrix_ok arc n m R) (Hm' : matrix_ok arc' n m' R').

Lemma Hidx' : index_ok n (block_index (arc_value arc')) (block_ids (arc_value arc')).
Proof. by rewrite <- Harc. Qed.

Lemma same_length : assignments m = assignments m' -> length (unions m) = length (unions m').
Proof.
  intros Ha. apply Nat.le_antisymm; apply Nat.nlt_ge; intros Hlt.
  - destruct (mo_used _ _ _ _ Hm (length (unions m'))) as [c Hc]; [done|]. rewrite Ha in Hc. apply (mo_slot _ _ _ _ Hm') in Hc. lia.
  - destruct (mo_used _ _ _ _ Hm' (length (unions m))) as [c Hc]; [done|]. rewrite <- Ha in Hc. apply (mo_slot _ _ _ _ Hm) in Hc. lia.
Qed.

(** Points that unions hold, and points of the program. *)
Lemma same_slot s u v L M : unions m !! s = Some u -> unions m' !! s = Some v ->
  (forall b i p, block_index (arc_value arc) !! b = Some i -> occupied (L i) p <-> slot_covers m R s b p) ->
  (forall b i p, block_index (arc_value arc') !! b = Some i -> occupied (M i) p <-> slot_covers m' R' s b p) ->
  (forall i p, (i < n)%nat -> occupied (L i) p <-> occupied (M i) p) <-> forall b p, slot_covers m R s b p <-> slot_covers m' R' s b p.
Proof.
  intros Hu Hv HL HM. rewrite <- Harc in HM. split.
  - intros Hocc b p. assert (Hknown : slot_covers m R s b p \/ slot_covers m' R' s b p -> is_Some (block_index (arc_value arc) !! b)).
    { intros [(c & l & _ & Hl & Hp)|(c & l & _ & Hl & Hp)].
      - eapply (covers_known arc); [by apply (mo_ranges _ _ _ _ Hm c)|done].
      - rewrite Harc. eapply (covers_known arc'); [by apply (mo_ranges _ _ _ _ Hm' c)|done]. }
    assert (Hgo : is_Some (block_index (arc_value arc) !! b) -> slot_covers m R s b p <-> slot_covers m' R' s b p).
    { intros [i Hi]. rewrite <- (HL b i p Hi), <- (HM b i p Hi). apply Hocc. by eapply (range_row arc n Hidx). }
    split; intros Hc; apply Hgo; auto.
  - intros Hall i p Hi. destruct Hidx as [Hlen Hinv]. in_range (block_ids (arc_value arc)) i as b Hb. apply Hinv in Hb. by rewrite (HL b i p Hb), (HM b i p Hb), Hall.
Qed.

Lemma matrix_eq_spec {E} : exists v, matrix_eq m m' = Ok v :> result E _ /\
  (v = true <-> assignments m = assignments m' /\ forall s b p, slot_covers m R s b p <-> slot_covers m' R' s b p).
Proof.
  unfold matrix_eq. rewrite (mo_index _ _ _ _ Hm), (mo_index _ _ _ _ Hm'). case_decide as Hdec; cycle 1.
  - exists false. split; [done|]. split; [done|]. intros [Ha Hall]. exfalso. apply Hdec. pose proof (same_length Ha) as Hlen. split; [done|]. split; [done|]. split; [|done].
    apply list_eq. intros i. apply option_eq. assert (Hcount : forall i, (i < n)%nat -> slots_at (unions m) i = slots_at (unions m') i).
    { intros j Hj. apply slots_at_ext; [done|]. intros s u v Hu Hv. destruct (mo_union _ _ _ _ Hm s u Hu) as (_ & L & HL & HoL). destruct (mo_union _ _ _ _ Hm' s v Hv) as (_ & M & HM & HoM).
      rewrite (row_free_spec n u L j HL Hj), (row_free_spec n v M j HM Hj). pose proof (proj2 (same_slot s u v L M Hu Hv HoL HoM) (Hall s)) as Hs. by setoid_rewrite (Hs j _ Hj). }
    intros c. split; intros Hc.
    + assert (Hi : (i < n)%nat) by (rewrite <- (mo_rows _ _ _ _ Hm); eauto with index). rewrite (mo_counts _ _ _ _ Hm i c Hc). in_range (block_slot_counts m') i as d Hd; [by rewrite (mo_rows _ _ _ _ Hm')|]. rewrite (mo_counts _ _ _ _ Hm' i d Hd) in Hd. by rewrite Hd, Hcount.
    + assert (Hi : (i < n)%nat) by (rewrite <- (mo_rows _ _ _ _ Hm'); eauto with index). rewrite (mo_counts _ _ _ _ Hm' i c Hc). in_range (block_slot_counts m) i as d Hd; [by rewrite (mo_rows _ _ _ _ Hm)|]. rewrite (mo_counts _ _ _ _ Hm i d Hd) in Hd. by rewrite Hd, Hcount.
  - destruct Hdec as (_ & Ha & _ & Hlen).
    assert (Hsame : forall s u u', unions m !! s = Some u -> unions m' !! s = Some u' -> exists w, same_occupancy u u' = Ok w :> result E _ /\ (w = true <-> forall b p, slot_covers m R s b p <-> slot_covers m' R' s b p)).
    { intros s u u' Hu Hu'. destruct (mo_union _ _ _ _ Hm s u Hu) as (_ & L & HL & HoL). destruct (mo_union _ _ _ _ Hm' s u' Hu') as (_ & M & HM & HoM).
      destruct (same_occupancy_spec (E:=E) n u u' L M HL HM) as (w & Hw & Hww). exists w. split; [done|]. rewrite Hww, <- (same_slot s u u' L M Hu Hu' HoL HoM). naive_solver. }
    assert (Hzip : forall u u', (u, u') ∈ zip (unions m) (unions m') <-> exists s, unions m !! s = Some u /\ unions m' !! s = Some u').
    { intros u u'. rewrite list_elem_of_lookup. setoid_rewrite lookup_zip_with_Some. naive_solver. }
    destruct (all_pass_spec (E:=E) (fun lr => same_occupancy lr.1 lr.2) (fun lr => same_occupancy lr.1 lr.2 = Ok true :> result E _) (zip (unions m) (unions m'))) as (v & -> & Hv).
    { intros [u u'] (s & Hu & Hu')%Hzip. cbn [fst snd]. destruct (Hsame s u u' Hu Hu') as (w & -> & _). exists w. split; [done|]. split; [by intros ->|by intros [= ->]]. }
    exists v. split; [done|]. rewrite Hv. split.
    + intros Hall. split; [done|]. intros s b p. destruct (decide (s < length (unions m))%nat) as [Hs|Hs].
      * in_range (unions m) s as u Hu. in_range (unions m') s as u' Hu'. destruct (Hsame s u u' Hu Hu') as (w & Hw & Hww). specialize (Hall (u, u') (proj2 (Hzip u u') (ex_intro _ s (conj Hu Hu')))). cbn in Hall.
        apply Hww. congruence.
      * split; intros (c & l & Hc & _); [apply (mo_slot _ _ _ _ Hm) in Hc|apply (mo_slot _ _ _ _ Hm') in Hc]; lia.
    + intros [_ Hall] [u u'] (s & Hu & Hu')%Hzip. cbn [fst snd]. destruct (Hsame s u u' Hu Hu') as (w & -> & Hww). f_equal. by apply Hww.
Qed.
End equality.

(** ** Reachable matrices *)

Section built.
Context (cfg : NormalizedCfg).
Abbreviation rows := (length (cfg_successors cfg)).
Implicit Types (m : DynamicIntervalMatrix) (R : gmap Z (list LiveSegment)) (segments : list LiveSegment) (r : SparseRange) (bundle b p : Z).

(** A range made for [m], borrowed. *)
Definition made_range m segments : result IntervalUnionError ValidatedSegments := range ← make_range m segments; validated range.

(** Matrices made by [new] and successful assignments of ranges made by
    [make_range]; [R] is the range of each bundle. *)
Inductive built : DynamicIntervalMatrix -> gmap Z (list LiveSegment) -> Prop :=
  | built_new fresh m : matrix_new fresh cfg = Ok m -> built m ∅
  | built_assign m R segments r bundle slot m' : built m R -> made_range m segments = Ok r ->
      assign_validated bundle slot r m = (m', Ok tt) -> built m' (<[bundle := segments]> R).

Record known_index m : Prop := {
  kn_index : index_ok rows (block_index (arc_value (index m))) (block_ids (arc_value (index m)));
  kn_blocks : block_index (arc_value (index m)) = cfg_block_index cfg }.

Lemma make_range_made m segments : known_index m ->
  yields (fun e => ~ segments_ok (cfg_block_index cfg) segments) (fun r => range_ok (index m) segments r) (made_range m segments).
Proof.
  intros [Hidx Hb]. unfold made_range. pose proof (index_make_range_spec (index m) rows Hidx segments) as Hs. rewrite <- Hb. unfold make_range. destruct (index_make_range (index m) segments) as [r|e|]; cbn in Hs |- *; [|done..].
  unfold validated. rewrite (ro_segments _ _ _ Hs), decide_True by (exact (Forall2_length _ _ _ (ro_rows _ _ _ Hs))). done.
Qed.

Lemma new_known fresh m : matrix_new fresh cfg = Ok m -> known_index m /\ matrix_ok (index m) rows m ∅.
Proof.
  intros Hm. enough (Hk : known_index m) by (split; [done|]; by apply (matrix_new_ok (index m) rows (kn_index _ Hk) fresh cfg m)). unfold matrix_new in Hm. pose proof (IntervalIndex_new_spec cfg) as Hs. destruct (IntervalIndex_new cfg) as [idx|e|]; cbn in Hm, Hs; [|done..]. injection Hm as <-. cbn in *. destruct Hs as [Hb Hi]. split; cbn; [done|done].
Qed.

Lemma built_ok m R : built m R -> known_index m /\ matrix_ok (index m) rows m R.
Proof.
  induction 1 as [fresh m Hm|m R segments r bundle slot m' _ [Hk Hok] Hr Ha]; [by eapply new_known|].
  pose proof (make_range_made m segments Hk) as Hs. rewrite Hr in Hs. cbn in Hs. pose proof (assign_validated_spec (index m) rows (kn_index _ Hk) m R Hok segments r Hs bundle slot) as Hspec. rewrite Ha in Hspec.
  destruct Hspec as (Hok' & _). pose proof (mo_index _ _ _ _ Hok') as Hi. rewrite Hi. split; [|done]. destruct Hk. split; by rewrite Hi.
Qed.

(** The same cfg gives equal indices. *)
Lemma built_index m R m' R' : built m R -> built m' R' -> arc_value (index m) = arc_value (index m').
Proof.
  intros [[Hi Hb] _]%built_ok [[Hi' Hb'] _]%built_ok. destruct (arc_value (index m)) as [blocks ids], (arc_value (index m')) as [blocks' ids']. cbn in *. subst. f_equal. destruct Hi as [Hl Hi], Hi' as [Hl' Hi'].
  apply list_eq. intros i. apply option_eq. intros b. by rewrite <- Hi, <- Hi'.
Qed.
End built.
