(* ===== verification/SpillColor.v ===== *)
(** * SpillColor: colouring the spill homes of a function

    Models [merge_home_segments] and [color_planned_stack_program] of
    [crates/celox-backend-x86/src/backend/native/regalloc/stack_color.rs]: the
    ranges of all versions of a home are united, homes are given slots by
    first fit, largest first, and with [verify] the matrix is rebuilt in
    another order and compared. The live intervals of the versions are an
    argument, the result of the analysis that runs before. Timing is left out. *)

From S2P Require Import Prelude Order SlotUnion.

Inductive StackColorRule : Type :=
  | Union (rule : UnionRule)
  | Live
  | PLANNED_INTERVAL_SHAPE | PLANNED_INTERVAL_COVERAGE | PLANNED_HOME_COVERAGE | PLANNED_HOME_RANGE
  | PLANNED_ASSIGNMENT_COVERAGE | PLANNED_MATRIX_IDENTITY | PLANNED_FRAME_RANGE.

Record StackColorError : Type := ColorError { color_rule : StackColorRule; color_block : option Z; color_homes : list Z }.

(** The fields of [LiveInterval] this part reads: the block of the definition
    and the segments. *)
Record LiveInterval : Type := Interval { definition_block : Z; live_segments : list LiveSegment }.

Record PlannedStackColoring : Type := Coloring { offsets : gmap Z Z; frame_size : Z; color_slot_count : nat }.

(** ** The range of a home *)

Definition extend_range (ranges : gmap Z (list LiveSegment)) (hi : Z * option LiveInterval) : result StackColorError (gmap Z (list LiveSegment)) :=
  interval ← ok_or (ColorError PLANNED_INTERVAL_COVERAGE None [hi.1]) hi.2;
  match ranges !! hi.1 with
  | None => Err (ColorError PLANNED_HOME_COVERAGE (Some (definition_block interval)) [hi.1])
  | Some range => Ok (<[hi.1 := range ++ live_segments interval]> ranges)
  end.

(** [(segment.block, segment.start, segment.end)] *)
Definition segment_key (s : LiveSegment) : Z * (Z * Z) := (seg_block s, (seg_start s, seg_end s)).

Definition merge_segment (merged : list LiveSegment) (segment : LiveSegment) : list LiveSegment :=
  match last merged with
  | Some previous =>
      if decide (seg_block previous = seg_block segment /\ seg_start segment <= seg_end previous)
      then <[(length merged - 1)%nat := Segment (seg_block previous) (seg_start previous) (Z.max (seg_end previous) (seg_end segment))]> merged
      else merged ++ [segment]
  | None => merged ++ [segment]
  end.

Definition merge_range (ranges : gmap Z (list LiveSegment)) (home : Z) : result StackColorError (gmap Z (list LiveSegment)) :=
  range ← expect (ranges !! home);
  match foldl merge_segment [] (sort_by_key segment_key range) with
  | [] => Err (ColorError PLANNED_HOME_RANGE None [home])
  | merged => Ok (<[home := merged]> ranges)
  end.

Definition merge_home_segments (intervals : list (option LiveInterval)) (version_homes : list Z) (homes : gset Z) : result StackColorError (gmap Z (list LiveSegment)) :=
  if decide (length intervals <> length version_homes) then Err (ColorError PLANNED_INTERVAL_SHAPE None []) else
  ranges ← foldM extend_range (gset_to_gmap [] homes) (zip version_homes intervals);
  foldM merge_range ranges (ascending homes).

(** ** Colouring *)

(** [planned_union_error] *)
Definition planned_union_error (bundle_homes : list Z) (error : IntervalUnionError) : StackColorError :=
  ColorError (Union (rule error)) (err_block error) (omap (fun bundle => bundle_homes !! Z.to_nat bundle) (bundles error)).

Definition map_err {E F A} (f : E -> F) (r : result E A) : result F A :=
  match r with Ok a => Ok a | Err e => Err (f e) | Panic => Panic end.

Definition u128_max : Z := 2^128 - 1.
(** [SlotIndex::distance_to(..).unwrap_or(u64::MAX)] *)
Definition distance (s : LiveSegment) : Z := default usize_max (checked_sub (seg_end s) (seg_start s)).

Definition range_length (segments : list LiveSegment) : Z := foldl (fun total s => Z.min (total + distance s) u128_max) 0 segments.

(** Bundles by length, then number of segments, both descending, then home. *)
Definition color_key (bundle_homes : list Z) (entry : nat * (Z * nat)) : Reverse Z * (Reverse nat * Z) :=
  (Rev entry.2.1, (Rev entry.2.2, default 0 (bundle_homes !! entry.1))).

Definition color_order (bundle_homes : list Z) (bundle_ranges : list (list LiveSegment)) : list nat :=
  (sort_by_key (color_key bundle_homes) ((fun br => (br.1, (range_length br.2, length br.2))) <$> enumerate bundle_ranges)).*1.

(** [assign_validated(..)?] *)
Definition assign_bundle (matrix : DynamicIntervalMatrix) (bundle : nat) (slot : nat) (range : SparseRange) : result IntervalUnionError DynamicIntervalMatrix :=
  segments ← validated range;
  match assign_validated (as_u32 bundle) slot segments matrix with
  | (matrix, Ok _) => Ok matrix
  | (_, Err e) => Err e
  | (_, Panic) => Panic
  end.

Definition color_bundle (bundle_ranges : list (list LiveSegment)) (matrix : DynamicIntervalMatrix) (bundle : nat) : result IntervalUnionError DynamicIntervalMatrix :=
  segments ← expect (bundle_ranges !! bundle);
  range ← make_range matrix segments;
  tokens ← validated range;
  slot ← first_available_validated matrix tokens;
  assign_bundle matrix bundle slot range.

Definition color_matrix (fresh : nat) (cfg : NormalizedCfg) (bundle_homes : list Z) (bundle_ranges : list (list LiveSegment)) : result IntervalUnionError DynamicIntervalMatrix :=
  matrix ← matrix_new fresh cfg;
  foldM (color_bundle bundle_ranges) matrix (color_order bundle_homes bundle_ranges).

(** The slot of a bundle, which must have one. *)
Definition colored_slot (bundle_homes : list Z) (matrix : DynamicIntervalMatrix) (bundle : nat) : result StackColorError nat :=
  home ← expect (bundle_homes !! bundle);
  ok_or (ColorError PLANNED_ASSIGNMENT_COVERAGE None [home]) (slot matrix (as_u32 bundle)).

Definition rebuild_bundle (bundle_ranges : list (list LiveSegment)) (rebuilt : DynamicIntervalMatrix) (sb : nat * nat) : result IntervalUnionError DynamicIntervalMatrix :=
  segments ← expect (bundle_ranges !! sb.2);
  range ← make_range rebuilt segments;
  assign_bundle rebuilt sb.2 sb.1 range.

(** The block under [if verify]. *)
Definition verify_coloring (fresh : nat) (cfg : NormalizedCfg) (bundle_homes : list Z) (bundle_ranges : list (list LiveSegment)) (matrix : DynamicIntervalMatrix) : result StackColorError unit :=
  _ ← map_err (planned_union_error bundle_homes) (matrix_verify matrix);
  rebuilt ← map_err (planned_union_error bundle_homes) (matrix_new fresh cfg);
  rebuild_order ← mapMr (fun bundle => s ← colored_slot bundle_homes matrix bundle; Ok (s, bundle)) (seq 0 (length bundle_homes));
  rebuilt ← map_err (planned_union_error bundle_homes) (foldM (rebuild_bundle bundle_ranges) rebuilt (sort_by_key id rebuild_order));
  _ ← map_err (planned_union_error bundle_homes) (matrix_verify rebuilt);
  same ← matrix_eq rebuilt matrix;
  if (same : bool) then Ok tt else Err (ColorError PLANNED_MATRIX_IDENTITY None []).

Definition add_offset (bundle_homes : list Z) (matrix : DynamicIntervalMatrix) (offsets : gmap Z Z) (bh : nat * Z) : result StackColorError (gmap Z Z) :=
  s ← colored_slot bundle_homes matrix bh.1;
  if decide (8 * Z.of_nat s <= 2^31 - 1) then Ok (<[bh.2 := 8 * Z.of_nat s]> offsets) else Err (ColorError PLANNED_FRAME_RANGE None [bh.2]).

Definition color_offsets (bundle_homes : list Z) (matrix : DynamicIntervalMatrix) : result StackColorError PlannedStackColoring :=
  offsets ← foldM (add_offset bundle_homes matrix) ∅ (enumerate bundle_homes);
  if decide (8 * Z.of_nat (slot_count matrix) <= 2^32 - 1) then Ok (Coloring offsets (8 * Z.of_nat (slot_count matrix)) (slot_count matrix))
  else Err (ColorError PLANNED_FRAME_RANGE None []).

(** [fresh] and [fresh'] are the identities of the two indices. *)
Definition color_planned_stack_program (fresh fresh' : nat) (cfg : NormalizedCfg) (intervals : result StackColorError (list (option LiveInterval)))
    (version_homes : list Z) (homes : gset Z) (verify : bool) : result StackColorError PlannedStackColoring :=
  if decide (homes = ∅) then Ok (Coloring ∅ 0 0) else
  intervals ← intervals;
  ranges ← merge_home_segments intervals version_homes homes;
  let bundle_homes := ascending homes in
  bundle_ranges ← mapMr (fun home => expect (ranges !! home)) bundle_homes;
  matrix ← map_err (planned_union_error bundle_homes) (color_matrix fresh cfg bundle_homes bundle_ranges);
  _ ← (if verify then verify_coloring fresh' cfg bundle_homes bundle_ranges matrix else Ok tt);
  color_offsets bundle_homes matrix.

(** Two homes that overlap and one that fits beside the first. *)
Definition two_blocks : NormalizedCfg := Normalized {[7 := 1%nat; 3 := 0%nat]} [[1%nat]; []].

Definition example_intervals : list (option LiveInterval) :=
  [Some (Interval 3 [Segment 3 0 4; Segment 7 0 2]); Some (Interval 3 [Segment 3 2 6]); Some (Interval 7 [Segment 7 2 5]); Some (Interval 7 [Segment 7 5 6])].

Example homes_share_a_slot :
  color_planned_stack_program 0 1 two_blocks (Ok example_intervals) [10; 11; 12; 10] {[10; 11; 12]} true =
  Ok (Coloring {[10 := 0; 11 := 8; 12 := 0]} 16 2).
Proof. vm_compute. reflexivity. Qed.
