(* ===== verification/SpillTheorems.v ===== *)
(** * SpillTheorems: spill homes that are live together have their own slots

    First the passes of the colouring: the united range of a home, the matrix
    that first fit builds, and the matrix that the verification rebuilds in
    another order. Then the operations of the slot matrix as a client sees
    them, and the correctness of the colouring built on them. *)

From stdpp Require Import functions.
From S2P Require Import Prelude Order Specs SlotUnion SlotUnionFacts SlotMatrix SpillColor.

(** ** Uniting segments *)

Lemma covers_app l k b p : covers (l ++ k) b p <-> covers l b p \/ covers k b p.
Proof. unfold covers. setoid_rewrite elem_of_app. naive_solver. Qed.

Lemma covers_one s b p : covers [s] b p <-> seg_block s = b /\ in_segment s p.
Proof. unfold covers. setoid_rewrite list_elem_of_singleton. naive_solver. Qed.

Lemma covers_nil b p : ~ covers [] b p.
Proof. by intros (s & ?%not_elem_of_nil & _). Qed.

Definition key_before (s t : LiveSegment) : Prop := segment_key s ⪯ segment_key t.

Lemma key_before_spec s t : key_before s t <-> seg_block s < seg_block t \/ (seg_block s = seg_block t /\ (seg_start s < seg_start t \/ (seg_start s = seg_start t /\ seg_end s <= seg_end t))).
Proof. unfold key_before, segment_key. unfold ord_le at 1. cbn. unfold lex_le. cbn. unfold lex_le, ord_le. cbn. lia. Qed.

Lemma merge_segment_snoc k z s : merge_segment (k ++ [z]) s =
  if decide (seg_block z = seg_block s /\ seg_start s <= seg_end z) then k ++ [Segment (seg_block z) (seg_start z) (Z.max (seg_end z) (seg_end s))] else (k ++ [z]) ++ [s].
Proof.
  unfold merge_segment. rewrite last_snoc. case_decide; [|done]. rewrite length_app, insert_app_r_alt by (cbn; lia). replace (length k + length [z] - 1 - length k)%nat with 0%nat by (cbn; lia). done.
Qed.

(** What the merged list is after a sorted prefix that ends with [t]. *)
Record merged_ok (blocks : gmap Z nat) (pre merged : list LiveSegment) : Prop := {
  me_covers b p : covers merged b p <-> covers pre b p;
  me_length : (length merged <= length pre)%nat;
  me_last t : last pre = Some t -> exists z, last merged = Some z /\ seg_block z = seg_block t /\ seg_start z <= seg_start t;
  me_segments : (forall s, s ∈ pre -> seg_start s < seg_end s /\ is_Some (blocks !! seg_block s)) -> segments_ok blocks merged }.

Lemma merge_step blocks pre merged s : merged_ok blocks pre merged -> (forall t, last pre = Some t -> key_before t s) -> (pre = [] -> merged = []) -> merged_ok blocks (pre ++ [s]) (merge_segment merged s).
Proof.
  intros [Hcov Hlen Hlast Hseg] Hkey Hnil. destruct (last pre) as [t|] eqn:Ht.
  - destruct (Hlast t eq_refl) as (z & Hz & Hblock & Hstart). specialize (Hkey t eq_refl). rewrite key_before_spec in Hkey. apply last_Some in Hz as [k ->]. rewrite merge_segment_snoc. case_decide as Hm.
    + destruct Hm as [Hb Hend]. split.
      * intros b p. rewrite !covers_app, <- (Hcov b p), !covers_app, !covers_one. unfold in_segment. cbn. intuition lia.
      * rewrite !length_app in *. cbn in *. lia.
      * intros t'. rewrite last_snoc. intros [= <-]. eexists. rewrite last_snoc. split; [done|]. cbn. lia.
      * intros Hpre. destruct Hseg as [Hs Hsort]; [intros; apply Hpre; set_solver|]. split.
        -- intros x [Hx| ->%list_elem_of_singleton]%elem_of_app; [apply Hs; set_solver|]. destruct (Hs z) as [Hse Hk]; [set_solver|]. cbn. split; [lia|done].
        -- apply StronglySorted_app in Hsort as (Hkz & Hsk & _). apply StronglySorted_app. split_and!; [|done|repeat constructor]. intros x y Hx ->%list_elem_of_singleton. specialize (Hkz x z Hx ltac:(by left)). unfold seg_before in *. cbn. lia.
    + split.
      * intros b p. rewrite !covers_app, <- (Hcov b p), !covers_app. tauto.
      * rewrite !length_app in *. cbn in *. lia.
      * intros t'. rewrite last_snoc. intros [= <-]. exists s. rewrite last_snoc. split; [done|]. lia.
      * intros Hpre. destruct Hseg as [Hs Hsort]; [intros; apply Hpre; set_solver|]. split.
        -- intros x [Hx| ->%list_elem_of_singleton]%elem_of_app; [by apply Hs|]. apply Hpre. set_solver.
        -- pose proof (proj1 (Hs z ltac:(set_solver))) as Hze. apply StronglySorted_app. split_and!; [|done|repeat constructor]. intros x y Hx ->%list_elem_of_singleton.
           assert (Hzs : seg_before z s) by (unfold seg_before; lia). apply elem_of_app in Hx as [Hx| ->%list_elem_of_singleton]; [|done].
           apply StronglySorted_app in Hsort as (Hkz & _). specialize (Hkz x z Hx ltac:(by left)). unfold seg_before in *. lia.
  - apply last_None in Ht as ->. rewrite (Hnil eq_refl) in *. cbn. split.
    + done.
    + done.
    + intros t [= <-]. exists s. split; [done|]. lia.
    + intros Hpre. split; [done|]. repeat constructor.
Qed.

Lemma merge_all blocks l : StronglySorted key_before l -> merged_ok blocks l (foldl merge_segment [] l).
Proof.
  induction l as [|s l IH] using rev_ind; intros Hs.
  - split; cbn; [done|done|done|]. intros _. split; [by intros s ?%not_elem_of_nil|constructor].
  - apply StronglySorted_app in Hs as (Hls & Hl & _). rewrite foldl_app. cbn [foldl]. apply merge_step; [by apply IH| |by intros ->]. intros t [k ->]%last_Some. apply Hls; [set_solver|by left].
Qed.

Lemma merge_sorted blocks l : merged_ok blocks (sort_by_key segment_key l) (foldl merge_segment [] (sort_by_key segment_key l)).
Proof. apply merge_all. exact (sort_by_key_sorted segment_key l). Qed.

(** ** The ranges of all homes *)

Lemma total_update (R : gmap Z (list LiveSegment)) h l l' : R !! h = Some l -> (total (<[h := l']> R) + length l = total R + length l')%nat.
Proof.
  intros Hh. rewrite <- (insert_delete_id R h l Hh) at 2. rewrite <- insert_delete_eq. rewrite !total_insert by apply lookup_delete_eq. lia.
Qed.

Lemma total_zero (R : gmap Z (list LiveSegment)) : (forall h l, R !! h = Some l -> l = []) -> total R = 0%nat.
Proof.
  induction R as [|h l R Hh IH] using map_ind; intros Hall; [done|]. rewrite total_insert by done. rewrite IH.
  - rewrite (Hall h l) by apply lookup_insert_eq. done.
  - intros h' l' Hl. apply (Hall h'). rewrite lookup_insert_ne; [done|]. congruence.
Qed.

Section homes.
Context (blocks : gmap Z nat) (intervals : list (option LiveInterval)) (version_homes : list Z) (homes : gset Z).
Abbreviation versions := (zip version_homes intervals).

Definition segment_count (o : option LiveInterval) : nat := match o with Some i => length (live_segments i) | None => 0 end.
(** The number of segments the analysis reports. *)
Definition segment_total : nat := sum_list_with segment_count intervals.

(** The points at which a version of [h] is live. *)
Definition home_live (h b p : Z) : Prop := exists interval, (h, Some interval) ∈ versions /\ covers (live_segments interval) b p.

(** What the analysis of a function hands over: a live interval of segments
    in known blocks for every version, and a version for every home. *)
Record intervals_ok : Prop := {
  iv_length : length intervals = length version_homes;
  iv_interval o : o ∈ intervals -> is_Some o;
  iv_home h : h ∈ version_homes -> h ∈ homes;
  iv_live h : h ∈ homes -> exists interval s, (h, Some interval) ∈ versions /\ s ∈ live_segments interval;
  iv_segment interval s : Some interval ∈ intervals -> s ∈ live_segments interval -> seg_start s < seg_end s /\ is_Some (blocks !! seg_block s) }.

(** The segments of the versions of [h], in the order of the versions. *)
Record united (pre : list (Z * option LiveInterval)) (ranges : gmap Z (list LiveSegment)) : Prop := {
  un_domain h : is_Some (ranges !! h) <-> h ∈ homes;
  un_segments h l s : ranges !! h = Some l -> s ∈ l <-> exists interval, (h, Some interval) ∈ pre /\ s ∈ live_segments interval;
  un_total : (total ranges = sum_list_with (fun hi => segment_count hi.2) pre)%nat }.

Lemma versions_member h o : (h, o) ∈ versions -> h ∈ version_homes /\ o ∈ intervals.
Proof. intros [k Hk]%list_elem_of_lookup. apply lookup_zip_with_Some in Hk as (? & ? & [= <- <-] & Hh & Ho). split; by eapply list_elem_of_lookup_2. Qed.

Lemma extend_all : yields (fun _ => ~ intervals_ok) (united versions) (foldM extend_range (gset_to_gmap [] homes) versions).
Proof.
  apply (yields_foldM _ united).
  - split.
    + intros h. unfold is_Some. setoid_rewrite lookup_gset_to_gmap_Some. naive_solver.
    + intros h l s [_ <-]%lookup_gset_to_gmap_Some. rewrite elem_of_nil. split; [done|]. by intros (? & ?%not_elem_of_nil & _).
    + apply total_zero. by intros h l [_ <-]%lookup_gset_to_gmap_Some.
  - intros pre [h o] post ranges Heq [Hdom Hseg Htot]. assert (Hin : (h, o) ∈ versions) by (rewrite Heq; set_solver). pose proof (versions_member h o Hin) as [Hh Ho]. unfold extend_range. cbn [fst snd].
    destruct o as [interval|]; cbn [ok_or mbind result_bind]; [|intros Hok; apply (iv_interval Hok) in Ho; by destruct Ho].
    destruct (ranges !! h) as [l|] eqn:Hl; [|intros Hok; apply (iv_home Hok), Hdom in Hh; rewrite Hl in Hh; by destruct Hh]. cbn [yields]. split.
    + intros h'. destruct (decide (h' = h)) as [->|Hne]; [rewrite lookup_insert_eq, <- Hdom, Hl; split; by eexists|by rewrite lookup_insert_ne].
    + intros h' l' s. setoid_rewrite elem_of_app. setoid_rewrite list_elem_of_singleton. destruct (decide (h' = h)) as [->|Hne].
      * rewrite lookup_insert_eq. intros [= <-]. rewrite elem_of_app, (Hseg h l s Hl). naive_solver.
      * rewrite lookup_insert_ne by done. intros Hl'. rewrite (Hseg h' l' s Hl'). naive_solver.
    + pose proof (total_update ranges h l (l ++ live_segments interval) Hl) as Ht. rewrite length_app in Ht. rewrite sum_list_with_app. cbn. lia.
Qed.

Record merged_ranges (before : gmap Z (list LiveSegment)) (pre : list Z) (ranges : gmap Z (list LiveSegment)) : Prop := {
  mr_range h : ranges !! h = (fun l => if decide (h ∈ pre) then foldl merge_segment [] (sort_by_key segment_key l) else l) <$> before !! h;
  mr_nonempty h l : h ∈ pre -> ranges !! h = Some l -> l <> [];
  mr_total : (total ranges <= total before)%nat }.

Lemma sum_lookup (ranges : gmap Z (list LiveSegment)) (l : list Z) : NoDup l -> (forall h, is_Some (ranges !! h) <-> h ∈ l) ->
  sum_list_with (fun h => length (default [] (ranges !! h))) l = total ranges.
Proof.
  revert ranges. induction l as [|h l IH]; intros ranges Hnd Hdom; cbn [sum_list_with].
  - symmetry. apply total_zero. intros h k Hh. assert (Hin : h ∈ []) by (apply Hdom; by eexists). by apply not_elem_of_nil in Hin.
  - apply NoDup_cons in Hnd as [Hh Hnd]. destruct (proj2 (Hdom h)) as [k Hk]; [by left|]. rewrite Hk. cbn [default].
    assert (Ht : total ranges = (length k + total (delete h ranges))%nat) by (rewrite <- (insert_delete_id ranges h k Hk) at 1; by rewrite total_insert by apply lookup_delete_eq).
    rewrite Ht. f_equal. rewrite <- (IH (delete h ranges) Hnd).
    + assert (Hext : forall m m' : gmap Z (list LiveSegment), (forall x, x ∈ l -> m !! x = m' !! x) -> sum_list_with (fun h => length (default [] (m !! h))) l = sum_list_with (fun h => length (default [] (m' !! h))) l).
      { clear. intros m m' Hm. induction l as [|x l IH]; [done|]. cbn. rewrite (Hm x) by (by left). rewrite IH; [done|]. intros; apply Hm; by right. }
      apply Hext. intros x Hx. rewrite lookup_delete_ne; [done|]. intros ->. done.
    + intros x. destruct (decide (x = h)) as [->|Hne]; [rewrite lookup_delete_eq; split; [by intros [? ?]|done]|]. rewrite lookup_delete_ne by done. rewrite Hdom, elem_of_cons. naive_solver.
Qed.

(** The range of every home: the union of its versions' segments. *)
Record home_ranges (ranges : gmap Z (list LiveSegment)) : Prop := {
  hr_domain h : is_Some (ranges !! h) <-> h ∈ homes;
  hr_nonempty h l : ranges !! h = Some l -> l <> [];
  hr_covers h l b p : ranges !! h = Some l -> covers l b p <-> home_live h b p;
  hr_segments h l : intervals_ok -> ranges !! h = Some l -> segments_ok blocks l;
  hr_total : (total ranges <= segment_total)%nat }.

Lemma merge_home_segments_spec : yields (fun _ => ~ intervals_ok) home_ranges (merge_home_segments intervals version_homes homes).
Proof.
  unfold merge_home_segments. case_decide as Hlen; [intros Hok; by apply Hlen, iv_length|]. eapply yields_bind; [apply extend_all|]. intros before Hb.
  eapply yields_impl; [|apply (yields_foldM _ (merged_ranges before))].
  - intros ranges [Hr Hne Ht]. assert (Hall : forall h, ranges !! h = (fun l => foldl merge_segment [] (sort_by_key segment_key l)) <$> before !! h).
    { intros h. rewrite Hr. destruct (before !! h) as [l|] eqn:Hl; [|done]. cbn. rewrite decide_True; [done|]. apply elem_of_ascending, (un_domain _ _ Hb). by eexists. }
    assert (Hdom : forall h, is_Some (ranges !! h) <-> h ∈ homes) by (intros h; rewrite Hall, fmap_is_Some; apply (un_domain _ _ Hb)).
    split; [done| | | |].
    + intros h l Hl. apply (Hne h); [|done]. apply elem_of_ascending, Hdom. by eexists.
    + intros h l b p Hl. rewrite Hall in Hl. apply fmap_Some in Hl as (l0 & Hl0 & ->). rewrite (me_covers _ _ _ (merge_sorted blocks l0)). unfold covers, home_live. setoid_rewrite elem_of_sort_by_key. setoid_rewrite (un_segments _ _ Hb h l0 _ Hl0). unfold covers. naive_solver.
    + intros h l Hok Hl. rewrite Hall in Hl. apply fmap_Some in Hl as (l0 & Hl0 & ->). apply (me_segments _ _ _ (merge_sorted blocks l0)). intros s (interval & Hin & Hs)%elem_of_sort_by_key%(un_segments _ _ Hb h l0 _ Hl0).
      apply versions_member in Hin as [_ Hin]. by apply (iv_segment Hok interval).
    + etransitivity; [exact Ht|]. rewrite (un_total _ _ Hb). unfold segment_total. clear -Hlen. revert version_homes Hlen. induction intervals as [|o l IH]; intros [|h vs] Hlen; cbn; try done. injection Hlen as Hlen. specialize (IH vs Hlen). lia.
  - split; [|by intros h l ?%not_elem_of_nil|done]. intros h. destruct (before !! h); [|done]. cbn. by rewrite decide_False by apply not_elem_of_nil.
  - intros pre h post ranges Heq [Hr Hne Ht]. pose proof (NoDup_ascending homes) as Hnd. rewrite Heq in Hnd. apply NoDup_app in Hnd as (_ & Hdis & _). assert (Hpre : h ∉ pre) by (intros Hin; apply (Hdis h Hin); by left).
    assert (Hh : h ∈ homes) by (apply elem_of_ascending; rewrite Heq; set_solver). apply (un_domain _ _ Hb) in Hh as Hsome. destruct Hsome as [l Hl]. unfold merge_range. rewrite (Hr h), Hl. cbn [fmap option_fmap option_map]. rewrite decide_False by done. cbn [expect mbind result_bind].
    pose proof (merge_sorted blocks l) as Hm. destruct (foldl merge_segment [] (sort_by_key segment_key l)) as [|z merged] eqn:Hfold; cbn [yields].
    + intros Hok. destruct (iv_live Hok h Hh) as (interval & s & Hin & Hs). assert (Hsl : s ∈ l) by (apply (un_segments _ _ Hb h l s Hl); eauto). apply versions_member in Hin as [_ Hin].
      destruct (iv_segment Hok interval s Hin Hs) as [Hse _]. apply (covers_nil (seg_block s) (seg_start s)). apply (me_covers _ _ _ Hm). exists s. split; [by apply elem_of_sort_by_key|]. split; [done|]. unfold in_segment. lia.
    + split.
      * intros x. destruct (decide (x = h)) as [->|Hx]; [rewrite lookup_insert_eq, Hl; cbn; rewrite decide_True by set_solver; by rewrite Hfold|]. rewrite lookup_insert_ne, Hr by done. destruct (before !! x); [|done]. cbn. f_equal. do 2 case_decide; set_solver.
      * intros x k Hx. destruct (decide (x = h)) as [->|Hxh]; [rewrite lookup_insert_eq; by intros [= <-]|]. rewrite lookup_insert_ne by done. apply Hne. apply elem_of_app in Hx as [?| ->%list_elem_of_singleton]; done.
      * assert (Hrl : ranges !! h = Some l) by (rewrite Hr, Hl; cbn; by rewrite decide_False). pose proof (total_update ranges h l (z :: merged) Hrl). pose proof (me_length _ _ _ Hm) as Hlm. rewrite sort_by_key_permutation in Hlm. lia.
Qed.
End homes.

(** ** The matrix of the colouring *)

Lemma as_u32_id i : Z.of_nat i < 2^32 -> as_u32 i = Z.of_nat i.
Proof. intros. unfold as_u32. apply Z.mod_small. lia. Qed.

Section first_fit.
Context (cfg : NormalizedCfg) (ranges : list (list LiveSegment)) (Hu32 : Z.of_nat (length ranges) <= 2^32) (Hnonempty : forall l, l ∈ ranges -> l <> []).
Abbreviation n := (length ranges).

Definition size_of (bs : list nat) : nat := sum_list_with (fun i => length (default [] (ranges !! i))) bs.

Lemma size_of_perm l k : l ≡ₚ k -> size_of l = size_of k.
Proof. induction 1; unfold size_of in *; cbn; lia. Qed.

(** What the limits of the matrix cannot hold. *)
Definition too_many : Prop := NONE < Z.of_nat (size_of (seq 0 n)) \/ NONE <= Z.of_nat n.

Definition bad_ranges : Prop := ~ cfg_ok cfg \/ (exists l, l ∈ ranges /\ ~ segments_ok (cfg_block_index cfg) l) \/ too_many.

(** The matrix after the bundles [pre]. *)
Record placed (pre : list nat) (m : DynamicIntervalMatrix) (R : gmap Z (list LiveSegment)) : Prop := {
  pl_built : built cfg m R;
  pl_ranges c l : R !! c = Some l <-> exists i, i ∈ pre /\ c = Z.of_nat i /\ ranges !! i = Some l;
  pl_total : total R = size_of pre }.

Lemma range_made m R l : built cfg m R -> segments_ok (cfg_block_index cfg) l -> exists r, make_range m l = Ok r /\ validated (E:=IntervalUnionError) r = Ok r /\ range_ok (index m) l r.
Proof.
  intros [Hk _]%built_ok Hl. pose proof (make_range_made cfg m l Hk) as Hs. unfold made_range in Hs. destruct (make_range m l) as [r|e|]; cbn in Hs; [|done..]. exists r. split; [done|].
  unfold validated in *. by case_decide.
Qed.

Lemma make_range_refused m R l : built cfg m R -> yields (fun _ => ~ segments_ok (cfg_block_index cfg) l) (fun _ => True) (make_range m l).
Proof.
  intros [Hk _]%built_ok. pose proof (make_range_made cfg m l Hk) as Hs. unfold made_range in Hs. destruct (make_range m l) as [r|e|]; cbn in *; done.
Qed.

(** The assignment of one more bundle to a slot that is free for it. *)
Lemma place_bundle pre i rest m R l slot r : placed pre m R -> pre ++ i :: rest ≡ₚ seq 0 n -> ranges !! i = Some l -> range_ok (index m) l r -> make_range m l = Ok r -> validated (E:=IntervalUnionError) r = Ok r ->
  (slot <= length (unions m))%nat -> (forall b p, covers l b p -> ~ slot_covers m R slot b p) -> (Z.of_nat (length (unions m)) < NONE \/ too_many) ->
  yields (fun _ => too_many) (fun m' => placed (pre ++ [i]) m' (<[Z.of_nat i := l]> R) /\ assignments m' = <[Z.of_nat i := slot]> (assignments m) /\ length (unions m') = Nat.max (length (unions m)) (S slot))
    (assign_bundle m i slot r).
Proof.
  intros [Hb HR Ht] Hperm Hl Hr Hmake Hval Hslot Hfree Hmany. assert (Hnd : NoDup (pre ++ i :: rest)) by (rewrite Hperm; apply NoDup_seq).
  assert (Hin : (i < n)%nat) by eauto with index. assert (Hpre : i ∉ pre) by (apply NoDup_app in Hnd as (_ & Hdis & _); intros Hi; apply (Hdis i Hi); by left).
  assert (HRi : R !! Z.of_nat i = None). { apply eq_None_not_Some. intros [k Hk]. apply HR in Hk as (j & Hj & Heq & _). apply Nat2Z.inj in Heq as ->. done. }
  unfold assign_bundle. rewrite Hval. cbn [mbind result_bind]. rewrite as_u32_id by lia. destruct (built_ok cfg m R Hb) as [Hk Hm].
  pose proof (assign_validated_spec (index m) _ (kn_index _ _ Hk) m R Hm l r Hr (Z.of_nat i) slot) as Hs.
  destruct (assign_validated (Z.of_nat i) slot r m) as [m' [[]|e|]] eqn:Ha; [| |done]; cbn [yields].
  - destruct Hs as (Hm' & Hass & _ & _ & Hlen & _). split; [|done]. split.
    + eapply built_assign; [done| |exact Ha]. unfold made_range. rewrite Hmake. cbn [mbind result_bind]. exact Hval.
    + intros c k. destruct (decide (c = Z.of_nat i)) as [->|Hne].
      * rewrite lookup_insert_eq. split; [intros [= <-]; exists i; split; [set_solver|done]|]. intros (j & _ & Heq & Hj). apply Nat2Z.inj in Heq as <-. congruence.
      * rewrite lookup_insert_ne, HR by done. setoid_rewrite elem_of_app. setoid_rewrite list_elem_of_singleton. split; [naive_solver|]. intros (j & [Hj| ->] & -> & Hl'); [eauto|done].
    + rewrite total_insert by done. unfold size_of in *. rewrite sum_list_with_app. cbn. rewrite Hl. cbn. lia.
  - assert (Hdup : ~ is_Some (assignments m !! Z.of_nat i)) by (rewrite (mo_domain _ _ _ _ Hm), HRi; by intros [? ?]). 
    assert (Hne : l <> []) by (apply Hnonempty; by eapply list_elem_of_lookup_2).
    assert (Hsize : Z.of_nat (total R) + Z.of_nat (length l) <= Z.of_nat (size_of (seq 0 n))).
    { rewrite Ht, <- (size_of_perm _ _ Hperm). unfold size_of. rewrite sum_list_with_app. cbn. rewrite Hl. cbn. lia. }
    assert (Hrefused : refused m R l slot e -> too_many).
    { intros [[_ ?]|[[_ (b & p & Hc & Hsc)]|[_ ?]]]; [done|by destruct (Hfree b p Hc)|left; lia]. }
    unfold not_assigned in Hs. destruct (rule e); first [exact (Hrefused Hs)|by destruct (Hdup Hs)|exfalso; lia|destruct Hmany; [exfalso; lia|done]].
Qed.

Lemma placed_perm pre pre' m R : pre ≡ₚ pre' -> placed pre m R -> placed pre' m R.
Proof. intros Hp [Hb HR Ht]. split; [done| |by rewrite <- (size_of_perm _ _ Hp)]. intros c l. rewrite HR. by setoid_rewrite Hp. Qed.

Lemma color_order_perm homes : color_order homes ranges ≡ₚ seq 0 n.
Proof.
  unfold color_order. rewrite sort_by_key_permutation. rewrite <- list_fmap_compose. unfold compose. cbn. change (fun x : nat * list LiveSegment => x.1) with (@fst nat (list LiveSegment)). rewrite fst_zip; [done|]. by rewrite length_seq.
Qed.

Lemma matrix_new_yields fresh : yields (fun _ => ~ cfg_ok cfg) (fun m => placed [] m ∅ /\ unions m = []) (matrix_new fresh cfg).
Proof.
  destruct (matrix_new fresh cfg) as [m|e|] eqn:Hm; cbn.
  - split; [|unfold matrix_new in Hm; destruct (IntervalIndex_new cfg); cbn in Hm; [by injection Hm as <-|done..]]. split; [by eapply built_new| |done]. intros c l. rewrite lookup_empty. split; [done|]. by intros (i & ?%not_elem_of_nil & _).
  - unfold matrix_new in Hm. pose proof (IntervalIndex_new_spec cfg) as Hs. destruct (IntervalIndex_new cfg); cbn in Hm, Hs; try done. by destruct Hs.
  - unfold matrix_new in Hm. pose proof (IntervalIndex_new_spec cfg) as Hs. by destruct (IntervalIndex_new cfg).
Qed.

Lemma color_matrix_spec fresh homes : yields (fun _ => bad_ranges) (fun m => exists R, placed (seq 0 n) m R /\ (length (unions m) <= n)%nat) (color_matrix fresh cfg homes ranges).
Proof.
  unfold color_matrix. pose proof (color_order_perm homes) as Hperm. eapply yields_bind; [eapply yields_weaken; [|apply matrix_new_yields]; by left|]. intros m0 [Hm0 Hu0].
  eapply yields_impl; [|apply (yields_foldM _ (fun pre m => exists R, placed pre m R /\ (length (unions m) <= length pre)%nat))].
  - intros m (R & Hp & Hlen). exists R. split; [by eapply placed_perm|]. rewrite Hperm, length_seq in Hlen. done.
  - exists ∅. by rewrite Hu0.
  - intros pre i post m Heq (R & Hp & Hlen). assert (Hord : pre ++ i :: post ≡ₚ seq 0 n) by (by rewrite <- Heq). assert (Hi : (i < n)%nat). { assert (Hin : i ∈ seq 0 n) by (rewrite <- Hord; set_solver). apply elem_of_seq in Hin. lia. }
    assert (Hlp : (length pre < n)%nat) by (rewrite <- (length_seq n 0), <- Hord, length_app; cbn; lia).
    in_range ranges i as l Hl. unfold color_bundle. rewrite Hl. cbn [expect mbind result_bind]. pose proof (make_range_refused m R l (pl_built _ _ _ Hp)) as Href.
    destruct (make_range m l) as [r|e|] eqn:Hmake; cbn [yields] in Href; [| |done]; cycle 1.
    { cbn. right. left. exists l. split; [by eapply list_elem_of_lookup_2|done]. }
    cbn [mbind result_bind]. destruct (built_ok cfg m R (pl_built _ _ _ Hp)) as [Hk Hm]. pose proof (make_range_made cfg m l Hk) as Hmade. unfold made_range in Hmade. rewrite Hmake in Hmade. cbn [mbind result_bind] in Hmade.
    assert (Hval : validated (E:=IntervalUnionError) r = Ok r) by (revert Hmade; unfold validated; by case_decide). rewrite Hval in *. cbn [yields mbind result_bind] in *.
    destruct (first_available_spec (index m) _ (kn_index _ _ Hk) m R Hm l r Hmade) as (slot & -> & Hslot & _ & Hfree & _). cbn [mbind result_bind].
    eapply yields_weaken; [|eapply yields_impl; [|eapply (place_bundle pre i post m R l slot r)]]; try done.
    + intros e ?. by right; right.
    + intros m' (Hp' & _ & Hlen'). eexists. split; [done|]. unfold slot_count in Hslot. rewrite length_app, Hlen'. cbn. lia.
    + intros b p Hc Hsc. destruct (decide (slot < slot_count m)%nat) as [Hlt|Hge]; [by apply (Hfree Hlt b p)|]. unfold slot_count in *. replace slot with (length (unions m)) in Hsc by lia. by eapply slot_new.
    + destruct (decide (Z.of_nat (length (unions m)) < NONE)); [by left|]. right. right. lia.
Qed.

Section rebuild.
Context (m : DynamicIntervalMatrix) (R : gmap Z (list LiveSegment)) (Hp : placed (seq 0 n) m R).

Lemma matrix_facts : known_index cfg m /\ matrix_ok (index m) (length (cfg_successors cfg)) m R.
Proof. apply built_ok. apply Hp. Qed.

Lemma ranges_of i : (i < n)%nat -> R !! Z.of_nat i = ranges !! i.
Proof.
  intros Hi. in_range ranges i as l Hl. rewrite Hl. apply (pl_ranges _ _ _ Hp). exists i. split; [|done]. apply elem_of_seq. lia.
Qed.

Lemma assigned i : (i < n)%nat -> exists s, assignments m !! Z.of_nat i = Some s.
Proof. intros Hi. destruct matrix_facts as [_ Hm]. apply (mo_domain _ _ _ _ Hm). rewrite (ranges_of i Hi). by apply lookup_lt_is_Some_2. Qed.

Lemma assigned_inv c s : assignments m !! c = Some s -> exists i, (i < n)%nat /\ c = Z.of_nat i.
Proof.
  intros Hc. destruct matrix_facts as [_ Hm]. destruct (proj1 (mo_domain _ _ _ _ Hm c)) as [l Hl]; [by eexists|]. apply (pl_ranges _ _ _ Hp) in Hl as (i & Hi%elem_of_seq & -> & _). exists i. split; [lia|done].
Qed.

Definition slot_of (i : nat) : nat := default 0%nat (assignments m !! Z.of_nat i).
Definition slot_pairs : list (nat * nat) := (fun i => (slot_of i, i)) <$> seq 0 n.

Lemma slot_of_spec i : (i < n)%nat -> assignments m !! Z.of_nat i = Some (slot_of i).
Proof. intros [s Hs]%assigned. unfold slot_of. by rewrite Hs. Qed.

Lemma rebuild_order_ok homes : length homes = n -> mapMr (fun bundle => s ← colored_slot homes m bundle; Ok (s, bundle)) (seq 0 (length homes)) = Ok slot_pairs.
Proof.
  intros Hh. rewrite Hh. apply mapMr_ok. intros i Hi%elem_of_seq. unfold colored_slot. in_range homes i as h Hhi. rewrite Hhi. cbn [expect mbind result_bind]. unfold SlotUnion.slot. rewrite as_u32_id by lia.
  rewrite slot_of_spec by lia. done.
Qed.

Abbreviation rebuild_order := (sort_by_key id slot_pairs).

Lemma rebuild_bundles : rebuild_order.*2 ≡ₚ seq 0 n.
Proof. rewrite sort_by_key_permutation. unfold slot_pairs. rewrite <- list_fmap_compose. unfold compose. cbn. by rewrite list_fmap_id. Qed.

Lemma rebuild_member s i : (s, i) ∈ rebuild_order <-> (i < n)%nat /\ s = slot_of i.
Proof. rewrite elem_of_sort_by_key. unfold slot_pairs. rewrite list_elem_of_fmap. setoid_rewrite elem_of_seq. split; [intros (j & [= -> ->] & ?); split; [lia|done]|]. intros [? ->]. exists i. split; [done|lia]. Qed.

(** The bundles [pre] are in the slots they have in [m], and no slot is
    missing below the last one. *)
Record rebuilt_ok (pre : list (nat * nat)) (m' : DynamicIntervalMatrix) : Prop := {
  rb_placed : exists R', placed pre.*2 m' R';
  rb_slots s i : (s, i) ∈ pre -> assignments m' !! Z.of_nat i = Some s;
  rb_length : length (unions m') = match last pre with Some si => S si.1 | None => 0%nat end }.

Lemma pair_nat_le (a b c d : nat) : (a, b) ⪯ (c, d) <-> (a < c)%nat \/ (a = c /\ (b <= d)%nat).
Proof. unfold ord_le. cbn. unfold lex_le, ord_le. simpl. lia. Qed.

(** Slots are rebuilt in order. *)
Lemma rebuild_slot pre s i post : rebuild_order = pre ++ (s, i) :: post -> match last pre with Some si => (si.1 <= s <= S si.1)%nat | None => s = 0%nat end.
Proof.
  intros Heq. destruct matrix_facts as [_ Hm]. assert (Hin : (s, i) ∈ rebuild_order) by (rewrite Heq; set_solver). apply rebuild_member in Hin as [Hi ->]. pose proof (slot_of_spec i Hi) as Ha. pose proof (mo_slot _ _ _ _ Hm _ _ Ha) as Hs.
  pose proof (sort_by_key_sorted id slot_pairs) as Hsort. rewrite Heq in Hsort. unfold key_le, id in Hsort.
  assert (Hbelow : forall s', (s' < slot_of i)%nat -> exists i', (s', i') ∈ pre).
  { intros s' Hs'. destruct (mo_used _ _ _ _ Hm s') as [c Hc]; [lia|]. destruct (assigned_inv c s' Hc) as (i' & Hi' & ->). exists i'. pose proof (slot_of_spec i' Hi') as Hi''. assert (s' = slot_of i') as -> by congruence.
    assert (Hin : (slot_of i', i') ∈ rebuild_order) by (by apply rebuild_member). rewrite Heq in Hin. apply elem_of_app in Hin as [|[[= Hsl _]|Hin]%elem_of_cons]; [done|lia|]. exfalso.
    apply StronglySorted_app in Hsort as (_ & _ & Hsort). apply StronglySorted_inv in Hsort as [_ Hsort]. rewrite Forall_forall in Hsort. specialize (Hsort _ Hin). apply pair_nat_le in Hsort. lia. }
  destruct (last pre) as [[s0 i0]|] eqn:Hlast.
  - cbn. split.
    { apply last_Some in Hlast as [k ->]. apply StronglySorted_app in Hsort as (Hk & _ & _). specialize (Hk (s0, i0) (slot_of i, i) ltac:(set_solver) ltac:(by left)). apply pair_nat_le in Hk. lia. }
    apply Nat.nlt_ge. intros Hlt. destruct (Hbelow (S s0) Hlt) as [i' Hi']. apply last_Some in Hlast as [k ->]. apply StronglySorted_app in Hsort as (_ & Hk & _). apply StronglySorted_app in Hk as (Hk & _ & _).
      apply elem_of_app in Hi' as [Hi'|Heq'%list_elem_of_singleton]; [|injection Heq'; lia]. specialize (Hk _ (s0, i0) Hi' ltac:(by left)). apply pair_nat_le in Hk. lia.
  - apply last_None in Hlast as ->. destruct (decide (slot_of i = 0)%nat); [lia|]. destruct (Hbelow 0%nat) as [? ?%not_elem_of_nil]; [lia|done].
Qed.

Context (Hcount : (length (unions m) <= n)%nat).

Lemma range_valid i l : ranges !! i = Some l -> segments_ok (cfg_block_index cfg) l.
Proof.
  intros Hl. destruct matrix_facts as [Hk Hm]. rewrite <- (kn_blocks _ _ Hk). apply (mo_ranges _ _ _ _ Hm (Z.of_nat i)). rewrite ranges_of; [done|eauto with index].
Qed.

Lemma rebuild_step pre s i post m' : rebuild_order = pre ++ (s, i) :: post -> rebuilt_ok pre m' -> yields (fun _ => too_many) (rebuilt_ok (pre ++ [(s, i)])) (rebuild_bundle ranges m' (s, i)).
Proof.
  intros Heq [[R' Hp'] Hslots Hlen]. pose proof (rebuild_slot pre s i post Heq) as Hs. destruct matrix_facts as [_ Hm].
  assert (Hin : (s, i) ∈ rebuild_order) by (rewrite Heq; set_solver). apply rebuild_member in Hin as [Hi Hsi]. in_range ranges i as l Hl. unfold rebuild_bundle. cbn [fst snd]. rewrite Hl. cbn [expect mbind result_bind].
  destruct (range_made m' R' l (pl_built _ _ _ Hp') (range_valid i l Hl)) as (r & Hmake & Hval & Hr). rewrite Hmake. cbn [mbind result_bind].
  assert (Hperm : pre.*2 ++ i :: post.*2 ≡ₚ seq 0 n) by (rewrite <- rebuild_bundles, Heq, fmap_app; done).
  assert (Hnd : NoDup (pre.*2 ++ i :: post.*2)) by (rewrite Hperm; apply NoDup_seq). apply NoDup_app in Hnd as (_ & Hdis & _).
  assert (Hin' : forall s' i', (s', i') ∈ pre -> (i' < n)%nat /\ s' = slot_of i') by (intros s' i' H; apply rebuild_member; rewrite Heq; set_solver).
  eapply yields_impl; [|eapply (place_bundle pre.*2 i post.*2 m' R' l s r)]; try done; [|rewrite Hlen; destruct (last pre); lia| |].
  - intros m'' (Hp'' & Hass & Hlen''). split.
    + exists (<[Z.of_nat i := l]> R'). by rewrite fmap_app.
    + intros s' i' [Hs'|[= -> ->]%list_elem_of_singleton]%elem_of_app; rewrite Hass; [|by rewrite lookup_insert_eq]. rewrite lookup_insert_ne; [by apply Hslots|].
      intros Heq'%Nat2Z.inj. subst i'. apply (Hdis i); [apply list_elem_of_fmap; by exists (s', i)|by left].
    + rewrite Hlen'', Hlen, last_snoc. destruct (last pre) as [[s0 i0]|]; cbn [fst] in *; lia.
  - intros b p Hc (c & l' & Hac & HRc & Hc'). apply (pl_ranges _ _ _ Hp') in HRc as (j & Hj & -> & Hl'). apply list_elem_of_fmap in Hj as ([s' j'] & -> & Hj). cbn in *. pose proof (Hslots s' j' Hj) as Hs'. assert (s' = s) as -> by congruence.
    destruct (Hin' s j' Hj) as [Hj' Hsj]. assert (Hij : i <> j') by (intros ->; apply (Hdis j'); [apply list_elem_of_fmap; by exists (s, j')|by left]).
    apply (mo_apart _ _ _ _ Hm (Z.of_nat i) (Z.of_nat j') s l l' b p); try done; [lia|rewrite slot_of_spec by done; congruence|rewrite slot_of_spec by done; congruence|by rewrite ranges_of|by rewrite ranges_of].
  - assert (Hle : (length (unions m') <= n)%nat).
    { rewrite Hlen. destruct (last pre) as [[s0 i0]|] eqn:Hlast; [|lia]. apply last_Some in Hlast as [k ->]. destruct (Hin' s0 i0) as [Hi0 ->]; [set_solver|]. pose proof (mo_slot _ _ _ _ Hm _ _ (slot_of_spec i0 Hi0)). cbn. lia. }
    destruct (decide (Z.of_nat (length (unions m')) < NONE)); [by left|]. right. right. lia.
Qed.

(** The rebuilt matrix equals the first one. *)
Lemma verify_coloring_spec fresh homes : length homes = n -> yields (fun _ => too_many) (fun _ => True) (verify_coloring fresh cfg homes ranges m).
Proof.
  intros Hh. destruct matrix_facts as [Hk Hm]. unfold verify_coloring. rewrite (matrix_verify_ok (index m) _ (kn_index _ _ Hk) m R Hm). cbn [map_err mbind result_bind].
  pose proof (matrix_new_yields fresh) as Hnew. destruct (matrix_new fresh cfg) as [m0|e|]; cbn [yields map_err mbind result_bind] in *; [| |done]; cycle 1.
  { destruct Hnew. exists (block_ids (arc_value (index m))). rewrite <- (kn_blocks _ _ Hk). apply Hk. }
  destruct Hnew as [Hp0 Hu0]. rewrite (rebuild_order_ok homes Hh). cbn [mbind result_bind].
  assert (Hall : yields (fun _ => too_many) (rebuilt_ok rebuild_order) (foldM (rebuild_bundle ranges) m0 rebuild_order)).
  { apply (yields_foldM _ rebuilt_ok).
    - split; [by exists ∅|by intros s i ?%not_elem_of_nil|by rewrite Hu0].
    - intros pre [s i] post m' Heq Hm'. by eapply rebuild_step. }
  destruct (foldM (rebuild_bundle ranges) m0 rebuild_order) as [m'|e|]; cbn [yields map_err mbind result_bind] in *; [|done..]. destruct Hall as [[R' Hp'] Hslots _].
  destruct (built_ok cfg m' R' (pl_built _ _ _ Hp')) as [Hk' Hm']. rewrite (matrix_verify_ok (index m') _ (kn_index _ _ Hk') m' R' Hm'). cbn [map_err mbind result_bind].
  pose proof (placed_perm _ _ _ _ rebuild_bundles Hp') as Hp''. assert (HR : R' = R). { apply map_eq. intros c. apply option_eq. intros l. by rewrite (pl_ranges _ _ _ Hp''), (pl_ranges _ _ _ Hp). }
  pose proof (built_index cfg m' R' m R (pl_built _ _ _ Hp') (pl_built _ _ _ Hp)) as Harc.
  destruct (matrix_eq_spec (index m') (index m) _ (kn_index _ _ Hk') Harc m' m R' R Hm' Hm (E:=StackColorError)) as (v & -> & Hv). cbn [mbind result_bind]. destruct v; [done|]. exfalso.
  assert (false = true); [|done]. apply Hv. assert (Hass : assignments m' = assignments m).
  { apply map_eq. intros c. destruct (R !! c) as [l|] eqn:Hc.
    - apply (pl_ranges _ _ _ Hp) in Hc as (i & Hi%elem_of_seq & -> & _). rewrite slot_of_spec by lia. apply Hslots, rebuild_member. split; [lia|done].
    - assert (Hnone : forall mm (Hmm : matrix_ok (index mm) (length (cfg_successors cfg)) mm R), assignments mm !! c = None) by (intros mm Hmm; apply eq_None_not_Some; rewrite (mo_domain _ _ _ _ Hmm), Hc; by intros [? ?]).
      rewrite (Hnone m Hm). apply Hnone. by rewrite <- HR. }
  split; [done|]. intros s b p. unfold slot_covers. by rewrite Hass, HR.
Qed.
End rebuild.
End first_fit.

(** ** Offsets *)

Section offsets.
Context (homes : list Z) (Hnd : NoDup homes) (m : DynamicIntervalMatrix) (Hu32 : Z.of_nat (length homes) <= 2^32).
Abbreviation n := (length homes).
Context (Hassigned : forall i, (i < n)%nat -> exists s, assignments m !! Z.of_nat i = Some s /\ (s < length (unions m))%nat) (Hcount : (length (unions m) <= n)%nat).

Lemma colored_slot_ok i h : homes !! i = Some h -> exists s, colored_slot homes m i = Ok s /\ assignments m !! Z.of_nat i = Some s /\ (s < length (unions m))%nat.
Proof.
  intros Hi. assert (Hin : (i < n)%nat) by eauto with index. destruct (Hassigned i Hin) as (s & Hs & Hlt). exists s. split; [|done]. unfold colored_slot. rewrite Hi. cbn [expect mbind result_bind]. unfold slot. rewrite as_u32_id by lia. by rewrite Hs.
Qed.

Lemma color_offsets_spec : yields (fun _ => 2^28 < Z.of_nat n)
  (fun c => frame_size c = 8 * Z.of_nat (color_slot_count c) /\ color_slot_count c = length (unions m) /\
    forall h o, offsets c !! h = Some o <-> exists i s, homes !! i = Some h /\ assignments m !! Z.of_nat i = Some s /\ o = 8 * Z.of_nat s) (color_offsets homes m).
Proof.
  unfold color_offsets. eapply yields_bind.
  - apply (yields_enumerate _ (fun k os => forall h o, os !! h = Some o <-> exists i s, (i < k)%nat /\ homes !! i = Some h /\ assignments m !! Z.of_nat i = Some s /\ o = 8 * Z.of_nat s)).
    + intros h o. rewrite lookup_empty. split; [done|]. intros (i & s & ? & _). lia.
    + intros k h os Hk Hos. unfold add_offset. cbn [fst snd]. destruct (colored_slot_ok k h Hk) as (s & -> & Hs & Hlt). cbn [mbind result_bind]. case_decide as Hbig; [|cbn; lia]. cbn [yields].
      intros h' o. destruct (decide (h' = h)) as [->|Hne].
      * rewrite lookup_insert_eq. split; [intros [= <-]; exists k, s; split_and!; [lia|done..]|]. intros (i & s' & _ & Hi & Hs' & ->). assert (i = k) as -> by (by eapply NoDup_lookup). congruence.
      * rewrite lookup_insert_ne, Hos by done. split; intros (i & s' & Hi & Hh & Ha & Ho); exists i, s'; (split_and!; [|done..]); [lia|]. destruct (decide (i = k)) as [->|]; [congruence|lia].
  - intros os Hos. cbn beta in Hos. unfold slot_count. case_decide as Hbig; [|cbn; lia]. cbn. split; [done|]. split; [done|]. intros h o. rewrite Hos. split; [intros (i & s & _ & ?); eauto|]. intros (i & s & Hi & ?). exists i, s. split; [eauto with index|done].
Qed.
End offsets.

(** ** The colouring *)

Lemma size_of_all (ranges : list (list LiveSegment)) : size_of ranges (seq 0 (length ranges)) = sum_list_with length ranges.
Proof.
  induction ranges as [|l ranges IH] using rev_ind; [done|]. rewrite length_app, Nat.add_1_r, seq_S, sum_list_with_app. unfold size_of in *. rewrite sum_list_with_app. cbn [sum_list_with Nat.add]. rewrite list_lookup_middle by done. cbn [default]. f_equal. rewrite <- IH.
  assert (Hext : forall bs, (forall i, i ∈ bs -> (i < length ranges)%nat) -> sum_list_with (fun i => length (default [] ((ranges ++ [l]) !! i))) bs = sum_list_with (fun i => length (default [] (ranges !! i))) bs).
  { induction bs as [|i bs IHb]; intros Hb; [done|]. cbn. rewrite lookup_app_l by (apply Hb; by left). rewrite IHb; [done|]. intros; apply Hb. by right. }
  apply Hext. intros i Hi%elem_of_seq. lia.
Qed.

Section coloring.
Context (fresh fresh' : nat) (cfg : NormalizedCfg) (intervals : list (option LiveInterval)) (version_homes : list Z) (homes : gset Z).
Abbreviation bundle_homes := (ascending homes).

(** Homes are [u32]s. *)
Context (Hu32 : forall h, h ∈ homes -> 0 <= h < 2^32).

(** Inputs beyond the limits of frame offsets and of node numbers. *)
Definition too_large : Prop := 2^28 < Z.of_nat (size homes) \/ NONE < Z.of_nat (segment_total intervals).

Definition inputs_refused : Prop := ~ cfg_ok cfg \/ ~ intervals_ok (cfg_block_index cfg) intervals version_homes homes \/ too_large.

Lemma bundle_homes_length : length bundle_homes = size homes.
Proof. unfold ascending. by rewrite merge_sort_Permutation. Qed.

Lemma bundle_homes_u32 : Z.of_nat (length bundle_homes) <= 2^32.
Proof.
  set (N := 2^32). assert (HN : 0 <= N) by done. assert (Hle : (length (Z.to_nat <$> bundle_homes) <= Z.to_nat N)%nat).
  { apply NoDup_bounded_length.
    - apply NoDup_fmap_2_strong; [|apply NoDup_ascending]. intros x y Hx%elem_of_ascending%Hu32 Hy%elem_of_ascending%Hu32 Heq. lia.
    - intros x (h & -> & Hh%elem_of_ascending%Hu32)%list_elem_of_fmap. fold N in Hh. lia. }
  rewrite length_fmap in Hle. lia.
Qed.

(** The ranges of the bundles. *)
Section ranges.
Context (ranges : gmap Z (list LiveSegment)) (Hr : home_ranges (cfg_block_index cfg) intervals version_homes homes ranges).
Definition bundle_ranges : list (list LiveSegment) := (fun h => default [] (ranges !! h)) <$> bundle_homes.

Lemma bundle_ranges_ok {E} : mapMr (fun home => expect (ranges !! home)) bundle_homes = Ok bundle_ranges :> result E _.
Proof. apply mapMr_ok. intros h Hh%elem_of_ascending%(hr_domain _ _ _ _ _ Hr). by destruct Hh as [l ->]. Qed.

Lemma bundle_ranges_length : length bundle_ranges = length bundle_homes.
Proof. apply length_fmap. Qed.

Lemma bundle_range i h : bundle_homes !! i = Some h -> exists l, ranges !! h = Some l /\ bundle_ranges !! i = Some l.
Proof.
  intros Hi. destruct (proj2 (hr_domain _ _ _ _ _ Hr h)) as [l Hl]; [by apply elem_of_ascending, (list_elem_of_lookup_2 _ i)|]. exists l. split; [done|]. unfold bundle_ranges. rewrite list_lookup_fmap, Hi. cbn. by rewrite Hl.
Qed.

Lemma bundle_range_inv l : l ∈ bundle_ranges -> exists h, ranges !! h = Some l.
Proof.
  intros (h & -> & Hh%elem_of_ascending)%list_elem_of_fmap. apply (hr_domain _ _ _ _ _ Hr) in Hh as [l Hl]. exists h. by rewrite Hl.
Qed.

Lemma bundle_ranges_nonempty l : l ∈ bundle_ranges -> l <> [].
Proof. intros [h Hh]%bundle_range_inv. by eapply hr_nonempty. Qed.

Lemma bundle_total : (size_of bundle_ranges (seq 0 (length bundle_ranges)) <= segment_total intervals)%nat.
Proof.
  rewrite size_of_all. etransitivity; [|apply (hr_total _ _ _ _ _ Hr)]. rewrite <- (sum_lookup ranges bundle_homes (NoDup_ascending _)).
  - unfold bundle_ranges. induction bundle_homes as [|h l IH]; [done|]. cbn. lia.
  - intros h. rewrite elem_of_ascending. apply (hr_domain _ _ _ _ _ Hr).
Qed.

Lemma too_many_large : too_many bundle_ranges -> too_large.
Proof.
  unfold too_many, too_large. rewrite <- bundle_homes_length. pose proof bundle_total. rewrite bundle_ranges_length in *. unfold NONE. lia.
Qed.

Lemma bad_ranges_refused : bad_ranges cfg bundle_ranges -> inputs_refused.
Proof.
  intros [?|[(l & [h Hl]%bundle_range_inv & Hbad)|?%too_many_large]]; [by left| |by right; right]. right. left. intros Hok. apply Hbad. by eapply hr_segments.
Qed.

(** From the matrix on. *)
Lemma color_ranges_spec (verify : bool) :
  yields (fun _ => inputs_refused) (fun c => (forall h, is_Some (offsets c !! h) <-> h ∈ homes) /\ frame_size c = 8 * Z.of_nat (color_slot_count c) /\ (color_slot_count c <= size homes)%nat /\
      (forall h o, offsets c !! h = Some o -> exists s, o = 8 * Z.of_nat s /\ (s < color_slot_count c)%nat) /\
      forall h h' o b p, h <> h' -> offsets c !! h = Some o -> offsets c !! h' = Some o -> home_live intervals version_homes h b p -> ~ home_live intervals version_homes h' b p)
    (matrix ← map_err (planned_union_error bundle_homes) (color_matrix fresh cfg bundle_homes bundle_ranges);
     _ ← (if verify then verify_coloring fresh' cfg bundle_homes bundle_ranges matrix else Ok tt);
     color_offsets bundle_homes matrix).
Proof.
  assert (Hn : Z.of_nat (length bundle_ranges) <= 2^32) by (rewrite bundle_ranges_length; apply bundle_homes_u32).
  pose proof (color_matrix_spec cfg bundle_ranges Hn bundle_ranges_nonempty fresh bundle_homes) as Hc. destruct (color_matrix fresh cfg bundle_homes bundle_ranges) as [m|e|]; cbn [yields map_err mbind result_bind] in *; [|by apply bad_ranges_refused|done].
  destruct Hc as (R & Hp & Hlen). rewrite bundle_ranges_length in Hlen. eapply (yields_bind _ (fun _ => True)).
  { destruct verify; [|done]. eapply yields_weaken; [|apply (verify_coloring_spec cfg bundle_ranges Hn bundle_ranges_nonempty m R Hp)]; [|by rewrite bundle_ranges_length|by rewrite bundle_ranges_length]. intros e He. right. right. by apply too_many_large. }
  intros _ _. destruct (matrix_facts cfg bundle_ranges m R Hp) as [Hk Hm].
  assert (Hass : forall i, (i < length bundle_homes)%nat -> exists s, assignments m !! Z.of_nat i = Some s /\ (s < length (unions m))%nat).
  { intros i Hi. destruct (assigned cfg bundle_ranges m R Hp i) as [s Hs]; [by rewrite bundle_ranges_length|]. exists s. split; [done|]. by apply (mo_slot _ _ _ _ Hm) in Hs. }
  pose proof (color_offsets_spec bundle_homes (NoDup_ascending _) m bundle_homes_u32 Hass Hlen) as Ho. eapply yields_weaken; [|eapply yields_impl; [|exact Ho]].
  { intros e He. right. right. left. by rewrite <- bundle_homes_length. }
  intros c (Hframe & Hcount & Hoff). split; [|split; [done|split; [rewrite Hcount, <- bundle_homes_length; exact Hlen|split]]].
  - intros h. rewrite <- elem_of_ascending. split.
    + intros [o Ho']. apply Hoff in Ho' as (i & _ & Hi & _). by eapply list_elem_of_lookup_2.
    + intros [i Hi]%list_elem_of_lookup. destruct (Hass i) as (s & Hs & _); [eauto with index|]. exists (8 * Z.of_nat s). apply Hoff. eauto.
  - intros h o (i & s & Hi & Hs & ->)%Hoff. exists s. split; [done|]. rewrite Hcount. by apply (mo_slot _ _ _ _ Hm) in Hs.
  - intros h h' o b p Hne (i & s & Hi & Hs & ->)%Hoff (i' & s' & Hi' & Hs' & Heq)%Hoff Hlive Hlive'. assert (s' = s) as -> by lia.
    destruct (bundle_range i h Hi) as (l & Hl & Hli). destruct (bundle_range i' h' Hi') as (l' & Hl' & Hli'). assert (Hii : i <> i') by (intros ->; congruence).
    apply (mo_apart _ _ _ _ Hm (Z.of_nat i) (Z.of_nat i') s l l' b p); try done; [lia| | | |].
    + rewrite (ranges_of cfg bundle_ranges m R Hp); [done|eauto with index].
    + rewrite (ranges_of cfg bundle_ranges m R Hp); [done|eauto with index].
    + by apply (hr_covers _ _ _ _ _ Hr h l b p Hl).
    + by apply (hr_covers _ _ _ _ _ Hr h' l' b p Hl').
Qed.

Lemma verify_passes m : ~ too_large -> color_matrix fresh cfg bundle_homes bundle_ranges = Ok m -> verify_coloring fresh' cfg bundle_homes bundle_ranges m = Ok tt.
Proof.
  intros Hsmall Hcm. assert (Hn : Z.of_nat (length bundle_ranges) <= 2^32) by (rewrite bundle_ranges_length; apply bundle_homes_u32).
  pose proof (color_matrix_spec cfg bundle_ranges Hn bundle_ranges_nonempty fresh bundle_homes) as Hc. rewrite Hcm in Hc. destruct Hc as (R & Hp & Hlen).
  pose proof (verify_coloring_spec cfg bundle_ranges Hn bundle_ranges_nonempty m R Hp Hlen fresh' bundle_homes ltac:(by rewrite bundle_ranges_length)) as Hv.
  destruct (verify_coloring fresh' cfg bundle_homes bundle_ranges m) as [[]|e|]; [done| |done]. cbn in Hv. by destruct Hsmall; apply too_many_large.
Qed.
End ranges.
End coloring.

Section properties.
Context (cfg : NormalizedCfg).
Implicit Types (m : DynamicIntervalMatrix) (R : gmap Z (list LiveSegment)).

Lemma made_ok m R segments r : built cfg m R -> made_range m segments = Ok r -> range_ok (index m) segments r.
Proof. intros [Hk _]%built_ok Hr. pose proof (make_range_made cfg m segments Hk) as Hs. by rewrite Hr in Hs. Qed.

(** C29: assigning a range to a slot of a matrix built by earlier assignments
    records it for that slot and nothing else, exactly when the bundle is new,
    the slot is at most one past the last, the range is not empty and shares
    no point with the ranges of the slot; otherwise the error says which of
    these failed or which limit was reached. The matrix then passes its own
    verification. *)
Theorem assign_validated_correct m R segments r bundle slot (Hm : built cfg m R) (Hr : made_range m segments = Ok r) :
  match assign_validated bundle slot r m with
  | (m', Ok _) => built cfg m' (<[bundle := segments]> R) /\ assignments m !! bundle = None /\ assignments m' = <[bundle := slot]> (assignments m) /\ matrix_verify m' = Ok tt /\
      (forall b p, covers segments b p -> ~ slot_covers m R slot b p) /\
      forall s b p, slot_covers m' (<[bundle := segments]> R) s b p <-> slot_covers m R s b p \/ (s = slot /\ covers segments b p)
  | (_, Err e) => not_assigned m R segments bundle slot e
  | (_, Panic) => False
  end.
Proof.
  destruct (built_ok cfg m R Hm) as [Hk Hok]. pose proof (assign_validated_spec (index m) _ (kn_index _ _ Hk) m R Hok segments r (made_ok m R segments r Hm Hr) bundle slot) as Hs.
  destruct (assign_validated bundle slot r m) as [m' [[]|e|]] eqn:Ha; [|done..]. destruct Hs as (Hok' & Hass & Hnone & _ & _ & Hfree).
  assert (HR : R !! bundle = None) by (apply eq_None_not_Some; rewrite <- (mo_domain _ _ _ _ Hok), Hnone; by intros [? ?]).
  split; [by eapply built_assign|]. split; [done|]. split; [done|]. split; [|split; [done|intros; by apply slot_covers_insert]].
  apply (matrix_verify_ok (index m) _ (kn_index _ _ Hk) m' _ Hok').
Qed.

(** C30: first fit returns the least slot with no range that shares a point
    with the given one, or the number of slots when there is none. For the
    empty range, which shares no point with any, it does not search: it
    returns the number of slots. *)
Theorem first_available_least m R segments r (Hm : built cfg m R) (Hr : made_range m segments = Ok r) :
  exists slot, first_available_validated m r = Ok slot /\ (slot <= slot_count m)%nat /\ (forall b p, covers segments b p -> ~ slot_covers m R slot b p) /\
    (segments <> [] -> forall slot', (slot' < slot)%nat -> exists b p, covers segments b p /\ slot_covers m R slot' b p) /\
    (segments = [] -> slot = slot_count m).
Proof.
  destruct (built_ok cfg m R Hm) as [Hk Hok]. destruct (first_available_spec (index m) _ (kn_index _ _ Hk) m R Hok segments r (made_ok m R segments r Hm Hr)) as (slot & Hs & Hle & Hlow & Hfree & Hnil).
  exists slot. split; [done|]. split; [done|]. split; [|by split]. intros b p Hc Hsc. destruct (decide (slot < slot_count m)%nat) as [Hlt|Hge]; [by apply (Hfree Hlt b p)|].
  unfold slot_count in *. replace slot with (length (unions m)) in Hsc by lia. by eapply slot_new.
Qed.

(** C28: equality of matrices built for the same function compares what the
    slots hold and not how the ranges were inserted: it holds exactly when
    the bundles have the same slots and every slot covers the same points. *)
Theorem matrix_eq_exact m R m' R' (Hm : built cfg m R) (Hm' : built cfg m' R') :
  exists v, matrix_eq (E:=Empty_set) m m' = Ok v /\ (v = true <-> assignments m = assignments m' /\ forall s b p, slot_covers m R s b p <-> slot_covers m' R' s b p).
Proof.
  destruct (built_ok cfg m R Hm) as [Hk Hok]. destruct (built_ok cfg m' R' Hm') as [_ Hok'].
  exact (matrix_eq_spec (index m) (index m') _ (kn_index _ _ Hk) (built_index cfg m R m' R' Hm Hm') m m' R R' Hok Hok').
Qed.

(** C27: a successful colouring gives every home an offset of eight bytes in
    the frame, and homes that are live at a common point get different ones;
    there are at most as many slots as homes. It fails only when the blocks
    of the function or the intervals are malformed or exceed a limit, and
    never panics; within the limits, verification changes no answer. *)
Theorem color_planned_correct (fresh fresh' : nat) (intervals : list (option LiveInterval)) (version_homes : list Z) (homes : gset Z) (verify : bool)
  (Hu32 : forall h, h ∈ homes -> 0 <= h < 2^32) :
  match color_planned_stack_program fresh fresh' cfg (Ok intervals) version_homes homes verify with
  | Ok c => (forall h, is_Some (offsets c !! h) <-> h ∈ homes) /\ frame_size c = 8 * Z.of_nat (color_slot_count c) /\ (color_slot_count c <= size homes)%nat /\
      (forall h o, offsets c !! h = Some o -> exists s, o = 8 * Z.of_nat s /\ (s < color_slot_count c)%nat) /\
      forall h h' o b p, h <> h' -> offsets c !! h = Some o -> offsets c !! h' = Some o -> home_live intervals version_homes h b p -> ~ home_live intervals version_homes h' b p
  | Err _ => inputs_refused cfg intervals version_homes homes
  | Panic => False
  end /\
  (too_large intervals homes \/ color_planned_stack_program fresh fresh' cfg (Ok intervals) version_homes homes verify = color_planned_stack_program fresh fresh' cfg (Ok intervals) version_homes homes false).
Proof.
  unfold color_planned_stack_program. case_decide as Hempty.
  { subst homes. split; [|by right]. cbn [offsets frame_size color_slot_count]. split; [intros h; rewrite lookup_empty; split; [by intros [? ?]|set_solver]|].
    split; [done|]. split; [lia|]. split; [intros h o; by rewrite lookup_empty|]. intros h h' o b p _ Ho. by rewrite lookup_empty in Ho. }
  cbn [mbind result_bind]. pose proof (merge_home_segments_spec (cfg_block_index cfg) intervals version_homes homes) as Hmerge.
  destruct (merge_home_segments intervals version_homes homes) as [ranges|e|]; cbn [yields mbind result_bind] in *; [|split; [by right; left|by right]|done]. cbv zeta.
  rewrite (bundle_ranges_ok cfg intervals version_homes homes ranges Hmerge). cbn [mbind result_bind]. split.
  - pose proof (color_ranges_spec fresh fresh' cfg intervals version_homes homes Hu32 ranges Hmerge verify) as Hs.
    by destruct (map_err _ _ ≫= _) as [c|e|].
  - destruct verify; [|by right]. destruct (color_matrix fresh cfg (ascending homes) (bundle_ranges homes ranges)) as [m|e|] eqn:Hm; cbn [map_err mbind result_bind]; [|by right..].
    destruct (decide (2^28 < Z.of_nat (size homes))) as [?|Hn]; [by left; left|]. destruct (decide (NONE < Z.of_nat (segment_total intervals))) as [?|Hs]; [by left; right|]. right.
    rewrite (verify_passes fresh fresh' cfg intervals version_homes homes Hu32 ranges Hmerge m); [done| |done]. by intros [?|?].
Qed.
End properties.

(** ** Instances *)

Definition no_matrix : DynamicIntervalMatrix := Matrix (ArcOf 0 (Index ∅ [])) [] ∅ [].
Definition example_new : DynamicIntervalMatrix := match matrix_new 0 two_blocks with Ok m => m | _ => no_matrix end.
Definition example_range (m : DynamicIntervalMatrix) (segments : list LiveSegment) : SparseRange :=
  match made_range m segments with Ok r => r | _ => Range (index m) [] [] end.
Definition example_assign (m : DynamicIntervalMatrix) (bundle : Z) (segments : list LiveSegment) : DynamicIntervalMatrix :=
  (assign_validated bundle 0 (example_range m segments) m).1.
Definition low : list LiveSegment := [Segment 3 0 4; Segment 7 0 2].
Definition high : list LiveSegment := [Segment 3 4 6].
(** Both orders of insertion; the ranges are adjacent in block 3. *)
Definition low_first : DynamicIntervalMatrix := example_assign (example_assign example_new 0 low) 1 high.
Definition high_first : DynamicIntervalMatrix := example_assign (example_assign example_new 1 high) 0 low.

Lemma example_new_built : built two_blocks example_new ∅.
Proof. apply (built_new two_blocks 0). vm_compute. reflexivity. Qed.

Lemma low_first_built : built two_blocks low_first (<[1 := high]> (<[0 := low]> ∅)).
Proof.
  eapply (built_assign two_blocks (example_assign example_new 0 low) _ high (example_range (example_assign example_new 0 low) high) 1 0); [|vm_compute; reflexivity|vm_compute; reflexivity].
  eapply (built_assign two_blocks example_new _ low (example_range example_new low) 0 0); [apply example_new_built|vm_compute; reflexivity|vm_compute; reflexivity].
Qed.

Lemma high_first_built : built two_blocks high_first (<[0 := low]> (<[1 := high]> ∅)).
Proof.
  eapply (built_assign two_blocks (example_assign example_new 1 high) _ low (example_range (example_assign example_new 1 high) low) 0 0); [|vm_compute; reflexivity|vm_compute; reflexivity].
  eapply (built_assign two_blocks example_new _ high (example_range example_new high) 1 0); [apply example_new_built|vm_compute; reflexivity|vm_compute; reflexivity].
Qed.

Lemma assign_validated_correct_witness :
  built two_blocks (example_assign example_new 0 low) (<[0 := low]> ∅) /\ matrix_verify (example_assign example_new 0 low) = Ok tt.
Proof.
  pose proof (assign_validated_correct two_blocks example_new ∅ low (example_range example_new low) 0 0 example_new_built ltac:(vm_compute; reflexivity)) as Hs.
  assert (Ha : assign_validated 0 0 (example_range example_new low) example_new = (example_assign example_new 0 low, Ok tt)) by (vm_compute; reflexivity).
  rewrite Ha in Hs. split; apply Hs.
Defined.

Lemma first_available_least_witness : first_available_validated low_first (example_range low_first [Segment 3 5 7]) = Ok 1%nat /\
  exists b p, covers [Segment 3 5 7] b p /\ slot_covers low_first (<[1 := high]> (<[0 := low]> ∅)) 0 b p.
Proof.
  destruct (first_available_least two_blocks low_first _ [Segment 3 5 7] (example_range low_first [Segment 3 5 7]) low_first_built ltac:(vm_compute; reflexivity)) as (slot & Hs & _ & _ & Hlow & _).
  assert (Hone : first_available_validated low_first (example_range low_first [Segment 3 5 7]) = Ok 1%nat) by (vm_compute; reflexivity).
  split; [exact Hone|]. apply Hlow; [discriminate|]. rewrite Hone in Hs. injection Hs as <-. lia.
Defined.

Lemma matrix_eq_exact_witness : matrix_eq (E:=Empty_set) low_first high_first = Ok true /\
  forall s b p, slot_covers low_first (<[1 := high]> (<[0 := low]> ∅)) s b p <-> slot_covers high_first (<[0 := low]> (<[1 := high]> ∅)) s b p.
Proof.
  destruct (matrix_eq_exact two_blocks low_first _ high_first _ low_first_built high_first_built) as (v & Hv & Hspec).
  assert (Ht : matrix_eq (E:=Empty_set) low_first high_first = Ok true) by (vm_compute; reflexivity).
  split; [exact Ht|]. rewrite Ht in Hv. injection Hv as <-. by apply Hspec.
Defined.

Lemma color_planned_correct_witness : exists c, color_planned_stack_program 0 1 two_blocks (Ok example_intervals) [10; 11; 12; 10] {[10; 11; 12]} true = Ok c /\ color_slot_count c = 2%nat /\
  forall h h' o b p, h <> h' -> offsets c !! h = Some o -> offsets c !! h' = Some o -> home_live example_intervals [10; 11; 12; 10] h b p -> ~ home_live example_intervals [10; 11; 12; 10] h' b p.
Proof.
  eexists. split; [exact homes_share_a_slot|]. split; [reflexivity|].
  assert (Hu32 : forall h, h ∈ ({[10; 11; 12]} : gset Z) -> 0 <= h < 2^32) by (intros h; rewrite !elem_of_union, !elem_of_singleton; lia).
  destruct (color_planned_correct two_blocks 0 1 example_intervals [10; 11; 12; 10] {[10; 11; 12]} true Hu32) as [Hs _]. rewrite homes_share_a_slot in Hs. apply Hs.
Defined.
