(* ===== verification/Semidominators.v ===== *)
(** * Semidominators: the theory behind Lengauer-Tarjan

    Nodes are the numbers 1 to [N] of a depth-first search from node 1. From
    three facts about the numbering this file derives how semidominators are
    computed from smaller ones and how they determine dominance, without an
    immediate-dominator function: a statement about a node compares its strict
    dominators with the dominators of another node. *)

From S2P Require Import Prelude.

Section theory.
Context (N : nat) (E : nat -> nat -> Prop) (parent : nat -> nat).
Implicit Types (a b c d s u v w x y : nat) (l : list nat).

(** [a] is [b] or an ancestor of it in the search tree. *)
Inductive anc a : nat -> Prop :=
  | anc_refl : anc a a
  | anc_up b : (2 <= b <= N)%nat -> anc a (parent b) -> anc a b.

Record numbering_ok : Prop := {
  nk_edge a b : E a b -> (1 <= a <= N)%nat /\ (1 <= b <= N)%nat;
  nk_parent b : (2 <= b <= N)%nat -> (1 <= parent b < b)%nat /\ E (parent b) b;
  nk_forward a b : E a b -> (a < b)%nat -> anc a b;
  nk_interval a b c : anc a c -> (a <= b <= c)%nat -> anc a b }.
Context (Hok : numbering_ok).

Lemma anc_le a b : anc a b -> (a <= b)%nat.
Proof. induction 1 as [|b Hb _ IH]; [done|]. pose proof (nk_parent Hok b Hb). lia. Qed.

Lemma anc_trans a b c : anc a b -> anc b c -> anc a c.
Proof. intros Hab. induction 1 as [|c Hc _ IH]; [done|]. by apply anc_up. Qed.

Lemma anc_linear a b c : anc a c -> anc b c -> anc a b \/ anc b a.
Proof.
  intros Ha Hb. assert (Hac := anc_le _ _ Ha). assert (Hbc := anc_le _ _ Hb). destruct (decide (a <= b)%nat).
  - left. eapply (nk_interval Hok); [exact Ha|lia].
  - right. eapply (nk_interval Hok); [exact Hb|lia].
Qed.

Lemma anc_strict a b : anc a b -> a <> b -> (2 <= b <= N)%nat /\ anc a (parent b).
Proof. intros [|? ? ?]; done. Qed.

(** ** Walks *)

(** [l] is the nodes of a walk from [a] to [b], both included. *)
Inductive walk : nat -> list nat -> nat -> Prop :=
  | walk_one a : walk a [a] a
  | walk_cons a b l c : E a b -> walk b l c -> walk a (a :: l) c.

Lemma walk_head a l b : walk a l b -> exists l', l = a :: l'.
Proof. destruct 1; eauto. Qed.

Lemma walk_app a l b l' c : walk a l b -> walk b (b :: l') c -> walk a (l ++ l') c.
Proof. induction 1 as [|a x l b He Hw IH]; intros Hw'; [done|]. cbn. econstructor; [done|]. by apply IH. Qed.

Lemma walk_snoc a l b c : walk a l b -> E b c -> walk a (l ++ [c]) c.
Proof. intros Hw He. eapply walk_app; [done|]. econstructor; [done|constructor]. Qed.

Lemma walk_end a l b : walk a l b -> b ∈ l.
Proof. induction 1; set_solver. Qed.

(** A walk splits at each of its nodes. *)
Lemma walk_split a l1 x l2 b : walk a (l1 ++ x :: l2) b -> walk a (l1 ++ [x]) x /\ walk x (x :: l2) b.
Proof.
  revert a. induction l1 as [|y l1 IH]; intros a Hw; cbn in *.
  - destruct (walk_head _ _ _ Hw) as [l' [= ->]]. split; [constructor|done].
  - inversion Hw as [|? z ? ? He Hw']; subst; [by destruct l1|]. destruct (IH z Hw') as [H1 H2].
    split; [|done]. by econstructor.
Qed.

Lemma walk_last a l b : walk a l b -> last l = Some b.
Proof.
  induction 1 as [|a x l b He Hw IH]; [done|]. destruct l as [|y l]; [inversion Hw|]. done.
Qed.

(** A tree path: its nodes are between its ends. *)
Lemma anc_walk a b : anc a b -> exists l, walk a l b /\ forall x, x ∈ l -> anc a x /\ anc x b.
Proof.
  induction 1 as [|b Hb Ha IH].
  - exists [a]. split; [constructor|]. intros x ->%list_elem_of_singleton. split; constructor.
  - destruct IH as (l & Hw & Hl). exists (l ++ [b]). split; [eapply walk_snoc; [done|by apply (nk_parent Hok)]|].
    intros x [[Hax Hxp]%Hl| ->%list_elem_of_singleton]%elem_of_app.
    + split; [done|]. by apply anc_up.
    + split; [by apply anc_up|constructor].
Qed.

(** The path lemma: a walk whose start is its least node stays below it in
    the tree. *)
Lemma walk_min a l b : walk a l b -> (forall x, x ∈ l -> (a <= x)%nat) -> anc a b.
Proof.
  intros Hw Hmin. assert (Hgo : forall pre x post, l = pre ++ x :: post -> anc a x).
  { intros pre. induction pre as [|y pre IH] using rev_ind; intros x post Hl.
    - rewrite Hl in Hw. destruct (walk_head _ _ _ Hw) as [? [= ->]]. constructor.
    - assert (Hy : anc a y) by (apply (IH y (x :: post)); by rewrite Hl, <- app_assoc).
      assert (He : E y x).
      { rewrite Hl, <- app_assoc in Hw. apply walk_split in Hw as [_ Hw]. inversion Hw as [|? z ? ? He Hw']; subst.
        destruct (walk_head _ _ _ Hw') as [? [= ->]]. done. }
      assert (a <= x)%nat by (apply Hmin; rewrite Hl; set_solver).
      destruct (decide (y < x)%nat) as [Hlt|Hge]; [eapply anc_trans; [done|by apply (nk_forward Hok)]|].
      eapply (nk_interval Hok); [exact Hy|lia]. }
  apply walk_last in Hw as Hlast. apply last_Some in Hlast as [pre ->]. by apply (Hgo pre b []).
Qed.

(** ** Semidominators *)

(** A walk from [v] to [w] whose inner nodes are greater than [w]. *)
Definition semipath v w : Prop := exists l, walk v (v :: l ++ [w]) w /\ forall x, x ∈ l -> (w < x)%nat.

Definition semi_of w s : Prop := semipath s w /\ forall v, semipath v w -> (s <= v)%nat.

Lemma semipath_edge v w : E v w -> semipath v w.
Proof. intros He. exists []. cbn. split; [econstructor; [done|constructor]|]. by intros x ?%not_elem_of_nil. Qed.

Lemma semi_lt w s : (2 <= w <= N)%nat -> semi_of w s -> (s < w)%nat /\ (1 <= s)%nat.
Proof.
  intros Hw [(l & Hp & _) Hmin]. destruct (nk_parent Hok w Hw) as [Hpw He%semipath_edge].
  split; [specialize (Hmin _ He); lia|]. inversion Hp as [|? z ? ? He' _]; subst; [by destruct l|].
  apply (nk_edge Hok) in He'. lia.
Qed.

Lemma semipath_anc v w : (v < w)%nat -> semipath v w -> anc v w.
Proof.
  intros Hlt (l & Hw & Hl). eapply walk_min; [done|]. intros x [->|[Hx| ->%list_elem_of_singleton]%elem_of_app]%elem_of_cons; [done| |lia].
  specialize (Hl x Hx). lia.
Qed.

Lemma semi_anc w s : (2 <= w <= N)%nat -> semi_of w s -> anc s w.
Proof. intros Hw Hs. destruct (semi_lt w s Hw Hs). by apply semipath_anc, Hs. Qed.

(** The least node of a nonempty list, at its first occurrence. *)
Lemma first_least l : l <> [] -> exists pre x post, l = pre ++ x :: post /\ (forall y, y ∈ pre -> (x < y)%nat) /\ forall y, y ∈ post -> (x <= y)%nat.
Proof.
  induction l as [|a l IH]; [done|]. intros _. destruct (decide (l = [])) as [->|Hne].
  { exists [], a, []. split; [done|]. split; by intros ? ?%not_elem_of_nil. }
  destruct (IH Hne) as (pre & x & post & -> & Hpre & Hpost). destruct (decide (x < a)%nat).
  - exists (a :: pre), x, post. split; [done|]. split; [|done]. intros y [->|?]%elem_of_cons; auto.
  - exists [], a, (pre ++ x :: post). split; [done|]. split; [by intros ? ?%not_elem_of_nil|].
    intros y [Hy%Hpre|[->|Hy%Hpost]%elem_of_cons]%elem_of_app; lia.
Qed.

(** Theorem 4 of Lengauer and Tarjan: the semidominator of [w] from its
    predecessors and the semidominators of greater nodes. *)
Definition semi_candidate w m : Prop :=
  (E m w /\ (m < w)%nat) \/ exists u v, (w < u)%nat /\ semi_of u m /\ anc u v /\ E v w.

Lemma candidate_semipath w m : semi_candidate w m -> semipath m w.
Proof.
  intros [[He _]|(u & v & Hu & [(l & Hw & Hl) _] & Ha & He)]; [by apply semipath_edge|].
  destruct (anc_walk u v Ha) as (t & Ht & Hb). destruct (walk_head _ _ _ Ht) as [t' ->].
  exists (l ++ u :: t'). split.
  - rewrite <- app_assoc. cbn. assert (H1 : walk m ((m :: l ++ [u]) ++ t' ++ [w]) w).
    { eapply walk_app; [exact Hw|]. change (u :: t' ++ [w]) with ((u :: t') ++ [w]). by eapply walk_snoc. }
    cbn in H1. by rewrite <- app_assoc in H1.
  - intros x [Hx%Hl|Hx]%elem_of_app; [lia|]. destruct (Hb x Hx) as [Hux%anc_le _]. lia.
Qed.

Lemma candidate_least w v : (2 <= w <= N)%nat -> (forall u, (w < u <= N)%nat -> exists s, semi_of u s) -> semipath v w ->
  exists m, semi_candidate w m /\ (m <= v)%nat.
Proof.
  intros Hw Hsemi (l & Hp & Hl). destruct (nk_parent Hok w Hw) as [Hpw Hpe].
  assert (Hpar : semi_candidate w (parent w)) by (left; split; [done|lia]).
  destruct (decide (l = [])) as [->|Hne].
  { cbn in Hp. inversion Hp as [|? z ? ? He Hw']; subst. destruct (walk_head _ _ _ Hw') as [? [= <-]].
    destruct (decide (v < w)%nat); [exists v; split; [by left|done]|]. exists (parent w). split; [done|lia]. }
  destruct (first_least l Hne) as (pre & x & post & -> & Hpre & Hpost).
  assert (Hx : (w < x)%nat) by (apply Hl; set_solver).
  assert (Hsplit : v :: (pre ++ x :: post) ++ [w] = (v :: pre) ++ x :: (post ++ [w])) by (cbn; by rewrite <- app_assoc).
  rewrite Hsplit in Hp. apply walk_split in Hp as [H1 H2].
  assert (HxN : (x <= N)%nat).
  { inversion H2 as [|? ? ? ? He _]; subst; [by destruct post|]. apply (nk_edge Hok) in He. lia. }
  destruct (Hsemi x ltac:(lia)) as [s Hs]. exists s. split.
  - (* the walk from x up to w leaves a descendant of x *)
    assert (Hlast : exists y, anc x y /\ E y w).
    { destruct post as [|z post _] using rev_ind.
      - cbn in H2. inversion H2 as [|? z' ? ? He Hw']; subst. destruct (walk_head _ _ _ Hw') as [? [= <-]]. exists x. split; [constructor|done].
      - exists z. rewrite <- app_assoc in H2. cbn in H2. change (x :: post ++ [z; w]) with ((x :: post) ++ z :: [w]) in H2.
        apply walk_split in H2 as [H2 H3]. split.
        + eapply walk_min; [exact H2|]. intros y [[->|Hy]%elem_of_cons| ->%list_elem_of_singleton]%elem_of_app; [done|apply Hpost; set_solver..].
        + inversion H3 as [|? z' ? ? He Hw']; subst. destruct (walk_head _ _ _ Hw') as [? [= <-]]. done. }
    destruct Hlast as (y & Hy & He). right. exists x, y. done.
  - apply Hs. exists pre. split; [done|]. intros y Hy. by apply Hpre.
Qed.

(** ** Dominance *)

(** [d] is on every walk from the root. *)
Definition dom d w : Prop := forall l, walk 1 l w -> d ∈ l.

Lemma anc_root w : (1 <= w <= N)%nat -> anc 1 w.
Proof.
  induction (Nat.lt_wf_0 w) as [w _ IH]. intros Hw. destruct (decide (w = 1)%nat) as [->|Hne]; [constructor|].
  destruct (nk_parent Hok w ltac:(lia)) as [Hp _]. apply anc_up; [lia|]. apply IH; lia.
Qed.

Lemma dom_anc d w : (1 <= w <= N)%nat -> dom d w -> anc d w.
Proof.
  intros Hw Hd. destruct (anc_walk 1 w (anc_root w Hw)) as (l & Hl & Hb). by apply (Hb d), Hd.
Qed.

Lemma dom_root d : dom d 1 <-> d = 1%nat.
Proof.
  split; [|intros ->; intros l Hl; destruct (walk_head _ _ _ Hl) as [? ->]; by left].
  intros Hd. specialize (Hd [1%nat] (walk_one 1)). by apply list_elem_of_singleton in Hd.
Qed.

(** A strict dominator is an ancestor of the semidominator. *)
Lemma dom_semi d w s : (2 <= w <= N)%nat -> semi_of w s -> dom d w -> d <> w -> anc d s /\ dom d s.
Proof.
  intros Hw Hs Hd Hne. destruct (semi_lt w s Hw Hs) as [Hlt H1]. pose proof (anc_le _ _ (dom_anc d w ltac:(lia) Hd)) as Hdw.
  assert (Hds : dom d s).
  { intros l Hl. destruct Hs as [(t & Ht & Hgt) _]. specialize (Hd (l ++ t ++ [w]) ltac:(by eapply walk_app)).
    apply elem_of_app in Hd as [?|[Hx%Hgt| ->%list_elem_of_singleton]%elem_of_app]; [done|lia|done]. }
  split; [|done]. apply dom_anc; [lia|done].
Qed.

(** The last element less than [d], if there is one. *)
Lemma last_below d l : (forall x, x ∈ l -> (d <= x)%nat) \/
  exists pre x post, l = pre ++ x :: post /\ (x < d)%nat /\ forall z, z ∈ post -> (d <= z)%nat.
Proof.
  induction l as [|x l IH] using rev_ind; [left; by intros ? ?%not_elem_of_nil|]. destruct (decide (x < d)%nat).
  - right. exists l, x, []. split; [done|]. split; [done|]. by intros ? ?%not_elem_of_nil.
  - destruct IH as [Hall|(pre & x' & post & -> & Hx & Hpost)].
    + left. intros z [?| ->%list_elem_of_singleton]%elem_of_app; [auto|lia].
    + right. exists pre, x', (post ++ [x]). rewrite <- app_assoc. split; [done|]. split; [done|].
      intros z [?| ->%list_elem_of_singleton]%elem_of_app; [auto|lia].
Qed.

Lemma anc_decides a b : (b <= N)%nat -> anc a b \/ ~ anc a b.
Proof.
  induction (Nat.lt_wf_0 b) as [b _ IH]. intros Hb. destruct (decide (a = b)) as [->|Hne]; [left; constructor|].
  destruct (decide (2 <= b)%nat) as [H2|H2].
  - destruct (nk_parent Hok b ltac:(lia)) as [Hp _]. destruct (IH (parent b) ltac:(lia) ltac:(lia)) as [?|Hn]; [left; by apply anc_up|].
    right. by intros [_ ?]%anc_strict.
  - right. intros [? _]%anc_strict; [lia|done].
Qed.

(** [z] is on the tree path from [d] to [w]. *)
Definition between d w z : Prop := anc d z /\ anc z w.

Lemma first_between d w l : (w <= N)%nat -> anc d w -> w ∈ l ->
  exists p1 y p2, l = p1 ++ y :: p2 /\ between d w y /\ forall z, z ∈ p1 -> ~ between d w z.
Proof.
  intros HwN Hdw. assert (Hdec : forall z, between d w z \/ ~ between d w z).
  { intros z. unfold between. destruct (anc_decides z w HwN) as [Hzw|?]; [|tauto]. apply anc_le in Hzw as Hzl.
    destruct (anc_decides d z ltac:(lia)); tauto. }
  induction l as [|z l IH]; intros Hin; [by apply not_elem_of_nil in Hin|]. destruct (Hdec z) as [Hz|Hz].
  - exists [], z, l. split; [done|]. split; [done|]. by intros ? ?%not_elem_of_nil.
  - apply elem_of_cons in Hin as [<-|Hin].
    + destruct Hz. split; [done|constructor].
    + destruct (IH Hin) as (p1 & y & p2 & -> & Hy & Hn). exists (z :: p1), y, p2. split; [done|]. split; [done|].
      intros z' [->|?]%elem_of_cons; auto.
Qed.

(** A walk to the first node on the path, all of it from [d] on, is a
    semidominator path: a node on the way that is not greater would lead to an
    earlier node on the path. *)
Lemma first_semipath d w x p1 y : walk x (x :: p1 ++ [y]) y -> between d w y ->
  (forall z, z ∈ p1 -> (d <= z)%nat /\ ~ between d w z) -> semipath x y.
Proof.
  intros Hw [Hdy Hyw] Hp1. exists p1. split; [done|]. intros z Hz. destruct (decide (y < z)%nat) as [?|Hge]; [done|]. exfalso.
  destruct (first_least p1) as (q1 & m & q2 & -> & Hq1 & Hq2); [by intros ->; apply not_elem_of_nil in Hz|].
  assert (Hmz : (m <= z)%nat) by (apply elem_of_app in Hz as [Hz%Hq1|[->|Hz%Hq2]%elem_of_cons]; lia).
  destruct (Hp1 m ltac:(set_solver)) as [Hmd Hnot].
  assert (Hw2 : walk m (m :: q2 ++ [y]) y).
  { replace (x :: (q1 ++ m :: q2) ++ [y]) with ((x :: q1) ++ m :: (q2 ++ [y])) in Hw by (cbn; by rewrite <- app_assoc).
    by apply walk_split in Hw as [_ Hw]. }
  assert (Hmy : anc m y).
  { eapply walk_min; [exact Hw2|]. intros z' [->|[Hz'%Hq2| ->%list_elem_of_singleton]%elem_of_app]%elem_of_cons; lia. }
  apply Hnot. split; [|by eapply anc_trans]. eapply (nk_interval Hok); [exact Hdy|]. split; [done|]. by apply anc_le.
Qed.

(** Where a walk from the root enters the tree path from [d] to [w]: at [d],
    or by a semidominator path from a node before [d]. *)
Lemma entry_point d w l : (1 <= d)%nat -> (w <= N)%nat -> anc d w -> walk 1 l w ->
  exists y, y ∈ l /\ anc d y /\ anc y w /\ (y = d \/ exists x, (x < d)%nat /\ semipath x y).
Proof.
  intros Hd HwN Hdw Hw. assert (Hle := anc_le _ _ Hdw). destruct (last_below d l) as [Hall|(pre & x & post & -> & Hx & Hpost)].
  { destruct (walk_head _ _ _ Hw) as [l' ->]. pose proof (Hall 1%nat ltac:(by left)). assert (d = 1%nat) as -> by lia.
    exists 1%nat. split; [by left|]. split; [constructor|]. split; [done|by left]. }
  apply walk_split in Hw as [_ Hw].
  assert (Hin : w ∈ post) by (apply walk_end in Hw as [->|?]%elem_of_cons; [lia|done]).
  destruct (first_between d w post HwN Hdw Hin) as (p1 & y & p2 & -> & Hy & Hnot).
  exists y. split; [set_solver|]. destruct Hy as [Hdy Hyw]. split; [done|]. split; [done|]. right. exists x. split; [done|].
  change (x :: p1 ++ y :: p2) with ((x :: p1) ++ y :: p2) in Hw. apply walk_split in Hw as [Hw _].
  apply (first_semipath d w x p1 y); [exact Hw|done|]. intros z Hz. split; [apply Hpost; set_solver|by apply Hnot].
Qed.

(** [u] is on the tree path from [s], excluded, to [w]. *)
Definition below s w u : Prop := anc s u /\ s <> u /\ anc u w.

(** Theorem 2: when no node below the semidominator has a smaller one, the
    strict dominators are the dominators of the semidominator. *)
Lemma dom_by_semi w s : (2 <= w <= N)%nat -> semi_of w s ->
  (forall u t, below s w u -> semi_of u t -> (s <= t)%nat) -> (forall u, (2 <= u <= N)%nat -> exists t, semi_of u t) ->
  forall d, (d <> w /\ dom d w) <-> dom d s.
Proof.
  intros Hw Hs Hmin Hex d. destruct (semi_lt w s Hw Hs) as [Hlt H1]. split; [intros [? ?]; by eapply dom_semi|]. intros Hd.
  assert (Hds := anc_le _ _ (dom_anc d s ltac:(lia) Hd)). split; [lia|]. intros l Hl.
  (* s dominates w *)
  assert (Hsl : s ∈ l).
  { destruct (entry_point s w l H1 ltac:(lia) (semi_anc w s Hw Hs) Hl) as (y & Hy & Hsy & Hyw & [->|(x & Hx & Hp)]); [done|].
    destruct (decide (s = y)) as [->|Hne]; [done|]. destruct (anc_strict s y Hsy Hne) as [Hyr _]. destruct (Hex y Hyr) as [t Ht].
    pose proof (Hmin y t ltac:(done) Ht). pose proof (proj2 Ht x Hp). lia. }
  apply list_elem_of_split in Hsl as (l1 & l2 & ->). apply walk_split in Hl as [Hl _]. specialize (Hd _ Hl). set_solver.
Qed.

(** Theorem 3: otherwise the strict dominators are those of a node below the
    semidominator whose own semidominator is least. *)
Lemma dom_by_relative w s u t : (2 <= w <= N)%nat -> semi_of w s -> below s w u -> semi_of u t -> (t < s)%nat ->
  (forall y t', below s w y -> semi_of y t' -> (t <= t')%nat) -> (forall y, (2 <= y <= N)%nat -> exists t', semi_of y t') ->
  forall d, (d <> w /\ dom d w) <-> (d <> u /\ dom d u).
Proof.
  intros Hw Hs (Hsu & Hne & Huw) Ht Hts Hmin Hex d. destruct (semi_lt w s Hw Hs) as [Hlt H1].
  assert (Hslt : (s < u)%nat) by (apply anc_le in Hsu; lia). destruct (anc_strict s u Hsu Hne) as [Hur _].
  assert (Huw' := anc_le _ _ Huw). split.
  - intros [Hdw Hd]. destruct (dom_semi d w s Hw Hs Hd Hdw) as [Hds%anc_le _]. split; [lia|]. intros l Hl.
    destruct (anc_walk u w Huw) as (r & Hr & Hb). destruct (walk_head _ _ _ Hr) as [r' ->].
    specialize (Hd (l ++ r') ltac:(by eapply walk_app)). apply elem_of_app in Hd as [?|Hin]; [done|].
    destruct (Hb d ltac:(by right)) as [Hud%anc_le _]. lia.
  - intros [Hdu Hd]. destruct (dom_semi d u t Hur Ht Hd Hdu) as [Hdt%anc_le _]. assert (Hda := dom_anc d u ltac:(lia) Hd).
    assert (Hd1 : (1 <= d)%nat).
    { destruct (anc_walk 1 u (anc_root u ltac:(lia))) as (r & Hr & Hb). by destruct (Hb d (Hd r Hr)) as [?%anc_le _]. }
    split; [lia|]. intros l Hl.
    destruct (entry_point d w l Hd1 ltac:(lia) (anc_trans _ _ _ Hda Huw) Hl) as (y & Hy & Hdy & Hyw & [->|(x & Hx & Hp)]); [done|].
    destruct (decide (d = y)) as [->|Hney]; [done|]. exfalso. destruct (anc_strict d y Hdy Hney) as [Hyr _].
    destruct (anc_linear y u w Hyw Huw) as [Hyu|Huy].
    + (* a walk that enters at y and goes to u avoids d *)
      assert (Hdly : (d < y)%nat) by (apply anc_le in Hdy; lia).
      destruct Hp as (q & Hq & Hgt). assert (Hx1 : (1 <= x <= N)%nat).
      { inversion Hq as [|? ? ? ? He _]; subst; [by destruct q|]. by apply (nk_edge Hok) in He as [? _]. }
      destruct (anc_walk 1 x (anc_root x Hx1)) as (r & Hr & Hrb). destruct (anc_walk y u Hyu) as (r2 & Hr2 & Hrb2).
      destruct (walk_head _ _ _ Hr2) as [r2' ->].
      specialize (Hd ((r ++ q ++ [y]) ++ r2') ltac:(eapply walk_app; [by eapply walk_app|done])).
      apply elem_of_app in Hd as [[Hin|[Hin%Hgt| ->%list_elem_of_singleton]%elem_of_app]%elem_of_app|Hin]; [|lia|done|].
      * destruct (Hrb d Hin) as [_ Hdx%anc_le]. lia.
      * destruct (Hrb2 d ltac:(by right)) as [Hyd%anc_le _]. lia.
    + destruct (Hex y Hyr) as [t' Ht']. pose proof (proj2 Ht' x Hp).
      assert (Hb : below s w y).
      { split; [by eapply anc_trans|]. split; [|done]. apply anc_le in Huy. lia. }
      pose proof (Hmin y t' Hb Ht'). lia.
Qed.
End theory.
