(* ===== verification/Cfg.v ===== *)
(** * Cfg: flow graphs over dense block numbers

    Models the first half of [crates/celox-analysis/src/cfg.rs]: its errors,
    edge validation, reverse postorder and Lengauer-Tarjan immediate dominators
    with path compression. The trees built on them are in [CfgTree], the
    regions, loops and the entry points in [CfgLoops]. Rows of successors are
    [list nat]; [usize::MAX] marks an absent number in the source and is
    [None] here. The fuel of each loop is proved enough by the files that
    specify it. *)

From S2P Require Import Prelude Order Graph.

Inductive CfgError : Type :=
  | Empty
  | InvalidRoot (root blocks : nat)
  | EdgeOutOfRange (source target blocks : nat)
  | Unreachable (blocks : list nat)
  | InvalidGraph (message : string).

Abbreviation cfg_result := (result CfgError).

(** ** Validation and reverse postorder *)

(** The first target that is not a block. *)
Definition check_row (blocks : nat) (_ : unit) (so : nat * list nat) : cfg_result unit :=
  match list_find (fun target => (blocks <= target)%nat) so.2 with
  | Some (_, target) => Err (EdgeOutOfRange so.1 target blocks)
  | None => Ok tt
  end.

Definition validate_edges (successors : graph) (root : nat) : cfg_result unit :=
  let n := length successors in
  if decide (successors = []) then Err Empty else
  if decide (n <= root)%nat then Err (InvalidRoot root n) else
  foldM (check_row n) tt (enumerate successors).

(** The search is the one of [Graph]. *)
Definition reverse_postorder (successors : graph) (root : nat) : cfg_result (list nat) :=
  _ ← validate_edges successors root;
  st ← dfs successors root;
  Ok (rev (postorder st)).

(** ** Lengauer-Tarjan *)

(** The numbering search; [vertex] starts with a dummy, numbers start at 1,
    and 0 means not numbered. The head of [lt_stack] is the top. *)
Record lt_search : Type := LTS {
  dfs_number : list nat;
  vertex : list (option nat);
  lt_parent : list nat;
  lt_stack : list (nat * nat) }.

Definition lt_step (successors : graph) (block next_successor : nat) (rest : list (nat * nat)) (st : lt_search)
    : cfg_result lt_search :=
  row ← expect (successors !! block);
  if decide (next_successor = length row) then Ok (LTS (dfs_number st) (vertex st) (lt_parent st) rest) else
  successor ← expect (row !! next_successor);
  let stack := (block, S next_successor) :: rest in
  known ← expect (dfs_number st !! successor);
  if decide (known = 0%nat) then
    let number := length (vertex st) in
    let numbers := <[successor := number]> (dfs_number st) in
    block_number ← expect (numbers !! block);
    parents ← vset number block_number (lt_parent st);
    Ok (LTS numbers (vertex st ++ [Some successor]) parents ((successor, 0%nat) :: stack))
  else Ok (LTS (dfs_number st) (vertex st) (lt_parent st) stack).

Fixpoint lt_search_loop (fuel : nat) (successors : graph) (st : lt_search) : cfg_result lt_search :=
  match lt_stack st with
  | [] => Ok st
  | (block, next_successor) :: rest =>
      match fuel with
      | O => Panic
      | S fuel => st ← lt_step successors block next_successor rest st; lt_search_loop fuel successors st
      end
  end.

(** [predecessors[target_number].push(source_number)] *)
Definition lt_push (numbers : list nat) (source_number : nat) (predecessors : graph) (target : nat) : cfg_result graph :=
  target_number ← expect (numbers !! target);
  if decide (target_number = 0%nat) then Ok predecessors else
  row ← expect (predecessors !! target_number);
  Ok (<[target_number := row ++ [source_number]]> predecessors).

Definition lt_push_row (numbers : list nat) (predecessors : graph) (so : nat * list nat) : cfg_result graph :=
  source_number ← expect (numbers !! so.1);
  if decide (source_number = 0%nat) then Ok predecessors
  else foldM (lt_push numbers source_number) predecessors so.2.

(** The forest: [ancestor] and [label]. *)
Abbreviation forest := (list nat * list nat)%type.

(** [while ancestor[current] != 0 && ancestor[ancestor[current]] != 0] *)
Fixpoint collect_path (fuel : nat) (ancestor : list nat) (current : nat) (path : list nat) : cfg_result (list nat) :=
  a ← expect (ancestor !! current);
  if decide (a = 0%nat) then Ok path else
  aa ← expect (ancestor !! a);
  if decide (aa = 0%nat) then Ok path else
  match fuel with
  | O => Panic
  | S fuel => collect_path fuel ancestor a (path ++ [current])
  end.

Definition compress_node (semi : list nat) (f : forest) (node : nat) : cfg_result forest :=
  parent ← expect (f.1 !! node);
  label_parent ← expect (f.2 !! parent);
  label_node ← expect (f.2 !! node);
  semi_parent ← expect (semi !! label_parent);
  semi_node ← expect (semi !! label_node);
  grand ← expect (f.1 !! parent);
  Ok (<[node := grand]> f.1, if decide (semi_parent < semi_node)%nat then <[node := label_parent]> f.2 else f.2).

Definition lt_eval (value : nat) (semi : list nat) (f : forest) : cfg_result (nat * forest) :=
  a ← expect (f.1 !! value);
  if decide (a = 0%nat) then label ← expect (f.2 !! value); Ok (label, f) else
  path ← collect_path (length f.1) f.1 value [];
  f ← foldM (compress_node semi) f (rev path);
  label ← expect (f.2 !! value);
  Ok (label, f).

Record lt_state : Type := LT {
  lt_semi : list nat;
  idom_number : list nat;
  lt_forest : forest;
  bucket : graph }.

(** One predecessor of [block]. *)
Definition lt_predecessor (block : nat) (sf : list nat * forest) (predecessor : nat) : cfg_result (list nat * forest) :=
  rf ← lt_eval predecessor sf.1 sf.2;
  s ← expect (sf.1 !! block);
  s' ← expect (sf.1 !! rf.1);
  Ok (<[block := Nat.min s s']> sf.1, rf.2).

(** One candidate of the bucket of [block_parent]. *)
Definition lt_candidate (semi : list nat) (block_parent : nat) (df : list nat * forest) (candidate : nat)
    : cfg_result (list nat * forest) :=
  rf ← lt_eval candidate semi df.2;
  s ← expect (semi !! rf.1);
  s' ← expect (semi !! candidate);
  idom ← vset candidate (if decide (s < s')%nat then rf.1 else block_parent) df.1;
  Ok (idom, rf.2).

Definition lt_block (parent : list nat) (predecessors : graph) (st : lt_state) (block : nat) : cfg_result lt_state :=
  row ← expect (predecessors !! block);
  sf ← foldM (lt_predecessor block) (lt_semi st, lt_forest st) row;
  let semi := sf.1 in
  s ← expect (semi !! block);
  entry ← expect (bucket st !! s);
  let buckets := <[s := entry ++ [block]]> (bucket st) in
  block_parent ← expect (parent !! block);
  if decide (block_parent = 0%nat) then Err (InvalidGraph "non-root DFS node has no parent") else
  ancestor ← vset block block_parent sf.2.1;
  pending ← expect (buckets !! block_parent);
  let buckets := <[block_parent := []]> buckets in
  df ← foldM (lt_candidate semi block_parent) (idom_number st, (ancestor, sf.2.2)) pending;
  Ok (LT semi df.1 df.2 buckets).

(** The forward pass that resolves relatives. *)
Definition lt_correct (semi : list nat) (idom : list nat) (block : nat) : cfg_result (list nat) :=
  parent ← expect (idom !! block);
  s ← expect (semi !! block);
  if decide (parent = s) then Ok idom else
  if decide (parent = 0%nat) then Err (InvalidGraph "dominator correction references no parent") else
  grand ← expect (idom !! parent);
  Ok (<[block := grand]> idom).

Definition lt_result (vertices : list (option nat)) (idom : list nat) (result_ : list (option nat)) (block : nat)
    : cfg_result (list (option nat)) :=
  parent ← expect (idom !! block);
  if decide (parent = 0%nat \/ (length vertices <= parent)%nat)
  then Err (InvalidGraph "computed immediate dominator is out of range") else
  v ← expect (mjoin (vertices !! block));
  p ← expect (mjoin (vertices !! parent));
  vset v (Some p) result_.

Definition lengauer_tarjan (successors : graph) (root : nat) : cfg_result (list (option nat)) :=
  _ ← validate_edges successors root;
  let n := length successors in
  numbers ← vset root 1%nat (replicate n 0%nat);
  search ← lt_search_loop (dfs_fuel successors) successors
             (LTS numbers [None; Some root] (replicate (S n) 0%nat) [(root, 0%nat)]);
  let reachable := (length (vertex search) - 1)%nat in
  predecessors ← foldM (lt_push_row (dfs_number search)) (replicate (S reachable) []) (enumerate successors);
  let self := seq 0 (S reachable) in
  let zeros := replicate (S reachable) 0%nat in
  st ← foldM (lt_block (lt_parent search) predecessors)
         (LT self zeros (zeros, self) (replicate (S reachable) [])) (rev (seq 2 (reachable - 1)));
  idom ← foldM (lt_correct (lt_semi st)) (idom_number st) (seq 2 (reachable - 1));
  foldM (lt_result (vertex search) idom) (replicate n None) (seq 2 (reachable - 1)).

(** Figure 1 of Lengauer and Tarjan: R, A .. L are 0 .. 12. *)
Example lengauer_tarjan_figure :
  lengauer_tarjan [[1; 2; 3]; [4]; [1; 4; 5]; [6; 7]; [12]; [8]; [9]; [9; 10]; [5; 11]; [11]; [9]; [0; 9]; [8]]%nat 0 =
  Ok [None; Some 0; Some 0; Some 0; Some 0; Some 0; Some 3; Some 3; Some 0; Some 0; Some 7; Some 0; Some 4]%nat.
Proof. vm_compute. reflexivity. Qed.
