(* ===== verification/LtSearch.v ===== *)
(** * LtSearch: the numbering search and the forest of Lengauer-Tarjan

    The depth-first numbering of [Cfg.lengauer_tarjan] satisfies the
    hypotheses of [Semidominators]: tree edges go to greater numbers, forward
    edges go to descendants, and the descendants of a node are an interval.

    The forest at a stage [k]: the nodes above [k] are linked. [lt_eval]
    returns the node with the least semidominator on the tree path to the
    nearest node that is not linked, and compressing paths keeps that true. *)

From stdpp Require Import functions.
From S2P Require Import Prelude Graph Specs Semidominators Cfg.

Section search.
Context (g : graph) (root : nat) (Hclosed : closed g) (Hroot : (root < length g)%nat).
Abbreviation n := (length g).
Implicit Types (a b c i j k s : nat) (order : list nat) (st : lt_search).

(** Number [k] is the [k]-th node of [order]; numbers start at 1. *)
Definition node_at order k : option nat := match k with O => None | S i => order !! i end.
Definition number_edge order i j : Prop := exists a b, node_at order i = Some a /\ node_at order j = Some b /\ edge g a b.
Definition par st k : nat := default 0%nat (lt_parent st !! k).
Abbreviation tree order st := (anc (length order) (par st)).

(** The stack is the tree path from its top to the root. *)
Fixpoint chain (numbers parents : nat -> nat) (l : list nat) : Prop :=
  match l with
  | [] => True
  | x :: l => match l with [] => numbers x = 1%nat | y :: _ => (2 <= numbers x)%nat /\ parents (numbers x) = numbers y end /\ chain numbers parents l
  end.

Definition num st b : nat := default 0%nat (dfs_number st !! b).

Record search_inv order st : Prop := {
  sv_length : length (dfs_number st) = n;
  sv_parents : length (lt_parent st) = S n;
  sv_vertex : vertex st = None :: (Some <$> order);
  sv_nodup : NoDup order;
  sv_number b i : order !! i = Some b <-> dfs_number st !! b = Some (S i);
  sv_root : head order = Some root;
  sv_parent k : (2 <= k <= length order)%nat -> (1 <= par st k < k)%nat /\ number_edge order (par st k) k;
  sv_chain : chain (num st) (par st) (lt_stack st).*1;
  sv_stack a : a ∈ (lt_stack st).*1 -> a ∈ order;
  sv_stack_nodup : NoDup (lt_stack st).*1;
  sv_below a b : a ∈ (lt_stack st).*1 -> (num st a <= b <= length order)%nat -> tree order st (num st a) b;
  sv_interval a b c : tree order st a c -> (c <= length order)%nat -> (a <= b <= c)%nat -> tree order st a b;
  sv_visited a row j s : a ∈ order -> g !! a = Some row -> row !! j = Some s ->
    (forall k, (a, k) ∈ lt_stack st -> (j < k)%nat) -> s ∈ order /\ ((num st a < num st s)%nat -> tree order st (num st a) (num st s));
  sv_cursor a k row : (a, k) ∈ lt_stack st -> g !! a = Some row -> (k <= length row)%nat }.

Lemma num_order order st b : search_inv order st -> b ∈ order <-> num st b <> 0%nat.
Proof.
  intros Hi. unfold num. rewrite list_elem_of_lookup. split.
  - intros [i Hb]. apply (sv_number _ _ Hi) in Hb. by rewrite Hb.
  - destruct (dfs_number st !! b) as [[|i]|] eqn:Hb; cbn; try done. intros _. exists i. by apply (sv_number _ _ Hi).
Qed.

Lemma order_lt order st b : search_inv order st -> b ∈ order -> (b < n)%nat.
Proof.
  intros Hi [i Hb]%list_elem_of_lookup. apply (sv_number _ _ Hi) in Hb. rewrite <- (sv_length _ _ Hi). eauto with index.
Qed.

Lemma num_node order st b : search_inv order st -> b ∈ order -> node_at order (num st b) = Some b /\ (1 <= num st b <= length order)%nat.
Proof.
  clear Hroot Hclosed. intros Hi [i Hb]%list_elem_of_lookup. pose proof Hb as Hb'. apply (sv_number _ _ Hi) in Hb'. unfold num. rewrite Hb'. cbn.
  apply lookup_lt_Some in Hb as Hl. split; [done|lia].
Qed.

(** Ancestors of the top of the stack are on it. *)
Lemma chain_ancestors N numbers parents l x a : chain numbers parents (x :: l) -> anc N parents a (numbers x) ->
  (1 <= a)%nat -> (forall k, (2 <= k <= N)%nat -> (parents k < k)%nat) -> exists y, y ∈ x :: l /\ numbers y = a.
Proof.
  revert x. induction l as [|y l IH]; intros x [Hx Hc] Ha Ha1 Hpar.
  - exists x. split; [by left|]. destruct (decide (a = numbers x)) as [->|Hne]; [done|].
    inversion Ha as [|? Hk _]; subst; [done|]. lia.
  - destruct Hx as [Hx2 Hx]. inversion Ha as [|? Hk Ha']; subst; [exists x; split; [by left|done]|].
    rewrite Hx in Ha'. destruct (IH y Hc Ha' Ha1 Hpar) as (z & Hz & ?). exists z. split; [by right|done].
Qed.

(** Numbers grow towards the top. *)
Lemma chain_top numbers parents l x y : chain numbers parents (x :: l) -> y ∈ x :: l ->
  (forall z, z ∈ x :: l -> (2 <= numbers z)%nat -> (parents (numbers z) < numbers z)%nat) -> (numbers y <= numbers x)%nat.
Proof.
  revert x. induction l as [|z l IH]; intros x [Hx Hc] Hy Hlt; [by apply list_elem_of_singleton in Hy as ->|].
  apply elem_of_cons in Hy as [->|Hy]; [done|]. destruct Hx as [Hx2 Hx]. specialize (Hlt x ltac:(by left) Hx2) as Hxl.
  transitivity (numbers z); [|lia]. apply IH; [done|done|]. intros w Hw. apply Hlt. by right.
Qed.

Lemma anc_positive N p a b : (forall k, (2 <= k <= N)%nat -> (1 <= p k)%nat) -> anc N p a b -> (1 <= b)%nat -> (1 <= a)%nat.
Proof. intros Hp. induction 1 as [|b Hb _ IH]; [done|]. intros _. by apply IH, Hp. Qed.

(** The tree of a longer numbering with the same parents. *)
Lemma anc_extend N N' (p p' : nat -> nat) a b : (N <= N')%nat -> (forall k, (2 <= k <= N)%nat -> p' k = p k) ->
  anc N p a b -> anc N' p' a b.
Proof.
  intros HN Hp. induction 1 as [|b Hb _ IH]; [constructor|]. apply anc_up; [lia|]. by rewrite Hp.
Qed.

Lemma anc_restrict N N' (p p' : nat -> nat) a b : (forall k, (2 <= k <= N)%nat -> p' k = p k /\ (p k < k)%nat) -> (b <= N)%nat ->
  anc N' p' a b -> anc N p a b.
Proof.
  intros Hp Hb. induction 1 as [|b Hb' _ IH]; [constructor|]. destruct (Hp b ltac:(lia)) as [Heq Hlt].
  apply anc_up; [lia|]. rewrite <- Heq. apply IH. rewrite Heq. lia.
Qed.

(** *** Turns that only move the stack *)

(** The stack shrinks, or the cursor of its top moves past an edge that is
    accounted for. *)
Lemma move_inv order st stack : search_inv order st ->
  chain (num st) (par st) stack.*1 -> stack.*1 ⊆ (lt_stack st).*1 -> NoDup stack.*1 ->
  (forall a k row, (a, k) ∈ stack -> g !! a = Some row -> (k <= length row)%nat) ->
  (forall a row j s, a ∈ order -> g !! a = Some row -> row !! j = Some s -> (forall k, (a, k) ∈ stack -> (j < k)%nat) ->
     (forall k, (a, k) ∈ lt_stack st -> (j < k)%nat) \/
     (s ∈ order /\ ((num st a < num st s)%nat -> tree order st (num st a) (num st s)))) ->
  search_inv order (LTS (dfs_number st) (vertex st) (lt_parent st) stack).
Proof.
  intros [H1 H2 H3 H4 H5 H6 H7 H8 H9 H10 H11 H12 H13 H14] Hc Hsub Hnd Hcur Hv.
  split; try done; cbn.
  - intros a Ha%Hsub. by apply H9.
  - intros a b Ha%Hsub. by apply H11.
  - intros a row j s Ha Hr Hs Hk. destruct (Hv a row j s Ha Hr Hs Hk) as [?|?]; [by eapply H13|done].
Qed.

(** *** A turn that numbers a node *)

Section discover.
Context order st a k (row : list nat) s (rest : list (nat * nat)) (Hi : search_inv order st) (Hst : lt_stack st = (a, k) :: rest).
Context (Hrow : g !! a = Some row) (Hs : row !! k = Some s) (Hnew : s ∉ order).
Abbreviation number := (S (length order)).
Abbreviation st' := (LTS (<[s := number]> (dfs_number st)) (vertex st ++ [Some s]) (<[number := num st a]> (lt_parent st))
  ((s, 0%nat) :: (a, S k) :: rest)).

Lemma new_lt : (s < n)%nat.
Proof. apply (Hclosed a). exists row. split; [done|by eapply list_elem_of_lookup_2]. Qed.

Lemma top_order : a ∈ order.
Proof. apply (sv_stack _ _ Hi). rewrite Hst. by left. Qed.

Lemma number_small : (number <= n)%nat.
Proof.
  assert (Hnd : NoDup (s :: order)) by (constructor; [done|apply (sv_nodup _ _ Hi)]).
  apply NoDup_bounded_length with (n := n) in Hnd; [done|]. intros x [->|Hx]%elem_of_cons; [apply new_lt|by eapply order_lt].
Qed.

Lemma num_changed b : num st' b = if decide (b = s) then number else num st b.
Proof.
  unfold num. cbn. case_decide as Hb; [subst b; by rewrite list_lookup_insert_eq by (rewrite (sv_length _ _ Hi); apply new_lt)|].
  by rewrite list_lookup_insert_ne.
Qed.

Lemma num_kept b : b ∈ order -> num st' b = num st b.
Proof. intros Hb. rewrite num_changed, decide_False; [done|]. by intros ->. Qed.

Lemma par_changed j : par st' j = if decide (j = number) then num st a else par st j.
Proof.
  unfold par. cbn. case_decide as Hj; [subst j; by rewrite list_lookup_insert_eq by (rewrite (sv_parents _ _ Hi); pose proof number_small; lia)|].
  by rewrite list_lookup_insert_ne.
Qed.

Lemma tree_kept x y : tree order st x y -> tree (order ++ [s]) st' x y.
Proof.
  apply anc_extend; [rewrite length_app; lia|]. intros j Hj. rewrite par_changed, decide_False by lia. done.
Qed.

Lemma tree_new x : tree order st x (num st a) -> tree (order ++ [s]) st' x number.
Proof.
  intros Hx. destruct (num_node _ _ _ Hi top_order) as [_ Hna]. apply anc_up; [rewrite length_app; cbn; lia|].
  rewrite par_changed, decide_True by done. by apply tree_kept.
Qed.

Lemma tree_old x y : (y <= length order)%nat -> tree (order ++ [s]) st' x y -> tree order st x y.
Proof.
  intros Hy. apply anc_restrict; [|done]. intros j Hj. rewrite par_changed, decide_False by lia. split; [done|].
  by apply (sv_parent _ _ Hi).
Qed.

Lemma node_at_kept j b : node_at order j = Some b -> node_at (order ++ [s]) j = Some b.
Proof. destruct j as [|j]; [done|]. cbn. apply lookup_app_l_Some. Qed.

Lemma chain_kept l : (forall x, x ∈ l -> x ∈ order) -> chain (num st) (par st) l -> chain (num st') (par st') l.
Proof.
  induction l as [|x l IH]; intros Hl; [done|]. cbn [chain]. intros [Hx Hc]. split; [|apply IH; [intros; apply Hl; by right|done]].
  assert (Hxo : x ∈ order) by (apply Hl; by left). destruct (num_node _ _ _ Hi Hxo) as [_ Hxn]. rewrite (num_kept x Hxo).
  destruct l as [|y l]; [done|]. rewrite par_changed, decide_False by lia. by rewrite (num_kept y) by (apply Hl; right; by left).
Qed.

Lemma discover_visited x row' j y : x ∈ order ++ [s] -> g !! x = Some row' -> row' !! j = Some y ->
  (forall k', (x, k') ∈ (s, 0%nat) :: (a, S k) :: rest -> (j < k')%nat) ->
  y ∈ order ++ [s] /\ ((num st' x < num st' y)%nat -> tree (order ++ [s]) st' (num st' x) (num st' y)).
Proof.
  intros Hx Hr Hy Hk. apply elem_of_app in Hx as [Hx| ->%list_elem_of_singleton]; [|specialize (Hk 0%nat ltac:(by left)); lia].
  destruct (decide (x = a /\ j = k)) as [[-> ->]|Hne].
  - simplify_eq. split; [set_solver|]. intros _. rewrite (num_kept a Hx), num_changed, decide_True by done. apply tree_new. constructor.
  - destruct (sv_visited _ _ Hi x row' j y Hx Hr Hy) as [Hyo Ht].
    + intros k' Hin. rewrite Hst in Hin. apply elem_of_cons in Hin as [[= -> ->]|Hin]; [|apply Hk; set_solver].
      specialize (Hk (S k) ltac:(set_solver)). destruct (decide (j = k)) as [->|]; [tauto|lia].
    + split; [set_solver|]. rewrite !num_kept by done. intros Hlt. by apply tree_kept, Ht.
Qed.

Lemma number_inv : search_inv (order ++ [s]) st'.
Proof.
  pose proof Hi as [H1 H2 H3 H4 H5 H6 H7 H8 H9 H10 H11 H12 H13 H14]. rewrite Hst in *. cbn in H8, H9, H10, H11.
  destruct (num_node _ _ _ Hi top_order) as [Hna Hnal]. split; cbn.
  - by rewrite length_insert.
  - by rewrite length_insert.
  - by rewrite H3, fmap_app.
  - apply NoDup_app. split_and!; [done| |apply NoDup_singleton]. intros x Hx ->%list_elem_of_singleton. done.
  - intros b i. destruct (decide (b = s)) as [->|Hne].
    + rewrite list_lookup_insert_eq by (rewrite H1; apply new_lt). split.
      * intros [Ho|[Hl Ho]]%lookup_app_Some; [by apply list_elem_of_lookup_2 in Ho|].
        apply list_lookup_singleton_Some in Ho as [Ho _]. f_equal. lia.
      * intros [= <-]. by rewrite list_lookup_middle.
    + rewrite list_lookup_insert_ne, <- H5 by done. split; [|by apply lookup_app_l_Some].
      intros [?|[_ [_ ?]%list_lookup_singleton_Some]]%lookup_app_Some; [done|congruence].
  - destruct order; [by cbn in H6|done].
  - intros j Hj. rewrite length_app in Hj. cbn in Hj. rewrite par_changed. case_decide as Hjn.
    + subst j. split; [lia|]. exists a, s. split; [by apply node_at_kept|]. split; [cbn; by rewrite list_lookup_middle|].
      exists row. split; [done|by eapply list_elem_of_lookup_2].
    + destruct (H7 j ltac:(lia)) as [Hp (x & y & Hx & Hy & He)]. split; [done|]. exists x, y. split_and!; [by apply node_at_kept..|done].
  - change (chain (num st') (par st') (s :: a :: rest.*1)). split; [|by apply chain_kept].
    rewrite num_changed, decide_True by done. split; [lia|]. rewrite par_changed, decide_True by done. by rewrite (num_kept a top_order).
  - intros x [->|Hx]%elem_of_cons; [set_solver|]. apply elem_of_app. left. by apply H9.
  - constructor; [|done]. intros Hin. by apply Hnew, H9.
  - intros x b Hx Hb. rewrite length_app in Hb. cbn in Hb. destruct (decide (x = s)) as [->|Hne].
    + rewrite num_changed, decide_True in * by done. assert (b = number) as -> by lia. constructor.
    + apply elem_of_cons in Hx as [?|Hx]; [done|]. rewrite (num_kept x (H9 x Hx)) in *. destruct (decide (b = number)) as [->|].
      * apply tree_new, H11; [done|]. destruct (num_node _ _ _ Hi (H9 x Hx)) as [_ Hxn].
        split; [|lia]. apply (chain_top (num st) (par st) rest.*1 a x H8 Hx). intros z Hz Hz2. apply H7.
        destruct (num_node _ _ _ Hi (H9 z Hz)) as [_ ?]. lia.
      * apply tree_kept, H11; [done|lia].
  - intros x y z Hz Hzl Hy. rewrite length_app in Hzl. cbn in Hzl. destruct (decide (z = number)) as [->|].
    + destruct (decide (y = number)) as [->|]; [done|]. inversion Hz as [|? _ Hz']; subst; [lia|].
      rewrite par_changed, decide_True in Hz' by done. apply tree_old in Hz'; [|lia].
      assert (Hx1 : (1 <= x)%nat) by (eapply anc_positive; [|exact Hz'|lia]; intros j Hj; by apply H7).
      destruct (chain_ancestors _ _ _ _ _ _ H8 Hz' Hx1) as (w & Hw & <-); [intros j Hj; by apply H7|].
      apply tree_kept, H11; [done|lia].
    + apply tree_kept. apply (H12 x y z); [|lia|done]. apply tree_old; [lia|done].
  - intros x row' j y Hx. by apply discover_visited.
  - intros x k' row' Hin Hr. apply elem_of_cons in Hin as [[= -> ->]|[[= -> ->]|Hin]%elem_of_cons]; [lia| |].
    + simplify_eq. apply lookup_lt_Some in Hs. lia.
    + apply (H14 x); [by right|done].
Qed.
End discover.

(** *** The loop *)

Definition numbered k : bool := bool_decide (k <> 0%nat).
Definition search_measure st : nat :=
  (sum_list (zip_with row_weight (numbered <$> dfs_number st) g) +
   sum_list ((fun bk : nat * nat => S (length (default [] (g !! bk.1))) - bk.2)%nat <$> lt_stack st))%nat.

Lemma lt_step_spec order st a k rest : search_inv order st -> lt_stack st = (a, k) :: rest ->
  exists order' st', lt_step g a k rest st = Ok st' /\ search_inv order' st' /\ search_measure st = S (search_measure st').
Proof.
  intros Hi Hst. pose proof Hi as [H1 H2 H3 H4 H5 H6 H7 H8 H9 H10 H11 H12 H13 H14]. rewrite Hst in *. cbn in H8, H9, H10, H11.
  assert (Ha : a ∈ order) by (apply H9; by left).
  in_range g a as row Hrow; [by eapply order_lt|]. pose proof (H14 a k row ltac:(by left) Hrow) as Hk.
  unfold lt_step. rewrite Hrow. msimpl. case_decide as Hend.
  { subst k. exists order. eexists. split; [done|]. split.
    - apply move_inv; rewrite ?Hst; cbn; [done|apply H8|set_solver|by apply NoDup_cons in H10 as [_ ?]| |].
      + intros x k' row' Hin. apply (H14 x). by right.
      + intros x row' j y Hx Hr Hy Hlt. left. intros k' [[= -> ->]|Hin]%elem_of_cons; [simplify_eq; eauto with index|by apply Hlt].
    - unfold search_measure. rewrite Hst. csimpl. rewrite ?Hrow. csimpl. lia. }
  in_range row k as s Hs. rewrite Hs. msimpl.
  assert (He : edge g a s) by (exists row; split; [done|by eapply list_elem_of_lookup_2]).
  in_range (dfs_number st) s as known Hknown; [rewrite H1; by apply (Hclosed a)|]. rewrite Hknown. msimpl.
  assert (Hw : (S (length row) - k = S (S (length row) - S k))%nat) by lia. case_decide as Hz.
  - subst known. assert (Hnew : s ∉ order) by (intros [i Hin]%list_elem_of_lookup; apply H5 in Hin; congruence).
    assert (Hlen : length (vertex st) = S (length order)) by (rewrite H3; cbn; by rewrite length_fmap).
    assert (Hne : a <> s) by (by intros ->). rewrite Hlen, list_lookup_insert_ne by done.
    apply list_elem_of_lookup in Ha as Hai. destruct Hai as [i Hai]. apply H5 in Hai. rewrite Hai. msimpl. unfold vset.
    rewrite decide_True by (rewrite H2; pose proof (number_small order st a k row s Hi Hrow Hs Hnew); lia). msimpl.
    exists (order ++ [s]). eexists. split; [done|]. split.
    + replace (S i) with (num st a) by (unfold num; by rewrite Hai). by eapply number_inv.
    + in_range g s as srow Hsrow. unfold search_measure. rewrite Hst. cbn [dfs_number lt_stack].
      rewrite list_fmap_insert. change (numbered (S (length order))) with true.
      rewrite (sum_list_insert (numbered <$> dfs_number st) g s srow); [|by rewrite list_lookup_fmap, Hknown|done].
      csimpl. rewrite ?Hrow, ?Hsrow. csimpl. lia.
  - assert (Hso : s ∈ order).
    { destruct known as [|i]; [done|]. apply H5 in Hknown. by eapply list_elem_of_lookup_2. }
    exists order. eexists. split; [done|]. split; [|unfold search_measure; rewrite Hst; csimpl; rewrite ?Hrow; csimpl; lia].
    apply move_inv; rewrite ?Hst; cbn; [done|apply H8|done|done| |].
    + intros x k' row' [[= -> ->]|Hin]%elem_of_cons Hr; [simplify_eq; lia|by apply (H14 x); [right|]].
    + intros x row' j y Hx Hr Hy Hlt. destruct (decide (x = a /\ j = k)) as [[-> ->]|Hne].
      * right. simplify_eq. split; [done|]. intros Hn. apply H11; [by left|]. destruct (num_node _ _ _ Hi Hso) as [_ ?]. lia.
      * left. intros k' [[= -> ->]|Hin]%elem_of_cons; [|apply Hlt; by right]. specialize (Hlt (S k) ltac:(by left)).
        destruct (decide (j = k)) as [->|]; [tauto|lia].
Qed.

Lemma lt_search_loop_spec fuel order st : search_inv order st -> (search_measure st <= fuel)%nat ->
  exists order' st', lt_search_loop fuel g st = Ok st' /\ search_inv order' st' /\ lt_stack st' = [].
Proof.
  revert order st. induction fuel as [|fuel IH]; intros order st Hi Hm; cbn [lt_search_loop];
    destruct (lt_stack st) as [|[a k] rest] eqn:Hst; try (by exists order, st).
  - destruct (lt_step_spec order st a k rest Hi Hst) as (? & st' & _ & _ & Heq). lia.
  - destruct (lt_step_spec order st a k rest Hi Hst) as (order' & st' & -> & Hi' & Heq). msimpl. by apply (IH order'); [|lia].
Qed.

Definition lt_initial : lt_search := LTS (<[root := 1%nat]> (replicate n 0%nat)) [None; Some root] (replicate (S n) 0%nat) [(root, 0%nat)].

Lemma search_initial : search_inv [root] lt_initial.
Proof.
  assert (Hr : num lt_initial root = 1%nat) by (unfold num; cbn; by rewrite list_lookup_insert_eq by (by rewrite length_replicate)).
  split; cbn -[num replicate]; try done.
  - by rewrite length_insert, length_replicate.
  - by rewrite length_replicate.
  - apply NoDup_singleton.
  - intros b i. rewrite list_lookup_singleton_Some. destruct (decide (b = root)) as [->|Hne].
    + rewrite list_lookup_insert_eq by (by rewrite length_replicate). naive_solver.
    + rewrite list_lookup_insert_ne, lookup_replicate by done. naive_solver.
  - intros k Hk. lia.
  - apply NoDup_singleton.
  - intros a b ->%list_elem_of_singleton. rewrite Hr. intros Hb. assert (b = 1%nat) as -> by lia. constructor.
  - intros a b c Ha Hc Hb. assert (a = c) as -> by (inversion Ha; [done|lia]). assert (b = c) as -> by lia. constructor.
  - intros a row j s Ha Hr' Hs Hk. apply list_elem_of_singleton in Ha as ->. specialize (Hk 0%nat ltac:(by left)). lia.
  - intros a k row Heq%list_elem_of_singleton. simplify_eq. lia.
Qed.

Lemma measure_at_start : (search_measure lt_initial <= dfs_fuel g)%nat.
Proof.
  unfold search_measure, lt_initial. cbn [dfs_number lt_stack]. in_range g root as row Hrow.
  rewrite list_fmap_insert, fmap_replicate. change (numbered 1) with true. change (numbered 0) with false.
  rewrite <- (initial_weight g), (sum_list_insert (replicate n false) g root row) by (done || by apply lookup_replicate_2).
  csimpl. rewrite ?Hrow. csimpl. lia.
Qed.

(** The numbering is a depth-first numbering of the reachable nodes. *)
Lemma lt_search_spec : exists order st, lt_search_loop (dfs_fuel g) g lt_initial = Ok st /\ search_inv order st /\
  numbering_ok (length order) (number_edge order) (par st) /\ (forall b, b ∈ order <-> reachable g root b).
Proof.
  destruct (lt_search_loop_spec (dfs_fuel g) _ _ search_initial measure_at_start) as (order & st & Hl & Hi & Hst).
  exists order, st. split; [done|]. split; [done|].
  assert (Hvisit : forall a s, a ∈ order -> edge g a s -> s ∈ order /\ ((num st a < num st s)%nat -> tree order st (num st a) (num st s))).
  { intros a s Ha (row & Hrow & [j Hj]%list_elem_of_lookup). apply (sv_visited _ _ Hi a row j s Ha Hrow Hj). rewrite Hst.
    by intros k ?%not_elem_of_nil. }
  assert (Hnode : forall k b, node_at order k = Some b -> b ∈ order /\ num st b = k /\ (1 <= k <= length order)%nat).
  { intros [|k] b Hb; [done|]. cbn in Hb. apply lookup_lt_Some in Hb as Hl'. split; [by eapply list_elem_of_lookup_2|].
    apply (sv_number _ _ Hi) in Hb. unfold num. rewrite Hb. split; [done|lia]. }
  split; [split|].
  - intros a b (x & y & Hx%Hnode & Hy%Hnode & _). tauto.
  - apply (sv_parent _ _ Hi).
  - intros a b (x & y & (Hx & <- & _)%Hnode & (_ & <- & _)%Hnode & He) Hlt. by apply (Hvisit x y).
  - intros a b c Hc Hb. destruct (decide (c <= length order)%nat); [by eapply (sv_interval _ _ Hi)|].
    inversion Hc as [|? Hc' _]; subst; [assert (b = c) as -> by lia; constructor|lia].
  - intros b. split.
    + intros Hb. destruct (num_node _ _ _ Hi Hb) as [Hnb Hl']. remember (num st b) as k eqn:Hk. clear Hk Hb. revert b Hnb.
      induction (Nat.lt_wf_0 k) as [k _ IH]. intros b Hb. destruct (decide (k = 1)%nat) as [->|Hk].
      * cbn in Hb. pose proof (sv_root _ _ Hi) as Hr. destruct order; [done|]. cbn in Hb, Hr. assert (b = root) as -> by congruence. apply reachable_refl.
      * destruct (sv_parent _ _ Hi k ltac:(lia)) as [Hp (x & y & Hx & Hy & He)]. rewrite Hb in Hy. injection Hy as <-.
        eapply reachable_snoc; [|exact He]. by apply (IH (par st k)); [lia|lia|].
    + intros [l Hp]. assert (Hr : root ∈ order) by (apply head_Some_elem_of, (sv_root _ _ Hi)).
      revert Hr Hp. generalize root as a. clear -Hvisit. induction l as [|x l IH]; intros a Ha Hp; inversion Hp; subst; [done|].
      eapply IH; [|done]. by eapply Hvisit.
Qed.
End search.

(** ** Path compression evaluates least semidominators *)

Section forest.
Context (N : nat) (E : nat -> nat -> Prop) (par : nat -> nat) (Hok : numbering_ok N E par).
Implicit Types (k u v w x y : nat) (sm A L : nat -> nat) (semi : list nat) (f : forest).
Abbreviation anc := (anc N par).
Abbreviation below := (below N par).

Record forest_ok k sm A L : Prop := {
  fo_free x : (x <= k)%nat -> A x = 0%nat /\ L x = x;
  fo_linked x : (k < x <= N)%nat -> (1 <= A x)%nat /\ anc (A x) x /\ A x <> x /\ below (A x) x (L x);
  fo_least x y : (k < x <= N)%nat -> below (A x) x y -> (k < y)%nat /\ (sm (L x) <= sm y)%nat }.

(** [f] is the pair of arrays [A] and [L]. *)
Definition forest_at k sm f A : Prop := exists L, array (S N) A f.1 /\ array (S N) L f.2 /\ forest_ok k sm A L.

Lemma below_self a x : anc a x -> a <> x -> below a x x.
Proof. intros Ha Hne. split; [done|]. split; [done|constructor]. Qed.

Lemma below_range a x y : below a x y -> (2 <= y <= N)%nat.
Proof. intros (Ha & Hne & _). by destruct (anc_strict _ _ a y Ha Hne). Qed.

(** A path in two parts. *)
Lemma below_split a b x y : anc a b -> anc b x -> below a x y -> below a b y \/ below b x y.
Proof.
  intros Hab Hbx (Hay & Hne & Hyx). destruct (anc_linear _ _ _ Hok y b x Hyx Hbx) as [Hyb|Hby]; [by left|].
  destruct (decide (b = y)) as [->|Hby']; [left; split; [done|]; split; [done|constructor]|by right].
Qed.

Lemma below_join_up a b x y : anc b x -> below a b y -> below a x y.
Proof. intros Hbx (Hay & Hne & Hyb). split; [done|]. split; [done|]. by eapply anc_trans. Qed.

Lemma below_join_down a b x y : anc a b -> below b x y -> below a x y.
Proof.
  intros Hab (Hby & Hne & Hyx). split; [by eapply anc_trans|]. split; [|done]. intros ->.
  apply (anc_le _ _ _ Hok) in Hab, Hby. lia.
Qed.

Lemma linked_lt k sm A L x : forest_ok k sm A L -> (k < x <= N)%nat -> (A x < x)%nat.
Proof. intros Hf Hx. destruct (fo_linked _ _ _ _ Hf x Hx) as (_ & Ha%(anc_le _ _ _ Hok) & ? & _). lia. Qed.

(** One step of compression: the node skips its linked ancestor. *)
Lemma compress_ok k sm A L node : forest_ok k sm A L -> (k < node <= N)%nat -> (k < A node)%nat ->
  forest_ok k sm (<[node := A (A node)]> A)
    (if decide (sm (L (A node)) < sm (L node))%nat then <[node := L (A node)]> L else L).
Proof.
  intros Hf Hn Hp. pose proof (linked_lt _ _ _ _ node Hf Hn) as Hlt. set (p := A node) in *.
  destruct (fo_linked _ _ _ _ Hf node Hn) as (_ & Hpn & Hpne & HL). fold p in Hpn, Hpne, HL.
  assert (Hpr : (k < p <= N)%nat) by lia. destruct (fo_linked _ _ _ _ Hf p Hpr) as (HA & Hap & Hane & HLp).
  assert (HLnode : forall x, x <> node -> (if decide (sm (L p) < sm (L node))%nat then <[node := L p]> L else L) x = L x).
  { intros x Hx. case_decide; [|done]. by rewrite fn_lookup_insert_ne. }
  assert (Hbest : forall y, below (A p) node y -> (k < y)%nat /\
    (sm ((if decide (sm (L p) < sm (L node))%nat then <[node := L p]> L else L) node) <= sm y)%nat).
  { intros y Hy. destruct (below_split (A p) p node y Hap Hpn Hy) as [Hy'|Hy'].
    - destruct (fo_least _ _ _ _ Hf p y Hpr Hy') as [? ?]. split; [done|]. case_decide; [rewrite fn_lookup_insert|]; lia.
    - destruct (fo_least _ _ _ _ Hf node y Hn Hy') as [? ?]. split; [done|]. case_decide; [rewrite fn_lookup_insert|]; lia. }
  split.
  - intros x Hx. rewrite HLnode by lia. rewrite fn_lookup_insert_ne by lia. by apply (fo_free _ _ _ _ Hf).
  - intros x Hx. destruct (decide (x = node)) as [->|Hne].
    + rewrite fn_lookup_insert. split; [done|]. split; [by eapply anc_trans|]. split.
      * pose proof (linked_lt _ _ _ _ p Hf Hpr). lia.
      * case_decide; [rewrite fn_lookup_insert; by apply (below_join_up _ p)|by apply (below_join_down _ p)].
    + rewrite HLnode, fn_lookup_insert_ne by done. by apply (fo_linked _ _ _ _ Hf).
  - intros x y Hx. destruct (decide (x = node)) as [->|Hne].
    + rewrite fn_lookup_insert. apply Hbest.
    + rewrite HLnode, fn_lookup_insert_ne by done. by apply (fo_least _ _ _ _ Hf).
Qed.

Lemma compress_node_spec k sm semi f A node : array (S N) sm semi -> forest_at k sm f A -> (k < node <= N)%nat -> (k < A node)%nat ->
  exists f', compress_node semi f node = Ok f' /\ forest_at k sm f' (<[node := A (A node)]> A).
Proof.
  intros Hs (L & HA & HL & Hf) Hn Hp. pose proof (linked_lt _ _ _ _ node Hf Hn).
  destruct (fo_linked _ _ _ _ Hf node Hn) as (_ & _ & _ & HLn%below_range).
  destruct (fo_linked _ _ _ _ Hf (A node) ltac:(lia)) as (_ & _ & _ & HLp%below_range).
  unfold compress_node. rewrite (array_lookup _ _ _ node HA) by lia. msimpl.
  rewrite (array_lookup _ _ _ (A node) HL), (array_lookup _ _ _ node HL) by lia. msimpl.
  rewrite (array_lookup _ _ _ (L (A node)) Hs), (array_lookup _ _ _ (L node) Hs), (array_lookup _ _ _ (A node) HA) by lia. msimpl.
  eexists. split; [done|]. exists (if decide (sm (L (A node)) < sm (L node))%nat then <[node := L (A node)]> L else L). cbn.
  split; [by apply array_insert|]. split; [case_decide; [by apply array_insert|done]|]. by apply compress_ok.
Qed.

(** *** Collecting and compressing a path *)

(** The nodes from [c] up whose ancestor is linked. *)
Inductive linked_chain k A : nat -> list nat -> Prop :=
  | lc_nil c : (A c <= k)%nat -> linked_chain k A c []
  | lc_cons c l : (k < A c)%nat -> linked_chain k A (A c) l -> linked_chain k A c (c :: l).

Lemma collect_path_spec k sm f A c fuel path : forest_at k sm f A -> (k < c <= N)%nat -> (c <= fuel)%nat ->
  exists l, collect_path fuel f.1 c path = Ok (path ++ l) /\ linked_chain k A c l.
Proof.
  intros (L & HA & _ & Hf). revert c path. induction fuel as [|fuel IH]; intros c path Hc Hfuel; [lia|].
  pose proof (linked_lt _ _ _ _ c Hf Hc). destruct (fo_linked _ _ _ _ Hf c Hc) as (HAc & _).
  cbn [collect_path]. rewrite (array_lookup _ _ _ c HA) by lia. msimpl. rewrite decide_False by lia.
  rewrite (array_lookup _ _ _ (A c) HA) by lia. msimpl. case_decide as Hz.
  - exists []. rewrite app_nil_r. split; [done|]. constructor. destruct (decide (A c <= k)%nat); [done|].
    destruct (fo_linked _ _ _ _ Hf (A c) ltac:(lia)) as (? & _). lia.
  - assert (Hk : (k < A c)%nat) by (destruct (decide (A c <= k)%nat) as [Hle|]; [|lia]; by destruct (fo_free _ _ _ _ Hf (A c) Hle)).
    destruct (IH (A c) (path ++ [c])) as (l & -> & Hl); [lia|lia|]. exists (c :: l). rewrite <- app_assoc. split; [done|]. by constructor.
Qed.

Lemma linked_chain_le k sm A L c l x : forest_ok k sm A L -> (k < c <= N)%nat -> linked_chain k A c l -> x ∈ l -> (x <= c)%nat.
Proof.
  intros Hf Hc Hl. induction Hl as [|c l Hk Hl IH]; [by intros ?%not_elem_of_nil|]. pose proof (linked_lt _ _ _ _ c Hf Hc).
  intros [->|Hx]%elem_of_cons; [done|]. specialize (IH ltac:(lia) Hx). lia.
Qed.

Lemma compress_path_spec k sm semi A c l f : array (S N) sm semi -> forest_at k sm f A -> (k < c <= N)%nat -> linked_chain k A c l ->
  exists f' A', foldM (compress_node semi) f (rev l) = Ok f' /\ forest_at k sm f' A' /\ (A' c <= k)%nat /\ forall y, (c < y)%nat -> A' y = A y.
Proof.
  intros Hs. intros Hf Hc Hl. revert Hf. induction Hl as [c Hk|c l Hk Hl IH]; intros Hf.
  { exists f, A. done. }
  pose proof Hf as (L & _ & _ & Hfo). pose proof (linked_lt _ _ _ _ c Hfo Hc) as Hlt.
  destruct (IH ltac:(lia) Hf) as (f1 & A1 & Hfold & Hf1 & HA1 & Hsame). clear IH.
  assert (HA1c : A1 c = A c) by (by apply Hsame).
  destruct (compress_node_spec k sm semi f1 A1 c Hs Hf1 Hc) as (f2 & Hstep & Hf2); [lia|].
  exists f2, (<[c := A1 (A1 c)]> A1). split_and!; [|done| |].
  - cbn [rev]. rewrite foldM_app, Hfold. msimpl. cbn [foldM]. rewrite Hstep. done.
  - rewrite fn_lookup_insert, HA1c. done.
  - intros y Hy. rewrite fn_lookup_insert_ne by lia. apply Hsame. lia.
Qed.

(** What [lt_eval] returns at stage [k]. *)
Definition evaluates k sm v u : Prop :=
  if decide (v <= k)%nat then u = v else
  exists r, (1 <= r <= k)%nat /\ below r v u /\ forall y, below r v y -> (k < y)%nat /\ (sm u <= sm y)%nat.

Lemma lt_eval_spec k sm semi f v : array (S N) sm semi -> (exists A, forest_at k sm f A) -> (1 <= v <= N)%nat ->
  exists u f', lt_eval v semi f = Ok (u, f') /\ (exists A, forest_at k sm f' A) /\ evaluates k sm v u /\ (1 <= u <= N)%nat.
Proof.
  intros Hs (A & L & HA & HL & Hf) Hv. unfold lt_eval, evaluates. rewrite (array_lookup _ _ _ v HA) by lia. msimpl.
  destruct (decide (v <= k)%nat) as [Hvk|Hvk].
  - destruct (fo_free _ _ _ _ Hf v Hvk) as [-> HLv]. rewrite decide_True by done. rewrite (array_lookup _ _ _ v HL), HLv by lia. msimpl.
    exists v, f. split_and!; [done|by exists A, L|done|lia..].
  - assert (Hvr : (k < v <= N)%nat) by lia. destruct (fo_linked _ _ _ _ Hf v Hvr) as (HAv & _). rewrite decide_False by lia.
    assert (Hfa : forest_at k sm f A) by (by exists L).
    destruct (collect_path_spec k sm f A v (length f.1) [] Hfa Hvr) as (l & -> & Hl); [rewrite (proj1 HA); lia|]. msimpl. cbn [app].
    destruct (compress_path_spec k sm semi A v l f Hs Hfa Hvr Hl) as (f' & A' & -> & Hf' & HA'v & _). msimpl.
    pose proof Hf' as (L' & HA' & HL' & Hfo'). rewrite (array_lookup _ _ _ v HL') by lia. msimpl.
    destruct (fo_linked _ _ _ _ Hfo' v Hvr) as (HA1 & _ & _ & Hb). exists (L' v), f'. split_and!; [done|by exists A'| |..].
    + exists (A' v). split; [lia|]. split; [done|]. intros y. by apply (fo_least _ _ _ _ Hfo').
    + pose proof (below_range _ _ _ Hb). lia.
    + apply (below_range _ _ _ Hb).
Qed.

(** Linking the next node. *)
Lemma link_ok k sm A f : forest_at (S k) sm f A -> (2 <= S k <= N)%nat ->
  forest_at k sm (<[S k := par (S k)]> f.1, f.2) (<[S k := par (S k)]> A).
Proof.
  intros (L & HA & HL & Hf) Hk. destruct (nk_parent _ _ _ Hok (S k) Hk) as [Hp _]. exists L. cbn.
  split; [by apply array_insert|]. split; [done|].
  assert (Hpar : forall y, below (par (S k)) (S k) y -> y = S k).
  { intros y (Hy1 & Hne & Hy2). destruct (decide (y = S k)) as [?|Hyk]; [done|].
    destruct (anc_strict _ _ _ _ Hy2 Hyk) as [_ Hy3]. apply (anc_le _ _ _ Hok) in Hy1, Hy3. lia. }
  split.
  - intros x Hx. rewrite fn_lookup_insert_ne by lia. apply (fo_free _ _ _ _ Hf). lia.
  - intros x Hx. destruct (decide (x = S k)) as [->|Hne].
    + rewrite fn_lookup_insert. destruct (fo_free _ _ _ _ Hf (S k) ltac:(lia)) as [_ ->].
      assert (Ha : anc (par (S k)) (S k)) by (apply anc_up; [lia|constructor]). split_and!; [lia|done|lia|]. apply below_self; [done|lia].
    + rewrite fn_lookup_insert_ne by done. apply (fo_linked _ _ _ _ Hf). lia.
  - intros x y Hx. destruct (decide (x = S k)) as [->|Hne].
    + rewrite fn_lookup_insert. intros ->%Hpar. destruct (fo_free _ _ _ _ Hf (S k) ltac:(lia)) as [_ ->]. lia.
    + rewrite fn_lookup_insert_ne by done. intros Hy. destruct (fo_least _ _ _ _ Hf x y ltac:(lia) Hy). lia.
Qed.

(** The forest does not look at the semidominators of free nodes. *)
Lemma forest_ext k sm sm' f A : (forall x, (k < x)%nat -> sm x = sm' x) -> forest_at k sm f A -> forest_at k sm' f A.
Proof.
  intros Heq (L & HA & HL & [H1 H2 H3]). exists L. split; [done|]. split; [done|]. split; [done|done|].
  intros x y Hx Hy. destruct (H3 x y Hx Hy) as [Hk Hle]. destruct (H2 x Hx) as (_ & _ & _ & Hb). destruct (H3 x _ Hx Hb) as [HL' _].
  by rewrite <- !Heq.
Qed.
End forest.
