(* ===== verification/LengauerTarjan.v ===== *)
(** * LengauerTarjan: the algorithm computes immediate dominators

    The main loop of [Cfg.lengauer_tarjan] computes semidominators from the
    greatest number down and leaves for every node either its semidominator or
    a relative; the forward pass turns them into immediate dominators. *)

From stdpp Require Import functions.
From S2P Require Import Prelude Specs Graph Cfg Semidominators LtSearch.

Section main.
Context (N : nat) (E : nat -> nat -> Prop) (par : nat -> nat) (Hok : numbering_ok N E par).
Context (preds : graph) (parents : list nat).
Context (Hpreds : forall w, (2 <= w <= N)%nat -> exists row, preds !! w = Some row /\ forall v, v ∈ row <-> E v w).
Context (Hparents : forall w, (2 <= w <= N)%nat -> parents !! w = Some (par w)).
Implicit Types (k s t u v w x y p c d : nat) (sm im : nat -> nat) (B : nat -> list nat) (f : forest).
Abbreviation anc := (anc N par).
Abbreviation below := (below N par).
Abbreviation semi_of := (semi_of E).
Abbreviation forest_at := (forest_at N par).
Abbreviation evaluates := (evaluates N par).

Lemma semi_unique w s t : semi_of w s -> semi_of w t -> s = t.
Proof. intros [H1 H2] [H3 H4]. pose proof (H2 _ H3). pose proof (H4 _ H1). lia. Qed.

(** What the bucket pass leaves for [v]: its semidominator when no node below
    has a smaller one, or else a node below with the least. *)
Definition resolved v i : Prop := exists s, semi_of v s /\
  ((i = s /\ forall u t, below s v u -> semi_of u t -> (s <= t)%nat) \/
   (below s v i /\ exists t, semi_of i t /\ (t < s)%nat /\ forall u t', below s v u -> semi_of u t' -> (t <= t')%nat)).

Record stage_ok k sm im B (st : lt_state) : Prop := {
  sg_semi : array (S N) sm (lt_semi st);
  sg_idom : array (S N) im (idom_number st);
  sg_forest : exists A, forest_at k sm (lt_forest st) A;
  sg_bucket : array (S N) B (bucket st);
  sg_todo x : (x <= k)%nat -> sm x = x;
  sg_done x : (k < x <= N)%nat -> semi_of x (sm x);
  sg_pending p v : (p <= N)%nat -> v ∈ B p -> (k < v <= N)%nat /\ sm v = p /\
    forall c, (2 <= c <= N)%nat -> par c = p -> anc c v -> (c <= k)%nat;
  sg_resolved v : (k < v <= N)%nat -> v ∈ B (sm v) \/ resolved v (im v) }.

(** ** The semidominator of one block *)

(** [m] is a candidate for the semidominator of [w] that is at most those of
    the predecessors in [row]. *)
Record least_so_far w (row : list nat) m : Prop := {
  lf_from : m = w \/ semi_candidate N E par w m;
  lf_edge v : v ∈ row -> (v < w)%nat -> (m <= v)%nat;
  lf_above v u t : v ∈ row -> (w < u)%nat -> anc u v -> semi_of u t -> (m <= t)%nat }.

Lemma lt_predecessor_spec w sm0 row v semi f m : (2 <= w <= N)%nat -> E v w ->
  (forall x, (x < w)%nat -> sm0 x = x) -> (forall x, (w < x <= N)%nat -> semi_of x (sm0 x)) ->
  array (S N) (<[w := m]> sm0) semi -> (exists A, forest_at w sm0 f A) -> least_so_far w row m ->
  exists semi' f' m', lt_predecessor w (semi, f) v = Ok (semi', f') /\ array (S N) (<[w := m']> sm0) semi' /\
    (exists A, forest_at w sm0 f' A) /\ least_so_far w (row ++ [v]) m'.
Proof.
  intros Hw He Htodo Hdone Hs [A Hf] Hm. destruct (nk_edge _ _ _ Hok v w He) as [Hv _].
  assert (Hsame : forall x, (w < x)%nat -> sm0 x = (<[w := m]> sm0) x) by (intros x Hx; by rewrite fn_lookup_insert_ne by lia).
  assert (Hf' : forest_at w (<[w := m]> sm0) f A) by (by eapply forest_ext).
  destruct (lt_eval_spec N E par Hok w _ semi f v Hs (ex_intro _ A Hf') Hv) as (u & f2 & Heval & [A2 Hf2] & Hu & Hur).
  unfold lt_predecessor. cbn [fst snd]. rewrite Heval. msimpl. cbn [fst snd].
  rewrite (array_lookup _ _ _ w Hs), fn_lookup_insert by lia. msimpl. rewrite (array_lookup _ _ _ u Hs) by lia. msimpl.
  set (m' := Nat.min m ((<[w := m]> sm0) u)). exists (<[w := m']> semi), f2, m'. split; [done|]. split.
  { eapply array_ext; [|by apply array_insert]. intros x _. destruct (decide (x = w)) as [->|]; [by rewrite !fn_lookup_insert|].
    by rewrite !fn_lookup_insert_ne by done. }
  split; [exists A2; eapply forest_ext; [|exact Hf2]; intros x Hx; by rewrite Hsame|].
  unfold LtSearch.evaluates in Hu. destruct Hm as [Hfrom Hedge Habove]. case_decide as Hvw.
  - subst u. assert (Hm' : m' = if decide (v < w)%nat then Nat.min m v else m).
    { unfold m'. case_decide; [rewrite fn_lookup_insert_ne, Htodo by lia; lia|]. assert (v = w) as -> by lia. rewrite fn_lookup_insert. lia. }
    rewrite Hm'. split.
    + case_decide; [|done]. destruct (Nat.min_spec m v) as [[_ ->]|[_ ->]]; [done|]. right. by left.
    + intros x [Hx| ->%list_elem_of_singleton]%elem_of_app Hlt; [specialize (Hedge x Hx Hlt)|]; case_decide; lia.
    + intros x y t [Hx| ->%list_elem_of_singleton]%elem_of_app Hy Ha Ht; [pose proof (Habove x y t Hx Hy Ha Ht); case_decide; lia|].
      apply (anc_le _ _ _ Hok) in Ha. lia.
  - destruct Hu as (r & Hr & Hb & Hleast). destruct (Hleast u Hb) as [Hwu _]. assert (Hmu : m' = Nat.min m (sm0 u)) by (unfold m'; by rewrite fn_lookup_insert_ne by lia).
    pose proof (Hdone u ltac:(lia)) as Hsu. rewrite Hmu. split.
    + destruct (Nat.min_spec m (sm0 u)) as [[_ ->]|[_ ->]]; [done|]. right. right. exists u, v. destruct Hb as (_ & _ & Hb). done.
    + intros x [Hx| ->%list_elem_of_singleton]%elem_of_app Hlt; [specialize (Hedge x Hx Hlt); lia|lia].
    + intros x y t [Hx| ->%list_elem_of_singleton]%elem_of_app Hy Ha Ht; [pose proof (Habove x y t Hx Hy Ha Ht); lia|].
      assert (Hby : below r v y).
      { destruct Hb as (Hru & Hne & Huv). pose proof (anc_trans _ _ _ _ _ Hru Huv) as Hrv.
        destruct (anc_linear _ _ _ Hok r y v Hrv Ha) as [Hry|Hyr]; [split; [done|]; split; [lia|done]|].
        apply (anc_le _ _ _ Hok) in Hyr. lia. }
      destruct (Hleast y Hby) as [_ Hle]. rewrite !fn_lookup_insert_ne in Hle by lia.
      assert (HyN : (y <= N)%nat) by (apply (anc_le _ _ _ Hok) in Ha; lia).
      rewrite <- (semi_unique y _ _ (Hdone y ltac:(lia)) Ht). lia.
Qed.

Lemma lt_predecessors_spec w sm0 row semi f : (2 <= w <= N)%nat -> (forall v, v ∈ row -> E v w) ->
  (forall x, (x <= w)%nat -> sm0 x = x) -> (forall x, (w < x <= N)%nat -> semi_of x (sm0 x)) ->
  array (S N) sm0 semi -> (exists A, forest_at w sm0 f A) ->
  exists semi' f' m, foldM (lt_predecessor w) (semi, f) row = Ok (semi', f') /\ array (S N) (<[w := m]> sm0) semi' /\
    (exists A, forest_at w sm0 f' A) /\ least_so_far w row m.
Proof.
  intros Hw Hrow Htodo Hdone Hs Hf. induction row as [|v row IH] using rev_ind.
  - exists semi, f, w. split; [done|]. split.
    { eapply array_ext; [|exact Hs]. intros x _. destruct (decide (x = w)) as [->|]; [rewrite fn_lookup_insert; by apply Htodo|by rewrite fn_lookup_insert_ne]. }
    split; [done|]. split; [by left|intros ? Hx|intros ? ? ? Hx]; by apply not_elem_of_nil in Hx.
  - destruct IH as (semi1 & f1 & m1 & Hfold & Hs1 & Hf1 & Hm1); [intros; apply Hrow; set_solver|].
    destruct (lt_predecessor_spec w sm0 row v semi1 f1 m1 Hw ltac:(apply Hrow; set_solver)) as (semi2 & f2 & m2 & Hstep & ?);
      [intros; apply Htodo; lia|done|done|done|done|].
    exists semi2, f2, m2. rewrite foldM_app, Hfold. msimpl. cbn [foldM]. rewrite Hstep. done.
Qed.

(** All predecessors seen, the candidate is the semidominator. *)
Lemma least_is_semi w row m : (2 <= w <= N)%nat -> (forall v, v ∈ row <-> E v w) ->
  (forall u, (w < u <= N)%nat -> exists s, semi_of u s) -> least_so_far w row m -> semi_of w m.
Proof.
  intros Hw Hrow Hsemi [Hfrom Hedge Habove]. destruct (nk_parent _ _ _ Hok w Hw) as [Hp He]. split.
  - destruct Hfrom as [->|Hc]; [|by eapply (candidate_semipath _ _ _ Hok)]. pose proof (Hedge (par w) ltac:(by apply Hrow) ltac:(lia)). lia.
  - intros v Hv. destruct (candidate_least _ _ _ Hok w v Hw Hsemi Hv) as (m' & Hc & Hle).
    transitivity m'; [|done]. destruct Hc as [[Hm' Hlt]|(u & v' & Hu & Hs & Ha & He')].
    + apply Hedge; [by apply Hrow|done].
    + apply (Habove v' u); [by apply Hrow|done..].
Qed.
(** ** The bucket of the parent *)

(** The child of [p] towards [v]. *)
Lemma child_towards p v : anc p v -> p <> v -> exists c, (2 <= c <= N)%nat /\ par c = p /\ anc c v.
Proof.
  induction 1 as [|v Hv Ha IH]; intros Hne; [done|]. destruct (decide (p = par v)) as [->|Hp].
  - exists v. split_and!; [lia..|done|constructor].
  - destruct (IH Hp) as (c & Hc & Hpc & Hac). exists c. split_and!; [lia..|done|by apply anc_up].
Qed.

(** The child of [w]'s parent towards a node that is not less than [w] is [w],
    unless it is greater. *)
Lemma child_is w v c : (2 <= w <= N)%nat -> (2 <= c <= w)%nat -> par c = par w -> anc c v -> (w <= v)%nat -> c = w.
Proof.
  intros Hw Hc Hpc Hcv Hwv. destruct (decide (c = w)) as [?|Hne]; [done|]. exfalso.
  assert (Hcw : anc c w) by (eapply (nk_interval _ _ _ Hok); [exact Hcv|lia]).
  destruct (anc_strict _ _ _ _ Hcw Hne) as [_ Hcp%(anc_le _ _ _ Hok)]. destruct (nk_parent _ _ _ Hok c ltac:(lia)) as [? _]. lia.
Qed.

Lemma lt_candidate_spec k sm im p v semi id f : array (S N) sm semi -> array (S N) im id -> (exists A, forest_at k sm f A) ->
  (1 <= p <= k)%nat -> (k < v <= N)%nat -> sm v = p -> (forall x, (k < x <= N)%nat -> semi_of x (sm x)) ->
  (forall y, below p v y -> (k < y)%nat) ->
  exists i id' f', lt_candidate semi p (id, f) v = Ok (id', f') /\ array (S N) (<[v := i]> im) id' /\
    (exists A, forest_at k sm f' A) /\ resolved v i.
Proof.
  intros Hs Hid Hf Hp Hv Hsv Hdone Hbelow. unfold lt_candidate. cbn [fst snd].
  destruct (lt_eval_spec N E par Hok k sm semi f v Hs Hf) as (u & f' & -> & Hf' & Hu & Hur); [lia|]. msimpl. cbn [fst snd].
  rewrite (array_lookup _ _ _ u Hs), (array_lookup _ _ _ v Hs) by lia. msimpl. unfold vset. rewrite (proj1 Hid), decide_True by lia. msimpl.
  exists (if decide (sm u < sm v)%nat then u else p). eexists _, _. split; [done|]. split; [by apply array_insert|]. split; [done|].
  unfold LtSearch.evaluates in Hu. rewrite decide_False in Hu by lia. destruct Hu as (r & Hr & Hb & Hleast).
  pose proof (Hdone v Hv) as Hsemi. rewrite Hsv in Hsemi. assert (Hpv := semi_anc _ _ _ Hok v p ltac:(lia) Hsemi).
  assert (r = p) as ->.
  { destruct (decide (r = p)) as [?|Hne]; [done|]. exfalso. destruct Hb as (Hru & ? & Huv). pose proof (anc_trans _ _ _ _ _ Hru Huv) as Hrv.
    destruct (anc_linear _ _ _ Hok r p v Hrv Hpv) as [Hrp|Hpr].
    - destruct (Hleast p); [done|lia].
    - specialize (Hbelow r ltac:(done)). lia. }
  assert (HuN := below_range _ _ _ _ _ Hb). pose proof (Hbelow u Hb) as Hku. assert (Hle : forall y t, below p v y -> semi_of y t -> (sm u <= t)%nat).
  { intros y t Hy Ht. pose proof (below_range _ _ _ _ _ Hy). destruct (Hleast y Hy) as [Hky ?].
    by rewrite <- (semi_unique y _ _ (Hdone y ltac:(lia)) Ht). }
  exists p. split; [done|]. rewrite Hsv. case_decide as Hlt.
  - right. split; [done|]. exists (sm u). split; [apply Hdone; lia|]. done.
  - left. split; [done|]. intros y t Hy Ht. specialize (Hle y t Hy Ht). lia.
Qed.

Lemma lt_candidates_spec k sm im p semi pending id f : array (S N) sm semi -> array (S N) im id -> (exists A, forest_at k sm f A) ->
  (1 <= p <= k)%nat -> (forall x, (k < x <= N)%nat -> semi_of x (sm x)) ->
  (forall v, v ∈ pending -> (k < v <= N)%nat /\ sm v = p /\ forall y, below p v y -> (k < y)%nat) ->
  exists im' id' f', foldM (lt_candidate semi p) (id, f) pending = Ok (id', f') /\ array (S N) im' id' /\
    (exists A, forest_at k sm f' A) /\ (forall v, v ∈ pending -> resolved v (im' v)) /\ forall v, v ∉ pending -> im' v = im v.
Proof.
  intros Hs Hid Hf Hp Hdone Hpend. induction pending as [|v pending IH] using rev_ind.
  { exists im, id, f. split_and!; [done..| |done]. by intros ? ?%not_elem_of_nil. }
  destruct IH as (im1 & id1 & f1 & Hfold & Hid1 & Hf1 & Hres & Hsame); [intros; apply Hpend; set_solver|].
  destruct (Hpend v ltac:(set_solver)) as (Hv & Hsv & Hb).
  destruct (lt_candidate_spec k sm im1 p v semi id1 f1 Hs Hid1 Hf1 Hp Hv Hsv Hdone Hb) as (i & id2 & f2 & Hstep & Hid2 & Hf2 & Hi).
  exists (<[v := i]> im1), id2, f2. rewrite foldM_app, Hfold. msimpl. cbn [foldM]. rewrite Hstep. split_and!; [done..| |].
  - intros x Hx. destruct (decide (x = v)) as [->|Hne]; [by rewrite fn_lookup_insert|]. rewrite fn_lookup_insert_ne by done.
    apply Hres. set_solver.
  - intros x Hx. rewrite fn_lookup_insert_ne by set_solver. apply Hsame. set_solver.
Qed.
(** ** One turn of the main loop *)

(** The buckets after [w] entered that of its semidominator [m] and the one of
    its parent was emptied. *)
Definition buckets_after w m B : nat -> list nat := <[par w := []]> (<[m := B m ++ [w]]> B).

(** What is in the bucket of [w]'s parent at [w]'s turn has no unlinked node
    below the parent. *)
Lemma pending_linked k sm im B st m v : stage_ok (S k) sm im B st -> (2 <= S k <= N)%nat -> semi_of (S k) m ->
  v ∈ (<[m := B m ++ [S k]]> B) (par (S k)) ->
  (k < v <= N)%nat /\ (<[S k := m]> sm) v = par (S k) /\ forall y, below (par (S k)) v y -> (k < y)%nat.
Proof.
  intros Hst Hk Hm Hv. destruct (nk_parent _ _ _ Hok (S k) Hk) as [Hp _].
  assert (Hv' : v ∈ B (par (S k)) \/ (v = S k /\ m = par (S k))).
  { destruct (decide (m = par (S k))) as [->|Hne]; [|rewrite fn_lookup_insert_ne in Hv by done; by left].
    rewrite fn_lookup_insert in Hv. set_solver. }
  assert (Hvr : (k < v <= N)%nat /\ (<[S k := m]> sm) v = par (S k) /\ forall c, (2 <= c <= N)%nat -> par c = par (S k) -> anc c v -> (c <= S k)%nat).
  { destruct Hv' as [Hin|[-> ->]].
    - destruct (sg_pending _ _ _ _ _ Hst (par (S k)) v ltac:(lia) Hin) as (? & ? & ?). rewrite fn_lookup_insert_ne by lia. split_and!; [lia..|done|done].
    - rewrite fn_lookup_insert. split_and!; [lia..|done|]. intros c _ _ Hc. by apply (anc_le _ _ _ Hok). }
  destruct Hvr as (Hvk & Hsv & Hc). split; [done|]. split; [done|]. intros y (Hpy & Hne & Hyv).
  destruct (child_towards _ y Hpy Hne) as (c & Hcr & Hpc & Hcy). pose proof (Hc c Hcr Hpc (anc_trans _ _ _ _ _ Hcy Hyv)) as HcS.
  assert (c = S k) as -> by (apply (child_is (S k) v c); [lia|lia|done|by eapply anc_trans|lia]).
  apply (anc_le _ _ _ Hok) in Hcy. lia.
Qed.

Lemma stage_next k sm im im' B st st' m : stage_ok (S k) sm im B st -> (2 <= S k <= N)%nat -> semi_of (S k) m ->
  array (S N) (<[S k := m]> sm) (lt_semi st') -> array (S N) im' (idom_number st') ->
  (exists A, forest_at k (<[S k := m]> sm) (lt_forest st') A) -> array (S N) (buckets_after (S k) m B) (bucket st') ->
  (forall v, v ∈ (<[m := B m ++ [S k]]> B) (par (S k)) -> resolved v (im' v)) ->
  (forall v, v ∉ (<[m := B m ++ [S k]]> B) (par (S k)) -> im' v = im v) ->
  stage_ok k (<[S k := m]> sm) im' (buckets_after (S k) m B) st'.
Proof.
  intros Hst Hk Hm Hs Hid Hf Hb Hres Hsame. destruct (semi_lt _ _ _ Hok _ _ Hk Hm) as [Hmk Hm1]. destruct (nk_parent _ _ _ Hok (S k) Hk) as [Hp _].
  assert (Hin : forall q v, q <> par (S k) -> v ∈ buckets_after (S k) m B q <-> v ∈ B q \/ (v = S k /\ q = m)).
  { intros q v Hq. unfold buckets_after. rewrite fn_lookup_insert_ne by done. destruct (decide (q = m)) as [->|Hqm].
    - rewrite fn_lookup_insert. set_solver.
    - rewrite fn_lookup_insert_ne by done. naive_solver. }
  split; [done..| | | |].
  - intros x Hx. rewrite fn_lookup_insert_ne by lia. apply (sg_todo _ _ _ _ _ Hst). lia.
  - intros x Hx. destruct (decide (x = S k)) as [->|Hne]; [by rewrite fn_lookup_insert|]. rewrite fn_lookup_insert_ne by done.
    apply (sg_done _ _ _ _ _ Hst). lia.
  - intros q v HqN Hv. destruct (decide (q = par (S k))) as [->|Hq]; [unfold buckets_after in Hv; rewrite fn_lookup_insert in Hv; by apply not_elem_of_nil in Hv|].
    apply Hin in Hv; [|done]. assert (Hc : (k < v <= N)%nat /\ (<[S k := m]> sm) v = q /\ forall c, (2 <= c <= N)%nat -> par c = q -> anc c v -> (c <= S k)%nat).
    { destruct Hv as [Hv|[-> ->]].
      - destruct (sg_pending _ _ _ _ _ Hst q v HqN Hv) as (? & ? & ?). rewrite fn_lookup_insert_ne by lia. split_and!; [lia..|done|done].
      - rewrite fn_lookup_insert. split_and!; [lia..|done|]. intros c _ _ Hc. by apply (anc_le _ _ _ Hok). }
    destruct Hc as (Hvk & Hsv & Hc). split; [done|]. split; [done|]. intros c Hcr Hpc Hcv. pose proof (Hc c Hcr Hpc Hcv).
    destruct (decide (c = S k)) as [->|]; [by subst q|lia].
  - intros v Hv. destruct (decide (v ∈ (<[m := B m ++ [S k]]> B) (par (S k)))) as [Hpend|Hpend]; [right; by apply Hres|].
    rewrite (Hsame v Hpend). destruct (decide (v = S k)) as [->|Hne].
    + left. rewrite fn_lookup_insert. apply Hin; [|by right]. intros ->. apply Hpend. rewrite fn_lookup_insert. set_solver.
    + rewrite fn_lookup_insert_ne by done. destruct (sg_resolved _ _ _ _ _ Hst v ltac:(lia)) as [Hv'|?]; [left|by right].
      apply Hin; [|by left]. intros Heq. apply Hpend. rewrite Heq in Hv'. destruct (decide (m = par (S k))) as [->|].
      * rewrite fn_lookup_insert. set_solver.
      * by rewrite fn_lookup_insert_ne.
Qed.

Lemma lt_block_spec k sm im B st : stage_ok (S k) sm im B st -> (2 <= S k <= N)%nat ->
  exists st' sm' im' B', lt_block parents preds st (S k) = Ok st' /\ stage_ok k sm' im' B' st'.
Proof.
  intros Hst Hk. assert (Hex : forall u, (S k < u <= N)%nat -> exists s, semi_of u s) by (intros u Hu; exists (sm u); by apply (sg_done _ _ _ _ _ Hst)).
  destruct (Hpreds (S k) Hk) as (row & Hrow & Hedges). destruct (nk_parent _ _ _ Hok (S k) Hk) as [Hp _].
  destruct (lt_predecessors_spec (S k) sm row (lt_semi st) (lt_forest st) Hk) as (semi & f & m & Hfold & Hs & [A Hf] & Hleast);
    [by intros v Hv%Hedges|apply (sg_todo _ _ _ _ _ Hst)|apply (sg_done _ _ _ _ _ Hst)|apply (sg_semi _ _ _ _ _ Hst)|apply (sg_forest _ _ _ _ _ Hst)|].
  pose proof (least_is_semi (S k) row m Hk Hedges Hex Hleast) as Hm. destruct (semi_lt _ _ _ Hok _ _ Hk Hm) as [Hmk _].
  unfold lt_block. rewrite Hrow. msimpl. rewrite Hfold. msimpl. cbn [fst snd].
  rewrite (array_lookup _ _ _ (S k) Hs), fn_lookup_insert by lia. msimpl.
  pose proof (sg_bucket _ _ _ _ _ Hst) as HB. rewrite (array_lookup _ _ _ m HB) by lia. msimpl. rewrite (Hparents (S k) Hk). msimpl.
  rewrite decide_False by lia. assert (Hf1 : forest_at (S k) (<[S k := m]> sm) f A).
  { eapply forest_ext; [|exact Hf]. intros x Hx. by rewrite fn_lookup_insert_ne by lia. }
  pose proof (link_ok _ _ _ Hok k _ A f Hf1 Hk) as Hlink. destruct Hf1 as (L & HA & HL & _). unfold vset. rewrite (proj1 HA), decide_True by lia. msimpl.
  assert (HB1 := array_insert _ _ _ m (B m ++ [S k]) HB). rewrite (array_lookup _ _ _ (par (S k)) HB1) by lia. msimpl.
  destruct (lt_candidates_spec k (<[S k := m]> sm) im (par (S k)) semi ((<[m := B m ++ [S k]]> B) (par (S k)))
    (idom_number st) (<[S k := par (S k)]> f.1, f.2) Hs (sg_idom _ _ _ _ _ Hst) (ex_intro _ _ Hlink)) as (im' & id' & f' & -> & Hid & Hf' & Hres & Hsame);
    [lia| |by intros v Hv; eapply pending_linked|].
  { intros x Hx. destruct (decide (x = S k)) as [->|Hne]; [by rewrite fn_lookup_insert|]. rewrite fn_lookup_insert_ne by done.
    apply (sg_done _ _ _ _ _ Hst). lia. }
  msimpl. eexists _, (<[S k := m]> sm), im', (buckets_after (S k) m B). split; [done|].
  eapply stage_next; try done. by apply array_insert.
Qed.
Lemma lt_blocks_spec k sm im B st : stage_ok (S k) sm im B st -> (S k <= N)%nat ->
  exists st' sm' im' B', foldM (lt_block parents preds) st (rev (seq 2 k)) = Ok st' /\ stage_ok 1 sm' im' B' st'.
Proof.
  revert sm im B st. induction k as [|k IH]; intros sm im B st Hst Hk; [by exists st, sm, im, B|].
  rewrite seq_S, rev_app_distr. cbn [rev app foldM Nat.add].
  destruct (lt_block_spec (S k) sm im B st Hst ltac:(lia)) as (st1 & sm1 & im1 & B1 & -> & Hst1). msimpl.
  apply (IH sm1 im1 B1); [done|lia].
Qed.

Definition lt_start : lt_state :=
  LT (seq 0 (S N)) (replicate (S N) 0%nat) (replicate (S N) 0%nat, seq 0 (S N)) (replicate (S N) []).

Lemma start_ok : stage_ok N id (fun _ => 0%nat) (fun _ => []) lt_start.
Proof.
  assert (Hself : array (S N) id (seq 0 (S N))) by (split; [apply length_seq|]; intros i Hi; by rewrite lookup_seq_lt).
  split; cbn -[seq replicate]; [done|apply array_replicate| |apply array_replicate|done|intros; lia|intros p v _ Hv; by apply not_elem_of_nil in Hv|intros; lia].
  exists (fun _ => 0%nat), id. split; [apply array_replicate|]. split; [done|]. split; [done|intros; lia..].
Qed.

(** ** The forward pass *)

(** [i] dominates the same as [v] does strictly. *)
Definition idom_ok v i : Prop := (1 <= i < v)%nat /\ forall d, (d <> v /\ dom E d v) <-> dom E d i.

Record correct_inv x sm im im' : Prop := {
  co_done v : (2 <= v < x)%nat -> idom_ok v (im' v);
  co_todo v : (x <= v)%nat -> im' v = im v }.

Lemma lt_correct_spec x sm im im' semi id : (2 <= x <= N)%nat -> array (S N) sm semi -> array (S N) im' id ->
  (forall v, (2 <= v <= N)%nat -> semi_of v (sm v) /\ resolved v (im v)) -> correct_inv x sm im im' ->
  exists im2 id', lt_correct semi id x = Ok id' /\ array (S N) im2 id' /\ correct_inv (S x) sm im im2.
Proof.
  intros Hx Hs Hid Hall [Hdone Htodo]. destruct (Hall x Hx) as [Hsx (s & Hs' & Hres)]. pose proof (semi_unique _ _ _ Hs' Hsx) as ->.
  destruct (semi_lt _ _ _ Hok _ _ Hx Hsx) as [Hlt H1].
  assert (Hex : forall u, (2 <= u <= N)%nat -> exists t, semi_of u t) by (intros u Hu; exists (sm u); by apply Hall).
  assert (Hnext : forall i, idom_ok x i -> correct_inv (S x) sm im (<[x := i]> im')).
  { intros i Hi. split; intros v Hv.
    - destruct (decide (v = x)) as [->|Hne]; [by rewrite fn_lookup_insert|]. rewrite fn_lookup_insert_ne by done. apply Hdone. lia.
    - rewrite fn_lookup_insert_ne by lia. apply Htodo. lia. }
  unfold lt_correct. rewrite (array_lookup _ _ _ x Hid), (array_lookup _ _ _ x Hs) by lia. msimpl. rewrite (Htodo x) by lia.
  destruct Hres as [[Himx Hmin]|(Hb & t & Ht & Hts & Hmin)].
  - rewrite Himx, decide_True by done. exists (<[x := sm x]> im'), id. split; [done|]. split.
    { eapply array_ext; [|exact Hid]. intros y _. destruct (decide (y = x)) as [->|]; [rewrite fn_lookup_insert, Htodo by lia; done|by rewrite fn_lookup_insert_ne]. }
    apply Hnext. split; [lia|]. by apply (dom_by_semi _ _ _ Hok).
  - pose proof (below_range _ _ _ _ _ Hb) as Hir. assert (Hix : im x <> x) by (intros Heq; rewrite Heq in Ht; rewrite (semi_unique _ _ _ Ht Hsx) in Hts; lia).
    destruct Hb as (Hsi & Hne & Hxi). pose proof (anc_le _ _ _ Hok _ _ Hxi). rewrite decide_False, decide_False by (lia || done).
    rewrite (array_lookup _ _ _ (im x) Hid) by lia. msimpl. eexists _, _. split; [done|]. split; [by apply array_insert|]. apply Hnext.
    destruct (Hdone (im x) ltac:(lia)) as [Hr Hd]. split; [lia|]. intros d. rewrite <- Hd. by apply (dom_by_relative _ _ _ Hok x (sm x) (im x) t).
Qed.

Lemma lt_corrects_spec sm im semi id k x im' : array (S N) sm semi -> array (S N) im' id ->
  (forall v, (2 <= v <= N)%nat -> semi_of v (sm v) /\ resolved v (im v)) -> (2 <= x)%nat -> (x + k = S N)%nat -> correct_inv x sm im im' ->
  exists im2 id', foldM (lt_correct semi) id (seq x k) = Ok id' /\ array (S N) im2 id' /\ forall v, (2 <= v <= N)%nat -> idom_ok v (im2 v).
Proof.
  intros Hs Hid Hall. revert x id im' Hid. induction k as [|k IH]; intros x id im' Hid Hx2 Hx Hinv; cbn [seq foldM].
  - exists im', id. split_and!; [done..|]. intros v Hv. apply (co_done _ _ _ _ Hinv). lia.
  - destruct (lt_correct_spec x sm im im' semi id ltac:(lia) Hs Hid Hall Hinv) as (im2 & id2 & -> & Hid2 & Hinv2). msimpl.
    by apply (IH (S x) id2 im2); [|lia|lia|].
Qed.

(** The main loop and the forward pass leave immediate dominators. *)
Lemma lt_numbers_spec : (1 <= N)%nat -> exists st im id, foldM (lt_block parents preds) lt_start (rev (seq 2 (N - 1))) = Ok st /\
  foldM (lt_correct (lt_semi st)) (idom_number st) (seq 2 (N - 1)) = Ok id /\ array (S N) im id /\
  forall v, (2 <= v <= N)%nat -> idom_ok v (im v).
Proof.
  intros HN. pose proof start_ok as Hstart. replace N with (S (N - 1)) in Hstart at 1 by lia.
  destruct (lt_blocks_spec (N - 1) _ _ _ _ Hstart ltac:(lia)) as (st & sm & im & B & Hfold & Hst). exists st.
  destruct (lt_corrects_spec sm im (lt_semi st) (idom_number st) (N - 1) 2 im (sg_semi _ _ _ _ _ Hst) (sg_idom _ _ _ _ _ Hst))
    as (im2 & id2 & Hc & Hid & Hall); [|lia|lia|split; [intros; lia|done]|by exists im2, id2].
  intros v Hv. split; [apply (sg_done _ _ _ _ _ Hst); lia|]. destruct (sg_resolved _ _ _ _ _ Hst v ltac:(lia)) as [Hin|?]; [|done].
  (* a pending node has a child of its semidominator above it that is at most 1 *)
  exfalso. pose proof (sg_done _ _ _ _ _ Hst v ltac:(lia)) as Hsv. destruct (semi_lt _ _ _ Hok v _ Hv Hsv) as [Hlt H1].
  destruct (sg_pending _ _ _ _ _ Hst (sm v) v ltac:(lia) Hin) as (_ & _ & Hc).
  destruct (child_towards (sm v) v (semi_anc _ _ _ Hok v _ Hv Hsv) ltac:(lia)) as (c & Hcr & Hpc & Hcv). specialize (Hc c Hcr Hpc Hcv). lia.
Qed.
End main.
