(* ===== verification/LtCorrect.v ===== *)
(** * LtCorrect: Lengauer-Tarjan over block numbers

    The predecessor rows of [Cfg.lengauer_tarjan] are the edges between the
    numbered nodes, walks over the numbers are paths of the graph, and the
    result maps numbers back to blocks: every reachable block but the root has
    its immediate dominator, the others none. The error branches of the edge
    validation are here too. *)

From stdpp Require Import functions.
From S2P Require Import Prelude Specs Graph Cfg Semidominators LtSearch LengauerTarjan.

(** [p] is the immediate dominator of [b]: its dominators are the strict
    dominators of [b]. *)
Definition immediate_dominator (g : graph) (root b p : nat) : Prop :=
  p <> b /\ reachable g root p /\ forall d, (d <> b /\ dominates_spec g root d b) <-> dominates_spec g root d p.

(** ** Validation *)

Lemma check_row_ok n so : check_row n tt so = Ok tt <-> forall t, t ∈ so.2 -> (t < n)%nat.
Proof.
  unfold check_row. destruct (list_find _ so.2) as [[i t]|] eqn:Hf.
  - apply list_find_Some in Hf as (Ht & Hle & _). split; [done|]. intros Hall.
    apply list_elem_of_lookup_2, Hall in Ht. lia.
  - apply list_find_None in Hf. rewrite Forall_forall in Hf. split; [|done]. intros _ t Ht. specialize (Hf t Ht). lia.
Qed.

Lemma validate_edges_ok g root : validate_edges g root = Ok tt <-> (root < length g)%nat /\ closed g.
Proof.
  unfold validate_edges. case_decide as Hg; [subst g; cbn; split; [done|lia]|]. case_decide as Hr; [split; [done|lia]|].
  rewrite foldM_checks. split.
  - intros Hall. split; [lia|]. intros a b (row & Hrow & Hb). apply (check_row_ok _ (a, row)); [|done].
    apply Hall. by apply elem_of_enumerate.
  - intros [_ Hc] [a row] Hrow%elem_of_enumerate. apply check_row_ok. intros t Ht. apply (Hc a). by exists row.
Qed.

(** ** Predecessor rows over the numbers *)

Section predecessors.
Context (n R : nat) (num : nat -> nat) (numbers : list nat) (Hnum : array n num numbers) (Hrange : forall b, (b < n)%nat -> (num b <= R)%nat).

Lemma lt_pushes_spec src row P preds : array (S R) P preds -> (forall t, t ∈ row -> (t < n)%nat) ->
  exists P' preds', foldM (lt_push numbers src) preds row = Ok preds' :> cfg_result _ /\ array (S R) P' preds' /\
    forall w v, v ∈ P' w <-> v ∈ P w \/ (v = src /\ w <> 0%nat /\ exists b, b ∈ row /\ num b = w).
Proof.
  revert P preds. induction row as [|t row IH]; intros P preds HP Hrow; cbn [foldM].
  { exists P, preds. split_and!; [done..|]. intros w v. split; [by left|]. intros [?|(_ & _ & b & Hb & _)]; [done|by apply not_elem_of_nil in Hb]. }
  unfold lt_push at 2. pose proof (Hrow t ltac:(by left)) as Ht. rewrite (array_lookup _ _ _ t Hnum) by done. msimpl. case_decide as Hz.
  - destruct (IH P preds HP) as (P' & preds' & -> & HP' & Hin); [intros; apply Hrow; by right|]. exists P', preds'. split_and!; [done..|].
    intros w v. rewrite Hin. set_solver.
  - pose proof (Hrange t Ht). rewrite (array_lookup _ _ _ (num t) HP) by lia. msimpl.
    destruct (IH (<[num t := P (num t) ++ [src]]> P) (<[num t := P (num t) ++ [src]]> preds)) as (P' & preds' & -> & HP' & Hin);
      [by apply array_insert|intros; apply Hrow; by right|]. exists P', preds'. split_and!; [done..|]. intros w v. rewrite Hin.
    destruct (decide (num t = w)) as [<-|Hne]; [rewrite fn_lookup_insert|rewrite fn_lookup_insert_ne by done]; set_solver.
Qed.

Lemma lt_predecessors_rows g : length g = n -> closed g ->
  exists P preds, foldM (lt_push_row numbers) (replicate (S R) []) (enumerate g) = Ok preds :> cfg_result _ /\ array (S R) P preds /\
    forall w v, v ∈ P w <-> v <> 0%nat /\ w <> 0%nat /\ exists a b, num a = v /\ num b = w /\ edge g a b.
Proof.
  intros Hg Hclosed. assert (Hgo : yields (fun _ => False) (fun preds => exists P, array (S R) P preds /\
    forall w v, v ∈ P w <-> v <> 0%nat /\ w <> 0%nat /\ exists a b, (a < length g)%nat /\ num a = v /\ num b = w /\ edge g a b)
    (foldM (lt_push_row numbers) (replicate (S R) []) (enumerate g))).
  { apply (yields_enumerate _ (fun k preds => exists P, array (S R) P preds /\
      forall w v, v ∈ P w <-> v <> 0%nat /\ w <> 0%nat /\ exists a b, (a < k)%nat /\ num a = v /\ num b = w /\ edge g a b)).
    - exists (fun _ => []). split; [apply array_replicate|]. intros w v. split; [by intros ?%not_elem_of_nil|]. intros (_ & _ & a & b & ? & _). lia.
    - intros k row preds Hrow (P & HP & Hin). unfold lt_push_row. cbn [fst snd].
      assert (Hk : (k < n)%nat) by (rewrite <- Hg; eauto with index). rewrite (array_lookup _ _ _ k Hnum) by done. msimpl.
      assert (Hedge : forall b, edge g k b <-> b ∈ row) by (intros b; split; [intros (row' & ? & ?); by simplify_eq|intros ?; by exists row]).
      case_decide as Hz.
      + exists P. split; [done|]. intros w v. rewrite Hin. split; intros (Hv & Hw & a & b & Ha & <- & <- & He); split_and!; try done; exists a, b; split_and!; try done; [lia|].
        destruct (decide (a = k)) as [->|]; [done|lia].
      + destruct (lt_pushes_spec (num k) row P preds HP) as (P' & preds' & -> & HP' & Hin').
        { intros t Ht. rewrite <- Hg. apply (Hclosed k). by apply Hedge. }
        exists P'. split; [done|]. intros w v. rewrite Hin', Hin. split.
        * intros [(Hv & Hw & a & b & Ha & <- & <- & He)|(-> & Hw & b & Hb%Hedge & <-)].
          -- split_and!; [done..|]. exists a, b. split_and!; [lia|done..].
          -- split_and!; [done..|]. exists k, b. split_and!; [lia|done..].
        * intros (Hv & Hw & a & b & Ha & <- & <- & He). destruct (decide (a = k)) as [->|Hne].
          -- right. split_and!; [done..|]. exists b. split; [by apply Hedge|done].
          -- left. split_and!; [done..|]. exists a, b. split_and!; [lia|done..]. }
  destruct (foldM _ _ _) as [preds| |]; cbn in Hgo; [|done..]. destruct Hgo as (P & HP & Hin). exists P, preds. split_and!; [done..|].
  intros w v. rewrite Hin. split; intros (Hv & Hw & a & b & H); (split_and!; [done..|]); exists a, b.
  - tauto.
  - destruct H as (? & ? & He). split_and!; [|done..]. destruct He as (row & Hrow & _). eauto with index.
Qed.
End predecessors.

(** ** From numbers to blocks *)

Section blocks.
Context (g : graph) (root : nat) (order : list nat) (st : lt_search) (Hi : search_inv g root order st).
Abbreviation n := (length g).
Abbreviation N := (length order).
Implicit Types (a b d k p x : nat) (l : list nat).

Lemma number_array : array n (num st) (dfs_number st).
Proof.
  split; [apply (sv_length _ _ _ _ Hi)|]. intros b Hb. unfold num. destruct (lookup_lt_is_Some_2 (dfs_number st) b) as [k ->]; [|done].
  by rewrite (sv_length _ _ _ _ Hi).
Qed.

Lemma number_range b : (num st b <= N)%nat.
Proof.
  destruct (decide (num st b = 0%nat)) as [->|Hne]; [lia|]. apply (num_order g root _ _ _ Hi) in Hne.
  destruct (num_node g root _ _ _ Hi Hne). lia.
Qed.

Lemma node_num k b : node_at order k = Some b -> b ∈ order /\ num st b = k /\ (1 <= k <= N)%nat.
Proof.
  destruct k as [|k]; [done|]. cbn. intros Hb. apply lookup_lt_Some in Hb as Hl. split; [by eapply list_elem_of_lookup_2|].
  apply (sv_number _ _ _ _ Hi) in Hb. unfold num. rewrite Hb. split; [done|lia].
Qed.

Lemma node_of k : (1 <= k <= N)%nat -> exists b, node_at order k = Some b.
Proof. intros Hk. destruct k as [|k]; [lia|]. cbn. apply lookup_lt_is_Some_2. lia. Qed.

Lemma num_root : num st root = 1%nat.
Proof.
  apply (node_num 1 root). pose proof (sv_root _ _ _ _ Hi) as Hr. destruct order; [done|]. cbn in *. congruence.
Qed.

Lemma num_inj a b : a ∈ order -> num st a = num st b -> a = b.
Proof.
  intros Ha Heq. destruct (num_node g root _ _ _ Hi Ha) as [Hna Hr]. assert (Hb : b ∈ order) by (apply (num_order g root _ _ _ Hi); lia).
  destruct (num_node g root _ _ _ Hi Hb) as [Hnb _]. rewrite Heq in Hna. congruence.
Qed.

Section dominance.
Context (Hreach : forall b, b ∈ order <-> reachable g root b).

(** Paths from reachable blocks are walks over their numbers. *)
Lemma path_walk a l b : a ∈ order -> path g a l b -> walk (number_edge g order) (num st a) (num st <$> l) (num st b) /\ Forall (fun x => x ∈ order) l.
Proof.
  intros Ha. induction 1 as [a|a b c l He Hp IH]; [split; [constructor|by apply Forall_singleton]|].
  assert (Hb : b ∈ order) by (apply Hreach; eapply reachable_snoc; [by apply Hreach|done]). destruct (IH Hb) as [Hw Hl].
  split; [|by constructor]. cbn. econstructor; [|exact Hw]. exists a, b. split_and!; [by apply (num_node g root _ _ _ Hi)..|done].
Qed.

Lemma walk_path i l k a : walk (number_edge g order) i l k -> node_at order i = Some a ->
  exists l' b, path g a l' b /\ node_at order k = Some b /\ (num st <$> l') = l.
Proof.
  intros Hw. revert a. induction Hw as [i|i j l k (x & y & Hx & Hy & He) Hw IH]; intros a Ha.
  - exists [a], a. split; [constructor|]. split; [done|]. cbn. by destruct (node_num _ _ Ha) as (_ & -> & _).
  - assert (x = a) as -> by congruence. destruct (IH y Hy) as (l' & b & Hp & Hb & Hl). exists (a :: l'), b. split; [by econstructor|].
    split; [done|]. cbn. rewrite Hl. by destruct (node_num _ _ Ha) as (_ & -> & _).
Qed.

Lemma root_order : root ∈ order.
Proof. apply Hreach, reachable_refl. Qed.

Lemma dom_numbers d b : b ∈ order -> d ∈ order -> dominates_spec g root d b <-> dom (number_edge g order) (num st d) (num st b).
Proof.
  intros Hb Hd. split.
  - intros Hdom l Hw. rewrite <- num_root in Hw. destruct (num_node g root _ _ _ Hi root_order) as [Hnr _].
    destruct (walk_path _ _ _ _ Hw Hnr) as (l' & b' & Hp & Hb' & <-).
    assert (b' = b) as -> by (destruct (num_node g root _ _ _ Hi Hb) as [Hnb _]; congruence). apply list_elem_of_fmap_2, Hdom. done.
  - intros Hdom l Hp. destruct (path_walk _ _ _ root_order Hp) as [Hw Hl]. rewrite num_root in Hw.
    apply Hdom, list_elem_of_fmap in Hw as (x & Hx & Hin). rewrite Forall_forall in Hl. by rewrite (num_inj d x Hd Hx).
Qed.

Lemma dominator_order d b : b ∈ order -> dominates_spec g root d b -> d ∈ order.
Proof.
  intros Hb Hd. apply Hreach in Hb as [l Hp]. destruct (path_walk _ _ _ root_order Hp) as [_ Hl]. rewrite Forall_forall in Hl.
  by apply Hl, Hd.
Qed.

Lemma idom_blocks b p : b ∈ order -> p ∈ order -> idom_ok (number_edge g order) (num st b) (num st p) -> immediate_dominator g root b p.
Proof.
  intros Hb Hp [Hlt Hd]. split; [intros ->; lia|]. split; [by apply Hreach|]. intros d. split.
  - intros [Hne Hdb]. pose proof (dominator_order d b Hb Hdb) as Hdo. apply dom_numbers; [done..|]. apply Hd.
    split; [|by apply dom_numbers]. intros Heq. by apply Hne, num_inj.
  - intros Hdp. pose proof (dominator_order d p Hp Hdp) as Hdo. apply (dom_numbers d p Hp Hdo), Hd in Hdp as [Hne Hdb].
    split; [by intros ->|]. by apply dom_numbers.
Qed.

End dominance.

(** ** The result *)

Lemma vertex_at k : mjoin (vertex st !! k) = node_at order k.
Proof. rewrite (sv_vertex _ _ _ _ Hi). destruct k as [|k]; [done|].
  change (mjoin ((Some <$> order) !! k) = order !! k). rewrite list_lookup_fmap. by destruct (order !! k). Qed.

Lemma vertex_length : length (vertex st) = S N.
Proof. rewrite (sv_vertex _ _ _ _ Hi). cbn. by rewrite length_fmap. Qed.

(** The entries once the numbers below [x] are done. *)
Definition result_upto (im : nat -> nat) x b : option nat :=
  if decide (2 <= num st b < x)%nat then node_at order (im (num st b)) else None.

Lemma lt_results_spec im id k x r : array (S N) im id -> (forall v, (2 <= v <= N)%nat -> (1 <= im v < v)%nat) ->
  (2 <= x)%nat -> (x + k = S N)%nat -> array n (result_upto im x) r ->
  exists r', foldM (lt_result (vertex st) id) r (seq x k) = Ok r' /\ array n (result_upto im (S N)) r'.
Proof.
  intros Hid Him. revert x r. induction k as [|k IH]; intros x r Hx Hk Hr; cbn [seq foldM].
  { exists r. replace (S N) with x by lia. done. }
  unfold lt_result at 2. rewrite (array_lookup _ _ _ x Hid) by lia. msimpl. pose proof (Him x ltac:(lia)) as Hix.
  rewrite vertex_length, decide_False by lia. rewrite !vertex_at. destruct (node_of x) as [b Hb]; [lia|]. destruct (node_of (im x)) as [p Hp]; [lia|].
  rewrite Hb, Hp. msimpl. destruct (node_num _ _ Hb) as (Hbo & Hnb & _). pose proof (order_lt g root _ _ _ Hi Hbo) as Hbn.
  unfold vset. rewrite (proj1 Hr), decide_True by done. msimpl. apply (IH (S x)); [lia|lia|]. eapply array_update; [exact Hr| |].
  - unfold result_upto. rewrite Hnb, decide_True by lia. done.
  - intros c Hc Hne. unfold result_upto. destruct (decide (num st c = x)) as [Heq|Hnx].
    + exfalso. apply Hne. symmetry. apply num_inj; [done|]. by rewrite Hnb.
    + by rewrite (decide_ext (2 <= num st c < S x)%nat (2 <= num st c < x)%nat) by lia.
Qed.
End blocks.

(** The algorithm returns, and its result is the immediate dominators. *)
Lemma lengauer_tarjan_spec g root : closed g -> (root < length g)%nat ->
  exists idom, lengauer_tarjan g root = Ok idom /\ length idom = length g /\ idom !! root = Some None /\
    (forall b, (b < length g)%nat -> ~ reachable g root b -> idom !! b = Some None) /\
    (forall b, reachable g root b -> b <> root -> exists p, idom !! b = Some (Some p) /\ immediate_dominator g root b p) /\
  exists number : nat -> nat, forall b p, idom !! b = Some (Some p) -> (number p < number b)%nat.
Proof.
  intros Hclosed Hroot. unfold lengauer_tarjan. rewrite (proj2 (validate_edges_ok g root)) by done. msimpl.
  unfold vset at 1. rewrite length_replicate, decide_True by done. msimpl. fold (lt_initial g root).
  destruct (lt_search_spec g root Hclosed Hroot) as (order & st & -> & Hi & Hok & Hreach). msimpl.
  pose proof (vertex_length g root order st Hi) as Hvl. rewrite Hvl. cbn [Nat.sub]. rewrite Nat.sub_0_r.
  destruct (lt_predecessors_rows (length g) (length order) (num st) (dfs_number st)) with (g := g) as (P & preds & -> & HP & Hin);
    [by eapply number_array|intros; by eapply number_range|done|done|]. msimpl. fold (lt_start (length order)).
  assert (Hro : root ∈ order) by (apply Hreach, reachable_refl). destruct (num_node g root _ _ _ Hi Hro) as [_ Hrn].
  destruct (lt_numbers_spec (length order) (number_edge g order) (par st) Hok preds (lt_parent st)) as (lst & im & id & Hfold & Hcorr & Hid & Hall).
  - intros w Hw. exists (P w). split; [apply (array_lookup _ _ _ w HP); lia|]. intros v. rewrite Hin. split.
    + intros (Hv & Hw0 & a & b & <- & <- & He). exists a, b.
      split_and!; [apply (num_node g root _ _ _ Hi), (num_order g root _ _ _ Hi); done..|done].
    + intros (a & b & (_ & Ha & Hav)%(node_num g root order st Hi) & (_ & Hb & Hbw)%(node_num g root order st Hi) & He). split_and!; [lia..|]. by exists a, b.
  - intros w Hw. unfold par. destruct (lookup_lt_is_Some_2 (lt_parent st) w) as [p ->]; [|done]. rewrite (sv_parents _ _ _ _ Hi).
    pose proof (NoDup_bounded_length order (length g) (sv_nodup _ _ _ _ Hi) (fun x => order_lt g root order st x Hi)). lia.
  - lia.
  - rewrite Hfold. msimpl. rewrite Hcorr. msimpl.
    destruct (lt_results_spec g root order st Hi im id (length order - 1) 2 (replicate (length g) None) Hid) as (r & Hr & Hrarr);
      [intros v Hv; apply Hall; lia|lia|lia| |].
    { eapply array_ext; [|apply array_replicate]. intros b _. unfold result_upto. by rewrite decide_False by lia. }
    exists r. split; [exact Hr|]. split; [apply Hrarr|]. split_and!.
    + rewrite (array_lookup _ _ _ root Hrarr) by done. unfold result_upto. by rewrite (num_root g root order st Hi), decide_False by lia.
    + intros b Hb Hnr. rewrite (array_lookup _ _ _ b Hrarr) by done. unfold result_upto. rewrite decide_False; [done|].
      intros Hnum. apply Hnr, Hreach, (num_order g root _ _ _ Hi). lia.
    + intros b Hb%Hreach Hne. pose proof (order_lt g root _ _ _ Hi Hb) as Hbn. destruct (num_node g root _ _ _ Hi Hb) as [Hnode Hnb].
      assert (Hn1 : num st b <> 1%nat) by (intros Heq; apply Hne, (num_inj g root order st Hi); [done|by rewrite (num_root g root order st Hi)]).
      pose proof (Hall (num st b) ltac:(lia)) as Hidom. destruct (node_of order (im (num st b))) as [p Hp]; [destruct Hidom; lia|].
      exists p. rewrite (array_lookup _ _ _ b Hrarr) by done. unfold result_upto. rewrite decide_True, Hp by lia. split; [done|].
      destruct (node_num g root order st Hi _ _ Hp) as (Hpo & Hpn & _). eapply (idom_blocks g root); try done. by rewrite Hpn.
    + exists (num st). intros b p Hbp. assert (Hbn : (b < length g)%nat) by (rewrite <- (proj1 Hrarr); eauto with index).
      rewrite (array_lookup _ _ _ b Hrarr) in Hbp by done. unfold result_upto in Hbp. case_decide as Hnb; [|done]. injection Hbp as Hp.
      destruct (node_num g root order st Hi _ _ Hp) as (_ & -> & _). apply Hall. lia.
Qed.

(** Why a graph is not analysed. *)
Definition rejected (g : graph) (root : nat) (e : CfgError) : Prop :=
  match e with
  | Empty => g = []
  | InvalidRoot r blocks => g <> [] /\ r = root /\ blocks = length g /\ (length g <= root)%nat
  | EdgeOutOfRange source target blocks =>
      (root < length g)%nat /\ blocks = length g /\ edge g source target /\ (length g <= target)%nat
  | _ => False
  end.

Lemma validate_edges_outcome g root :
  yields (rejected g root) (fun _ => (root < length g)%nat /\ closed g) (validate_edges g root).
Proof.
  assert (Hrows : yields (fun e => match e with EdgeOutOfRange source target blocks =>
    blocks = length g /\ edge g source target /\ (length g <= target)%nat | _ => False end) (fun _ => True) (foldM (check_row (length g)) tt (enumerate g))).
  { apply (yields_enumerate _ (fun _ _ => True)); [done|]. intros a row [] Hrow _. unfold check_row. cbn [fst snd].
    destruct (list_find _ row) as [[i t]|] eqn:Hf; [|done]. apply list_find_Some in Hf as (Ht & Hle & _).
    split_and!; [done|exists row; split; [done|by eapply list_elem_of_lookup_2]|done]. }
  pose proof (validate_edges_ok g root) as Hok. unfold validate_edges in *. case_decide as Hg; [done|]. case_decide as Hr; [done|].
  destruct (foldM _ _ _) as [[]|e|]; [by apply Hok| |done]. destruct e; try done. split; [lia|done].
Qed.

(** [lengauer_tarjan] accepts exactly the graphs whose root and edges are
    in range and rejects the others with the error that says why; on a graph
    it accepts it returns, without panicking, the immediate dominator of every
    reachable block but the root, and none for the root and the blocks that
    the root does not reach. *)
Lemma lengauer_tarjan_correct g root :
  match lengauer_tarjan g root with
  | Ok idom => (root < length g)%nat /\ closed g /\ length idom = length g /\ idom !! root = Some None /\
      (forall b, (b < length g)%nat -> ~ reachable g root b -> idom !! b = Some None) /\
      forall b, reachable g root b -> b <> root -> exists p, idom !! b = Some (Some p) /\ immediate_dominator g root b p
  | Err e => rejected g root e
  | Panic => False
  end.
Proof.
  pose proof (validate_edges_outcome g root) as Hv. destruct (validate_edges g root) as [[]|e|] eqn:Hg; cbn in Hv; [|by unfold lengauer_tarjan; rewrite Hg|done].
  destruct Hv as [Hroot Hclosed]. destruct (lengauer_tarjan_spec g root Hclosed Hroot) as (idom & -> & H1 & H2 & H3 & H4 & _). done.
Qed.
