(* ===== verification/CfgTree.v ===== *)
(** * CfgTree: dominator trees, dominance frontiers and postdominators

    Models [DominatorTree], [dominance_frontiers], [PostDominatorTree] and
    [build_postdominators] of [crates/celox-analysis/src/cfg.rs]. An entry
    that is [usize::MAX] in the source is [None]; [le_max] and [lt_max] compare
    such entries. A [BTreeSet] is a [gset] with its ascending iteration. *)

From S2P Require Import Prelude Order Graph Cfg.

(** Comparison with [None] as the maximum. *)
Definition le_max (a b : option nat) : bool :=
  match a, b with
  | _, None => true
  | None, Some _ => false
  | Some a, Some b => bool_decide (a <= b)%nat
  end.
Definition lt_max (a b : option nat) : bool := negb (le_max b a).

(** ** The tree *)

Record DominatorTree : Type := DomTree {
  idom : list (option nat);
  children : graph;
  enter : list (option nat);
  exit : list (option nat);
  depth : list (option nat) }.

(** One turn of [for (block, parent) in idom.iter().copied().enumerate()] *)
Definition tree_child (root : nat) (children : graph) (bp : nat * option nat) : cfg_result graph :=
  if decide (bp.1 = root) then
    match bp.2 with Some _ => Err (InvalidGraph "dominator root has an immediate dominator") | None => Ok children end
  else
    match bp.2 with
    | None => Ok children
    | Some parent =>
        parent_children ← ok_or (InvalidGraph "immediate dominator is out of range") (children !! parent);
        Ok (<[parent := parent_children ++ [bp.1]]> children)
    end.

Inductive Event : Type :=
  | Enter (block block_depth : nat)
  | Exit (block : nat).

Record tree_clock : Type := TC {
  tc_enter : list (option nat);
  tc_exit : list (option nat);
  tc_depth : list (option nat);
  time : nat }.

(** [while let Some(event) = events.pop()]; the head of [events] is the top. *)
Fixpoint number_events (fuel : nat) (children : graph) (events : list Event) (st : tree_clock) : cfg_result tree_clock :=
  match events with
  | [] => Ok st
  | event :: events =>
      match fuel with
      | O => Panic
      | S fuel =>
          match event with
          | Enter block block_depth =>
              entered ← expect (tc_enter st !! block);
              match (entered : option nat) with
              | Some _ => Err (InvalidGraph "immediate-dominator links contain a cycle")
              | None =>
                  depth ← vset block (Some block_depth) (tc_depth st);
                  row ← expect (children !! block);
                  number_events fuel children (((fun child => Enter child (S block_depth)) <$> row) ++ Exit block :: events)
                    (TC (<[block := Some (time st)]> (tc_enter st)) (tc_exit st) depth (S (time st)))
              end
          | Exit block =>
              exit ← vset block (Some (time st)) (tc_exit st);
              number_events fuel children events (TC (tc_enter st) exit (tc_depth st) (S (time st)))
          end
      end
  end.

Definition from_idom (idom : list (option nat)) (root : nat) : cfg_result DominatorTree :=
  let n := length idom in
  if decide (n <= root)%nat then Err (InvalidRoot root n) else
  children ← foldM (tree_child root) (replicate n []) (enumerate idom);
  let children := sort_by_key id <$> children in
  let unset := replicate n None in
  st ← number_events (2 * n) children [Enter root 0] (TC unset unset unset 0);
  Ok (DomTree idom children (tc_enter st) (tc_exit st) (tc_depth st)).

(** [DominatorTree::compute] *)
Definition compute (successors : graph) (root : nat) : cfg_result DominatorTree :=
  idom ← lengauer_tarjan successors root;
  from_idom idom root.

Definition dominates (t : DominatorTree) (dominator block : nat) : bool :=
  match enter t !! dominator, exit t !! dominator, enter t !! block, exit t !! block with
  | Some (Some dominator_enter), Some dominator_exit, Some (Some block_enter), Some block_exit =>
      bool_decide (dominator_enter <= block_enter)%nat && le_max block_exit dominator_exit
  | _, _, _, _ => false
  end.

(** [while self.depth[x] > self.depth[target] { x = self.idom[x]?; }] *)
Fixpoint raise {E} (fuel : nat) (t : DominatorTree) (x target : nat) : result E (option nat) :=
  depth_x ← expect (depth t !! x);
  depth_target ← expect (depth t !! target);
  if lt_max depth_target depth_x then
    match fuel with
    | O => Panic
    | S fuel =>
        parent ← expect (idom t !! x);
        match (parent : option nat) with None => Ok None | Some parent => raise fuel t parent target end
    end
  else Ok (Some x).

(** [while left != right] *)
Fixpoint meet {E} (fuel : nat) (t : DominatorTree) (l r : nat) : result E (option nat) :=
  if decide (l = r) then Ok (Some l) else
  match fuel with
  | O => Panic
  | S fuel =>
      parent_l ← expect (idom t !! l);
      match (parent_l : option nat) with
      | None => Ok None
      | Some l =>
          parent_r ← expect (idom t !! r);
          match (parent_r : option nat) with None => Ok None | Some r => meet fuel t l r end
      end
  end.

Definition lca {E} (t : DominatorTree) (l r : nat) : result E (option nat) :=
  match depth t !! l, depth t !! r with
  | Some (Some _), Some (Some _) =>
      let fuel := (2 * length (idom t))%nat in
      l ← raise fuel t l r;
      match (l : option nat) with
      | None => Ok None
      | Some l =>
          r ← raise fuel t r l;
          match (r : option nat) with None => Ok None | Some r => meet fuel t l r end
      end
  | _, _ => Ok None
  end.

(** ** Dominance frontiers *)

(** [while let Some((block, expanded)) = stack.pop()] *)
Fixpoint tree_postorder {E} (fuel : nat) (children : graph) (stack : list (nat * bool)) (postorder : list nat)
    : result E (list nat) :=
  match stack with
  | [] => Ok postorder
  | (block, expanded) :: stack =>
      match fuel with
      | O => Panic
      | S fuel =>
          if (expanded : bool) then tree_postorder fuel children stack (postorder ++ [block])
          else
            row ← expect (children !! block);
            tree_postorder fuel children (((fun child => (child, false)) <$> row) ++ (block, true) :: stack) postorder
      end
  end.

(** [if dominators.idom[member] != Some(block) { frontiers[block].insert(member); }] *)
Definition frontier_member {E} (t : DominatorTree) (block : nat) (frontiers : list (gset nat)) (member : nat)
    : result E (list (gset nat)) :=
  parent ← expect (idom t !! member);
  if decide ((parent : option nat) = Some block) then Ok frontiers
  else frontier ← expect (frontiers !! block); Ok (<[block := {[member]} ∪ frontier]> frontiers).

Definition frontier_child {E} (t : DominatorTree) (block : nat) (frontiers : list (gset nat)) (child : nat)
    : result E (list (gset nat)) :=
  child_frontier ← expect (frontiers !! child);
  foldM (frontier_member t block) frontiers (ascending child_frontier).

Definition frontier_block {E} (successors : graph) (t : DominatorTree) (frontiers : list (gset nat)) (block : nat)
    : result E (list (gset nat)) :=
  row ← expect (successors !! block);
  frontiers ← foldM (frontier_member t block) frontiers row;
  row ← expect (children t !! block);
  foldM (frontier_child t block) frontiers row.

Definition dominance_frontiers {E} (successors : graph) (t : DominatorTree) (root : nat) : result E (list (list nat)) :=
  order ← tree_postorder (2 * length successors) (children t) [(root, false)] [];
  frontiers ← foldM (frontier_block successors t) (replicate (length successors) (∅ : gset nat)) order;
  Ok (ascending <$> (frontiers : list (gset nat))).

(** ** Postdominators *)

Record PostDominatorTree : Type := PostDom {
  tree : DominatorTree;
  virtual_exit : nat;
  original_blocks : nat }.

Definition postdominates (t : PostDominatorTree) (postdominator block : nat) : bool :=
  bool_decide (postdominator < original_blocks t)%nat && bool_decide (block < original_blocks t)%nat &&
  dominates (tree t) postdominator block.

(** [(candidate != self.virtual_exit && candidate < self.original_blocks).then_some(candidate)] *)
Definition original (t : PostDominatorTree) (candidate : nat) : option nat :=
  if decide (candidate <> virtual_exit t /\ (candidate < original_blocks t)%nat) then Some candidate else None.

Definition common_postdominator {E} (t : PostDominatorTree) (l r : nat) : result E (option nat) :=
  candidate ← lca (tree t) l r; Ok (candidate ≫= original t).

Definition immediate_postdominator (t : PostDominatorTree) (block : nat) : option nat :=
  mjoin (idom (tree t) !! block) ≫= original t.

Definition build_postdominators (predecessors successors : graph) (include_frontier : bool)
    : cfg_result (PostDominatorTree * list (list nat)) :=
  let original_blocks := length successors in
  let virtual_exit := original_blocks in
  let exits := (filter (fun bo : nat * list nat => bo.2 = []) (enumerate successors)).*1 in
  reverse_successors ← foldM (fun rows (bi : nat * list nat) => vset bi.1 bi.2 rows)
    (<[virtual_exit := exits]> (replicate (S original_blocks) [])) (enumerate predecessors);
  tree ← compute reverse_successors virtual_exit;
  frontiers ←
    (if include_frontier then
       frontiers ← dominance_frontiers reverse_successors tree virtual_exit;
       Ok (filter (fun block => (block < original_blocks)%nat) <$> take original_blocks (frontiers : list (list nat)))
     else Ok (replicate original_blocks []));
  Ok (PostDom tree virtual_exit original_blocks, frontiers).

(** A diamond whose arms join in 3. *)
Example diamond_frontiers :
  (t ← compute [[1; 2]; [3]; [3]; []]%nat 0; f ← dominance_frontiers [[1; 2]; [3]; [3]; []]%nat t 0; m ← lca t 1 2;
   Ok (idom t, depth t, f, m, dominates t 0 3, dominates t 1 3)) =
  Ok ([None; Some 0; Some 0; Some 0], [Some 0; Some 1; Some 1; Some 1], [[]; [3]; [3]; []], Some 0, true, false)%nat.
Proof. vm_compute. reflexivity. Qed.

(** Links between blocks that the root does not reach may form a cycle. *)
Example cycle_accepted : match from_idom [None; Some 2; Some 1]%nat 0 with Ok t => dominates t 1 2 | _ => true end = false.
Proof. vm_compute. reflexivity. Qed.
