(* ===== verification/CfgOrder.v ===== *)
(** * CfgOrder: blocks in dominator-tree preorder

    Models [crates/celox-analysis/src/cfg_order.rs]: the sorted table of block
    keys, the discovery of the reachable blocks, the Cooper-Harvey-Kennedy
    iteration over the numbers of the discovery, and the preorder of the tree
    with merges after their sibling arms. An entry that is [usize::MAX] in the
    source is [None]. *)

From S2P Require Import Prelude Order Graph CfgTree.

(** ** Discovery *)

Record discovery : Type := Discovery {
  found : list bool;
  discovery_order : list nat;
  finished : list nat;
  work : list (nat * bool) }.

(** [if discovered[successor] { continue; }] and the push. *)
Definition discover {E} (fw : list bool * list (nat * bool)) (successor : nat) : result E (list bool * list (nat * bool)) :=
  seen ← expect (fw.1 !! successor);
  if (seen : bool) then Ok fw else Ok (<[successor := true]> fw.1, (successor, false) :: fw.2).

(** One entry of the stack; the head of [work] is its top. *)
Definition discovery_step {E} (entry : nat) (successors : graph) (be : nat * bool) (st : discovery) : result E discovery :=
  let '(block, expanded) := be in
  if expanded then Ok (Discovery (found st) (discovery_order st) (finished st ++ [block]) (work st)) else
  row ← expect (successors !! block);
  fw ← foldM discover (found st, (block, true) :: work st) (rev row);
  Ok (Discovery fw.1 (if decide (block <> entry) then discovery_order st ++ [block] else discovery_order st) (finished st) fw.2).

Fixpoint discovery_loop {E} (fuel entry : nat) (successors : graph) (st : discovery) : result E discovery :=
  match work st with
  | [] => Ok st
  | be :: work =>
      match fuel with
      | O => Panic
      | S fuel =>
          st ← discovery_step entry successors be (Discovery (found st) (discovery_order st) (finished st) work);
          discovery_loop fuel entry successors st
      end
  end.

(** ** Predecessors of the discovered blocks *)

Definition add_predecessor {E} (found : list bool) (block : nat) (predecessors : graph) (successor : nat) : result E graph :=
  seen ← expect (found !! successor);
  if (seen : bool) then row ← expect (predecessors !! successor); Ok (<[successor := row ++ [block]]> predecessors) else Ok predecessors.

Definition add_predecessors {E} (found : list bool) (predecessors : graph) (br : nat * list nat) : result E graph :=
  seen ← expect (found !! br.1);
  if (seen : bool) then foldM (add_predecessor found br.1) predecessors br.2 else Ok predecessors.

(** ** Immediate dominators *)

(** [for (number, &block) in ...enumerate() { table[block] = number; }] *)
Definition positions {E} (n : nat) (order : list nat) : result E (list (option nat)) :=
  foldM (fun table (ib : nat * nat) => vset ib.2 (Some ib.1) table) (replicate n None) (enumerate order).

(** [while rpo_number[x] > rpo_number[target] { x = idom[x].expect(..) }] *)
Fixpoint rise {E} (fuel : nat) (numbers : list (option nat)) (idom : list (option nat)) (x target : nat) : result E nat :=
  number_x ← expect (numbers !! x);
  number_target ← expect (numbers !! target);
  if lt_max number_target number_x then
    match fuel with
    | O => Panic
    | S fuel => parent ← expect (mjoin (idom !! x)); rise fuel numbers idom parent target
    end
  else Ok x.

Fixpoint intersect_from {E} (fuel : nat) (numbers : list (option nat)) (idom : list (option nat)) (l r : nat) : result E nat :=
  if decide (l = r) then Ok l else
  match fuel with
  | O => Panic
  | S fuel =>
      l ← rise (length numbers) numbers idom l r;
      r ← rise (length numbers) numbers idom r l;
      intersect_from fuel numbers idom l r
  end.

Definition intersect {E} (numbers : list (option nat)) (idom : list (option nat)) (l r : nat) : result E nat :=
  intersect_from (2 * length numbers) numbers idom l r.

(** [.filter(|&predecessor| idom[predecessor].is_some())] *)
Fixpoint with_idom {E} (idom : list (option nat)) (row : list nat) : result E (list nat) :=
  match row with
  | [] => Ok []
  | p :: row => o ← expect (idom !! p); rest ← with_idom idom row; Ok (match o with Some _ => p :: rest | None => rest end)
  end.

(** One block of a sweep; the flag is [changed]. *)
Definition sweep_block {E} (predecessors : graph) (numbers : list (option nat)) (ic : list (option nat) * bool) (block : nat)
    : result E (list (option nat) * bool) :=
  let '(idom, changed) := ic in
  row ← expect (predecessors !! block);
  processed ← with_idom idom row;
  match processed with
  | [] => Ok (idom, changed)
  | first :: rest =>
      next ← foldM (fun current predecessor => intersect numbers idom current predecessor) first rest;
      current ← expect (idom !! block);
      if decide (current = Some next) then Ok (idom, changed) else Ok (<[block := Some next]> idom, true)
  end.

(** [loop { ... if !changed { break; } }] *)
Fixpoint sweeps {E} (fuel : nat) (predecessors : graph) (numbers : list (option nat)) (order : list nat) (idom : list (option nat))
    : result E (list (option nat)) :=
  match fuel with
  | O => Panic
  | S fuel =>
      ic ← foldM (sweep_block predecessors numbers) (idom, false) order;
      if (ic.2 : bool) then sweeps fuel predecessors numbers order ic.1 else Ok ic.1
  end.

(** ** The order *)

Fixpoint dominates_index {E} (fuel : nat) (idom : list (option nat)) (dominator block : nat) : result E bool :=
  if decide (dominator = block) then Ok true else
  match fuel with
  | O => Panic
  | S fuel =>
      parent ← expect (idom !! block);
      match (parent : option nat) with
      | None => Ok false
      | Some parent => if decide (parent = block) then Ok false else dominates_index fuel idom dominator parent
      end
  end.

Fixpoint any_dominated {E} (idom : list (option nat)) (block : nat) (row : list nat) : result E bool :=
  match row with
  | [] => Ok false
  | p :: row => d ← dominates_index (length idom) idom block p; if (d : bool) then Ok true else any_dominated idom block row
  end.

(** [predecessors[block].len() > 1 && !..any(..)] *)
Definition merge_flag {E} (idom : list (option nat)) (br : nat * list nat) : result E bool :=
  if decide (1 < length br.2)%nat then d ← any_dominated idom br.1 br.2; Ok (negb d) else Ok false.

Definition push_child {E} (entry : nat) (idom : list (option nat)) (children : graph) (block : nat) : result E graph :=
  if decide (block = entry) then Ok children else
  parent ← expect (idom !! block);
  match (parent : option nat) with
  | Some parent => row ← expect (children !! parent); Ok (<[parent := row ++ [block]]> children)
  | None => Ok children
  end.

(** [(is_merge[block], discovery_position[block])]; [false] before [true],
    and [usize::MAX] last. *)
Definition sibling_key (merges : list bool) (numbers : list (option nat)) (block : nat) : nat * (nat * nat) :=
  ((if default false (merges !! block) then 1 else 0),
   match mjoin (numbers !! block) with Some i => (0, i) | None => (1, 0) end)%nat.

(** [while let Some(block) = tree_stack.pop()] *)
Fixpoint tree_preorder {E} (fuel : nat) (children : graph) (stack : list nat) (order : list nat) : result E (list nat) :=
  match stack with
  | [] => Ok order
  | block :: stack =>
      match fuel with
      | O => Panic
      | S fuel => row ← expect (children !! block); tree_preorder fuel children (row ++ stack) (order ++ [block])
      end
  end.

(** The order of the dense indices, from the entry. *)
Definition index_order {E} (entry : nat) (successors : graph) : result E (list nat) :=
  let n := length successors in
  found ← vset entry true (replicate n false);
  st ← discovery_loop (2 * n) entry successors (Discovery found [entry] [] [(entry, false)]);
  let order := rev (finished st) in
  predecessors ← foldM (add_predecessors (CfgOrder.found st)) (replicate n []) (enumerate successors);
  numbers ← positions n order;
  idom ← vset entry (Some entry) (replicate n None);
  idom ← sweeps (S (n * n)) predecessors numbers (tail order) idom;
  discovered ← positions n (discovery_order st);
  merges ← mapMr (merge_flag idom) (enumerate predecessors);
  children ← foldM (push_child entry idom) (replicate n []) (discovery_order st);
  let children := sort_by_key (sibling_key merges discovered) <$> children in
  preorder ← tree_preorder n children [entry] [];
  Ok (preorder ++ filter (fun i => CfgOrder.found st !! i = Some false) (seq 0 n)).

(** The dense table of keys and the rows of the keys it has. *)
Section keys.
Context {K : Type} `{Countable K, !Ord K}.

Definition block_ids (blocks : list K) : list K := dedup (sort_by_key id blocks).

(** [ids.iter().enumerate().map(|(index, &id)| (id, index)).collect()] *)
Definition index_of (ids : list K) : gmap K nat := foldl (fun m (ik : nat * K) => <[ik.2 := ik.1]> m) ∅ (enumerate ids).

Definition index_row (index : gmap K nat) (row : list K) : list nat := dedup (omap (fun k => index !! k) row).

Definition dominance_order {E} (entry : K) (blocks : list K) (successors : K -> list K) : result E (list K) :=
  let ids := block_ids blocks in
  match list_find (fun k => k = entry) ids with
  | None => Ok ids
  | Some (entry_index, _) =>
      let index := index_of ids in
      order ← index_order entry_index ((fun k => index_row index (successors k)) <$> ids);
      mapMr (fun i => expect (ids !! i)) order
  end.
End keys.

(** The tests of the source. *)
Definition ordered_nat (blocks : list nat) (g : graph) : result unit (list nat) := dominance_order 0%nat blocks (fun b => default [] (g !! b)).

Example order_preorder : ordered_nat [0; 1; 2; 3; 4; 5]%nat [[4; 1]; [2]; [3]; []; [5]; []]%nat = Ok [0; 4; 5; 1; 2; 3]%nat.
Proof. vm_compute. reflexivity. Qed.
Example order_unreachable : ordered_nat [4; 0; 3; 2; 1]%nat [[2]]%nat = Ok [0; 2; 1; 3; 4]%nat.
Proof. vm_compute. reflexivity. Qed.
Example order_join : ordered_nat [0; 1; 2; 3; 4]%nat [[3; 1]; [2]; [4]; [2]]%nat = Ok [0; 3; 1; 2; 4]%nat.
Proof. vm_compute. reflexivity. Qed.
Example order_loop : ordered_nat [0; 1; 2; 3]%nat [[1]; [2; 3]; [1]]%nat = Ok [0; 1; 2; 3]%nat.
Proof. vm_compute. reflexivity. Qed.
