(* ===== verification/CfgOrderFacts.v ===== *)
(** * CfgOrderFacts: the passes of the block order

    The discovery finishes every reachable block once, after a block that
    leads to it was put below it on the stack; the iteration is the one of
    [Dominators], so its links are the immediate dominators of the reachable
    blocks; and the last loop is a preorder of their tree. *)

From stdpp Require Import functions.
From S2P Require Import Prelude Specs Order Graph Dominators DominatorsFacts CfgTree CfgOrder.

#[local] Open Scope nat_scope.

Section discovery.
Context (g : graph) (entry : nat) (Hclosed : closed g) (Hentry : entry < length g).
Abbreviation n := (length g).
Implicit Types (st : discovery) (b p s : nat) (row : list nat) (w : list (nat * bool)).

(** The blocks found so far, each on the stack or finished. *)
Definition known_blocks st : list nat := finished st ++ (work st).*1.

Record discovering st : Prop := {
  di_length : length (found st) = n;
  di_nodup : NoDup (known_blocks st);
  di_found b : found st !! b = Some true <-> b ∈ known_blocks st;
  di_reachable b : b ∈ known_blocks st -> reachable g entry b;
  di_order b : b ∈ discovery_order st <-> b = entry \/ b ∈ finished st \/ (b, true) ∈ work st;
  di_order_nodup : NoDup (discovery_order st);
  di_expanded b s : b ∈ finished st \/ (b, true) ∈ work st -> edge g b s -> s ∈ known_blocks st;
  di_stack w1 b x w2 : work st = w1 ++ (b, x) :: w2 -> b = entry \/ exists p, edge g p b /\ (p, true) ∈ w2;
  di_finished b : b ∈ finished st -> b <> entry -> exists p, edge g p b /\ (before b p (finished st) \/ (p, true) ∈ work st);
  di_entry : entry ∈ known_blocks st;
  di_last : match work st with [] => last (finished st) = Some entry | w => last w.*1 = Some entry end }.

Definition expanded w : nat := length (filter (fun bx : nat * bool => bx.2 = true) w).
(** Every block is pushed once and left once. *)
Definition measure st : nat := 2 * n - 2 * length (finished st) - expanded (work st).

Lemma known_bound st : discovering st -> length (finished st) + length (work st) <= n.
Proof.
  intros Hi. rewrite <- (length_fmap fst (work st)), <- length_app. apply NoDup_bounded_length; [apply Hi|].
  intros b Hb%(di_found _ Hi). rewrite <- (di_length _ Hi). eauto with index.
Qed.

Lemma expanded_true b w : expanded ((b, true) :: w) = S (expanded w).
Proof. unfold expanded. by rewrite filter_cons_True. Qed.
Lemma expanded_false b w : expanded ((b, false) :: w) = expanded w.
Proof. unfold expanded. by rewrite filter_cons_False. Qed.
Lemma expanded_app w w' : expanded (w ++ w') = expanded w + expanded w'.
Proof. unfold expanded. by rewrite filter_app, length_app. Qed.
Lemma expanded_length w : expanded w <= length w.
Proof. apply length_filter. Qed.

(** What one row of successors adds: the new ones, each once. *)
Record discovered_row (f : list bool) w row (f' : list bool) (new : list (nat * bool)) : Prop := {
  dr_length : length f' = length f;
  dr_found b : f' !! b = Some true <-> f !! b = Some true \/ (b, false) ∈ new;
  dr_new b x : (b, x) ∈ new -> x = false /\ b ∈ row /\ f !! b <> Some true;
  dr_nodup : NoDup new.*1;
  dr_all s : s ∈ row -> f' !! s = Some true }.

Lemma discover_row {E} (f : list bool) w row : (forall s, s ∈ row -> s < length f) ->
  exists f' new, foldM discover (f, w) row = Ok (f', new ++ w) :> result E _ /\ discovered_row f w row f' new.
Proof.
  revert f w. induction row as [|s row IH]; intros f w Hlt; cbn [foldM].
  - exists f, []. split; [done|]. split; [done| | |constructor|]; intros; rewrite ?elem_of_nil in *; tauto.
  - unfold discover at 2. cbn [fst snd]. in_range f s as seen Hseen; [apply Hlt; by left|]. rewrite Hseen. msimpl. destruct seen.
    + destruct (IH f w) as (f' & new & -> & [Hl Hf Hn Hnd Ha]); [intros; apply Hlt; by right|]. exists f', new. split; [done|]. split; [done|done| |done|].
      * intros b x Hb. destruct (Hn b x Hb) as (? & ? & ?). split; [done|]. split; [by right|done].
      * intros x [->|?]%elem_of_cons; [apply Hf; by left|by apply Ha].
    + destruct (IH (<[s := true]> f) ((s, false) :: w)) as (f' & new & -> & [Hl Hf Hn Hnd Ha]); [intros x Hx; rewrite length_insert; apply Hlt; by right|].
      rewrite length_insert in Hl. assert (Hs : s < length f) by (apply Hlt; by left).
      assert (Hins : forall b, <[s := true]> f !! b = Some true <-> b = s \/ f !! b = Some true).
      { intros b. destruct (decide (b = s)) as [->|?]; [rewrite list_lookup_insert_eq by done; tauto|rewrite list_lookup_insert_ne by done; tauto]. }
      exists f', (new ++ [(s, false)]). split; [by rewrite <- app_assoc|]. split; [done| | | |].
      * intros b. rewrite Hf, Hins, elem_of_app, list_elem_of_singleton. naive_solver.
      * intros b x. rewrite elem_of_app, list_elem_of_singleton. intros [Hb|[= -> ->]]; [|split; [done|split; [by left|congruence]]].
        destruct (Hn b x Hb) as (? & ? & Hno). split; [done|]. split; [by right|]. rewrite Hins in Hno. tauto.
      * rewrite fmap_app. cbn. apply NoDup_app. split_and!; [done| |apply NoDup_singleton]. intros x Hx ->%list_elem_of_singleton.
        apply list_elem_of_fmap in Hx as ([b y] & Heq & Hb). cbn in Heq. subst b. destruct (Hn s y Hb) as (_ & _ & Hno). rewrite Hins in Hno. tauto.
      * intros x [->|?]%elem_of_cons; [apply Hf; rewrite Hins; tauto|by apply Ha].
Qed.

(** A block is left: it is finished, and was below what it discovered. *)
Lemma leave_ok st b w : discovering st -> work st = (b, true) :: w ->
  discovering (Discovery (found st) (discovery_order st) (finished st ++ [b]) w).
Proof.
  intros [Hl Hnd Hf Hr Ho Hond He Hs Hfin Hent Hlast] Hw. unfold known_blocks in *. rewrite Hw in *. cbn [fmap list_fmap fst] in *.
  assert (Hk : forall x, x ∈ finished st ++ b :: w.*1 <-> x ∈ (finished st ++ [b]) ++ w.*1) by (intros x; by rewrite <- app_assoc).
  assert (Hexp : forall x, x ∈ finished st ++ [b] \/ (x, true) ∈ w <-> x ∈ finished st \/ (x, true) ∈ (b, true) :: w).
  { intros x. rewrite elem_of_app, list_elem_of_singleton, elem_of_cons. naive_solver. }
  split; unfold known_blocks; cbn [found discovery_order finished work].
  - done.
  - by rewrite <- app_assoc.
  - intros x. by rewrite Hf, Hk.
  - intros x Hx. by apply Hr, Hk.
  - intros x. by rewrite Ho, Hexp.
  - done.
  - intros x y Hx Hxy. apply Hk. apply (He x); [by apply Hexp|done].
  - intros w1 x k w2 ->. by apply (Hs ((b, true) :: w1) x k w2).
  - intros x Hx Hne. apply elem_of_app in Hx as [Hx|Hx%list_elem_of_singleton].
    + destruct (Hfin x Hx Hne) as (p & Hp & [Hb|Hb]); exists p; (split; [done|]).
      * left. destruct Hb as (l1 & l2 & -> & Hin). exists l1, (l2 ++ [b]). split; [by rewrite <- app_assoc|]. apply elem_of_app. by left.
      * apply elem_of_cons in Hb as [[= ->]|?]; [left|by right]. apply list_elem_of_split in Hx as (l1 & l2 & ->).
        exists l1, (l2 ++ [b]). split; [by rewrite <- app_assoc|]. apply elem_of_app. right. by left.
    + subst x. destruct (Hs [] b true w eq_refl) as [?|(p & Hp & Hin)]; [done|]. exists p. split; [done|by right].
  - by apply Hk.
  - destruct w as [|bx w']; [|done]. cbn in Hlast. injection Hlast as ->. apply last_snoc.
Qed.

(** A block is expanded: its new successors go on top. *)
Lemma expand_ok st b w row (f' : list bool) (new : list (nat * bool)) : discovering st -> work st = (b, false) :: w -> g !! b = Some row ->
  discovered_row (found st) ((b, true) :: w) row f' new ->
  discovering (Discovery f' (if decide (b <> entry) then discovery_order st ++ [b] else discovery_order st) (finished st) (new ++ (b, true) :: w)).
Proof.
  intros [Hl Hnd Hf Hr Ho Hond He Hs Hfin Hent Hlast] Hw Hrow [Hdl Hdf Hdn Hdnd Hda]. unfold known_blocks in *. rewrite Hw in *. cbn [fmap list_fmap fst] in *.
  assert (Hedge : forall x, x ∈ row -> edge g b x) by (intros x Hx; by exists row).
  assert (Hnf : forall x, x ∈ new.*1 <-> (x, false) ∈ new).
  { intros x. split; [|apply (list_elem_of_fmap_2 fst _ (x, false))]. intros ([y k] & -> & Hy)%list_elem_of_fmap. by destruct (Hdn y k Hy) as (-> & _). }
  assert (Hk : forall x, x ∈ finished st ++ (new ++ (b, true) :: w).*1 <-> x ∈ finished st ++ b :: w.*1 \/ (x, false) ∈ new).
  { intros x. rewrite fmap_app. cbn. rewrite !elem_of_app, <- Hnf. tauto. }
  assert (Hexp : forall x, (x, true) ∈ new ++ (b, true) :: w <-> x = b \/ (x, true) ∈ (b, false) :: w).
  { intros x. rewrite elem_of_app, !elem_of_cons. split; [|naive_solver]. intros [Hx|[[= ->]|?]]; [by destruct (Hdn x true Hx) as (? & _)|naive_solver..]. }
  split; unfold known_blocks; cbn [found discovery_order finished work].
  - congruence.
  - rewrite fmap_app. cbn. rewrite (Permutation_app_comm (new.*1)), app_assoc. apply NoDup_app. split; [done|]. split; [|done].
    intros x Hx Hn%Hnf. destruct (Hdn x false Hn) as (_ & _ & Hno). apply Hno. by apply Hf.
  - intros x. by rewrite Hdf, Hf, Hk.
  - intros x [Hx|Hx]%Hk; [by apply Hr|]. destruct (Hdn x false Hx) as (_ & Hin & _). eapply reachable_snoc; [|by apply Hedge]. apply Hr. apply elem_of_app. right. by left.
  - intros x. rewrite Hexp. case_decide as Hne; [rewrite elem_of_app, list_elem_of_singleton, Ho; naive_solver|]. rewrite Ho. naive_solver.
  - case_decide as Hne; [|done]. apply NoDup_app. split_and!; [done| |apply NoDup_singleton]. intros x Hx ->%list_elem_of_singleton.
    apply Ho in Hx as [?|[Hx|Hx]]; [done| |].
    + apply NoDup_app in Hnd as (_ & Hdis & _). apply (Hdis b Hx). by left.
    + apply elem_of_cons in Hx as [?|Hx]; [done|]. apply NoDup_app in Hnd as (_ & _ & Hnd). apply NoDup_cons in Hnd as [Hno _]. apply Hno. by apply (list_elem_of_fmap_2 fst _ (b, true)).
  - intros x y Hx Hxy. apply Hk. assert (Hxb : x = b \/ (x ∈ finished st \/ (x, true) ∈ (b, false) :: w)) by (rewrite Hexp in Hx; tauto).
    destruct Hxb as [->|Hx']; [|left; by apply (He x)]. destruct Hxy as (row' & Hrow' & Hy). assert (row' = row) as -> by congruence.
    apply Hda in Hy. apply Hdf in Hy as [Hy|Hy]; [left; by apply Hf|by right].
  - intros w1 x k w2 Heq. apply app_eq_inv in Heq as [(m & -> & Heq)|(m & -> & Heq)].
    + destruct m as [|y m]; cbn in Heq; [injection Heq as Hx Hk' Hw'; subst x k w2|simplify_eq].
      * destruct (Hs [] b false w eq_refl) as [?|(p & Hp & Hin)]; [by left|right; exists p]. by split.
      * right. exists b. destruct (Hdn x k) as (_ & Hin & _); [apply elem_of_app; right; by left|]. split; [by apply Hedge|]. apply elem_of_app. right. by left.
    + destruct m as [|y m]; cbn in Heq; [injection Heq as Hx Hk' Hw'; subst x k w2|simplify_eq].
      * destruct (Hs [] b false w eq_refl) as [?|(p & Hp & Hin)]; [by left|right; exists p]. by split.
      * by apply (Hs ((b, false) :: m) x k w2).
  - intros x Hx Hne. destruct (Hfin x Hx Hne) as (p & Hp & [Hb|Hb]); exists p; (split; [done|]); [by left|]. right. rewrite Hexp. by right.
  - apply Hk. by left.
  - assert (Hne : new ++ (b, true) :: w <> []) by (by destruct new). destruct (new ++ (b, true) :: w) as [|y l] eqn:Heq; [done|]. rewrite <- Heq, fmap_app. cbn [fmap list_fmap fst].
    assert (Hl' : last (b :: w.*1) = Some entry) by exact Hlast. rewrite last_app. by rewrite Hl'.
Qed.

Lemma discovery_step_ok {E} st be w : discovering st -> work st = be :: w ->
  exists st', discovery_step entry g be (Discovery (found st) (discovery_order st) (finished st) w) = Ok st' :> result E _ /\ discovering st' /\ measure st' < measure st.
Proof.
  intros Hi Hw. pose proof (known_bound st Hi) as Hb. rewrite Hw in Hb. cbn in Hb. pose proof (expanded_length w) as Hex. destruct be as [b x]. unfold discovery_step, measure. rewrite Hw. destruct x.
  - eexists. split; [done|]. split; [exact (leave_ok st b w Hi Hw)|]. cbn [finished work]. rewrite length_app, expanded_true. cbn [length]. lia.
  - assert (Hbn : b < n).
    { rewrite <- (di_length _ Hi). assert (Hin : b ∈ known_blocks st) by (unfold known_blocks; rewrite Hw; apply elem_of_app; right; by left). apply (di_found _ Hi) in Hin. eauto with index. }
    in_range g b as row Hrow. rewrite Hrow. msimpl. cbn [found work discovery_order finished].
    destruct (discover_row (E:=E) (found st) ((b, true) :: w) (rev row)) as (f' & new & -> & Hd).
    { intros s Hs. rewrite (di_length _ Hi). apply (Hclosed b). exists row. split; [done|]. by rewrite <- Permutation_rev in Hs. }
    cbn [fst snd]. eexists. split; [done|].
    assert (Hd' : discovered_row (found st) ((b, true) :: w) row f' new).
    { destruct Hd as [H1 H2 H3 H4 H5]. split; [done|done| |done|].
      - intros y k Hy. destruct (H3 y k Hy) as (? & Hin & ?). rewrite <- Permutation_rev in Hin. done.
      - intros s Hs. apply H5. by rewrite <- Permutation_rev. }
    assert (Hi' := expand_ok st b w row f' new Hi Hw Hrow Hd'). split; [done|].
    pose proof (known_bound _ Hi') as Hb'. cbn [finished work found] in *. rewrite length_app in Hb'. cbn [length] in Hb'.
    rewrite expanded_false, expanded_app, expanded_true. pose proof (expanded_length new). lia.
Qed.

Lemma discovery_loop_ok {E} fuel st : discovering st -> measure st <= fuel ->
  exists st', discovery_loop fuel entry g st = Ok st' :> result E _ /\ discovering st' /\ work st' = [].
Proof.
  revert st. induction fuel as [|fuel IH]; intros st Hi Hm; unfold discovery_loop; fold (@discovery_loop E); destruct (work st) as [|be w] eqn:Hw; try (exists st; split; [done|]; by split).
  - exfalso. destruct (discovery_step_ok (E:=E) st be w Hi Hw) as (st' & _ & _ & ?). lia.
  - destruct (discovery_step_ok (E:=E) st be w Hi Hw) as (st' & -> & Hi' & Hlt). msimpl. apply IH; [done|lia].
Qed.

Definition first_discovery : discovery := Discovery (<[entry := true]> (replicate n false)) [entry] [] [(entry, false)].

Lemma first_discovering : discovering first_discovery.
Proof.
  split; unfold first_discovery, known_blocks; cbn [found discovery_order finished work fmap list_fmap fst app].
  - by rewrite length_insert, length_replicate.
  - apply NoDup_singleton.
  - intros b. rewrite list_elem_of_singleton. destruct (decide (b = entry)) as [->|?].
    + rewrite list_lookup_insert_eq by (by rewrite length_replicate). done.
    + rewrite list_lookup_insert_ne by done. split; [by intros [? _]%lookup_replicate|done].
  - intros b ->%list_elem_of_singleton. apply reachable_refl.
  - intros b. rewrite list_elem_of_singleton, elem_of_nil, list_elem_of_singleton. naive_solver.
  - apply NoDup_singleton.
  - intros b s [?%not_elem_of_nil|?%list_elem_of_singleton]; done.
  - intros w1 b x w2 Heq. left. destruct w1 as [|y [|]]; cbn in Heq; by simplify_eq.
  - by intros b ?%not_elem_of_nil.
  - by left.
  - done.
Qed.

(** What the discovery ends with. *)
Record discovered st : Prop := {
  dc_length : length (found st) = n;
  dc_found b : found st !! b = Some true <-> reachable g entry b;
  dc_finished b : b ∈ finished st <-> reachable g entry b;
  dc_nodup : NoDup (finished st);
  dc_last : last (finished st) = Some entry;
  dc_before b : b ∈ finished st -> b <> entry -> exists p, edge g p b /\ before b p (finished st);
  dc_order b : b ∈ discovery_order st <-> reachable g entry b;
  dc_order_nodup : NoDup (discovery_order st) }.

Lemma discovery_spec {E} : exists st, discovery_loop (2 * n) entry g first_discovery = Ok st :> result E _ /\ discovered st.
Proof.
  destruct (discovery_loop_ok (E:=E) (2 * n) first_discovery first_discovering) as (st & Heq & [Hl Hnd Hf Hr Ho Hond He Hs Hfin Hent Hlast] & Hw); [unfold measure; lia|].
  unfold known_blocks in *. rewrite Hw in *. cbn [fmap list_fmap] in *. rewrite app_nil_r in *.
  assert (Hno : forall b, (b, true) ∉ ([] : list (nat * bool))) by (intros b; apply not_elem_of_nil).
  assert (Hin : forall b, b ∈ finished st <-> reachable g entry b).
  { intros b. split; [apply Hr|]. intros [l Hp]. assert (Hgo : forall a l, path g a l b -> a ∈ finished st -> b ∈ finished st); [|by eapply Hgo].
    clear l Hp. intros a l. induction 1 as [|a x b l Hax _ IH]; [done|]. intros Ha. apply IH. apply (He a); [by left|done]. }
  exists st. split; [done|]. split; try done.
  - intros b. by rewrite Hf.
  - intros b Hb Hne. destruct (Hfin b Hb Hne) as (p & Hp & [?|?]); [by exists p|by destruct (Hno p)].
  - intros b. rewrite Ho, <- Hin. split; [intros [->|[?|?]]; [done..|by destruct (Hno b)]|tauto].
Qed.
End discovery.

(** ** Predecessors *)

Section predecessors.
Context (g : graph) (entry : nat) (Hclosed : closed g) (Hentry : entry < length g) (st : discovery) (Hd : discovered g entry st).
Abbreviation n := (length g).
Implicit Types (b p s k : nat) (row : list nat) (preds : graph).

(** The rows of predecessors of the first [k] blocks. *)
Definition preds_upto k preds : Prop := length preds = n /\ forall s p, edge preds s p <-> p < k /\ edge g p s /\ reachable g entry p.

Lemma edge_insert preds s row p x : s < length preds -> edge (<[s := row]> preds) x p <-> (x = s /\ p ∈ row) \/ (x <> s /\ edge preds x p).
Proof.
  intros Hs. unfold edge. destruct (decide (x = s)) as [->|Hne].
  - rewrite list_lookup_insert_eq by done. naive_solver.
  - rewrite list_lookup_insert_ne by done. naive_solver.
Qed.

Lemma found_false b : b < n -> ~ reachable g entry b -> found st !! b = Some false.
Proof.
  intros Hb Hr. in_range (found st) b as v Hv; [by rewrite (dc_length _ _ _ Hd)|]. destruct v; [|done]. by destruct Hr; apply (dc_found _ _ _ Hd).
Qed.

Lemma predecessors_spec {E} (bad : E -> Prop) : yields bad (preds_upto n) (foldM (add_predecessors (found st)) (replicate n []) (enumerate g)).
Proof.
  apply (yields_enumerate bad preds_upto).
  - split; [by rewrite length_replicate|]. intros s p. split; [|lia]. intros (row & [-> _]%lookup_replicate & ?%not_elem_of_nil). done.
  - intros k row preds Hk [Hl Hp]. assert (Hkn : k < n) by eauto with index. unfold add_predecessors. cbn [fst snd].
    assert (Hek : forall s, edge g k s <-> s ∈ row) by (intros s; unfold edge; rewrite Hk; naive_solver).
    destruct (decide (found st !! k = Some true)) as [Hf|Hf].
    + rewrite Hf. msimpl. assert (Hrk : reachable g entry k) by (by apply (dc_found _ _ _ Hd)).
      eapply yields_impl; [|apply (yields_foldM bad (fun pre preds => length preds = n /\ forall s p, edge preds s p <-> (p < k /\ edge g p s /\ reachable g entry p) \/ (p = k /\ s ∈ pre)))].
      * intros preds' [Hl' Hp']. split; [done|]. intros s p. rewrite Hp', <- Hek. split; [intros [(? & ? & ?)|[-> ?]]; (split; [lia|]); tauto|].
        intros (Hlt & He & Hr). destruct (decide (p = k)) as [->|?]; [by right|left; split; [lia|done]].
      * split; [done|]. intros s p. rewrite Hp, elem_of_nil. tauto.
      * intros pre s post preds' Heq [Hl' Hp']. assert (Hs : edge g k s) by (apply Hek; rewrite Heq; set_solver).
        assert (Hsn : s < n) by (by apply (Hclosed k)). unfold add_predecessor. rewrite (proj2 (dc_found _ _ _ Hd s)) by (by eapply reachable_snoc). msimpl.
        in_range preds' s as r Hr. rewrite Hr. cbn [yields]. split; [by rewrite length_insert|]. intros x p. rewrite edge_insert by lia. rewrite Hp', !elem_of_app, !list_elem_of_singleton.
        destruct (decide (x = s)) as [->|Hne]; [|naive_solver]. assert (Hpr : p ∈ r <-> edge preds' s p) by (unfold edge; rewrite Hr; naive_solver). rewrite Hpr, Hp'. naive_solver.
    + in_range (found st) k as v Hv; [by rewrite (dc_length _ _ _ Hd)|]. rewrite Hv. msimpl. destruct v; [done|]. cbn [yields]. split; [done|]. intros s p. rewrite Hp.
      split; [intros (? & ? & ?); split; [lia|done]|]. intros (? & ? & Hr). split; [|done]. assert (p <> k) by (intros ->; apply Hf; by apply (dc_found _ _ _ Hd)). lia.
Qed.
End predecessors.

(** ** The iteration is that of [Dominators] *)

Section numbers.
Context (n : nat) (order : list nat) (Hnd : NoDup order) (Hlt : forall b, b ∈ order -> b < n).

Definition numbered (numbers : list (option nat)) : Prop := length numbers = n /\ forall b i, numbers !! b = Some (Some i) <-> order !! i = Some b.

Lemma positions_spec {E} (bad : E -> Prop) : yields bad numbered (positions n order).
Proof.
  apply (yields_impl bad (fun t : list (option nat) => length t = n /\ forall b i, t !! b = Some (Some i) <-> i < length order /\ order !! i = Some b)).
  { intros t [Hl Ht]. split; [done|]. intros b i. rewrite Ht. split; [tauto|]. intros Hi. split; [by eapply lookup_lt_Some|done]. }
  apply (yields_enumerate bad (fun k (t : list (option nat)) => length t = n /\ forall b i, t !! b = Some (Some i) <-> i < k /\ order !! i = Some b)).
  - split; [by rewrite length_replicate|]. intros b i. split; [|lia]. by intros [? _]%lookup_replicate.
  - intros k b t Hk [Hl Ht]. unfold vset. cbn [fst snd]. pose proof (Hlt b ltac:(by eapply list_elem_of_lookup_2)) as Hb. rewrite decide_True by lia. cbn [yields].
    split; [by rewrite length_insert|]. intros c i. destruct (decide (c = b)) as [->|Hne].
    + rewrite list_lookup_insert_eq by lia. split; [intros [= <-]; split; [lia|done]|]. intros [_ Hi]. do 2 f_equal. by eapply NoDup_lookup.
    + rewrite list_lookup_insert_ne by done. rewrite Ht. split; [intros []; split; [lia|done]|]. intros [? Hi]. split; [|done].
      assert (i <> k) by (intros ->; congruence). lia.
Qed.

Context (numbers : list (option nat)) (Hnum : numbered numbers).
Definition ranks : list nat := default n <$> numbers.

Lemma ranks_order b i : order !! i = Some b -> ranks !! b = Some i.
Proof. intros Hi. unfold ranks. rewrite list_lookup_fmap. by rewrite (proj2 (proj2 Hnum b i) Hi). Qed.

Lemma number_bound b i : numbers !! b = Some (Some i) -> i < n.
Proof. intros Hi%(proj2 Hnum). apply lookup_lt_Some in Hi. pose proof (NoDup_bounded_length order n Hnd Hlt). lia. Qed.

Lemma lt_ranks a b x y : numbers !! a = Some x -> numbers !! b = Some y -> lt_max x y = bool_decide (default n x < default n y).
Proof.
  intros Ha Hb. unfold lt_max, le_max. destruct x as [i|], y as [j|]; cbn; symmetry.
  - rewrite <- bool_decide_not. apply bool_decide_ext. lia.
  - apply bool_decide_eq_true. by apply (number_bound a).
  - apply bool_decide_eq_false. pose proof (number_bound b j Hb). lia.
  - apply bool_decide_eq_false. lia.
Qed.

Lemma rise_climb {E E'} fuel t x target z : climb fuel t ranks x target = Ok z :> result E _ -> rise fuel numbers t x target = Ok z :> result E' _.
Proof.
  revert x. induction fuel as [|fuel IH]; intros x; cbn [climb rise]; unfold ranks; rewrite !list_lookup_fmap;
    destruct (numbers !! x) as [a|] eqn:Ha; cbn; try done; destruct (numbers !! target) as [b|] eqn:Hb; cbn; try done; rewrite (lt_ranks _ _ _ _ Hb Ha); case_decide as Hc.
  - done.
  - rewrite bool_decide_eq_false_2 by done. by intros [= ->].
  - rewrite bool_decide_eq_true_2 by done. destruct (mjoin (t !! x)) as [p|]; cbn; [apply IH|done].
  - rewrite bool_decide_eq_false_2 by done. by intros [= ->].
Qed.

Lemma intersect_from_dominators {E E'} fuel t l r z : intersect_loop fuel t ranks l r = Ok z :> result E _ -> intersect_from fuel numbers t l r = Ok z :> result E' _.
Proof.
  revert l r. induction fuel as [|fuel IH]; intros l r; cbn [intersect_loop intersect_from]; case_decide; try done; try (by intros [= ->]).
  - destruct (climb (E:=E) (length ranks) t ranks l r) as [l'| |] eqn:Hl; cbn; try done. destruct (climb (E:=E) (length ranks) t ranks r l') as [r'| |] eqn:Hr; cbn; try done.
    assert (length ranks = length numbers) as Hlen by apply length_fmap. rewrite Hlen in *.
    rewrite (rise_climb (E':=E') _ _ _ _ _ Hl). cbn. rewrite (rise_climb (E':=E') _ _ _ _ _ Hr). cbn. apply IH.
Qed.
End numbers.

Section links.
Context (g : graph) (entry : nat) (Hclosed : closed g) (Hentry : entry < length g) (st : discovery) (Hd : discovered g entry st).
Context (preds : graph) (Hpreds : preds_upto g entry (length g) preds) (numbers : list (option nat)).
Abbreviation n := (length g).
Abbreviation order := (rev (finished st)).
Context (Hnum : numbered n order numbers).
Implicit Types (b d p x y : nat) (t : list (option nat)).

Lemma order_member b : b ∈ order <-> reachable g entry b.
Proof. rewrite <- Permutation_rev. apply (dc_finished _ _ _ Hd). Qed.
Lemma order_range b : b ∈ order -> b < n.
Proof. rewrite order_member. by apply reachable_lt. Qed.
Lemma order_nodup : NoDup order.
Proof. rewrite <- Permutation_rev. apply (dc_nodup _ _ _ Hd). Qed.

(** The rows of the blocks that were found. *)
Definition restricted : graph := zip_with (fun (f : bool) row => if f then row else []) (found st) g.

Lemma restricted_length : length restricted = n.
Proof. unfold restricted. rewrite length_zip_with, (dc_length _ _ _ Hd). lia. Qed.

Lemma restricted_edge a b : edge restricted a b <-> edge g a b /\ reachable g entry a.
Proof.
  unfold edge, restricted. split.
  - intros (row & Hrow & Hb). apply lookup_zip_with_Some in Hrow as (f & row' & -> & Hf & Hg). destruct f; [|by apply not_elem_of_nil in Hb].
    split; [by exists row'|]. by apply (dc_found _ _ _ Hd).
  - intros [(row & Hrow & Hb) Hr]. exists row. split; [|done]. apply lookup_zip_with_Some. exists true, row. split; [done|]. split; [by apply (dc_found _ _ _ Hd)|done].
Qed.

Lemma restricted_path l b : path restricted entry l b <-> path g entry l b.
Proof.
  assert (Hgo : forall a l, (path restricted a l b -> path g a l b) /\ (reachable g entry a -> path g a l b -> path restricted a l b)).
  { clear l. intros a l. split.
    - induction 1 as [|a c d l He _ IH]; [constructor|]. econstructor; [by apply restricted_edge in He as [? _]|done].
    - intros Ha Hp. revert Ha. induction Hp as [|a c d l He _ IH]; intros Ha; [constructor|]. econstructor; [by apply restricted_edge|]. apply IH. by eapply reachable_snoc. }
  split; apply Hgo. apply reachable_refl.
Qed.

Lemma restricted_dominates d b : dominates_spec restricted entry d b <-> dominates_spec g entry d b.
Proof. unfold dominates_spec. by setoid_rewrite restricted_path. Qed.

Lemma restricted_reverses : reverses restricted preds.
Proof.
  destruct Hpreds as [Hl Hp]. split; [by rewrite restricted_length|]. intros a b. rewrite Hp, restricted_edge.
  split; [tauto|]. intros [He Hr]. split; [by eapply reachable_lt|done].
Qed.

Lemma restricted_member a b : edge restricted a b -> a ∈ order /\ b ∈ order.
Proof. rewrite restricted_edge, !order_member. intros [He Hr]. split; [done|by eapply reachable_snoc]. Qed.

(** A sweep of the source makes the updates of [update_idom]. *)
Lemma with_idom_processed {E E'} t row l : processed t row = Ok l :> result E _ -> with_idom t row = Ok l :> result E' _.
Proof.
  revert l. induction row as [|p row IH]; intros l; cbn [processed with_idom]; [by intros [= <-]|]. destruct (t !! p) as [o|]; cbn; [|done].
  destruct (processed (E:=E) t row) as [rest| |]; cbn; try done. rewrite (IH rest eq_refl). cbn. by intros [= <-].
Qed.

Lemma sweep_update {E} t c b r : update_idom preds (ranks n numbers) (t, c) b = Ok r -> sweep_block preds numbers (t, c) b = Ok r :> result E _.
Proof.
  unfold update_idom, sweep_block. destruct (preds !! b) as [row|]; cbn [expect mbind result_bind]; [|done]. destruct (processed (E:=DominatorError) t row) as [ps| |] eqn:Hps; cbn [mbind result_bind]; try done.
  rewrite (with_idom_processed (E':=E) _ _ _ Hps). cbn [mbind result_bind]. destruct ps as [|first rest]; [done|].
  assert (Hfold : forall first z, foldM (fun next predecessor => intersect_dominators next predecessor t (ranks n numbers)) first rest = Ok z :> result DominatorError _ ->
    foldM (fun current predecessor => intersect numbers t current predecessor) first rest = Ok z :> result E _).
  { clear first Hps. induction rest as [|p rest IH]; intros first z; cbn [foldM]; [by intros [= ->]|].
    destruct (intersect_dominators (E:=DominatorError) first p t (ranks n numbers)) as [q| |] eqn:Hq; cbn [mbind result_bind]; try done.
    assert (Hi : intersect numbers t first p = Ok q :> result E _).
    { unfold intersect, intersect_dominators in *. assert (length (ranks n numbers) = length numbers) as Hlen by apply length_fmap. rewrite Hlen in Hq.
      exact (intersect_from_dominators n order order_nodup order_range numbers Hnum _ _ _ _ _ Hq). }
    rewrite Hi. cbn [mbind result_bind]. apply IH. }
  destruct (foldM _ first rest) as [next| |] eqn:Hn; cbn [mbind result_bind]; try done. rewrite (Hfold first next Hn). cbn [mbind result_bind]. destruct (t !! b) as [current|]; cbn [expect mbind result_bind]; [|done].
  case_decide; by intros [= <-].
Qed.

Lemma sweeps_loop {E} fuel (blocks : list nat) t t' : idom_loop fuel preds (ranks n numbers) blocks t = Ok t' -> sweeps fuel preds numbers blocks t = Ok t' :> result E _.
Proof.
  revert t. induction fuel as [|fuel IH]; intros t; cbn [idom_loop sweeps]; [done|].
  assert (Hfold : forall (bs : list nat) tc r, foldM (update_idom preds (ranks n numbers)) tc bs = Ok r -> foldM (sweep_block preds numbers) tc bs = Ok r :> result E _).
  { clear IH. induction bs as [|b bs IH]; intros tc r; cbn [foldM]; [by intros [= ->]|]. destruct tc as [t0 c].
    destruct (update_idom preds (ranks n numbers) (t0, c) b) as [tc'| |] eqn:Hu; cbn [mbind result_bind]; try done. intros Hr. rewrite (sweep_update t0 c b tc' Hu). cbn [mbind result_bind]. by apply IH. }
  destruct (foldM (update_idom preds (ranks n numbers)) (t, false) blocks) as [[t1 c1]| |] eqn:Hf; cbn [mbind result_bind]; try done. rewrite (Hfold _ _ _ Hf). cbn [mbind result_bind snd fst]. destruct c1; [apply IH|by intros [= ->]].
Qed.

Abbreviation level := (rank (ranks n numbers)).

Record links t : Prop := {
  lk_length : length t = n;
  lk_entry : t !! entry = Some (Some entry);
  lk_above d b : reachable g entry b -> above t d b <-> dominates_spec g entry d b;
  lk_done b : reachable g entry b <-> exists y, t !! b = Some (Some y);
  lk_parent b y : b <> entry -> t !! b = Some (Some y) -> level y < level b }.

Lemma level_bound b : reachable g entry b -> level b < n.
Proof.
  intros Hb%order_member. apply list_elem_of_lookup in Hb as [i Hi]. unfold rank. rewrite (ranks_order n order numbers Hnum _ _ Hi). cbn.
  apply lookup_lt_Some in Hi. pose proof (NoDup_bounded_length order n order_nodup order_range). lia.
Qed.

Lemma sweeps_spec {E} : exists t, sweeps (S (n * n)) preds numbers (tail order) (<[entry := Some entry]> (replicate n None)) = Ok t :> result E _ /\ links t.
Proof.
  assert (Hfirst : head order = Some entry).
  { pose proof (dc_last _ _ _ Hd) as Hlast. apply last_Some in Hlast as [l ->]. by rewrite rev_app_distr. }
  assert (Hparent : forall b, b ∈ order -> b <> entry -> exists p, edge restricted p b /\ before p b order).
  { intros b Hb Hne. rewrite <- Permutation_rev in Hb. destruct (dc_before _ _ _ Hd b Hb Hne) as (p & Hp & Hbef). exists p. split; [|by apply before_reverse].
    apply restricted_edge. split; [done|]. apply (dc_finished _ _ _ Hd). destruct Hbef as (l1 & l2 & -> & Hin). set_solver. }
  assert (He' : entry < length restricted) by (by rewrite restricted_length).
  assert (Hrange' : forall b, b ∈ order -> b < length restricted) by (intros b Hb; rewrite restricted_length; by apply order_range).
  assert (Hlen' : length (ranks n numbers) = length restricted) by (unfold ranks; rewrite length_fmap, restricted_length; apply Hnum).
  pose proof (ranks_order n order numbers Hnum) as Hpos.
  destruct (idom_loop_spec restricted preds entry order restricted_reverses He' order_nodup Hrange' restricted_member Hfirst Hparent (ranks n numbers) (fun b i => Hpos b i) Hlen'
    (S (n * n)) (initial_idom restricted entry)) as (t & Hloop & Hi & Hst).
  { exact (initial_inv restricted preds entry order He' order_nodup Hrange' restricted_member Hfirst Hparent (ranks n numbers) (fun b i => Hpos b i) Hlen'). }
  { apply Nat.lt_succ_r. etransitivity; [apply (potential_bound restricted entry He' (ranks n numbers) Hlen')|].
    - intros b y Hy. destruct (initial_done restricted entry order He' restricted_member Hfirst Hparent b y Hy) as [-> ->]. erewrite (rank_entry entry order) by eauto. lia.
    - unfold initial_idom. by rewrite length_insert, length_replicate, restricted_length. }
  exists t. split. { apply sweeps_loop. unfold initial_idom in Hloop. by rewrite restricted_length in Hloop. }
  pose proof (ci_tree _ _ _ _ _ _ _ Hi) as Ht. split.
  - rewrite (to_length _ _ _ _ _ _ Ht). apply restricted_length.
  - apply (to_entry _ _ _ _ _ _ Ht).
  - intros d b Hb%order_member. rewrite <- restricted_dominates. eapply (above_dominates restricted preds entry order); eauto using order_nodup, restricted_reverses, restricted_member.
    intros a c [He _]%restricted_edge. rewrite restricted_length. by eapply Hclosed.
  - intros b. rewrite <- order_member. split; [eapply (all_done restricted preds entry order); eauto using order_nodup|].
    intros Hy. by apply (to_member _ _ _ _ _ _ Ht).
  - intros b y Hne Hy. destruct (to_parent _ _ _ _ _ _ Ht b y Hne Hy) as [_ Ha].
    assert (Hb : b ∈ order) by (apply (to_member _ _ _ _ _ _ Ht); by exists y).
    destruct (forward_pred_spec restricted preds entry order restricted_reverses Hparent (ranks n numbers) (fun b i => Hpos b i) b Hb Hne) as [_ Hlt].
    destruct (ancestor_rank restricted preds entry order restricted_reverses He' Hparent (ranks n numbers) (fun b i => Hpos b i) Hlen' y _ Ha) as [->|]; [done|]. unfold rank in *. lia.
Qed.

(** ** The tree *)

Section tree.
Context (t : list (option nat)) (Hlinks : links t).

Lemma reachable_n b : reachable g entry b -> b < n.
Proof. by apply reachable_lt. Qed.

Lemma parent_reachable b y : t !! b = Some (Some y) -> reachable g entry y.
Proof.
  intros Hb. assert (Hr : reachable g entry b) by (apply (lk_done _ Hlinks); by exists y).
  assert (Hy : above t y b) by (econstructor; [exact Hb|constructor]). apply (lk_above _ Hlinks) in Hy; [|done].
  destruct Hr as [l Hl]. pose proof (Hy l Hl) as Hin. apply list_elem_of_split in Hin as (l1 & l2 & ->). eexists. by apply path_split in Hl as [Hl _].
Qed.

Lemma dominates_index_ok {E} fuel d b : reachable g entry b -> level b < fuel -> exists v, dominates_index fuel t d b = Ok v :> result E _.
Proof.
  revert b. induction fuel as [|fuel IH]; intros b Hb Hf; [lia|]. cbn [dominates_index]. case_decide; [by eexists|].
  destruct (proj1 (lk_done _ Hlinks b) Hb) as [y Hy]. rewrite Hy. cbn [expect mbind result_bind]. case_decide as Hyb; [by eexists|].
  apply IH; [by eapply parent_reachable|]. assert (b <> entry) as Hne by (intros ->; rewrite (lk_entry _ Hlinks) in Hy; congruence).
  pose proof (lk_parent _ Hlinks b y Hne Hy). lia.
Qed.

Lemma merge_flag_ok {E} b row : (forall p, p ∈ row -> reachable g entry p) -> exists v, merge_flag t (b, row) = Ok v :> result E _.
Proof.
  intros Hrow. unfold merge_flag. cbn [fst snd]. case_decide; [|by eexists].
  assert (Hany : exists v, any_dominated t b row = Ok v :> result E _).
  { clear H. induction row as [|p row IH]; [by eexists|]. cbn [any_dominated].
    destruct (dominates_index_ok (E:=E) (length t) b p) as [v ->]; [apply Hrow; by left|rewrite (lk_length _ Hlinks); apply level_bound, Hrow; by left|].
    cbn [mbind result_bind]. destruct v; [by eexists|]. apply IH. intros; apply Hrow. by right. }
  destruct Hany as [v ->]. by eexists.
Qed.

Lemma merges_ok {E} : exists merges, mapMr (merge_flag t) (enumerate preds) = Ok merges :> result E _.
Proof.
  assert (Hall : forall br, br ∈ enumerate preds -> exists v, merge_flag t br = Ok v :> result E _).
  { intros [b row] Hb%elem_of_enumerate. apply merge_flag_ok. intros p Hp. assert (He : edge preds b p) by (by exists row). by apply Hpreds in He as (_ & _ & ?). }
  induction (enumerate preds) as [|br l IH]; [by eexists|]. cbn [mapMr]. destruct (Hall br) as [v ->]; [by left|]. cbn [mbind result_bind].
  destruct IH as [vs ->]; [intros; apply Hall; by right|]. by eexists.
Qed.

(** The children of a block, in any order. *)
Definition children_ok (ch : graph) : Prop := length ch = n /\ forall b row, ch !! b = Some row -> NoDup row /\ forall c, c ∈ row <-> c <> entry /\ t !! c = Some (Some b).

Lemma children_spec {E} (bad : E -> Prop) : yields bad children_ok (foldM (push_child entry t) (replicate n []) (discovery_order st)).
Proof.
  eapply yields_impl; [|apply (yields_foldM bad (fun pre (ch : graph) => length ch = n /\ forall b row, ch !! b = Some row -> NoDup row /\ forall c, c ∈ row <-> c ∈ pre /\ c <> entry /\ t !! c = Some (Some b)))].
  - intros ch [Hl Hch]. split; [done|]. intros b row Hrow. destruct (Hch b row Hrow) as [Hnd Hin]. split; [done|]. intros c. rewrite Hin, (dc_order _ _ _ Hd), (lk_done _ Hlinks). naive_solver.
  - split; [by rewrite length_replicate|]. intros b row [-> _]%lookup_replicate. split; [constructor|]. intros c. rewrite !elem_of_nil. tauto.
  - intros pre c post ch Heq [Hl Hch]. pose proof (dc_order_nodup _ _ _ Hd) as Hnd. rewrite Heq in Hnd. apply NoDup_app in Hnd as (_ & Hdis & _).
    assert (Hc : reachable g entry c) by (apply (dc_order _ _ _ Hd); rewrite Heq; set_solver). unfold push_child. case_decide as Hce.
    + subst c. split; [done|]. intros b row Hrow. destruct (Hch b row Hrow) as [Hnd Hin]. split; [done|]. intros c. rewrite Hin, elem_of_app, list_elem_of_singleton. naive_solver.
    + destruct (proj1 (lk_done _ Hlinks c) Hc) as [y Hy]. rewrite Hy. cbn [expect mbind result_bind].
      assert (Hyn : y < n) by (by apply reachable_n, (parent_reachable c)). in_range ch y as row Hrow. rewrite Hrow. cbn [expect mbind result_bind yields].
      split; [by rewrite length_insert|]. destruct (Hch y row Hrow) as [Hndr Hin]. intros b row' Hrow'. destruct (decide (b = y)) as [->|Hne].
      * rewrite list_lookup_insert_eq in Hrow' by lia. injection Hrow' as <-. split.
        -- apply NoDup_app. split_and!; [done| |apply NoDup_singleton]. intros x Hx ->%list_elem_of_singleton. apply Hin in Hx as [Hx _]. apply (Hdis c Hx). by left.
        -- intros x. rewrite !elem_of_app, !list_elem_of_singleton, Hin. naive_solver.
      * rewrite list_lookup_insert_ne in Hrow' by done. destruct (Hch b row' Hrow') as [Hndr' Hin']. split; [done|]. intros x. rewrite Hin', elem_of_app, list_elem_of_singleton.
        split; [tauto|]. intros ([?| ->] & ? & Hx); [tauto|congruence].
Qed.

Lemma sorted_children ch (key : nat -> nat * (nat * nat)) : children_ok ch -> children_ok (sort_by_key key <$> ch).
Proof.
  intros [Hl Hch]. split; [by rewrite length_fmap|]. intros b row. rewrite list_lookup_fmap. intros (row' & Hrow & ->)%fmap_Some.
  destruct (Hch b row' Hrow) as [Hnd Hin]. pose proof (sort_by_key_permutation key row') as Hp. split; [by rewrite Hp|]. intros c. by rewrite Hp.
Qed.

(** *** The preorder

    The link of the entry to itself is dropped, so that the levels decrease
    along every link that is left. *)

Definition open_links : list (option nat) := <[entry := None]> t.

Lemma open_links_lookup b y : open_links !! b = Some (Some y) <-> b <> entry /\ t !! b = Some (Some y).
Proof.
  unfold open_links. destruct (decide (b = entry)) as [->|Hne].
  - rewrite list_lookup_insert_eq by (by rewrite (lk_length _ Hlinks)). naive_solver.
  - rewrite list_lookup_insert_ne by done. naive_solver.
Qed.

Lemma open_links_length : length open_links = n.
Proof. unfold open_links. rewrite length_insert. apply (lk_length _ Hlinks). Qed.

Lemma open_above d b : above open_links d b <-> above t d b.
Proof.
  split.
  - induction 1 as [|b y [_ Hy]%open_links_lookup _ IH]; [constructor|]. by econstructor.
  - induction 1 as [|b y Hy _ IH]; [constructor|]. destruct (decide (b = entry)) as [->|Hne].
    + rewrite (lk_entry _ Hlinks) in Hy. by injection Hy as <-.
    + econstructor; [|done]. by apply open_links_lookup.
Qed.

Lemma open_depth b y : open_links !! b = Some (Some y) -> y < length open_links /\ level y < level b.
Proof. rewrite open_links_length, open_links_lookup. intros [Hne Hy]. split; [by apply reachable_n, (parent_reachable b)|by apply (lk_parent _ Hlinks)]. Qed.

Lemma above_reachable d b : reachable g entry d -> above open_links d b -> reachable g entry b.
Proof. intros Hd' Ha. inversion Ha as [|? y [_ Hy]%open_links_lookup _]; subst; [done|]. apply (lk_done _ Hlinks). by exists y. Qed.

Lemma above_dominated d b : reachable g entry d -> above open_links d b <-> reachable g entry b /\ dominates_spec g entry d b.
Proof.
  intros Hd'. split.
  - intros Ha. assert (Hb : reachable g entry b) by (by apply (above_reachable d)). split; [done|]. apply (lk_above _ Hlinks); [done|]. by apply open_above.
  - intros [Hb Hdom]. apply open_above. by apply (lk_above _ Hlinks).
Qed.

(** Every member of [l] is followed by exactly the blocks below it. *)
Definition spans (l : list nat) : Prop := forall l1 a l2, l = l1 ++ a :: l2 -> exists s r, l2 = s ++ r /\ forall x, x ∈ a :: s <-> above open_links a x.

Lemma spans_app l l' : spans l -> spans l' -> spans (l ++ l').
Proof.
  intros Hl Hl' l1 a l2 [(k & -> & Hk)|(k & -> & Hk)]%app_eq_inv.
  - destruct k as [|x k]; cbn in Hk; subst; [by apply (Hl' [])|]. injection Hk as -> ->. destruct (Hl _ _ _ eq_refl) as (s & r & -> & Hs). exists s, (r ++ l'). by rewrite <- app_assoc.
  - destruct (Hl' _ _ _ Hk) as (s & r & -> & Hs). by exists s, r.
Qed.

Lemma spans_root b l : (forall x, x ∈ b :: l <-> above open_links b x) -> spans l -> spans (b :: l).
Proof.
  intros Hb Hl [|c l1] a l2 [= -> ->]; [|by eapply Hl]. exists l2, []. by rewrite app_nil_r.
Qed.

Section visits.
Context (ch : graph) (Hch : children_ok ch).

(** The visit of a list of subtrees. *)
Record tree_visit (roots l : list nat) : Prop := {
  vi_nodup : NoDup l;
  vi_member x : x ∈ l <-> exists c, c ∈ roots /\ above open_links c x;
  vi_spans : spans l;
  vi_run E fuel stack acc : tree_preorder (length l + fuel) ch (roots ++ stack) acc = tree_preorder fuel ch stack (acc ++ l) :> result E _ }.

Lemma visit_nil : tree_visit [] [].
Proof.
  split.
  - constructor.
  - intros x. rewrite elem_of_nil. split; [done|]. by intros (c & ?%not_elem_of_nil & _).
  - by intros [|] ? ? ?.
  - intros. cbn. by rewrite app_nil_r.
Qed.

Lemma visit_app b bs l l' : (forall c x, c ∈ bs -> above open_links b x -> ~ above open_links c x) -> tree_visit [b] l -> tree_visit bs l' -> tree_visit (b :: bs) (l ++ l').
Proof.
  intros Hdis Hl Hl'. split.
  - apply NoDup_app. split_and!; [apply Hl| |apply Hl']. intros x (c & ->%list_elem_of_singleton & Hx)%(vi_member _ _ Hl) (c' & Hc' & Hx')%(vi_member _ _ Hl'). by apply (Hdis c' x).
  - intros x. rewrite elem_of_app, (vi_member _ _ Hl), (vi_member _ _ Hl'). setoid_rewrite elem_of_cons. setoid_rewrite elem_of_nil. naive_solver.
  - apply spans_app; [apply Hl|apply Hl'].
  - intros E fuel stack acc. rewrite length_app, <- Nat.add_assoc. pose proof (vi_run _ _ Hl E (length l' + fuel) (bs ++ stack) acc) as Hrun. cbn [app] in Hrun |- *.
    rewrite Hrun, (vi_run _ _ Hl'). by rewrite app_assoc.
Qed.

Lemma visit_forest b row : NoDup row -> (forall c, c ∈ row -> open_links !! c = Some (Some b)) -> (forall c, c ∈ row -> exists l, tree_visit [c] l) -> exists l, tree_visit row l.
Proof.
  induction row as [|c row IH]; intros Hnd Hrow Hvis; [exists []; apply visit_nil|]. apply NoDup_cons in Hnd as [Hc Hnd].
  destruct IH as [l' Hl']; [done|set_solver..|]. destruct (Hvis c) as [l Hl]; [by left|]. exists (l ++ l'). apply visit_app; [|done..].
  intros c' x Hc' Hx Hx'. assert (c = c') as ->; [|done]. eapply (siblings_disjoint open_links level open_depth); eauto; apply Hrow; set_solver.
Qed.

Lemma visit_block b : reachable g entry b -> exists l, tree_visit [b] (b :: l).
Proof.
  remember (n - level b) as k eqn:Hk. revert b Hk. induction k as [k IH] using lt_wf_ind. intros b Hk Hb. pose proof (level_bound b Hb) as Hlev.
  destruct Hch as [Hlen Hrows]. destruct (lookup_lt_is_Some_2 ch b) as [row Hrow]; [rewrite Hlen; by apply reachable_n|]. destruct (Hrows b row Hrow) as [Hnd Hin].
  assert (Hlink : forall c, c ∈ row <-> open_links !! c = Some (Some b)) by (intros c; by rewrite Hin, open_links_lookup).
  destruct (visit_forest b row Hnd (fun c => proj1 (Hlink c))) as [l Hl].
  { intros c Hc%Hlink. assert (Hcr : reachable g entry c) by (apply (lk_done _ Hlinks); exists b; by apply open_links_lookup in Hc as [_ ?]).
    pose proof (proj2 (open_depth _ _ Hc)). pose proof (level_bound c Hcr). destruct (IH (n - level c)) with c as [l Hl]; [lia|done..|]. by eexists. }
  assert (Hmem : forall x, x ∈ b :: l <-> above open_links b x).
  { intros x. rewrite elem_of_cons, (above_child open_links), (vi_member _ _ Hl). by setoid_rewrite Hlink. }
  exists l. split.
  - apply NoDup_cons. split; [|apply Hl]. intros (c & Hc%Hlink & Ha)%(vi_member _ _ Hl). pose proof (proj2 (open_depth _ _ Hc)).
    destruct (above_depth open_links level open_depth _ _ Ha) as [->|]; lia.
  - intros x. rewrite Hmem. setoid_rewrite list_elem_of_singleton. naive_solver.
  - apply spans_root; [done|apply Hl].
  - intros E fuel stack acc. cbn [length app Nat.add tree_preorder]. rewrite Hrow. cbn [expect mbind result_bind].
    rewrite (vi_run _ _ Hl). by rewrite <- app_assoc.
Qed.

Lemma tree_preorder_spec {E} : exists l, tree_preorder n ch [entry] [] = Ok (entry :: l) :> result E _ /\ NoDup (entry :: l) /\ (forall b, b ∈ entry :: l <-> reachable g entry b) /\ spans (entry :: l).
Proof.
  destruct (visit_block entry (reachable_refl _ _)) as [l Hl]. exists l.
  assert (Hmem : forall b, b ∈ entry :: l <-> reachable g entry b).
  { intros b. rewrite (vi_member _ _ Hl). setoid_rewrite list_elem_of_singleton. split.
    - intros (c & -> & Ha). by apply (above_reachable entry), Ha; apply reachable_refl.
    - intros Hb. exists entry. split; [done|]. apply above_dominated; [apply reachable_refl|]. split; [done|]. intros p Hp. by apply (path_start g entry p b). }
  split_and!; [|apply Hl|done|apply Hl].
  assert (Hfuel : length (entry :: l) <= n) by (apply NoDup_bounded_length; [apply Hl|]; intros b Hb%Hmem; by apply reachable_n).
  pose proof (vi_run _ _ Hl E (n - length (entry :: l)) [] []) as Hrun. rewrite app_nil_r in Hrun.
  replace (length (entry :: l) + (n - length (entry :: l))) with n in Hrun by lia. rewrite Hrun. by destruct (n - length (entry :: l)).
Qed.
End visits.
End tree.
End links.
