(* ===== verification/CfgOrderTheorems.v ===== *)
(** * CfgOrderTheorems: what [dominance_order] promises

    The order of the dense indices, and its translation to keys: paths of the
    flow graph of keys are the paths of the rows of indices. *)

From stdpp Require Import functions.
From S2P Require Import Prelude Specs Order Graph CfgTree CfgOrder CfgOrderFacts.

#[local] Open Scope nat_scope.

(** A table that is always found ends the pass. *)
Lemma yields_always {E A} (P : A -> Prop) (r : result E A) : yields (fun _ => False) P r -> exists a, r = Ok a /\ P a.
Proof. destruct r as [a| |]; cbn; [by exists a|done..]. Qed.

(** ** Indices *)

(** A preorder of the dominator tree: every block is followed by exactly the
    blocks it dominates. *)
Record dominator_preorder (g : graph) (entry : nat) (l : list nat) : Prop := {
  dp_nodup : NoDup l;
  dp_reached b : b ∈ l <-> reachable g entry b;
  dp_subtrees l1 d l2 : l = l1 ++ d :: l2 -> exists s r, l2 = s ++ r /\ forall b, b ∈ d :: s <-> reachable g entry b /\ dominates_spec g entry d b }.

Lemma index_order_spec {E} (g : graph) (entry : nat) : closed g -> entry < length g ->
  exists l rest, index_order entry g = Ok ((entry :: l) ++ rest) :> result E _ /\ dominator_preorder g entry (entry :: l) /\
    StronglySorted lt rest /\ forall b, b ∈ rest <-> b < length g /\ ~ reachable g entry b.
Proof.
  intros Hclosed Hentry. unfold index_order. assert (Hset : forall A (x y : A), vset entry x (replicate (length g) y) = Ok (<[entry := x]> (replicate (length g) y)) :> result E _).
  { intros A x y. unfold vset. by rewrite length_replicate, decide_True. }
  destruct (discovery_spec (E:=E) g entry Hclosed Hentry) as (st & Hst & Hd). unfold first_discovery in Hst. rewrite !Hset. cbn [mbind result_bind]. rewrite Hst. cbn [mbind result_bind].
  destruct (yields_always _ _ (predecessors_spec (E:=E) g entry Hclosed Hentry st Hd _)) as (preds & Hp & Hpreds). rewrite Hp. cbn [mbind result_bind].
  assert (Hnd : NoDup (rev (finished st))) by (rewrite <- Permutation_rev; apply Hd).
  assert (Hlt : forall b, b ∈ rev (finished st) -> b < length g) by (intros b Hb; rewrite <- Permutation_rev in Hb; eapply reachable_lt; [done..|]; by apply (dc_finished _ _ _ Hd)).
  destruct (yields_always _ _ (positions_spec (E:=E) (length g) _ Hnd Hlt _)) as (numbers & Hnums & Hnum). rewrite Hnums. cbn [mbind result_bind].

  destruct (sweeps_spec (E:=E) g entry Hclosed Hentry st Hd preds Hpreds numbers Hnum) as (t & Ht & Hlinks). rewrite Ht. cbn [mbind result_bind].
  assert (Hlt' : forall b, b ∈ discovery_order st -> b < length g) by (intros b Hb; eapply reachable_lt; [done..|]; by apply (dc_order _ _ _ Hd)).
  destruct (yields_always _ _ (positions_spec (E:=E) (length g) _ (dc_order_nodup _ _ _ Hd) Hlt' _)) as (positions & Hposs & _). rewrite Hposs. cbn [mbind result_bind].
  destruct (merges_ok (E:=E) g entry Hclosed Hentry st Hd preds Hpreds numbers Hnum t Hlinks) as (merges & Hm). rewrite Hm. cbn [mbind result_bind].
  destruct (yields_always _ _ (children_spec (E:=E) g entry Hclosed Hentry st Hd preds Hpreds numbers Hnum t Hlinks _)) as (ch & Hch & Hchildren). rewrite Hch. cbn [mbind result_bind].
  destruct (tree_preorder_spec (E:=E) g entry Hclosed Hentry st Hd preds Hpreds numbers Hnum t Hlinks _ (sorted_children g entry t ch (sibling_key merges positions) Hchildren)) as (l & Hl & Hndl & Hreach & Hspans).
  rewrite Hl. cbn [mbind result_bind]. eexists l, _. split; [reflexivity|]. split; [|split].
  - split; [done..|]. intros l1 d l2 Heq. destruct (Hspans _ _ _ Heq) as (s & r & -> & Hs). exists s, r. split; [done|]. intros b. rewrite Hs.
    apply (above_dominated g entry Hentry numbers t Hlinks). apply Hreach. rewrite Heq. set_solver.
  - apply StronglySorted_filter, seq_sorted.
  - intros b. rewrite list_elem_of_filter, elem_of_seq, <- (dc_found _ _ _ Hd). pose proof (dc_length _ _ _ Hd) as Hlen. split.
    + intros [Hf ?]. split; [lia|congruence].
    + intros [Hb Hf]. split; [|lia]. in_range (found st) b as v Hv. rewrite Hv. destruct v; [by rewrite Hv in Hf|done].
Qed.

(** ** Keys *)

Lemma Forall2_member_l {A B} (P : A -> B -> Prop) l k a : Forall2 P l k -> a ∈ l -> exists b, b ∈ k /\ P a b.
Proof.
  intros Hall [i Hi]%list_elem_of_lookup. destruct (Forall2_lookup_l _ _ _ _ _ Hall Hi) as (b & Hb & ?). exists b. split; [|done]. by eapply list_elem_of_lookup_2.
Qed.
Lemma Forall2_member_r {A B} (P : A -> B -> Prop) l k b : Forall2 P l k -> b ∈ k -> exists a, a ∈ l /\ P a b.
Proof. intros Hall. apply (Forall2_member_l (fun b a => P a b)). by apply Forall2_flip. Qed.

Section keys.
Context {K : Type} `{Countable K, !Ord K} (entry : K) (blocks : list K) (successors : K -> list K).
Implicit Types (k b d : K) (i j : nat).

(** Paths of the flow graph; a successor that is not a block is ignored. *)
Inductive flow : K -> list K -> K -> Prop :=
  | flow_one k : flow k [k] k
  | flow_step k k' b l : k' ∈ successors k -> k' ∈ blocks -> flow k' l b -> flow k (k :: l) b.

Definition flow_reachable b : Prop := exists l, flow entry l b.
Definition flow_dominates d b : Prop := forall l, flow entry l b -> d ∈ l.

(** The key table has every block once, in ascending order. *)
Lemma dedup_strict (l : list K) : StronglySorted ord_le l -> StronglySorted ord_lt (dedup l).
Proof.
  induction 1 as [|a l Hs IH Hall]; [constructor|]. destruct l as [|b l]; [cbn; repeat constructor|]. cbn [dedup] in *. case_decide as Hab; [done|].
  constructor; [done|]. rewrite Forall_forall in *. intros x Hx. assert (Hxl : x ∈ b :: l) by (by apply (elem_of_dedup (b :: l))). split; [by apply Hall|].
  intros Hxa. apply Hab. assert (Hle : a ⪯ b) by (apply Hall; by left). apply (anti_symm ord_le); [done|]. transitivity x; [|done].
  apply elem_of_cons in Hxl as [->|Hxl]; [done|]. apply StronglySorted_inv in Hs as [_ Hb]. rewrite Forall_forall in Hb. by apply Hb.
Qed.

Lemma sorted_nodup (l : list K) : StronglySorted ord_lt l -> NoDup l.
Proof.
  induction 1 as [|a l Hs IH Hall]; [constructor|]. apply NoDup_cons. split; [|done]. intros Ha. rewrite Forall_forall in Hall. by destruct (Hall a Ha).
Qed.

Lemma block_ids_spec : StronglySorted ord_lt (block_ids blocks) /\ NoDup (block_ids blocks) /\ forall k, k ∈ block_ids blocks <-> k ∈ blocks.
Proof.
  assert (Hs : StronglySorted ord_lt (block_ids blocks)) by (apply dedup_strict; exact (sort_by_key_sorted id blocks)).
  split; [done|]. split; [by apply sorted_nodup|]. intros k. unfold block_ids. by rewrite elem_of_dedup, elem_of_sort_by_key.
Qed.

Abbreviation ids := (block_ids blocks).

Lemma index_of_spec (l : list K) : NoDup l -> forall k i, index_of l !! k = Some i <-> l !! i = Some k.
Proof.
  intros Hnd. induction l as [|x l IH] using rev_ind; [intros k i; unfold index_of; cbn; by rewrite lookup_empty, lookup_nil|].
  apply NoDup_app in Hnd as (Hnd & Hx & _). specialize (IH Hnd).
  assert (Hstep : index_of (l ++ [x]) = <[x := length l]> (index_of l)).
  { unfold index_of. by rewrite enumerate_snoc, foldl_app. }
  intros k i. rewrite Hstep. destruct (decide (k = x)) as [->|Hne].
  - rewrite lookup_insert_eq. split.
    + intros [= <-]. by rewrite lookup_app_r, Nat.sub_diag by lia.
    + intros [Hi|[Hge Hi]]%lookup_app_Some; [exfalso; apply (Hx x); [by eapply list_elem_of_lookup_2|by left]|].
      apply list_lookup_singleton_Some in Hi as [? _]. f_equal. lia.
  - rewrite lookup_insert_ne by done. rewrite IH. split; [intros Hi; by apply lookup_app_l_Some|].
    intros [Hi|[Hge Hi]]%lookup_app_Some; [done|]. by apply list_lookup_singleton_Some in Hi as [_ ->].
Qed.

Abbreviation rows := ((fun k => index_row (index_of ids) (successors k)) <$> ids).

Lemma rows_edge i j : edge rows i j <-> exists k k', ids !! i = Some k /\ ids !! j = Some k' /\ k' ∈ successors k.
Proof.
  destruct block_ids_spec as (_ & Hnd & _). unfold edge. split.
  - intros (row & (k & -> & Hk)%list_lookup_fmap_Some & Hj). unfold index_row in Hj. apply elem_of_dedup, list_elem_of_omap in Hj as (k' & Hin & Hk').
    exists k, k'. split_and!; [done| |done]. by apply (index_of_spec ids Hnd).
  - intros (k & k' & Hk & Hk' & Hin). eexists. split; [by rewrite list_lookup_fmap, Hk|]. unfold index_row. apply elem_of_dedup, list_elem_of_omap. exists k'. split; [done|]. by apply (index_of_spec ids Hnd).
Qed.

Lemma rows_closed : closed rows.
Proof. intros i j (k & k' & _ & Hj & _)%rows_edge. rewrite length_fmap. eauto with index. Qed.

(** Index [i] of the table stands for the key [k]. *)
Lemma rows_flow i j l : path rows i l j -> forall k, ids !! i = Some k -> exists b lk, ids !! j = Some b /\ Forall2 (fun i k => ids !! i = Some k) l lk /\ flow k lk b.
Proof.
  destruct block_ids_spec as (_ & _ & Hin). induction 1 as [i|i i' j l (k' & k'' & Hk' & Hk'' & Hs)%rows_edge _ IH]; intros k Hk.
  - exists k, [k]. split; [done|]. split; [by repeat constructor|constructor].
  - rewrite Hk in Hk'. injection Hk' as <-. destruct (IH k'' Hk'') as (b & lk & Hb & Hall & Hf). exists b, (k :: lk). split; [done|]. split; [by constructor|].
    econstructor; [done| |done]. apply Hin. by eapply list_elem_of_lookup_2.
Qed.

Lemma flow_rows k lk b : flow k lk b -> forall i, ids !! i = Some k -> exists j l, ids !! j = Some b /\ Forall2 (fun i k => ids !! i = Some k) l lk /\ path rows i l j.
Proof.
  destruct block_ids_spec as (_ & _ & Hin). induction 1 as [k|k k' b lk Hs Hk' _ IH]; intros i Hi.
  - exists i, [i]. split; [done|]. split; [by repeat constructor|constructor].
  - apply Hin, list_elem_of_lookup in Hk' as [i' Hi']. destruct (IH i' Hi') as (j & l & Hj & Hall & Hp). exists j, (i :: l). split; [done|]. split; [by constructor|].
    econstructor; [|done]. apply rows_edge. by exists k, k'.
Qed.

Context (start : nat) (Hstart : ids !! start = Some entry).

Lemma same_index i j k : ids !! i = Some k -> ids !! j = Some k -> i = j.
Proof. destruct block_ids_spec as (_ & Hnd & _). intros. by eapply NoDup_lookup. Qed.

Lemma rows_reachable i k : ids !! i = Some k -> reachable rows start i <-> flow_reachable k.
Proof.
  intros Hi. split.
  - intros [l Hp]. destruct (rows_flow _ _ _ Hp entry Hstart) as (b & lk & Hb & _ & Hf). simplify_eq. by exists lk.
  - intros [lk Hf]. destruct (flow_rows _ _ _ Hf start Hstart) as (j & l & Hj & _ & Hp). rewrite (same_index i j k Hi Hj). by exists l.
Qed.

Lemma rows_dominates i j d b : ids !! i = Some d -> ids !! j = Some b -> dominates_spec rows start i j <-> flow_dominates d b.
Proof.
  intros Hi Hj. split.
  - intros Hdom lk Hf. destruct (flow_rows _ _ _ Hf start Hstart) as (j' & l & Hj' & Hall & Hp). rewrite (same_index j' j b Hj' Hj) in Hp.
    destruct (Forall2_member_l _ _ _ _ Hall (Hdom l Hp)) as (k & Hk & Hik). by simplify_eq.
  - intros Hdom l Hp. destruct (rows_flow _ _ _ Hp entry Hstart) as (b' & lk & Hb' & Hall & Hf). simplify_eq.
    destruct (Forall2_member_r _ _ _ _ Hall (Hdom lk Hf)) as (i' & Hi' & Hd). by rewrite (same_index i i' d Hi Hd).
Qed.
End keys.

Section theorems.
Context {K : Type} `{Countable K, !Ord K} (entry : K) (blocks : list K) (successors : K -> list K).
Implicit Types (b d : K).

(** The order of the blocks from [entry]: first the reachable ones, each
    followed by exactly the blocks it dominates, then the others by key. *)
Record ordered_blocks (reached rest : list K) : Prop := {
  ob_nodup : NoDup (reached ++ rest);
  ob_head : head reached = Some entry;
  ob_reached b : b ∈ reached <-> flow_reachable entry blocks successors b;
  ob_subtrees before d after : reached = before ++ d :: after -> exists subtree others, after = subtree ++ others /\
    forall b, b ∈ d :: subtree <-> flow_reachable entry blocks successors b /\ flow_dominates entry blocks successors d b;
  ob_sorted : StronglySorted ord_lt rest;
  ob_rest b : b ∈ rest <-> b ∈ blocks /\ ~ flow_reachable entry blocks successors b }.

Abbreviation ids := (block_ids blocks).

(** A list of indices of the table, and its keys. *)
Lemma mapMr_keys {E} (l : list nat) : (forall i, i ∈ l -> i < length ids) -> exists lk, mapMr (fun i => expect (ids !! i)) l = Ok lk :> result E _ /\ Forall2 (fun i k => ids !! i = Some k) l lk.
Proof.
  induction l as [|i l IH]; intros Hl; cbn [mapMr]; [by exists []|]. destruct (lookup_lt_is_Some_2 ids i) as [k Hk]; [apply Hl; by left|].
  destruct IH as (lk & -> & Hall); [intros; apply Hl; by right|]. rewrite Hk. cbn [expect mbind result_bind]. exists (k :: lk). split; [done|by constructor].
Qed.

Lemma keys_member (l : list nat) lk i k : Forall2 (fun i k => ids !! i = Some k) l lk -> ids !! i = Some k -> k ∈ lk <-> i ∈ l.
Proof.
  intros Hall Hi. split.
  - intros (i' & Hi' & Hk)%(Forall2_member_r _ _ _ _ Hall). by rewrite (same_index blocks i i' k Hi Hk).
  - intros (k' & Hk' & Hk)%(Forall2_member_l _ _ _ _ Hall). by simplify_eq.
Qed.

Lemma keys_sorted (l : list nat) lk : Forall2 (fun i k => ids !! i = Some k) l lk -> StronglySorted lt l -> StronglySorted ord_lt lk.
Proof.
  destruct (block_ids_spec blocks) as (Hs & _ & _). induction 1 as [|i k l lk Hi Hall IH]; [constructor|]. intros [Hl Hlt]%StronglySorted_inv. constructor; [by apply IH|].
  rewrite Forall_forall in Hlt. rewrite Forall_forall. intros k' (i' & Hi' & Hk')%(Forall2_member_r _ _ _ _ Hall). specialize (Hlt i' Hi').
  apply list_elem_of_split_length in Hi as (l1 & l2 & Heq & Hlen). rewrite Heq in Hs, Hk'. rewrite lookup_app_r in Hk' by lia.
  apply StronglySorted_app in Hs as (_ & _ & Hs). apply StronglySorted_inv in Hs as [_ Hs]. rewrite Forall_forall in Hs. apply Hs.
  destruct (i' - length l1) as [|m] eqn:Hm; [lia|]. cbn in Hk'. by eapply list_elem_of_lookup_2.
Qed.

Lemma dominance_order_spec {E} : (entry ∉ blocks -> dominance_order entry blocks successors = Ok ids :> result E _) /\
  (entry ∈ blocks -> exists reached rest, dominance_order entry blocks successors = Ok (reached ++ rest) :> result E _ /\ ordered_blocks reached rest).
Proof.
  destruct (block_ids_spec blocks) as (_ & Hnd & Hin). unfold dominance_order. destruct (list_find _ ids) as [[start k]|] eqn:Hfind.
  - apply list_find_Some in Hfind as (Hstart & -> & _). split; [intros Hno; destruct Hno; apply Hin; by eapply list_elem_of_lookup_2|]. intros _.
    set (rows := (fun k => index_row (index_of ids) (successors k)) <$> ids). assert (Hlen : length rows = length ids) by apply length_fmap.
    assert (Hbound : forall i, reachable rows start i -> i < length ids).
    { intros i Hi. rewrite <- Hlen. eapply reachable_lt; [apply rows_closed|rewrite Hlen; eauto with index|done]. }
    destruct (index_order_spec (E:=E) rows start (rows_closed blocks successors)) as (l & rest & -> & [Hndl Hreach Hsub] & Hsort & Hrest); [rewrite Hlen; eauto with index|].
    cbn [mbind result_bind].
    destruct (mapMr_keys (E:=E) ((start :: l) ++ rest)) as (lk & -> & Hall).
    { intros i [Hi|Hi]%elem_of_app; [by apply Hbound, Hreach|]. apply Hrest in Hi as [Hi _]. lia. }
    apply Forall2_app_inv_l in Hall as (reached & others & Hr & Ho & ->). exists reached, others. split; [done|].
    assert (Hreached : forall b, b ∈ reached <-> flow_reachable entry blocks successors b).
    { intros b. split.
      - intros (i & Hi%Hreach & Hb)%(Forall2_member_r _ _ _ _ Hr). by eapply rows_reachable.
      - intros [lk Hf]. destruct (flow_rows _ _ _ _ _ Hf start Hstart) as (j & lj & Hj & _ & Hp). eapply keys_member; [done..|]. apply Hreach. by exists lj. }
    assert (Hothers : forall b, b ∈ others <-> b ∈ blocks /\ ~ flow_reachable entry blocks successors b).
    { intros b. rewrite <- Hin. split.
      - intros (i & Hi & Hb)%(Forall2_member_r _ _ _ _ Ho). split; [by eapply list_elem_of_lookup_2|]. apply Hrest in Hi as [_ Hno]. contradict Hno. by eapply rows_reachable.
      - intros [[i Hi]%list_elem_of_lookup Hno]. eapply keys_member; [done..|]. apply Hrest. split; [rewrite Hlen; eauto with index|]. contradict Hno. by eapply rows_reachable. }
    assert (Hsorted : StronglySorted ord_lt others) by (by eapply keys_sorted).
    assert (Hndr : NoDup reached).
    { apply NoDup_alt. intros m m' b Hm Hm'. destruct (Forall2_lookup_r _ _ _ _ _ Hr Hm) as (i & Hi & Hb). destruct (Forall2_lookup_r _ _ _ _ _ Hr Hm') as (i' & Hi' & Hb').
      rewrite (same_index blocks i' i b Hb' Hb) in Hi'. by eapply (NoDup_lookup (start :: l)). }
    split; [|by inversion Hr; simplify_eq|done| |done..].
    + apply NoDup_app. split_and!; [done| |by apply sorted_nodup]. intros b Hb%Hreached [_ Hno]%Hothers. done.
    + intros before d after ->. apply Forall2_app_inv_r in Hr as (l1 & l2 & _ & Hr & Hl). inversion Hr as [|i d' s' a' Hi Hr']; subst. destruct (Hsub _ _ _ Hl) as (s & r & -> & Hs).
      apply Forall2_app_inv_l in Hr' as (subtree & more & Hsubtree & _ & ->). exists subtree, more. split; [done|].
      assert (Hds : Forall2 (fun i k => ids !! i = Some k) (i :: s) (d :: subtree)) by (by constructor). intros b. split.
      * intros (j & [Hj Hdom]%Hs & Hb)%(Forall2_member_r _ _ _ _ Hds). split; [by eapply rows_reachable|by eapply rows_dominates].
      * intros [[lk Hf] Hdom]. destruct (flow_rows _ _ _ _ _ Hf start Hstart) as (j & lj & Hj & _ & Hp). eapply keys_member; [done..|]. apply Hs.
        split; [by exists lj|by eapply rows_dominates].
  - split; [done|]. intros He. apply list_find_None in Hfind. rewrite Forall_forall in Hfind. destruct (Hfind entry); [by apply Hin|done].
Qed.
End theorems.

(** C21: [dominance_order] never panics. When the entry is not a block it
    returns the blocks in ascending order, each once; when it is, it returns
    every block once: first the blocks the entry reaches, with the entry at
    the head and every block followed immediately by all the other blocks it
    dominates, then the unreachable blocks in ascending order. *)
Theorem dominance_order_correct {K} `{Countable K, !Ord K} (entry : K) (blocks : list K) (successors : K -> list K) :
  match dominance_order (E:=Empty_set) entry blocks successors with
  | Ok order =>
      if decide (entry ∈ blocks) then exists reached rest, order = reached ++ rest /\ ordered_blocks entry blocks successors reached rest
      else StronglySorted ord_lt order /\ NoDup order /\ forall b, b ∈ order <-> b ∈ blocks
  | Err _ | Panic => False
  end.
Proof.
  destruct (dominance_order_spec (E:=Empty_set) entry blocks successors) as [Hno Hyes]. case_decide as He.
  - destruct (Hyes He) as (reached & rest & -> & Ho). by exists reached, rest.
  - rewrite (Hno He). apply block_ids_spec.
Qed.
