(* ===== verification/CfgTreeFacts.v ===== *)
(** * CfgTreeFacts: the intervals of [DominatorTree::from_idom]

    The event loop of [CfgTree.from_idom] enters every block whose links lead
    to the root once, and its interval of times lies strictly inside that of
    its parent and apart from those of its siblings; hence intervals nest as
    the links do. The loop needs no acyclicity: blocks on a cycle of links are
    never entered. *)

From stdpp Require Import functions.
From S2P Require Import Prelude Specs Order Graph Cfg CfgTree.

(** ** Children *)

Section children.
Context (idom : list (option nat)) (root : nat).
Abbreviation n := (length idom).
Implicit Types (b c d p x y : nat).

Record children_upto k (ch : graph) (P : nat -> list nat) : Prop := {
  cu_array : array n P ch;
  cu_nodup p : NoDup (P p);
  cu_rows p c : c ∈ P p <-> (c < k)%nat /\ idom !! c = Some (Some p);
  cu_root : (root < k)%nat -> idom !! root = Some None;
  cu_range c p : (c < k)%nat -> idom !! c = Some (Some p) -> (p < n)%nat }.

(** Why [from_idom] rejects links. *)
Definition bad_links (e : CfgError) : Prop :=
  (e = InvalidGraph "dominator root has an immediate dominator" /\ exists p, idom !! root = Some (Some p)) \/
  (e = InvalidGraph "immediate dominator is out of range" /\ exists b p, b <> root /\ idom !! b = Some (Some p) /\ (n <= p)%nat).

Lemma children_rows : yields bad_links (fun ch => exists P, children_upto n ch P)
  (foldM (tree_child root) (replicate n []) (enumerate idom)).
Proof.
  apply (yields_enumerate _ (fun k ch => exists P, children_upto k ch P)).
  { exists (fun _ => []). split; [apply array_replicate|intros; constructor| |lia|lia]. intros p c. split; [by intros ?%not_elem_of_nil|lia]. }
  intros k o ch Ho (P & HP). unfold tree_child. cbn [fst snd]. assert (Hk : (k < n)%nat) by eauto with index.
  assert (Hnext : forall c p, (c < S k)%nat /\ idom !! c = Some (Some p) <-> ((c < k)%nat /\ idom !! c = Some (Some p)) \/ (c = k /\ o = Some p)).
  { intros c p. split; [|intros [[??]|[-> ->]]; split; [lia|done|lia|done]]. intros [Hc Hcp].
    destruct (decide (c = k)) as [->|]; [right; split; [done|congruence]|left; split; [lia|done]]. }
  destruct o as [p|]; case_decide as Hroot.
  - left. split; [done|]. subst k. by exists p.
  - destruct (decide (p < n)%nat) as [Hp|Hp].
    + rewrite (array_lookup _ _ _ p (cu_array _ _ _ HP) Hp). msimpl. exists (<[p := P p ++ [k]]> P). split.
      * by apply array_insert, (cu_array _ _ _ HP).
      * intros q. destruct (decide (p = q)) as [<-|]; [rewrite fn_lookup_insert|rewrite fn_lookup_insert_ne by done; apply (cu_nodup _ _ _ HP)].
        apply NoDup_app. split_and!; [apply (cu_nodup _ _ _ HP)| |apply NoDup_singleton].
        intros c [Hc _]%(cu_rows _ _ _ HP) ->%list_elem_of_singleton. lia.
      * intros q c. rewrite Hnext, <- (cu_rows _ _ _ HP). destruct (decide (p = q)) as [<-|]; [rewrite fn_lookup_insert|rewrite fn_lookup_insert_ne by done]; set_solver.
      * intros Hr. apply (cu_root _ _ _ HP). lia.
      * intros c q Hc Hcq. destruct (proj1 (Hnext c q) (conj Hc Hcq)) as [[? ?]|[-> [= <-]]]; [by eapply (cu_range _ _ _ HP)|done].
    + rewrite lookup_ge_None_2 by (rewrite (proj1 (cu_array _ _ _ HP)); lia). msimpl. right. split; [done|].
      exists k, p. split_and!; [done|done|lia].
  - exists P. split; [apply HP|apply HP| |by subst k|].
    + intros q c. rewrite Hnext, <- (cu_rows _ _ _ HP). naive_solver.
    + intros c q Hc Hcq. destruct (proj1 (Hnext c q) (conj Hc Hcq)) as [[? ?]|[_ ?]]; [by eapply (cu_range _ _ _ HP)|done].
  - exists P. split; [apply HP|apply HP| | |].
    + intros q c. rewrite Hnext, <- (cu_rows _ _ _ HP). naive_solver.
    + intros Hr. apply (cu_root _ _ _ HP). lia.
    + intros c q Hc Hcq. destruct (proj1 (Hnext c q) (conj Hc Hcq)) as [[? ?]|[_ ?]]; [by eapply (cu_range _ _ _ HP)|done].
Qed.
End children.

(** ** The event loop *)

Definition enters (events : list Event) : list nat := omap (fun e => match e with Enter b _ => Some b | Exit _ => None end) events.
Definition opens (events : list Event) : list nat := omap (fun e => match e with Exit b => Some b | Enter _ _ => None end) events.

Lemma enters_row row d events : enters (((fun child => Enter child d) <$> row) ++ events) = row ++ enters events.
Proof. unfold enters. rewrite omap_app. f_equal. induction row as [|c row IH]; [done|]. csimpl. by rewrite IH. Qed.
Lemma opens_row row d events : opens (((fun child => Enter child d) <$> row) ++ events) = opens events.
Proof. unfold opens. rewrite omap_app. induction row as [|c row IH]; [done|]. csimpl. done. Qed.

(** Turns left: two for each block not entered, one for each open one. *)
Definition unentered (l : list (option nat)) : nat := length (filter (fun o => o = None) l).

Lemma unentered_insert l b i : l !! b = Some None -> unentered l = S (unentered (<[b := Some i]> l)).
Proof.
  unfold unentered. revert b. induction l as [|o l IH]; intros [|b] Hb; [done|done| |]; cbn in Hb.
  - injection Hb as ->. cbn [insert list_insert]. rewrite !filter_cons. by rewrite decide_True, decide_False by done.
  - cbn [insert list_insert]. rewrite !filter_cons. case_decide; cbn [length]; rewrite (IH b Hb); done.
Qed.

Section events.
Context (idom : list (option nat)) (root : nat).
Abbreviation n := (length idom).
Context (Hroot : (root < n)%nat) (Hnone : idom !! root = Some None).
Context (Hrange : forall c p, idom !! c = Some (Some p) -> (p < n)%nat).
Implicit Types (b c d p x y : nat) (events : list Event) (en ex dp : nat -> option nat).

(** [c] hangs below the innermost open block, at depth [d]. *)
Definition hangs dp events c d : Prop :=
  match opens events with
  | [] => c = root /\ d = 0%nat
  | p :: _ => idom !! c = Some (Some p) /\ exists d', dp p = Some d' /\ d = S d'
  end.

Fixpoint stacked dp events : Prop :=
  match events with
  | [] => True
  | Enter c d :: events => hangs dp events c d /\ stacked dp events
  | Exit b :: events => (exists d, hangs dp events b d) /\ stacked dp events
  end.

(** The intervals of the blocks entered so far. *)
Record times_ok en ex (time : nat) : Prop := {
  tm_enter x i : en x = Some i -> (i < time)%nat;
  tm_exit x j : ex x = Some j -> (j < time)%nat /\ exists i, en x = Some i /\ (i < j)%nat;
  tm_parent c p i : idom !! c = Some (Some p) -> en c = Some i ->
    (exists i', en p = Some i' /\ (i' < i)%nat) /\ forall j, ex p = Some j -> exists j', ex c = Some j' /\ (j' < j)%nat;
  tm_siblings c c' p i i' : idom !! c = Some (Some p) -> idom !! c' = Some (Some p) -> c <> c' -> en c = Some i -> en c' = Some i' ->
    (exists j, ex c = Some j /\ (j < i')%nat) \/ (exists j, ex c' = Some j /\ (j < i)%nat) }.

Record events_inv en ex dp (time : nat) events : Prop := {
  ei_times : times_ok en ex time;
  ei_nodup : NoDup (enters events);
  ei_fresh c : c ∈ enters events -> en c = None;
  ei_known c : c ∈ enters events \/ en c <> None <-> c = root \/ exists p, idom !! c = Some (Some p) /\ en p <> None;
  ei_open b : b ∈ opens events <-> en b <> None /\ ex b = None;
  ei_stacked : stacked dp events;
  ei_depth b : en b <> None -> (b = root -> dp b = Some 0%nat) /\
    forall p, idom !! b = Some (Some p) -> exists d, dp p = Some d /\ dp b = Some (S d);
  ei_no_depth b : en b = None -> dp b = None }.

Lemma hangs_known en ex dp time c d events : events_inv en ex dp time (Enter c d :: events) -> (c < n)%nat.
Proof.
  intros Hi. destruct (proj1 (ei_known _ _ _ _ _ Hi c)) as [->|(p & Hp & _)]; [left; by left|done|eauto with index].
Qed.

(** Open blocks are ancestors of the innermost one. *)
Lemma opens_above dp events p l x : stacked dp events -> opens events = p :: l -> x ∈ p :: l -> above idom x p.
Proof.
  revert p l. induction events as [|e events IH]; intros p l Hs Ho Hx; [done|]. destruct e as [c d|b].
  - cbn in Ho. destruct Hs as [_ Hs]. by apply (IH p l).
  - cbn in Ho. injection Ho as <- Hl. destruct Hs as [[d Hh] Hs]. apply elem_of_cons in Hx as [->|Hx]; [constructor|].
    unfold hangs in Hh. unfold opens in Hh. rewrite Hl in Hh. destruct l as [|q l]; [by apply not_elem_of_nil in Hx|].
    destruct Hh as [Hb _]. econstructor; [exact Hb|]. by apply (IH q l).
Qed.

Lemma above_enter en ex time x y i : times_ok en ex time -> above idom x y -> en y = Some i -> exists i', en x = Some i' /\ (i' <= i)%nat.
Proof.
  intros Ht Ha. revert i. induction Ha as [|y p Hp Ha IH]; intros i Hy; [by exists i|].
  destruct (tm_parent _ _ _ Ht y p i Hp Hy) as [(i1 & Hp1 & Hlt) _]. destruct (IH i1 Hp1) as (i2 & Hx & Hle). exists i2. split; [done|lia].
Qed.

(** A block that hangs below the innermost open block is not an ancestor of an
    open block. *)
Lemma hangs_not_open en ex dp time events c d i : times_ok en ex time -> stacked dp events -> hangs dp events c d -> en c = Some i ->
  (forall x, x ∈ opens events -> en x <> None) -> c ∉ opens events.
Proof.
  intros Ht Hs Hh Hc Hopen Hin. unfold hangs in Hh. destruct (opens events) as [|p l] eqn:Ho; [by apply not_elem_of_nil in Hin|].
  destruct Hh as [Hp _]. destruct (tm_parent _ _ _ Ht c p i Hp Hc) as [(i1 & Hp1 & Hlt) _].
  destruct (above_enter _ _ _ _ _ _ Ht (opens_above dp events p l c Hs Ho Hin) Hp1) as (i2 & Hc2 & Hle). simplify_eq. lia.
Qed.

Lemma enter_times en ex dp time b d events : events_inv en ex dp time (Enter b d :: events) ->
  times_ok (<[b := Some time]> en) ex (S time).
Proof.
  intros Hi. pose proof (ei_times _ _ _ _ _ Hi) as Ht. pose proof (ei_fresh _ _ _ _ _ Hi b ltac:(by left)) as Hb.
  destruct (ei_stacked _ _ _ _ _ Hi) as [Hh Hs]. assert (Hself : forall p, idom !! b = Some (Some p) -> b <> p /\ en p <> None).
  { intros p Hp. destruct (proj1 (ei_known _ _ _ _ _ Hi b)) as [->|(q & Hq & Hqe)]; [left; by left|congruence|].
    simplify_eq. split; [congruence|done]. }
  (* the siblings entered before are closed *)
  assert (Hsib : forall c p i, idom !! b = Some (Some p) -> idom !! c = Some (Some p) -> c <> b -> en c = Some i -> exists j, ex c = Some j /\ (j < time)%nat).
  { intros c p i Hbp Hcp Hne Hc. destruct (ex c) as [j|] eqn:Hex; [exists j; split; [done|by apply (tm_exit _ _ _ Ht c)]|]. exfalso.
    assert (Ho : c ∈ opens events) by (apply (ei_open _ _ _ _ _ Hi); split; [congruence|done]).
    assert (Hch : hangs dp events c d) by (unfold hangs in *; destruct (opens events) as [|q l]; [destruct Hh; congruence|]; destruct Hh as [? ?]; simplify_eq; done).
    exact (hangs_not_open en ex dp time events c d i Ht Hs Hch Hc (fun x Hx => proj1 (proj1 (ei_open _ _ _ _ _ Hi x) Hx)) Ho). }
  split.
  - intros x i. destruct (decide (x = b)) as [->|]; [rewrite fn_lookup_insert; intros [= <-]; lia|]. rewrite fn_lookup_insert_ne by done.
    intros Hx%(tm_enter _ _ _ Ht). lia.
  - intros x j Hx. destruct (tm_exit _ _ _ Ht x j Hx) as (? & i & Hi' & Hlt). split; [lia|]. exists i. rewrite fn_lookup_insert_ne by congruence. done.
  - intros c p i Hcp Hc. destruct (decide (c = b)) as [->|Hne].
    + rewrite fn_lookup_insert in Hc. injection Hc as <-. destruct (Hself p Hcp) as [Hbp Hpe]. rewrite fn_lookup_insert_ne by done.
      destruct (en p) as [i'|] eqn:Hp; [|done]. split; [exists i'; split; [done|by apply (tm_enter _ _ _ Ht p)]|]. intros j Hj. exfalso.
      unfold hangs in Hh. destruct (opens events) as [|q l] eqn:Ho; [destruct Hh; congruence|]. destruct Hh as [Hq _]. assert (q = p) as -> by congruence.
      assert (Hpo : p ∈ opens (Enter b d :: events)) by (cbn; unfold opens in Ho; rewrite Ho; by left).
      apply (ei_open _ _ _ _ _ Hi) in Hpo as [_ ?]. congruence.
    + rewrite fn_lookup_insert_ne in Hc by done. destruct (tm_parent _ _ _ Ht c p i Hcp Hc) as [(i' & Hp & Hlt) Hj]. split; [|done].
      exists i'. rewrite fn_lookup_insert_ne by congruence. done.
  - intros c c' p i i' Hc Hc' Hne Hi1 Hi2. destruct (decide (c = b)) as [->|]; [|destruct (decide (c' = b)) as [->|]].
    + rewrite fn_lookup_insert in Hi1. rewrite fn_lookup_insert_ne in Hi2 by done. injection Hi1 as <-. right. by apply (Hsib c' p i').
    + rewrite fn_lookup_insert in Hi2. rewrite fn_lookup_insert_ne in Hi1 by done. injection Hi2 as <-. left. by apply (Hsib c p i).
    + rewrite fn_lookup_insert_ne in Hi1, Hi2 by done. by apply (tm_siblings _ _ _ Ht c c' p).
Qed.

Lemma stacked_row dp b d row events : (forall c, c ∈ row -> idom !! c = Some (Some b)) -> dp b = Some d -> stacked dp (Exit b :: events) ->
  stacked dp (((fun child => Enter child (S d)) <$> row) ++ Exit b :: events).
Proof.
  intros Hrow Hd Hs. induction row as [|c row IH]; [done|]. cbn. split; [|apply IH; intros; apply Hrow; by right].
  unfold hangs. rewrite opens_row. cbn. split; [apply Hrow; by left|]. by exists d.
Qed.

Lemma hangs_ext dp dp' events c d : (forall x, x ∈ opens events -> dp' x = dp x) -> hangs dp events c d -> hangs dp' events c d.
Proof.
  unfold hangs. destruct (opens events) as [|p l]; [done|]. intros Hx (Hc & d' & Hp & ->). split; [done|]. exists d'.
  by rewrite (Hx p) by (by left).
Qed.

Lemma stacked_ext dp dp' events : (forall x, x ∈ opens events -> dp' x = dp x) -> stacked dp events -> stacked dp' events.
Proof.
  induction events as [|[c d|b] events IH]; intros Hx; [done|..]; cbn.
  - intros [Hh Hs]. split; [by eapply hangs_ext|by apply IH].
  - intros [[d Hh] Hs]. split; [exists d; eapply hangs_ext; [|done]; intros x ?; apply Hx; by right|]. apply IH; [|done].
    intros x ?. apply Hx. by right.
Qed.

Lemma enter_inv en ex dp time b d events row : events_inv en ex dp time (Enter b d :: events) ->
  NoDup row -> (forall c, c ∈ row <-> idom !! c = Some (Some b)) ->
  events_inv (<[b := Some time]> en) ex (<[b := Some d]> dp) (S time) (((fun child => Enter child (S d)) <$> row) ++ Exit b :: events).
Proof.
  intros Hi Hnd Hrow. pose proof (enter_times _ _ _ _ _ _ _ Hi) as Ht'. destruct Hi as [Ht Hen Hfresh Hknown Hopen [Hh Hs] Hdepth Hno].
  assert (Hb : en b = None) by (apply Hfresh; by left). cbn in Hen. apply NoDup_cons in Hen as [Hbe Hen].
  assert (Hent : forall x, (<[b := Some time]> en) x <> None <-> x = b \/ en x <> None).
  { intros x. destruct (decide (x = b)) as [->|]; [rewrite fn_lookup_insert|rewrite fn_lookup_insert_ne by done]; naive_solver. }
  assert (Hchild : forall c, c ∈ row -> c <> b /\ en c = None /\ c ∉ enters events).
  { intros c Hc%Hrow. assert (Hcr : c <> root) by congruence. assert (Hnk : ~ (c ∈ enters (Enter b d :: events) \/ en c <> None)).
    { intros [?|(p & Hp & Hpe)]%Hknown; [done|]. congruence. }
    split_and!; [intros ->; apply Hnk; left; by left|destruct (en c) eqn:Hc'; [|done]; destruct Hnk; by right|]. intros ?. apply Hnk. left. by right. }
  assert (Hdp : forall x, x <> b -> (<[b := Some d]> dp) x = dp x) by (intros x Hx; by rewrite fn_lookup_insert_ne).
  assert (Hstk : stacked (<[b := Some d]> dp) events).
  { eapply stacked_ext; [|exact Hs]. intros x Hx. apply Hdp. intros ->. by apply Hopen in Hx as [? _]. }
  assert (Hhb : hangs (<[b := Some d]> dp) events b d).
  { eapply hangs_ext; [|exact Hh]. intros x Hx. apply Hdp. intros ->. by apply Hopen in Hx as [? _]. }
  split.
  - exact Ht'.
  - rewrite enters_row. cbn. apply NoDup_app. split_and!; [done| |done]. intros c Hc. by apply Hchild.
  - intros c. rewrite enters_row. cbn. intros [Hc|Hc]%elem_of_app.
    + destruct (Hchild c Hc) as (? & ? & _). by rewrite fn_lookup_insert_ne.
    + rewrite fn_lookup_insert_ne by (intros ->; done). apply Hfresh. by right.
  - intros c. rewrite enters_row, Hent. change (enters (Exit b :: events)) with (enters events). specialize (Hknown c). cbn in Hknown.
    rewrite elem_of_cons in Hknown. rewrite elem_of_app, Hrow. setoid_rewrite Hent. destruct Hknown as [H1 H2]. split.
    + intros [[Hc|Hc]|[Hc|Hc]]; [right; exists b; tauto|destruct H1 as [?|(p & ? & ?)]; [tauto|by left|right; exists p; tauto]..].
    + intros [Hc|(p & Hp & [->|Hpe])]; [destruct H2 as [[?|?]|?]; tauto|tauto|destruct H2 as [[?|?]|?]; [right; by exists p|tauto..]].
  - intros x. rewrite opens_row, Hent. change (opens (Exit b :: events)) with (b :: opens events).
    rewrite elem_of_cons. specialize (Hopen x). cbn in Hopen. rewrite Hopen. split; [|tauto].
    intros [->|[? ?]]; [split; [by left|]|tauto]. destruct (ex b) as [j|] eqn:Hex; [|done].
    destruct (tm_exit _ _ _ Ht b j Hex) as (_ & i & ? & _). congruence.
  - apply stacked_row; [by intros c ?%Hrow|by rewrite fn_lookup_insert|]. split; [by exists d|done].
  - intros x Hx%Hent. destruct (decide (x = b)) as [->|Hne].
    + rewrite fn_lookup_insert. unfold hangs in Hhb. destruct (opens events) as [|q l].
      * destruct Hhb as [-> ->]. split; [done|]. intros p Hp. congruence.
      * destruct Hhb as (Hq & d' & Hqd & ->). split; [intros ->; congruence|]. intros p Hp. assert (p = q) as -> by congruence. by exists d'.
    + destruct Hx as [?|Hx]; [done|]. rewrite (Hdp x) by done. destruct (Hdepth x Hx) as [H1 H2]. split; [done|]. intros p Hp.
      destruct (H2 p Hp) as (d' & Hd' & ?). exists d'. split; [|done]. rewrite Hdp; [done|]. intros ->.
      destruct (en x) as [i|] eqn:Hxi; [|done]. destruct (tm_parent _ _ _ Ht x b i Hp Hxi) as [(i' & Hb' & _) _]. congruence.
  - intros x Hx. assert (Hxb : ~ (x = b \/ en x <> None)) by (intros ?%Hent; done). rewrite Hdp by tauto.
    apply Hno. destruct (en x); [destruct Hxb; by right|done].
Qed.

Lemma exit_inv en ex dp time b events : events_inv en ex dp time (Exit b :: events) ->
  events_inv en (<[b := Some time]> ex) dp (S time) events /\ b ∉ opens events.
Proof.
  intros [Ht Hen Hfresh Hknown Hopen [[d Hh] Hs] Hdepth Hno]. destruct (proj1 (Hopen b) ltac:(by left)) as [Hb Hbx].
  destruct (en b) as [i|] eqn:Hbi; [|done]. clear Hb. assert (Hin : forall x, x ∈ opens events -> en x <> None).
  { intros x Hx. apply (proj1 (Hopen x)). by right. }
  pose proof (hangs_not_open en ex dp time events b d i Ht Hs Hh Hbi Hin) as Hbo. split; [|done].
  (* the entered children are closed *)
  assert (Hclosed : forall c k, idom !! c = Some (Some b) -> en c = Some k -> exists j, ex c = Some j /\ (j < time)%nat).
  { intros c k Hc Hck. destruct (ex c) as [j|] eqn:Hcx; [exists j; split; [done|by apply (tm_exit _ _ _ Ht c)]|]. exfalso.
    destruct (tm_parent _ _ _ Ht c b k Hc Hck) as [(i' & Hb' & Hlt) _]. assert (i' = i) as -> by congruence.
    assert (Hco : c ∈ opens (Exit b :: events)) by (apply Hopen; split; [congruence|done]).
    assert (Hcb : above idom c b) by (eapply (opens_above dp (Exit b :: events)); [split; [by exists d|done]|done|done]).
    destruct (above_enter _ _ _ _ _ _ Ht Hcb Hbi) as (i2 & Hc2 & Hle). assert (i2 = k) as -> by congruence. lia. }
  assert (Hmono : forall x j, ex x = Some j -> (<[b := Some time]> ex) x = Some j) by (intros x j Hx; rewrite fn_lookup_insert_ne by congruence; done).
  split; [split| | |done| |done|done|done].
  - intros x k Hx%(tm_enter _ _ _ Ht). lia.
  - intros x j. destruct (decide (x = b)) as [->|]; [rewrite fn_lookup_insert|rewrite fn_lookup_insert_ne by done].
    + intros [= <-]. split; [lia|]. exists i. split; [done|by apply (tm_enter _ _ _ Ht b)].
    + intros Hx. destruct (tm_exit _ _ _ Ht x j Hx). split; [lia|done].
  - intros c p k Hc Hck. destruct (tm_parent _ _ _ Ht c p k Hc Hck) as [Hp Hj]. split; [done|]. intros j.
    destruct (decide (p = b)) as [->|]; [rewrite fn_lookup_insert|rewrite fn_lookup_insert_ne by done].
    + intros [= <-]. destruct (Hclosed c k Hc Hck) as (j & Hj' & ?). exists j. split; [by apply Hmono|done].
    + intros (j' & Hj' & ?)%Hj. exists j'. split; [by apply Hmono|done].
  - intros c c' p k k' Hc Hc' Hne Hk Hk'.
    destruct (tm_siblings _ _ _ Ht c c' p k k' Hc Hc' Hne Hk Hk') as [(j & Hj & ?)|(j & Hj & ?)]; [left|right]; exists j; (split; [by apply Hmono|done]).
  - done.
  - done.
  - intros x. specialize (Hopen x). change (opens (Exit b :: events)) with (b :: opens events) in Hopen. rewrite elem_of_cons in Hopen.
    destruct (decide (x = b)) as [->|Hne]; [rewrite fn_lookup_insert|rewrite fn_lookup_insert_ne by done]; [|tauto].
    split; [done|by intros [_ ?]].
Qed.

Lemma events_initial : events_inv (fun _ => None) (fun _ => None) (fun _ => None) 0 [Enter root 0].
Proof.
  split; cbn; try done.
  - apply NoDup_singleton.
  - intros c. rewrite list_elem_of_singleton. naive_solver.
  - intros b. split; [by intros ?%not_elem_of_nil|by intros [? _]].
Qed.
Section loop.
Context (children : graph) (Hchildren : forall b, (b < n)%nat -> exists row, children !! b = Some row /\ NoDup row /\
  forall c, c ∈ row <-> idom !! c = Some (Some b)).

Record clock_ok en ex dp (st : tree_clock) : Prop := {
  ck_enter : array n en (tc_enter st);
  ck_exit : array n ex (tc_exit st);
  ck_depth : array n dp (tc_depth st) }.

Definition turns (st : tree_clock) events : nat := (2 * unentered (tc_enter st) + length (opens events))%nat.

Lemma number_events_spec fuel events st en ex dp : clock_ok en ex dp st -> events_inv en ex dp (time st) events ->
  (forall b, b ∈ opens events -> (b < n)%nat) -> (turns st events <= fuel)%nat ->
  exists st' en' ex' dp', number_events fuel children events st = Ok st' /\ clock_ok en' ex' dp' st' /\
    events_inv en' ex' dp' (time st') [] /\ (time st' <= time st + turns st events)%nat.
Proof.
  revert events st en ex dp. induction fuel as [|fuel IH]; intros events st en ex dp [Hen Hex Hdp] Hi Hlt Hfuel; destruct events as [|[b d|b] events].
  1,4: exists st, en, ex, dp; split_and!; [done|done|done|lia].
  - pose proof (hangs_known _ _ _ _ _ _ _ Hi) as Hb. pose proof (array_lookup _ _ _ b Hen Hb) as Hel. rewrite (ei_fresh _ _ _ _ _ Hi b ltac:(by left)) in Hel.
    pose proof (unentered_insert _ _ 0%nat Hel). unfold turns in Hfuel. lia.
  - unfold turns in Hfuel. cbn in Hfuel. lia.
  - pose proof (hangs_known _ _ _ _ _ _ _ Hi) as Hb. pose proof (array_lookup _ _ _ b Hen Hb) as Hel. rewrite (ei_fresh _ _ _ _ _ Hi b ltac:(by left)) in Hel.
    destruct (Hchildren b Hb) as (row & Hrow & Hnd & Hin). cbn [number_events]. rewrite Hel. msimpl. unfold vset. rewrite (proj1 Hdp), decide_True by done.
    msimpl. rewrite Hrow. msimpl. pose proof (unentered_insert _ _ (time st) Hel) as Hcount.
    set (st1 := TC _ _ _ _). assert (Hturns : turns st (Enter b d :: events) = S (turns st1 (((fun child => Enter child (S d)) <$> row) ++ Exit b :: events))).
    { unfold turns. rewrite opens_row. unfold st1. cbn [tc_enter]. change (opens (Exit b :: events)) with (b :: opens events).
      change (opens (Enter b d :: events)) with (opens events). cbn [length]. lia. }
    destruct (IH (((fun child => Enter child (S d)) <$> row) ++ Exit b :: events) st1 (<[b := Some (time st)]> en) ex (<[b := Some d]> dp))
      as (st' & en' & ex' & dp' & Hrun & Hck & Hi' & Htime).
    + split; cbn; [by apply array_insert|done|by apply array_insert].
    + by apply enter_inv.
    + intros x. rewrite opens_row. intros [->|Hx]%elem_of_cons; [done|by apply Hlt].
    + lia.
    + exists st', en', ex', dp'. split_and!; [done|done|done|]. cbn [time st1] in Htime. lia.
  - assert (Hb : (b < n)%nat) by (apply Hlt; by left). destruct (exit_inv _ _ _ _ _ _ Hi) as [Hi1 _].
    cbn [number_events]. unfold vset. rewrite (proj1 Hex), decide_True by done. msimpl.
    destruct (IH events (TC (tc_enter st) (<[b := Some (time st)]> (tc_exit st)) (tc_depth st) (S (time st))) en (<[b := Some (time st)]> ex) dp)
      as (st' & en' & ex' & dp' & Hrun & Hck & Hi' & Htime).
    + split; cbn; [done|by apply array_insert|done].
    + done.
    + intros x Hx. apply Hlt. by right.
    + unfold turns in *. cbn [tc_enter]. change (opens (Exit b :: events)) with (b :: opens events) in Hfuel. cbn [length] in Hfuel. lia.
    + exists st', en', ex', dp'. split_and!; [done|done|done|]. unfold turns in *. cbn [tc_enter time] in *.
      change (opens (Exit b :: events)) with (b :: opens events). cbn [length]. lia.
Qed.

End loop.

(** ** Nesting *)

Section nesting.
Context (en ex dp : nat -> option nat) (time : nat) (Hi : events_inv en ex dp time []).

Lemma entered_connected b : en b <> None <-> above idom root b.
Proof.
  split.
  - destruct (en b) as [i|] eqn:Hb; [intros _|done]. revert b Hb. induction (Nat.lt_wf_0 i) as [i _ IH]. intros b Hb.
    destruct (proj1 (ei_known _ _ _ _ _ Hi b)) as [->|(p & Hp & _)]; [right; congruence|constructor|].
    destruct (tm_parent _ _ _ (ei_times _ _ _ _ _ Hi) b p i Hp Hb) as [(i' & Hp' & Hlt) _]. econstructor; [exact Hp|]. by apply (IH i').
  - induction 1 as [|b p Hp Ha IH].
    + destruct (proj2 (ei_known _ _ _ _ _ Hi root)) as [?%not_elem_of_nil|?]; [by left|done|done].
    + destruct (proj2 (ei_known _ _ _ _ _ Hi b)) as [?%not_elem_of_nil|?]; [right; exists p; auto|done|done].
Qed.

Lemma entered_times b : above idom root b -> exists i j, en b = Some i /\ ex b = Some j /\ (i < j)%nat.
Proof.
  intros Hb%entered_connected. destruct (ex b) as [j|] eqn:Hx.
  - destruct (tm_exit _ _ _ (ei_times _ _ _ _ _ Hi) b j Hx) as (_ & i & ? & ?). by exists i, j.
  - pose proof (proj2 (ei_open _ _ _ _ _ Hi b) (conj Hb Hx)) as Ho. by apply not_elem_of_nil in Ho.
Qed.

(** The interval of [b] is inside that of [a]. *)
Definition inside a b : Prop := exists i j i' j', en a = Some i /\ ex a = Some j /\ en b = Some i' /\ ex b = Some j' /\ (i <= i')%nat /\ (j' <= j)%nat.
Definition apart a b : Prop := exists i j i' j', en a = Some i /\ ex a = Some j /\ en b = Some i' /\ ex b = Some j' /\ ((j < i')%nat \/ (j' < i)%nat).

Lemma parent_inside p c : above idom root p -> idom !! c = Some (Some p) ->
  inside p c /\ forall i i', en p = Some i -> en c = Some i' -> (i < i')%nat.
Proof.
  intros Hp Hc. destruct (entered_times p Hp) as (i & j & Hi1 & Hj1 & _).
  destruct (entered_times c ltac:(by econstructor)) as (i' & j' & Hi2 & Hj2 & _).
  destruct (tm_parent _ _ _ (ei_times _ _ _ _ _ Hi) c p i' Hc Hi2) as [(i1 & ? & ?) Hj]. destruct (Hj j Hj1) as (j1 & ? & ?). simplify_eq.
  split; [exists i, j, i', j'; split_and!; done || lia|]. intros; simplify_eq; done.
Qed.

Lemma above_connected x y : above idom x y -> above idom root y -> above idom root x.
Proof.
  intros Hxy Hy. destruct (above_linear _ _ _ _ Hxy Hy) as [Hxr|?]; [|done]. inversion Hxr as [|? p Hp _]; subst; [constructor|congruence].
Qed.

Lemma above_inside x y : above idom root y -> above idom x y -> inside x y.
Proof.
  intros Hy. induction 1 as [|y p Hp Ha IH].
  - destruct (entered_times x Hy) as (i & j & ? & ? & ?). by exists i, j, i, j.
  - assert (Hpc : above idom root p) by (eapply above_connected; [|exact Hy]; econstructor; [exact Hp|constructor]).
    destruct (IH Hpc) as (i & j & i1 & j1 & ? & ? & ? & ? & ? & ?). destruct (parent_inside p y Hpc Hp) as [(i2 & j2 & i3 & j3 & ? & ? & ? & ? & ? & ?) _].
    simplify_eq. exists i, j, i3, j3. split_and!; done || lia.
Qed.

Lemma apart_inside a b c : apart a c -> inside a b -> above idom root b -> apart b c.
Proof.
  intros (i & j & i' & j' & ? & ? & ? & ? & Hd) (i1 & j1 & i2 & j2 & ? & ? & ? & ? & ? & ?) Hb. simplify_eq.
  exists i2, j2, i', j'. split_and!; [done..|lia].
Qed.

(** Two connected blocks are related or apart. *)
Lemma related_or_apart x y : above idom root x -> above idom root y -> above idom x y \/ above idom y x \/ apart x y.
Proof.
  intros Hx Hy. induction Hx as [|x p Hp Hx IH]; [by left|].
  assert (Hxc : above idom root x) by (by econstructor). destruct (parent_inside p x Hx Hp) as [Hpx Hlt].
  destruct IH as [Hpy|[Hyp|Hap]]; [|right; left; by econstructor|right; right; by eapply apart_inside].
  (* the child of p towards y is x or a sibling of it *)
  assert (Hc : p = y \/ exists c, idom !! c = Some (Some p) /\ above idom c y).
  { clear -Hpy. induction Hpy as [|y q Hq Ha IH]; [by left|]. right. destruct IH as [->|(c & Hc & Hcq)]; [exists y; split; [done|constructor]|].
    exists c. split; [done|]. by econstructor. }
  destruct Hc as [->|(c & Hc & Hcy)]; [right; left; econstructor; [exact Hp|constructor]|].
  destruct (decide (c = x)) as [->|Hne]; [by left|]. right. right.
  assert (Hcc : above idom root c) by (by econstructor). destruct (entered_times c Hcc) as (i & j & Hi1 & Hj1 & _). destruct (entered_times x Hxc) as (i' & j' & Hi2 & Hj2 & _).
  destruct (above_inside c y Hy Hcy) as (i1 & j1 & i2 & j2 & ? & ? & ? & ? & ? & ?). simplify_eq. exists i', j', i2, j2. split_and!; [done..|].
  destruct (tm_siblings _ _ _ (ei_times _ _ _ _ _ Hi) x c p i' i Hp Hc ltac:(done) Hi2 Hi1) as [(k & Hk & ?)|(k & Hk & ?)]; simplify_eq; lia.
Qed.

(** Intervals nest as the links do. *)
Lemma inside_above x y : above idom root x -> above idom root y -> inside x y <-> above idom x y.
Proof.
  intros Hx Hy. split; [|by apply above_inside]. intros (i & j & i' & j' & Hi1 & Hj1 & Hi2 & Hj2 & ? & ?).
  destruct (related_or_apart x y Hx Hy) as [?|[Hyx|(i1 & j1 & i2 & j2 & ? & ? & ? & ? & ?)]]; [done| |].
  - destruct Hyx as [|x p Hp Hyp]; [constructor|]. assert (Hpc : above idom root p) by (eapply above_connected; [|exact Hx]; econstructor; [exact Hp|constructor]).
    destruct (above_inside y p Hpc Hyp) as (a & b & a' & b' & ? & ? & Hap & ? & ? & ?). destruct (parent_inside p x Hpc Hp) as [_ Hlt].
    specialize (Hlt a' i Hap Hi1). simplify_eq. lia.
  - destruct (entered_times x Hx) as (a & b & ? & ? & ?). destruct (entered_times y Hy) as (a' & b' & ? & ? & ?). simplify_eq. lia.
Qed.

Lemma depth_bound b d : dp b = Some d -> (d < time)%nat.
Proof.
  intros Hd. destruct (en b) as [i|] eqn:Hb; [|rewrite (ei_no_depth _ _ _ _ _ Hi b Hb) in Hd; done].
  assert (Hc : above idom root b) by (apply entered_connected; congruence). pose proof (tm_enter _ _ _ (ei_times _ _ _ _ _ Hi) b i Hb).
  assert (d <= i)%nat; [|lia]. clear -Hi Hc Hd Hb Hnone. revert d i Hd Hb.
  induction Hc as [|b p Hp Hc IH]; intros d i Hd Hb.
  - destruct (ei_depth _ _ _ _ _ Hi root) as [H0 _]; [congruence|]. rewrite (H0 eq_refl) in Hd. injection Hd as <-. lia.
  - destruct (ei_depth _ _ _ _ _ Hi b) as [_ H1]; [congruence|]. destruct (H1 p Hp) as (d' & Hd' & Hbd).
    destruct (tm_parent _ _ _ (ei_times _ _ _ _ _ Hi) b p i Hp Hb) as [(i' & Hp' & Hlt) _]. specialize (IH d' i' Hd' Hp'). simplify_eq. lia.
Qed.
End nesting.
End events.

(** ** [from_idom] *)

(** [t] is the tree of the links [idom] of the blocks that lead to [root]. *)
Record tree_ok (idom : list (option nat)) (root : nat) (t : DominatorTree) : Prop := {
  to_idom : CfgTree.idom t = idom;
  to_root : idom !! root = Some None;
  to_range c p : idom !! c = Some (Some p) -> (p < length idom)%nat;
  to_children b : (b < length idom)%nat -> exists row, children t !! b = Some row /\ NoDup row /\ StronglySorted Nat.le row /\
    forall c, c ∈ row <-> idom !! c = Some (Some b);
  to_length : length (children t) = length idom;
  to_dominates d b : dominates t d b = true <-> above idom d b /\ above idom root b;
  to_connected b : (exists d, depth t !! b = Some (Some d)) <-> above idom root b;
  to_depth_range b : (b < length idom)%nat -> exists o, depth t !! b = Some o;
  to_depth_root : depth t !! root = Some (Some 0%nat);
  to_depth b p : above idom root p -> idom !! b = Some (Some p) -> exists d, depth t !! p = Some (Some d) /\ depth t !! b = Some (Some (S d));
  to_depth_bound b d : depth t !! b = Some (Some d) -> (d < 2 * length idom)%nat }.

Lemma connected_lt idom root b : (root < length idom)%nat -> above idom root b -> (b < length idom)%nat.
Proof. intros Hr Ha. inversion Ha as [|? p Hp]; subst; [done|eauto with index]. Qed.

Lemma dominates_inside idom root t en ex dp time : (root < length idom)%nat -> idom !! root = Some None ->
  array (length idom) en (enter t) -> array (length idom) ex (exit t) -> events_inv idom root en ex dp time [] ->
  forall d b, dominates t d b = true <-> above idom d b /\ above idom root b.
Proof.
  intros Hr Hnone Hen Hex Hi d b. unfold dominates. split.
  - destruct (enter t !! d) as [[ed|]|] eqn:Hed; [|by destruct (exit t !! d)..].
    destruct (exit t !! d) as [xd|] eqn:Hxd; [|done]. destruct (enter t !! b) as [[eb|]|] eqn:Heb; [|done..].
    destruct (exit t !! b) as [xb|] eqn:Hxb; [|done]. intros [Hle%bool_decide_eq_true Hx]%andb_prop.
    assert (Hdl : (d < length idom)%nat) by (rewrite <- (proj1 Hen); eauto with index).
    assert (Hbl : (b < length idom)%nat) by (rewrite <- (proj1 Hen); eauto with index).
    rewrite (array_lookup _ _ _ d Hen) in Hed by done. rewrite (array_lookup _ _ _ d Hex) in Hxd by done.
    rewrite (array_lookup _ _ _ b Hen) in Heb by done. rewrite (array_lookup _ _ _ b Hex) in Hxb by done.
    injection Hed as Hed. injection Heb as Heb. injection Hxd as <-. injection Hxb as <-.
    assert (Hdc : above idom root d) by (apply (entered_connected idom root en ex dp time Hi); congruence).
    assert (Hbc : above idom root b) by (apply (entered_connected idom root en ex dp time Hi); congruence). split; [|done].
    apply (inside_above idom root Hr Hnone en ex dp time Hi); [done..|].
    destruct (entered_times idom root en ex dp time Hi d Hdc) as (i & j & ? & Hj & _). destruct (entered_times idom root en ex dp time Hi b Hbc) as (i' & j' & ? & Hj' & _).
    rewrite Hj, Hj' in Hx. cbn in Hx. apply bool_decide_eq_true in Hx. simplify_eq. exists ed, j, eb, j'. done.
  - intros [Ha Hb]. pose proof (above_connected idom root Hnone d b Ha Hb) as Hd.
    destruct (above_inside idom root Hr Hnone en ex dp time Hi d b Hb Ha) as (i & j & i' & j' & Hed & Hxd & Heb & Hxb & ? & ?).
    rewrite (array_lookup _ _ _ d Hen), (array_lookup _ _ _ d Hex), (array_lookup _ _ _ b Hen), (array_lookup _ _ _ b Hex) by (by eapply connected_lt).
    rewrite Hed, Hxd, Heb, Hxb. cbn. rewrite !bool_decide_true by done. done.
Qed.

(** Links are accepted exactly when the root has none and all are in range;
    the check for cycles never rejects any. *)
Lemma from_idom_spec idom root :
  match from_idom idom root with
  | Ok t => (root < length idom)%nat /\ tree_ok idom root t
  | Err (InvalidRoot r blocks) => r = root /\ blocks = length idom /\ (length idom <= root)%nat
  | Err e => bad_links idom root e
  | Panic => False
  end.
Proof.
  unfold from_idom. case_decide as Hr'; [done|]. assert (Hr : (root < length idom)%nat) by lia. pose proof (children_rows idom root) as Hch.
  destruct (foldM _ _ _) as [ch|e|]; cbn in Hch; [|msimpl|done]; last first.
  { destruct e; try done; by destruct Hch as [[? _]|[? _]]. }
  destruct Hch as (P & HP). msimpl. assert (Hnone := cu_root _ _ _ _ _ HP ltac:(lia)).
  assert (Hrange : forall c p, idom !! c = Some (Some p) -> (p < length idom)%nat) by (intros c p Hc; apply (cu_range _ _ _ _ _ HP c p); [eauto with index|done]).
  assert (Hrows : forall b, (b < length idom)%nat -> exists row, (sort_by_key id <$> ch) !! b = Some row /\ NoDup row /\ StronglySorted Nat.le row /\
    forall c, c ∈ row <-> idom !! c = Some (Some b)).
  { intros b Hb. exists (sort_by_key id (P b)). rewrite list_lookup_fmap, (array_lookup _ _ _ b (cu_array _ _ _ _ _ HP) Hb). split; [done|].
    split; [rewrite sort_by_key_permutation; apply (cu_nodup _ _ _ _ _ HP)|]. split; [exact (sort_by_key_sorted (A:=nat) id (P b))|].
    intros c. rewrite elem_of_sort_by_key, (cu_rows _ _ _ _ _ HP). split; [by intros [_ ?]|]. intros Hc. split; [eauto with index|done]. }
  set (unset := replicate (length idom) None). set (st0 := TC unset unset unset 0).
  assert (Hck : clock_ok idom (fun _ => None) (fun _ => None) (fun _ => None) st0) by (split; apply array_replicate).
  assert (Hun : unentered unset = length idom).
  { unfold unentered, unset. clear. induction (length idom) as [|k IH]; [done|]. cbn [replicate]. rewrite filter_cons, decide_True by done. cbn. by rewrite IH. }
  destruct (number_events_spec idom root Hr Hnone (sort_by_key id <$> ch)) with (fuel := (2 * length idom)%nat) (events := [Enter root 0]) (st := st0)
    (en := fun _ : nat => @None nat) (ex := fun _ : nat => @None nat) (dp := fun _ : nat => @None nat) as (st & en & ex & dp & Hrun & [Hen Hex Hdp] & Hi & Htime).
  - intros b Hb. destruct (Hrows b Hb) as (row & ? & ? & _ & ?). by exists row.
  - done.
  - by apply events_initial.
  - intros b Hb. by apply not_elem_of_nil in Hb.
  - unfold turns. cbn [tc_enter st0]. rewrite Hun. cbn. lia.
  - rewrite Hrun. msimpl. split; [lia|]. unfold turns in Htime. cbn [tc_enter st0 time] in Htime. rewrite Hun in Htime. cbn in Htime.
    assert (Hdep : forall b, above idom root b -> en b <> None) by (intros b ?; by apply (entered_connected idom root en ex dp _ Hi)).
    split; cbn; try done.
    + by rewrite length_fmap, (proj1 (cu_array _ _ _ _ _ HP)).
    + by apply (dominates_inside idom root (DomTree idom (sort_by_key id <$> ch) (tc_enter st) (tc_exit st) (tc_depth st)) en ex dp (time st)); [lia|..].
    + intros b. rewrite <- (entered_connected idom root en ex dp _ Hi). split.
      * intros [d Hd] Hb. assert (Hbl : (b < length idom)%nat) by (rewrite <- (proj1 Hdp); eauto with index). rewrite (array_lookup _ _ _ b Hdp) in Hd by done.
        rewrite (ei_no_depth _ _ _ _ _ _ _ Hi b Hb) in Hd. done.
      * intros Hb. apply (entered_connected idom root en ex dp _ Hi) in Hb as Hbc. rewrite (array_lookup _ _ _ b Hdp) by (by apply (connected_lt idom root)).
        destruct (ei_depth _ _ _ _ _ _ _ Hi b Hb) as [H0 H1]. inversion Hbc as [|? p Hp]; subst; [exists 0%nat; by rewrite H0|].
        destruct (H1 p Hp) as (d & _ & ->). by exists (S d).
    + intros b Hb. eexists. by apply (array_lookup _ _ _ b Hdp).
    + rewrite (array_lookup _ _ _ root Hdp) by lia. destruct (ei_depth _ _ _ _ _ _ _ Hi root) as [H0 _]; [apply Hdep; constructor|]. by rewrite H0.
    + intros b p Hp Hb. assert (Hbc : above idom root b) by (by econstructor). destruct (ei_depth _ _ _ _ _ _ _ Hi b (Hdep b Hbc)) as [_ H1].
      destruct (H1 p Hb) as (d & Hd & Hbd). exists d. rewrite (array_lookup _ _ _ p Hdp), (array_lookup _ _ _ b Hdp) by (by apply (connected_lt idom root)).
      by rewrite Hd, Hbd.
    + intros b d Hd. assert (Hbl : (b < length idom)%nat) by (rewrite <- (proj1 Hdp); eauto with index). rewrite (array_lookup _ _ _ b Hdp) in Hd by done.
      injection Hd as Hd. pose proof (depth_bound idom root Hr en ex dp _ Hi b d Hd). lia.
Qed.
