(* ===== verification/CfgDominators.v ===== *)
(** * CfgDominators: the dominator tree of a flow graph and its frontiers

    [CfgTree.compute] accepts what [lengauer_tarjan] accepts, and on the
    resulting tree [dominates] decides dominance and [lca] finds the nearest
    common dominator.

    The traversal of [CfgTree.dominance_frontiers] lists the blocks of the
    tree with children before parents, and the sets it builds bottom-up are
    the dominance frontiers: the blocks with a predecessor that the block
    dominates and that it does not dominate strictly. *)

From stdpp Require Import functions.
From S2P Require Import Prelude Order Graph Specs Cfg LtCorrect CfgTree CfgTreeFacts.

Implicit Types (g : graph) (t : DominatorTree) (root b d l m p r x y : nat).

(** ** Chains of immediate dominators *)

Section links.
Context (g : graph) (root : nat) (links : list (option nat)) (number : nat -> nat).
Context (Hroot : links !! root = Some None).
Context (Hlinks : forall b, reachable g root b -> b <> root -> exists p, links !! b = Some (Some p) /\ immediate_dominator g root b p).
Context (Hnumber : forall b p, links !! b = Some (Some p) -> (number p < number b)%nat).

Lemma links_dominate b : reachable g root b -> above links root b /\ forall d, above links d b <-> dominates_spec g root d b.
Proof.
  remember (number b) as k eqn:Hk. revert b Hk. induction (Nat.lt_wf_0 k) as [k _ IH]. intros b -> Hb. destruct (decide (b = root)) as [->|Hne].
  - split; [constructor|]. intros d. split.
    + intros Ha. inversion Ha as [|? p Hp]; subst; [|congruence]. intros l Hl. by apply path_start in Hl.
    + intros Hd. specialize (Hd [root] (path_one _ _)). apply list_elem_of_singleton in Hd as ->. constructor.
  - destruct (Hlinks b Hb Hne) as (p & Hp & Hpb & Hpr & Hdom). destruct (IH (number p) (Hnumber b p Hp) p eq_refl Hpr) as [Hrp Hch].
    split; [by econstructor|]. intros d. split.
    + intros Ha. inversion Ha as [|? q Hq Hdq]; subst; [by intros l Hl; eapply path_end|]. assert (q = p) as -> by congruence. by apply Hch, Hdom in Hdq as [_ ?].
    + intros Hd. destruct (decide (d = b)) as [->|Hdb]; [constructor|]. econstructor; [exact Hp|]. by apply Hch, Hdom.
Qed.
End links.

(** [t] is the dominator tree of [g]. *)
Record dominator_tree g root t : Prop := {
  dt_tree : tree_ok (idom t) root t;
  dt_length : length (idom t) = length g;
  dt_closed : closed g;
  dt_root : (root < length g)%nat;
  dt_reachable b : above (idom t) root b <-> reachable g root b;
  dt_above d b : reachable g root b -> above (idom t) d b <-> dominates_spec g root d b }.

Lemma compute_spec g root : yields (rejected g root) (dominator_tree g root) (compute g root).
Proof.
  unfold compute. pose proof (validate_edges_outcome g root) as Hv. destruct (validate_edges g root) as [[]|e|] eqn:Hg; cbn in Hv; [|by unfold lengauer_tarjan; rewrite Hg|done].
  destruct Hv as [Hroot Hclosed]. destruct (lengauer_tarjan_spec g root Hclosed Hroot) as (links & -> & Hlen & Hnone & Hun & Hdom & number & Hnumber). msimpl.
  assert (Hall : forall b, reachable g root b -> above links root b /\ forall d, above links d b <-> dominates_spec g root d b)
    by (intros b; by apply (links_dominate g root links number Hnone Hdom Hnumber)).
  assert (Hreach : forall b p, links !! b = Some (Some p) -> reachable g root b /\ reachable g root p).
  { intros b p Hp. assert (Hb : reachable g root b \/ ~ reachable g root b).
    { destruct (dfs_spec g root Hclosed Hroot (E:=CfgError)) as (st & _ & _ & _ & Hin & _). rewrite <- Hin. destruct (decide (b ∈ postorder st)); tauto. }
    destruct Hb as [Hb|Hb]; [|rewrite (Hun b) in Hp; [done|rewrite <- Hlen; eauto with index|done]]. split; [done|].
    destruct (decide (b = root)) as [->|Hne]; [congruence|]. destruct (Hdom b Hb Hne) as (q & Hq & _ & ? & _). by assert (p = q) as -> by congruence. }
  pose proof (from_idom_spec links root) as Hfrom. assert (Hbad : forall e, ~ bad_links links root e).
  { intros e [[_ (p & Hp)]|[_ (b & p & Hb & Hp & Hle)]]; [congruence|]. apply Hreach in Hp as [_ Hp]. apply reachable_lt in Hp; [lia|done..]. }
  destruct (from_idom links root) as [t|e|]; [|destruct e; try (by destruct (Hbad _ Hfrom)); lia|done].
  destruct Hfrom as [_ Ht]. pose proof (to_idom _ _ _ Ht) as Heq. subst links. split; [done..| |].
  - intros b. split; [|intros Hb; exact (proj1 (Hall b Hb))]. intros Ha. inversion Ha as [|? p Hp]; subst; [apply reachable_refl|]. by apply Hreach in Hp as [? _].
  - intros d b Hb. by apply Hall.
Qed.

(** ** Lowest common ancestors *)

Section ancestors.
Context (t : DominatorTree) (root : nat) (Ht : tree_ok (idom t) root t).
Abbreviation above := (above (idom t)).

(** [b] is connected to the root at depth [d]. *)
Definition at_depth b d : Prop := above root b /\ depth t !! b = Some (Some d).

Lemma depth_above x b d : at_depth b d -> above x b -> exists dx, at_depth x dx /\ (dx <= d)%nat /\ (dx = d -> x = b).
Proof.
  intros [Hb Hd] Hx. revert d Hd. induction Hx as [|b p Hp Hx IH]; intros d Hd; [by exists d|].
  assert (Hpc : above root p) by (eapply above_connected; [apply (to_root _ _ _ Ht)|econstructor; [exact Hp|constructor]|done]).
  destruct (to_depth _ _ _ Ht b p Hpc Hp) as (dp & Hdp & Hdb). assert (d = S dp) as -> by congruence.
  destruct (IH Hpc dp Hdp) as (dx & Hdx & Hle & _). exists dx. split; [done|]. lia.
Qed.

Lemma above_antisym a b : above root a -> above root b -> above a b -> above b a -> a = b.
Proof.
  intros Ha Hb Hab Hba. destruct (proj2 (to_connected _ _ _ Ht a) Ha) as [da Hda]. destruct (proj2 (to_connected _ _ _ Ht b) Hb) as [db Hdb].
  destruct (depth_above a b db (conj Hb Hdb) Hab) as (x & [_ Hx] & Hle & Heq). destruct (depth_above b a da (conj Ha Hda) Hba) as (y & [_ Hy] & Hle' & _).
  assert (x = da) as -> by congruence. assert (y = db) as -> by congruence. apply Heq. lia.
Qed.

Lemma depth_zero b : at_depth b 0 -> b = root.
Proof.
  intros [Hb Hd]. inversion Hb as [|? p Hp Hpc]; subst; [done|]. destruct (to_depth _ _ _ Ht b p Hpc Hp) as (dp & _ & Hdb). congruence.
Qed.

(** A connected block below depth 0 has a parent one level up. *)
Lemma depth_parent b d : at_depth b (S d) -> exists p, idom t !! b = Some (Some p) /\ at_depth p d.
Proof.
  intros [Hb Hd]. inversion Hb as [|? p Hp Hpc]; subst; [rewrite (to_depth_root _ _ _ Ht) in Hd; congruence|].
  destruct (to_depth _ _ _ Ht b p Hpc Hp) as (dp & Hdp & Hdb). exists p. split; [done|]. split; [done|]. congruence.
Qed.

Lemma above_link x b p : idom t !! b = Some (Some p) -> above x b <-> x = b \/ above x p.
Proof. intros Hp. split; [|intros [->|?]; [constructor|by econstructor]]. intros Hx. inversion Hx; subst; [by left|]. right. congruence. Qed.

Lemma raise_spec {E} fuel x y dx dy : at_depth x dx -> at_depth y dy -> (dx <= fuel)%nat ->
  exists z dz, raise fuel t x y = Ok (Some z) :> result E _ /\ at_depth z dz /\ (dz <= dy)%nat /\ ((dy <= dx)%nat -> dz = dy) /\
    ((dx <= dy)%nat -> z = x) /\ forall d, above d y -> above d z <-> above d x.
Proof.
  intros Hx Hy Hfuel. revert x dx Hx Hfuel. induction fuel as [|fuel IH]; intros x dx Hx Hfuel; cbn [raise];
    rewrite (proj2 Hx), (proj2 Hy); msimpl; unfold lt_max, le_max; (case_bool_decide as Hle; cbn [negb]; [exists x, dx; split_and!; [done|done|lia|lia|done|done]|]).
  - lia.
  - destruct dx as [|dx]; [lia|]. destruct (depth_parent x dx Hx) as (p & Hp & Hpd). rewrite Hp. msimpl.
    destruct (IH p dx Hpd ltac:(lia)) as (z & dz & -> & Hz & Hle1 & Hle2 & _ & Hsame). exists z, dz. split_and!; [done|done|lia|lia|lia|].
    intros d Hd. rewrite (Hsame d Hd), (above_link d x p Hp). split; [by right|]. intros [->|?]; [|done]. exfalso.
    destruct (depth_above x y dy Hy Hd) as (dx' & [_ Hdx'] & Hle' & _). destruct Hx as [_ Hx]. assert (dx' = S dx) as -> by congruence. lia.
Qed.

Lemma meet_spec {E} fuel l r dl : at_depth l dl -> at_depth r dl -> (dl <= fuel)%nat ->
  exists m, meet fuel t l r = Ok (Some m) :> result E _ /\ forall d, above d m <-> above d l /\ above d r.
Proof.
  revert l r dl. induction fuel as [|fuel IH]; intros l r dl Hl Hr Hfuel; cbn [meet]; (case_decide as Heq; [subst r; exists l; split; [done|tauto]|]).
  - assert (dl = 0%nat) as -> by lia. by rewrite (depth_zero l Hl), (depth_zero r Hr) in Heq.
  - destruct dl as [|dl]; [by rewrite (depth_zero l Hl), (depth_zero r Hr) in Heq|].
    destruct (depth_parent l dl Hl) as (pl & Hpl & Hpld). destruct (depth_parent r dl Hr) as (pr & Hpr & Hprd). rewrite Hpl, Hpr. msimpl.
    destruct (IH pl pr dl Hpld Hprd ltac:(lia)) as (m & -> & Hm). exists m. split; [done|]. intros d. rewrite Hm, (above_link d l pl Hpl), (above_link d r pr Hpr).
    split; [tauto|]. assert (Hno : forall a pb, at_depth a (S dl) -> at_depth pb dl -> ~ above a pb).
    { intros a pb [_ Ha] Hpb Hab. destruct (depth_above a pb dl Hpb Hab) as (da & [_ Hda] & ? & _). assert (da = S dl) as -> by congruence. lia. }
    intros [[->|?] [->|?]]; try done; exfalso; [by apply (Hno l pr)|by apply (Hno r pl)].
Qed.

(** The nearest common ancestor of connected blocks; none for others. *)
Lemma lca_spec {E} l r :
  (above root l /\ above root r -> exists m, lca t l r = Ok (Some m) :> result E _ /\ forall d, above d m <-> above d l /\ above d r) /\
  (~ (above root l /\ above root r) -> lca t l r = Ok None :> result E _).
Proof.
  unfold lca. split.
  - intros [Hl Hr]. destruct (proj2 (to_connected _ _ _ Ht l) Hl) as [dl Hdl]. destruct (proj2 (to_connected _ _ _ Ht r) Hr) as [dr Hdr].
    rewrite Hdl, Hdr. pose proof (to_depth_bound _ _ _ Ht l dl Hdl). pose proof (to_depth_bound _ _ _ Ht r dr Hdr).
    destruct (raise_spec (E:=E) (2 * length (idom t)) l r dl dr) as (l' & dl' & -> & Hl' & Hle & Heq & Hsame & Hab); [done|done|lia|]. msimpl.
    destruct (raise_spec (E:=E) (2 * length (idom t)) r l' dr dl') as (r' & dr' & -> & Hr' & Hle' & Heq' & Hsame' & Hab'); [done|done|lia|]. msimpl.
    assert (dl' = dr') as <- by lia. destruct (meet_spec (E:=E) (2 * length (idom t)) l' r' dl') as (m & -> & Hm); [done|done|lia|]. exists m. split; [done|].
    intros d. rewrite Hm. split.
    + intros [H1 H2]. pose proof (proj1 (Hab' d H1) H2) as H3. split; [by apply Hab|done].
    + intros [H1 H2]. pose proof (proj2 (Hab d H2) H1) as H3. split; [done|by apply Hab'].
  - intros Hn. destruct (depth t !! l) as [[dl|]|] eqn:Hl; [|done..]. destruct (depth t !! r) as [[dr|]|] eqn:Hr; [|done..].
    destruct Hn. split; apply (to_connected _ _ _ Ht); eauto.
Qed.
End ancestors.

(** ** Dominance frontiers *)

(** ** The postorder *)

Section postorder.
Context (links : list (option nat)) (root : nat) (children : graph).
Abbreviation n := (length links).
Context (Hroot : (root < n)%nat) (Hnone : links !! root = Some None).
Context (Hchildren : forall b, (b < n)%nat -> exists row, children !! b = Some row /\ NoDup row /\ forall c, c ∈ row <-> links !! c = Some (Some b)).
Implicit Types (c : nat) (stack : list (nat * bool)) (post : list nat).

Definition open_blocks stack : list nat := (filter (fun be : nat * bool => be.2 = true) stack).*1.
Definition seen stack post b : Prop := b ∈ post \/ (b, true) ∈ stack.

(** The children of an open block satisfy [P] or are above it on the stack. *)
Fixpoint covered (P : nat -> Prop) stack : Prop :=
  match stack with
  | [] => True
  | (b, open) :: rest => (open = true -> forall c, links !! c = Some (Some b) -> P c) /\ covered (fun c => P c \/ c = b) rest
  end.

Lemma covered_mono (P P' : nat -> Prop) stack : (forall c, P c -> P' c) -> covered P stack -> covered P' stack.
Proof.
  revert P P'. induction stack as [|[b open] stack IH]; intros P P' Hd; [done|]. intros [Hb Hs]. split.
  - intros Ho c Hc. by apply Hd, (Hb Ho).
  - eapply IH; [|exact Hs]. intros c [?|?]; [left; auto|by right].
Qed.

Lemma covered_row (P : nat -> Prop) b rest row : (forall c, links !! c = Some (Some b) -> c ∈ row) -> covered (fun c => P c \/ c = b) rest ->
  covered P (((fun child => (child, false)) <$> row) ++ (b, true) :: rest).
Proof.
  intros Hrow Hs. assert (Hgo : forall row (P' : nat -> Prop), (forall c, P c -> P' c) -> (forall c, links !! c = Some (Some b) -> P' c \/ c ∈ row) ->
    covered P' (((fun child => (child, false)) <$> row) ++ (b, true) :: rest)).
  { clear Hrow row. induction row as [|x row IH]; intros P' Hd Hrow; cbn.
    - split; [intros _ c Hc; destruct (Hrow c Hc) as [?|Hn]; [done|by apply not_elem_of_nil in Hn]|]. eapply covered_mono; [|exact Hs]. intros c [?|?]; [left; auto|by right].
    - split; [done|]. apply IH; [intros; left; auto|]. intros c [?|[->|?]%elem_of_cons]%Hrow; auto. }
  apply Hgo; [done|]. intros c Hc. right. auto.
Qed.

Record post_inv stack post : Prop := {
  po_nodup : NoDup (post ++ stack.*1);
  po_known c : c ∈ post ++ stack.*1 <-> c = root \/ exists p, links !! c = Some (Some p) /\ seen stack post p;
  po_closed c p : p ∈ post -> links !! c = Some (Some p) -> before c p post;
  po_open : covered (fun c => c ∈ post) stack }.

Lemma post_lt stack post b : post_inv stack post -> b ∈ post ++ stack.*1 -> (b < n)%nat.
Proof. intros Hi Hb. destruct (proj1 (po_known _ _ Hi b) Hb) as [->|(p & Hp & _)]; [done|eauto with index]. Qed.

Lemma post_bound stack post : post_inv stack post -> (length post + length stack <= n)%nat.
Proof.
  intros Hi. rewrite <- (length_fmap fst stack), <- length_app. apply NoDup_bounded_length; [apply (po_nodup _ _ Hi)|].
  intros b. by apply post_lt.
Qed.

Lemma before_snoc c p (l : list nat) : c ∈ l -> before c p (l ++ [p]).
Proof. intros (l1 & l2 & ->)%list_elem_of_split. exists l1, (l2 ++ [p]). rewrite <- app_assoc. split; [done|]. set_solver. Qed.

Lemma before_app_l c p (l k : list nat) : before c p l -> before c p (l ++ k).
Proof. intros (l1 & l2 & -> & ?). exists l1, (l2 ++ k). rewrite <- app_assoc. split; [done|]. set_solver. Qed.

Lemma expanded_inv b rest post : post_inv ((b, true) :: rest) post -> post_inv rest (post ++ [b]).
Proof.
  intros [Hnd Hk Hc Ho]. cbn in Hnd, Hk. assert (Hseen : forall p, seen rest (post ++ [b]) p <-> seen ((b, true) :: rest) post p) by (unfold seen; set_solver).
  split.
  - rewrite <- app_assoc. done.
  - intros c. rewrite <- app_assoc. cbn. setoid_rewrite Hseen. apply Hk.
  - intros c p [Hp| ->%list_elem_of_singleton]%elem_of_app Hcp; [by apply before_app_l, Hc|].
    apply before_snoc. by apply Ho.
  - destruct Ho as [_ Ho]. eapply covered_mono; [|exact Ho]. cbn. set_solver.
Qed.

Lemma expand_inv b rest post row : post_inv ((b, false) :: rest) post -> NoDup row -> (forall c, c ∈ row <-> links !! c = Some (Some b)) ->
  post_inv (((fun child => (child, false)) <$> row) ++ (b, true) :: rest) post.
Proof.
  intros Hi Hndr Hrow. pose proof Hi as [Hnd Hk Hc Ho]. cbn in Hnd, Hk.
  assert (Hfst : (((fun child : nat => (child, false)) <$> row) ++ (b, true) :: rest).*1 = row ++ b :: rest.*1).
  { rewrite fmap_app. cbn. f_equal. rewrite <- list_fmap_compose. cbn. apply list_fmap_id. }
  assert (Hbpost : (b ∉ post) /\ b ∉ rest.*1).
  { apply NoDup_app in Hnd as (_ & Hd & [? _]%NoDup_cons). split; [|done]. intros Hb. apply (Hd b Hb). by left. }
  assert (Hseen : forall p, seen (((fun child => (child, false)) <$> row) ++ (b, true) :: rest) post p <-> p = b \/ seen ((b, false) :: rest) post p).
  { intros p. unfold seen. rewrite elem_of_app, !elem_of_cons, list_elem_of_fmap. naive_solver. }
  assert (Hbs : ~ seen ((b, false) :: rest) post b).
  { intros [?|[[=]|Hb]%elem_of_cons]; [tauto|]. destruct Hbpost as [_ []]. apply list_elem_of_fmap. by exists (b, true). }
  assert (Hnew : forall c, c ∈ row -> c ∉ post ++ b :: rest.*1).
  { intros c Hcr%Hrow [->|(p & Hp & Hps)]%Hk; [congruence|]. assert (p = b) as -> by congruence. done. }
  split.
  - rewrite Hfst. rewrite app_assoc, (Permutation_app_comm post row), <- app_assoc. apply NoDup_app. split_and!; [done|apply Hnew|done].
  - intros c. rewrite Hfst. setoid_rewrite Hseen. specialize (Hk c). split.
    + intros Hin. assert (c ∈ row \/ c ∈ post ++ b :: rest.*1) as [Hcr|Hco] by set_solver.
      * right. exists b. split; [by apply Hrow|by left].
      * apply Hk in Hco as [?|(p & ? & ?)]; [by left|]. right. exists p. tauto.
    + intros Hkn. assert (c ∈ row \/ c ∈ post ++ b :: rest.*1) as [Hcr|Hco]; [|set_solver..].
      destruct Hkn as [Hcr|(p & Hp & [->|Hps])]; [right; apply Hk; by left|left; by apply Hrow|right; apply Hk; right; by exists p].
  - done.
  - apply covered_row; [by intros c ?%Hrow|]. by destruct Ho.
Qed.

(** Turns left: two for each block that is not finished, less one when it is
    open. *)
Lemma tree_postorder_loop {E} fuel stack post : post_inv stack post ->
  (2 * n <= fuel + 2 * length post + length (open_blocks stack))%nat ->
  exists order, tree_postorder fuel children stack post = Ok order :> result E _ /\ post_inv [] order.
Proof.
  revert stack post. induction fuel as [|fuel IH]; intros [|[b e] stack] post Hi Hfuel; try (by exists post).
  - pose proof (post_bound _ _ Hi) as Hb. cbn [length] in Hb. assert (Hl : (length (open_blocks ((b, e) :: stack)) <= length ((b, e) :: stack))%nat).
    { unfold open_blocks. rewrite length_fmap. apply length_filter. }
    cbn [length] in Hl. lia.
  - cbn [tree_postorder]. destruct e.
    + apply IH; [by apply expanded_inv|]. rewrite length_app. unfold open_blocks in *. rewrite filter_cons, decide_True in Hfuel by done. cbn in *. lia.
    + assert (Hb : (b < n)%nat) by (eapply post_lt; [done|]; apply elem_of_app; right; by left).
      destruct (Hchildren b Hb) as (row & Hrow & Hnd & Hin). rewrite Hrow. msimpl. apply IH; [by apply expand_inv|].
      unfold open_blocks in *. rewrite filter_cons, decide_False in Hfuel by done. rewrite filter_app, filter_none.
      * cbn [app]. rewrite filter_cons, decide_True by done. cbn. lia.
      * intros [x e] (? & [= -> ->] & _)%list_elem_of_fmap. done.
Qed.

(** Children come before their parents, and only connected blocks come. *)
Lemma tree_postorder_spec {E} : exists order, tree_postorder (2 * n) children [(root, false)] [] = Ok order :> result E _ /\
  NoDup order /\ (forall b, b ∈ order <-> above links root b) /\ forall c p, p ∈ order -> links !! c = Some (Some p) -> before c p order.
Proof.
  destruct (tree_postorder_loop (E:=E) (2 * n) [(root, false)] []) as (order & Ho & [Hnd Hk Hc _]).
  - split; cbn; [apply NoDup_singleton| |by intros c p ?%not_elem_of_nil|done]. intros c. rewrite list_elem_of_singleton. unfold seen.
    setoid_rewrite list_elem_of_singleton. split; [by left|]. intros [?|(p & _ & [?%not_elem_of_nil|[=]])]; done.
  - lia.
  - rewrite app_nil_r in *. exists order. split; [done|]. split; [done|]. split; [|done].
    assert (Hseen : forall p, seen [] order p <-> p ∈ order) by (intros p; unfold seen; set_solver). setoid_rewrite Hseen in Hk.
    intros b. split.
    + intros Hb. apply list_elem_of_lookup in Hb as [i Hb]. remember (length order - i)%nat as k eqn:Hke. revert i b Hb Hke.
      induction (Nat.lt_wf_0 k) as [k _ IH]. intros i b Hb ->. pose proof (list_elem_of_lookup_2 _ _ _ Hb) as Hbo.
      destruct (proj1 (Hk b) Hbo) as [->|(p & Hp & Hpo)]; [constructor|]. econstructor; [exact Hp|].
      destruct (before_lookup _ _ _ (Hc b p Hpo Hp)) as (i' & j & Hij & Hi & Hj). assert (i' = i) as -> by (by eapply NoDup_lookup).
      apply lookup_lt_Some in Hb as Hlt. apply lookup_lt_Some in Hj as Hlt'. by apply (IH (length order - j)%nat ltac:(lia) j p Hj).
    + induction 1 as [|b p Hp Ha IHa]; apply Hk; [by left|right; by exists p].
Qed.
End postorder.

Section frontier.
Context (g : graph) (root : nat) (t : DominatorTree) (Hdt : dominator_tree g root t).
Abbreviation n := (length g).
Abbreviation above := (above (idom t)).
Implicit Types (c s : nat) (F : nat -> gset nat) (frontiers : list (gset nat)).

Definition strictly_above b s : Prop := b <> s /\ above b s.

(** [s] has a predecessor below [b] without being strictly below it. *)
Definition in_frontier b s : Prop := exists x, reachable g root x /\ above b x /\ edge g x s /\ ~ strictly_above b s.

(** A dominator of a block's parent dominates its predecessors. *)
Lemma idom_predecessor x s p : reachable g root x -> edge g x s -> idom t !! s = Some (Some p) -> above p x.
Proof.
  intros Hx He Hp. apply (dt_above _ _ _ Hdt); [done|]. intros l Hl. assert (Hs : reachable g root s) by (by eapply reachable_snoc).
  assert (Hps : above p s) by (econstructor; [exact Hp|constructor]). apply (dt_above _ _ _ Hdt) in Hps; [|done].
  specialize (Hps _ (path_snoc _ _ _ _ _ Hl He)). apply elem_of_app in Hps as [?| ->%list_elem_of_singleton]; [done|].
  (* no block is its own parent *)
  exfalso. assert (Hsc : above root s) by (by apply (dt_reachable _ _ _ Hdt)).
  destruct (to_depth _ _ _ (dt_tree _ _ _ Hdt) s s Hsc Hp) as (d & Hd & Hd'). rewrite Hd in Hd'. injection Hd' as Hd'. lia.
Qed.

Lemma parent_not_above c b : above root b -> idom t !! c = Some (Some b) -> ~ above c b.
Proof.
  intros Hb Hc Hcb. pose proof (dt_tree _ _ _ Hdt) as Ht. destruct (to_depth _ _ _ Ht c b Hb Hc) as (d & Hd & Hd').
  destruct (depth_above t root Ht c b d (conj Hb Hd) Hcb) as (dx & [_ Hdx] & Hle & _). assert (dx = S d) as -> by congruence. lia.
Qed.

Lemma strictly_above_parent b s p : above root p -> idom t !! s = Some (Some p) -> strictly_above b s <-> above b p.
Proof.
  intros Hp Hs. split.
  - intros [Hne Ha]. inversion Ha as [|? q Hq Hb]; subst; [done|]. by assert (q = p) as -> by congruence.
  - intros Hb. split; [|by econstructor]. intros ->. by apply (parent_not_above s p).
Qed.

(** The child of [b] towards [x] is unique. *)
Lemma child_unique b c c' x : above root b -> idom t !! c = Some (Some b) -> idom t !! c' = Some (Some b) -> above c x -> above c' x -> c = c'.
Proof.
  intros Hb Hc Hc' Hx Hx'. destruct (decide (c = c')) as [?|Hne]; [done|]. exfalso.
  assert (Hgo : forall y z, idom t !! y = Some (Some b) -> idom t !! z = Some (Some b) -> y <> z -> ~ above y z).
  { intros y z Hy Hz Hyz Ha. inversion Ha as [|? q Hq Hyq]; subst; [done|]. assert (q = b) as -> by congruence. by apply (parent_not_above y b). }
  destruct (above_linear _ _ _ _ Hx Hx') as [?|?]; [by apply (Hgo c c')|by apply (Hgo c' c)].
Qed.

(** The frontier of a block from its edges and the frontiers of its
    children. *)
Lemma frontier_step b s : reachable g root b ->
  in_frontier b s <-> (idom t !! s <> Some (Some b) /\ (edge g b s \/ exists c, idom t !! c = Some (Some b) /\ in_frontier c s)).
Proof.
  intros Hb. pose proof (proj2 (dt_reachable _ _ _ Hdt b) Hb) as Hbc. split.
  - intros (x & Hx & Hbx & He & Hn). split; [intros Hs; apply Hn; apply (strictly_above_parent b s b Hbc Hs); constructor|].
    assert (Hcase : x = b \/ exists c, idom t !! c = Some (Some b) /\ above c x).
    { clear -Hbx. induction Hbx as [|x p Hp Ha IH]; [by left|]. right. destruct IH as [->|(c & Hc & Hcp)]; [exists x; split; [done|constructor]|].
      exists c. split; [done|]. by econstructor. }
    destruct Hcase as [->|(c & Hc & Hcx)]; [by left|right]. exists c. split; [done|]. exists x. split_and!; [done..|].
    intros [Hcs Ha]. apply Hn. split; [|eapply above_trans; [econstructor; [exact Hc|constructor]|done]]. intros ->. by apply (parent_not_above c s).
  - intros [Hs [He|(c & Hc & x & Hx & Hcx & He & Hn)]].
    + exists b. split_and!; [done|constructor|done|]. intros [Hne Ha]. inversion Ha as [|? p Hp Hbp]; subst; [done|].
      pose proof (idom_predecessor b s p Hb He Hp) as Hpb. destruct (decide (p = b)) as [->|Hpb']; [done|].
      assert (Hpc : above root p) by (eapply above_connected; [apply (to_root _ _ _ (dt_tree _ _ _ Hdt))|exact Hpb|done]).
      inversion Hbp as [|? q Hq Hbq]; subst; [done|]. apply (parent_not_above p q); [|done|by eapply above_trans].
      eapply above_connected; [apply (to_root _ _ _ (dt_tree _ _ _ Hdt))|econstructor; [exact Hq|constructor]|done].
    + exists x. split_and!; [done|eapply above_trans; [econstructor; [exact Hc|constructor]|done]|done|].
      intros [Hne Ha]. inversion Ha as [|? p Hp Hbp]; subst; [done|]. pose proof (idom_predecessor x s p Hx He Hp) as Hpx.
      inversion Hbp as [|? q Hq Hbq]; subst; [congruence|].
      assert (Hcase : exists c', idom t !! c' = Some (Some b) /\ above c' p).
      { clear -Hq Hbq. revert p Hq. induction Hbq as [|q r Hr Ha IH]; intros p Hq; [exists p; split; [done|constructor]|].
        destruct (IH q Hr) as (c' & Hc' & Hcq). exists c'. split; [done|]. by econstructor. }
      destruct Hcase as (c' & Hc' & Hcp). assert (c' = c) as -> by (apply (child_unique b c' c x Hbc); [done|done|by eapply above_trans|done]).
      apply Hn. split; [|by econstructor]. intros ->. apply (parent_not_above s p); [|done|done].
      eapply above_connected; [apply (to_root _ _ _ (dt_tree _ _ _ Hdt))|exact Hpx|]. by apply (dt_reachable _ _ _ Hdt).
Qed.

(** *** The loops *)

Lemma idom_lookup s : (s < n)%nat -> exists o, idom t !! s = Some o.
Proof. intros Hs. apply lookup_lt_is_Some_2. by rewrite (dt_length _ _ _ Hdt). Qed.

(** Members whose parent is not [b] are inserted. *)
Lemma frontier_members_spec {E} b F frontiers (l : list nat) : array n F frontiers -> (b < n)%nat -> (forall s, s ∈ l -> (s < n)%nat) ->
  exists F' frontiers', foldM (frontier_member t b) frontiers l = Ok frontiers' :> result E _ /\ array n F' frontiers' /\
    (forall s, s ∈ F' b <-> s ∈ F b \/ (s ∈ l /\ idom t !! s <> Some (Some b))) /\ forall c, c <> b -> F' c = F c.
Proof.
  revert F frontiers. induction l as [|m l IH]; intros F frontiers HF Hb Hl; cbn [foldM].
  { exists F, frontiers. split_and!; [done|done| |done]. set_solver. }
  unfold frontier_member at 2. destruct (idom_lookup m) as [o Ho]; [apply Hl; by left|]. rewrite Ho. msimpl. case_decide as Hob.
  - subst o. destruct (IH F frontiers HF Hb) as (F' & frontiers' & -> & HF' & Hin & Hout); [intros; apply Hl; by right|].
    exists F', frontiers'. split_and!; [done|done| |done]. intros s. rewrite Hin, elem_of_cons. naive_solver.
  - rewrite (array_lookup _ _ _ b HF Hb). msimpl.
    destruct (IH (<[b := {[m]} ∪ F b]> F) (<[b := {[m]} ∪ F b]> frontiers)) as (F' & frontiers' & -> & HF' & Hin & Hout);
      [by apply array_insert|done|intros; apply Hl; by right|]. exists F', frontiers'. split_and!; [done|done| |].
    + intros s. rewrite Hin, fn_lookup_insert, elem_of_cons, elem_of_union, elem_of_singleton. split; [|naive_solver].
      intros [[->|?]|?]; [right; split; [by left|congruence]|by left|naive_solver].
    + intros c Hc. by rewrite (Hout c Hc), fn_lookup_insert_ne.
Qed.

Lemma frontier_children_spec {E} b F frontiers (row : list nat) : array n F frontiers -> (b < n)%nat -> (forall c, c ∈ row -> (c < n)%nat /\ c <> b) ->
  (forall c s, c ∈ row -> s ∈ F c -> (s < n)%nat) ->
  exists F' frontiers', foldM (frontier_child t b) frontiers row = Ok frontiers' :> result E _ /\ array n F' frontiers' /\
    (forall s, s ∈ F' b <-> s ∈ F b \/ (idom t !! s <> Some (Some b) /\ exists c, c ∈ row /\ s ∈ F c)) /\ forall c, c <> b -> F' c = F c.
Proof.
  revert F frontiers. induction row as [|x row IH]; intros F frontiers HF Hb Hrow Hlt; cbn [foldM].
  { exists F, frontiers. split_and!; [done|done| |done]. set_solver. }
  unfold frontier_child at 2. destruct (Hrow x ltac:(by left)) as [Hx Hxb]. rewrite (array_lookup _ _ _ x HF Hx). msimpl.
  destruct (frontier_members_spec (E:=E) b F frontiers (ascending (F x)) HF Hb) as (F1 & frontiers1 & -> & HF1 & Hin1 & Hout1).
  { intros s Hs%elem_of_ascending. apply (Hlt x); [by left|done]. }
  msimpl. assert (Hsame : forall c, c ∈ row -> F1 c = F c) by (intros c Hc; apply Hout1; apply Hrow; by right).
  destruct (IH F1 frontiers1 HF1 Hb) as (F2 & frontiers2 & -> & HF2 & Hin2 & Hout2).
  { intros c Hc. apply Hrow. by right. }
  { intros c s Hc. rewrite (Hsame c Hc). apply Hlt. by right. }
  exists F2, frontiers2. split_and!; [done|done| |intros c Hc; by rewrite (Hout2 c Hc), (Hout1 c Hc)].
  intros s. rewrite Hin2, Hin1, elem_of_ascending. split.
  - intros [[?|[? ?]]|(? & c & Hc & Hs)]; [by left|right; split; [done|]; exists x; split; [by left|done]|].
    right. split; [done|]. exists c. rewrite (Hsame c Hc) in Hs. split; [by right|done].
  - intros [?|(? & c & [->|Hc]%elem_of_cons & Hs)]; [by left; left|by left; right|]. right. split; [done|]. exists c. by rewrite (Hsame c Hc).
Qed.

Lemma reachable_block b : reachable g root b -> (b < n)%nat.
Proof. apply reachable_lt; [apply (dt_closed _ _ _ Hdt)|apply (dt_root _ _ _ Hdt)]. Qed.

Lemma in_frontier_lt b s : in_frontier b s -> (s < n)%nat.
Proof. intros (x & _ & _ & He & _). by apply (dt_closed _ _ _ Hdt x). Qed.

Lemma frontier_block_spec {E} b F frontiers : array n F frontiers -> reachable g root b -> F b = ∅ ->
  (forall c, idom t !! c = Some (Some b) -> forall s, s ∈ F c <-> in_frontier c s) ->
  exists F' frontiers', frontier_block g t frontiers b = Ok frontiers' :> result E _ /\ array n F' frontiers' /\
    (forall s, s ∈ F' b <-> in_frontier b s) /\ forall c, c <> b -> F' c = F c.
Proof.
  intros HF Hb Hempty Hchild. pose proof (reachable_block b Hb) as Hbn. unfold frontier_block. in_range g b as row Hrow. rewrite Hrow. msimpl.
  assert (Hedge : forall s, s ∈ row <-> edge g b s) by (intros s; split; [intros ?; by exists row|intros (row' & ? & ?); by simplify_eq]).
  destruct (frontier_members_spec (E:=E) b F frontiers row HF Hbn) as (F1 & frontiers1 & -> & HF1 & Hin1 & Hout1).
  { intros s Hs%Hedge. by apply (dt_closed _ _ _ Hdt b). }
  msimpl. destruct (to_children _ _ _ (dt_tree _ _ _ Hdt) b) as (cs & Hcs & _ & _ & Hin); [by rewrite (dt_length _ _ _ Hdt)|]. rewrite Hcs. msimpl.
  assert (Hcr : forall c, c ∈ cs -> (c < n)%nat /\ c <> b).
  { intros c Hc%Hin. rewrite <- (dt_length _ _ _ Hdt). split; [eauto with index|]. intros ->. apply (parent_not_above b b); [by apply (dt_reachable _ _ _ Hdt)|done|constructor]. }
  assert (HF1c : forall c s, c ∈ cs -> s ∈ F1 c <-> in_frontier c s) by (intros c s Hc; rewrite Hout1 by (by apply Hcr); by apply Hchild, Hin).
  destruct (frontier_children_spec (E:=E) b F1 frontiers1 cs HF1 Hbn Hcr) as (F2 & frontiers2 & -> & HF2 & Hin2 & Hout2).
  { intros c s Hc Hs%HF1c; [|done]. by apply in_frontier_lt in Hs. }
  exists F2, frontiers2. split_and!; [done|done| |intros c Hc; by rewrite (Hout2 c Hc), (Hout1 c Hc)].
  intros s. rewrite Hin2, Hin1, Hempty, (frontier_step b s Hb), <- Hedge. split.
  - intros [[?%elem_of_empty|[? ?]]|(? & c & Hc & Hs)]; [done|tauto|]. split; [done|]. right. exists c. split; [by apply Hin|by apply HF1c].
  - intros [Hne [?|(c & Hc & Hs)]]; [left; right; done|]. right. split; [done|]. exists c. split; [by apply Hin|]. apply HF1c; [by apply Hin|done].
Qed.

Lemma frontier_blocks_spec {E} (order : list nat) F frontiers done_ : array n F frontiers ->
  NoDup (done_ ++ order) -> (forall b, b ∈ order -> reachable g root b) ->
  (forall c p, p ∈ order -> idom t !! c = Some (Some p) -> before c p (done_ ++ order)) ->
  (forall b s, b ∈ done_ -> s ∈ F b <-> in_frontier b s) -> (forall b, b ∉ done_ -> F b = ∅) ->
  exists F' frontiers', foldM (frontier_block g t) frontiers order = Ok frontiers' :> result E _ /\ array n F' frontiers' /\
    (forall b s, b ∈ done_ ++ order -> s ∈ F' b <-> in_frontier b s) /\ forall b, b ∉ done_ ++ order -> F' b = ∅.
Proof.
  revert F frontiers done_. induction order as [|b order IH]; intros F frontiers done_ HF Hnd Hreach Hbefore Hdone Hempty; cbn [foldM].
  { exists F, frontiers. rewrite app_nil_r. done. }
  pose proof Hnd as (Hnd1 & Hdisj & _)%NoDup_app. assert (Hbd : b ∉ done_) by (intros Hb; apply (Hdisj b Hb); by left).
  destruct (frontier_block_spec (E:=E) b F frontiers HF) as (F1 & frontiers1 & -> & HF1 & Hb1 & Hout); [apply Hreach; by left|by apply Hempty| |].
  { intros c Hc s. apply Hdone. destruct (before_lookup _ _ _ (Hbefore c b ltac:(by left) Hc)) as (i & j & Hij & Hi & Hj).
    assert (j = length done_) as -> by (eapply NoDup_lookup; [exact Hnd|done|]; by apply list_lookup_middle).
    rewrite lookup_app_l in Hi by done. by eapply list_elem_of_lookup_2. }
  msimpl. replace (done_ ++ b :: order) with ((done_ ++ [b]) ++ order) in * by (by rewrite <- app_assoc). apply (IH F1 frontiers1 (done_ ++ [b])); try done.
  - intros x Hx. apply Hreach. by right.
  - intros c p Hp. apply Hbefore. by right.
  - intros x s [Hx| ->%list_elem_of_singleton]%elem_of_app; [|done]. rewrite Hout by (by intros ->). by apply Hdone.
  - intros x [Hx Hxb]%not_elem_of_app. rewrite Hout by set_solver. by apply Hempty.
Qed.

(** The rows are the frontiers in ascending order; a block that the root does
    not reach has none. *)
Lemma dominance_frontiers_spec {E} : exists rows, dominance_frontiers g t root = Ok rows :> result E _ /\ length rows = n /\
  forall b, (b < n)%nat -> exists row, rows !! b = Some row /\ NoDup row /\ StronglySorted Nat.le row /\
    forall s, s ∈ row <-> reachable g root b /\ in_frontier b s.
Proof.
  unfold dominance_frontiers. pose proof (dt_tree _ _ _ Hdt) as Ht. pose proof (dt_length _ _ _ Hdt) as Hlen. pose proof (dt_root _ _ _ Hdt) as Hroot.
  destruct (tree_postorder_spec (idom t) root (children t)) with (E := E) as (order & Ho & Hnd & Hin & Hbefore).
  { by rewrite Hlen. }
  { apply (to_root _ _ _ Ht). }
  { intros b Hb. destruct (to_children _ _ _ Ht b Hb) as (row & ? & ? & _ & ?). by exists row. }
  rewrite Hlen in Ho. rewrite Ho. msimpl.
  destruct (frontier_blocks_spec (E:=E) order (fun _ => ∅) (replicate n ∅) []) as (F & frontiers & -> & HF & Hall & Hnone).
  { apply array_replicate. }
  { done. }
  { intros b Hb%Hin. by apply (dt_reachable _ _ _ Hdt). }
  { done. }
  { by intros b s ?%not_elem_of_nil. }
  { done. }
  msimpl. exists (ascending <$> frontiers). split; [done|]. split; [rewrite length_fmap; apply HF|]. intros b Hb. exists (ascending (F b)).
  rewrite list_lookup_fmap, (array_lookup _ _ _ b HF Hb). split; [done|]. split; [apply NoDup_ascending|].
  split; [exact (ascending_ordered (F b))|]. intros s. rewrite elem_of_ascending. cbn in Hall, Hnone.
  destruct (decide (b ∈ order)) as [Hbo|Hbo].
  - rewrite (Hall b s Hbo). split; [|by intros [_ ?]]. split; [by apply (dt_reachable _ _ _ Hdt), Hin|done].
  - rewrite (Hnone b Hbo). split; [by intros ?%elem_of_empty|]. intros [Hbr _]. destruct Hbo. by apply Hin, (dt_reachable _ _ _ Hdt).
Qed.
End frontier.
