(* ===== verification/CfgLoops.v ===== *)
(** * CfgLoops: strongly connected regions, natural loops and the analysis

    Models [strongly_connected_regions], [natural_loops] and the [analyze] and
    [analyze_structure] entry points of [ForwardControlFlowGraph] and
    [ControlFlowGraph] in [crates/celox-analysis/src/cfg.rs]. *)

From S2P Require Import Prelude Order Graph Cfg CfgTree.

(** ** Strongly connected regions *)

Record StronglyConnectedRegion : Type := Region {
  region_blocks : list nat;
  region_entries : list nat;
  cyclic : bool;
  reducible_header : option nat }.

(** One turn of the loop over seeds, a depth-first search when the seed is
    new. *)
Definition scc_search {E} (successors : graph) (vp : list bool * list nat) (seed : nat) : result E (list bool * list nat) :=
  visited ← expect (vp.1 !! seed);
  if (visited : bool) then Ok vp
  else
    st ← dfs_loop (dfs_fuel successors) successors (DFS (<[seed := true]> vp.1) vp.2 [(seed, 0%nat)]);
    Ok (discovered st, postorder st).

(** [if component[predecessor] == usize::MAX { component[predecessor] = component_id; stack.push(predecessor); }] *)
Definition assign_component {E} (component_id : nat) (cs : list (option nat) * list nat) (predecessor : nat)
    : result E (list (option nat) * list nat) :=
  c ← expect (cs.1 !! predecessor);
  match (c : option nat) with
  | Some _ => Ok cs
  | None => Ok (<[predecessor := Some component_id]> cs.1, predecessor :: cs.2)
  end.

(** [while let Some(block) = stack.pop()]; the head of [stack] is the top. *)
Fixpoint collect_component {E} (fuel : nat) (predecessors : graph) (component_id : nat)
    (component : list (option nat)) (members stack : list nat) : result E (list (option nat) * list nat) :=
  match stack with
  | [] => Ok (component, members)
  | block :: stack =>
      match fuel with
      | O => Panic
      | S fuel =>
          row ← expect (predecessors !! block);
          cs ← foldM (assign_component component_id) (component, stack) (rev row);
          collect_component fuel predecessors component_id cs.1 (members ++ [block]) cs.2
      end
  end.

Definition scc_seed {E} (predecessors : graph) (cr : list (option nat) * list (list nat)) (seed : nat)
    : result E (list (option nat) * list (list nat)) :=
  c ← expect (cr.1 !! seed);
  match (c : option nat) with
  | Some _ => Ok cr
  | None =>
      let component_id := length cr.2 in
      cm ← collect_component (length predecessors) predecessors component_id (<[seed := Some component_id]> cr.1) [] [seed];
      Ok (cm.1, cr.2 ++ [sort_by_key id cm.2])
  end.

(** [block == root || predecessors[block].iter().any(..)] *)
Definition is_entry {E} (predecessors : graph) (root : nat) (component : list (option nat)) (component_id block : nat)
    : result E bool :=
  if decide (block = root) then Ok true else
  row ← expect (predecessors !! block);
  cs ← mapMr (fun predecessor => expect (component !! predecessor)) row;
  Ok (bool_decide (Exists (fun c => c <> Some component_id) (cs : list (option nat)))).

Definition region {E} (predecessors successors : graph) (dominators : DominatorTree) (root : nat)
    (component : list (option nat)) (im : nat * list nat) : result E StronglyConnectedRegion :=
  flags ← mapMr (is_entry predecessors root component im.1) im.2;
  let entries := (filter (fun bf : nat * bool => bf.2 = true) (zip im.2 flags)).*1 in
  self ← match im.2 with
         | [] => Ok false
         | block :: _ => row ← expect (successors !! block); Ok (bool_decide (block ∈ (row : list nat)))
         end;
  Ok (Region im.2 entries (bool_decide (1 < length im.2)%nat || self)
        match entries with
        | [header] => if decide (Forall (fun block => dominates dominators header block = true) im.2) then Some header else None
        | _ => None
        end).

Definition strongly_connected_regions {E} (predecessors successors : graph) (dominators : DominatorTree) (root : nat)
    : result E (list StronglyConnectedRegion * list (option nat)) :=
  let n := length successors in
  search ← foldM (scc_search successors) (replicate n false, []) (root :: filter (fun block => block <> root) (seq 0 n));
  raw ← foldM (scc_seed predecessors) (replicate n None, []) (rev search.2);
  regions ← mapMr (region predecessors successors dominators root raw.1) (enumerate raw.2);
  Ok (regions, raw.1).

(** ** Natural loops *)

Record NaturalLoop : Type := NatLoop {
  header : nat;
  loop_blocks : gset nat;
  loop_parent : option nat }.

(** [while let Some(block) = stack.pop() { if blocks.insert(block) { .. } }] *)
Fixpoint flood {E} (fuel : nat) (predecessors : graph) (blocks : gset nat) (stack : list nat) : result E (gset nat) :=
  match stack with
  | [] => Ok blocks
  | block :: stack =>
      match fuel with
      | O => Panic
      | S fuel =>
          if decide (block ∈ blocks) then flood fuel predecessors blocks stack
          else
            row ← expect (predecessors !! block);
            flood fuel predecessors ({[block]} ∪ blocks) (rev row ++ stack)
      end
  end.

Definition back_edge {E} (predecessors : graph) (dominators : DominatorTree) (tail : nat)
    (by_header : list (option (gset nat))) (header : nat) : result E (list (option (gset nat))) :=
  if dominates dominators header tail then
    o ← expect (by_header !! header);
    blocks ← flood (S (dfs_fuel predecessors)) predecessors ({[header]} ∪ default ∅ o) [tail];
    Ok (<[header := Some blocks]> by_header)
  else Ok by_header.

Definition loop_key (l : NaturalLoop) : nat * nat := (size (loop_blocks l), header l).

(** One turn of [for child in (0..loops.len()).rev()]; [innermost] maps a block
    to the index of the smallest loop seen so far that holds it. *)
Definition loop_nest (li : list NaturalLoop * list (option nat)) (child : nat) : cfg_result (list NaturalLoop * list (option nat)) :=
  l ← expect (li.1 !! child);
  parent ← expect (li.2 !! header l);
  nested ← match (parent : option nat) with
           | None => Ok true
           | Some parent => outer ← expect (li.1 !! parent); Ok (bool_decide (loop_blocks l ⊆ loop_blocks outer))
           end;
  if (nested : bool) then
    innermost ← foldM (fun innermost block => vset block (Some child) innermost) li.2 (ascending (loop_blocks l));
    Ok (<[child := NatLoop (header l) (loop_blocks l) parent]> li.1, innermost)
  else Err (InvalidGraph "natural loops overlap without nesting").

Definition natural_loops (predecessors successors : graph) (dominators : DominatorTree) : cfg_result (list NaturalLoop) :=
  let n := length successors in
  by_header ← foldM (fun by_header (to : nat * list nat) => foldM (back_edge predecessors dominators to.1) by_header to.2)
    (replicate n None) (enumerate successors);
  let loops := omap (fun hb : nat * option (gset nat) => (fun blocks => NatLoop hb.1 blocks None) <$> hb.2) (enumerate by_header) in
  let loops := sort_by_key loop_key loops in
  li ← foldM loop_nest (loops, replicate n None) (rev (seq 0 (length loops)));
  Ok li.1.

(** ** The analyses *)

Record ForwardControlFlowGraph : Type := ForwardCfg {
  fwd_root : nat;
  fwd_predecessors : graph;
  fwd_successors : graph;
  fwd_dominators : DominatorTree;
  fwd_dominance_frontier : list (list nat);
  fwd_sccs : list StronglyConnectedRegion;
  fwd_scc_for_block : list (option nat);
  fwd_loops : list NaturalLoop }.

(** [outgoing.retain(..)] with the set of successors seen. *)
Definition retain_first (outgoing : list nat) : list nat :=
  foldl (fun kept successor => if decide (successor ∈ kept) then kept else kept ++ [successor]) [] outgoing.

Definition analyze_impl (successors : graph) (root : nat) (include_frontier : bool) : cfg_result ForwardControlFlowGraph :=
  _ ← validate_edges successors root;
  let successors := retain_first <$> successors in
  let n := length successors in
  order ← reverse_postorder successors root;
  if decide (length (order : list nat) <> n) then Err (Unreachable (filter (fun block => block ∉ (order : list nat)) (seq 0 n))) else
  predecessors ← predecessor_rows successors;
  let predecessors := (fun incoming => dedup (sort_by_key id incoming)) <$> (predecessors : graph) in
  dominators ← compute successors root;
  if decide (Exists (fun bp : nat * option nat => bp.1 <> root /\ bp.2 = None) (enumerate (idom dominators)))
  then Err (InvalidGraph "reachable block has no immediate dominator") else
  dominance_frontier ← (if include_frontier then dominance_frontiers successors dominators root else Ok (replicate n []));
  loops ← natural_loops predecessors successors dominators;
  sccs ← strongly_connected_regions predecessors successors dominators root;
  Ok (ForwardCfg root predecessors successors dominators dominance_frontier sccs.1 sccs.2 loops).

Record ControlFlowGraph : Type := Cfg {
  cfg_forward : ForwardControlFlowGraph;
  postdominators : PostDominatorTree;
  postdominance_frontier : list (list nat);
  controllers : list (list nat);
  control_dependents : list (list nat) }.

(** [for &controller in dependent_controllers { control_dependents[controller].push(dependent); }] *)
Definition finish (forward : ForwardControlFlowGraph) (include_frontiers : bool) : cfg_result ControlFlowGraph :=
  pf ← build_postdominators (fwd_predecessors forward) (fwd_successors forward) include_frontiers;
  let controllers := pf.2 in
  let empty := replicate (length (fwd_successors forward)) [] in
  control_dependents ←
    (if include_frontiers then
       dependents ← foldM (fun rows (dc : nat * list nat) => foldM (push_predecessor dc.1) rows dc.2) empty (enumerate controllers);
       Ok ((fun row => dedup (sort_by_key id row)) <$> (dependents : graph))
     else Ok empty);
  Ok (Cfg forward pf.1 pf.2 controllers control_dependents).

Definition analyze (successors : graph) (root : nat) : cfg_result ControlFlowGraph :=
  forward ← analyze_impl successors root true; finish forward true.

Definition analyze_structure (successors : graph) (root : nat) : cfg_result ControlFlowGraph :=
  forward ← analyze_impl successors root false; finish forward false.

(** A loop of 1 and 2 with a self-loop at 2; 3 leaves. *)
Example analyze_nested_loops :
  (c ← analyze [[1]; [2; 3]; [2; 1]; []]%nat 0;
   let f := cfg_forward c in
   Ok ((fun l => (header l, ascending (loop_blocks l), loop_parent l)) <$> fwd_loops f, region_blocks <$> fwd_sccs f, fwd_scc_for_block f,
       controllers c)) =
  Ok ([(2, [2], Some 1); (1, [1; 2], None)], [[0]; [1; 2]; [3]], [Some 0; Some 1; Some 1; Some 2], [[]; [1]; [1; 2]; []])%nat.
Proof. vm_compute. reflexivity. Qed.
