(* ===== verification/CfgLoopFacts.v ===== *)
(** * CfgLoopFacts: natural loops

    The blocks that [CfgLoops.natural_loops] collects for a header are those
    that reach one of its back edges without passing through it; two such
    loops are disjoint or nested, so the nesting pass never fails and gives
    every loop the smallest one that strictly contains it. *)

From stdpp Require Import functions.
From S2P Require Import Prelude Specs Order Graph Cfg LtCorrect CfgTree CfgTreeFacts CfgDominators CfgLoops.

(** ** The blocks of a loop *)

Section body.
Context (g : graph).
Implicit Types (h t x y : nat) (tails : nat -> Prop).

(** [x] is [h] or reaches one of [tails] without passing through [h]. *)
Definition body tails h x : Prop := x = h \/ exists t l, tails t /\ path g x l t /\ h ∉ l.

Lemma body_edge tails h x y : edge g x y -> body tails h y -> y <> h -> body tails h x.
Proof.
  intros He [->|(t & l & Ht & Hp & Hl)] Hy; [done|]. destruct (decide (x = h)) as [->|Hne]; [by left|].
  right. exists t, (x :: l). split_and!; [done|by econstructor|]. by apply not_elem_of_cons.
Qed.

Lemma body_tail tails h t : tails t -> body tails h t.
Proof.
  intros Ht. destruct (decide (t = h)) as [->|Hne]; [by left|]. right. exists t, [t]. split_and!; [done|constructor|].
  by intros ->%list_elem_of_singleton.
Qed.

Lemma body_mono (tails tails' : nat -> Prop) h x : (forall t, tails t -> tails' t) -> body tails h x -> body tails' h x.
Proof. intros Ht [?|(t & l & ? & ? & ?)]; [by left|right; exists t, l; auto]. Qed.

(** A set that holds the header and the tails and is closed under the
    predecessors of its other blocks holds the body. *)
Lemma body_least tails h (B : gset nat) : h ∈ B -> (forall t, tails t -> t ∈ B) -> (forall x y, edge g x y -> y ∈ B -> y <> h -> x ∈ B) ->
  forall x, body tails h x -> x ∈ B.
Proof.
  intros Hh Ht Hc x [->|(t & l & Htt & Hp & Hl)]; [done|]. induction Hp as [x|x y t l He Hp IH]; [by apply Ht|].
  apply not_elem_of_cons in Hl as [Hx Hl]. apply (Hc x y He); [by apply IH|]. intros ->. apply Hl. by eapply path_start.
Qed.
End body.

(** ** The flood *)

Section flood.
Context (g preds : graph) (Hrev : reverses g preds).
Abbreviation n := (length g).
Implicit Types (B : gset nat) (stack : list nat) (h x y b : nat) (tails : nat -> Prop).

Definition flags B : list bool := (fun b => bool_decide (b ∈ B)) <$> seq 0 n.

Lemma flags_array B : array n (fun b => bool_decide (b ∈ B)) (flags B).
Proof.
  split; [unfold flags; by rewrite length_fmap, length_seq|]. intros i Hi. unfold flags. rewrite list_lookup_fmap.
  by rewrite lookup_seq_lt.
Qed.

Lemma flags_insert B b : (b < n)%nat -> flags ({[b]} ∪ B) = <[b := true]> (flags B).
Proof.
  intros Hb. assert (Ha : array n (fun x => bool_decide (x ∈ {[b]} ∪ B)) (<[b := true]> (flags B))).
  { eapply array_update; [apply flags_array|by apply bool_decide_eq_true_2; set_solver|]. intros x Hx Hne. apply bool_decide_ext. set_solver. }
  apply list_eq. intros i. destruct (decide (i < n)%nat) as [Hi|Hi].
  - by rewrite (array_lookup _ _ _ i (flags_array _) Hi), (array_lookup _ _ _ i Ha Hi).
  - rewrite !lookup_ge_None_2; [done| |]; rewrite ?(proj1 Ha), ?(proj1 (flags_array _)); lia.
Qed.

Definition flood_weight B : nat := sum_list (zip_with row_weight (flags B) preds).

Lemma flood_weight_bound B : (flood_weight B <= dfs_fuel preds)%nat.
Proof.
  unfold flood_weight. rewrite <- initial_weight. assert (Hl : length (flags B) = length preds).
  { rewrite (proj1 (flags_array B)). symmetry. apply Hrev. }
  revert Hl. generalize (flags B). clear. induction preds as [|row rows IH]; intros [|f l] Hl; cbn; try done.
  injection Hl as Hl. specialize (IH l Hl). destruct f; cbn; lia.
Qed.

(** What the flood keeps: [B] is within the body of [tails], holds the
    predecessors of its blocks but for the header, or has them on the stack. *)
Record flood_inv tails h B stack : Prop := {
  fi_header : h ∈ B;
  fi_body x : x ∈ B \/ x ∈ stack -> body g tails h x;
  fi_closed x y : edge g x y -> y ∈ B -> y <> h -> x ∈ B \/ x ∈ stack;
  fi_range x : x ∈ stack -> (x < n)%nat }.

Lemma flood_spec {E} fuel tails h B stack : flood_inv tails h B stack -> (length stack + flood_weight B <= fuel)%nat ->
  exists B', flood fuel preds B stack = Ok B' :> result E _ /\ flood_inv tails h B' [] /\ forall x, x ∈ B \/ x ∈ stack -> x ∈ B'.
Proof.
  revert B stack. induction fuel as [|fuel IH]; intros B [|b stack] Hi Hfuel; cbn [flood length] in *.
  1,3: (exists B; split_and!; [done|done|]; intros x [?|?%not_elem_of_nil]; done).
  - lia.
  - pose proof (fi_range _ _ _ _ Hi b ltac:(by left)) as Hb. case_decide as Hin.
    + destruct (IH B stack) as (B' & -> & Hi' & Hsub); [|lia|].
      * destruct Hi as [H1 H2 H3 H4]. split; [done|intros x Hx; apply H2; set_solver| |intros x Hx; apply H4; by right].
        intros x y He Hy Hne. destruct (H3 x y He Hy Hne) as [?|[->|?]%elem_of_cons]; auto.
      * exists B'. split_and!; [done..|]. intros x [?|[->|?]%elem_of_cons]; auto.
    + assert (Hpb : (b < length preds)%nat) by (by rewrite (proj1 Hrev)). in_range preds b as row Hrow. rewrite Hrow. msimpl.
      assert (Hedge : forall x, x ∈ row <-> edge g x b).
      { intros x. rewrite <- (proj2 Hrev). split; [intros ?; by exists row|intros (row' & ? & ?); by simplify_eq]. }
      assert (Hfl : flags B !! b = Some false) by (rewrite (array_lookup _ _ _ b (flags_array B) Hb); by rewrite bool_decide_eq_false_2).
      pose proof (sum_list_insert _ _ _ _ Hfl Hrow) as Hsum. rewrite <- flags_insert in Hsum by done.
      destruct (IH ({[b]} ∪ B) (rev row ++ stack)) as (B' & -> & Hi' & Hsub).
      * destruct Hi as [H1 H2 H3 H4]. split.
        -- set_solver.
        -- intros x Hx. destruct (decide (x ∈ row)) as [Hxr|Hxr].
           ++ apply Hedge in Hxr. eapply body_edge; [exact Hxr|apply H2; right; by left|]. intros ->. done.
           ++ apply H2. rewrite elem_of_app, elem_of_rev in Hx. set_solver.
        -- intros x y He Hy Hne. rewrite elem_of_app, elem_of_rev, Hedge. destruct (decide (y = b)) as [->|Hyb]; [right; by left|].
           assert (Hy' : y ∈ B) by set_solver. destruct (H3 x y He Hy' Hne) as [?|[->|?]%elem_of_cons]; [set_solver|set_solver|auto].
        -- intros x. rewrite elem_of_app, elem_of_rev, Hedge. intros [(r & Hr & _)|?]; [eauto with index|apply H4; by right].
      * rewrite length_app, length_rev. unfold flood_weight in *. lia.
      * exists B'. split_and!; [done..|]. intros x Hx. apply Hsub. rewrite elem_of_app. set_solver.
Qed.

(** Flooding from one more tail. *)
Lemma flood_tail {E} tails h B tail : flood_inv tails h B [] -> (forall t, tails t -> t ∈ B) -> (tail < n)%nat ->
  exists B', flood (S (dfs_fuel preds)) preds B [tail] = Ok B' :> result E _ /\
    flood_inv (fun t => tails t \/ t = tail) h B' [] /\ forall t, tails t \/ t = tail -> t ∈ B'.
Proof.
  intros [H1 H2 H3 H4] Hin Htail. destruct (flood_spec (E:=E) (S (dfs_fuel preds)) (fun t => tails t \/ t = tail) h B [tail]) as (B' & -> & Hi & Hsub).
  - split; [done| | |].
    + intros x [Hx| ->%list_elem_of_singleton]; [eapply body_mono; [|apply H2; by left]; by left|]. apply body_tail. by right.
    + intros x y He Hy Hne. destruct (H3 x y He Hy Hne) as [?|?%not_elem_of_nil]; [by left|done].
    + by intros x ->%list_elem_of_singleton.
  - pose proof (flood_weight_bound B). cbn. lia.
  - exists B'. split_and!; [done..|]. intros t [Ht| ->]; apply Hsub; [left; auto|right; by left].
Qed.

Lemma flood_body tails h B : flood_inv tails h B [] -> (forall t, tails t -> t ∈ B) -> forall x, x ∈ B <-> body g tails h x.
Proof.
  intros [H1 H2 H3 H4] Hin x. split; [intros Hx; apply H2; by left|]. apply body_least; [done|done|].
  intros y z He Hz Hne. destruct (H3 y z He Hz Hne) as [?|?%not_elem_of_nil]; done.
Qed.
End flood.

(** ** All headers *)

Section headers.
Context (g preds : graph) (root : nat) (t : DominatorTree) (Hdt : dominator_tree g root t) (Hrev : reverses g preds).
Abbreviation n := (length g).
Implicit Types (h b x y tail : nat) (H : nat -> option (gset nat)) (edges : nat -> nat -> Prop).

(** The tails of back edges to [h] among [edges]. *)
Definition back edges h tail : Prop := edges tail h /\ dominates t h tail = true.

(** [o] holds the loop of the back edges to [h], when there are any. *)
Definition header_ok edges h (o : option (gset nat)) : Prop :=
  match o with
  | Some B => (exists tail, back edges h tail) /\ flood_inv g (back edges h) h B [] /\ forall tail, back edges h tail -> tail ∈ B
  | None => forall tail, ~ back edges h tail
  end.

Lemma header_ext edges edges' h o : (forall x, back edges h x <-> back edges' h x) -> header_ok edges h o -> header_ok edges' h o.
Proof.
  intros Hb. destruct o as [B|]; cbn; [|by intros Hn x ?%Hb%Hn]. intros ((x & Hx) & [F1 F2 F3 F4] & Hin).
  split; [exists x; by apply Hb|]. split; [|by intros y ?%Hb%Hin]. split; [done| |done|done].
  intros y Hy. eapply body_mono; [|by apply F2]. intros; by apply Hb.
Qed.

Lemma back_edge_spec {E} edges H by_header tail h : array n H by_header -> (forall x, header_ok edges x (H x)) -> (forall a b, edges a b -> edge g a b) -> edge g tail h ->
  exists H' by_header', back_edge preds t tail by_header h = Ok by_header' :> result E _ /\ array n H' by_header' /\
    forall x, header_ok (fun a b => edges a b \/ (a = tail /\ b = h)) x (H' x).
Proof.
  intros HA HH Hsub He. assert (Hh : (h < n)%nat) by (by apply (dt_closed _ _ _ Hdt tail)).
  assert (Ht : (tail < n)%nat) by (destruct He as (row & Hrow & _); eauto with index). unfold back_edge.
  destruct (dominates t h tail) eqn:Hdom.
  - rewrite (array_lookup _ _ _ h HA Hh). msimpl. specialize (HH h) as Hhh.
    assert (Hprior : flood_inv g (back edges h) h ({[h]} ∪ default ∅ (H h)) [] /\ forall x, back edges h x -> x ∈ {[h]} ∪ default ∅ (H h)).
    { destruct (H h) as [B|]; cbn in *.
      - destruct Hhh as (_ & Hi & Hin). assert ({[h]} ∪ B = B) as -> by (pose proof (fi_header _ _ _ _ _ Hi); set_solver). done.
      - split; [|intros x Hx; by destruct (Hhh x)]. rewrite union_empty_r_L. split.
        + set_solver.
        + intros x [->%elem_of_singleton|?%not_elem_of_nil]; [by left|done].
        + intros x y _ ->%elem_of_singleton. done.
        + by intros x ?%not_elem_of_nil. }
    destruct Hprior as [Hi Hin].
    destruct (flood_tail g preds Hrev (E:=E) (back edges h) h ({[h]} ∪ default ∅ (H h)) tail Hi Hin Ht) as (B & -> & HiB & HinB).
    msimpl. exists (<[h := Some B]> H). eexists. split; [done|]. split; [by apply array_insert|]. intros x. destruct (decide (x = h)) as [->|Hne].
    + rewrite fn_lookup_insert. assert (Hb : forall y, back edges h y \/ y = tail <-> back (fun a b => edges a b \/ (a = tail /\ b = h)) h y).
      { intros y. unfold back. split; [intros [[? ?]| ->]; [tauto|split; [by right|done]]|]. intros [[?|[-> _]] ?]; [by left|by right]. }
      split; [exists tail; apply Hb; by right|]. destruct HiB as [F1 F2 F3 F4]. split; [|intros y Hy; by apply HinB, Hb]. split; [done| |done|done].
      intros y Hy. eapply body_mono; [|by apply F2]. intros; by apply Hb.
    + rewrite fn_lookup_insert_ne by done. eapply header_ext; [|apply HH]. intros y. unfold back. split; [tauto|]. by intros [[?|[_ ?]] ?].
  - exists H, by_header. split; [done|]. split; [done|]. intros x. eapply header_ext; [|apply HH]. intros y. unfold back. split; [tauto|].
    intros [[?|[-> ->]] Hd]; [done|congruence].
Qed.

Lemma back_edges_spec {E} edges H by_header tail (row : list nat) : array n H by_header -> (forall x, header_ok edges x (H x)) -> (forall a b, edges a b -> edge g a b) ->
  (forall h, h ∈ row -> edge g tail h) ->
  exists H' by_header', foldM (back_edge preds t tail) by_header row = Ok by_header' :> result E _ /\ array n H' by_header' /\
    forall x, header_ok (fun a b => edges a b \/ (a = tail /\ b ∈ row)) x (H' x).
Proof.
  revert edges H by_header. induction row as [|h row IH]; intros edges H by_header HA HH Hsub Hrow; cbn [foldM].
  - exists H, by_header. split_and!; [done..|]. intros x. eapply header_ext; [|apply HH]. intros y. unfold back. set_solver.
  - destruct (back_edge_spec (E:=E) edges H by_header tail h HA HH Hsub) as (H1 & by_header1 & -> & HA1 & HH1); [apply Hrow; by left|]. msimpl.
    destruct (IH _ H1 by_header1 HA1 HH1) as (H2 & by_header2 & -> & HA2 & HH2).
    { intros a b [?|[-> ->]]; [auto|apply Hrow; by left]. }
    { intros; apply Hrow; by right. }
    exists H2, by_header2. split_and!; [done..|]. intros x. eapply header_ext; [|apply HH2]. intros y. unfold back. set_solver.
Qed.

(** The table of headers once all edges are seen. *)
Lemma headers_spec {E} : exists H by_header,
  foldM (fun by_header (to : nat * list nat) => foldM (back_edge preds t to.1) by_header to.2) (replicate n None) (enumerate g) = Ok by_header :> result E _ /\
  array n H by_header /\ forall h, header_ok (edge g) h (H h).
Proof.
  assert (Hgo : yields (fun _ : E => False) (fun by_header => exists H, array n H by_header /\ forall h, header_ok (fun a b => (a < length g)%nat /\ edge g a b) h (H h))
    (foldM (fun by_header (to : nat * list nat) => foldM (back_edge preds t to.1) by_header to.2) (replicate n None) (enumerate g))).
  { apply (yields_enumerate _ (fun k by_header => exists H, array n H by_header /\ forall h, header_ok (fun a b => (a < k)%nat /\ edge g a b) h (H h))).
    - exists (fun _ => None). split; [apply array_replicate|]. intros h x [[? _] _]. lia.
    - intros k row by_header Hrow (H & HA & HH). cbn [fst snd].
      assert (Hedge : forall b, edge g k b <-> b ∈ row) by (intros b; split; [intros (row' & ? & ?); by simplify_eq|intros ?; by exists row]).
      destruct (back_edges_spec (E:=E) _ H by_header k row HA HH) as (H' & by_header' & -> & HA' & HH'); [by intros a b [_ ?]|by intros h ?%Hedge|].
      exists H'. split; [done|]. intros h. eapply header_ext; [|apply HH']. intros y. unfold back. rewrite <- Hedge. split.
      + intros [[[? ?]|[-> ?]] ?]; (split; [|done]); (split; [lia|done]).
      + intros [[Hy He] ?]. split; [|done]. destruct (decide (y = k)) as [->|]; [by right|left; split; [lia|done]]. }
  destruct (foldM _ _ _) as [by_header| |]; cbn in Hgo; [|done..]. destruct Hgo as (H & HA & HH). exists H, by_header. split_and!; [done..|].
  intros h. eapply header_ext; [|apply HH]. intros y. unfold back. split; [tauto|]. intros [He ?]. split; [|done]. split; [|done].
  destruct He as (row & Hrow & _). eauto with index.
Qed.
End headers.

(** ** Nesting *)

Lemma vset_all {E} n (I : nat -> option nat) innermost child (l : list nat) : array n I innermost -> (forall b, b ∈ l -> (b < n)%nat) ->
  exists innermost', foldM (fun innermost block => vset block (Some child) innermost) innermost l = Ok innermost' :> result E _ /\
    array n (fun b => if decide (b ∈ l) then Some child else I b) innermost'.
Proof.
  revert I innermost. induction l as [|b l IH]; intros I innermost HI Hl; cbn [foldM].
  - exists innermost. split; [done|]. eapply array_ext; [|exact HI]. intros b _. by rewrite decide_False by (apply not_elem_of_nil).
  - unfold vset at 2. rewrite (proj1 HI), decide_True by (apply Hl; by left). msimpl.
    destruct (IH (<[b := Some child]> I) (<[b := Some child]> innermost)) as (innermost' & -> & HI'); [by apply array_insert|intros; apply Hl; by right|].
    exists innermost'. split; [done|]. eapply array_ext; [|exact HI']. intros x _. cbn. destruct (decide (x ∈ b :: l)) as [Hx|Hx].
    + case_decide as Hxl; [done|]. apply elem_of_cons in Hx as [->|?]; [by rewrite fn_lookup_insert|done].
    + apply not_elem_of_cons in Hx as [Hxb Hxl]. rewrite decide_False by done. by rewrite fn_lookup_insert_ne.
Qed.

Section nest.
Context (n : nat) (loops0 : list NaturalLoop).
Implicit Types (i j k b c : nat) (l : NaturalLoop) (o : option nat) (I : nat -> option nat).
Context (Hheader : forall i l, loops0 !! i = Some l -> header l ∈ loop_blocks l /\ forall b, b ∈ loop_blocks l -> (b < n)%nat).
Context (Hnest : forall i j l l', (i < j)%nat -> loops0 !! i = Some l -> loops0 !! j = Some l' -> header l ∈ loop_blocks l' -> loop_blocks l ⊆ loop_blocks l').

(** [o] is the least loop from [k] on that holds [b]. *)
Definition least_from k b o : Prop :=
  match o with
  | Some j => (k <= j)%nat /\ (exists l, loops0 !! j = Some l /\ b ∈ loop_blocks l) /\
      forall j' l', (k <= j')%nat -> loops0 !! j' = Some l' -> b ∈ loop_blocks l' -> (j <= j')%nat
  | None => forall j' l', (k <= j')%nat -> loops0 !! j' = Some l' -> b ∉ loop_blocks l'
  end.

Record nest_inv c (li : list NaturalLoop * list (option nat)) I : Prop := {
  ni_length : length li.1 = length loops0;
  ni_loops i l : loops0 !! i = Some l -> exists o, li.1 !! i = Some (NatLoop (header l) (loop_blocks l) o) /\ ((c <= i)%nat -> least_from (S i) (header l) o);
  ni_array : array n I li.2;
  ni_least b : (b < n)%nat -> least_from c b (I b) }.

Lemma loop_nest_spec k li I : nest_inv (S k) li I -> (k < length loops0)%nat ->
  exists li' I', loop_nest li k = Ok li' /\ nest_inv k li' I'.
Proof.
  intros Hi Hk. destruct (lookup_lt_is_Some_2 loops0 k Hk) as [l Hl]. destruct (ni_loops _ _ _ Hi k l Hl) as (o & Ho & _).
  destruct (Hheader k l Hl) as [Hh Hlt]. unfold loop_nest. rewrite Ho. msimpl. cbn [header].
  rewrite (array_lookup _ _ _ (header l) (ni_array _ _ _ Hi)) by auto. msimpl. pose proof (ni_least _ _ _ Hi (header l) (Hlt _ Hh)) as Hleast.
  destruct (vset_all (E:=CfgError) n I li.2 k (ascending (loop_blocks l)) (ni_array _ _ _ Hi)) as (innermost & Hv & HI); [by intros b Hb%elem_of_ascending; apply Hlt|].
  assert (Hnext : nest_inv k (<[k := NatLoop (header l) (loop_blocks l) (I (header l))]> li.1, innermost) (fun b => if decide (b ∈ ascending (loop_blocks l)) then Some k else I b)).
  { split; cbn [fst snd].
    - rewrite length_insert. apply (ni_length _ _ _ Hi).
    - intros i l' Hl'. destruct (decide (i = k)) as [->|Hne].
      + simplify_eq. exists (I (header l)). rewrite list_lookup_insert_eq by (by rewrite (ni_length _ _ _ Hi)). done.
      + rewrite list_lookup_insert_ne by done. destruct (ni_loops _ _ _ Hi i l' Hl') as (o' & Ho' & Hle). exists o'. split; [done|].
        intros Hki. apply Hle. lia.
    - done.
    - intros b Hb. case_decide as Hin; rewrite elem_of_ascending in Hin.
      + split; [done|]. split; [by exists l|]. intros; lia.
      + pose proof (ni_least _ _ _ Hi b Hb) as Hb'. destruct (I b) as [j|]; cbn in *.
        * destruct Hb' as (Hj & Hex & Hmin). split; [lia|]. split; [done|]. intros j' l' Hj' Hl' Hbl. destruct (decide (j' = k)) as [->|]; [simplify_eq; done|].
          apply (Hmin j' l'); [lia|done|done].
        * intros j' l' Hj' Hl'. destruct (decide (j' = k)) as [->|]; [by simplify_eq|]. apply (Hb' j' l'); [lia|done]. }
  destruct (I (header l)) as [j|] eqn:Hj; cbn [least_from] in Hleast.
  - destruct Hleast as (Hkj & (l' & Hl' & Hin) & _). destruct (ni_loops _ _ _ Hi j l' Hl') as (o' & Ho' & _). rewrite Ho'. msimpl. cbn [loop_blocks].
    rewrite bool_decide_eq_true_2 by (apply (Hnest k j l l'); [lia|done..]). cbn [loop_blocks]. rewrite Hv. msimpl. by eexists _, _.
  - cbn [loop_blocks]. rewrite Hv. msimpl. by eexists _, _.
Qed.

Lemma loop_nests_spec k li I : nest_inv k li I -> (k <= length loops0)%nat ->
  exists li' I', foldM loop_nest li (rev (seq 0 k)) = Ok li' /\ nest_inv 0 li' I'.
Proof.
  revert li I. induction k as [|k IH]; intros li I Hi Hk; [by exists li, I|]. rewrite seq_S, rev_app_distr. cbn [rev app foldM Nat.add].
  destruct (loop_nest_spec k li I Hi ltac:(lia)) as (li1 & I1 & -> & Hi1). msimpl. apply (IH li1 I1); [done|lia].
Qed.
End nest.

(** ** The whole pass *)

(** [x] is in the natural loop of [h]. *)
Definition in_loop (g : graph) (root h x : nat) : Prop := body g (fun tail => edge g tail h /\ dominates_spec g root h tail) h x.

(** The parent of [l] is the least loop that strictly contains it. *)
Definition parent_ok (loops : list NaturalLoop) (l : NaturalLoop) : Prop :=
  match loop_parent l with
  | Some j => exists o, loops !! j = Some o /\ loop_blocks l ⊂ loop_blocks o /\
      forall o', o' ∈ loops -> loop_blocks l ⊂ loop_blocks o' -> loop_blocks o ⊆ loop_blocks o'
  | None => forall o', o' ∈ loops -> ~ loop_blocks l ⊂ loop_blocks o'
  end.

Record loops_ok (g : graph) (root : nat) (loops : list NaturalLoop) : Prop := {
  lo_nodup : NoDup (header <$> loops);
  lo_headers h : h ∈ header <$> loops <-> exists tail, edge g tail h /\ dominates_spec g root h tail;
  lo_blocks l : l ∈ loops -> forall x, x ∈ loop_blocks l <-> in_loop g root (header l) x;
  lo_sorted : StronglySorted ord_le (loop_key <$> loops);
  lo_parent l : l ∈ loops -> parent_ok loops l }.

(** The nesting pass changes only the parents. *)
Lemma sorted_keys (loops : list NaturalLoop) : StronglySorted (key_le loop_key) loops -> StronglySorted ord_le (loop_key <$> loops).
Proof. induction 1 as [|l loops Hs IH Hall]; csimpl; constructor; [done|]. rewrite Forall_fmap. exact Hall. Qed.

Lemma sorted_sizes (loops : list NaturalLoop) i j l l' : StronglySorted (key_le loop_key) loops -> loops !! i = Some l -> loops !! j = Some l' -> (i <= j)%nat ->
  (size (loop_blocks l) <= size (loop_blocks l'))%nat.
Proof.
  intros Hs Hi Hj Hij. destruct (decide (i = j)) as [->|Hne]; [by simplify_eq|].
  assert (Hle : key_le loop_key l l').
  { rewrite <- (take_drop j loops) in Hs. eapply StronglySorted_app_1_elem_of; [exact Hs| |].
    - apply (list_elem_of_lookup_2 _ i). by rewrite lookup_take_lt by lia.
    - apply (list_elem_of_lookup_2 _ 0). by rewrite lookup_drop, Nat.add_0_r. }
  destruct Hle as [Hle _]. exact Hle.
Qed.

Section loops.
Context (g preds : graph) (root : nat) (t : DominatorTree) (Hdt : dominator_tree g root t) (Hrev : reverses g preds).
Context (Hall : forall b, (b < length g)%nat -> reachable g root b).
Abbreviation n := (length g).
Implicit Types (h b x y tail : nat).

Lemma edge_reachable a b : edge g a b -> reachable g root a /\ reachable g root b.
Proof.
  intros He. assert (Ha : (a < n)%nat) by (destruct He as (row & Hrow & _); eauto with index).
  split; [by apply Hall|]. apply Hall. by apply (dt_closed _ _ _ Hdt a).
Qed.

Lemma back_spec h tail : back t (edge g) h tail <-> edge g tail h /\ dominates_spec g root h tail.
Proof.
  unfold back. rewrite (to_dominates _ _ _ (dt_tree _ _ _ Hdt)). split; intros [He Hd]; (split; [done|]); destruct (edge_reachable _ _ He) as [Ht _].
  - apply (dt_above _ _ _ Hdt); [done|]. by destruct Hd.
  - split; [by apply (dt_above _ _ _ Hdt)|by apply (dt_reachable _ _ _ Hdt)].
Qed.

(** A header dominates its loop. *)
Lemma in_loop_dominated h x : in_loop g root h x -> dominates_spec g root h x.
Proof.
  intros [->|(tail & l & [_ Hd] & Hp & Hl)] k Hk; [by eapply path_end|]. destruct (path_head _ _ _ _ Hp) as [l' ->].
  specialize (Hd _ (path_app _ _ _ _ _ _ Hk Hp)). apply elem_of_app in Hd as [?|Hin]; [done|]. destruct Hl. by right.
Qed.

Lemma in_loop_reachable h x : in_loop g root h x -> (h < n)%nat -> reachable g root x.
Proof.
  intros [->|(tail & l & [He _] & Hp & _)] Hh; [by apply Hall|]. destruct Hp as [x|x y tail l He' Hp]; [by destruct (edge_reachable _ _ He)|by destruct (edge_reachable _ _ He')].
Qed.

Lemma dominance_antisym a b : reachable g root a -> reachable g root b -> dominates_spec g root a b -> dominates_spec g root b a -> a = b.
Proof.
  intros Ha Hb Hab Hba. apply (dt_above _ _ _ Hdt) in Hab; [|done]. apply (dt_above _ _ _ Hdt) in Hba; [|done].
  apply (dt_reachable _ _ _ Hdt) in Ha, Hb. by apply (above_antisym t root (dt_tree _ _ _ Hdt)).
Qed.

(** A loop whose header is in another loop is within it. *)
Lemma loops_nest h h' x : (h < n)%nat -> (h' < n)%nat -> in_loop g root h' h -> in_loop g root h x -> in_loop g root h' x.
Proof.
  intros Hh Hh' Hin Hx. destruct (decide (h = h')) as [->|Hne]; [done|]. destruct Hx as [->|(tail & l & [He Hd] & Hp & Hl)]; [done|].
  destruct Hin as [?|(tail' & l' & Ht' & Hp' & Hl')]; [done|]. right.
  destruct (path_trans g x h tail' (l ++ [h]) l' (path_snoc _ _ _ _ _ Hp He) Hp') as (k & Hk & Hkin). exists tail', k. split; [done|]. split; [done|].
  rewrite Hkin, elem_of_app, list_elem_of_singleton. intros [[Hlh| ->]|?]; [|done|done].
  (* h' on the way to h would be dominated by it *)
  assert (Hloop : in_loop g root h h').
  { apply list_elem_of_split in Hlh as (l1 & l2 & ->). right. exists tail, (h' :: l2). split; [done|]. split; [by apply path_split in Hp as [_ ?]|set_solver]. }
  apply Hne. apply dominance_antisym; [by apply Hall|by apply Hall|by apply in_loop_dominated|].
  apply in_loop_dominated. right. by exists tail', l'.
Qed.

(** Of two loops with a common block, one holds the header of the other. *)
Lemma loops_comparable_by h h' x : (h < n)%nat -> (h' < n)%nat -> dominates_spec g root h h' -> dominates_spec g root h' x -> in_loop g root h x -> in_loop g root h h'.
Proof.
  intros Hh Hh' Hd Hd' Hx. pose proof (in_loop_dominated h x Hx) as Hhx. destruct (in_loop_reachable h x Hx Hh) as [m Hm].
  destruct (decide (h' = h)) as [->|Hne]; [by left|]. destruct (Hall h' Hh') as [l0 Hl0].
  (* a path to h that avoids h' *)
  assert (Hpre : exists l, path g root l h /\ h' ∉ l).
  { destruct (list_elem_of_split_l _ _ (Hd _ Hl0)) as (l1 & l2 & -> & Hl1). apply path_split in Hl0 as [Hp _]. exists (l1 ++ [h]). split; [done|].
    intros [Hin|?%list_elem_of_singleton]%elem_of_app; [|done]. apply list_elem_of_split in Hin as (k1 & k2 & ->). rewrite <- app_assoc in Hp.
    apply path_split in Hp as [Hp _]. apply Hd in Hp. set_solver. }
  destruct Hpre as (l & Hl & Hlh'). destruct Hx as [->|(tail & k & Htail & Hp & Hk)]; [by apply Hd' in Hl|].
  destruct (list_elem_of_split_r _ _ (Hhx _ Hm)) as (m1 & m2 & -> & Hm2). apply path_split in Hm as [_ Hm].
  pose proof (Hd' _ (path_app _ _ _ _ _ _ Hl Hm)) as Hin. apply elem_of_app in Hin as [?|Hin]; [done|].
  apply list_elem_of_split in Hin as (q1 & q2 & ->). change (h :: q1 ++ h' :: q2) with ((h :: q1) ++ h' :: q2) in Hm. apply path_split in Hm as [_ Hm].
  destruct (path_trans _ _ _ _ _ _ Hm Hp) as (r & Hr & Hrin). right. exists tail, r. split; [done|]. split; [done|]. rewrite Hrin. set_solver.
Qed.

Lemma loops_comparable h h' x : (h < n)%nat -> (h' < n)%nat -> in_loop g root h x -> in_loop g root h' x -> in_loop g root h h' \/ in_loop g root h' h.
Proof.
  intros Hh Hh' Hx Hx'. pose proof (in_loop_dominated _ _ Hx) as Hd. pose proof (in_loop_dominated _ _ Hx') as Hd'.
  assert (Hrx : reachable g root x) by (by eapply in_loop_reachable).
  destruct (above_linear (idom t) h h' x) as [Ha|Ha]; [by apply (dt_above _ _ _ Hdt)..| |].
  - left. apply (loops_comparable_by h h' x); [done|done|apply (dt_above _ _ _ Hdt); [by apply Hall|done]|done|done].
  - right. apply (loops_comparable_by h' h x); [done|done|apply (dt_above _ _ _ Hdt); [by apply Hall|done]|done|done].
Qed.

Lemma in_loop_header_range h tail : edge g tail h -> (h < n)%nat.
Proof. apply (dt_closed _ _ _ Hdt). Qed.

(** The loops before nesting. *)
Lemma loops_of_headers (H : nat -> option (gset nat)) by_header : array n H by_header -> (forall h, header_ok g t (edge g) h (H h)) ->
  let loops := omap (fun hb : nat * option (gset nat) => (fun blocks => NatLoop hb.1 blocks None) <$> hb.2) (enumerate by_header) in
  NoDup (header <$> loops) /\ (forall h, h ∈ header <$> loops <-> exists tail, edge g tail h /\ dominates_spec g root h tail) /\
  forall l, l ∈ loops -> (header l < n)%nat /\ loop_parent l = None /\ forall x, x ∈ loop_blocks l <-> in_loop g root (header l) x.
Proof.
  intros HA HH loops.
  assert (Hin : forall l, l ∈ loops <-> exists B, (header l < n)%nat /\ H (header l) = Some B /\ l = NatLoop (header l) B None).
  { intros l. unfold loops. rewrite list_elem_of_omap. split.
    - intros ([h o] & Hho%elem_of_enumerate & Hl). cbn in Hl. assert (Hh : (h < n)%nat) by (rewrite <- (proj1 HA); eauto with index).
      rewrite (array_lookup _ _ _ h HA Hh) in Hho. injection Hho as <-. destruct (H h) as [B|] eqn:HB; [|done]. injection Hl as <-. cbn. by exists B.
    - intros (B & Hh & HB & ->). exists (header l, Some B). split; [|done]. apply elem_of_enumerate. cbn. rewrite (array_lookup _ _ _ _ HA Hh). by rewrite HB. }
  split; [|split].
  - unfold loops. assert (Hseq : NoDup (enumerate by_header).*1) by (rewrite fst_zip by (by rewrite length_seq); apply NoDup_seq).
    revert Hseq. generalize (enumerate by_header). clear. induction l as [|[h [B|]] l IH]; csimpl; [constructor| |]; intros [Hh Hnd]%NoDup_cons; [|by apply IH].
    constructor; [|by apply IH]. intros (l' & Heq & Hin)%list_elem_of_fmap. apply list_elem_of_omap in Hin as ([h' o] & Ho & Hl'). apply Hh.
    cbn in Hl'. destruct o as [B'|]; [|done]. injection Hl' as <-. cbn in Heq. subst h'. apply list_elem_of_fmap. by exists (h, Some B').
  - intros h. rewrite list_elem_of_fmap. split.
    + intros (l & -> & (B & Hh & HB & _)%Hin). specialize (HH (header l)). rewrite HB in HH. destruct HH as ((tail & Ht) & _). exists tail. by apply back_spec.
    + intros (tail & Ht). pose proof (in_loop_header_range _ _ (proj1 Ht)) as Hh. apply back_spec in Ht. specialize (HH h).
      destruct (H h) as [B|] eqn:HB; [|by destruct (HH tail)]. exists (NatLoop h B None). split; [done|]. apply Hin. by exists B.
  - intros l (B & Hh & HB & Hl)%Hin. split; [done|]. split; [by rewrite Hl|]. intros x. specialize (HH (header l)). rewrite HB in HH.
    destruct HH as (_ & Hi & Ht). rewrite Hl. cbn [loop_blocks header]. rewrite (flood_body g _ _ _ Hi Ht). unfold in_loop.
    split; apply body_mono; intros y; by apply back_spec.
Qed.

(** The loops after the nesting pass. *)
Lemma nested_loops_ok (loops0 : list NaturalLoop) li I : nest_inv n loops0 0 li I -> NoDup (header <$> loops0) ->
  (forall h, h ∈ header <$> loops0 <-> exists tail, edge g tail h /\ dominates_spec g root h tail) -> StronglySorted (key_le loop_key) loops0 ->
  (forall l, l ∈ loops0 -> (header l < n)%nat /\ loop_parent l = None /\ forall x, x ∈ loop_blocks l <-> in_loop g root (header l) x) ->
  (forall l l', l ∈ loops0 -> l' ∈ loops0 -> header l ∈ loop_blocks l' -> loop_blocks l ⊆ loop_blocks l') ->
  (forall l, l ∈ loops0 -> header l ∈ loop_blocks l) -> loops_ok g root li.1.
Proof.
  intros Hi Hnd Hheads Hsort Hmem Hinc Hhead.
  assert (Hback : forall i l, li.1 !! i = Some l -> exists l0, loops0 !! i = Some l0 /\ header l = header l0 /\ loop_blocks l = loop_blocks l0 /\ least_from loops0 (S i) (header l0) (loop_parent l)).
  { intros i l Hl. destruct (lookup_lt_is_Some_2 loops0 i) as [l0 Hl0]; [rewrite <- (ni_length _ _ _ _ _ Hi); eauto with index|].
    destruct (ni_loops _ _ _ _ _ Hi i l0 Hl0) as (o & Ho & Hle). rewrite Ho in Hl. injection Hl as <-. exists l0. split_and!; [done..|]. apply Hle. lia. }
  assert (Hsame : Forall2 (fun l0 l => header l0 = header l /\ loop_blocks l0 = loop_blocks l) loops0 li.1).
  { apply Forall2_same_length_lookup. split; [by rewrite (ni_length _ _ _ _ _ Hi)|]. intros i l0 l Hl0 Hl.
    destruct (Hback i l Hl) as (l1 & Hl1 & -> & -> & _). by simplify_eq. }
  assert (Hfmap : forall {A} (f : NaturalLoop -> A), (forall l l', header l = header l' -> loop_blocks l = loop_blocks l' -> f l = f l') -> f <$> li.1 = f <$> loops0).
  { intros A f Hf. symmetry. clear -Hsame Hf. induction Hsame as [|l0 l ls0 ls [? ?] _ IH]; csimpl; [done|]. f_equal; [by apply Hf|done]. }
  assert (Hin : forall l, l ∈ li.1 -> exists i l0, loops0 !! i = Some l0 /\ l0 ∈ loops0 /\ header l = header l0 /\ loop_blocks l = loop_blocks l0 /\ least_from loops0 (S i) (header l0) (loop_parent l)).
  { intros l [i Hl]%list_elem_of_lookup. destruct (Hback i l Hl) as (l0 & Hl0 & ?). exists i, l0. split; [done|]. split; [by eapply list_elem_of_lookup_2|done]. }
  split.
  - rewrite Hfmap; [done|]. by intros.
  - intros h. rewrite Hfmap; [apply Hheads|]. by intros.
  - intros l (i & l0 & _ & Hl0 & -> & -> & _)%Hin. by apply Hmem.
  - rewrite Hfmap; [by apply sorted_keys|]. unfold loop_key. by intros l l' -> ->.
  - intros l (i & l0 & Hl0 & Hl0in & _ & Hblk & Hleast)%Hin. unfold parent_ok. rewrite Hblk.
    (* a loop that strictly contains l0 comes after it and holds its header *)
    assert (Hafter : forall o', o' ∈ li.1 -> loop_blocks l0 ⊂ loop_blocks o' -> exists k o0, (S i <= k)%nat /\ loops0 !! k = Some o0 /\ loop_blocks o' = loop_blocks o0 /\ header l0 ∈ loop_blocks o0).
    { intros o' (k & o0 & Hk & _ & _ & Hbo & _)%Hin Hsub. rewrite Hbo in *. exists k, o0. split_and!; [|done|done|by apply Hsub, Hhead].
      destruct (decide (S i <= k)%nat) as [?|Hle]; [done|]. exfalso. pose proof (sorted_sizes _ k i o0 l0 Hsort Hk Hl0 ltac:(lia)) as Hsz.
      pose proof (subset_size _ _ Hsub). lia. }
    destruct (loop_parent l) as [j|]; cbn in Hleast.
    + destruct Hleast as (Hij & (o0 & Hj & Hho) & Hmin). destruct (ni_loops _ _ _ _ _ Hi j o0 Hj) as (o & Ho & _). eexists. split; [exact Ho|]. cbn [loop_blocks].
      assert (Ho0 : o0 ∈ loops0) by (by eapply list_elem_of_lookup_2).
      split.
      * split; [by apply Hinc|]. intros Hback'. assert (Hhl : header o0 = header l0).
        { destruct (Hmem o0 Ho0) as (Hno & _ & Hbo), (Hmem l0 Hl0in) as (Hnl & _ & Hbl).
          apply dominance_antisym; [by apply Hall..|apply in_loop_dominated; by apply Hbo|apply in_loop_dominated; apply Hbl, Hback', Hbo; by left]. }
        assert (Hi1 : (header <$> loops0) !! i = Some (header l0)) by (by rewrite list_lookup_fmap, Hl0).
        assert (Hj1 : (header <$> loops0) !! j = Some (header l0)) by (by rewrite list_lookup_fmap, Hj, <- Hhl).
        pose proof (NoDup_lookup _ _ _ _ Hnd Hi1 Hj1). lia.
      * intros o' Ho' Hsub. destruct (Hafter o' Ho' Hsub) as (k & o1 & Hk & Hk1 & -> & Hin1). pose proof (Hmin k o1 Hk Hk1 Hin1) as Hjk.
        pose proof (sorted_sizes _ j k o0 o1 Hsort Hj Hk1 Hjk) as Hsz.
        (* both hold the header of l0, so one is within the other *)
        assert (Ho1 : o1 ∈ loops0) by (by eapply list_elem_of_lookup_2). destruct (Hmem o0 Ho0) as (Hn0 & _ & Hb0), (Hmem o1 Ho1) as (Hn1 & _ & Hb1).
        destruct (loops_comparable (header o0) (header o1) (header l0)) as [Hc|Hc]; [done|done|by apply Hb0|by apply Hb1| |apply Hinc; [done|done|by apply Hb1]].
        assert (Hrev' : loop_blocks o1 ⊆ loop_blocks o0) by (apply Hinc; [done|done|by apply Hb0]). assert (loop_blocks o1 = loop_blocks o0) as ->; [|done]. apply set_subseteq_size_eq; [done|]. lia.
    + intros o' Ho' Hsub. destruct (Hafter o' Ho' Hsub) as (k & o1 & Hk & Hk1 & _ & Hin1). by apply (Hleast k o1).
Qed.

Lemma natural_loops_spec : exists loops, natural_loops preds g t = Ok loops /\ loops_ok g root loops.
Proof.
  unfold natural_loops. destruct (headers_spec (E:=CfgError) g preds root t Hdt Hrev) as (H & by_header & -> & HA & HH). msimpl.
  destruct (loops_of_headers H by_header HA HH) as (Hnd & Hheads & Hmem). set (raw := omap _ _) in *. set (loops0 := sort_by_key loop_key raw).
  assert (Hperm : loops0 ≡ₚ raw) by apply sort_by_key_permutation. assert (Hsort : StronglySorted (key_le loop_key) loops0) by apply sort_by_key_sorted.
  assert (Hmem0 : forall l, l ∈ loops0 -> (header l < n)%nat /\ loop_parent l = None /\ forall x, x ∈ loop_blocks l <-> in_loop g root (header l) x) by (intros l; rewrite Hperm; apply Hmem).
  assert (Hinc : forall l l', l ∈ loops0 -> l' ∈ loops0 -> header l ∈ loop_blocks l' -> loop_blocks l ⊆ loop_blocks l').
  { intros l l' Hl Hl' Hh x Hx. apply Hmem0 in Hl as (? & _ & Hb), Hl' as (? & _ & Hb'). apply Hb'. apply Hb in Hx. apply Hb' in Hh.
    by apply (loops_nest (header l) (header l')). }
  assert (Hhead0 : forall l, l ∈ loops0 -> header l ∈ loop_blocks l) by (intros l Hl; destruct (Hmem0 l Hl) as (_ & _ & Hb); apply Hb; by left).
  destruct (loop_nests_spec n loops0) with (k := length loops0) (li := (loops0, replicate n (@None nat))) (I := fun _ : nat => @None nat) as (li & I & -> & Hi).
  { intros i l Hl%list_elem_of_lookup_2. split; [by apply Hhead0|]. intros b Hb. destruct (Hmem0 l Hl) as (Hh & _ & Hbl). apply Hbl in Hb.
    apply reachable_lt with (g := g) (a := root); [apply (dt_closed _ _ _ Hdt)|apply (dt_root _ _ _ Hdt)|by eapply in_loop_reachable]. }
  { intros i j l l' _ Hl%list_elem_of_lookup_2 Hl'%list_elem_of_lookup_2. by apply Hinc. }
  { split; cbn [fst snd]; [done| |apply array_replicate|].
    - intros i l Hl. exists None. split; [|intros ?; apply lookup_lt_Some in Hl; lia]. rewrite Hl. f_equal.
      destruct (Hmem0 l (list_elem_of_lookup_2 _ _ _ Hl)) as (_ & Hp & _). destruct l; cbn in *. by subst.
    - intros b _ j l Hj Hl. apply lookup_lt_Some in Hl. lia. }
  { done. }
  msimpl. exists li.1. split; [done|]. pose proof (nested_loops_ok loops0 li I Hi) as Hok. apply Hok; try done.
  - rewrite Hperm. done.
  - intros h. rewrite Hperm. apply Hheads.
Qed.
End loops.
