(* ===== verification/CfgScc.v ===== *)
(** * CfgScc: strongly connected regions

    The two passes of [CfgLoops.strongly_connected_regions] compute the
    strongly connected components, when the root reaches every block: a pass
    of [dfs] leaves a finishing order from which the blocks that reach a seed
    without being assigned yet are its component. *)

From stdpp Require Import functions.
From S2P Require Import Prelude Specs Order Graph Cfg LtCorrect CfgTree CfgTreeFacts CfgDominators CfgLoops.

(** ** Segments of the finishing order *)

Section segments.
Context (g : graph) (entry : nat) (Hclosed : closed g) (Hentry : (entry < length g)%nat).
Implicit Types (s x y : nat).

(** When [s] was found the blocks [F] were finished, with edges only among
    themselves or to the blocks below [s] on the stack; the blocks [D] that
    finish between [F] and [s] are reached from [s]. *)
Definition segment (order post : list nat) s : Prop := exists F D rest : list nat, order = F ++ D ++ s :: rest /\ F `prefix_of` post /\
  (forall x, x ∈ D -> reachable g s x) /\ forall x y, x ∈ F -> edge g x y -> y ∈ F \/ y ∈ rest.

Definition segments st : Prop := forall s, s ∈ finish_order st -> segment (finish_order st) (postorder st) s.

Lemma segment_insert (post stack : list nat) block s x : edge g block s ->
  segment (post ++ block :: stack) post x -> segment (post ++ s :: block :: stack) post x.
Proof.
  intros He (F & D & rest & Heq & [k ->] & HD & HF). rewrite <- !app_assoc in Heq. apply app_inv_head in Heq.
  apply app_eq_inv in Heq as [(m & -> & Heq)|(m & -> & Heq)].
  - destruct m as [|x' m]; cbn in Heq.
    + injection Heq as -> ->. exists F, (D ++ [s]), stack. rewrite app_nil_r, <- !app_assoc. cbn. split; [done|]. split; [by eexists|]. split; [|done].
      intros y [Hy| ->%list_elem_of_singleton]%elem_of_app; [auto|]. eapply reachable_snoc; [apply reachable_refl|done].
    + injection Heq as -> ->. exists F, D, (m ++ s :: block :: stack). rewrite <- !app_assoc. cbn. split; [done|]. split; [by eexists|]. split; [done|].
      intros y z Hy Hyz. destruct (HF y z Hy Hyz) as [?|?]; [by left|right; set_solver].
  - exists F, (k ++ s :: m), rest. rewrite <- !app_assoc. cbn. rewrite <- Heq. split; [done|]. split; [by eexists|]. split; [|done].
    intros y Hy. destruct (decide (y = s)) as [->|Hne]; [|apply HD; set_solver].
    destruct m as [|b m]; cbn in Heq; injection Heq as <- _; (eapply reachable_snoc; [|exact He]); [apply reachable_refl|apply HD; set_solver].
Qed.

Lemma dfs_step_segments {E} st block k rest st' : dfs_inv g entry st -> segments st -> dfs_stack st = (block, k) :: rest ->
  dfs_step g st block k rest = Ok st' :> result E _ -> segments st'.
Proof.
  intros Hi Hs Hst. pose proof (di_finished _ _ _ Hi) as Hfin. destruct st as [disc post stack]. cbn in Hst. subst stack.
  unfold dfs_step, segments, finish_order in *. cbn [discovered postorder dfs_stack fmap list_fmap fst] in *. destruct (g !! block) as [row|] eqn:Hrow; [|done]. msimpl.
  case_decide as Hend.
  { intros [= <-] s. cbn. rewrite <- app_assoc. intros Hin. destruct (Hs s Hin) as (F & D & rest' & Heq & [k' Hk'] & ?).
    exists F, D, rest'. split; [done|]. split; [|done]. exists (k' ++ [block]). by rewrite app_assoc, Hk'. }
  destruct (row !! k) as [x|] eqn:Hx; [|done]. msimpl. destruct (disc !! x) as [[]|]; [|msimpl|done]; msimpl; intros [= <-]; [done|].
  assert (He : edge g block x) by (exists row; split; [done|by eapply list_elem_of_lookup_2]). intros s. cbn. intros Hin. destruct (decide (s = x)) as [->|Hne].
  - exists post, [], (block :: rest.*1). split; [done|]. split; [done|]. split; [by intros ? ?%not_elem_of_nil|].
    intros y z Hy Hyz. pose proof (Hfin y z Hy Hyz) as Hz. apply elem_of_app in Hz as [?|?]; [by left|by right].
  - apply segment_insert; [done|]. apply Hs. set_solver.
Qed.

Lemma dfs_loop_segments {E} fuel st st' : dfs_inv g entry st -> segments st -> dfs_loop fuel g st = Ok st' :> result E _ -> segments st'.
Proof.
  revert st. induction fuel as [|fuel IH]; intros st Hi Hs; cbn [dfs_loop]; destruct (dfs_stack st) as [|[block k] rest] eqn:Hst; try (by intros [= <-]); try done.
  destruct (dfs_step_spec g entry Hclosed Hentry (E:=E) st block k rest Hi Hst) as (st1 & Hstep & Hi1 & _). rewrite Hstep. msimpl.
  intros Hloop. apply (IH st1); [done| |done]. exact (dfs_step_segments st block k rest st1 Hi Hs Hst Hstep).
Qed.
End segments.

(** The search from the root leaves every block in the order, and the other
    seeds find nothing new. *)
Lemma scc_search_spec {E} g root : closed g -> (root < length g)%nat -> (forall b, (b < length g)%nat -> reachable g root b) ->
  exists visited post, foldM (scc_search g) (replicate (length g) false, []) (root :: filter (fun block => block <> root) (seq 0 (length g))) = Ok (visited, post) :> result E _ /\
    NoDup post /\ (forall b, b ∈ post <-> (b < length g)%nat) /\ forall s, s ∈ post -> segment g post post s.
Proof.
  intros Hclosed Hroot Hall. cbn [foldM]. unfold scc_search at 2. cbn [fst snd]. rewrite lookup_replicate_2 by done. msimpl.
  pose proof (dfs_spec g root Hclosed Hroot (E:=E)) as (st & Hdfs & Hlen & Hdisc & Hpost & Hnd & _). unfold dfs, vset in Hdfs.
  rewrite decide_True in Hdfs by (by rewrite length_replicate). msimpl_in Hdfs. rewrite Hdfs. msimpl.
  assert (Hseg : segments g st).
  { eapply (dfs_loop_segments g root Hclosed Hroot); [by apply dfs_initial| |exact Hdfs]. intros s Hs%list_elem_of_singleton. subst s.
    exists [], [], []. split; [done|]. split; [by exists []|]. split; intros ? ?%not_elem_of_nil || intros ? ? ?%not_elem_of_nil; done. }
  assert (Hempty : dfs_stack st = []).
  { destruct (dfs_loop_spec g root Hclosed Hroot (E:=E) (dfs_fuel g) _ (dfs_initial g root Hclosed Hroot)) as (st1 & Hst1 & _ & ?); [|congruence].
    pose proof (dfs_measure_initial g root Hroot). lia. }
  assert (Hskip : forall seeds, (forall b, b ∈ seeds -> (b < length g)%nat) -> foldM (scc_search g) (discovered st, postorder st) seeds = Ok (discovered st, postorder st) :> result E _).
  { induction seeds as [|b seeds IH]; intros Hb; cbn [foldM]; [done|]. unfold scc_search at 2. cbn [fst snd].
    rewrite (proj2 (Hdisc b)) by (apply Hall, Hb; by left). msimpl. apply IH. intros; apply Hb; by right. }
  exists (discovered st), (postorder st). split.
  - apply Hskip. intros b [_ Hb%elem_of_seq]%list_elem_of_filter. lia.
  - split; [done|]. split.
    + intros b. rewrite Hpost. split; [by apply reachable_lt|apply Hall].
    + intros s Hs. specialize (Hseg s). unfold finish_order in Hseg. rewrite Hempty, app_nil_r in Hseg. by apply Hseg.
Qed.

(** ** Components *)

Definition mutual (g : graph) (a b : nat) : Prop := reachable g a b /\ reachable g b a.

Section components.
Context (g preds : graph) (post : list nat) (Hclosed : closed g) (Hrev : reverses g preds).
Context (Hnodup : NoDup post) (Hpost : forall b, b ∈ post <-> (b < length g)%nat) (Hseg : forall s, s ∈ post -> segment g post post s).
Abbreviation n := (length g).
Implicit Types (a b s x y i j : nat) (C : nat -> option nat) (members stack : list nat).

Lemma assign_spec {E} id C component stack (row : list nat) : array n C component -> (forall a, a ∈ row -> (a < n)%nat) ->
  exists C' component' new, foldM (assign_component id) (component, stack) row = Ok (component', new ++ stack) :> result E _ /\ array n C' component' /\
    NoDup new /\ (forall x, x ∈ new <-> x ∈ row /\ C x = None) /\ forall x, C' x = if decide (x ∈ new) then Some id else C x.
Proof.
  revert C component stack. induction row as [|a row IH]; intros C component stack HC Hrow; cbn [foldM].
  { exists C, component, []. split_and!; [done|done|constructor|set_solver|]. intros x. by rewrite decide_False by (apply not_elem_of_nil). }
  unfold assign_component at 2. cbn [fst snd]. rewrite (array_lookup _ _ _ a HC) by (apply Hrow; by left). msimpl. destruct (C a) as [i|] eqn:Ha.
  - destruct (IH C component stack HC) as (C' & component' & new & -> & HC' & Hnd & Hin & Hval); [intros; apply Hrow; by right|].
    exists C', component', new. split_and!; [done..| |done]. intros x. rewrite Hin. set_solver.
  - destruct (IH (<[a := Some id]> C) (<[a := Some id]> component) (a :: stack)) as (C' & component' & new & -> & HC' & Hnd & Hin & Hval);
      [by apply array_insert|intros; apply Hrow; by right|].
    assert (Hna : a ∉ new) by (intros [_ Hx]%Hin; by rewrite fn_lookup_insert in Hx).
    assert (Hmem : forall x, x ∈ new ++ [a] <-> x = a \/ x ∈ new) by set_solver.
    exists C', component', (new ++ [a]). split; [by rewrite <- app_assoc|]. split; [done|]. split; [|split].
    + rewrite <- Permutation_cons_append. by constructor.
    + intros x. rewrite Hmem, Hin, elem_of_cons. destruct (decide (x = a)) as [->|Hne]; [tauto|]. rewrite fn_lookup_insert_ne by done. tauto.
    + intros x. rewrite Hval. destruct (decide (x = a)) as [->|Hne].
      * rewrite decide_False by done. rewrite fn_lookup_insert, decide_True by set_solver. done.
      * rewrite fn_lookup_insert_ne by done. by rewrite (decide_ext (x ∈ new ++ [a]) (x ∈ new)) by (rewrite Hmem; tauto).
Qed.

(** The blocks collected for seed [s], given the assignment [C0] before. *)
Record collect_inv id s C0 C members stack : Prop := {
  cl_assigned x : C x = if decide (x ∈ members ++ stack) then Some id else C0 x;
  cl_nodup : NoDup (members ++ stack);
  cl_seed : s ∈ members ++ stack;
  cl_reach x : x ∈ members ++ stack -> exists l, path g x l s /\ forall y, y ∈ l -> (y < n)%nat /\ C0 y = None;
  cl_closed x y : y ∈ members -> edge g x y -> x ∈ members ++ stack \/ C0 x <> None }.

Lemma collect_lt id s C0 C members stack x : collect_inv id s C0 C members stack -> x ∈ members ++ stack -> (x < n)%nat.
Proof. intros Hi (l & Hp & Hl)%(cl_reach _ _ _ _ _ _ Hi). apply (Hl x). by eapply path_start. Qed.

Lemma collect_component_spec {E} fuel id s C0 C component members stack : array n C component -> collect_inv id s C0 C members stack ->
  (n <= fuel + length members)%nat ->
  exists C' component' members', collect_component fuel preds id component members stack = Ok (component', members') :> result E _ /\
    array n C' component' /\ collect_inv id s C0 C' members' [].
Proof.
  revert C component members stack. induction fuel as [|fuel IH]; intros C component members [|b stack] HC Hi Hfuel; try (by exists C, component, members).
  - assert (Hle : (length (members ++ b :: stack) <= n)%nat) by (apply NoDup_bounded_length; [apply Hi|intros x; by eapply collect_lt]).
    rewrite length_app in Hle. cbn in Hle. lia.
  - cbn [collect_component]. assert (Hb : (b < n)%nat) by (eapply collect_lt; [exact Hi|set_solver]).
    in_range preds b as row Hrow; [by rewrite (proj1 Hrev)|]. rewrite Hrow. msimpl.
    assert (Hedge : forall a, a ∈ row <-> edge g a b).
    { intros a. rewrite <- (proj2 Hrev). split; [intros ?; by exists row|intros (row' & ? & ?); by simplify_eq]. }
    assert (Hrange : forall a, edge g a b -> (a < n)%nat) by (intros a (r & Hr & _); eauto with index).
    destruct (assign_spec (E:=E) id C component stack (rev row) HC) as (C1 & component1 & new & -> & HC1 & Hnd1 & Hin1 & Hval1).
    { intros a Ha%elem_of_rev%Hedge. by apply Hrange. }
    msimpl. cbn [fst snd]. pose proof Hi as [Has Hnd Hseed Hreach Hcl].
    assert (Hnew : forall x, x ∈ new <-> edge g x b /\ ~ (x ∈ members ++ b :: stack) /\ C0 x = None).
    { intros x. rewrite Hin1, elem_of_rev, Hedge, Has. case_decide; [naive_solver|tauto]. }
    assert (Hmem : forall x, x ∈ (members ++ [b]) ++ new ++ stack <-> x ∈ members ++ b :: stack \/ x ∈ new) by set_solver.
    apply (IH C1 component1 (members ++ [b]) (new ++ stack) HC1); [|rewrite length_app; cbn; lia]. split.
    + intros x. rewrite Hval1, Has. rewrite (decide_ext _ _ (Some id) (C0 x) (Hmem x)).
      destruct (decide (x ∈ new)) as [Hxn|Hxn]; [by rewrite decide_True by (by right)|].
      by rewrite (decide_ext (x ∈ members ++ b :: stack) (x ∈ members ++ b :: stack \/ x ∈ new)) by tauto.
    + assert (Hperm : (members ++ [b]) ++ new ++ stack ≡ₚ new ++ (members ++ b :: stack)).
      { rewrite (Permutation_app_comm new (members ++ b :: stack)), <- !app_assoc. cbn. apply Permutation_app_head. constructor. apply Permutation_app_comm. }
      rewrite Hperm. apply NoDup_app. split_and!; [done| |done]. intros x Hx. apply Hnew in Hx. tauto.
    + apply Hmem. by left.
    + intros x [Hx|(Hxb & Hxn & Hx0)%Hnew]%Hmem; [by apply Hreach|]. destruct (Hreach b ltac:(set_solver)) as (l & Hl & Hl0).
      exists (x :: l). split; [by econstructor|]. intros y [->|Hy]%elem_of_cons; [|by apply Hl0]. split; [by apply Hrange|done].
    + intros x y Hy Hxy. rewrite Hmem. apply elem_of_app in Hy as [Hy| ->%list_elem_of_singleton].
      * destruct (Hcl x y Hy Hxy) as [?|?]; [left; by left|by right].
      * destruct (decide (x ∈ members ++ b :: stack)) as [?|Hx]; [left; by left|]. destruct (C0 x) as [i|] eqn:Hx0; [by right|]. left. right. by apply Hnew.
Qed.

(** The blocks assigned so far: unions of components, closed under
    predecessors, that hold the seeds seen. *)
Record scc_inv (seeds : list nat) C (raw : list (list nat)) : Prop := {
  si_in b i : C b = Some i <-> exists m, raw !! i = Some m /\ b ∈ m;
  si_member i m : raw !! i = Some m -> NoDup m /\ StronglySorted Nat.le m /\ (forall x, x ∈ m -> (x < n)%nat) /\ exists s, s ∈ m /\ forall x, x ∈ m <-> mutual g s x;
  si_seeds b : b ∈ seeds -> C b <> None;
  si_edge a b j : edge g a b -> C b = Some j -> exists i, C a = Some i /\ (i <= j)%nat }.

Lemma assigned_closed seeds C raw a b : scc_inv seeds C raw -> reachable g a b -> C b <> None -> C a <> None.
Proof.
  intros Hi [l Hp]. induction Hp as [|a x b l He Hp IH]; [done|]. intros Hb. destruct (C x) as [j|] eqn:Hx; [|by destruct (IH Hb)].
  destruct (si_edge _ _ _ Hi a x j He Hx) as (i & -> & _). done.
Qed.

(** What is collected for an unassigned seed is its component. *)
Lemma collected_component id seeds s C0 C raw members l1 : scc_inv seeds C0 raw -> post = l1 ++ s :: rev seeds -> C0 s = None ->
  collect_inv id s C0 C members [] -> forall x, x ∈ members <-> mutual g s x.
Proof.
  intros Hi Hsplit Hs [Has Hnd Hseed Hreach Hcl] x. rewrite app_nil_r in *. split.
  - intros Hx. destruct (Hreach x ltac:(by rewrite ?app_nil_r)) as (l & Hp & Hl). split; [|by exists l].
    destruct (Hseg s) as (F & D & rest & Heq & _ & HD & HF); [rewrite Hsplit; set_solver|].
    assert (Hrest : rest = rev seeds /\ F ++ D = l1).
    { rewrite Hsplit, app_assoc in Heq. assert (Hlen : length l1 = length (F ++ D)).
      { eapply NoDup_lookup; [exact Hnodup|rewrite Hsplit; by apply list_lookup_middle|]. rewrite Hsplit, Heq. by apply list_lookup_middle. }
      apply app_inj_1 in Heq as [-> [= <-]]; done. }
    destruct Hrest as [-> Hl1].
    (* a path from a block of F would leave it through an assigned block *)
    assert (Hgo : forall y k z, path g y k z -> (forall w, w ∈ k -> C0 w = None) -> y ∈ F -> z ∈ F).
    { intros y k z Hk. induction Hk as [|y w z k He Hk IH]; [done|]. intros Hun HyF. apply IH; [intros v Hv; apply Hun; by right|].
      destruct (HF y w HyF He) as [?|Hw]; [done|]. rewrite elem_of_rev in Hw. apply (si_seeds _ _ _ Hi) in Hw. destruct Hw.
      apply Hun. right. by eapply path_start. }
    assert (Hno : x ∉ F).
    { intros HxF. assert (HsF : s ∈ F) by (apply (Hgo x l s Hp); [intros w Hw; by apply Hl|done]).
      rewrite Heq in Hnodup. apply NoDup_app in Hnodup as (_ & Hd & _). apply (Hd s HsF). set_solver. }
    assert (Hxp : x ∈ post) by (apply Hpost, (Hl x); by eapply path_start). rewrite Heq in Hxp.
    rewrite !elem_of_app, elem_of_cons in Hxp. destruct Hxp as [?|[?|[->|Hx']]]; [done|by apply HD|apply reachable_refl|].
    rewrite elem_of_rev in Hx'. apply (si_seeds _ _ _ Hi) in Hx'. destruct (Hl x) as [_ ?]; [by eapply path_start|done].
  - intros [Hsx [l Hp]].
    assert (Hun : forall y, reachable g s y -> C0 y = None).
    { intros y Hy. destruct (C0 y) as [j|] eqn:Hyc; [|done]. exfalso. apply (assigned_closed _ _ _ s y Hi Hy); congruence. }
    assert (Hgo : forall y k z, path g y k z -> z ∈ members -> reachable g s y -> y ∈ members).
    { intros y k z Hk Hz. induction Hk as [|y w z k He Hk IH]; [done|]. intros Hy.
      destruct (Hcl y w) as [?|Hyc]; [apply IH; [done|by eapply reachable_snoc]|done|by rewrite ?app_nil_r in *|by rewrite (Hun y Hy) in Hyc]. }
    by apply (Hgo x l s).
Qed.

Lemma scc_seed_spec {E} seeds s C0 component raw l1 : array n C0 component -> scc_inv seeds C0 raw -> post = l1 ++ s :: rev seeds ->
  exists C component' raw', scc_seed preds (component, raw) s = Ok (component', raw') :> result E _ /\ array n C component' /\ scc_inv (seeds ++ [s]) C raw'.
Proof.
  intros HC Hi Hsplit. assert (Hsn : (s < n)%nat) by (apply Hpost; rewrite Hsplit; set_solver). unfold scc_seed. cbn [fst snd].
  rewrite (array_lookup _ _ _ s HC Hsn). msimpl. destruct (C0 s) as [i|] eqn:Hs.
  { exists C0, component, raw. split; [done|]. split; [done|]. destruct Hi as [H1 H2 H3 H4]. split; [done|done| |done].
    intros b [Hb| ->%list_elem_of_singleton]%elem_of_app; [by apply H3|congruence]. }
  destruct (collect_component_spec (E:=E) (length preds) (length raw) s C0 (<[s := Some (length raw)]> C0) (<[s := Some (length raw)]> component) [] [s])
    as (C & component' & members & -> & HC' & Hcl).
  { by apply array_insert. }
  { split; cbn [app].
    - intros x. case_decide as Hx; rewrite list_elem_of_singleton in Hx; [subst x; by rewrite fn_lookup_insert|by rewrite fn_lookup_insert_ne].
    - apply NoDup_singleton.
    - by left.
    - intros x ->%list_elem_of_singleton. exists [s]. split; [constructor|]. by intros y ->%list_elem_of_singleton.
    - by intros x y ?%not_elem_of_nil. }
  { rewrite (proj1 Hrev). lia. }
  msimpl. cbn [fst snd]. pose proof (collected_component _ seeds s C0 C raw members l1 Hi Hsplit Hs Hcl) as Hcomp.
  exists C, component', (raw ++ [sort_by_key id members]). split; [done|]. split; [done|].
  assert (HCx : forall x, C x = if decide (x ∈ members) then Some (length raw) else C0 x) by (intros x; rewrite (cl_assigned _ _ _ _ _ _ Hcl x); by rewrite app_nil_r).
  assert (Hfree : forall x, x ∈ members -> C0 x = None).
  { intros x Hx. destruct (cl_reach _ _ _ _ _ _ Hcl x) as (l & Hp & Hl); [by rewrite app_nil_r|]. apply (Hl x). by eapply path_start. }
  assert (Hkeep : forall x i, C0 x = Some i -> C x = Some i /\ (i < length raw)%nat).
  { intros x i Hx. rewrite HCx, decide_False by (intros ?%Hfree; congruence). split; [done|]. apply (si_in _ _ _ Hi) in Hx as (m & Hm & _). eauto with index. }
  split.
  - intros b i. rewrite HCx. case_decide as Hb.
    + split; [intros [= <-]; exists (sort_by_key id members); split; [by apply list_lookup_middle|by apply elem_of_sort_by_key]|].
      intros (m & [Hm|[Hle Hm]]%lookup_app_Some & Hbm); [|apply list_lookup_singleton_Some in Hm as [Hm _]; f_equal; lia].
      assert (Hbi : C0 b = Some i) by (apply (si_in _ _ _ Hi); by exists m). rewrite (Hfree b Hb) in Hbi. done.
    + rewrite (si_in _ _ _ Hi). split; intros (m & Hm & Hbm); [exists m; split; [by apply lookup_app_l_Some|done]|].
      apply lookup_app_Some in Hm as [Hm|[_ [_ <-]%list_lookup_singleton_Some]]; [by exists m|]. by apply elem_of_sort_by_key in Hbm.
  - intros i m [Hm|[_ [_ <-]%list_lookup_singleton_Some]]%lookup_app_Some; [by apply (si_member _ _ _ Hi i)|].
    split; [rewrite sort_by_key_permutation; pose proof (cl_nodup _ _ _ _ _ _ Hcl) as Hnd; by rewrite app_nil_r in Hnd|].
    split; [exact (sort_by_key_sorted (A:=nat) id members)|]. split; [intros x Hx%elem_of_sort_by_key; eapply collect_lt; [exact Hcl|by rewrite app_nil_r]|]. exists s. split; [apply elem_of_sort_by_key, Hcomp; split; apply reachable_refl|].
    intros x. rewrite elem_of_sort_by_key. apply Hcomp.
  - intros b [Hb| ->%list_elem_of_singleton]%elem_of_app.
    + apply (si_seeds _ _ _ Hi) in Hb. destruct (C0 b) as [i|] eqn:Hbi; [|done]. destruct (Hkeep b i Hbi) as [-> _]. done.
    + rewrite HCx, decide_True; [done|]. apply Hcomp. split; apply reachable_refl.
  - intros a b j He Hb. rewrite HCx in Hb. case_decide as Hbm.
    + injection Hb as <-. destruct (cl_closed _ _ _ _ _ _ Hcl a b Hbm He) as [Ha|Ha].
      * rewrite app_nil_r in Ha. exists (length raw). rewrite HCx, decide_True by done. done.
      * destruct (C0 a) as [i|] eqn:Hai; [|done]. destruct (Hkeep a i Hai) as [-> ?]. exists i. split; [done|lia].
    + destruct (si_edge _ _ _ Hi a b j He Hb) as (i & Hai & Hij). destruct (Hkeep a i Hai) as [-> _]. by exists i.
Qed.

Lemma scc_seeds_spec {E} l seeds C component raw : array n C component -> scc_inv seeds C raw -> post = rev l ++ rev seeds ->
  exists C' component' raw', foldM (scc_seed preds) (component, raw) l = Ok (component', raw') :> result E _ /\ array n C' component' /\ scc_inv (seeds ++ l) C' raw'.
Proof.
  revert seeds C component raw. induction l as [|s l IH]; intros seeds C component raw HC Hi Hsplit; cbn [foldM].
  - exists C, component, raw. by rewrite app_nil_r.
  - cbn [rev] in Hsplit. rewrite <- app_assoc in Hsplit. cbn [app] in Hsplit.
    destruct (scc_seed_spec (E:=E) seeds s C component raw (rev l) HC Hi Hsplit) as (C1 & component1 & raw1 & -> & HC1 & Hi1). msimpl.
    destruct (IH (seeds ++ [s]) C1 component1 raw1 HC1 Hi1) as (C2 & component2 & raw2 & -> & HC2 & Hi2); [by rewrite rev_app_distr|].
    exists C2, component2, raw2. split; [done|]. split; [done|]. by rewrite <- app_assoc in Hi2.
Qed.

(** Every block is in exactly one component when all seeds are seen. *)
Lemma components_spec {E} : exists C component raw, foldM (scc_seed preds) (replicate n None, []) (rev post) = Ok (component, raw) :> result E _ /\
  array n C component /\ scc_inv (rev post) C raw /\ forall b, (b < n)%nat -> C b <> None.
Proof.
  destruct (scc_seeds_spec (E:=E) (rev post) [] (fun _ => None) (replicate n None) []) as (C & component & raw & -> & HC & Hi).
  - apply array_replicate.
  - split; [|done|by intros b ?%not_elem_of_nil|done]. intros b i. split; [done|]. by intros (m & ? & _).
  - by rewrite app_nil_r, rev_involutive.
  - exists C, component, raw. split_and!; [done..|]. intros b Hb. apply (si_seeds _ _ _ Hi). cbn. rewrite elem_of_rev. by apply Hpost.
Qed.
End components.

(** ** Regions *)

Lemma filter_flags (f : nat -> bool) (l : list nat) :
  (filter (fun bf : nat * bool => bf.2 = true) (zip l (f <$> l))).*1 = filter (fun b => f b = true) l.
Proof.
  induction l as [|b l IH]; csimpl; [done|]. rewrite !filter_cons. cbn [snd]. case_decide; csimpl; by rewrite IH.
Qed.

(** What a region says of its component. *)
Record region_ok (g : graph) (root : nat) (r : StronglyConnectedRegion) : Prop := {
  ro_nodup : NoDup (region_blocks r);
  ro_sorted : StronglySorted Nat.le (region_blocks r);
  ro_component : exists s, s ∈ region_blocks r /\ forall x, x ∈ region_blocks r <-> mutual g s x;
  ro_entries b : b ∈ region_entries r <-> b ∈ region_blocks r /\ (b = root \/ exists a, edge g a b /\ a ∉ region_blocks r);
  ro_cyclic : cyclic r = true <-> exists a b, a ∈ region_blocks r /\ b ∈ region_blocks r /\ edge g a b;
  ro_header h : reducible_header r = Some h <-> h ∈ region_blocks r /\ forall b, b ∈ region_blocks r -> dominates_spec g root h b }.

Record regions_ok (g : graph) (root : nat) (regions : list StronglyConnectedRegion) (component : list (option nat)) : Prop := {
  rs_region r : r ∈ regions -> region_ok g root r;
  rs_component b i : component !! b = Some (Some i) <-> exists r, regions !! i = Some r /\ b ∈ region_blocks r;
  rs_total b : (b < length g)%nat -> exists i, component !! b = Some (Some i);
  rs_order a b i j : edge g a b -> component !! a = Some (Some i) -> component !! b = Some (Some j) -> (i <= j)%nat }.

Section regions.
Context (g preds : graph) (root : nat) (t : DominatorTree) (Hdt : dominator_tree g root t) (Hrev : reverses g preds).
Context (Hall : forall b, (b < length g)%nat -> reachable g root b).
Context (C : nat -> option nat) (component : list (option nat)) (raw : list (list nat)) (seeds : list nat).
Context (HC : array (length g) C component) (Hi : scc_inv g seeds C raw).
Abbreviation n := (length g).
Implicit Types (a b h s x : nat) (m : list nat).

Lemma edge_blocks a b : edge g a b -> (a < n)%nat /\ (b < n)%nat.
Proof. intros He. split; [destruct He as (row & Hrow & _); eauto with index|by apply (dt_closed _ _ _ Hdt a)]. Qed.

Section member.
Context (id : nat) (m : list nat) (Hm : raw !! id = Some m).

Lemma component_lt b : b ∈ m -> (b < n)%nat.
Proof. apply (si_member _ _ _ _ Hi id m Hm). Qed.

Lemma member_assigned b : b ∈ m <-> C b = Some id.
Proof. rewrite (si_in _ _ _ _ Hi). split; [intros Hb; by exists m|]. intros (m' & Hm' & Hb). by simplify_eq. Qed.

Lemma member_mutual a b : a ∈ m -> b ∈ m <-> mutual g a b.
Proof.
  destruct (si_member _ _ _ _ Hi id m Hm) as (_ & _ & _ & s & Hs & Hmut). intros Ha. apply Hmut in Ha as [Hsa Has]. rewrite Hmut.
  split; intros [H1 H2]; split; by eapply reachable_trans.
Qed.

Definition entry_flag b : bool := bool_decide (b = root) || bool_decide (Exists (fun c => c <> Some id) (C <$> row_of preds b)).

Lemma is_entry_ok {E} b : b ∈ m -> is_entry preds root component id b = Ok (entry_flag b) :> result E _.
Proof.
  intros Hb%component_lt. unfold is_entry, entry_flag, row_of. case_decide as Hr; [by rewrite bool_decide_eq_true_2|].
  rewrite (bool_decide_eq_false_2 (b = root)) by done. in_range preds b as row Hrow; [by rewrite (proj1 Hrev)|]. rewrite Hrow. msimpl.
  rewrite (mapMr_ok _ C); [done|]. intros a Ha. assert (He : edge g a b) by (apply Hrev; by exists row).
  rewrite (array_lookup _ _ _ a HC) by (by apply edge_blocks in He as [? _]). done.
Qed.

Lemma entry_flag_spec b : b ∈ m -> entry_flag b = true <-> b = root \/ exists a, edge g a b /\ a ∉ m.
Proof.
  intros Hb. unfold entry_flag. rewrite orb_true_iff, !bool_decide_eq_true, Exists_exists.
  assert (Hrow : forall a, a ∈ row_of preds b <-> edge g a b) by (intros a; rewrite <- (proj2 Hrev); symmetry; apply edge_row).
  split; (intros [?|H]; [by left|right]).
  - destruct H as (c & (a & -> & Ha)%list_elem_of_fmap & Hc). exists a. split; [by apply Hrow|]. by rewrite member_assigned.
  - destruct H as (a & Ha & Hn). exists (C a). split; [apply list_elem_of_fmap; exists a; split; [done|by apply Hrow]|]. by rewrite <- member_assigned.
Qed.

Lemma cyclic_spec (self : bool) : (self = true <-> exists b, head m = Some b /\ edge g b b) ->
  bool_decide (1 < length m)%nat || self = true <-> exists a b, a ∈ m /\ b ∈ m /\ edge g a b.
Proof.
  intros Hself. destruct (si_member _ _ _ _ Hi id m Hm) as (Hnd & _ & _ & s & Hs & _). rewrite orb_true_iff, bool_decide_eq_true, Hself.
  assert (Hcase : m = [s] \/ (1 < length m)%nat).
  { clear -Hs. destruct m as [|b [|c l]]; [by apply not_elem_of_nil in Hs| |right; cbn; lia]. left. by apply list_elem_of_singleton in Hs as ->. }
  destruct Hcase as [Heq|Hlen].
  - rewrite Heq. cbn. split; [intros [?|(b & [= <-] & He)]; [lia|]; exists s, s; split_and!; [by left..|done]|].
    intros (a & b & ->%list_elem_of_singleton & ->%list_elem_of_singleton & He). right. by exists s.
  - split; [intros _|by left]. (* the first step of a path to another block *)
    assert (Hother : exists c, c ∈ m /\ c <> s).
    { clear -Hnd Hlen. destruct m as [|b [|c l]]; [cbn in Hlen; lia..|]. apply NoDup_cons in Hnd as [Hn _]. destruct (decide (b = s)) as [->|].
      - exists c. split; [right; by left|]. intros ->. apply Hn. by left.
      - exists b. split; [by left|done]. }
    destruct Hother as (c & Hc & Hcs). pose proof (proj1 (member_mutual s c Hs) Hc) as [[l Hl] Hback].
    destruct Hl as [s|s x c l He Hl]; [done|]. exists s, x. split; [done|]. split; [|done].
    apply (member_mutual s x Hs). split; [eapply reachable_snoc; [apply reachable_refl|done]|]. eapply reachable_trans; [by exists l|done].
Qed.

(** A path from outside enters the component at an entry. *)
Lemma path_enters l b : path g root l b -> b ∈ m -> exists l1 e l2, l = l1 ++ e :: l2 /\ path g root (l1 ++ [e]) e /\ (forall x, x ∈ l1 -> x ∉ m) /\ e ∈ m /\ entry_flag e = true.
Proof.
  intros Hp Hb. assert (Hex : Exists (fun x => x ∈ m) l) by (apply Exists_exists; exists b; split; [by eapply path_end|done]).
  assert (Hfirst : exists l1 e l2, l = l1 ++ e :: l2 /\ (forall x, x ∈ l1 -> x ∉ m) /\ e ∈ m).
  { clear Hp Hb. induction l as [|x l IH]; [by inversion Hex|]. destruct (decide (x ∈ m)) as [Hx|Hx].
    - exists [], x, l. split_and!; [done| |done]. by intros y ?%not_elem_of_nil.
    - destruct IH as (l1 & e & l2 & -> & Hl1 & He); [by inversion Hex|]. exists (x :: l1), e, l2. split_and!; [done| |done].
      intros y [->|?]%elem_of_cons; auto. }
  destruct Hfirst as (l1 & e & l2 & -> & Hl1 & He). apply path_split in Hp as [Hp _]. exists l1, e, l2. split_and!; try done.
  apply entry_flag_spec; [done|]. destruct (path_inv_end _ _ _ _ Hp) as [[-> _]|(p & k & Hk & Hpe & Heq)]; [by left|right]. exists p. split; [done|].
  apply Hl1. apply app_inj_tail in Heq as [-> _]. by eapply path_end.
Qed.

(** The block that dominates its component is its only entry. *)
Lemma header_spec h : (filter (fun b => entry_flag b = true) m = [h] /\ forall b, b ∈ m -> dominates t h b = true) <->
  h ∈ m /\ forall b, b ∈ m -> dominates_spec g root h b.
Proof.
  assert (Hdom : forall b, b ∈ m -> dominates t h b = true <-> dominates_spec g root h b).
  { intros b Hb%component_lt%Hall. rewrite (to_dominates _ _ _ (dt_tree _ _ _ Hdt)), (dt_above _ _ _ Hdt) by done. split; [by intros [? _]|].
    split; [done|by apply (dt_reachable _ _ _ Hdt)]. }
  assert (Hin : forall b, b ∈ filter (fun b => entry_flag b = true) m <-> b ∈ m /\ entry_flag b = true) by (intros b; rewrite list_elem_of_filter; tauto).
  split.
  - intros [Hf Hd]. assert (Hh : h ∈ m) by (apply Hin; rewrite Hf; by left). split; [done|]. intros b Hb. by apply Hdom, Hd.
  - intros [Hh Hd]. split; [|intros b Hb; by apply Hdom, Hd].
    assert (Honly : forall b, b ∈ m -> entry_flag b = true -> b = h).
    { intros b Hb He. destruct (decide (b = h)) as [?|Hne]; [done|]. exfalso. apply entry_flag_spec in He as [->|(a & He & Ha)]; [| |done].
      - specialize (Hd root Hb [root] (path_one _ _)). by apply list_elem_of_singleton in Hd.
      - apply Ha. destruct (edge_blocks _ _ He) as [Han _]. destruct (Hall a Han) as [l Hl].
        pose proof (Hd b Hb _ (path_snoc _ _ _ _ _ Hl He)) as Hin'. apply elem_of_app in Hin' as [Hin'|?%list_elem_of_singleton]; [|done].
        apply list_elem_of_split in Hin' as (l1 & l2 & ->). apply path_split in Hl as [_ Hl]. apply (member_mutual h a Hh).
        split; [by exists (h :: l2)|]. eapply reachable_trans; [eapply reachable_snoc; [apply reachable_refl|exact He]|].
        by apply (member_mutual b h Hb). }
    assert (Hhe : entry_flag h = true).
    { destruct (Hall h (component_lt h Hh)) as [l Hl]. destruct (path_enters l h Hl Hh) as (l1 & e & l2 & _ & _ & _ & He & Hef). by rewrite <- (Honly e He Hef). }
    assert (Hnd : NoDup (filter (fun b => entry_flag b = true) m)) by (apply NoDup_filter; apply (si_member _ _ _ _ Hi id m Hm)).
    destruct (filter _ m) as [|x [|y l]] eqn:Hf.
    + assert (Hx : h ∈ []) by (by apply Hin). by apply not_elem_of_nil in Hx.
    + f_equal. apply Honly; apply Hin; by left.
    + assert (x = h) as -> by (apply Honly; apply Hin; by left). assert (y = h) as -> by (apply Honly; apply Hin; right; by left).
      apply NoDup_cons in Hnd as [Hx _]. destruct Hx. by left.
Qed.

Lemma region_spec {E} : exists r, region preds g t root component (id, m) = Ok r :> result E _ /\ region_blocks r = m /\ region_ok g root r.
Proof.
  destruct (si_member _ _ _ _ Hi id m Hm) as (Hnd & Hsort & Hlt & s & Hs & Hmut). unfold region. cbn [fst snd].
  rewrite (mapMr_ok _ entry_flag) by (intros b; apply is_entry_ok). msimpl. rewrite filter_flags.
  assert (Hself : exists self : bool, (match m with [] => Ok false | block :: _ => row ← expect (g !! block); Ok (bool_decide (block ∈ (row : list nat))) end) = Ok self :> result E _ /\
    (self = true <-> exists b, head m = Some b /\ edge g b b)).
  { clear -Hlt. destruct m as [|b l]; [exists false; split; [done|]; split; [done|by intros (b & [=] & _)]|].
    in_range g b as row Hrow; [apply Hlt; by left|]. rewrite Hrow. msimpl. eexists. split; [done|]. rewrite bool_decide_eq_true. cbn. split.
    - intros Hb. exists b. split; [done|]. by exists row.
    - intros (b' & [= <-] & row' & Hrow' & Hb). by simplify_eq. }
  destruct Hself as (self & Hrun & Hself). msimpl_in Hrun. rewrite Hrun. eexists. split; [done|]. split; [done|]. split; cbn [region_blocks region_entries cyclic reducible_header].
  - done.
  - done.
  - by exists s.
  - intros b. rewrite list_elem_of_filter. split; [intros [He Hb]; split; [done|]; by apply entry_flag_spec|].
    intros [Hb He]. split; [by apply entry_flag_spec|done].
  - by apply cyclic_spec.
  - intros h. rewrite <- header_spec. destruct (filter (fun b => entry_flag b = true) m) as [|x [|y l]] eqn:Hf.
    + split; [done|by intros [[=] _]].
    + case_decide as Hd; rewrite Forall_forall in Hd.
      * split; [intros [= <-]; done|by intros [[= ->] _]].
      * split; [done|]. intros [[= ->] ?]. by destruct Hd.
    + split; [done|by intros [[=] _]].
Qed.
End member.
End regions.

(** The regions are the strongly connected components, in topological order. *)
Lemma strongly_connected_regions_spec {E} g preds root t : dominator_tree g root t -> reverses g preds ->
  (forall b, (b < length g)%nat -> reachable g root b) ->
  exists regions component, strongly_connected_regions preds g t root = Ok (regions, component) :> result E _ /\ regions_ok g root regions component.
Proof.
  intros Hdt Hrev Hall. pose proof (dt_closed _ _ _ Hdt) as Hclosed. pose proof (dt_root _ _ _ Hdt) as Hroot. unfold strongly_connected_regions.
  destruct (scc_search_spec (E:=E) g root Hclosed Hroot Hall) as (visited & post & -> & Hnd & Hpost & Hseg). msimpl. cbn [snd].
  destruct (@components_spec g preds post Hclosed Hrev Hnd Hpost Hseg E) as (C & component & raw & -> & HC & Hi & Htotal). msimpl. cbn [fst snd].
  assert (Hregions : exists regions, mapMr (region preds g t root component) (enumerate raw) = Ok regions :> result E _ /\
    Forall2 (fun m r => region_blocks r = m /\ region_ok g root r) raw regions).
  { assert (Hmem : forall i m, (i, m) ∈ enumerate raw -> exists r, region preds g t root component (i, m) = Ok r :> result E _ /\ region_blocks r = m /\ region_ok g root r).
    { intros i m Hm%elem_of_enumerate. by eapply region_spec. }
    assert (Hgo : forall l, (forall i m, (i, m) ∈ l -> exists r, region preds g t root component (i, m) = Ok r :> result E _ /\ region_blocks r = m /\ region_ok g root r) ->
      exists regions, mapMr (region preds g t root component) l = Ok regions :> result E _ /\ Forall2 (fun m r => region_blocks r = m /\ region_ok g root r) l.*2 regions).
    { clear. induction l as [|[i m] l IH]; intros Hmem; cbn [mapMr]; [exists []; by split; [|constructor]|].
      destruct (Hmem i m ltac:(by left)) as (r & -> & Hr). msimpl. destruct IH as (regions & -> & Hall2); [intros; apply Hmem; by right|]. msimpl.
      exists (r :: regions). split; [done|]. by constructor. }
    destruct (Hgo (enumerate raw) Hmem) as (regions & ? & Hall2). exists regions. split; [done|].
    by rewrite snd_zip in Hall2 by (by rewrite length_seq). }
  destruct Hregions as (regions & -> & Hall2). msimpl. exists regions, component. split; [done|].
  assert (Hcomp : forall b, (b < length g)%nat -> component !! b = Some (C b)) by (intros b Hb; by apply (array_lookup _ _ _ b HC)).
  assert (Hsome : forall b i, component !! b = Some (Some i) <-> C b = Some i).
  { intros b i. split.
    - intros Hb. assert (Hbl : (b < length g)%nat) by (rewrite <- (proj1 HC); eauto with index). rewrite Hcomp in Hb by done. congruence.
    - intros Hb. rewrite Hcomp; [by rewrite Hb|]. apply (si_in _ _ _ _ Hi) in Hb as (m & Hm & Hbm). by apply (si_member _ _ _ _ Hi i m Hm). }
  split.
  - intros r [i Hr]%list_elem_of_lookup. by destruct (Forall2_lookup_r _ _ _ _ _ Hall2 Hr) as (m & _ & _ & ?).
  - intros b i. rewrite Hsome, (si_in _ _ _ _ Hi). split.
    + intros (m & Hm & Hb). destruct (Forall2_lookup_l _ _ _ _ _ Hall2 Hm) as (r & Hr & Heq & _). exists r. by rewrite Heq.
    + intros (r & Hr & Hb). destruct (Forall2_lookup_r _ _ _ _ _ Hall2 Hr) as (m & Hm & Heq & _). exists m. split; [done|]. by rewrite <- Heq.
  - intros b Hb. specialize (Htotal b Hb). destruct (C b) as [i|] eqn:Hbi; [|done]. exists i. by apply Hsome.
  - intros a b i j He Ha%Hsome Hb%Hsome. destruct (si_edge _ _ _ _ Hi a b j He Hb) as (i' & Hai & ?). by assert (i = i') as -> by congruence.
Qed.
