(* ===== verification/CfgPostdom.v ===== *)
(** * CfgPostdom: postdominators and control dependence

    [CfgTree.build_postdominators] runs the dominator tree on the reversed
    graph from a virtual exit. Its paths are the paths of the graph to an exit
    read backwards, so the tree decides postdominance of the blocks that can
    leave the graph, and its frontiers are the branches a block is control
    dependent on. *)

From stdpp Require Import functions.
From S2P Require Import Prelude Specs Order Graph Cfg LtCorrect CfgTree CfgTreeFacts CfgDominators.

Implicit Types (g : graph) (a b d e s x : nat) (l : list nat).

(** A block without successors. *)
Definition exit_block g e : Prop := g !! e = Some [].
(** [b] reaches an exit. *)
Definition exits g b : Prop := exists l e, path g b l e /\ exit_block g e.
(** [d] is on every path from [b] to an exit. *)
Definition postdominates_spec g d b : Prop := forall l e, path g b l e -> exit_block g e -> d ∈ l.
(** [s] branches to a block that [b] postdominates without [b] postdominating
    [s] strictly. *)
Definition control_dependent g b s : Prop :=
  exists x, edge g s x /\ exits g x /\ postdominates_spec g b x /\ ~ (b <> s /\ postdominates_spec g b s).

Section reversed.
Context (g rows : graph) (Hclosed : closed g).
Abbreviation n := (length g).

(** [rows] are the predecessors and, at index [n], the exits. *)
Record reversed_rows : Prop := {
  rr_length : length rows = S n;
  rr_exit e : edge rows n e <-> exit_block g e;
  rr_block a b : (b < n)%nat -> edge rows b a <-> edge g a b }.
Context (Hrows : reversed_rows).

Lemma block_lt a b : edge g a b -> (a < n)%nat /\ (b < n)%nat.
Proof. intros He. split; [destruct He as (row & Hrow & _); eauto with index|by apply (Hclosed a)]. Qed.

Lemma exit_lt e : exit_block g e -> (e < n)%nat.
Proof. apply lookup_lt_Some. Qed.

Lemma path_reverse a b l : path rows a l b -> (a < n)%nat -> path g b (rev l) a /\ (b < n)%nat.
Proof.
  induction 1 as [a|a x b l He Hp IH]; intros Ha; [split; [constructor|done]|]. apply (rr_block Hrows) in He; [|done].
  destruct (block_lt _ _ He) as [Hx _]. destruct (IH Hx) as [Hq Hb]. split; [|done]. cbn. by eapply path_snoc.
Qed.

Lemma path_unreverse a b l : path g b l a -> path rows a (rev l) b.
Proof.
  induction 1 as [b|b x a l He Hp IH]; [constructor|]. cbn. eapply path_snoc; [exact IH|]. apply (rr_block Hrows); [by apply block_lt in He as [_ ?]|done].
Qed.

(** Paths from the virtual exit. *)
Lemma path_virtual l b : (b < n)%nat -> path rows n l b <-> exists k e, l = n :: rev k /\ path g b k e /\ exit_block g e.
Proof.
  intros Hb. split.
  - intros Hp. inversion Hp as [|? e ? k He Hk]; subst; [lia|]. apply (rr_exit Hrows) in He. destruct (path_reverse _ _ _ Hk (exit_lt e He)) as [Hq _].
    exists (rev k), e. by rewrite rev_involutive.
  - intros (k & e & -> & Hk & He). econstructor; [by apply (rr_exit Hrows)|]. by apply path_unreverse.
Qed.

Lemma reachable_virtual b : (b < n)%nat -> reachable rows n b <-> exits g b.
Proof.
  intros Hb. unfold reachable, exits. setoid_rewrite (path_virtual _ b Hb). split.
  - intros (l & k & e & _ & ? & ?). by exists k, e.
  - intros (k & e & ? & ?). by exists (n :: rev k), k, e.
Qed.

Lemma dominates_virtual d b : (d < n)%nat -> (b < n)%nat -> dominates_spec rows n d b <-> postdominates_spec g d b.
Proof.
  intros Hd Hb. unfold dominates_spec, postdominates_spec. setoid_rewrite (path_virtual _ b Hb). split.
  - intros H l e Hl He. assert (Hin : d ∈ n :: rev l) by (apply H; by exists l, e). apply elem_of_cons in Hin as [->|Hin]; [lia|]. by rewrite elem_of_rev in Hin.
  - intros H l (k & e & -> & Hk & He). right. apply elem_of_rev. by eapply H.
Qed.

Lemma row_index a b : edge rows a b -> (a < S n)%nat.
Proof. intros (row & Hrow%lookup_lt_Some & _). by rewrite (rr_length Hrows) in Hrow. Qed.

Lemma closed_rows_virtual : closed rows.
Proof.
  intros a b He. rewrite (rr_length Hrows). pose proof (row_index _ _ He) as Ha.
  destruct (decide (a = n)) as [->|Hne].
  - apply (rr_exit Hrows), exit_lt in He. lia.
  - apply (rr_block Hrows) in He; [|lia]. apply block_lt in He. lia.
Qed.

Section tree.
Context (t : DominatorTree) (Hdt : dominator_tree rows n t).
Abbreviation pdt := (PostDom t n n).

Lemma above_postdominates d b : (b < n)%nat -> (d < n)%nat -> exits g b -> above (idom t) d b <-> postdominates_spec g d b.
Proof.
  intros Hb Hd He. rewrite (dt_above _ _ _ Hdt) by (by apply reachable_virtual). by apply dominates_virtual.
Qed.

Lemma above_exits b : (b < n)%nat -> above (idom t) n b <-> exits g b.
Proof. intros Hb. rewrite (dt_reachable _ _ _ Hdt). by apply reachable_virtual. Qed.

Lemma postdominates_spec_ok d b : postdominates pdt d b = true <-> (d < n)%nat /\ (b < n)%nat /\ exits g b /\ postdominates_spec g d b.
Proof.
  unfold postdominates. cbn. rewrite !andb_true_iff, !bool_decide_eq_true, (to_dominates _ _ _ (dt_tree _ _ _ Hdt)). split.
  - intros [[Hd Hb] [Ha Hn]]. apply above_exits in Hn; [|done]. split_and!; [done..|]. by apply above_postdominates.
  - intros (Hd & Hb & He & Hp). split; [done|]. split; [by apply above_postdominates|by apply above_exits].
Qed.

Lemma original_spec m p : original pdt m = Some p <-> m = p /\ (p < n)%nat.
Proof. unfold original. cbn. case_decide as Hm; [naive_solver lia|]. split; [done|]. intros [-> ?]. destruct Hm. lia. Qed.

(** The nearest common postdominator of two blocks that leave the graph, or
    none when they have none in common. *)
Lemma common_postdominator_ok {E} (l r : nat) : (l < n)%nat -> (r < n)%nat ->
  exists o, common_postdominator pdt l r = Ok o :> result E _ /\
    match o with
    | Some m => (m < n)%nat /\ exits g l /\ exits g r /\ forall d, (d < n)%nat -> postdominates_spec g d m <-> postdominates_spec g d l /\ postdominates_spec g d r
    | None => exits g l -> exits g r -> forall d, (d < n)%nat -> ~ (postdominates_spec g d l /\ postdominates_spec g d r)
    end.
Proof.
  intros Hl Hr. destruct (lca_spec t n (dt_tree _ _ _ Hdt) (E:=E) l r) as [Hyes Hno]. unfold common_postdominator. cbn [tree].
  assert (Hcase : (exits g l /\ exits g r) \/ ~ (above (idom t) n l /\ above (idom t) n r)).
  { assert (Hdec : forall b, (b < n)%nat -> exits g b \/ ~ above (idom t) n b).
    { intros b Hb. destruct (depth t !! b) as [[d|]|] eqn:Hd.
      - left. apply above_exits; [done|]. apply (to_connected _ _ _ (dt_tree _ _ _ Hdt)). by exists d.
      - right. intros [d Hd']%(to_connected _ _ _ (dt_tree _ _ _ Hdt)). congruence.
      - right. intros [d Hd']%(to_connected _ _ _ (dt_tree _ _ _ Hdt)). congruence. }
    destruct (Hdec l Hl), (Hdec r Hr); tauto. }
  destruct Hcase as [[Hal Har]|Hnot].
  - destruct Hyes as (m & -> & Hm); [by rewrite !above_exits|]. msimpl. eexists. split; [done|].
    cbn. destruct (original pdt m) as [p|] eqn:Ho.
    + apply original_spec in Ho as [-> Hp]. assert (Hpe : exits g p).
      { apply above_exits; [done|]. assert (Hpl : above (idom t) p l) by (apply (Hm p); constructor).
        eapply above_connected; [apply (to_root _ _ _ (dt_tree _ _ _ Hdt))|exact Hpl|by apply above_exits]. }
      split_and!; [done..|]. intros d Hd. rewrite <- !above_postdominates by done. apply Hm.
    + intros _ _ d Hd [Hdl' Hdr']. assert (Hdm : above (idom t) d m) by (apply Hm; by rewrite !above_postdominates).
      assert (Hmn : ~ (m < n)%nat) by (intros Hmn; assert (original pdt m = Some m) by (by apply original_spec); congruence).
      assert (Hml : above (idom t) m l) by (apply (Hm m); constructor).
      pose proof (above_connected _ _ (to_root _ _ _ (dt_tree _ _ _ Hdt)) m l Hml (proj2 (above_exits l Hl) Hal)) as Hmc.
      assert (m = n) as ->.
      { apply connected_lt in Hmc; [|rewrite (dt_length _ _ _ Hdt), (rr_length Hrows); lia]. rewrite (dt_length _ _ _ Hdt), (rr_length Hrows) in Hmc. lia. }
      inversion Hdm as [|? p Hp]; subst; [lia|]. rewrite (to_root _ _ _ (dt_tree _ _ _ Hdt)) in Hp. done.
  - rewrite Hno by done. msimpl. eexists. split; [done|]. intros Hal Har. destruct Hnot. by rewrite !above_exits.
Qed.

(** The nearest block other than [b] that postdominates it. *)
Lemma immediate_postdominator_ok b p : (b < n)%nat -> exits g b ->
  immediate_postdominator pdt b = Some p <->
  (p < n)%nat /\ p <> b /\ postdominates_spec g p b /\ forall d, (d < n)%nat -> d <> b -> postdominates_spec g d b -> postdominates_spec g d p.
Proof.
  intros Hb Hbe. pose proof (dt_tree _ _ _ Hdt) as Ht. pose proof (to_root _ _ _ Ht) as Hroot. pose proof (proj2 (above_exits b Hb) Hbe) as Hbn.
  assert (Hup : forall q, (q < n)%nat -> above (idom t) q b -> above (idom t) n q /\ exits g q).
  { intros q Hq Hqb. pose proof (above_connected _ _ Hroot q b Hqb Hbn) as Hqn. split; [done|]. by apply above_exits. }
  inversion Hbn as [|? q Hq Hqn]; subst; [lia|]. assert (Hqb : above (idom t) q b) by (econstructor; [exact Hq|constructor]).
  unfold immediate_postdominator. cbn [tree]. rewrite Hq. cbn. rewrite original_spec. split.
  - intros [-> Hp]. destruct (Hup p Hp Hqb) as [_ Hpe]. split; [done|]. split; [intros ->; by apply (parent_not_above rows n t Hdt b b)|].
    split; [by apply above_postdominates|]. intros d Hd Hdb Hpd%above_postdominates; [|done..]. apply above_postdominates; [done..|].
    apply (above_link t d b p Hq) in Hpd as [?|?]; done.
  - intros (Hp & Hpb & Hpp%above_postdominates & Hleast); [|done..]. apply (above_link t p b q Hq) in Hpp as [?|Hpq]; [done|].
    destruct (decide (q < n)%nat) as [Hqlt|Hge].
    + split; [|done]. apply (above_antisym t n Ht); [done| | |done].
      * apply Hup; [done|by econstructor].
      * destruct (Hup p Hp) as [_ Hpe]; [by econstructor|]. apply above_postdominates; [done..|]. apply Hleast; [done| |by apply above_postdominates].
        intros ->. by apply (parent_not_above rows n t Hdt b b).
    + apply connected_lt in Hqn as Hql; [|rewrite (dt_length _ _ _ Hdt), (rr_length Hrows); lia]. rewrite (dt_length _ _ _ Hdt), (rr_length Hrows) in Hql.
      assert (q = n) as -> by lia. inversion Hpq as [|? r Hr]; subst; [lia|]. congruence.
Qed.

(** Control dependence is the frontier of the reversed graph. *)
Lemma frontier_control b s : (b < n)%nat -> (s < n)%nat -> (reachable rows n b /\ in_frontier rows n t b s) <-> control_dependent g b s.
Proof.
  intros Hb Hs. unfold in_frontier, control_dependent, strictly_above. split.
  - intros [_ (x & Hx & Ha & He & Hn)].
    assert (Hxn : (x < n)%nat).
    { pose proof (row_index _ _ He) as Hxs. destruct (decide (x = n)) as [->|]; [|lia].
      inversion Ha as [|? p Hp]; subst; [lia|]. rewrite (to_root _ _ _ (dt_tree _ _ _ Hdt)) in Hp. done. }
    apply (rr_block Hrows) in He; [|done]. apply reachable_virtual in Hx; [|done]. exists x. split_and!; [done|done|by apply above_postdominates|].
    intros [Hne Hp]. apply Hn. split; [done|]. apply above_postdominates; [done|done| |done].
    destruct Hx as (l & e & Hl & Hxe). exists (s :: l), e. split; [by econstructor|done].
  - intros (x & He & Hx & Hp & Hn). destruct (block_lt _ _ He) as [_ Hxn].
    assert (Hse : exits g s) by (destruct Hx as (l & e & Hl & Hxe); exists (s :: l), e; split; [by econstructor|done]).
    assert (Hbx : above (idom t) b x) by (by apply above_postdominates). split.
    + apply (dt_reachable _ _ _ Hdt). eapply above_connected; [apply (to_root _ _ _ (dt_tree _ _ _ Hdt))|exact Hbx|by apply above_exits].
    + exists x. split_and!; [by apply reachable_virtual|done|by apply (rr_block Hrows)|]. intros [Hne Ha]. apply Hn. split; [done|]. by apply above_postdominates.
Qed.
End tree.
End reversed.
