(* ===== verification/CfgAnalyze.v ===== *)
(** * CfgAnalyze: the control-flow analysis as a whole

    What [ControlFlowGraph::analyze] accepts, and that the tables it returns
    are those of the graph: dominators, dominance frontiers, strongly connected
    regions, natural loops, postdominators and control dependence. *)

From stdpp Require Import functions.
From S2P Require Import Prelude Specs Order Graph Cfg LtCorrect CfgTree CfgTreeFacts CfgDominators CfgLoops CfgLoopFacts CfgScc CfgPostdom.

Implicit Types (g : graph) (a b d e s x : nat).

(** ** Rows *)

Lemma retain_first_spec (l : list nat) : NoDup (retain_first l) /\ forall x, x ∈ retain_first l <-> x ∈ l.
Proof.
  unfold retain_first. assert (Hgo : forall kept, NoDup kept ->
    NoDup (foldl (fun kept s => if decide (s ∈ kept) then kept else kept ++ [s]) kept l) /\
    forall x, x ∈ foldl (fun kept s => if decide (s ∈ kept) then kept else kept ++ [s]) kept l <-> x ∈ kept \/ x ∈ l).
  { induction l as [|a l IH]; intros kept Hk; cbn; [split; [done|set_solver]|]. case_decide as Ha.
    - destruct (IH kept Hk) as [Hnd Hin]. split; [done|]. intros x. rewrite Hin, elem_of_cons. naive_solver.
    - destruct (IH (kept ++ [a])) as [Hnd Hin]; [rewrite <- Permutation_cons_append; by constructor|]. split; [done|].
      intros x. rewrite Hin. set_solver. }
  destruct (Hgo []) as [Hnd Hin]; [constructor|]. split; [done|]. intros x. rewrite Hin. set_solver.
Qed.

(** On a sorted row [dedup] drops every repetition. *)
Lemma dedup_sorted (l : list nat) : StronglySorted Nat.le l -> StronglySorted Nat.lt (dedup l).
Proof.
  induction 1 as [|a l Hs IH Hall]; [constructor|]. destruct l as [|b l]; [cbn; repeat constructor|]. cbn [dedup] in *. case_decide as Hab; [done|].
  constructor; [done|]. rewrite Forall_forall in *. intros x Hx. assert (Hxl : x ∈ b :: l) by (by apply (elem_of_dedup (b :: l))).
  assert (a <= b)%nat by (apply Hall; by left). apply elem_of_cons in Hxl as [->|Hxl]; [lia|].
  apply StronglySorted_inv in Hs as [_ Hb]. rewrite Forall_forall in Hb. specialize (Hb x Hxl). lia.
Qed.

Lemma edge_fmap (f : list nat -> list nat) g a b : (forall row x, x ∈ f row <-> x ∈ row) -> edge (f <$> g) a b <-> edge g a b.
Proof.
  intros Hf. unfold edge. rewrite list_lookup_fmap. destruct (g !! a) as [row|]; cbn; [|split; by intros (? & ? & _)].
  split; intros (r & [= <-] & Hb); eexists; (split; [done|]); by apply Hf.
Qed.

(** Two graphs with the same edges have the same paths. *)
Lemma path_same_edges g g' a l b : (forall x y, edge g x y -> edge g' x y) -> path g a l b -> path g' a l b.
Proof. intros He. induction 1; [constructor|econstructor; eauto]. Qed.

(** ** Postdominators *)

Lemma virtual_exits g e : e ∈ (filter (fun bo : nat * list nat => bo.2 = []) (enumerate g)).*1 <-> exit_block g e.
Proof.
  rewrite list_elem_of_fmap. unfold exit_block. split.
  - intros ([b o] & -> & [Ho Hb%elem_of_enumerate]%list_elem_of_filter). cbn in *. by subst o.
  - intros He. exists (e, []). split; [done|]. apply list_elem_of_filter. split; [done|]. by apply elem_of_enumerate.
Qed.

Lemma reverse_rows_spec {E} g preds : reverses g preds ->
  exists rows, foldM (fun rows (bi : nat * list nat) => vset bi.1 bi.2 rows)
    (<[length g := (filter (fun bo : nat * list nat => bo.2 = []) (enumerate g)).*1]> (replicate (S (length g)) [])) (enumerate preds) = Ok rows :> result E _ /\
  reversed_rows g rows.
Proof.
  intros [Hlen Hrev]. set (exits := (filter _ (enumerate g)).*1).
  set (F := fun k b => if decide (b < k)%nat then row_of preds b else if decide (b = length g) then exits else []).
  assert (Hgo : yields (fun _ : E => False) (array (S (length g)) (F (length preds))) (foldM (fun rows (bi : nat * list nat) => vset bi.1 bi.2 rows) (<[length g := exits]> (replicate (S (length g)) [])) (enumerate preds))).
  { apply (yields_enumerate _ (fun k => array (S (length g)) (F k))).
    - eapply array_update; [apply array_replicate|unfold F; by rewrite decide_False, decide_True by lia|].
      intros j _ Hj. unfold F. by rewrite decide_False, decide_False by lia.
    - intros k row rows Hrow Hrows. cbn [fst snd]. assert (Hk : (k < length preds)%nat) by eauto with index.
      eapply array_vset; [exact Hrows|lia|unfold F, row_of; rewrite decide_True by lia; by rewrite Hrow|].
      intros j _ Hj. unfold F. by rewrite (decide_ext (j < S k)%nat (j < k)%nat) by lia. }
  destruct (foldM _ _ _) as [rows| |]; cbn in Hgo; [|done..]. exists rows. split; [done|]. split; [apply Hgo| |].
  - intros e. rewrite <- virtual_exits. fold exits. rewrite edge_row. unfold row_of. rewrite (array_lookup _ _ _ (length g) Hgo) by lia. unfold F.
    by rewrite decide_False, decide_True by lia.
  - intros a b Hb. rewrite <- Hrev, !edge_row. unfold row_of. rewrite (array_lookup _ _ _ b Hgo) by lia. unfold F. by rewrite decide_True by lia.
Qed.

(** The postdominator tree and its frontiers. *)
Record postdominator_tree g (include_frontier : bool) (t : PostDominatorTree) (frontiers : list (list nat)) : Prop := {
  pt_rows : exists rows, reversed_rows g rows /\ dominator_tree rows (length g) (tree t);
  pt_shape : t = PostDom (tree t) (length g) (length g);
  pt_length : length frontiers = length g;
  pt_frontier b row : frontiers !! b = Some row -> StronglySorted Nat.lt row /\
    forall s, s ∈ row <-> include_frontier = true /\ control_dependent g b s }.

Lemma sorted_strict (l : list nat) : NoDup l -> StronglySorted Nat.le l -> StronglySorted Nat.lt l.
Proof.
  intros Hnd Hs. induction Hs as [|a l Hs IH Hall]; [constructor|]. apply NoDup_cons in Hnd as [Ha Hnd]. constructor; [by apply IH|].
  rewrite Forall_forall in *. intros x Hx. specialize (Hall x Hx). assert (a <> x) by (by intros ->). lia.
Qed.

Lemma build_postdominators_spec g preds include_frontier : closed g -> reverses g preds ->
  exists t frontiers, build_postdominators preds g include_frontier = Ok (t, frontiers) /\ postdominator_tree g include_frontier t frontiers.
Proof.
  intros Hclosed Hrev. unfold build_postdominators. destruct (reverse_rows_spec (E:=CfgError) g preds Hrev) as (rows & -> & Hrows). msimpl.
  pose proof (closed_rows_virtual g rows Hclosed Hrows) as Hcr. pose proof (compute_spec rows (length g)) as Hc.
  assert (Hno : forall err, ~ rejected rows (length g) err).
  { intros [| |source target blocks| |]; cbn; try tauto.
    - intros ->. by pose proof (rr_length _ _ Hrows).
    - intros (_ & _ & _ & Hle). rewrite (rr_length _ _ Hrows) in Hle. lia.
    - intros (_ & _ & He%Hcr & Hle). lia. }
  destruct (compute rows (length g)) as [t|e|]; cbn in Hc; [|by destruct (Hno e)|done]. msimpl.
  destruct include_frontier.
  - destruct (dominance_frontiers_spec rows (length g) t Hc (E:=CfgError)) as (fs & -> & Hlen & Hfs). msimpl. rewrite (rr_length _ _ Hrows) in Hlen.
    eexists _, _. split; [done|]. split; cbn [tree]; [by exists rows|done|rewrite length_fmap, length_take; lia|].
    intros b row Hb. rewrite list_lookup_fmap in Hb. apply fmap_Some in Hb as (frow & Hfrow & ->).
    assert (Hbn : (b < length g)%nat) by (apply lookup_lt_Some in Hfrow; rewrite length_take in Hfrow; lia). rewrite lookup_take_lt in Hfrow by done.
    destruct (Hfs b) as (row & Hrow & Hnd & Hs & Hin); [rewrite (rr_length _ _ Hrows); lia|]. assert (frow = row) as -> by congruence. split.
    + apply StronglySorted_filter. by apply sorted_strict.
    + intros s. rewrite list_elem_of_filter, Hin. split.
      * intros [Hsn Hf]. split; [done|]. by apply (frontier_control g rows Hclosed Hrows t Hc).
      * intros [_ Hcd]. assert (Hsn : (s < length g)%nat) by (destruct Hcd as (x & (r & Hr & _) & _); eauto with index). split; [done|].
        by apply (frontier_control g rows Hclosed Hrows t Hc).
  - eexists _, _. split; [done|]. split; cbn [tree]; [by exists rows|done|apply length_replicate|].
    intros b row [-> _]%lookup_replicate. split; [constructor|]. intros s. split; [by intros ?%not_elem_of_nil|by intros [? _]].
Qed.

(** ** The forward analysis *)

(** Why an analysis fails: the graph is not valid, or the root does not reach
    all of it. *)
Definition unanalysed g root (e : CfgError) : Prop :=
  match e with
  | Unreachable blocks => (root < length g)%nat /\ closed g /\ blocks <> [] /\ StronglySorted Nat.lt blocks /\
      forall b, b ∈ blocks <-> (b < length g)%nat /\ ~ reachable g root b
  | _ => rejected g root e
  end.

(** The rows are those of the graph, the successors without their repetitions
    and the predecessors in increasing order. *)
Record rows_ok g successors predecessors : Prop := {
  ro_length : length successors = length g;
  ro_edge a b : edge successors a b <-> edge g a b;
  ro_row a row : successors !! a = Some row -> NoDup row;
  ro_reverses : reverses successors predecessors;
  ro_incoming a row : predecessors !! a = Some row -> StronglySorted Nat.lt row }.

Record forward_ok g root (include_frontier : bool) (f : ForwardControlFlowGraph) : Prop := {
  fo_root : fwd_root f = root;
  fo_rows : rows_ok g (fwd_successors f) (fwd_predecessors f);
  fo_reachable b : (b < length g)%nat -> reachable (fwd_successors f) root b;
  fo_dominators : dominator_tree (fwd_successors f) root (fwd_dominators f);
  fo_length : length (fwd_dominance_frontier f) = length g;
  fo_frontier b row : fwd_dominance_frontier f !! b = Some row -> StronglySorted Nat.lt row /\
    forall s, s ∈ row <-> include_frontier = true /\ in_frontier (fwd_successors f) root (fwd_dominators f) b s;
  fo_loops : loops_ok (fwd_successors f) root (fwd_loops f);
  fo_regions : regions_ok (fwd_successors f) root (fwd_sccs f) (fwd_scc_for_block f) }.

Lemma sort_dedup_spec (l : list nat) : StronglySorted Nat.lt (dedup (sort_by_key id l)) /\ forall x, x ∈ dedup (sort_by_key id l) <-> x ∈ l.
Proof.
  split.
  - apply dedup_sorted. exact (sort_by_key_sorted id l).
  - intros x. rewrite elem_of_dedup. by rewrite elem_of_sort_by_key.
Qed.

Lemma rows_spec {E} g : closed g -> exists preds, predecessor_rows (retain_first <$> g) = Ok preds :> result E _ /\
  rows_ok g (retain_first <$> g) ((fun incoming => dedup (sort_by_key id incoming)) <$> preds).
Proof.
  intros Hclosed. assert (He : forall a b, edge (retain_first <$> g) a b <-> edge g a b) by (intros a b; apply edge_fmap; intros; apply retain_first_spec).
  assert (Hc : closed (retain_first <$> g)) by (intros a b Hab%He; rewrite length_fmap; by apply (Hclosed a)).
  destruct (predecessor_rows_spec (E:=E) _ Hc) as (preds & -> & [Hlen Hrev] & _). exists preds. split; [done|]. split.
  - apply length_fmap.
  - done.
  - intros a row Hrow. rewrite list_lookup_fmap in Hrow. apply fmap_Some in Hrow as (r & _ & ->). apply retain_first_spec.
  - split; [by rewrite length_fmap|]. intros a b. rewrite <- Hrev. apply edge_fmap. intros; apply sort_dedup_spec.
  - intros a row Hrow. rewrite list_lookup_fmap in Hrow. apply fmap_Some in Hrow as (r & _ & ->). apply sort_dedup_spec.
Qed.

(** The unreachable blocks, in increasing order. *)
Lemma order_spec g root : closed g -> (root < length g)%nat ->
  exists order, reverse_postorder g root = Ok order /\ (forall b, b ∈ order <-> reachable g root b) /\
  (length order = length g <-> forall b, (b < length g)%nat -> b ∈ order).
Proof.
  intros Hclosed Hroot. unfold reverse_postorder. rewrite (proj2 (validate_edges_ok g root)) by done. msimpl.
  destruct (dfs_spec g root Hclosed Hroot (E:=CfgError)) as (st & -> & _ & _ & Hin & Hnd & _). msimpl.
  exists (rev (postorder st)). split; [done|]. split; [intros b; by rewrite elem_of_rev|].
  assert (Hnd' : NoDup (rev (postorder st))) by (by rewrite <- Permutation_rev).
  assert (Hsub : forall b, b ∈ rev (postorder st) -> b ∈ seq 0 (length g)).
  { intros b. rewrite elem_of_rev, Hin. intros Hb%reachable_lt; [|done..]. apply elem_of_seq. lia. }
  split.
  - intros Hlen b Hb. rewrite (submseteq_length_Permutation (rev (postorder st)) (seq 0 (length g)));
      [apply elem_of_seq; lia|by apply NoDup_submseteq|by rewrite length_seq, Hlen].
  - intros Hall. rewrite <- (length_seq (length g) 0). apply Permutation_length, NoDup_Permutation; [done|apply NoDup_seq|].
    intros b. split; [apply Hsub|]. intros Hb%elem_of_seq. apply Hall. lia.
Qed.

Lemma same_reachable g g' root b : (forall x y, edge g x y <-> edge g' x y) -> reachable g root b <-> reachable g' root b.
Proof. intros He. split; intros [l Hl]; exists l; (eapply path_same_edges; [|exact Hl]); intros; by apply He. Qed.

Lemma rejected_same g g' root err : length g = length g' -> (forall x y, edge g x y <-> edge g' x y) -> rejected g root err -> rejected g' root err.
Proof.
  intros Hlen He. assert (Hnil : g = [] <-> g' = []) by (destruct g, g'; naive_solver). destruct err; cbn; rewrite ?Hlen, ?He, ?Hnil; done.
Qed.

(** With every block reached, every block but the root has a parent. *)
Lemma parents_present g root t : dominator_tree g root t -> (forall b, (b < length g)%nat -> reachable g root b) ->
  ~ Exists (fun bp : nat * option nat => bp.1 <> root /\ bp.2 = None) (enumerate (idom t)).
Proof.
  intros Hdt Hall Hex. apply Exists_exists in Hex as ([b o] & Hb%elem_of_enumerate & Hne & Ho). cbn in *. subst o.
  assert (Ha : above (idom t) root b) by (apply (dt_reachable _ _ _ Hdt), Hall; rewrite <- (dt_length _ _ _ Hdt); eauto with index).
  inversion Ha; subst; [done|]. congruence.
Qed.

Lemma analyze_impl_spec g root include_frontier :
  yields (unanalysed g root) (forward_ok g root include_frontier) (analyze_impl g root include_frontier).
Proof.
  unfold analyze_impl. pose proof (validate_edges_outcome g root) as Hv. destruct (validate_edges g root) as [[]|err|]; cbn in Hv; [|by destruct err|done].
  destruct Hv as [Hroot Hclosed]. msimpl. destruct (rows_spec (E:=CfgError) g Hclosed) as (preds & Hp & Hrows). revert Hrows Hp.
  generalize (retain_first <$> g) as h. intros h Hrows Hp. destruct (id Hrows) as [Hlen He _ Hrev _].
  assert (Hch : closed h) by (intros a b Hab%He; rewrite Hlen; by apply (Hclosed a)). assert (Hrh : (root < length h)%nat) by (by rewrite Hlen).
  destruct (order_spec h root Hch Hrh) as (order & -> & Hin & Hfull). msimpl.
  case_decide as Hl.
  - cbn. split; [done|]. split; [done|]. assert (Hmem : forall b, b ∈ filter (fun block => block ∉ order) (seq 0 (length h)) <-> (b < length g)%nat /\ ~ reachable g root b).
    { intros b. rewrite list_elem_of_filter, elem_of_seq, Hin, (same_reachable h g root b He), Hlen. intuition lia. }
    split; [|split; [apply StronglySorted_filter, seq_sorted|exact Hmem]]. intros Hnil. apply Hl, Hfull. intros b Hb. destruct (decide (b ∈ order)) as [|Hno]; [done|].
    exfalso. apply (not_elem_of_nil b). rewrite <- Hnil. apply list_elem_of_filter. split; [done|]. apply elem_of_seq. lia.
  - assert (Hall : forall b, (b < length h)%nat -> reachable h root b).
    { intros b Hb. apply Hin. apply Hfull; [|done]. by destruct (decide (length order = length h)). }
    rewrite Hp. msimpl. pose proof (compute_spec h root) as Hc.
    destruct (compute h root) as [t|err|]; cbn in Hc; [|apply (rejected_same h g) in Hc; [by destruct err|done..]|done]. msimpl.
    rewrite decide_False by (by apply (parents_present h root)).
    destruct (natural_loops_spec h _ root t Hc Hrev Hall) as (loops & Hloops & Hlok).
    destruct (strongly_connected_regions_spec (E:=CfgError) h _ root t Hc Hrev Hall) as (regions & component & Hregions & Hrok).
    destruct include_frontier.
    + destruct (dominance_frontiers_spec h root t Hc (E:=CfgError)) as (fs & -> & Hfl & Hfs). msimpl. rewrite Hloops. msimpl. rewrite Hregions. msimpl.
      split; cbn; try done; [by rewrite Hlen in Hall|by rewrite Hfl|]. intros b row Hb.
      assert (Hbh : (b < length h)%nat) by (rewrite <- Hfl; eauto with index). destruct (Hfs b Hbh) as (row' & Hrow' & Hnd & Hs & Hmem). simplify_eq.
      split; [by apply sorted_strict|]. intros s. rewrite Hmem. specialize (Hall b Hbh). tauto.
    + msimpl. rewrite Hloops. msimpl. rewrite Hregions. msimpl. split; cbn; try done; [by rewrite Hlen in Hall|by rewrite length_replicate|].
      intros b row [-> _]%lookup_replicate. split; [constructor|]. intros s. split; [by intros ?%not_elem_of_nil|by intros [? _]].
Qed.

(** ** The whole analysis *)

Record complete_ok g root (include_frontiers : bool) (c : ControlFlowGraph) : Prop := {
  co_forward : forward_ok g root include_frontiers (cfg_forward c);
  co_postdominators : postdominator_tree (fwd_successors (cfg_forward c)) include_frontiers (postdominators c) (controllers c);
  co_frontier : postdominance_frontier c = controllers c;
  co_dependents : length (control_dependents c) = length g;
  co_transposed a row : control_dependents c !! a = Some row -> StronglySorted Nat.lt row /\ forall b, b ∈ row <-> edge (controllers c) b a }.

Lemma finish_spec g root include_frontiers f : closed g -> forward_ok g root include_frontiers f ->
  exists c, finish f include_frontiers = Ok c /\ complete_ok g root include_frontiers c.
Proof.
  intros Hclosed Hf. pose proof (fo_rows _ _ _ _ Hf) as Hrows. pose proof (ro_length _ _ _ Hrows) as Hlen.
  assert (Hch : closed (fwd_successors f)) by (intros a b Hab%(ro_edge _ _ _ Hrows); rewrite Hlen; by apply (Hclosed a)).
  destruct (build_postdominators_spec _ _ include_frontiers Hch (ro_reverses _ _ _ Hrows)) as (t & rows & Hb & Ht).
  unfold finish. rewrite Hb. msimpl. cbn [fst snd]. pose proof (pt_length _ _ _ _ Ht) as Hrl. destruct include_frontiers.
  - assert (Hcr : closed rows).
    { intros b s (row & Hrow & Hs). destruct (pt_frontier _ _ _ _ Ht b row Hrow) as [_ Hin]. apply Hin in Hs as [_ (x & (r & Hr & _) & _)]. rewrite Hrl. eauto with index. }
    destruct (predecessor_rows_spec (E:=CfgError) rows Hcr) as (deps & Hd & [Hdl Hdr] & _). unfold predecessor_rows in Hd. rewrite <- Hrl, Hd. msimpl.
    eexists. split; [done|]. split; cbn; [done..|by rewrite length_fmap, Hdl, Hrl|]. intros a row Ha. rewrite list_lookup_fmap in Ha. apply fmap_Some in Ha as (r & Hr & ->).
    split; [apply sort_dedup_spec|]. intros b. rewrite (proj2 (sort_dedup_spec r)), <- Hdr. unfold edge. rewrite Hr. naive_solver.
  - msimpl. eexists. split; [done|]. split; cbn; [done..|by rewrite length_replicate|]. intros a row [-> _]%lookup_replicate. split; [constructor|].
    intros b. split; [by intros ?%not_elem_of_nil|]. intros (row & Hrow & Hs). destruct (pt_frontier _ _ _ _ Ht b row Hrow) as [_ Hin]. by apply Hin in Hs as [? _].
Qed.

Definition analysis (include_frontiers : bool) : graph -> nat -> cfg_result ControlFlowGraph :=
  if include_frontiers then analyze else analyze_structure.

Lemma analysis_spec (include_frontiers : bool) g root : yields (unanalysed g root) (complete_ok g root include_frontiers) (analysis include_frontiers g root).
Proof.
  assert (H : yields (unanalysed g root) (complete_ok g root include_frontiers) (forward ← analyze_impl g root include_frontiers; finish forward include_frontiers)); [|by destruct include_frontiers].
  pose proof (analyze_impl_spec g root include_frontiers) as Hf. destruct (analyze_impl _ _ _) as [f|err|]; [|done..]. cbn in Hf. msimpl.
  destruct (finish_spec g root include_frontiers f) as (c & -> & Hc); [|done|done].
  intros a b Hab. pose proof (fo_rows _ _ _ _ Hf) as Hrows. apply (ro_edge _ _ _ Hrows) in Hab. apply (dt_closed _ _ _ (fo_dominators _ _ _ _ Hf)) in Hab.
  by rewrite (ro_length _ _ _ Hrows) in Hab.
Qed.
