(* ===== verification/CfgTheorems.v ===== *)
(** * CfgTheorems: what a control-flow analysis reports

    The tables of [ControlFlowGraph::analyze] and [analyze_structure] read as
    statements about the paths of the graph the analysis was given. *)

From S2P Require Import Prelude Specs Order Graph Cfg LtCorrect CfgTree CfgTreeFacts CfgDominators CfgLoops CfgLoopFacts CfgScc CfgPostdom CfgAnalyze.

Implicit Types (g h : graph) (a b d e s x : nat).

(** ** Graphs with the same edges *)

Section same.
Context (h g : graph) (Hlen : length h = length g) (He : forall x y, edge h x y <-> edge g x y).

Lemma same_path a l b : path h a l b <-> path g a l b.
Proof. split; apply path_same_edges; intros; by apply He. Qed.

Lemma same_dominates root d b : dominates_spec h root d b <-> dominates_spec g root d b.
Proof. unfold dominates_spec. by setoid_rewrite same_path. Qed.

Lemma same_reaches a b : reachable h a b <-> reachable g a b.
Proof. by apply same_reachable. Qed.

Lemma same_in_loop root a x : in_loop h root a x <-> in_loop g root a x.
Proof. unfold in_loop, body. setoid_rewrite same_path. setoid_rewrite same_dominates. by setoid_rewrite He. Qed.

Lemma same_mutual a b : mutual h a b <-> mutual g a b.
Proof. unfold mutual. by rewrite !same_reaches. Qed.

Lemma exit_edges k e : exit_block k e <-> (e < length k)%nat /\ forall x, ~ edge k e x.
Proof.
  unfold exit_block, edge. split.
  - intros Hk. split; [eauto with index|]. intros x (row & Hrow & Hx). rewrite Hk in Hrow. injection Hrow as <-. by apply not_elem_of_nil in Hx.
  - intros [Hlt Hno]. in_range k e as row Hrow. rewrite Hrow. destruct row as [|x row]; [done|]. destruct (Hno x). eexists. split; [done|]. by left.
Qed.

Lemma same_exit e : exit_block h e <-> exit_block g e.
Proof. rewrite !exit_edges, Hlen. by setoid_rewrite He. Qed.

Lemma same_exits b : exits h b <-> exits g b.
Proof. unfold exits. setoid_rewrite same_path. by setoid_rewrite same_exit. Qed.

Lemma same_postdominates d b : postdominates_spec h d b <-> postdominates_spec g d b.
Proof. unfold postdominates_spec. setoid_rewrite same_path. by setoid_rewrite same_exit. Qed.

Lemma same_control_dependent b s : control_dependent h b s <-> control_dependent g b s.
Proof. unfold control_dependent. setoid_rewrite He. setoid_rewrite same_exits. by setoid_rewrite same_postdominates. Qed.

Lemma same_loops root loops : loops_ok h root loops -> loops_ok g root loops.
Proof.
  intros [H1 H2 H3 H4 H5]. split; try done.
  - intros a. rewrite H2. setoid_rewrite same_dominates. by setoid_rewrite He.
  - intros l Hl x. rewrite (H3 l Hl x). apply same_in_loop.
Qed.

Lemma same_regions root regions component : regions_ok h root regions component -> regions_ok g root regions component.
Proof.
  intros [H1 H2 H3 H4]. rewrite Hlen in H3. setoid_rewrite He in H4. split; [|done..].
  intros r Hr. destruct (H1 r Hr) as [K1 K2 K3 K4 K5 K6]. setoid_rewrite same_mutual in K3. setoid_rewrite He in K4. setoid_rewrite He in K5.
  setoid_rewrite same_dominates in K6. done.
Qed.
End same.

(** ** The reported tables *)

Section tables.
Context (g : graph) (root : nat) (frontiers : bool) (c : ControlFlowGraph) (Hc : complete_ok g root frontiers c).
Abbreviation n := (length g).
Abbreviation forward := (cfg_forward c).
Abbreviation h := (fwd_successors forward).

Lemma table_rows : rows_ok g h (fwd_predecessors forward).
Proof. exact (fo_rows _ _ _ _ (co_forward _ _ _ _ Hc)). Qed.

Lemma table_length : length h = n.
Proof. exact (ro_length _ _ _ table_rows). Qed.

Lemma table_edge a b : edge h a b <-> edge g a b.
Proof. exact (ro_edge _ _ _ table_rows a b). Qed.

Lemma table_tree : dominator_tree h root (fwd_dominators forward).
Proof. exact (fo_dominators _ _ _ _ (co_forward _ _ _ _ Hc)). Qed.

Lemma table_reachable b : (b < n)%nat -> reachable h root b.
Proof. exact (fo_reachable _ _ _ _ (co_forward _ _ _ _ Hc) b). Qed.

Lemma table_closed : closed h.
Proof. exact (dt_closed _ _ _ table_tree). Qed.

Lemma table_root : (root < n)%nat.
Proof. rewrite <- table_length. exact (dt_root _ _ _ table_tree). Qed.

Lemma table_closed_graph : closed g.
Proof. intros a b Hab%table_edge%table_closed. by rewrite table_length in Hab. Qed.

Lemma table_above d b : (b < n)%nat -> above (idom (fwd_dominators forward)) d b <-> dominates_spec g root d b.
Proof.
  intros Hb. rewrite (dt_above _ _ _ table_tree) by (by apply table_reachable). apply same_dominates, table_edge.
Qed.

Lemma table_connected b : (b < n)%nat -> above (idom (fwd_dominators forward)) root b.
Proof. intros Hb. apply (dt_reachable _ _ _ table_tree). by apply table_reachable. Qed.

Lemma table_in_frontier b s : in_frontier h root (fwd_dominators forward) b s <->
  exists x, edge g x s /\ dominates_spec g root b x /\ ~ (b <> s /\ dominates_spec g root b s).
Proof.
  unfold in_frontier, strictly_above. setoid_rewrite table_edge.
  assert (Hs : forall x, edge g x s -> (x < n)%nat /\ (s < n)%nat).
  { intros x Hx. split; [destruct Hx as (row & Hrow & _); eauto with index|by apply (table_closed_graph x)]. }
  split; intros (x & Hx).
  - destruct Hx as (_ & Ha & He & Hnot). destruct (Hs x He). exists x. rewrite <- !table_above by done. done.
  - destruct Hx as (He & Hd & Hnot). destruct (Hs x He) as [Hxn Hsn]. exists x. rewrite !table_above by done. split_and!; [by apply table_reachable|done..].
Qed.
End tables.

Section theorems.
Context (g : graph) (root : nat).

(** C22: Both analyses accept exactly the graphs whose root and edges are in
    range and whose blocks are all reachable, report the others with the error
    that says why (the unreachable blocks in increasing order), and never
    panic; the successors they keep are the edges without repetitions and the
    predecessors are the reversed edges in increasing order. *)
Theorem analysis_outcome include_frontiers :
  match analysis include_frontiers g root with
  | Ok c => (root < length g)%nat /\ closed g /\ (forall b, (b < length g)%nat -> reachable g root b) /\
      fwd_root (cfg_forward c) = root /\ rows_ok g (fwd_successors (cfg_forward c)) (fwd_predecessors (cfg_forward c))
  | Err err => unanalysed g root err
  | Panic => False
  end.
Proof.
  pose proof (analysis_spec include_frontiers g root) as Hs. destruct (analysis _ _ _) as [c|err|]; cbn in Hs; [|done..].
  split; [by eapply table_root|]. split; [by eapply table_closed_graph|]. split; [|split; [apply (co_forward _ _ _ _ Hs)|by eapply table_rows]].
  intros b Hb. apply (same_reaches (fwd_successors (cfg_forward c))); [by apply (table_edge _ _ _ _ Hs)|by eapply table_reachable].
Qed.

(** C8: [dominates] on an analysed graph holds exactly when the first block is
    on every path from the root to the second, and [lca] returns, without
    panicking, their nearest common dominator. *)
Theorem analysis_dominators include_frontiers :
  match analysis include_frontiers g root with
  | Ok c => let t := fwd_dominators (cfg_forward c) in
      forall a b, (a < length g)%nat -> (b < length g)%nat ->
      (dominates t a b = true <-> dominates_spec g root a b) /\
      exists m, lca t a b = Ok (Some m) :> cfg_result (option nat) /\ dominates_spec g root m a /\ dominates_spec g root m b /\
        forall d, dominates_spec g root d a -> dominates_spec g root d b -> dominates_spec g root d m
  | Err err => unanalysed g root err
  | Panic => False
  end.
Proof.
  pose proof (analysis_spec include_frontiers g root) as Hs. destruct (analysis _ _ _) as [c|err|]; cbn in Hs; [|done..].
  cbv zeta. intros a b Ha Hb. pose proof (dt_tree _ _ _ (table_tree _ _ _ _ Hs)) as Ht. split.
  - rewrite (to_dominates _ _ _ Ht), (table_above _ _ _ _ Hs) by done. split; [by intros [? _]|]. intros Hd. split; [done|by eapply table_connected].
  - destruct (proj1 (lca_spec _ root Ht (E:=CfgError) a b)) as (m & Hm & Hcommon); [split; by eapply table_connected|]. exists m. split; [done|].
    destruct (proj1 (Hcommon m) (above_refl _ _)) as [Hma Hmb].
    assert (Hml : (m < length g)%nat).
    { rewrite <- (table_length _ _ _ _ Hs), <- (dt_length _ _ _ (table_tree _ _ _ _ Hs)). eapply connected_lt.
      - rewrite (dt_length _ _ _ (table_tree _ _ _ _ Hs)). apply (dt_root _ _ _ (table_tree _ _ _ _ Hs)).
      - eapply above_connected; [apply (to_root _ _ _ Ht)|exact Hma|by eapply table_connected]. }
    rewrite <- !(table_above _ _ _ _ Hs) by done. split; [done|]. split; [done|]. intros d. rewrite <- !(table_above _ _ _ _ Hs) by done. intros ? ?. by apply Hcommon.
Qed.

(** The dominance frontier [analyze] reports for a block is, in increasing
    order, the set of blocks with a predecessor that the block dominates and
    that it does not dominate strictly. *)
Lemma analyze_frontiers :
  match analyze g root with
  | Ok c => let rows := fwd_dominance_frontier (cfg_forward c) in
      length rows = length g /\ forall b row, rows !! b = Some row -> StronglySorted Nat.lt row /\
      forall s, s ∈ row <-> exists x, edge g x s /\ dominates_spec g root b x /\ ~ (b <> s /\ dominates_spec g root b s)
  | Err err => unanalysed g root err
  | Panic => False
  end.
Proof.
  pose proof (analysis_spec true g root) as Hs. unfold analysis in Hs. destruct (analyze _ _) as [c|err|]; cbn in Hs; [|done..].
  intros rows. split; [apply (co_forward _ _ _ _ Hs)|]. intros b row Hrow. destruct (fo_frontier _ _ _ _ (co_forward _ _ _ _ Hs) b row Hrow) as [Hsort Hin].
  split; [done|]. intros s. rewrite Hin, (table_in_frontier _ _ _ _ Hs). tauto.
Qed.

(** C9: The natural loops are those of the graph: one for every block that
    dominates a predecessor of it, holding exactly the blocks that reach such
    a predecessor without passing the header; smaller loops come first, and
    the parent of each is the least loop that strictly contains it. *)
Theorem analysis_loops include_frontiers :
  match analysis include_frontiers g root with
  | Ok c => loops_ok g root (fwd_loops (cfg_forward c))
  | Err err => unanalysed g root err
  | Panic => False
  end.
Proof.
  pose proof (analysis_spec include_frontiers g root) as Hs. destruct (analysis _ _ _) as [c|err|]; cbn in Hs; [|done..].
  eapply same_loops; [by apply (table_edge _ _ _ _ Hs)|]. apply (co_forward _ _ _ _ Hs).
Qed.

(** C10: The regions are the strongly connected components of the graph, listed
    so that edges never lead to an earlier one; each reports its entries,
    whether it holds a cycle, and the member that dominates it if there is
    one. *)
Theorem analysis_regions include_frontiers :
  match analysis include_frontiers g root with
  | Ok c => regions_ok g root (fwd_sccs (cfg_forward c)) (fwd_scc_for_block (cfg_forward c))
  | Err err => unanalysed g root err
  | Panic => False
  end.
Proof.
  pose proof (analysis_spec include_frontiers g root) as Hs. destruct (analysis _ _ _) as [c|err|]; cbn in Hs; [|done..].
  eapply same_regions; [by apply (table_length _ _ _ _ Hs)|by apply (table_edge _ _ _ _ Hs)|]. apply (co_forward _ _ _ _ Hs).
Qed.

(** [postdominates] holds exactly when the second block can leave the
    graph and the first is on every path on which it does; for a block that
    can leave the graph, [immediate_postdominator] is the nearest other block
    that postdominates it, or none when all those paths share only the
    block itself. *)
Lemma analysis_postdominators include_frontiers :
  match analysis include_frontiers g root with
  | Ok c => let t := postdominators c in
      forall a b, (a < length g)%nat -> (b < length g)%nat ->
      (postdominates t a b = true <-> exits g b /\ postdominates_spec g a b) /\
      (exits g b -> immediate_postdominator t b = Some a <->
        a <> b /\ postdominates_spec g a b /\
        forall d, (d < length g)%nat -> d <> b -> postdominates_spec g d b -> postdominates_spec g d a)
  | Err err => unanalysed g root err
  | Panic => False
  end.
Proof.
  pose proof (analysis_spec include_frontiers g root) as Hs. destruct (analysis _ _ _) as [c|err|]; cbn in Hs; [|done..].
  cbv zeta. intros a b Ha Hb. pose proof (table_length _ _ _ _ Hs) as Hlen. pose proof (table_edge _ _ _ _ Hs) as He.
  destruct (co_postdominators _ _ _ _ Hs) as [(rows & Hrows & Hdt) Hshape _ _]. rewrite Hshape.
  rewrite <- (same_exits _ _ Hlen He), <- (same_postdominates _ _ Hlen He a b). setoid_rewrite <- (same_postdominates _ _ Hlen He). rewrite <- Hlen in Ha, Hb |- *.
  pose proof (table_closed _ _ _ _ Hs) as Hclosed. split.
  - rewrite (postdominates_spec_ok _ _ Hclosed Hrows _ Hdt). tauto.
  - intros Hexit. rewrite (immediate_postdominator_ok _ _ Hclosed Hrows _ Hdt b a Hb Hexit). tauto.
Qed.

(** C11: The controllers [analyze] reports for a block are, in increasing order,
    the branches it is control dependent on: those with a successor that it
    postdominates without postdominating the branch strictly; the dependents
    of a block are the blocks it controls, in increasing order. *)
Theorem analyze_control_dependence :
  match analyze g root with
  | Ok c => length (controllers c) = length g /\ length (control_dependents c) = length g /\
      (forall b row, controllers c !! b = Some row -> StronglySorted Nat.lt row /\ forall s, s ∈ row <-> control_dependent g b s) /\
      (forall s row, control_dependents c !! s = Some row -> StronglySorted Nat.lt row /\
        forall b, b ∈ row <-> (b < length g)%nat /\ control_dependent g b s)
  | Err err => unanalysed g root err
  | Panic => False
  end.
Proof.
  pose proof (analysis_spec true g root) as Hs. unfold analysis in Hs. destruct (analyze _ _) as [c|err|]; cbn in Hs; [|done..].
  pose proof (table_length _ _ _ _ Hs) as Hlen. pose proof (table_edge _ _ _ _ Hs) as He.
  pose proof (co_postdominators _ _ _ _ Hs) as Hp. assert (Hcl : length (controllers c) = length g) by (by rewrite (pt_length _ _ _ _ Hp)).
  assert (Hrow : forall b row, controllers c !! b = Some row -> StronglySorted Nat.lt row /\ forall s, s ∈ row <-> control_dependent g b s).
  { intros b row Hb. destruct (pt_frontier _ _ _ _ Hp b row Hb) as [Hsort Hin]. split; [done|]. intros s. rewrite Hin, (same_control_dependent _ _ Hlen He). tauto. }
  split; [done|]. split; [apply (co_dependents _ _ _ _ Hs)|]. split; [done|]. intros s row Hb. destruct (co_transposed _ _ _ _ Hs s row Hb) as [Hsort Hin].
  split; [done|]. intros b. rewrite Hin. unfold edge. split.
  - intros (r & Hr & Hsr). split; [rewrite <- Hcl; eauto with index|]. by apply (proj2 (Hrow b r Hr)).
  - intros [Hbl Hcd]. in_range (controllers c) b as r Hr. exists r. split; [done|]. by apply (proj2 (Hrow b r Hr)).
Qed.
End theorems.

(** [from_idom] accepts links exactly when the root has none and all lead
    to blocks, whether or not some of them form a cycle away from the root;
    it rejects the others with the error that says why, never panics, and in the tree it builds
    [dominates] holds exactly along the links of the blocks that lead to the
    root. *)
Lemma from_idom_correct (links : list (option nat)) (root : nat) :
  match from_idom links root with
  | Ok t => idom t = links /\ (root < length links)%nat /\ links !! root = Some None /\
      (forall b p, links !! b = Some (Some p) -> (p < length links)%nat) /\
      forall d b, dominates t d b = true <-> above links d b /\ above links root b
  | Err (InvalidRoot r blocks) => r = root /\ blocks = length links /\ (length links <= root)%nat
  | Err err => bad_links links root err
  | Panic => False
  end.
Proof.
  pose proof (from_idom_spec links root) as Hs. destruct (from_idom _ _) as [t|err|]; [|done..].
  destruct Hs as [? Ht]. split; [apply Ht|]. split; [done|]. split; [apply Ht|]. split; [apply Ht|apply Ht].
Qed.
