(* ===== verification/Ssa.v ===== *)
(** * Ssa: pruned SSA construction

    Models [crates/celox-analysis/src/ssa.rs]: the view of a flow graph it
    needs, as a class implemented by both analyses of [CfgLoops], and [build]
    with its passes: the facts of the events, liveness, phi placement along
    dominance frontiers, renaming over the dominator tree and the final
    checks. Error messages are determined by the rule and left out. *)

From S2P Require Import Prelude Order Graph Cfg CfgTree CfgLoops.

(** ** The view of a flow graph *)

(** [dominance_frontier] panics outside the table, which is [None]. *)
Class SsaCfg (C : Type) : Type := {
  cfg_root : C -> nat;
  cfg_predecessors : C -> graph;
  cfg_successors : C -> graph;
  dominator_children : C -> graph;
  dominance_frontier_len : C -> nat;
  cfg_frontier : C -> nat -> option (list nat) }.

#[global] Hint Mode SsaCfg ! : typeclass_instances.

#[global] Instance ForwardControlFlowGraph_ssa : SsaCfg ForwardControlFlowGraph := {|
  cfg_root := fwd_root;
  cfg_predecessors := fwd_predecessors;
  cfg_successors := fwd_successors;
  dominator_children f := children (fwd_dominators f);
  dominance_frontier_len f := length (fwd_dominance_frontier f);
  cfg_frontier f block := fwd_dominance_frontier f !! block |}.

#[global] Instance ControlFlowGraph_ssa : SsaCfg ControlFlowGraph := {|
  cfg_root c := cfg_root (cfg_forward c);
  cfg_predecessors c := cfg_predecessors (cfg_forward c);
  cfg_successors c := cfg_successors (cfg_forward c);
  dominator_children c := dominator_children (cfg_forward c);
  dominance_frontier_len c := dominance_frontier_len (cfg_forward c);
  cfg_frontier c block := cfg_frontier (cfg_forward c) block |}.

(** ** Versions, events and results *)

Inductive Version (V D : Type) : Type :=
  | EntryVersion (variable : V)
  | DefVersion (variable : V) (definition : D)
  | PhiVersion (variable : V) (block : nat).
Arguments EntryVersion {V D} variable.
Arguments DefVersion {V D} variable definition.
Arguments PhiVersion {V D} variable block.

#[global] Instance Version_eq_dec {V D} `{EqDecision V, EqDecision D} : EqDecision (Version V D).
Proof. solve_decision. Defined.

Inductive Event (V D U : Type) : Type :=
  | UseEvent (variable : V) (usage : U)
  | DefEvent (variable : V) (definition : D).
Arguments UseEvent {V D U} variable usage.
Arguments DefEvent {V D U} variable definition.

Record Phi (V D : Type) : Type := MkPhi {
  phi_variable : V;
  phi_block : nat;
  phi_version : Version V D;
  phi_inputs : list (nat * Version V D) }.
Arguments MkPhi {V D} phi_variable phi_block phi_version phi_inputs.
Arguments phi_variable {V D} p.
Arguments phi_block {V D} p.
Arguments phi_version {V D} p.
Arguments phi_inputs {V D} p.

Record SparseSsa (V D U : Type) `{Countable U} : Type := MkSsa {
  ssa_phis : list (Phi V D);
  phis_by_block : list (list nat);
  ssa_uses : gmap U (Version V D) }.
Arguments MkSsa {V D U _ _} ssa_phis phis_by_block ssa_uses.
Arguments ssa_phis {V D U _ _} s.
Arguments phis_by_block {V D U _ _} s.
Arguments ssa_uses {V D U _ _} s.

Inductive SsaRule : Type :=
  ModelShape | UseIdentity | DefinitionIdentity | UseRename | UseCoverage | PhiInputs.

Record SsaError : Type := MkSsaError { ssa_rule : SsaRule; ssa_block : option nat }.

Abbreviation ssa_result := (result SsaError).

Section build.
Context {V D U : Type} `{Countable V, !Ord V, Countable D, Countable U}.
Abbreviation version := (Version V D).
Abbreviation event := (Event V D U).

(** ** The facts of the events *)

Record event_facts : Type := Facts {
  definitions : gmap V (gset nat);
  definition_ids : gset (V * D);
  upward_uses : gset (V * nat);
  usage_ids : gset U }.

(** One event; the set holds the variables defined before it in the block. *)
Definition fact_event (block : nat) (ls : gset V * event_facts) (e : event) : ssa_result (gset V * event_facts) :=
  let '(locally_defined, f) := ls in
  match e with
  | UseEvent variable usage =>
      if decide (usage ∈ usage_ids f) then Err (MkSsaError UseIdentity (Some block)) else
      Ok (locally_defined,
          Facts (definitions f) (definition_ids f)
            (if decide (variable ∈ locally_defined) then upward_uses f else {[(variable, block)]} ∪ upward_uses f)
            ({[usage]} ∪ usage_ids f))
  | DefEvent variable definition =>
      if decide ((variable, definition) ∈ definition_ids f) then Err (MkSsaError DefinitionIdentity (Some block)) else
      Ok ({[variable]} ∪ locally_defined,
          Facts (<[variable := {[block]} ∪ default ∅ (definitions f !! variable)]> (definitions f))
            ({[(variable, definition)]} ∪ definition_ids f) (upward_uses f) (usage_ids f))
  end.

Definition fact_block (f : event_facts) (be : nat * list event) : ssa_result event_facts :=
  lf ← foldM (fact_event be.1) (∅, f) be.2; Ok lf.2.

Definition event_facts_of (events : list (list event)) : ssa_result event_facts :=
  foldM fact_block (Facts ∅ ∅ ∅ ∅) (enumerate events).

(** ** Liveness *)

(** [definition_pairs]: [block] defines [variable]. *)
Definition defines_in (defs : gmap V (gset nat)) (variable : V) (block : nat) : Prop :=
  block ∈ default (∅ : gset nat) (defs !! variable).
#[global] Instance defines_in_dec defs variable block : Decision (defines_in defs variable block).
Proof. unfold defines_in. apply _. Defined.

(** [if !definition_pairs.contains(&pair) && live_in.insert(pair) { live_work.push_back(pair); }] *)
Definition live_push (defs : gmap V (gset nat)) (variable : V) (lw : gset (V * nat) * list (V * nat)) (predecessor : nat)
    : gset (V * nat) * list (V * nat) :=
  if decide (defines_in defs variable predecessor \/ (variable, predecessor) ∈ lw.1) then lw
  else ({[(variable, predecessor)]} ∪ lw.1, lw.2 ++ [(variable, predecessor)]).

(** [while let Some((variable, block)) = live_work.pop_front()] *)
Fixpoint live_loop (fuel : nat) (predecessors : graph) (defs : gmap V (gset nat))
    (live_in : gset (V * nat)) (live_work : list (V * nat)) : ssa_result (gset (V * nat)) :=
  match live_work with
  | [] => Ok live_in
  | (variable, block) :: live_work =>
      match fuel with
      | O => Panic
      | S fuel =>
          row ← expect (predecessors !! block);
          let lw := foldl (live_push defs variable) (live_in, live_work) row in
          live_loop fuel predecessors defs lw.1 lw.2
      end
  end.

Definition live_variables (predecessors : graph) (f : event_facts) : ssa_result (gset (V * nat)) :=
  live_loop (size (upward_uses f) * length predecessors) predecessors (definitions f)
    (upward_uses f) (ascending (upward_uses f)).

(** ** Phi placement *)

Record placement : Type := Placement {
  phi_pairs : gset (nat * V);
  phi_queued : gset nat;
  phi_work : list nat }.

Definition place_phi (live_in : gset (V * nat)) (variable : V) (p : placement) (frontier : nat) : placement :=
  if decide ((variable, frontier) ∉ live_in \/ (frontier, variable) ∈ phi_pairs p) then p else
  let pairs := {[(frontier, variable)]} ∪ phi_pairs p in
  if decide (frontier ∈ phi_queued p) then Placement pairs (phi_queued p) (phi_work p)
  else Placement pairs ({[frontier]} ∪ phi_queued p) (phi_work p ++ [frontier]).

(** [while let Some(definition) = work.pop_front()] *)
Fixpoint place_loop {C} `{SsaCfg C} (fuel : nat) (cfg : C) (live_in : gset (V * nat)) (variable : V) (p : placement)
    : ssa_result (gset (nat * V)) :=
  match phi_work p with
  | [] => Ok (phi_pairs p)
  | definition :: work =>
      match fuel with
      | O => Panic
      | S fuel =>
          row ← expect (cfg_frontier cfg definition);
          place_loop fuel cfg live_in variable
            (foldl (place_phi live_in variable) (Placement (phi_pairs p) (phi_queued p) work) row)
      end
  end.

Definition place_variable {C} `{SsaCfg C} (cfg : C) (f : event_facts) (live_in : gset (V * nat))
    (pairs : gset (nat * V)) (variable : V) : ssa_result (gset (nat * V)) :=
  let original := default (∅ : gset nat) (definitions f !! variable) in
  place_loop (length (cfg_successors cfg)) cfg live_in variable (Placement pairs original (ascending original)).

Definition place_phis {C} `{SsaCfg C} (cfg : C) (f : event_facts) (live_in : gset (V * nat)) : ssa_result (gset (nat * V)) :=
  foldM (place_variable cfg f live_in) ∅ (ascending (dom (definitions f))).

(** One phi without inputs, and its place in the table of its block. *)
Definition add_phi (predecessors : graph) (pb : list (Phi V D) * list (list nat)) (bv : nat * V)
    : ssa_result (list (Phi V D) * list (list nat)) :=
  _ ← expect (predecessors !! bv.1);
  row ← expect (pb.2 !! bv.1);
  Ok (pb.1 ++ [MkPhi bv.2 bv.1 (PhiVersion bv.2 bv.1) []], <[bv.1 := row ++ [length pb.1]]> pb.2).

(** ** Renaming *)

Inductive Action : Type :=
  | Enter (block : nat)
  | Exit (changes : list (V * option version)).

Record rename_state : Type := Rename {
  current : gmap V version;
  rn_uses : gmap U version;
  rn_phis : list (Phi V D) }.

(** [current.get(&variable).copied().unwrap_or(Version::Entry(variable))] *)
Definition reaching (current : gmap V version) (variable : V) : version :=
  default (EntryVersion variable) (current !! variable).

(** [changes.push((variable, current.insert(variable, version)))] *)
Definition bind_version (cc : gmap V version * list (V * option version)) (variable : V) (v : version)
    : gmap V version * list (V * option version) :=
  (<[variable := v]> cc.1, cc.2 ++ [(variable, cc.1 !! variable)]).

(** [changes.into_iter().rev()] restores what was replaced. *)
Definition undo (current : gmap V version) (changes : list (V * option version)) : gmap V version :=
  foldl (fun current (vp : V * option version) =>
    match vp.2 with Some previous => <[vp.1 := previous]> current | None => delete vp.1 current end) current (rev changes).

Definition enter_phi (phis : list (Phi V D)) (cc : gmap V version * list (V * option version)) (phi : nat)
    : ssa_result (gmap V version * list (V * option version)) :=
  p ← expect (phis !! phi); Ok (bind_version cc (phi_variable p) (phi_version p)).

Definition rename_event (block : nat) (cu : gmap V version * list (V * option version) * gmap U version) (e : event)
    : ssa_result (gmap V version * list (V * option version) * gmap U version) :=
  let '(cc, uses) := cu in
  match e with
  | UseEvent variable usage =>
      if decide (usage ∈ dom uses) then Err (MkSsaError UseRename (Some block))
      else Ok (cc, <[usage := reaching cc.1 variable]> uses)
  | DefEvent variable definition => Ok (bind_version cc variable (DefVersion variable definition), uses)
  end.

(** [phis[phi].inputs.push((block, version))] *)
Definition phi_input (block : nat) (current : gmap V version) (phis : list (Phi V D)) (phi : nat) : ssa_result (list (Phi V D)) :=
  p ← expect (phis !! phi);
  Ok (<[phi := MkPhi (phi_variable p) (phi_block p) (phi_version p)
                 (phi_inputs p ++ [(block, reaching current (phi_variable p))])]> phis).

Definition successor_inputs (by_block : list (list nat)) (block : nat) (current : gmap V version)
    (phis : list (Phi V D)) (successor : nat) : ssa_result (list (Phi V D)) :=
  row ← expect (by_block !! successor); foldM (phi_input block current) phis row.

Definition enter_block {C} `{SsaCfg C} (cfg : C) (events : list (list event)) (by_block : list (list nat))
    (block : nat) (st : rename_state) : ssa_result (list (V * option version) * rename_state) :=
  here ← expect (by_block !! block);
  cc ← foldM (enter_phi (rn_phis st)) (current st, []) here;
  row ← expect (events !! block);
  cu ← foldM (rename_event block) (cc, rn_uses st) row;
  successors ← expect (cfg_successors cfg !! block);
  phis ← foldM (successor_inputs by_block block cu.1.1) (rn_phis st) successors;
  Ok (cu.1.2, Rename cu.1.1 cu.2 phis).

(** [while let Some(action) = actions.pop()]; the head of the list is the top
    of the stack. *)
Fixpoint rename_loop {C} `{SsaCfg C} (fuel : nat) (cfg : C) (events : list (list event)) (by_block : list (list nat))
    (actions : list Action) (st : rename_state) : ssa_result rename_state :=
  match actions with
  | [] => Ok st
  | action :: actions =>
      match fuel with
      | O => Panic
      | S fuel =>
          match action with
          | Exit changes => rename_loop fuel cfg events by_block actions (Rename (undo (current st) changes) (rn_uses st) (rn_phis st))
          | Enter block =>
              cs ← enter_block cfg events by_block block st;
              kids ← expect (dominator_children cfg !! block);
              rename_loop fuel cfg events by_block ((Enter <$> kids) ++ Exit cs.1 :: actions) cs.2
          end
      end
  end.

(** ** The result *)

(** Inputs in order of predecessor, which must be the predecessors. *)
Definition finish_phi (predecessors : graph) (p : Phi V D) : ssa_result (Phi V D) :=
  let inputs := sort_by_key fst (phi_inputs p) in
  row ← expect (predecessors !! phi_block p);
  if decide (length inputs <> length (row : list nat) \/
             Exists (fun ae : (nat * version) * nat => ae.1.1 <> ae.2) (zip inputs row))
  then Err (MkSsaError PhiInputs (Some (phi_block p)))
  else Ok (MkPhi (phi_variable p) (phi_block p) (phi_version p) inputs).

Definition build {C} `{SsaCfg C} (cfg : C) (events : list (list event)) : ssa_result (SparseSsa V D U) :=
  let blocks := length (cfg_successors cfg) in
  if decide (length events <> blocks \/ length (cfg_predecessors cfg) <> blocks \/
             length (dominator_children cfg) <> blocks \/ dominance_frontier_len cfg <> blocks)
  then Err (MkSsaError ModelShape None) else
  f ← event_facts_of events;
  live_in ← live_variables (cfg_predecessors cfg) f;
  pairs ← place_phis cfg f live_in;
  pb ← foldM (add_phi (cfg_predecessors cfg)) ([], replicate blocks []) (ascending pairs);
  st ← rename_loop (2 * blocks) cfg events pb.2 [Enter (cfg_root cfg)] (Rename ∅ ∅ pb.1);
  if decide (size (rn_uses st) <> size (usage_ids f)) then Err (MkSsaError UseCoverage None) else
  phis ← mapMr (finish_phi (cfg_predecessors cfg)) (rn_phis st);
  Ok (MkSsa phis pb.2 (rn_uses st)).
End build.

(** The tests of [ssa.rs]: a join of two definitions, a loop, and the order of
    events in a block. *)
Definition built (g : graph) (events : list (list (Event nat nat nat))) : option (list (nat * list (nat * Version nat nat)) * list (nat * Version nat nat)) :=
  match analyze g 0 with
  | Ok c => match build c events with
            | Ok s => Some ((fun p => (phi_block p, phi_inputs p)) <$> ssa_phis s, map_to_list (ssa_uses s))
            | _ => None
            end
  | _ => None
  end.

Example build_join : built [[1; 2]; [3]; [3]; []]%nat [[]; [DefEvent 7 10]; [DefEvent 7 20]; [UseEvent 7 30]]%nat =
  Some ([(3, [(1, DefVersion 7 10); (2, DefVersion 7 20)])], [(30, PhiVersion 7 3)])%nat.
Proof. vm_compute. reflexivity. Qed.

Example build_loop : built [[1]; [2; 3]; [1]; []]%nat [[DefEvent 1 0]; [UseEvent 1 10]; [DefEvent 1 20]; []]%nat =
  Some ([(1, [(0, DefVersion 1 0); (2, DefVersion 1 20)])], [(10, PhiVersion 1 1)])%nat.
Proof. vm_compute. reflexivity. Qed.

Example build_order : built [[]] [[UseEvent 1 1; DefEvent 1 2; UseEvent 1 3]]%nat = Some ([], [(3, DefVersion 1 2); (1, EntryVersion 1)])%nat.
Proof. vm_compute. reflexivity. Qed.

(** A root with predecessors keeps no input for its entry. *)
Example build_root_loop : built [[0]]%nat [[UseEvent 1 1; DefEvent 1 2]]%nat =
  Some ([(0, [(0, DefVersion 1 2)])], [(1, PhiVersion 1 0)])%nat.
Proof. vm_compute. reflexivity. Qed.
