(* ===== verification/SsaFacts.v ===== *)
(** * SsaFacts: what the collected facts of SSA construction say

    The blocks that define a variable, the uses no definition precedes, the
    identities -- and the two errors, which report the first occurrence that
    repeats an identity. Then liveness and phi placement: the two work lists
    end with the pairs that liveness and the iterated dominance frontier
    derive. *)

From S2P Require Import Prelude Specs Order Graph Cfg CfgTree CfgTreeFacts CfgDominators CfgLoops Ssa.

Section events.
Context {V D U : Type} `{Countable V, !Ord V, Countable D, Countable U}.
Abbreviation event := (Event V D U).
Implicit Types (v : V) (u : U) (b : nat) (row pre : list event) (events : list (list event)) (f : event_facts (V:=V) (D:=D) (U:=U)).

Definition event_use (e : event) : option U := match e with UseEvent _ u => Some u | _ => None end.
Definition event_def (e : event) : option (V * D) := match e with DefEvent v d => Some (v, d) | _ => None end.

(** The identities of a block. *)
Definition row_uses row : list U := omap event_use row.
Definition row_defs row : list (V * D) := omap event_def row.

Definition defines v row : Prop := exists d, DefEvent v d ∈ row.
(** A use that no definition of the block precedes. *)
Definition exposed v row : Prop := exists pre u post, row = pre ++ UseEvent v u :: post /\ ~ defines v pre.

Lemma defines_snoc v row e : defines v (row ++ [e]) <-> defines v row \/ exists d, e = DefEvent v d.
Proof.
  unfold defines. setoid_rewrite elem_of_app. setoid_rewrite list_elem_of_singleton. split.
  - intros (d & [?|?]); [left; by exists d|right; by exists d].
  - intros [[d ?]|[d ->]]; exists d; [by left|by right].
Qed.

Lemma exposed_snoc v row e : exposed v (row ++ [e]) <-> exposed v row \/ (~ defines v row /\ exists u, e = UseEvent v u).
Proof.
  unfold exposed. split.
  - intros (pre & u & post & Heq & Hpre). destruct post as [|x post _] using rev_ind.
    + apply app_inj_tail in Heq as [-> ->]. right. split; [done|by exists u].
    + left. exists pre, u, post. split; [|done]. rewrite app_comm_cons, app_assoc in Heq. by apply app_inj_tail in Heq as [-> _].
  - intros [(pre & u & post & -> & Hpre)|[Hrow [u ->]]].
    + exists pre, u, (post ++ [e]). split; [|done]. by rewrite <- app_assoc.
    + exists row, u, []. done.
Qed.

(** The facts of a list of blocks. *)
Record facts_of (l : list (nat * list event)) f : Prop := {
  fo_defs v b : defines_in (definitions f) v b <-> exists row, (b, row) ∈ l /\ defines v row;
  fo_ids x : x ∈ definition_ids f <-> x ∈ row_defs (concat l.*2);
  fo_upward v b : (v, b) ∈ upward_uses f <-> exists row, (b, row) ∈ l /\ exposed v row;
  fo_usages u : u ∈ usage_ids f <-> u ∈ row_uses (concat l.*2);
  fo_nodup_ids : NoDup (row_defs (concat l.*2));
  fo_nodup_usages : NoDup (row_uses (concat l.*2)) }.

(** A list of blocks whose last block is read up to [pre]. *)
Definition upto (l : list (nat * list event)) b pre : list (nat * list event) := l ++ [(b, pre)].

Lemma concat_upto l b pre : concat (upto l b pre).*2 = concat l.*2 ++ pre.
Proof. unfold upto. rewrite fmap_app, concat_app. cbn. by rewrite app_nil_r. Qed.

Lemma elem_of_upto l b pre x row : (x, row) ∈ upto l b pre <-> (x, row) ∈ l \/ (x = b /\ row = pre).
Proof. unfold upto. rewrite elem_of_app, list_elem_of_singleton. intuition congruence. Qed.

Lemma exists_upto (P : list event -> Prop) l b pre x :
  (exists row, (x, row) ∈ upto l b pre /\ P row) <-> (exists row, (x, row) ∈ l /\ P row) \/ (x = b /\ P pre).
Proof.
  split.
  - intros (row & [?|[-> ->]]%elem_of_upto & ?); [left; by exists row|by right].
  - intros [(row & ? & ?)|[-> ?]]; eexists; (split; [apply elem_of_upto|]); [by left|done|by right|done].
Qed.

(** An event whose identity occurred before. *)
Definition repeated events (err : SsaError) : Prop :=
  exists b pre e post, events !! b = Some (pre ++ e :: post) /\
  match e with
  | UseEvent _ u => err = MkSsaError UseIdentity (Some b) /\ u ∈ row_uses (concat (take b events) ++ pre)
  | DefEvent v d => err = MkSsaError DefinitionIdentity (Some b) /\ (v, d) ∈ row_defs (concat (take b events) ++ pre)
  end.

Lemma fact_event_spec l b pre e (L : gset V) f : facts_of (upto l b pre) f -> (forall v, v ∈ L <-> defines v pre) ->
  yields (fun err => match e with
      | UseEvent _ u => err = MkSsaError UseIdentity (Some b) /\ u ∈ row_uses (concat l.*2 ++ pre)
      | DefEvent v d => err = MkSsaError DefinitionIdentity (Some b) /\ (v, d) ∈ row_defs (concat l.*2 ++ pre) end)
    (fun lf => facts_of (upto l b (pre ++ [e])) lf.2 /\ forall v, v ∈ lf.1 <-> defines v (pre ++ [e])) (fact_event b (L, f) e).
Proof.
  intros [Hdefs Hids Hup Hus Hnd Hnu] HL. rewrite concat_upto in *. unfold fact_event. destruct e as [w u|w d]; case_decide as Hin; cbn [yields].
  - split; [done|by apply Hus].
  - split; [|intros v; cbn [fst]; rewrite (HL v), defines_snoc; naive_solver]. split; cbn; rewrite ?concat_upto, ?app_assoc.
    + intros v x. rewrite Hdefs. rewrite !exists_upto, ?defines_snoc. naive_solver.
    + intros x. rewrite Hids. unfold row_defs. rewrite (omap_app event_def (concat l.*2 ++ pre)). cbn. by rewrite app_nil_r.
    + intros v x. assert (Hx : (v, x) ∈ (if decide (w ∈ L) then upward_uses f else {[(w, b)]} ∪ upward_uses f) <-> (v, x) ∈ upward_uses f \/ (v = w /\ x = b /\ ~ defines w pre)).
      { rewrite <- HL. case_decide; [naive_solver|]. rewrite elem_of_union, elem_of_singleton. naive_solver. }
      rewrite Hx, Hup. rewrite !exists_upto, ?exposed_snoc. naive_solver.
    + intros x. rewrite elem_of_union, elem_of_singleton, Hus. unfold row_uses. rewrite (omap_app event_use (concat l.*2 ++ pre)), elem_of_app. cbn. rewrite list_elem_of_singleton. tauto.
    + unfold row_defs in *. rewrite (omap_app event_def (concat l.*2 ++ pre)). cbn. by rewrite app_nil_r.
    + unfold row_uses in *. rewrite (omap_app event_use (concat l.*2 ++ pre)). cbn. apply NoDup_app. split_and!; [done| |apply NoDup_singleton].
      intros x Hx ->%list_elem_of_singleton. by apply Hin, Hus.
  - split; [done|by apply Hids].
  - split; [|intros v; cbn [fst]; rewrite elem_of_union, elem_of_singleton, (HL v), defines_snoc; naive_solver]. split; cbn; rewrite ?concat_upto, ?app_assoc.
    + intros v x. unfold defines_in in *. destruct (decide (v = w)) as [->|Hne].
      * rewrite lookup_insert_eq. cbn. rewrite elem_of_union, elem_of_singleton, Hdefs. rewrite !exists_upto, ?defines_snoc. naive_solver.
      * rewrite lookup_insert_ne by done. rewrite Hdefs. rewrite !exists_upto, ?defines_snoc. naive_solver.
    + intros x. rewrite elem_of_union, elem_of_singleton, Hids. unfold row_defs. rewrite (omap_app event_def (concat l.*2 ++ pre)), elem_of_app. cbn. rewrite list_elem_of_singleton. tauto.
    + intros v x. rewrite Hup. rewrite !exists_upto, ?exposed_snoc. naive_solver.
    + intros x. rewrite Hus. unfold row_uses. rewrite (omap_app event_use (concat l.*2 ++ pre)). cbn. by rewrite app_nil_r.
    + unfold row_defs in *. rewrite (omap_app event_def (concat l.*2 ++ pre)). cbn. apply NoDup_app. split_and!; [done| |apply NoDup_singleton].
      intros x Hx ->%list_elem_of_singleton. by apply Hin, Hids.
    + unfold row_uses in *. rewrite (omap_app event_use (concat l.*2 ++ pre)). cbn. by rewrite app_nil_r.
Qed.

Lemma facts_open l b f : facts_of l f <-> facts_of (upto l b []) f.
Proof.
  assert (Hno : forall v, ~ defines v [] /\ ~ exposed v []).
  { intros v. split; [intros (d & Hd); by apply not_elem_of_nil in Hd|]. intros ([|] & u & post & Heq & _); discriminate. }
  assert (Hdef : forall v x, (exists row, (x, row) ∈ upto l b [] /\ defines v row) <-> exists row, (x, row) ∈ l /\ defines v row).
  { intros v x. rewrite exists_upto. destruct (Hno v). tauto. }
  assert (Hexp : forall v x, (exists row, (x, row) ∈ upto l b [] /\ exposed v row) <-> exists row, (x, row) ∈ l /\ exposed v row).
  { intros v x. rewrite exists_upto. destruct (Hno v). tauto. }
  split; intros [H1' H2' H3' H4' H5' H6']; rewrite ?concat_upto, ?app_nil_r in *; split; rewrite ?concat_upto, ?app_nil_r; try done; intros v x.
  - by rewrite Hdef.
  - by rewrite Hexp.
  - by rewrite <- Hdef.
  - by rewrite <- Hexp.
Qed.

Lemma enumerate_take (events : list (list event)) k row : events !! k = Some row ->
  upto (take k (enumerate events)) k row = take (S k) (enumerate events) /\ (take k (enumerate events)).*2 = take k events.
Proof.
  intros Hk. assert (Hlen : length (enumerate events) = length events) by (rewrite length_zip_with, length_seq; lia). split.
  - unfold upto. symmetry. apply take_S_r. apply lookup_zip_with_Some. exists k, row. split_and!; [done| |done]. apply lookup_seq. apply lookup_lt_Some in Hk. lia.
  - rewrite fmap_take, snd_zip by (by rewrite length_seq). done.
Qed.

Lemma event_facts_spec events : yields (repeated events) (facts_of (enumerate events)) (event_facts_of events).
Proof.
  assert (Hall : take (length events) (enumerate events) = enumerate events) by (apply take_ge; rewrite length_zip_with, length_seq; lia).
  rewrite <- Hall. unfold event_facts_of. apply (yields_enumerate _ (fun k => facts_of (take k (enumerate events)))).
  - split; cbn; try (intros; split; [set_solver|intros; set_solver]); try constructor.
  - intros k row f Hrow Hf. destruct (enumerate_take events k row Hrow) as [<- Hsnd]. unfold fact_block. cbn [fst snd]. eapply yields_bind.
    + apply (yields_foldM _ (fun pre (lf : gset V * event_facts) => facts_of (upto (take k (enumerate events)) k pre) lf.2 /\ forall v, v ∈ lf.1 <-> defines v pre)).
      * split; [by apply facts_open|]. intros v. cbn. split; [by intros ?%elem_of_empty|]. intros (d & Hd). by apply not_elem_of_nil in Hd.
      * intros pre e post [L g] Heq [Hg HL]. cbn [fst snd] in *. eapply yields_weaken; [|by apply fact_event_spec].
        intros err Herr. exists k, pre, e, post. rewrite Hrow, Heq. split; [done|]. rewrite Hsnd in Herr. exact Herr.
    + intros [L g] [Hg _]. exact Hg.
Qed.

(** ** Liveness *)

Definition block_defines events v b : Prop := exists row, events !! b = Some row /\ defines v row.
Definition block_exposes events v b : Prop := exists row, events !! b = Some row /\ exposed v row.

(** [v] is needed at the start of a block. *)
Inductive live (g : graph) events v : nat -> Prop :=
  | live_use b : block_exposes events v b -> live g events v b
  | live_edge p s : edge g p s -> ~ block_defines events v p -> live g events v s -> live g events v p.

Lemma facts_define events f v b : facts_of (enumerate events) f -> defines_in (definitions f) v b <-> block_defines events v b.
Proof. intros Hf. rewrite (fo_defs _ _ Hf). unfold block_defines. by setoid_rewrite elem_of_enumerate. Qed.

Lemma facts_expose events f v b : facts_of (enumerate events) f -> (v, b) ∈ upward_uses f <-> block_exposes events v b.
Proof. intros Hf. rewrite (fo_upward _ _ Hf). unfold block_exposes. by setoid_rewrite elem_of_enumerate. Qed.

Lemma size_list_to_set_le {A} `{Countable A} (l : list A) : (size (list_to_set l : gset A) <= length l)%nat.
Proof.
  induction l as [|x l IH]; cbn; [by rewrite size_empty|]. pose proof (size_union_alt ({[x]} : gset A) (list_to_set l)) as Hs. rewrite size_singleton in Hs.
  pose proof (subseteq_size (list_to_set l ∖ {[x]} : gset A) (list_to_set l) ltac:(set_solver)). lia.
Qed.

(** The pairs one pop adds. *)
Lemma live_pushes_spec (defs : gmap V (gset nat)) v (row : list nat) (L : gset (V * nat)) W :
  exists new, foldl (live_push defs v) (L, W) row = (list_to_set new ∪ L, W ++ new) /\ NoDup new /\
  forall w p, (w, p) ∈ new <-> w = v /\ p ∈ row /\ ~ defines_in defs v p /\ (v, p) ∉ L.
Proof.
  revert L W. induction row as [|a row IH]; intros L W; cbn [foldl].
  { exists []. split; [cbn; by rewrite app_nil_r, union_empty_l_L|]. split; [constructor|]. set_solver. }
  unfold live_push at 2. cbn [fst snd]. case_decide as Ha.
  - destruct (IH L W) as (new & Heq & Hnd & Hin). exists new. split; [done|]. split; [done|]. intros w p. rewrite Hin, elem_of_cons. naive_solver.
  - destruct (IH ({[(v, a)]} ∪ L) (W ++ [(v, a)])) as (new & Heq & Hnd & Hin). exists ((v, a) :: new). split.
    + rewrite Heq, <- app_assoc. f_equal. cbn. set_solver.
    + split; [constructor; [rewrite Hin; set_solver|done]|]. intros w p. rewrite elem_of_cons, Hin, elem_of_cons, elem_of_union, elem_of_singleton.
      split; [naive_solver|]. intros (-> & [->|Hp] & Hd & HL); [by left|]. destruct (decide (p = a)) as [->|]; [by left|]. right. split_and!; [done..|]. intros [[= ->]|]; done.
Qed.

Section liveness.
Context (g preds : graph) (events : list (list event)) (f : event_facts (V:=V) (D:=D) (U:=U)).
Context (Hrev : reverses g preds) (Hclosed : closed g) (Hlen : length events = length g) (Hf : facts_of (enumerate events) f).
Abbreviation live := (live g events).
Abbreviation n := (length g).

(** Every pair of a variable used and a block. *)
Definition universe : gset (V * nat) := list_to_set (vb ← elements (upward_uses f); (fun b => (vb.1, b)) <$> seq 0 n).

Lemma elem_of_universe v b : (v, b) ∈ universe <-> (b < n)%nat /\ exists x, (v, x) ∈ upward_uses f.
Proof.
  unfold universe. rewrite elem_of_list_to_set, list_elem_of_bind. split.
  - intros ([w x] & Hb & Hw%elem_of_elements). apply list_elem_of_fmap in Hb as (y & [= -> ->] & Hy%elem_of_seq). cbn. split; [lia|by exists x].
  - intros [Hb [x Hx]]. exists (v, x). rewrite elem_of_elements. split; [|done]. apply list_elem_of_fmap. exists b. rewrite elem_of_seq. split; [done|lia].
Qed.

Lemma universe_size : (size universe <= size (upward_uses f) * n)%nat.
Proof.
  unfold universe. etransitivity; [apply size_list_to_set_le|]. change (size (upward_uses f)) with (length (elements (upward_uses f))).
  induction (elements (upward_uses f)) as [|x l IH]; [done|]. cbn. rewrite length_app, length_fmap, length_seq. cbn in IH. lia.
Qed.

Record live_inv (L : gset (V * nat)) (W : list (V * nat)) : Prop := {
  li_work p : p ∈ W -> p ∈ L;
  li_start : upward_uses f ⊆ L;
  li_universe : L ⊆ universe;
  li_sound v b : (v, b) ∈ L -> live v b;
  li_closed v p s : (v, s) ∈ L -> (v, s) ∈ W \/ (edge g p s -> block_defines events v p \/ (v, p) ∈ L) }.

Lemma live_loop_spec (fuel : nat) L W : live_inv L W -> (length W + size (universe ∖ L) <= fuel)%nat ->
  exists L', live_loop fuel preds (definitions f) L W = Ok L' /\ forall v b, (v, b) ∈ L' <-> live v b.
Proof.
  revert L W. induction fuel as [|fuel IH]; intros L W Hi Hle; destruct W as [|[v b] W]; cbn [live_loop]; [|cbn in Hle; lia| |].
  1-2: exists L; split; [done|]; intros w x; split; [by apply (li_sound _ _ Hi)|]; induction 1 as [x Hx|p s He Hd Hl IHl];
    [apply (li_start _ _ Hi); by rewrite (facts_expose events)|destruct (li_closed _ _ Hi w p s IHl) as [Hw|Hw]; [by apply not_elem_of_nil in Hw|naive_solver]].
  assert (HvL : (v, b) ∈ L) by (apply (li_work _ _ Hi); by left). pose proof (li_universe _ _ Hi _ HvL) as Hu. apply elem_of_universe in Hu as [Hb Hv].
  in_range preds b as row Hrow; [by rewrite (proj1 Hrev)|]. rewrite Hrow. msimpl.
  destruct (live_pushes_spec (definitions f) v row L W) as (new & -> & Hnd & Hnew). cbn [fst snd].
  assert (Hedge : forall p, p ∈ row <-> edge g p b) by (intros p; rewrite <- (proj2 Hrev); split; [intros; by exists row|intros (r & Hr & ?); congruence]).
  assert (HnU : forall p, p ∈ new -> p ∈ universe /\ p ∉ L).
  { intros [w p] (-> & Hp & _ & HpL)%Hnew. split; [|done]. apply elem_of_universe. split; [|done]. apply Hedge in Hp as (r & Hr & _). eauto with index. }
  apply IH.
  - split.
    + intros p [Hp|Hp]%elem_of_app; [apply elem_of_union_r, (li_work _ _ Hi); by right|]. by apply elem_of_union_l, elem_of_list_to_set.
    + pose proof (li_start _ _ Hi). set_solver.
    + intros p [Hp%elem_of_list_to_set|Hp]%elem_of_union; [by apply HnU|by apply (li_universe _ _ Hi)].
    + intros w x [Hx%elem_of_list_to_set|Hx]%elem_of_union; [|by apply (li_sound _ _ Hi)]. apply Hnew in Hx as (-> & Hx & Hd & _).
      eapply live_edge; [by apply Hedge|by rewrite <- (facts_define _ f)|by apply (li_sound _ _ Hi)].
    + intros w p s [Hs%elem_of_list_to_set|Hs]%elem_of_union; [left; apply elem_of_app; by right|].
      destruct (li_closed _ _ Hi w p s Hs) as [[Hws|Hws]%elem_of_cons|Hws].
      * injection Hws as -> ->. right. intros He. destruct (decide (defines_in (definitions f) v p)) as [Hd|Hd]; [left; by apply (facts_define _ f)|right].
        destruct (decide ((v, p) ∈ L)) as [|HpL]; [by apply elem_of_union_r|]. apply elem_of_union_l, elem_of_list_to_set, Hnew. split_and!; [done|by apply Hedge|done..].
      * left. apply elem_of_app. by left.
      * right. intros He. destruct (Hws He); [by left|right; by apply elem_of_union_r].
  - rewrite length_app. assert (Hsize : (size (universe ∖ (list_to_set new ∪ L)) + length new = size (universe ∖ L))%nat); [|cbn in Hle; lia].
    rewrite <- (size_list_to_set (C:=gset (V * nat)) new) by done. rewrite <- size_union by set_solver. f_equal. apply set_eq. intros p.
    rewrite elem_of_union, !elem_of_difference, elem_of_union, elem_of_list_to_set. destruct (decide (p ∈ new)) as [Hp|Hp]; [pose proof (HnU p Hp)|]; tauto.
Qed.

Lemma live_variables_spec : exists L, live_variables preds f = Ok L /\ forall v b, (v, b) ∈ L <-> live v b.
Proof.
  unfold live_variables. apply live_loop_spec.
  - split; [intros p; by rewrite elem_of_ascending|done| | |].
    + intros [v b] Hv. apply elem_of_universe. split; [|by exists b]. apply (facts_expose events) in Hv as (row & Hrow & _); [|done]. rewrite <- Hlen. eauto with index.
    + intros v b Hv. apply live_use. by apply (facts_expose _ f).
    + intros v p s Hs. left. by rewrite elem_of_ascending.
  - rewrite (proj1 Hrev). pose proof universe_size as Hu. assert (Hsub : upward_uses f ⊆ universe).
    { intros [v b] Hv. apply elem_of_universe. split; [|by exists b]. apply (facts_expose events) in Hv as (row & Hrow & _); [|done]. rewrite <- Hlen. eauto with index. }
    rewrite size_difference by done. pose proof (subseteq_size _ _ Hsub).
    assert (length (ascending (upward_uses f)) = size (upward_uses f)) as -> by (unfold ascending; by rewrite merge_sort_Permutation). lia.
Qed.
End liveness.

(** ** Phi placement *)

(** [v] gets a phi: the iterated dominance frontier of its definitions,
    restricted to the blocks at whose start it is live. *)
Inductive placed (g : graph) (root : nat) (t : DominatorTree) events v : nat -> Prop :=
  | placed_def x s : block_defines events v x -> in_frontier g root t x s -> live g events v s -> placed g root t events v s
  | placed_phi x s : placed g root t events v x -> in_frontier g root t x s -> live g events v s -> placed g root t events v s.

(** One row of frontiers. *)
Lemma place_row_spec (L : gset (V * nat)) v (row : list nat) Q K W : exists Q' K' new,
  foldl (place_phi L v) (Placement Q K W) row = Placement Q' K' (W ++ new) /\ NoDup new /\
  (forall s w, (s, w) ∈ Q' <-> (s, w) ∈ Q \/ (w = v /\ s ∈ row /\ (v, s) ∈ L)) /\
  (forall x, x ∈ K' <-> x ∈ K \/ (x ∈ row /\ (v, x) ∈ L /\ (x, v) ∉ Q)) /\ forall x, x ∈ new <-> x ∈ K' /\ x ∉ K.
Proof.
  revert Q K W. induction row as [|a row IH]; intros Q K W; cbn [foldl].
  { exists Q, K, []. rewrite app_nil_r. split; [done|]. split; [constructor|]. set_solver. }
  unfold place_phi at 2. cbn [phi_pairs phi_queued phi_work]. case_decide as Ha.
  - destruct (IH Q K W) as (Q' & K' & new & -> & Hnd & HQ & HK & Hnew). exists Q', K', new. split; [done|]. split; [done|]. split; [|split].
    + intros s w. rewrite HQ, elem_of_cons. split; [tauto|]. intros [?|(-> & [->|?] & ?)]; [by left|left; tauto|right; tauto].
    + intros x. rewrite HK, elem_of_cons. split; [tauto|]. intros [?|([->|?] & ? & ?)]; [by left|tauto|right; tauto].
    + done.
  - assert (Hal : (v, a) ∈ L) by (destruct (decide ((v, a) ∈ L)); tauto). assert (Hnew0 : (a, v) ∉ Q) by tauto.
    case_decide as HaK.
    + destruct (IH ({[(a, v)]} ∪ Q) K W) as (Q' & K' & new & -> & Hnd & HQ & HK & Hnew). exists Q', K', new. split; [done|]. split; [done|]. split; [|split; [|done]].
      * intros s w. rewrite HQ, elem_of_union, elem_of_singleton, elem_of_cons. naive_solver.
      * intros x. rewrite HK, elem_of_union, elem_of_singleton, elem_of_cons. destruct (decide (x = a)) as [->|Hne]; [tauto|]. naive_solver.
    + destruct (IH ({[(a, v)]} ∪ Q) ({[a]} ∪ K) (W ++ [a])) as (Q' & K' & new & -> & Hnd & HQ & HK & Hnew). exists Q', K', (a :: new).
      rewrite <- app_assoc. split; [done|]. split; [constructor; [rewrite Hnew; set_solver|done]|]. split; [|split].
      * intros s w. rewrite HQ, elem_of_union, elem_of_singleton, elem_of_cons. naive_solver.
      * intros x. rewrite HK, !elem_of_union, !elem_of_singleton, elem_of_cons. destruct (decide (x = a)) as [->|Hne]; [tauto|]. naive_solver.
      * intros x. rewrite elem_of_cons, Hnew, HK, !elem_of_union, !elem_of_singleton. destruct (decide (x = a)) as [->|Hne]; naive_solver.
Qed.

Section placement.
Context {C : Type} `{SsaCfg C} (cfg : C) (g : graph) (root : nat) (t : DominatorTree) (events : list (list event)) (f : event_facts (V:=V) (D:=D) (U:=U)).
Context (Hsucc : cfg_successors cfg = g) (Hlen : length events = length g) (Hf : facts_of (enumerate events) f).
Context (Hfrontier : forall b, (b < length g)%nat -> exists row : list nat, cfg_frontier cfg b = Some row /\ forall s, s ∈ row <-> in_frontier g root t b s).
Context (Hrange : forall b s, in_frontier g root t b s -> (s < length g)%nat).
Context (L : gset (V * nat)) (HL : forall v b, (v, b) ∈ L <-> live g events v b).
Abbreviation placed := (placed g root t events).
Abbreviation n := (length g).

Record place_inv v (P Q : gset (nat * V)) (K : gset nat) (W : list nat) : Prop := {
  pl_work x : x ∈ W -> x ∈ K;
  pl_queued x : x ∈ K <-> block_defines events v x \/ (x, v) ∈ Q;
  pl_range x : x ∈ K -> (x < n)%nat;
  pl_sound x : (x, v) ∈ Q -> placed v x;
  pl_others x w : w <> v -> (x, w) ∈ Q <-> (x, w) ∈ P;
  pl_closed x s : x ∈ K -> x ∈ W \/ (in_frontier g root t x s -> live g events v s -> (s, v) ∈ Q) }.

Lemma place_loop_spec (fuel : nat) v (P Q : gset (nat * V)) K W : place_inv v P Q K W -> (length W + (n - size K) <= fuel)%nat ->
  exists Q', place_loop fuel cfg L v (Placement Q K W) = Ok Q' /\ forall s w, (s, w) ∈ Q' <-> if decide (w = v) then placed v s else (s, w) ∈ P.
Proof.
  revert Q K W. induction fuel as [|fuel IH]; intros Q K W Hi Hle; destruct W as [|x W]; cbn [place_loop phi_work phi_pairs phi_queued]; [|cbn in Hle; lia| |].
  1-2: exists Q; split; [done|]; intros s w; case_decide as Hw; [subst w|by apply (pl_others _ _ _ _ _ Hi)]; (split; [by apply (pl_sound _ _ _ _ _ Hi)|]);
    induction 1 as [x s Hx Hs Hl|x s _ IHx Hs Hl]; (assert (HxK : x ∈ K) by (apply (pl_queued _ _ _ _ _ Hi); tauto));
    (destruct (pl_closed _ _ _ _ _ Hi x s HxK) as [?%not_elem_of_nil|Hq]; [done|by apply Hq]).
  assert (HxK : x ∈ K) by (apply (pl_work _ _ _ _ _ Hi); by left). pose proof (pl_range _ _ _ _ _ Hi x HxK) as Hxn.
  destruct (Hfrontier x Hxn) as (row & -> & Hrow). msimpl.
  destruct (place_row_spec L v row Q K W) as (Q' & K' & new & -> & Hnd & HQ & HK & Hnew).
  assert (HnewK : forall y, y ∈ new -> (y < n)%nat) by (intros y [Hy HyK]%Hnew; apply HK in Hy as [?|(Hy%Hrow%Hrange & _)]; done).
  apply IH.
  - split.
    + intros y [Hy|Hy]%elem_of_app; [apply HK; left; apply (pl_work _ _ _ _ _ Hi); by right|by apply Hnew].
    + intros y. rewrite HK, HQ, (pl_queued _ _ _ _ _ Hi). destruct (decide ((y, v) ∈ Q)); tauto.
    + intros y Hy. destruct (decide (y ∈ K)) as [|HyK]; [by apply (pl_range _ _ _ _ _ Hi)|]. apply HnewK. by apply Hnew.
    + intros y [Hy|(_ & Hy & Hl)]%HQ; [by apply (pl_sound _ _ _ _ _ Hi)|]. apply Hrow in Hy. apply HL in Hl.
      apply (pl_queued _ _ _ _ _ Hi) in HxK as [Hd|Hp]; [by eapply placed_def|]. eapply placed_phi; [by apply (pl_sound _ _ _ _ _ Hi)|done..].
    + intros y w Hw. rewrite HQ, (pl_others _ _ _ _ _ Hi y w Hw). tauto.
    + intros y s Hy. destruct (decide (y ∈ K)) as [HyK|HyK]; [|left; apply elem_of_app; right; by apply Hnew].
      destruct (pl_closed _ _ _ _ _ Hi y s HyK) as [[->|HyW]%elem_of_cons|Hq].
      * right. intros Hfr Hl. apply HQ. right. split; [done|]. split; [by apply Hrow|by apply HL].
      * left. apply elem_of_app. by left.
      * right. intros Hfr Hl. apply HQ. left. by apply Hq.
  - assert (Hsize : size K' = (size K + length new)%nat).
    { rewrite <- (size_list_to_set (C:=gset nat) new) by done. rewrite <- size_union by (intros y HyK Hy%elem_of_list_to_set%Hnew; tauto).
      f_equal. apply set_eq. intros y. rewrite elem_of_union, elem_of_list_to_set, Hnew, HK. destruct (decide (y ∈ K)); tauto. }
    assert (HK' : (size K' <= n)%nat).
    { rewrite <- (length_seq n 0), <- (size_list_to_set (C:=gset nat)) by apply NoDup_seq. apply subseteq_size. intros y Hy. apply elem_of_list_to_set, elem_of_seq.
      split; [lia|]. destruct (decide (y ∈ K)) as [HyK|HyK]; [by apply (pl_range _ _ _ _ _ Hi)|]. apply HnewK. by apply Hnew. }
    rewrite length_app. cbn in Hle. lia.
Qed.

Lemma place_variable_spec v (P : gset (nat * V)) : (forall s, (s, v) ∉ P) ->
  exists Q, place_variable cfg f L P v = Ok Q /\ forall s w, (s, w) ∈ Q <-> if decide (w = v) then placed v s else (s, w) ∈ P.
Proof.
  intros HP. unfold place_variable. rewrite Hsucc.
  assert (Hd : forall x, x ∈ default (∅ : gset nat) (definitions f !! v) <-> block_defines events v x) by (intros x; apply (facts_define events f v x Hf)).
  assert (Hr : forall x, block_defines events v x -> (x < n)%nat) by (intros x (row & Hrow & _); rewrite <- Hlen; eauto with index).
  apply place_loop_spec.
  - split.
    + intros x. by rewrite elem_of_ascending.
    + intros x. rewrite Hd. specialize (HP x). tauto.
    + intros x Hx%Hd. by apply Hr.
    + intros x Hx. by destruct (HP x).
    + done.
    + intros x s Hx. left. by rewrite elem_of_ascending.
  - assert (length (ascending (default (∅ : gset nat) (definitions f !! v))) = size (default (∅ : gset nat) (definitions f !! v))) as ->
      by (unfold ascending; by rewrite merge_sort_Permutation).
    assert (size (default (∅ : gset nat) (definitions f !! v)) <= n)%nat; [|lia].
    rewrite <- (length_seq n 0), <- (size_list_to_set (C:=gset nat)) by apply NoDup_seq. apply subseteq_size. intros y Hy%Hd%Hr.
    apply elem_of_list_to_set, elem_of_seq. lia.
Qed.

Lemma place_phis_spec : exists Q, place_phis cfg f L = Ok Q /\ forall s v, (s, v) ∈ Q <-> placed v s.
Proof.
  unfold place_phis. pose proof (NoDup_ascending (dom (definitions f))) as Hnd.
  assert (Hgo : forall (l pre : list V) (P : gset (nat * V)), NoDup (pre ++ l) -> (forall s v, (s, v) ∈ P <-> v ∈ pre /\ placed v s) ->
    exists Q, foldM (place_variable cfg f L) P l = Ok Q /\ forall s v, (s, v) ∈ Q <-> v ∈ pre ++ l /\ placed v s).
  { induction l as [|v l IH]; intros pre P Hndl HP; cbn [foldM]; [exists P; by rewrite app_nil_r|].
    assert (Hv : v ∉ pre) by (apply NoDup_app in Hndl as (_ & Hdis & _); intros Hv; apply (Hdis v Hv); by left).
    destruct (place_variable_spec v P) as (Q & -> & HQ); [intros s [Hs _]%HP; done|]. msimpl.
    destruct (IH (pre ++ [v]) Q) as (Q' & HQ' & Hin); [by rewrite <- app_assoc| |exists Q'; split; [done|]; intros s w; by rewrite Hin, <- app_assoc].
    intros s w. rewrite HQ, elem_of_app, list_elem_of_singleton. case_decide as Hw; [subst w; tauto|]. rewrite HP. tauto. }
  destruct (Hgo (ascending (dom (definitions f))) [] ∅) as (Q & HQ & Hin); [done|intros s v; split; [by intros ?%elem_of_empty|by intros [?%not_elem_of_nil _]]|].
  exists Q. split; [done|]. intros s v. rewrite Hin. cbn. rewrite elem_of_ascending, elem_of_dom. split; [by intros [_ ?]|]. intros Hp. split; [|done].
  assert (Hex : exists x, block_defines events v x) by (induction Hp; [by eexists|done]). destruct Hex as [x Hx].
  apply (facts_define events f) in Hx; [|done]. unfold defines_in in Hx. destruct (definitions f !! v) as [K|]; [by exists K|]. by apply elem_of_empty in Hx.
Qed.
End placement.
End events.
