(* ===== verification/SsaRename.v ===== *)
(** * SsaRename: renaming computes the reaching versions

    The laws a flow-graph view promises to SSA construction, the version that
    reaches each point by reading the blocks on the way down the dominator
    tree, and the walk of [Ssa.rename_loop]: it gives every use and phi input
    that version, undoing its changes on the way up.

    Then the composition of the passes of [Ssa.build] on a lawful view: it
    fails only for a wrong number of blocks or a repeated identity, and
    returns the phis of the pruned iterated dominance frontier, with the
    reaching versions as inputs and for the uses. The views of an analysed
    graph are lawful. *)

From stdpp Require Import functions.
From S2P Require Import Prelude Order Graph Specs Cfg CfgTree CfgTreeFacts CfgDominators CfgLoops CfgAnalyze Ssa SsaFacts.

(** What [build] relies on: the view shows a reachable graph with its
    dominator tree and dominance frontiers. *)
Record lawful {C} `{SsaCfg C} (cfg : C) (t : DominatorTree) : Prop := {
  lw_tree : dominator_tree (cfg_successors cfg) (cfg_root cfg) t;
  lw_children : dominator_children cfg = children t;
  lw_reachable b : (b < length (cfg_successors cfg))%nat -> reachable (cfg_successors cfg) (cfg_root cfg) b;
  lw_reverses : reverses (cfg_successors cfg) (cfg_predecessors cfg);
  lw_rows a row : cfg_successors cfg !! a = Some row -> NoDup row;
  lw_incoming a row : cfg_predecessors cfg !! a = Some row -> StronglySorted Nat.lt row;
  lw_frontier_len : dominance_frontier_len cfg = length (cfg_successors cfg);
  lw_frontier b : (b < length (cfg_successors cfg))%nat -> exists row, cfg_frontier cfg b = Some row /\
    forall s, s ∈ row <-> in_frontier (cfg_successors cfg) (cfg_root cfg) t b s }.

Section rename.
Context {V D U : Type} `{Countable V, !Ord V, Countable D, Countable U}.
Abbreviation event := (Event V D U).
Abbreviation version := (Version V D).
Abbreviation assignment := (V -> Version V D).
Abbreviation changes := (list (V * option version)).

(** ** Undoing *)

Lemma undo_bind (m : gmap V version) (ch : changes) v x :
  undo (bind_version (m, ch) v x).1 (bind_version (m, ch) v x).2 = undo m ch.
Proof.
  unfold undo, bind_version. cbn [fst snd]. rewrite rev_app_distr. cbn [rev app foldl fst snd]. f_equal.
  destruct (m !! v) as [o|] eqn:Hm; [by rewrite insert_insert_eq, insert_id|by rewrite delete_insert_id].
Qed.

Lemma reaching_insert (m : gmap V version) v x w : reaching (<[v := x]> m) w = if decide (v = w) then x else reaching m w.
Proof. unfold reaching. case_decide as Hv; [subst w; by rewrite lookup_insert_eq|by rewrite lookup_insert_ne]. Qed.

(** ** Versions along the dominator tree *)

Section versions.
Context (g : graph) (root : nat) (t : DominatorTree) (Hdt : dominator_tree g root t) (Hall : forall b, (b < length g)%nat -> reachable g root b).
Context (events : list (list event)) (P : gset (nat * V)).
Implicit Types (a : assignment) (v : V) (u : U) (b c p s : nat) (pre row post : list event).

Definition phi_assign b a : assignment := fun v => if decide ((b, v) ∈ P) then PhiVersion v b else a v.

Definition event_assign a (e : event) : assignment :=
  match e with UseEvent _ _ => a | DefEvent v d => <[v := DefVersion v d]> a end.

Definition row_at b : list event := default [] (events !! b).

Definition block_assign a b : assignment := foldl event_assign (phi_assign b a) (row_at b).

Fixpoint assign_from (fuel b : nat) : assignment :=
  match fuel, mjoin (idom t !! b) with
  | S fuel, Some p => block_assign (assign_from fuel p) p
  | _, _ => EntryVersion
  end.

(** The versions on entry to a block, before its phis; after its phis and the
    events [pre]; and at its end. *)
Definition versions_in b : assignment := assign_from (default 0%nat (mjoin (depth t !! b))) b.
Definition versions_after b pre : assignment := foldl event_assign (phi_assign b (versions_in b)) pre.
Definition versions_out b : assignment := versions_after b (row_at b).

Lemma versions_root : versions_in root = EntryVersion.
Proof. unfold versions_in. by rewrite (to_depth_root _ _ _ (dt_tree _ _ _ Hdt)). Qed.

Lemma block_index b p : idom t !! b = Some (Some p) -> (b < length g)%nat /\ (p < length g)%nat.
Proof.
  intros Hb. rewrite <- (dt_length _ _ _ Hdt). split; [eauto with index|by apply (to_range _ _ _ (dt_tree _ _ _ Hdt) b)].
Qed.

Lemma versions_child b p : idom t !! b = Some (Some p) -> versions_in b = versions_out p.
Proof.
  intros Hb. destruct (block_index b p Hb) as [_ Hp]. assert (Hc : above (idom t) root p) by (by apply (dt_reachable _ _ _ Hdt), Hall).
  destruct (to_depth _ _ _ (dt_tree _ _ _ Hdt) b p Hc Hb) as (d & Hdp & Hdb).
  unfold versions_out, versions_after, versions_in. rewrite Hdb, Hdp. cbn. rewrite Hb. done.
Qed.

Lemma versions_after_snoc b pre e : versions_after b (pre ++ [e]) = event_assign (versions_after b pre) e.
Proof. unfold versions_after. by rewrite foldl_app. Qed.

(** Every version of [v] says so. *)
Definition version_variable (x : version) : V := match x with EntryVersion v => v | DefVersion v _ => v | PhiVersion v _ => v end.

Lemma event_assign_variable a e : (forall v, version_variable (a v) = v) -> forall v, version_variable (event_assign a e v) = v.
Proof.
  intros Ha v. destruct e as [|w d]; cbn [event_assign]; [done|]. destruct (decide (w = v)) as [->|Hne]; [by rewrite fn_lookup_insert|by rewrite fn_lookup_insert_ne].
Qed.

Lemma foldl_assign_variable row a : (forall v, version_variable (a v) = v) -> forall v, version_variable (foldl event_assign a row v) = v.
Proof. revert a. induction row as [|e row IH]; intros a Ha; cbn [foldl]; [done|]. apply IH. by apply event_assign_variable. Qed.

Lemma phi_assign_variable b a : (forall v, version_variable (a v) = v) -> forall v, version_variable (phi_assign b a v) = v.
Proof. intros Ha v. unfold phi_assign. case_decide; [done|apply Ha]. Qed.

Lemma versions_in_variable b v : version_variable (versions_in b v) = v.
Proof.
  unfold versions_in. generalize (default 0%nat (mjoin (depth t !! b))). intros k. revert b v. induction k as [|k IH]; intros b v; cbn [assign_from]; [done|].
  destruct (mjoin (idom t !! b)) as [p|]; [|done]. apply foldl_assign_variable, phi_assign_variable. intros w. apply IH.
Qed.

Lemma versions_after_variable b pre v : version_variable (versions_after b pre v) = v.
Proof. apply foldl_assign_variable, phi_assign_variable. intros w. apply versions_in_variable. Qed.

(** A variable a list of events does not define keeps its version. *)
Lemma foldl_assign_none row a v : ~ defines v row -> foldl event_assign a row v = a v.
Proof.
  revert a. induction row as [|e row IH]; intros a Hno; cbn [foldl]; [done|]. rewrite IH by (intros (d & Hd); apply Hno; exists d; by right).
  destruct e as [|w d]; cbn [event_assign]; [done|]. apply fn_lookup_insert_ne. intros ->. apply Hno. exists d. by left.
Qed.
End versions.

(** ** Phis *)

(** The phis in order, their inputs coming from the blocks in [from]. *)
Definition phi_of (inputs : nat -> V -> list (nat * version)) (bv : nat * V) : Phi V D :=
  MkPhi bv.2 bv.1 (PhiVersion bv.2 bv.1) (inputs bv.1 bv.2).

(** The row of a block lists the positions of its phis. *)
Definition phi_table (n : nat) (ps : list (nat * V)) (by_block : list (list nat)) : Prop :=
  length by_block = n /\ forall b row, by_block !! b = Some row -> NoDup row /\ forall k, k ∈ row <-> exists v, ps !! k = Some (b, v).

Lemma add_phi_spec (preds : graph) n ps b v (phis : list (Phi V D)) by_block :
  length preds = n -> (b < n)%nat -> phis = phi_of (fun _ _ => []) <$> ps -> phi_table n ps by_block ->
  exists by_block', add_phi preds (phis, by_block) (b, v) = Ok (phi_of (fun _ _ => []) <$> ps ++ [(b, v)], by_block') /\ phi_table n (ps ++ [(b, v)]) by_block'.
Proof.
  intros Hp Hb -> [Hlen Hrows]. unfold add_phi. cbn [fst snd]. in_range preds b as prow Hprow. rewrite Hprow. msimpl.
  in_range by_block b as row Hrow. rewrite Hrow. msimpl. rewrite length_fmap. eexists. split; [by rewrite fmap_app|].
  split; [by rewrite length_insert|]. intros x xrow Hx. assert (Hsnoc : forall k w, (ps ++ [(b, v)]) !! k = Some (x, w) <-> ps !! k = Some (x, w) \/ (k = length ps /\ b = x /\ v = w)).
  { intros k w. rewrite lookup_app_Some. split; (intros [?|[Hk Heq]]; [by left|right]).
    - apply list_lookup_singleton_Some in Heq as [? [= -> ->]]. split; [lia|done].
    - destruct Heq as [-> ->]. rewrite Hk, Nat.sub_diag. done. }
  destruct (decide (b = x)) as [->|Hne].
  - rewrite list_lookup_insert_eq in Hx by lia. injection Hx as <-. destruct (Hrows x row Hrow) as [Hnd Hin]. split.
    + apply NoDup_app. split_and!; [done| |apply NoDup_singleton]. intros k [w Hk]%Hin ->%list_elem_of_singleton. apply lookup_lt_Some in Hk. lia.
    + intros k. rewrite elem_of_app, list_elem_of_singleton, Hin. setoid_rewrite Hsnoc. naive_solver.
  - rewrite list_lookup_insert_ne in Hx by done. destruct (Hrows x xrow Hx) as [Hnd Hin]. split; [done|]. intros k. rewrite Hin. setoid_rewrite Hsnoc. naive_solver.
Qed.

Lemma add_phis_spec (preds : graph) n (ps : list (nat * V)) : length preds = n -> (forall b v, (b, v) ∈ ps -> (b < n)%nat) ->
  exists by_block, foldM (add_phi preds) ([], replicate n []) ps = Ok (phi_of (fun _ _ => []) <$> ps, by_block) /\ phi_table n ps by_block.
Proof.
  intros Hp. assert (Hgo : forall l pre by_block, phi_table n pre by_block -> (forall b v, (b, v) ∈ l -> (b < n)%nat) ->
    exists by_block', foldM (add_phi preds) (phi_of (fun _ _ => []) <$> pre, by_block) l = Ok (phi_of (fun _ _ => []) <$> pre ++ l, by_block') /\ phi_table n (pre ++ l) by_block').
  { induction l as [|[b v] l IH]; intros pre by_block Ht Hl; cbn [foldM]; [exists by_block; by rewrite app_nil_r|].
    destruct (add_phi_spec preds n pre b v _ by_block Hp (Hl b v ltac:(by left)) eq_refl Ht) as (by_block' & -> & Ht'). msimpl.
    destruct (IH _ by_block' Ht') as (by2 & H2' & H3'); [intros; eapply Hl; by right|]. exists by2. by rewrite <- app_assoc in H2', H3'. }
  intros Hl. apply (Hgo ps [] (replicate n [])); [|done]. split; [apply length_replicate|]. intros b row [-> _]%lookup_replicate. split; [constructor|].
  intros k. split; [by intros ?%not_elem_of_nil|by intros [v ?]].
Qed.

(** The versions after a block's phis. *)
Lemma enter_phis_spec (phis : list (Phi V D)) (inputs : nat -> V -> list (nat * version)) (ps : list (nat * V)) b (row : list nat) m0 m (ch : changes) :
  (forall k, phis !! k = phi_of inputs <$> (ps !! k)) -> (forall k, k ∈ row -> exists v, ps !! k = Some (b, v)) -> undo m ch = m0 ->
  exists m' ch', foldM (enter_phi phis) (m, ch) row = Ok (m', ch') :> ssa_result _ /\ undo m' ch' = m0 /\
  forall v, reaching m' v = if decide (v ∈ omap (fun k => snd <$> ps !! k) row) then PhiVersion v b else reaching m v.
Proof.
  intros Hphis. revert m ch. induction row as [|k row IH]; intros m ch Hrow Hu; cbn [foldM]; [by exists m, ch|].
  destruct (Hrow k ltac:(by left)) as [w Hk]. unfold enter_phi at 2. rewrite Hphis, Hk. msimpl. cbn [fmap option_fmap option_map phi_of phi_variable phi_version fst snd].
  destruct (IH (<[w := PhiVersion w b]> m) (ch ++ [(w, m !! w)])) as (m' & ch' & Hrun & Hu' & Hm'); [intros; apply Hrow; by right| |].
  - rewrite <- Hu. apply (undo_bind m ch w).
  - exists m', ch'. split; [exact Hrun|]. split; [done|]. intros v. rewrite Hm', reaching_insert. cbn. rewrite Hk. cbn.
    rewrite (decide_ext (v ∈ w :: omap (fun k => snd <$> ps !! k) row) (w = v \/ v ∈ omap (fun k => snd <$> ps !! k) row)) by (rewrite elem_of_cons; intuition congruence).
    repeat case_decide; intuition congruence.
Qed.

(** ** Events *)

(** The version each use of a block reads. *)
Fixpoint use_versions (a : assignment) (row : list event) : list (U * version) :=
  match row with
  | [] => []
  | UseEvent v u :: row => (u, a v) :: use_versions a row
  | DefEvent v d as e :: row => use_versions (event_assign a e) row
  end.

Lemma use_versions_fst a row : (use_versions a row).*1 = row_uses row.
Proof. revert a. induction row as [|[v u|v d] row IH]; intros a; csimpl; [done|by rewrite IH|apply IH]. Qed.

Lemma use_versions_at a pre v u post : (u, foldl event_assign a pre v) ∈ use_versions a (pre ++ UseEvent v u :: post).
Proof. revert a. induction pre as [|[w x|w d] pre IH]; intros a; cbn; [by left|right; apply IH|apply IH]. Qed.

Lemma use_versions_ext a a' row : (forall v, a v = a' v) -> use_versions a row = use_versions a' row.
Proof.
  revert a a'. induction row as [|[v u|v d] row IH]; intros a a' Ha; cbn; [done|by rewrite Ha, (IH a a')|]. apply IH. intros w.
  destruct (decide (v = w)) as [->|?]; [by rewrite !fn_lookup_insert|by rewrite !fn_lookup_insert_ne].
Qed.

Lemma rename_events_spec b (row : list event) m0 m (ch : changes) uses a :
  undo m ch = m0 -> (forall v, reaching m v = a v) -> NoDup (row_uses row) -> (forall u, u ∈ row_uses row -> uses !! u = None) ->
  exists m' ch' uses', foldM (rename_event b) (m, ch, uses) row = Ok (m', ch', uses') /\ undo m' ch' = m0 /\
  (forall v, reaching m' v = foldl event_assign a row v) /\ forall u x, uses' !! u = Some x <-> uses !! u = Some x \/ (u, x) ∈ use_versions a row.
Proof.
  revert m ch uses a. induction row as [|e row IH]; intros m ch uses a Hu Ha Hnd Hfresh; cbn [foldM].
  { exists m, ch, uses. split_and!; [done..|]. intros u x. cbn. split; [by left|]. by intros [?|?%not_elem_of_nil]. }
  destruct e as [w u|w d]; unfold rename_event at 2; cbn [fst snd].
  - apply NoDup_cons in Hnd as [Hu' Hnd]. assert (Hnone : uses !! u = None) by (apply Hfresh; by left).
    rewrite decide_False by (by rewrite not_elem_of_dom). msimpl.
    destruct (IH m ch (<[u := reaching m w]> uses) a Hu Ha Hnd) as (m' & ch' & uses' & Hrun & Hm' & Ha' & Huses).
    { intros x Hx. rewrite lookup_insert_ne by (intros ->; done). apply Hfresh. by right. }
    exists m', ch', uses'. split_and!; [done..|]. intros x y. rewrite Huses. cbn [use_versions]. rewrite elem_of_cons, Ha.
    destruct (decide (u = x)) as [->|Hne]; [|rewrite lookup_insert_ne by done; intuition congruence].
    rewrite lookup_insert_eq, Hnone. intuition congruence.
  - destruct (IH (bind_version (m, ch) w (DefVersion w d)).1 (bind_version (m, ch) w (DefVersion w d)).2 uses (event_assign a (DefEvent w d))) as (m' & ch' & uses' & Hrun & Hm' & Ha' & Huses).
    + by rewrite undo_bind.
    + intros v. unfold bind_version. cbn [fst]. rewrite reaching_insert. cbn [event_assign].
      case_decide as Hv; [subst v; by rewrite fn_lookup_insert|by rewrite fn_lookup_insert_ne].
    + done.
    + done.
    + by exists m', ch', uses'.
Qed.

(** ** Phi inputs *)

Definition push_input b (a : assignment) (p : Phi V D) : Phi V D :=
  MkPhi (phi_variable p) (phi_block p) (phi_version p) (phi_inputs p ++ [(b, a (phi_variable p))]).

Lemma phi_inputs_spec b m (phis : list (Phi V D)) (row : list nat) : NoDup row -> (forall k, k ∈ row -> (k < length phis)%nat) ->
  exists phis', foldM (phi_input b m) phis row = Ok phis' /\ length phis' = length phis /\
  forall k, phis' !! k = if decide (k ∈ row) then push_input b (reaching m) <$> phis !! k else phis !! k.
Proof.
  revert phis. induction row as [|k row IH]; intros phis Hnd Hlt; cbn [foldM]; [by exists phis|]. apply NoDup_cons in Hnd as [Hk Hnd].
  unfold phi_input at 2. in_range phis k as p Hp; [by apply Hlt; left|]. rewrite Hp. msimpl.
  edestruct (IH (<[k := push_input b (reaching m) p]> phis) Hnd) as (phis' & Hrun & Hlen & Hphis); [intros; rewrite length_insert; apply Hlt; by right|].
  exists phis'. split; [exact Hrun|]. rewrite length_insert in Hlen. split; [done|]. intros j. rewrite Hphis. destruct (decide (j = k)) as [->|Hne].
  - rewrite decide_False, decide_True by (done || by left). rewrite list_lookup_insert_eq by eauto with index. by rewrite Hp.
  - rewrite list_lookup_insert_ne by done. by rewrite (decide_ext (j ∈ k :: row) (j ∈ row)) by (rewrite elem_of_cons; tauto).
Qed.

(** The inputs after the phis of the blocks [ss] have got theirs. *)
Definition add_input b (a : assignment) (ss : list nat) (inputs : nat -> V -> list (nat * version)) : nat -> V -> list (nat * version) :=
  fun s v => if decide (s ∈ ss) then inputs s v ++ [(b, a v)] else inputs s v.

Lemma successor_inputs_spec b m n (ps : list (nat * V)) by_block inputs (ss : list nat) : phi_table n ps by_block ->
  NoDup ss -> (forall s, s ∈ ss -> (s < n)%nat) ->
  foldM (successor_inputs by_block b m) (phi_of inputs <$> ps) ss = Ok (phi_of (add_input b (reaching m) ss inputs) <$> ps).
Proof.
  intros [Hlen Hrows]. revert inputs. induction ss as [|s ss IH]; intros inputs Hnd Hlt; cbn [foldM].
  { by f_equal. }
  apply NoDup_cons in Hnd as [Hs Hnd]. assert (Hsn : (s < n)%nat) by (apply Hlt; by left). unfold successor_inputs at 2. in_range by_block s as row Hrow. rewrite Hrow. msimpl.
  destruct (Hrows s row Hrow) as [Hndr Hin]. destruct (phi_inputs_spec b m (phi_of inputs <$> ps) row Hndr) as (phis' & -> & Hl & Hphis).
  { intros k [v Hk]%Hin. rewrite length_fmap. eauto with index. }
  assert (phis' = phi_of (add_input b (reaching m) [s] inputs) <$> ps) as ->.
  { apply list_eq. intros k. rewrite Hphis, !list_lookup_fmap. destruct (ps !! k) as [[x v]|] eqn:Hk; cbn; [|by case_decide].
    assert (Hrw : k ∈ row <-> x = s) by (rewrite Hin; naive_solver). unfold phi_of, add_input, push_input. cbn.
    destruct (decide (x = s)) as [->|Hne]; [rewrite decide_True by tauto; rewrite decide_True by set_solver|rewrite decide_False by tauto; rewrite decide_False by set_solver]; done. }
  rewrite IH; [|done|intros; apply Hlt; by right]. f_equal. apply list_fmap_ext. intros _ [x v] _. unfold phi_of, add_input. cbn. f_equal.
  rewrite (decide_ext (x ∈ s :: ss) (x = s \/ x ∈ ss)), (decide_ext (x ∈ [s]) (x = s)) by set_solver.
  destruct (decide (x ∈ ss)), (decide (x = s)); subst; try done; [rewrite decide_True by tauto|rewrite decide_True by tauto|rewrite decide_False by (intros [?|?]; done)]; done.
Qed.

(** ** The walk *)

Lemma row_uses_concat (events : list (list event)) : row_uses (concat events) = concat (row_uses <$> events).
Proof. unfold row_uses. induction events as [|row events IH]; csimpl; [done|]. by rewrite (omap_app event_use row), IH. Qed.

Lemma NoDup_concat_inj {A} (ls : list (list A)) i j l k x : NoDup (concat ls) -> ls !! i = Some l -> ls !! j = Some k -> x ∈ l -> x ∈ k -> i = j.
Proof.
  revert i j. induction ls as [|r ls IH]; intros i j; [done|]. cbn [concat]. intros (Hr & Hdis & Hls)%NoDup_app Hi Hj Hl Hk.
  assert (Hin : forall m q, ls !! m = Some q -> x ∈ q -> x ∈ concat ls) by (intros m q Hm Hq; apply list_elem_of_In, in_concat; exists q; split; apply list_elem_of_In; [by eapply list_elem_of_lookup_2|done]).
  destruct i as [|i], j as [|j]; cbn in Hi, Hj; [done| | |f_equal; by eapply IH].
  - injection Hi as ->. destruct (Hdis x Hl). by eapply Hin.
  - injection Hj as ->. destruct (Hdis x Hk). by eapply Hin.
Qed.

Section walk.
Context {C : Type} `{SsaCfg C} (cfg : C) (t : DominatorTree) (Hlaw : lawful cfg t) (events : list (list event)) (P : gset (nat * V)) (by_block : list (list nat)).
Abbreviation g := (cfg_successors cfg).
Abbreviation root := (cfg_root cfg).
Abbreviation n := (length (cfg_successors cfg)).
Abbreviation ps := (ascending P).
Context (Hlen : length events = n) (Htable : phi_table n ps by_block) (Huses : NoDup (row_uses (concat events))).
Abbreviation vin := (versions_in t events P).
Abbreviation vout := (versions_out t events P).
Implicit Types (b c p s : nat) (visited : list nat) (st : rename_state (V:=V) (D:=D) (U:=U)).

(** The versions after a block's phis. *)
Definition versions_phi b : assignment := phi_assign P b (vin b).

Definition inputs_from visited s v : list (nat * version) := (fun p => (p, vout p v)) <$> filter (fun p => s ∈ row_of g p) visited.

(** The state when the blocks [visited] are done. *)
Record walk_ok visited st : Prop := {
  wk_uses u x : rn_uses st !! u = Some x <-> exists b, b ∈ visited /\ (u, x) ∈ use_versions (versions_phi b) (row_at events b);
  wk_phis : rn_phis st = phi_of (inputs_from visited) <$> ps }.

Lemma table_phis b (row : list nat) v : by_block !! b = Some row -> v ∈ omap (fun k => snd <$> ps !! k) row <-> (b, v) ∈ P.
Proof.
  intros Hrow. destruct (proj2 Htable b row Hrow) as [_ Hin]. rewrite list_elem_of_omap, <- elem_of_ascending. split.
  - intros (k & [w Hk]%Hin & Hv). rewrite Hk in Hv. injection Hv as <-. by eapply list_elem_of_lookup_2.
  - intros [k Hk]%list_elem_of_lookup. exists k. rewrite Hk. split; [apply Hin; by exists v|done].
Qed.

Lemma enter_block_spec visited st b : walk_ok visited st -> b ∉ visited -> (b < n)%nat -> (forall v, reaching (current st) v = vin b v) ->
  exists ch st', enter_block cfg events by_block b st = Ok (ch, st') /\ walk_ok (visited ++ [b]) st' /\ undo (current st') ch = current st /\
  forall v, reaching (current st') v = vout b v.
Proof.
  intros [Hu Hp] Hb Hbn Hcur. unfold enter_block. in_range by_block b as here Hhere; [rewrite (proj1 Htable); done|]. rewrite Hhere. msimpl.
  destruct (enter_phis_spec (rn_phis st) (inputs_from visited) ps b here (current st) (current st) []) as (m1 & ch1 & -> & Hund1 & Hm1).
  { intros k. by rewrite Hp, list_lookup_fmap. } { intros k Hk. by apply (proj2 Htable b here Hhere). } { done. }
  msimpl. in_range events b as row Hrow. rewrite Hrow. msimpl. assert (Hat : row_at events b = row) by (unfold row_at; by rewrite Hrow).
  assert (Hphi : forall v, reaching m1 v = versions_phi b v).
  { intros v. rewrite Hm1. unfold versions_phi, phi_assign. rewrite Hcur. apply decide_ext. by apply table_phis. }
  destruct (rename_events_spec b row (current st) m1 ch1 (rn_uses st) (versions_phi b)) as (m2 & ch2 & uses & -> & Hund2 & Hm2 & Huses2); [done|done| | |].
  - rewrite row_uses_concat in Huses. clear - Huses Hrow. apply (list_elem_of_lookup_2 _ b) in Hrow. apply list_elem_of_In, in_split in Hrow as (l1 & l2 & ->).
    rewrite fmap_app, concat_app in Huses. csimpl. apply NoDup_app in Huses as (_ & _ & Hq). by apply NoDup_app in Hq as (? & _).
  - intros u Hur. destruct (rn_uses st !! u) as [x|] eqn:Hux; [|done]. exfalso. apply Hu in Hux as (b' & Hb' & Hin). apply (list_elem_of_fmap_2 fst) in Hin. cbn in Hin.
    rewrite use_versions_fst in Hin. unfold row_at in Hin. destruct (events !! b') as [row'|] eqn:Hrow'; [|by apply not_elem_of_nil in Hin]. cbn in Hin.
    rewrite row_uses_concat in Huses. assert (b = b') as ->; [|done].
    eapply (NoDup_concat_inj (row_uses <$> events) b b' (row_uses row) (row_uses row') u); rewrite ?list_lookup_fmap, ?Hrow, ?Hrow'; done.
  - msimpl. in_range g b as ss Hss. rewrite Hss. msimpl. cbn [fst snd]. rewrite Hp.
    rewrite (successor_inputs_spec b m2 n ps by_block (inputs_from visited) ss Htable); [|by eapply (lw_rows _ _ Hlaw)|].
    2: { intros s Hs. apply (dt_closed _ _ _ (lw_tree _ _ Hlaw) b). by exists ss. }
    msimpl. eexists _, _. split; [done|]. cbn [current rn_uses rn_phis]. assert (Hvout : forall v, reaching m2 v = vout b v) by (intros v; rewrite Hm2; unfold versions_out, versions_after; by rewrite Hat).
    split; [|done]. split; cbn [rn_uses rn_phis].
    + intros u x. rewrite Huses2, Hu. setoid_rewrite elem_of_app. setoid_rewrite list_elem_of_singleton. rewrite <- Hat. naive_solver.
    + apply list_fmap_ext. intros _ [s v] _. unfold phi_of, add_input, inputs_from. cbn [fst snd]. f_equal. rewrite filter_app, fmap_app, filter_cons, filter_nil.
      assert (Hrow_of : row_of g b = ss) by (unfold row_of; by rewrite Hss). rewrite Hrow_of. case_decide; cbn; [by rewrite Hvout|by rewrite app_nil_r].
Qed.

Abbreviation actions := (list (Action (V:=V) (D:=D))).
Definition pending (l : actions) : list nat := omap (fun a => match a with Enter b => Some b | Exit _ => None end) l.
Fixpoint leaving (l : actions) : nat := match l with [] => 0 | Enter _ :: l => leaving l | Exit _ :: l => S (leaving l) end.

(** The stack of the walk: it holds each child of a visited block that is not
    visited yet, once; [current] is right for the block on top, and for the
    ones below it when the changes in between are undone. *)
Fixpoint stacked m (l : actions) : Prop :=
  match l with
  | [] => True
  | Enter b :: l => (forall v, reaching m v = vin b v) /\ stacked m l
  | Exit ch :: l => stacked (undo m ch) l
  end.

Record tree_walk visited (l : actions) : Prop := {
  tw_nodup : NoDup (visited ++ pending l);
  tw_parent c : c ∈ visited ++ pending l -> c = root \/ exists p, p ∈ visited /\ idom t !! c = Some (Some p);
  tw_root : root ∈ visited ++ pending l;
  tw_children p c : p ∈ visited -> idom t !! c = Some (Some p) -> c ∈ visited ++ pending l }.

Lemma tree_walk_lt visited l b : tree_walk visited l -> b ∈ visited ++ pending l -> (b < n)%nat.
Proof.
  intros Hw Hb. pose proof (lw_tree _ _ Hlaw) as Hdt. destruct (tw_parent _ _ Hw b Hb) as [->|(p & _ & Hp)]; [apply (dt_root _ _ _ Hdt)|].
  by destruct (block_index _ _ _ Hdt b p Hp).
Qed.

Lemma pending_kids (kids : list nat) (ch : changes) (l : actions) : pending ((Enter <$> kids) ++ Exit ch :: l) = kids ++ pending l.
Proof. unfold pending. rewrite omap_app. cbn. f_equal. induction kids as [|c kids IH]; csimpl; [done|by rewrite IH]. Qed.

Lemma leaving_kids (kids : list nat) (ch : changes) (l : actions) : leaving ((Enter <$> kids) ++ Exit ch :: l) = S (leaving l).
Proof. induction kids as [|c kids IH]; csimpl; [done|exact IH]. Qed.

Lemma stacked_kids m (kids : list nat) l : (forall c v, c ∈ kids -> reaching m v = vin c v) -> stacked m l -> stacked m ((Enter <$> kids) ++ l).
Proof. intros Hk Hl. induction kids as [|c kids IH]; csimpl; [done|]. split; [intros v; apply Hk; by left|]. apply IH. intros; apply Hk. by right. Qed.

Lemma expand_walk visited b l (kids : list nat) (ch : changes) : tree_walk visited (Enter b :: l) -> NoDup kids -> (forall c, c ∈ kids <-> idom t !! c = Some (Some b)) ->
  tree_walk (visited ++ [b]) ((Enter <$> kids) ++ Exit ch :: l).
Proof.
  intros [Hnd Hpar Hroot Hch] Hndk Hk. pose proof (to_root _ _ _ (dt_tree _ _ _ (lw_tree _ _ Hlaw))) as Hr.
  change (pending (Enter b :: l)) with (b :: pending l) in *.
  assert (Hfresh : forall c, c ∈ kids -> c ∉ visited ++ b :: pending l).
  { intros c Hc%Hk Hin. destruct (Hpar c Hin) as [->|(p & Hp & Hcp)]; [congruence|]. assert (p = b) as -> by congruence.
    apply NoDup_app in Hnd as (_ & Hdis & _). apply (Hdis b Hp). by left. }
  assert (Hperm : (visited ++ [b]) ++ kids ++ pending l ≡ₚ kids ++ visited ++ b :: pending l) by (rewrite <- app_assoc; cbn; solve_Permutation).
  split; rewrite ?pending_kids.
  - rewrite Hperm. apply NoDup_app. split_and!; [done|exact Hfresh|done].
  - intros c. rewrite Hperm, elem_of_app. intros [Hc|Hc].
    + right. exists b. split; [apply elem_of_app; right; by left|by apply Hk].
    + destruct (Hpar c Hc) as [?|(p & ? & ?)]; [by left|right]. exists p. split; [apply elem_of_app; by left|done].
  - rewrite Hperm, elem_of_app. by right.
  - intros p c Hp Hc. rewrite Hperm, elem_of_app. apply elem_of_app in Hp as [Hp| ->%list_elem_of_singleton]; [right; by eapply Hch|left; by apply Hk].
Qed.

Lemma rename_loop_spec fuel visited l st : walk_ok visited st -> tree_walk visited l -> stacked (current st) l ->
  (leaving l + 2 * (n - length visited) <= fuel)%nat ->
  exists st' order, rename_loop fuel cfg events by_block l st = Ok st' /\ walk_ok order st' /\ NoDup order /\ forall b, b ∈ order <-> (b < n)%nat.
Proof.
  pose proof (lw_tree _ _ Hlaw) as Hdt. pose proof (dt_tree _ _ _ Hdt) as Ht. revert visited l st. induction fuel as [|fuel IH]; intros visited l st Hw Htw Hs Hle.
  - assert (Hl : l = []); [|subst l; cbn [rename_loop]].
    { destruct l as [|[b|ch] l]; [done| |cbn in Hle; lia].
      pose proof (tw_nodup _ _ Htw) as Hnd. pose proof (NoDup_bounded_length _ n Hnd) as Hb. rewrite length_app in Hb. change (pending (Enter b :: l)) with (b :: pending l) in *. cbn [length] in Hb.
      specialize (Hb (fun x Hx => tree_walk_lt _ _ x Htw Hx)). lia. }
    exists st, visited. pose proof (tw_nodup _ _ Htw) as Hnd. cbn in Hnd. rewrite app_nil_r in Hnd. split_and!; [done..|].
    assert (Hlt : forall x, x ∈ visited -> (x < n)%nat) by (intros x Hx; eapply tree_walk_lt; [exact Htw|]; by rewrite app_nil_r).
    intros b. split; [apply Hlt|]. intros Hb. destruct (decide (b ∈ visited)) as [|Hno]; [done|]. exfalso.
    assert (Hnd' : NoDup (b :: visited)) by (by constructor). pose proof (NoDup_bounded_length _ n Hnd') as Hbd. cbn in Hbd, Hle.
    assert (S (length visited) <= n)%nat by (apply Hbd; intros x [->|?]%elem_of_cons; [done|by apply Hlt]). lia.
  - destruct l as [|[b|ch] l]; cbn [rename_loop].
    + exists st, visited. pose proof (tw_nodup _ _ Htw) as Hnd. cbn in Hnd. rewrite app_nil_r in Hnd. split_and!; [done..|].
      intros b. split; [intros Hb; eapply tree_walk_lt; [exact Htw|]; by rewrite app_nil_r|]. intros Hb.
      assert (Hab : above (idom t) root b) by (by apply (dt_reachable _ _ _ Hdt), (lw_reachable _ _ Hlaw)). clear Hb.
      induction Hab as [|b p Hp Ha IHa]; [pose proof (tw_root _ _ Htw) as Hr; by rewrite app_nil_r in Hr|].
      pose proof (tw_children _ _ Htw p b IHa Hp) as Hc. by rewrite app_nil_r in Hc.
    + destruct Hs as [Hcur Hs]. assert (Hb : b ∈ visited ++ pending (Enter b :: l)) by (apply elem_of_app; right; by left).
      pose proof (tree_walk_lt _ _ b Htw Hb) as Hbn. assert (Hbv : b ∉ visited).
      { intros Hbv. pose proof (tw_nodup _ _ Htw) as (_ & Hdis & _)%NoDup_app. apply (Hdis b Hbv). by left. }
      destruct (enter_block_spec visited st b Hw Hbv Hbn Hcur) as (ch & st1 & -> & Hw1 & Hundo & Hout). msimpl. cbn [fst snd]. rewrite (lw_children _ _ Hlaw).
      destruct (to_children _ _ _ Ht b) as (kids & Hkids & Hndk & _ & Hk); [by rewrite (dt_length _ _ _ Hdt)|]. rewrite Hkids. msimpl.
      apply (IH (visited ++ [b])); [done|by apply expand_walk| |].
      * apply stacked_kids; [|cbn [stacked]; by rewrite Hundo]. intros c v Hc%Hk. rewrite Hout. by rewrite (versions_child _ _ _ Hdt (lw_reachable _ _ Hlaw) events P c b Hc).
      * rewrite leaving_kids, length_app. cbn [length]. cbn [leaving] in Hle.
        assert (length visited < n)%nat; [|lia]. assert (Hnd' : NoDup (b :: visited)) by (constructor; [done|]; pose proof (tw_nodup _ _ Htw) as Hnv; by apply NoDup_app in Hnv as (? & _)).
        apply (NoDup_bounded_length (b :: visited) n) in Hnd'; [cbn in Hnd'; lia|]. intros x [->|Hx]%elem_of_cons; [done|]. eapply tree_walk_lt; [exact Htw|]. apply elem_of_app. by left.
    + apply (IH visited); [by destruct Hw; split| |done|].
      * destruct Htw. by split.
      * cbn [leaving] in Hle. lia.
Qed.
End walk.
End rename.

(** ** The whole construction *)

Section build.
Context {V D U : Type} `{Countable V, !Ord V, Countable D, Countable U}.
Abbreviation event := (Event V D U).
Implicit Types (events : list (list event)) (b p s : nat) (v : V) (u : U).

Section lawful.
Context {C : Type} `{SsaCfg C} (cfg : C) (t : DominatorTree) (Hlaw : lawful cfg t).
Abbreviation g := (cfg_successors cfg).
Abbreviation root := (cfg_root cfg).
Abbreviation n := (length (cfg_successors cfg)).

(** The inputs of a phi, in the order of the predecessors. *)
Definition final_inputs events (P : gset (nat * V)) b v : list (nat * Version V D) :=
  (fun p => (p, versions_out t events P p v)) <$> row_of (cfg_predecessors cfg) b.

(** [s] is the SSA form of [events] with the phis [P]. *)
Record ssa_form events (P : gset (nat * V)) (s : SparseSsa V D U) : Prop := {
  sf_placed b v : (b, v) ∈ P <-> placed g root t events v b;
  sf_table : phi_table n (ascending P) (phis_by_block s);
  sf_phis : ssa_phis s = phi_of (final_inputs events P) <$> ascending P;
  sf_uses u x : ssa_uses s !! u = Some x <-> exists b, (b < n)%nat /\ (u, x) ∈ use_versions (versions_phi t events P b) (row_at events b) }.

Lemma sorted_inputs (order : list nat) (f : nat -> Version V D) b (row : list nat) : NoDup order -> (forall x, x ∈ order <-> (x < n)%nat) ->
  cfg_predecessors cfg !! b = Some row ->
  sort_by_key fst ((fun p => (p, f p)) <$> filter (fun p => b ∈ row_of g p) order) = (fun p => (p, f p)) <$> row.
Proof.
  intros Hnd Hin Hrow. apply (StronglySorted_unique_strong (key_le fst)).
  - intros [a x] [a' x'] Ha Ha' Hle Hle'. rewrite elem_of_sort_by_key in Ha. apply list_elem_of_fmap in Ha as (p & [= -> ->] & _), Ha' as (p' & [= -> ->] & _).
    unfold key_le, ord_le in Hle, Hle'. cbn in Hle, Hle'. by replace p' with p by lia.
  - apply sort_by_key_sorted.
  - pose proof (lw_incoming _ _ Hlaw b row Hrow) as Hs. clear Hrow. induction Hs as [|a row Hs IH Ha]; csimpl; constructor; [done|].
    apply Forall_fmap. eapply Forall_impl; [exact Ha|]. intros x Hx. unfold key_le, ord_le. cbn in *. lia.
  - rewrite sort_by_key_permutation. apply fmap_Permutation, NoDup_Permutation.
    + by apply NoDup_filter.
    + pose proof (lw_incoming _ _ Hlaw b row Hrow) as Hs. clear Hrow. induction Hs as [|a row Hs IH Ha]; constructor; [|done].
      intros Hina. rewrite Forall_forall in Ha. specialize (Ha a Hina). lia.
    + intros p. rewrite list_elem_of_filter, Hin, <- edge_row, <- (proj2 (lw_reverses _ _ Hlaw)). split.
      * intros [(r & Hr & Hp) _]. congruence.
      * intros Hp. assert (He : edge (cfg_predecessors cfg) b p) by (by exists row). split; [done|]. apply (proj2 (lw_reverses _ _ Hlaw)) in He as (r & Hr & _). eauto with index.
Qed.

Lemma finish_phis (order : list nat) events P : NoDup order -> (forall x, x ∈ order <-> (x < n)%nat) -> (forall b v, (b, v) ∈ P -> (b < n)%nat) ->
  mapMr (finish_phi (cfg_predecessors cfg)) (phi_of (inputs_from cfg t events P order) <$> ascending P) = Ok (phi_of (final_inputs events P) <$> ascending P).
Proof.
  intros Hnd Hin HP. rewrite (mapMr_ok _ (fun p : Phi V D => MkPhi (phi_variable p) (phi_block p) (phi_version p) (final_inputs events P (phi_block p) (phi_variable p)))).
  - f_equal. rewrite <- list_fmap_compose. apply list_fmap_ext. by intros _ [b v] _.
  - intros p Hp. apply list_elem_of_fmap in Hp as ([b v] & -> & Hbv%elem_of_ascending). unfold finish_phi, phi_of. cbn [phi_inputs phi_block phi_variable phi_version fst snd].
    in_range (cfg_predecessors cfg) b as row Hrow; [rewrite (proj1 (lw_reverses _ _ Hlaw)); by eapply HP|]. rewrite Hrow. msimpl.
    unfold inputs_from. rewrite (sorted_inputs order _ b row Hnd Hin Hrow). unfold final_inputs, row_of. rewrite Hrow. cbn [default]. rewrite decide_False; [done|].
    rewrite length_fmap. intros [?|Hex]; [done|]. apply Exists_exists in Hex as ([[a x] e] & Hae & Hne). cbn in Hne. clear - Hae Hne. induction row as [|r row IH]; [by apply not_elem_of_nil in Hae|].
    csimpl in Hae. apply elem_of_cons in Hae as [[= -> -> ->]|?]; [done|by apply IH].
Qed.

Lemma row_uses_events events u : length events = n -> u ∈ row_uses (concat events) <-> exists b, (b < n)%nat /\ u ∈ row_uses (row_at events b).
Proof.
  intros Hlen. rewrite row_uses_concat. unfold row_at. split.
  - intros Hu. apply list_elem_of_In, in_concat in Hu as (row & Hrow & Hu). apply list_elem_of_In in Hrow, Hu. apply list_elem_of_fmap in Hrow as (r & -> & Hr).
    apply list_elem_of_lookup in Hr as [b Hb]. exists b. rewrite Hb. split; [rewrite <- Hlen; eauto with index|done].
  - intros (b & Hb & Hu). in_range events b as row Hrow. rewrite Hrow in Hu. cbn in Hu. apply list_elem_of_In, in_concat. exists (row_uses row).
    split; [apply list_elem_of_In, list_elem_of_fmap|by apply list_elem_of_In]. exists row. split; [done|]. by eapply list_elem_of_lookup_2.
Qed.

(** Why a list of events has no SSA form. *)
Definition not_ssa events (err : SsaError) : Prop :=
  (err = MkSsaError ModelShape None /\ length events <> n) \/ (length events = n /\ repeated events err).

(** The identities are unique. *)
Definition unique_ids events : Prop := NoDup (row_uses (concat events)) /\ NoDup (row_defs (concat events)).

Lemma ssa_build_spec events : yields (not_ssa events) (fun s : SparseSsa V D U => length events = n /\ unique_ids events /\ exists P, ssa_form events P s) (build cfg events).
Proof.
  unfold build. pose proof (lw_tree _ _ Hlaw) as Hdt. pose proof (lw_reverses _ _ Hlaw) as Hrev. pose proof (dt_closed _ _ _ Hdt) as Hclosed.
  assert (Hkids : length (dominator_children cfg) = n) by (by rewrite (lw_children _ _ Hlaw), (to_length _ _ _ (dt_tree _ _ _ Hdt)), (dt_length _ _ _ Hdt)).
  case_decide as Hshape; cbn [yields].
  { left. split; [done|]. intros Hlen. rewrite (lw_frontier_len _ _ Hlaw), (proj1 Hrev) in Hshape. tauto. }
  assert (Hlen : length events = n) by (destruct (decide (length events = n)); tauto). clear Hshape.
  pose proof (event_facts_spec events) as Hf. destruct (event_facts_of events) as [f|err|]; cbn in Hf; [|by right|done]. msimpl.
  destruct (live_variables_spec g (cfg_predecessors cfg) events f Hrev Hclosed Hlen Hf) as (L & -> & HL). msimpl.
  assert (Hrange : forall b s, in_frontier g root t b s -> (s < n)%nat) by (intros b s (x & _ & _ & He & _); by apply (Hclosed x)).
  destruct (place_phis_spec cfg g root t events f eq_refl Hlen Hf (lw_frontier _ _ Hlaw) Hrange L HL) as (P & -> & HP). msimpl.
  assert (HPn : forall b v, (b, v) ∈ P -> (b < n)%nat).
  { intros b v Hb%HP. by destruct Hb as [x s _ Hs _|x s _ Hs _]; apply Hrange in Hs. }
  destruct (add_phis_spec (D:=D) (cfg_predecessors cfg) n (ascending P)) as (by_block & -> & Htable); [apply Hrev|intros b v Hb%elem_of_ascending; by eapply HPn|]. msimpl. cbn [fst snd].
  assert (Hsnd : (enumerate events).*2 = events) by (apply snd_zip; by rewrite length_seq).
  pose proof (fo_nodup_usages _ _ Hf) as Hnu. pose proof (fo_nodup_ids _ _ Hf) as Hnd. pose proof (fo_usages _ _ Hf) as Hus. rewrite Hsnd in Hnu, Hnd, Hus.
  destruct (rename_loop_spec cfg t Hlaw events P by_block Hlen Htable Hnu (2 * n) [] [Enter root] (Rename ∅ ∅ (phi_of (fun _ _ => []) <$> ascending P)))
    as (st & order & -> & Hw & Hndo & Horder).
  - split; cbn [rn_uses rn_phis]; [|done]. intros u x. rewrite lookup_empty. split; [done|]. by intros (b & ?%not_elem_of_nil & _).
  - split; cbn; [apply NoDup_singleton| |by left|by intros p c ?%not_elem_of_nil]. intros c ->%list_elem_of_singleton. by left.
  - cbn. split; [|done]. intros v. unfold reaching. rewrite lookup_empty. cbn. by rewrite (versions_root _ _ _ Hdt).
  - cbn. lia.
  - msimpl. assert (Hdom : dom (rn_uses st) = usage_ids f).
    { apply set_eq. intros u. rewrite Hus, (row_uses_events events u Hlen), elem_of_dom. split.
      - intros [x Hx]. apply (wk_uses _ _ _ _ _ _ Hw) in Hx as (b & Hb & Hx). exists b. split; [by apply Horder|]. rewrite <- (use_versions_fst (versions_phi t events P b)). by apply (list_elem_of_fmap_2 fst _ (u, x)).
      - intros (b & Hb & Hx). rewrite <- (use_versions_fst (versions_phi t events P b)) in Hx. apply list_elem_of_fmap in Hx as ([u' x] & -> & Hx). exists x.
        apply (wk_uses _ _ _ _ _ _ Hw). exists b. split; [by apply Horder|done]. }
    rewrite decide_False by (rewrite <- Hdom, size_dom; tauto). rewrite (wk_phis _ _ _ _ _ _ Hw), (finish_phis order events P Hndo Horder HPn). msimpl. cbn [yields].
    split; [done|]. split; [done|]. exists P. split; cbn [phis_by_block ssa_phis ssa_uses]; [intros; apply HP|done|done|].
    intros u x. rewrite (wk_uses _ _ _ _ _ _ Hw). by setoid_rewrite Horder.
Qed.
End lawful.

(** The views of an analysed graph keep the laws. *)
Lemma forward_lawful g root f : forward_ok g root true f -> lawful f (fwd_dominators f).
Proof.
  intros Hf. pose proof (fo_rows _ _ _ _ Hf) as Hrows. pose proof (ro_length _ _ _ Hrows) as Hlen. split; cbn; rewrite ?(fo_root _ _ _ _ Hf).
  - apply (fo_dominators _ _ _ _ Hf).
  - done.
  - intros b Hb. apply (fo_reachable _ _ _ _ Hf). by rewrite <- Hlen.
  - apply (ro_reverses _ _ _ Hrows).
  - apply (ro_row _ _ _ Hrows).
  - apply (ro_incoming _ _ _ Hrows).
  - by rewrite (fo_length _ _ _ _ Hf).
  - intros b Hb. in_range (fwd_dominance_frontier f) b as row Hrow; [rewrite (fo_length _ _ _ _ Hf); lia|]. exists row. split; [done|].
    intros s. rewrite (proj2 (fo_frontier _ _ _ _ Hf b row Hrow)). tauto.
Qed.
End build.

Lemma analysed_lawful g root c : complete_ok g root true c -> lawful c (fwd_dominators (cfg_forward c)).
Proof. intros [Hf _ _ _ _]. apply forward_lawful in Hf as [? ? ? ? ? ? ? ?]. by split. Qed.
