(* ===== verification/SsaPaths.v ===== *)
(** * SsaPaths: SSA form preserves what every execution reads

    Executions follow the paths of the graph from the root. In the source each
    variable holds the instance of its last definition; in SSA form each
    version holds one, a phi takes the value of its input on the edge taken,
    and a use reads its version. Both read the same instance at every use. *)

From stdpp Require Import functions.
From S2P Require Import Prelude Specs Order Graph Cfg CfgTree CfgTreeFacts CfgDominators CfgLoops CfgAnalyze CfgTheorems Ssa SsaFacts SsaRename.

(** ** Executions *)

(** What a variable or a version holds: nothing yet, the value on entry, or
    the value of the [time]-th definition executed. *)
Inductive value (V : Type) : Type :=
  | Unset
  | Initial (variable : V)
  | Instance (time : nat).
Arguments Unset {V}.
Arguments Initial {V} variable.
Arguments Instance {V} time.

Section executions.
Context {V D U : Type} `{Countable V, !Ord V, Countable D, Countable U}.
Abbreviation event := (Event V D U).
Abbreviation version := (Version V D).

Record source_state : Type := Src {
  src_time : nat;
  src_last : V -> value V;
  src_trace : list (U * value V) }.

Definition source_event (st : source_state) (e : event) : source_state :=
  match e with
  | UseEvent v u => Src (src_time st) (src_last st) (src_trace st ++ [(u, src_last st v)])
  | DefEvent v _ => Src (S (src_time st)) (<[v := Instance (src_time st)]> (src_last st)) (src_trace st)
  end.

Definition source_block (events : list (list event)) (st : source_state) (b : nat) : source_state :=
  foldl source_event st (row_at events b).

(** What the uses on a path read. *)
Definition source_reads (events : list (list event)) (path : list nat) : list (U * value V) :=
  src_trace (foldl (source_block events) (Src 0 Initial []) path).

Record ssa_state : Type := Sst {
  sst_time : nat;
  sst_env : version -> value V;
  sst_trace : list (U * value V);
  sst_block : option nat }.

Definition ssa_event (s : SparseSsa V D U) (st : ssa_state) (e : event) : ssa_state :=
  match e with
  | UseEvent _ u =>
      match ssa_uses s !! u with
      | Some x => Sst (sst_time st) (sst_env st) (sst_trace st ++ [(u, sst_env st x)]) (sst_block st)
      | None => st
      end
  | DefEvent v d => Sst (S (sst_time st)) (<[DefVersion v d := Instance (sst_time st)]> (sst_env st)) (sst_trace st) (sst_block st)
  end.

(** The input of the phi of [v] at [b] on the edge from [p]. *)
Definition phi_choice (s : SparseSsa V D U) (v : V) (b p : nat) : option version :=
  '(_, phi) ← list_find (fun phi => phi_variable phi = v /\ phi_block phi = b) (ssa_phis s);
  '(_, (_, x)) ← list_find (fun px : nat * version => px.1 = p) (phi_inputs phi);
  Some x.

(** All phis of a block take their values at once. *)
Definition enter_phis (s : SparseSsa V D U) (b p : nat) (env : version -> value V) : version -> value V := fun x =>
  match x with
  | PhiVersion v c => if decide (c = b) then from_option env (env x) (phi_choice s v b p) else env x
  | _ => env x
  end.

Definition ssa_block_step (s : SparseSsa V D U) (events : list (list event)) (st : ssa_state) (b : nat) : ssa_state :=
  let env := match sst_block st with Some p => enter_phis s b p (sst_env st) | None => sst_env st end in
  foldl (ssa_event s) (Sst (sst_time st) env (sst_trace st) (Some b)) (row_at events b).

(** Only the versions of entry hold a value at first. *)
Definition initial_env (x : version) : value V := match x with EntryVersion v => Initial v | _ => Unset end.

Definition ssa_reads (s : SparseSsa V D U) (events : list (list event)) (path : list nat) : list (U * value V) :=
  sst_trace (foldl (ssa_block_step s events) (Sst 0 initial_env [] None) path).

(** ** Versions across edges *)

Section edges.
Context (g : graph) (root : nat) (t : DominatorTree) (Hdt : dominator_tree g root t) (Hall : forall b, (b < length g)%nat -> reachable g root b).
Context (events : list (list event)) (P : gset (nat * V)) (HP : forall b v, (b, v) ∈ P <-> placed g root t events v b).
Context (Hentry : forall p, ~ edge g p root).
Abbreviation vin := (versions_in t events P).
Abbreviation vout := (versions_out t events P).
Abbreviation above := (above (idom t)).
Implicit Types (b p q s x : nat) (v : V).

Lemma block_defines_row v b : block_defines events v b <-> defines v (row_at events b).
Proof.
  unfold block_defines, row_at. destruct (events !! b) as [row|]; cbn.
  - split; [by intros (r & [= <-] & Hd)|intros Hd; by exists row].
  - split; [by intros (r & ? & _)|intros (d & Hd); by apply not_elem_of_nil in Hd].
Qed.

(** A block that defines nothing passes its versions on. *)
Lemma quiet_block v x : ~ block_defines events v x -> (x, v) ∉ P -> vout x v = vin x v.
Proof.
  intros Hd Hp. unfold versions_out, versions_after. rewrite foldl_assign_none by (by rewrite <- block_defines_row). unfold phi_assign. by rewrite decide_False.
Qed.

Lemma edge_index p s : edge g p s -> (p < length g)%nat /\ (s < length g)%nat.
Proof. intros He. split; [destruct He as (row & Hrow & _); eauto with index|by apply (dt_closed _ _ _ Hdt p)]. Qed.

(** Without a phi, a variable live across an edge has the same version at its
    two ends. *)
Lemma version_across p s v : edge g p s -> live g events v s -> ~ placed g root t events v s -> vin s v = vout p v.
Proof.
  intros He Hl Hno. destruct (edge_index p s He) as [Hpn Hsn]. pose proof (Hall p Hpn) as Hpr.
  assert (Hsa : above root s) by (by apply (dt_reachable _ _ _ Hdt), Hall). inversion Hsa as [|? q Hq Hqr]; subst; [by destruct (Hentry p)|].
  rewrite (versions_child _ _ _ Hdt Hall events P s q Hq).
  assert (Hgo : forall x, above q x -> above x p -> vout x v = vout q v).
  { induction 1 as [|x y Hy Hqy IH]; intros Hxp; [done|].
    assert (Hyx : above y x) by (econstructor; [exact Hy|constructor]).
    assert (Hnot : ~ strictly_above t x s).
    { intros Hx. apply (strictly_above_parent g root t Hdt x s q Hqr Hq) in Hx. apply (parent_not_above g root t Hdt x y); [|done|by eapply above_trans].
      eapply above_trans; [exact Hqr|done]. }
    assert (Hfr : in_frontier g root t x s) by (by exists p).
    rewrite quiet_block, (versions_child _ _ _ Hdt Hall events P x y Hy); [apply IH; by eapply above_trans| |].
    - intros Hd. apply Hno. by eapply placed_def.
    - rewrite HP. intros Hp. apply Hno. by eapply placed_phi. }
  symmetry. apply Hgo; [by eapply (idom_predecessor g root t Hdt)|constructor].
Qed.
End edges.

(** ** The simulation *)

Section simulation.
Context {C : Type} `{SsaCfg C} (cfg : C) (t : DominatorTree) (Hlaw : lawful cfg t) (events : list (list event)) (P : gset (nat * V)) (s : SparseSsa V D U).
Abbreviation g := (cfg_successors cfg).
Abbreviation root := (cfg_root cfg).
Abbreviation n := (length (cfg_successors cfg)).
Context (Hform : ssa_form cfg t events P s) (Hentry : forall p, ~ edge g p root).
Abbreviation vin := (versions_in t events P).
Abbreviation vafter := (versions_after t events P).
Abbreviation vout := (versions_out t events P).
Implicit Types (b p x : nat) (v w : V) (u : U) (pre post row : list event) (src : source_state) (st : ssa_state).

(** [v] is read before it is defined in [post] or after the block. *)
Definition needed v b post : Prop := exposed v post \/ (~ defines v post /\ exists x, edge g b x /\ live g events v x).

Lemma needed_live v b : (b < n)%nat -> needed v b (row_at events b) -> live g events v b.
Proof.
  intros Hb [He|[Hd (x & Hx & Hl)]].
  - apply live_use. unfold block_exposes, row_at in *. destruct (events !! b) as [row|]; [by exists row|]. destruct He as ([|] & ? & ? & ? & _); discriminate.
  - eapply live_edge; [done| |done]. by rewrite block_defines_row.
Qed.

Lemma exposed_cons v e row : exposed v (e :: row) <-> (exists u, e = UseEvent v u) \/ (~ (exists d, e = DefEvent v d) /\ exposed v row).
Proof.
  unfold exposed, defines. split.
  - intros ([|e' pre] & u & post & [= -> Heq] & Hno); [left; by exists u|right]. split.
    + intros [d ->]. apply Hno. exists d. by left.
    + exists pre, u, post. split; [done|]. intros [d Hd]. apply Hno. exists d. by right.
  - intros [[u ->]|[Hno (pre & u & post & -> & Hpre)]]; [exists [], u, row; split; [done|]; by intros (? & ?%not_elem_of_nil)|].
    exists (e :: pre), u, post. split; [done|]. intros (d & [<-|Hd]%elem_of_cons); [apply Hno; by exists d|apply Hpre; by exists d].
Qed.

Lemma defines_cons v e row : defines v (e :: row) <-> (exists d, e = DefEvent v d) \/ defines v row.
Proof. unfold defines. setoid_rewrite elem_of_cons. naive_solver. Qed.

Lemma needed_cons v b e post : ~ (exists d, e = DefEvent v d) -> needed v b post -> needed v b (e :: post).
Proof.
  intros He [Hx|[Hd Hs]].
  - left. apply exposed_cons. by right.
  - right. split; [|done]. rewrite defines_cons. tauto.
Qed.

(** Both executions are in block [b] after the events [pre]. *)
Record related b pre post src st : Prop := {
  rl_time : src_time src = sst_time st;
  rl_trace : src_trace src = sst_trace st;
  rl_block : sst_block st = Some b;
  rl_values v : needed v b post -> sst_env st (vafter b pre v) = src_last src v }.

Lemma related_event b pre e post src st : (b < n)%nat -> row_at events b = pre ++ e :: post -> related b pre (e :: post) src st ->
  related b (pre ++ [e]) post (source_event src e) (ssa_event s st e).
Proof.
  intros Hb Hrow [Ht Htr Hbl Hv]. destruct e as [w u|w d]; cbn [source_event ssa_event].
  - assert (Hx : ssa_uses s !! u = Some (vafter b pre w)).
    { apply (sf_uses _ _ _ _ _ Hform). exists b. split; [done|]. rewrite Hrow. apply use_versions_at. }
    rewrite Hx. split; cbn; [done| |done|].
    + rewrite Htr, Hv; [done|]. left. apply exposed_cons. left. by exists u.
    + intros v Hn. rewrite versions_after_snoc. cbn [event_assign]. apply Hv. apply needed_cons; [by intros [d Hd]|done].
  - split; cbn; [by rewrite Ht|done|done|]. intros v Hn. rewrite versions_after_snoc. cbn [event_assign]. destruct (decide (w = v)) as [->|Hne].
    + by rewrite !fn_lookup_insert, Ht.
    + rewrite !(fn_lookup_insert_ne (src_last src)), (fn_lookup_insert_ne (vafter b pre)) by done. rewrite fn_lookup_insert_ne.
      * apply Hv. apply needed_cons; [by intros [d' [= ->]]|done].
      * intros Heq. apply Hne. pose proof (versions_after_variable t events P b pre v) as Hvar. rewrite <- Heq in Hvar. done.
Qed.

Lemma related_events b pre post src st : (b < n)%nat -> row_at events b = pre ++ post -> related b pre post src st ->
  related b (row_at events b) [] (foldl source_event src post) (foldl (ssa_event s) st post).
Proof.
  intros Hb. revert pre src st. induction post as [|e post IH]; intros pre src st Hrow Hr; cbn [foldl].
  - rewrite app_nil_r in Hrow. by rewrite Hrow.
  - apply (IH (pre ++ [e])); [by rewrite <- app_assoc|]. by apply related_event.
Qed.

(** A phi takes the version that leaves the predecessor. *)
Lemma phi_choice_spec v b p : (b, v) ∈ P -> edge g p b -> phi_choice s v b p = Some (vout p v).
Proof.
  intros HbP He. unfold phi_choice. rewrite (sf_phis _ _ _ _ _ Hform). apply elem_of_ascending in HbP as Hin. apply list_elem_of_lookup in Hin as [k Hk].
  assert (Hphi : is_Some (list_find (fun phi => phi_variable phi = v /\ phi_block phi = b) (phi_of (final_inputs cfg t events P) <$> ascending P))).
  { eapply list_find_elem_of; [apply list_elem_of_fmap_2, elem_of_ascending, HbP|done]. }
  destruct Hphi as [[i phi] Hphi]. rewrite Hphi. apply list_find_Some in Hphi as (Hphi & [Hv Hb] & _). apply list_lookup_fmap_Some in Hphi as ([b' v'] & -> & _). cbn in Hv, Hb. subst b' v'.
  msimpl. unfold phi_of. cbn [phi_inputs fst snd]. unfold final_inputs.
  assert (Hp : p ∈ row_of (cfg_predecessors cfg) b) by (rewrite <- edge_row; by apply (proj2 (lw_reverses _ _ Hlaw))).
  assert (Hi : is_Some (list_find (fun px : nat * version => px.1 = p) ((fun p => (p, vout p v)) <$> row_of (cfg_predecessors cfg) b))).
  { eapply list_find_elem_of; [by apply (list_elem_of_fmap_2 (fun p => (p, vout p v))), Hp|done]. }
  destruct Hi as [[j [p' x]] Hi]. rewrite Hi. apply list_find_Some in Hi as (Hi & Hpp & _). cbn in Hpp. subst p'. apply list_lookup_fmap_Some in Hi as (q & [= -> ->] & _). done.
Qed.

(** Versions of phis exist only where phis are. *)
Lemma version_phi_placed b v w x : vin b v = PhiVersion w x -> (x, w) ∈ P.
Proof.
  unfold versions_in. generalize (default 0%nat (mjoin (depth t !! b))). intros k. revert b v. induction k as [|k IH]; intros b v; cbn [assign_from]; [done|].
  destruct (mjoin (idom t !! b)) as [q|]; [|done]. unfold block_assign.
  assert (Hgo : forall row a, (forall v, a v = PhiVersion w x -> (x, w) ∈ P) -> foldl event_assign a row v = PhiVersion w x -> (x, w) ∈ P).
  { induction row as [|e row IHr]; intros a Ha; cbn [foldl]; [apply Ha|]. apply IHr. intros v'. destruct e as [|w' d]; cbn [event_assign]; [apply Ha|].
    destruct (decide (w' = v')) as [->|?]; [by rewrite fn_lookup_insert|rewrite fn_lookup_insert_ne by done; apply Ha]. }
  apply Hgo. intros v'. unfold phi_assign. case_decide as Hp; [by intros [= -> ->]|apply IH].
Qed.

Lemma related_enter p b src st : edge g p b -> related p (row_at events p) [] src st ->
  related b [] (row_at events b) src (Sst (sst_time st) (enter_phis s b p (sst_env st)) (sst_trace st) (Some b)).
Proof.
  intros He [Ht Htr Hbl Hv]. pose proof (lw_tree _ _ Hlaw) as Hdt. destruct (edge_index g root t Hdt p b He) as [Hp Hb].
  split; cbn; [done..|]. intros v Hn. pose proof (needed_live v b Hb Hn) as Hl.
  assert (Hlast : sst_env st (vout p v) = src_last src v).
  { apply Hv. right. split; [by intros (d & ?%not_elem_of_nil)|]. by exists b. }
  rewrite <- Hlast. unfold versions_after. cbn [foldl]. unfold phi_assign. case_decide as HbP.
  - cbn [enter_phis]. rewrite decide_True by done. by rewrite (phi_choice_spec v b p HbP He).
  - assert (Hvin : vin b v = vout p v).
    { apply (version_across g root t Hdt (lw_reachable _ _ Hlaw) events P (sf_placed _ _ _ _ _ Hform) Hentry); [done..|]. by rewrite <- (sf_placed _ _ _ _ _ Hform). }
    rewrite <- Hvin. destruct (vin b v) as [w|w d|w x] eqn:Hx; [done..|]. cbn [enter_phis]. case_decide as Hxb; [|done]. subst x.
    exfalso. apply HbP. assert (Hw : w = v) by (pose proof (versions_in_variable t events P b v) as Hvar; by rewrite Hx in Hvar). subst w. by apply (version_phi_placed b v).
Qed.

(** One block after another. *)
Lemma related_path l p b src st : path g p l b -> related p (row_at events p) [] src st ->
  exists b', related b' (row_at events b') [] (foldl (source_block events) src (tail l)) (foldl (ssa_block_step s events) st (tail l)).
Proof.
  intros Hp. revert src st. induction Hp as [p|p q b l He Hp IH]; intros src st Hr; [by exists p|].
  cbn [tail]. destruct l as [|q' l]; [inversion Hp|]. assert (q' = q) as -> by (by inversion Hp). cbn [foldl]. apply IH.
  unfold source_block at 1, ssa_block_step at 1. rewrite (rl_block _ _ _ _ _ Hr).
  apply (related_events q []); [apply (edge_index g root t (lw_tree _ _ Hlaw) p q He)|done|]. by apply (related_enter p).
Qed.

Lemma reads_equal l b : path g root l b -> source_reads events l = ssa_reads s events l.
Proof.
  intros Hp. unfold source_reads, ssa_reads. destruct l as [|r l]; [inversion Hp|]. assert (r = root) as -> by (by inversion Hp).
  pose proof (dt_root _ _ _ (lw_tree _ _ Hlaw)) as Hroot.
  assert (Hstart : related root (row_at events root) [] (source_block events (Src 0 Initial []) root) (ssa_block_step s events (Sst 0 initial_env [] None) root)).
  { apply (related_events root []); [done|done|]. split; cbn; [done..|]. intros v Hn. unfold versions_after. cbn [foldl]. unfold phi_assign.
    rewrite decide_False; [by rewrite (versions_root _ _ _ (lw_tree _ _ Hlaw))|].
    rewrite (sf_placed _ _ _ _ _ Hform). intros Hpl. assert (Hfr : exists x, in_frontier g root t x root) by (inversion Hpl; subst; by eexists).
    destruct Hfr as (x & q & _ & _ & He & _). by apply (Hentry q). }
  destruct (related_path _ _ _ _ _ Hp Hstart) as (b' & Hr). exact (rl_trace _ _ _ _ _ Hr).
Qed.
End simulation.
End executions.
