(* ===== verification/SsaTheorems.v ===== *)
(** * SsaTheorems: SSA construction on an analysed graph

    The guarantees of [Ssa.build] for the graphs [ControlFlowGraph::analyze]
    accepts, stated over the graph that was analysed. *)

From S2P Require Import Prelude Specs Order Graph Cfg CfgTree CfgTreeFacts CfgDominators CfgLoops CfgAnalyze CfgTheorems Ssa SsaFacts SsaRename SsaPaths.

Section theorems.
Context {V D U : Type} `{Countable V, !Ord V, Countable D, Countable U}.
Abbreviation event := (Event V D U).
Implicit Types (g : graph) (root b p x : nat) (v : V) (events : list (list event)).

(** [b] has a predecessor that [x] dominates, and is not strictly dominated
    by it. *)
Definition frontier_of g root x b : Prop :=
  exists p, edge g p b /\ dominates_spec g root x p /\ ~ (x <> b /\ dominates_spec g root x b).

(** The phis of pruned SSA form: the iterated dominance frontier of the
    definitions, where the variable is live. *)
Inductive phi_needed g root events v : nat -> Prop :=
  | needed_def x b : block_defines events v x -> frontier_of g root x b -> live g events v b -> phi_needed g root events v b
  | needed_phi x b : phi_needed g root events v x -> frontier_of g root x b -> live g events v b -> phi_needed g root events v b.

Section analysed.
Context (g : graph) (root : nat) (c : ControlFlowGraph) (Hc : analyze g root = Ok c).

Lemma analysed_complete : complete_ok g root true c.
Proof. pose proof (analysis_spec true g root) as Hs. unfold analysis in Hs. by rewrite Hc in Hs. Qed.

Lemma analysed_view : lawful c (fwd_dominators (cfg_forward c)) /\ cfg_root c = root /\ length (cfg_successors c) = length g /\ forall a b, edge (cfg_successors c) a b <-> edge g a b.
Proof.
  pose proof analysed_complete as Hok. split; [by eapply analysed_lawful|]. split; [apply (fo_root _ _ _ _ (co_forward _ _ _ _ Hok))|].
  split; [exact (table_length _ _ _ _ Hok)|exact (table_edge _ _ _ _ Hok)].
Qed.

Lemma live_same h k events v b : (forall x y, edge h x y <-> edge k x y) -> live h events v b -> live k events v b.
Proof. intros He. induction 1; [by apply live_use|eapply live_edge; [by apply He|done..]]. Qed.

Lemma placed_needed events v b : placed (cfg_successors c) (cfg_root c) (fwd_dominators (cfg_forward c)) events v b <-> phi_needed g root events v b.
Proof.
  destruct analysed_view as (Hlaw & Hroot & Hlen & He). pose proof (table_in_frontier _ _ _ _ analysed_complete) as Hfr.
  assert (Hf : forall x s, in_frontier (cfg_successors c) (cfg_root c) (fwd_dominators (cfg_forward c)) x s <-> frontier_of g root x s) by (intros x s; rewrite Hroot; apply Hfr).
  assert (Hl : forall s, live (cfg_successors c) events v s <-> live g events v s) by (intros s; split; apply live_same; intros; by rewrite He).
  split; induction 1 as [x s Hx Hs Hv|x s _ IH Hs Hv]; apply Hf in Hs; apply Hl in Hv;
    [by eapply needed_def|by eapply needed_phi|by eapply placed_def|by eapply placed_phi].
Qed.
End analysed.

(** C23: On an analysed graph SSA construction succeeds exactly when there is
    one row of events per block and no use identity and no definition of a
    variable occurs twice; otherwise it reports the shape, or the first event
    that repeats an identity, and it never panics or fails during renaming. *)
Theorem build_outcome g root c events (Hc : analyze g root = Ok c) :
  match build c events with
  | Ok s => length events = length g /\ NoDup (row_uses (concat events)) /\ NoDup (row_defs (concat events))
  | Err err => (err = MkSsaError ModelShape None /\ length events <> length g) \/ (length events = length g /\ repeated events err)
  | Panic => False
  end.
Proof.
  destruct (analysed_view g root c Hc) as (Hlaw & _ & Hlen & _). pose proof (ssa_build_spec c _ Hlaw events) as Hs. rewrite <- Hlen.
  destruct (build c events) as [s|err|]; cbn in Hs; [|done..]. by destruct Hs as (? & ? & _).
Qed.

(** C13: SSA form preserves the data flow of every execution: along any path
    from the root, each use reads in SSA form, through its version and the phi
    inputs of the edges taken, the very definition instance -- or entry value
    -- that its variable held in the source. The root must have no
    predecessors. *)
Theorem build_preserves_reads g root c events (s : SparseSsa V D U) l b (Hc : analyze g root = Ok c) (Hb : build c events = Ok s)
    (Hentry : forall p, ~ edge g p root) (Hl : path g root l b) : source_reads events l = ssa_reads s events l.
Proof.
  destruct (analysed_view g root c Hc) as (Hlaw & Hroot & Hlen & He). pose proof (ssa_build_spec c _ Hlaw events) as Hs. rewrite Hb in Hs.
  destruct Hs as (_ & _ & P & Hform). apply (reads_equal c _ Hlaw events P s Hform) with (b := b); rewrite Hroot.
  - intros p Hp%He. by apply (Hentry p).
  - eapply path_same_edges; [|exact Hl]. intros x y. by rewrite He.
Qed.

(** C14: SSA form has a phi for a variable at a block exactly when the block is
    in the iterated dominance frontier of its definitions and needs the
    variable (pruned SSA form); each phi occurs once and has one input per
    predecessor, in order. *)
Theorem build_phis g root c events (s : SparseSsa V D U) (Hc : analyze g root = Ok c) (Hb : build c events = Ok s) :
  (forall v b, (exists phi, phi ∈ ssa_phis s /\ phi_variable phi = v /\ phi_block phi = b) <-> phi_needed g root events v b) /\
  NoDup ((fun phi => (phi_block phi, phi_variable phi)) <$> ssa_phis s) /\
  forall phi, phi ∈ ssa_phis s -> phi_version phi = PhiVersion (phi_variable phi) (phi_block phi) /\
    StronglySorted Nat.lt (phi_inputs phi).*1 /\ forall p, p ∈ (phi_inputs phi).*1 <-> edge g p (phi_block phi).
Proof.
  destruct (analysed_view g root c Hc) as (Hlaw & Hroot & Hlen & He). pose proof (ssa_build_spec c _ Hlaw events) as Hs. rewrite Hb in Hs.
  destruct Hs as (_ & _ & P & Hform). rewrite (sf_phis _ _ _ _ _ Hform).
  assert (Hin : forall phi, phi ∈ phi_of (final_inputs c (fwd_dominators (cfg_forward c)) events P) <$> ascending P <->
    exists b v, phi = phi_of (final_inputs c (fwd_dominators (cfg_forward c)) events P) (b, v) /\ (b, v) ∈ P).
  { intros phi. rewrite list_elem_of_fmap. setoid_rewrite elem_of_ascending. split; [intros ([b v] & ? & ?); by exists b, v|intros (b & v & ? & ?); by exists (b, v)]. }
  split; [|split].
  - intros v b. rewrite <- (placed_needed g root c Hc), <- (sf_placed _ _ _ _ _ Hform). split.
    + intros (phi & (b' & v' & -> & Hbv)%Hin & <- & <-). done.
    + intros Hbv. eexists. split; [apply Hin; by exists b, v|done].
  - rewrite <- list_fmap_compose. rewrite (list_fmap_ext _ id); [rewrite list_fmap_id; apply NoDup_ascending|]. by intros _ [b v] _.
  - intros phi (b & v & -> & Hbv)%Hin. cbn [phi_of phi_version phi_variable phi_block phi_inputs fst snd]. split; [done|]. unfold final_inputs.
    assert (Hkeys : ((fun p => (p, versions_out (fwd_dominators (cfg_forward c)) events P p v)) <$> row_of (cfg_predecessors c) b).*1 = row_of (cfg_predecessors c) b)
      by (rewrite <- list_fmap_compose; apply list_fmap_id).
    rewrite Hkeys. split.
    + unfold row_of. destruct (cfg_predecessors c !! b) as [row|] eqn:Hrow; [by apply (lw_incoming _ _ Hlaw b)|constructor].
    + intros p. rewrite <- edge_row, (proj2 (lw_reverses _ _ Hlaw)). apply He.
Qed.
End theorems.

(** ** An instance *)

Definition sample_graph : graph := [[1]; [2; 3]; [1]; []]%nat.
Definition sample_rows : list (list (Event nat nat nat)) := [[DefEvent 1 0]; [UseEvent 1 10]; [DefEvent 1 20]; [UseEvent 1 30]]%nat.

Lemma sample_entry : forall p, ~ edge sample_graph p 0.
Proof. intros p (row & Hrow & Hin). do 4 (destruct p as [|p]; [injection Hrow as <-; set_solver|]). done. Qed.

Lemma sample_edge a b row : sample_graph !! a = Some row -> bool_decide (b ∈ row) = true -> edge sample_graph a b.
Proof. intros Hrow Hin. exists row. split; [done|by apply bool_decide_eq_true in Hin]. Qed.

Lemma sample_path : path sample_graph 0 [0; 1; 2; 1; 3]%nat 3.
Proof.
  apply (path_step _ _ 1%nat); [by eapply sample_edge|]. apply (path_step _ _ 2%nat); [by eapply sample_edge|].
  apply (path_step _ _ 1%nat); [by eapply sample_edge|]. apply (path_step _ _ 3%nat); [by eapply sample_edge|]. apply path_one.
Qed.

Lemma build_outcome_witness : exists c, analyze sample_graph 0 = Ok c /\
  match build c sample_rows with
  | Ok s => length sample_rows = length sample_graph /\ NoDup (row_uses (concat sample_rows)) /\ NoDup (row_defs (concat sample_rows))
  | Err err => (err = MkSsaError ModelShape None /\ length sample_rows <> length sample_graph) \/ (length sample_rows = length sample_graph /\ repeated sample_rows err)
  | Panic => False
  end.
Proof.
  destruct (analyze sample_graph 0) as [c| |] eqn:Hc; [|vm_compute in Hc; discriminate..]. exists c. split; [reflexivity|].
  exact (build_outcome sample_graph 0 c sample_rows Hc).
Defined.

Lemma sample_built : exists c s, analyze sample_graph 0 = Ok c /\ build c sample_rows = Ok s.
Proof. eexists _, _. split; vm_compute; reflexivity. Qed.

Lemma build_preserves_reads_witness : exists c s, analyze sample_graph 0 = Ok c /\ build c sample_rows = Ok s /\
  source_reads sample_rows [0; 1; 2; 1; 3]%nat = ssa_reads s sample_rows [0; 1; 2; 1; 3]%nat.
Proof.
  destruct sample_built as (c & s & Hc & Hs). exists c, s. split; [exact Hc|]. split; [exact Hs|].
  apply (build_preserves_reads sample_graph 0 c sample_rows s [0; 1; 2; 1; 3]%nat 3 Hc Hs sample_entry). exact sample_path.
Defined.

Lemma build_phis_witness : exists c s, analyze sample_graph 0 = Ok c /\ build c sample_rows = Ok s /\
  forall v b, (exists phi, phi ∈ ssa_phis s /\ phi_variable phi = v /\ phi_block phi = b) <-> phi_needed sample_graph 0 sample_rows v b.
Proof.
  destruct sample_built as (c & s & Hc & Hs). exists c, s. split; [exact Hc|]. split; [exact Hs|].
  exact (proj1 (build_phis sample_graph 0 c sample_rows s Hc Hs)).
Defined.

(** The loop reads the definition before it, then its own. *)
Example sample_reads : source_reads sample_rows [0; 1; 2; 1; 3]%nat = [(10, Instance 0); (10, Instance 1); (30, Instance 1)]%nat.
Proof. vm_compute. reflexivity. Qed.

(** A root with predecessors loses the entry value: its phi has an input for
    the back edge only, so the first read finds no value in SSA form. *)
Example entry_value_lost :
  match analyze [[0]]%nat 0 with
  | Ok c => let rows := [[UseEvent 1 1; DefEvent 1 2]]%nat in
      match build c rows with
      | Ok s => (source_reads rows [0; 0]%nat, ssa_reads s rows [0; 0]%nat) =
          ([(1, Initial 1); (1, Instance 0)], [(1, Unset); (1, Instance 0)])%nat
      | _ => False
      end
  | _ => False
  end.
Proof. vm_compute. reflexivity. Qed.
