(* ===== verification/MemorySsa.v ===== *)
(** * MemorySsa: access-based memory SSA and the clobber walk

    Models [crates/celox-analysis/src/memory_ssa.rs]: the graph of memory
    definitions and phis, the coordinates of program points in it, [build] on
    top of [Ssa.build] with one variable for the whole memory, and the
    iterative clobber walk with its marks kept by epoch. An access id is a
    position of the node table. *)

From S2P Require Import Prelude Order Graph Cfg CfgTree CfgLoops Ssa.

(** ** Data *)

Record MemoryAccessEvent (D P : Type) : Type := MkAccessEvent { point : P; event_definition : option D }.
Arguments MkAccessEvent {D P} point event_definition.
Arguments point {D P} m.
Arguments event_definition {D P} m.

Record MemoryPointAccess : Type := PointAccess { before : nat; after : nat }.

Record MemoryPointMap (P : Type) `{Countable P} : Type := MkPointMap {
  mp_events : gmap P MemoryPointAccess;
  block_entries : list nat;
  block_exits : list nat }.
Arguments MkPointMap {P _ _} mp_events block_entries block_exits.
Arguments mp_events {P _ _} m.
Arguments block_entries {P _ _} m.
Arguments block_exits {P _ _} m.

Definition event_access {P} `{Countable P} (m : MemoryPointMap P) (p : P) : option MemoryPointAccess := mp_events m !! p.
Definition block_entry {P} `{Countable P} (m : MemoryPointMap P) (block : nat) : option nat := block_entries m !! block.
Definition block_exit {P} `{Countable P} (m : MemoryPointMap P) (block : nat) : option nat := block_exits m !! block.

(** [MemoryAccessNode], and [MemoryAccess], its borrowed view. *)
Inductive MemoryAccessNode (D : Type) : Type :=
  | LiveOnEntry
  | DefinitionNode (definition : D) (previous : nat)
  | PhiNode (block : nat) (inputs : list (nat * nat)).
Arguments LiveOnEntry {D}.
Arguments DefinitionNode {D} definition previous.
Arguments PhiNode {D} block inputs.

Record MemoryAccessGraph (D : Type) : Type := MkAccessGraph {
  nodes : list (MemoryAccessNode D);
  definition_count : nat;
  phi_count : nat }.
Arguments MkAccessGraph {D} nodes definition_count phi_count.
Arguments nodes {D} m.
Arguments definition_count {D} m.
Arguments phi_count {D} m.

Definition access {D} (g : MemoryAccessGraph D) (a : nat) : option (MemoryAccessNode D) := nodes g !! a.
Definition access_count {D} (g : MemoryAccessGraph D) : nat := length (nodes g).

(** ** Building the graph *)

Inductive MemorySsaRule : Type :=
  | FromSsa (rule : SsaRule)
  | MemoryModelShape | UseIdRange | PointIdentity | MemoryDefinitionIdentity | PhiIdentity | DefinitionPredecessor
  | PointVersion | PointAccessIdentity | DefinitionAccess | PhiAccess.

Record MemorySsaError : Type := MkMemoryError { memory_rule : MemorySsaRule; memory_block : option nat }.

(** [impl From<ssa::SsaError>], applied by [?]. *)
Definition from_ssa_error (e : SsaError) : MemorySsaError := MkMemoryError (FromSsa (ssa_rule e)) (ssa_block e).
Definition lift_ssa {A} (r : ssa_result A) : result MemorySsaError A :=
  match r with Ok a => Ok a | Err e => Err (from_ssa_error e) | Panic => Panic end.

Record PendingPoint (D P : Type) : Type := MkPendingPoint { pp_point : P; before_usage : Z; pp_definition : option D }.
Arguments MkPendingPoint {D P} pp_point before_usage pp_definition.
Arguments pp_point {D P} p.
Arguments before_usage {D P} p.
Arguments pp_definition {D P} p.

Record PendingDefinition (D : Type) : Type := MkPendingDefinition { pd_definition : D; predecessor_usage : Z }.
Arguments MkPendingDefinition {D} pd_definition predecessor_usage.
Arguments pd_definition {D} p.
Arguments predecessor_usage {D} p.

#[global] Instance unit_ord : Ord unit.
Proof. refine (Build_Ord unit (fun _ _ => True) (fun _ _ => left I) (fun _ _ => or_introl I) (fun _ _ _ _ _ => I) _). by intros [] []. Defined.

Section memory.
Context {D P : Type} `{Countable D, Countable P}.
Abbreviation mresult := (result MemorySsaError).
Abbreviation mem_event := (Event unit D Z).
Abbreviation mem_version := (Version unit D).

Record collected : Type := Collected {
  pending_points : list (PendingPoint D P);
  pending_definitions : list (PendingDefinition D);
  point_ids : gset P;
  next_usage : Z }.

Definition allocate_usage (c : collected) : mresult (Z * collected) :=
  match checked_add (next_usage c) 1 with
  | Some next => Ok (next_usage c, Collected (pending_points c) (pending_definitions c) (point_ids c) next)
  | None => Err (MkMemoryError UseIdRange None)
  end.

(** One event: its use, and its definition if it has one. *)
Definition collect_event (block : nat) (rc : list mem_event * collected) (e : MemoryAccessEvent D P) : mresult (list mem_event * collected) :=
  let '(row, c) := rc in
  if decide (point e ∈ point_ids c) then Err (MkMemoryError PointIdentity (Some block)) else
  uc ← allocate_usage (Collected (pending_points c) (pending_definitions c) ({[point e]} ∪ point_ids c) (next_usage c));
  let row := row ++ [UseEvent () uc.1] in
  let points := pending_points c ++ [MkPendingPoint (point e) uc.1 (event_definition e)] in
  match event_definition e with
  | Some definition =>
      Ok (row ++ [DefEvent () definition],
          Collected points (pending_definitions c ++ [MkPendingDefinition definition uc.1]) (point_ids uc.2) (next_usage uc.2))
  | None => Ok (row, Collected points (pending_definitions c) (point_ids uc.2) (next_usage uc.2))
  end.

Record usage_tables : Type := Tables {
  table_rows : list (list mem_event);
  block_entry_usages : list Z;
  block_exit_usages : list Z }.

(** A block: a use at its entry, its events and a use at its exit. *)
Definition collect_block (tc : usage_tables * collected) (be : nat * list (MemoryAccessEvent D P)) : mresult (usage_tables * collected) :=
  let '(tables, c) := tc in
  entry ← allocate_usage c;
  rc ← foldM (collect_event be.1) ([UseEvent () entry.1], entry.2) be.2;
  exit ← allocate_usage rc.2;
  Ok (Tables (table_rows tables ++ [rc.1 ++ [UseEvent () exit.1]]) (block_entry_usages tables ++ [entry.1]) (block_exit_usages tables ++ [exit.1]), exit.2).

Definition collect (memory_events : list (list (MemoryAccessEvent D P))) : mresult (usage_tables * collected) :=
  foldM collect_block (Tables [] [] [], Collected [] [] ∅ 0) (enumerate memory_events).

(** The table of definitions and that of phis, by block. *)
Definition add_definition (t : gmap D nat) (ip : nat * PendingDefinition D) : mresult (gmap D nat) :=
  if decide (pd_definition ip.2 ∈ dom t) then Err (MkMemoryError MemoryDefinitionIdentity None)
  else Ok (<[pd_definition ip.2 := (ip.1 + 1)%nat]> t).

Definition add_phi_access (phi_start : nat) (t : gmap nat nat) (ip : nat * Phi unit D) : mresult (gmap nat nat) :=
  if decide (phi_block ip.2 ∈ dom t) then Err (MkMemoryError PhiIdentity (Some (phi_block ip.2)))
  else Ok (<[phi_block ip.2 := (phi_start + ip.1)%nat]> t).

Definition access_for_version (definitions : gmap D nat) (phis : gmap nat nat) (v : mem_version) : mresult nat :=
  match v with
  | EntryVersion _ => Ok O
  | DefVersion _ definition => ok_or (MkMemoryError DefinitionAccess None) (definitions !! definition)
  | PhiVersion _ block => ok_or (MkMemoryError PhiAccess (Some block)) (phis !! block)
  end.

(** The two [debug_assert_eq] of node positions panic. *)
Definition definition_node (definitions : gmap D nat) (phis : gmap nat nat) (uses : gmap Z mem_version)
    (nodes : list (MemoryAccessNode D)) (d : PendingDefinition D) : mresult (list (MemoryAccessNode D)) :=
  access ← expect (definitions !! pd_definition d);
  version ← ok_or (MkMemoryError DefinitionPredecessor None) (uses !! predecessor_usage d);
  previous ← access_for_version definitions phis version;
  if decide (length nodes = access) then Ok (nodes ++ [DefinitionNode (pd_definition d) previous]) else Panic.

Definition phi_input_access (definitions : gmap D nat) (phis : gmap nat nat) (input : nat * mem_version) : mresult (nat * nat) :=
  access ← access_for_version definitions phis input.2; Ok (input.1, access).

Definition phi_node (definitions : gmap D nat) (phis : gmap nat nat)
    (nodes : list (MemoryAccessNode D)) (phi : Phi unit D) : mresult (list (MemoryAccessNode D)) :=
  access ← expect (phis !! phi_block phi);
  inputs ← mapMr (phi_input_access definitions phis) (phi_inputs phi);
  if decide (length nodes = access) then Ok (nodes ++ [PhiNode (phi_block phi) inputs]) else Panic.

Definition usage_access (definitions : gmap D nat) (phis : gmap nat nat) (uses : gmap Z mem_version) (usage : Z) : mresult nat :=
  version ← ok_or (MkMemoryError PointVersion None) (uses !! usage); access_for_version definitions phis version.

Definition add_point (definitions : gmap D nat) (phis : gmap nat nat) (uses : gmap Z mem_version)
    (t : gmap P MemoryPointAccess) (p : PendingPoint D P) : mresult (gmap P MemoryPointAccess) :=
  before ← usage_access definitions phis uses (before_usage p);
  after ← match pp_definition p with Some definition => expect (definitions !! definition) | None => Ok before end;
  if decide (pp_point p ∈ dom t) then Err (MkMemoryError PointAccessIdentity None)
  else Ok (<[pp_point p := PointAccess before after]> t).

Definition build {C} `{SsaCfg C} (cfg : C) (memory_events : list (list (MemoryAccessEvent D P)))
    : mresult (MemoryAccessGraph D * MemoryPointMap P) :=
  if decide (length memory_events <> length (cfg_successors cfg)) then Err (MkMemoryError MemoryModelShape None) else
  tc ← collect memory_events;
  ssa ← lift_ssa (Ssa.build cfg (table_rows tc.1));
  definitions ← foldM add_definition ∅ (enumerate (pending_definitions tc.2));
  phis ← foldM (add_phi_access (length (pending_definitions tc.2) + 1)) ∅ (enumerate (ssa_phis ssa));
  nodes ← foldM (definition_node definitions phis (ssa_uses ssa)) [LiveOnEntry] (pending_definitions tc.2);
  nodes ← foldM (phi_node definitions phis) nodes (ssa_phis ssa);
  points ← foldM (add_point definitions phis (ssa_uses ssa)) ∅ (pending_points tc.2);
  entries ← mapMr (usage_access definitions phis (ssa_uses ssa)) (block_entry_usages tc.1);
  exits ← mapMr (usage_access definitions phis (ssa_uses ssa)) (block_exit_usages tc.1);
  Ok (MkAccessGraph nodes (length (pending_definitions tc.2)) (length (ssa_phis ssa)), MkPointMap points entries exits).
End memory.

(** ** The clobber walk *)

Inductive MemoryClobber : Type := AccessClobber (access : nat) | Indeterminate.

Inductive ClobberResolution : Type := Resolved (access : nat) | Cycle.
#[global] Instance ClobberResolution_eq_dec : EqDecision ClobberResolution.
Proof. solve_decision. Defined.

Inductive ResolveFrame : Type :=
  | EnterAccess (access : nat)
  | FinishDefinition (access : nat)
  | FinishPhi (access inputs : nat).

Record ClobberWalker : Type := Walker {
  epochs : list Z;
  states : list Z;
  results : list (option ClobberResolution);
  epoch : Z;
  frames : list ResolveFrame;
  values : list ClobberResolution }.

Definition ClobberWalker_new : ClobberWalker := Walker [] [] [] 0 [] [].

(** [Vec::resize] *)
Definition resize_vec {A} (n : nat) (a : A) (l : list A) : list A := take n l ++ replicate (n - length l) a.

(** [ClobberWalker::query]: a new epoch forgets all marks; when the counter
    wraps, the epochs are cleared. *)
Definition query_walker (n : nat) (w : ClobberWalker) : ClobberWalker :=
  let next := (epoch w + 1) mod 2^32 in
  let epochs := resize_vec n 0 (epochs w) in
  Walker (if decide (next = 0) then replicate (length epochs) 0 else epochs)
    (resize_vec n 0 (states w)) (resize_vec n None (results w)) (if decide (next = 0) then 1 else next) (frames w) (values w).

(** The fold over drained values: the common result so far, and whether two
    differed. *)
Definition merge_value (cd : option ClobberResolution * bool) (r : ClobberResolution) : option ClobberResolution * bool :=
  if decide (r = Cycle) then cd else
  match cd.1 with
  | Some previous => (cd.1, if decide (previous <> r) then true else cd.2)
  | None => (Some r, cd.2)
  end.

Definition phi_result (access : nat) (drained : list ClobberResolution) : ClobberResolution :=
  let cd := foldl merge_value (None, false) drained in
  if cd.2 : bool then Resolved access else default (Resolved access) cd.1.

(** [self.states[access] = state; self.results[access] = result;] *)
Definition set_mark {E} (access : nat) (state : Z) (result_ : option ClobberResolution) (w : ClobberWalker) : result E ClobberWalker :=
  states ← vset access state (states w);
  results ← vset access result_ (results w);
  Ok (Walker (epochs w) states results (epoch w) (frames w) (values w)).

Definition push_value (r : ClobberResolution) (w : ClobberWalker) : ClobberWalker :=
  Walker (epochs w) (states w) (results w) (epoch w) (frames w) (r :: values w).
Definition push_frames (fs : list ResolveFrame) (w : ClobberWalker) : ClobberWalker :=
  Walker (epochs w) (states w) (results w) (epoch w) (fs ++ frames w) (values w).
Definition set_values (vs : list ClobberResolution) (w : ClobberWalker) : ClobberWalker :=
  Walker (epochs w) (states w) (results w) (epoch w) (frames w) vs.

Section walk.
Context {D Q : Type} (may_alias : D -> Q -> bool) (query : Q).

(** [ResolveFrame::Enter] *)
Definition enter_access {E} (nodes : list (MemoryAccessNode D)) (access : nat) (w : ClobberWalker) : result E ClobberWalker :=
  e ← expect (epochs w !! access);
  state ← expect (states w !! access);
  if decide (e = epoch w /\ state <> 0) then
    if decide (state = 1) then Ok (push_value Cycle w)
    else if decide (state = 2) then r ← expect (mjoin (results w !! access)); Ok (push_value r w)
    else Panic
  else
    epochs ← vset access (epoch w) (epochs w);
    w ← set_mark access 1 None (Walker epochs (states w) (results w) (epoch w) (frames w) (values w));
    node ← expect (nodes !! access);
    match (node : MemoryAccessNode D) with
    | LiveOnEntry => w ← set_mark access 2 (Some (Resolved access)) w; Ok (push_value (Resolved access) w)
    | DefinitionNode definition previous =>
        if may_alias definition query then
          w ← set_mark access 2 (Some (Resolved access)) w; Ok (push_value (Resolved access) w)
        else Ok (push_frames [EnterAccess previous; FinishDefinition access] w)
    | PhiNode _ inputs =>
        Ok (push_frames (((fun i => EnterAccess i.2) <$> inputs) ++ [FinishPhi access (length inputs)]) w)
    end.

(** One frame taken from the stack; the heads of [frames] and [values] are
    their tops. *)
Definition resolve_frame {E} (nodes : list (MemoryAccessNode D)) (f : ResolveFrame) (w : ClobberWalker) : result E ClobberWalker :=
  match f with
  | EnterAccess access => enter_access nodes access w
  | FinishDefinition access =>
      match values w with
      | [] => Panic
      | r :: vs =>
          w ← (if decide (r = Cycle) then set_mark access 0 None else set_mark access 2 (Some r)) (set_values vs w);
          Ok (push_value r w)
      end
  | FinishPhi access inputs =>
      if decide (length (values w) < inputs)%nat then Panic else
      let r := phi_result access (rev (take inputs (values w))) in
      w ← set_mark access 2 (Some r) (set_values (drop inputs (values w)) w);
      Ok (push_value r w)
  end.

Fixpoint resolve_loop {E} (fuel : nat) (nodes : list (MemoryAccessNode D)) (w : ClobberWalker) : result E ClobberWalker :=
  match frames w with
  | [] => Ok w
  | f :: fs =>
      match fuel with
      | O => Panic
      | S fuel =>
          w ← resolve_frame nodes f (Walker (epochs w) (states w) (results w) (epoch w) fs (values w));
          resolve_loop fuel nodes w
      end
  end.

(** Each phi is entered once, and each entry walks at most the table. *)
Definition node_inputs (node : MemoryAccessNode D) : nat := match node with PhiNode _ inputs => length inputs | _ => 0 end.
Definition walk_fuel (nodes : list (MemoryAccessNode D)) : nat :=
  (2 * length nodes + 2 + sum_list ((fun node => 2 + node_inputs node * (2 * length nodes + 2)) <$> nodes))%nat.

(** [find_clobber]; the [debug_assert] on the value stack is the last test. *)
Definition find_clobber {E} (nodes : list (MemoryAccessNode D)) (start : nat) (w : ClobberWalker) : result E (MemoryClobber * ClobberWalker) :=
  w ← resolve_loop (walk_fuel nodes) nodes (Walker (epochs w) (states w) (results w) (epoch w) [EnterAccess start] []);
  match values w with
  | [r] => Ok (match r with Resolved a => AccessClobber a | Cycle => Indeterminate end, set_values [] w)
  | _ => Panic
  end.

(** [ClobberQuery::clobber]: one more start point in the current session. *)
Definition session_clobber {E} (g : MemoryAccessGraph D) (start : nat) (w : ClobberWalker) : result E (option MemoryClobber * ClobberWalker) :=
  if decide (start < length (nodes g))%nat then
    cw ← find_clobber (nodes g) start w; Ok (Some cw.1, cw.2)
  else Ok (None, w).

(** [ClobberWalker::clobber]: a session for one start point. *)
Definition clobber {E} (g : MemoryAccessGraph D) (start : nat) (w : ClobberWalker) : result E (option MemoryClobber * ClobberWalker) :=
  session_clobber g start (query_walker (length (nodes g)) w).
End walk.
