(* ===== verification/MemoryWalk.v ===== *)
(** * MemoryWalk: the clobber walk as a depth-first resolution

    The walks of a memory graph an alias query is about, the marks behind the
    walker's epoch tables, and what resolving a list of nodes does to them:
    it ends within its fuel, keeps what was resolved, and every result names
    a node that all walks pass, or a result further out differs. *)

From S2P Require Import Prelude Specs Order Graph Cfg CfgTree CfgLoops Ssa MemorySsa.

#[local] Open Scope nat_scope.

(** ** Walks of the graph *)

Section walks.
Context {D Q : Type} (may_alias : D -> Q -> bool) (query : Q) (nodes : list (MemoryAccessNode D)).
Implicit Types (x y z s r : nat) (l : list nat).

Definition inputs_of (node : MemoryAccessNode D) : list nat :=
  match node with LiveOnEntry => [] | DefinitionNode _ previous => [previous] | PhiNode _ inputs => inputs.*2 end.

(** Every input is a node. *)
Definition closed_nodes : Prop := forall x node y, nodes !! x = Some node -> y ∈ inputs_of node -> y < length nodes.

(** [x] is a definition the query does not alias, with predecessor [y]. *)
Definition skips x y : Prop := exists d, nodes !! x = Some (DefinitionNode d y) /\ may_alias d query = false.
Definition stops x : Prop := nodes !! x = Some LiveOnEntry \/ exists d p, nodes !! x = Some (DefinitionNode d p) /\ may_alias d query = true.
Definition joins x y : Prop := exists b inputs, nodes !! x = Some (PhiNode b inputs) /\ y ∈ inputs.*2.
Definition moves x y : Prop := skips x y \/ joins x y.

(** A walk against the flow of memory up to the first node that stops it. *)
Inductive walk : nat -> list nat -> Prop :=
  | walk_stop x : stops x -> walk x [x]
  | walk_move x y l : moves x y -> walk y l -> walk x (x :: l).

Definition endless x : Prop := exists s y, rtc skips x s /\ skips s y /\ rtc skips y s.

Lemma skips_unique x y z : skips x y -> moves x z -> z = y.
Proof. intros (d & Hx & _) [(d' & Hx' & _)|(b & ins & Hx' & _)]; by simplify_eq. Qed.
Lemma skips_not_stops x y : skips x y -> ~ stops x.
Proof. intros (d & Hx & Ha) [Hx'|(d' & p & Hx' & Ha')]; simplify_eq; congruence. Qed.
Lemma joins_not_stops x y : joins x y -> ~ stops x.
Proof. intros (b & ins & Hx & _) [Hx'|(d' & p & Hx' & Ha')]; by simplify_eq. Qed.
Lemma moves_not_stops x y : moves x y -> ~ stops x.
Proof. intros [?|?]; [by eapply skips_not_stops|by eapply joins_not_stops]. Qed.

Lemma walk_skip x y l : skips x y -> walk x l -> exists l', l = x :: l' /\ walk y l'.
Proof.
  intros Hs Hw. inversion Hw as [? Hst|? z l' Hm Hw']; subst; [by destruct (skips_not_stops x y)|].
  exists l'. by rewrite <- (skips_unique x y z).
Qed.

Lemma walk_skips x s l : rtc skips x s -> walk x l -> exists l1 l2, l = l1 ++ l2 /\ walk s l2.
Proof.
  intros Hr. revert l. induction Hr as [x|x y s Hs _ IH]; intros l Hw; [by exists [], l|].
  destruct (walk_skip x y l Hs Hw) as (l' & -> & Hw'). destruct (IH l' Hw') as (l1 & l2 & -> & Hl2). by exists (x :: l1), l2.
Qed.

Lemma endless_first x : endless x -> exists y, skips x y /\ endless y.
Proof.
  intros (s & y & Hr & Hs & Hc). destruct (rtc_inv x s Hr) as [<-|(z & Hz & Hzs)].
  - exists y. split; [done|]. exists x, y. done.
  - exists z. split; [done|]. by exists s, y.
Qed.

Lemma endless_no_walk x l : endless x -> ~ walk x l.
Proof.
  revert x. induction l as [|x' l IH]; intros x He Hw; [inversion Hw|]. destruct (endless_first x He) as (y & Hs & Hy).
  destruct (walk_skip x y _ Hs Hw) as (l' & [= -> <-] & Hw'). by apply (IH y).
Qed.

(** ** Marks *)

Inductive mark : Type := Unknown | Active | Done (r : nat).

#[global] Instance mark_eq_dec : EqDecision mark.
Proof. solve_decision. Defined.

Implicit Types (m : list mark) (w : ClobberWalker) (k : mark).

(** The mark of a node: marks of older epochs are forgotten. *)
Definition marked w x k : Prop :=
  match k with
  | Unknown => epochs w !! x <> Some (epoch w) \/ states w !! x = Some 0%Z
  | Active => epochs w !! x = Some (epoch w) /\ states w !! x = Some 1%Z
  | Done r => epochs w !! x = Some (epoch w) /\ states w !! x = Some 2%Z /\ results w !! x = Some (Some (Resolved r))
  end.

(** No mark is newer than the current epoch. *)
Definition walker_ok w : Prop := (0 <= epoch w < 2^32)%Z /\ Forall (fun e => 0 <= e <= epoch w)%Z (epochs w).

Record agrees w m : Prop := {
  ag_ok : walker_ok w;
  ag_length : length m = length nodes;
  ag_epochs : length (epochs w) = length nodes;
  ag_states : length (states w) = length nodes;
  ag_results : length (results w) = length nodes;
  ag_marks x k : m !! x = Some k -> marked w x k }.

(** The state and result a mark is written as. *)
Definition encodes k (state : Z) (res : option ClobberResolution) : Prop :=
  match k with Unknown => state = 0%Z | Active => state = 1%Z | Done r => state = 2%Z /\ res = Some (Resolved r) end.

Definition on_stack w fs vs : ClobberWalker := Walker (epochs w) (states w) (results w) (epoch w) fs vs.

Lemma agrees_stack w m fs vs : agrees w m -> agrees (on_stack w fs vs) m.
Proof. intros [[? ?] ? ? ? ? Hm]. by split. Qed.

Lemma agrees_set w m x k state res fs vs : agrees w m -> x < length nodes -> encodes k state res ->
  agrees (Walker (<[x := epoch w]> (epochs w)) (<[x := state]> (states w)) (<[x := res]> (results w)) (epoch w) fs vs) (<[x := k]> m).
Proof.
  intros [[Hb Ho] Hl He Hs Hr Hm] Hx Hk. split; cbn; rewrite ?length_insert; [|done..|].
  { split; [done|]. cbn. apply Forall_insert; [done|lia]. }
  intros y k' Hy. destruct (decide (y = x)) as [->|Hne].
  - rewrite list_lookup_insert_eq in Hy by lia. injection Hy as <-. unfold marked. cbn. rewrite !list_lookup_insert_eq by lia.
    destruct k as [| |r]; cbn in Hk; [right; by subst|by subst|by destruct Hk; subst].
  - rewrite list_lookup_insert_ne in Hy by done. specialize (Hm y k' Hy). unfold marked in *. cbn. by rewrite !list_lookup_insert_ne.
Qed.

Lemma set_mark_ok {E} w m x k0 state res : agrees w m -> m !! x = Some k0 -> epochs w !! x = Some (epoch w) ->
  @set_mark E x state res w = Ok (Walker (<[x := epoch w]> (epochs w)) (<[x := state]> (states w)) (<[x := res]> (results w)) (epoch w) (frames w) (values w)).
Proof.
  intros [_ Hl He Hs Hr Hm] Hx Hep. apply lookup_lt_Some in Hx. unfold set_mark, vset. rewrite !decide_True by lia. msimpl.
  by rewrite (list_insert_id (epochs w)).
Qed.

(** ** Weights over the table of marks *)

Fixpoint weigh (f : nat -> mark -> nat) (from : nat) m : nat :=
  match m with [] => 0 | k :: m => f from k + weigh f (S from) m end.

Lemma weigh_insert f from m x k k' : m !! x = Some k -> weigh f from (<[x := k']> m) + f (from + x) k = weigh f from m + f (from + x) k'.
Proof.
  revert from x. induction m as [|k0 m IH]; intros from [|x] Hx; [done..| |].
  - injection Hx as ->. change (<[0 := k']> (k :: m)) with (k' :: m). cbn [weigh]. replace (from + 0) with from by lia. lia.
  - change (<[S x := k']> (k0 :: m)) with (k0 :: <[x := k']> m). cbn [weigh]. specialize (IH (S from) x Hx). replace (from + S x) with (S from + x) by lia. lia.
Qed.

Lemma weigh_mono f from m m' : length m = length m' -> (forall x k k', m !! x = Some k -> m' !! x = Some k' -> f (from + x) k <= f (from + x) k') ->
  weigh f from m <= weigh f from m'.
Proof.
  revert from m'. induction m as [|k m IH]; intros from [|k' m'] Hl Hf; cbn in *; try lia.
  pose proof (Hf 0 k k' eq_refl eq_refl) as H0. replace (from + 0) with from in H0 by lia.
  apply Nat.add_le_mono; [done|]. apply IH; [lia|]. intros x a a' Ha Ha'. replace (S from + x) with (from + S x) by lia. by apply Hf.
Qed.

Definition is_active (_ : nat) k : nat := match k with Active => 1 | _ => 0 end.
Definition actives m : nat := weigh is_active 0 m.

(** What the phis still to be entered may cost. *)
Definition entry_cost x k : nat :=
  match k, nodes !! x with Unknown, Some (PhiNode _ inputs) => 2 + length inputs * (2 * length nodes + 2) | _, _ => 0 end.
Definition potential m : nat := weigh entry_cost 0 m.

Lemma actives_bound m : actives m <= length m.
Proof.
  unfold actives. generalize 0. induction m as [|k m IH]; intros from; cbn; [lia|]. specialize (IH (S from)). destruct k; cbn; lia.
Qed.

(** ** What resolving nodes does *)

(** Results name resolved nodes that are no skipped definitions. *)
Definition named m : Prop := forall x a, m !! x = Some (Done a) -> m !! a = Some (Done a) /\ forall y, ~ skips a y.

(** [z] leads to a node still being resolved, or nowhere. *)
Definition hangs m z : Prop := (exists s, rtc skips z s /\ m !! s = Some Active) \/ endless z.

Definition valued m z (v : ClobberResolution) : Prop :=
  match v with Resolved a => m !! z = Some (Done a) /\ m !! a = Some (Done a) /\ (forall y, ~ skips a y) | Cycle => hangs m z end.

(** [z] leads to a node resolved to [r], or hangs. *)
Definition led m r z : Prop := (exists s, rtc skips z s /\ m !! s = Some (Done r)) \/ hangs m z.

(** All that was resolved to [r] moves only to what leads to [r]. *)
Definition covered m r : Prop := forall x, m !! x = Some (Done r) -> x = r \/ ~ stops x /\ forall z, moves x z -> led m r z.

Definition other r (v : ClobberResolution) : Prop := v <> Cycle /\ v <> Resolved r.

Record resolved m (xs : list nat) m' (vs : list ClobberResolution) : Prop := {
  rs_length : length m' = length m;
  rs_named : named m';
  rs_done x a : m !! x = Some (Done a) -> m' !! x = Some (Done a);
  rs_active x : m' !! x = Some Active <-> m !! x = Some Active;
  rs_values : Forall2 (valued m') xs vs;
  rs_covered r : covered m r -> covered m' r \/ Exists (other r) vs }.

Lemma hangs_same m m' z : (forall x, m !! x = Some Active -> m' !! x = Some Active) -> hangs m z -> hangs m' z.
Proof. intros Ha [(s & Hs & Hm)|He]; [left; exists s; auto|by right]. Qed.

Lemma hangs_skips m z s : rtc skips z s -> hangs m s -> hangs m z.
Proof.
  intros Hr [(t & Ht & Hm)|(t & y & Ht & Hy)]; [left; exists t; split; [by etransitivity|done]|].
  right. exists t, y. split; [by etransitivity|done].
Qed.

Lemma covered_grow m m' r : (forall x a, m !! x = Some (Done a) -> m' !! x = Some (Done a)) -> (forall x, m !! x = Some Active -> m' !! x = Some Active) ->
  (forall x, m' !! x = Some (Done r) -> m !! x = Some (Done r) \/ x = r \/ ~ stops x /\ forall z, moves x z -> led m' r z) ->
  covered m r -> covered m' r.
Proof.
  intros Hd Ha Hnew Hc x Hx. destruct (Hnew x Hx) as [Hold|?]; [|done]. destruct (Hc x Hold) as [?|[Hs Hz]]; [by left|right]. split; [done|].
  intros z Hm. destruct (Hz z Hm) as [(s & Hr & Hs')|Hh]; [left; exists s; auto|right; by eapply hangs_same].
Qed.

Lemma resolved_nil m : named m -> resolved m [] m [].
Proof. intros Hn. split; auto. Qed.

Lemma valued_grow m m' z v : (forall x a, m !! x = Some (Done a) -> m' !! x = Some (Done a)) -> (forall x, m !! x = Some Active -> m' !! x = Some Active) ->
  valued m z v -> valued m' z v.
Proof. intros Hd Ha. destruct v as [a|]; cbn; [intros (? & ? & ?); auto|by apply hangs_same]. Qed.

Lemma resolved_cons m m1 m2 x xs v vs : resolved m [x] m1 [v] -> resolved m1 xs m2 vs -> resolved m (x :: xs) m2 (v :: vs).
Proof.
  intros [Hl1 Hn1 Hd1 Ha1 Hv1 Hc1] [Hl2 Hn2 Hd2 Ha2 Hv2 Hc2]. split; [congruence|done|auto| | |].
  - intros y. by rewrite Ha2.
  - constructor; [|done]. inversion Hv1; subst. eapply valued_grow; [done| |done]. intros y. apply Ha2.
  - intros r Hc. destruct (Hc1 r Hc) as [Hc'|He]; [|right; inversion He as [? ? ?|? ? He']; subst; [by left|inversion He']].
    destruct (Hc2 r Hc') as [?|?]; [by left|right; by right].
Qed.
End walks.
