(* ===== verification/MemoryClobber.v ===== *)
(** * MemoryClobber: the walker resolves what it enters

    One frame after another the walker's loop resolves a list of nodes, within
    the fuel of [walk_fuel]; what it does depends on the marks only, not on
    the tables behind them. *)

From S2P Require Import Prelude Specs Order Graph Cfg CfgTree CfgLoops Ssa MemorySsa MemoryWalk.

#[local] Open Scope nat_scope.

(** ** The result of a phi *)

Lemma merge_values drained : let cd := foldl merge_value (None, false) drained in
  match cd.1 with
  | None => cd.2 = false /\ Forall (eq Cycle) drained
  | Some v => v <> Cycle /\ v ∈ drained /\
      if cd.2 : bool then exists v', v' ∈ drained /\ v' <> Cycle /\ v' <> v else Forall (fun v' => v' = Cycle \/ v' = v) drained
  end.
Proof.
  induction drained as [|x drained IH] using rev_ind; [done|]. rewrite foldl_snoc. destruct (foldl _ _ drained) as [c d]. cbn [fst snd] in *.
  unfold merge_value. cbn [fst snd]. destruct (decide (x = Cycle)) as [->|Hx]; cbn [fst snd].
  - destruct c as [v|]; [|destruct IH; split; [done|]; apply Forall_app; split; [done|by constructor]].
    destruct IH as (Hv & Hin & Hd). split; [done|]. split; [set_solver|]. destruct d; [set_solver|]. apply Forall_app. split; [done|]. by repeat constructor.
  - destruct c as [v|]; cbn [fst snd].
    + destruct IH as (Hv & Hin & Hd). split; [done|]. split; [set_solver|]. case_decide as Hne; [exists x; set_solver|].
      assert (v = x) as -> by (by destruct (decide (v = x))). destruct d; [set_solver|]. apply Forall_app. split; [done|]. constructor; [by right|done].
    + destruct IH as [-> Hall]. split; [done|]. split; [set_solver|]. apply Forall_app. split; [|constructor; [by right|done]].
      eapply Forall_impl; [exact Hall|]. intros y <-. by left.
Qed.

(** All values but cycles are [a], or the phi names itself. *)
Lemma phi_result_spec x drained : exists a, phi_result x drained = Resolved a /\
  (Resolved a ∈ drained /\ Forall (fun v => v = Cycle \/ v = Resolved a) drained \/ a = x).
Proof.
  pose proof (merge_values drained) as Hm. unfold phi_result. destruct (foldl _ _ drained) as [c d]. cbn [fst snd] in *.
  destruct d; [exists x; split; [done|by right]|]. destruct c as [[a|]|]; cbn [default from_option id].
  - exists a. split; [done|]. left. by destruct Hm as (_ & ? & ?).
  - by destruct Hm.
  - exists x. split; [done|by right].
Qed.

(** ** Marking and finishing a node *)

Section resolve.
Context {E D Q : Type} (may_alias : D -> Q -> bool) (query : Q) (nodes : list (MemoryAccessNode D)).
Implicit Types (x y z s r : nat) (xs ys : list nat) (m : list mark) (w : ClobberWalker) (v : ClobberResolution) (vs : list ClobberResolution).
Abbreviation skips := (skips may_alias query nodes).
Abbreviation stops := (stops may_alias query nodes).
Abbreviation moves := (moves may_alias query nodes).
Abbreviation hangs := (hangs may_alias query nodes).
Abbreviation led := (led may_alias query nodes).
Abbreviation covered := (covered may_alias query nodes).
Abbreviation resolved := (resolved may_alias query nodes).
Abbreviation named := (named may_alias query nodes).
Abbreviation agrees := (agrees nodes).
Abbreviation potential := (potential nodes).
Abbreviation loop := (resolve_loop (E:=E) may_alias query).

Ltac marks := repeat match goal with
  | H : context [<[?x := _]> _ !! ?y] |- _ => first [rewrite (list_lookup_insert_eq _ x) in H by lia|rewrite list_lookup_insert_ne in H by done]
  | |- context [<[?x := _]> _ !! ?y] => first [rewrite (list_lookup_insert_eq _ x) by lia|rewrite list_lookup_insert_ne by done]
  end.

(** The node entered now is being resolved. *)
Lemma covered_enter m x r : m !! x = Some Unknown -> covered m r -> covered (<[x := Active]> m) r.
Proof.
  intros Hx. pose proof (lookup_lt_Some _ _ _ Hx). apply covered_grow.
  - intros y a Hy. destruct (decide (y = x)) as [->|?]; marks; congruence.
  - intros y Hy. destruct (decide (y = x)) as [->|?]; marks; congruence.
  - intros y Hy. destruct (decide (y = x)) as [->|?]; marks; [done|by left].
Qed.

Lemma named_insert m x k : named m -> (forall a, m !! x <> Some (Done a)) ->
  (forall a, k = Done a -> (forall y, ~ skips a y) /\ (a = x \/ m !! a = Some (Done a))) -> named (<[x := k]> m).
Proof.
  intros Hn Hx Hk y a. destruct (decide (x < length m)) as [Hlt|Hge]; [|rewrite !list_insert_ge by lia; apply Hn].
  destruct (decide (y = x)) as [->|Hy]; marks.
  - intros [= ->]. destruct (Hk a eq_refl) as [Hs [->|Ha]]; (split; [|done]); [by marks|]. destruct (decide (a = x)) as [->|?]; by marks.
  - intros [Ha Hs]%Hn. split; [|done]. destruct (decide (a = x)) as [->|?]; [by destruct (Hx x)|]. by marks.
Qed.

(** A node that stops the walk. *)
Lemma resolved_stop m x : m !! x = Some Unknown -> stops x -> named m -> resolved m [x] (<[x := Done x]> m) [Resolved x].
Proof.
  intros Hx Hs Hn. pose proof (lookup_lt_Some _ _ _ Hx) as Hlt. split.
  - by rewrite length_insert.
  - apply named_insert; [done|congruence|]. intros a [= <-]. split; [|by left]. intros y Hy. by eapply skips_not_stops.
  - intros y a Hy. destruct (decide (y = x)) as [->|?]; marks; congruence.
  - intros y. destruct (decide (y = x)) as [->|?]; marks; [split; congruence|done].
  - constructor; [|done]. cbn. marks. split; [done|]. split; [done|]. intros y Hy. by eapply skips_not_stops.
  - intros r. destruct (decide (x = r)) as [<-|Hr]; [|right; constructor; split; congruence]. intros Hc. left. revert Hc. apply covered_grow.
    + intros y a Hy. destruct (decide (y = x)) as [->|?]; marks; congruence.
    + intros y Hy. destruct (decide (y = x)) as [->|?]; marks; congruence.
    + intros y Hy. destruct (decide (y = x)) as [->|?]; marks; [right; by left|by left].
Qed.

(** A node already resolved, or still being resolved. *)
Lemma resolved_known m x a : m !! x = Some (Done a) -> named m -> resolved m [x] m [Resolved a].
Proof. intros Hx Hn. split; auto. constructor; [|done]. split; [done|by eapply Hn]. Qed.
Lemma resolved_active m x : m !! x = Some Active -> named m -> resolved m [x] m [Cycle].
Proof. intros Hx Hn. split; auto. constructor; [|done]. left. by exists x. Qed.

(** A node finished with [a], when its inputs allow that. *)
Lemma finish_node m x ys m2 vs a : m !! x = Some Unknown -> named m -> resolved (<[x := Active]> m) ys m2 vs -> ~ stops x -> (forall z, moves x z -> z ∈ ys) ->
  (Resolved a ∈ vs /\ Forall (fun v => v = Cycle \/ v = Resolved a) vs \/ a = x /\ forall y, ~ skips x y) ->
  resolved m [x] (<[x := Done a]> m2) [Resolved a].
Proof.
  intros Hx Hn [Hl Hn2 Hd Ha Hv Hc] Hst Hmv Hres. pose proof (lookup_lt_Some _ _ _ Hx) as Hlt. rewrite length_insert in Hl.
  assert (Hx2 : m2 !! x = Some Active) by (apply Ha; by marks).
  assert (Hda : (forall y, ~ skips a y) /\ (a = x \/ m2 !! a = Some (Done a))).
  { destruct Hres as [[Hin _]|[-> ?]]; [|split; [done|by left]]. cut (m2 !! a = Some (Done a) /\ forall y, ~ skips a y); [tauto|]. apply list_elem_of_lookup in Hin as [i Hi]. apply (Forall2_lookup_r _ _ _ _ _ Hv) in Hi as (y & _ & Hy). apply Hy. }
  assert (Hgrow : forall y b, m2 !! y = Some (Done b) -> <[x := Done a]> m2 !! y = Some (Done b)).
  { intros y b Hy. destruct (decide (y = x)) as [->|?]; marks; congruence. }
  split.
  - by rewrite length_insert.
  - apply named_insert; [done|congruence|]. by intros b [= ->].
  - intros y b Hy. apply Hgrow, Hd. destruct (decide (y = x)) as [->|?]; marks; congruence.
  - intros y. destruct (decide (y = x)) as [->|?]; marks; [split; congruence|]. rewrite Ha. by marks.
  - constructor; [|done]. split; [by marks|]. destruct Hda as [Hs Hda]. split; [|done]. destruct Hda as [->|Hda]; [by marks|by apply Hgrow].
  - intros r Hcov. destruct (decide (a = r)) as [<-|Hr]; [|right; constructor; split; congruence]. left.
    assert (Hhang : forall z, hangs m2 z -> led (<[x := Done a]> m2) a z).
    { intros z [(s & Hs & Hm)|He]; [|right; by right]. destruct (decide (s = x)) as [->|?]; [left; exists x; split; [done|by marks]|].
      right. left. exists s. split; [done|by marks]. }
    destruct (decide (a = x)) as [->|Hax].
    { intros y Hy. left. destruct (decide (y = x)) as [->|Hne]; [done|]. marks. apply Hn2 in Hy as [Hy _]. congruence. }
    destruct Hres as [[Hin Hall]|[? _]]; [|done].
    assert (Hcov2 : covered m2 a).
    { destruct (Hc a (covered_enter m x a Hx Hcov)) as [?|Hex]; [done|]. apply Exists_exists in Hex as (v & Hvin & Hv1 & Hv2). rewrite Forall_forall in Hall. by destruct (Hall v Hvin). }
    intros y Hy. destruct (decide (y = x)) as [->|Hne].
    + right. split; [done|]. intros z Hz%Hmv. apply list_elem_of_lookup in Hz as [i Hi]. apply (Forall2_lookup_l _ _ _ _ _ Hv) in Hi as (v & Hvi & Hval).
      rewrite Forall_lookup in Hall. destruct (Hall i v Hvi) as [->| ->]; [by apply Hhang|]. destruct Hval as [Hval _]. left. exists z. split; [done|by apply Hgrow].
    + marks. destruct (Hcov2 y Hy) as [?|[Hys Hz]]; [by left|right]. split; [done|]. intros z Hyz.
      destruct (Hz z Hyz) as [(s & Hs & Hm)|Hh]; [left; exists s; split; [done|by apply Hgrow]|by apply Hhang].
Qed.

(** A definition whose chain comes back to a node still being resolved. *)
Lemma hangs_forget m2 x p : skips x p -> hangs m2 p -> m2 !! x = Some Active -> forall z, hangs m2 z -> hangs (<[x := Unknown]> m2) z.
Proof.
  intros Hs Hp Hx. pose proof (lookup_lt_Some _ _ _ Hx) as Hlt.
  assert (Hgo : forall z, rtc skips z x -> hangs (<[x := Unknown]> m2) z).
  { intros z Hz. destruct Hp as [(s & Hps & Hm)|He].
    - destruct (decide (s = x)) as [->|?]; [right; by exists x, p|]. left. exists s. split; [|by marks].
      etransitivity; [exact Hz|]. by eapply rtc_l.
    - destruct He as (s & y & Hps & Hsy). right. exists s, y. split; [|done]. etransitivity; [exact Hz|]. by eapply rtc_l. }
  intros z [(s & Hzs & Hm)|He]; [|by right]. destruct (decide (s = x)) as [->|?]; [by apply Hgo|]. left. exists s. split; [done|by marks].
Qed.

Lemma forget_node m x p m2 : m !! x = Some Unknown -> skips x p -> resolved (<[x := Active]> m) [p] m2 [Cycle] -> resolved m [x] (<[x := Unknown]> m2) [Cycle].
Proof.
  intros Hx Hs [Hl Hn2 Hd Ha Hv Hc]. pose proof (lookup_lt_Some _ _ _ Hx) as Hlt. rewrite length_insert in Hl.
  assert (Hx2 : m2 !! x = Some Active) by (apply Ha; by marks).
  assert (Hp : hangs m2 p) by (by inversion Hv; subst).
  pose proof (hangs_forget m2 x p Hs Hp Hx2) as Hf. split.
  - by rewrite length_insert.
  - apply named_insert; [done|congruence|done].
  - intros y a Hy. assert (y <> x) by congruence. marks. apply Hd. by marks.
  - intros y. destruct (decide (y = x)) as [->|?]; marks; [split; congruence|]. rewrite Ha. by marks.
  - constructor; [|done]. apply Hf. eapply hangs_skips; [|exact Hp]. by apply rtc_once.
  - intros r Hcov. left. assert (Hcov2 : covered m2 r).
    { destruct (Hc r (covered_enter m x r Hx Hcov)) as [?|Hex]; [done|]. inversion Hex as [? ? [Ho _]|? ? Hex']; subst; [done|inversion Hex']. }
    intros y Hy. assert (y <> x) by (intros ->; marks; congruence). marks. destruct (Hcov2 y Hy) as [?|[Hys Hz]]; [by left|right]. split; [done|].
    intros z Hyz. destruct (Hz z Hyz) as [(s & Hzs & Hm)|Hh]; [|right; by apply Hf]. left. exists s. split; [done|]. assert (s <> x) by congruence. by marks.
Qed.

(** ** The loop *)

(** Some steps of the loop resolve [xs], whatever tables hold the marks. *)
Definition runs m xs : Prop := exists k m' vs, resolved m xs m' vs /\
  k + potential m' <= length xs * (2 * (length nodes - actives m) + 2) + potential m /\
  forall w, agrees w m -> exists w', agrees w' m' /\ forall fuel fs stack,
    loop (k + fuel) nodes (on_stack w ((EnterAccess <$> xs) ++ fs) stack) = loop fuel nodes (on_stack w' fs (rev vs ++ stack)).

Lemma loop_step fuel w f fs stack : loop (S fuel) nodes (on_stack w (f :: fs) stack) =
  (w ← resolve_frame may_alias query nodes f (on_stack w fs stack); loop fuel nodes w).
Proof. done. Qed.

Lemma on_stack_twice w fs stack fs' stack' : on_stack (on_stack w fs stack) fs' stack' = on_stack w fs' stack'.
Proof. done. Qed.

(** The tables with one mark written. *)
Definition write w x state res : ClobberWalker :=
  Walker (<[x := epoch w]> (epochs w)) (<[x := state]> (states w)) (<[x := res]> (results w)) (epoch w) (frames w) (values w).

Lemma write_ok w m x k state res : agrees w m -> x < length nodes -> encodes k state res ->
  agrees (write w x state res) (<[x := k]> m) /\ epochs (write w x state res) !! x = Some (epoch (write w x state res)).
Proof.
  intros Hw Hx Hk. split; [by apply agrees_set|]. cbn. apply list_lookup_insert_eq. by rewrite (ag_epochs _ _ _ Hw).
Qed.

Lemma set_mark_write w m x state res fs stack : agrees w m -> x < length nodes -> epochs w !! x = Some (epoch w) ->
  set_mark (E:=E) x state res (on_stack w fs stack) = Ok (on_stack (write w x state res) fs stack).
Proof.
  intros Hw Hx He. destruct (lookup_lt_is_Some_2 m x) as [k0 Hk0]; [by rewrite (ag_length _ _ _ Hw)|].
  by apply (set_mark_ok nodes (on_stack w fs stack) m x k0); [apply agrees_stack|..].
Qed.

Lemma known_frame w m x k stack fs : agrees w m -> m !! x = Some k ->
  match k with
  | Unknown => True
  | Active => resolve_frame (E:=E) may_alias query nodes (EnterAccess x) (on_stack w fs stack) = Ok (on_stack w fs (Cycle :: stack))
  | Done a => resolve_frame (E:=E) may_alias query nodes (EnterAccess x) (on_stack w fs stack) = Ok (on_stack w fs (Resolved a :: stack))
  end.
Proof.
  intros Hw Hx. pose proof (ag_marks _ _ _ Hw x k Hx) as Hm. destruct k as [| |a]; [done|destruct Hm as [He Hs]|destruct Hm as (He & Hs & Hr)];
    unfold resolve_frame, enter_access; cbn [on_stack epochs states results epoch frames values]; rewrite He, Hs; msimpl; rewrite decide_True by done; [done|]. cbn. by rewrite Hr.
Qed.

Lemma unknown_frame w m x stack fs node : agrees w m -> m !! x = Some Unknown -> nodes !! x = Some node ->
  let w1 := write w x 1 None in resolve_frame may_alias query nodes (EnterAccess x) (on_stack w fs stack) =
    match node with
    | LiveOnEntry => w2 ← set_mark (E:=E) x 2 (Some (Resolved x)) (on_stack w1 fs stack); Ok (push_value (Resolved x) w2)
    | DefinitionNode definition previous =>
        if may_alias definition query then
          w2 ← set_mark x 2 (Some (Resolved x)) (on_stack w1 fs stack); Ok (push_value (Resolved x) w2)
        else Ok (on_stack w1 ([EnterAccess previous; FinishDefinition x] ++ fs) stack)
    | PhiNode _ inputs => Ok (on_stack w1 (((EnterAccess <$> inputs.*2) ++ [FinishPhi x (length inputs)]) ++ fs) stack)
    end.
Proof.
  intros Hw Hx Hnode. pose proof (ag_marks _ _ _ Hw x _ Hx) as Hm. cbn in Hm.
  assert (Hlt : x < length nodes) by (rewrite <- (ag_length _ _ _ Hw); by eapply lookup_lt_Some).
  destruct (lookup_lt_is_Some_2 (epochs w) x) as [e He]; [by rewrite (ag_epochs _ _ _ Hw)|].
  destruct (lookup_lt_is_Some_2 (states w) x) as [st Hst]; [by rewrite (ag_states _ _ _ Hw)|].
  cbn zeta. unfold resolve_frame, enter_access. cbn [on_stack epochs states results epoch frames values]. rewrite He, Hst. msimpl.
  rewrite decide_False by (intros [-> Hne]; destruct Hm as [Hm|Hm]; congruence).
  unfold vset at 1. rewrite decide_True by (by rewrite (ag_epochs _ _ _ Hw)). unfold set_mark at 1, vset at 1 2. cbn [states results epochs epoch frames values].
  rewrite !decide_True by (by rewrite ?(ag_states _ _ _ Hw), ?(ag_results _ _ _ Hw)). rewrite Hnode. cbn beta iota match.
  destruct node as [|d p|b ins]; [done|by destruct (may_alias d query)|]. unfold push_frames. cbn [on_stack epochs states results epoch frames values].
  by rewrite <- list_fmap_compose.
Qed.

Lemma runs_nil m : named m -> runs m [].
Proof. intros Hn. exists 0, m, []. split; [by apply resolved_nil|]. split; [cbn; lia|]. intros w Hw. by exists w. Qed.

Lemma runs_known m x k : named m -> m !! x = Some k -> k <> Unknown -> runs m [x].
Proof.
  intros Hn Hx Hk. destruct k as [| |a]; [done|exists 1, m, [Cycle]; split; [by apply resolved_active|]|exists 1, m, [Resolved a]; split; [by apply resolved_known|]];
    (split; [cbn [length]; lia|]; intros w Hw; exists w; split; [done|]; intros fuel fs stack; cbn [fmap list_fmap app Nat.add]; rewrite loop_step;
     pose proof (known_frame w m x _ stack fs Hw Hx) as Hf; cbn beta iota match in Hf; by rewrite Hf).
Qed.

Lemma potential_mark m x k k' : m !! x = Some k -> potential (<[x := k']> m) + entry_cost nodes x k = potential m + entry_cost nodes x k'.
Proof. apply (weigh_insert (entry_cost nodes) 0). Qed.
Lemma entry_cost_known x k : k <> Unknown -> entry_cost nodes x k = 0.
Proof. by destruct k. Qed.
Lemma entry_cost_plain x k node : nodes !! x = Some node -> node_inputs node = 0 -> (forall b ins, node <> PhiNode b ins) -> entry_cost nodes x k = 0.
Proof. intros Hx Hn Hp. unfold entry_cost. rewrite Hx. destruct k, node as [| |b ins]; try done. by destruct (Hp b ins). Qed.

Lemma actives_enter m x : m !! x = Some Unknown -> actives (<[x := Active]> m) = S (actives m).
Proof. intros Hx. pose proof (weigh_insert is_active 0 m x _ Active Hx). unfold actives. cbn in *. lia. Qed.

(** Setting a mark that is no longer unknown adds no potential. *)
Lemma potential_done m x k a : m !! x = Some k -> potential (<[x := Done a]> m) <= potential m.
Proof. intros Hx. pose proof (potential_mark m x k (Done a) Hx) as Hp. rewrite (entry_cost_known x (Done a)) in Hp by done. lia. Qed.

Lemma runs_stop m x : length m = length nodes -> named m -> m !! x = Some Unknown -> stops x -> runs m [x].
Proof.
  intros Hl Hn Hx Hs. exists 1, (<[x := Done x]> m), [Resolved x]. split; [by apply resolved_stop|].
  split; [pose proof (potential_done m x _ x Hx); cbn [length]; lia|]. pose proof (lookup_lt_Some _ _ _ Hx) as Hlt. intros w Hw.
  assert (Hxn : x < length nodes) by lia. destruct (write_ok w m x Active 1 None Hw Hxn eq_refl) as [Hw1 He1].
  exists (write (write w x 1 None) x 2 (Some (Resolved x))). split.
  { rewrite <- (list_insert_insert_eq m x (Done x) Active). by apply write_ok. }
  intros fuel fs stack. cbn [fmap list_fmap app Nat.add]. rewrite loop_step.
  assert (Hset : forall w', agrees w' (<[x := Active]> m) -> epochs w' !! x = Some (epoch w') ->
    (w2 ← set_mark (E:=E) x 2 (Some (Resolved x)) (on_stack w' fs stack); Ok (push_value (Resolved x) w2)) = Ok (on_stack (write w' x 2 (Some (Resolved x))) fs (Resolved x :: stack))).
  { intros w' Hw' He'. by rewrite (set_mark_write w' _ x _ _ fs stack Hw' Hxn He'). }
  destruct Hs as [Hnode|(d & p & Hnode & Hal)]; rewrite (unknown_frame w m x stack fs _ Hw Hx Hnode), ?Hal; cbn zeta beta iota match; by rewrite Hset.
Qed.

(** The frames of a definition and of a phi, around those of their inputs. *)
Lemma runs_def m x p : length m = length nodes -> named m -> m !! x = Some Unknown -> skips x p -> runs (<[x := Active]> m) [p] -> runs m [x].
Proof.
  intros Hl Hn Hx Hs (k & m2 & vs & Hr & Hk & Hrun). pose proof (lookup_lt_Some _ _ _ Hx) as Hlt. assert (Hxn : x < length nodes) by lia.
  destruct Hs as (d & Hnode & Hal). assert (Hs : skips x p) by by exists d.
  destruct vs as [|v [|]]; [by pose proof (Forall2_length _ _ _ (rs_values _ _ _ _ _ _ _ Hr))| |by pose proof (Forall2_length _ _ _ (rs_values _ _ _ _ _ _ _ Hr))].
  assert (Hx2 : m2 !! x = Some Active) by (apply (rs_active _ _ _ _ _ _ _ Hr); by marks).
  set (kx := match v with Resolved a => Done a | Cycle => Unknown end).
  exists (1 + k + 1), (<[x := kx]> m2), [v]. split; [|split].
  - subst kx. destruct v as [a|]; [|by eapply forget_node]. apply (finish_node m x [p] m2 [Resolved a]); [done..| | |].
    + by eapply skips_not_stops.
    + intros z Hz. apply list_elem_of_singleton. by eapply skips_unique.
    + left. split; [by left|]. constructor; [by right|done].
  - assert (Hcost : forall k', entry_cost nodes x k' = 0) by (intros k'; by eapply entry_cost_plain).
    pose proof (potential_mark m2 x _ kx Hx2) as Hp2. pose proof (potential_mark m x _ Active Hx) as Hp1. rewrite !Hcost in Hp1, Hp2.
    rewrite (actives_enter m x Hx) in Hk. assert (actives (<[x := Active]> m) <= length (<[x := Active]> m)) as Hb by apply actives_bound.
    rewrite (actives_enter m x Hx), length_insert in Hb. cbn [length] in *. lia.
  - intros w Hw. destruct (write_ok w m x Active 1 None Hw Hxn eq_refl) as [Hw1 He1]. destruct (Hrun _ Hw1) as (w2 & Hw2 & Heq).
    pose proof (ag_marks _ _ _ Hw2 x _ Hx2) as [He2 _].
    exists (write w2 x (match v with Resolved a => 2%Z | Cycle => 0%Z end) (match v with Resolved a => Some v | Cycle => None end)).
    split; [apply write_ok; [done..|]; subst kx; by destruct v|]. intros fuel fs stack. cbn [fmap list_fmap app]. replace (1 + k + 1 + fuel) with (S (k + S fuel)) by lia.
    rewrite loop_step, (unknown_frame w m x stack fs _ Hw Hx Hnode), Hal. cbn zeta beta iota match. msimpl.
    specialize (Heq (S fuel) (FinishDefinition x :: fs) stack). cbn [fmap list_fmap app] in Heq. cbn [app]. rewrite Heq. cbn [rev app]. rewrite loop_step.
    unfold resolve_frame. cbn [on_stack values]. unfold set_values. cbn [on_stack epochs states results epoch frames values].
    destruct v as [a|]; cbn [decide].
    + rewrite decide_False by done. fold (on_stack w2 fs stack). by rewrite (set_mark_write w2 m2 x _ _ fs stack Hw2 Hxn He2).
    + rewrite decide_True by done. fold (on_stack w2 fs stack). by rewrite (set_mark_write w2 m2 x _ _ fs stack Hw2 Hxn He2).
Qed.

Lemma runs_phi m x b inputs : length m = length nodes -> named m -> m !! x = Some Unknown -> nodes !! x = Some (PhiNode b inputs) ->
  runs (<[x := Active]> m) inputs.*2 -> runs m [x].
Proof.
  intros Hl Hn Hx Hnode (k & m2 & vs & Hr & Hk & Hrun). pose proof (lookup_lt_Some _ _ _ Hx) as Hlt. assert (Hxn : x < length nodes) by lia.
  assert (Hx2 : m2 !! x = Some Active) by (apply (rs_active _ _ _ _ _ _ _ Hr); by marks).
  assert (Hlen : length vs = length inputs) by (rewrite <- (Forall2_length _ _ _ (rs_values _ _ _ _ _ _ _ Hr)); by rewrite length_fmap).
  destruct (phi_result_spec x vs) as (a & Hres & Ha).
  exists (1 + k + 1), (<[x := Done a]> m2), [Resolved a]. split; [|split].
  - apply (finish_node m x inputs.*2 m2 vs); [done..| | |].
    + intros Hst. by destruct Hst as [?|(? & ? & ? & _)]; simplify_eq.
    + intros z [(d & Hd & _)|(b' & ins & Hz & Hin)]; by simplify_eq.
    + destruct Ha as [?| ->]; [by left|right]. split; [done|]. intros y (d & Hd & _). by simplify_eq.
  - pose proof (potential_mark m2 x _ (Done a) Hx2) as Hp2. pose proof (potential_mark m x _ Active Hx) as Hp1.
    rewrite !(entry_cost_known x) in Hp2 by done. rewrite (entry_cost_known x Active) in Hp1 by done. unfold entry_cost in Hp1. rewrite Hnode in Hp1.
    rewrite length_fmap in Hk. assert (length inputs * (2 * (length nodes - actives (<[x := Active]> m)) + 2) <= length inputs * (2 * length nodes + 2)) as Hmul by (apply Nat.mul_le_mono_l; lia).
    cbn [length]. lia.
  - intros w Hw. destruct (write_ok w m x Active 1 None Hw Hxn eq_refl) as [Hw1 He1]. destruct (Hrun _ Hw1) as (w2 & Hw2 & Heq).
    pose proof (ag_marks _ _ _ Hw2 x _ Hx2) as [He2 _].
    exists (write w2 x 2%Z (Some (Resolved a))). split; [by apply write_ok|]. intros fuel fs stack. cbn [fmap list_fmap app]. replace (1 + k + 1 + fuel) with (S (k + S fuel)) by lia.
    rewrite loop_step, (unknown_frame w m x stack fs _ Hw Hx Hnode). cbn zeta beta iota match. msimpl.
    specialize (Heq (S fuel) (FinishPhi x (length inputs) :: fs) stack). rewrite <- app_assoc. cbn [app]. rewrite Heq, loop_step.
    unfold resolve_frame. cbn [on_stack values]. rewrite decide_False by (rewrite length_app, length_rev; lia).
    rewrite take_app_length', drop_app_length', rev_involutive, Hres by (by rewrite length_rev). unfold set_values. cbn [on_stack epochs states results epoch frames values].
    fold (on_stack w2 fs stack). by rewrite (set_mark_write w2 m2 x _ _ fs stack Hw2 Hxn He2).
Qed.

Lemma runs_cons m x xs : runs m [x] -> (forall m', length m' = length m -> named m' -> actives m' = actives m -> runs m' xs) -> runs m (x :: xs).
Proof.
  intros (k1 & m1 & vs1 & Hr1 & Hk1 & Hrun1) Hnext. destruct vs1 as [|v [|]]; [by pose proof (Forall2_length _ _ _ (rs_values _ _ _ _ _ _ _ Hr1))| |by pose proof (Forall2_length _ _ _ (rs_values _ _ _ _ _ _ _ Hr1))].
  assert (Hact : actives m1 = actives m).
  { pose proof (rs_length _ _ _ _ _ _ _ Hr1) as Hl. pose proof (rs_active _ _ _ _ _ _ _ Hr1) as Ha. apply Nat.le_antisymm; apply weigh_mono; [done| |done|];
      intros y k k' Hy Hy'; specialize (Ha y); destruct k, k'; cbn; try lia; exfalso; destruct Ha as [Ha1 Ha2]; intuition congruence. }
  destruct (Hnext m1 (rs_length _ _ _ _ _ _ _ Hr1) (rs_named _ _ _ _ _ _ _ Hr1) Hact) as (k2 & m2 & vs & Hr2 & Hk2 & Hrun2).
  exists (k1 + k2), m2, (v :: vs). split; [by eapply resolved_cons|]. split; [rewrite Hact in Hk2; cbn [length] in *; lia|].
  intros w Hw. destruct (Hrun1 w Hw) as (w1 & Hw1 & Heq1). destruct (Hrun2 w1 Hw1) as (w2 & Hw2 & Heq2). exists w2. split; [done|].
  intros fuel fs stack. replace (k1 + k2 + fuel) with (k1 + (k2 + fuel)) by lia. specialize (Heq1 (k2 + fuel) ((EnterAccess <$> xs) ++ fs) stack).
  cbn [fmap list_fmap app] in Heq1. cbn [fmap list_fmap app]. rewrite Heq1, Heq2. cbn [rev app]. by rewrite <- app_assoc.
Qed.

(** Every list of nodes is resolved; the nodes being resolved only grow
    inwards. *)
Lemma runs_all (Hclosed : closed_nodes nodes) d : forall m xs, length m = length nodes -> named m -> length nodes - actives m <= d ->
  Forall (fun x => x < length nodes) xs -> runs m xs.
Proof.
  induction d as [d IH] using lt_wf_ind. intros m xs Hl Hn Hd Hxs. revert m Hl Hn Hd. induction Hxs as [|x xs Hx Hxs IHx]; intros m Hl Hn Hd; [by apply runs_nil|].
  apply runs_cons; [|intros m' Hl' Hn' Ha'; apply IHx; [congruence|done|lia]]. clear IHx.
  destruct (lookup_lt_is_Some_2 m x) as [k Hk]; [lia|]. destruct (decide (k = Unknown)) as [->|Hku]; [|by eapply runs_known].
  destruct (lookup_lt_is_Some_2 nodes x) as [node Hnode]; [lia|]. pose proof (Hclosed x node) as Hin.
  assert (Hinner : forall ys, Forall (fun y => y < length nodes) ys -> runs (<[x := Active]> m) ys).
  { intros ys Hys. pose proof (actives_enter m x Hk) as Ha. pose proof (actives_bound (<[x := Active]> m)) as Hb. rewrite length_insert in Hb.
    apply (IH (length nodes - actives (<[x := Active]> m))); [lia|by rewrite length_insert| |lia|done]. apply named_insert; [done|congruence|done]. }
  destruct node as [|definition p|b ins].
  - apply runs_stop; [done..|by left].
  - destruct (may_alias definition query) eqn:Hal; [apply runs_stop; [done..|right; by exists definition, p]|].
    apply (runs_def m x p); [done..|by exists definition|]. apply Hinner. constructor; [|done]. apply (Hin p Hnode). by left.
  - apply (runs_phi m x b ins); [done..|]. apply Hinner. apply Forall_forall. intros y Hy. by apply (Hin y Hnode).
Qed.

(** ** One query *)

Lemma potential_total m : length m = length nodes -> potential m <= sum_list ((fun node => 2 + node_inputs node * (2 * length nodes + 2)) <$> nodes).
Proof.
  intros Hl. unfold potential. set (cost := fun node : MemoryAccessNode D => 2 + node_inputs node * (2 * length nodes + 2)).
  assert (Hcost : forall x k node, nodes !! x = Some node -> entry_cost nodes x k <= cost node).
  { intros x k node Hnode. unfold entry_cost. rewrite Hnode. destruct k, node; unfold cost, node_inputs; lia. }
  clearbody cost. assert (Hgo : forall from rest, drop from nodes = rest -> forall m, length m = length rest -> weigh (entry_cost nodes) from m <= sum_list (cost <$> rest)); [|by apply (Hgo 0 nodes)].
  intros from rest. revert from. induction rest as [|node rest IH]; intros from Hrest [|k m'] Hm; cbn in *; try lia.
  assert (Hnode : nodes !! from = Some node) by (rewrite <- (Nat.add_0_r from), <- lookup_drop; by rewrite Hrest).
  pose proof (Hcost from k node Hnode) as Hk.
  specialize (IH (S from)). rewrite (drop_S _ _ _ Hnode) in Hrest. injection Hrest as Hrest. specialize (IH Hrest m' ltac:(lia)). lia.
Qed.

Definition answer v : MemoryClobber := match v with Resolved a => AccessClobber a | Cycle => Indeterminate end.

Lemma find_clobber_spec (Hclosed : closed_nodes nodes) m start : length m = length nodes -> named m -> start < length nodes ->
  exists m' v, resolved m [start] m' [v] /\
  forall w, agrees w m -> exists w', agrees w' m' /\ find_clobber (E:=E) may_alias query nodes start w = Ok (answer v, w').
Proof.
  intros Hl Hn Hstart. destruct (runs_all Hclosed (length nodes - actives m) m [start] Hl Hn ltac:(lia)) as (k & m' & vs & Hr & Hk & Hrun); [by constructor|].
  destruct vs as [|v [|]]; [by pose proof (Forall2_length _ _ _ (rs_values _ _ _ _ _ _ _ Hr))| |by pose proof (Forall2_length _ _ _ (rs_values _ _ _ _ _ _ _ Hr))].
  exists m', v. split; [done|]. intros w Hw. destruct (Hrun w Hw) as (w' & Hw' & Heq). exists (on_stack w' [] []). split; [by apply agrees_stack|].
  pose proof (potential_total m Hl) as Hp. unfold find_clobber. assert (Hf : exists rest, walk_fuel nodes = k + rest).
  { exists (walk_fuel nodes - k). unfold walk_fuel. cbn [length] in Hk. lia. }
  destruct Hf as [rest ->]. specialize (Heq rest [] []). cbn [fmap list_fmap app rev] in Heq. fold (on_stack w [EnterAccess start] []). rewrite Heq.
  by destruct rest, v.
Qed.

Definition unmarked : list mark := replicate (length nodes) Unknown.

Lemma query_agrees w : walker_ok w -> agrees (query_walker (length nodes) w) unmarked.
Proof.
  intros [Hb Ho]. unfold query_walker.
  assert (Hsize : forall A (a : A) l, length (resize_vec (length nodes) a l) = length nodes) by (intros A a l; unfold resize_vec; rewrite length_app, length_take, length_replicate; lia).
  assert (Hres : Forall (fun e => 0 <= e <= epoch w)%Z (resize_vec (length nodes) 0%Z (epochs w))).
  { unfold resize_vec. apply Forall_app. split; [by apply Forall_take|]. apply Forall_replicate. lia. }
  assert (Hun : forall x k, unmarked !! x = Some k -> k = Unknown) by (intros x k Hx; by apply lookup_replicate in Hx as [-> _]).
  destruct (decide ((epoch w + 1) mod 2^32 = 0)%Z) as [Hz|Hz].
  - split; cbn; unfold unmarked; rewrite ?length_replicate, ?Hsize; try done.
    + split; [cbn; lia|]. apply Forall_replicate. cbn. lia.
    + intros x k Hx%Hun. subst k. left. cbn. intros Heq. by apply lookup_replicate in Heq as [? _].
  - assert (Hnext : ((epoch w + 1) mod 2^32 = epoch w + 1)%Z).
    { apply Z.mod_small. destruct (decide (epoch w + 1 = 2^32)%Z) as [He|]; [|lia]. rewrite He in Hz. by rewrite Z_mod_same_full in Hz. }
    rewrite Hnext in *. split; cbn; unfold unmarked; rewrite ?length_replicate, ?Hsize; try done.
    + split; cbn; [|eapply Forall_impl; [exact Hres|]; cbn; lia]. pose proof (Z.mod_pos_bound (epoch w + 1) (2^32) ltac:(lia)). lia.
    + intros x k Hx%Hun. subst k. left. cbn. intros Heq. rewrite Forall_lookup in Hres. specialize (Hres _ _ Heq). cbn in Hres. lia.
Qed.

Lemma covered_unmarked r : covered unmarked r.
Proof. intros x Hx. by apply lookup_replicate in Hx as [? _]. Qed.

(** With nothing left to resolve, every walk from a node resolved to [r]
    passes [r]. *)
Lemma covered_walk m r : covered m r -> (forall x, m !! x <> Some Active) -> forall n x l, length l <= n -> m !! x = Some (Done r) -> walk may_alias query nodes x l -> r ∈ l.
Proof.
  intros Hc Hno n. induction n as [|n IH]; intros x l Hl Hx Hw; [inversion Hw; subst; cbn in Hl; lia|].
  destruct (Hc x Hx) as [->|[Hst Hz]]; [inversion Hw; by left|]. inversion Hw as [|? z l' Hm Hw']; subst; [done|]. cbn in Hl.
  right. destruct (Hz z Hm) as [(s & Hzs & Hs)|[(s & _ & Hs)|He]]; [|by destruct (Hno s)|by destruct (endless_no_walk _ _ _ z l' He)].
  destruct (walk_skips _ _ _ z s l' Hzs Hw') as (l1 & l2 & -> & Hw2). apply elem_of_app. right. apply (IH s); [|done|done].
  rewrite length_app in Hl. lia.
Qed.

Lemma walk_first_in x l a : walk may_alias query nodes x l -> a ∈ l -> rtc moves x a.
Proof. induction 1 as [x Hs|x y l Hm Hw IH]; intros Ha; [apply list_elem_of_singleton in Ha as ->; done|]. apply elem_of_cons in Ha as [->|Ha]; [done|]. eapply rtc_l; [exact Hm|auto]. Qed.
End resolve.

(** ** The clobber of a start point *)

Section clobbers.
Context {E D Q : Type} (may_alias : D -> Q -> bool) (query : Q) (g : MemoryAccessGraph D) (Hclosed : closed_nodes (nodes g)).
Implicit Types (start r : nat) (w : ClobberWalker).

(** A fresh query answers by the graph alone, whatever the walker did before. *)
Lemma clobber_spec start : start < length (nodes g) -> exists m v, resolved may_alias query (nodes g) (unmarked (nodes g)) [start] m [v] /\
  forall w, walker_ok w -> exists w', walker_ok w' /\ clobber (E:=E) may_alias query g start w = Ok (Some (answer v), w').
Proof.
  intros Hs. destruct (find_clobber_spec (E:=E) may_alias query (nodes g) Hclosed (unmarked (nodes g)) start) as (m & v & Hr & Hw); [by unfold unmarked; rewrite length_replicate| |done|].
  - intros x a Hx. by apply lookup_replicate in Hx as [? _].
  - exists m, v. split; [done|]. intros w Hok. destruct (Hw _ (query_agrees (nodes g) w Hok)) as (w' & Hw' & Heq). exists w'. split; [apply Hw'|].
    unfold clobber, session_clobber. rewrite decide_True by done. by rewrite Heq.
Qed.

(** What the answer says of the walks from the start point. *)
Definition sound_clobber start (c : MemoryClobber) : Prop :=
  match c with
  | AccessClobber r => r < length (nodes g) /\ (forall y, ~ skips may_alias query (nodes g) r y) /\ forall l, walk may_alias query (nodes g) start l -> r ∈ l
  | Indeterminate => endless may_alias query (nodes g) start
  end.

Lemma clobber_sound_spec start : start < length (nodes g) -> exists c, sound_clobber start c /\
  forall w, walker_ok w -> exists w', walker_ok w' /\ clobber (E:=E) may_alias query g start w = Ok (Some c, w').
Proof.
  intros Hs. destruct (clobber_spec start Hs) as (m & v & Hr & Hw). exists (answer v). split; [|done].
  assert (Hno : forall x, m !! x <> Some Active) by (intros x Hx; apply (rs_active _ _ _ _ _ _ _ Hr) in Hx; by apply lookup_replicate in Hx as [? _]).
  pose proof (rs_values _ _ _ _ _ _ _ Hr) as Hv. inversion Hv as [|? ? ? ? Hval]; subst. destruct v as [r|]; cbn in *.
  - destruct Hval as (Hx & Hrr & Hsk). split; [apply lookup_lt_Some in Hrr; rewrite (rs_length _ _ _ _ _ _ _ Hr) in Hrr; unfold unmarked in Hrr; rewrite length_replicate in Hrr; done|].
    split; [done|]. intros l Hl. destruct (rs_covered _ _ _ _ _ _ _ Hr r (covered_unmarked _ _ _ r)) as [Hc|Hex]; [by apply (covered_walk may_alias query (nodes g) m r Hc Hno (length l) start l)|].
    inversion Hex as [? ? [_ Ho]|? ? Hex']; subst; [done|inversion Hex'].
  - destruct Hval as [(s & _ & Ha)|?]; [by destruct (Hno s)|done].
Qed.
End clobbers.
