(* ===== verification/MemoryBuild.v ===== *)
(** * MemoryBuild: the graph of memory states, against the SSA form

    The first pass numbers the uses of one abstract variable; the rows it
    hands to [Ssa.build] are a function of the events. The tables then place
    every version of that variable at one node, so that the graph and the
    coordinates are read off the versions of [SsaRename]. *)

From stdpp Require Import functions.
From S2P Require Import Prelude Specs Order Graph Cfg CfgTree CfgTreeFacts CfgLoops Ssa SsaFacts SsaRename SsaPaths MemorySsa MemoryWalk.

#[local] Coercion Z.of_nat : nat >-> Z.

Section memory.
Context {D P : Type} `{Countable D, Countable P}.
Abbreviation mem_event := (MemoryAccessEvent D P).
Abbreviation ssa_event := (Event unit D Z).
Abbreviation mem_version := (Version unit D).
Implicit Types (e : mem_event) (es pre post : list mem_event) (evs : list (list mem_event)) (u : Z) (b : nat).

(** ** The rows of events, by number of use *)

Definition def_event e : list ssa_event := match event_definition e with Some d => [DefEvent () d] | None => [] end.

Fixpoint event_row u es : list ssa_event :=
  match es with [] => [] | e :: es => UseEvent () u :: def_event e ++ event_row (u + 1) es end.
Definition block_row u es : list ssa_event := UseEvent () u :: event_row (u + 1) es ++ [UseEvent () (u + 1 + length es)%Z].

Fixpoint event_points u es : list (PendingPoint D P) :=
  match es with [] => [] | e :: es => MkPendingPoint (point e) u (event_definition e) :: event_points (u + 1) es end.
Fixpoint event_defs u es : list (PendingDefinition D) :=
  match es with
  | [] => []
  | e :: es => match event_definition e with Some d => [MkPendingDefinition d u] | None => [] end ++ event_defs (u + 1) es
  end.

(** The uses of a list of blocks, and what each block gets from its first. *)
Definition uses evs : Z := foldr (fun es n => 2 + length es + n)%Z 0%Z evs.
Fixpoint spread {A} (f : Z -> list mem_event -> A) u evs : list A :=
  match evs with [] => [] | es :: evs => f u es :: spread f (u + 2 + length es)%Z evs end.

Lemma uses_snoc evs es : uses (evs ++ [es]) = (uses evs + 2 + length es)%Z.
Proof. unfold uses. induction evs as [|r evs IH]; cbn in *; lia. Qed.
Lemma uses_nonneg evs : (0 <= uses evs)%Z.
Proof. unfold uses. induction evs as [|r evs IH]; cbn in *; lia. Qed.
Lemma uses_app evs evs' : uses (evs ++ evs') = (uses evs + uses evs')%Z.
Proof. unfold uses. induction evs as [|r evs IH]; cbn in *; lia. Qed.

Lemma spread_snoc {A} (f : Z -> list mem_event -> A) u evs es : spread f u (evs ++ [es]) = spread f u evs ++ [f (u + uses evs)%Z es].
Proof.
  revert u. induction evs as [|r evs IH]; intros u; cbn; [by rewrite Z.add_0_r|]. rewrite IH. do 4 f_equal. unfold uses. cbn. lia.
Qed.
Lemma spread_lookup {A} (f : Z -> list mem_event -> A) u evs b : spread f u evs !! b = (fun es => f (u + uses (take b evs))%Z es) <$> evs !! b.
Proof.
  revert u b. induction evs as [|es evs IH]; intros u [|b]; cbn; [done..|by rewrite Z.add_0_r|]. rewrite IH. destruct (evs !! b); cbn; [|done]. do 2 f_equal. unfold uses. cbn. lia.
Qed.
Lemma length_spread {A} (f : Z -> list mem_event -> A) u evs : length (spread f u evs) = length evs.
Proof. revert u. induction evs; intros u; cbn; auto. Qed.

Lemma event_row_app u pre post : event_row u (pre ++ post) = event_row u pre ++ event_row (u + length pre)%Z post.
Proof.
  revert u. induction pre as [|e pre IH]; intros u; cbn; [by rewrite Z.add_0_r|]. rewrite IH, <- app_assoc. do 4 f_equal. lia.
Qed.
Lemma event_points_app u pre post : event_points u (pre ++ post) = event_points u pre ++ event_points (u + length pre)%Z post.
Proof. revert u. induction pre as [|e pre IH]; intros u; cbn; [by rewrite Z.add_0_r|]. rewrite IH. do 3 f_equal. lia. Qed.
Lemma event_defs_app u pre post : event_defs u (pre ++ post) = event_defs u pre ++ event_defs (u + length pre)%Z post.
Proof. revert u. induction pre as [|e pre IH]; intros u; cbn; [by rewrite Z.add_0_r|]. rewrite IH, <- app_assoc. do 3 f_equal. lia. Qed.

(** ** The first pass *)

(** The collected lists, for blocks numbered from zero. *)
Record collected_ok (evs : list (list mem_event)) (c : collected (D:=D) (P:=P)) : Prop := {
  ck_points : pending_points c = concat (spread (fun u es => event_points (u + 1) es) 0 evs);
  ck_defs : pending_definitions c = concat (spread (fun u es => event_defs (u + 1) es) 0 evs);
  ck_ids x : x ∈ point_ids c <-> x ∈ point <$> concat evs;
  ck_nodup : NoDup (point <$> concat evs);
  ck_next : next_usage c = uses evs;
  ck_range : (uses evs <= usize_max)%Z }.

(** The same in the middle of a block, after [pre]. *)
Record collecting_ok evs pre (c : collected (D:=D) (P:=P)) : Prop := {
  cg_points : pending_points c = concat (spread (fun u es => event_points (u + 1) es) 0 evs) ++ event_points (uses evs + 1) pre;
  cg_defs : pending_definitions c = concat (spread (fun u es => event_defs (u + 1) es) 0 evs) ++ event_defs (uses evs + 1) pre;
  cg_ids x : x ∈ point_ids c <-> x ∈ point <$> (concat evs ++ pre);
  cg_nodup : NoDup (point <$> (concat evs ++ pre));
  cg_next : next_usage c = (uses evs + 1 + length pre)%Z;
  cg_range : (uses evs + 1 + length pre <= usize_max)%Z }.

Record tables_ok evs (t : usage_tables (D:=D)) : Prop := {
  tk_rows : table_rows t = spread block_row 0 evs;
  tk_entries : block_entry_usages t = spread (fun u _ => u) 0 evs;
  tk_exits : block_exit_usages t = spread (fun u es => (u + 1 + length es)%Z) 0 evs }.

(** Why a list of events is refused before SSA construction. *)
Definition not_collected evs (err : MemorySsaError) : Prop :=
  (err = MkMemoryError UseIdRange None /\ (usize_max < uses evs)%Z) \/
  exists b pre e post, evs !! b = Some (pre ++ e :: post) /\ err = MkMemoryError PointIdentity (Some b) /\
    point e ∈ point <$> (concat (take b evs) ++ pre).

Lemma allocate_spec (bad : MemorySsaError -> Prop) (c : collected (D:=D) (P:=P)) :
  ((usize_max < next_usage c + 1)%Z -> bad (MkMemoryError UseIdRange None)) ->
  yields bad (fun uc => uc.1 = next_usage c /\ uc.2 = Collected (pending_points c) (pending_definitions c) (point_ids c) (next_usage c + 1) /\ (next_usage c + 1 <= usize_max)%Z)
    (allocate_usage c).
Proof. intros Hbad. unfold allocate_usage, checked_add. case_decide; cbn; [done|]. apply Hbad. lia. Qed.

Lemma collect_event_spec (bad : MemorySsaError -> Prop) evs pre e (row : list ssa_event) (c : collected (D:=D) (P:=P)) :
  ((usize_max < uses evs + 2 + length pre)%Z -> bad (MkMemoryError UseIdRange None)) ->
  (point e ∈ point <$> (concat evs ++ pre) -> bad (MkMemoryError PointIdentity (Some (length evs)))) ->
  collecting_ok evs pre c -> row = UseEvent () (uses evs) :: event_row (uses evs + 1) pre ->
  yields bad (fun rc => collecting_ok evs (pre ++ [e]) rc.2 /\ rc.1 = UseEvent () (uses evs) :: event_row (uses evs + 1) (pre ++ [e]))
    (collect_event (length evs) (row, c) e).
Proof.
  intros Hr Hp [Hpts Hdefs Hids Hnd Hnext Hrange] ->. unfold collect_event. case_decide as Hin; [by apply Hp, Hids|].
  eapply yields_bind; [apply allocate_spec; cbn; intros ?; apply Hr; lia|]. cbn [next_usage]. intros [u c'] (Hu & Hc' & Hle). cbn [fst snd] in Hu, Hc'. subst u c'. cbn [fst snd pending_points pending_definitions point_ids next_usage].
  assert (Hok : forall defs, defs = concat (spread (fun u es => event_defs (u + 1) es) 0 evs) ++ event_defs (uses evs + 1) (pre ++ [e]) ->
    collecting_ok evs (pre ++ [e]) (Collected (pending_points c ++ [MkPendingPoint (point e) (next_usage c) (event_definition e)]) defs ({[point e]} ∪ point_ids c) (next_usage c + 1))).
  { intros defs ->. split; cbn [pending_points pending_definitions point_ids next_usage].
    - rewrite Hpts, event_points_app, <- app_assoc, Hnext. done.
    - done.
    - intros x. rewrite elem_of_union, elem_of_singleton, Hids. rewrite (app_assoc _ pre [e]), (fmap_app point (concat evs ++ pre)), (elem_of_app (point <$> (concat evs ++ pre))). cbn. rewrite list_elem_of_singleton. tauto.
    - rewrite (app_assoc _ pre [e]), (fmap_app point (concat evs ++ pre)). cbn. apply NoDup_app. split_and!; [done| |apply NoDup_singleton]. intros x Hx ->%list_elem_of_singleton. by apply Hin, Hids.
    - rewrite Hnext, length_app. cbn. lia.
    - rewrite length_app. cbn. lia. }
  rewrite event_row_app. cbn [event_row def_event]. unfold def_event. rewrite event_defs_app in Hok. cbn [event_defs] in Hok. rewrite Hnext in *.
  destruct (event_definition e) as [d|]; cbn [yields fst snd app] in *; (split; [apply Hok; by rewrite Hdefs, ?app_nil_r, <- ?app_assoc|by rewrite <- ?app_assoc]).
Qed.

Lemma collect_spec evs : yields (not_collected evs) (fun tc => tables_ok evs tc.1 /\ collected_ok evs tc.2) (collect evs).
Proof.
  assert (Hall : take (length evs) evs = evs) by by apply take_ge. unfold collect.
  eapply yields_impl; [|apply (yields_enumerate _ (fun k (tc : usage_tables * collected) => tables_ok (take k evs) tc.1 /\ collected_ok (take k evs) tc.2))].
  - intros tc. cbn beta. by rewrite Hall.
  - split; [done|]. split; cbn; try done; [intros x; by rewrite elem_of_empty, elem_of_nil|constructor].
  - intros k es [t c] Hk [[Ht1 Ht2 Ht3] [Hp Hd Hi Hn Hx Hr]]. cbn [fst snd] in *. pose proof (take_S_r evs k es Hk) as Hs. pose proof (lookup_lt_Some _ _ _ Hk) as Hlt.
    assert (Hlen : length (take k evs) = k) by (rewrite length_take; lia).
    assert (Htot : (uses (take k evs) + 2 + length es <= uses evs)%Z).
    { rewrite <- uses_snoc, <- Hs. rewrite <- (take_drop (S k) evs) at 2. rewrite uses_app. pose proof (uses_nonneg (drop (S k) evs)). lia. }
    assert (Hrange : forall z, (usize_max < z)%Z -> (z <= uses evs)%Z -> not_collected evs (MkMemoryError UseIdRange None)) by (intros z Hz Hz'; left; split; [done|lia]).
    unfold collect_block. eapply yields_bind; [apply allocate_spec; intros Hz; eapply Hrange; [exact Hz|rewrite Hx; lia]|]. intros [u c1] (Hu & Hc1 & Hle). cbn [fst snd] in *. subst u c1.
    eapply yields_bind.
    + apply (yields_foldM _ (fun pre (rc : list ssa_event * collected) => collecting_ok (take k evs) pre rc.2 /\ rc.1 = UseEvent () (uses (take k evs)) :: event_row (uses (take k evs) + 1) pre)).
      * cbn [fst snd]. split; [|by rewrite Hx]. split; cbn; rewrite ?app_nil_r, ?Hx; try done; try lia; rewrite Hx in Hle; lia.
      * intros pre e post [row c'] Heq [Hc' Hrow]. cbn [fst snd] in *. replace (collect_event k (row, c') e) with (collect_event (length (take k evs)) (row, c') e) by (by rewrite Hlen). apply collect_event_spec; [| |done|done].
        -- intros Hz. eapply Hrange; [exact Hz|]. rewrite Heq, length_app in Htot. cbn in Htot. lia.
        -- intros Hin. right. exists k, pre, e, post. rewrite Hk, Heq, Hlen. done.
    + intros [row c'] [[Hp' Hd' Hi' Hn' Hx' Hr'] Hrow]. cbn [fst snd] in *. eapply yields_bind; [apply allocate_spec; intros Hz; eapply Hrange; [exact Hz|rewrite Hx'; lia]|].
      intros [u c1] (Hu & Hc1 & Hle'). cbn [fst snd] in *. subst u c1 row. cbn [yields fst snd]. rewrite Hs. split; split; cbn [table_rows block_entry_usages block_exit_usages pending_points pending_definitions point_ids next_usage];
        rewrite ?spread_snoc, ?Z.add_0_l, ?concat_app, ?uses_snoc; cbn [concat]; rewrite ?app_nil_r.
      * rewrite Ht1, Hx'. done.
      * by rewrite Ht2, Hx.
      * by rewrite Ht3, Hx'.
      * done.
      * done.
      * intros x. apply Hi'.
      * done.
      * rewrite Hx'. lia.
      * rewrite Hx' in Hle'. lia.
Qed.

(** ** The identities of the rows *)

Lemma row_uses_app (a b : list ssa_event) : row_uses (a ++ b) = row_uses a ++ row_uses b.
Proof. apply omap_app. Qed.
Lemma row_defs_app (a b : list ssa_event) : row_defs (a ++ b) = row_defs a ++ row_defs b.
Proof. apply omap_app. Qed.

Lemma def_event_uses e : row_uses (def_event e) = [].
Proof. unfold def_event. by destruct (event_definition e). Qed.

Lemma event_row_uses u es : row_uses (event_row u es) = seqZ u (length es).
Proof.
  revert u. induction es as [|e es IH]; intros u; cbn [event_row length]; [done|]. rewrite Nat2Z.inj_succ, seqZ_cons by lia.
  change (row_uses (UseEvent () u :: def_event e ++ event_row (u + 1) es)) with (u :: row_uses (def_event e ++ event_row (u + 1) es)).
  rewrite row_uses_app, def_event_uses, IH. f_equal. cbn. f_equal; lia.
Qed.

Lemma block_row_uses u es : row_uses (block_row u es) = seqZ u (2 + length es).
Proof.
  unfold block_row. change (row_uses (UseEvent () u :: ?l)) with (u :: row_uses l). rewrite row_uses_app, event_row_uses.
  rewrite (seqZ_cons u) by lia. f_equal. replace (Z.pred (2 + length es)) with (length es + 1) by lia. rewrite seqZ_app by lia.
  unfold Z.succ. by f_equal.
Qed.

Lemma rows_uses u evs : row_uses (concat (spread block_row u evs)) = seqZ u (uses evs).
Proof.
  revert u. induction evs as [|es evs IH]; intros u; cbn [spread concat]; [done|]. rewrite row_uses_app, block_row_uses, IH.
  change (uses (es :: evs)) with (2 + length es + uses evs). rewrite (seqZ_app u (2 + length es)) by (try pose proof (uses_nonneg evs); lia). do 2 f_equal. lia.
Qed.

(** The definitions of a list of events, in order. *)
Definition mem_defs es : list D := omap event_definition es.

Lemma event_row_defs u es : row_defs (event_row u es) = (fun d => ((), d)) <$> mem_defs es.
Proof.
  revert u. induction es as [|e es IH]; intros u; cbn [event_row]; [done|].
  change (row_defs (UseEvent () u :: def_event e ++ event_row (u + 1) es)) with (row_defs (def_event e ++ event_row (u + 1) es)).
  rewrite row_defs_app, IH. unfold mem_defs, def_event. csimpl. by destruct (event_definition e).
Qed.

Lemma block_row_defs u es : row_defs (block_row u es) = (fun d => ((), d)) <$> mem_defs es.
Proof.
  unfold block_row. change (row_defs (UseEvent () u :: ?l)) with (row_defs l). rewrite row_defs_app, event_row_defs. cbn. apply app_nil_r.
Qed.

Lemma rows_defs u evs : row_defs (concat (spread block_row u evs)) = (fun d => ((), d)) <$> mem_defs (concat evs).
Proof.
  revert u. induction evs as [|es evs IH]; intros u; cbn [spread concat]; [done|]. rewrite row_defs_app, block_row_defs, IH.
  unfold mem_defs. by rewrite (omap_app event_definition es), fmap_app.
Qed.

Lemma event_defs_fst u es : pd_definition <$> event_defs u es = mem_defs es.
Proof. revert u. induction es as [|e es IH]; intros u; cbn; [done|]. unfold mem_defs in *. rewrite fmap_app, IH. csimpl. by destruct (event_definition e). Qed.
Lemma event_points_fst u es : pp_point <$> event_points u es = point <$> es.
Proof. revert u. induction es as [|e es IH]; intros u; cbn; [done|]. by rewrite IH. Qed.

Lemma spread_defs u evs : pd_definition <$> concat (spread (fun u es => event_defs (u + 1) es) u evs) = mem_defs (concat evs).
Proof.
  revert u. induction evs as [|es evs IH]; intros u; cbn; [done|]. rewrite fmap_app, event_defs_fst, IH. unfold mem_defs. by rewrite (omap_app event_definition es).
Qed.
Lemma spread_points u evs : pp_point <$> concat (spread (fun u es => event_points (u + 1) es) u evs) = point <$> concat evs.
Proof. revert u. induction evs as [|es evs IH]; intros u; cbn; [done|]. by rewrite !fmap_app, event_points_fst, IH. Qed.

Lemma elem_event_defs u es (pd : PendingDefinition D) : pd ∈ event_defs u es <->
  exists pre e post, es = pre ++ e :: post /\ event_definition e = Some (pd_definition pd) /\ predecessor_usage pd = u + length pre.
Proof.
  split.
  - revert u. induction es as [|e es IH]; intros u; cbn; [by intros ?%not_elem_of_nil|]. intros [Hd|Hd]%elem_of_app.
    + destruct (event_definition e) as [d|] eqn:He; [|by apply not_elem_of_nil in Hd]. apply list_elem_of_singleton in Hd as ->. exists [], e, es. cbn. split; [done|]. split; [done|lia].
    + apply IH in Hd as (pre & e' & post & -> & He & Hu). exists (e :: pre), e', post. cbn. split; [done|]. split; [done|lia].
  - intros (pre & e & post & -> & He & Hu). rewrite event_defs_app. apply elem_of_app. right. cbn. rewrite He. apply elem_of_app. left.
    apply list_elem_of_singleton. destruct pd. cbn in *. congruence.
Qed.

Lemma elem_event_points u es (pp : PendingPoint D P) : pp ∈ event_points u es <->
  exists pre e post, es = pre ++ e :: post /\ pp = MkPendingPoint (point e) (u + length pre) (event_definition e).
Proof.
  split.
  - revert u. induction es as [|e es IH]; intros u; cbn; [by intros ?%not_elem_of_nil|]. intros [->|Hp]%elem_of_cons.
    + exists [], e, es. cbn. by rewrite Z.add_0_r.
    + apply IH in Hp as (pre & e' & post & -> & ->). exists (e :: pre), e', post. cbn. split; [done|]. f_equal. lia.
  - intros (pre & e & post & -> & ->). rewrite event_points_app. apply elem_of_app. right. by left.
Qed.

Lemma elem_concat_spread {A} (f : Z -> list mem_event -> list A) evs a : a ∈ concat (spread f 0 evs) <->
  exists b es, evs !! b = Some es /\ a ∈ f (uses (take b evs)) es.
Proof.
  rewrite list_elem_of_In, in_concat. split.
  - intros (l & Hl & Ha). apply list_elem_of_In, list_elem_of_lookup in Hl as [b Hb]. rewrite spread_lookup in Hb. destruct (evs !! b) as [es|] eqn:Hes; [|done].
    cbn in Hb. injection Hb as <-. exists b, es. split; [done|]. by apply list_elem_of_In.
  - intros (b & es & Hb & Ha). exists (f (uses (take b evs)) es). split; [|by apply list_elem_of_In]. apply list_elem_of_In, list_elem_of_lookup. exists b. by rewrite spread_lookup, Hb.
Qed.
End memory.
