(* ===== verification/MemoryForm.v ===== *)
(** * MemoryForm: the graph [MemorySsa.build] returns

    Every version of the memory has one node: the entry state is node 0, the
    definitions follow in order of occurrence, then the phis. The record
    [memory_form] says how the nodes and the coordinates of the points are
    read off the versions of SSA form. *)

From stdpp Require Import functions.
From S2P Require Import Prelude Specs Order Graph Cfg CfgTree CfgTreeFacts CfgDominators CfgLoops CfgAnalyze CfgTheorems Ssa SsaFacts SsaRename SsaPaths MemorySsa MemoryWalk MemoryBuild.

#[local] Coercion Z.of_nat : nat >-> Z.

(** ** Folds that fill a table *)

Lemma lookup_insert_key {K V} `{Countable K} (t : gmap K V) k v k' x : t !! k = None -> <[k := v]> t !! k' = Some x <-> (k' = k /\ x = v) \/ t !! k' = Some x.
Proof. intros Hk. rewrite lookup_insert_Some. destruct (decide (k = k')) as [<-|]; naive_solver. Qed.

(** Keys enter a table once, with a value that depends on their position. *)
Lemma yields_table {E K V A} `{Countable K} (bad : E -> Prop) (key : A -> K) (good : nat -> A -> V -> Prop) (f : gmap K V -> nat * A -> result E (gmap K V)) (l : list A) :
  NoDup (key <$> l) ->
  (forall i a t, l !! i = Some a -> t !! key a = None -> exists v, f t (i, a) = Ok (<[key a := v]> t) /\ forall v', good i a v' <-> v' = v) ->
  yields bad (fun t => forall k v, t !! k = Some v <-> exists i a, l !! i = Some a /\ key a = k /\ good i a v) (foldM f ∅ (enumerate l)).
Proof.
  intros Hnd Hf. apply (yields_impl bad (fun t : gmap K V => forall k v, t !! k = Some v <-> exists i a, (i < length l)%nat /\ l !! i = Some a /\ key a = k /\ good i a v)).
  { intros t Ht k v. rewrite Ht. split; [intros (i & a & _ & ?); by exists i, a|]. intros (i & a & Ha & ?). exists i, a. split; [by eapply lookup_lt_Some|done]. }
  apply (yields_enumerate bad (fun n (t : gmap K V) => forall k v, t !! k = Some v <-> exists i a, (i < n)%nat /\ l !! i = Some a /\ key a = k /\ good i a v)).
  - intros k v. rewrite lookup_empty. split; [done|]. intros (? & ? & ? & _). lia.
  - intros i a t Ha Ht. assert (Hnone : t !! key a = None).
    { apply eq_None_not_Some. intros [v (j & a' & Hj & Ha' & Hk & _)%Ht]. assert (j = i); [|lia].
      apply (NoDup_lookup _ j i (key a) Hnd); rewrite list_lookup_fmap; [by rewrite Ha', <- Hk|by rewrite Ha]. }
    destruct (Hf i a t Ha Hnone) as (v & -> & Hv). cbn. intros k w. rewrite lookup_insert_key, Ht by done. split.
    + intros [[-> ->]|(j & a' & Hj & ? & ? & ?)]; [exists i, a; rewrite Hv; split; [lia|done]|exists j, a'; split; [lia|done]].
    + intros (j & a' & Hj & Ha' & Hk & Hg). destruct (decide (j = i)) as [->|]; [left; simplify_eq; split; [done|by apply Hv]|right; exists j, a'; split; [lia|done]].
Qed.

(** The same where positions do not matter. *)
Lemma yields_keys {E K V A} `{Countable K} (bad : E -> Prop) (key : A -> K) (value : A -> V) (f : gmap K V -> A -> result E (gmap K V)) (l : list A) :
  NoDup (key <$> l) -> (forall a t, a ∈ l -> t !! key a = None -> f t a = Ok (<[key a := value a]> t)) ->
  yields bad (fun t => forall a, a ∈ l -> t !! key a = Some (value a)) (foldM f ∅ l).
Proof.
  intros Hnd Hf. apply (yields_impl bad (fun t => forall k v, t !! k = Some v <-> exists a, a ∈ l /\ key a = k /\ value a = v)); [intros t Ht a Ha; apply Ht; by exists a|].
  apply (yields_foldM bad (fun pre (t : gmap K V) => forall k v, t !! k = Some v <-> exists a, a ∈ pre /\ key a = k /\ value a = v)).
  - intros k v. rewrite lookup_empty. split; [done|]. intros (? & ?%not_elem_of_nil & _). done.
  - intros pre a post t -> Ht. rewrite fmap_app, fmap_cons in Hnd. apply NoDup_app in Hnd as (_ & Hdis & _). assert (Hnone : t !! key a = None).
    { apply eq_None_not_Some. intros [v (a' & Ha' & Hk & _)%Ht]. apply (Hdis (key a)); [rewrite <- Hk; by apply list_elem_of_fmap_2|by left]. }
    rewrite (Hf a t) by (done || (apply elem_of_app; right; by left)). cbn. intros k v. rewrite lookup_insert_key, Ht by done.
    setoid_rewrite elem_of_app. setoid_rewrite list_elem_of_singleton. naive_solver.
Qed.

(** Nodes are appended one by one. *)
Lemma yields_append {E A B} (bad : E -> Prop) (f : list B -> A -> result E (list B)) (h : A -> B) (l : list A) (start : list B) :
  (forall i a acc, l !! i = Some a -> length acc = (length start + i)%nat -> f acc a = Ok (acc ++ [h a])) ->
  yields bad (eq (start ++ (h <$> l))) (foldM f start l).
Proof.
  intros Hf. apply (yields_foldM bad (fun pre acc => start ++ (h <$> pre) = acc)); [apply app_nil_r|].
  intros pre a post acc Hl <-. rewrite (Hf (length pre)); [cbn; by rewrite fmap_app, app_assoc|by rewrite Hl, list_lookup_middle|by rewrite length_app, length_fmap].
Qed.

(** ** The state of memory at a position *)

Section form.
Context {C D P : Type} `{SsaCfg C, Countable D, Countable P} (cfg : C) (t : DominatorTree) (Hlaw : lawful cfg t) (evs : list (list (MemoryAccessEvent D P))).
Abbreviation mem_event := (MemoryAccessEvent D P).
Abbreviation mem_version := (Version unit D).
Abbreviation n := (length (cfg_successors cfg)).
Abbreviation rows := (spread block_row 0 evs).
Implicit Types (e : mem_event) (es pre post : list mem_event) (b p i : nat) (x : mem_version) (u : Z).

Section placed.
Context (Ph : gset (nat * unit)) (s : SparseSsa unit D Z) (Hform : ssa_form cfg t rows Ph s) (Hlen : length evs = n).

Definition mem_assign x e : mem_version := match event_definition e with Some d => DefVersion () d | None => x end.
(** The version of memory in block [b] after the events [pre]. *)
Definition mem_after b pre : mem_version := foldl mem_assign (versions_phi t rows Ph b ()) pre.
Definition mem_out p : mem_version := mem_after p (default [] (evs !! p)).

Lemma mem_after_snoc b pre e : mem_after b (pre ++ [e]) = mem_assign (mem_after b pre) e.
Proof. apply foldl_snoc. Qed.

Lemma assign_event_row (a : unit -> mem_version) u pre : foldl event_assign a (event_row u pre) () = foldl mem_assign (a ()) pre.
Proof.
  revert a u. induction pre as [|e pre IH]; intros a u; [done|]. cbn [event_row foldl event_assign]. rewrite foldl_app, IH. f_equal.
  unfold def_event, mem_assign. destruct (event_definition e) as [d|]; [|done]. cbn [foldl event_assign]. by rewrite fn_lookup_insert.
Qed.

Lemma row_spread b es : evs !! b = Some es -> row_at rows b = block_row (uses (take b evs)) es.
Proof. intros Hb. unfold row_at. by rewrite spread_lookup, Hb. Qed.

Lemma mem_out_versions p : versions_out t rows Ph p () = mem_out p.
Proof.
  unfold versions_out, mem_out, mem_after, versions_after. destruct (evs !! p) as [es|] eqn:Hp.
  - rewrite (row_spread p es Hp). unfold block_row. cbn [foldl event_assign default]. rewrite foldl_app. cbn [foldl event_assign]. by rewrite assign_event_row.
  - unfold row_at. by rewrite spread_lookup, Hp.
Qed.

Lemma use_at b es u (pre' post' : list (Event unit D Z)) : evs !! b = Some es -> block_row (uses (take b evs)) es = pre' ++ UseEvent () u :: post' ->
  ssa_uses s !! u = Some (foldl event_assign (versions_phi t rows Ph b) pre' ()).
Proof.
  intros Hb Hrow. apply (sf_uses _ _ _ _ _ Hform). exists b. split; [rewrite <- Hlen; by eapply lookup_lt_Some|]. rewrite (row_spread b es Hb), Hrow. apply use_versions_at.
Qed.

(** The uses at the entry of a block, before an event, and at its exit. *)
Lemma use_entry b es : evs !! b = Some es -> ssa_uses s !! uses (take b evs) = Some (mem_after b []).
Proof. intros Hb. by apply (use_at b es _ [] (event_row (uses (take b evs) + 1) es ++ [UseEvent () (uses (take b evs) + 1 + length es)]) Hb). Qed.
Lemma use_before b pre e post : evs !! b = Some (pre ++ e :: post) -> ssa_uses s !! (uses (take b evs) + 1 + length pre) = Some (mem_after b pre).
Proof.
  intros Hb. unfold mem_after. rewrite <- (assign_event_row _ (uses (take b evs) + 1)).
  eapply (use_at b _ _ (UseEvent () (uses (take b evs)) :: event_row (uses (take b evs) + 1) pre)); [exact Hb|].
  unfold block_row. rewrite event_row_app. cbn [event_row app]. rewrite <- app_assoc. done.
Qed.
Lemma use_exit b es : evs !! b = Some es -> ssa_uses s !! (uses (take b evs) + 1 + length es) = Some (mem_after b es).
Proof.
  intros Hb. unfold mem_after. rewrite <- (assign_event_row _ (uses (take b evs) + 1)).
  by apply (use_at b _ _ (UseEvent () (uses (take b evs)) :: event_row (uses (take b evs) + 1) es) [] Hb).
Qed.

(** Only versions that exist are read. *)
Definition known x : Prop :=
  match x with EntryVersion _ => True | DefVersion _ d => d ∈ mem_defs (concat evs) | PhiVersion _ b => (b, ()) ∈ Ph end.

Lemma known_events b es (a : mem_version) pre : evs !! b = Some es -> known a -> (forall e, e ∈ pre -> e ∈ es) -> known (foldl mem_assign a pre).
Proof.
  intros Hb. revert a. induction pre as [|e pre IH]; intros a Ha Hin; [done|]. cbn [foldl]. apply IH; [|intros; apply Hin; by right].
  unfold mem_assign. destruct (event_definition e) as [d|] eqn:He; [|done]. cbn. unfold mem_defs. apply list_elem_of_omap. exists e. split; [|done].
  apply list_elem_of_In, in_concat. exists es. split; apply list_elem_of_In; [by eapply list_elem_of_lookup_2|]. apply Hin. by left.
Qed.

Lemma known_out p : known (versions_phi t rows Ph p ()) -> known (mem_out p).
Proof.
  intros Hk. unfold mem_out, mem_after. destruct (evs !! p) as [es|] eqn:Hp; cbn; [|done]. by apply (known_events p es).
Qed.

Lemma known_phi b : known (versions_phi t rows Ph b ()).
Proof.
  unfold versions_phi, phi_assign. case_decide as HbP; [done|]. unfold versions_in. generalize (default 0%nat (mjoin (depth t !! b))). intros k. clear HbP.
  revert b. induction k as [|k IH]; intros b; cbn [assign_from]; [done|]. destruct (mjoin (idom t !! b)) as [p|]; [|done].
  unfold block_assign. assert (Hp : known (phi_assign Ph p (assign_from t rows Ph k p) ())) by (unfold phi_assign; case_decide; [done|apply IH]).
  destruct (evs !! p) as [es|] eqn:Hes.
  - rewrite (row_spread p es Hes). unfold block_row. cbn [foldl event_assign]. rewrite foldl_app. cbn [foldl event_assign]. rewrite assign_event_row. by apply (known_events p es).
  - unfold row_at. by rewrite spread_lookup, Hes.
Qed.

Lemma known_after b pre post : evs !! b = Some (pre ++ post) -> known (mem_after b pre).
Proof. intros Hb. apply (known_events b (pre ++ post)); [done|apply known_phi|]. intros e He. apply elem_of_app. by left. Qed.

(** ** One node per version *)

Definition phis : list (Phi unit D) := phi_of (final_inputs cfg t rows Ph) <$> ascending Ph.

Record memory_form (acc : mem_version -> nat) (g : MemoryAccessGraph D) (pm : MemoryPointMap P) : Prop := {
  mf_entry : nodes g !! acc (EntryVersion ()) = Some LiveOnEntry;
  mf_def b pre e post d : evs !! b = Some (pre ++ e :: post) -> event_definition e = Some d ->
    nodes g !! acc (DefVersion () d) = Some (DefinitionNode d (acc (mem_after b pre)));
  mf_phi b : (b, ()) ∈ Ph -> nodes g !! acc (PhiVersion () b) = Some (PhiNode b ((fun p => (p, acc (mem_out p))) <$> row_of (cfg_predecessors cfg) b));
  mf_closed : closed_nodes (nodes g);
  mf_point b pre e post : evs !! b = Some (pre ++ e :: post) -> mp_events pm !! point e = Some (PointAccess (acc (mem_after b pre)) (acc (mem_after b (pre ++ [e]))));
  mf_blocks b es : evs !! b = Some es -> block_entries pm !! b = Some (acc (mem_after b [])) /\ block_exits pm !! b = Some (acc (mem_after b es));
  mf_counts : definition_count g = length (mem_defs (concat evs)) /\ phi_count g = size Ph /\ length (nodes g) = (1 + definition_count g + phi_count g)%nat }.

Section tables.
Context (bad : MemorySsaError -> Prop) (tables : usage_tables (D:=D)) (col : collected (D:=D) (P:=P)) (Ht : tables_ok evs tables) (Hc : collected_ok evs col) (Hnd : NoDup (mem_defs (concat evs))).

Definition table_acc (dt : gmap D nat) (pt : gmap nat nat) x : nat :=
  match x with EntryVersion _ => 0 | DefVersion _ d => default 0%nat (dt !! d) | PhiVersion _ b => default 0%nat (pt !! b) end.

Definition def_table (dt : gmap D nat) : Prop := forall d v, dt !! d = Some v <-> exists i pd, pending_definitions col !! i = Some pd /\ pd_definition pd = d /\ v = (i + 1)%nat.
Definition phi_rows (pt : gmap nat nat) : Prop := forall b v, pt !! b = Some v <-> exists i phi, phis !! i = Some phi /\ phi_block phi = b /\ v = (length (pending_definitions col) + 1 + i)%nat.

Lemma defs_names : pd_definition <$> pending_definitions col = mem_defs (concat evs).
Proof. by rewrite (ck_defs _ _ Hc), spread_defs. Qed.

Lemma def_table_spec : yields bad def_table (foldM add_definition ∅ (enumerate (pending_definitions col))).
Proof.
  apply (yields_table bad pd_definition (fun i _ v => v = (i + 1)%nat)); [by rewrite defs_names|].
  intros i pd dt Hi Hnone. exists (i + 1)%nat. split; [|done]. unfold add_definition. cbn [fst snd]. by rewrite decide_False by (by rewrite not_elem_of_dom).
Qed.

Lemma phi_blocks : NoDup (phi_block <$> phis).
Proof.
  unfold phis. rewrite <- list_fmap_compose. apply NoDup_fmap_2_strong; [|apply NoDup_ascending]. intros [b []] [b' []] _ _ Hb. cbn in Hb. by rewrite Hb.
Qed.

Lemma phi_table_spec : yields bad phi_rows (foldM (add_phi_access (length (pending_definitions col) + 1)) ∅ (enumerate phis)).
Proof.
  apply (yields_table bad phi_block (fun i _ v => v = (length (pending_definitions col) + 1 + i)%nat)); [apply phi_blocks|].
  intros i phi pt Hi Hnone. eexists. split; [|done]. unfold add_phi_access. cbn [fst snd]. by rewrite decide_False by (by rewrite not_elem_of_dom).
Qed.

Context (dt : gmap D nat) (pt : gmap nat nat) (Hdt : def_table dt) (Hpt : phi_rows pt).
Abbreviation acc := (table_acc dt pt).

Lemma dt_lookup d i : mem_defs (concat evs) !! i = Some d -> dt !! d = Some (i + 1)%nat.
Proof. intros Hi. apply Hdt. rewrite <- defs_names, list_lookup_fmap in Hi. destruct (pending_definitions col !! i) as [pd|] eqn:Hpd; [|done]. injection Hi as <-. by exists i, pd. Qed.

Lemma pt_lookup b i v : ascending Ph !! i = Some (b, v) -> pt !! b = Some (length (pending_definitions col) + 1 + i)%nat.
Proof. intros Hi. apply Hpt. exists i, (phi_of (final_inputs cfg t rows Ph) (b, v)). split; [|done]. unfold phis. by rewrite list_lookup_fmap, Hi. Qed.

Lemma access_known x : known x -> access_for_version dt pt x = Ok (acc x).
Proof.
  destruct x as [v|v d|v b]; cbn; [done|intros Hd|intros Hb].
  - apply list_elem_of_lookup in Hd as [i Hi]. by rewrite (dt_lookup d i Hi).
  - apply elem_of_ascending, list_elem_of_lookup in Hb as [i Hi]. by rewrite (pt_lookup b i () Hi).
Qed.

Lemma acc_bound x : known x -> (acc x < 1 + length (pending_definitions col) + length phis)%nat.
Proof.
  destruct x as [v|v d|v b]; cbn [table_acc known]; [lia|intros Hd|intros Hb].
  - apply list_elem_of_lookup in Hd as [i Hi]. rewrite (dt_lookup d i Hi). apply lookup_lt_Some in Hi. rewrite <- defs_names, length_fmap in Hi. cbn. lia.
  - apply elem_of_ascending, list_elem_of_lookup in Hb as [i Hi]. rewrite (pt_lookup b i () Hi). apply lookup_lt_Some in Hi. unfold phis. rewrite length_fmap. cbn. lia.
Qed.

(** ** The nodes *)

Definition version_at u : mem_version := default (EntryVersion ()) (ssa_uses s !! u).
Definition def_node (pd : PendingDefinition D) : MemoryAccessNode D := DefinitionNode (pd_definition pd) (acc (version_at (predecessor_usage pd))).
Definition phi_node_of (phi : Phi unit D) : MemoryAccessNode D := PhiNode (phi_block phi) ((fun px => (px.1, acc px.2)) <$> phi_inputs phi).
Definition all_nodes : list (MemoryAccessNode D) := ([LiveOnEntry] ++ (def_node <$> pending_definitions col)) ++ (phi_node_of <$> phis).

(** A pending definition is an event, and its use reads the state before. *)
Lemma pending_def pd : pd ∈ pending_definitions col -> exists b pre e post, evs !! b = Some (pre ++ e :: post) /\ event_definition e = Some (pd_definition pd) /\
  ssa_uses s !! predecessor_usage pd = Some (mem_after b pre).
Proof.
  rewrite (ck_defs _ _ Hc), elem_concat_spread. intros (b & es & Hb & Hpd). apply elem_event_defs in Hpd as (pre & e & post & -> & He & Hu).
  exists b, pre, e, post. split; [done|]. split; [done|]. rewrite Hu. by eapply use_before.
Qed.

Lemma pending_point pp : pp ∈ pending_points col -> exists b pre e post, evs !! b = Some (pre ++ e :: post) /\ pp_point pp = point e /\ pp_definition pp = event_definition e /\
  ssa_uses s !! before_usage pp = Some (mem_after b pre).
Proof.
  rewrite (ck_points _ _ Hc), elem_concat_spread. intros (b & es & Hb & Hpp). apply elem_event_points in Hpp as (pre & e & post & -> & ->).
  exists b, pre, e, post. split; [done|]. split; [done|]. split; [done|]. cbn. by eapply use_before.
Qed.

Lemma known_input phi px : phi ∈ phis -> px ∈ phi_inputs phi -> known px.2.
Proof.
  intros Hphi Hpx. apply list_elem_of_fmap in Hphi as ([b []] & -> & Hb). cbn in Hpx. unfold final_inputs in Hpx. apply list_elem_of_fmap in Hpx as (p & -> & _). cbn.
  rewrite mem_out_versions. apply known_out, known_phi.
Qed.

Lemma def_nodes_spec : yields bad (eq ([LiveOnEntry] ++ (def_node <$> pending_definitions col)))
  (foldM (definition_node dt pt (ssa_uses s)) [LiveOnEntry] (pending_definitions col)).
Proof.
  apply yields_append. intros i pd acc_nodes Hi Hlength. unfold definition_node. pose proof (list_elem_of_lookup_2 _ _ _ Hi) as Hin.
  destruct (pending_def pd Hin) as (b & pre & e & post & Hb & He & Hu).
  assert (Hd : dt !! pd_definition pd = Some (i + 1)%nat) by (apply dt_lookup; rewrite <- defs_names, list_lookup_fmap, Hi; done).
  rewrite Hd, Hu. msimpl. rewrite access_known by (by eapply known_after). msimpl. rewrite decide_True by (rewrite Hlength; cbn; lia).
  do 2 f_equal. unfold def_node, version_at. by rewrite Hu.
Qed.

Lemma phi_nodes_spec : yields bad (eq all_nodes) (foldM (phi_node dt pt) ([LiveOnEntry] ++ (def_node <$> pending_definitions col)) phis).
Proof.
  apply yields_append. intros i phi acc_nodes Hi Hlength. unfold phi_node. pose proof (list_elem_of_lookup_2 _ _ _ Hi) as Hin.
  assert (Hb : pt !! phi_block phi = Some (length (pending_definitions col) + 1 + i)%nat) by (apply Hpt; by exists i, phi).
  rewrite Hb. msimpl. rewrite (mapMr_ok _ (fun px : nat * mem_version => (px.1, acc px.2))).
  - msimpl. rewrite decide_True; [done|]. rewrite Hlength, length_app, length_fmap. cbn. lia.
  - intros px Hpx. unfold phi_input_access. by rewrite access_known by (by eapply known_input).
Qed.

Lemma usage_known u x : ssa_uses s !! u = Some x -> known x -> usage_access dt pt (ssa_uses s) u = Ok (acc x).
Proof. intros Hu Hx. unfold usage_access. rewrite Hu. msimpl. by apply access_known. Qed.

Definition point_access (pp : PendingPoint D P) : MemoryPointAccess :=
  let before := acc (version_at (before_usage pp)) in PointAccess before (match pp_definition pp with Some d => acc (DefVersion () d) | None => before end).

Lemma event_defined b pre e post d : evs !! b = Some (pre ++ e :: post) -> event_definition e = Some d -> d ∈ mem_defs (concat evs).
Proof.
  intros Hb He. unfold mem_defs. apply list_elem_of_omap. exists e. split; [|done]. apply list_elem_of_In, in_concat. exists (pre ++ e :: post).
  split; apply list_elem_of_In; [by eapply list_elem_of_lookup_2|]. apply elem_of_app. right. by left.
Qed.

Lemma points_spec : yields bad (fun points : gmap P MemoryPointAccess => forall pp, pp ∈ pending_points col -> points !! pp_point pp = Some (point_access pp))
  (foldM (add_point dt pt (ssa_uses s)) ∅ (pending_points col)).
Proof.
  apply yields_keys; [rewrite (ck_points _ _ Hc), spread_points; apply (ck_nodup _ _ Hc)|]. intros pp points Hpp Hnone. unfold add_point.
  destruct (pending_point pp Hpp) as (b & pre & e & post & Hb & _ & Hdef & Hu). rewrite (usage_known _ _ Hu) by (by eapply known_after). msimpl.
  unfold point_access, version_at. rewrite Hu. cbn [default from_option id]. rewrite Hdef. destruct (event_definition e) as [d|] eqn:He.
  - pose proof (event_defined _ _ _ _ _ Hb He) as Hd. apply list_elem_of_lookup in Hd as [i Hi]. rewrite (dt_lookup d i Hi). cbn [table_acc].
    rewrite (dt_lookup d i Hi). by rewrite decide_False by (by rewrite not_elem_of_dom).
  - by rewrite decide_False by (by rewrite not_elem_of_dom).
Qed.

Lemma boundary_spec (f : Z -> list mem_event -> Z) : (forall b es, evs !! b = Some es -> exists x, known x /\ ssa_uses s !! f (uses (take b evs)) es = Some x) ->
  yields bad (eq ((fun u => acc (version_at u)) <$> spread f 0 evs)) (mapMr (usage_access dt pt (ssa_uses s)) (spread f 0 evs)).
Proof.
  intros Hf. rewrite (mapMr_ok _ (fun u => acc (version_at u))); [done|]. intros u Hu. apply list_elem_of_lookup in Hu as [b Hb].
  rewrite spread_lookup in Hb. destruct (evs !! b) as [es|] eqn:Hes; [|done]. cbn in Hb. injection Hb as <-.
  destruct (Hf b es Hes) as (x & Hx & Hu). rewrite Z.add_0_l in *. rewrite (usage_known _ _ Hu Hx). unfold version_at. by rewrite Hu.
Qed.

Lemma nodes_def i : all_nodes !! (i + 1)%nat = match pending_definitions col !! i with Some pd => Some (def_node pd) | None => (phi_node_of <$> phis) !! (i - length (pending_definitions col))%nat end.
Proof.
  unfold all_nodes. rewrite Nat.add_1_r. cbn [app]. change ((LiveOnEntry :: ?l) !! S ?k) with (l !! k). rewrite lookup_app, list_lookup_fmap, length_fmap.
  by destruct (pending_definitions col !! i).
Qed.

Lemma length_all_nodes : length all_nodes = (1 + length (pending_definitions col) + length phis)%nat.
Proof. unfold all_nodes. rewrite !length_app, !length_fmap. done. Qed.

Lemma nodes_phi i : all_nodes !! (length (pending_definitions col) + 1 + i)%nat = phi_node_of <$> (phis !! i).
Proof.
  replace (length (pending_definitions col) + 1 + i)%nat with ((length (pending_definitions col) + i) + 1)%nat by lia. rewrite nodes_def.
  rewrite lookup_ge_None_2 by lia. rewrite <- list_lookup_fmap. f_equal. lia.
Qed.

(** Every input of a node is the place of a version. *)
Lemma node_input (i : nat) node y : all_nodes !! i = Some node -> y ∈ inputs_of node -> exists v, known v /\ y = acc v.
Proof.
  intros Hx%list_elem_of_lookup_2 Hy. unfold all_nodes in Hx. apply elem_of_app in Hx as [Hx|Hx]; [apply elem_of_app in Hx as [Hx|Hx]|].
  - apply list_elem_of_singleton in Hx as ->. by apply not_elem_of_nil in Hy.
  - apply list_elem_of_fmap in Hx as (pd & -> & Hpd). cbn in Hy. apply list_elem_of_singleton in Hy as ->. destruct (pending_def pd Hpd) as (b & pre & e & post & Hb & _ & Hu).
    exists (mem_after b pre). split; [by eapply known_after|]. unfold version_at. by rewrite Hu.
  - apply list_elem_of_fmap in Hx as (phi & -> & Hphi). cbn in Hy. rewrite <- list_fmap_compose in Hy. apply list_elem_of_fmap in Hy as (px & -> & Hpx).
    exists px.2. split; [by eapply known_input|done].
Qed.

Lemma form_ok points :
  (forall pp, pp ∈ pending_points col -> points !! pp_point pp = Some (point_access pp)) ->
  memory_form acc (MkAccessGraph all_nodes (length (pending_definitions col)) (length phis))
    (MkPointMap points ((fun u => acc (version_at u)) <$> block_entry_usages tables) ((fun u => acc (version_at u)) <$> block_exit_usages tables)).
Proof.
  intros Hpoints. split; cbn [nodes definition_count phi_count mp_events block_entries block_exits].
  - done.
  - intros b pre e post d Hb He. set (pd := MkPendingDefinition d (uses (take b evs) + 1 + length pre)).
    assert (Hpd : pd ∈ pending_definitions col).
    { rewrite (ck_defs _ _ Hc), elem_concat_spread. exists b, (pre ++ e :: post). split; [done|]. apply elem_event_defs. by exists pre, e, post. }
    apply list_elem_of_lookup in Hpd as [i Hi]. cbn [table_acc]. rewrite (proj2 (Hdt d (i + 1)%nat)) by (by exists i, pd). cbn [default from_option id].
    rewrite nodes_def, Hi. unfold def_node, version_at, pd. cbn [pd_definition predecessor_usage]. by rewrite (use_before _ _ _ _ Hb).
  - intros b Hb. apply elem_of_ascending, list_elem_of_lookup in Hb as [i Hi]. cbn [table_acc]. rewrite (pt_lookup b i () Hi). cbn [default from_option id].
    rewrite nodes_phi. unfold phis. rewrite list_lookup_fmap, Hi. cbn. unfold phi_node_of. cbn. unfold final_inputs. rewrite <- list_fmap_compose. do 2 f_equal.
    apply list_fmap_ext. intros _ p _. cbn. by rewrite mem_out_versions.
  - intros i node y Hx Hy. destruct (node_input i node y Hx Hy) as (v & Hv & ->). rewrite length_all_nodes. by apply acc_bound.
  - intros b pre e post Hb. set (pp := MkPendingPoint (point e) (uses (take b evs) + 1 + length pre) (event_definition e)).
    assert (Hpp : pp ∈ pending_points col).
    { rewrite (ck_points _ _ Hc), elem_concat_spread. exists b, (pre ++ e :: post). split; [done|]. apply elem_event_points. by exists pre, e, post. }
    change (point e) with (pp_point pp). rewrite (Hpoints pp Hpp). unfold point_access, version_at, pp. cbn [before_usage pp_definition].
    rewrite (use_before _ _ _ _ Hb). cbn [default from_option id]. rewrite mem_after_snoc. unfold mem_assign. by destruct (event_definition e).
  - intros b es Hb. rewrite (tk_entries _ _ Ht), (tk_exits _ _ Ht), !list_lookup_fmap, !spread_lookup, Hb. cbn [fmap option_fmap option_map]. unfold version_at.
    by rewrite Z.add_0_l, (use_entry _ _ Hb), (use_exit _ _ Hb).
  - split; [by rewrite <- defs_names, length_fmap|]. split; [|by rewrite length_all_nodes].
    unfold phis, ascending. rewrite length_fmap. rewrite (Permutation_length (merge_sort_Permutation _ _)). done.
Qed.
End tables.
End placed.

(** ** The outcome *)

(** The definition of [err] repeats an earlier one. *)
Definition repeated_definition (err : MemorySsaError) : Prop := exists b pre e post d, evs !! b = Some (pre ++ e :: post) /\ event_definition e = Some d /\
  err = MkMemoryError (FromSsa DefinitionIdentity) (Some b) /\ d ∈ mem_defs (concat (take b evs) ++ pre).

Definition not_memory_ssa (err : MemorySsaError) : Prop :=
  err = MkMemoryError MemoryModelShape None /\ length evs <> n \/ length evs = n /\ (not_collected evs err \/ repeated_definition err).

Lemma event_row_def u w es d (pre' post' : list (Event unit D Z)) : event_row u es ++ [UseEvent () w] = pre' ++ DefEvent () d :: post' ->
  exists pre e post, es = pre ++ e :: post /\ event_definition e = Some d /\ row_defs pre' = (fun d => ((), d)) <$> mem_defs pre.
Proof.
  revert u pre'. induction es as [|e es IH]; intros u pre' Heq; cbn in Heq.
  - destruct pre' as [|a [|]]; discriminate.
  - destruct pre' as [|a pre']; cbn in Heq; [done|]. injection Heq as <- Heq. rewrite <- app_assoc in Heq. unfold def_event in Heq.
    destruct (event_definition e) as [d0|] eqn:He; cbn in Heq.
    + destruct pre' as [|a pre']; cbn in Heq; injection Heq as <-; [exists [], e, es; by rewrite He; subst|].
      apply IH in H2 as (pre & e' & post & -> & He' & Hd). exists (e :: pre), e', post. split; [done|]. split; [done|].
      change (row_defs (UseEvent () u :: DefEvent () d0 :: pre')) with (((), d0) :: row_defs pre'). rewrite Hd. unfold mem_defs. csimpl. by rewrite He.
    + apply IH in Heq as (pre & e' & post & -> & He' & Hd). exists (e :: pre), e', post. split; [done|]. split; [done|].
      change (row_defs (UseEvent () u :: pre')) with (row_defs pre'). rewrite Hd. unfold mem_defs. csimpl. by rewrite He.
Qed.

Lemma take_spread {A} (f : Z -> list mem_event -> A) u b : take b (spread f u evs) = spread f u (take b evs).
Proof. revert u b. induction evs as [|es l IH]; intros u [|b]; cbn; [done..|]. by rewrite IH. Qed.

(** With numbered uses, only a definition can repeat. *)
Lemma ssa_error err : length evs = n -> not_ssa cfg rows err -> repeated_definition (from_ssa_error err).
Proof.
  intros Hlen [[_ Hno]|(_ & b & pre' & ev & post' & Hb & Hev)]; [by rewrite length_spread in Hno|].
  assert (Hsplit : concat rows = (concat (take b rows) ++ pre') ++ ev :: post' ++ concat (drop (S b) rows)).
  { rewrite <- (take_drop_middle _ _ _ Hb) at 1. rewrite concat_app. cbn [concat]. by rewrite <- !app_assoc. }
  destruct ev as [[] w|[] d]; destruct Hev as [-> Hin].
  - exfalso. pose proof (NoDup_seqZ 0 (uses evs)) as Hnd. rewrite <- rows_uses, Hsplit, row_uses_app in Hnd. apply NoDup_app in Hnd as (_ & Hdis & _).
    apply (Hdis w Hin). by left.
  - rewrite spread_lookup in Hb. destruct (evs !! b) as [es|] eqn:Hes; [|done]. cbn in Hb. injection Hb as Hb. unfold block_row in Hb.
    destruct pre' as [|a pre']; cbn in Hb; [done|]. injection Hb as <- Hb. apply event_row_def in Hb as (pre & e & post & -> & He & Hd).
    exists b, pre, e, post, d. split; [done|]. split; [done|]. split; [done|]. rewrite row_defs_app in Hin. change (row_defs (UseEvent () ?w :: pre')) with (row_defs pre') in Hin.
    rewrite Hd, take_spread, rows_defs, <- fmap_app in Hin. apply list_elem_of_fmap in Hin as (d' & [= <-] & Hin). unfold mem_defs. by rewrite (omap_app event_definition).
Qed.

Lemma memory_build_spec : yields not_memory_ssa (fun gp => length evs = n /\ (NoDup (point <$> concat evs) /\ NoDup (mem_defs (concat evs)) /\ uses evs <= usize_max) /\
  exists Ph acc, (forall b, (b, ()) ∈ Ph <-> placed (cfg_successors cfg) (cfg_root cfg) t rows () b) /\ memory_form Ph acc gp.1 gp.2) (MemorySsa.build cfg evs).
Proof.
  unfold MemorySsa.build. case_decide as Hshape; [by left|]. assert (Hlen : length evs = n) by (by destruct (decide (length evs = n))). clear Hshape.
  eapply yields_bind; [eapply yields_weaken; [|apply collect_spec]; intros err Herr; right; split; [done|by left]|]. intros [tables col] [Ht Hc]. cbn [fst snd] in *.
  rewrite (tk_rows _ _ Ht). unfold lift_ssa. pose proof (ssa_build_spec cfg t Hlaw rows) as Hs. destruct (Ssa.build cfg rows) as [s|err|]; cbn in Hs; [|right; split; [done|right; by apply ssa_error]|done].
  msimpl. destruct Hs as (_ & [_ Hids] & Ph & Hform). rewrite rows_defs in Hids.
  assert (Hnd : NoDup (mem_defs (concat evs))) by (by apply NoDup_fmap_1 in Hids).
  rewrite (sf_phis _ _ _ _ _ Hform). fold (phis Ph).
  eapply yields_bind; [by apply (def_table_spec not_memory_ssa col)|]. intros dt Hdt.
  eapply yields_bind; [by apply (phi_table_spec Ph not_memory_ssa col)|]. intros pt Hpt.
  eapply yields_bind; [by apply (def_nodes_spec Ph s Hform Hlen not_memory_ssa col Hc dt pt)|]. intros ? <-.
  eapply yields_bind; [by apply (phi_nodes_spec Ph s Hlen not_memory_ssa col Hc dt pt)|]. intros ? <-.
  eapply yields_bind; [by apply (points_spec Ph s Hform Hlen not_memory_ssa col Hc dt pt)|]. intros points Hpoints.
  rewrite (tk_entries _ _ Ht), (tk_exits _ _ Ht).
  eapply yields_bind; [apply (boundary_spec Ph s not_memory_ssa col Hc dt pt Hdt Hpt); intros b es Hb; exists (mem_after Ph b []); split; [by apply (known_after Ph b [] es)|by eapply use_entry]|]. intros ? <-.
  eapply yields_bind; [apply (boundary_spec Ph s not_memory_ssa col Hc dt pt Hdt Hpt); intros b es Hb; exists (mem_after Ph b es); split; [apply (known_after Ph b es []); by rewrite app_nil_r|by eapply use_exit]|]. intros ? <-.
  cbn [yields fst snd]. split; [done|]. split; [split; [apply (ck_nodup _ _ Hc)|]; split; [done|apply (ck_range _ _ Hc)]|].
  exists Ph, (table_acc dt pt). split; [intros b; apply (sf_placed _ _ _ _ _ Hform)|].
  rewrite <- (tk_entries _ _ Ht), <- (tk_exits _ _ Ht). by apply (form_ok Ph s Hform Hlen tables col).
Qed.
End form.
