(* ===== verification/MemoryTheorems.v ===== *)
(** * MemoryTheorems: memory SSA on an analysed graph

    Executions enter blocks and execute memory definitions. The graph
    [MemorySsa.build] makes follows every execution backwards, and the answer
    of a clobber query is a node that every execution to the point has passed
    with no aliasing definition since. *)

From stdpp Require Import functions.
From S2P Require Import Prelude Specs Order Graph Cfg CfgTree CfgTreeFacts CfgDominators CfgLoops CfgAnalyze CfgTheorems Ssa SsaFacts SsaRename SsaPaths SsaTheorems MemorySsa MemoryWalk MemoryClobber MemoryBuild MemoryForm.

(** ** Executions *)

(** What happens in an execution: a block is entered, or a definition of
    memory is executed. *)
Inductive moment (D : Type) : Type := Entered (block : nat) | Executed (definition : D).
Arguments Entered {D} block.
Arguments Executed {D} definition.

(** The moments of an event. *)
Definition event_moments {D P} (e : MemoryAccessEvent D P) : list (moment D) :=
  match event_definition e with Some d => [Executed d] | None => [] end.

(** An execution from the root, in block [b] after its events [pre]. *)
Inductive execution {D P : Type} (g : graph) (root : nat) (evs : list (list (MemoryAccessEvent D P)))
    : list (moment D) -> nat -> list (MemoryAccessEvent D P) -> Prop :=
  | exec_start : execution g root evs [Entered root] root []
  | exec_event tr b pre e post : execution g root evs tr b pre -> evs !! b = Some (pre ++ e :: post) ->
      execution g root evs (tr ++ event_moments e) b (pre ++ [e])
  | exec_edge tr b row c : execution g root evs tr b row -> evs !! b = Some row -> edge g b c ->
      execution g root evs (tr ++ [Entered c]) c [].

(** No definition of [tr] may alias the query. *)
Definition quiet {D Q} (may_alias : D -> Q -> bool) (query : Q) (tr : list (moment D)) : Prop :=
  forall d, Executed d ∈ tr -> may_alias d query = false.

(** What the answer says of an execution: no aliasing definition was executed,
    or none since the one named, or none since some entry of the block of the
    phi named. *)
Definition clobbered {D Q} (may_alias : D -> Q -> bool) (query : Q) (g : MemoryAccessGraph D) (answer : MemoryClobber) (tr : list (moment D)) : Prop :=
  match answer with
  | Indeterminate => False
  | AccessClobber a =>
      match access g a with
      | Some LiveOnEntry => quiet may_alias query tr
      | Some (DefinitionNode d _) => may_alias d query = true /\ exists before after, tr = before ++ Executed d :: after /\ quiet may_alias query after
      | Some (PhiNode b _) => exists before after, tr = before ++ Entered b :: after /\ quiet may_alias query after
      | None => False
      end
  end.

Section follow.
Context {C D P Q : Type} `{SsaCfg C, Countable D, Countable P} (cfg : C) (t : DominatorTree) (Hlaw : lawful cfg t) (evs : list (list (MemoryAccessEvent D P))).
Abbreviation g := (cfg_successors cfg).
Abbreviation root := (cfg_root cfg).
Abbreviation mem_rows := (spread block_row 0 evs).
Context (Hentry : forall p, ~ edge g p root) (Hlen : length evs = length g) (Ph : gset (nat * unit)) (HPh : forall b, (b, ()) ∈ Ph <-> placed g root t mem_rows () b).
Context (acc : Version unit D -> nat) (mg : MemoryAccessGraph D) (pm : MemoryPointMap P) (Hform : memory_form cfg t evs Ph acc mg pm).
Context (may_alias : D -> Q -> bool) (query : Q).
Abbreviation here b pre := (acc (mem_after t evs Ph b pre)).
Abbreviation walk := (walk may_alias query (nodes mg)).
Implicit Types (b c p a r : nat) (e : MemoryAccessEvent D P) (pre post row : list (MemoryAccessEvent D P)) (tr : list (moment D)).

(** ** One step of an execution in the graph *)

Lemma exec_row tr b pre : execution g root evs tr b pre -> exists post, evs !! b = Some (pre ++ post).
Proof.
  pose proof (lw_tree _ _ Hlaw) as Hdt. induction 1 as [|tr b pre e post _ _ Hrow|tr b row c _ _ _ He].
  - destruct (lookup_lt_is_Some_2 evs root) as [row Hrow]; [rewrite Hlen; apply (dt_root _ _ _ Hdt)|by exists row].
  - exists post. by rewrite <- app_assoc.
  - destruct (lookup_lt_is_Some_2 evs c) as [row' Hrow']; [rewrite Hlen; by apply (dt_closed _ _ _ Hdt b)|by exists row'].
Qed.

(** Every block starts with a use of the memory. *)
Lemma memory_live b : (b < length g)%nat -> live g mem_rows () b.
Proof.
  intros Hb. destruct (lookup_lt_is_Some_2 evs b) as [es Hes]; [lia|]. apply live_use. exists (block_row (uses (take b evs)) es).
  split; [by rewrite spread_lookup, Hes|]. eexists [], _, _. split; [done|]. by intros (d & ?%not_elem_of_nil).
Qed.

Lemma here_event b pre e post : evs !! b = Some (pre ++ e :: post) ->
  match event_definition e with
  | Some d => nodes mg !! here b (pre ++ [e]) = Some (DefinitionNode d (here b pre))
  | None => here b (pre ++ [e]) = here b pre
  end.
Proof.
  intros Hb. rewrite mem_after_snoc. unfold mem_assign. destruct (event_definition e) as [d|] eqn:He; [|done]. by eapply (mf_def _ _ _ _ _ _ _ Hform).
Qed.

Lemma here_edge p b row : edge g p b -> evs !! p = Some row ->
  (exists inputs, nodes mg !! here b [] = Some (PhiNode b inputs) /\ here p row ∈ inputs.*2) \/ here b [] = here p row.
Proof.
  intros He Hrow. pose proof (lw_tree _ _ Hlaw) as Hdt. destruct (edge_index g root t Hdt p b He) as [Hp Hb].
  assert (Hout : mem_out t evs Ph p = mem_after t evs Ph p row) by (unfold mem_out; by rewrite Hrow).
  unfold mem_after at 1. cbn [foldl]. unfold mem_after at 2. cbn [foldl]. unfold versions_phi, phi_assign. case_decide as HbP.
  - left. eexists. split; [by apply (mf_phi _ _ _ _ _ _ _ Hform)|]. rewrite <- list_fmap_compose. rewrite <- Hout.
    apply (list_elem_of_fmap_2 (fun p => acc (mem_out t evs Ph p))). rewrite <- edge_row. by apply (proj2 (lw_reverses _ _ Hlaw)).
  - right. rewrite <- Hout, <- mem_out_versions. f_equal.
    apply (version_across g root t Hdt (lw_reachable _ _ Hlaw) mem_rows Ph); [by intros x []|done|done|by apply memory_live|]. by rewrite <- HPh.
Qed.

Lemma here_root : nodes mg !! here root [] = Some LiveOnEntry.
Proof.
  pose proof (lw_tree _ _ Hlaw) as Hdt. unfold mem_after. cbn [foldl]. unfold versions_phi, phi_assign. rewrite decide_False.
  - rewrite (versions_root _ _ _ Hdt). apply (mf_entry _ _ _ _ _ _ _ Hform).
  - rewrite HPh. intros Hpl. assert (Hfr : exists x, in_frontier g root t x root) by (inversion Hpl; subst; by eexists).
    destruct Hfr as (x & q & _ & _ & He & _). by apply (Hentry q).
Qed.

(** ** Walks from the point of an execution *)

Lemma execution_walk tr b pre : execution g root evs tr b pre -> exists l, walk (here b pre) l.
Proof.
  induction 1 as [|tr b pre e post _ [l Hl] Hrow|tr b row c Hex [l Hl] Hrow He].
  - exists [here root []]. apply walk_stop. left. apply here_root.
  - pose proof (here_event b pre e post Hrow) as Hh. destruct (event_definition e) as [d|]; [|rewrite Hh; by exists l].
    destruct (may_alias d query) eqn:Hal; [eexists; apply walk_stop; right; by eexists _, _|].
    eexists. eapply walk_move; [left; by exists d|exact Hl].
  - destruct (here_edge b c row He Hrow) as [(ins & Hn & Hin)| ->]; [|by exists l].
    eexists. eapply walk_move; [right; by eexists _, _|exact Hl].
Qed.

Lemma quiet_nil : quiet may_alias query [].
Proof. by intros d ?%not_elem_of_nil. Qed.
Lemma quiet_app tr1 tr2 : quiet may_alias query tr1 -> quiet may_alias query tr2 -> quiet may_alias query (tr1 ++ tr2).
Proof. intros H1' H2' d [?|?]%elem_of_app; auto. Qed.
Lemma quiet_entered b : quiet may_alias query [Entered b].
Proof. intros d Hd. apply list_elem_of_singleton in Hd. done. Qed.

Lemma clobbered_app r tr tr' : clobbered may_alias query mg (AccessClobber r) tr -> quiet may_alias query tr' -> clobbered may_alias query mg (AccessClobber r) (tr ++ tr').
Proof.
  cbn. destruct (access mg r) as [[|d p|b ins]|]; [|intros [Hal (t1 & t2 & -> & Hq)] Hq'; split; [done|]|intros (t1 & t2 & -> & Hq) Hq'|done].
  - intros Hq Hq'. by apply quiet_app.
  - exists t1, (t2 ++ tr'). split; [by rewrite <- app_assoc|by apply quiet_app].
  - exists t1, (t2 ++ tr'). split; [by rewrite <- app_assoc|by apply quiet_app].
Qed.

(** A node that every walk from the point passes. *)
Lemma execution_clobbered tr b pre r : execution g root evs tr b pre -> (forall y, ~ skips may_alias query (nodes mg) r y) ->
  (forall l, walk (here b pre) l -> r ∈ l) -> clobbered may_alias query mg (AccessClobber r) tr.
Proof.
  intros Hex Hr. induction Hex as [|tr b pre e post _ IH Hrow|tr b row c Hex IH Hrow He]; intros Hpass.
  - assert (r = here root []) as -> by (apply list_elem_of_singleton, Hpass, walk_stop; left; apply here_root).
    unfold clobbered, access. rewrite here_root. apply quiet_entered.
  - pose proof (here_event b pre e post Hrow) as Hh. unfold event_moments. destruct (event_definition e) as [d|]; [|rewrite Hh in Hpass; rewrite app_nil_r; by apply IH].
    destruct (may_alias d query) eqn:Hal.
    + assert (r = here b (pre ++ [e])) as -> by (apply list_elem_of_singleton, Hpass, walk_stop; right; by eexists _, _).
      unfold clobbered, access. rewrite Hh. split; [done|]. exists tr, []. split; [done|apply quiet_nil].
    + assert (Hs : skips may_alias query (nodes mg) (here b (pre ++ [e])) (here b pre)) by by exists d.
      apply clobbered_app; [|intros d' Hd; apply list_elem_of_singleton in Hd as [= ->]; done]. apply IH. intros l Hl.
      assert (Hin : r ∈ here b (pre ++ [e]) :: l) by (apply Hpass; eapply walk_move; [by left|done]).
      apply elem_of_cons in Hin as [->|?]; [by destruct (Hr (here b pre))|done].
  - destruct (here_edge b c row He Hrow) as [(ins & Hn & Hin)|Hh]; [|rewrite Hh in Hpass; apply clobbered_app; [by apply IH|apply quiet_entered]].
    destruct (decide (r = here c [])) as [->|Hne].
    + unfold clobbered, access. rewrite Hn. exists tr, []. split; [done|apply quiet_nil].
    + apply clobbered_app; [|apply quiet_entered]. apply IH. intros l Hl.
      assert (Hrl : r ∈ here c [] :: l) by (apply Hpass; eapply walk_move; [right; by eexists _, _|done]). by apply elem_of_cons in Hrl as [?|?].
Qed.
End follow.

(** ** On an analysed graph *)

Lemma execution_same {D P} (g h : graph) root (evs : list (list (MemoryAccessEvent D P))) tr b pre :
  (forall x y, edge g x y -> edge h x y) -> execution g root evs tr b pre -> execution h root evs tr b pre.
Proof. intros He. induction 1; [constructor|by econstructor|econstructor; eauto]. Qed.

Section theorems.
Context {D P Q : Type} `{Countable D, Countable P}.
Implicit Types (g : graph) (root b start : nat) (evs : list (list (MemoryAccessEvent D P))) (mg : MemoryAccessGraph D) (w : ClobberWalker).

(** On an analysed graph the memory graph is built exactly when there is
    one row of events per block, no point and no definition occurs twice, and
    the uses fit in a [usize]; otherwise the error is the shape, the first
    repeated point or definition, or the exhausted numbers -- none of the
    internal errors and assertions of the pass can occur. *)
Lemma memory_build_outcome g root c evs (Hc : analyze g root = Ok c) :
  match MemorySsa.build c evs with
  | Ok _ => length evs = length g /\ NoDup (point <$> concat evs) /\ NoDup (mem_defs (concat evs)) /\ uses evs <= usize_max
  | Err err => err = MkMemoryError MemoryModelShape None /\ length evs <> length g \/
      length evs = length g /\ (not_collected evs err \/ repeated_definition evs err)
  | Panic => False
  end.
Proof.
  destruct (analysed_view g root c Hc) as (Hlaw & _ & Hlen & _). pose proof (memory_build_spec c _ Hlaw evs) as Hs. unfold not_memory_ssa in Hs. rewrite Hlen in Hs.
  destruct (MemorySsa.build c evs) as [gp|err|]; cbn in Hs; [|done..]. by destruct Hs as (? & ? & _).
Qed.

(** C12: The clobber of the state before an event covers every execution that
    reaches the event: no definition that may alias the query was executed
    since the definition named, since the entry of the block of the phi named,
    or at all when the answer is the state on entry; a named definition does
    alias. The walk always answers, never with [Indeterminate]. The root must
    have no predecessors. *)
Theorem clobber_covers_executions g root c evs mg pm (may_alias : D -> Q -> bool) (query : Q) tr b pre e post w
    (Hc : analyze g root = Ok c) (Hb : MemorySsa.build c evs = Ok (mg, pm)) (Hentry : forall p, ~ edge g p root)
    (Hex : execution g root evs tr b pre) (Hrow : evs !! b = Some (pre ++ e :: post)) (Hw : walker_ok w) :
  match event_access pm (point e) with
  | Some access =>
      match clobber (E:=MemorySsaError) may_alias query mg (before access) w with
      | Ok (Some answer, w') => walker_ok w' /\ clobbered may_alias query mg answer tr
      | _ => False
      end
  | None => False
  end.
Proof.
  destruct (analysed_view g root c Hc) as (Hlaw & Hroot & Hlen & He). pose proof (memory_build_spec c _ Hlaw evs) as Hs. rewrite Hb in Hs.
  destruct Hs as (Hl & _ & Ph & acc & HPh & Hform). cbn [fst snd] in Hform.
  assert (Hentry' : forall p, ~ edge (cfg_successors c) p (cfg_root c)) by (intros p Hp%He; rewrite Hroot in Hp; by apply (Hentry p)).
  assert (Hex' : execution (cfg_successors c) (cfg_root c) evs tr b pre) by (rewrite Hroot; eapply execution_same; [|exact Hex]; intros x y; apply He).
  unfold event_access. rewrite (mf_point _ _ _ _ _ _ _ Hform _ _ _ _ Hrow). cbn [before].
  destruct (execution_walk c _ Hlaw evs Hentry' Hl Ph HPh acc mg pm Hform may_alias query tr b pre Hex') as [l Hl'].
  assert (Hlt : (acc (mem_after (fwd_dominators (cfg_forward c)) evs Ph b pre) < length (nodes mg))%nat).
  { inversion Hl' as [? Hst|? y ? Hm]; subst; [destruct Hst as [Hn|(d & p & Hn & _)]|destruct Hm as [(d & Hn & _)|(k & ins & Hn & _)]]; by eapply lookup_lt_Some. }
  destruct (clobber_sound_spec (E:=MemorySsaError) may_alias query mg (mf_closed _ _ _ _ _ _ _ Hform) _ Hlt) as (answer & Hsound & Hrun).
  destruct (Hrun w Hw) as (w' & Hw' & ->). split; [done|]. destruct answer as [r|]; cbn in Hsound; [|by destruct (endless_no_walk _ _ _ _ _ Hsound Hl')].
  destruct Hsound as (_ & Hsk & Hpass). by eapply (execution_clobbered c _ Hlaw evs Hentry' Hl Ph HPh acc mg pm Hform).
Qed.

(** C15: On any graph whose inputs are nodes, cycles included, the iterative
    clobber walk ends: a start point in the table gets an answer, and every
    walk from it -- through phis and the definitions the query does not alias,
    up to the first node that stops it -- passes the node of the answer; only
    a cycle of definitions without a phi is [Indeterminate]. *)
Theorem clobber_answers mg (may_alias : D -> Q -> bool) (query : Q) start w (Hclosed : closed_nodes (nodes mg)) (Hw : walker_ok w) :
  match clobber (E:=MemorySsaError) may_alias query mg start w with
  | Ok (Some answer, w') => (start < length (nodes mg))%nat /\ walker_ok w' /\ sound_clobber may_alias query mg start answer
  | Ok (None, _) => (length (nodes mg) <= start)%nat
  | _ => False
  end.
Proof.
  destruct (decide (start < length (nodes mg))%nat) as [Hlt|Hge].
  - destruct (clobber_sound_spec (E:=MemorySsaError) may_alias query mg Hclosed start Hlt) as (answer & Hsound & Hrun).
    by destruct (Hrun w Hw) as (w' & Hw' & ->).
  - unfold clobber, session_clobber. rewrite decide_False by done. lia.
Qed.

(** A reused walker answers as a new one: the marks of earlier queries are
    forgotten with their epoch, also when the epoch counter wraps around. *)
Lemma clobber_reused mg (may_alias : D -> Q -> bool) (query : Q) start w (Hclosed : closed_nodes (nodes mg)) (Hw : walker_ok w) :
  fst <$> clobber (E:=MemorySsaError) may_alias query mg start w = fst <$> clobber (E:=MemorySsaError) may_alias query mg start ClobberWalker_new.
Proof.
  destruct (decide (start < length (nodes mg))%nat) as [Hlt|Hge].
  - destruct (clobber_spec (E:=MemorySsaError) may_alias query mg Hclosed start Hlt) as (m & v & _ & Hrun).
    destruct (Hrun w Hw) as (w1 & _ & ->). destruct (Hrun ClobberWalker_new) as (w2 & _ & ->); [|done]. split; [cbn; lia|constructor].
  - unfold clobber, session_clobber. by rewrite !decide_False by done.
Qed.
End theorems.

(** ** Instances *)

(** Two nested loops; the inner one stores. *)
Definition loops_graph : graph := [[1]; [2]; [1; 3; 4]; [2]; []]%nat.
Definition loops_rows (outer inner : option nat) : list (list (MemoryAccessEvent nat nat)) :=
  [[MkAccessEvent 0 outer]; []; []; [MkAccessEvent 1 inner]; [MkAccessEvent 2 None]]%nat.
Definition same_location (d q : nat) : bool := bool_decide (d = q).

Definition loops_memory (inner : option nat) : option (MemoryAccessGraph nat * MemoryPointMap nat) :=
  match analyze loops_graph 0 with
  | Ok c => match MemorySsa.build c (loops_rows (Some 7%nat) inner) with Ok gp => Some gp | _ => None end
  | _ => None
  end.

(** One definition of the location queried, in the inner loop. *)
Example loops_nodes : (fun gp => nodes gp.1) <$> loops_memory (Some 8%nat) =
  Some [LiveOnEntry; DefinitionNode 7 0; DefinitionNode 8 4; PhiNode 1 [(0, 1); (2, 4)]; PhiNode 2 [(1, 3); (3, 2)]]%nat.
Proof. vm_compute. reflexivity. Qed.

(** The answers of one session, in order. *)
Fixpoint session_answers (g : MemoryAccessGraph nat) (query : nat) (alias : nat -> nat -> bool) (starts : list nat) (w : ClobberWalker) : list (option MemoryClobber) :=
  match starts with
  | [] => []
  | start :: starts =>
      match session_clobber (E:=MemorySsaError) alias query g start w with
      | Ok (answer, w) => answer :: session_answers g query alias starts w
      | _ => []
      end
  end.
Definition answers (g : MemoryAccessGraph nat) (alias : nat -> nat -> bool) (starts : list nat) : list (option MemoryClobber) :=
  session_answers g 0 alias starts (query_walker (length (nodes g)) ClobberWalker_new).

(** Both definitions alias. A fresh query of the inner phi (node 4) names it;
    after the outer phi (node 3) was queried in the same session, the answer
    is the definition of the inner loop (node 2), which the execution that
    enters the loops for the first time has not executed: the result the inner
    phi got while the outer one was active, its cycle left out, is kept. *)
Example session_keeps_partial_result :
  (fun gp => (answers gp.1 (fun _ _ => true) [4], answers gp.1 (fun _ _ => true) [3; 4]))%nat <$> loops_memory (Some 8%nat) =
  Some ([Some (AccessClobber 4)], [Some (AccessClobber 3); Some (AccessClobber 2)])%nat.
Proof. vm_compute. reflexivity. Qed.

(** A phi whose other input is itself is no clobber of its own, but a walk
    from the outer phi takes it for one. *)
Definition two_phis : MemoryAccessGraph nat :=
  MkAccessGraph [LiveOnEntry; DefinitionNode 7 0; PhiNode 1 [(0, 1); (2, 3)]; PhiNode 2 [(1, 2); (2, 3)]]%nat 1 2.
Example nested_loops_stop_at_phi : answers two_phis (fun _ _ => true) [2]%nat = [Some (AccessClobber 2)]%nat.
Proof. vm_compute. reflexivity. Qed.

(** An epoch that wraps, a start outside the table, a cycle of definitions. *)
Example clobber_wraps : fst <$> clobber (E:=MemorySsaError) (fun _ _ : nat => true) 0%nat two_phis 3 (Walker [5; 2^32 - 1; 0; 7] [2; 2; 2; 2] [] (2^32 - 1) [] []) = Ok (Some (AccessClobber 1))%nat.
Proof. vm_compute. reflexivity. Qed.
Example clobber_outside : fst <$> clobber (E:=MemorySsaError) (fun _ _ : nat => true) 0%nat two_phis 9 ClobberWalker_new = Ok None.
Proof. vm_compute. reflexivity. Qed.
Example clobber_cycle : fst <$> clobber (E:=MemorySsaError) (fun _ _ : nat => false) 0%nat (MkAccessGraph [DefinitionNode 0 1; DefinitionNode 1 0]%nat 2 0) 0 ClobberWalker_new = Ok (Some Indeterminate).
Proof. vm_compute. reflexivity. Qed.

Lemma loops_entry : forall p, ~ edge loops_graph p 0.
Proof. intros p (row & Hrow & Hin). do 5 (destruct p as [|p]; [injection Hrow as <-; set_solver|]). done. Qed.

Lemma loops_edge a b row : loops_graph !! a = Some row -> bool_decide (b ∈ row) = true -> edge loops_graph a b.
Proof. intros Hrow Hin. exists row. split; [done|by apply bool_decide_eq_true in Hin]. Qed.

(** Through the inner loop once. *)
Lemma loops_execution : execution loops_graph 0 (loops_rows (Some 7%nat) (Some 8%nat))
  [Entered 0; Executed 7; Entered 1; Entered 2; Entered 3; Executed 8; Entered 2; Entered 4]%nat 4 [].
Proof.
  set (evs := loops_rows _ _).
  assert (E0 : execution loops_graph 0 evs ([Entered 0] ++ [Executed 7])%nat 0 ([] ++ [MkAccessEvent 0 (Some 7)])%nat) by (eapply (exec_event _ _ _ _ _ _ (MkAccessEvent 0 (Some 7))%nat []); [constructor|done]).
  assert (E1 := exec_edge _ _ _ _ _ _ 1%nat E0 eq_refl (loops_edge 0 1 _ eq_refl eq_refl)).
  assert (E2 := exec_edge _ _ _ _ _ _ 2%nat E1 eq_refl (loops_edge 1 2 _ eq_refl eq_refl)).
  assert (E3 := exec_edge _ _ _ _ _ _ 3%nat E2 eq_refl (loops_edge 2 3 _ eq_refl eq_refl)).
  assert (E4 := exec_event _ _ _ _ _ [] (MkAccessEvent 1 (Some 8))%nat [] E3 eq_refl).
  assert (E5 := exec_edge _ _ _ _ _ _ 2%nat E4 eq_refl (loops_edge 3 2 _ eq_refl eq_refl)).
  exact (exec_edge _ _ _ _ _ _ 4%nat E5 eq_refl (loops_edge 2 4 _ eq_refl eq_refl)).
Qed.

Lemma new_walker_ok : walker_ok ClobberWalker_new.
Proof. split; [cbn; lia|constructor]. Qed.

Lemma two_phis_closed : closed_nodes (nodes two_phis).
Proof.
  intros x node y Hx Hy. do 4 (destruct x as [|x]; [injection Hx as <-; cbn in *; repeat (apply elem_of_cons in Hy as [->|Hy]; [lia|]); by apply not_elem_of_nil in Hy|]). done.
Qed.

Lemma loops_built : exists c mg pm, analyze loops_graph 0 = Ok c /\ MemorySsa.build c (loops_rows (Some 7%nat) (Some 8%nat)) = Ok (mg, pm).
Proof. eexists _, _, _. split; vm_compute; reflexivity. Qed.

Lemma clobber_covers_executions_witness : exists c mg pm, analyze loops_graph 0 = Ok c /\ MemorySsa.build c (loops_rows (Some 7%nat) (Some 8%nat)) = Ok (mg, pm) /\
  match event_access pm 2%nat with
  | Some access =>
      match clobber (E:=MemorySsaError) same_location 7%nat mg (before access) ClobberWalker_new with
      | Ok (Some answer, w') => walker_ok w' /\ clobbered same_location 7%nat mg answer [Entered 0; Executed 7; Entered 1; Entered 2; Entered 3; Executed 8; Entered 2; Entered 4]%nat
      | _ => False
      end
  | None => False
  end.
Proof.
  destruct loops_built as (c & mg & pm & Hc & Hb). exists c, mg, pm. split; [exact Hc|]. split; [exact Hb|].
  exact (clobber_covers_executions loops_graph 0 c (loops_rows (Some 7%nat) (Some 8%nat)) mg pm same_location 7%nat _ 4 [] (MkAccessEvent 2 None)%nat [] ClobberWalker_new
    Hc Hb loops_entry loops_execution eq_refl new_walker_ok).
Defined.

Lemma clobber_answers_witness :
  match clobber (E:=MemorySsaError) same_location 7%nat two_phis 3 ClobberWalker_new with
  | Ok (Some answer, w') => (3 < length (nodes two_phis))%nat /\ walker_ok w' /\ sound_clobber same_location 7%nat two_phis 3 answer
  | Ok (None, _) => (length (nodes two_phis) <= 3)%nat
  | _ => False
  end.
Proof. exact (clobber_answers two_phis same_location 7%nat 3 ClobberWalker_new two_phis_closed new_walker_ok). Defined.

