(* ===== verification/DagRows.v ===== *)
(** * DagRows: adjacency rows of a dependency graph

    Models the row views of [crates/celox-analysis/src/dag_schedule.rs]: the
    traits [NodeRows] and [GraphRows] as classes, their local and mapped
    implementations, and the validation of rows. The list scheduler of
    [DagSchedule] is a client of the two classes; the [GraphRowsLaws] are what
    it relies on, and both constructors of graph rows establish them. *)

From S2P Require Import Prelude Specs.

Inductive DagScheduleError : Type :=
  | Shape
  | InvalidNode
  | InvalidToken
  | DuplicateDependency
  | DuplicateToken
  | ValueIsNotDependency
  | UsersAreNotReverseDependencies
  | Cycle
  | ArithmeticOverflow.
Abbreviation dag_result := (result DagScheduleError).

(** ** Interfaces *)

(** [trait NodeRows]; [None] is an index out of range. *)
Class NodeRows (T : Type) : Type := {
  node_len : T -> nat;
  node_row : T -> nat -> option (list nat) }.

(** [trait GraphRows] *)
Class GraphRows (G : Type) : Type := {
  graph_len : G -> nat;
  graph_nodes : G -> nat -> option (list nat);
  graph_contains : G -> nat -> nat -> option bool }.

#[global] Hint Mode NodeRows ! : typeclass_instances.
#[global] Hint Mode GraphRows ! : typeclass_instances.

(** [row] is the adjacency row of every node of a well-formed view. *)
Record GraphRowsLaws {G} `{GraphRows G} (g : G) (row : nat -> list nat) : Prop := {
  gl_nodes n : (n < graph_len g)%nat -> graph_nodes g n = Some (row n);
  gl_contains n x : (n < graph_len g)%nat -> (x < graph_len g)%nat ->
    graph_contains g n x = Some (bool_decide (x ∈ row n));
  gl_nodup n : (n < graph_len g)%nat -> NoDup (row n);
  gl_range n x : (n < graph_len g)%nat -> x ∈ row n -> (x < graph_len g)%nat }.

(** The laws, for a view of a known length. *)
Section view.
Context {G : Type} `{GraphRows G} (g : G) (row : nat -> list nat) (count : nat).
Context (Hlaws : GraphRowsLaws g row) (Hlen : graph_len g = count).

Lemma view_nodes n : (n < count)%nat -> graph_nodes g n = Some (row n).
Proof. subst count. apply (gl_nodes _ _ Hlaws). Qed.
Lemma view_NoDup n : (n < count)%nat -> NoDup (row n).
Proof. subst count. apply (gl_nodup _ _ Hlaws). Qed.
Lemma view_range n x : (n < count)%nat -> x ∈ row n -> (x < count)%nat.
Proof. subst count. apply (gl_range _ _ Hlaws). Qed.
Lemma view_contains n x : (n < count)%nat -> (x < count)%nat -> graph_contains g n x = Some (bool_decide (x ∈ row n)).
Proof. subst count. apply (gl_contains _ _ Hlaws). Qed.
End view.

(** ** Validation of rows *)

(** The loop that [validate_row] and [validate_token_row] share up to their
    errors: strictly increasing entries below [limit]. *)
Fixpoint increasing_row (invalid duplicate : DagScheduleError) (limit : nat) (previous : option nat) (row : list nat)
    : dag_result unit :=
  match row with
  | [] => Ok tt
  | x :: row =>
      if decide (limit <= x)%nat then Err invalid else
      if match previous with Some p => bool_decide (x <= p)%nat | None => false end then Err duplicate
      else increasing_row invalid duplicate limit (Some x) row
  end.

Definition validate_row (row : list nat) (node_count : nat) : dag_result unit :=
  increasing_row InvalidNode DuplicateDependency node_count None row.
Definition validate_token_row (row : list nat) (token_count : nat) : dag_result unit :=
  increasing_row InvalidToken DuplicateToken token_count None row.

(** An entry of [local_by_external] is a local node or [usize::MAX]. *)
Definition is_local (external_by_local : list nat) (local : Z) (external : nat) : bool :=
  bool_decide (external_by_local !! Z.to_nat local = Some external).

Fixpoint mapped_row (external_by_local : list nat) (local_by_external : list Z) (previous : option nat) (row : list nat)
    : dag_result unit :=
  match row with
  | [] => Ok tt
  | external :: row =>
      match local_by_external !! external with
      | None => Err InvalidNode
      | Some local =>
          if match previous with Some p => bool_decide (external <= p)%nat | None => false end
          then Err DuplicateDependency
          else if (if local =? usize_max then false else negb (is_local external_by_local local external)) then Err InvalidNode
          else mapped_row external_by_local local_by_external (Some external) row
      end
  end.

Definition validate_mapped_user_row (row external_by_local : list nat) (local_by_external : list Z) : dag_result unit :=
  mapped_row external_by_local local_by_external None row.

(** ** Rows of the graph itself *)

Record LocalNodeRows : Type := LNR { node_rows : list (list nat) }.
#[global] Instance LocalNodeRows_rows : NodeRows LocalNodeRows := {|
  node_len t := length (node_rows t);
  node_row t n := node_rows t !! n |}.

Record LocalGraphRows : Type := LGR { graph_rows : list (list nat) }.
Definition LocalGraphRows_new (rows : list (list nat)) : dag_result LocalGraphRows :=
  _ ← foldM (fun (_ : unit) row => validate_row row (length rows)) tt rows; Ok (LGR rows).
(** [binary_search] of a sorted row is membership. *)
#[global] Instance LocalGraphRows_rows : GraphRows LocalGraphRows := {|
  graph_len g := length (graph_rows g);
  graph_nodes g n := graph_rows g !! n;
  graph_contains g n x := (fun row : list nat => bool_decide (x ∈ row)) <$> graph_rows g !! n |}.

(** ** Rows borrowed from a larger graph *)

Record MappedNodeRows : Type := MNR { mn_rows : list (list nat); mn_external_by_local : list nat }.
Definition MappedNodeRows_new (rows_by_external_node : list (list nat)) (external_by_local : list nat)
    : dag_result MappedNodeRows :=
  if bool_decide (Exists (fun external => length rows_by_external_node <= external)%nat external_by_local)
  then Err InvalidNode else Ok (MNR rows_by_external_node external_by_local).
#[global] Instance MappedNodeRows_rows : NodeRows MappedNodeRows := {|
  node_len t := length (mn_external_by_local t);
  node_row t n := external ← mn_external_by_local t !! n; mn_rows t !! external |}.

Record MappedGraphRows : Type := MGR {
  mg_rows : list (list nat);
  external_by_local : list nat;
  local_by_external : list Z }.

(** One local node of [MappedGraphRows::new]. *)
Definition check_mapping (rows_by_external_node : list (list nat)) (external_by_local : list nat)
    (local_by_external : list Z) (_ : unit) (le : nat * nat) : dag_result unit :=
  match rows_by_external_node !! le.2, local_by_external !! le.2 with
  | Some row, Some local =>
      if local =? Z.of_nat le.1 then validate_mapped_user_row row external_by_local local_by_external
      else Err InvalidNode
  | _, _ => Err InvalidNode
  end.

Definition MappedGraphRows_new (rows_by_external_node : list (list nat)) (external_by_local : list nat)
    (local_by_external : list Z) : dag_result MappedGraphRows :=
  _ ← foldM (check_mapping rows_by_external_node external_by_local local_by_external) tt (enumerate external_by_local);
  Ok (MGR rows_by_external_node external_by_local local_by_external).

(** [MappedGraphRowsIter]: the external nodes that have a local name. *)
Fixpoint local_nodes (local_by_external : list Z) (externals : list nat) : option (list nat) :=
  match externals with
  | [] => Some []
  | external :: externals =>
      local ← local_by_external !! external;
      locals ← local_nodes local_by_external externals;
      Some (if local =? usize_max then locals else Z.to_nat local :: locals)
  end.

#[global] Instance MappedGraphRows_rows : GraphRows MappedGraphRows := {|
  graph_len g := length (external_by_local g);
  graph_nodes g n :=
    external ← external_by_local g !! n; row ← mg_rows g !! external; local_nodes (local_by_external g) row;
  graph_contains g n x :=
    external ← external_by_local g !! n; row ← mg_rows g !! external;
    e ← external_by_local g !! x; Some (bool_decide (e ∈ (row : list nat))) |}.

(** ** Validated rows satisfy the laws *)

Definition row_at (rows : list (list nat)) (n : nat) : list nat := default [] (rows !! n).

(** The rows an increasing-row check accepts. *)
Definition increasing_from (limit : nat) (previous : option nat) (row : list nat) : Prop :=
  StronglySorted lt row /\ Forall (fun x => x < limit)%nat row /\
  match previous with Some p => Forall (fun x => p < x)%nat row | None => True end.
Definition valid_row (limit : nat) (row : list nat) : Prop := increasing_from limit None row.
Definition valid_rows (rows : list (list nat)) : Prop := Forall (valid_row (length rows)) rows.

Lemma increasing_from_cons limit previous x row :
  increasing_from limit previous (x :: row) <->
  (x < limit)%nat /\ match previous with Some p => (p < x)%nat | None => True end /\ increasing_from limit (Some x) row.
Proof.
  unfold increasing_from. rewrite Forall_cons. split.
  - intros ([Hs Hx]%StronglySorted_inv & [? ?] & Hp). split; [done|]. split; [|done].
    destruct previous; [|done]. by apply Forall_cons in Hp as [? _].
  - intros (? & Hp & Hs & Hl & Hx). split_and!; [by constructor|done|done|]. destruct previous; [|done]. constructor; [done|].
    eapply Forall_impl; [exact Hx|]. cbn. lia.
Qed.

Lemma increasing_row_spec invalid duplicate limit previous row :
  yields (fun e => (e = invalid \/ e = duplicate) /\ ~ increasing_from limit previous row)
    (fun _ => increasing_from limit previous row) (increasing_row invalid duplicate limit previous row).
Proof.
  revert previous. induction row as [|x row IH]; intros previous; cbn [increasing_row].
  { cbn. repeat constructor. by destruct previous. }
  case_decide as Hx; [cbn [yields]; split; [by left|]; rewrite increasing_from_cons; lia|].
  destruct previous as [p|]; cbn beta iota; [case_bool_decide as Hp; [cbn [yields]; split; [by right|]; rewrite increasing_from_cons; lia|]|].
  all: specialize (IH (Some x)); destruct (increasing_row _ _ _ _ _) as [[]|e|]; cbn [yields] in *; rewrite ?increasing_from_cons;
    [split_and!; [lia|try lia; done|done]|destruct IH; split; [done|tauto]|done].
Qed.

Lemma sorted_NoDup (row : list nat) : StronglySorted lt row -> NoDup row.
Proof.
  induction 1 as [|x row Hs IH Hx]; constructor; [|done]. rewrite Forall_forall in Hx. intros Hin%Hx. lia.
Qed.

Lemma LocalGraphRows_new_spec rows :
  yields (fun e => (e = InvalidNode \/ e = DuplicateDependency) /\ ~ valid_rows rows)
    (fun g => g = LGR rows /\ valid_rows rows) (LocalGraphRows_new rows).
Proof.
  unfold LocalGraphRows_new. eapply (yields_bind _ (fun _ => valid_rows rows)); [|by intros [] ?].
  unfold valid_rows. apply (yields_foldM _ (fun pre _ => Forall (valid_row (length rows)) pre)); [constructor|].
  intros pre row post [] Hrows Hpre. unfold validate_row.
  pose proof (increasing_row_spec InvalidNode DuplicateDependency (length rows) None row) as Hr.
  destruct (increasing_row _ _ _ _ _) as [[]|e|]; cbn [yields] in *; [apply Forall_app; split; [done|by constructor]| |done].
  destruct Hr as [? Hr]. split; [done|]. rewrite Hrows, Forall_app, Forall_cons. rewrite <- Hrows. tauto.
Qed.

Lemma local_laws rows : valid_rows rows -> GraphRowsLaws (LGR rows) (row_at rows).
Proof.
  intros Hv. unfold valid_rows in Hv. rewrite Forall_lookup in Hv. unfold row_at. split; cbn; intros n.
  - intros Hn. by in_range rows n as row ->.
  - intros x Hn _. by in_range rows n as row ->.
  - intros Hn. in_range rows n as row Hrow. rewrite Hrow. cbn. apply sorted_NoDup. by eapply Hv.
  - intros x Hn. in_range rows n as row Hrow. rewrite Hrow. cbn. destruct (Hv n row Hrow) as (_ & Hl & _).
    rewrite Forall_forall in Hl. apply Hl.
Qed.

(** *** Mapped rows *)

Section mapped.
Context (rows : list (list nat)) (ebl : list nat) (lbe : list Z).

Definition mapped_ok (row : list nat) : Prop :=
  StronglySorted lt row /\
  forall external, external ∈ row -> exists local, lbe !! external = Some local /\
    (local = usize_max \/ ebl !! Z.to_nat local = Some external).

(** What [MappedGraphRows::new] establishes. *)
Definition mapping_ok : Prop := forall k external, ebl !! k = Some external ->
  lbe !! external = Some (Z.of_nat k) /\ exists row, rows !! external = Some row /\ mapped_ok row.

Lemma mapped_row_ok previous row : mapped_row ebl lbe previous row = Ok tt ->
  mapped_ok row /\ match previous with Some p => Forall (fun x => p < x)%nat row | None => True end.
Proof.
  revert previous. induction row as [|x row IH]; intros previous; cbn [mapped_row].
  { intros _. split; [|by destruct previous]. split; [constructor|by intros ? ?%not_elem_of_nil]. }
  destruct (lbe !! x) as [local|] eqn:Hx; [|done]. intros Hok.
  assert (Hprev : match previous with Some p => (p < x)%nat | None => True end).
  { destruct previous as [p|]; [|done]. case_bool_decide; [done|lia]. }
  destruct (match previous with Some p => _ | None => _ end); [done|].
  destruct (if local =? usize_max then false else negb (is_local ebl local x)) eqn:Hl; [done|].
  destruct (IH _ Hok) as [[Hs Hall] Hlt]. split; [split|].
  - by constructor.
  - intros e [->|He]%elem_of_cons; [|by apply Hall]. exists local. split; [done|].
    destruct (local =? usize_max) eqn:Hmax; [left; lia|right]. apply negb_false_iff in Hl. by apply bool_decide_eq_true in Hl.
  - destruct previous as [p|]; [|done]. constructor; [done|]. eapply Forall_impl; [exact Hlt|]. cbn. lia.
Qed.

Lemma MappedGraphRows_new_ok g : MappedGraphRows_new rows ebl lbe = Ok g -> g = MGR rows ebl lbe /\ mapping_ok.
Proof.
  unfold MappedGraphRows_new. destruct (foldM _ _ _) as [[]|e|] eqn:Hf; msimpl; [|done|done].
  intros [= <-]. split; [done|]. intros k x Hk. rewrite foldM_checks in Hf.
  specialize (Hf (k, x) ltac:(by apply elem_of_enumerate)). unfold check_mapping in Hf. cbn [fst snd] in Hf.
  destruct (rows !! x) as [row|]; [|done]. destruct (lbe !! x) as [local|]; [|done].
  destruct (local =? Z.of_nat k) eqn:Hl; [|done]. apply Z.eqb_eq in Hl as ->. split; [done|]. exists row. split; [done|].
  by apply mapped_row_ok in Hf as [? _].
Qed.

Context (Hmap : mapping_ok) (Hlen : Z.of_nat (length ebl) <= usize_max).

(** A local name other than [usize::MAX] is the name of its node. *)
Lemma local_name external local : lbe !! external = Some local ->
  (local = usize_max \/ ebl !! Z.to_nat local = Some external) ->
  (local <> usize_max <-> exists k, local = Z.of_nat k /\ ebl !! k = Some external).
Proof.
  intros Hl Hor. split.
  - intros Hne. destruct Hor as [?|Hk]; [done|]. exists (Z.to_nat local). split; [|done].
    destruct (Hmap _ _ Hk) as [Hl' _]. congruence.
  - intros (k & -> & Hk%lookup_lt_Some). lia.
Qed.

Lemma local_nodes_spec row : NoDup row -> mapped_ok row ->
  exists l, local_nodes lbe row = Some l /\ NoDup l /\
    forall k, k ∈ l <-> exists external, external ∈ row /\ ebl !! k = Some external.
Proof.
  intros Hnd [_ Hok]. induction Hnd as [|x row Hx Hnd IH]; cbn [local_nodes].
  { exists []. split_and!; [done|constructor|]. intros k. split; [by intros ?%not_elem_of_nil|by intros (? & ?%not_elem_of_nil & _)]. }
  destruct (Hok x ltac:(by left)) as (local & Hl & Hor). rewrite Hl. cbn [mbind option_bind].
  destruct IH as (l & -> & Hndl & Hin); [intros; apply Hok; by right|]. cbn [mbind option_bind].
  pose proof (local_name x local Hl Hor) as Hname. destruct (local =? usize_max) eqn:Hmax.
  - exists l. split_and!; [done..|]. intros k. rewrite Hin. setoid_rewrite elem_of_cons. split; [naive_solver|].
    intros (e & [->|He] & Hk); [|by eauto]. destruct (proj2 Hname); [exists k|lia].
    split; [|done]. destruct (Hmap _ _ Hk) as [? _]. congruence.
  - destruct (proj1 Hname ltac:(lia)) as (k & -> & Hk). rewrite Nat2Z.id. exists (k :: l). split; [done|]. split.
    + constructor; [|done]. rewrite Hin. intros (e & He & Hk'). rewrite Hk in Hk'. by injection Hk' as ->.
    + intros j. rewrite !elem_of_cons, Hin. setoid_rewrite elem_of_cons. split.
      * intros [->|(e & ? & ?)]; eauto.
      * intros (e & [->|He] & Hj); [left|right; by eauto]. destruct (Hmap _ _ Hj) as [Hj' _]. rewrite Hl in Hj'. injection Hj' as Hj'. lia.
Qed.

Definition mapped_row_at (n : nat) : list nat := default [] (graph_nodes (MGR rows ebl lbe) n).

Lemma mapped_laws : GraphRowsLaws (MGR rows ebl lbe) mapped_row_at.
Proof.
  assert (Hrow : forall n, (n < length ebl)%nat -> exists external row, ebl !! n = Some external /\ rows !! external = Some row /\
    graph_nodes (MGR rows ebl lbe) n = Some (mapped_row_at n) /\ NoDup (mapped_row_at n) /\
    forall k, k ∈ mapped_row_at n <-> exists e, e ∈ row /\ ebl !! k = Some e).
  { intros n Hn. in_range ebl n as x Hx. destruct (Hmap n x Hx) as (_ & row & Hr & Hok). exists x, row.
    destruct (local_nodes_spec row (sorted_NoDup row (proj1 Hok)) Hok) as (l & Hl & Hnd & Hin).
    unfold mapped_row_at. cbn. rewrite Hx. cbn. rewrite Hr. cbn. rewrite Hl. split_and!; done. }
  split; cbn [graph_len MappedGraphRows_rows external_by_local]; intros n.
  - intros Hn. by destruct (Hrow n Hn) as (? & ? & _ & _ & ? & _).
  - intros k Hn Hk. destruct (Hrow n Hn) as (x & row & Hx & Hr & _ & _ & Hin). in_range ebl k as e He.
    cbn -[mapped_row_at]. rewrite Hx. cbn -[mapped_row_at]. rewrite Hr, He. cbn -[mapped_row_at]. f_equal. apply bool_decide_ext. rewrite Hin. split; [eauto|].
    intros (e' & ? & He'). congruence.
  - intros Hn. by destruct (Hrow n Hn) as (? & ? & _ & _ & _ & ? & _).
  - intros k Hn. destruct (Hrow n Hn) as (x & row & _ & _ & _ & _ & Hin). intros (e & _ & Hk)%Hin. eauto with index.
Qed.
End mapped.
