(* ===== verification/DagSchedule.v ===== *)
(** * DagSchedule: bottom-up list scheduling of a dependency DAG

    Models the scheduler of [crates/celox-analysis/src/dag_schedule.rs]:
    input validation, the topological order with its depths, the ready set
    with its incrementally updated live-value deltas, and the main loop. It is
    written over the row interfaces of [DagRows], as the source is written
    over its traits. *)

From S2P Require Import Prelude Order DagRows.

(** [isize] and [usize] operations that report [ArithmeticOverflow]. *)
Definition usize_succ (a : Z) : dag_result Z := ok_or ArithmeticOverflow (checked_add a 1).
Definition usize_pred (a : nat) : dag_result nat :=
  match a with O => Err ArithmeticOverflow | S a => Ok a end.
Definition isize_add (a b : Z) : dag_result Z := ok_or ArithmeticOverflow (i64_checked_add a b).
Definition isize_mul (a b : Z) : dag_result Z :=
  if decide (i64_min <= a * b <= i64_max) then Ok (a * b) else Err ArithmeticOverflow.
Definition isize_from (a : Z) : dag_result Z := ok_or ArithmeticOverflow (i64_try_from a).

(** ** Validation of the inputs *)

Section validation.
Context {D V T : Type} `{GraphRows D, GraphRows V, NodeRows T}.
Context (dependencies : D) (value_dependencies : V) (tokens_by_node : T) (token_weights : list Z).

Definition push_user (user : nat) (token_users : list (list nat)) (token : nat) : dag_result (list (list nat)) :=
  row ← expect (token_users !! token); Ok (<[token := row ++ [user]]> token_users).

(** [any(|value| !dependencies.contains(user, value))] *)
Fixpoint any_missing (user : nat) (values : list nat) : dag_result bool :=
  match values with
  | [] => Ok false
  | value :: values =>
      found ← expect (graph_contains dependencies user value);
      if (found : bool) then any_missing user values else Ok true
  end.

Definition validate_user (token_users : list (list nat)) (user : nat) : dag_result (list (list nat)) :=
  tokens ← expect (node_row tokens_by_node user);
  _ ← validate_token_row tokens (length token_weights);
  values ← expect (graph_nodes value_dependencies user);
  missing ← any_missing user values;
  if (missing : bool) then Err ValueIsNotDependency
  else foldM (push_user user) token_users tokens.

(** The rows of the users of each token. *)
Definition validate_inputs : dag_result (list (list nat)) :=
  let node_count := graph_len dependencies in
  if decide (graph_len value_dependencies <> node_count \/ node_len tokens_by_node <> node_count) then Err Shape else
  foldM validate_user (replicate (length token_weights) []) (seq 0 node_count).
End validation.

Section reverse_users.
Context {U D : Type} `{GraphRows U, GraphRows D}.
Context (users : U) (dependencies : D).

Definition count_edges : dag_result Z :=
  foldM (fun total row =>
      nodes ← expect (graph_nodes dependencies row);
      ok_or ArithmeticOverflow (checked_add total (Z.of_nat (length nodes)))) 0 (seq 0 (graph_len dependencies)).

Definition check_user (definition : nat) (actual_edges : Z) (user : nat) : dag_result Z :=
  found ← expect (graph_contains dependencies user definition);
  if (found : bool) then usize_succ actual_edges else Err UsersAreNotReverseDependencies.

Definition validate_reverse_users : dag_result unit :=
  if decide (graph_len users <> graph_len dependencies) then Err Shape else
  expected_edges ← count_edges;
  actual_edges ← foldM (fun actual definition =>
      nodes ← expect (graph_nodes users definition); foldM (check_user definition) actual nodes)
    0 (seq 0 (graph_len users));
  if decide (actual_edges = expected_edges) then Ok tt else Err UsersAreNotReverseDependencies.
End reverse_users.

(** ** Topological order *)

Section topological.
Context {U : Type} `{GraphRows U} (successors : U).

Record topo_state : Type := TS {
  topo_ready : gset nat;
  indegree : list nat;
  depth : list Z;
  topo_order : list nat }.

Definition topo_visit (next_depth : Z) (st : topo_state) (successor : nat) : dag_result topo_state :=
  d ← expect (depth st !! successor);
  degree ← expect (indegree st !! successor);
  degree ← usize_pred degree;
  Ok (TS (if decide (degree = 0%nat) then {[successor]} ∪ topo_ready st else topo_ready st)
        (<[successor := degree]> (indegree st)) (<[successor := Z.max d next_depth]> (depth st)) (topo_order st)).

Definition topo_step (node : nat) (st : topo_state) : dag_result topo_state :=
  d ← expect (depth st !! node);
  next_depth ← usize_succ d;
  nodes ← expect (graph_nodes successors node);
  foldM (topo_visit next_depth)
    (TS (topo_ready st ∖ {[node]}) (indegree st) (depth st) (topo_order st ++ [node])) nodes.

(** [pop_first] of the ready nodes; a node enters the set at most once. *)
Fixpoint topo_loop (fuel : nat) (st : topo_state) : dag_result topo_state :=
  match first (topo_ready st) with
  | None => Ok st
  | Some node =>
      match fuel with
      | O => Panic
      | S fuel => st ← topo_step node st; topo_loop fuel st
      end
  end.

Definition initial_ready (indegree : list nat) : gset nat :=
  list_to_set (filter (fun node => indegree !! node = Some 0%nat) (seq 0 (length indegree))).

Definition topological_order (indegree : list nat) : dag_result (list nat * list Z) :=
  let node_count := graph_len successors in
  st ← topo_loop node_count (TS (initial_ready indegree) indegree (replicate node_count 1) []);
  if decide (length (topo_order st) = node_count) then Ok (topo_order st, depth st) else Err Cycle.
End topological.

(** [dependencies.nodes(node).count()] of every node. *)
Definition row_count {G} `{GraphRows G} (g : G) (node : nat) : dag_result nat :=
  length <$> expect (graph_nodes g node).
Definition row_counts {G} `{GraphRows G} (g : G) : dag_result (list nat) := mapMr (row_count g) (seq 0 (graph_len g)).

Definition raise_depth {G} `{GraphRows G} (dependencies : G) (exit_depth : list Z) (node : nat) : dag_result (list Z) :=
  d ← expect (exit_depth !! node);
  successor_depth ← usize_succ d;
  nodes ← expect (graph_nodes dependencies node);
  foldM (fun exit_depth dependency =>
      e ← expect (exit_depth !! dependency); vset dependency (Z.max e successor_depth) exit_depth) exit_depth nodes.

(** ** The ready set *)

(** [(delta, Reverse(exit_depth), Reverse(entry_depth), Reverse(node))] *)
Abbreviation ready_key := (Z * (Reverse Z * (Reverse Z * Reverse nat)))%type.
Definition key_node (key : ready_key) : nat := unrev key.2.2.2.

Record ready_state : Type := RS {
  deltas : list Z;
  present : list bool;
  ready : gset ready_key }.

Section scheduling.
Context {D V T S U : Type} `{GraphRows D, GraphRows V, NodeRows T, GraphRows S, GraphRows U}.
Context (dependencies : D) (value_dependencies : V) (tokens_by_node : T) (token_weights : list Z).
Context (token_users : list (list nat)) (successors : S) (value_users : U).
Context (entry_depth exit_depth : list Z).

Definition make_key (delta : Z) (node : nat) : dag_result ready_key :=
  x ← expect (exit_depth !! node);
  e ← expect (entry_depth !! node);
  Ok (delta, (Rev x, (Rev e, Rev node))).

(** [filter(|definition| !live[definition]).count()] *)
Definition count_dead (live : list bool) (missing definition : nat) : dag_result nat :=
  l ← expect (live !! definition); Ok (if (l : bool) then missing else Datatypes.S missing).
Definition count_missing (live : list bool) (values : list nat) : dag_result nat := foldM (count_dead live) 0%nat values.

(** What scheduling a user of [token] adds to the pressure. *)
Definition token_contribution (live_tokens : list bool) (remaining : list nat) (token : nat) : dag_result Z :=
  l ← expect (live_tokens !! token);
  users ← expect (remaining !! token);
  w ← expect (token_weights !! token);
  if negb l && bool_decide (1 < users)%nat then isize_from w
  else if l && bool_decide (users = 1%nat) then Z.opp <$> isize_from w
  else Ok 0.

Definition add_contribution (live_tokens : list bool) (remaining : list nat) (delta : Z) (token : nat) : dag_result Z :=
  c ← token_contribution live_tokens remaining token; isize_add delta c.

Definition initial_delta (live live_tokens : list bool) (remaining : list nat) (node : nat) : dag_result Z :=
  values ← expect (graph_nodes value_dependencies node);
  missing ← count_missing live values;
  l ← expect (live !! node);
  missing ← isize_from (Z.of_nat missing);
  value_delta ← isize_add missing (- Z.b2z l);
  tokens ← expect (node_row tokens_by_node node);
  token_delta ← foldM (add_contribution live_tokens remaining) 0 tokens;
  isize_add value_delta token_delta.

(** The [debug_assert!] of both operations is a [Panic]. *)
Definition insert_ready (live live_tokens : list bool) (remaining : list nat) (rs : ready_state) (node : nat)
    : dag_result ready_state :=
  here ← expect (present rs !! node);
  if (here : bool) then Err DuplicateDependency else
  delta ← initial_delta live live_tokens remaining node;
  deltas' ← vset node delta (deltas rs);
  present' ← vset node true (present rs);
  key ← make_key delta node;
  values ← expect (graph_nodes value_dependencies node);
  missing ← any_missing dependencies node values;
  if (missing : bool) then Panic else Ok (RS deltas' present' ({[key]} ∪ ready rs)).

Definition remove_ready (rs : ready_state) (node : nat) : dag_result ready_state :=
  here ← expect (present rs !! node);
  if negb here then Panic else
  delta ← expect (deltas rs !! node);
  key ← make_key delta node;
  present' ← vset node false (present rs);
  Ok (RS (deltas rs) present' (ready rs ∖ {[key]})).

(** One candidate of [update_for_value] and [update_for_token]. *)
Definition adjust (adjustment : Z) (rs : ready_state) (candidate : nat) : dag_result ready_state :=
  here ← expect (present rs !! candidate);
  if negb here then Ok rs else
  delta ← expect (deltas rs !! candidate);
  key ← make_key delta candidate;
  delta' ← isize_add delta adjustment;
  key' ← make_key delta' candidate;
  Ok (RS (<[candidate := delta']> (deltas rs)) (present rs) ({[key']} ∪ (ready rs ∖ {[key]}))).

Definition update_for_token (token : nat) (adjustment : Z) (rs : ready_state) : dag_result ready_state :=
  users ← expect (token_users !! token); foldM (adjust adjustment) rs users.

Definition update_for_value (value : nat) (adjustment : Z) (rs : ready_state) : dag_result ready_state :=
  users ← expect (graph_nodes value_users value); foldM (adjust adjustment) rs (users ++ [value]).

(** ** The main loop *)

Record schedule_state : Type := SS {
  unscheduled_users : list nat;
  live : list bool;
  remaining_token_users : list nat;
  live_tokens : list bool;
  ready_set : ready_state;
  reverse_order : list nat }.

(** [if live[selected] { live[selected] = false; .. }] *)
Definition kill_value (selected : nat) (st : list bool * ready_state) : dag_result (list bool * ready_state) :=
  l ← expect (st.1 !! selected);
  if (l : bool) then
    rs ← update_for_value selected 1 st.2; Ok (<[selected := false]> st.1, rs)
  else Ok st.

(** [if !live[definition] { live[definition] = true; .. }] *)
Definition use_definition (st : list bool * ready_state) (definition : nat) : dag_result (list bool * ready_state) :=
  l ← expect (st.1 !! definition);
  if (l : bool) then Ok st
  else rs ← update_for_value definition (-1) st.2; Ok (<[definition := true]> st.1, rs).

Definition use_token (st : list nat * list bool * ready_state) (token : nat)
    : dag_result (list nat * list bool * ready_state) :=
  let '(remaining, tokens, rs) := st in
  before ← expect (remaining !! token);
  after ← usize_pred before;
  let remaining := <[token := after]> remaining in
  w ← expect (token_weights !! token);
  weight ← isize_from w;
  l ← expect (tokens !! token);
  if negb l && bool_decide (1 < before)%nat then
    adjustment ← (if decide (before = 2%nat) then isize_mul weight (-2) else Ok (- weight));
    rs ← update_for_token token adjustment rs;
    Ok (remaining, <[token := true]> tokens, rs)
  else if l && bool_decide (before = 2%nat) then
    rs ← update_for_token token (- weight) rs; Ok (remaining, tokens, rs)
  else if l && bool_decide (before = 1%nat) then Ok (remaining, <[token := false]> tokens, rs)
  else Ok (remaining, tokens, rs).

Definition release_dependency (live live_tokens : list bool) (remaining : list nat)
    (st : list nat * ready_state) (dependency : nat) : dag_result (list nat * ready_state) :=
  users ← expect (st.1 !! dependency);
  users ← usize_pred users;
  let unscheduled := <[dependency := users]> st.1 in
  if decide (users = 0%nat) then
    rs ← insert_ready live live_tokens remaining st.2 dependency; Ok (unscheduled, rs)
  else Ok (unscheduled, st.2).

(** One turn of [while let Some(..) = ready.first()]. *)
Definition schedule_step (selected : nat) (st : schedule_state) : dag_result schedule_state :=
  rs ← remove_ready (ready_set st) selected;
  lr ← kill_value selected (live st, rs);
  values ← expect (graph_nodes value_dependencies selected);
  lr ← foldM use_definition lr values;
  tokens ← expect (node_row tokens_by_node selected);
  trr ← foldM use_token (remaining_token_users st, live_tokens st, lr.2) tokens;
  let '(remaining, tokens, rs) := trr in
  nodes ← expect (graph_nodes dependencies selected);
  ur ← foldM (release_dependency lr.1 tokens remaining) (unscheduled_users st, rs) nodes;
  Ok (SS ur.1 lr.1 remaining tokens ur.2 (reverse_order st ++ [selected])).

(** A node leaves the ready set once it is scheduled, so as many turns as
    nodes are enough. *)
Fixpoint schedule_loop (fuel : nat) (st : schedule_state) : dag_result schedule_state :=
  match first (ready (ready_set st)) with
  | None => Ok st
  | Some key =>
      match fuel with
      | O => Panic
      | Datatypes.S fuel => st ← schedule_step (key_node key) st; schedule_loop fuel st
      end
  end.

(** The nodes that no other node uses. *)
Definition insert_sink (live live_tokens : list bool) (remaining : list nat) (rs : ready_state) (iu : nat * nat)
    : dag_result ready_state :=
  if decide (iu.2 = 0%nat) then insert_ready live live_tokens remaining rs iu.1 else Ok rs.

Definition schedule_nodes : dag_result (list nat) :=
  let node_count := graph_len dependencies in
  unscheduled ← row_counts successors;
  let live := replicate node_count false in
  let remaining := length <$> token_users in
  let live_tokens := replicate (length token_weights) false in
  rs ← foldM (insert_sink live live_tokens remaining) (RS (replicate node_count 0) (replicate node_count false) ∅)
         (enumerate unscheduled);
  st ← schedule_loop node_count (SS unscheduled live remaining live_tokens rs []);
  if decide (length (reverse_order st) = node_count) then Ok (rev (reverse_order st)) else Err Cycle.
End scheduling.

Definition schedule_with_users {D V T S U} `{GraphRows D, GraphRows V, NodeRows T, GraphRows S, GraphRows U}
    (dependencies : D) (value_dependencies : V) (tokens_by_node : T) (token_weights : list Z)
    (token_users : list (list nat)) (successors : S) (value_users : U) : dag_result (list nat) :=
  let node_count := graph_len dependencies in
  if decide (graph_len successors <> node_count \/ graph_len value_users <> node_count) then Err Shape else
  indegree ← row_counts dependencies;
  oe ← topological_order successors indegree;
  exit_depth ← foldM (raise_depth dependencies) (replicate node_count 1) (rev oe.1);
  schedule_nodes dependencies value_dependencies tokens_by_node token_weights token_users successors value_users
    oe.2 exit_depth.

(** ** Entry points *)

(** [successors[definition].push(user)] *)
Definition push_row (user : nat) (rows : list (list nat)) (definition : nat) : dag_result (list (list nat)) :=
  row ← expect (rows !! definition); Ok (<[definition := row ++ [user]]> rows).

Definition add_users (dependencies value_dependencies : LocalGraphRows) (st : list (list nat) * list (list nat)) (user : nat)
    : dag_result (list (list nat) * list (list nat)) :=
  nodes ← expect (graph_nodes dependencies user);
  successors ← foldM (push_row user) st.1 nodes;
  values ← expect (graph_nodes value_dependencies user);
  value_users ← foldM (push_row user) st.2 values;
  Ok (successors, value_users).

Definition schedule_min_live_values_and_tokens (dependencies value_dependencies tokens_by_node : list (list nat))
    (token_weights : list Z) : dag_result (list nat) :=
  dependencies ← LocalGraphRows_new dependencies;
  value_dependencies ← LocalGraphRows_new value_dependencies;
  let tokens_by_node := LNR tokens_by_node in
  token_users ← validate_inputs dependencies value_dependencies tokens_by_node token_weights;
  let node_count := graph_len dependencies in
  users ← foldM (add_users dependencies value_dependencies)
            (replicate node_count [], replicate node_count []) (seq 0 node_count);
  successors ← LocalGraphRows_new users.1;
  value_users ← LocalGraphRows_new users.2;
  schedule_with_users dependencies value_dependencies tokens_by_node token_weights token_users successors value_users.

Definition schedule_min_live_values (dependencies value_dependencies : list (list nat)) : dag_result (list nat) :=
  schedule_min_live_values_and_tokens dependencies value_dependencies (replicate (length dependencies) []) [].

Definition schedule_min_live_values_and_tokens_with_mapped_rows
    (dependencies value_dependencies : MappedGraphRows) (tokens_by_node : MappedNodeRows) (token_weights : list Z)
    (successors value_users : MappedGraphRows) : dag_result (list nat) :=
  token_users ← validate_inputs dependencies value_dependencies tokens_by_node token_weights;
  _ ← validate_reverse_users successors dependencies;
  _ ← validate_reverse_users value_users value_dependencies;
  schedule_with_users dependencies value_dependencies tokens_by_node token_weights token_users successors value_users.

(** The first unit test of the source: two chains stay contiguous. *)
Example chains_contiguous :
  let rows := [[]; []; [0]; [1]; [2]; [3]]%nat in
  schedule_min_live_values rows rows = Ok [0; 2; 4; 1; 3; 5]%nat.
Proof. vm_compute. reflexivity. Qed.

Example cycle_found :
  schedule_min_live_values [[1]; [0]]%nat [[]; []] = Err Cycle.
Proof. vm_compute. reflexivity. Qed.
