(* ===== verification/DagOrder.v ===== *)
(** * DagOrder: the topological order of the scheduler

    [topological_order] of [DagSchedule] ends, and returns an order in which
    every node follows its dependencies, or fails because there is none. *)

From S2P Require Import Prelude Order Specs DagRows DagSchedule.

(** ** Orders *)

(** Every node of [l] comes after the nodes of its row. *)
Definition respects (row : nat -> list nat) (l : list nat) : Prop :=
  forall pre n post, l = pre ++ n :: post -> forall d, d ∈ row n -> d ∈ pre.

(** An order of the nodes below [count]. *)
Definition topological (count : nat) (row : nat -> list nat) (l : list nat) : Prop :=
  l ≡ₚ seq 0 count /\ respects row l.

Lemma respects_snoc row l s : respects row l -> (forall d, d ∈ row s -> d ∈ l) -> respects row (l ++ [s]).
Proof.
  intros Hl Hs pre n post Heq d Hd. destruct post as [|y post _] using rev_ind.
  - apply app_inj_tail in Heq as [-> ->]. by apply Hs.
  - rewrite app_comm_cons, app_assoc in Heq. apply app_inj_tail in Heq as [-> _]. by eapply Hl.
Qed.

(** The nodes of [l] that are not in [finished]. *)
Definition undone (finished l : list nat) : nat := length (filter (fun n => n ∉ finished) l).

Lemma undone_nil l : undone [] l = length l.
Proof.
  unfold undone. induction l as [|x l IH]; [done|]. rewrite filter_cons, decide_True by apply not_elem_of_nil. cbn. lia.
Qed.

Lemma undone_snoc finished s l : NoDup l -> s ∉ finished ->
  undone finished l = (undone (finished ++ [s]) l + if decide (s ∈ l) then 1 else 0)%nat.
Proof.
  intros Hl Hs. unfold undone. induction Hl as [|x l Hx Hl IH]; [done|]. rewrite !filter_cons.
  destruct (decide (x = s)) as [->|Hne].
  - rewrite decide_True, decide_False, decide_True by set_solver. rewrite decide_False in IH by done. cbn. lia.
  - destruct (decide (x ∈ finished)) as [Hf|Hf].
    + rewrite !(decide_False (P := x ∉ _)) by set_solver. rewrite IH. f_equal. apply decide_ext. set_solver.
    + rewrite !(decide_True (P := x ∉ _)) by set_solver. cbn. rewrite IH.
      rewrite (decide_ext (s ∈ l) (s ∈ x :: l)) by set_solver. lia.
Qed.

Lemma undone_zero finished l : undone finished l = 0%nat <-> forall n, n ∈ l -> n ∈ finished.
Proof.
  unfold undone. rewrite length_zero_iff_nil. split.
  - intros Hl n Hn. destruct (decide (n ∈ finished)); [done|]. exfalso. apply (not_elem_of_nil n). rewrite <- Hl.
    by apply list_elem_of_filter.
  - intros Hl. apply filter_none. intros n Hn Hnot. by apply Hnot, Hl.
Qed.

Lemma undone_pos finished l n : n ∈ l -> n ∉ finished -> (0 < undone finished l)%nat.
Proof. intros Hn Hf. destruct (decide (undone finished l = 0%nat)) as [Hz|]; [|lia]. rewrite undone_zero in Hz. by destruct Hf; apply Hz. Qed.

Lemma complete_order count finished : NoDup finished -> (forall n, n ∈ finished -> (n < count)%nat) ->
  length finished = count -> finished ≡ₚ seq 0 count.
Proof.
  intros Hnd Hlt Hlen. apply submseteq_length_Permutation; [|by rewrite length_seq; lia].
  apply NoDup_submseteq; [done|]. intros n Hn. apply elem_of_seq. specialize (Hlt n Hn). lia.
Qed.

(** When every missing node waits for a missing node, the nodes ordered so far
    contain any topological order. *)
Lemma stuck_contains count row finished l : NoDup finished -> (forall n, n ∈ finished -> (n < count)%nat) ->
  (forall n, (n < count)%nat -> n ∉ finished -> exists d, d ∈ row n /\ d ∉ finished) ->
  topological count row l -> length finished = count.
Proof.
  intros Hnd Hlt Hstuck [Hperm Hl]. assert (Hsub : forall pre post, l = pre ++ post -> pre ⊆ finished).
  { induction pre as [|x pre IH] using rev_ind; intros post Heq; [set_solver|]. rewrite <- app_assoc in Heq.
    specialize (IH _ Heq). intros n [Hn|Hn%list_elem_of_singleton]%elem_of_app; [by apply IH|subst n].
    destruct (decide (x ∈ finished)) as [|Hnew]; [done|].
    assert (Hx : x ∈ seq 0 count) by (rewrite <- Hperm, Heq; set_solver). apply elem_of_seq in Hx.
    destruct (Hstuck x ltac:(lia) Hnew) as (d & Hd & Hnd'). destruct Hnd'. by eapply IH, Hl. }
  pose proof (NoDup_bounded_length _ _ Hnd Hlt).
  assert (count <= length finished)%nat; [|lia]. rewrite <- (length_seq count 0). apply submseteq_length, NoDup_submseteq; [apply NoDup_seq|].
  intros n Hn. apply (Hsub l []); [by rewrite app_nil_r|]. by rewrite Hperm.
Qed.

Lemma respects_closed row l : respects row l -> forall n d, n ∈ l -> d ∈ row n -> d ∈ l.
Proof. intros Hr n d (pre & post & ->)%list_elem_of_split Hd. apply elem_of_app. left. by eapply Hr. Qed.

(** ** Errors *)

Section order.
(** Overflow is only reported on inputs that are not [small]. *)
Context (small : Prop) (count : nat) (Hsmall : small -> Z.of_nat count <= i64_max).

Definition overflow (e : DagScheduleError) : Prop := e = ArithmeticOverflow /\ ~ small.

Lemma usize_succ_spec (P : Z -> Prop) d : (small -> d + 1 <= usize_max) -> P (d + 1) -> yields overflow P (usize_succ d).
Proof.
  intros Hd HP. unfold usize_succ. destruct (checked_add d 1) as [r|] eqn:Hr; cbn.
  - by apply checked_add_Some in Hr as [-> _].
  - split; [done|]. intros Hs. apply checked_add_None in Hr. specialize (Hd Hs). lia.
Qed.

Lemma usize_pred_spec (P : nat -> Prop) d : (0 < d)%nat -> P (pred d) -> yields overflow P (usize_pred d).
Proof. by destruct d; [lia|]. Qed.

(** ** Kahn's algorithm *)

Context {U : Type} `{GraphRows U} (successors : U) (dep succ : nat -> list nat).
Context (Hsucc : GraphRowsLaws successors succ) (Hcount : graph_len successors = count).
Context (Hdep : forall n, (n < count)%nat -> NoDup (dep n)).
Context (Hrange : forall n d, (n < count)%nat -> d ∈ dep n -> (d < count)%nat).
Context (Hrev : forall u d, (u < count)%nat -> (d < count)%nat -> u ∈ succ d <-> d ∈ dep u).
Implicit Types (finished pre : list nat) (st : topo_state) (n s d : nat).

Definition depth_bound (k : nat) (depths : list Z) : Prop :=
  length depths = count /\ Forall (fun x : Z => 1 <= x <= 1 + Z.of_nat k) depths.

(** The state when [finished] nodes are ordered and the degrees are
    [degree]. *)
Record topo_at finished (degree : nat -> nat) st : Prop := {
  ta_order : topo_order st = finished;
  ta_degree : array count degree (indegree st);
  ta_ready n : n ∈ topo_ready st <-> (n < count)%nat /\ (n ∉ finished) /\ degree n = 0%nat;
  ta_depth : depth_bound (length finished) (depth st) }.

Record topo_inv finished st : Prop := {
  ti_at : topo_at finished (fun n => undone finished (dep n)) st;
  ti_nodup : NoDup finished;
  ti_range n : n ∈ finished -> (n < count)%nat;
  ti_respects : respects dep finished }.

Lemma succ_range n s : (n < count)%nat -> s ∈ succ n -> (s < count)%nat.
Proof. apply (view_range _ _ _ Hsucc Hcount). Qed.

(** Part of the successors [pre] have been told that [node] is ordered. *)
Definition told finished (node : nat) pre n : nat :=
  if decide (n ∈ pre) then undone (finished ++ [node]) (dep n) else undone finished (dep n).

Lemma topo_visit_spec finished node next pre s st :
  (node < count)%nat -> node ∉ finished -> s ∈ succ node -> s ∉ pre -> s ∉ finished ++ [node] ->
  1 <= next <= 1 + Z.of_nat (length (finished ++ [node])) ->
  topo_at (finished ++ [node]) (told finished node pre) st ->
  yields overflow (topo_at (finished ++ [node]) (told finished node (pre ++ [s]))) (topo_visit next st s).
Proof.
  intros Hnode Hnew Hs Hpre Hfresh Hnext [Ho Hd Hr [Hlen Hdepth]]. pose proof (succ_range node s Hnode Hs) as Hsn.
  unfold topo_visit. in_range (depth st) s as d Hds. rewrite Hds. msimpl.
  rewrite (array_lookup _ _ _ s Hd Hsn). msimpl.
  assert (Hedge : node ∈ dep s) by (by apply Hrev).
  pose proof (undone_snoc finished node (dep s) (Hdep s Hsn) Hnew) as Hund. rewrite decide_True in Hund by done.
  assert (Htold : told finished node pre s = S (undone (finished ++ [node]) (dep s))).
  { unfold told. rewrite decide_False by done. lia. }
  rewrite Htold. cbn [usize_pred]. msimpl. set (k := undone (finished ++ [node]) (dep s)).
  assert (Hsame : forall n, n <> s -> told finished node (pre ++ [s]) n = told finished node pre n).
  { intros n Hn. unfold told. rewrite (decide_ext (n ∈ pre ++ [s]) (n ∈ pre)); [done|]. set_solver. }
  assert (Hks : told finished node (pre ++ [s]) s = k) by (unfold told; rewrite decide_True by set_solver; done).
  split; cbn; [done| | |].
  - apply (array_update _ (told finished node pre)); [done|done|]. intros j _. apply Hsame.
  - intros n. destruct (decide (n = s)) as [->|Hn].
    + rewrite Hks. case_decide as Hk.
      * rewrite elem_of_union, elem_of_singleton. tauto.
      * rewrite Hr, Htold. fold k. lia.
    + rewrite (Hsame n Hn). case_decide; [rewrite elem_of_union, elem_of_singleton|]; rewrite Hr; tauto.
  - split; [by rewrite length_insert|]. apply Forall_insert; [done|].
    rewrite Forall_lookup in Hdepth. specialize (Hdepth s d Hds). lia.
Qed.

Lemma topo_step_spec finished st node : topo_inv finished st -> node ∈ topo_ready st ->
  yields overflow (topo_inv (finished ++ [node])) (topo_step successors node st).
Proof.
  intros [[Ho Hd Hr [Hlen Hdepth]] Hnd Hlt Hresp] (Hnode & Hnew & Hzero)%Hr. rewrite undone_zero in Hzero.
  assert (Hnd' : NoDup (finished ++ [node])) by (apply NoDup_app; split_and!; [done|set_solver|apply NoDup_singleton]).
  assert (Hlt' : forall n, n ∈ finished ++ [node] -> (n < count)%nat) by (intros n [?|Hn%list_elem_of_singleton]%elem_of_app; [auto|by subst n]).
  pose proof (NoDup_bounded_length _ _ Hnd' Hlt') as Hk. rewrite length_app in Hk. cbn in Hk.
  unfold topo_step. in_range (depth st) node as d Hdn. rewrite Hdn. msimpl.
  pose proof Hdepth as Hdepth'. rewrite Forall_lookup in Hdepth'. specialize (Hdepth' node d Hdn).
  eapply (yields_bind _ (fun next => next = d + 1)); [apply usize_succ_spec; [|done]|].
  { intros ?%Hsmall. unfold usize_max, i64_max in *. lia. }
  intros next ->. rewrite (view_nodes _ _ _ Hsucc Hcount) by done. msimpl.
  assert (Hfresh : forall s, s ∈ succ node -> s ∉ finished ++ [node]).
  { intros s Hs Hin. assert (node ∈ dep s) as Hedge by (apply Hrev; [|done|done]; by eapply succ_range).
    apply elem_of_app in Hin as [Hin|Hin%list_elem_of_singleton]; [|subst s; by apply Hnew, Hzero].
    by apply Hnew, (respects_closed dep finished Hresp s). }
  eapply yields_impl; [|apply (yields_foldM _ (fun pre => topo_at (finished ++ [node]) (told finished node pre)))].
  - intros st' Hat. destruct Hat as [Ho' Hd' Hr' Hb']. split; [split|done|done|]; [done| | |done|].
    + eapply array_ext; [|exact Hd']. intros n Hn. cbn. unfold told. case_decide as Hin; [done|].
      rewrite (undone_snoc finished node (dep n)), decide_False; [lia| |by apply Hdep|done]. by rewrite <- Hrev.
    + intros n. rewrite Hr'. split; intros (Hn & ? & Hu); (split_and!; [done..|]); revert Hu; unfold told; case_decide as Hin; try done;
        rewrite (undone_snoc finished node (dep n)), decide_False; try (rewrite <- Hrev; done); try done; try (by apply Hdep); lia.
    + apply respects_snoc; [done|]. auto.
  - split; cbn; [by rewrite Ho| | |].
    + eapply array_ext; [|exact Hd]. intros n Hn. unfold told. by rewrite decide_False by apply not_elem_of_nil.
    + intros n. rewrite elem_of_difference, elem_of_singleton, Hr. unfold told. rewrite decide_False by apply not_elem_of_nil.
      set_solver.
    + split; [done|]. eapply Forall_impl; [exact Hdepth|]. cbn. rewrite length_app. cbn. lia.
  - intros pre s post st' Heq Hat. pose proof (view_NoDup _ _ _ Hsucc Hcount node Hnode) as Hnds.
    apply topo_visit_spec; try done.
    + rewrite Heq. set_solver.
    + rewrite Heq in Hnds. apply NoDup_app in Hnds as (_ & Hdisj & _). intros Hin. specialize (Hdisj s Hin). set_solver.
    + apply Hfresh. rewrite Heq. set_solver.
    + rewrite length_app. cbn. lia.
Qed.

Lemma first_ready_new finished st node : topo_inv finished st -> first (topo_ready st) = Some node ->
  node ∈ topo_ready st /\ (S (length finished) <= count)%nat.
Proof.
  intros Hi Hf. apply first_Some in Hf as [Hin _]. split; [done|].
  pose proof Hin as (Hnode & Hnew & _)%(ta_ready _ _ _ (ti_at _ _ Hi)).
  change (S (length finished)) with (length (node :: finished)). apply NoDup_bounded_length.
  - constructor; [done|apply (ti_nodup _ _ Hi)].
  - intros n [->|Hn]%elem_of_cons; [done|by apply (ti_range _ _ Hi)].
Qed.

Lemma topo_loop_spec fuel finished st : topo_inv finished st -> (count <= fuel + length finished)%nat ->
  yields overflow (fun st' => exists finished', topo_inv finished' st' /\ topo_ready st' = ∅) (topo_loop successors fuel st).
Proof.
  revert finished st. induction fuel as [|fuel IH]; intros finished st Hi Hf; cbn [topo_loop];
    (destruct (first (topo_ready st)) as [node|] eqn:Hfirst; [|by exists finished; split; [|apply first_None]]);
    destruct (first_ready_new finished st node Hi Hfirst) as [Hin Hlt]; [lia|].
  eapply yields_bind; [by apply topo_step_spec|]. intros st' Hi'. apply (IH (finished ++ [node])); [done|]. rewrite length_app. cbn. lia.
Qed.

(** With no node ready, every missing node has a missing dependency. *)
Lemma stuck_topo finished st n : topo_inv finished st -> topo_ready st = ∅ -> (n < count)%nat -> n ∉ finished ->
  exists d, d ∈ dep n /\ d ∉ finished.
Proof.
  intros Hi Hempty Hn Hnew. destruct (decide (Exists (fun d => d ∉ finished) (dep n))) as [He|He]; [by apply Exists_exists in He|].
  exfalso. apply (not_elem_of_empty (C:=gset nat) n). rewrite <- Hempty. apply (ta_ready _ _ _ (ti_at _ _ Hi)). split_and!; [done..|].
  apply undone_zero. intros d Hd. apply dec_stable. intros Hnot. apply He, Exists_exists. by exists d.
Qed.

Lemma initial_topo_inv degrees : array count (fun n => length (dep n)) degrees ->
  topo_inv [] (TS (initial_ready degrees) degrees (replicate count 1) []).
Proof.
  intros Hd. split; [split|constructor|by intros n ?%not_elem_of_nil|by intros [] ? ? ?]; cbn; [done| | |].
  - eapply array_ext; [|exact Hd]. intros n _. by rewrite undone_nil.
  - intros n. unfold initial_ready. rewrite elem_of_list_to_set, list_elem_of_filter, elem_of_seq, (proj1 Hd), undone_nil. split.
    + intros [Hn [_ Hlt]]. rewrite (array_lookup _ _ _ n Hd) in Hn by lia. injection Hn as Hn. split_and!; [lia|apply not_elem_of_nil|lia].
    + intros (Hn & _ & Hz). rewrite (array_lookup _ _ _ n Hd) by lia. rewrite Hz. split; [done|lia].
  - split; [apply length_replicate|]. apply Forall_replicate. lia.
Qed.

(** [topological_order] finds an order, or there is none. *)
Definition order_error (e : DagScheduleError) : Prop :=
  overflow e \/ (e = Cycle /\ ~ exists l, topological count dep l).

Lemma topological_order_spec degrees : array count (fun n => length (dep n)) degrees ->
  yields order_error (fun oe => topological count dep oe.1 /\ depth_bound count oe.2) (topological_order successors degrees).
Proof.
  intros Hd. unfold topological_order. rewrite Hcount. pose proof (topo_loop_spec count [] _ (initial_topo_inv degrees Hd) ltac:(cbn; lia)) as Hl.
  destruct (topo_loop _ _ _) as [st|e|]; msimpl; [|by left|done]. destruct Hl as (finished & Hi & Hempty).
  pose proof (ti_at _ _ Hi) as [Ho _ _ Hb]. case_decide as Hlen; rewrite Ho in *; cbn.
  - rewrite Hlen in Hb. split; [|done]. split; [|apply (ti_respects _ _ Hi)].
    apply complete_order; [apply (ti_nodup _ _ Hi)|apply (ti_range _ _ Hi)|done].
  - right. split; [done|]. intros (l & Hl). apply Hlen. eapply stuck_contains; [apply (ti_nodup _ _ Hi)|apply (ti_range _ _ Hi)| |exact Hl].
    intros n. by apply (stuck_topo finished st).
Qed.

(** ** Exit depths *)

Lemma raise_depth_spec {G} `{GraphRows G} (g : G) k depths node : GraphRowsLaws g dep -> graph_len g = count ->
  (node < count)%nat -> (k < count)%nat -> depth_bound k depths ->
  yields overflow (depth_bound (S k)) (raise_depth g depths node).
Proof.
  intros Hg Hgl Hnode Hk [Hlen Hb]. unfold raise_depth. in_range depths node as d Hd. rewrite Hd. msimpl.
  pose proof Hb as Hb'. rewrite Forall_lookup in Hb'. specialize (Hb' node d Hd).
  eapply (yields_bind _ (fun r => r = d + 1)); [apply usize_succ_spec; [|done]|].
  { intros ?%Hsmall. unfold usize_max, i64_max in *. lia. }
  intros r ->. rewrite (view_nodes _ _ _ Hg Hgl) by done. msimpl.
  apply (yields_foldM _ (fun _ => depth_bound (S k))).
  - split; [done|]. eapply Forall_impl; [exact Hb|]. cbn. lia.
  - intros pre x post depths' Heq [Hlen' Hx]. assert (Hxc : (x < count)%nat) by (apply (Hrange node); [done|rewrite Heq; set_solver]).
    in_range depths' x as e He. rewrite He. msimpl. unfold vset. rewrite decide_True by lia. cbn.
    split; [by rewrite length_insert|]. apply Forall_insert; [done|]. rewrite Forall_lookup in Hx. specialize (Hx x e He). lia.
Qed.

Lemma exit_depths_spec {G} `{GraphRows G} (g : G) order : GraphRowsLaws g dep -> graph_len g = count -> order ≡ₚ seq 0 count ->
  yields overflow (depth_bound count) (foldM (raise_depth g) (replicate count 1) order).
Proof.
  intros Hg Hgl Hperm. assert (Hlen : length order = count) by (by rewrite Hperm, length_seq).
  rewrite <- Hlen at 1. apply (yields_foldM _ (fun pre => depth_bound (length pre))).
  - split; [apply length_replicate|]. apply Forall_replicate. cbn. lia.
  - intros pre x post depths Heq Hb. rewrite length_app, Nat.add_1_r. apply raise_depth_spec; try done.
    + assert (Hx : x ∈ seq 0 count) by (rewrite <- Hperm, Heq; set_solver). apply elem_of_seq in Hx. lia.
    + rewrite <- Hlen, Heq, length_app. cbn. lia.
Qed.
End order.
