(* ===== verification/DagReady.v ===== *)
(** * DagReady: the ready set holds exact priorities

    The delta of a node, as a function of what is live, and the proof that
    the incremental updates of [DagSchedule] keep the stored deltas and the
    ordered set of keys equal to it. *)

From stdpp Require Import functions.
From S2P Require Import Prelude Order Specs DagRows DagSchedule DagOrder.

(** ** Well-formed inputs *)

Lemma any_missing_spec {D} `{GraphRows D} (dependencies : D) (dep : nat -> list nat) (count : nat)
    (Hdep : GraphRowsLaws dependencies dep) (Hdlen : graph_len dependencies = count) n values : (n < count)%nat -> (forall d, d ∈ values -> (d < count)%nat) ->
  exists b, any_missing dependencies n values = Ok b /\ (b = false <-> forall d, d ∈ values -> d ∈ dep n).
Proof.
  intros Hn. induction values as [|d values IH]; intros Hlt; cbn [any_missing].
  { exists false. split; [done|]. split; [by intros _ d ?%not_elem_of_nil|done]. }
  rewrite (view_contains _ _ _ Hdep Hdlen) by (done || (apply Hlt; by left)). msimpl. case_bool_decide as Hd.
  - destruct IH as (b & -> & Hb); [intros; apply Hlt; by right|]. exists b. split; [done|]. rewrite Hb.
    setoid_rewrite elem_of_cons. naive_solver.
  - exists true. split; [done|]. split; [done|]. intros Hall. destruct Hd. apply Hall. by left.
Qed.

(** The rows of every view, and of the users of each token. *)
Record dag_rows : Type := DR { dep : nat -> list nat; val : nat -> list nat; tok : nat -> list nat;
  succ : nat -> list nat; vuse : nat -> list nat; tu : nat -> list nat }.

(** What validation establishes: the views follow the row laws, the users are
    the reverse of the dependencies, and value edges are dependencies. *)
Record dag_input {D V T S U} `{GraphRows D, GraphRows V, NodeRows T, GraphRows S, GraphRows U}
    (count : nat) (token_weights : list Z) (dependencies : D) (value_dependencies : V) (tokens_by_node : T)
    (token_users : list (list nat)) (successors : S) (value_users : U) (r : dag_rows) : Prop := {
  di_weights : Forall (Z.le 0) token_weights;
  di_dep : GraphRowsLaws dependencies (dep r);
  di_dep_len : graph_len dependencies = count;
  di_val : GraphRowsLaws value_dependencies (val r);
  di_val_len : graph_len value_dependencies = count;
  di_succ : GraphRowsLaws successors (succ r);
  di_succ_len : graph_len successors = count;
  di_vuse : GraphRowsLaws value_users (vuse r);
  di_vuse_len : graph_len value_users = count;
  di_tok n : (n < count)%nat -> node_row tokens_by_node n = Some (tok r n);
  di_tok_nodup n : (n < count)%nat -> NoDup (tok r n);
  di_tok_range n t : (n < count)%nat -> t ∈ tok r n -> (t < length token_weights)%nat;
  di_tu : array (length token_weights) (tu r) token_users;
  di_tu_nodup t : (t < length token_weights)%nat -> NoDup (tu r t);
  di_tu_rev t n : (t < length token_weights)%nat -> n ∈ tu r t <-> (n < count)%nat /\ t ∈ tok r n;
  di_sub n d : (n < count)%nat -> d ∈ val r n -> d ∈ dep r n;
  di_rev n d : (n < count)%nat -> (d < count)%nat -> n ∈ succ r d <-> d ∈ dep r n;
  di_vrev n d : (n < count)%nat -> (d < count)%nat -> n ∈ vuse r d <-> d ∈ val r n }.
#[global] Arguments di_weights {_ _ _ _ _ _ _ _ _ _ _ _ _ _ _ _ _ _ _}. #[global] Arguments di_dep {_ _ _ _ _ _ _ _ _ _ _ _ _ _ _ _ _ _ _}.
#[global] Arguments di_dep_len {_ _ _ _ _ _ _ _ _ _ _ _ _ _ _ _ _ _ _}. #[global] Arguments di_val {_ _ _ _ _ _ _ _ _ _ _ _ _ _ _ _ _ _ _}.
#[global] Arguments di_val_len {_ _ _ _ _ _ _ _ _ _ _ _ _ _ _ _ _ _ _}. #[global] Arguments di_succ {_ _ _ _ _ _ _ _ _ _ _ _ _ _ _ _ _ _ _}.
#[global] Arguments di_succ_len {_ _ _ _ _ _ _ _ _ _ _ _ _ _ _ _ _ _ _}. #[global] Arguments di_vuse {_ _ _ _ _ _ _ _ _ _ _ _ _ _ _ _ _ _ _}.
#[global] Arguments di_vuse_len {_ _ _ _ _ _ _ _ _ _ _ _ _ _ _ _ _ _ _}. #[global] Arguments di_tok {_ _ _ _ _ _ _ _ _ _ _ _ _ _ _ _ _ _ _}.
#[global] Arguments di_tok_nodup {_ _ _ _ _ _ _ _ _ _ _ _ _ _ _ _ _ _ _}. #[global] Arguments di_tok_range {_ _ _ _ _ _ _ _ _ _ _ _ _ _ _ _ _ _ _}.
#[global] Arguments di_tu {_ _ _ _ _ _ _ _ _ _ _ _ _ _ _ _ _ _ _}. #[global] Arguments di_tu_nodup {_ _ _ _ _ _ _ _ _ _ _ _ _ _ _ _ _ _ _}.
#[global] Arguments di_tu_rev {_ _ _ _ _ _ _ _ _ _ _ _ _ _ _ _ _ _ _}. #[global] Arguments di_sub {_ _ _ _ _ _ _ _ _ _ _ _ _ _ _ _ _ _ _}.
#[global] Arguments di_rev {_ _ _ _ _ _ _ _ _ _ _ _ _ _ _ _ _ _ _}. #[global] Arguments di_vrev {_ _ _ _ _ _ _ _ _ _ _ _ _ _ _ _ _ _ _}.

Section ready.
Context {D V T S U : Type} `{GraphRows D, GraphRows V, NodeRows T, GraphRows S, GraphRows U}.
Context (count : nat) (token_weights : list Z) (dependencies : D) (value_dependencies : V) (tokens_by_node : T).
Context (token_users : list (list nat)) (successors : S) (value_users : U) (g : dag_rows).
Context (Hdag : dag_input count token_weights dependencies value_dependencies tokens_by_node token_users successors value_users g).
Abbreviation tokens_count := (length token_weights).
Abbreviation total_weight := (zsum id token_weights).
Context (small : Prop) (Hsmall : small -> Z.of_nat count + 2 * total_weight <= i64_max).
Abbreviation val := (val g).
Abbreviation tok := (tok g).
Context (entry_depth exit_depth : list Z) (ed xd : nat -> Z).
Context (Hed : array count ed entry_depth) (Hxd : array count xd exit_depth).
Implicit Types (lv lt p : nat -> bool) (rem : nat -> nat) (delta : nat -> Z) (rs : ready_state) (n c d t : nat).

Abbreviation overflow := (DagOrder.overflow small).

(** ** The delta of a node *)

Definition weight t : Z := default 0 (token_weights !! t).

Definition contribution lt rem t : Z :=
  if negb (lt t) && bool_decide (1 < rem t)%nat then weight t
  else if lt t && bool_decide (rem t = 1%nat) then - weight t
  else 0.

(** The values that [n] makes live, less itself, and what its tokens add. *)
Definition delta_of lv lt rem n : Z :=
  zsum (fun d => Z.b2z (negb (lv d))) (val n) - Z.b2z (lv n) + zsum (contribution lt rem) (tok n).

Lemma val_range n d : (n < count)%nat -> d ∈ val n -> (d < count)%nat.
Proof. apply (view_range _ _ _ (di_val Hdag) (di_val_len Hdag)). Qed.
Lemma val_NoDup n : (n < count)%nat -> NoDup (val n).
Proof. apply (view_NoDup _ _ _ (di_val Hdag) (di_val_len Hdag)). Qed.
Lemma val_length n : (n < count)%nat -> (length (val n) <= count)%nat.
Proof. intros Hn. apply NoDup_bounded_length; [by apply val_NoDup|]. intros d. by apply val_range. Qed.

Lemma weight_nonneg t : 0 <= weight t.
Proof.
  unfold weight. destruct (token_weights !! t) as [w|] eqn:Hw; [|done]. eapply (Forall_lookup_1 _ _ _ _ (di_weights Hdag)). exact Hw.
Qed.

Lemma zsum_weights : zsum weight (seq 0 tokens_count) = total_weight.
Proof.
  unfold weight. clear. induction token_weights as [|w l IH] using rev_ind; [done|].
  rewrite length_app, seq_app, !zsum_app, Nat.add_0_l. cbn. rewrite list_lookup_middle by done. cbn.
  rewrite (zsum_ext _ (fun t => default 0 (l !! t))); [by rewrite IH|].
  intros t Ht%elem_of_seq. rewrite lookup_app_l by lia. done.
Qed.

(** Distinct tokens weigh at most the total. *)
Lemma tokens_weight l : NoDup l -> (forall t, t ∈ l -> (t < tokens_count)%nat) -> 0 <= zsum weight l <= total_weight.
Proof.
  intros Hnd Hl. split; [apply zsum_nonneg, weight_nonneg|]. rewrite <- zsum_weights. apply zsum_submseteq; [apply weight_nonneg|].
  apply NoDup_submseteq; [done|]. intros t Ht%Hl. apply elem_of_seq. lia.
Qed.

Lemma weight_le t : (t < tokens_count)%nat -> 0 <= weight t <= total_weight.
Proof. intros Ht. pose proof (tokens_weight [t]) as Hw. cbn in Hw. rewrite Z.add_0_r in Hw. apply Hw; [apply NoDup_singleton|]. by intros x ->%list_elem_of_singleton. Qed.

Lemma contribution_abs lt rem t : Z.abs (contribution lt rem t) <= weight t.
Proof. unfold contribution. pose proof (weight_nonneg t). repeat case_match; lia. Qed.

Lemma contributions_bound lt rem l : NoDup l -> (forall t, t ∈ l -> (t < tokens_count)%nat) ->
  - total_weight <= zsum (contribution lt rem) l <= total_weight.
Proof.
  intros Hnd Hl. pose proof (zsum_abs (contribution lt rem) weight l (fun t _ => contribution_abs lt rem t)).
  pose proof (tokens_weight l Hnd Hl). lia.
Qed.

Lemma missing_bound lv l : 0 <= zsum (fun d => Z.b2z (negb (lv d))) l <= Z.of_nat (length l).
Proof. pose proof (zsum_bounds (fun d => Z.b2z (negb (lv d))) l 0 1) as Hb. rewrite Z.mul_0_l, Z.mul_1_l in Hb. apply Hb. intros d _. destruct (lv d); cbn; lia. Qed.

Lemma delta_bound lv lt rem n : (n < count)%nat ->
  -1 - total_weight <= delta_of lv lt rem n <= Z.of_nat count + total_weight.
Proof.
  intros Hn. unfold delta_of. pose proof (missing_bound lv (val n)). pose proof (val_length n Hn).
  pose proof (contributions_bound lt rem (tok n) ((di_tok_nodup Hdag) n Hn) (fun t => (di_tok_range Hdag) n t Hn)). destruct (lv n); cbn; lia.
Qed.

Lemma delta_ext lv lv' lt lt' rem rem' n : (n < count)%nat ->
  (forall d, (d < count)%nat -> lv d = lv' d) ->
  (forall t, t ∈ tok n -> contribution lt rem t = contribution lt' rem' t) ->
  delta_of lv lt rem n = delta_of lv' lt' rem' n.
Proof.
  intros Hn Hlv Hc. unfold delta_of. rewrite (Hlv n Hn). rewrite (zsum_ext (contribution lt rem) (contribution lt' rem')) by done.
  rewrite (zsum_ext (fun d => Z.b2z (negb (lv d))) (fun d => Z.b2z (negb (lv' d)))); [done|]. intros d Hd. by rewrite Hlv by (by eapply val_range).
Qed.

(** ** Checked arithmetic *)

Lemma isize_add_spec (P : Z -> Prop) a b : (small -> i64_min <= a + b <= i64_max) -> P (a + b) ->
  yields overflow P (isize_add a b).
Proof.
  intros Hb HP. unfold isize_add, i64_checked_add. case_decide; cbn; [done|]. split; [done|]. intros ?%Hb. done.
Qed.

Lemma isize_from_spec (P : Z -> Prop) a : (small -> a <= i64_max) -> P a -> yields overflow P (isize_from a).
Proof. intros Hb HP. unfold isize_from, i64_try_from. case_decide; cbn; [done|]. split; [done|]. intros ?%Hb. done. Qed.

Lemma isize_mul_spec (P : Z -> Prop) a b : (small -> i64_min <= a * b <= i64_max) -> P (a * b) ->
  yields overflow P (isize_mul a b).
Proof. intros Hb HP. unfold isize_mul. case_decide; cbn; [done|]. split; [done|]. intros ?%Hb. done. Qed.

Lemma weight_lookup t : (t < tokens_count)%nat -> token_weights !! t = Some (weight t).
Proof. intros Ht. unfold weight. by in_range token_weights t as w ->. Qed.

Lemma total_small : small -> 2 * total_weight <= i64_max - Z.of_nat count /\ 0 <= total_weight.
Proof.
  intros Hs%Hsmall. split; [lia|]. rewrite <- zsum_weights. apply zsum_nonneg, weight_nonneg.
Qed.

Lemma weight_small t : (t < tokens_count)%nat -> small -> weight t <= i64_max.
Proof. intros Ht Hs. pose proof (weight_le t Ht). pose proof (total_small Hs). lia. Qed.

(** ** The stored state *)

Definition key_of delta n : ready_key := (delta n, (Rev (xd n), (Rev (ed n), Rev n))).

(** The nodes of [p] are ready, with the priorities [delta]. *)
Record ready_inv delta p rs : Prop := {
  ri_present : array count p (present rs);
  ri_length : length (deltas rs) = count;
  ri_deltas n : (n < count)%nat -> p n = true -> deltas rs !! n = Some (delta n);
  ri_ready k : k ∈ ready rs <-> exists n, (n < count)%nat /\ p n = true /\ k = key_of delta n }.

Lemma ready_inv_ext delta delta' p rs :
  (forall n, (n < count)%nat -> p n = true -> delta n = delta' n) -> ready_inv delta p rs -> ready_inv delta' p rs.
Proof.
  intros Heq [Hp1 Hp2 Hp3 Hp4]. split; [done|done| |].
  - intros n Hn Hp. by rewrite <- Heq, Hp3.
  - intros k. rewrite Hp4. unfold key_of. split; intros (n & Hn & Hp & ->); exists n; (split_and!; [done..|]); by rewrite Heq.
Qed.

Lemma ready_inv_nodes delta p p' rs :
  (forall n, (n < count)%nat -> p n = p' n) -> ready_inv delta p rs -> ready_inv delta p' rs.
Proof.
  intros Heq [Hp1 Hp2 Hp3 Hp4]. split; [by eapply array_ext|done| |].
  - intros n Hn Hp. apply Hp3; [done|]. by rewrite Heq.
  - intros k. rewrite Hp4. split; intros (n & Hn & Hp & ->); exists n; (split_and!; [done| |done]); [by rewrite <- Heq|by rewrite Heq].
Qed.

Lemma make_key_ok dl n : (n < count)%nat -> make_key entry_depth exit_depth dl n = Ok (dl, (Rev (xd n), (Rev (ed n), Rev n))).
Proof. intros Hn. unfold make_key. by rewrite (array_lookup _ _ _ n Hxd Hn), (array_lookup _ _ _ n Hed Hn). Qed.

Lemma key_inj delta delta' n m : key_of delta n = key_of delta' m -> n = m.
Proof. unfold key_of. congruence. Qed.

Lemma adjust_spec delta p rs a c : ready_inv delta p rs -> (c < count)%nat ->
  (p c = true -> small -> i64_min <= delta c + a <= i64_max) ->
  yields overflow (ready_inv (<[c := delta c + a]> delta) p) (adjust entry_depth exit_depth a rs c).
Proof.
  intros Hi Hc Hb. pose proof Hi as [Hp Hlen Hd Hr]. unfold adjust. rewrite (array_lookup _ _ _ c Hp Hc). msimpl.
  destruct (p c) eqn:Hpc; cbn [negb].
  2:{ cbn. eapply ready_inv_ext; [|done]. intros n Hn Hpn. rewrite fn_lookup_insert_ne; [done|]. intros <-. congruence. }
  rewrite (Hd c Hc Hpc). msimpl. rewrite make_key_ok by done.
  eapply (yields_bind _ (fun r => r = delta c + a)); [apply isize_add_spec; [by apply Hb|done]|]. intros r ->.
  rewrite make_key_ok by done. msimpl. split; cbn; [done|by rewrite length_insert| |].
  - intros n Hn Hpn. destruct (decide (c = n)) as [<-|Hne].
    + by rewrite list_lookup_insert_eq, fn_lookup_insert by lia.
    + rewrite list_lookup_insert_ne, fn_lookup_insert_ne by done. by apply Hd.
  - intros k. rewrite elem_of_union, elem_of_singleton, elem_of_difference, elem_of_singleton, Hr. split.
    + intros [->|((n & Hn & Hpn & ->) & Hne)].
      * exists c. split_and!; [done..|]. unfold key_of. by rewrite fn_lookup_insert.
      * exists n. split_and!; [done..|]. unfold key_of. rewrite fn_lookup_insert_ne; [done|]. by intros <-.
    + intros (n & Hn & Hpn & ->). destruct (decide (c = n)) as [<-|Hne].
      * left. unfold key_of. by rewrite fn_lookup_insert.
      * right. unfold key_of at 1. rewrite fn_lookup_insert_ne by done. split; [by exists n|].
        intros Heq. apply Hne. injection Heq. congruence.
Qed.

(** Adjusting each of [l] once. *)
Lemma adjust_fold delta delta' p rs a l : ready_inv delta p rs -> NoDup l -> (forall c, c ∈ l -> (c < count)%nat) ->
  (forall c, (c < count)%nat -> p c = true -> delta' c = delta c + if decide (c ∈ l) then a else 0) ->
  (forall c, (c < count)%nat -> small -> i64_min <= delta' c <= i64_max) ->
  yields overflow (ready_inv delta' p) (foldM (adjust entry_depth exit_depth a) rs l).
Proof.
  intros Hi Hnd Hl Hd' Hb. eapply yields_impl; [|apply (yields_foldM _
    (fun pre => ready_inv (fun c => delta c + if decide (c ∈ pre) then a else 0) p))].
  - intros rs'. apply ready_inv_ext. intros n Hn Hp. by rewrite Hd'.
  - eapply ready_inv_ext; [|exact Hi]. intros n _ _. rewrite decide_False by apply not_elem_of_nil. lia.
  - intros pre c post rs' Heq Hi'. assert (Hc : (c < count)%nat) by (apply Hl; rewrite Heq; set_solver).
    assert (Hpre : c ∉ pre) by (rewrite Heq in Hnd; apply NoDup_app in Hnd as (_ & Hnd & _); intros Hin; specialize (Hnd c Hin); set_solver).
    eapply yields_impl; [|apply (adjust_spec _ _ _ a c Hi' Hc)].
    + intros rs''. apply ready_inv_ext. intros n Hn Hp. destruct (decide (c = n)) as [<-|Hne].
      * rewrite fn_lookup_insert. rewrite decide_False, decide_True by set_solver. lia.
      * rewrite fn_lookup_insert_ne by done. f_equal. erewrite decide_ext; [done|]. set_solver.
    + intros Hp Hs. cbn. rewrite decide_False by done. specialize (Hb c Hc Hs). rewrite Hd', decide_True in Hb; [lia|rewrite Heq; set_solver|done|done].
Qed.

(** ** Insertion, removal and updates *)

Lemma count_missing_spec live_ lv l k : array count lv live_ -> (forall d, d ∈ l -> (d < count)%nat) ->
  exists r, foldM (count_dead live_) k l = Ok r /\
    Z.of_nat r = Z.of_nat k + zsum (fun d => Z.b2z (negb (lv d))) l.
Proof.
  intros Hlive. revert k. induction l as [|d l IH]; intros k Hl; cbn [foldM]; [exists k; split; [done|cbn; lia]|].
  assert (count_dead live_ k d = Ok (if lv d then k else Datatypes.S k)) as ->.
  { unfold count_dead. by rewrite (array_lookup _ _ _ d Hlive) by (apply Hl; by left). }
  msimpl. destruct (IH (if lv d then k else Datatypes.S k)) as (r & -> & Hr); [intros; apply Hl; by right|].
  exists r. split; [done|]. cbn [zsum]. destruct (lv d); cbn in *; lia.
Qed.

Lemma token_contribution_spec lts remaining lt rem t : array tokens_count lt lts -> array tokens_count rem remaining ->
  (t < tokens_count)%nat ->
  yields overflow (fun r => r = contribution lt rem t) (token_contribution token_weights lts remaining t).
Proof.
  intros Hlt Hrem Ht. unfold token_contribution.
  rewrite (array_lookup _ _ _ t Hlt Ht), (array_lookup _ _ _ t Hrem Ht), (weight_lookup t Ht). msimpl. unfold contribution.
  destruct (negb (lt t) && bool_decide (1 < rem t)%nat); [apply isize_from_spec; [by apply weight_small|done]|].
  destruct (lt t && bool_decide (rem t = 1%nat)); [|done].
  pose proof (isize_from_spec (fun r => r = weight t) (weight t) (weight_small t Ht) eq_refl) as Hf.
  destruct (isize_from (weight t)); cbn in *; [by rewrite Hf|done|done].
Qed.

Lemma initial_delta_spec live_ lts remaining lv lt rem n :
  array count lv live_ -> array tokens_count lt lts -> array tokens_count rem remaining -> (n < count)%nat ->
  yields overflow (fun r => r = delta_of lv lt rem n)
    (initial_delta value_dependencies tokens_by_node token_weights live_ lts remaining n).
Proof.
  intros Hlv Hlt Hrem Hn. unfold initial_delta. rewrite (view_nodes _ _ _ (di_val Hdag) (di_val_len Hdag)) by done. msimpl.
  destruct (count_missing_spec live_ lv (val n) 0 Hlv) as (missing & Hm & Hmz); [intros d; by apply val_range|].
  unfold count_missing. rewrite Hm. msimpl. rewrite (array_lookup _ _ _ n Hlv Hn). msimpl.
  pose proof (missing_bound lv (val n)) as Hmb. pose proof (val_length n Hn) as Hvl.
  assert (Hmissing : small -> Z.of_nat missing <= i64_max) by (intros Hs; pose proof (total_small Hs); lia).
  eapply (yields_bind _ (fun r => r = Z.of_nat missing)); [by apply isize_from_spec|]. intros r ->.
  eapply (yields_bind _ (fun r => r = Z.of_nat missing - Z.b2z (lv n))).
  { apply isize_add_spec; [|lia]. intros Hs. specialize (Hmissing Hs). unfold i64_min, i64_max in *. destruct (lv n); cbn; lia. }
  intros r ->. rewrite (di_tok Hdag) by done. msimpl.
  eapply (yields_bind _ (fun r => r = zsum (contribution lt rem) (tok n))).
  { apply (yields_foldM _ (fun pre r => r = zsum (contribution lt rem) pre)); [done|]. intros pre t post d Heq ->.
    assert (Ht : (t < tokens_count)%nat) by (apply ((di_tok_range Hdag) n); [done|rewrite Heq; set_solver]).
    eapply yields_bind; [by apply (token_contribution_spec lts remaining lt rem t)|]. intros c ->.
    apply isize_add_spec; [|rewrite zsum_app; cbn; lia]. intros Hs. pose proof (total_small Hs).
    pose proof (contributions_bound lt rem (pre ++ [t])) as Hb. rewrite zsum_app in Hb. cbn in Hb. rewrite Z.add_0_r in Hb.
    unfold i64_min, i64_max in *. enough (- total_weight <= zsum (contribution lt rem) pre + contribution lt rem t <= total_weight) by lia.
    apply Hb.
    - pose proof ((di_tok_nodup Hdag) n Hn) as Hnd. rewrite Heq in Hnd. rewrite cons_middle, app_assoc in Hnd. by apply NoDup_app in Hnd as [? _].
    - intros x Hx. apply ((di_tok_range Hdag) n); [done|]. rewrite Heq, cons_middle, app_assoc. apply elem_of_app. by left. }
  intros r ->. apply isize_add_spec; [|unfold delta_of; lia]. intros Hs. pose proof (delta_bound lv lt rem n Hn) as Hb.
  pose proof (total_small Hs). unfold delta_of, i64_min, i64_max in *. lia.
Qed.

Lemma insert_ready_spec live_ lts remaining lv lt rem p rs n :
  array count lv live_ -> array tokens_count lt lts -> array tokens_count rem remaining -> (n < count)%nat ->
  ready_inv (delta_of lv lt rem) p rs -> p n = false ->
  yields overflow (ready_inv (delta_of lv lt rem) (<[n := true]> p))
    (insert_ready dependencies value_dependencies tokens_by_node token_weights entry_depth exit_depth live_ lts remaining rs n).
Proof.
  intros Hlv Hlt Hrem Hn [Hp Hlen Hd Hr] Hpn. unfold insert_ready. rewrite (array_lookup _ _ _ n Hp Hn), Hpn. msimpl.
  eapply yields_bind; [by apply (initial_delta_spec live_ lts remaining lv lt rem n)|]. intros delta ->.
  unfold vset. rewrite !decide_True by (rewrite ?(proj1 Hp); lia). msimpl. rewrite make_key_ok by done. msimpl.
  rewrite (view_nodes _ _ _ (di_val Hdag) (di_val_len Hdag)) by done. msimpl.
  destruct (any_missing_spec _ _ _ (di_dep Hdag) (di_dep_len Hdag) n (val n) Hn) as (b & -> & Hb).
  { intros d. by apply (view_range _ _ _ (di_val Hdag) (di_val_len Hdag)). }
  msimpl. rewrite (proj2 Hb) by (intros d; by apply (di_sub Hdag)). split; cbn.
  - by apply array_insert.
  - by rewrite length_insert.
  - intros m Hm Hpm. destruct (decide (n = m)) as [<-|Hne]; [by rewrite list_lookup_insert_eq by lia|].
    rewrite list_lookup_insert_ne by done. apply Hd; [done|]. by rewrite fn_lookup_insert_ne in Hpm.
  - intros k. rewrite elem_of_union, elem_of_singleton, Hr. split.
    + intros [->|(m & Hm & Hpm & ->)]; [exists n; by rewrite fn_lookup_insert|]. exists m. split_and!; [done| |done].
      rewrite fn_lookup_insert_ne; [done|]. by intros <-; congruence.
    + intros (m & Hm & Hpm & ->). destruct (decide (n = m)) as [<-|Hne]; [by left|right]. exists m.
      by rewrite fn_lookup_insert_ne in Hpm.
Qed.

Lemma remove_ready_spec delta p rs n : ready_inv delta p rs -> (n < count)%nat -> p n = true ->
  exists rs', remove_ready entry_depth exit_depth rs n = Ok rs' /\ ready_inv delta (<[n := false]> p) rs'.
Proof.
  intros [Hp Hlen Hd Hr] Hn Hpn. unfold remove_ready. rewrite (array_lookup _ _ _ n Hp Hn), Hpn. msimpl. rewrite (Hd n Hn Hpn). msimpl. rewrite make_key_ok by done. msimpl.
  unfold vset. rewrite decide_True by (rewrite (proj1 Hp); lia). msimpl. eexists. split; [done|]. split; cbn; [by apply array_insert|done| |].
  - intros m Hm Hpm. destruct (decide (n = m)) as [<-|Hne]; [by rewrite fn_lookup_insert in Hpm|].
    rewrite fn_lookup_insert_ne in Hpm by done. by apply Hd.
  - intros k. rewrite elem_of_difference, elem_of_singleton, Hr. split.
    + intros ((m & Hm & Hpm & ->) & Hk). exists m. split_and!; [done| |done]. rewrite fn_lookup_insert_ne; [done|]. by intros <-.
    + intros (m & Hm & Hpm & ->). destruct (decide (n = m)) as [<-|Hne]; [by rewrite fn_lookup_insert in Hpm|].
      rewrite fn_lookup_insert_ne in Hpm by done. split; [by exists m|]. intros Heq. by apply Hne, (key_inj delta delta).
Qed.
End ready.
