(* ===== verification/DagScheduleFacts.v ===== *)
(** * DagScheduleFacts: the state of the scheduler's loop

    What is live, waiting and ready as a function of the nodes scheduled so
    far, that every update of [DagSchedule] moves the state from one set of
    scheduled nodes to the next, and that every step picks a ready node of
    least delta. *)

From stdpp Require Import functions.
From S2P Require Import Prelude Order Specs DagRows DagSchedule DagOrder DagReady.

Section main.
Context {D V T S U : Type} `{GraphRows D, GraphRows V, NodeRows T, GraphRows S, GraphRows U}.
Context (count : nat) (token_weights : list Z) (dependencies : D) (value_dependencies : V) (tokens_by_node : T).
Context (token_users : list (list nat)) (successors : S) (value_users : U) (g : dag_rows).
Context (Hdag : dag_input count token_weights dependencies value_dependencies tokens_by_node token_users successors value_users g).
Abbreviation tokens_count := (length token_weights).
Abbreviation total_weight := (zsum id token_weights).
Context (small : Prop) (Hsmall : small -> Z.of_nat count + 2 * total_weight <= i64_max).
Abbreviation dep := (dep g).
Abbreviation val := (val g).
Abbreviation tok := (tok g).
Abbreviation succ := (succ g).
Abbreviation vuse := (vuse g).
Abbreviation tu := (tu g).
Context (Hirr : forall n, (n < count)%nat -> n ∉ dep n).
Context (entry_depth exit_depth : list Z) (ed xd : nat -> Z).
Context (Hed : array count ed entry_depth) (Hxd : array count xd exit_depth).
Implicit Types (lv lt p : nat -> bool) (rem : nat -> nat) (rs : ready_state) (n c d t : nat) (finished pre : list nat).

Abbreviation overflow := (DagOrder.overflow small).
Abbreviation deltas_of := (delta_of token_weights g).
Abbreviation inv := (ready_inv count ed xd).
Abbreviation adjust_all := (adjust entry_depth exit_depth).

(** ** What is live when [finished] nodes are scheduled, last first *)

Definition value_live finished d : bool := bool_decide ((d ∉ finished) /\ Exists (fun u => d ∈ val u) finished).
Definition waiting finished t : nat := undone finished (tu t).
Definition token_live finished t : bool :=
  bool_decide (Exists (fun u => t ∈ tok u) finished /\ waiting finished t <> 0%nat).
Definition is_ready finished n : bool := bool_decide ((n ∉ finished) /\ undone finished (succ n) = 0%nat).
Definition delta_at finished n : Z := deltas_of (value_live finished) (token_live finished) (waiting finished) n.

Lemma dep_range n d : (n < count)%nat -> d ∈ dep n -> (d < count)%nat.
Proof. apply (view_range _ _ _ (di_dep Hdag) (di_dep_len Hdag)). Qed.
Lemma dep_NoDup n : (n < count)%nat -> NoDup (dep n).
Proof. apply (view_NoDup _ _ _ (di_dep Hdag) (di_dep_len Hdag)). Qed.
Lemma succ_NoDup n : (n < count)%nat -> NoDup (succ n).
Proof. apply (view_NoDup _ _ _ (di_succ Hdag) (di_succ_len Hdag)). Qed.
Lemma succ_in_range n d : (n < count)%nat -> d ∈ succ n -> (d < count)%nat.
Proof. apply (view_range _ _ _ (di_succ Hdag) (di_succ_len Hdag)). Qed.
Lemma vuse_NoDup n : (n < count)%nat -> NoDup (vuse n).
Proof. apply (view_NoDup _ _ _ (di_vuse Hdag) (di_vuse_len Hdag)). Qed.
Lemma vuse_range n d : (n < count)%nat -> d ∈ vuse n -> (d < count)%nat.
Proof. apply (view_range _ _ _ (di_vuse Hdag) (di_vuse_len Hdag)). Qed.
Lemma val_irr n : (n < count)%nat -> n ∉ val n.
Proof. intros Hn Hin. apply (Hirr n Hn). by apply (di_sub Hdag). Qed.

Lemma bound lv lt rem n : (n < count)%nat -> small -> i64_min <= deltas_of lv lt rem n <= i64_max.
Proof.
  intros Hn Hs. pose proof (delta_bound _ _ _ _ _ _ _ _ _ Hdag lv lt rem n Hn).
  pose proof (total_small _ _ _ _ _ _ _ _ _ Hdag small Hsmall Hs). unfold i64_min, i64_max in *. lia.
Qed.

(** ** Values *)

(** The delta of a node after [v] changed between live and dead. *)
Lemma delta_value lv lt rem v b n : (n < count)%nat -> (v < count)%nat -> lv v = negb b ->
  deltas_of (<[v := b]> lv) lt rem n =
    deltas_of lv lt rem n + if decide (n ∈ vuse v ++ [v]) then (if b then -1 else 1) else 0.
Proof.
  intros Hn Hv Hlv. unfold delta_of.
  rewrite (zsum_update (fun d => Z.b2z (negb (lv d))) (fun d => Z.b2z (negb ((<[v := b]> lv : nat -> bool) d))) (val n) v)
    by (first [by eapply val_NoDup|intros a _ Ha; by rewrite fn_lookup_insert_ne]).
  rewrite fn_lookup_insert, Hlv.
  assert (Hiff : n ∈ vuse v ++ [v] <-> v ∈ val n \/ n = v) by (rewrite elem_of_app, list_elem_of_singleton, (di_vrev Hdag) by done; done).
  rewrite (decide_ext _ _ _ _ Hiff). clear Hiff. destruct (decide (n = v)) as [->|Hne].
  - rewrite fn_lookup_insert, Hlv. rewrite decide_False by (by apply val_irr). rewrite decide_True by (by right). destruct b; cbn; lia.
  - rewrite fn_lookup_insert_ne by done. destruct (decide (v ∈ val n)) as [Hin|Hnin].
    + rewrite decide_True by (by left). destruct b; cbn; lia.
    + rewrite decide_False by naive_solver. lia.
Qed.

Lemma update_for_value_spec lv lt rem v b p rs : (v < count)%nat -> lv v = negb b ->
  inv (deltas_of lv lt rem) p rs ->
  yields overflow (inv (deltas_of (<[v := b]> lv) lt rem) p)
    (update_for_value value_users entry_depth exit_depth v (if b then -1 else 1) rs).
Proof.
  intros Hv Hlv Hi. unfold update_for_value. rewrite (view_nodes _ _ _ (di_vuse Hdag) (di_vuse_len Hdag)) by done. msimpl.
  eapply adjust_fold; [exact Hdag|exact Hsmall|exact Hed|exact Hxd|exact Hi| | | |].
  - apply NoDup_app. split_and!; [by apply vuse_NoDup| |apply NoDup_singleton].
    intros c Hc Hcv%list_elem_of_singleton. subst c. apply (di_vrev Hdag) in Hc; [|done|done]. by apply (val_irr v).
  - intros c [Hc|Hc%list_elem_of_singleton]%elem_of_app; [by eapply vuse_range|by subst c].
  - intros c Hc _. by apply delta_value.
  - intros c Hc. by apply bound.
Qed.

Lemma kill_value_spec lv lt rem n p live_ rs : array count lv live_ -> (n < count)%nat ->
  inv (deltas_of lv lt rem) p rs ->
  yields overflow (fun st => array count (<[n := false]> lv) st.1 /\ inv (deltas_of (<[n := false]> lv) lt rem) p st.2)
    (kill_value value_users entry_depth exit_depth n (live_, rs)).
Proof.
  intros Hlv Hn Hi. unfold kill_value. cbn [fst snd]. rewrite (array_lookup _ _ _ n Hlv Hn). msimpl.
  destruct (lv n) eqn:Hln.
  - pose proof (update_for_value_spec lv lt rem n false p rs Hn Hln Hi) as Hu.
    destruct (update_for_value _ _ _ _ _ _) as [rs'|e|]; msimpl; [|done|done]. split; [by apply array_insert|done].
  - cbn. assert (Hsame : forall d, (<[n := false]> lv : nat -> bool) d = lv d).
    { intros d. destruct (decide (n = d)) as [<-|Hne]; [by rewrite fn_lookup_insert|by rewrite fn_lookup_insert_ne]. }
    split; [by eapply array_ext; [|exact Hlv]|]. eapply ready_inv_ext; [|exact Hi]. intros c Hc _.
    eapply delta_ext; [exact Hdag|done| |done]. intros d _. done.
Qed.

(** The live values after some of the operands [pre] of a node were used. *)
Definition used lv pre d : bool := lv d || bool_decide (d ∈ pre).

Lemma use_definitions_spec lv lt rem l p live_ rs : array count lv live_ -> (forall d, d ∈ l -> (d < count)%nat) ->
  inv (deltas_of lv lt rem) p rs ->
  yields overflow (fun st => array count (used lv l) st.1 /\ inv (deltas_of (used lv l) lt rem) p st.2)
    (foldM (use_definition value_users entry_depth exit_depth) (live_, rs) l).
Proof.
  intros Hlv Hl Hi. apply (yields_foldM _ (fun pre st => array count (used lv pre) st.1 /\ inv (deltas_of (used lv pre) lt rem) p st.2)).
  { assert (Hnil : forall d, lv d = used lv [] d).
    { intros d. unfold used. rewrite bool_decide_eq_false_2, orb_false_r by apply not_elem_of_nil. done. }
    cbn. split; [by eapply array_ext; [|exact Hlv]|]. eapply ready_inv_ext; [|exact Hi]. intros c Hc _.
    eapply delta_ext; [exact Hdag|done| |done]. intros d _. apply Hnil. }
  intros pre d post [live' rs'] Heq [Hlive Hrs]. cbn [fst snd] in *.
  assert (Hd : (d < count)%nat) by (apply Hl; rewrite Heq; set_solver).
  assert (Hstep : forall x, used lv (pre ++ [d]) x = (<[d := true]> (used lv pre) : nat -> bool) x).
  { intros x. unfold used. destruct (decide (d = x)) as [<-|Hne].
    - rewrite fn_lookup_insert, bool_decide_eq_true_2, orb_true_r; [done|set_solver].
    - rewrite fn_lookup_insert_ne by done. f_equal. apply bool_decide_ext. set_solver. }
  unfold use_definition. cbn [fst snd]. rewrite (array_lookup _ _ _ d Hlive Hd). msimpl. destruct (used lv pre d) eqn:Hused.
  - cbn. assert (Hsame : forall x, used lv pre x = used lv (pre ++ [d]) x).
    { intros x. rewrite Hstep. destruct (decide (d = x)) as [<-|Hne]; [by rewrite fn_lookup_insert|by rewrite fn_lookup_insert_ne]. }
    split; [by eapply array_ext; [|exact Hlive]|]. eapply ready_inv_ext; [|exact Hrs]. intros c Hc _.
    eapply delta_ext; [exact Hdag|done| |done]. intros x _. apply Hsame.
  - pose proof (update_for_value_spec (used lv pre) lt rem d true p rs' Hd Hused Hrs) as Hu.
    destruct (update_for_value _ _ _ _ _ _) as [rs''|e|]; msimpl; [|done|done]. cbn [yields fst snd] in *. split.
    + eapply array_ext; [|by apply array_insert]. intros x _. by rewrite Hstep.
    + eapply ready_inv_ext; [|exact Hu]. intros c Hc _. eapply delta_ext; [exact Hdag|done| |done]. intros x _. by rewrite Hstep.
Qed.

(** ** Tokens *)

(** The contribution of a token whose count drops from [S k], for a node that
    is not its last user. *)
Definition token_after (l : bool) (before : nat) : bool :=
  if negb l && bool_decide (1 < before)%nat then true else if l && bool_decide (before = 1%nat) then false else l.

Definition token_shift (w : Z) (l : bool) (before : nat) : Z :=
  if negb l && bool_decide (1 < before)%nat then (if decide (before = 2%nat) then - 2 * w else - w)
  else if l && bool_decide (before = 2%nat) then - w else 0.

Lemma delta_token lv lt rem t n : (n < count)%nat -> (t < tokens_count)%nat -> (1 <= rem t)%nat ->
  (rem t = 1%nat -> n ∉ tu t) ->
  deltas_of lv (<[t := token_after (lt t) (rem t)]> lt) (<[t := pred (rem t)]> rem) n =
    deltas_of lv lt rem n + if decide (n ∈ tu t) then token_shift (weight token_weights t) (lt t) (rem t) else 0.
Proof.
  intros Hn Ht Hpos Hlast. unfold delta_of.
  rewrite (zsum_update (contribution token_weights lt rem) _ (tok n) t).
  2: by apply (di_tok_nodup Hdag).
  2:{ intros x _ Hx. unfold contribution. by rewrite !fn_lookup_insert_ne by done. }
  rewrite (decide_ext (t ∈ tok n) (n ∈ tu t)) by (rewrite (di_tu_rev Hdag) by done; tauto).
  destruct (decide (n ∈ tu t)) as [Hin|]; [|lia].
  assert (rem t <> 1%nat) by (intros ?; by apply Hlast).
  unfold contribution, token_shift, token_after. rewrite !fn_lookup_insert. pose proof (weight_nonneg _ _ _ _ _ _ _ _ _ Hdag t).
  destruct (lt t); cbn [negb andb]; repeat case_bool_decide; cbn [negb andb]; repeat case_decide; repeat case_bool_decide; try lia.
Qed.

Lemma tu_range t n : (t < tokens_count)%nat -> n ∈ tu t -> (n < count)%nat.
Proof. intros Ht Hn. by apply (di_tu_rev Hdag) in Hn as [? _]. Qed.

Lemma update_for_token_spec lv lt rem t a p rs : (t < tokens_count)%nat -> (1 <= rem t)%nat ->
  (rem t = 1%nat -> forall c, p c = true -> c ∉ tu t) ->
  a = token_shift (weight token_weights t) (lt t) (rem t) -> inv (deltas_of lv lt rem) p rs ->
  yields overflow (inv (deltas_of lv (<[t := token_after (lt t) (rem t)]> lt) (<[t := pred (rem t)]> rem)) p)
    (update_for_token token_users entry_depth exit_depth t a rs).
Proof.
  intros Ht Hpos Hlast -> Hi. unfold update_for_token. rewrite (array_lookup _ _ _ t (di_tu Hdag) Ht). msimpl.
  eapply adjust_fold; [exact Hdag|exact Hsmall|exact Hed|exact Hxd|exact Hi| | | |].
  - by apply (di_tu_nodup Hdag).
  - intros c. by apply tu_range.
  - intros c Hc Hp. apply delta_token; [done..|]. intros Hone. by apply Hlast.
  - intros c Hc. by apply bound.
Qed.

Lemma use_token_spec lv lt rem t p remaining tokens rs :
  array tokens_count rem remaining -> array tokens_count lt tokens -> (t < tokens_count)%nat -> (1 <= rem t)%nat ->
  (rem t = 1%nat -> forall c, p c = true -> c ∉ tu t) -> inv (deltas_of lv lt rem) p rs ->
  yields overflow (fun st =>
      array tokens_count (<[t := pred (rem t)]> rem) st.1.1 /\
      array tokens_count (<[t := token_after (lt t) (rem t)]> lt) st.1.2 /\
      inv (deltas_of lv (<[t := token_after (lt t) (rem t)]> lt) (<[t := pred (rem t)]> rem)) p st.2)
    (use_token token_weights token_users entry_depth exit_depth (remaining, tokens, rs) t).
Proof.
  intros Hrem Hlt Ht Hpos Hlast Hi. unfold use_token. rewrite (array_lookup _ _ _ t Hrem Ht). msimpl.
  eapply (yields_bind _ (fun r => r = pred (rem t))); [by apply usize_pred_spec|]. intros after ->.
  rewrite (weight_lookup _ t Ht). msimpl.
  pose proof (weight_le _ _ _ _ _ _ _ _ _ Hdag t Ht) as Hw.
  eapply (yields_bind _ (fun r => r = weight token_weights t)).
  { apply isize_from_spec; [|done]. intros Hs. by eapply weight_small. }
  intros w ->. rewrite (array_lookup _ _ _ t Hlt Ht). msimpl.
  assert (Harr : array tokens_count (<[t := pred (rem t)]> rem) (<[t := pred (rem t)]> remaining)) by (by apply array_insert).
  assert (Hupd : forall a, a = token_shift (weight token_weights t) (lt t) (rem t) ->
    yields overflow (inv (deltas_of lv (<[t := token_after (lt t) (rem t)]> lt) (<[t := pred (rem t)]> rem)) p)
      (update_for_token token_users entry_depth exit_depth t a rs)) by (intros a Ha; by apply update_for_token_spec).
  assert (Hkeep : token_after (lt t) (rem t) = lt t ->
    array tokens_count (<[t := token_after (lt t) (rem t)]> lt) tokens).
  { intros ->. eapply array_ext; [|exact Hlt]. intros i _.
    destruct (decide (t = i)) as [<-|Hne]; [by rewrite fn_lookup_insert|by rewrite fn_lookup_insert_ne]. }
  destruct (negb (lt t) && bool_decide (1 < rem t)%nat) eqn:Hnew.
  { eapply (yields_bind _ (fun a => a = token_shift (weight token_weights t) (lt t) (rem t))).
    - unfold token_shift. rewrite Hnew. destruct (decide (rem t = 2%nat)); [|done]. apply isize_mul_spec; [|lia]. intros Hs.
      pose proof (total_small _ _ _ _ _ _ _ _ _ Hdag small Hsmall Hs). unfold i64_min, i64_max in *. lia.
    - intros a Ha. eapply yields_bind; [by apply Hupd|]. intros rs' Hrs. cbn. split_and!; [done| |done].
      unfold token_after at 1. rewrite Hnew. by apply array_insert. }
  destruct (lt t && bool_decide (rem t = 2%nat)) eqn:Htwo.
  { eapply yields_bind; [apply Hupd; unfold token_shift; by rewrite Hnew, Htwo|]. intros rs' Hrs. cbn. split_and!; [done| |done].
    apply Hkeep. unfold token_after. rewrite Hnew. apply andb_true_iff in Htwo as [-> Htwo]. apply bool_decide_eq_true in Htwo as ->. done. }
  assert (Hzero : token_shift (weight token_weights t) (lt t) (rem t) = 0) by (unfold token_shift; by rewrite Hnew, Htwo).
  assert (Hrs : inv (deltas_of lv (<[t := token_after (lt t) (rem t)]> lt) (<[t := pred (rem t)]> rem)) p rs).
  { eapply ready_inv_ext; [|exact Hi]. intros c Hc Hp. rewrite delta_token; [|done..|intros; by apply Hlast].
    rewrite Hzero. by destruct (decide (c ∈ tu t)); rewrite Z.add_0_r. }
  destruct (lt t && bool_decide (rem t = 1%nat)) eqn:Hone; cbn; (split_and!; [done| |done]).
  - unfold token_after at 1. rewrite Hnew, Hone. by apply array_insert.
  - apply Hkeep. unfold token_after. by rewrite Hnew, Hone.
Qed.

(** ** One turn of the main loop *)

(** Nodes are scheduled after all their users. *)
Record reverse_order_ok finished : Prop := {
  ro_nodup : NoDup finished;
  ro_range n : n ∈ finished -> (n < count)%nat;
  ro_respects : respects succ finished }.

Section turn.
Context (finished : list nat) (selected : nat).
Context (Hro : reverse_order_ok finished) (Hsel : (selected < count)%nat) (Hnew : selected ∉ finished).
Abbreviation after := (finished ++ [selected]).

(** The users of a scheduled node are scheduled. *)
Lemma dep_unfinished d : d ∈ dep selected -> (d < count)%nat /\ d ∉ after.
Proof.
  clear Hsmall Hed Hxd. clear small entry_depth exit_depth ed xd.
  intros Hd. pose proof (dep_range selected d Hsel Hd) as Hlt. split; [done|].
  intros [Hin|Hin%list_elem_of_singleton]%elem_of_app; [|subst d; by apply (Hirr selected)].
  apply Hnew, (respects_closed succ finished (ro_respects _ Hro) d); [done|]. by apply (di_rev Hdag).
Qed.

Lemma live_after d : (d < count)%nat -> used (<[selected := false]> (value_live finished)) (val selected) d = value_live after d.
Proof.
  clear Hsmall Hed Hxd. clear small entry_depth exit_depth ed xd.
  intros Hd. unfold used, value_live. destruct (decide (selected = d)) as [<-|Hne].
  - rewrite fn_lookup_insert. rewrite !bool_decide_eq_false_2; [done|set_solver|by apply val_irr].
  - rewrite fn_lookup_insert_ne by done. apply eq_true_iff_eq. rewrite orb_true_iff, !bool_decide_eq_true, Exists_app, Exists_cons, Exists_nil. split.
    + intros [[Hnf He]|Hv]; [split; [set_solver|by left]|]. split; [|tauto].
      by apply dep_unfinished, (di_sub Hdag).
    + intros [Hnf [He|[Hv|[]]]]; [left|by right]. split; [set_solver|done].
Qed.

Lemma waiting_after t : (t < tokens_count)%nat ->
  waiting finished t = (waiting after t + if decide (selected ∈ tu t) then 1 else 0)%nat.
Proof. intros Ht. apply undone_snoc; [by apply (di_tu_nodup Hdag)|done]. Qed.

Lemma token_after_live t : (t < tokens_count)%nat -> selected ∈ tu t ->
  token_after (token_live finished t) (waiting finished t) = token_live after t.
Proof.
  intros Ht Hs. pose proof (waiting_after t Ht) as Hw. rewrite decide_True in Hw by done.
  assert (Htok : t ∈ tok selected) by (by apply (di_tu_rev Hdag) in Hs as [_ ?]).
  assert (Ha : token_live after t = bool_decide (waiting after t <> 0%nat)).
  { unfold token_live. apply bool_decide_ext. rewrite Exists_app, Exists_cons. tauto. }
  assert (Hb : token_live finished t = bool_decide (Exists (fun u => t ∈ tok u) finished)).
  { unfold token_live. apply bool_decide_ext. rewrite Hw. split; [tauto|]. intros. split; [done|lia]. }
  rewrite Ha, Hb. unfold token_after. rewrite Hw. repeat case_bool_decide; cbn; try done; lia.
Qed.

(** The token state when the tokens [pre] of the selected node are done. *)
Definition waiting_part pre t : nat := if decide (t ∈ pre) then waiting after t else waiting finished t.
Definition token_part pre t : bool := if decide (t ∈ pre) then token_live after t else token_live finished t.

Lemma use_tokens_spec lv p remaining tokens rs :
  array tokens_count (waiting finished) remaining -> array tokens_count (token_live finished) tokens ->
  (forall c, p c = true -> c ∉ after) -> inv (deltas_of lv (token_live finished) (waiting finished)) p rs ->
  yields overflow (fun st => array tokens_count (waiting after) st.1.1 /\ array tokens_count (token_live after) st.1.2 /\
      inv (deltas_of lv (token_live after) (waiting after)) p st.2)
    (foldM (use_token token_weights token_users entry_depth exit_depth) (remaining, tokens, rs) (tok selected)).
Proof.
  intros Hrem Hlt Hp Hi.
  assert (Hend : forall t, (t < tokens_count)%nat ->
    waiting_part (tok selected) t = waiting after t /\ token_part (tok selected) t = token_live after t).
  { intros t Ht. unfold waiting_part, token_part. case_decide as Hin; [done|].
    assert (Hns : selected ∉ tu t) by (intros Hs; by apply (di_tu_rev Hdag) in Hs as [_ ?]).
    pose proof (waiting_after t Ht) as Hw. rewrite decide_False, Nat.add_0_r in Hw by done. split; [done|].
    unfold token_live. apply bool_decide_ext. rewrite Hw, Exists_app, Exists_cons, Exists_nil. tauto. }
  eapply yields_impl; [|apply (yields_foldM _ (fun pre st => array tokens_count (waiting_part pre) st.1.1 /\
    array tokens_count (token_part pre) st.1.2 /\ inv (deltas_of lv (token_part pre) (waiting_part pre)) p st.2))].
  - intros st (Ha & Hb & Hc). split_and!.
    + eapply array_ext; [|exact Ha]. intros t Ht. by apply Hend.
    + eapply array_ext; [|exact Hb]. intros t Ht. by apply Hend.
    + eapply ready_inv_ext; [|exact Hc]. intros n Hn _. eapply delta_ext; [exact Hdag|done|done|].
      intros t Ht. assert (Htl : (t < tokens_count)%nat) by (by eapply (di_tok_range Hdag)). destruct (Hend t Htl) as [Hw Hl].
      unfold contribution. by rewrite Hw, Hl.
  - cbn. assert (Hnil : forall t, waiting_part [] t = waiting finished t /\ token_part [] t = token_live finished t).
    { intros t. unfold waiting_part, token_part. by rewrite !decide_False by apply not_elem_of_nil. }
    split_and!.
    + eapply array_ext; [|exact Hrem]. intros t _. symmetry. apply Hnil.
    + eapply array_ext; [|exact Hlt]. intros t _. symmetry. apply Hnil.
    + eapply ready_inv_ext; [|exact Hi]. intros n Hn _. eapply delta_ext; [exact Hdag|done|done|].
      intros t _. unfold contribution. destruct (Hnil t) as [Hw Hl]. by rewrite Hw, Hl.
  - intros pre t post [[remaining' tokens'] rs'] Heq (Ha & Hb & Hc). cbn [fst snd] in *.
    assert (Hin : t ∈ tok selected) by (rewrite Heq; set_solver).
    assert (Ht : (t < tokens_count)%nat) by (by eapply (di_tok_range Hdag)).
    assert (Hpre : t ∉ pre).
    { pose proof (di_tok_nodup Hdag selected Hsel) as Hnd. rewrite Heq in Hnd. apply NoDup_app in Hnd as (_ & Hdisj & _).
      intros Hp'. specialize (Hdisj t Hp'). set_solver. }
    assert (Hs : selected ∈ tu t) by (by apply (di_tu_rev Hdag)).
    pose proof (waiting_after t Ht) as Hw. rewrite decide_True in Hw by done.
    assert (Hwt : waiting_part pre t = waiting finished t) by (unfold waiting_part; by rewrite decide_False).
    assert (Hlt' : token_part pre t = token_live finished t) by (unfold token_part; by rewrite decide_False).
    assert (Hnext : forall x, (<[t := pred (waiting_part pre t)]> (waiting_part pre) : nat -> nat) x = waiting_part (pre ++ [t]) x /\
      (<[t := token_after (token_part pre t) (waiting_part pre t)]> (token_part pre) : nat -> bool) x = token_part (pre ++ [t]) x).
    { intros x. destruct (decide (t = x)) as [<-|Hne].
      - rewrite !fn_lookup_insert, Hwt, Hlt'. rewrite token_after_live by done. unfold waiting_part, token_part.
        rewrite !decide_True by set_solver. split; [lia|done].
      - rewrite !fn_lookup_insert_ne by done. unfold waiting_part, token_part.
        by rewrite (decide_ext (x ∈ pre) (x ∈ pre ++ [t])), (decide_ext (x ∈ pre) (x ∈ pre ++ [t])) by set_solver. }
    eapply yields_impl; [|apply (use_token_spec lv (token_part pre) (waiting_part pre) t p remaining' tokens' rs' Ha Hb Ht)].
    + intros [[remaining2 tokens2] rs2] (Ha2 & Hb2 & Hc2). cbn [fst snd] in *. split_and!.
      * eapply array_ext; [|exact Ha2]. intros x _. apply Hnext.
      * eapply array_ext; [|exact Hb2]. intros x _. apply Hnext.
      * eapply ready_inv_ext; [|exact Hc2]. intros n Hn _. eapply delta_ext; [exact Hdag|done|done|].
        intros x _. unfold contribution. destruct (Hnext x) as [Hx1 Hx2]. by rewrite Hx1, Hx2.
    + rewrite Hwt, Hw. lia.
    + rewrite Hwt, Hw. intros Hone c Hpc Hc'. specialize (Hp c Hpc). pose proof (undone_pos after (tu t) c Hc' Hp) as Hpos.
      unfold waiting in Hone. lia.
    + done.
Qed.

(** The users that wait when the dependencies [pre] of the selected node have
    been released. *)
Definition users_part pre n : nat := if decide (n ∈ pre) then undone after (succ n) else undone finished (succ n).
Definition ready_part pre n : bool := bool_decide ((n ∉ after) /\ users_part pre n = 0%nat).

Lemma users_after n : (n < count)%nat ->
  undone finished (succ n) = (undone after (succ n) + if decide (selected ∈ succ n) then 1 else 0)%nat.
Proof. intros Hn. apply undone_snoc; [by apply succ_NoDup|done]. Qed.

Lemma release_dependency_spec lv lt rem live_ tokens remaining unsch rs pre d :
  array count lv live_ -> array tokens_count lt tokens -> array tokens_count rem remaining ->
  d ∈ dep selected -> d ∉ pre -> array count (users_part pre) unsch -> inv (deltas_of lv lt rem) (ready_part pre) rs ->
  yields overflow (fun st => array count (users_part (pre ++ [d])) st.1 /\ inv (deltas_of lv lt rem) (ready_part (pre ++ [d])) st.2)
    (release_dependency dependencies value_dependencies tokens_by_node token_weights entry_depth exit_depth live_ tokens remaining (unsch, rs) d).
Proof.
  intros Hlv Hlt Hrem Hd Hpre Hun Hi. destruct (dep_unfinished d Hd) as [Hdc Hda]. unfold release_dependency. cbn [fst snd].
  rewrite (array_lookup _ _ _ d Hun Hdc). msimpl.
  assert (Hs : selected ∈ succ d) by (by apply (di_rev Hdag)).
  pose proof (users_after d Hdc) as Hu. rewrite decide_True in Hu by done.
  assert (Hpart : users_part pre d = Datatypes.S (undone after (succ d))) by (unfold users_part; rewrite decide_False by done; lia).
  rewrite Hpart. cbn [usize_pred]. msimpl.
  assert (Hnext : users_part (pre ++ [d]) d = undone after (succ d)) by (unfold users_part; by rewrite decide_True by set_solver).
  assert (Hsame : forall n, n <> d -> users_part (pre ++ [d]) n = users_part pre n).
  { intros n Hne. unfold users_part. by rewrite (decide_ext (n ∈ pre ++ [d]) (n ∈ pre)) by set_solver. }
  assert (Harr : array count (users_part (pre ++ [d])) (<[d := undone after (succ d)]> unsch)).
  { apply (array_update _ (users_part pre)); [done|done|]. intros n _. apply Hsame. }
  assert (Hpd : ready_part pre d = false).
  { apply bool_decide_eq_false. rewrite Hpart. lia. }
  case_decide as Hz.
  - eapply yields_bind; [by eapply insert_ready_spec|]. intros rs' Hrs. cbn. split; [done|].
    eapply ready_inv_nodes; [|exact Hrs]. intros n Hn. destruct (decide (d = n)) as [<-|Hne].
    + rewrite fn_lookup_insert. symmetry. apply bool_decide_eq_true. by rewrite Hnext.
    + rewrite fn_lookup_insert_ne by done. unfold ready_part. by rewrite Hsame by done.
  - cbn. split; [done|]. eapply ready_inv_nodes; [|exact Hi]. intros n Hn. unfold ready_part. apply bool_decide_ext.
    destruct (decide (n = d)) as [->|Hne]; [|by rewrite Hsame]. rewrite Hpart, Hnext. naive_solver lia.
Qed.

Lemma release_dependencies_spec lv lt rem live_ tokens remaining unsch rs :
  array count lv live_ -> array tokens_count lt tokens -> array tokens_count rem remaining ->
  array count (fun n => undone finished (succ n)) unsch ->
  inv (deltas_of lv lt rem) (fun n => bool_decide ((n ∉ after) /\ undone finished (succ n) = 0%nat)) rs ->
  yields overflow (fun st => array count (fun n => undone after (succ n)) st.1 /\ inv (deltas_of lv lt rem) (is_ready after) st.2)
    (foldM (release_dependency dependencies value_dependencies tokens_by_node token_weights entry_depth exit_depth live_ tokens remaining)
      (unsch, rs) (dep selected)).
Proof.
  intros Hlv Hlt Hrem Hun Hi.
  assert (Hnil : forall n, users_part [] n = undone finished (succ n)) by (intros n; unfold users_part; by rewrite decide_False by apply not_elem_of_nil).
  assert (Hend : forall n, (n < count)%nat -> users_part (dep selected) n = undone after (succ n)).
  { intros n Hn. unfold users_part. case_decide as Hin; [done|]. rewrite users_after, decide_False by (rewrite ?(di_rev Hdag) by done; done). lia. }
  eapply yields_impl; [|apply (yields_foldM _ (fun pre st => array count (users_part pre) st.1 /\ inv (deltas_of lv lt rem) (ready_part pre) st.2))].
  - intros st [Ha Hb]. split; [by eapply array_ext; [|exact Ha]|]. eapply ready_inv_nodes; [|exact Hb].
    intros n Hn. unfold ready_part, is_ready. by rewrite Hend.
  - cbn. split; [by eapply array_ext; [|exact Hun]|]. eapply ready_inv_nodes; [|exact Hi]. intros n _. unfold ready_part. by rewrite Hnil.
  - intros pre d post [unsch' rs'] Heq [Ha Hb]. apply (release_dependency_spec lv lt rem); try done.
    + rewrite Heq. set_solver.
    + pose proof (dep_NoDup selected Hsel) as Hnd. rewrite Heq in Hnd. apply NoDup_app in Hnd as (_ & Hdisj & _).
      intros Hp. specialize (Hdisj d Hp). set_solver.
Qed.
End turn.

(** Every scheduled node had the least key of the nodes ready at its turn. *)
Definition greedy finished : Prop := forall pre n post, finished = pre ++ n :: post ->
  forall m, (m < count)%nat -> is_ready pre m = true -> key_of ed xd (delta_at pre) n ⪯ key_of ed xd (delta_at pre) m.

Record sched_inv finished st : Prop := {
  si_order : reverse_order st = finished;
  si_ok : reverse_order_ok finished;
  si_users : array count (fun n => undone finished (succ n)) (unscheduled_users st);
  si_live : array count (value_live finished) (live st);
  si_waiting : array tokens_count (waiting finished) (remaining_token_users st);
  si_tokens : array tokens_count (token_live finished) (live_tokens st);
  si_ready : inv (delta_at finished) (is_ready finished) (ready_set st);
  si_greedy : greedy finished }.

Lemma greedy_snoc finished n : greedy finished ->
  (forall m, (m < count)%nat -> is_ready finished m = true -> key_of ed xd (delta_at finished) n ⪯ key_of ed xd (delta_at finished) m) ->
  greedy (finished ++ [n]).
Proof.
  intros Hg Hn pre s post Heq. destruct post as [|y post _] using rev_ind.
  - apply app_inj_tail in Heq as [-> ->]. exact Hn.
  - rewrite app_comm_cons, app_assoc in Heq. apply app_inj_tail in Heq as [-> _]. by eapply Hg.
Qed.

(** The head of the ready set. *)
Lemma first_ready finished rs key : inv (delta_at finished) (is_ready finished) rs -> first (ready rs) = Some key ->
  (key_node key < count)%nat /\ is_ready finished (key_node key) = true /\
  forall m, (m < count)%nat -> is_ready finished m = true ->
    key_of ed xd (delta_at finished) (key_node key) ⪯ key_of ed xd (delta_at finished) m.
Proof.
  intros Hi [Hin Hmin]%first_Some. apply (ri_ready _ _ _ _ _ _ Hi) in Hin as (n & Hn & Hr & ->). split_and!; [done..|].
  intros m Hm Hrm. apply Hmin, (ri_ready _ _ _ _ _ _ Hi). by exists m.
Qed.

Lemma extend_order finished n : reverse_order_ok finished -> (n < count)%nat -> is_ready finished n = true ->
  (n ∉ finished) /\ reverse_order_ok (finished ++ [n]).
Proof.
  intros [Hnd Hlt Hr] Hn [Hnew Hz]%bool_decide_eq_true. rewrite undone_zero in Hz. split; [done|]. split.
  - apply NoDup_app. split_and!; [done|set_solver|apply NoDup_singleton].
  - intros m [?|Hm%list_elem_of_singleton]%elem_of_app; [auto|by subst m].
  - by apply respects_snoc.
Qed.

Lemma schedule_step_spec finished st key : sched_inv finished st -> first (ready (ready_set st)) = Some key ->
  yields overflow (sched_inv (finished ++ [key_node key]))
    (schedule_step dependencies value_dependencies tokens_by_node token_weights token_users value_users
      entry_depth exit_depth (key_node key) st).
Proof.
  intros [Ho Hok Hus Hli Hwa Hto Hre Hgr] Hfirst.
  destruct (first_ready finished (ready_set st) key Hre Hfirst) as (Hn & Hready & Hmin). set (n := key_node key) in *.
  destruct (extend_order finished n Hok Hn Hready) as [Hnew Hok'].
  destruct (remove_ready_spec count entry_depth exit_depth ed xd Hed Hxd _ _ _ n Hre Hn Hready) as (rs1 & Hrm & Hrs1).
  unfold schedule_step. rewrite Hrm. msimpl.
  set (p := fun m => bool_decide ((m ∉ finished ++ [n]) /\ undone finished (succ m) = 0%nat)).
  assert (Hrs2 : inv (delta_at finished) p rs1).
  { eapply ready_inv_nodes; [|exact Hrs1]. intros m Hm. unfold p. destruct (decide (n = m)) as [<-|Hne].
    - rewrite fn_lookup_insert. symmetry. apply bool_decide_eq_false. set_solver.
    - rewrite fn_lookup_insert_ne by done. apply bool_decide_ext. set_solver. }
  eapply yields_bind; [apply (kill_value_spec (value_live finished) (token_live finished) (waiting finished) n p (live st) rs1 Hli Hn Hrs2)|].
  intros [live1 rs3] [Hlive1 Hrs3]. cbn [fst snd] in *.
  rewrite (view_nodes _ _ _ (di_val Hdag) (di_val_len Hdag) n Hn). msimpl.
  eapply yields_bind; [eapply (use_definitions_spec _ (token_live finished) (waiting finished) (val n) p live1 rs3 Hlive1); [by intros d; eapply val_range|exact Hrs3]|].
  intros [live2 rs4] [Hlive2 Hrs4]. cbn [fst snd] in *.
  assert (Hla : forall d, (d < count)%nat -> used (<[n := false]> (value_live finished)) (val n) d = value_live (finished ++ [n]) d)
    by (intros d; by apply live_after).
  apply (array_ext _ _ _ _ Hla) in Hlive2.
  assert (Hrs5 : inv (deltas_of (value_live (finished ++ [n])) (token_live finished) (waiting finished)) p rs4).
  { eapply ready_inv_ext; [|exact Hrs4]. intros c Hc _. eapply delta_ext; [exact Hdag|done|done|done]. }
  rewrite (di_tok Hdag n Hn). msimpl.
  eapply yields_bind; [eapply (use_tokens_spec finished n Hok Hn Hnew _ p _ _ rs4 Hwa Hto); [|exact Hrs5]|].
  { by intros c [? _]%bool_decide_eq_true. }
  intros [[remaining tokens] rs6] (Hrem & Htok & Hrs6). cbn [fst snd] in *.
  rewrite (view_nodes _ _ _ (di_dep Hdag) (di_dep_len Hdag) n Hn). msimpl.
  eapply yields_bind; [by eapply (release_dependencies_spec finished n Hok Hn Hnew _ _ _ live2 tokens remaining _ rs6 Hlive2 Htok Hrem Hus)|].
  intros [unsch rs7] [Hunsch Hrs7]. cbn. split; cbn; try done; [by rewrite Ho|]. by apply greedy_snoc.
Qed.

(** ** The whole loop *)

Lemma schedule_loop_spec fuel finished st : sched_inv finished st -> (count <= fuel + length finished)%nat ->
  yields overflow (fun st' => exists finished', sched_inv finished' st' /\ ready (ready_set st') = ∅)
    (schedule_loop dependencies value_dependencies tokens_by_node token_weights token_users value_users
      entry_depth exit_depth fuel st).
Proof.
  revert finished st. induction fuel as [|fuel IH]; intros finished st Hi Hf; cbn [schedule_loop];
    (destruct (first (ready (ready_set st))) as [key|] eqn:Hfirst; [|by exists finished; split; [|apply first_None]]).
  all: destruct (first_ready finished _ key (si_ready _ _ Hi) Hfirst) as (Hn & Hready & _).
  all: destruct (extend_order finished _ (si_ok _ _ Hi) Hn Hready) as [_ [Hnd Hlt _]].
  all: pose proof (NoDup_bounded_length _ _ Hnd Hlt) as Hlen; rewrite length_app in Hlen; cbn in Hlen. 1: lia.
  eapply yields_bind; [by apply schedule_step_spec|]. intros st' Hi'. apply (IH _ _ Hi'). rewrite length_app. cbn. lia.
Qed.

Lemma nothing_live : array count (value_live []) (replicate count false) /\
  array tokens_count (token_live []) (replicate tokens_count false) /\ array tokens_count (waiting []) (length <$> token_users).
Proof.
  split_and!.
  - eapply array_ext; [|apply array_replicate]. intros d _. symmetry. apply bool_decide_eq_false. rewrite Exists_nil. tauto.
  - eapply array_ext; [|apply array_replicate]. intros d _. symmetry. apply bool_decide_eq_false. rewrite Exists_nil. tauto.
  - eapply array_ext; [|apply (array_fmap _ length _ _ (di_tu Hdag))]. intros t _. unfold waiting. by rewrite undone_nil.
Qed.

Lemma insert_sinks_spec unsch : array count (fun n => length (succ n)) unsch ->
  yields overflow (inv (delta_at []) (is_ready []))
    (foldM (insert_sink dependencies value_dependencies tokens_by_node token_weights entry_depth exit_depth (replicate count false)
        (replicate tokens_count false) (length <$> token_users))
      (RS (replicate count 0) (replicate count false) ∅) (enumerate unsch)).
Proof.
  intros Hun. destruct nothing_live as (Hlv & Hlt & Hw).
  set (p := fun k n => bool_decide ((n < k)%nat /\ length (succ n) = 0%nat)).
  eapply (yields_impl _ (inv (delta_at []) (p (length unsch)))); [|apply (yields_enumerate _ (fun k => inv (delta_at []) (p k)))].
  - intros rs. apply ready_inv_nodes. intros n Hn. unfold p, is_ready. apply bool_decide_ext. rewrite undone_nil, (proj1 Hun).
    pose proof (not_elem_of_nil n). tauto.
  - split; cbn; [|apply length_replicate| |].
    + eapply array_ext; [|apply array_replicate]. intros n _. symmetry. apply bool_decide_eq_false. lia.
    + intros n _ Hp%bool_decide_eq_true. lia.
    + intros k. split; [set_solver|]. intros (n & _ & Hp%bool_decide_eq_true & _). lia.
  - intros k u rs Hk Hi. assert (Hlt' : (k < count)%nat) by (rewrite <- (proj1 Hun); eauto with index).
    rewrite (array_lookup _ _ _ k Hun Hlt') in Hk. injection Hk as <-. unfold insert_sink. cbn [fst snd]. case_decide as Hz.
    + eapply yields_impl; [|eapply (insert_ready_spec _ _ _ _ _ _ _ _ _ Hdag small Hsmall _ _ ed xd Hed Hxd _ _ _ _ _ _ _ rs _ Hlv Hlt Hw Hlt' Hi)].
      * intros rs'. apply ready_inv_nodes. intros m Hm. destruct (decide (k = m)) as [<-|Hne].
        -- rewrite fn_lookup_insert. symmetry. apply bool_decide_eq_true. lia.
        -- rewrite fn_lookup_insert_ne by done. apply bool_decide_ext. lia.
      * apply bool_decide_eq_false. lia.
    + cbn. eapply ready_inv_nodes; [|exact Hi]. intros m Hm. apply bool_decide_ext. destruct (decide (m = k)) as [->|]; lia.
Qed.

Lemma row_counts_spec {G} `{GraphRows G} (view : G) (row : nat -> list nat) : GraphRowsLaws view row -> graph_len view = count ->
  exists l, row_counts view = Ok l /\ array count (fun n => length (row n)) l.
Proof.
  intros Hlaws Hlen. unfold row_counts. rewrite Hlen.
  assert (Hgo : forall k start, (start + k <= count)%nat ->
    exists l, mapMr (row_count view) (seq start k) = Ok l /\
      length l = k /\ forall i, (i < k)%nat -> l !! i = Some (length (row (start + i)%nat))).
  { induction k as [|k IH]; intros start Hs; cbn [seq mapMr]; [exists []; split_and!; [done|done|lia]|].
    assert (row_count view start = Ok (length (row start))) as -> by (unfold row_count; by rewrite (view_nodes _ _ _ Hlaws Hlen) by lia).
    msimpl. destruct (IH (Datatypes.S start) ltac:(lia)) as (l & -> & Hl & Hi).
    exists (length (row start) :: l). split_and!; [done|by cbn; rewrite Hl|]. intros [|i] Hik; cbn; [by rewrite Nat.add_0_r|].
    rewrite Hi by lia. by rewrite Nat.add_succ_r. }
  destruct (Hgo count 0%nat ltac:(lia)) as (l & -> & Hl & Hi). exists l. split; [done|]. split; [done|]. exact Hi.
Qed.

(** With nothing ready, an unscheduled node has an unscheduled user. *)
Lemma stuck_schedule finished st n : sched_inv finished st -> ready (ready_set st) = ∅ -> (n < count)%nat -> n ∉ finished ->
  exists u, u ∈ succ n /\ u ∉ finished.
Proof.
  intros Hi Hempty Hn Hnew. destruct (decide (Exists (fun u => u ∉ finished) (succ n))) as [He|He]; [by apply Exists_exists in He|].
  exfalso. apply (not_elem_of_empty (C:=gset ready_key) (key_of ed xd (delta_at finished) n)). rewrite <- Hempty.
  apply (ri_ready _ _ _ _ _ _ (si_ready _ _ Hi)). exists n. split_and!; [done| |done]. apply bool_decide_eq_true. split; [done|].
  apply undone_zero. intros u Hu. apply dec_stable. intros Hnot. apply He, Exists_exists. by exists u.
Qed.
End main.
