(* ===== verification/DagPressure.v ===== *)
(** * DagPressure: deltas are differences of pressure

    The pressure of a partial schedule is the values and weighted tokens that
    are live below it. The deltas the scheduler minimises are its differences,
    so [schedule_with_users] returns a greedy topological order, or an error
    because the graph has a cycle. *)

From stdpp Require Import functions.
From S2P Require Import Prelude Order Specs DagRows DagSchedule DagOrder DagReady DagScheduleFacts.

(** ** Specification *)

Section specification.
Context (count : nat) (dep val tok : nat -> list nat) (token_weights : list Z).
Implicit Types (l : list nat) (d t n : nat).

(** [l] is scheduled last: the values it needs that are not in it, and the
    tokens it shares with the rest. *)
Definition live_values l : list nat :=
  filter (fun d => (d ∉ l) /\ Exists (fun u => d ∈ val u) l) (seq 0 count).
Definition live_token_ids l : list nat :=
  filter (fun t => Exists (fun u => t ∈ tok u) l /\ Exists (fun u => (u ∉ l) /\ t ∈ tok u) (seq 0 count))
    (seq 0 (length token_weights)).
Definition pressure l : Z :=
  Z.of_nat (length (live_values l)) + zsum (fun t => default 0 (token_weights !! t)) (live_token_ids l).

(** [n] can go before [l]: all its users are in [l]. *)
Definition available l n : Prop :=
  (n < count)%nat /\ (n ∉ l) /\ forall u, (u < count)%nat -> n ∈ dep u -> u ∈ l.

(** A topological order in which each node, placed before the nodes after it,
    gives the least pressure among the nodes available there. *)
Record min_pressure_schedule (order : list nat) : Prop := {
  ms_topological : topological count dep order;
  ms_least pre n post m : order = pre ++ n :: post -> available post m -> pressure (n :: post) <= pressure (m :: post) }.
End specification.

Lemma zsum_filter {A} (f : A -> Z) (P : A -> Prop) `{!forall a, Decision (P a)} (l : list A) :
  zsum f (filter P l) = zsum (fun a => if decide (P a) then f a else 0) l.
Proof. induction l as [|a l IH]; [done|]. rewrite filter_cons. cbn. case_decide; cbn; lia. Qed.

Lemma zsum_length {A} (l : list A) : Z.of_nat (length l) = zsum (fun _ => 1) l.
Proof. induction l as [|a l IH]; [done|]. cbn. lia. Qed.

Lemma zsum_sub {A} (f g : A -> Z) (l : list A) : zsum f l - zsum g l = zsum (fun a => f a - g a) l.
Proof. induction l as [|a l IH]; cbn; lia. Qed.

Section pressure.
Context {D V T S U : Type} `{GraphRows D, GraphRows V, NodeRows T, GraphRows S, GraphRows U}.
Context (count : nat) (token_weights : list Z) (dependencies : D) (value_dependencies : V) (tokens_by_node : T).
Context (token_users : list (list nat)) (successors : S) (value_users : U) (g : dag_rows).
Context (Hdag : dag_input count token_weights dependencies value_dependencies tokens_by_node token_users successors value_users g).
Context (Hirr : forall n, (n < count)%nat -> n ∉ dep g n).
Abbreviation tokens_count := (length token_weights).
Abbreviation weight := (weight token_weights).
Implicit Types (finished l : list nat) (n d t u : nat).

Abbreviation load := (pressure count (val g) (tok g) token_weights).

Lemma token_live_waiting finished t : (t < tokens_count)%nat ->
  (Exists (fun u => t ∈ tok g u) finished /\ Exists (fun u => (u ∉ finished) /\ t ∈ tok g u) (seq 0 count)) <->
  (Exists (fun u => t ∈ tok g u) finished /\ waiting g finished t <> 0%nat).
Proof.
  intros Ht. f_equiv. unfold waiting. rewrite undone_zero, (Exists_exists _ (seq 0 count)). setoid_rewrite elem_of_seq. split.
  - intros (u & Hu & Hnot & Ht') Hall. apply Hnot, Hall. apply (di_tu_rev Hdag); [done|]. split; [lia|done].
  - intros Hnot. destruct (decide (Forall (fun u => u ∈ finished) (tu g t))) as [Hf|Hf].
    + rewrite Forall_forall in Hf. done.
    + apply not_Forall_Exists, Exists_exists in Hf as (u & Hu & Hnu); [|apply _].
      apply (di_tu_rev Hdag) in Hu as [Hu Ht']; [|done]. exists u. split; [lia|done].
Qed.

(** Pressure as a sum over all values and tokens. *)
Lemma pressure_sums finished : load finished =
  zsum (fun d => Z.b2z (value_live g finished d)) (seq 0 count) +
  zsum (fun t => if token_live g finished t then weight t else 0) (seq 0 tokens_count).
Proof.
  unfold pressure, live_values, live_token_ids. rewrite zsum_length, !zsum_filter. f_equal; apply zsum_ext.
  - intros d _. unfold value_live. rewrite bool_decide_decide. by case_decide.
  - intros t Ht%elem_of_seq. unfold token_live. rewrite bool_decide_decide.
    pose proof (token_live_waiting finished t ltac:(lia)). repeat case_decide; tauto.
Qed.

Lemma pressure_perm l k : l ≡ₚ k -> load l = load k.
Proof.
  intros Hp. unfold pressure, live_values, live_token_ids. f_equal; [f_equal; f_equal|f_equal]; apply filter_ext_in; intros x _.
  - by rewrite Hp.
  - rewrite Hp. f_equiv. rewrite !Exists_exists. by setoid_rewrite Hp.
Qed.

Section step.
Context (finished : list nat) (n : nat).
Context (Hro : reverse_order_ok count g finished) (Hn : (n < count)%nat) (Hnew : n ∉ finished).
Abbreviation after := (finished ++ [n]).

Lemma value_step :
  zsum (fun d => Z.b2z (value_live g after d)) (seq 0 count) - zsum (fun d => Z.b2z (value_live g finished d)) (seq 0 count) =
  zsum (fun d => Z.b2z (negb (value_live g finished d))) (val g n) - Z.b2z (value_live g finished n).
Proof.
  assert (Hla : forall d, (d < count)%nat -> value_live g after d = used (<[n := false]> (value_live g finished)) (val g n) d).
  { intros d Hd. symmetry. by eapply live_after. }
  pose proof (val_irr _ _ _ _ _ _ _ _ _ Hdag Hirr n Hn) as Hself.
  assert (Hrange : forall d, d ∈ val g n -> (d < count)%nat) by (intros d; by eapply val_range).
  rewrite zsum_sub, (zsum_support _ (seq 0 count) (n :: val g n)).
  - cbn [zsum]. rewrite (zsum_ext _ (fun d => Z.b2z (negb (value_live g finished d))) (val g n)).
    + rewrite Hla by done. unfold used. rewrite fn_lookup_insert, bool_decide_eq_false_2 by done. cbn. lia.
    + intros d Hd. rewrite Hla by auto. unfold used. rewrite bool_decide_eq_true_2, orb_true_r by done. by destruct (value_live g finished d).
  - apply NoDup_seq.
  - constructor; [done|by eapply val_NoDup].
  - intros d [->|Hd%Hrange]%elem_of_cons; apply elem_of_seq; lia.
  - intros d Hd%elem_of_seq [Hne Hnot]%not_elem_of_cons. rewrite Hla by lia. unfold used.
    rewrite fn_lookup_insert_ne, bool_decide_eq_false_2, orb_false_r by done. lia.
Qed.

Lemma token_step :
  zsum (fun t => if token_live g after t then weight t else 0) (seq 0 tokens_count) -
    zsum (fun t => if token_live g finished t then weight t else 0) (seq 0 tokens_count) =
  zsum (contribution token_weights (token_live g finished) (waiting g finished)) (tok g n).
Proof.
  assert (Hrange : forall t, t ∈ tok g n -> (t < tokens_count)%nat) by (intros t; by eapply (di_tok_range Hdag)).
  rewrite zsum_sub, (zsum_support _ (seq 0 tokens_count) (tok g n)).
  - apply zsum_ext. intros t Ht. pose proof (Hrange t Ht) as Htl. assert (Hs : n ∈ tu g t) by (by apply (di_tu_rev Hdag)).
    rewrite <- (token_after_live _ _ _ _ _ _ _ _ _ Hdag finished n Hn Hnew t Htl Hs). unfold contribution, token_after.
    pose proof (undone_pos finished (tu g t) n Hs Hnew) as Hpos. change (undone finished (tu g t)) with (waiting g finished t) in Hpos.
    destruct (token_live g finished t); cbn [negb andb]; repeat case_bool_decide; lia.
  - apply NoDup_seq.
  - by apply (di_tok_nodup Hdag).
  - intros t Ht%Hrange. apply elem_of_seq. lia.
  - intros t Ht%elem_of_seq Hnot. assert (Hns : n ∉ tu g t) by (intros Hs; apply (di_tu_rev Hdag) in Hs as [_ ?]; [done|lia]).
    assert (token_live g after t = token_live g finished t) as ->; [|lia]. unfold token_live. apply bool_decide_ext.
    rewrite Exists_app, Exists_cons, Exists_nil. unfold waiting.
    rewrite (undone_snoc finished n (tu g t)), decide_False by (try apply (di_tu_nodup Hdag); lia || done). rewrite Nat.add_0_r. tauto.
Qed.

(** The delta of an available node is the change of pressure it causes. *)
Lemma pressure_step : load after = load finished + delta_at token_weights g finished n.
Proof. rewrite !pressure_sums. unfold delta_at, delta_of. pose proof value_step. pose proof token_step. lia. Qed.
End step.
End pressure.

(** ** The scheduler on well-formed views *)

Lemma respects_rev row row' l : NoDup l -> (forall n u, n ∈ l -> u ∈ row' n -> u ∈ l /\ n ∈ row u) ->
  respects row l -> respects row' (rev l).
Proof.
  intros Hnd Hrev Hl pre n post Heq u Hu.
  assert (Hsplit : l = rev post ++ n :: rev pre).
  { rewrite <- (rev_involutive l), Heq, rev_app_distr. cbn. by rewrite <- app_assoc. }
  assert (Hn : n ∈ l) by (rewrite Hsplit; set_solver). destruct (Hrev n u Hn Hu) as [Hul Hnu].
  assert (Hlast : n ∉ rev post).
  { rewrite Hsplit in Hnd. apply NoDup_app in Hnd as (_ & Hd & _). intros Hin. specialize (Hd n Hin). set_solver. }
  rewrite Hsplit in Hul. apply elem_of_app in Hul as [Hin|[->|Hin]%elem_of_cons].
  - destruct Hlast. apply list_elem_of_split in Hin as (a & b & Hab). rewrite Hab in *.
    apply elem_of_app. left. eapply (Hl a u (b ++ n :: rev pre)); [|done]. by rewrite Hsplit, <- app_assoc.
  - destruct Hlast. exact (Hl _ _ _ Hsplit _ Hnu).
  - by rewrite elem_of_rev in Hin.
Qed.

Lemma array_of_list {A} (d : A) (l : list A) : array (length l) (fun i => default d (l !! i)) l.
Proof. split; [done|]. intros i Hi. by in_range l i as x ->. Qed.

Lemma topological_irreflexive count row l n : topological count row l -> (n < count)%nat -> n ∉ row n.
Proof.
  intros [Hp Hr] Hn Hin. assert (Hnl : n ∈ l) by (rewrite Hp; apply elem_of_seq; lia).
  apply list_elem_of_split in Hnl as (a & b & ->). pose proof (Hr a n b eq_refl n Hin) as Ha.
  assert (Hnd : NoDup (a ++ n :: b)) by (rewrite Hp; apply NoDup_seq). apply NoDup_app in Hnd as (_ & Hd & _).
  specialize (Hd n Ha). set_solver.
Qed.

Section schedule.
Context {D V T S U : Type} `{GraphRows D, GraphRows V, NodeRows T, GraphRows S, GraphRows U}.
Context (count : nat) (token_weights : list Z) (dependencies : D) (value_dependencies : V) (tokens_by_node : T).
Context (token_users : list (list nat)) (successors : S) (value_users : U) (g : dag_rows).
Context (Hdag : dag_input count token_weights dependencies value_dependencies tokens_by_node token_users successors value_users g).
Context (small : Prop) (Hsmall : small -> Z.of_nat count + 2 * zsum id token_weights <= i64_max).
Abbreviation schedule := (min_pressure_schedule count (dep g) (val g) (tok g) token_weights).

Lemma order_prefix l k : reverse_order_ok count g (l ++ k) -> reverse_order_ok count g l.
Proof.
  intros [Hnd Hlt Hr]. split.
  - by apply NoDup_app in Hnd as [? _].
  - intros n Hn. apply Hlt. set_solver.
  - intros pre n post Heq. apply (Hr pre n (post ++ k)). by rewrite Heq, <- app_assoc.
Qed.

(** A finished greedy run is a schedule of least pressure. *)
Lemma finished_schedule ed xd finished : (forall n, (n < count)%nat -> n ∉ dep g n) -> reverse_order_ok count g finished ->
  greedy count token_weights g ed xd finished -> length finished = count -> schedule (rev finished).
Proof.
  intros Hirr Hok Hgr Hlen. split.
  - split; [rewrite <- (complete_order count finished); [|apply Hok|apply Hok|done]; symmetry; apply Permutation_rev|].
    eapply respects_rev; [apply Hok| |apply (ro_respects _ _ _ Hok)]. intros n d Hn Hd.
    assert (Hnl : (n < count)%nat) by (by apply (ro_range _ _ _ Hok)).
    assert (Hdl : (d < count)%nat) by (by eapply (view_range _ _ _ (di_dep Hdag) (di_dep_len Hdag) n)).
    split; [|by apply (di_rev Hdag)]. rewrite (complete_order count finished) by (apply Hok || done). apply elem_of_seq. lia.
  - intros pre n post m Heq (Hm & Hnew & Husers).
    assert (Hsplit : finished = rev post ++ n :: rev pre).
    { rewrite <- (rev_involutive finished), Heq, rev_app_distr. cbn. by rewrite <- app_assoc. }
    assert (Hpost : reverse_order_ok count g (rev post)) by (rewrite Hsplit in Hok; by eapply order_prefix).
    assert (Hmem : forall x, x ∈ rev post <-> x ∈ post) by (intros x; apply elem_of_rev).
    assert (Hready : is_ready g (rev post) m = true).
    { apply bool_decide_eq_true. rewrite Hmem, undone_zero. split; [done|]. intros u Hu. apply Hmem, Husers.
      - by eapply (view_range _ _ _ (di_succ Hdag) (di_succ_len Hdag) m).
      - apply (di_rev Hdag); [|done|done]. by eapply (view_range _ _ _ (di_succ Hdag) (di_succ_len Hdag) m). }
    pose proof (Hgr (rev post) n (rev pre) Hsplit m Hm Hready) as Hkey%fst_le. unfold key_of in Hkey. cbn in Hkey.
    assert (Hn : (n < count)%nat /\ n ∉ rev post).
    { split; [apply (ro_range _ _ _ Hok); rewrite Hsplit; set_solver|]. pose proof (ro_nodup _ _ _ Hok) as Hnd. rewrite Hsplit in Hnd.
      apply NoDup_app in Hnd as (_ & Hd & _). intros Hin. specialize (Hd n Hin). set_solver. }
    destruct Hn as [Hn Hnn]. assert (Hmn : m ∉ rev post) by (by rewrite Hmem).
    assert (Hpr : forall x, pressure count (val g) (tok g) token_weights (x :: post) = pressure count (val g) (tok g) token_weights (rev post ++ [x])).
    { intros x. apply pressure_perm. rewrite <- Permutation_cons_append, <- Permutation_rev. done. }
    rewrite !Hpr, !(pressure_step _ _ _ _ _ _ _ _ _ Hdag Hirr (rev post)) by done. unfold ord_le in Hkey. cbn in Hkey. lia.
Qed.

Lemma topological_reverse order : topological count (dep g) order -> topological count (succ g) (rev order).
Proof.
  intros [Hp Hr]. split; [by rewrite <- Permutation_rev|]. apply (respects_rev (dep g)); [rewrite Hp; apply NoDup_seq| |done].
  intros n u Hn Hu. rewrite Hp in Hn. apply elem_of_seq in Hn.
  assert (Hul : (u < count)%nat) by (eapply (view_range _ _ _ (di_succ Hdag) (di_succ_len Hdag) n); [lia|done]).
  split; [rewrite Hp; apply elem_of_seq; lia|]. apply (di_rev Hdag); [done|lia|done].
Qed.

Lemma initial_sched_inv ed xd unsch rs : array count (fun n => length (succ g n)) unsch ->
  ready_inv count ed xd (delta_at token_weights g []) (is_ready g []) rs ->
  sched_inv count token_weights g ed xd []
    (SS unsch (replicate count false) (length <$> token_users) (replicate (length token_weights) false) rs []).
Proof.
  intros Hun Hrs. split; cbn; [done| | | | | |done|].
  - split; [constructor|by intros n ?%not_elem_of_nil|by intros [] ? ? ?].
  - eapply array_ext; [|exact Hun]. intros n _. by rewrite undone_nil.
  - by apply (nothing_live _ _ _ _ _ _ _ _ _ Hdag).
  - by apply (nothing_live _ _ _ _ _ _ _ _ _ Hdag).
  - by apply (nothing_live _ _ _ _ _ _ _ _ _ Hdag).
  - by intros [] ? ? ?.
Qed.

Lemma schedule_nodes_spec entry_depth exit_depth order : length entry_depth = count -> length exit_depth = count ->
  topological count (dep g) order ->
  yields (DagOrder.overflow small) schedule
    (schedule_nodes dependencies value_dependencies tokens_by_node token_weights token_users successors value_users
      entry_depth exit_depth).
Proof.
  intros He Hx Htopo. assert (Hirr : forall n, (n < count)%nat -> n ∉ dep g n) by (intros n; by eapply topological_irreflexive).
  pose proof (array_of_list 0 entry_depth) as Hed. rewrite He in Hed. pose proof (array_of_list 0 exit_depth) as Hxd. rewrite Hx in Hxd.
  unfold schedule_nodes. destruct (row_counts_spec count successors (succ g) (di_succ Hdag) (di_succ_len Hdag)) as (unsch & -> & Hun).
  rewrite (di_dep_len Hdag). msimpl.
  eapply yields_bind; [by eapply (insert_sinks_spec _ _ _ _ _ _ _ _ _ Hdag small Hsmall Hirr)|]. intros rs Hrs.
  eapply yields_bind; [eapply (schedule_loop_spec _ _ _ _ _ _ _ _ _ Hdag small Hsmall Hirr _ _ _ _ Hed Hxd count []); [|cbn; lia]|].
  { by apply initial_sched_inv. }
  intros st (finished & Hi & Hempty). pose proof (si_ok _ _ _ _ _ _ _ Hi) as Hok. rewrite (si_order _ _ _ _ _ _ _ Hi).
  assert (Hlen : length finished = count).
  { apply (stuck_contains count (succ g) finished (rev order)); [apply Hok|apply Hok| |].
    - intros n. by apply (stuck_schedule _ _ _ _ _ _ _ _ Hi).
    - by apply topological_reverse. }
  rewrite decide_True by done. cbn. eapply finished_schedule; [exact Hirr|exact Hok|apply (si_greedy _ _ _ _ _ _ _ Hi)|exact Hlen].
Qed.

(** The scheduler finds a schedule, or there is no topological order. *)
Definition schedule_error (e : DagScheduleError) : Prop :=
  DagOrder.overflow small e \/ (e = Cycle /\ ~ exists l, topological count (dep g) l).

Lemma schedule_with_users_spec :
  yields schedule_error schedule
    (schedule_with_users dependencies value_dependencies tokens_by_node token_weights token_users successors value_users).
Proof.
  assert (Hcount : small -> Z.of_nat count <= i64_max).
  { intros Hs. pose proof (total_small _ _ _ _ _ _ _ _ _ Hdag small Hsmall Hs). lia. }
  unfold schedule_with_users. rewrite (di_dep_len Hdag), decide_False by (rewrite (di_succ_len Hdag), (di_vuse_len Hdag); naive_solver).
  destruct (row_counts_spec count dependencies (dep g) (di_dep Hdag) (di_dep_len Hdag)) as (degrees & -> & Hdeg). msimpl.
  eapply yields_bind.
  { apply (topological_order_spec small count Hcount successors (dep g) (succ g) (di_succ Hdag) (di_succ_len Hdag)
      (view_NoDup _ _ _ (di_dep Hdag) (di_dep_len Hdag)) (view_range _ _ _ (di_dep Hdag) (di_dep_len Hdag)) (di_rev Hdag) degrees Hdeg). }
  intros [order entry_depth] [Htopo [Hlen _]]. cbn [fst snd] in *.
  eapply yields_weaken; [intros e He; left; exact He|]. eapply yields_bind.
  { eapply (exit_depths_spec small count Hcount successors (dep g) (succ g) (di_succ Hdag) (di_succ_len Hdag)
      (view_NoDup _ _ _ (di_dep Hdag) (di_dep_len Hdag)) (view_range _ _ _ (di_dep Hdag) (di_dep_len Hdag)) (di_rev Hdag) dependencies);
      [apply (di_dep Hdag)|apply (di_dep_len Hdag)|]. rewrite <- Permutation_rev. apply Htopo. }
  intros exit_depth [Hxlen _]. by apply (schedule_nodes_spec entry_depth exit_depth order).
Qed.
End schedule.
