(* ===== verification/DagEntry.v ===== *)
(** * DagEntry: the entry points of the scheduler

    Validation of the inputs, the construction of the user rows, and the
    correctness of [schedule_min_live_values_and_tokens] and of its variant
    over mapped rows: each input is either refused for a stated reason, or
    scheduled in a topological order of least pressure. *)

From stdpp Require Import functions.
From S2P Require Import Prelude Order Specs DagRows DagSchedule DagOrder DagReady DagScheduleFacts DagPressure.

(** ** Rows of users *)

(** The nodes below [count] whose row holds [x], in order. *)
Definition users_of (count : nat) (row : nat -> list nat) (x : nat) : list nat :=
  filter (fun n => x ∈ row n) (seq 0 count).

Lemma elem_of_users_of count row x n : n ∈ users_of count row x <-> (n < count)%nat /\ x ∈ row n.
Proof. unfold users_of. rewrite list_elem_of_filter, elem_of_seq. split; [intros [??]; split; [lia|done]|intros [??]; split; [done|lia]]. Qed.

Lemma users_of_NoDup count row x : NoDup (users_of count row x).
Proof. apply NoDup_filter, NoDup_seq. Qed.

Lemma users_of_snoc count row x :
  users_of (S count) row x = users_of count row x ++ if decide (x ∈ row count) then [count] else [].
Proof. unfold users_of. rewrite seq_S, filter_app, filter_cons. cbn. by case_decide. Qed.

Lemma users_of_valid count row x : valid_row count (users_of count row x).
Proof.
  split; [apply StronglySorted_filter, seq_sorted|]. split; [|done]. rewrite Forall_forall.
  intros n Hn%elem_of_users_of. lia.
Qed.

(** Pushing one user on the rows of its entries. *)
Definition pushes (limit : nat) (f : nat -> list nat) (user : nat) (entries : list nat) (t : nat) : list nat :=
  f t ++ if decide (t ∈ entries) then [user] else [].

Lemma push_rows_spec (bad : DagScheduleError -> Prop) limit f user entries rows
    (push : list (list nat) -> nat -> dag_result (list (list nat))) :
  (forall l t, push l t = (row ← expect (l !! t); Ok (<[t := row ++ [user]]> l))) ->
  array limit f rows -> NoDup entries -> (forall t, t ∈ entries -> (t < limit)%nat) ->
  yields bad (array limit (pushes limit f user entries)) (foldM push rows entries).
Proof.
  intros Hpush Hrows Hnd Hlt. apply (yields_foldM _ (fun pre => array limit (pushes limit f user pre))).
  - eapply array_ext; [|exact Hrows]. intros t _. unfold pushes. by rewrite decide_False, app_nil_r by apply not_elem_of_nil.
  - intros pre t post l Heq Hl. assert (Ht : (t < limit)%nat) by (apply Hlt; rewrite Heq; set_solver).
    assert (Hpre : t ∉ pre) by (rewrite Heq in Hnd; apply NoDup_app in Hnd as (_ & Hd & _); intros Hin; specialize (Hd t Hin); set_solver).
    rewrite Hpush, (array_lookup _ _ _ t Hl Ht). msimpl. cbn.
    apply (array_update _ (pushes limit f user pre)); [done| |].
    + unfold pushes. rewrite decide_True, (decide_False (P := t ∈ pre)) by set_solver. by rewrite app_nil_r.
    + intros j _ Hj. unfold pushes. by rewrite (decide_ext (j ∈ pre ++ [t]) (j ∈ pre)) by set_solver.
Qed.

Lemma pushes_users limit row count t : pushes limit (users_of count row) count (row count) t = users_of (S count) row t.
Proof. unfold pushes. by rewrite users_of_snoc. Qed.

(** ** Validation *)

Section validation.
Context {D V T : Type} `{GraphRows D, GraphRows V, NodeRows T}.
Context (dependencies : D) (value_dependencies : V) (tokens_by_node : T) (token_weights : list Z).
Context (dep val tok : nat -> list nat) (count : nat).
Context (Hdep : GraphRowsLaws dependencies dep) (Hdlen : graph_len dependencies = count).
Context (Hval : GraphRowsLaws value_dependencies val).
Context (Htok : forall n, (n < node_len tokens_by_node)%nat -> node_row tokens_by_node n = Some (tok n)).

Definition valid_node n : Prop :=
  valid_row (length token_weights) (tok n) /\ forall d, d ∈ val n -> d ∈ dep n.
Definition valid_inputs : Prop :=
  graph_len value_dependencies = count /\ node_len tokens_by_node = count /\ forall n, (n < count)%nat -> valid_node n.

Definition input_error (e : DagScheduleError) : Prop :=
  e = Shape \/ e = InvalidToken \/ e = DuplicateToken \/ e = ValueIsNotDependency.

Lemma validate_user_spec n rows : (n < count)%nat -> graph_len value_dependencies = count -> node_len tokens_by_node = count ->
  array (length token_weights) (users_of n tok) rows ->
  yields (fun e => input_error e /\ ~ valid_node n)
    (fun rows' => valid_node n /\ array (length token_weights) (users_of (S n) tok) rows')
    (validate_user dependencies value_dependencies tokens_by_node token_weights rows n).
Proof.
  intros Hn Hvlen Htlen Hrows. unfold validate_user. rewrite Htok by lia. msimpl. unfold validate_token_row.
  pose proof (increasing_row_spec InvalidToken DuplicateToken (length token_weights) None (tok n)) as Hr.
  destruct (increasing_row _ _ _ _ _) as [[]|e|]; cbn [yields] in Hr; msimpl; [| |done].
  2:{ cbn. unfold input_error, valid_node, valid_row. tauto. }
  rewrite (view_nodes _ _ _ Hval Hvlen) by done. msimpl.
  destruct (any_missing_spec dependencies dep count Hdep Hdlen n (val n) Hn) as (b & -> & Hb); [intros d; by apply (view_range _ _ _ Hval Hvlen)|]. msimpl.
  destruct b; cbn.
  - split; [unfold input_error; tauto|]. intros [_ Hsub]. by apply Hb in Hsub.
  - eapply yields_impl; [|apply (push_rows_spec _ (length token_weights) (users_of n tok) n (tok n) rows)]; [|done|done| |].
    + intros rows' Hrows'. split; [split; [done|by apply Hb]|]. eapply array_ext; [|exact Hrows']. intros t _. apply pushes_users.
    + apply sorted_NoDup. apply Hr.
    + destruct Hr as (_ & Hl & _). by rewrite Forall_forall in Hl.
Qed.

Lemma validate_inputs_spec :
  yields (fun e => input_error e /\ ~ valid_inputs)
    (fun rows => valid_inputs /\ array (length token_weights) (users_of count tok) rows)
    (validate_inputs dependencies value_dependencies tokens_by_node token_weights).
Proof.
  unfold validate_inputs. rewrite Hdlen. case_decide as Hshape.
  { cbn. split; [by left|]. intros (? & ? & _). tauto. }
  assert (Hvlen : graph_len value_dependencies = count) by (apply dec_stable; tauto).
  assert (Htlen : node_len tokens_by_node = count) by (apply dec_stable; tauto).
  eapply yields_impl; [|eapply yields_weaken; [|apply (yields_seq (fun e => input_error e /\ exists n, (n < count)%nat /\ ~ valid_node n)
    (fun k rows => (forall n, (n < k)%nat -> valid_node n) /\ array (length token_weights) (users_of k tok) rows))]].
  - intros rows [Hall Hrows]. by split.
  - intros e [He (n & Hn & Hbad)]. split; [done|]. intros (_ & _ & Hall). by apply Hbad, Hall.
  - split; [lia|]. apply array_replicate.
  - intros k rows Hk [Hall Hrows]. eapply yields_impl; [|eapply yields_weaken; [|by apply validate_user_spec]].
    + intros rows' [Hv Hrows']. split; [|done]. intros n Hn. destruct (decide (n = k)) as [->|]; [done|]. apply Hall. lia.
    + intros e [He Hbad]. split; [done|]. by exists k.
Qed.
End validation.

Lemma laws_ext {G} `{GraphRows G} (view : G) row row' : (forall n, (n < graph_len view)%nat -> row n = row' n) ->
  GraphRowsLaws view row -> GraphRowsLaws view row'.
Proof.
  intros Heq [H1 H2 H3 H4]. split.
  - intros n Hn. by rewrite <- Heq, H1.
  - intros n x Hn Hx. by rewrite <- Heq, H2.
  - intros n Hn. rewrite <- Heq by done. by apply H3.
  - intros n x Hn. rewrite <- Heq by done. by apply H4.
Qed.

(** ** Rows of the graph itself *)

Section local.
Context (dependencies value_dependencies tokens_by_node : list (list nat)) (token_weights : list Z).
Context (Hweights : Forall (Z.le 0) token_weights).
Abbreviation count := (length dependencies).
Abbreviation dep := (row_at dependencies).
Abbreviation val := (row_at value_dependencies).
Abbreviation tok := (row_at tokens_by_node).

(** Rows sorted without duplicates and in range, value edges among the
    dependencies, one token row per node. *)
Record valid_local : Prop := {
  vl_dependencies : valid_rows dependencies;
  vl_values : valid_rows value_dependencies;
  vl_inputs : valid_inputs (LGR value_dependencies) (LNR tokens_by_node) token_weights dep val tok count }.

Definition fits : Prop := Z.of_nat count + 2 * zsum id token_weights <= i64_max.

Lemma add_users_spec (bad : DagScheduleError -> Prop) : valid_rows dependencies -> valid_rows value_dependencies ->
  length value_dependencies = count ->
  yields bad (fun st => array count (users_of count dep) st.1 /\ array count (users_of count val) st.2)
    (foldM (add_users (LGR dependencies) (LGR value_dependencies)) (replicate count [], replicate count []) (seq 0 count)).
Proof.
  intros Hd Hv Hlen. pose proof (local_laws _ Hd) as Ld. pose proof (local_laws _ Hv) as Lv.
  apply (yields_seq _ (fun k st => array count (users_of k dep) st.1 /\ array count (users_of k val) st.2)).
  { split; apply array_replicate. }
  intros k [succs vusers] Hk [Hs Hu]. cbn [fst snd] in *. unfold add_users. cbn [fst snd].
  rewrite (view_nodes _ _ _ Ld eq_refl) by done. msimpl.
  eapply yields_bind; [apply (push_rows_spec _ count (users_of k dep) k (dep k) succs)|]; [done|done|..].
  { by apply (view_NoDup _ _ _ Ld eq_refl). }
  { intros d. by apply (view_range _ _ _ Ld eq_refl). }
  intros succs' Hs'. rewrite (view_nodes _ _ _ Lv Hlen) by done. msimpl.
  eapply yields_bind; [apply (push_rows_spec _ count (users_of k val) k (val k) vusers)|]; [done|done|..].
  { by apply (view_NoDup _ _ _ Lv Hlen). }
  { intros d. by apply (view_range _ _ _ Lv Hlen). }
  intros vusers' Hu'. cbn. split; eapply array_ext; [|exact Hs'| |exact Hu']; intros t _; apply pushes_users.
Qed.

(** The rows of the users are valid rows. *)
Lemma user_rows_new row rows : array count (users_of count row) rows ->
  LocalGraphRows_new rows = Ok (LGR rows) /\ GraphRowsLaws (LGR rows) (users_of count row) /\ graph_len (LGR rows) = count.
Proof.
  intros [Hlen Hrows]. assert (Hv : valid_rows rows).
  { unfold valid_rows. rewrite Hlen. apply Forall_lookup. intros n r Hr. assert (Hn : (n < count)%nat) by (rewrite <- Hlen; eauto with index).
    rewrite (Hrows n Hn) in Hr. injection Hr as <-. apply users_of_valid. }
  split_and!; [|eapply laws_ext; [|by apply local_laws]|done].
  - pose proof (LocalGraphRows_new_spec rows) as Hs. destruct (LocalGraphRows_new rows) as [r|e|]; [by destruct Hs as [-> _]|by destruct Hs|done].
  - cbn. rewrite Hlen. intros n Hn. unfold row_at. by rewrite Hrows.
Qed.

Definition local_rows : dag_rows := DR dep val tok (users_of count dep) (users_of count val) (users_of count tok).

Lemma local_dag_input token_users succs vusers : valid_local -> array (length token_weights) (users_of count tok) token_users ->
  array count (users_of count dep) succs -> array count (users_of count val) vusers ->
  dag_input count token_weights (LGR dependencies) (LGR value_dependencies) (LNR tokens_by_node) token_users (LGR succs) (LGR vusers) local_rows.
Proof.
  intros [Hd Hv (Hvlen & Htlen & Hnodes)] Htu Hs Hu. cbn in Hvlen, Htlen.
  destruct (user_rows_new dep succs Hs) as (_ & Ls & Hsl), (user_rows_new val vusers Hu) as (_ & Lu & Hul).
  split; cbn; try done.
  - by apply local_laws.
  - by apply local_laws.
  - intros n Hn. unfold row_at. by in_range tokens_by_node n as r ->.
  - intros n Hn. apply sorted_NoDup. by apply (Hnodes n Hn).
  - intros n t Hn Ht. destruct (Hnodes n Hn) as [(_ & Hl & _) _]. rewrite Forall_forall in Hl. by apply Hl.
  - intros t _. apply users_of_NoDup.
  - intros t n _. apply elem_of_users_of.
  - intros n d Hn. by apply (Hnodes n Hn).
  - intros n d Hn _. rewrite elem_of_users_of. tauto.
  - intros n d Hn _. rewrite elem_of_users_of. tauto.
Qed.

(** The errors of the local entry point. *)
Definition local_error (e : DagScheduleError) : Prop :=
  match e with
  | ArithmeticOverflow => ~ fits
  | Cycle => valid_local /\ ~ exists l, topological count dep l
  | _ => ~ valid_local
  end.

Lemma schedule_local_spec :
  yields local_error (fun order => valid_local /\ min_pressure_schedule count dep val tok token_weights order)
    (schedule_min_live_values_and_tokens dependencies value_dependencies tokens_by_node token_weights).
Proof.
  unfold schedule_min_live_values_and_tokens.
  eapply yields_bind; [eapply yields_weaken; [|apply LocalGraphRows_new_spec]|].
  { intros e [[->| ->] Hn]; cbn; intros [? _ _]; done. }
  intros gd [-> Hd]. eapply yields_bind; [eapply yields_weaken; [|apply LocalGraphRows_new_spec]|].
  { intros e [[->| ->] Hn]; cbn; intros [_ ? _]; done. }
  intros gv [-> Hv]. pose proof (local_laws _ Hd) as Ld. pose proof (local_laws _ Hv) as Lv.
  eapply yields_bind; [eapply yields_weaken; [|apply (validate_inputs_spec _ _ (LNR tokens_by_node) token_weights dep val tok count Ld eq_refl Lv)]|].
  { intros e [[->|[->|[->| ->]]] Hn]; cbn; intros [_ _ ?]; done. }
  { intros n Hn. cbn in Hn |- *. unfold row_at. by in_range tokens_by_node n as r ->. }
  intros token_users [Hin Htu]. cbn [graph_len LocalGraphRows_rows graph_rows].
  eapply yields_bind; [by apply add_users_spec; [done..|apply Hin]|].
  intros [succs vusers] [Hs Hu]. cbn [fst snd] in *. rewrite (proj1 (user_rows_new dep succs Hs)), (proj1 (user_rows_new val vusers Hu)). msimpl.
  assert (Hvalid : valid_local) by (by split).
  eapply yields_weaken; [|eapply yields_impl; [|apply (schedule_with_users_spec _ _ _ _ _ _ _ _ _
    (local_dag_input token_users succs vusers Hvalid Htu Hs Hu) fits)]]; [| |done].
  - intros e [[-> Hn]|[-> Hn]]; cbn; [done|]. by split.
  - intros order Ho. by split.
Qed.
End local.

(** ** The reverse rows *)

(** The edges of the first [k] rows. *)
Definition edge_list (row : nat -> list nat) (k : nat) : list (nat * nat) := seq 0 k ≫= fun n => pair n <$> row n.
Definition edge_count (row : nat -> list nat) (k : nat) : Z := zsum (fun n => Z.of_nat (length (row n))) (seq 0 k).
#[local] Arguments edge_count : simpl never.

Lemma edge_count_S row k : edge_count row (S k) = edge_count row k + Z.of_nat (length (row k)).
Proof. unfold edge_count. rewrite seq_S, zsum_app. cbn. lia. Qed.

Lemma edge_count_mono row k k' : (k <= k')%nat -> edge_count row k <= edge_count row k'.
Proof. induction 1 as [|k' Hk IH]; [done|]. rewrite edge_count_S. lia. Qed.

Lemma edge_list_length row k : Z.of_nat (length (edge_list row k)) = edge_count row k.
Proof.
  unfold edge_list. induction k as [|k IH]; [done|]. rewrite edge_count_S, seq_S, bind_app, length_app. csimpl.
  rewrite app_nil_r, length_fmap, Nat2Z.inj_add, IH. done.
Qed.

Lemma elem_of_edge_list row k n d : (n, d) ∈ edge_list row k <-> (n < k)%nat /\ d ∈ row n.
Proof.
  unfold edge_list. rewrite list_elem_of_bind. setoid_rewrite list_elem_of_fmap. setoid_rewrite elem_of_seq. split.
  - intros (m & (x & [= -> ->] & Hx) & Hm). split; [lia|done].
  - intros [Hn Hd]. exists n. split; [by exists d|lia].
Qed.

Lemma edge_list_NoDup row k : (forall n, (n < k)%nat -> NoDup (row n)) -> NoDup (edge_list row k).
Proof.
  unfold edge_list. intros Hnd. apply NoDup_bind.
  - intros m n x _ _ (? & -> & _)%list_elem_of_fmap (? & [= <-] & _)%list_elem_of_fmap. done.
  - intros n Hn%elem_of_seq. apply NoDup_fmap_2; [by intros ?? [=]|]. apply Hnd. lia.
  - apply NoDup_seq.
Qed.

Section reverse_users.
Context {U D : Type} `{GraphRows U, GraphRows D} (users : U) (dependencies : D) (succ dep : nat -> list nat) (count : nat).
Context (Hu : GraphRowsLaws users succ) (Hd : GraphRowsLaws dependencies dep) (Hdlen : graph_len dependencies = count).

Definition is_reverse : Prop := forall n d, (n < count)%nat -> (d < count)%nat -> n ∈ succ d <-> d ∈ dep n.

(** The users are among the reverse edges; then they are all of them exactly
    when there are as many. *)
Lemma reverse_by_count : graph_len users = count -> (forall d n, (d < count)%nat -> n ∈ succ d -> d ∈ dep n) ->
  is_reverse <-> edge_count succ count = edge_count dep count.
Proof.
  intros Hlen Hsub. rewrite <- !edge_list_length.
  assert (Hn1 : NoDup (prod_swap <$> edge_list succ count)).
  { apply NoDup_fmap_2; [by intros [] [] [=]; subst|]. apply edge_list_NoDup. intros n. by apply (view_NoDup _ _ _ Hu Hlen). }
  assert (Hn2 : NoDup (edge_list dep count)) by (apply edge_list_NoDup; intros n; by apply (view_NoDup _ _ _ Hd Hdlen)).
  assert (Hin : forall n d, (n, d) ∈ prod_swap <$> edge_list succ count <-> (d < count)%nat /\ n ∈ succ d).
  { intros n d. rewrite list_elem_of_fmap, <- elem_of_edge_list. split; [by intros ([a b] & [= -> ->] & ?)|].
    intros Hx. by exists (d, n). }
  assert (Hincl : prod_swap <$> edge_list succ count ⊆+ edge_list dep count).
  { apply NoDup_submseteq; [done|]. intros [n d] [Hdc Hns]%Hin. apply elem_of_edge_list.
    split; [by apply (view_range _ _ _ Hu Hlen d)|by apply Hsub]. }
  split.
  - intros Hrev. f_equal. rewrite <- (length_fmap prod_swap (edge_list succ count)). apply Permutation_length.
    apply NoDup_Permutation; [done..|]. intros [n d]. rewrite Hin, elem_of_edge_list. split.
    + intros [Hdc Hns]. split; [by apply (view_range _ _ _ Hu Hlen d)|by apply Hsub].
    + intros [Hn Hdn]. assert (Hdc : (d < count)%nat) by (by apply (view_range _ _ _ Hd Hdlen n)). split; [done|by apply Hrev].
  - intros Heq%Nat2Z.inj n d Hn Hdc. split; [by apply Hsub|]. intros Hdn.
    apply submseteq_length_Permutation in Hincl; [|rewrite length_fmap; lia].
    assert (Hx : (n, d) ∈ prod_swap <$> edge_list succ count) by (rewrite Hincl; by apply elem_of_edge_list). by apply Hin in Hx as [_ ?].
Qed.

Lemma count_edges_spec : yields (fun e => e = ArithmeticOverflow /\ usize_max < edge_count dep count)
  (fun z => z = edge_count dep count) (count_edges dependencies).
Proof.
  unfold count_edges. rewrite Hdlen. apply (yields_seq _ (fun k z => z = edge_count dep k)); [done|].
  intros k z Hk ->. rewrite (view_nodes _ _ _ Hd Hdlen) by done. msimpl.
  destruct (checked_add _ _) as [r|] eqn:Hr; cbn.
  - rewrite edge_count_S. by apply checked_add_Some in Hr as [-> _].
  - split; [done|]. apply checked_add_None in Hr. pose proof (edge_count_mono dep (S k) count ltac:(lia)) as Hm. rewrite edge_count_S in Hm. lia.
Qed.

Lemma check_users_spec d z : (d < count)%nat -> graph_len users = count -> z = edge_count succ d ->
  yields (fun e => (e = UsersAreNotReverseDependencies /\ exists n, n ∈ succ d /\ d ∉ dep n) \/
      (e = ArithmeticOverflow /\ usize_max < edge_count succ count))
    (fun z' => z' = edge_count succ (S d) /\ forall n, n ∈ succ d -> d ∈ dep n)
    (foldM (check_user dependencies d) z (succ d)).
Proof.
  intros Hdc Hlen ->. rewrite edge_count_S. apply (yields_foldM _
    (fun pre z' => z' = edge_count succ d + Z.of_nat (length pre) /\ forall n, n ∈ pre -> d ∈ dep n)).
  { split; [cbn; lia|]. by intros n ?%not_elem_of_nil. }
  intros pre n post z' Heq [-> Hall]. unfold check_user.
  assert (Hn : (n < count)%nat) by (apply (view_range _ _ _ Hu Hlen d); [done|rewrite Heq; set_solver]).
  rewrite (view_contains _ _ _ Hd Hdlen) by done. msimpl. case_bool_decide as Hin.
  - unfold usize_succ. destruct (checked_add _ 1) as [r|] eqn:Hr; cbn.
    + apply checked_add_Some in Hr as [-> _]. rewrite length_app. cbn. split; [lia|]. intros m [?|Hm%list_elem_of_singleton]%elem_of_app; [auto|by subst m].
    + right. split; [done|]. apply checked_add_None in Hr. pose proof (edge_count_mono succ (S d) count ltac:(lia)) as Hm.
      rewrite edge_count_S, Heq, length_app in Hm. cbn in Hm. lia.
  - left. split; [done|]. exists n. split; [rewrite Heq; set_solver|done].
Qed.

Definition reverse_error (e : DagScheduleError) : Prop :=
  match e with
  | ArithmeticOverflow => usize_max < edge_count dep count \/ usize_max < edge_count succ count
  | Shape | UsersAreNotReverseDependencies => ~ (graph_len users = count /\ is_reverse)
  | _ => False
  end.

Lemma validate_reverse_users_spec :
  yields reverse_error (fun _ => graph_len users = count /\ is_reverse) (validate_reverse_users users dependencies).
Proof.
  unfold validate_reverse_users. rewrite Hdlen. case_decide as Hlen; [cbn; tauto|].
  eapply yields_bind; [eapply yields_weaken; [|apply count_edges_spec]|].
  { intros e [-> ?]. by left. }
  intros expected ->. rewrite Hlen.
  eapply yields_bind; [apply (yields_seq _ (fun k z => z = edge_count succ k /\ forall d n, (d < k)%nat -> n ∈ succ d -> d ∈ dep n)); [split; [done|lia]|]|].
  - intros d z Hdc [-> Hall]. rewrite (view_nodes _ _ _ Hu Hlen) by done. msimpl.
    eapply yields_impl; [|eapply yields_weaken; [|by apply check_users_spec]].
    + intros z' [-> Hd']. split; [done|]. intros d' n Hlt. destruct (decide (d' = d)) as [->|]; [apply Hd'|apply Hall; lia].
    + intros e [[-> (n & Hn & Hnot)]|[-> ?]]; [|by right]. intros [_ Hrev]. apply Hnot, (Hrev n d); [|done|done].
      by apply (view_range _ _ _ Hu Hlen d).
  - intros actual [-> Hsub]. case_decide as Heq; cbn.
    + split; [done|]. by apply reverse_by_count.
    + intros [_ Hrev]. by apply Heq, reverse_by_count.
Qed.
End reverse_users.

(** ** Rows borrowed from a larger graph *)

Section mapped.
Context (dependencies value_dependencies : MappedGraphRows) (tokens_by_node : MappedNodeRows) (token_weights : list Z).
Context (successors value_users : MappedGraphRows).

Definition view_row (g : MappedGraphRows) : nat -> list nat :=
  mapped_row_at (mg_rows g) (external_by_local g) (local_by_external g).
Definition token_row (n : nat) : list nat := default [] (node_row tokens_by_node n).

(** A view its constructor built, over slices of machine size. *)
Definition built (g : MappedGraphRows) : Prop :=
  MappedGraphRows_new (mg_rows g) (external_by_local g) (local_by_external g) = Ok g /\
  Z.of_nat (length (external_by_local g)) <= usize_max.

Record mapped_views : Prop := {
  mv_weights : Forall (Z.le 0) token_weights;
  mv_dependencies : built dependencies;
  mv_values : built value_dependencies;
  mv_successors : built successors;
  mv_users : built value_users;
  mv_tokens : MappedNodeRows_new (mn_rows tokens_by_node) (mn_external_by_local tokens_by_node) = Ok tokens_by_node }.

Abbreviation count := (graph_len dependencies).
Abbreviation dep := (view_row dependencies).
Abbreviation val := (view_row value_dependencies).

(** The inputs the mapped entry point accepts. *)
Record valid_mapped : Prop := {
  vm_inputs : valid_inputs value_dependencies tokens_by_node token_weights dep val token_row count;
  vm_successors : graph_len successors = count /\ is_reverse (view_row successors) dep count;
  vm_users : graph_len value_users = count /\ is_reverse (view_row value_users) val count }.

(** No sum over nodes, tokens or edges exceeds a machine word. *)
Definition mapped_fits : Prop :=
  Z.of_nat count + 2 * zsum id token_weights <= i64_max /\
  edge_count dep count <= usize_max /\ edge_count (view_row successors) count <= usize_max /\
  edge_count val count <= usize_max /\ edge_count (view_row value_users) count <= usize_max.

Lemma built_laws g : built g -> GraphRowsLaws g (view_row g).
Proof. intros [Hnew Hlen]. destruct g as [rows ebl lbe]. apply MappedGraphRows_new_ok in Hnew as [_ Hok]. by apply mapped_laws. Qed.

Lemma token_row_ok : MappedNodeRows_new (mn_rows tokens_by_node) (mn_external_by_local tokens_by_node) = Ok tokens_by_node ->
  forall n, (n < node_len tokens_by_node)%nat -> node_row tokens_by_node n = Some (token_row n).
Proof.
  unfold MappedNodeRows_new. case_bool_decide as Hex; [done|]. intros _ n Hn. unfold token_row. cbn in *.
  in_range (mn_external_by_local tokens_by_node) n as e He. rewrite He. cbn.
  assert (Hlt : (e < length (mn_rows tokens_by_node))%nat).
  { apply not_le. intros Hle. apply Hex, Exists_exists. exists e. split; [by eapply list_elem_of_lookup_2|done]. }
  by in_range (mn_rows tokens_by_node) e as row ->.
Qed.

Definition mapped_error (e : DagScheduleError) : Prop :=
  match e with
  | ArithmeticOverflow => ~ mapped_fits
  | Cycle => valid_mapped /\ ~ exists l, topological count dep l
  | _ => ~ valid_mapped
  end.

Lemma mapped_dag_input token_users : mapped_views -> valid_mapped ->
  array (length token_weights) (users_of count token_row) token_users ->
  dag_input count token_weights dependencies value_dependencies tokens_by_node token_users successors value_users
    (DR dep val token_row (view_row successors) (view_row value_users) (users_of count token_row)).
Proof.
  intros [Hw Hd Hv Hs Hu Ht] [(Hvlen & Htlen & Hnodes) [Hsl Hsr] [Hul Hur]] Htu. split; cbn; try done; try by apply built_laws.
  - intros n Hn. apply token_row_ok; [done|]. by rewrite Htlen.
  - intros n Hn. apply sorted_NoDup. by apply (Hnodes n Hn).
  - intros n t Hn Hin. destruct (Hnodes n Hn) as [(_ & Hl & _) _]. rewrite Forall_forall in Hl. by apply Hl.
  - intros t _. apply users_of_NoDup.
  - intros t n _. apply elem_of_users_of.
  - intros n d Hn. by apply (Hnodes n Hn).
Qed.

Lemma schedule_mapped_spec : mapped_views ->
  yields mapped_error (fun order => valid_mapped /\ min_pressure_schedule count dep val token_row token_weights order)
    (schedule_min_live_values_and_tokens_with_mapped_rows dependencies value_dependencies tokens_by_node token_weights successors value_users).
Proof.
  intros Hviews. pose proof (built_laws _ (mv_dependencies Hviews)) as Ld. pose proof (built_laws _ (mv_values Hviews)) as Lv.
  pose proof (built_laws _ (mv_successors Hviews)) as Ls. pose proof (built_laws _ (mv_users Hviews)) as Lu.
  unfold schedule_min_live_values_and_tokens_with_mapped_rows.
  eapply yields_bind; [eapply yields_weaken; [|apply (validate_inputs_spec dependencies value_dependencies tokens_by_node token_weights
    dep val token_row count Ld eq_refl Lv (token_row_ok (mv_tokens Hviews)))]|].
  { intros e [[->|[->|[->| ->]]] Hn]; cbn; intros [? _ _]; done. }
  intros token_users [Hin Htu]. assert (Hvlen : graph_len value_dependencies = count) by apply Hin.
  eapply yields_bind; [eapply yields_weaken; [|apply (validate_reverse_users_spec successors dependencies _ dep count Ls Ld eq_refl)]|].
  { intros [] He; cbn [reverse_error mapped_error] in *; try done; [intros [_ ? _]; done..|]. unfold mapped_fits. lia. }
  intros [] Hsucc.
  eapply yields_bind; [eapply yields_weaken; [|apply (validate_reverse_users_spec value_users value_dependencies _ val count Lu Lv Hvlen)]|].
  { intros [] He; cbn [reverse_error mapped_error] in *; try done; [intros [_ _ ?]; done..|]. unfold mapped_fits. lia. }
  intros [] Husers. assert (Hvalid : valid_mapped) by (by split).
  eapply yields_weaken; [|eapply yields_impl; [|apply (schedule_with_users_spec _ _ _ _ _ _ _ _ _
    (mapped_dag_input token_users Hviews Hvalid Htu) mapped_fits)]].
  - intros e [[-> Hn]|[-> Hn]]; cbn; [done|]. by split.
  - intros order Ho. by split.
  - by intros [? _].
Qed.
End mapped.

(** ** Properties *)

Section properties.
Context (token_weights : list Z).

(** C31: [schedule_min_live_values_and_tokens] never panics. A returned order
    lists every node once, after the nodes it depends on, and each node is the
    one that keeps the fewest values and token weights live among the nodes
    whose users are all placed after it; the inputs were valid rows. [Cycle]
    is reported only when the inputs are valid and have no topological order,
    [ArithmeticOverflow] only when the number of nodes plus twice the sum of
    the token weights exceeds [isize::MAX] (the score of a node takes the
    weight of a token twice), any other error only for invalid rows. Below
    that bound an order is returned exactly when the rows are valid and
    acyclic. Token weights are not negative; they are [usize]. *)
Theorem schedule_min_live_values_and_tokens_correct (dependencies value_dependencies tokens_by_node : list (list nat)) :
  Forall (Z.le 0) token_weights ->
  let result := schedule_min_live_values_and_tokens dependencies value_dependencies tokens_by_node token_weights in
  let count := length dependencies in
  let valid := valid_local dependencies value_dependencies tokens_by_node token_weights in
  yields (local_error dependencies value_dependencies tokens_by_node token_weights)
    (fun order => valid /\ min_pressure_schedule count (row_at dependencies) (row_at value_dependencies)
       (row_at tokens_by_node) token_weights order) result /\
  (fits dependencies token_weights ->
    (exists order, result = Ok order) <-> valid /\ exists l, topological count (row_at dependencies) l).
Proof.
  cbn zeta. intros Hw. pose proof (schedule_local_spec dependencies value_dependencies tokens_by_node token_weights Hw) as Hs.
  split; [exact Hs|]. intros Hfits. destruct (schedule_min_live_values_and_tokens _ _ _ _) as [order|e|]; cbn in Hs; [| |done].
  - split; [|by eauto]. intros _. destruct Hs as [? [? _]]. by eauto.
  - split; [by intros [? ?]|]. intros [? ?]. destruct e; cbn in Hs; tauto.
Qed.

(** [schedule_min_live_values_and_tokens_with_mapped_rows], over views
    that their constructors built, never panics; it returns a topological
    order of least pressure of the mapped rows, [Cycle] only when there is no
    topological order, [ArithmeticOverflow] only beyond the word bounds, and
    any other error only when the rows disagree: different lengths, tokens
    out of range or unsorted, value edges outside the dependencies, or user
    rows that are not the exact reverse. Below the bounds it returns an order
    exactly when the rows agree and are acyclic. *)
Lemma schedule_with_mapped_rows_correct (dependencies value_dependencies : MappedGraphRows)
    (tokens_by_node : MappedNodeRows) (successors value_users : MappedGraphRows) :
  mapped_views dependencies value_dependencies tokens_by_node token_weights successors value_users ->
  let result := schedule_min_live_values_and_tokens_with_mapped_rows dependencies value_dependencies tokens_by_node
    token_weights successors value_users in
  let count := graph_len dependencies in
  let valid := valid_mapped dependencies value_dependencies tokens_by_node token_weights successors value_users in
  yields (mapped_error dependencies value_dependencies tokens_by_node token_weights successors value_users)
    (fun order => valid /\ min_pressure_schedule count (view_row dependencies) (view_row value_dependencies)
       (token_row tokens_by_node) token_weights order) result /\
  (mapped_fits dependencies value_dependencies token_weights successors value_users ->
    (exists order, result = Ok order) <-> valid /\ exists l, topological count (view_row dependencies) l).
Proof.
  cbn zeta. intros Hv. pose proof (schedule_mapped_spec _ _ _ _ _ _ Hv) as Hs.
  split; [exact Hs|]. intros Hfits.
  destruct (schedule_min_live_values_and_tokens_with_mapped_rows _ _ _ _ _ _) as [order|e|]; cbn in Hs; [| |done].
  - split; [|by eauto]. intros _. destruct Hs as [? [? _]]. by eauto.
  - split; [by intros [? ?]|]. intros [? ?]. destruct e; cbn in Hs; tauto.
Qed.
End properties.

Lemma schedule_min_live_values_and_tokens_correct_witness :
  let result := schedule_min_live_values_and_tokens [[]; []; [0]; [0; 1]]%nat [[]; []; [0]; [1]]%nat [[]; [0]; []; [0]]%nat [3] in
  result = Ok [0; 1; 3; 2]%nat /\
  ((exists order, result = Ok order) <->
    valid_local [[]; []; [0]; [0; 1]]%nat [[]; []; [0]; [1]]%nat [[]; [0]; []; [0]]%nat [3] /\
    exists l, topological 4 (row_at [[]; []; [0]; [0; 1]]%nat) l).
Proof.
  cbn zeta. split; [vm_compute; reflexivity|].
  apply (schedule_min_live_values_and_tokens_correct [3] [[]; []; [0]; [0; 1]]%nat [[]; []; [0]; [1]]%nat [[]; [0]; []; [0]]%nat).
  - repeat constructor; lia.
  - unfold fits. cbn. vm_compute. discriminate.
Defined.

(** Nodes 1, 2 and 4 of a larger graph. *)
Definition mapped_example (rows : list (list nat)) : MappedGraphRows :=
  MGR rows [1; 2; 4]%nat [usize_max; 0; 1; usize_max; 2].
Definition mapped_dependencies : MappedGraphRows := mapped_example [[]; [0]; [1]; []; [1; 2; 3]]%nat.
Definition mapped_users : MappedGraphRows := mapped_example [[1]; [2; 4]; [4]; [4]; []]%nat.
Definition mapped_tokens : MappedNodeRows := MNR [[]; [0]; []; []; [0]]%nat [1; 2; 4]%nat.

