(* ===== verification/StateLayout.v ===== *)
(** * StateLayout: the physical layout of simulation state

    Models [crates/celox-state-layout/src/lib.rs]: the construction of
    [MemoryLayout] from a [LayoutInput], the mapping of a logical bit to a
    byte, and the payload layout of runtime events. Offsets and sizes are
    [usize] (64 bits); the source adds and multiplies them with plain operators,
    and a sum that leaves the type is [Panic], as in a build with overflow
    checks. *)

From S2P Require Import Prelude Order.

(** ** Sizes and alignment *)

Definition RUNTIME_EVENT_CAPACITY : Z := 1024.
Definition STATE_HEADER_SIZE : Z := 32.
Definition RUNTIME_EVENT_HEADER_SIZE : Z := 8.
Definition RUNTIME_EVENT_SLOT_PAYLOAD_OFFSET : Z := 24.
Definition STABLE_REGION : Z := 0.
Definition WORKING_REGION : Z := 1.
Definition SPARSE_WORKING_REGION : Z := 2.

(** The operators [+], [-], [*], [/] and [%] of [usize]. *)
Definition usize_add {E} (a b : Z) : result E Z := expect (checked_add a b).
Definition usize_sub {E} (a b : Z) : result E Z := expect (checked_sub a b).
Definition usize_mul {E} (a b : Z) : result E Z := if decide (a * b <= usize_max) then Ok (a * b) else Panic.
Definition usize_div {E} (a b : Z) : result E Z := if decide (b = 0) then Panic else Ok (a / b).
Definition usize_rem {E} (a b : Z) : result E Z := if decide (b = 0) then Panic else Ok (a mod b).

Definition div_ceil (a b : Z) : Z := (a + b - 1) / b.

(** [(offset + alignment - 1) & !(alignment - 1)] *)
Definition align_up {E} (offset alignment : Z) : result E Z :=
  sum ← usize_add offset alignment;
  last ← usize_sub sum 1;
  mask ← usize_sub alignment 1;
  Ok (Z.land last (Z.lnot mask)).

Definition get_byte_size (width : Z) : Z := div_ceil width 8.

(** [usize::next_power_of_two], used here on 1..8. *)
Definition next_power_of_two (n : Z) : Z := 2 ^ Z.log2_up n.

Definition get_alignment (width : Z) : Z :=
  let size := get_byte_size width in
  if decide (size = 0) then 1 else if decide (size <= 8) then next_power_of_two size else 8.

(** ** Runtime events *)

Record RuntimeEventArgLayout : Type := REAL {
  value_word_offset : Z; mask_word_offset : Z; word_count : Z }.
Record RuntimeEventSiteLayout : Type := RESL {
  args : list RuntimeEventArgLayout; payload_words : Z }.

(** The argument loop of one site: the layouts and the final
    [payload_words]. A site is given by its [arg_widths], the only field
    the layout reads. *)
Fixpoint arg_loop {E} (payload_words : Z) (arg_widths : list Z) : result E (list RuntimeEventArgLayout * Z) :=
  match arg_widths with
  | [] => Ok ([], payload_words)
  | width :: rest =>
      let word_count := Z.max (div_ceil width 64) 1 in
      mask_word_offset ← usize_add payload_words word_count;
      next ← usize_add mask_word_offset word_count;
      '(ls, total) ← arg_loop next rest;
      Ok (REAL payload_words mask_word_offset word_count :: ls, total)
  end.

Definition site_layout {E} (arg_widths : list Z) : result E RuntimeEventSiteLayout :=
  '(ls, total) ← arg_loop 0 arg_widths; Ok (RESL ls total).

Definition build_runtime_event_site_layouts {E} (sites : list (list Z)) : result E (list RuntimeEventSiteLayout) :=
  mapMr site_layout sites.

(** ** The layout *)

Section layout.
Context {A : Type} `{Countable A} `{!Ord A}.

Record UnpackedArrayLayout : Type := UAL {
  element_width : Z; element_count : Z; element_stride : Z; array_plane_size : Z }.

Record StateObjectLayout : Type := SOL { so_address : A; so_width : Z; so_is_4state : bool }.

Record LayoutInput : Type := LIn {
  state_objects : list StateObjectLayout;
  working_addresses : list A;
  sparse_addresses : list A;
  in_unpacked_arrays : gmap A UnpackedArrayLayout;
  state_aliases : gmap A A;
  ff_referenced_addresses : gset A;
  num_events : Z;
  runtime_event_sites : list (list Z) }.

Record SparseWorkingLayout : Type := SWL {
  active_index : nat;
  chunk_count : Z;
  dirty_words_offset : Z;
  dirty_word_count : Z;
  summary_words_offset : Z;
  summary_word_count : Z }.

Record MemoryLayout : Type := ML {
  four_state : bool;
  offsets : gmap A Z;
  widths : gmap A Z;
  is_4states : gmap A bool;
  unpacked_arrays : gmap A UnpackedArrayLayout;
  total_size : Z;
  working_offsets : gmap A Z;
  working_base_offset : Z;
  sparse_offsets : gmap A Z;
  sparse_base_offset : Z;
  sparse_layouts : gmap A SparseWorkingLayout;
  sparse_active_bits_offset : Z;
  sparse_active_capacity : Z;
  merged_total_size : Z;
  triggered_bits_offset : Z;
  triggered_bits_total_size : Z;
  scratch_base_offset : Z;
  scratch_size : Z;
  runtime_event_capacity : Z;
  runtime_event_slot_size : Z;
  runtime_event_buffer_size : Z;
  runtime_event_site_layouts : list RuntimeEventSiteLayout }.

(** [PhysicalLayoutObject]: address, width, four-state, size, alignment. *)
Record PhysicalLayoutObject : Type := PLO {
  po_address : A; po_width : Z; po_is_4state : bool; po_size : Z; po_alignment : Z }.

Definition object_size (arrays : gmap A UnpackedArrayLayout) (a : A) (width : Z) : Z :=
  match arrays !! a with Some l => array_plane_size l | None => get_byte_size width end.
Definition object_alignment (arrays : gmap A UnpackedArrayLayout) (a : A) (width : Z) : Z :=
  match arrays !! a with Some l => Z.min (element_stride l) 8 | None => get_alignment width end.

(** [(Reverse(alignment), address)] *)
Definition object_key (o : PhysicalLayoutObject) : Z * A := (- po_alignment o, po_address o).
Definition sort_layout_objects (objects : list PhysicalLayoutObject) : list PhysicalLayoutObject :=
  sort_by_key object_key objects.

Definition stable_object (arrays : gmap A UnpackedArrayLayout) (o : StateObjectLayout) : PhysicalLayoutObject :=
  PLO (so_address o) (so_width o) (so_is_4state o)
    (object_size arrays (so_address o) (so_width o)) (object_alignment arrays (so_address o) (so_width o)).

(** The closure that looks an address up in [widths] and [is_4states]; a
    missing address panics. *)
Definition region_object {E} (arrays : gmap A UnpackedArrayLayout) (widths : gmap A Z)
    (is_4states : gmap A bool) (a : A) : result E PhysicalLayoutObject :=
  width ← expect (widths !! a);
  f ← expect (is_4states !! a);
  Ok (PLO a width f (object_size arrays a width) (object_alignment arrays a width)).

Definition planes (four_state : bool) : Z := if four_state then 2 else 1.

(** One object placed in the stable or working region. *)
Definition place {E} (four_state : bool) (st : Z * gmap A Z) (o : PhysicalLayoutObject) : result E (Z * gmap A Z) :=
  offset ← align_up st.1 (po_alignment o);
  next ← usize_add offset (po_size o);
  next ← (if four_state then usize_add next (po_size o) else Ok next);
  Ok (next, <[po_address o := offset]> st.2).

(** One object placed in the sparse region. *)
Definition place_sparse {E} (four_state : bool) (st : Z * gmap A Z) (o : PhysicalLayoutObject) : result E (Z * gmap A Z) :=
  offset ← align_up st.1 (po_alignment o);
  final_chunk_size ← align_up (po_size o) 8;
  other_planes ← usize_mul (planes four_state - 1) (po_size o);
  physical_extent ← usize_add other_planes final_chunk_size;
  extent ← align_up physical_extent 8;
  next ← usize_add offset extent;
  Ok (next, <[po_address o := offset]> st.2).

(** The metadata loop over [sparse_order]. *)
Definition sparse_metadata {E} (arrays : gmap A UnpackedArrayLayout) (widths : gmap A Z)
    (st : Z * gmap A SparseWorkingLayout) (ia : nat * A) : result E (Z * gmap A SparseWorkingLayout) :=
  chunk_count ←
    match arrays !! ia.2 with
    | Some l => Ok (div_ceil (array_plane_size l) 8)
    | None => width ← expect (widths !! ia.2); Ok (div_ceil width 64)
    end;
  let dirty_word_count := div_ceil chunk_count 64 in
  let summary_word_count := div_ceil dirty_word_count 64 in
  let dirty_words_offset := st.1 in
  dirty_bytes ← usize_mul dirty_word_count 8;
  summary_words_offset ← usize_add dirty_words_offset dirty_bytes;
  summary_bytes ← usize_mul summary_word_count 8;
  sparse_metadata_offset ← usize_add summary_words_offset summary_bytes;
  Ok (sparse_metadata_offset,
      <[ia.2 := SWL ia.1 chunk_count dirty_words_offset dirty_word_count summary_words_offset
                    summary_word_count]> st.2).

(** One pair of the alias loop. *)
Definition apply_alias (four_state : bool) (widths : gmap A Z) (is_4states : gmap A bool)
    (ff_referenced : gset A) (offsets : gmap A Z) (pair : A * A) : gmap A Z :=
  let '(alias, canonical) := pair in
  let fourstate_ok := negb four_state ||
    (bool_decide (is_4states !! alias = Some false) && bool_decide (is_4states !! canonical = Some false)) in
  let alias_fits :=
    match widths !! alias, widths !! canonical with
    | Some alias_width, Some canonical_width => alias_width <=? canonical_width
    | _, _ => false
    end in
  if fourstate_ok && alias_fits && negb (bool_decide (alias ∈ ff_referenced)) then
    match offsets !! canonical with
    | Some canonical_offset => <[alias := canonical_offset]> offsets
    | None => offsets
    end
  else offsets.

Definition max_payload (ls : list RuntimeEventSiteLayout) : Z := foldr Z.max 0 (payload_words <$> ls).

(** The three maps the stable loop fills. *)
Definition widths_of (objects : list PhysicalLayoutObject) : gmap A Z :=
  foldl (fun m o => <[po_address o := po_width o]> m) ∅ objects.
Definition four_states_of (objects : list PhysicalLayoutObject) : gmap A bool :=
  foldl (fun m o => <[po_address o := po_is_4state o]> m) ∅ objects.

(** [MemoryLayout::build], given the input the source provides. *)
Definition build {E} (input : LayoutInput) (four_state : bool) : result E MemoryLayout :=
  let arrays := in_unpacked_arrays input in
  let stable_objects := sort_layout_objects (stable_object arrays <$> state_objects input) in
  site_layouts ← build_runtime_event_site_layouts (runtime_event_sites input);
  payload_bytes ← usize_mul (max_payload site_layouts) 8;
  slot_size ← usize_add RUNTIME_EVENT_SLOT_PAYLOAD_OFFSET payload_bytes;
  '(current_offset, offsets) ← foldM (place four_state) (STATE_HEADER_SIZE, ∅) stable_objects;
  let widths := widths_of stable_objects in
  let is_4states := four_states_of stable_objects in
  working_objects ← mapMr (region_object arrays widths is_4states) (working_addresses input);
  '(working_size, working_offsets) ←
    foldM (place four_state) (0, ∅) (sort_layout_objects working_objects);
  sparse_objects ← mapMr (region_object arrays widths is_4states) (sparse_addresses input);
  '(sparse_size, sparse_offsets) ←
    foldM (place_sparse four_state) (0, ∅) (sort_layout_objects sparse_objects);
  working_base_offset ← align_up current_offset 8;
  working_end ← usize_add working_base_offset working_size;
  sparse_base_offset ← align_up working_end 8;
  sparse_end ← usize_add sparse_base_offset sparse_size;
  sparse_metadata_offset ← align_up sparse_end 8;
  let sparse_order := sort_by_key id (sparse_addresses input) in
  let sparse_active_capacity := Z.of_nat (length sparse_order) in
  '(sparse_metadata_offset, sparse_layouts) ←
    foldM (sparse_metadata arrays widths) (sparse_metadata_offset, ∅)
      (zip (seq 0 (length sparse_order)) sparse_order);
  sparse_active_bits_offset ← align_up sparse_metadata_offset 8;
  active_bytes ← usize_mul (div_ceil sparse_active_capacity 64) 8;
  sparse_metadata_offset ← usize_add sparse_active_bits_offset active_bytes;
  triggered_bits_offset ← align_up sparse_metadata_offset 8;
  let triggered_bits_total_size := div_ceil (num_events input) 8 in
  triggered_end ← usize_add triggered_bits_offset triggered_bits_total_size;
  scratch_base_offset ← align_up triggered_end 8;
  slot_bytes ← usize_mul RUNTIME_EVENT_CAPACITY slot_size;
  buffer_size ← usize_add RUNTIME_EVENT_HEADER_SIZE slot_bytes;
  let offsets :=
    foldl (apply_alias four_state widths is_4states (ff_referenced_addresses input)) offsets
      (sort_by_key id (map_to_list (state_aliases input))) in
  Ok (ML four_state offsets widths is_4states arrays current_offset working_offsets working_base_offset
         sparse_offsets sparse_base_offset sparse_layouts sparse_active_bits_offset sparse_active_capacity
         scratch_base_offset triggered_bits_offset triggered_bits_total_size scratch_base_offset 0
         RUNTIME_EVENT_CAPACITY slot_size buffer_size site_layouts).

Definition with_backend_scratch {E} (l : MemoryLayout) (scratch : Z) : result E MemoryLayout :=
  scratch_end ← usize_add (scratch_base_offset l) scratch;
  merged ← align_up scratch_end 8;
  Ok (ML (four_state l) (offsets l) (widths l) (is_4states l) (unpacked_arrays l) (total_size l)
     (working_offsets l) (working_base_offset l) (sparse_offsets l) (sparse_base_offset l)
     (sparse_layouts l) (sparse_active_bits_offset l) (sparse_active_capacity l) merged
     (triggered_bits_offset l) (triggered_bits_total_size l) (scratch_base_offset l) scratch
     (runtime_event_capacity l) (runtime_event_slot_size l) (runtime_event_buffer_size l)
     (runtime_event_site_layouts l)).

(** ** Addressing *)

Definition plane_size {E} (l : MemoryLayout) (a : A) : result E Z :=
  match unpacked_arrays l !! a with
  | Some array => Ok (array_plane_size array)
  | None => width ← expect (widths l !! a); Ok (get_byte_size width)
  end.

(** A [RegionedAddress] is its region and absolute address. *)
Definition region_base_offset {E} (l : MemoryLayout) (region : Z) (a : A) : result E Z :=
  if decide (region = STABLE_REGION) then expect (offsets l !! a)
  else if decide (region = SPARSE_WORKING_REGION) then
    o ← expect (sparse_offsets l !! a); usize_add (sparse_base_offset l) o
  else o ← expect (working_offsets l !! a); usize_add (working_base_offset l) o.

Definition map_static_bit_offset {E} (l : MemoryLayout) (a : A) (bit_offset : Z) : result E (Z * Z) :=
  match unpacked_arrays l !! a with
  | None => Ok (bit_offset / 8, bit_offset mod 8)
  | Some array =>
      element ← usize_div bit_offset (element_width array);
      intra_element ← usize_rem bit_offset (element_width array);
      bytes ← usize_mul element (element_stride array);
      byte ← usize_add bytes (intra_element / 8);
      Ok (byte, intra_element mod 8)
  end.

Definition i32_max : Z := 2^31 - 1.

Definition regioned_static_byte_and_intra {E} (l : MemoryLayout) (region : Z) (a : A) (bit_offset : Z)
    : result E (option (Z * Z)) :=
  base ← (if decide (region = STABLE_REGION) then Ok (default 0 (offsets l !! a))
          else if decide (region = SPARSE_WORKING_REGION) then usize_add (sparse_base_offset l) (default 0 (sparse_offsets l !! a))
          else usize_add (working_base_offset l) (default 0 (working_offsets l !! a)));
  '(byte, intra) ← map_static_bit_offset l a bit_offset;
  Ok (sum ← checked_add base byte;
      if decide (sum <= i32_max) then Some (sum, intra) else None).
End layout.
