(* ===== verification/StateLayoutFacts.v ===== *)
(** * StateLayoutFacts: the layout keeps every object's storage apart

    How much address space a layout needs, the placement loops as bump
    allocators that do not overflow within it, the alias loop, and the theorems
    on [build], on static addressing and on event payloads. *)

From S2P Require Import Prelude Specs Order StateLayout.

(** ** Operations that fit *)

(** [r] returns a value with [good], and panics only when [fits] fails. *)
Definition within {E A} (fits : Prop) (good : A -> Prop) (r : result E A) : Prop :=
  match r with Ok a => good a | Err _ => False | Panic => ~ fits end.

Section within.
Context {E : Type} (fits : Prop).
Implicit Types (a b x : Z).

Lemma within_bind {A B} (P : A -> Prop) (Q : B -> Prop) (r : result E A) (k : A -> result E B) :
  within fits P r -> (forall v, P v -> within fits Q (k v)) -> within fits Q (r ≫= k).
Proof. destruct r; cbn; auto. Qed.

Lemma within_value {A B} (v : A) (Q : B -> Prop) (r : result E A) (k : A -> result E B) :
  within fits (eq v) r -> within fits Q (k v) -> within fits Q (r ≫= k).
Proof. intros Hr Hk. eapply within_bind; [exact Hr|]. by intros ? <-. Qed.

Lemma within_impl {A} (P Q : A -> Prop) (r : result E A) : (forall v, P v -> Q v) -> within fits P r -> within fits Q r.
Proof. destruct r; cbn; auto. Qed.

(** A loop of steps that return the values of [g]. *)
Lemma within_foldM {A B} (I : A -> list B -> Prop) (g : A -> B -> A) (f : A -> B -> result E A) (l : list B) (v : A) : I v l ->
  (forall (v : A) (b : B) (l : list B), I v (b :: l) -> within fits (eq (g v b)) (f v b) /\ I (g v b) l) -> within fits (eq (foldl g v l)) (foldM f v l).
Proof.
  intros Hv Hf. revert v Hv. induction l as [|b l IH]; intros v Hv; cbn [foldl foldM]; [done|].
  destruct (Hf v b l Hv) as [Hb Hn]. eapply within_value; [exact Hb|]. by apply IH.
Qed.

Lemma usize_add_fits a b : (fits -> a + b <= usize_max) -> within fits (eq (a + b)) (usize_add (E:=E) a b).
Proof. intros Hf. unfold usize_add, checked_add. case_decide; cbn; [done|tauto]. Qed.
Lemma usize_sub_fits a b : b <= a -> within fits (eq (a - b)) (usize_sub (E:=E) a b).
Proof. intros Hf. unfold usize_sub, checked_sub. by rewrite decide_True. Qed.
Lemma usize_mul_fits a b : (fits -> a * b <= usize_max) -> within fits (eq (a * b)) (usize_mul (E:=E) a b).
Proof. intros Hf. unfold usize_mul. case_decide; cbn; [done|tauto]. Qed.

(** The value of [align_up]. *)
Definition aligned x a : Z := Z.land (x + a - 1) (Z.lnot (a - 1)).

Lemma align_up_fits x a : 0 <= x -> 1 <= a -> (fits -> x + a <= usize_max) -> within fits (eq (aligned x a)) (align_up (E:=E) x a).
Proof.
  intros Hx Ha Hf. unfold align_up. eapply within_value; [by apply usize_add_fits|].
  eapply within_value; [apply usize_sub_fits; lia|]. by eapply within_value; [by apply usize_sub_fits|].
Qed.
End within.

Lemma aligned_bounds x a : 1 <= a -> x <= aligned x a < x + a.
Proof.
  intros Ha. unfold aligned. set (s := x + a - 1). set (m := a - 1).
  assert (Z.land s (Z.lnot m) = s - Z.land s m) as ->.
  { rewrite <- Z.ldiff_land. pose proof (Z.lor_ldiff_and s m) as Hs.
    assert (s = Z.ldiff s m + Z.land s m) as Hadd; [|lia].
    rewrite <- Z.lor_ldiff_and at 1.
    symmetry. apply Z.add_nocarry_lor. apply Z.bits_inj'. intros i Hi.
    rewrite !Z.land_spec, Z.ldiff_spec, Z.bits_0. by destruct (Z.testbit s i), (Z.testbit m i). }
  assert (0 <= Z.land s m <= m); [|lia].
  split; [apply Z.land_nonneg; right; lia|].
  assert (Z.ldiff m s + Z.land s m = m) as Hm.
  { rewrite (Z.land_comm s m). rewrite Z.add_nocarry_lor.
    - apply Z.lor_ldiff_and.
    - apply Z.bits_inj'. intros i Hi.
      rewrite !Z.land_spec, Z.ldiff_spec, Z.bits_0. by destruct (Z.testbit s i), (Z.testbit m i). }
  assert (0 <= Z.ldiff m s); [|lia]. apply Z.ldiff_nonneg. left. lia.
Qed.

Lemma aligned_pow2 x k : 0 <= k -> aligned x (2^k) = 2^k * div_ceil x (2^k).
Proof.
  intros Hk. unfold aligned, div_ceil. rewrite <- Z.ldiff_land.
  replace (2 ^ k - 1) with (Z.ones k) by (rewrite Z.ones_equiv; lia).
  rewrite Z.ldiff_ones_r by done. rewrite Z.shiftr_div_pow2, Z.shiftl_mul_pow2 by done. lia.
Qed.

Lemma div_ceil_bounds x k : 0 < k -> k * div_ceil x k - k < x <= k * div_ceil x k.
Proof.
  intros Hk. unfold div_ceil.
  pose proof (Z.div_mod (x + k - 1) k ltac:(lia)). pose proof (Z.mod_pos_bound (x + k - 1) k Hk). lia.
Qed.

Lemma div_ceil_nonneg x k : 0 < k -> 0 <= x -> 0 <= div_ceil x k.
Proof. intros. apply Z.div_pos; lia. Qed.

Lemma div_ceil_mono x y k : 0 < k -> x <= y -> div_ceil x k <= div_ceil y k.
Proof. intros. apply Z.div_le_mono; lia. Qed.

(** To a power of two this is the least multiple not below the argument. *)
Lemma aligned_least (x a k : Z) (Hk : 0 <= k) (Ha : a = 2^k) :
  (a | aligned x a) /\ x <= aligned x a /\
  forall m, (a | m) -> x <= m -> aligned x a <= m.
Proof.
  subst a. assert (0 < 2^k) as Hp by lia.
  pose proof (div_ceil_bounds x (2^k) Hp). rewrite aligned_pow2 by done. split_and!.
  - by exists (div_ceil x (2^k)); lia.
  - lia.
  - intros m [q ->] Hle. destruct (decide (q < div_ceil x (2^k))); nia.
Qed.

Lemma aligned8_divides x : (8 | aligned x 8).
Proof. by destruct (aligned_least x 8 3 ltac:(lia) eq_refl). Qed.

Lemma zsum_pos {A} (f : A -> Z) (l : list A) : (forall a, a ∈ l -> 0 <= f a) -> 0 <= zsum f l.
Proof. induction l as [|a l IH]; intros Hf; cbn; [done|]. specialize (IH ltac:(intros; apply Hf; by right)). specialize (Hf a ltac:(by left)). lia. Qed.

Lemma zsum_fmap {A B} (f : B -> Z) (g : A -> B) (l : list A) : zsum f (g <$> l) = zsum (fun a => f (g a)) l.
Proof. induction l as [|a l IH]; csimpl; [done|]. by rewrite IH. Qed.

Lemma zsum_le {A} (f g : A -> Z) (l : list A) : (forall a, a ∈ l -> f a <= g a) -> zsum f l <= zsum g l.
Proof. induction l as [|a l IH]; intros Hf; cbn; [done|]. specialize (IH ltac:(intros; apply Hf; by right)). specialize (Hf a ltac:(by left)). lia. Qed.

Lemma get_byte_size_nonneg w : 0 <= w -> 0 <= get_byte_size w.
Proof. intros. by apply div_ceil_nonneg. Qed.

Lemma get_alignment_bounds w : 0 <= w -> 1 <= get_alignment w <= 8.
Proof.
  intros. unfold get_alignment. pose proof (get_byte_size_nonneg w ltac:(done)).
  repeat case_decide; try lia. unfold next_power_of_two. pose proof (Z.log2_up_nonneg (get_byte_size w)).
  assert (Z.log2_up (get_byte_size w) <= 3) by (change 3 with (Z.log2_up 8); by apply Z.log2_up_le_mono).
  assert (2 ^ Z.log2_up (get_byte_size w) <= 2^3) by (apply Z.pow_le_mono_r; lia).
  assert (0 < 2 ^ Z.log2_up (get_byte_size w)); lia.
Qed.

(** ** Bump allocation *)

Section bump.
Context {A : Type} `{Countable A} `{!Ord A}.
Abbreviation plo := (@PhysicalLayoutObject A).
Implicit Types (o : plo) (l : list plo) (m : gmap A Z).

(** Both placement loops: align, record the offset, advance by the extent. *)
Definition bump (extent : plo -> Z) (st : Z * gmap A Z) o : Z * gmap A Z :=
  (aligned st.1 (po_alignment o) + extent o, <[po_address o := aligned st.1 (po_alignment o)]> st.2).

Definition extent (fs : bool) o : Z := planes fs * po_size o.
Definition sparse_extent (fs : bool) o : Z :=
  aligned ((planes fs - 1) * po_size o + aligned (po_size o) 8) 8.

(** Alignments divide eight bytes in a layout; [pad] is room for a placement
    and its alignment. *)
Definition placeable (ext : plo -> Z) o : Prop := 1 <= po_alignment o <= 8 /\ 0 <= po_size o /\ 0 <= ext o.
Definition padded (ext : plo -> Z) o : Z := ext o + 16.

Lemma bump_fits {E} fits (ext : plo -> Z) (step : Z * gmap A Z -> plo -> result E (Z * gmap A Z)) l start m : 0 <= start ->
  (forall o, o ∈ l -> placeable ext o) -> (fits -> start + zsum (padded ext) l <= usize_max) ->
  (forall st o, placeable ext o -> 0 <= st.1 -> (fits -> st.1 + padded ext o <= usize_max) -> within fits (eq (bump ext st o)) (step st o)) ->
  within fits (eq (foldl (bump ext) (start, m) l)) (foldM step (start, m) l).
Proof.
  intros Hstart Hl Hfits Hstep.
  apply (within_foldM fits (fun (st : Z * gmap A Z) l => 0 <= st.1 /\ (forall o, o ∈ l -> placeable ext o) /\ (fits -> st.1 + zsum (padded ext) l <= usize_max))); [done|].
  intros st o k (Hst & Hk & Hf). destruct (Hk o) as (Hal & Hsz & Hext); [by left|]. cbn [zsum] in Hf.
  assert (0 <= zsum (padded ext) k) as Hrest by (apply zsum_pos; intros x Hx; destruct (Hk x) as (? & ? & ?); [by right|]; unfold padded; lia).
  pose proof (aligned_bounds st.1 (po_alignment o) ltac:(lia)). split; [|split_and!].
  - apply Hstep; [done|done|]. intros Hfit. specialize (Hf Hfit). lia.
  - cbn. lia.
  - intros x Hx. apply Hk. by right.
  - intros Hfit. specialize (Hf Hfit). unfold padded in Hf |- *. cbn. lia.
Qed.

Lemma place_fits {E} fits fs st o : placeable (extent fs) o -> 0 <= st.1 -> (fits -> st.1 + padded (extent fs) o <= usize_max) ->
  within fits (eq (bump (extent fs) st o)) (place (E:=E) fs st o).
Proof.
  intros (Hal & Hsz & _) Hst Hf. pose proof (aligned_bounds st.1 (po_alignment o) ltac:(lia)). unfold place, bump.
  unfold padded, extent, planes in *. eapply within_value; [apply align_up_fits; [lia|lia|]; intros Hfit; specialize (Hf Hfit); destruct fs; lia|].
  eapply within_value; [apply usize_add_fits; intros Hfit; specialize (Hf Hfit); destruct fs; lia|].
  destruct fs; cbn [within]; [eapply within_value; [apply usize_add_fits; intros Hfit; specialize (Hf Hfit); lia|]|]; cbn; f_equal; lia.
Qed.

Lemma place_sparse_fits {E} fits fs st o : placeable (sparse_extent fs) o -> 0 <= st.1 -> (fits -> st.1 + padded (sparse_extent fs) o <= usize_max) ->
  within fits (eq (bump (sparse_extent fs) st o)) (place_sparse (E:=E) fs st o).
Proof.
  intros (Hal & Hsz & _) Hst Hf. unfold place_sparse, bump. unfold padded, sparse_extent in *.
  assert (0 <= (planes fs - 1) * po_size o) by (destruct fs; cbn; lia). set (other := (planes fs - 1) * po_size o) in *.
  pose proof (aligned_bounds st.1 (po_alignment o) ltac:(lia)). pose proof (aligned_bounds (po_size o) 8 ltac:(lia)). pose proof (aligned_bounds (other + aligned (po_size o) 8) 8 ltac:(lia)).
  eapply within_value; [apply align_up_fits; [lia|lia|]; intros Hfit; specialize (Hf Hfit); lia|].
  eapply within_value; [apply align_up_fits; [lia|lia|]; intros Hfit; specialize (Hf Hfit); lia|].
  eapply within_value; [apply usize_mul_fits; intros Hfit; specialize (Hf Hfit); fold other; lia|]. fold other.
  eapply within_value; [apply usize_add_fits; intros Hfit; specialize (Hf Hfit); lia|].
  eapply within_value; [apply align_up_fits; [lia|lia|]; intros Hfit; specialize (Hf Hfit); lia|].
  by eapply within_value; [apply usize_add_fits; intros Hfit; specialize (Hf Hfit); lia|].
Qed.

Lemma bump_total (ext : plo -> Z) l start m : (forall o, o ∈ l -> placeable ext o) ->
  (foldl (bump ext) (start, m) l).1 <= start + zsum (padded ext) l.
Proof.
  revert start m. induction l as [|o l IH]; intros start m Hl; cbn [foldl zsum]; [cbn; lia|].
  destruct (Hl o) as (Hal & _ & Hext); [by left|]. pose proof (aligned_bounds start (po_alignment o) ltac:(lia)).
  specialize (IH (aligned start (po_alignment o) + ext o) (<[po_address o := aligned start (po_alignment o)]> m) ltac:(intros; apply Hl; by right)).
  unfold bump at 2. cbn [fst snd]. unfold padded at 1. lia.
Qed.

(** The storage of [o] when it is placed at [off]. *)
Definition placed_in (ext : plo -> Z) (lo hi : Z) m o : Prop :=
  exists off, m !! po_address o = Some off /\ lo <= off /\ off + ext o <= hi /\
    exists x, off = aligned x (po_alignment o).

Definition apart (ext : plo -> Z) m o o' : Prop :=
  forall off off', m !! po_address o = Some off -> m !! po_address o' = Some off' ->
    off + ext o <= off' \/ off' + ext o' <= off.

Lemma bump_spec (ext : plo -> Z) l start m :
  (forall o, o ∈ l -> 1 <= po_alignment o /\ 0 <= ext o) -> NoDup (po_address <$> l) ->
  let r := foldl (bump ext) (start, m) l in
  start <= r.1 /\
  (forall o, o ∈ l -> placed_in ext start r.1 r.2 o) /\
  (forall o o', o ∈ l -> o' ∈ l -> po_address o <> po_address o' -> apart ext r.2 o o') /\
  (forall a, a ∉ po_address <$> l -> r.2 !! a = m !! a).
Proof.
  revert start m. induction l as [|o l IH]; intros start m Hv Hnd; cbn [foldl].
  { simpl. split_and!; [lia|by intros ? ?%not_elem_of_nil|by intros ? ? ?%not_elem_of_nil|done]. }
  csimpl in Hnd. apply NoDup_cons in Hnd as [Ho Hnd]. destruct (Hv o) as [Hal Hext]; [set_solver|].
  pose proof (aligned_bounds start (po_alignment o) Hal) as Hb.
  set (off := aligned start (po_alignment o)) in *.
  specialize (IH (off + ext o) (<[po_address o := off]> m) ltac:(intros; apply Hv; set_solver) Hnd).
  change (bump ext (start, m) o) with (off + ext o, <[po_address o := off]> m).
  destruct (foldl (bump ext) _ l) as [fin m']. cbn [fst snd] in *.
  destruct IH as (Hle & Hin & Hap & Hother).
  assert (Hhead : m' !! po_address o = Some off) by (rewrite Hother by done; by rewrite lookup_insert_eq).
  split_and!; [lia| | |].
  - intros x [->|Hx]%elem_of_cons; [exists off; split_and!; [done|lia..|by exists start]|].
    destruct (Hin x Hx) as (off' & ? & ? & ? & ?). exists off'. split_and!; [done|lia|lia|done].
  - assert (Hfst : forall x, x ∈ l -> apart ext m' o x).
    { intros x Hx off1 off2 H1 H2. destruct (Hin x Hx) as (off' & ? & ? & _). left. simplify_eq. lia. }
    intros x y [->|Hx]%elem_of_cons [->|Hy]%elem_of_cons Hne; [done|by apply Hfst| |by apply Hap].
    intros off1 off2 H1 H2. destruct (Hfst x Hx off2 off1 H2 H1); auto.
  - intros a Ha. csimpl in Ha. apply not_elem_of_cons in Ha as [Ha Hal']. rewrite Hother by done.
    by rewrite lookup_insert_ne.
Qed.

Lemma foldl_ext_eq {B C} (f g : B -> C -> B) b (l : list C) : (forall b c, f b c = g b c) -> foldl f b l = foldl g b l.
Proof. intros Hfg. revert b. induction l as [|c l IH]; intros b; simpl; [done|]. by rewrite Hfg, IH. Qed.

(** Maps filled object by object. *)
Lemma lookup_foldl_insert {B} (f : plo -> B) l (m : gmap A B) o :
  NoDup (po_address <$> l) -> o ∈ l ->
  foldl (fun (m : gmap A B) o => <[po_address o := f o]> m) m l !! po_address o = Some (f o).
Proof.
  assert (Hout : forall l (m : gmap A B) a, a ∉ po_address <$> l ->
    foldl (fun (m : gmap A B) o => <[po_address o := f o]> m) m l !! a = m !! a).
  { clear. induction l as [|x l IH]; intros m a Ha; simpl; [done|].
    csimpl in Ha. apply not_elem_of_cons in Ha as [? ?]. rewrite IH by done. by rewrite lookup_insert_ne. }
  revert m. induction l as [|x l IH]; intros m Hnd Ho; [by apply not_elem_of_nil in Ho|].
  csimpl in Hnd. apply NoDup_cons in Hnd as [Hx Hnd]. cbn [foldl].
  apply elem_of_cons in Ho as [->|Ho]; [|by apply IH]. rewrite Hout by done. by rewrite lookup_insert_eq.
Qed.

Lemma lookup_foldl_insert_inv {B} (f : plo -> B) l a b :
  foldl (fun (m : gmap A B) o => <[po_address o := f o]> m) ∅ l !! a = Some b ->
  exists o, o ∈ l /\ po_address o = a /\ f o = b.
Proof.
  assert (Hgen : forall m : gmap A B, foldl (fun (m : gmap A B) o => <[po_address o := f o]> m) m l !! a = Some b ->
    m !! a = Some b \/ exists o, o ∈ l /\ po_address o = a /\ f o = b).
  { induction l as [|x l IH]; intros m; simpl; [by left|]. intros [Hm|(o & ? & ?)]%IH.
    - apply lookup_insert_Some in Hm as [[<- <-]|[_ ?]]; [right; exists x; set_solver|by left].
    - right. exists o. set_solver. }
  intros [?|?]%Hgen; [by rewrite lookup_empty in *|done].
Qed.
End bump.

(** ** Valid inputs *)

Section build.
Context {A : Type} `{Countable A} `{!Ord A}.
Abbreviation plo := (@PhysicalLayoutObject A).
Abbreviation input := (@LayoutInput A _ _).
Abbreviation layout := (@MemoryLayout A _ _).
Implicit Types (i : input) (L : layout) (a b : A) (fs : bool).

Definition addresses i : list A := so_address <$> state_objects i.

(** What layout sources provide: distinct objects, regions over declared
    objects, and non-negative sizes ([usize]) with strides of at least a byte. *)
Record valid_input i : Prop := {
  vi_nodup : NoDup (addresses i);
  vi_widths o : o ∈ state_objects i -> 0 <= so_width o;
  vi_working : NoDup (working_addresses i) /\ forall a, a ∈ working_addresses i -> a ∈ addresses i;
  vi_sparse : NoDup (sparse_addresses i) /\ forall a, a ∈ sparse_addresses i -> a ∈ addresses i;
  vi_arrays a l : in_unpacked_arrays i !! a = Some l -> 1 <= element_stride l /\ 0 <= array_plane_size l;
  vi_events : 0 <= num_events i /\ Forall (Forall (Z.le 0)) (runtime_event_sites i) }.

Definition stable_objects i : list plo :=
  sort_layout_objects (stable_object (in_unpacked_arrays i) <$> state_objects i).

Lemma stable_addresses i : po_address <$> stable_objects i ≡ₚ addresses i.
Proof.
  unfold stable_objects, sort_layout_objects, addresses. rewrite sort_by_key_permutation.
  by rewrite <- list_fmap_compose.
Qed.

Lemma elem_of_stable i x :
  x ∈ stable_objects i <-> exists o, o ∈ state_objects i /\ x = stable_object (in_unpacked_arrays i) o.
Proof.
  unfold stable_objects, sort_layout_objects. rewrite elem_of_sort_by_key, list_elem_of_fmap. naive_solver.
Qed.

Lemma object_valid i a w :
  valid_input i -> 0 <= w ->
  1 <= object_alignment (in_unpacked_arrays i) a w <= 8 /\ 0 <= object_size (in_unpacked_arrays i) a w.
Proof.
  intros Hv Hw. unfold object_alignment, object_size. destruct (_ !! a) eqn:E.
  - apply (vi_arrays _ Hv) in E. lia.
  - split; [by apply get_alignment_bounds|by apply get_byte_size_nonneg].
Qed.

Lemma planes_pos fs : 1 <= planes fs <= 2.
Proof. destruct fs; simpl; lia. Qed.

Lemma extent_nonneg fs (o : plo) : 0 <= po_size o -> 0 <= extent fs o.
Proof. intros. unfold extent. pose proof (planes_pos fs). nia. Qed.

Lemma sparse_extent_bounds fs (o : plo) : 0 <= po_size o -> extent fs o <= sparse_extent fs o <= extent fs o + 14.
Proof.
  intros. unfold extent, sparse_extent. pose proof (planes_pos fs).
  pose proof (aligned_bounds (po_size o) 8 ltac:(lia)).
  pose proof (aligned_bounds ((planes fs - 1) * po_size o + aligned (po_size o) 8) 8 ltac:(lia)). nia.
Qed.

Lemma stable_valid i x : valid_input i -> x ∈ stable_objects i -> 1 <= po_alignment x <= 8 /\ 0 <= po_size x.
Proof.
  intros Hv (o & Ho & ->)%elem_of_stable. by apply object_valid, (vi_widths _ Hv).
Qed.

(** The width and four-state maps of the declared objects. *)
Definition width_map i : gmap A Z := widths_of (stable_objects i).
Definition four_map i : gmap A bool := four_states_of (stable_objects i).

Lemma width_map_spec i a w :
  valid_input i -> width_map i !! a = Some w <->
  exists o, o ∈ state_objects i /\ so_address o = a /\ so_width o = w.
Proof.
  intros Hv. unfold width_map, widths_of. split.
  - intros (x & (o & Ho & ->)%elem_of_stable & <- & <-)%lookup_foldl_insert_inv. by exists o.
  - intros (o & Ho & <- & <-).
    apply (lookup_foldl_insert po_width _ _ (stable_object (in_unpacked_arrays i) o)).
    + rewrite stable_addresses. apply Hv.
    + apply elem_of_stable. eauto.
Qed.

Lemma width_map_is_Some i a : valid_input i -> is_Some (width_map i !! a) <-> a ∈ addresses i.
Proof.
  intros Hv. unfold addresses. rewrite list_elem_of_fmap. split.
  - intros [w (o & ? & ? & _)%width_map_spec]; eauto.
  - intros (o & -> & Ho). exists (so_width o). apply width_map_spec; eauto.
Qed.

Lemma width_map_nonneg i a w : valid_input i -> width_map i !! a = Some w -> 0 <= w.
Proof. intros Hv (o & Ho & _ & <-)%width_map_spec; [|done]. by apply (vi_widths _ Hv). Qed.

Lemma four_map_is_Some i a : valid_input i -> a ∈ addresses i -> is_Some (four_map i !! a).
Proof.
  intros Hv (o & -> & Ho)%list_elem_of_fmap. unfold four_map, four_states_of. eexists.
  apply (lookup_foldl_insert po_is_4state _ _ (stable_object (in_unpacked_arrays i) o)).
  - rewrite stable_addresses. apply Hv.
  - apply elem_of_stable. eauto.
Qed.

(** The size of one plane of an object, of all its planes, and its alignment. *)
Definition plane_extent i a : Z := object_size (in_unpacked_arrays i) a (default 0 (width_map i !! a)).
Definition object_extent fs i a : Z := planes fs * plane_extent i a.
Definition object_align i a : Z := object_alignment (in_unpacked_arrays i) a (default 0 (width_map i !! a)).

Lemma stable_extent fs i x : valid_input i -> x ∈ stable_objects i ->
  extent fs x = object_extent fs i (po_address x) /\ po_alignment x = object_align i (po_address x).
Proof.
  intros Hv (o & Ho & ->)%elem_of_stable. unfold extent, object_extent, plane_extent, object_align. simpl.
  rewrite (proj2 (width_map_spec i (so_address o) (so_width o) Hv)) by eauto. done.
Qed.

Lemma plane_extent_nonneg i a : valid_input i -> 0 <= plane_extent i a.
Proof.
  intros Hv. apply (object_valid i a _ Hv). destruct (width_map i !! a) as [w|] eqn:Hw; cbn; [|lia].
  apply (width_map_spec i a w Hv) in Hw as (o & Ho & _ & <-). by apply (vi_widths _ Hv).
Qed.

Lemma object_extent_nonneg fs i a : valid_input i -> 0 <= object_extent fs i a.
Proof. intros Hv. pose proof (plane_extent_nonneg i a Hv). pose proof (planes_pos fs). unfold object_extent. nia. Qed.

(** ** Address space *)

Definition site_words (arg_widths : list Z) : Z := zsum (fun width => 2 * Z.max (div_ceil width 64) 1) arg_widths.

(** Room for every region: each object with its planes and padding, the
    metadata of sparse objects, a bit for every event. *)
Definition state_demand fs i : Z :=
  STATE_HEADER_SIZE + zsum (fun a => object_extent fs i a + 16) (addresses i) +
  zsum (fun a => object_extent fs i a + 16) (working_addresses i) +
  zsum (fun a => 2 * object_extent fs i a + 72) (sparse_addresses i) + num_events i + 64.

(** Room for the buffer of runtime events, with slots for the largest site. *)
Definition event_demand (arg_widths : list Z) : Z :=
  RUNTIME_EVENT_HEADER_SIZE + RUNTIME_EVENT_CAPACITY * (RUNTIME_EVENT_SLOT_PAYLOAD_OFFSET + 8 * site_words arg_widths).

Definition fits_usize fs i : Prop := state_demand fs i <= usize_max /\ forall site, site ∈ runtime_event_sites i -> event_demand site <= usize_max.

(** The objects of a working or sparse region. *)
Definition region_obj i a : plo :=
  let w := default 0 (width_map i !! a) in
  PLO a w (default false (four_map i !! a)) (object_size (in_unpacked_arrays i) a w)
    (object_alignment (in_unpacked_arrays i) a w).

Lemma region_objects_spec {E} i l :
  valid_input i -> (forall a, a ∈ l -> a ∈ addresses i) ->
  mapMr (@region_object A _ _ E (in_unpacked_arrays i) (width_map i) (four_map i)) l = Ok (region_obj i <$> l).
Proof.
  intros Hv. induction l as [|a l IH]; intros Hl; [done|].
  destruct (proj2 (width_map_is_Some i a Hv)) as [w Hw]; [set_solver|].
  destruct (four_map_is_Some i a Hv) as [f Hf]; [set_solver|].
  cbn [mapMr]. assert (@region_object A _ _ E (in_unpacked_arrays i) (width_map i) (four_map i) a =
    Ok (region_obj i a)) as -> by (unfold region_object, region_obj; by rewrite Hw, Hf).
  msimpl. by rewrite IH by set_solver.
Qed.


Lemma region_obj_valid fs i a :
  valid_input i -> a ∈ addresses i ->
  1 <= po_alignment (region_obj i a) <= 8 /\ 0 <= po_size (region_obj i a) /\ extent fs (region_obj i a) = object_extent fs i a.
Proof.
  intros Hv Ha. destruct (proj2 (width_map_is_Some i a Hv) Ha) as [w Hw].
  pose proof (object_valid i a w Hv (width_map_nonneg _ _ _ Hv Hw)).
  unfold extent, object_extent, plane_extent, region_obj. simpl. rewrite Hw. simpl. split_and!; [lia..|done].
Qed.

(** ** The alias loop *)

Definition alias_pair i a b : Prop := state_aliases i !! a = Some b.

(** Every address reads the home of its owner. *)
Record owned fs i (home offs : gmap A Z) (owner : A -> A) : Prop := {
  ow_home a : a ∈ addresses i -> is_Some (home !! a);
  ow_offset a : a ∈ addresses i -> owner a ∈ addresses i /\ offs !! a = home !! owner a;
  ow_out a : a ∉ addresses i -> offs !! a = None;
  ow_alias a : owner a = a \/
    (rtc (alias_pair i) a (owner a) /\ is_Some (state_aliases i !! a) /\ (a ∉ ff_referenced_addresses i) /\
     (exists w w', width_map i !! a = Some w /\ width_map i !! owner a = Some w' /\ w <= w') /\
     (fs = true -> four_map i !! a = Some false /\ four_map i !! owner a = Some false)) }.

Lemma owned_width fs i home offs owner a w :
  valid_input i -> owned fs i home offs owner -> width_map i !! a = Some w ->
  exists w', width_map i !! owner a = Some w' /\ w <= w'.
Proof.
  intros Hv How Hw. destruct (ow_alias _ _ _ _ _ How a) as [->|(_ & _ & _ & (w1 & w2 & ? & ? & ?) & _)];
    [by exists w|]. simplify_eq. by exists w2.
Qed.

(** The requests that [build] honours: no flip-flop references the alias, the
    canonical object is as wide, and with four states both are two-state. *)
Record accepted fs i a b : Prop := {
  ac_pair : alias_pair i a b;
  ac_ff : a ∉ ff_referenced_addresses i;
  ac_width : exists w w', width_map i !! a = Some w /\ width_map i !! b = Some w' /\ w <= w';
  ac_four : fs = true -> four_map i !! a = Some false /\ four_map i !! b = Some false }.

(** One pair either is accepted and moves [a] to where [b] is, or changes
    nothing. *)
Lemma apply_alias_cases fs i home offs owner a b : valid_input i -> alias_pair i a b -> owned fs i home offs owner ->
  let offs' := apply_alias fs (width_map i) (four_map i) (ff_referenced_addresses i) offs (a, b) in
  (accepted fs i a b /\ exists off, offs !! b = Some off /\ offs' = <[a := off]> offs) \/ (~ accepted fs i a b /\ offs' = offs).
Proof.
  intros Hv Hab How. unfold apply_alias. destruct (negb fs || _) eqn:Ef; cycle 1.
  { right. split; [|done]. intros [_ _ _ Hfour]. apply orb_false_iff in Ef as [Hfs%negb_false_iff Ef]. destruct (Hfour Hfs) as [Hfa Hfb]. by rewrite !bool_decide_eq_true_2 in Ef by done. }
  assert (Hfour : fs = true -> four_map i !! a = Some false /\ four_map i !! b = Some false).
  { intros ->. apply andb_true_iff in Ef as [?%bool_decide_eq_true ?%bool_decide_eq_true]. done. }
  destruct (width_map i !! a) as [wa|] eqn:Ea; cycle 1; [right; split; [|done]; intros [_ _ (? & ? & ? & _) _]; congruence|].
  destruct (width_map i !! b) as [wb|] eqn:Eb; cycle 1; [right; split; [|done]; intros [_ _ (? & ? & _ & ? & _) _]; congruence|].
  destruct (wa <=? wb) eqn:Ew; cycle 1; [right; split; [|done]; apply Z.leb_gt in Ew; intros [_ _ (? & ? & ? & ? & ?) _]; simplify_eq; lia|].
  apply Z.leb_le in Ew. cbn [andb]. destruct (decide (a ∈ ff_referenced_addresses i)) as [Hff|Hff]; [rewrite (bool_decide_eq_true_2 _ Hff)|rewrite (bool_decide_eq_false_2 _ Hff)]; cbn [negb andb]; [right; split; [|done]; by intros [_ ? _ _]|].
  assert (Hb : b ∈ addresses i) by (apply (width_map_is_Some i b Hv); eauto).
  assert (Hoff : is_Some (offs !! b)) by (destruct (ow_offset _ _ _ _ _ How b Hb) as [? ->]; by apply (ow_home _ _ _ _ _ How)).
  destruct Hoff as [off Hoff]. rewrite Hoff. left. split; [|eauto]. by split; [| |exists wa, wb|].
Qed.

(** Moving [a] keeps every address at the home of an owner. *)
Lemma move_owned fs i home offs owner a b off : valid_input i -> accepted fs i a b -> offs !! b = Some off -> owned fs i home offs owner ->
  owned fs i home (<[a := off]> offs) (fun x => if decide (x = a) then owner b else owner x).
Proof.
  intros Hv [Hab Hff (wa & wb & Ea & Eb & Ew) Hfour] Eo How.
  assert (Hina : a ∈ addresses i) by (apply (width_map_is_Some i a Hv); eauto).
  assert (Hinb : b ∈ addresses i) by (apply (width_map_is_Some i b Hv); eauto).
  destruct (ow_offset _ _ _ _ _ How b Hinb) as [Hownb Hoffb]. split.
  - apply (ow_home _ _ _ _ _ How).
  - intros x Hx. destruct (decide (x = a)) as [->|].
    + split; [done|]. rewrite lookup_insert_eq. congruence.
    + rewrite lookup_insert_ne by done. by apply (ow_offset _ _ _ _ _ How).
  - intros x Hx. rewrite lookup_insert_ne by (intros ->; done). by apply (ow_out _ _ _ _ _ How).
  - intros x. destruct (decide (x = a)) as [->|]; [right|apply (ow_alias _ _ _ _ _ How)].
    destruct (owned_width _ _ _ _ _ b wb Hv How Eb) as (wo & Hwo & Hle).
    split_and!; [| |done| |].
    + destruct (ow_alias _ _ _ _ _ How b) as [->|(Hr & _)]; [by apply rtc_once|]. by eapply rtc_l.
    + by eexists.
    + exists wa, wo. split_and!; [done..|lia].
    + intros Hfs. destruct (Hfour Hfs) as [? Hfb]. split; [done|].
      destruct (ow_alias _ _ _ _ _ How b) as [->|(_ & _ & _ & _ & Ho)]; [done|]. by apply Ho.
Qed.

#[local] Instance ord_lt_dec (x y : A) : Decision (x ≺ y).
Proof. unfold ord_lt. apply _. Defined.

(** The owners after the requests of the addresses [ks]: an accepted alias
    has the owner that its canonical object had at that time. *)
Record resolved fs i (ks : list A) (owner : A -> A) : Prop := {
  rs_accepted a b : a ∈ ks -> accepted fs i a b -> owner a = if decide (b ≺ a) then owner b else b;
  rs_rejected a : (forall b, ~ accepted fs i a b) -> owner a = a;
  rs_later a : a ∉ ks -> owner a = a }.

Lemma resolved_move fs i ks owner a b : resolved fs i ks owner -> (forall k, k ∈ ks -> k ≺ a) -> a ∉ ks -> accepted fs i a b ->
  resolved fs i (ks ++ [a]) (fun x => if decide (x = a) then owner b else owner x).
Proof.
  intros [Hacc Hrej Hlat] Hks Ha Hab.
  split.
  - intros x y [Hx| ->%list_elem_of_singleton]%elem_of_app Hxy.
    + rewrite decide_False by (intros ->; done). rewrite (Hacc x y Hx Hxy). destruct (decide (y ≺ x)) as [Hb|]; [|done].
      rewrite decide_False; [done|]. intros ->. apply (proj2 Hb). apply ord_lt_le. by apply Hks.
    + assert (y = b) as -> by (destruct Hxy, Hab; unfold alias_pair in *; congruence). rewrite decide_True by done. destruct (decide (b ≺ a)) as [Hb|Hb].
      * rewrite decide_False; [done|]. intros ->. by destruct Hb.
      * apply Hlat. intros Hin. by apply Hb, Hks.
  - intros x Hx. destruct (decide (x = a)) as [->|]; [by destruct (Hx b)|by apply Hrej].
  - intros x [Hx Hxa]%not_elem_of_app. rewrite decide_False by set_solver. by apply Hlat.
Qed.

Lemma resolved_skip fs i ks owner a b : resolved fs i ks owner -> alias_pair i a b -> ~ accepted fs i a b -> resolved fs i (ks ++ [a]) owner.
Proof.
  intros [Hacc Hrej Hlat] Hab Hn. split; [|done|].
  - intros x y [Hx| ->%list_elem_of_singleton]%elem_of_app Hxy; [by apply Hacc|]. assert (y = b) as -> by (destruct Hxy; unfold alias_pair in *; congruence). done.
  - intros x [Hx _]%not_elem_of_app. by apply Hlat.
Qed.

Lemma aliases_resolved fs i home l ks offs owner : valid_input i -> owned fs i home offs owner -> resolved fs i ks owner ->
  (forall a b, (a, b) ∈ l -> alias_pair i a b) -> StronglySorted ord_lt l.*1 -> (forall k a, k ∈ ks -> a ∈ l.*1 -> k ≺ a) ->
  exists owner', owned fs i home (foldl (apply_alias fs (width_map i) (four_map i) (ff_referenced_addresses i)) offs l) owner' /\ resolved fs i (ks ++ l.*1) owner'.
Proof.
  intros Hv. revert ks offs owner. induction l as [|[a b] l IH]; intros ks offs owner How Hrs Hl Hs Hks; cbn [foldl].
  { exists owner. csimpl. by rewrite app_nil_r. }
  csimpl in Hs. csimpl in Hks. apply StronglySorted_inv in Hs as [Hs Ha]. rewrite Forall_forall in Ha.
  assert (Hab : alias_pair i a b) by (apply Hl; by left). assert (Hka : forall k, k ∈ ks -> k ≺ a) by (intros; apply Hks; [done|by left]).
  assert (Hnext : forall k a', k ∈ ks ++ [a] -> a' ∈ l.*1 -> k ≺ a').
  { intros k a' [Hk| ->%list_elem_of_singleton]%elem_of_app Ha'; [apply Hks; [done|by right]|by apply Ha]. }
  assert (Hnew : a ∉ ks) by (intros [? Hn]%Hka; by apply Hn). change (ks ++ ((a, b) :: l).*1) with (ks ++ [a] ++ l.*1). rewrite app_assoc.
  destruct (apply_alias_cases fs i home offs owner a b Hv Hab How) as [(Hacc & off & Hoff & ->)|(Hrej & ->)].
  - apply (IH (ks ++ [a]) _ (fun x => if decide (x = a) then owner b else owner x)); [by apply move_owned|by apply resolved_move|intros; apply Hl; by right|done|done].
  - apply (IH (ks ++ [a]) _ owner); [done|by apply (resolved_skip fs i ks owner a b)|intros; apply Hl; by right|done|done].
Qed.

Lemma resolved_none fs i : resolved fs i [] id.
Proof. split; [by intros a b ?%not_elem_of_nil|done..]. Qed.

(** The requests, in the order of the loop. *)
Lemma requests_sorted i : StronglySorted ord_lt (sort_by_key id (map_to_list (state_aliases i))).*1.
Proof.
  assert (Hnd : NoDup (sort_by_key id (map_to_list (state_aliases i))).*1) by (rewrite sort_by_key_permutation; apply NoDup_fst_map_to_list).
  pose proof (sort_by_key_sorted id (map_to_list (state_aliases i))) as Hs. revert Hnd Hs.
  generalize (sort_by_key id (map_to_list (state_aliases i))). induction l as [|x l IH]; csimpl; [constructor|].
  intros [Hx Hnd]%NoDup_cons [Hs Hl]%StronglySorted_inv. constructor; [by apply IH|]. rewrite Forall_forall in Hl. rewrite Forall_forall.
  intros a (y & -> & Hy)%list_elem_of_fmap. specialize (Hl y Hy). apply fst_le in Hl. split; [exact Hl|]. intros Hyx. apply Hx.
  assert (x.1 = y.1) as -> by by apply (anti_symm ord_le). apply list_elem_of_fmap. eauto.
Qed.

Lemma requests_elem i a b : (a, b) ∈ sort_by_key id (map_to_list (state_aliases i)) <-> alias_pair i a b.
Proof. rewrite elem_of_sort_by_key. apply elem_of_map_to_list. Qed.

(** ** Sparse metadata *)

(** The dirty and summary words of one sparse object: whole words from [lo]
    to [hi] with a bit for every chunk and for every dirty word. *)
Record metadata_ok i (lo hi : Z) (k : nat) a (s : SparseWorkingLayout) : Prop := {
  md_index : active_index s = k;
  md_lo : lo <= dirty_words_offset s;
  md_summary : summary_words_offset s = dirty_words_offset s + 8 * dirty_word_count s;
  md_hi : summary_words_offset s + 8 * summary_word_count s <= hi;
  md_aligned : (8 | dirty_words_offset s) /\ (8 | summary_words_offset s);
  md_chunks : plane_extent i a <= 8 * chunk_count s;
  md_dirty : 0 <= chunk_count s <= 64 * dirty_word_count s;
  md_words : 0 <= dirty_word_count s <= 64 * summary_word_count s }.

Definition metadata_end (s : SparseWorkingLayout) : Z := summary_words_offset s + 8 * summary_word_count s.
Definition metadata_room i a : Z := plane_extent i a + 32.

Lemma sparse_metadata_fits {E} fits i st k a :
  valid_input i -> a ∈ addresses i -> 0 <= st.1 -> (8 | st.1) -> (fits -> st.1 + metadata_room i a <= usize_max) ->
  within fits (fun r => exists s, r = (metadata_end s, <[a := s]> st.2) /\ metadata_ok i st.1 (metadata_end s) k a s /\
      st.1 <= metadata_end s <= st.1 + metadata_room i a /\ (8 | metadata_end s))
    (@sparse_metadata A _ _ E (in_unpacked_arrays i) (width_map i) st (k, a)).
Proof.
  intros Hv Ha Hst Hdiv Hf. destruct (proj2 (width_map_is_Some i a Hv) Ha) as [w Hw].
  pose proof (width_map_nonneg _ _ _ Hv Hw).
  assert (exists c, 0 <= c /\ plane_extent i a <= 8 * c <= plane_extent i a + 7 /\
    (match in_unpacked_arrays i !! a with
     | Some l => Ok (div_ceil (array_plane_size l) 8)
     | None => w ← expect (width_map i !! a); Ok (div_ceil w 64)
     end) = (Ok c : result E Z)) as (c & Hc & Hcov & Heq).
  { unfold plane_extent, object_size. destruct (in_unpacked_arrays i !! a) as [l|] eqn:El.
    - exists (div_ceil (array_plane_size l) 8). apply (vi_arrays _ Hv) in El as [_ ?].
      split; [by apply div_ceil_nonneg|]. split; [|done].
      pose proof (div_ceil_bounds (array_plane_size l) 8 ltac:(lia)). lia.
    - rewrite Hw. exists (div_ceil w 64). split; [by apply div_ceil_nonneg|]. split; [|done].
      pose proof (div_ceil_bounds w 64 ltac:(lia)). pose proof (div_ceil_bounds w 8 ltac:(lia)).
      unfold get_byte_size. cbn. lia. }
  unfold sparse_metadata. cbn [fst snd]. rewrite Heq. msimpl.
  pose proof (div_ceil_bounds c 64 ltac:(lia)). pose proof (div_ceil_nonneg c 64 ltac:(lia) Hc).
  pose proof (div_ceil_bounds (div_ceil c 64) 64 ltac:(lia)). unfold metadata_room in *.
  eapply within_value; [apply usize_mul_fits; intros Hfit; specialize (Hf Hfit); lia|].
  eapply within_value; [apply usize_add_fits; intros Hfit; specialize (Hf Hfit); lia|].
  eapply within_value; [apply usize_mul_fits; intros Hfit; specialize (Hf Hfit); lia|].
  eapply within_value; [apply usize_add_fits; intros Hfit; specialize (Hf Hfit); lia|].
  cbn [within]. eexists (SWL k c st.1 (div_ceil c 64) _ (div_ceil (div_ceil c 64) 64)). unfold metadata_end. cbn [summary_words_offset summary_word_count].
  split; [f_equal; lia|]. split; [|split; [lia|]].
  - split; cbn; [done|lia|lia|lia| |lia|lia|lia]. split; [done|]. by apply Z.divide_add_r, Z.divide_factor_r.
  - apply Z.divide_add_r; [|apply Z.divide_factor_l]. by apply Z.divide_add_r, Z.divide_factor_r.
Qed.

Definition metadata_apart (s s' : SparseWorkingLayout) : Prop :=
  metadata_end s <= dirty_words_offset s' \/ metadata_end s' <= dirty_words_offset s.

Lemma metadata_weaken i lo hi lo' hi' k a s :
  lo' <= lo -> hi <= hi' -> metadata_ok i lo hi k a s -> metadata_ok i lo' hi' k a s.
Proof. intros ? ? []. split; lia || done. Qed.

Lemma metadata_fold {E} fits i (l : list (nat * A)) start m :
  valid_input i -> (forall k a, (k, a) ∈ l -> a ∈ addresses i) -> NoDup l.*2 -> 0 <= start -> (8 | start) ->
  (fits -> start + zsum (metadata_room i) l.*2 <= usize_max) ->
  within fits (fun r => start <= r.1 <= start + zsum (metadata_room i) l.*2 /\
    (forall k a, (k, a) ∈ l -> exists s, r.2 !! a = Some s /\ metadata_ok i start r.1 k a s) /\
    (forall a, a ∉ l.*2 -> r.2 !! a = m !! a) /\
    (forall k a k' a' s s', (k, a) ∈ l -> (k', a') ∈ l -> a <> a' -> r.2 !! a = Some s -> r.2 !! a' = Some s' ->
       metadata_apart s s'))
    (foldM (@sparse_metadata A _ _ E (in_unpacked_arrays i) (width_map i)) (start, m) l).
Proof.
  intros Hv. revert start m. induction l as [|[k a] l IH]; intros start m Hl Hnd Hstart Hdiv Hf.
  { cbn. split_and!; [lia|lia|by intros k a ?%not_elem_of_nil|done|]. by intros k a k' a' s s' ?%not_elem_of_nil. }
  csimpl in Hnd. apply NoDup_cons in Hnd as [Ha Hnd]. csimpl in Hf. cbn [zsum] in Hf.
  assert (0 <= zsum (metadata_room i) l.*2) as Hpos by (apply zsum_pos; intros x _; unfold metadata_room; pose proof (plane_extent_nonneg i x Hv); lia).
  cbn [foldM]. eapply within_bind.
  { apply (sparse_metadata_fits fits i (start, m) k a Hv); [by apply (Hl k); left|done|done|]. intros Hfit. specialize (Hf Hfit). cbn. lia. }
  intros r (s & -> & Hok & Hmid & Hdiv'). cbn [fst snd] in *. set (mid := metadata_end s) in *.
  eapply within_impl; [|apply (IH mid (<[a := s]> m)); [set_solver|done|lia|done|intros Hfit; specialize (Hf Hfit); lia]].
  intros [fin m'] (Hle & Hin & Hout & Hap). cbn [fst snd] in *.
  assert (Hm' : m' !! a = Some s) by (rewrite Hout by done; by rewrite lookup_insert_eq).
  csimpl. cbn [zsum]. split_and!; [lia|lia| | |].
  - intros k' a' [[= -> ->]|Hin']%elem_of_cons.
    + exists s. split; [done|]. eapply metadata_weaken; [..|exact Hok]; lia.
    + destruct (Hin k' a' Hin') as (s' & ? & ?). exists s'. split; [done|].
      eapply metadata_weaken; [..|done]; lia.
  - intros x Hx. apply not_elem_of_cons in Hx as [? ?]. rewrite Hout by done.
    by rewrite lookup_insert_ne.
  - assert (Hhead : forall k' a' s', (k', a') ∈ l -> m' !! a' = Some s' -> metadata_apart s s').
    { intros k' a' s' Hin' Hs'. destruct (Hin k' a' Hin') as (s2 & ? & [_ ? _ _ _ _ _ _]). simplify_eq.
      left. done. }
    intros x1 a1 x2 a2 s1 s2 [[= -> ->]|H1]%elem_of_cons [[= -> ->]|H2]%elem_of_cons Hne Hs1 Hs2; [done|..].
    + assert (s1 = s) as -> by congruence. apply (Hhead x2 a2 s2 H2 Hs2).
    + assert (s2 = s) as -> by congruence. destruct (Hhead x1 a1 s1 H1 Hs1); [by right|by left].
    + apply (Hap x1 a1 x2 a2 s1 s2 H1 H2 Hne Hs1 Hs2).
Qed.

(** ** Regions *)

(** The objects [l] of a region at [offs] lie in [lo, hi), each at a multiple
    of its alignment when that is a power of two, pairwise apart. *)
Record region_ok fs i (offs : gmap A Z) (l : list A) (lo hi : Z) : Prop := {
  ro_inside a : a ∈ l -> exists off, offs !! a = Some off /\ lo <= off /\ off + object_extent fs i a <= hi /\
    forall k, 0 <= k -> object_align i a = 2^k -> (object_align i a | off);
  ro_apart a b off off' : a ∈ l -> b ∈ l -> a <> b -> offs !! a = Some off -> offs !! b = Some off' ->
    off + object_extent fs i a <= off' \/ off' + object_extent fs i b <= off }.

Lemma bump_region fs i (ext : plo -> Z) (os : list plo) start :
  (forall x, x ∈ os -> placeable ext x /\ object_extent fs i (po_address x) <= ext x /\ po_alignment x = object_align i (po_address x)) ->
  NoDup (po_address <$> os) ->
  let r := foldl (bump ext) (start, ∅) os in
  start <= r.1 /\ region_ok fs i r.2 (po_address <$> os) start r.1 /\
  (forall a, a ∉ po_address <$> os -> r.2 !! a = None).
Proof.
  intros Hv Hnd r. destruct (bump_spec ext os start ∅) as (Hle & Hin & Hap & Hout); [|done|].
  { intros x Hx. destruct (Hv x Hx) as ((? & ? & ?) & ? & ?). lia. }
  fold r in Hle, Hin, Hap, Hout. split; [done|]. split; [split|].
  - intros a (x & -> & Hx)%list_elem_of_fmap. destruct (Hin x Hx) as (off & ? & ? & ? & y & ->).
    destruct (Hv x Hx) as (? & ? & Hal). eexists. split_and!; [done|done|lia|]. intros k Hk Hpow. rewrite Hal. by apply (aligned_least y _ k).
  - intros a b off off' (x & -> & Hx)%list_elem_of_fmap (y & -> & Hy)%list_elem_of_fmap Hne Ha Hb.
    destruct (Hv x Hx) as (? & ? & ?), (Hv y Hy) as (? & ? & ?).
    destruct (Hap x y Hx Hy Hne off off' Ha Hb); lia.
  - intros a Ha. rewrite Hout by done. apply lookup_empty.
Qed.

Lemma region_ok_permutation fs i offs l l' lo hi :
  l ≡ₚ l' -> region_ok fs i offs l lo hi -> region_ok fs i offs l' lo hi.
Proof.
  intros Hp [H1 H2]. split.
  - intros a Ha. apply H1. by rewrite Hp.
  - intros a b off off' Ha Hb. apply H2; by rewrite Hp.
Qed.

(** The stable region: sorted and placed after the header. *)
Lemma stable_region {E} fits fs i : valid_input i ->
  (fits -> STATE_HEADER_SIZE + zsum (fun a => object_extent fs i a + 16) (addresses i) <= usize_max) ->
  within fits (fun r => STATE_HEADER_SIZE <= r.1 <= STATE_HEADER_SIZE + zsum (fun a => object_extent fs i a + 16) (addresses i) /\
      region_ok fs i r.2 (addresses i) STATE_HEADER_SIZE r.1 /\ forall a, a ∉ addresses i -> r.2 !! a = None)
    (foldM (place (E:=E) fs) (STATE_HEADER_SIZE, ∅) (stable_objects i)).
Proof.
  intros Hv Hf. assert (Hplace : forall x, x ∈ stable_objects i -> placeable (extent fs) x /\ object_extent fs i (po_address x) <= extent fs x /\ po_alignment x = object_align i (po_address x)).
  { intros x Hx. destruct (stable_extent fs i x Hv Hx) as [He Hal]. destruct (stable_valid i x Hv Hx) as [? Hs]. pose proof (extent_nonneg fs x Hs). split_and!; [done|lia|done]. }
  assert (Hsum : zsum (padded (extent fs)) (stable_objects i) = zsum (fun a => object_extent fs i a + 16) (addresses i)).
  { rewrite <- (zsum_perm _ _ _ (stable_addresses i)), zsum_fmap. apply zsum_ext. intros x Hx. unfold padded. by destruct (stable_extent fs i x Hv Hx) as [-> _]. }
  rewrite <- Hsum in Hf |- *. eapply within_impl; [|apply (bump_fits fits (extent fs)); [done|by intros x [? _]%Hplace|done|intros; by apply place_fits]].
  intros r <-. pose proof (bump_total (extent fs) (stable_objects i) STATE_HEADER_SIZE ∅ ltac:(by intros x [? _]%Hplace)).
  destruct (bump_region fs i (extent fs) (stable_objects i) STATE_HEADER_SIZE Hplace) as (? & Hreg & Hout); [rewrite stable_addresses; apply Hv|].
  split; [done|]. split; [by apply (region_ok_permutation _ _ _ _ _ _ _ (stable_addresses i))|]. intros a Ha. apply Hout. by rewrite stable_addresses.
Qed.

(** A working or sparse region, sorted and placed; [slack] bounds what a
    placement adds to the planes. *)
Lemma placed_region {E} fits fs i (ext : plo -> Z) (slack : Z) (step : Z * gmap A Z -> plo -> result E (Z * gmap A Z)) l :
  valid_input i -> NoDup l -> (forall a, a ∈ l -> a ∈ addresses i) ->
  (forall st o, placeable ext o -> 0 <= st.1 -> (fits -> st.1 + padded ext o <= usize_max) -> within fits (eq (bump ext st o)) (step st o)) ->
  (forall x, 0 <= po_size x -> extent fs x <= ext x <= extent fs x + slack) ->
  (fits -> zsum (fun a => object_extent fs i a + (slack + 16)) l <= usize_max) ->
  within fits (fun r => 0 <= r.1 <= zsum (fun a => object_extent fs i a + (slack + 16)) l /\ region_ok fs i r.2 l 0 r.1)
    (foldM step (0, ∅) (sort_layout_objects (region_obj i <$> l))).
Proof.
  intros Hv Hnd Hl Hstep Hext Hf. unfold sort_layout_objects. set (os := sort_by_key object_key (region_obj i <$> l)).
  assert (Hperm : po_address <$> os ≡ₚ l).
  { unfold os. rewrite sort_by_key_permutation, <- list_fmap_compose. apply reflexive_eq, list_fmap_id. }
  assert (Hplace : forall x, x ∈ os -> placeable ext x /\ object_extent fs i (po_address x) <= ext x /\ po_alignment x = object_align i (po_address x)).
  { intros x Hx. unfold os in Hx. rewrite elem_of_sort_by_key in Hx. apply list_elem_of_fmap in Hx as (a & -> & Ha).
    destruct (region_obj_valid fs i a Hv (Hl a Ha)) as (? & Hs & Heq). specialize (Hext (region_obj i a) Hs). pose proof (extent_nonneg fs (region_obj i a) Hs).
    change (po_address (region_obj i a)) with a. split_and!; [split_and!; [lia..|done|lia]|lia|done]. }
  assert (Hsum : zsum (padded ext) os <= zsum (fun a => object_extent fs i a + (slack + 16)) l).
  { rewrite (zsum_perm _ os (region_obj i <$> l)) by apply sort_by_key_permutation. rewrite zsum_fmap. apply zsum_le. intros a Ha.
    destruct (region_obj_valid fs i a Hv (Hl a Ha)) as (? & Hs & Heq). specialize (Hext (region_obj i a) Hs). unfold padded. lia. }
  eapply within_impl; [|apply (bump_fits fits ext); [done|by intros x [? _]%Hplace|intros Hfit; specialize (Hf Hfit); lia|done]].
  intros r <-. pose proof (bump_total ext os 0 ∅ ltac:(by intros x [? _]%Hplace)).
  destruct (bump_region fs i ext os 0 Hplace) as (? & Hreg & _); [by rewrite Hperm|].
  split; [lia|]. by eapply region_ok_permutation.
Qed.

(** ** Event payloads *)

Definition arg_words (l : RuntimeEventArgLayout) : list Z :=
  seqZ (value_word_offset l) (word_count l) ++ seqZ (mask_word_offset l) (word_count l).

(** Payloads are tightly packed: each argument gets a value and a mask area
    of at least one word that hold its bits, and the areas of all arguments,
    in order, are exactly the words of the payload. *)
Record site_ok (arg_widths : list Z) (s : RuntimeEventSiteLayout) : Prop := {
  st_words : payload_words s = site_words arg_widths;
  st_tiles : concat (arg_words <$> args s) = seqZ 0 (payload_words s);
  st_args : Forall2 (fun width al => width <= 64 * word_count al /\ 1 <= word_count al) arg_widths (args s) }.

Lemma site_words_nonneg l : 0 <= site_words l.
Proof. apply zsum_pos. intros. lia. Qed.

Lemma arg_loop_fits {E} fits start (l : list Z) : 0 <= start -> (fits -> start + site_words l <= usize_max) ->
  within fits (fun r => r.2 = start + site_words l /\ concat (arg_words <$> r.1) = seqZ start (site_words l) /\
    Forall2 (fun width al => width <= 64 * word_count al /\ 1 <= word_count al) l r.1) (arg_loop (E:=E) start l).
Proof.
  revert start. induction l as [|w l IH]; intros start Hs Hf; cbn [arg_loop].
  { cbn. split_and!; [lia|done|constructor]. }
  unfold site_words in *. cbn [zsum] in *. pose proof (site_words_nonneg l) as Hrest. unfold site_words in Hrest. pose proof (div_ceil_bounds w 64 ltac:(lia)). set (n := Z.max (div_ceil w 64) 1) in *.
  eapply within_value; [apply usize_add_fits; intros Hfit; specialize (Hf Hfit); lia|].
  eapply within_value; [apply usize_add_fits; intros Hfit; specialize (Hf Hfit); lia|].
  eapply within_bind; [apply IH; [lia|intros Hfit; specialize (Hf Hfit); lia]|].
  intros [ls total] (Hle & Hcat & Hall). cbn [within fst snd] in *. split_and!; [lia| |].
  - csimpl. rewrite Hcat. unfold arg_words. cbn [value_word_offset mask_word_offset word_count].
    replace (2 * n + zsum _ l) with (n + (n + zsum (fun width => 2 * Z.max (div_ceil width 64) 1) l)) by lia.
    rewrite seqZ_app, seqZ_app by lia. by rewrite <- app_assoc.
  - constructor; [|done]. simpl. lia.
Qed.

Lemma site_layouts_fits {E} fits (sites : list (list Z)) : (fits -> forall s, s ∈ sites -> event_demand s <= usize_max) ->
  within fits (Forall2 site_ok sites) (build_runtime_event_site_layouts (E:=E) sites).
Proof.
  unfold build_runtime_event_site_layouts. induction sites as [|w sites IH]; intros Hf; cbn [mapMr]; [constructor|].
  eapply within_bind.
  { unfold site_layout. eapply within_bind; [apply (arg_loop_fits fits 0 w); [done|]|].
    - intros Hfit. specialize (Hf Hfit w ltac:(by left)). unfold event_demand, RUNTIME_EVENT_HEADER_SIZE, RUNTIME_EVENT_CAPACITY, RUNTIME_EVENT_SLOT_PAYLOAD_OFFSET in Hf. pose proof (site_words_nonneg w). lia.
    - intros [ls total] (Ht & Hc & Ha). cbn [fst snd within] in *. instantiate (1 := site_ok w). cbn in *. subst total. by split. }
  intros s Hs. eapply within_bind; [apply IH; intros Hfit x Hx; apply (Hf Hfit); by right|]. intros ls Hls. by constructor.
Qed.

Lemma max_payload_spec (ls : list RuntimeEventSiteLayout) : 0 <= max_payload ls /\ (forall s, s ∈ ls -> payload_words s <= max_payload ls) /\
  (max_payload ls = 0 \/ exists s, s ∈ ls /\ max_payload ls = payload_words s).
Proof.
  unfold max_payload. induction ls as [|x ls (H1 & H2 & H3)]; csimpl; [split_and!; [done|by intros s ?%not_elem_of_nil|by left]|].
  split_and!; [lia| |].
  - intros s [->|Hs]%elem_of_cons; [lia|]. specialize (H2 s Hs). lia.
  - destruct (Z.max_spec (payload_words x) (foldr Z.max 0 (payload_words <$> ls))) as [[_ ->]|[_ ->]]; [|right; exists x; split; [by left|done]].
    destruct H3 as [?|(s & ? & ?)]; [by left|]. right. exists s. split; [by right|done].
Qed.

(** ** The layout that [build] returns *)

(** How the regions follow one another, and what each holds. *)
Record regions_ok fs i L : Prop := {
  rg_working_base : STATE_HEADER_SIZE <= total_size L <= working_base_offset L;
  rg_working : exists working_size, working_base_offset L + working_size <= sparse_base_offset L /\
    region_ok fs i (working_offsets L) (working_addresses i) 0 working_size;
  rg_sparse : exists sparse_size metadata, sparse_base_offset L + sparse_size <= metadata /\ (8 | metadata) /\
    metadata <= sparse_active_bits_offset L /\
    region_ok fs i (sparse_offsets L) (sparse_addresses i) 0 sparse_size /\
    (forall a, a ∈ sparse_addresses i -> exists k s, (k < length (sparse_addresses i))%nat /\
       sparse_layouts L !! a = Some s /\ metadata_ok i metadata (sparse_active_bits_offset L) k a s) /\
    (forall a b s s', a ∈ sparse_addresses i -> b ∈ sparse_addresses i -> a <> b ->
       sparse_layouts L !! a = Some s -> sparse_layouts L !! b = Some s' -> metadata_apart s s');
  rg_active : sparse_active_capacity L = Z.of_nat (length (sparse_addresses i)) /\
    8 * sparse_active_bits_offset L + sparse_active_capacity L <= 8 * triggered_bits_offset L;
  rg_triggered : 8 * triggered_bits_offset L + num_events i <= 8 * scratch_base_offset L;
  rg_end : merged_total_size L = scratch_base_offset L;
  rg_events : Forall2 site_ok (runtime_event_sites i) (runtime_event_site_layouts L) /\
    (forall s, s ∈ runtime_event_site_layouts L -> RUNTIME_EVENT_SLOT_PAYLOAD_OFFSET + 8 * payload_words s <= runtime_event_slot_size L) /\
    runtime_event_buffer_size L = RUNTIME_EVENT_HEADER_SIZE + RUNTIME_EVENT_CAPACITY * runtime_event_slot_size L;
  rg_aligned : (8 | working_base_offset L) /\ (8 | sparse_base_offset L) /\
    (8 | sparse_active_bits_offset L) /\ (8 | triggered_bits_offset L) /\ (8 | scratch_base_offset L) }.

(** Where aliasing leaves the declared objects: at the homes of their owners. *)
Definition homes_ok fs i L (home : gmap A Z) (owner : A -> A) : Prop :=
  region_ok fs i home (addresses i) STATE_HEADER_SIZE (total_size L) /\
  owned fs i home (offsets L) owner /\ resolved fs i (sort_by_key id (map_to_list (state_aliases i))).*1 owner.

(** The last bytes of the sparse region and its metadata. *)
Lemma sparse_room fs i (l : list A) : valid_input i ->
  zsum (fun a => object_extent fs i a + (14 + 16)) l + zsum (metadata_room i) l + 8 * Z.of_nat (length l) <= zsum (fun a => 2 * object_extent fs i a + 72) l.
Proof.
  intros Hv. induction l as [|a l IH]; cbn [zsum length]; [lia|]. unfold metadata_room at 1. pose proof (plane_extent_nonneg i a Hv). pose proof (planes_pos fs).
  assert (plane_extent i a <= object_extent fs i a) by (unfold object_extent; nia). lia.
Qed.

Lemma words_le n k : 1 < k -> 0 <= n -> 0 <= div_ceil n k <= n.
Proof. intros Hk Hn. split; [apply div_ceil_nonneg; lia|]. unfold div_ceil. apply Z.lt_succ_r, Z.div_lt_upper_bound; nia. Qed.

Lemma metadata_order i : let order := sort_by_key id (sparse_addresses i) in
  length order = length (sparse_addresses i) /\ (zip (seq 0 (length order)) order).*2 = order /\
  forall k a, (k, a) ∈ zip (seq 0 (length order)) order <-> order !! k = Some a.
Proof.
  intros order. split; [by apply Permutation_length, sort_by_key_permutation|]. split; [apply snd_zip; by rewrite length_seq|].
  intros k a. rewrite list_elem_of_lookup. split.
  - intros [j Hj]. apply lookup_zip_with_Some in Hj as (? & ? & [= <- <-] & [-> _]%lookup_seq & ?). done.
  - intros Ha. exists k. apply lookup_zip_with_Some. exists k, a. split_and!; [done| |done].
    apply lookup_seq. split; [lia|]. eauto with index.
Qed.

(** What the passes of [build] need of the address space. *)
Lemma demand_parts fs i : valid_input i -> fits_usize fs i ->
  let stable := zsum (fun a => object_extent fs i a + 16) (addresses i) in
  let working := zsum (fun a => object_extent fs i a + 16) (working_addresses i) in
  let sparse := zsum (fun a => object_extent fs i a + (14 + 16)) (sparse_addresses i) in
  let metadata := zsum (metadata_room i) (sparse_addresses i) in
  0 <= stable /\ 0 <= working /\ 0 <= sparse /\ 0 <= metadata /\
  STATE_HEADER_SIZE + stable + working + sparse + metadata + 8 * Z.of_nat (length (sparse_addresses i)) + num_events i + 64 <= usize_max.
Proof.
  intros Hv [Hd _]. pose proof (sparse_room fs i (sparse_addresses i) Hv). unfold state_demand in Hd. cbn zeta.
  assert (Hpos : forall (c : Z) l, 0 <= c -> 0 <= zsum (fun a => object_extent fs i a + c) l) by (intros c l Hc; apply zsum_pos; intros a _; pose proof (object_extent_nonneg fs i a Hv); lia).
  split_and!; [by apply Hpos..| |lia]. apply zsum_pos. intros a _. unfold metadata_room. pose proof (plane_extent_nonneg i a Hv). lia.
Qed.

Lemma build_spec {E} fs i : valid_input i ->
  within (fits_usize fs i) (fun L => regions_ok fs i L /\ (exists home owner, homes_ok fs i L home owner) /\
    unpacked_arrays L = in_unpacked_arrays i /\ widths L = width_map i /\ four_state L = fs) (@build A _ _ _ E i fs).
Proof.
  intros Hv. unfold build. fold (stable_objects i). fold (width_map i) (four_map i).
  destruct (vi_working _ Hv) as [Hndw Hinw], (vi_sparse _ Hv) as [Hnds Hins]. destruct (vi_events _ Hv) as [Hev _].
  pose proof (demand_parts fs i Hv) as Hd. cbn zeta in Hd. set (fits := fits_usize fs i) in *.
  set (sst := zsum (fun a => object_extent fs i a + 16) (addresses i)) in *. set (sw := zsum (fun a => object_extent fs i a + 16) (working_addresses i)) in *.
  set (ss := zsum (fun a => object_extent fs i a + (14 + 16)) (sparse_addresses i)) in *. set (sm := zsum (metadata_room i) (sparse_addresses i)) in *.
  set (cap := Z.of_nat (length (sparse_addresses i))) in *.
  eapply within_bind; [apply (site_layouts_fits fits); intros Hfit; apply Hfit|]. intros layouts Hlay.
  destruct (max_payload_spec layouts) as (Hmax0 & Hmax & Hmaxc).
  assert (Hpay : fits -> RUNTIME_EVENT_HEADER_SIZE + RUNTIME_EVENT_CAPACITY * (RUNTIME_EVENT_SLOT_PAYLOAD_OFFSET + max_payload layouts * 8) <= usize_max).
  { intros Hfit. destruct Hmaxc as [->|(s & Hs & ->)]; [done|]. apply list_elem_of_lookup in Hs as [k Hk]. destruct (Forall2_lookup_r _ _ _ _ _ Hlay Hk) as (site & Hsite & [-> _ _]).
    pose proof (proj2 Hfit site ltac:(by eapply list_elem_of_lookup_2)) as Hsite'. unfold event_demand in Hsite'. lia. }
  unfold RUNTIME_EVENT_HEADER_SIZE, RUNTIME_EVENT_CAPACITY, RUNTIME_EVENT_SLOT_PAYLOAD_OFFSET, STATE_HEADER_SIZE in *.
  eapply within_value; [apply usize_mul_fits; intros Hfit; specialize (Hpay Hfit); lia|].
  eapply within_value; [apply usize_add_fits; intros Hfit; specialize (Hpay Hfit); lia|].
  eapply within_bind; [apply (stable_region fits fs i Hv); intros Hfit; specialize (Hd Hfit); unfold STATE_HEADER_SIZE; lia|].
  intros [current home] (Hcur & Hreg0 & Hout0). unfold STATE_HEADER_SIZE in Hcur, Hreg0. cbn [fst snd] in *.
  rewrite (region_objects_spec i _ Hv Hinw). msimpl.
  eapply within_bind; [apply (placed_region fits fs i (extent fs) 0 (place fs) (working_addresses i) Hv Hndw Hinw (place_fits fits fs)); [intros; lia|intros Hfit; specialize (Hd Hfit); change (0 + 16) with 16; fold sw; lia]|].
  intros [wsize woffs] [Hw Hregw]. change (0 + 16) with 16 in Hw. fold sw in Hw. cbn [fst snd] in *.
  rewrite (region_objects_spec i _ Hv Hins). msimpl.
  eapply within_bind; [apply (placed_region fits fs i (sparse_extent fs) 14 (place_sparse fs) (sparse_addresses i) Hv Hnds Hins (place_sparse_fits fits fs)); [intros; by apply sparse_extent_bounds|intros Hfit; specialize (Hd Hfit); fold ss; lia]|].
  intros [ssize soffs] [Hs Hregs]. fold ss in Hs. cbn [fst snd] in *.
  destruct (metadata_order i) as (Hlen & Hzip & Hord). set (order := sort_by_key id (sparse_addresses i)) in *.
  assert (Hsum : zsum (metadata_room i) order = sm) by (apply zsum_perm, sort_by_key_permutation).
  pose proof (aligned_bounds current 8 ltac:(lia)). set (wbase := aligned current 8) in *.
  pose proof (aligned_bounds (wbase + wsize) 8 ltac:(lia)). set (sbase := aligned (wbase + wsize) 8) in *.
  pose proof (aligned_bounds (sbase + ssize) 8 ltac:(lia)). set (meta := aligned (sbase + ssize) 8) in *.
  pose proof (words_le cap 64 ltac:(lia) ltac:(lia)). pose proof (div_ceil_bounds cap 64 ltac:(lia)). pose proof (words_le (num_events i) 8 ltac:(lia) Hev). pose proof (div_ceil_bounds (num_events i) 8 ltac:(lia)).
  eapply within_value; [apply align_up_fits; [lia|lia|intros Hfit; specialize (Hd Hfit); lia]|]. fold wbase.
  eapply within_value; [apply usize_add_fits; intros Hfit; specialize (Hd Hfit); lia|].
  eapply within_value; [apply align_up_fits; [lia|lia|intros Hfit; specialize (Hd Hfit); lia]|]. fold sbase.
  eapply within_value; [apply usize_add_fits; intros Hfit; specialize (Hd Hfit); lia|].
  eapply within_value; [apply align_up_fits; [lia|lia|intros Hfit; specialize (Hd Hfit); lia]|]. fold meta.
  eapply within_bind.
  { apply (metadata_fold fits i (zip (seq 0 (length order)) order) meta ∅ Hv).
    - intros k a Hk%Hord%list_elem_of_lookup_2. apply Hins. by rewrite <- (elem_of_sort_by_key id).
    - rewrite Hzip. unfold order. by rewrite sort_by_key_permutation.
    - lia.
    - apply aligned8_divides.
    - rewrite Hzip, Hsum. intros Hfit. specialize (Hd Hfit). lia. }
  intros [fin slay] (Hfin & Hmeta & _ & Hmap). rewrite Hzip, Hsum in Hfin. cbn [fst snd] in *. rewrite Hlen. fold cap.
  pose proof (aligned_bounds fin 8 ltac:(lia)). set (active := aligned fin 8) in *.
  pose proof (aligned_bounds (active + div_ceil cap 64 * 8) 8 ltac:(lia)). set (trig := aligned (active + div_ceil cap 64 * 8) 8) in *.
  pose proof (aligned_bounds (trig + div_ceil (num_events i) 8) 8 ltac:(lia)).
  eapply within_value; [apply align_up_fits; [lia|lia|intros Hfit; specialize (Hd Hfit); lia]|]. fold active.
  eapply within_value; [apply usize_mul_fits; intros Hfit; specialize (Hd Hfit); lia|].
  eapply within_value; [apply usize_add_fits; intros Hfit; specialize (Hd Hfit); lia|].
  eapply within_value; [apply align_up_fits; [lia|lia|intros Hfit; specialize (Hd Hfit); lia]|]. fold trig.
  eapply within_value; [apply usize_add_fits; intros Hfit; specialize (Hd Hfit); lia|].
  eapply within_value; [apply align_up_fits; [lia|lia|intros Hfit; specialize (Hd Hfit); lia]|].
  eapply within_value; [apply usize_mul_fits; intros Hfit; specialize (Hpay Hfit); lia|].
  eapply within_value; [apply usize_add_fits; intros Hfit; specialize (Hpay Hfit); lia|].
  cbn [within]. split; [|split; [|done]].
  - split; cbn [total_size working_base_offset sparse_base_offset working_offsets sparse_offsets sparse_layouts sparse_active_bits_offset
      sparse_active_capacity triggered_bits_offset scratch_base_offset merged_total_size runtime_event_site_layouts runtime_event_slot_size runtime_event_buffer_size].
    + unfold STATE_HEADER_SIZE. lia.
    + exists wsize. split; [lia|done].
    + exists ssize, meta. split_and!; [lia|apply aligned8_divides|lia|done| |].
      * intros a Ha. rewrite <- (elem_of_sort_by_key id) in Ha. apply list_elem_of_lookup in Ha as [k Hk].
        destruct (Hmeta k a) as (s & ? & ?); [by apply Hord|]. exists k, s.
        split; [rewrite <- Hlen; eauto with index|]. split; [done|].
        eapply metadata_weaken; [..|done]; lia.
      * intros a b s s' Ha Hb. rewrite <- (elem_of_sort_by_key id) in Ha, Hb.
        apply list_elem_of_lookup in Ha as [k Hk], Hb as [k' Hk'].
        apply (Hmap k a k' b); by apply Hord.
    + split; [done|lia].
    + lia.
    + done.
    + split_and!; [done| |done]. intros s Hs'. specialize (Hmax s Hs'). unfold RUNTIME_EVENT_SLOT_PAYLOAD_OFFSET. lia.
    + split_and!; apply aligned8_divides.
  - destruct (aliases_resolved fs i home (sort_by_key id (map_to_list (state_aliases i))) [] home id Hv) as (owner & How & Hrs).
    + split; [|done|done|by left]. intros a Ha. destruct (ro_inside _ _ _ _ _ _ Hreg0 a Ha) as (off & ? & _). eauto.
    + apply resolved_none.
    + intros a b Hab. by apply requests_elem.
    + apply requests_sorted.
    + by intros k a ?%not_elem_of_nil.
    + by exists home, owner.
Qed.


(** Aliased objects are not element-strided: the layout source
    ([memory_layout.rs]) removes their array layouts. *)
Definition aliases_packed i : Prop :=
  forall a b, alias_pair i a b -> in_unpacked_arrays i !! a = None /\ in_unpacked_arrays i !! b = None.

Lemma owner_extent fs i home offs owner a :
  valid_input i -> aliases_packed i -> owned fs i home offs owner ->
  object_extent fs i a <= object_extent fs i (owner a).
Proof.
  intros Hv Hp How. destruct (ow_alias _ _ _ _ _ How a)
    as [->|(Hr & _ & _ & (w & w' & Hw & Hw' & Hle) & _)]; [lia|].
  unfold object_extent, plane_extent. rewrite Hw, Hw'. simpl.
  assert (object_size (in_unpacked_arrays i) a w <= object_size (in_unpacked_arrays i) (owner a) w') as Hs;
    [|pose proof (planes_pos fs); nia].
  assert (owner a = a \/ in_unpacked_arrays i !! a = None /\ in_unpacked_arrays i !! owner a = None)
    as [Heq|[Ha Ho]].
  { destruct Hr as [x|x y z Hxy Hyz]; [by left|right]. split; [by apply (Hp x y)|].
    clear -Hp Hxy Hyz. revert x Hxy. induction Hyz as [y|y y' z Hyy' _ IH]; intros x Hxy.
    - by apply (Hp x y).
    - by apply (IH y). }
  - rewrite Heq in *. simplify_eq. lia.
  - unfold object_size. rewrite Ha, Ho. by apply div_ceil_mono.
Qed.

(** Every declared object reads the home of its owner, and the requests
    determine the owners. *)
Record stable_ok fs i L (home : gmap A Z) (owner : A -> A) : Prop := {
  sb_homes : region_ok fs i home (addresses i) STATE_HEADER_SIZE (total_size L);
  sb_reads a : a ∈ addresses i -> owner a ∈ addresses i /\ offsets L !! a = home !! owner a /\
    object_extent fs i a <= object_extent fs i (owner a);
  sb_only a : a ∉ addresses i -> offsets L !! a = None;
  sb_accepted a b : accepted fs i a b -> owner a = if decide (b ≺ a) then owner b else b;
  sb_rejected a : (forall b, ~ accepted fs i a b) -> owner a = a;
  sb_apart a b off off' : a ∈ addresses i -> b ∈ addresses i -> offsets L !! a = Some off -> offsets L !! b = Some off' ->
    if decide (owner a = owner b) then off = off' else off + object_extent fs i a <= off' \/ off' + object_extent fs i b <= off }.

(** C34: stable storage is safe under aliasing. On a valid input whose
    aliased objects are not element-strided ([aliases_packed]), [build]
    panics only on overflow as in [build_regions], and otherwise every
    declared object has a home of its own in the stable region, apart from all
    others, and reads the home of its owner, which is at least as large.
    Every request whose alias no flip-flop references, whose canonical object
    is as wide and, with four states, whose objects are both two-state makes
    the alias follow: it gets the owner of the canonical object when that
    comes earlier in the order of addresses, and else the canonical object
    itself, even when a later request moves that one. An object without such
    a request owns its home. Objects with one owner have the same offset,
    objects with different owners have disjoint storage. *)
Theorem build_aliases_safe i fs (Hv : valid_input i) (Hp : aliases_packed i) :
  within (fits_usize fs i) (fun L => exists home owner, stable_ok fs i L home owner) (@build A _ _ _ unit i fs).
Proof.
  eapply within_impl; [|by apply build_spec]. intros L (_ & (home & owner & Hreg & How & Hrs) & _). exists home, owner.
  assert (Hext : forall a, object_extent fs i a <= object_extent fs i (owner a)) by (intros a; by apply (owner_extent fs i home (offsets L))).
  split; [exact Hreg| | | | |].
  - intros a Ha. destruct (ow_offset _ _ _ _ _ How a Ha). by split_and!.
  - apply (ow_out _ _ _ _ _ How).
  - intros a b Hab. apply (rs_accepted _ _ _ _ Hrs); [|done]. apply list_elem_of_fmap. exists (a, b). split; [done|]. by apply requests_elem, Hab.
  - apply (rs_rejected _ _ _ _ Hrs).
  - intros a b off off' Ha Hb. destruct (ow_offset _ _ _ _ _ How a Ha) as [Hoa ->].
    destruct (ow_offset _ _ _ _ _ How b Hb) as [Hob ->]. intros Hh Hh'.
    case_decide as Heq; [congruence|]. pose proof (Hext a). pose proof (Hext b).
    destruct (ro_apart _ _ _ _ _ _ Hreg _ _ _ _ Hoa Hob Heq Hh Hh'); lia.
Qed.

(** ** Independence of the input order *)

Lemma sort_permutation {B K} `{Ord K} (key : B -> K) (l l' : list B) :
  (forall x y, x ∈ l -> y ∈ l -> key x = key y -> x = y) -> l ≡ₚ l' -> sort_by_key key l = sort_by_key key l'.
Proof.
  intros Hinj Hp. apply (StronglySorted_unique_strong (key_le key)).
  - intros x y Hx Hy Hxy Hyx. rewrite elem_of_sort_by_key in Hx, Hy. rewrite <- Hp in Hy.
    apply Hinj; [done..|]. by apply (anti_symm ord_le).
  - apply sort_by_key_sorted.
  - apply sort_by_key_sorted.
  - by rewrite !sort_by_key_permutation.
Qed.

(** Same input up to the order in which objects are listed. *)
Definition same_input i i' : Prop :=
  state_objects i ≡ₚ state_objects i' /\ working_addresses i ≡ₚ working_addresses i' /\
  sparse_addresses i ≡ₚ sparse_addresses i' /\ in_unpacked_arrays i = in_unpacked_arrays i' /\
  state_aliases i = state_aliases i' /\ ff_referenced_addresses i = ff_referenced_addresses i' /\
  num_events i = num_events i' /\ runtime_event_sites i = runtime_event_sites i'.

Lemma stable_objects_order i i' : valid_input i -> same_input i i' -> stable_objects i = stable_objects i'.
Proof.
  intros Hv (Hs & _ & _ & Ha & _). unfold stable_objects, sort_layout_objects. rewrite <- Ha.
  apply sort_permutation; [|by rewrite Hs].
  intros x y (ox & -> & Hx)%list_elem_of_fmap (oy & -> & Hy)%list_elem_of_fmap Heq.
  apply (f_equal snd) in Heq. simpl in Heq.
  apply list_elem_of_lookup in Hx as [n Hn], Hy as [k Hk].
  assert (n = k) as ->; [|congruence]. eapply (NoDup_lookup (addresses i) _ _ (so_address ox)); [apply Hv|..];
    unfold addresses; rewrite list_lookup_fmap, ?Hn, ?Hk; simpl; congruence.
Qed.

Lemma valid_same i i' : valid_input i -> same_input i i' -> valid_input i'.
Proof.
  intros [Hn Hw Hwk Hsp Ha He] (Ps & Pw & Pp & Ea & _ & _ & En & Er).
  assert (Paddr : addresses i ≡ₚ addresses i') by (unfold addresses; by rewrite Ps).
  split.
  - by rewrite <- Paddr.
  - intros o Ho. apply Hw. by rewrite Ps.
  - destruct Hwk. split; [by rewrite <- Pw|]. intros a. rewrite <- Pw, <- Paddr. auto.
  - destruct Hsp. split; [by rewrite <- Pp|]. intros a. rewrite <- Pp, <- Paddr. auto.
  - by rewrite <- Ea.
  - by rewrite <- En, <- Er.
Qed.

(** The layout does not depend on iteration order. Listing the state
    objects, working addresses or sparse addresses in another order gives the
    same layout, offset for offset. *)
Lemma build_order_independent i i' fs (Hv : valid_input i) (Hs : same_input i i') :
  @build A _ _ _ unit i fs = build i' fs.
Proof.
  pose proof (valid_same _ _ Hv Hs) as Hv'. pose proof (stable_objects_order _ _ Hv Hs) as Hst.
  assert (Hobj : forall l l', l ≡ₚ l' -> sort_layout_objects (region_obj i <$> l) = sort_layout_objects (region_obj i' <$> l')).
  { intros l l' Hl. assert (region_obj i' = region_obj i) as ->.
    { unfold region_obj, width_map, four_map. rewrite Hst. by destruct Hs as (_ & _ & _ & -> & _). }
    apply sort_permutation; [|by rewrite Hl].
    intros x y (a & -> & _)%list_elem_of_fmap (b & -> & _)%list_elem_of_fmap Heq.
    apply (f_equal snd) in Heq. simpl in Heq. by subst. }
  unfold build. fold (stable_objects i) (stable_objects i').
  fold (width_map i) (four_map i) (width_map i') (four_map i').
  rewrite (region_objects_spec i _ Hv (proj2 (vi_working _ Hv))), (region_objects_spec i _ Hv (proj2 (vi_sparse _ Hv))).
  rewrite (region_objects_spec i' _ Hv' (proj2 (vi_working _ Hv'))), (region_objects_spec i' _ Hv' (proj2 (vi_sparse _ Hv'))). msimpl.
  destruct Hs as (Ps & Pw & Pp & Ea & Eal & Ef & En & Er).
  assert (Hid : sort_by_key id (sparse_addresses i) = sort_by_key id (sparse_addresses i'))
    by (apply sort_permutation; [by intros x y _ _|done]).
  rewrite <- (Hobj _ _ Pw), <- (Hobj _ _ Pp), <- Hid.
  unfold width_map, four_map. by rewrite <- Hst, <- Ea, <- Eal, <- Ef, <- En, <- Er.
Qed.

(** ** Static addressing *)

(** Strided elements hold their bits. *)
Definition array_ok (l : UnpackedArrayLayout) : Prop :=
  0 < element_width l /\ element_width l <= 8 * element_stride l /\ 0 <= element_count l /\
  array_plane_size l = element_stride l * element_count l.

(** Static addressing is injective and in bounds: the bits of an object
    map to distinct (byte, bit) positions inside one plane of its storage,
    for packed and element-strided objects alike. *)
Lemma map_static_bit_offset_injective (L : layout) (a : A) (width : Z)
    (Hw : widths L !! a = Some width)
    (Harr : forall l, unpacked_arrays L !! a = Some l -> array_ok l /\ width = element_width l * element_count l /\ array_plane_size l <= usize_max) :
  exists size, @plane_size A _ _ unit L a = Ok size /\
  forall b : Z, 0 <= b < width -> exists byte intra, @map_static_bit_offset A _ _ unit L a b = Ok (byte, intra) /\
    0 <= byte < size /\ 0 <= intra < 8 /\
    forall b' : Z, 0 <= b' < width -> @map_static_bit_offset A _ _ unit L a b' = Ok (byte, intra) -> b = b'.
Proof.
  unfold plane_size, map_static_bit_offset. destruct (unpacked_arrays L !! a) as [l|] eqn:E.
  - destruct (Harr l eq_refl) as ((Hew & Hst & Hec & ->) & -> & Hmax). exists (element_stride l * element_count l).
    split; [done|].
    assert (Hb : forall b : Z, 0 <= b < element_width l * element_count l ->
      0 <= b / element_width l < element_count l /\ 0 <= b mod element_width l < element_width l /\
      0 <= (b mod element_width l) / 8 < element_stride l).
    { intros b Hb. pose proof (Z.mod_pos_bound b _ Hew). split_and!; try lia.
      - apply Z.div_pos; lia.
      - apply Z.div_lt_upper_bound; lia.
      - apply Z.div_pos; lia.
      - apply Z.div_lt_upper_bound; lia. }
    assert (Hval : forall b : Z, 0 <= b < element_width l * element_count l ->
      (element ← usize_div b (element_width l); intra_element ← usize_rem b (element_width l); bytes ← usize_mul element (element_stride l); byte ← usize_add bytes (intra_element / 8); Ok (byte, intra_element mod 8))
      = Ok (b / element_width l * element_stride l + (b mod element_width l) / 8, (b mod element_width l) mod 8) :> result unit _).
    { intros b Hbr. destruct (Hb b Hbr) as (He & Hm & Hi). unfold usize_div, usize_rem, usize_mul, usize_add, checked_add. rewrite decide_False by lia. msimpl. rewrite decide_False by lia. msimpl. rewrite decide_True by nia. msimpl. by rewrite decide_True by nia. }
    intros b Hbr. destruct (Hb b Hbr) as (He & Hm & Hi). rewrite (Hval b Hbr). do 2 eexists. split; [reflexivity|].
    pose proof (Z.mod_pos_bound (b mod element_width l) 8 ltac:(lia)). split_and!; [nia|nia|lia|lia|].
    intros b' Hbr'. rewrite (Hval b' Hbr'). intros [= H1 H2]. destruct (Hb b' Hbr') as (He' & Hm' & Hi').
    assert (b / element_width l = b' / element_width l) as Hq by nia.
    assert ((b mod element_width l) / 8 = (b' mod element_width l) / 8) as Hr by nia.
    assert (b mod element_width l = b' mod element_width l) as Hmod.
    { rewrite (Z.div_mod (b mod _) 8), (Z.div_mod (b' mod _) 8) by lia. lia. }
    rewrite (Z.div_mod b (element_width l)), (Z.div_mod b' (element_width l)) by lia. lia.
  - rewrite Hw. exists (get_byte_size width). split; [done|]. intros b Hb. do 2 eexists. split; [reflexivity|].
    pose proof (div_ceil_bounds width 8 ltac:(lia)). pose proof (Z.mod_pos_bound b 8 ltac:(lia)). unfold get_byte_size.
    split_and!; [apply Z.div_pos; lia|apply Z.div_lt_upper_bound; lia|lia|lia|].
    intros b' Hb' [= E1 E2]. rewrite (Z.div_mod b 8), (Z.div_mod b' 8) by lia. lia.
Qed.
End build.

(** ** A concrete input *)

Definition sample_input : @LayoutInput Z _ _ := {|
  state_objects := [SOL 1 8 false; SOL 2 8 false; SOL 3 65 false; SOL 4 48 true];
  working_addresses := [3; 1]; sparse_addresses := [4];
  in_unpacked_arrays := {[4 := UAL 12 4 2 8]}; state_aliases := {[2 := 1]};
  ff_referenced_addresses := {[3]}; num_events := 3; runtime_event_sites := [[1; 65]; []] |}.

Lemma sample_input_valid : valid_input sample_input.
Proof.
  split.
  - apply (bool_decide_unpack _). vm_compute. exact I.
  - intros o Ho. apply list_elem_of_In in Ho. simpl in Ho. intuition; subst; simpl; lia.
  - split; [apply (bool_decide_unpack _); vm_compute; exact I|].
    intros a Ha. apply list_elem_of_In in Ha. simpl in Ha. unfold addresses. simpl. set_solver by lia.
  - split; [apply (bool_decide_unpack _); vm_compute; exact I|].
    intros a Ha. apply list_elem_of_In in Ha. simpl in Ha. unfold addresses. simpl. set_solver by lia.
  - intros a l. simpl. intros [_ <-]%lookup_singleton_Some. simpl. lia.
  - split; [done|]. repeat constructor; lia.
Qed.

Example sample_layout :
  (L ← @build Z _ _ _ unit sample_input true;
   Ok ((fun a => offsets L !! a) <$> [1; 2; 3; 4], total_size L, working_base_offset L,
       sparse_base_offset L, merged_total_size L)) =
  Ok ([Some 66; Some 66; Some 32; Some 50], 70, 72, 96, 144).
Proof. vm_compute. reflexivity. Qed.


Lemma sample_aliases_packed : aliases_packed sample_input.
Proof.
  intros a b. unfold alias_pair. simpl. intros [<- <-]%lookup_singleton_Some. split; reflexivity.
Qed.

(** Object 2 follows object 1. *)
Lemma sample_accepted : accepted false sample_input 2 1.
Proof.
  split.
  - reflexivity.
  - apply (bool_decide_unpack _). vm_compute. exact I.
  - exists 8, 8. split; [vm_compute; reflexivity|]. split; [vm_compute; reflexivity|lia].
  - discriminate.
Qed.

Lemma build_aliases_safe_witness : exists L home owner, @build Z _ _ _ unit sample_input false = Ok L /\
  stable_ok false sample_input L home owner /\ owner 2 = owner 1.
Proof.
  pose proof (build_aliases_safe sample_input false sample_input_valid sample_aliases_packed) as H.
  destruct (@build Z _ _ _ unit sample_input false) as [L|e|] eqn:HL.
  - destruct H as (home & owner & Hok). exists L, home, owner. split; [reflexivity|]. split; [exact Hok|].
    exact (sb_accepted _ _ _ _ _ Hok 2 1 sample_accepted).
  - destruct H.
  - vm_compute in HL. discriminate.
Defined.

Definition reordered_input : @LayoutInput Z _ _ := {|
  state_objects := rev (state_objects sample_input);
  working_addresses := rev (working_addresses sample_input);
  sparse_addresses := sparse_addresses sample_input;
  in_unpacked_arrays := in_unpacked_arrays sample_input; state_aliases := state_aliases sample_input;
  ff_referenced_addresses := ff_referenced_addresses sample_input;
  num_events := num_events sample_input; runtime_event_sites := runtime_event_sites sample_input |}.

Example layout_reordered : @build Z _ _ _ unit reordered_input true = build sample_input true.
Proof. vm_compute. reflexivity. Qed.

(** Two arrays of half the address space each do not fit. *)
Definition huge_input : @LayoutInput Z _ _ := {|
  state_objects := [SOL 1 64 false; SOL 2 64 false]; working_addresses := []; sparse_addresses := [];
  in_unpacked_arrays := <[1 := UAL 1 (2^63) 1 (2^63)]> {[2 := UAL 1 (2^63) 1 (2^63)]};
  state_aliases := ∅; ff_referenced_addresses := ∅; num_events := 0; runtime_event_sites := [] |}.

Example huge_overflows : @build Z _ _ _ unit huge_input false = Panic.
Proof. vm_compute. reflexivity. Qed.

(** Requests 1 to 2 and 2 to 3: object 2 moves after object 1 followed it. *)
Definition chained_input : @LayoutInput Z _ _ := {|
  state_objects := [SOL 1 8 false; SOL 2 8 false; SOL 3 8 false]; working_addresses := []; sparse_addresses := [];
  in_unpacked_arrays := ∅; state_aliases := <[1 := 2]> {[2 := 3]};
  ff_referenced_addresses := ∅; num_events := 0; runtime_event_sites := [] |}.

Example chained_layout :
  (L ← @build Z _ _ _ unit chained_input false; Ok ((fun a => offsets L !! a) <$> [1; 2; 3])) = Ok ([Some 33; Some 34; Some 34]).
Proof. vm_compute. reflexivity. Qed.
