(* ===== verification/Simulation.v ===== *)
(** * Simulation: the event scheduler and the timed simulation step

    Models [crates/celox-runtime/src/scheduler.rs] and [simulation.rs], and
    [Simulation::run_until] of [crates/celox/src/simulation.rs]. The backend
    and the executor are the traits the code is generic over: a class of
    operations on an abstract state, with no laws. Sums and differences that
    overflow panic. *)

From S2P Require Import Prelude Order Design.

(** [EventHandle]: an event of a backend has a numeric identifier. *)
Class EventHandle (E : Type) : Type := { ev_id : E -> Z }.

Definition u64_add {Er} (a b : Z) : result Er Z := expect (checked_add a b).

Inductive StepError (Er : Type) : Type := Code (e : Er) | OutOfFuel.
Arguments Code {Er} e.
Arguments OutOfFuel {Er}.

(** [SimBackend] and [SimulationExecutor]: the calls the engine makes on the
    executor state [X]. *)
Class SimulationExecutor (X E Sg Er : Type) : Type := {
  get_as : X -> Sg -> Z;
  set : Sg -> Z -> X -> X;
  clear_triggered_bits : X -> X;
  mark_triggered_bit : Z -> X -> X;
  get_triggered_bits : X -> gset Z;
  eval_comb : X -> X * result Er unit;
  eval_apply_ff_at : E -> X -> X * result Er unit;
  eval_only_ff_at : E -> X -> X * result Er unit;
  apply_ff_at : E -> X -> X * result Er unit;
  stage_external_event : E -> Z -> X -> X * result Er unit;
  fire_external_event : E -> Z -> X -> X * result Er unit;
  finish_timed_step : Z -> X -> X;
  dump : Z -> X -> X }.
#[global] Hint Mode SimulationExecutor ! - - - : typeclass_instances.

Section simulation.
Context {E Sg Er : Type} `{EventHandle E} `{Countable Sg} `{!Ord Sg}.

Record SimEvent : Type := { time : Z; event_ref : E; signal : Sg; next_val : Z }.

(** [Ord for SimEvent], reversed as the heap reverses it. *)
Definition event_key (e : SimEvent) : Z * (Z * Sg) := (time e, (ev_id (event_ref e), signal e)).
Definition event_le : relation SimEvent := fun x y => event_key x ⪯ event_key y.

Context {Q : Type} `{!PriorityQueue event_le Q}.

(** [Scheduler]; [ClockDef] is its period. *)
Record Scheduler : Type := { now : Z; clocks : list (option Z); event_queue : Q }.

Definition Scheduler_new : Scheduler := {| now := 0; clocks := []; event_queue := pq_empty |}.

Definition next_event_time (s : Scheduler) : option Z := time <$> pq_peek (event_queue s).

Definition push (e : SimEvent) (s : Scheduler) : Scheduler :=
  {| now := now s; clocks := clocks s; event_queue := pq_push e (event_queue s) |}.

(** [while let Some(ev) = peek()]; [fuel] is the number of queued events. *)
Fixpoint pop_while (fuel : nat) (next_time : Z) (q : Q) : list SimEvent * Q :=
  match fuel with
  | 0%nat => ([], q)
  | S fuel =>
      match pq_pop q with
      | Some (ev, q') =>
          if time ev =? next_time then
            let '(events, q'') := pop_while fuel next_time q' in (ev :: events, q'')
          else ([], q)
      | None => ([], q)
      end
  end.

Definition pop_all_at_next_time (s : Scheduler) : option (Z * list SimEvent * Scheduler) :=
  next_time ← next_event_time s;
  let '(events, q) := pop_while (length (pq_elems (event_queue s))) next_time (event_queue s) in
  Some (next_time, events, {| now := now s; clocks := clocks s; event_queue := q |}).

Record EventInfo : Type := {
  canonical_id : Z;
  is_cascaded : bool;
  eval_ff_event : option E;
  eval_only_event : option E;
  apply_event : option E }.

Record SimulationState : Type := {
  scheduler : Scheduler;
  last_clock_values : gset Z;
  topo_signals : list (Sg * Z * Z);
  domain_kinds : list (option DomainKind);
  event_info : list EventInfo;
  signal_to_id : gmap Sg Z }.

Definition with_scheduler (f : Scheduler -> Scheduler) (st : SimulationState) : SimulationState :=
  {| scheduler := f (scheduler st); last_clock_values := last_clock_values st;
     topo_signals := topo_signals st; domain_kinds := domain_kinds st;
     event_info := event_info st; signal_to_id := signal_to_id st |}.

Definition with_last_clock_values (s : gset Z) (st : SimulationState) : SimulationState :=
  {| scheduler := scheduler st; last_clock_values := s;
     topo_signals := topo_signals st; domain_kinds := domain_kinds st;
     event_info := event_info st; signal_to_id := signal_to_id st |}.

(** [Vec] indexing by an event identifier. *)
Definition at_id {A Er'} (l : list A) (id : Z) : result Er' A := expect (l !! Z.to_nat id).

(** [Vec::resize(n, None)] followed by an assignment. *)
Definition set_clock (id : Z) (period : Z) (cs : list (option Z)) : list (option Z) :=
  let cs := if (Z.of_nat (length cs) <=? id)
            then cs ++ replicate (Z.to_nat (id + 1) - length cs) None else cs in
  <[Z.to_nat id := Some period]> cs.

Definition add_clock (event : E) (signal : Sg) (period initial_delay : Z) (st : SimulationState)
    : SimulationState :=
  with_scheduler (fun s =>
    push {| time := initial_delay; event_ref := event; signal := signal; next_val := 1 |}
      {| now := now s; clocks := set_clock (ev_id event) period (clocks s);
         event_queue := event_queue s |}) st.

Definition schedule (event : E) (signal : Sg) (t value : Z) (st : SimulationState) : SimulationState :=
  with_scheduler (push {| time := t; event_ref := event; signal := signal; next_val := value |}) st.

(** ** The step *)

Context {X : Type} `{!SimulationExecutor X E Sg Er}.
Abbreviation xm := (SE X (StepError Er)).

(** A fallible executor call. *)
Definition call (f : X -> X * result Er unit) : xm unit := fun x =>
  match f x with
  | (x, Ok u) => (x, Ok u)
  | (x, Err e) => (x, Err (Code e))
  | (x, Panic) => (x, Panic)
  end.
Definition run_x (f : X -> X) : xm unit := fun x => (f x, Ok tt).

Fixpoint for_each {A} (f : A -> xm unit) (l : list A) : xm unit :=
  match l with
  | [] => mret tt
  | a :: l => _ ← f a; for_each f l
  end.

Definition usize_MAX : Z := usize_max.

(** The stable edge of a domain, for [replace_triggers_with_stable_edges]. *)
Definition stable_edge (kind : option DomainKind) (was_nonzero is_nonzero : bool) : bool :=
  match kind with
  | Some (ClockPosedge | ResetAsyncHigh) => negb was_nonzero && is_nonzero
  | Some (ClockNegedge | ResetAsyncLow) => was_nonzero && negb is_nonzero
  | _ => negb (Bool.eqb was_nonzero is_nonzero)
  end.

(** The edge of a scheduled event: a domain of another kind only rises. *)
Definition scheduled_edge (kind : option DomainKind) (was_nonzero is_nonzero : bool) : bool :=
  match kind with
  | Some (ClockPosedge | ResetAsyncHigh) => negb was_nonzero && is_nonzero
  | Some (ClockNegedge | ResetAsyncLow) => was_nonzero && negb is_nonzero
  | _ => negb was_nonzero && is_nonzero
  end.

Definition replace_triggers_with_stable_edges (st : SimulationState) : xm unit :=
  _ ← run_x clear_triggered_bits;
  for_each (fun '(signal, id, _) =>
    if id =? usize_MAX then mret tt else
    x ← se_get;
    kind ← se_lift (at_id (domain_kinds st) id);
    let was_nonzero := bool_decide (id ∈ last_clock_values st) in
    let is_nonzero := negb (get_as x signal =? 0) in
    if stable_edge kind was_nonzero is_nonzero then run_x (mark_triggered_bit id) else mret tt)
    (topo_signals st).

(** [synchronize_event_values] and the update after a step differ in whether
    they start from no value. *)
Definition record_values (st : SimulationState) (x : X) (last : gset Z) : gset Z :=
  foldl (fun last '(signal, id, _) =>
    if id =? usize_MAX then last
    else if get_as x signal =? 0 then last ∖ {[id]} else {[id]} ∪ last) last (topo_signals st).

Definition synchronize_event_values (x : X) (st : SimulationState) : SimulationState :=
  with_last_clock_values
    (foldl (fun last '(signal, id, _) =>
      if id =? usize_MAX then last
      else if get_as x signal =? 0 then last else {[id]} ∪ last) ∅ (topo_signals st)) st.

Definition SimulationState_new (x : X) (topo : list (Sg * Z * Z)) (kinds : list (option DomainKind))
    (info : list EventInfo) : SimulationState :=
  let tracked := filter (fun '(_, id, _) => id <> usize_MAX) topo in
  {| scheduler := Scheduler_new;
     last_clock_values := foldl (fun last '(signal, id, _) =>
       if get_as x signal =? 0 then last else {[id]} ∪ last) ∅ tracked;
     topo_signals := topo; domain_kinds := kinds; event_info := info;
     signal_to_id := foldl (fun m '(signal, id, _) => <[signal := id]> m) ∅ tracked |}.

(** The scheduled signals' own edges: whether one is tracked, and the
    triggered identifiers. *)
Fixpoint mark_scheduled (st : SimulationState) (events : list SimEvent) (found : bool) (ids : gset Z)
    : xm (bool * gset Z) :=
  match events with
  | [] => mret (found, ids)
  | ev :: events =>
      match signal_to_id st !! signal ev with
      | None => mark_scheduled st events found ids
      | Some id =>
          kind ← se_lift (at_id (domain_kinds st) id);
          if scheduled_edge kind (bool_decide (id ∈ last_clock_values st)) (negb (next_val ev =? 0)) then
            _ ← run_x (mark_triggered_bit id);
            mark_scheduled st events true ({[id]} ∪ ids)
          else mark_scheduled st events true ids
      end
  end.

(** The locals of the trigger loops. *)
Record Progress : Type := {
  discovered : gset Z;
  triggered_domains : gset Z;
  newly_triggered : list Z }.

(** One marked bit of the inner loop; the flag is [any_new_sequential_trigger]. *)
Definition visit (st : SimulationState) (current_time : Z) (id : Z) (p : Progress) (any_new : bool)
    : xm (Progress * bool) :=
  if bool_decide (id ∈ discovered p) then mret (p, any_new) else
  let disc := {[id]} ∪ discovered p in
  info ← se_lift (at_id (event_info st) id);
  if bool_decide (canonical_id info ∈ triggered_domains p) then
    mret ({| discovered := disc; triggered_domains := triggered_domains p;
             newly_triggered := newly_triggered p |}, any_new)
  else
    _ ← (match eval_only_event info with
         | Some event =>
             _ ← call (stage_external_event (default event (eval_ff_event info)) current_time);
             call (eval_only_ff_at event)
         | None =>
             match eval_ff_event info with
             | Some event =>
                 _ ← call (stage_external_event event current_time);
                 call (eval_apply_ff_at event)
             | None => se_lift Panic
             end
         end);
    mret ({| discovered := disc;
             triggered_domains := {[canonical_id info]} ∪ triggered_domains p;
             newly_triggered := newly_triggered p ++ [canonical_id info] |}, true).

Fixpoint visit_all (st : SimulationState) (current_time : Z) (ids : list Z) (p : Progress) (any_new : bool)
    : xm (Progress * bool) :=
  match ids with
  | [] => mret (p, any_new)
  | id :: ids =>
      '(p, any_new) ← visit st current_time id p any_new;
      visit_all st current_time ids p any_new
  end.

(** The single trigger that may be evaluated and applied at once. *)
Definition single_trigger (st : SimulationState) (p : Progress) (marked : list Z)
    : result (StepError Er) (option (Z * EventInfo * E)) :=
  match marked with
  | [id] =>
      if bool_decide (triggered_domains p = ∅) then
        info ← at_id (event_info st) id;
        Ok (if is_cascaded info then None else (fun e => (id, info, e)) <$> eval_ff_event info)
      else Ok None
  | _ => Ok None
  end.

Definition settle (st : SimulationState) (has_scheduled_event_signal : bool) : xm unit :=
  _ ← call eval_comb;
  if has_scheduled_event_signal then replace_triggers_with_stable_edges st else mret tt.

(** The inner loop: the locals, and whether the fast path ran
    ([any_new_outer_loop_trigger] and [comb_already_done] are set together). *)
Fixpoint inner_loop (fuel : nat) (st : SimulationState) (current_time : Z) (has_scheduled : bool)
    (p : Progress) : xm (Progress * bool) :=
  match fuel with
  | 0%nat => se_lift (Err OutOfFuel)
  | S fuel =>
      x ← se_get;
      let marked := ascending (get_triggered_bits x) in
      _ ← run_x clear_triggered_bits;
      single ← se_lift (single_trigger st p marked);
      match single with
      | Some (id, info, event) =>
          _ ← call (stage_external_event event current_time);
          _ ← call (eval_apply_ff_at event);
          _ ← call (fire_external_event event current_time);
          _ ← settle st has_scheduled;
          mret ({| discovered := {[id]} ∪ discovered p;
                   triggered_domains := {[canonical_id info]} ∪ triggered_domains p;
                   newly_triggered := newly_triggered p |}, true)
      | None =>
          '(p, any_new) ← visit_all st current_time marked p false;
          if (any_new : bool) then inner_loop fuel st current_time has_scheduled p else mret (p, false)
      end
  end.

(** [apply_ff_at] for every newly triggered domain, then its external hooks. *)
Definition commit (st : SimulationState) (current_time : Z) (newly : list Z) : xm unit :=
  _ ← for_each (fun id =>
        info ← se_lift (at_id (event_info st) id);
        match apply_event info with Some event => call (apply_ff_at event) | None => mret tt end) newly;
  for_each (fun id =>
    info ← se_lift (at_id (event_info st) id);
    match eval_ff_event info with
    | Some event => call (fire_external_event event current_time)
    | None => mret tt
    end) newly.

Fixpoint outer_loop (fuel : nat) (st : SimulationState) (current_time : Z) (has_scheduled : bool)
    (p : Progress) : xm unit :=
  match fuel with
  | 0%nat => se_lift (Err OutOfFuel)
  | S fuel =>
      '(p, fast) ← inner_loop (S (length (event_info st))) st current_time has_scheduled
        {| discovered := discovered p; triggered_domains := triggered_domains p; newly_triggered := [] |};
      if bool_decide (newly_triggered p = []) && negb (fast : bool) then mret tt else
      _ ← commit st current_time (newly_triggered p);
      _ ← (if fast : bool then mret tt else settle st has_scheduled);
      outer_loop fuel st current_time has_scheduled p
  end.

(** The executor's part of a step. *)
Definition step_events (st : SimulationState) (current_time : Z) (events : list SimEvent) : xm unit :=
  _ ← for_each (fun ev => run_x (set (signal ev) (next_val ev))) events;
  _ ← run_x clear_triggered_bits;
  '(has_scheduled, ids) ← (mark_scheduled st events false ∅ : xm (bool * gset Z));
  _ ← call eval_comb;
  _ ← (if has_scheduled : bool then
         if bool_decide (ids = ∅) then replace_triggers_with_stable_edges st
         else
           _ ← run_x clear_triggered_bits;
           for_each (fun id => run_x (mark_triggered_bit id)) (ascending ids)
       else mret tt);
  outer_loop (2 + length (event_info st)) st current_time has_scheduled
    {| discovered := ∅; triggered_domains := ∅; newly_triggered := [] |}.

(** The next edge of every clock that fired. *)
Fixpoint reschedule (current_time : Z) (events : list SimEvent) (s : Scheduler)
    : result (StepError Er) Scheduler :=
  match events with
  | [] => Ok s
  | ev :: events =>
      match clocks s !! Z.to_nat (ev_id (event_ref ev)) with
      | Some (Some period) =>
          t ← u64_add current_time (period / 2);
          v ← expect (checked_sub 1 (next_val ev));
          reschedule current_time events
            (push {| time := t; event_ref := event_ref ev; signal := signal ev; next_val := v |} s)
      | _ => reschedule current_time events s
      end
  end.

(** [SimulationState::step]: the simulation state and the executor are
    changed also when an executor call fails. *)
Definition step : SE (SimulationState * X) (StepError Er) (option Z) := fun '(st, x) =>
  match pop_all_at_next_time (scheduler st) with
  | None => ((st, x), Ok None)
  | Some (current_time, events, s) =>
      let st := with_scheduler (fun _ =>
        {| now := current_time; clocks := clocks s; event_queue := event_queue s |}) st in
      match step_events st current_time events x with
      | (x, Ok _) =>
          let st := with_last_clock_values (record_values st x (last_clock_values st)) st in
          match reschedule current_time events (scheduler st) with
          | Ok s => ((with_scheduler (fun _ => s) st, finish_timed_step current_time x), Ok (Some current_time))
          | Err e => ((st, x), Err e)
          | Panic => ((st, x), Panic)
          end
      | (x, Err e) => ((st, x), Err e)
      | (x, Panic) => ((st, x), Panic)
      end
  end.

Definition set_time (t : Z) (st : SimulationState) : SimulationState :=
  with_scheduler (fun s => {| now := t; clocks := clocks s; event_queue := event_queue s |}) st.

(** [Simulation::run_until]: steps while the next event is not after
    [end_time]; [fuel] bounds the steps. *)
Fixpoint run_until (fuel : nat) (end_time : Z) (sx : SimulationState * X)
    : (SimulationState * X) * result (StepError Er) unit :=
  let stop := ((set_time end_time sx.1, dump end_time sx.2), Ok tt) in
  match next_event_time (scheduler sx.1) with
  | None => stop
  | Some next_time =>
      if end_time <? next_time then stop else
      match fuel with
      | 0%nat => (sx, Err OutOfFuel)
      | S fuel =>
          match step sx with
          | (sx, Ok _) => run_until fuel end_time sx
          | (sx, Err e) => (sx, Err e)
          | (sx, Panic) => (sx, Panic)
          end
      end
  end.
End simulation.

(** ** Events named by their identifier *)

#[global] Instance Z_event : EventHandle Z := {| ev_id z := z |}.

#[global] Instance event_le_dec : RelDecision (event_le (E:=Z) (Sg:=Z)).
Proof. unfold event_le. intros x y. apply _. Defined.
#[global] Instance event_le_total : Total (event_le (E:=Z) (Sg:=Z)).
Proof. intros x y. apply (total ord_le). Qed.
#[global] Instance event_le_trans : Transitive (event_le (E:=Z) (Sg:=Z)).
Proof. intros x y z. unfold event_le. by etransitivity. Qed.
