(* ===== verification/SimulationFacts.v ===== *)
(** * SimulationFacts: one timestamp at a time

    The scheduler pops exactly the earliest events, the bookkeeping of a step
    never exhausts its fuel, and a step terminates whatever the executor
    does. *)

From S2P Require Import Prelude Order Design Simulation.

(** ** Reasoning about [SE] *)

Lemma se_bind_Ok {S Er A B} (m : SE S Er A) (k : A -> SE S Er B) (s s2 : S) (b : B) :
  (m ≫= k) s = (s2, Ok b) -> exists s1 a, m s = (s1, Ok a) /\ k a s1 = (s2, Ok b).
Proof. msimpl. destruct (m s) as [s1 [a|e|]]; [eauto|done..]. Qed.

(** Computations that never report exhausted fuel. *)
Definition no_fuel {S Er A} (m : SE S (StepError Er) A) : Prop := forall s, (m s).2 <> Err OutOfFuel.

Lemma no_fuel_bind {S Er A B} (m : SE S (StepError Er) A) (k : A -> SE S (StepError Er) B) :
  no_fuel m -> (forall s s1 a, m s = (s1, Ok a) -> (k a s1).2 <> Err OutOfFuel) -> no_fuel (m ≫= k).
Proof.
  intros Hm Hk s. msimpl. pose proof (Hm s) as Hs. pose proof (Hk s) as Hks.
  destruct (m s) as [s1 [a|e|]]; [by apply Hks|simpl in *; congruence|done].
Qed.

Lemma no_fuel_seq {S Er A B} (m : SE S (StepError Er) A) (k : A -> SE S (StepError Er) B) :
  no_fuel m -> (forall a, no_fuel (k a)) -> no_fuel (m ≫= k).
Proof. intros Hm Hk. apply no_fuel_bind; [done|]. intros s s1 a _. apply Hk. Qed.

Lemma no_fuel_ret {S Er A} (a : A) : no_fuel (mret a : SE S (StepError Er) A).
Proof. intros s. by simpl. Qed.
Lemma no_fuel_lift {S Er A} (r : result (StepError Er) A) : r <> Err OutOfFuel -> no_fuel (se_lift r : SE S _ A).
Proof. intros Hr s. exact Hr. Qed.
Lemma no_fuel_get {S Er} : no_fuel (se_get : SE S (StepError Er) S).
Proof. intros s. by simpl. Qed.

Create HintDb fuel.
#[export] Hint Resolve no_fuel_ret no_fuel_get no_fuel_seq no_fuel_lift : fuel.

Section facts.
Context {E Sg Er : Type} `{EventHandle E} `{Countable Sg} `{!Ord Sg}.
Context {Q : Type} `{!@PriorityQueue (@SimEvent E Sg) event_le Q}.
Abbreviation event := (@SimEvent E Sg).
Abbreviation sched := (@Scheduler Q).
Implicit Types (ev : event) (s : sched).

Definition queued s : list event := pq_elems (event_queue s).

(** ** Popping *)

Lemma event_le_time ev ev' : event_le ev ev' -> time ev <= time ev'.
Proof. unfold event_le, event_key. intros Hle%fst_le. exact Hle. Qed.

Lemma pop_while_spec fuel t (q : Q) :
  (length (pq_elems q) <= fuel)%nat ->
  (forall ev, ev ∈ pq_elems q -> t <= time ev) ->
  let '(evs, q') := pop_while fuel t q in
  pq_elems q ≡ₚ evs ++ pq_elems q' /\ Forall (fun ev => time ev = t) evs /\
  Forall (fun ev => t < time ev) (pq_elems q') /\ StronglySorted event_le evs.
Proof.
  revert q. induction fuel as [|fuel IH]; intros q Hlen Hmin; cbn [pop_while].
  { assert (pq_elems q = []) as E0 by (apply nil_length_inv; lia). rewrite E0.
    split_and!; [done|constructor..]. }
  destruct (pq_pop q) as [[ev q']|] eqn:Ep.
  2:{ apply pq_pop_None in Ep. rewrite Ep. split_and!; [done|constructor..]. }
  pose proof (pq_pop_length _ _ _ Ep) as Hl. apply pq_pop_Some in Ep as [Hp Hle].
  destruct (Z.eqb_spec (time ev) t) as [<-|Hne].
  - specialize (IH q' ltac:(lia)). destruct (pop_while fuel (time ev) q') as [evs q''].
    destruct IH as (Hperm & Ht & Hlt & Hs).
    { intros ev' Hin. apply Hmin. rewrite Hp. by right. }
    split_and!; [by rewrite Hp, Hperm|by constructor|done|]. constructor; [done|].
    rewrite Hperm in Hle. apply Forall_app in Hle as [? _]. done.
  - split_and!; [done|constructor| |constructor].
    rewrite Forall_forall. intros ev' Hin.
    assert (t < time ev) as Hlt by (assert (t <= time ev) by (apply Hmin; rewrite Hp; by left); lia).
    rewrite Hp in Hin. apply elem_of_cons in Hin as [->|Hin]; [done|].
    rewrite Forall_forall in Hle. apply Hle, event_le_time in Hin. lia.
Qed.

Lemma peek_least s t :
  next_event_time s = Some t -> (forall ev, ev ∈ queued s -> t <= time ev) /\ exists ev, ev ∈ queued s /\ time ev = t.
Proof.
  unfold next_event_time, pq_peek, queued. destruct (pq_pop (event_queue s)) as [[ev q']|] eqn:Ep; [|done].
  simpl. intros [= <-]. apply pq_pop_Some in Ep as [Hp Hle]. split.
  - intros ev' Hin. rewrite Hp in Hin. apply elem_of_cons in Hin as [->|Hin]; [lia|].
    rewrite Forall_forall in Hle. by apply Hle, event_le_time in Hin.
  - exists ev. split; [rewrite Hp; by left|done].
Qed.

Lemma next_event_time_None s : next_event_time s = None <-> queued s = [].
Proof.
  unfold next_event_time, pq_peek, queued. destruct (pq_pop (event_queue s)) as [[ev q']|] eqn:Ep; simpl.
  - split; [done|]. apply pq_pop_Some in Ep as [Hp _]. intros Hq. rewrite Hq in Hp. by apply Permutation_nil_cons in Hp.
  - split; [by intros; apply pq_pop_None|done].
Qed.

(** What [pop_all_at_next_time] takes and leaves. *)
Record popped s (t : Z) (evs : list event) s' : Prop := {
  pop_elems : queued s ≡ₚ evs ++ queued s';
  pop_some : evs <> [];
  pop_time : Forall (fun ev => time ev = t) evs;
  pop_later : Forall (fun ev => t < time ev) (queued s');
  pop_sorted : StronglySorted event_le evs;
  pop_next : next_event_time s = Some t;
  pop_clocks : clocks s' = clocks s }.

Lemma pop_all_spec s :
  match pop_all_at_next_time s with
  | Some (t, evs, s') => popped s t evs s'
  | None => queued s = []
  end.
Proof.
  unfold pop_all_at_next_time. destruct (next_event_time s) as [t|] eqn:Et; msimpl.
  2: by apply next_event_time_None.
  destruct (peek_least s t Et) as [Hmin (ev & Hin & Hev)].
  pose proof (pop_while_spec (length (queued s)) t (event_queue s) ltac:(unfold queued; lia) Hmin) as Hp.
  unfold queued in *. destruct (pop_while _ _ _) as [evs q']. destruct Hp as (Hperm & ? & Hlt & ?).
  split; try done. intros ->. simpl in *. rewrite Forall_forall in Hlt.
  assert (ev ∈ pq_elems q') as Hin' by (by rewrite <- Hperm). apply Hlt in Hin'. lia.
Qed.

(** ** Termination of the trigger loops *)

Section executor.
Context {X : Type} `{!SimulationExecutor X E Sg Er}.
Abbreviation state := (SimulationState (E:=E) (Sg:=Sg) (Q:=Q)).
Abbreviation xm := (SE X (StepError Er)).
Implicit Types (st : state) (p : Progress) (x : X).

Definition canon st : gset Z := list_to_set (canonical_id <$> event_info st).

Lemma at_id_canon st id info :
  at_id (event_info st) id = Ok info :> result (StepError Er) _ -> canonical_id info ∈ canon st.
Proof.
  unfold at_id, expect. destruct (_ !! _) as [i|] eqn:E0; [|done]. intros [= <-].
  unfold canon. rewrite elem_of_list_to_set. apply list_elem_of_fmap. exists i. split; [done|].
  by eapply list_elem_of_lookup_2.
Qed.

Lemma no_fuel_call f : no_fuel (call f : xm unit).
Proof. intros x. unfold call. by destruct (f x) as [? [|e|]]. Qed.
Lemma no_fuel_run_x f : no_fuel (run_x f : xm unit).
Proof. intros x. by simpl. Qed.
Lemma no_fuel_at_id {A} (l : list A) id : no_fuel (se_lift (at_id l id) : xm A).
Proof. apply no_fuel_lift. unfold at_id. by destruct (_ !! _). Qed.
Lemma no_fuel_for_each {A} (f : A -> xm unit) l : (forall a, no_fuel (f a)) -> no_fuel (for_each f l).
Proof. intros Hf. induction l as [|a l IH]; cbn [for_each]; [apply no_fuel_ret|]. by apply no_fuel_seq. Qed.

Lemma no_fuel_stable st : no_fuel (replace_triggers_with_stable_edges st : xm unit).
Proof.
  apply no_fuel_seq; [apply no_fuel_run_x|]. intros _. apply no_fuel_for_each. intros [[sg id] c].
  destruct (id =? usize_MAX); [apply no_fuel_ret|]. apply no_fuel_seq; [apply no_fuel_get|]. intros x.
  apply no_fuel_seq; [apply no_fuel_at_id|]. intros k. cbv zeta. case_match; [apply no_fuel_run_x|apply no_fuel_ret].
Qed.

Lemma no_fuel_settle st b : no_fuel (settle st b : xm unit).
Proof.
  apply no_fuel_seq; [apply no_fuel_call|]. intros _. destruct b; [apply no_fuel_stable|apply no_fuel_ret].
Qed.

(** The canonical identifiers triggered in a step only grow, and a reported
    new trigger is a new identifier. *)
Record grows st p (any : bool) p' (any' : bool) : Prop := {
  gr_subset : triggered_domains p ⊆ triggered_domains p';
  gr_canon : triggered_domains p ⊆ canon st -> triggered_domains p' ⊆ canon st;
  gr_new : any' = true -> any = true \/ (size (triggered_domains p) < size (triggered_domains p'))%nat;
  gr_newly : newly_triggered p' = newly_triggered p \/ newly_triggered p' <> [] /\
    (size (triggered_domains p) < size (triggered_domains p'))%nat }.

Lemma grows_refl st p any : grows st p any p any.
Proof. split; auto. Qed.

Lemma grows_trans st p1 a1 p2 a2 p3 a3 :
  grows st p1 a1 p2 a2 -> grows st p2 a2 p3 a3 -> grows st p1 a1 p3 a3.
Proof.
  intros [S1 C1 N1 L1] [S2 C2 N2 L2]. pose proof (subseteq_size _ _ S1). pose proof (subseteq_size _ _ S2).
  split; [set_solver|auto| |].
  - intros Ha. destruct (N2 Ha) as [Hb|]; [|right; lia]. destruct (N1 Hb); [by left|right; lia].
  - destruct L2 as [->|[? ?]]; [destruct L1 as [->|[? ?]]; [by left|right; split; [done|lia]]|right; split; [done|lia]].
Qed.

Lemma size_insert_new (X0 : gset Z) (c : Z) : c ∉ X0 -> (size X0 < size ({[c]} ∪ X0))%nat.
Proof. intros. rewrite size_union by set_solver. rewrite size_singleton. lia. Qed.

Lemma visit_grows st t id p any x x' p' any' :
  visit st t id p any x = (x', Ok (p', any') : result (StepError Er) _) -> grows st p any p' any'.
Proof.
  unfold visit. case_bool_decide; [intros [= <- <- <-]; apply grows_refl|].
  intros (x1 & info & [= <- Hat] & Hk)%se_bind_Ok. revert Hk.
  case_bool_decide as Ht; [intros [= <- <- <-]; by split; auto|].
  intros (x2 & u & _ & [= <- <- <-])%se_bind_Ok.
  pose proof (size_insert_new _ _ Ht). pose proof (at_id_canon _ _ _ Hat).
  split; cbn [triggered_domains newly_triggered]; [set_solver|set_solver|auto|].
  right. split; [|done]. by destruct (newly_triggered p).
Qed.

Lemma no_fuel_visit st t id p any : no_fuel (visit st t id p any : xm _).
Proof.
  unfold visit. case_bool_decide; [apply no_fuel_ret|]. apply no_fuel_seq; [apply no_fuel_at_id|]. intros info.
  case_bool_decide; [apply no_fuel_ret|]. apply no_fuel_seq; [|intros; apply no_fuel_ret].
  destruct (eval_only_event info); [apply no_fuel_seq; [apply no_fuel_call|intros; apply no_fuel_call]|].
  destruct (eval_ff_event info); [apply no_fuel_seq; [apply no_fuel_call|intros; apply no_fuel_call]|].
  by apply no_fuel_lift.
Qed.

Lemma visit_all_grows st t ids p any x x' p' any' :
  visit_all st t ids p any x = (x', Ok (p', any') : result (StepError Er) _) -> grows st p any p' any'.
Proof.
  revert p any x. induction ids as [|id ids IH]; intros p any x; cbn [visit_all].
  { intros [= <- <- <-]. apply grows_refl. }
  intros (x1 & [p1 a1] & Hv%visit_grows & Hr)%se_bind_Ok. eapply grows_trans; [done|]. by eapply IH.
Qed.

Lemma no_fuel_visit_all st t ids p any : no_fuel (visit_all st t ids p any : xm _).
Proof.
  revert p any. induction ids as [|id ids IH]; intros p any; cbn [visit_all]; [apply no_fuel_ret|].
  apply no_fuel_seq; [apply no_fuel_visit|]. intros [p1 a1]. apply IH.
Qed.

(** The fast path triggers the first domain of a step. *)
Lemma single_trigger_spec st p marked id info (h : E) :
  single_trigger st p marked = Ok (Some (id, info, h)) :> result (StepError Er) _ ->
  triggered_domains p = ∅ /\ canonical_id info ∈ canon st /\ marked = [id] /\
  event_info st !! Z.to_nat id = Some info /\ is_cascaded info = false /\ eval_ff_event info = Some h.
Proof.
  unfold single_trigger. destruct marked as [|i [|]]; try done. case_bool_decide as Ht; [|done].
  destruct (at_id (event_info st) i) as [inf| |] eqn:Hat; try done. msimpl.
  destruct (is_cascaded inf) eqn:Hc; [done|]. destruct (eval_ff_event inf) as [e|] eqn:He; [|done].
  intros [= <- <- <-]. pose proof (at_id_canon _ _ _ Hat). unfold at_id, expect in Hat.
  destruct (_ !! _) eqn:Hl; [|done]. simplify_eq. done.
Qed.

Lemma no_fuel_single st p marked : no_fuel (se_lift (single_trigger st p marked) : xm _).
Proof.
  apply no_fuel_lift. unfold single_trigger. destruct marked as [|i [|]]; try done. case_bool_decide; [|done].
  unfold at_id, expect. by destruct (_ !! _).
Qed.

Lemma canon_size st p : triggered_domains p ⊆ canon st -> (size (triggered_domains p) <= length (event_info st))%nat.
Proof.
  intros Hsub%subseteq_size. unfold canon in Hsub.
  assert (size (list_to_set (canonical_id <$> event_info st) : gset Z) <= length (canonical_id <$> event_info st))%nat
    by (generalize (canonical_id <$> event_info st); induction l as [|c l IH]; [done|];
        cbn [list_to_set length]; rewrite size_union_alt, size_singleton;
        pose proof (subseteq_size (list_to_set l ∖ {[c]} : gset Z) (list_to_set l) ltac:(set_solver)); lia).
  rewrite length_fmap in *. lia.
Qed.

Lemma inner_loop_grows fuel st t b p x x' p' fast :
  inner_loop fuel st t b p x = (x', Ok (p', fast) : result (StepError Er) _) ->
  triggered_domains p ⊆ triggered_domains p' /\
  (triggered_domains p ⊆ canon st -> triggered_domains p' ⊆ canon st) /\
  (newly_triggered p = [] -> newly_triggered p' <> [] \/ fast = true ->
   (size (triggered_domains p) < size (triggered_domains p'))%nat).
Proof.
  revert p x. induction fuel as [|fuel IH]; intros p x; cbn [inner_loop]; [done|].
  intros (x1 & y & [= <- <-] & Hk)%se_bind_Ok. apply se_bind_Ok in Hk as (x2 & u & _ & Hk).
  apply se_bind_Ok in Hk as (x3 & single & [= <- Hs] & Hk). destruct single as [[[id info] ev]|].
  - apply single_trigger_spec in Hs as (He & Hc & _).
    repeat (apply se_bind_Ok in Hk as (? & ? & _ & Hk)). injection Hk as <- <- <-.
    cbn [triggered_domains newly_triggered]. pose proof (size_insert_new (triggered_domains p) (canonical_id info) ltac:(set_solver)).
    split_and!; [set_solver|set_solver|done].
  - apply se_bind_Ok in Hk as (x4 & [p1 any] & Hv%visit_all_grows & Hk). destruct Hv as [Hsub Hcan Hnew Hnewly].
    destruct any.
    + destruct (IH _ _ Hk) as (Hsub' & Hcan' & Hlt). split_and!; [set_solver|auto|]. intros Hn _.
      pose proof (subseteq_size _ _ Hsub'). destruct (Hnew eq_refl); [done|lia].
    + injection Hk as <- <- <-. split_and!; [done..|]. intros Hn [Hne|?]; [|done].
      destruct Hnewly as [Heq|[_ ?]]; [congruence|done].
Qed.

Lemma no_fuel_inner fuel st t b p :
  triggered_domains p ⊆ canon st -> (length (event_info st) < fuel + size (triggered_domains p))%nat ->
  no_fuel (inner_loop fuel st t b p : xm _).
Proof.
  revert p. induction fuel as [|fuel IH]; intros p Hc Hfuel.
  { pose proof (canon_size _ _ Hc). lia. }
  cbn [inner_loop]. apply no_fuel_seq; [apply no_fuel_get|]. intros x. apply no_fuel_seq; [apply no_fuel_run_x|]. intros _.
  apply no_fuel_seq; [apply no_fuel_single|]. intros [[[id info] ev]|].
  { repeat (apply no_fuel_seq; [apply no_fuel_call|intros _]). apply no_fuel_seq; [apply no_fuel_settle|intros; apply no_fuel_ret]. }
  apply no_fuel_bind; [apply no_fuel_visit_all|]. intros s s1 [p1 any] Hv%visit_all_grows.
  destruct Hv as [Hsub Hcan Hnew _]. destruct any; [|by simpl]. apply IH; [auto|].
  destruct (Hnew eq_refl); [done|]. lia.
Qed.

Lemma no_fuel_commit st t l : no_fuel (commit st t l : xm unit).
Proof.
  apply no_fuel_seq; [|intros _]; apply no_fuel_for_each; intros id; (apply no_fuel_seq; [apply no_fuel_at_id|]);
    intros info; [destruct (apply_event info)|destruct (eval_ff_event info)]; first [apply no_fuel_call|apply no_fuel_ret].
Qed.

Lemma no_fuel_outer fuel st t b p :
  triggered_domains p ⊆ canon st -> (length (event_info st) < fuel + size (triggered_domains p))%nat ->
  no_fuel (outer_loop fuel st t b p : xm unit).
Proof.
  revert p. induction fuel as [|fuel IH]; intros p Hc Hfuel.
  { pose proof (canon_size _ _ Hc). lia. }
  cbn [outer_loop]. apply no_fuel_bind; [apply no_fuel_inner; [done|simpl; lia]|].
  intros s s1 [p1 fast] Hi. apply inner_loop_grows in Hi as (Hsub & Hcan & Hlt). cbn [triggered_domains newly_triggered] in *.
  destruct (bool_decide (newly_triggered p1 = []) && negb fast) eqn:Hstop; [by simpl|].
  assert (newly_triggered p1 <> [] \/ fast = true) as Hcont.
  { apply andb_false_iff in Hstop as [?%bool_decide_eq_false|?%negb_false_iff]; auto. }
  specialize (Hlt eq_refl Hcont).
  apply no_fuel_seq; [apply no_fuel_commit|]. intros _. apply no_fuel_seq.
  { destruct fast; [apply no_fuel_ret|apply no_fuel_settle]. }
  intros _. apply IH; [by apply Hcan|lia].
Qed.

Lemma no_fuel_mark st evs found ids : no_fuel (mark_scheduled st evs found ids : xm _).
Proof.
  revert found ids. induction evs as [|ev evs IH]; intros found ids; cbn [mark_scheduled]; [apply no_fuel_ret|].
  destruct (_ !! _) as [id|]; [|apply IH]. apply no_fuel_seq; [apply no_fuel_at_id|]. intros k.
  case_match; [|apply IH]. apply no_fuel_seq; [apply no_fuel_run_x|]. intros _. apply IH.
Qed.

Lemma no_fuel_step_events st t evs : no_fuel (step_events st t evs : xm unit).
Proof.
  unfold step_events. apply no_fuel_seq; [apply no_fuel_for_each; intros; apply no_fuel_run_x|]. intros _.
  apply no_fuel_seq; [apply no_fuel_run_x|]. intros _. apply no_fuel_seq; [apply no_fuel_mark|]. intros [has ids].
  apply no_fuel_seq; [apply no_fuel_call|]. intros _. apply no_fuel_seq.
  { destruct has; [|apply no_fuel_ret]. case_bool_decide; [apply no_fuel_stable|].
    apply no_fuel_seq; [apply no_fuel_run_x|]. intros _. apply no_fuel_for_each. intros. apply no_fuel_run_x. }
  intros _. apply no_fuel_outer; [apply empty_subseteq|]. cbn [triggered_domains]. rewrite size_empty. lia.
Qed.

Lemma reschedule_fuelled t evs s : reschedule t evs s <> Err OutOfFuel :> result (StepError Er) _.
Proof.
  revert s. induction evs as [|ev evs IH]; intros s; cbn [reschedule]; [done|].
  destruct (_ !! _) as [[period|]|]; try apply IH. unfold u64_add, expect. msimpl.
  destruct (checked_add _ _); [|done]. destruct (checked_sub _ _); [|done]. apply IH.
Qed.

Lemma step_terminates_raw st x : (step (st, x)).2 <> Err OutOfFuel.
Proof.
  unfold step. destruct (pop_all_at_next_time (scheduler st)) as [[[t evs] s]|]; [|done].
  match goal with |- context [step_events ?st t evs x] => pose proof (no_fuel_step_events st t evs x) as Hs;
    destruct (step_events st t evs x) as [x' [u|e|]] end; [|simpl in *; congruence|done].
  match goal with |- context [reschedule ?t ?evs ?s] => pose proof (reschedule_fuelled t evs s) as Hr;
    destruct (reschedule t evs s) end; simpl; congruence.
Qed.

(** C19: a simulation step terminates, whatever the backend does. Each turn of
    the inner loop that continues triggers a canonical domain not triggered
    before in the step, and each turn of the outer loop that continues does
    too, so both end within the number of event domains: no executor, however
    often it marks its trigger bits, makes [step] run out of its bound. *)
Theorem step_terminates st x : (step (st, x)).2 <> Err OutOfFuel.
Proof. apply step_terminates_raw. Qed.
End executor.
End facts.
