(* ===== verification/SimulationTrace.v ===== *)
(** * SimulationTrace: the calls a step makes

    A tracing executor records the calls of a step without changing it; the
    recorded trace follows the two-phase protocol of one timestamp. *)

From S2P Require Import Prelude Order Design Simulation SimulationFacts.

Section trace.
Context {E Sg Er : Type} `{EventHandle E} `{Countable Sg} `{!Ord Sg}.
Context {Q : Type} `{!@PriorityQueue (@SimEvent E Sg) event_le Q}.
Context {X : Type} `{!SimulationExecutor X E Sg Er}.
Abbreviation state := (SimulationState (E:=E) (Sg:=Sg) (Q:=Q)).
Abbreviation info := (EventInfo (E:=E)).
Implicit Types (st : state) (p : Progress) (x : X) (i : info) (h : E) (t : Z).

(** Besides the calls, the log has what was marked when the marks were
    cleared: each turn of the loops reads the marked bits, then clears them. *)
Inductive Call : Type :=
  | CClear (marked : gset Z)
  | CEvalComb
  | CEvalApply (h : E)
  | CEvalOnly (h : E)
  | CApply (h : E)
  | CStage (h : E) (t : Z)
  | CFire (h : E) (t : Z)
  | CFinish (t : Z)
  | CDump (t : Z).

(** An executor call that is also written to the log. *)
Definition logged (c : Call) (f : X -> X * result Er unit) (xl : X * list Call)
    : (X * list Call) * result Er unit :=
  let '(x, r) := f xl.1 in ((x, xl.2 ++ [c]), r).

#[local] Instance traced : SimulationExecutor (X * list Call) E Sg Er := {
  get_as xl s := get_as xl.1 s;
  set s v xl := (set s v xl.1, xl.2);
  clear_triggered_bits xl := (clear_triggered_bits xl.1, xl.2 ++ [CClear (get_triggered_bits xl.1)]);
  mark_triggered_bit id xl := (mark_triggered_bit id xl.1, xl.2);
  get_triggered_bits xl := get_triggered_bits xl.1;
  eval_comb := logged CEvalComb eval_comb;
  eval_apply_ff_at h := logged (CEvalApply h) (eval_apply_ff_at h);
  eval_only_ff_at h := logged (CEvalOnly h) (eval_only_ff_at h);
  apply_ff_at h := logged (CApply h) (apply_ff_at h);
  stage_external_event h t := logged (CStage h t) (stage_external_event h t);
  fire_external_event h t := logged (CFire h t) (fire_external_event h t);
  finish_timed_step t xl := (finish_timed_step t xl.1, xl.2 ++ [CFinish t]);
  dump t xl := (dump t xl.1, xl.2 ++ [CDump t]) }.

Abbreviation xm := (SE X (StepError Er)).
Abbreviation tm := (SE (X * list Call) (StepError Er)).

(** ** Tracing changes nothing *)

Definition erases {A} (m' : tm A) (m : xm A) : Prop :=
  forall x l, exists l', m' (x, l) = (((m x).1, l'), (m x).2).

Lemma erases_ret {A} (a : A) : erases (mret a) (mret a).
Proof. intros x l. by exists l. Qed.
Lemma erases_lift {A} (r : result (StepError Er) A) : erases (se_lift r) (se_lift r).
Proof. intros x l. by exists l. Qed.
Lemma erases_bind {A B} (m' : tm A) (m : xm A) (k' : A -> tm B) (k : A -> xm B) :
  erases m' m -> (forall a, erases (k' a) (k a)) -> erases (m' ≫= k') (m ≫= k).
Proof.
  intros Hm Hk x l. destruct (Hm x l) as [l1 E1]. msimpl. rewrite E1.
  destruct (m x) as [x1 [a|e|]]; cbn [fst snd]; [apply Hk|by exists l1..].
Qed.
Lemma erases_run_x (f' : X * list Call -> X * list Call) (f : X -> X) :
  (forall x l, (f' (x, l)).1 = f x) -> erases (run_x f') (run_x f).
Proof. intros Hf x l. exists (f' (x, l)).2. unfold run_x. cbn [fst snd]. rewrite <- (Hf x l). by destruct (f' (x, l)). Qed.
Lemma erases_call c f : erases (call (logged c f)) (call f).
Proof. intros x l. unfold call, logged. cbn [fst snd]. destruct (f x) as [x' [u|e|]]; by eexists. Qed.
Lemma erases_get {B} (k' : X * list Call -> tm B) (k : X -> xm B) :
  (forall x l, erases (k' (x, l)) (k x)) -> erases (x ← se_get; k' x) (x ← se_get; k x).
Proof. intros Hk x l. msimpl. apply Hk. Qed.
Lemma erases_for_each {A} (f' : A -> tm unit) (f : A -> xm unit) l :
  (forall a, erases (f' a) (f a)) -> erases (for_each f' l) (for_each f l).
Proof. intros Hf. induction l; cbn [for_each]; [apply erases_ret|]. by apply erases_bind. Qed.

Lemma erases_stable st : erases (replace_triggers_with_stable_edges st) (replace_triggers_with_stable_edges st).
Proof.
  apply erases_bind; [by apply erases_run_x|]. intros _. apply erases_for_each. intros [[sg id] c].
  destruct (id =? usize_MAX); [apply erases_ret|]. apply erases_get. intros x l.
  apply erases_bind; [apply erases_lift|]. intros k. cbv zeta. cbn [get_as traced fst].
  case_match; [by apply erases_run_x|apply erases_ret].
Qed.

Lemma erases_settle st b : erases (settle st b) (settle st b).
Proof.
  apply erases_bind; [apply erases_call|]. intros _. destruct b; [apply erases_stable|apply erases_ret].
Qed.

Lemma erases_visit st t id p any : erases (visit st t id p any) (visit st t id p any).
Proof.
  unfold visit. case_bool_decide; [apply erases_ret|]. apply erases_bind; [apply erases_lift|]. intros i.
  case_bool_decide; [apply erases_ret|]. apply erases_bind; [|intros; apply erases_ret].
  destruct (eval_only_event i); [apply erases_bind; [apply erases_call|intros; apply erases_call]|].
  destruct (eval_ff_event i); [apply erases_bind; [apply erases_call|intros; apply erases_call]|].
  apply erases_lift.
Qed.

Lemma erases_visit_all st t ids p any : erases (visit_all st t ids p any) (visit_all st t ids p any).
Proof.
  revert p any. induction ids as [|id ids IH]; intros p any; cbn [visit_all]; [apply erases_ret|].
  apply erases_bind; [apply erases_visit|]. intros [p1 a1]. apply IH.
Qed.

Lemma erases_inner fuel st t b p : erases (inner_loop fuel st t b p) (inner_loop fuel st t b p).
Proof.
  revert p. induction fuel as [|fuel IH]; intros p; cbn [inner_loop]; [apply erases_lift|].
  apply erases_get. intros x l. cbn [get_triggered_bits traced fst].
  apply erases_bind; [by apply erases_run_x|]. intros _. apply erases_bind; [apply erases_lift|].
  intros [[[id i] h]|].
  - repeat (apply erases_bind; [apply erases_call|intros _]). apply erases_bind; [apply erases_settle|intros; apply erases_ret].
  - apply erases_bind; [apply erases_visit_all|]. intros [p1 [|]]; [apply IH|apply erases_ret].
Qed.

Lemma erases_commit st t l : erases (commit st t l) (commit st t l).
Proof.
  apply erases_bind; [|intros _]; apply erases_for_each; intros id; (apply erases_bind; [apply erases_lift|]);
    intros i; [destruct (apply_event i)|destruct (eval_ff_event i)]; first [apply erases_call|apply erases_ret].
Qed.

Lemma erases_outer fuel st t b p : erases (outer_loop fuel st t b p) (outer_loop fuel st t b p).
Proof.
  revert p. induction fuel as [|fuel IH]; intros p; cbn [outer_loop]; [apply erases_lift|].
  apply erases_bind; [apply erases_inner|]. intros [p1 fast]. destruct (_ && _); [apply erases_ret|].
  apply erases_bind; [apply erases_commit|]. intros _. apply erases_bind; [|intros _; apply IH].
  destruct fast; [apply erases_ret|apply erases_settle].
Qed.

Lemma erases_mark st evs found ids : erases (mark_scheduled st evs found ids) (mark_scheduled st evs found ids).
Proof.
  revert found ids. induction evs as [|ev evs IH]; intros found ids; cbn [mark_scheduled]; [apply erases_ret|].
  destruct (_ !! _) as [id|]; [|apply IH]. apply erases_bind; [apply erases_lift|]. intros k.
  case_match; [|apply IH]. apply erases_bind; [by apply erases_run_x|]. intros _. apply IH.
Qed.

Lemma erases_step_events st t evs : erases (step_events st t evs) (step_events st t evs).
Proof.
  unfold step_events. apply erases_bind; [apply erases_for_each; intros; by apply erases_run_x|]. intros _.
  apply erases_bind; [by apply erases_run_x|]. intros _. apply erases_bind; [apply erases_mark|]. intros [has ids].
  apply erases_bind; [apply erases_call|]. intros _. apply erases_bind; [|intros _; apply erases_outer].
  destruct has; [|apply erases_ret]. case_bool_decide; [apply erases_stable|].
  apply erases_bind; [by apply erases_run_x|]. intros _. apply erases_for_each. intros. by apply erases_run_x.
Qed.

(** ** The protocol of one timestamp *)

(** Sampling one domain: its external inputs, then its sequential logic. *)
Definition eval_calls t i : list Call :=
  match eval_only_event i with
  | Some h => [CStage (default h (eval_ff_event i)) t; CEvalOnly h]
  | None => match eval_ff_event i with Some h => [CStage h t; CEvalApply h] | None => [] end
  end.
Definition apply_calls i : list Call :=
  match apply_event i with Some h => [CApply h] | None => [] end.
Definition fire_calls t i : list Call :=
  match eval_ff_event i with Some h => [CFire h t] | None => [] end.

(** The entries of [table] that the marked identifiers [ids] make due when the domains
    [done] have been evaluated, one for each new canonical domain, in order of
    identifier. *)
Fixpoint due (table : list info) (done : gset Z) (ids : list Z) : list info :=
  match ids with
  | [] => []
  | id :: ids =>
      match table !! Z.to_nat id with
      | Some i => if decide (canonical_id i ∈ done) then due table done ids else i :: due table ({[canonical_id i]} ∪ done) ids
      | None => due table done ids
      end
  end.

(** Nothing has been evaluated, a single identifier is marked, and its entry
    [i] is evaluated by [h] and not cascaded. *)
Definition lone (table : list info) (done marked : gset Z) (id : Z) i h : Prop :=
  done = ∅ /\ marked = {[id]} /\ table !! Z.to_nat id = Some i /\ is_cascaded i = false /\ eval_ff_event i = Some h.

Definition canon_of (js : list info) : gset Z := list_to_set (canonical_id <$> js).

(** One turn of the outer loop. [Single]: the lone marked domain, evaluated
    and applied at once. [Batch]: what each reading found marked and sampled,
    up to a [last] reading that found nothing due; all are sampled before any
    is committed. [after]: what the settling that ends the turn found marked. *)
Inductive Turn : Type :=
  | Single (id : Z) (i : info) (h : E) (after : list (gset Z))
  | Batch (rounds : list (gset Z * list info)) (last : gset Z) (after : list (gset Z)).

Definition turn_infos (u : Turn) : list info := match u with Single _ i _ _ => [i] | Batch rounds _ _ => rounds ≫= snd end.
Definition rounds_calls t (rounds : list (gset Z * list info)) : list Call :=
  rounds ≫= (fun r => CClear r.1 :: (r.2 ≫= eval_calls t)).
Definition settle_calls (after : list (gset Z)) : list Call := CEvalComb :: (CClear <$> after).
Definition turn_calls t (u : Turn) : list Call :=
  match u with
  | Single id i h after => CClear {[id]} :: CStage h t :: CEvalApply h :: CFire h t :: settle_calls after
  | Batch rounds last after => rounds_calls t rounds ++ CClear last ::
      ((rounds ≫= snd) ≫= apply_calls) ++ ((rounds ≫= snd) ≫= fire_calls t) ++ settle_calls after
  end.
Definition domains (us : list Turn) : list Z := canonical_id <$> (us ≫= turn_infos).

Definition no_lone (table : list info) (done marked : gset Z) : Prop := forall id i h, ~ lone table done marked id i h.
Definition has_logic i : Prop := eval_only_event i <> None \/ eval_ff_event i <> None.

(** Every reading samples exactly what is due, which is something until the
    last reading; none of them found a lone domain. *)
Fixpoint rounds_ok (table : list info) (done : gset Z) (rounds : list (gset Z * list info)) (last : gset Z) : Prop :=
  match rounds with
  | [] => no_lone table done last /\ due table done (ascending last) = []
  | (marked, js) :: rounds => no_lone table done marked /\ js = due table done (ascending marked) /\ js <> [] /\ Forall has_logic js /\
      rounds_ok table (canon_of js ∪ done) rounds last
  end.

(** [stable]: settling compares the tracked signals and clears the marks. *)
Definition after_ok (stable : bool) (after : list (gset Z)) : Prop := length after = if stable then 1%nat else 0%nat.

Definition turn_ok (table : list info) (stable : bool) (done : gset Z) (u : Turn) : Prop :=
  match u with
  | Single id i h after => lone table done {[id]} id i h /\ after_ok stable after
  | Batch rounds last after => rounds <> [] /\ rounds_ok table done rounds last /\ after_ok stable after
  end.

(** Turn after turn until [last] makes nothing due. *)
Fixpoint turns_ok (table : list info) (stable : bool) (done : gset Z) (us : list Turn) (last : gset Z) : Prop :=
  match us with
  | [] => rounds_ok table done [] last
  | u :: us => turn_ok table stable done u /\ turns_ok table stable (canon_of (turn_infos u) ∪ done) us last
  end.

(** How the facade fills [event_info]: an entry that can be evaluated is the
    entry of its canonical identifier. *)
Definition coherent st : Prop := forall (n : nat) i,
  event_info st !! n = Some i -> has_logic i ->
  event_info st !! Z.to_nat (canonical_id i) = Some i.

(** A computation whose only effect on the log is to append [l]. *)
Definition emits {A} (m : tm A) (l : list Call) : Prop :=
  forall s s' a, m s = (s', Ok a) -> s'.2 = s.2 ++ l.

Lemma emits_ret {A} (a : A) : emits (mret a) [].
Proof. intros s s' a' [= <- <-]. by rewrite app_nil_r. Qed.
Lemma emits_lift {A} (r : result (StepError Er) A) : emits (se_lift r) [].
Proof. intros s s' a' [= <- _]. by rewrite app_nil_r. Qed.
Lemma emits_bind {A B} (m : tm A) (k : A -> tm B) l1 l2 :
  emits m l1 -> (forall a, emits (k a) l2) -> emits (m ≫= k) (l1 ++ l2).
Proof.
  intros Hm Hk s s' b (s1 & a & E1%Hm & E2)%se_bind_Ok. apply Hk in E2. by rewrite E2, E1, <- app_assoc.
Qed.
Lemma emits_silent {A B} (m : tm A) (k : A -> tm B) l :
  emits m [] -> (forall a, emits (k a) l) -> emits (m ≫= k) l.
Proof. intros. by apply (emits_bind m k [] l). Qed.
Lemma emits_get {B} (k : X * list Call -> tm B) l : (forall s, emits (k s) l) -> emits (s ← se_get; k s) l.
Proof. intros Hk s s' b E0. by eapply (Hk s). Qed.
Lemma emits_run_x (f : X * list Call -> X * list Call) : (forall s, (f s).2 = s.2) -> emits (run_x f) [].
Proof. intros Hf s s' a [= <- _]. by rewrite Hf, app_nil_r. Qed.
Lemma emits_call c f : emits (call (logged c f)) [c].
Proof.
  intros s s' a. unfold call, logged. destruct (f s.1) as [x [u|e|]]; [|done..]. by intros [= <- _].
Qed.
Lemma emits_for_each {A} (f : A -> tm unit) (g : A -> list Call) l :
  (forall a, emits (f a) (g a)) -> emits (for_each f l) (l ≫= g).
Proof. intros Hf. induction l as [|a l IH]; cbn [for_each]; [apply emits_ret|]. by apply emits_bind. Qed.

Lemma emits_for_each_silent {A} (f : A -> tm unit) l : (forall a, emits (f a) []) -> emits (for_each f l) [].
Proof. intros. rewrite <- (bind_nil l). by apply emits_for_each. Qed.

Lemma clear_logs s s' u : run_x clear_triggered_bits s = (s', Ok u) :> _ * result (StepError Er) _ ->
  s'.2 = s.2 ++ [CClear (get_triggered_bits s.1)].
Proof. by intros [= <- _]. Qed.

Lemma stable_logs st s s' u : replace_triggers_with_stable_edges st s = (s', Ok u) :> _ * result (StepError Er) _ ->
  s'.2 = s.2 ++ [CClear (get_triggered_bits s.1)].
Proof.
  intros (s1 & ? & Hc%clear_logs & Hk)%se_bind_Ok. apply emits_for_each_silent in Hk; [by rewrite Hk, app_nil_r|].
  intros [[sg id] c]. destruct (id =? usize_MAX); [apply emits_ret|]. apply emits_get. intros s2.
  apply emits_silent; [apply emits_lift|]. intros k. cbv zeta. case_match; [by apply emits_run_x|apply emits_ret].
Qed.

Lemma settle_logs st b s s' u : settle st b s = (s', Ok u) :> _ * result (StepError Er) _ ->
  exists after, after_ok b after /\ s'.2 = s.2 ++ settle_calls after.
Proof.
  intros (s1 & ? & E1%emits_call & Hk)%se_bind_Ok. destruct b.
  - apply stable_logs in Hk. exists [get_triggered_bits s1.1]. split; [done|]. by rewrite Hk, E1, <- app_assoc.
  - apply emits_ret in Hk. exists []. split; [done|]. by rewrite Hk, E1, app_nil_r.
Qed.

(** ** What is due *)

Lemma due_cons st done id ids : due (event_info st) done (id :: ids) = due (event_info st) done [id] ++ due (event_info st) (canon_of (due (event_info st) done [id]) ∪ done) ids.
Proof.
  unfold canon_of. cbn [due]. destruct (event_info st !! Z.to_nat id) as [i|]; cbn; [|by rewrite union_empty_l_L].
  destruct (decide (canonical_id i ∈ done)); cbn; [by rewrite union_empty_l_L|]. by rewrite union_empty_r_L.
Qed.

Lemma due_spec st done ids : NoDup (canonical_id <$> due (event_info st) done ids) /\
  forall i, i ∈ due (event_info st) done ids -> (canonical_id i ∉ done) /\ exists n : nat, event_info st !! n = Some i.
Proof.
  revert done. induction ids as [|id ids IH]; intros done; cbn; [split; [constructor|by intros i ?%not_elem_of_nil]|].
  destruct (event_info st !! Z.to_nat id) as [i|] eqn:Hi; [|apply IH]. destruct (decide _) as [|Hd]; [apply IH|].
  destruct (IH ({[canonical_id i]} ∪ done)) as [Hnd Hin]. split.
  - csimpl. constructor; [|done]. intros (j & Hj & Hj')%list_elem_of_fmap. apply Hin in Hj' as [Hj' _]. rewrite <- Hj in Hj'. set_solver.
  - intros j [->|Hj]%elem_of_cons; [by eauto|]. apply Hin in Hj as [? ?]. split; [set_solver|done].
Qed.

(** Discovered identifiers belong to triggered domains. *)
Definition known st p : Prop := forall id, id ∈ discovered p -> exists i, event_info st !! Z.to_nat id = Some i /\ canonical_id i ∈ triggered_domains p.

(** The domains [js] were sampled between [p] and [p']. *)
Record sampled st t (js : list info) p (l : list Call) p' (l' : list Call) : Prop := {
  sa_log : l' = l ++ (js ≫= eval_calls t);
  sa_newly : newly_triggered p' = newly_triggered p ++ (canonical_id <$> js);
  sa_triggered : triggered_domains p' = canon_of js ∪ triggered_domains p;
  sa_known : known st p';
  sa_logic : Forall has_logic js }.

Lemma sampled_nil st t p l p' : newly_triggered p' = newly_triggered p -> triggered_domains p' = triggered_domains p -> known st p' ->
  sampled st t [] p l p' l.
Proof. intros Hn Ht. split; cbn; [by rewrite app_nil_r|by rewrite Hn, app_nil_r|rewrite Ht; set_solver|done|constructor]. Qed.

Lemma canon_of_app js ks : canon_of (js ++ ks) = canon_of ks ∪ canon_of js.
Proof. unfold canon_of. rewrite fmap_app, list_to_set_app_L. set_solver. Qed.

Lemma sampled_app st t is1 is2 p1 l1 p2 l2 p3 l3 :
  sampled st t is1 p1 l1 p2 l2 -> sampled st t is2 p2 l2 p3 l3 -> sampled st t (is1 ++ is2) p1 l1 p3 l3.
Proof.
  intros [-> N1 T1 _ L1] [-> N2 T2 K2 L2]. split; [|..|done|by apply Forall_app].
  - by rewrite bind_app, app_assoc.
  - by rewrite N2, N1, fmap_app, app_assoc.
  - by rewrite T2, T1, canon_of_app, (assoc_L _).
Qed.

Lemma at_id_Ok {A} (l : list A) id a : at_id l id = Ok a :> result (StepError Er) A -> l !! Z.to_nat id = Some a.
Proof. unfold at_id, expect. destruct (_ !! _); [|done]. by intros [= ->]. Qed.

Lemma visit_sampled st t id p any s s' p' any' : known st p ->
  visit st t id p any s = (s', Ok (p', any') : result (StepError Er) _) ->
  let js := due (event_info st) (triggered_domains p) [id] in
  sampled st t js p s.2 p' s'.2 /\ any' = any || negb (bool_decide (js = [])).
Proof.
  intros Hk. unfold visit. case_bool_decide as Hd.
  { intros [= <- <- <-]. apply Hk in Hd as (i & Hi & Hc). cbn. rewrite Hi, decide_True by done. split; [by apply sampled_nil|by rewrite orb_false_r]. }
  intros (s1 & i & [= <- Hat%at_id_Ok] & Hv)%se_bind_Ok. cbn. rewrite Hat.
  assert (Hknown : forall T nw, triggered_domains p ⊆ T -> canonical_id i ∈ T ->
    known st {| discovered := {[id]} ∪ discovered p; triggered_domains := T; newly_triggered := nw |}).
  { intros T nw HT Hc x. cbn. intros [->%elem_of_singleton|Hx]%elem_of_union; [eauto|]. apply Hk in Hx as (j & ? & ?). eauto. }
  revert Hv. case_bool_decide as Ht.
  { intros [= <- <- <-]. rewrite decide_True by done. split; [|by rewrite orb_false_r]. apply sampled_nil; [done..|]. by apply Hknown. }
  rewrite decide_False by done. intros (s2 & u & Hcalls & [= <- <- <-])%se_bind_Ok. split; [|by rewrite orb_true_r].
  assert (s2.2 = s.2 ++ eval_calls t i /\ has_logic i) as [Hlog Hev].
  { revert Hcalls. unfold eval_calls, has_logic. destruct (eval_only_event i) as [h|].
    - intros (s3 & ? & E1%emits_call & E2%emits_call)%se_bind_Ok. rewrite E2, E1, <- app_assoc. split; [done|by left].
    - destruct (eval_ff_event i) as [h|]; [|done].
      intros (s3 & ? & E1%emits_call & E2%emits_call)%se_bind_Ok. rewrite E2, E1, <- app_assoc. split; [done|by right]. }
  split; cbn [triggered_domains newly_triggered].
  - cbn [mbind list_bind]. by rewrite app_nil_r.
  - done.
  - unfold canon_of. cbn. set_solver.
  - apply Hknown; set_solver.
  - by constructor.
Qed.

Lemma visit_all_sampled st t ids p any s s' p' any' : known st p ->
  visit_all st t ids p any s = (s', Ok (p', any') : result (StepError Er) _) ->
  let js := due (event_info st) (triggered_domains p) ids in
  sampled st t js p s.2 p' s'.2 /\ any' = any || negb (bool_decide (js = [])).
Proof.
  revert p any s. induction ids as [|id ids IH]; intros p any s Hk; cbn [visit_all].
  { intros [= <- <- <-]. split; [by apply sampled_nil|by rewrite orb_false_r]. }
  intros (s1 & [p1 a1] & (HS1 & A1)%visit_sampled & Hrest)%se_bind_Ok; [|done].
  apply IH in Hrest as [HS2 A2]; [|by apply (sa_known _ _ _ _ _ _ _ HS1)]. rewrite (sa_triggered _ _ _ _ _ _ _ HS1) in HS2, A2.
  cbn zeta. rewrite due_cons. split; [by eapply sampled_app|]. rewrite A2, A1. destruct any; [done|]. cbn [orb].
  destruct (due (event_info st) (triggered_domains p) [id]); [done|]. by rewrite orb_true_l.
Qed.

Lemma ascending_one (s : gset Z) id : ascending s = [id] <-> s = {[id]}.
Proof.
  split.
  - intros Ha. apply set_eq. intros x. rewrite <- elem_of_ascending, Ha. set_solver.
  - intros ->. unfold ascending. by rewrite elements_singleton.
Qed.

(** The fast path is taken exactly for a lone domain. *)
Lemma single_trigger_lone st p (marked : gset Z) : (exists e, single_trigger st p (ascending marked) = e :> result (StepError Er) _ /\
  match e with
  | Ok (Some (id, i, h)) => lone (event_info st) (triggered_domains p) marked id i h
  | Ok None => no_lone (event_info st) (triggered_domains p) marked
  | _ => True
  end).
Proof.
  eexists. split; [reflexivity|]. destruct (single_trigger _ _ _) as [[[[id i] h]|]|e|] eqn:Hs; [| |done..].
  - apply single_trigger_spec in Hs as (? & _ & Hm%ascending_one & ? & ? & ?). done.
  - intros id i h (Ht & Hm & Hi & Hc & Hh). apply ascending_one in Hm. revert Hs. unfold single_trigger.
    rewrite Hm, bool_decide_eq_true_2 by done. unfold at_id, expect. rewrite Hi. msimpl. by rewrite Hc, Hh.
Qed.

(** The inner loop ends with a sampled batch, or ran the lone domain. *)
Lemma inner_loop_turn fuel st t b p s s' p' fast : known st p ->
  inner_loop fuel st t b p s = (s', Ok (p', fast) : result (StepError Er) _) -> known st p' /\
  ((fast = false /\ exists rounds last, rounds_ok (event_info st) (triggered_domains p) rounds last /\
     newly_triggered p' = newly_triggered p ++ (canonical_id <$> (rounds ≫= snd)) /\
     triggered_domains p' = canon_of (rounds ≫= snd) ∪ triggered_domains p /\
     s'.2 = s.2 ++ rounds_calls t rounds ++ [CClear last]) \/
  (fast = true /\ exists id i h after, lone (event_info st) (triggered_domains p) {[id]} id i h /\ after_ok b after /\
     newly_triggered p' = newly_triggered p /\ triggered_domains p' = {[canonical_id i]} ∪ triggered_domains p /\
     s'.2 = s.2 ++ turn_calls t (Single id i h after))).
Proof.
  revert p s. induction fuel as [|fuel IH]; intros p s Hk; cbn [inner_loop]; [done|].
  intros (s1 & y & [= <- <-] & Hl)%se_bind_Ok. cbn [get_triggered_bits traced] in Hl. apply se_bind_Ok in Hl as (s2 & u & Hclr%clear_logs & Hl).
  apply se_bind_Ok in Hl as (s3 & single & [= <- Hs] & Hl).
  destruct (single_trigger_lone st p (get_triggered_bits s.1)) as (e & He & Hlone). rewrite Hs in He. subst e.
  set (marked := get_triggered_bits s.1) in *.
  destruct single as [[[id i] h]|].
  - apply se_bind_Ok in Hl as (s4 & ? & E1%emits_call & Hl). apply se_bind_Ok in Hl as (s5 & ? & E2%emits_call & Hl).
    apply se_bind_Ok in Hl as (s6 & ? & E3%emits_call & Hl). apply se_bind_Ok in Hl as (s7 & ? & (after & Haf & E4)%settle_logs & Hl).
    injection Hl as <- <- <-. pose proof Hlone as (_ & Hm & Hi & _). rewrite Hm in Hlone, Hclr. split.
    + intros k. cbn. intros [->%elem_of_singleton|Hkd]%elem_of_union; [exists i; split; [done|set_solver]|].
      apply Hk in Hkd as (j & ? & ?). exists j. split; [done|set_solver].
    + right. split; [done|]. exists id, i, h, after. split_and!; try done. rewrite E4, E3, E2, E1, Hclr. cbn [turn_calls]. by rewrite <- !app_assoc.
  - apply se_bind_Ok in Hl as (s4 & [p1 any] & [HS1 A1]%visit_all_sampled & Hl); [|done]. rewrite Hclr in HS1. cbn [orb] in A1.
    pose proof (sa_known _ _ _ _ _ _ _ HS1) as Hk1. pose proof (sa_triggered _ _ _ _ _ _ _ HS1) as Ht1. pose proof (sa_newly _ _ _ _ _ _ _ HS1) as Hn1. pose proof (sa_log _ _ _ _ _ _ _ HS1) as Hl1.
    set (js := due (event_info st) (triggered_domains p) (ascending marked)) in *. subst any. destruct (bool_decide (js = [])) eqn:Hjs; cbn [negb] in Hl.
    + apply bool_decide_eq_true in Hjs. rewrite Hjs in Hn1, Ht1, Hl1. injection Hl as <- <- <-. split; [done|]. left. split; [done|]. exists [], marked.
      split_and!; [by split|exact Hn1|exact Ht1|]. rewrite Hl1. cbn. by rewrite app_nil_r.
    + apply bool_decide_eq_false in Hjs. apply IH in Hl as [Hk' Hres]; [|done]. split; [done|].
      destruct Hres as [[-> (rounds & last & Hr & Hn & Ht & Hlog)]|[-> (id & i & h & after & (He & _) & _)]].
      * left. split; [done|]. exists ((marked, js) :: rounds), last. cbn [mbind list_bind snd]. split_and!.
        -- cbn [rounds_ok]. rewrite <- Ht1. split_and!; [done..|by apply (sa_logic _ _ _ _ _ _ _ HS1)|done].
        -- by rewrite Hn, Hn1, fmap_app, app_assoc.
        -- by rewrite Ht, Ht1, canon_of_app, (assoc_L _).
        -- rewrite Hlog, Hl1. unfold rounds_calls. cbn [mbind list_bind fst snd]. by rewrite <- !app_assoc.
      * exfalso. rewrite Ht1 in He. destruct js as [|j js']; [done|]. unfold canon_of in He. cbn in He. set_solver.
Qed.

Lemma commit_emits st t js :
  (forall i, i ∈ js -> event_info st !! Z.to_nat (canonical_id i) = Some i) ->
  emits (commit st t (canonical_id <$> js)) ((js ≫= apply_calls) ++ (js ≫= fire_calls t)).
Proof.
  intros Hi. apply emits_bind; [|intros _].
  - induction js as [|i js IH]; cbn [fmap list_fmap for_each mbind list_bind]; [apply emits_ret|].
    apply emits_bind; [|intros _; apply IH; intros; apply Hi; by right].
    unfold at_id. rewrite (Hi i) by left. intros s s' a. unfold expect. msimpl. unfold apply_calls.
    destruct (apply_event i); [apply emits_call|apply (emits_ret tt)].
  - induction js as [|i js IH]; cbn [fmap list_fmap for_each mbind list_bind]; [apply emits_ret|].
    apply emits_bind; [|intros _; apply IH; intros; apply Hi; by right].
    unfold at_id. rewrite (Hi i) by left. intros s s' a. unfold expect. msimpl. unfold fire_calls.
    destruct (eval_ff_event i); [apply emits_call|apply (emits_ret tt)].
Qed.

(** The domains of a batch: their entries, and no domain twice. *)
Lemma rounds_infos st done rounds last : rounds_ok (event_info st) done rounds last -> NoDup (canonical_id <$> (rounds ≫= snd)) /\
  forall i, i ∈ rounds ≫= snd -> (canonical_id i ∉ done) /\ has_logic i /\ exists n : nat, event_info st !! n = Some i.
Proof.
  revert done. induction rounds as [|[marked js] rounds IH]; intros done; cbn [rounds_ok mbind list_bind snd]; [split; [constructor|by intros i ?%not_elem_of_nil]|].
  intros (_ & Hjs & _ & Hlogic & [Hnd Hin]%IH). destruct (due_spec st done (ascending marked)) as [Hnd' Hin']. rewrite <- Hjs in Hnd', Hin'. split.
  - rewrite fmap_app. apply NoDup_app. split_and!; [done| |done]. intros c Hc (i & -> & [Hi _]%Hin)%list_elem_of_fmap. apply Hi, elem_of_union_l. unfold canon_of. by rewrite elem_of_list_to_set.
  - intros i [Hi|Hi]%elem_of_app.
    + rewrite Forall_forall in Hlogic. destruct (Hin' i Hi) as [? ?]. auto.
    + destruct (Hin i Hi) as (Hc & ? & ?). split; [|done]. set_solver.
Qed.

Lemma turn_infos_fresh st b done u : turn_ok (event_info st) b done u -> NoDup (canonical_id <$> turn_infos u) /\ forall c, c ∈ canonical_id <$> turn_infos u -> c ∉ done.
Proof.
  destruct u as [id i h after|rounds last after]; cbn [turn_ok turn_infos].
  - intros [(-> & _) _]. split; [apply NoDup_singleton|set_solver].
  - intros (_ & [Hnd Hin]%rounds_infos & _). split; [done|]. by intros c (i & -> & [? _]%Hin)%list_elem_of_fmap.
Qed.

(** No domain is evaluated twice. *)
Lemma turns_distinct st b done us last : turns_ok (event_info st) b done us last -> NoDup (domains us) /\ forall c, c ∈ domains us -> c ∉ done.
Proof.
  unfold domains. revert done. induction us as [|u us IH]; intros done; cbn [turns_ok mbind list_bind]; [split; [constructor|by intros c ?%not_elem_of_nil]|].
  intros [[Hnd Hd]%turn_infos_fresh [Hnds Hds]%IH]. rewrite fmap_app. split.
  - apply NoDup_app. split_and!; [done| |done]. intros c Hc Hc'. apply (Hds c Hc'), elem_of_union_l. unfold canon_of. by rewrite elem_of_list_to_set.
  - intros c [Hc|Hc]%elem_of_app; [by apply Hd|]. apply Hds in Hc. set_solver.
Qed.

Lemma outer_loop_turns fuel st t b p s s' : coherent st -> known st p ->
  outer_loop fuel st t b p s = (s', Ok tt : result (StepError Er) unit) ->
  exists us last, turns_ok (event_info st) b (triggered_domains p) us last /\ s'.2 = s.2 ++ (us ≫= turn_calls t) ++ [CClear last].
Proof.
  intros Hco. revert p s. induction fuel as [|fuel IH]; intros p s Hkn; cbn [outer_loop]; [done|].
  intros (s1 & [p1 fast] & [Hk1 Hin]%inner_loop_turn & Hk)%se_bind_Ok; [|exact Hkn]. cbn [triggered_domains newly_triggered] in Hin.
  destruct Hin as [[-> (rounds & last & Hr & Hn & Ht & Hlog)]|[-> (id & i & h & after & Hlone & Haf & Hn & Ht & Hlog)]].
  - rewrite Hn in Hk. cbn [app] in Hk. destruct (bool_decide _) eqn:Hstop; cbn [andb negb] in Hk.
    { injection Hk as <-. apply bool_decide_eq_true, fmap_nil_inv in Hstop. exists [], last. destruct rounds as [|[marked js] rounds]; [by rewrite Hlog|].
      destruct Hr as (_ & _ & Hne & _). cbn in Hstop. by apply app_eq_nil in Hstop as [? _]. }
    apply bool_decide_eq_false in Hstop. apply se_bind_Ok in Hk as (s2 & ? & E2 & Hk).
    apply commit_emits in E2; [|intros i Hi; apply (rounds_infos _ _ _ _ Hr) in Hi as (_ & ? & [n ?]); by eapply Hco].
    apply se_bind_Ok in Hk as (s3 & ? & (after & Haf & E3)%settle_logs & Hk). apply IH in Hk as (us & final & Hus & Hrest); [|done].
    exists (Batch rounds last after :: us), final. cbn [turns_ok turn_ok turn_infos]. rewrite <- Ht. split_and!; [intros ->; by apply Hstop|done..|].
    rewrite Hrest, E3, E2, Hlog. cbn [mbind list_bind turn_calls]. rewrite <- !app_assoc. cbn [app]. by rewrite <- !app_assoc.
  - cbn [negb] in Hk. rewrite andb_false_r in Hk. rewrite Hn in Hk.
    apply se_bind_Ok in Hk as (s2 & ? & E2 & Hk). apply (commit_emits st t []) in E2; [|by intros ? ?%not_elem_of_nil].
    apply se_bind_Ok in Hk as (s3 & ? & E3%emits_ret & Hk). apply IH in Hk as (us & final & Hus & Hrest); [|done].
    exists (Single id i h after :: us), final. cbn [turns_ok turn_ok turn_infos]. rewrite Ht in Hus. split_and!; [done|done| |].
    + unfold canon_of. cbn. by rewrite union_empty_r_L.
    + rewrite Hrest, E3, E2, Hlog. cbn [mbind list_bind turn_calls]. by rewrite !app_nil_r, <- !app_assoc.
Qed.

Lemma emits_mark st evs found ids : emits (mark_scheduled st evs found ids) [].
Proof.
  revert found ids. induction evs as [|ev evs IH]; intros found ids; cbn [mark_scheduled]; [apply emits_ret|].
  destruct (_ !! _) as [id|]; [|apply IH]. apply emits_silent; [apply emits_lift|]. intros k.
  case_match; [|apply IH]. apply emits_silent; [by apply emits_run_x|]. intros _. apply IH.
Qed.

Lemma step_events_turns st t evs s s' :
  coherent st -> step_events st t evs s = (s', Ok tt : result (StepError Er) unit) ->
  exists b before after us last, after_ok b after /\ turns_ok (event_info st) b ∅ us last /\
    s'.2 = s.2 ++ CClear before :: settle_calls after ++ (us ≫= turn_calls t) ++ [CClear last].
Proof.
  intros Hco. unfold step_events.
  intros (s1 & ? & E1 & Hk)%se_bind_Ok. apply emits_for_each_silent in E1; [|intros; by apply emits_run_x].
  apply se_bind_Ok in Hk as (s2 & ? & E2%clear_logs & Hk).
  apply se_bind_Ok in Hk as (s3 & [has ids] & E3%emits_mark & Hk).
  apply se_bind_Ok in Hk as (s4 & ? & E4%emits_call & Hk).
  apply se_bind_Ok in Hk as (s5 & ? & E5 & Hk).
  assert (exists after, after_ok has after /\ s5.2 = s4.2 ++ (CClear <$> after)) as (after & Haf & E5').
  { revert E5. destruct has; [|by intros ?%emits_ret; exists []]. intros E5. exists [get_triggered_bits s4.1]. split; [done|]. revert E5.
    case_bool_decide; [by intros ?%stable_logs|]. intros (s6 & ? & E6%clear_logs & E7)%se_bind_Ok.
    apply emits_for_each_silent in E7; [|intros; by apply emits_run_x]. by rewrite E7, E6, app_nil_r. }
  apply outer_loop_turns in Hk as (us & last & Hus & Hlog); [|done|by intros ?]. exists has, (get_triggered_bits s1.1), after, us, last.
  split_and!; [done..|]. rewrite Hlog, E5', E4, E3, E2, E1, !app_nil_r. unfold settle_calls. by rewrite <- !app_assoc.
Qed.

Lemma step_erases st x l :
  exists l', step (st, (x, l)) =
    (((step (st, x)).1.1, ((step (st, x)).1.2, l')), (step (st, x)).2) :> _ * result (StepError Er) _ .
Proof.
  unfold step. destruct (pop_all_at_next_time (scheduler st)) as [[[t evs] sc]|]; [|by exists l].
  match goal with |- context [step_events ?st t evs (x, l)] =>
    destruct (erases_step_events st t evs x l) as [l1 ->]; set (st1 := st) end.
  destruct (step_events st1 t evs x) as [x1 [u|e|]]; cbn [fst snd]; [|by exists l1..].
  change (record_values st1 (x1, l1) (last_clock_values st1)) with (record_values st1 x1 (last_clock_values st1)).
  destruct (reschedule _ _ _) as [sc'|e|]; cbn [fst snd]; [|by exists l1..]. by eexists.
Qed.

(** C18: a timestamp is processed in two phases, provided an event entry
    that can be evaluated is the entry of its canonical identifier, as the
    facade fills the table ([coherent]). A completed step makes, on any
    executor, the calls of this protocol and no others: settle the
    combinational logic; then turn after turn read the marked identifiers and
    either, when nothing was evaluated yet and exactly one is marked, whose
    domain is not cascaded, evaluate and apply that domain at once, or else
    sample every marked domain that was not evaluated in this step, reading
    again until nothing new is marked, and only then commit all of them;
    settle after each turn; stop at a reading that makes nothing due; finish
    the timestamp. No canonical domain is evaluated twice in a step. The trace
    is read off a logging executor that behaves like the given one. *)
Theorem step_two_phase st st' x x' t (Hco : coherent st)
    (Hstep : step (st, x) = ((st', x'), Ok (Some t)) :> _ * result (StepError Er) _) :
  exists stable before after us last, step (st, (x, [])) =
      ((st', (x', CClear before :: settle_calls after ++ (us ≫= turn_calls t) ++ [CClear last; CFinish t])), Ok (Some t)) :> _ * result (StepError Er) _ /\
    after_ok stable after /\ turns_ok (event_info st) stable ∅ us last /\ NoDup (domains us).
Proof.
  destruct (step_erases st x []) as [l' E0]. rewrite Hstep in E0. cbn [fst snd] in E0.
  pose proof E0 as E1. revert E1. unfold step at 1.
  destruct (pop_all_at_next_time (scheduler st)) as [[[t1 evs] sc]|]; [|done].
  match goal with |- context [step_events ?st t1 evs _] => set (st1 := st) end.
  destruct (step_events st1 t1 evs (x, [])) as [s1 [[]|e|]] eqn:Es; [|done..].
  apply (step_events_turns st1) in Es as (b & before & after & us & last & Haf & Hus & Hlog); [|exact Hco].
  destruct (reschedule _ _ _) as [sc'|e|]; [|done..]. intros [= _ _ Hl Ht]. subst t1.
  exists b, before, after, us, last. split_and!; [|exact Haf|exact Hus|by eapply turns_distinct]. rewrite E0, <- Hl. cbn [traced finish_timed_step snd].
  rewrite Hlog. unfold settle_calls. cbn [snd app]. by rewrite <- !app_assoc.
Qed.
End trace.

(** ** Two clocks rising at the same time *)

#[local] Existing Instance traced.

(** The state is the signals' values and the marked domains; evaluation
    succeeds and changes nothing. *)
#[local] Instance bits_executor : SimulationExecutor (gmap Z Z * gset Z) Z Z unit := {
  get_as x s := default 0 (x.1 !! s);
  set s v x := (<[s := v]> x.1, x.2);
  clear_triggered_bits x := (x.1, ∅);
  mark_triggered_bit id x := (x.1, {[id]} ∪ x.2);
  get_triggered_bits x := x.2;
  eval_comb x := (x, Ok tt);
  eval_apply_ff_at _ x := (x, Ok tt);
  eval_only_ff_at _ x := (x, Ok tt);
  apply_ff_at _ x := (x, Ok tt);
  stage_external_event _ _ x := (x, Ok tt);
  fire_external_event _ _ x := (x, Ok tt);
  finish_timed_step _ x := x;
  dump _ x := x }.

Definition two_clocks : SimulationState (E:=Z) (Sg:=Z) (Q:=sorted_queue (event_le (E:=Z) (Sg:=Z))) :=
  add_clock 1 1 10 5 (add_clock 0 0 10 5
    (SimulationState_new (Er:=unit) ((∅, ∅) : gmap Z Z * gset Z) [(0, 0, 1); (1, 1, 1)]
      [Some ClockPosedge; Some ClockPosedge]
      ((fun id => {| canonical_id := id; is_cascaded := false; eval_ff_event := Some id;
                     eval_only_event := Some id; apply_event := Some id |}) <$> [0; 1]))).

Lemma two_clocks_coherent : coherent two_clocks.
Proof. intros [|[|n]] i; [by intros [= <-]..|]. by destruct n. Qed.

(** Both clocks are sampled before either is committed. *)
Lemma step_two_phase_witness :
  coherent two_clocks /\
  exists st' x', step (two_clocks, (∅, ∅)) = ((st', x'), Ok (Some 5)) :> _ * result (StepError unit) _ /\
  exists stable before after us last, step (two_clocks, ((∅, ∅), [])) =
      ((st', (x', CClear before :: settle_calls after ++ (us ≫= turn_calls 5) ++ [CClear last; CFinish 5])), Ok (Some 5)) :> _ * result (StepError unit) _ /\
    after_ok stable after /\ turns_ok (event_info two_clocks) stable ∅ us last /\ NoDup (domains us).
Proof.
  split; [exact two_clocks_coherent|].
  destruct (step (two_clocks, (∅, ∅) : gmap Z Z * gset Z)) as [[st' x'] r] eqn:Hstep.
  assert (r = Ok (Some 5)) as -> by (apply (f_equal snd) in Hstep; vm_compute in Hstep; done).
  exists st', x'. split; [reflexivity|].
  exact (step_two_phase two_clocks st' (∅, ∅) x' 5 two_clocks_coherent Hstep).
Defined.
