(* ===== verification/SimulationTime.v ===== *)
(** * SimulationTime: how the queue and the clock advance

    What a step leaves in the queue, that time strictly advances when every
    clock has a positive half period, that [run_until] then ends with all
    events up to its bound processed -- and that it does not end otherwise. *)

From S2P Require Import Prelude Order Design Simulation SimulationFacts.

Section time.
Context {E Sg Er : Type} `{EventHandle E} `{Countable Sg} `{!Ord Sg}.
Context {Q : Type} `{!@PriorityQueue (@SimEvent E Sg) event_le Q}.
Context {X : Type} `{!SimulationExecutor X E Sg Er}.
Abbreviation state := (SimulationState (E:=E) (Sg:=Sg) (Q:=Q)).
Abbreviation event := (@SimEvent E Sg).
Implicit Types (st : state) (x : X) (ev : event) (t : Z).
Abbreviation outcome A := (result (StepError Er) A).

(** The next edge of a processed event whose identifier has a clock. *)
Definition rearm t (cs : list (option Z)) ev : option event :=
  match cs !! Z.to_nat (ev_id (event_ref ev)) with
  | Some (Some period) => Some {| time := t + period / 2; event_ref := event_ref ev;
                                  signal := signal ev; next_val := 1 - next_val ev |}
  | _ => None
  end.

Lemma reschedule_spec t (evs : list event) (s s' : Scheduler (Q:=Q)) :
  reschedule t evs s = Ok s' :> outcome _ ->
  queued s' ≡ₚ omap (rearm t (clocks s)) evs ++ queued s /\ clocks s' = clocks s /\ now s' = now s.
Proof.
  revert s. induction evs as [|ev evs IH]; intros s; cbn [reschedule omap list_omap]; [by intros [= ->]|].
  unfold rearm at 1. destruct (clocks s !! _) as [[period|]|]; try (apply IH).
  unfold u64_add, expect. msimpl. destruct (checked_add t (period / 2)) as [t'|] eqn:Et; [|done].
  destruct (checked_sub 1 (next_val ev)) as [v|] eqn:Ev; [|done].
  apply checked_add_Some in Et as [-> _]. apply checked_sub_Some in Ev as [-> _].
  intros Hr. destruct (IH _ Hr) as (Hp & Hc & Hn). cbn [clocks now push] in *. split_and!; [|done..].
  rewrite Hp. unfold queued. cbn [event_queue push]. rewrite pq_elems_push. symmetry. apply Permutation_middle.
Qed.

(** A completed step, seen from the queue. *)
Record stepped st t st' (events rest : list event) : Prop := {
  sp_popped : queued (scheduler st) ≡ₚ events ++ rest;
  sp_time : Forall (fun ev => time ev = t) events;
  sp_later : Forall (fun ev => t < time ev) rest;
  sp_next : next_event_time (scheduler st) = Some t;
  sp_queue : queued (scheduler st') ≡ₚ omap (rearm t (clocks (scheduler st))) events ++ rest;
  sp_clocks : clocks (scheduler st') = clocks (scheduler st);
  sp_now : now (scheduler st') = t }.

Lemma step_stepped st st' x x' r :
  step (st, x) = ((st', x'), Ok r) :> _ * outcome _ ->
  match r with
  | Some t => exists events rest, stepped st t st' events rest
  | None => queued (scheduler st) = [] /\ st' = st
  end.
Proof.
  unfold step. pose proof (pop_all_spec (scheduler st)) as Hpop.
  destruct (pop_all_at_next_time (scheduler st)) as [[[t evs] s]|]; [|by intros [= -> _ <-]].
  match goal with |- context [step_events ?st1 t evs x] => destruct (step_events st1 t evs x) as [x1 [u|e|]] end; [|done..].
  destruct (reschedule _ _ _) as [s'|e|] eqn:Er'; [|done..]. intros [= <- _ <-].
  apply reschedule_spec in Er' as (Hq & Hc & Hn). cbn in Hq, Hc, Hn. destruct Hpop as [Hp Hne Ht Hl Hs Hnext Hcl].
  exists evs, (queued s). split; cbn; try done.
  - unfold queued in *. cbn in *. rewrite Hq. by rewrite Hcl.
  - by rewrite Hc, Hcl.
Qed.

(** C20: a completed step consumes the events of the earliest time and re-arms
    every consumed event whose identifier has a clock -- whether a clock edge
    or one queued by [schedule] -- half a period later with the opposite
    value; later events stay, the clocks are unchanged and the scheduler's
    time is the one returned. With an empty queue nothing changes. *)
Theorem step_queue st st' x x' r
    (Hstep : step (st, x) = ((st', x'), Ok r) :> _ * outcome _) :
  match r with
  | Some t => exists events rest,
      queued (scheduler st) ≡ₚ events ++ rest /\
      (Forall (fun ev => time ev = t) events /\ Forall (fun ev => t < time ev) rest) /\
      queued (scheduler st') ≡ₚ omap (rearm t (clocks (scheduler st))) events ++ rest /\
      clocks (scheduler st') = clocks (scheduler st) /\ now (scheduler st') = t
  | None => queued (scheduler st) = [] /\ st' = st
  end.
Proof.
  apply step_stepped in Hstep. destruct r as [t|]; [|done]. destruct Hstep as (evs & rest & [Hp Ht Hl _ Hq Hc Hn]).
  by exists evs, rest.
Qed.

(** Every clock toggles at least one time unit after its last edge. *)
Definition clocks_positive st : Prop :=
  forall (n : nat) period, clocks (scheduler st) !! n = Some (Some period) -> 2 <= period.

Lemma step_future st st' x x' t :
  clocks_positive st -> step (st, x) = ((st', x'), Ok (Some t)) :> _ * outcome _ ->
  (forall ev, ev ∈ queued (scheduler st') -> t < time ev) /\ clocks_positive st' /\ next_event_time (scheduler st) = Some t.
Proof.
  intros Hpos (evs & rest & [Hp Ht Hl Hnext Hq Hc _])%step_stepped. split_and!; [| |done].
  - intros ev. rewrite Hq. intros [Hin|Hin]%elem_of_app; [|rewrite Forall_forall in Hl; by apply Hl].
    apply list_elem_of_omap in Hin as (ev0 & _ & Hr). unfold rearm in Hr.
    destruct (clocks (scheduler st) !! _) as [[period|]|] eqn:Hcl; try done. injection Hr as <-. simpl.
    apply Hpos in Hcl. pose proof (Z.div_le_mono 2 period 2 ltac:(lia) Hcl). change (2 / 2) with 1 in *. lia.
  - unfold clocks_positive. by rewrite Hc.
Qed.

Lemma run_until_bounded fuel lb end_time st x :
  clocks_positive st -> (forall ev, ev ∈ queued (scheduler st) -> lb <= time ev) ->
  (Z.to_nat (end_time + 1 - lb) <= fuel)%nat ->
  (run_until fuel end_time (st, x)).2 <> Err OutOfFuel /\
  forall st' x', run_until fuel end_time (st, x) = ((st', x'), Ok tt) :> _ * outcome _ ->
    now (scheduler st') = end_time /\ (forall ev, ev ∈ queued (scheduler st') -> end_time < time ev).
Proof.
  assert (forall st0 x0, (forall ev, ev ∈ queued (scheduler st0) -> end_time < time ev) ->
    (((set_time end_time st0, dump end_time x0), Ok tt) : _ * outcome unit).2 <> Err OutOfFuel /\
    forall st' x', (((set_time end_time st0, dump end_time x0), Ok tt) : _ * outcome unit) = ((st', x'), Ok tt) ->
      now (scheduler st') = end_time /\ (forall ev, ev ∈ queued (scheduler st') -> end_time < time ev)) as Hstop.
  { intros st0 x0 Hlate. split; [done|]. intros st' x' [= <- _]. by split. }
  revert lb st x. induction fuel as [|fuel IH]; intros lb st x Hpos Hlb Hfuel; cbn [run_until fst snd];
    (destruct (next_event_time (scheduler st)) as [t|] eqn:Et;
      [|apply Hstop; apply next_event_time_None in Et; rewrite Et; by intros ? ?%not_elem_of_nil]);
    (destruct (peek_least _ _ Et) as [Hmin (ev0 & Hin0 & <-)]; apply Hlb in Hin0);
    (destruct (Z.ltb_spec end_time (time ev0)); [apply Hstop; intros ev Hin%Hmin; lia|]); [lia|].
  destruct (step (st, x)) as [[st1 x1] [r|e|]] eqn:Es.
  - destruct r as [t|].
    + destruct (step_future st st1 x x1 t Hpos Es) as (Hfut & Hpos1 & Hnext).
      rewrite Et in Hnext. injection Hnext as <-.
      apply (IH (time ev0 + 1)); [done| |lia]. intros ev Hin%Hfut. lia.
    + apply (step_stepped st st1 x x1 None) in Es as [Hempty _].
      apply next_event_time_None in Hempty. congruence.
  - split; [|done]. pose proof (step_terminates_raw st x) as Hs. rewrite Es in Hs.
    simpl in *. congruence.
  - by split.
Qed.

(** C24: [run_until] ends. If every clock period is at least 2 and no event is
    queued before time 0, [run_until end_time] needs at most [end_time + 1]
    steps on any executor, because each step leaves only later events; and
    when it succeeds the time is [end_time] and only events after it are
    left. *)
Theorem run_until_ends (end_time : Z) st x (Hpos : clocks_positive st)
    (Hpast : forall ev, ev ∈ queued (scheduler st) -> 0 <= time ev) :
  (run_until (Z.to_nat (end_time + 1)) end_time (st, x)).2 <> Err OutOfFuel /\
  forall st' x', run_until (Z.to_nat (end_time + 1)) end_time (st, x) = ((st', x'), Ok tt) :> _ * outcome _ ->
    now (scheduler st') = end_time /\ (forall ev, ev ∈ queued (scheduler st') -> end_time < time ev).
Proof. apply (run_until_bounded _ 0); [done..|]. by rewrite Z.sub_0_r. Qed.
End time.

(** ** A design without event domains *)

(** Every call succeeds and nothing is ever triggered. *)
#[global] Instance quiet_executor : SimulationExecutor unit Z Z unit := {
  get_as _ _ := 0; set _ _ x := x; clear_triggered_bits x := x; mark_triggered_bit _ x := x;
  get_triggered_bits _ := ∅; eval_comb x := (x, Ok tt); eval_apply_ff_at _ x := (x, Ok tt);
  eval_only_ff_at _ x := (x, Ok tt); apply_ff_at _ x := (x, Ok tt);
  stage_external_event _ _ x := (x, Ok tt); fire_external_event _ _ x := (x, Ok tt);
  finish_timed_step _ x := x; dump _ x := x }.

Abbreviation heap := (sorted_queue (event_le (E:=Z) (Sg:=Z))).
Abbreviation quiet_state := (SimulationState (E:=Z) (Sg:=Z) (Q:=heap)).

Definition quiet_start : quiet_state := SimulationState_new tt [] [] [].

Section stall.
Context (period : Z) (Hperiod : 0 <= period < 2).

(** The state a clock of period 0 or 1 never leaves. *)
Record stalled (st : quiet_state) : Prop := {
  sl_queue : exists v, 0 <= v <= 1 /\
    queued (scheduler st) = [{| time := 0; event_ref := 0; signal := 0; next_val := v |}];
  sl_clocks : clocks (scheduler st) = [Some period];
  sl_topo : topo_signals st = [];
  sl_ids : signal_to_id st = ∅;
  sl_info : event_info st = [] }.

Lemma quiet_events (sch : Scheduler (Q:=heap)) lcv kinds ev :
  step_events {| scheduler := sch; last_clock_values := lcv; topo_signals := []; domain_kinds := kinds;
                 event_info := []; signal_to_id := ∅ |} 0 [ev] tt = (tt, Ok tt) :> _ * result (StepError unit) unit.
Proof using. unfold step_events. destruct ev. by vm_compute. Qed.

Lemma rearm_stalled (s : Scheduler (Q:=heap)) v :
  0 <= v <= 1 -> clocks s = [Some period] ->
  reschedule 0 [{| time := 0; event_ref := 0; signal := 0; next_val := v |}] s =
  Ok (push {| time := 0; event_ref := 0; signal := 0; next_val := 1 - v |} s) :> result (StepError unit) _.
Proof using Hperiod.
  intros Hv Hc. cbn [reschedule]. rewrite Hc.
  change ([Some period] !! Z.to_nat _) with (Some (Some period)). cbv iota. rewrite (Z.div_small period 2) by done.
  cbn [next_val].
  unfold checked_sub. rewrite decide_True by lia. done.
Qed.

Lemma stalled_step st : stalled st -> exists st', step (st, tt) = ((st', tt), Ok (Some 0)) :> _ * result (StepError unit) _ /\ stalled st'.
Proof using Hperiod.
  intros [(v & Hv & Hq) Hc Ht Hi Hf]. destruct st as [[nw cl [l Hs]] lcv topo kinds inf ids].
  cbn in Hq, Hc, Ht, Hi, Hf. unfold queued in Hq. cbn in Hq. subst l topo ids inf cl.
  eexists. split.
  - unfold step, pop_all_at_next_time, next_event_time, pq_peek. cbn -[step_events reschedule].
    unfold with_scheduler at 1. cbn -[step_events reschedule]. rewrite quiet_events.
    cbn -[step_events reschedule]. rewrite rearm_stalled by done. reflexivity.
  - split; cbn; try done. exists (1 - v). split; [lia|]. done.
Qed.

Lemma stalled_forever fuel st : stalled st -> (run_until fuel 0 (st, tt)).2 = Err OutOfFuel :> result (StepError unit) unit.
Proof using Hperiod.
  revert st. induction fuel as [|fuel IH]; intros st Hst; cbn [run_until fst snd];
    (assert (next_event_time (scheduler st) = Some 0) as ->
      by (destruct Hst as [(v & _ & Hq) _ _ _ _]; unfold next_event_time, pq_peek;
          destruct (scheduler st) as [nw cl [l Hs]]; unfold queued in Hq; cbn in *; by subst l)); [done|].
  destruct (stalled_step st Hst) as (st' & -> & Hst'). by apply IH.
Qed.
End stall.

(** C40: [run_until] needs a positive half period. [add_clock] accepts a clock
    of period 0 or 1; its next edge is then queued at the time of the last
    one, and [run_until 0] steps for ever: it exceeds every bound on the
    number of steps. *)
Theorem run_until_stalls (period : Z) (Hperiod : 0 <= period < 2) (fuel : nat) :
  (run_until fuel 0 (add_clock 0 0 period 0 quiet_start, tt)).2 = Err OutOfFuel :> result (StepError unit) unit.
Proof. apply (stalled_forever period Hperiod). split; try done. exists 1. split; [lia|done]. Qed.

Lemma run_until_stalls_witness :
  (0 <= 1 < 2) /\
  (run_until 1000 0 (add_clock 0 0 1 0 quiet_start, tt)).2 = Err OutOfFuel :> result (StepError unit) unit.
Proof. split; [lia|]. apply (run_until_stalls 1). lia. Defined.

(** ** Witnesses *)

(** A clock of period 10 from time 5 and a [schedule]d value on its event at
    time 3. *)
Definition clocked_state : quiet_state := schedule 0 0 3 0 (add_clock 0 0 10 5 quiet_start).

Lemma clocked_step :
  exists st', step (clocked_state, tt) = ((st', tt), Ok (Some 3)) :> _ * result (StepError unit) _.
Proof. eexists. vm_compute. reflexivity. Qed.

Lemma step_queue_witness :
  exists st', step (clocked_state, tt) = ((st', tt), Ok (Some 3)) :> _ * result (StepError unit) _ /\
  exists events rest,
      queued (scheduler clocked_state) ≡ₚ events ++ rest /\
      (Forall (fun ev => time ev = 3) events /\ Forall (fun ev => 3 < time ev) rest) /\
      queued (scheduler st') ≡ₚ omap (rearm 3 (clocks (scheduler clocked_state))) events ++ rest /\
      clocks (scheduler st') = clocks (scheduler clocked_state) /\ now (scheduler st') = 3.
Proof.
  destruct clocked_step as [st' Hst']. exists st'. split; [exact Hst'|].
  exact (step_queue clocked_state st' tt tt (Some 3) Hst').
Defined.

Lemma clocked_positive : clocks_positive clocked_state.
Proof. intros [|n] period; [intros [= <-]; lia|]. by destruct n. Qed.

Lemma clocked_future ev : ev ∈ queued (scheduler clocked_state) -> 0 <= time ev.
Proof. cbn. intros Hin. repeat (apply elem_of_cons in Hin as [->|Hin]; [simpl; lia|]). by apply not_elem_of_nil in Hin. Qed.

Lemma run_until_ends_witness :
  clocks_positive clocked_state /\
  (run_until 101 100 (clocked_state, tt)).2 <> Err OutOfFuel :> result (StepError unit) unit.
Proof.
  split; [exact clocked_positive|].
  exact (proj1 (run_until_ends (Er:=unit) 100 clocked_state tt clocked_positive clocked_future)).
Defined.
