(* ===== verification/Bits.v ===== *)
(** * Bits: masks, wrap-around and sign extension on machine words

    The integer vocabulary of the bytecode evaluator: 64-bit wrap-around,
    width masks as remainders, two's-complement reading of a field, popcount
    and little-endian byte strings, with the rewriting lemmas of the [bits]
    hint database. *)

From S2P Require Import Prelude.

Definition u64_max : Z := 2^64 - 1.
Definition is_u64 (z : Z) : Prop := 0 <= z < 2^64.

(** [u64] arithmetic that discards the high bits. *)
Definition wrap64 (z : Z) : Z := z mod 2^64.

(** [!x] on [u64]. *)
Definition u64_not (x : Z) : Z := Z.lxor x u64_max.

(** Two's-complement reading of the low [w] bits. *)
Definition sext (w v : Z) : Z :=
  if (w =? 0) || negb (Z.testbit v (w - 1)) then v else v - 2^w.

(** [u64::count_ones] *)
Fixpoint pos_ones (p : positive) : Z :=
  match p with
  | xH => 1
  | xO p => pos_ones p
  | xI p => 1 + pos_ones p
  end.
Definition count_ones (z : Z) : Z :=
  match z with Zpos p => pos_ones p | _ => 0 end.

(** The number a little-endian digit string denotes in base [b]. *)
Fixpoint digits_value (b : Z) (ds : list Z) : Z :=
  match ds with [] => 0 | d :: ds => d + b * digits_value b ds end.
Abbreviation le_value := (digits_value 256).

Definition is_byte (z : Z) : Prop := 0 <= z < 256.

(** [u64::to_le_bytes] *)
Definition to_le_bytes (n : nat) (v : Z) : list Z :=
  (fun i => Z.shiftr v (8 * Z.of_nat i) mod 256) <$> seq 0 n.

Create Rewrite HintDb bits.

(** ** Remainders by powers of two *)

Lemma pow2_pos w : 0 <= w -> 0 < 2^w.
Proof. intros. by apply Z.pow_pos_nonneg. Qed.

Lemma mod_pow2_range z w : 0 <= w -> 0 <= z mod 2^w < 2^w.
Proof. intros. by apply Z.mod_pos_bound, pow2_pos. Qed.

Lemma mod_mod_le z a b : 0 <= b <= a -> (z mod 2^a) mod 2^b = z mod 2^b.
Proof. intros. apply Z.mod_mod_divide. exists (2^(a-b)). rewrite <- Z.pow_add_r by lia. f_equal. lia. Qed.

Lemma mod_pow2_idem z w : 0 <= w -> (z mod 2^w) mod 2^w = z mod 2^w.
Proof. intros. apply mod_mod_le. lia. Qed.

Lemma wrap64_mod z w : 0 <= w <= 64 -> wrap64 z mod 2^w = z mod 2^w.
Proof. intros. unfold wrap64. by apply mod_mod_le. Qed.

Lemma wrap64_u64 z : is_u64 (wrap64 z).
Proof. unfold is_u64, wrap64. apply Z.mod_pos_bound. lia. Qed.

Lemma mod_pow2_u64 z w : 0 <= w <= 64 -> is_u64 (z mod 2^w).
Proof.
  intros. unfold is_u64. pose proof (mod_pow2_range z w ltac:(lia)).
  pose proof (Z.pow_le_mono_r 2 w 64 ltac:(lia) ltac:(lia)). lia.
Qed.

Lemma mod_pow2_small z w : 0 <= z < 2^w -> z mod 2^w = z.
Proof. apply Z.mod_small. Qed.

Lemma testbit_mod z w i : 0 <= w -> 0 <= i ->
  Z.testbit (z mod 2^w) i = (i <? w) && Z.testbit z i.
Proof.
  intros. destruct (Z.ltb_spec i w); simpl.
  - by rewrite Z.mod_pow2_bits_low.
  - by rewrite Z.mod_pow2_bits_high by lia.
Qed.

Lemma testbit_ones w i : 0 <= w -> 0 <= i -> Z.testbit (2^w - 1) i = (i <? w).
Proof.
  intros. rewrite Z.sub_1_r, <- Z.ones_equiv. destruct (Z.ltb_spec i w).
  - by apply Z.ones_spec_low.
  - by apply Z.ones_spec_high.
Qed.

(** Equality of remainders and bitwise expressions, bit by bit. *)
Ltac bit_solve :=
  apply Z.bits_inj'; intros ?i ?;
  repeat first
    [ rewrite testbit_mod by lia | rewrite testbit_ones by lia
    | rewrite Z.shiftr_spec by lia | rewrite Z.testbit_0_l | rewrite Z.land_spec | rewrite Z.lor_spec | rewrite Z.lxor_spec | rewrite Z.lnot_spec by lia ];
  repeat match goal with |- context [?a <? ?b] => destruct (Z.ltb_spec a b) end;
  try lia;
  repeat match goal with |- context [Z.testbit ?a ?b] => destruct (Z.testbit a b) end; try done; try lia.

Lemma land_ones_mod z w : 0 <= w -> Z.land z (2^w - 1) = z mod 2^w.
Proof. intros. bit_solve. Qed.

Lemma land_mod a b w : 0 <= w -> Z.land a b mod 2^w = Z.land (a mod 2^w) (b mod 2^w).
Proof. intros. bit_solve. Qed.

Lemma not_mod x w : 0 <= w <= 64 -> u64_not x mod 2^w = Z.lnot x mod 2^w.
Proof. intros. unfold u64_not, u64_max. bit_solve. Qed.

Lemma xor_ones_mod x w : 0 <= w -> Z.lxor x (2^w - 1) mod 2^w = Z.lnot x mod 2^w.
Proof. intros. bit_solve. Qed.

Lemma xor_wider_ones_mod x w v : 0 <= v <= w -> Z.lxor x (2^w - 1) mod 2^v = Z.lnot x mod 2^v.
Proof. intros. bit_solve. Qed.

(** ** Sign extension *)

Lemma sext_mod v w : 0 <= w -> sext w v mod 2^w = v mod 2^w.
Proof.
  intros. unfold sext. destruct (_ || _); [done|].
  rewrite <- (Z_mod_plus_full (v - 2^w) 1 (2^w)). f_equal. lia.
Qed.

Lemma testbit_msb v w : 0 < w -> 0 <= v < 2^w -> Z.testbit v (w - 1) = (2^(w-1) <=? v).
Proof.
  intros Hw Hv.
  assert (2^w = 2 * 2^(w-1)) as E by (rewrite <- Z.pow_succ_r by lia; f_equal; lia).
  pose proof (pow2_pos (w - 1) ltac:(lia)).
  destruct (Z.leb_spec (2^(w-1)) v).
  - apply Z.testbit_true; [lia|]. rewrite <- (Z.div_unique v (2^(w-1)) 1 (v - 2^(w-1))) by lia. done.
  - apply Z.testbit_false; [lia|]. by rewrite Z.div_small by lia.
Qed.

Lemma sext_range v w : 0 < w -> 0 <= v < 2^w -> - 2^(w-1) <= sext w v < 2^(w-1).
Proof.
  intros Hw Hv. unfold sext. rewrite (proj2 (Z.eqb_neq w 0)) by lia. simpl.
  rewrite testbit_msb by done.
  assert (2^w = 2 * 2^(w-1)) as E by (rewrite <- Z.pow_succ_r by lia; f_equal; lia).
  destruct (Z.leb_spec (2^(w-1)) v); simpl; lia.
Qed.
(** Testing the bit [2^i]. *)
Lemma land_pow2_eqb v i : 0 <= i -> (Z.land v (2^i) =? 0) = negb (Z.testbit v i).
Proof.
  intros Hi. destruct (Z.testbit v i) eqn:E; simpl.
  - apply Z.eqb_neq. intros Hz.
    assert (Z.testbit (Z.land v (2^i)) i = false) as Hb by (by rewrite Hz, Z.testbit_0_l).
    by rewrite Z.land_spec, E, Z.pow2_bits_true in Hb by lia.
  - apply Z.eqb_eq, Z.bits_inj'. intros j Hj.
    rewrite Z.land_spec, Z.pow2_bits_eqb, Z.testbit_0_l by lia.
    destruct (Z.eqb_spec i j) as [<-|]; [by rewrite E|apply andb_false_r].
Qed.

(** Filling the bits above a set sign bit subtracts [2^w]. *)
Lemma sub_pow2_lor v w : 0 <= w -> 0 <= v < 2^w -> v - 2^w = Z.lor v (Z.lnot (2^w - 1)).
Proof.
  intros Hw Hv. assert (Z.land v (Z.lnot (2^w - 1)) = 0) as Hz.
  { rewrite <- (Z.mod_small v (2^w)) by done. bit_solve. }
  rewrite <- Z.lxor_lor, <- Z.add_nocarry_lxor by done. unfold Z.lnot. lia.
Qed.

Lemma sign_fill_mod v sw tw : 0 <= sw <= tw -> 0 <= v < 2^sw ->
  Z.lor v (Z.lxor (2^tw - 1) (2^sw - 1)) mod 2^tw = (v - 2^sw) mod 2^tw.
Proof. intros Hw Hv. rewrite sub_pow2_lor by lia. bit_solve. Qed.

(** ** Population count *)

Lemma count_ones_double a b : 0 <= a -> 0 <= b <= 1 -> count_ones (2 * a + b) = count_ones a + b.
Proof.
  intros Ha Hb. destruct a as [|p|p]; [|
    assert (b = 0 \/ b = 1) as [-> | ->] by lia|lia].
  - assert (b = 0 \/ b = 1) as [-> | ->] by lia; done.
  - change (2 * Z.pos p + 0) with (Z.pos p~0). cbn [count_ones pos_ones]. lia.
  - change (2 * Z.pos p + 1) with (Z.pos p~1). cbn [count_ones pos_ones]. lia.
Qed.

Lemma count_ones_app (k : nat) d r :
  0 <= d < 2 ^ Z.of_nat k -> 0 <= r -> count_ones (d + 2 ^ Z.of_nat k * r) = count_ones d + count_ones r.
Proof.
  revert d. induction k as [|k IH]; intros d Hd Hr.
  { change (2 ^ Z.of_nat 0) with 1 in *. replace d with 0 by lia. by rewrite Z.add_0_l, Z.mul_1_l. }
  rewrite Nat2Z.inj_succ, Z.pow_succ_r in * by lia.
  pose proof (Z_div_mod_eq_full d 2) as E. pose proof (Z.mod_pos_bound d 2 ltac:(lia)).
  replace (d + 2 * 2 ^ Z.of_nat k * r) with (2 * (d / 2 + 2 ^ Z.of_nat k * r) + d mod 2) by lia.
  rewrite E at 3. rewrite !count_ones_double, IH by lia. lia.
Qed.

Lemma digits_value_nonneg b ds : 0 <= b -> Forall (fun d => 0 <= d) ds -> 0 <= digits_value b ds.
Proof. induction 2; simpl; nia. Qed.

(** The bits of a number are those of its 64-bit digits. *)
Lemma digits_count_ones ds :
  Forall is_u64 ds -> foldr Z.add 0 (count_ones <$> ds) = count_ones (digits_value (2^64) ds).
Proof.
  induction 1 as [|d ds Hd Hds IH]; [done|]. cbn [fmap list_fmap foldr digits_value].
  rewrite IH. symmetry. apply (count_ones_app 64); [done|].
  apply digits_value_nonneg; [lia|]. eapply Forall_impl; [done|]. unfold is_u64. lia.
Qed.

(** ** Little-endian byte strings *)

Lemma le_value_app xs ys : le_value (xs ++ ys) = le_value xs + 2^(8 * Z.of_nat (length xs)) * le_value ys.
Proof.
  induction xs as [|x xs IH]; cbn [app digits_value length]; [rewrite Z.mul_0_r, Z.pow_0_r; lia|].
  rewrite IH, Nat2Z.inj_succ, Z.mul_succ_r, Z.pow_add_r by lia. change (2^8) with 256. lia.
Qed.

Lemma le_value_range bs : Forall is_byte bs -> 0 <= le_value bs < 2^(8 * Z.of_nat (length bs)).
Proof.
  unfold is_byte. induction 1 as [|b bs Hb Hbs IH]; cbn [digits_value length]; [rewrite Z.mul_0_r; lia|].
  rewrite Nat2Z.inj_succ, Z.mul_succ_r, Z.pow_add_r by lia. change (2^8) with 256. lia.
Qed.

Lemma le_value_zeros n : le_value (replicate n 0) = 0.
Proof. induction n; simpl; lia. Qed.

Lemma Forall_take_drop {A} (P : A -> Prop) n k l : Forall P l -> Forall P (take n (drop k l)).
Proof. intros. by apply Forall_take, Forall_drop. Qed.

Lemma le_value_drop k bs : Forall is_byte bs -> le_value (drop k bs) = Z.shiftr (le_value bs) (8 * Z.of_nat k).
Proof.
  intros Hb. rewrite Z.shiftr_div_pow2 by lia. destruct (decide (k <= length bs)%nat) as [Hk|Hk].
  - rewrite <- (take_drop k bs) at 2. rewrite le_value_app.
    pose proof (le_value_range (take k bs) ltac:(by apply Forall_take)) as Hr.
    rewrite length_take, Nat.min_l in * by done. pose proof (pow2_pos (8 * Z.of_nat k) ltac:(lia)).
    rewrite Z.mul_comm, Z.div_add, Z.div_small by lia. lia.
  - rewrite drop_ge by lia. pose proof (le_value_range bs Hb). simpl. symmetry. apply Z.div_small.
    pose proof (Z.pow_le_mono_r 2 (8 * Z.of_nat (length bs)) (8 * Z.of_nat k) ltac:(lia) ltac:(lia)). lia.
Qed.

Lemma le_value_take k bs : Forall is_byte bs -> le_value (take k bs) = le_value bs mod 2^(8 * Z.of_nat k).
Proof.
  intros Hb. destruct (decide (k <= length bs)%nat) as [Hk|Hk].
  - rewrite <- (take_drop k bs) at 2. rewrite le_value_app.
    pose proof (le_value_range (take k bs) ltac:(by apply Forall_take)) as Hr.
    rewrite length_take, Nat.min_l in * by done. pose proof (pow2_pos (8 * Z.of_nat k) ltac:(lia)).
    rewrite (Z.mul_comm (2 ^ _)), Z_mod_plus_full. symmetry. apply Z.mod_small. lia.
  - rewrite take_ge by lia. pose proof (le_value_range bs Hb). symmetry. apply Z.mod_small.
    pose proof (Z.pow_le_mono_r 2 (8 * Z.of_nat (length bs)) (8 * Z.of_nat k) ltac:(lia) ltac:(lia)). lia.
Qed.

(** The field of [n] bytes at byte [k]. *)
Lemma le_value_slice n k bs : Forall is_byte bs ->
  le_value (take n (drop k bs)) = Z.shiftr (le_value bs) (8 * Z.of_nat k) mod 2^(8 * Z.of_nat n).
Proof. intros. rewrite le_value_take by (by apply Forall_drop). by rewrite le_value_drop. Qed.

Lemma to_le_bytes_byte n v : Forall is_byte (to_le_bytes n v).
Proof.
  unfold to_le_bytes. apply Forall_fmap, Forall_true. intros. unfold is_byte. simpl. apply Z.mod_pos_bound. lia.
Qed.

Lemma length_to_le_bytes n v : length (to_le_bytes n v) = n.
Proof. unfold to_le_bytes. by rewrite length_fmap, length_seq. Qed.

Lemma to_le_bytes_value n v : 0 <= v -> le_value (to_le_bytes n v) = v mod 2^(8 * Z.of_nat n).
Proof.
  intros Hv. unfold to_le_bytes. induction n as [|n IH]; [simpl; by rewrite Z.mod_1_r|].
  rewrite seq_S, fmap_app, le_value_app, IH, length_fmap, length_seq. cbn [fmap list_fmap digits_value Nat.add].
  rewrite Z.mul_0_r, Z.add_0_r, Nat2Z.inj_succ, Z.mul_succ_r, Z.pow_add_r by lia.
  rewrite Z.shiftr_div_pow2 by lia. change (2^8) with 256.
  rewrite Z.rem_mul_r; [done| |lia]. apply Z.pow_nonzero; lia.
Qed.

#[export] Hint Rewrite land_ones_mod mod_pow2_idem wrap64_mod not_mod sext_mod using lia : bits.
