(* ===== verification/BigNum.v ===== *)
(** * BigNum: the arbitrary-precision integers the evaluator relies on

    [BigUint] and [BigInt] come from a third-party crate, so the evaluator is
    a client of an interface: [BigUint], [BigInt] and [BigConv] list the
    operations it calls and the [Laws] classes their documented meaning in
    terms of the integer a value denotes. [N] and [Z] are one
    implementation. *)

From S2P Require Import Prelude Bits.

Class BigUint (B : Type) : Type := {
  big_from : Z -> B;
  big_add : B -> B -> B;
  big_sub : B -> B -> B;
  big_mul : B -> B -> B;
  big_div : B -> B -> B;
  big_rem : B -> B -> B;
  big_and : B -> B -> B;
  big_or : B -> B -> B;
  big_xor : B -> B -> B;
  big_shl : B -> Z -> B;
  big_shr : B -> Z -> B;
  big_modpow : B -> B -> B -> B;
  big_eqb : B -> B -> bool;
  big_ltb : B -> B -> bool;
  big_leb : B -> B -> bool;
  big_bit : B -> Z -> bool;
  big_to_u64 : B -> option Z;
  big_to_usize : B -> option Z;
  big_to_u64_digits : B -> list Z;
  big_from_bytes_le : list Z -> B }.
#[global] Hint Mode BigUint ! : typeclass_instances.

Class BigInt (I : Type) : Type := {
  int_from : Z -> I;
  int_sub : I -> I -> I;
  int_neg : I -> I;
  int_div : I -> I -> I;
  int_rem : I -> I -> I;
  int_shl : I -> Z -> I;
  int_shr : I -> Z -> I;
  int_eqb : I -> I -> bool;
  int_ltb : I -> I -> bool;
  int_leb : I -> I -> bool;
  int_is_minus : I -> bool }.
#[global] Hint Mode BigInt ! : typeclass_instances.

Class BigConv (B I : Type) : Type := {
  int_from_big : B -> I;
  int_to_biguint : I -> option B }.
#[global] Hint Mode BigConv ! - : typeclass_instances.

(** Division truncates towards zero and the shift of a [BigInt] rounds down;
    subtraction, division and [modpow] promise nothing where the crate
    panics. *)
Class BigUintLaws (B : Type) `{!BigUint B} : Type := {
  bval : B -> Z;
  bval_nonneg b : 0 <= bval b;
  bval_from z : 0 <= z -> bval (big_from z) = z;
  bval_add a b : bval (big_add a b) = bval a + bval b;
  bval_sub a b : bval b <= bval a -> bval (big_sub a b) = bval a - bval b;
  bval_mul a b : bval (big_mul a b) = bval a * bval b;
  bval_div a b : bval b <> 0 -> bval (big_div a b) = bval a / bval b;
  bval_rem a b : bval b <> 0 -> bval (big_rem a b) = bval a mod bval b;
  bval_and a b : bval (big_and a b) = Z.land (bval a) (bval b);
  bval_or a b : bval (big_or a b) = Z.lor (bval a) (bval b);
  bval_xor a b : bval (big_xor a b) = Z.lxor (bval a) (bval b);
  bval_shl a n : 0 <= n -> bval (big_shl a n) = Z.shiftl (bval a) n;
  bval_shr a n : 0 <= n -> bval (big_shr a n) = Z.shiftr (bval a) n;
  bval_modpow a e m : bval m <> 0 -> bval (big_modpow a e m) = bval a ^ bval e mod bval m;
  big_eqb_spec a b : big_eqb a b = (bval a =? bval b);
  big_ltb_spec a b : big_ltb a b = (bval a <? bval b);
  big_leb_spec a b : big_leb a b = (bval a <=? bval b);
  big_bit_spec a n : 0 <= n -> big_bit a n = Z.testbit (bval a) n;
  big_to_u64_spec a : big_to_u64 a = if bval a <? 2^64 then Some (bval a) else None;
  big_to_usize_spec a : big_to_usize a = if bval a <=? usize_max then Some (bval a) else None;
  big_digits_value (a : B) : digits_value (2^64) (big_to_u64_digits a) = bval a;
  big_digits_u64 (a : B) : Forall is_u64 (big_to_u64_digits a);
  big_digits_last (a : B) : last (big_to_u64_digits a) <> Some 0;
  bval_from_bytes_le bs : Forall is_byte bs -> bval (big_from_bytes_le bs) = le_value bs }.

Class BigIntLaws (I : Type) `{!BigInt I} : Type := {
  ival : I -> Z;
  ival_from z : ival (int_from z) = z;
  ival_sub a b : ival (int_sub a b) = ival a - ival b;
  ival_neg a : ival (int_neg a) = - ival a;
  ival_div a b : ival b <> 0 -> ival (int_div a b) = Z.quot (ival a) (ival b);
  ival_rem a b : ival b <> 0 -> ival (int_rem a b) = Z.rem (ival a) (ival b);
  ival_shl a n : 0 <= n -> ival (int_shl a n) = Z.shiftl (ival a) n;
  ival_shr a n : 0 <= n -> ival (int_shr a n) = Z.shiftr (ival a) n;
  int_eqb_spec a b : int_eqb a b = (ival a =? ival b);
  int_ltb_spec a b : int_ltb a b = (ival a <? ival b);
  int_leb_spec a b : int_leb a b = (ival a <=? ival b);
  int_is_minus_spec a : int_is_minus a = (ival a <? 0) }.

Class BigConvLaws (B I : Type) `{BigUintLaws B, BigIntLaws I, !BigConv B I} : Prop := {
  ival_from_big b : ival (int_from_big b) = bval b;
  int_to_biguint_spec a :
    (ival a < 0 -> int_to_biguint a = @None B) /\
    (0 <= ival a -> exists b : B, int_to_biguint a = Some b /\ bval b = ival a) }.

Create Rewrite HintDb bignum.
#[export] Hint Rewrite @bval_add @bval_mul @bval_and @bval_or @bval_xor @big_eqb_spec @big_ltb_spec
  @big_leb_spec @big_to_u64_spec @big_to_usize_spec @ival_from @ival_sub @ival_neg
  @int_eqb_spec @int_ltb_spec @int_leb_spec @int_is_minus_spec : bignum.
#[export] Hint Rewrite @bval_from @bval_shl @bval_shr @big_bit_spec @ival_shl @ival_shr using lia : bignum.

(** ** The implementation by [N] and [Z] *)

(** The digits of [n] in base [2^64]; [fuel] bounds their number. *)
Fixpoint n_digits (fuel : nat) (n : Z) : list Z :=
  match fuel with
  | 0%nat => []
  | S fuel => if n =? 0 then [] else n mod 2^64 :: n_digits fuel (n / 2^64)
  end.

#[global] Instance biguint_N : BigUint N := {
  big_from := Z.to_N;
  big_add := N.add;
  big_sub := N.sub;
  big_mul := N.mul;
  big_div := N.div;
  big_rem := N.modulo;
  big_and := N.land;
  big_or := N.lor;
  big_xor := N.lxor;
  big_shl a n := N.shiftl a (Z.to_N n);
  big_shr a n := N.shiftr a (Z.to_N n);
  big_modpow a e m := N.modulo (N.pow a e) m;
  big_eqb := N.eqb;
  big_ltb := N.ltb;
  big_leb := N.leb;
  big_bit a n := N.testbit a (Z.to_N n);
  big_to_u64 a := if Z.of_N a <? 2^64 then Some (Z.of_N a) else None;
  big_to_usize a := if Z.of_N a <=? usize_max then Some (Z.of_N a) else None;
  big_to_u64_digits a := n_digits (N.to_nat (N.size a)) (Z.of_N a);
  big_from_bytes_le bs := Z.to_N (le_value bs) }.

#[global] Instance bigint_Z : BigInt Z := {
  int_from z := z;
  int_sub := Z.sub;
  int_neg := Z.opp;
  int_div := Z.quot;
  int_rem := Z.rem;
  int_shl := Z.shiftl;
  int_shr := Z.shiftr;
  int_eqb := Z.eqb;
  int_ltb := Z.ltb;
  int_leb := Z.leb;
  int_is_minus z := z <? 0 }.

#[global] Instance bigconv_NZ : BigConv N Z := {
  int_from_big := Z.of_N;
  int_to_biguint z := if z <? 0 then None else Some (Z.to_N z) }.

Lemma n_digits_spec fuel n :
  0 <= n < 2 ^ Z.of_nat fuel ->
  digits_value (2^64) (n_digits fuel n) = n /\ Forall is_u64 (n_digits fuel n) /\
  (0 < n -> exists d, last (n_digits fuel n) = Some d /\ d <> 0).
Proof.
  revert n. induction fuel as [|fuel IH]; intros n Hn; simpl n_digits.
  { change (2 ^ Z.of_nat 0) with 1 in Hn. split_and!; [simpl; lia|constructor|lia]. }
  destruct (Z.eqb_spec n 0) as [->|Hz]; [split_and!; [done|constructor|lia]|].
  rewrite Nat2Z.inj_succ, Z.pow_succ_r in Hn by lia.
  pose proof (Z_div_mod_eq_full n (2^64)) as E.
  pose proof (Z.mod_pos_bound n (2^64) ltac:(lia)).
  pose proof (Z.div_pos n (2^64) ltac:(lia) ltac:(lia)).
  destruct (IH (n / 2^64)) as (Hv & Hd & Hl); [lia|].
  split_and!.
  - cbn [digits_value]. rewrite Hv. lia.
  - constructor; [done|]. done.
  - intros _. destruct (Z.eq_dec (n / 2^64) 0) as [E0|].
    + destruct fuel as [|f]; simpl n_digits; [|rewrite E0, Z.eqb_refl]; exists (n mod 2^64); split; try done; lia.
    + destruct (Hl ltac:(lia)) as (d & Hlast & ?). exists d. split; [|done].
      rewrite last_cons, Hlast. done.
Qed.

Lemma n_digits_N (a : N) :
  digits_value (2^64) (big_to_u64_digits a) = Z.of_N a /\ Forall is_u64 (big_to_u64_digits a) /\
  (0 < Z.of_N a -> exists d, last (big_to_u64_digits a) = Some d /\ d <> 0).
Proof.
  apply n_digits_spec. split; [lia|]. rewrite N_nat_Z. destruct a as [|p]; [done|].
  pose proof (N.size_gt (N.pos p)) as Hs. apply N2Z.inj_lt in Hs. by rewrite N2Z.inj_pow in Hs.
Qed.

Lemma le_value_nonneg bs : Forall is_byte bs -> 0 <= le_value bs.
Proof. unfold is_byte. induction 1; simpl; lia. Qed.

Lemma N_shift_laws a n : 0 <= n ->
  Z.of_N (N.shiftl a (Z.to_N n)) = Z.shiftl (Z.of_N a) n /\
  Z.of_N (N.shiftr a (Z.to_N n)) = Z.shiftr (Z.of_N a) n /\
  N.testbit a (Z.to_N n) = Z.testbit (Z.of_N a) n.
Proof.
  intros. rewrite N2Z.inj_shiftl, N2Z.inj_shiftr, Z2N.id by done. split_and!; [done..|].
  rewrite <- (Z2N.id n) at 2 by done. by rewrite Z.testbit_of_N.
Qed.

Lemma N_digits_last (a : N) : last (big_to_u64_digits a) <> Some 0.
Proof.
  destruct (decide (a = 0%N)) as [->|]; [done|].
  destruct (n_digits_N a) as (_ & _ & (d & -> & ?)); [lia|congruence].
Qed.

#[global] Instance biguint_N_laws : BigUintLaws N.
Proof.
  refine {| bval := Z.of_N; big_digits_last := N_digits_last |};
    intros; try apply n_digits_N; try apply N_shift_laws; cbn; try lia; try done.
  - apply N2Z.inj_mod.
  - apply N2Z.inj_land.
  - apply N2Z.inj_lor.
  - apply N2Z.inj_lxor.
  - by rewrite N2Z.inj_mod, N2Z.inj_pow.
  - apply eq_true_iff_eq. rewrite N.eqb_eq, Z.eqb_eq. lia.
  - apply eq_true_iff_eq. rewrite N.ltb_lt, Z.ltb_lt. lia.
  - apply eq_true_iff_eq. rewrite N.leb_le, Z.leb_le. lia.
  - rewrite Z2N.id; [done|]. by apply le_value_nonneg.
Defined.

#[global] Instance bigint_Z_laws : BigIntLaws Z.
Proof. refine {| ival z := z |}; done. Defined.

#[global] Instance bigconv_NZ_laws : BigConvLaws N Z.
Proof.
  split; cbn; [done|]. intros a. split; intros.
  - by rewrite (proj2 (Z.ltb_lt _ _)).
  - rewrite (proj2 (Z.ltb_ge _ _)) by done. eexists. split; [done|]. by apply Z2N.id.
Qed.
