(* ===== verification/Vm.v ===== *)
(** * Vm: the testbench bytecode evaluator

    Models [crates/celox-testbench/src/vm.rs] with the operator and opcode
    enumerations of [lib.rs]. Arithmetic follows the checked build: an
    overflowing [usize] sum or shift, an index out of range, a failed
    [debug_assert!] and [unreachable!] are [Panic]; a byte outside the
    simulator's memory, which the code reads through a raw pointer, is
    [Err InvalidMemory]. *)

From S2P Require Import Prelude Bits BigNum.

Module Op.
Inductive TestbenchOperator : Type :=
  | Add | Sub | Mul | Div | Rem | Pow
  | BitAnd | BitOr | BitXor | BitXnor | BitNand | BitNor
  | LogicShiftL | LogicShiftR | ArithShiftL | ArithShiftR
  | Eq | EqWildcard | Ne | NeWildcard
  | Less | LessEq | Greater | GreaterEq
  | LogicAnd | LogicOr | LogicNot | BitNot.
End Op.
Abbreviation TestbenchOperator := Op.TestbenchOperator.

Inductive VmFault : Type := InvalidMemory | OutOfFuel.
Abbreviation vm := (result VmFault).

Definition bool_value (b : bool) : Z := if b then 1 else 0.

(** Checked [usize] addition. *)
Definition usize_add (a b : Z) : vm Z := expect (checked_add a b).
Definition saturating_add (a b : Z) : Z := Z.min (a + b) usize_max.
Definition saturating_mul (a b : Z) : Z := Z.min (a * b) usize_max.

Definition width_mask_u64 (width : Z) : Z :=
  if width =? 0 then 0 else if width <=? 63 then Z.shiftl 1 width - 1 else u64_max.

(** The two's-complement reading of a [u64] field, as an [i128]. *)
Definition as_i64 (v : Z) : Z := if v <? 2^63 then v else v - 2^64.
Definition signed_i128 (value width : Z) : Z :=
  let value := Z.land value (width_mask_u64 width) in
  if (width =? 0) || (64 <=? width) then as_i64 value
  else if Z.land value (Z.shiftl 1 (width - 1)) =? 0 then value
  else value - Z.shiftl 1 width.

(** [while exponent != 0] of the native power; [fuel] bounds the exponent's
    bits. *)
Fixpoint pow_loop (fuel : nat) (exponent base value result_mask : Z) : Z :=
  match fuel with
  | 0%nat => value
  | S fuel =>
    if exponent =? 0 then value else
    let value :=
      if Z.land exponent 1 =? 0 then value
      else Z.land (wrap64 (value * base)) result_mask in
    let exponent := Z.shiftr exponent 1 in
    let base := if exponent =? 0 then base else Z.land (wrap64 (base * base)) result_mask in
    pow_loop fuel exponent base value result_mask
  end.

Definition eval_typed_binop_u64 (l : Z) (op : TestbenchOperator) (r lhs_width rhs_width result_width : Z)
    (lhs_signed rhs_signed : bool) : vm Z :=
  let l := Z.land l (width_mask_u64 lhs_width) in
  let r := Z.land r (width_mask_u64 rhs_width) in
  let result_mask := width_mask_u64 result_width in
  let signed := lhs_signed && rhs_signed in
  let sl := signed_i128 l lhs_width in
  let sr := signed_i128 r rhs_width in
  match op with
  | Op.Eq | Op.EqWildcard => Ok (bool_value (l =? r))
  | Op.Ne | Op.NeWildcard => Ok (bool_value (negb (l =? r)))
  | Op.Less => Ok (bool_value (if signed then sl <? sr else l <? r))
  | Op.LessEq => Ok (bool_value (if signed then sl <=? sr else l <=? r))
  | Op.Greater => Ok (bool_value (if signed then sr <? sl else r <? l))
  | Op.GreaterEq => Ok (bool_value (if signed then sr <=? sl else r <=? l))
  | Op.LogicAnd => Ok (bool_value (negb (l =? 0) && negb (r =? 0)))
  | Op.LogicOr => Ok (bool_value (negb (l =? 0) || negb (r =? 0)))
  | Op.Add => Ok (Z.land (wrap64 (l + r)) result_mask)
  | Op.Sub => Ok (Z.land (wrap64 (l - r)) result_mask)
  | Op.Mul => Ok (Z.land (wrap64 (l * r)) result_mask)
  | Op.Div =>
      if signed then
        if sr =? 0 then Ok 0 else Ok (Z.land (wrap64 (Z.quot sl sr)) result_mask)
      else Ok (Z.land (if r =? 0 then 0 else l / r) result_mask)
  | Op.Rem =>
      if signed then
        if sr =? 0 then Ok 0 else Ok (Z.land (wrap64 (Z.rem sl sr)) result_mask)
      else Ok (Z.land (if r =? 0 then 0 else l mod r) result_mask)
  | Op.Pow => Ok (pow_loop 64 r (Z.land l result_mask) (Z.land 1 result_mask) result_mask)
  | Op.BitAnd => Ok (Z.land (Z.land l r) result_mask)
  | Op.BitOr => Ok (Z.land (Z.lor l r) result_mask)
  | Op.BitXor => Ok (Z.land (Z.lxor l r) result_mask)
  | Op.BitXnor => Ok (Z.land (u64_not (Z.lxor l r)) result_mask)
  | Op.BitNand => Ok (Z.land (u64_not (Z.land l r)) result_mask)
  | Op.BitNor => Ok (Z.land (u64_not (Z.lor l r)) result_mask)
  | Op.LogicShiftL | Op.ArithShiftL =>
      if result_width <=? r then Ok 0
      else Ok (Z.land (wrap64 (Z.shiftl l (r mod 64))) result_mask)
  | Op.LogicShiftR =>
      if result_width <=? r then Ok 0 else Ok (Z.land (Z.shiftr l r) result_mask)
  | Op.ArithShiftR =>
      if lhs_signed then
        if result_width <=? r then Ok (if sl <? 0 then result_mask else 0)
        else Ok (Z.land (wrap64 (Z.shiftr sl r)) result_mask)
      else if result_width <=? r then Ok 0 else Ok (Z.land (Z.shiftr l r) result_mask)
  | Op.LogicNot | Op.BitNot => Panic
  end.

(** [u64::wrapping_*] and the 64-bit shifts of the untyped operations. *)
Definition eval_binop_u64 (l : Z) (op : TestbenchOperator) (r : Z) : vm Z :=
  match op with
  | Op.Add => Ok (wrap64 (l + r))
  | Op.Sub => Ok (wrap64 (l - r))
  | Op.Mul => Ok (wrap64 (l * r))
  | Op.Div => Ok (if r =? 0 then 0 else l / r)
  | Op.Rem => Ok (if r =? 0 then 0 else l mod r)
  | Op.BitAnd => Ok (Z.land l r)
  | Op.BitOr => Ok (Z.lor l r)
  | Op.BitXor => Ok (Z.lxor l r)
  | Op.LogicShiftL | Op.ArithShiftL => Ok (if 64 <=? r then 0 else wrap64 (Z.shiftl l r))
  | Op.LogicShiftR => Ok (if 64 <=? r then 0 else Z.shiftr l r)
  | Op.ArithShiftR =>
      Ok (if 64 <=? r then wrap64 (Z.shiftr (as_i64 l) 63) else wrap64 (Z.shiftr (as_i64 l) r))
  | Op.Eq => Ok (bool_value (l =? r))
  | Op.Ne => Ok (bool_value (negb (l =? r)))
  | Op.Less => Ok (bool_value (l <? r))
  | Op.LessEq => Ok (bool_value (l <=? r))
  | Op.Greater => Ok (bool_value (r <? l))
  | Op.GreaterEq => Ok (bool_value (r <=? l))
  | Op.LogicAnd => Ok (bool_value (negb (l =? 0) && negb (r =? 0)))
  | Op.LogicOr => Ok (bool_value (negb (l =? 0) || negb (r =? 0)))
  | _ => Panic
  end.

Section vm.
Context {B I : Type} `{BigUint B, BigInt I, !BigConv B I}.

Inductive TestbenchValue : Type :=
  | U64 (v : Z)
  | Wide (v : B).

Definition to_u64 (value : TestbenchValue) : Z :=
  match value with
  | U64 v => v
  | Wide v => default 0 (head (big_to_u64_digits v))
  end.

Definition is_zero (value : TestbenchValue) : bool :=
  match value with
  | U64 v => v =? 0
  | Wide v => big_eqb v (big_from 0)
  end.

Definition to_biguint (value : TestbenchValue) : B :=
  match value with U64 v => big_from v | Wide v => v end.

Definition width_mask (width : Z) : B :=
  if width =? 0 then big_from 0
  else big_sub (big_shl (big_from 1) width) (big_from 1).

Definition normalized_bits (value : TestbenchValue) (width : Z) : B :=
  big_and (to_biguint value) (width_mask width).

Definition tb_value_from_bits (value : B) (width : Z) : TestbenchValue :=
  let value := big_and value (width_mask width) in
  if width <=? 64 then U64 (default 0 (big_to_u64 value)) else Wide value.

Definition signed_bigint (value : TestbenchValue) (width : Z) : I :=
  let raw := normalized_bits value width in
  if (width =? 0) || negb (big_bit raw (width - 1)) then int_from_big raw
  else int_sub (int_from_big raw) (int_shl (int_from 1) width).

Definition signed_bits (value : I) (width : Z) : B :=
  if width =? 0 then big_from 0 else
  let modulus := big_shl (big_from 1) width in
  if int_is_minus value then
    let magnitude := big_rem (default (big_from 0) (int_to_biguint (int_neg value))) modulus in
    if big_eqb magnitude (big_from 0) then big_from 0 else big_sub modulus magnitude
  else big_rem (default (big_from 0) (int_to_biguint value)) modulus.

Definition resize_tb_value (value : TestbenchValue) (source_width target_width : Z) (signed : bool)
    : TestbenchValue :=
  if target_width =? 0 then U64 0 else
  if source_width =? 0 then
    let fill := if Z.land (to_u64 value) 1 =? 0 then big_from 0 else width_mask target_width in
    tb_value_from_bits fill target_width
  else
  let wide :=
    let value := normalized_bits value source_width in
    let value :=
      if (source_width <? target_width) && signed && big_bit value (source_width - 1)
      then big_or value (big_xor (width_mask target_width) (width_mask source_width))
      else value in
    tb_value_from_bits value target_width in
  match value with
  | U64 value =>
      if (source_width <=? 64) && (target_width <=? 64) then
        let value := Z.land value (width_mask_u64 source_width) in
        let value :=
          if (source_width <? target_width) && signed &&
             negb (Z.land value (Z.shiftl 1 (source_width - 1)) =? 0)
          then Z.lor value (Z.lxor (width_mask_u64 target_width) (width_mask_u64 source_width))
          else value in
        U64 (Z.land value (width_mask_u64 target_width))
      else wide
  | Wide _ => wide
  end.

(** The arbitrary-precision part of [eval_typed_binop]. *)
Definition eval_typed_binop_wide (l : TestbenchValue) (op : TestbenchOperator) (r : TestbenchValue)
    (lhs_width rhs_width result_width : Z) (lhs_signed rhs_signed : bool) : vm TestbenchValue :=
  let lb := normalized_bits l lhs_width in
  let rb := normalized_bits r rhs_width in
  let signed := lhs_signed && rhs_signed in
  let comparison value := Ok (U64 (bool_value value)) in
  let zero := big_from 0 in
  let sl := signed_bigint l lhs_width in
  let sr := signed_bigint r rhs_width in
  let bits value := Ok (tb_value_from_bits value result_width) in
  let shift := default usize_max (big_to_usize rb) in
  match op with
  | Op.Eq | Op.EqWildcard => comparison (big_eqb lb rb)
  | Op.Ne | Op.NeWildcard => comparison (negb (big_eqb lb rb))
  | Op.Less => comparison (if signed then int_ltb sl sr else big_ltb lb rb)
  | Op.LessEq => comparison (if signed then int_leb sl sr else big_leb lb rb)
  | Op.Greater => comparison (if signed then int_ltb sr sl else big_ltb rb lb)
  | Op.GreaterEq => comparison (if signed then int_leb sr sl else big_leb rb lb)
  | Op.LogicAnd => comparison (negb (big_eqb lb zero) && negb (big_eqb rb zero))
  | Op.LogicOr => comparison (negb (big_eqb lb zero) || negb (big_eqb rb zero))
  | Op.Add => bits (big_add lb rb)
  | Op.Sub => bits (signed_bits (int_sub (int_from_big lb) (int_from_big rb)) result_width)
  | Op.Mul => bits (big_mul lb rb)
  | Op.Div =>
      if signed then
        if int_eqb sr (int_from 0) then Ok (U64 0)
        else bits (signed_bits (int_div sl sr) result_width)
      else if big_eqb rb zero then Ok (U64 0) else bits (big_div lb rb)
  | Op.Rem =>
      if signed then
        if int_eqb sr (int_from 0) then Ok (U64 0)
        else bits (signed_bits (int_rem sl sr) result_width)
      else if big_eqb rb zero then Ok (U64 0) else bits (big_rem lb rb)
  | Op.Pow =>
      if result_width =? 0 then Ok (U64 0)
      else bits (big_modpow lb rb (big_shl (big_from 1) result_width))
  | Op.BitAnd => bits (big_and lb rb)
  | Op.BitOr => bits (big_or lb rb)
  | Op.BitXor => bits (big_xor lb rb)
  | Op.BitXnor => bits (big_xor (big_xor lb rb) (width_mask result_width))
  | Op.LogicShiftL | Op.ArithShiftL =>
      if result_width <=? shift then Ok (U64 0) else bits (big_shl lb shift)
  | Op.LogicShiftR =>
      if result_width <=? shift then Ok (U64 0) else bits (big_shr lb shift)
  | Op.ArithShiftR =>
      if lhs_signed then
        let shifted :=
          if result_width <=? shift then
            if int_is_minus sl then int_from (-1) else int_from 0
          else int_shr sl shift in
        bits (signed_bits shifted result_width)
      else if result_width <=? shift then Ok (U64 0) else bits (big_shr lb shift)
  | Op.BitNand => bits (big_xor (big_and lb rb) (width_mask result_width))
  | Op.BitNor => bits (big_xor (big_or lb rb) (width_mask result_width))
  | Op.LogicNot | Op.BitNot => Panic
  end.

Definition eval_typed_binop (l : TestbenchValue) (op : TestbenchOperator) (r : TestbenchValue)
    (lhs_width rhs_width result_width : Z) (lhs_signed rhs_signed : bool) : vm TestbenchValue :=
  match l, r with
  | U64 lv, U64 rv =>
      if (lhs_width <=? 64) && (rhs_width <=? 64) && (result_width <=? 64) then
        v ← eval_typed_binop_u64 lv op rv lhs_width rhs_width result_width lhs_signed rhs_signed;
        Ok (U64 v)
      else eval_typed_binop_wide l op r lhs_width rhs_width result_width lhs_signed rhs_signed
  | _, _ => eval_typed_binop_wide l op r lhs_width rhs_width result_width lhs_signed rhs_signed
  end.

(** The native part of [eval_typed_unop]. *)
Definition eval_typed_unop_u64 (op : TestbenchOperator) (value operand_width result_width : Z) : vm Z :=
  let bits := Z.land value (width_mask_u64 operand_width) in
  match op with
  | Op.LogicNot => Ok (bool_value (bits =? 0))
  | Op.BitAnd => Ok (bool_value (bits =? width_mask_u64 operand_width))
  | Op.BitNand => Ok (bool_value (negb (bits =? width_mask_u64 operand_width)))
  | Op.BitOr => Ok (bool_value (negb (bits =? 0)))
  | Op.BitNor => Ok (bool_value (bits =? 0))
  | Op.BitXor => Ok (bool_value (negb (count_ones bits mod 2 =? 0)))
  | Op.BitXnor => Ok (bool_value (count_ones bits mod 2 =? 0))
  | Op.Add => Ok (Z.land bits (width_mask_u64 result_width))
  | Op.Sub => Ok (Z.land (wrap64 (- bits)) (width_mask_u64 result_width))
  | Op.BitNot => Ok (Z.land (u64_not bits) (width_mask_u64 result_width))
  | _ => Panic
  end.

Definition eval_typed_unop_wide (op : TestbenchOperator) (value : TestbenchValue)
    (operand_width result_width : Z) : vm TestbenchValue :=
  let bits := normalized_bits value operand_width in
  let odd := negb (foldr Z.add 0 (count_ones <$> big_to_u64_digits bits) mod 2 =? 0) in
  let reduced :=
    match op with
    | Op.LogicNot => Some (big_eqb bits (big_from 0))
    | Op.BitAnd => Some (big_eqb bits (width_mask operand_width))
    | Op.BitNand => Some (negb (big_eqb bits (width_mask operand_width)))
    | Op.BitOr => Some (negb (big_eqb bits (big_from 0)))
    | Op.BitNor => Some (big_eqb bits (big_from 0))
    | Op.BitXor => Some odd
    | Op.BitXnor => Some (negb odd)
    | _ => None
    end in
  match reduced with
  | Some value => Ok (U64 (bool_value value))
  | None =>
    match op with
    | Op.Add => Ok (tb_value_from_bits bits result_width)
    | Op.Sub => Ok (tb_value_from_bits (signed_bits (int_neg (int_from_big bits)) result_width) result_width)
    | Op.BitNot => Ok (tb_value_from_bits (big_xor bits (width_mask operand_width)) result_width)
    | _ => Panic
    end
  end.

Definition eval_typed_unop (op : TestbenchOperator) (value : TestbenchValue)
    (operand_width result_width : Z) : vm TestbenchValue :=
  match value with
  | U64 v =>
      if (operand_width <=? 64) && (result_width <=? 64) then
        v ← eval_typed_unop_u64 op v operand_width result_width; Ok (U64 v)
      else eval_typed_unop_wide op value operand_width result_width
  | Wide _ => eval_typed_unop_wide op value operand_width result_width
  end.

Definition eval_binop_wide (l : B) (op : TestbenchOperator) (r : B) : vm B :=
  let zero := big_from 0 in
  match op with
  | Op.Add => Ok (big_add l r)
  | Op.Sub => Ok (if big_leb r l then big_sub l r else zero)
  | Op.Mul => Ok (big_mul l r)
  | Op.Div => Ok (if big_eqb r zero then zero else big_div l r)
  | Op.Rem => Ok (if big_eqb r zero then zero else big_rem l r)
  | Op.BitAnd => Ok (big_and l r)
  | Op.BitOr => Ok (big_or l r)
  | Op.BitXor => Ok (big_xor l r)
  | Op.LogicShiftL => Ok (big_shl l (default 256 (big_to_u64 r)))
  | Op.LogicShiftR => Ok (big_shr l (default 256 (big_to_u64 r)))
  | _ => Panic
  end.

Definition eval_binop_wide_cmp (l : B) (op : TestbenchOperator) (r : B) : vm Z :=
  let zero := big_from 0 in
  match op with
  | Op.Eq => Ok (bool_value (big_eqb l r))
  | Op.Ne => Ok (bool_value (negb (big_eqb l r)))
  | Op.Less => Ok (bool_value (big_ltb l r))
  | Op.LessEq => Ok (bool_value (big_leb l r))
  | Op.Greater => Ok (bool_value (big_ltb r l))
  | Op.GreaterEq => Ok (bool_value (big_leb r l))
  | Op.LogicAnd => Ok (bool_value (negb (big_eqb l zero) && negb (big_eqb r zero)))
  | Op.LogicOr => Ok (bool_value (negb (big_eqb l zero) || negb (big_eqb r zero)))
  | _ => Panic
  end.

Definition eval_binop (l : TestbenchValue) (op : TestbenchOperator) (r : TestbenchValue)
    : vm TestbenchValue :=
  match l, r with
  | U64 lv, U64 rv => v ← eval_binop_u64 lv op rv; Ok (U64 v)
  | _, _ =>
    let lv := to_biguint l in
    let rv := to_biguint r in
    match op with
    | Op.Eq | Op.Ne | Op.Less | Op.LessEq | Op.Greater | Op.GreaterEq | Op.LogicAnd | Op.LogicOr =>
        v ← eval_binop_wide_cmp lv op rv; Ok (U64 v)
    | _ => v ← eval_binop_wide lv op rv; Ok (Wide v)
    end
  end.

(** ** Simulator memory *)

Abbreviation bytes := (list Z).

(** [copy_nonoverlapping] from memory: [n] bytes at [ptr]. *)
Definition read_bytes (memory : bytes) (ptr n : Z) : vm bytes :=
  if ptr + n <=? Z.of_nat (length memory)
  then Ok (take (Z.to_nat n) (drop (Z.to_nat ptr) memory)) else Err InvalidMemory.

(** [copy_nonoverlapping] into memory. *)
Definition write_bytes (memory : bytes) (ptr : Z) (bs : bytes) : vm bytes :=
  if ptr + Z.of_nat (length bs) <=? Z.of_nat (length memory)
  then Ok (take (Z.to_nat ptr) memory ++ bs ++ drop (Z.to_nat ptr + length bs) memory)
  else Err InvalidMemory.

Definition read_le_u64 (memory : bytes) (ptr byte_size : Z) : vm Z :=
  bs ← read_bytes memory ptr (Z.min byte_size 8);
  Ok (le_value (bs ++ replicate (8 - length bs) 0)).

Definition read_le_wide (memory : bytes) (ptr byte_size width : Z) : vm B :=
  buf ← read_bytes memory ptr byte_size;
  let val := big_from_bytes_le buf in
  extra_bits ← expect (checked_sub (byte_size * 8) width);
  Ok (if 0 <? extra_bits
      then big_and val (big_sub (big_shl (big_from 1) width) (big_from 1)) else val).

Definition read_bits (memory : bytes) (ptr bit_offset width : Z) : vm TestbenchValue :=
  let byte_offset := bit_offset / 8 in
  let sub := bit_offset mod 8 in
  let span_width := saturating_add sub width in
  let byte_size := (span_width + 7) / 8 in
  if span_width <=? 64 then
    value ← read_le_u64 memory (ptr + byte_offset) byte_size;
    Ok (U64 (Z.land (Z.shiftr value sub) (width_mask_u64 width)))
  else
    value ← read_le_wide memory (ptr + byte_offset) byte_size span_width;
    Ok (tb_value_from_bits (big_and (big_shr value sub) (width_mask width)) width).

(** ** Opcodes *)

Inductive ExprOpcode : Type :=
  | ConstU64 (v : Z)
  | ConstWide (v : B)
  | LoadU64 (location byte_size mask : Z)
  | LoadWide (location byte_size width : Z)
  | BinOp (op : TestbenchOperator)
  | TypedBinOp (op : TestbenchOperator) (lhs_width rhs_width result_width : Z)
      (lhs_signed rhs_signed : bool)
  | TypedUnary (op : TestbenchOperator) (operand_width result_width : Z)
  | Resize (source_width target_width : Z) (signed : bool)
  | ConcatPart (part_width result_width : Z)
  | Ternary (then_len else_len : Z)
  | LoadIndexed (location stride_bits base_bit_offset element_width : Z)
  | LoadBitSelect (location base_byte_size select_width : Z)
  | StoreU64 (location byte_size : Z).

(** The machine: [pc], the value stack (its top first) and memory. *)
Record State : Type := { pc : Z; stack : list TestbenchValue; memory : bytes }.

Definition concat_part (accumulator part : TestbenchValue) (part_width result_width : Z)
    : TestbenchValue :=
  let wide :=
    let value := big_or (big_shl (to_biguint accumulator) part_width) (normalized_bits part part_width) in
    tb_value_from_bits value result_width in
  match accumulator, part with
  | U64 a, U64 p =>
      if result_width <=? 64 then
        let shifted := if 64 <=? part_width then 0 else wrap64 (Z.shiftl a part_width) in
        U64 (Z.lor shifted (Z.land p (width_mask_u64 part_width)))
      else wide
  | _, _ => wide
  end.

Definition load_indexed (memory : bytes) (idx : TestbenchValue)
    (location stride_bits base_bit_offset element_width : Z) : vm TestbenchValue :=
  let i := to_u64 idx in
  let bit_offset := saturating_add base_bit_offset (saturating_mul i stride_bits) in
  read_bits memory location bit_offset element_width.

Definition load_bit_select (memory : bytes) (bit_idx : TestbenchValue)
    (location base_byte_size select_width : Z) : vm TestbenchValue :=
  let shift := to_u64 bit_idx in
  if (base_byte_size <=? 8) && (select_width <=? 64) then
    full_val ← read_le_u64 memory location base_byte_size;
    let mask := if select_width =? 64 then u64_max else Z.shiftl 1 select_width - 1 in
    if 64 <=? shift then Panic else Ok (U64 (Z.land (Z.shiftr full_val shift) mask))
  else
    let full_width := saturating_mul base_byte_size 8 in
    full_val ← read_le_wide memory location base_byte_size full_width;
    let val := big_and (big_shr full_val shift) (width_mask select_width) in
    Ok (tb_value_from_bits val select_width).

Definition store_u64 (memory : bytes) (val : TestbenchValue) (location byte_size : Z) : vm bytes :=
  let v := to_u64 val in
  let n := Z.min byte_size 8 in
  write_bytes memory location (take (Z.to_nat n) (to_le_bytes 8 v)).

(** The opcodes that only change the stack and memory; popping from an empty
    stack fails the [debug_assert!]. *)
Definition exec_op (op : ExprOpcode) (stack : list TestbenchValue) (memory : bytes)
    : vm (list TestbenchValue * bytes) :=
  match op, stack with
  | ConstU64 v, st => Ok (U64 v :: st, memory)
  | ConstWide v, st => Ok (Wide v :: st, memory)
  | LoadU64 location byte_size mask, st =>
      v ← read_le_u64 memory location byte_size; Ok (U64 (Z.land v mask) :: st, memory)
  | LoadWide location byte_size width, st =>
      v ← read_le_wide memory location byte_size width; Ok (Wide v :: st, memory)
  | BinOp op, r :: l :: st => v ← eval_binop l op r; Ok (v :: st, memory)
  | TypedBinOp op lw rw w ls rs, r :: l :: st =>
      v ← eval_typed_binop l op r lw rw w ls rs; Ok (v :: st, memory)
  | TypedUnary op ow w, top :: st => v ← eval_typed_unop op top ow w; Ok (v :: st, memory)
  | Resize sw tw signed, top :: st => Ok (resize_tb_value top sw tw signed :: st, memory)
  | ConcatPart part_width result_width, part :: accumulator :: st =>
      Ok (concat_part accumulator part part_width result_width :: st, memory)
  | LoadIndexed location stride_bits base_bit_offset element_width, idx :: st =>
      v ← load_indexed memory idx location stride_bits base_bit_offset element_width;
      Ok (v :: st, memory)
  | LoadBitSelect location base_byte_size select_width, bit_idx :: st =>
      v ← load_bit_select memory bit_idx location base_byte_size select_width; Ok (v :: st, memory)
  | StoreU64 location byte_size, val :: st =>
      m ← store_u64 memory val location byte_size; Ok (st, m)
  | _, _ => Panic
  end.

(** One opcode; [run end_ s] stands for the loop that executes a branch of a
    [Ternary] until [pc] reaches [end_]. *)
Definition exec_at (run : Z -> State -> vm State) (ops : list ExprOpcode) (s : State) : vm State :=
  op ← expect (ops !! Z.to_nat (pc s));
  match op with
  | Ternary then_len else_len =>
      match stack s with
      | [] => Panic
      | cond :: st =>
          pc' ← usize_add (pc s) 1;
          if is_zero cond then
            pc' ← usize_add pc' then_len;
            else_end ← usize_add pc' else_len;
            run else_end {| pc := pc'; stack := st; memory := memory s |}
          else
            then_end ← usize_add pc' then_len;
            s ← run then_end {| pc := pc'; stack := st; memory := memory s |};
            pc' ← usize_add (pc s) else_len;
            Ok {| pc := pc'; stack := stack s; memory := memory s |}
      end
  | _ =>
      '(st, m) ← exec_op op (stack s) (memory s);
      pc' ← usize_add (pc s) 1;
      Ok {| pc := pc'; stack := st; memory := m |}
  end.

(** [while *pc < end_ { exec_at }] *)
Fixpoint run (fuel : nat) (ops : list ExprOpcode) (end_ : Z) (s : State) : vm State :=
  if end_ <=? pc s then Ok s else
  match fuel with
  | 0%nat => Err OutOfFuel
  | S fuel => s ← exec_at (run fuel ops) ops s; run fuel ops end_ s
  end.

(** [CompiledExpr::eval]: the value and the memory it leaves. *)
Definition eval (ops : list ExprOpcode) (m : bytes) : vm (TestbenchValue * bytes) :=
  s ← run (S (length ops)) ops (Z.of_nat (length ops)) {| pc := 0; stack := []; memory := m |};
  v ← expect (head (stack s));
  Ok (v, memory s).

Definition eval_u64 (ops : list ExprOpcode) (m : bytes) : vm (Z * bytes) :=
  '(v, m) ← eval ops m; Ok (to_u64 v, m).

Definition eval_bool (ops : list ExprOpcode) (m : bytes) : vm (bool * bytes) :=
  '(v, m) ← eval ops m; Ok (negb (is_zero v), m).

Definition touches_memory (op : ExprOpcode) : bool :=
  match op with
  | LoadU64 _ _ _ | LoadWide _ _ _ | LoadIndexed _ _ _ _ | LoadBitSelect _ _ _ | StoreU64 _ _ => true
  | _ => false
  end.

(** [CompiledExpr::constant_u64]; the null pointer is the empty memory. *)
Definition constant_u64 (ops : list ExprOpcode) : vm (option Z) :=
  if existsb touches_memory ops then Ok None
  else '(v, _) ← eval_u64 ops []; Ok (Some v).
End vm.

Arguments TestbenchValue B : clear implicits.
Arguments ExprOpcode B : clear implicits.
Arguments State B : clear implicits.
