(* ===== verification/VmFacts.v ===== *)
(** * VmFacts: the evaluator computes fixed-width arithmetic

    The native and the arbitrary-precision code of every binary and unary
    operation, and the resizing of values, refine one meaning given on
    integers. *)

From S2P Require Import Prelude Bits BigNum Vm.

Lemma width_mask_u64_spec w : 0 <= w <= 64 -> width_mask_u64 w = 2^w - 1.
Proof.
  intros. unfold width_mask_u64. destruct (Z.eqb_spec w 0) as [->|]; [done|].
  destruct (Z.leb_spec w 63); [by rewrite Z.shiftl_1_l|]. by replace w with 64 by lia.
Qed.

Lemma land_width_mask_u64 z w : 0 <= w <= 64 -> Z.land z (width_mask_u64 w) = z mod 2^w.
Proof. intros. rewrite width_mask_u64_spec by done. apply land_ones_mod. lia. Qed.

Lemma width_mask_u64_land z w : is_u64 z -> 0 <= w -> Z.land z (width_mask_u64 w) = z mod 2^w.
Proof.
  intros Hz Hw. destruct (Z.leb_spec w 64); [by apply land_width_mask_u64|].
  unfold width_mask_u64. rewrite (proj2 (Z.eqb_neq _ _)), (proj2 (Z.leb_gt _ _)) by lia.
  unfold u64_max. rewrite land_ones_mod by lia. unfold is_u64 in Hz.
  pose proof (Z.pow_lt_mono_r 2 64 w ltac:(lia) ltac:(lia) ltac:(lia)).
  rewrite !Z.mod_small; lia.
Qed.

(** The native sign extension reads the field's two's complement. *)
Lemma signed_i128_spec v w : 0 <= w <= 64 -> signed_i128 v w = sext w (v mod 2^w).
Proof.
  intros Hw. unfold signed_i128. rewrite land_width_mask_u64 by done.
  pose proof (mod_pow2_range v w ltac:(lia)) as Hr. revert Hr. generalize (v mod 2^w). clear v. intros v Hv.
  unfold sext. destruct (Z.eqb_spec w 0) as [->|]; simpl orb.
  { change (2^0) with 1 in Hv. by replace v with 0 by lia. }
  rewrite testbit_msb by lia. destruct (Z.leb_spec 64 w).
  { assert (w = 64) as -> by lia. unfold as_i64. change (64 - 1) with 63.
    destruct (Z.ltb_spec v (2^63)), (Z.leb_spec (2^63) v); simpl; lia. }
  rewrite !Z.shiftl_1_l, <- testbit_msb, land_pow2_eqb by lia. done.
Qed.

(** ** Exponentiation by squaring *)

Lemma pow_loop_spec fuel w e base value :
  0 <= w <= 64 -> 0 <= e < 2 ^ Z.of_nat fuel -> value mod 2^w = value ->
  pow_loop fuel e base value (width_mask_u64 w) = (value * base ^ e) mod 2^w.
Proof.
  intros Hw. revert e base value. induction fuel as [|fuel IH]; intros e base value He Hv; cbn [pow_loop].
  { change (2 ^ Z.of_nat 0) with 1 in He. replace e with 0 by lia. by rewrite Z.pow_0_r, Z.mul_1_r. }
  destruct (Z.eqb_spec e 0) as [->|]; [by rewrite Z.pow_0_r, Z.mul_1_r|].
  rewrite Nat2Z.inj_succ, Z.pow_succ_r in He by lia.
  assert (Z.land e 1 = e mod 2) as -> by (change 1 with (Z.ones 1) at 1; by rewrite Z.land_ones by lia).
  rewrite Z.shiftr_div_pow2 by lia. change (2^1) with 2.
  rewrite !land_width_mask_u64, !wrap64_mod by done.
  pose proof (Z_div_mod_eq_full e 2) as E. pose proof (Z.mod_pos_bound e 2 ltac:(lia)).
  set (q := e / 2) in *. assert (0 <= q < 2 ^ Z.of_nat fuel) as Hq by lia.
  rewrite IH; [|done|destruct (_ =? 0); [done|by rewrite mod_pow2_idem by lia]].
  assert (((if q =? 0 then base else (base * base) mod 2^w) ^ q) mod 2^w = (base ^ (2 * q)) mod 2^w) as Hb.
  { rewrite Z.pow_mul_r, Z.pow_2_r by lia. destruct (Z.eqb_spec q 0) as [->|]; [done|].
    by rewrite Z.mod_pow_l. }
  rewrite E at 2. rewrite Z.pow_add_r, (Z.mul_comm (base ^ _)), Z.mul_assoc by lia.
  rewrite <- Zmult_mod_idemp_r, Hb, Zmult_mod_idemp_r.
  destruct (Z.eqb_spec (e mod 2) 0) as [->|]; [by rewrite Z.pow_0_r, Z.mul_1_r|].
  replace (e mod 2) with 1 by lia. by rewrite Z.pow_1_r, Zmult_mod_idemp_l.
Qed.

(** ** The meaning of the typed operators *)

(** On operands already reduced to their widths; [None] for an operator that
    is not binary. Division truncates and yields 0 on a zero divisor. *)
Definition binop_meaning (op : TestbenchOperator) (lw rw w : Z) (ls rs : bool) (l r : Z) : option Z :=
  let signed := ls && rs in
  let sl := if signed then sext lw l else l in
  let sr := if signed then sext rw r else r in
  let al := if ls then sext lw l else l in
  match op with
  | Op.Eq | Op.EqWildcard => Some (bool_value (l =? r))
  | Op.Ne | Op.NeWildcard => Some (bool_value (negb (l =? r)))
  | Op.Less => Some (bool_value (sl <? sr))
  | Op.LessEq => Some (bool_value (sl <=? sr))
  | Op.Greater => Some (bool_value (sr <? sl))
  | Op.GreaterEq => Some (bool_value (sr <=? sl))
  | Op.LogicAnd => Some (bool_value (negb (l =? 0) && negb (r =? 0)))
  | Op.LogicOr => Some (bool_value (negb (l =? 0) || negb (r =? 0)))
  | Op.Add => Some ((l + r) mod 2^w)
  | Op.Sub => Some ((l - r) mod 2^w)
  | Op.Mul => Some ((l * r) mod 2^w)
  | Op.Div => Some (if sr =? 0 then 0 else Z.quot sl sr mod 2^w)
  | Op.Rem => Some (if sr =? 0 then 0 else Z.rem sl sr mod 2^w)
  | Op.Pow => Some ((l ^ r) mod 2^w)
  | Op.BitAnd => Some (Z.land l r mod 2^w)
  | Op.BitOr => Some (Z.lor l r mod 2^w)
  | Op.BitXor => Some (Z.lxor l r mod 2^w)
  | Op.BitXnor => Some (Z.lnot (Z.lxor l r) mod 2^w)
  | Op.BitNand => Some (Z.lnot (Z.land l r) mod 2^w)
  | Op.BitNor => Some (Z.lnot (Z.lor l r) mod 2^w)
  | Op.LogicShiftL | Op.ArithShiftL => Some (Z.shiftl l r mod 2^w)
  | Op.LogicShiftR => Some (if w <=? r then 0 else Z.shiftr l r mod 2^w)
  | Op.ArithShiftR =>
      Some ((if w <=? r then if al <? 0 then -1 else 0 else Z.shiftr al r) mod 2^w)
  | Op.LogicNot | Op.BitNot => None
  end.

(** Shifting left by at least the width leaves nothing. *)
Lemma shiftl_out l r w : 0 <= w <= r -> Z.shiftl l r mod 2^w = 0.
Proof.
  intros. rewrite Z.shiftl_mul_pow2 by lia. replace r with (r - w + w) by lia.
  rewrite Z.pow_add_r, Z.mul_assoc by lia. apply Z_mod_mult.
Qed.

Lemma quot_nonneg l r : 0 <= l -> 0 < r -> Z.quot l r = l / r.
Proof. intros. by apply Z.quot_div_nonneg. Qed.

Lemma rem_nonneg l r : 0 <= l -> 0 < r -> Z.rem l r = l mod r.
Proof. intros. by apply Z.rem_mod_nonneg. Qed.

Lemma sext_nonneg_small l w : 0 <= l -> (sext w l <? 0) = true -> 0 < w.
Proof.
  intros Hl. unfold sext. destruct (Z.eqb_spec w 0) as [->|]; simpl; [intros ?%Z.ltb_lt; lia|].
  destruct (Z.leb_spec w 0); [|done]. rewrite Z.testbit_neg_r by lia. simpl. intros ?%Z.ltb_lt. lia.
Qed.

Lemma minus_one_mod w : 0 <= w -> -1 mod 2^w = 2^w - 1.
Proof.
  intros. pose proof (pow2_pos w ltac:(done)). change (-1) with (Z.lnot 0).
  rewrite <- (xor_ones_mod 0 w) by done. rewrite Z.lxor_0_l. apply Z.mod_small. lia.
Qed.

Lemma bool_value_u64 b : is_u64 (bool_value b).
Proof. unfold is_u64. destruct b; simpl; lia. Qed.

Lemma binop_meaning_u64 op lw rw w ls rs l r :
  0 <= w <= 64 -> forall z, binop_meaning op lw rw w ls rs l r = Some z -> is_u64 z.
Proof.
  intros Hw z. destruct op; simpl; try done; intros [= <-]; try apply bool_value_u64; try (by apply mod_pow2_u64).
  all: repeat case_match; try (by apply mod_pow2_u64); unfold is_u64; lia.
Qed.

(** ** The native operations *)

Lemma eval_typed_binop_u64_spec l op r lw rw w ls rs :
  0 <= lw <= 64 -> 0 <= rw <= 64 -> 0 <= w <= 64 ->
  eval_typed_binop_u64 l op r lw rw w ls rs =
    match binop_meaning op lw rw w ls rs (l mod 2^lw) (r mod 2^rw) with Some z => Ok z | None => Panic end.
Proof.
  intros Hlw Hrw Hw. unfold eval_typed_binop_u64. cbv zeta.
  rewrite !signed_i128_spec, !(land_width_mask_u64 _ lw), !(land_width_mask_u64 _ rw),
    !mod_pow2_idem by lia.
  pose proof (mod_pow2_range l lw ltac:(lia)) as Hl. pose proof (mod_pow2_range r rw ltac:(lia)) as Hr.
  revert Hl Hr. generalize (l mod 2^lw) as a, (r mod 2^rw) as b. clear l r. intros l r Hl Hr.
  rewrite ?land_width_mask_u64, ?wrap64_mod, ?not_mod by lia.
  destruct op; simpl binop_meaning; cbv zeta; try done.
  - (* Div *) destruct (ls && rs); [by destruct (_ =? 0)|]. destruct (Z.eqb_spec r 0); [done|].
    by rewrite quot_nonneg by lia.
  - (* Rem *) destruct (ls && rs); [by destruct (_ =? 0)|]. destruct (Z.eqb_spec r 0); [done|].
    by rewrite rem_nonneg by lia.
  - (* Pow *) rewrite pow_loop_spec; [|lia| |by rewrite mod_pow2_idem by lia].
    + by rewrite Z.mul_mod_idemp_l, Z.mul_1_l, Z.mod_pow_l by (apply Z.pow_nonzero; lia).
    + pose proof (Z.pow_le_mono_r 2 rw 64 ltac:(lia) ltac:(lia)). change (Z.of_nat 64) with 64. lia.
  - (* LogicShiftL *) destruct (Z.leb_spec w r); [by rewrite shiftl_out by lia|].
    by rewrite (Z.mod_small r 64) by lia.
  - (* LogicShiftR *) by destruct (w <=? r).
  - (* ArithShiftL *) destruct (Z.leb_spec w r); [by rewrite shiftl_out by lia|].
    by rewrite (Z.mod_small r 64) by lia.
  - (* ArithShiftR *) destruct ls.
    + destruct (w <=? r); [|done]. destruct (_ <? 0); [|done].
      by rewrite minus_one_mod, width_mask_u64_spec by lia.
    + destruct (w <=? r); [|done]. rewrite (proj2 (Z.ltb_ge l 0)) by lia. by rewrite Z.mod_0_l by (apply Z.pow_nonzero; lia).
  - by destruct (ls && rs).
  - by destruct (ls && rs).
  - by destruct (ls && rs).
  - by destruct (ls && rs).
Qed.

(** ** Values *)

Section facts.
Context {B I : Type} `{BigUintLaws B, BigIntLaws I, !BigConv B I, !BigConvLaws B I}.
Abbreviation value := (TestbenchValue B).
Implicit Types (v l r : value).

(** The integer a value denotes. *)
Definition tval v : Z := match v with U64 z => z | Wide b => bval b end.

(** Native values are 64-bit words. *)
Definition wf_value v : Prop := match v with U64 z => is_u64 z | Wide _ => True end.

(** A result: the integer [z], natively when it has at most 64 bits. *)
Definition denotes (r : vm value) (z : Z) : Prop :=
  exists v, r = Ok v /\ tval v = z /\ wf_value v.

Lemma tval_nonneg v : wf_value v -> 0 <= tval v.
Proof. destruct v; simpl; [unfold is_u64; lia|]. intros _. apply bval_nonneg. Qed.

Lemma bval_to_biguint v : wf_value v -> bval (to_biguint v) = tval v.
Proof. destruct v; simpl; [|done]. unfold is_u64. intros. apply bval_from. lia. Qed.

Lemma bval_width_mask w : 0 <= w -> bval (width_mask w) = 2^w - 1.
Proof.
  intros. unfold width_mask. destruct (Z.eqb_spec w 0) as [->|]; [by apply bval_from|].
  pose proof (pow2_pos w ltac:(lia)).
  rewrite bval_sub; rewrite bval_shl, !bval_from, Z.shiftl_1_l by lia; lia.
Qed.

Lemma bval_normalized_bits v w :
  wf_value v -> 0 <= w -> bval (normalized_bits v w) = tval v mod 2^w.
Proof.
  intros. unfold normalized_bits.
  rewrite bval_and, bval_to_biguint, bval_width_mask, land_ones_mod; done.
Qed.

Lemma tb_value_from_bits_spec b w :
  0 <= w -> tval (tb_value_from_bits b w) = bval b mod 2^w /\ wf_value (tb_value_from_bits b w).
Proof.
  intros. unfold tb_value_from_bits.
  assert (bval (big_and b (width_mask w)) = bval b mod 2^w) as E
    by (by rewrite bval_and, bval_width_mask, land_ones_mod).
  destruct (Z.leb_spec w 64); simpl; [|by rewrite E].
  rewrite big_to_u64_spec, E. pose proof (mod_pow2_u64 (bval b) w ltac:(lia)) as [? ?].
  rewrite (proj2 (Z.ltb_lt _ _)) by done. simpl. split; [done|]. by split.
Qed.

Lemma denotes_bits b w z :
  0 <= w -> bval b mod 2^w = z -> denotes (Ok (tb_value_from_bits b w)) z.
Proof. intros Hw <-. eexists. split; [done|]. by apply tb_value_from_bits_spec. Qed.

Lemma denotes_zero : denotes (Ok (U64 0)) 0.
Proof. exists (U64 0). split_and!; [done..|]. simpl. unfold is_u64. lia. Qed.

Lemma ival_signed_bigint v w :
  wf_value v -> 0 <= w -> ival (signed_bigint v w) = sext w (tval v mod 2^w).
Proof.
  intros. unfold signed_bigint, sext. destruct (Z.eqb_spec w 0) as [->|]; cbn [orb].
  { by rewrite ival_from_big, bval_normalized_bits. }
  rewrite big_bit_spec, bval_normalized_bits by (done || lia).
  destruct (negb _); rewrite ?ival_sub, ival_from_big, bval_normalized_bits by (done || lia); [done|].
  by rewrite ival_shl, ival_from, Z.shiftl_1_l by lia.
Qed.

Lemma bval_signed_bits i w : 0 <= w -> bval (signed_bits i w) = ival i mod 2^w.
Proof.
  intros. unfold signed_bits. destruct (Z.eqb_spec w 0) as [->|].
  { by rewrite bval_from, Z.mod_1_r. }
  pose proof (pow2_pos w ltac:(lia)).
  assert (bval (big_shl (big_from 1) w) = 2^w) as E by (by rewrite bval_shl, bval_from, Z.shiftl_1_l by lia).
  rewrite int_is_minus_spec. destruct (Z.ltb_spec (ival i) 0) as [Hn|Hn].
  - destruct (proj2 (int_to_biguint_spec (B:=B) (int_neg i))) as (b & -> & Hb);
      rewrite ival_neg in *; [lia|]. simpl.
    rewrite big_eqb_spec, bval_from, bval_rem, E, Hb by lia.
    pose proof (Z.mod_pos_bound (- ival i) (2^w) ltac:(lia)).
    destruct (Z.eqb_spec (- ival i mod 2^w) 0) as [Ez|Ez].
    + rewrite bval_from by lia. apply Z_mod_zero_opp_full in Ez. by rewrite Z.opp_involutive in Ez.
    + rewrite bval_sub; rewrite ?bval_rem, E, Hb by lia; [|lia].
      rewrite Z_mod_nz_opp_full by (intros E'; apply Ez, Z_mod_zero_opp_full, E'). lia.
  - destruct (proj2 (int_to_biguint_spec (B:=B) i)) as (b & -> & Hb); [lia|]. simpl.
    by rewrite bval_rem, E, Hb by lia.
Qed.

(** The wide comparison of a shift count with the result width. *)
Lemma shift_saturates b w :
  w <= usize_max -> (w <=? default usize_max (big_to_usize b)) = (w <=? bval b).
Proof.
  intros. rewrite big_to_usize_spec. destruct (Z.leb_spec (bval b) usize_max); simpl; [done|].
  destruct (Z.leb_spec w usize_max), (Z.leb_spec w (bval b)); lia.
Qed.

Lemma shift_in_range b w :
  bval b < w <= usize_max -> default usize_max (big_to_usize b) = bval b.
Proof. intros. rewrite big_to_usize_spec. by rewrite (proj2 (Z.leb_le _ _)) by lia. Qed.

Lemma denotes_bool b : denotes (Ok (U64 (bool_value b))) (bool_value b).
Proof. eexists. split_and!; [done..|]. apply bool_value_u64. Qed.

(** ** The arbitrary-precision operations *)

Lemma eval_typed_binop_wide_spec l op r lw rw w ls rs :
  wf_value l -> wf_value r -> 0 <= lw -> 0 <= rw -> 0 <= w <= usize_max ->
  match binop_meaning op lw rw w ls rs (tval l mod 2^lw) (tval r mod 2^rw) with
  | Some z => denotes (eval_typed_binop_wide l op r lw rw w ls rs) z
  | None => eval_typed_binop_wide l op r lw rw w ls rs = Panic
  end.
Proof.
  intros Hl Hr Hlw Hrw Hw. unfold eval_typed_binop_wide. cbv zeta.
  pose proof (ival_signed_bigint l lw Hl Hlw) as Hsl. pose proof (ival_signed_bigint r rw Hr Hrw) as Hsr.
  pose proof (bval_normalized_bits l lw Hl Hlw) as Hlb. pose proof (bval_normalized_bits r rw Hr Hrw) as Hrb.
  rewrite <- Hlb in *. rewrite <- Hrb in *. clear Hlb Hrb. 
  generalize dependent (signed_bigint l lw). generalize dependent (signed_bigint r rw).
  generalize (normalized_bits l lw) as lb, (normalized_bits r rw) as rb. intros lb rb sr Hsr sl Hsl.
  pose proof (bval_nonneg lb). pose proof (bval_nonneg rb).
  rewrite ?big_eqb_spec, ?big_ltb_spec, ?big_leb_spec, ?int_ltb_spec, ?int_leb_spec, ?int_eqb_spec,
    ?bval_from, ?ival_from, ?shift_saturates by lia.
  assert (w <= bval rb -> Z.shiftl (bval lb) (bval rb) mod 2^w = 0) as Hout by (intros; apply shiftl_out; lia).
  destruct op; simpl binop_meaning; cbv beta zeta match; try done;
    try apply denotes_bool; try (apply denotes_bits; [lia|];
      rewrite ?bval_signed_bits, ?mod_pow2_idem by lia;
      autorewrite with bignum; rewrite ?ival_from_big, ?bval_width_mask, ?xor_ones_mod by lia; done).
  - destruct (ls && rs).
    + rewrite Hsr. destruct (Z.eqb_spec (sext rw (bval rb)) 0); [apply denotes_zero|].
      apply denotes_bits; [lia|]. rewrite bval_signed_bits, mod_pow2_idem, ival_div by first [lia | by rewrite Hsr]. by rewrite Hsl, Hsr.
    + destruct (Z.eqb_spec (bval rb) 0); [apply denotes_zero|].
      apply denotes_bits; [lia|]. by rewrite bval_div, quot_nonneg by lia.
  - destruct (ls && rs).
    + rewrite Hsr. destruct (Z.eqb_spec (sext rw (bval rb)) 0); [apply denotes_zero|].
      apply denotes_bits; [lia|]. rewrite bval_signed_bits, mod_pow2_idem, ival_rem by first [lia | by rewrite Hsr]. by rewrite Hsl, Hsr.
    + destruct (Z.eqb_spec (bval rb) 0); [apply denotes_zero|].
      apply denotes_bits; [lia|]. by rewrite bval_rem, rem_nonneg by lia.
  - destruct (Z.eqb_spec w 0) as [->|]; [rewrite Z.mod_1_r; apply denotes_zero|].
    apply denotes_bits; [lia|].
    by rewrite bval_modpow, bval_shl, bval_from, Z.shiftl_1_l, mod_pow2_idem
      by (rewrite ?bval_shl, ?bval_from, ?Z.shiftl_1_l by lia; try apply Z.pow_nonzero; lia).
  - destruct (Z.leb_spec w (bval rb)); [rewrite Hout by done; apply denotes_zero|].
    apply denotes_bits; [lia|]. by rewrite (shift_in_range _ w), bval_shl by lia.
  - destruct (Z.leb_spec w (bval rb)); [apply denotes_zero|].
    apply denotes_bits; [lia|]. by rewrite (shift_in_range _ w), bval_shr by lia.
  - destruct (Z.leb_spec w (bval rb)); [rewrite Hout by done; apply denotes_zero|].
    apply denotes_bits; [lia|]. by rewrite (shift_in_range _ w), bval_shl by lia.
  - destruct ls.
    + apply denotes_bits; [lia|]. rewrite bval_signed_bits, mod_pow2_idem, int_is_minus_spec, Hsl by lia.
      destruct (Z.leb_spec w (bval rb)); [by destruct (_ <? 0); rewrite ival_from|].
      by rewrite ival_shr, (shift_in_range _ w), Hsl by (rewrite ?(shift_in_range _ w) by lia; lia).
    + rewrite (proj2 (Z.ltb_ge (bval lb) 0)) by done.
      destruct (Z.leb_spec w (bval rb)); [rewrite Z.mod_0_l by (apply Z.pow_nonzero; lia); apply denotes_zero|].
      apply denotes_bits; [lia|]. by rewrite (shift_in_range _ w), bval_shr by lia.
  - rewrite Hsl, Hsr. destruct (ls && rs); apply denotes_bool.
  - rewrite Hsl, Hsr. destruct (ls && rs); apply denotes_bool.
  - rewrite Hsl, Hsr. destruct (ls && rs); apply denotes_bool.
  - rewrite Hsl, Hsr. destruct (ls && rs); apply denotes_bool.
Qed.

Lemma eval_typed_binop_spec l op r lw rw w ls rs
    (Hl : wf_value l) (Hr : wf_value r)
    (Hlw : is_usize lw) (Hrw : is_usize rw) (Hw : is_usize w) :
  match binop_meaning op lw rw w ls rs (tval l mod 2^lw) (tval r mod 2^rw) with
  | Some z => denotes (eval_typed_binop l op r lw rw w ls rs) z
  | None => eval_typed_binop l op r lw rw w ls rs = Panic
  end.
Proof.
  unfold is_usize in *.
  pose proof (eval_typed_binop_wide_spec l op r lw rw w ls rs Hl Hr ltac:(lia) ltac:(lia) Hw) as Hwide.
  destruct l as [l|l], r as [r|r]; try exact Hwide. unfold eval_typed_binop.
  destruct (_ && _) eqn:E; [|exact Hwide]. rewrite !andb_true_iff, !Z.leb_le in E.
  clear Hwide. rewrite eval_typed_binop_u64_spec by lia. simpl tval.
  pose proof (binop_meaning_u64 op lw rw w ls rs (l mod 2^lw) (r mod 2^rw) ltac:(lia)) as Hu.
  destruct (binop_meaning _ _ _ _ _ _ _ _) as [z|]; [|done].
  exists (U64 z). split_and!; [done..|]. by apply Hu.
Qed.

(** C3: [eval_typed_binop] computes the fixed-width meaning of every binary
    operator, whichever of its two implementations runs: native and
    arbitrary-precision operands, of any widths and signedness, give the
    value of [binop_meaning] on the operands reduced to their widths, the
    native result staying a [u64], and exactly the two operators that are not
    binary panic. *)
Theorem eval_typed_binop_correct l op r lw rw w ls rs
    (Hl : wf_value l) (Hr : wf_value r)
    (Hlw : is_usize lw) (Hrw : is_usize rw) (Hw : is_usize w) :
  match binop_meaning op lw rw w ls rs (tval l mod 2^lw) (tval r mod 2^rw) with
  | Some z => denotes (eval_typed_binop l op r lw rw w ls rs) z
  | None => eval_typed_binop l op r lw rw w ls rs = Panic
  end.
Proof. by apply eval_typed_binop_spec. Qed.

(** ** Unary operators *)

(** On an operand already reduced to [ow] bits. *)
Definition unop_meaning (op : TestbenchOperator) (ow w z : Z) : option Z :=
  match op with
  | Op.LogicNot => Some (bool_value (z =? 0))
  | Op.BitAnd => Some (bool_value (z =? 2^ow - 1))
  | Op.BitNand => Some (bool_value (negb (z =? 2^ow - 1)))
  | Op.BitOr => Some (bool_value (negb (z =? 0)))
  | Op.BitNor => Some (bool_value (z =? 0))
  | Op.BitXor => Some (bool_value (negb (count_ones z mod 2 =? 0)))
  | Op.BitXnor => Some (bool_value (count_ones z mod 2 =? 0))
  | Op.Add => Some (z mod 2^w)
  | Op.Sub => Some (- z mod 2^w)
  | Op.BitNot => Some (Z.lnot z mod 2^w)
  | _ => None
  end.

Lemma eval_typed_unop_u64_spec op (v : Z) ow w :
  0 <= ow <= 64 -> 0 <= w <= 64 ->
  eval_typed_unop_u64 op v ow w =
    match unop_meaning op ow w (v mod 2^ow) with Some z => Ok z | None => Panic end.
Proof.
  intros. unfold eval_typed_unop_u64. cbv zeta.
  rewrite !land_width_mask_u64, ?wrap64_mod, ?not_mod, ?width_mask_u64_spec by lia. by destruct op.
Qed.

Lemma eval_typed_unop_wide_spec op v ow w :
  wf_value v -> 0 <= ow -> 0 <= w -> (op = Op.BitNot -> w <= ow) ->
  match unop_meaning op ow w (tval v mod 2^ow) with
  | Some z => denotes (eval_typed_unop_wide op v ow w) z
  | None => eval_typed_unop_wide op v ow w = Panic
  end.
Proof.
  intros Hv How Hw Hnot. unfold eval_typed_unop_wide. cbv zeta.
  rewrite <- !(bval_normalized_bits v ow) by done. generalize (normalized_bits v ow) as b. intros b.
  rewrite ?big_eqb_spec, ?bval_from, ?bval_width_mask, digits_count_ones, big_digits_value
    by (apply big_digits_u64 || lia).
  destruct op; cbn [unop_meaning]; cbv beta match; rewrite ?negb_involutive; try done; try apply denotes_bool;
    apply denotes_bits; try lia.
  - by rewrite bval_signed_bits, mod_pow2_idem, ival_neg, ival_from_big by done.
  - rewrite bval_xor, bval_width_mask by done. apply xor_wider_ones_mod. split; [done|auto].
Qed.

(** [eval_typed_unop] computes the meaning of every unary operator in
    both of its implementations -- reductions as 0 or 1, including the parity
    of a value of any number of digits, negation and complement modulo
    [2^w] -- and panics on the others. The complement needs a result no wider
    than the operand, which is how the expression compiler emits it. *)
Lemma eval_typed_unop_correct op v ow w
    (Hv : wf_value v) (How : is_usize ow) (Hw : is_usize w) (Hnot : op = Op.BitNot -> w <= ow) :
  match unop_meaning op ow w (tval v mod 2^ow) with
  | Some z => denotes (eval_typed_unop op v ow w) z
  | None => eval_typed_unop op v ow w = Panic
  end.
Proof.
  unfold is_usize in *.
  pose proof (eval_typed_unop_wide_spec op v ow w Hv ltac:(lia) ltac:(lia) Hnot) as Hwide.
  destruct v as [v|v]; [|exact Hwide]. unfold eval_typed_unop.
  destruct (_ && _) eqn:E; [|exact Hwide]. rewrite !andb_true_iff, !Z.leb_le in E. clear Hwide.
  rewrite eval_typed_unop_u64_spec by lia. simpl tval.
  destruct op; cbn [unop_meaning]; try done; try apply denotes_bool;
    (eexists; split_and!; [done..|]; apply mod_pow2_u64; lia).
Qed.

(** ** Resizing *)

(** A field of [sw] bits, sign-extended when [signed]; a zero-width field
    replicates its low bit. *)
Definition resize_meaning (sw tw : Z) (signed : bool) (z : Z) : Z :=
  if sw =? 0 then (if Z.testbit z 0 then -1 else 0) mod 2^tw
  else (if signed then sext sw (z mod 2^sw) else z mod 2^sw) mod 2^tw.

Lemma resize_fill b sw tw (signed : bool) :
  0 < sw -> 0 <= b < 2^sw -> 0 <= tw ->
  (if (sw <? tw) && signed && Z.testbit b (sw - 1)
   then Z.lor b (Z.lxor (2^tw - 1) (2^sw - 1)) else b) mod 2^tw =
  (if signed then sext sw b else b) mod 2^tw.
Proof.
  intros Hsw Hb Htw. unfold sext. rewrite (proj2 (Z.eqb_neq sw 0)) by lia. cbn [orb].
  destruct signed; [|by rewrite andb_false_r]. rewrite andb_true_r.
  destruct (Z.ltb_spec sw tw); cbn [andb].
  - destruct (Z.testbit b (sw - 1)); simpl; [|done]. apply sign_fill_mod; lia.
  - destruct (negb _); [done|]. assert (2^sw = 2^(sw - tw) * 2^tw) as -> by (rewrite <- Z.pow_add_r by lia; f_equal; lia).
    by rewrite <- Z.add_opp_r, <- Z.mul_opp_l, Z_mod_plus_full.
Qed.

Lemma resize_wide v sw tw signed :
  wf_value v -> 0 < sw -> 0 <= tw ->
  let fill := if (sw <? tw) && signed && Z.testbit (tval v mod 2^sw) (sw - 1)
    then Z.lor (tval v mod 2^sw) (Z.lxor (2^tw - 1) (2^sw - 1)) else tval v mod 2^sw in
  let value := normalized_bits v sw in
  let value := if (sw <? tw) && signed && big_bit value (sw - 1)
    then big_or value (big_xor (width_mask tw) (width_mask sw)) else value in
  tval (tb_value_from_bits value tw) = fill mod 2^tw /\ wf_value (tb_value_from_bits value tw).
Proof.
  intros Hv Hsw Htw. cbv zeta. match goal with |- context [tb_value_from_bits ?b ?w] =>
    pose proof (tb_value_from_bits_spec b w ltac:(lia)) as [-> ?] end.
  split; [|done]. rewrite big_bit_spec, bval_normalized_bits by (done || lia).
  destruct (_ && _ && Z.testbit _ _); rewrite ?bval_or, ?bval_xor, ?bval_width_mask, ?bval_normalized_bits by (done || lia); done.
Qed.

Lemma to_u64_spec v : wf_value v -> to_u64 v = tval v mod 2^64.
Proof.
  destruct v as [z|b]; simpl; [intros; symmetry; by apply Z.mod_small|intros _].
  rewrite <- (big_digits_value b). pose proof (big_digits_u64 b) as Hd.
  destruct Hd as [|d ds Hd Hds]; [done|]. simpl default. cbn [digits_value].
  rewrite Z.mul_comm, Z_mod_plus_full. symmetry. by apply Z.mod_small.
Qed.

Lemma resize_tb_value_spec v sw tw signed
    (Hv : wf_value v) (Hsw : is_usize sw) (Htw : is_usize tw) :
  tval (resize_tb_value v sw tw signed) = resize_meaning sw tw signed (tval v) /\
  wf_value (resize_tb_value v sw tw signed).
Proof.
  unfold is_usize in *. unfold resize_tb_value, resize_meaning.
  destruct (Z.eqb_spec tw 0) as [->|Ht].
  { rewrite Z.mod_1_r. split; [by destruct (sw =? 0); rewrite ?Z.mod_1_r|]. simpl. unfold is_u64. lia. }
  destruct (Z.eqb_spec sw 0) as [->|Hs].
  - pose proof (tb_value_from_bits_spec
      (if Z.land (to_u64 v) 1 =? 0 then big_from 0 else width_mask tw) tw ltac:(lia)) as [-> ?].
    split; [|done]. rewrite to_u64_spec by done. change 1 with (2^0) at 1. rewrite land_pow2_eqb, testbit_mod by lia.
    destruct (Z.testbit (tval v) 0); simpl; [|by rewrite bval_from].
    rewrite bval_width_mask, minus_one_mod by lia. apply Z.mod_small. pose proof (pow2_pos tw ltac:(lia)). lia.
  - pose proof (mod_pow2_range (tval v) sw ltac:(lia)) as Hr.
    rewrite <- (resize_fill (tval v mod 2^sw) sw tw signed) by lia.
    pose proof (resize_wide v sw tw signed Hv ltac:(lia) ltac:(lia)) as Hwide.
    destruct v as [z|b]; [|exact Hwide].
    destruct ((sw <=? 64) && (tw <=? 64)) eqn:E; [|exact Hwide]. clear Hwide.
    rewrite andb_true_iff, !Z.leb_le in E. simpl tval in *. simpl wf_value.
    rewrite !land_width_mask_u64, !width_mask_u64_spec, Z.shiftl_1_l, land_pow2_eqb, negb_involutive by lia.
    split; [done|]. apply mod_pow2_u64. lia.
Qed.

(** [resize_tb_value] truncates, zero-extends and sign-extends fields of
    any width, with the same result on native and arbitrary-precision values,
    and its result is a well-formed value. *)
Lemma resize_tb_value_correct v sw tw signed
    (Hv : wf_value v) (Hsw : is_usize sw) (Htw : is_usize tw) :
  tval (resize_tb_value v sw tw signed) = resize_meaning sw tw signed (tval v) /\
  wf_value (resize_tb_value v sw tw signed).
Proof. by apply resize_tb_value_spec. Qed.
End facts.

(** ** Witnesses *)

(** -3 / 2 on 8-bit signed operands, natively, and 2^70 - 1 on 80 bits. *)
Lemma eval_typed_binop_correct_witness :
  (wf_value (U64 253 : TestbenchValue N) /\ is_usize 8) /\
  denotes (B:=N) (eval_typed_binop (U64 253) Op.Div (U64 2) 8 8 8 true true) 255 /\
  denotes (B:=N) (eval_typed_binop (Wide (2^70)%N) Op.Sub (U64 1) 80 80 80 false false) (2^70 - 1).
Proof.
  assert (forall z, is_u64 z -> wf_value (U64 z : TestbenchValue N)) as Hw by done.
  split; [by split; [apply Hw; unfold is_u64|unfold is_usize, usize_max]|]. split.
  - exact (eval_typed_binop_correct (B:=N) (I:=Z) (U64 253) Op.Div (U64 2) 8 8 8 true true
      ltac:(apply Hw; unfold is_u64; lia) ltac:(apply Hw; unfold is_u64; lia)
      ltac:(unfold is_usize, usize_max; lia) ltac:(unfold is_usize, usize_max; lia) ltac:(unfold is_usize, usize_max; lia)).
  - exact (eval_typed_binop_correct (B:=N) (I:=Z) (Wide (2^70)%N) Op.Sub (U64 1) 80 80 80 false false
      I ltac:(apply Hw; unfold is_u64; lia)
      ltac:(unfold is_usize, usize_max; lia) ltac:(unfold is_usize, usize_max; lia) ltac:(unfold is_usize, usize_max; lia)).
Defined.

