(* ===== verification/VmRun.v ===== *)
(** * VmRun: memory accesses, termination and typing of the bytecode loop

    Reads return the addressed field of the little-endian memory, stores are
    read back, the evaluation loop always ends, keeps its values typed, and
    agrees with constant folding. *)

From S2P Require Import Prelude Bits BigNum Vm VmFacts.

(** ** Memory *)

Lemma read_bytes_spec m ptr n :
  0 <= ptr -> 0 <= n ->
  (ptr + n <= Z.of_nat (length m) /\ read_bytes m ptr n = Ok (take (Z.to_nat n) (drop (Z.to_nat ptr) m)) /\
   length (take (Z.to_nat n) (drop (Z.to_nat ptr) m)) = Z.to_nat n) \/
  (Z.of_nat (length m) < ptr + n /\ read_bytes m ptr n = Err InvalidMemory).
Proof.
  intros. unfold read_bytes. destruct (Z.leb_spec (ptr + n) (Z.of_nat (length m))); [left|by right].
  split_and!; [done..|]. rewrite length_take, length_drop. lia.
Qed.

(** The bytes [n] at [ptr] as a field of the memory. *)
Lemma le_value_at m ptr n :
  Forall is_byte m -> 0 <= ptr -> 0 <= n ->
  le_value (take (Z.to_nat n) (drop (Z.to_nat ptr) m)) = Z.shiftr (le_value m) (8 * ptr) mod 2^(8 * n).
Proof. intros. rewrite le_value_slice by done. by rewrite !Z2Nat.id. Qed.

Lemma read_le_u64_spec m ptr n :
  Forall is_byte m -> 0 <= ptr -> 0 <= n ->
  read_le_u64 m ptr n =
    if ptr + Z.min n 8 <=? Z.of_nat (length m)
    then Ok (Z.shiftr (le_value m) (8 * ptr) mod 2^(8 * Z.min n 8)) else Err InvalidMemory.
Proof.
  intros Hm Hp Hn. unfold read_le_u64.
  destruct (read_bytes_spec m ptr (Z.min n 8) Hp ltac:(lia)) as [(Hle & -> & Hlen)|[Hgt ->]].
  - rewrite (proj2 (Z.leb_le _ _)) by done. msimpl. f_equal.
    by rewrite le_value_app, le_value_zeros, Z.mul_0_r, Z.add_0_r, le_value_at by (done || lia).
  - by rewrite (proj2 (Z.leb_gt _ _)).
Qed.

Section run.
Context {B I : Type} `{BigUintLaws B, BigIntLaws I, !BigConv B I, !BigConvLaws B I}.
Abbreviation value := (TestbenchValue B).
Implicit Types (v : value) (m : list Z) (ops : list (ExprOpcode B)) (s : State B).

Lemma read_le_wide_spec m ptr n w :
  Forall is_byte m -> 0 <= ptr -> 0 <= n -> 0 <= w <= 8 * n ->
  ptr + n <= Z.of_nat (length m) ->
  exists b : B, read_le_wide m ptr n w = Ok b /\ bval b = Z.shiftr (le_value m) (8 * ptr) mod 2^w.
Proof.
  intros Hm Hp Hn Hw Hin. unfold read_le_wide.
  destruct (read_bytes_spec m ptr n Hp Hn) as [(_ & -> & _)|[? _]]; [|lia].
  unfold checked_sub. rewrite decide_True by lia. msimpl. eexists. split; [done|].
  assert (bval (big_from_bytes_le (take (Z.to_nat n) (drop (Z.to_nat ptr) m)) : B) =
    Z.shiftr (le_value m) (8 * ptr) mod 2^(8 * n)) as Hb
    by (rewrite bval_from_bytes_le by (by apply Forall_take_drop); by apply le_value_at).
  destruct (Z.ltb_spec 0 (n * 8 - w)).
  - pose proof (pow2_pos w ltac:(lia)).
    rewrite bval_and, Hb, bval_sub; rewrite bval_shl, !bval_from, Z.shiftl_1_l by lia; [|lia].
    rewrite land_ones_mod by lia. apply mod_mod_le. lia.
  - rewrite Hb. do 2 f_equal. lia.
Qed.

Lemma shiftr_field x a b p w :
  0 <= a -> 0 <= b -> 0 <= w -> b + w <= p ->
  Z.shiftr (Z.shiftr x a mod 2^p) b mod 2^w = Z.shiftr x (a + b) mod 2^w.
Proof.
  intros. apply Z.bits_inj'. intros i Hi. rewrite !testbit_mod, !Z.shiftr_spec by lia.
  destruct (Z.ltb_spec i w); simpl; [|done].
  rewrite testbit_mod, (proj2 (Z.ltb_lt _ _)), Z.shiftr_spec by lia. simpl. f_equal. lia.
Qed.

(** [read_bits] returns exactly the addressed field. Reading [width] bits
    at bit [bit_offset] from byte [ptr] gives that field of the
    little-endian memory on the native path and on the wide path, as a
    well-formed value; it reads nothing outside the bytes of the field, and
    fails exactly when one of them is outside memory. *)
Lemma read_bits_correct m (ptr bit_offset width : Z)
    (Hm : Forall is_byte m) (Hptr : 0 <= ptr) (Hoff : 0 <= bit_offset)
    (Hw : 0 <= width <= usize_max - 7) :
  let last_byte := ptr + bit_offset / 8 + (bit_offset mod 8 + width + 7) / 8 in
  if last_byte <=? Z.of_nat (length m)
  then denotes (read_bits m ptr bit_offset width)
         (Z.shiftr (le_value m) (8 * ptr + bit_offset) mod 2^width)
  else read_bits m ptr bit_offset width = Err InvalidMemory :> result VmFault value.
Proof.
  cbv zeta. unfold read_bits, saturating_add.
  pose proof (Z.mod_pos_bound bit_offset 8 ltac:(lia)) as Hs. pose proof (Z_div_mod_eq_full bit_offset 8) as Hd.
  set (sub := bit_offset mod 8) in *. set (q := bit_offset / 8) in *.
  rewrite Z.min_l by lia. set (span := sub + width) in *. set (n := (span + 7) / 8).
  assert (8 * n <= span + 7 < 8 * n + 8) as Hn
    by (pose proof (Z_div_mod_eq_full (span + 7) 8); pose proof (Z.mod_pos_bound (span + 7) 8); lia).
  replace (8 * ptr + bit_offset) with (8 * (ptr + q) + sub) by lia.
  destruct (Z.leb_spec span 64).
  - rewrite read_le_u64_spec, Z.min_l by (done || lia).
    destruct (_ <=? _); [|done]. msimpl.
    eexists. split; [done|]. simpl. rewrite land_width_mask_u64, shiftr_field by lia.
    split; [done|]. apply mod_pow2_u64. lia.
  - destruct (Z.leb_spec (ptr + q + n) (Z.of_nat (length m))).
    + destruct (read_le_wide_spec m (ptr + q) n span) as (b & -> & Hb); [done|lia..|]. msimpl.
      apply denotes_bits; [lia|].
      by rewrite bval_and, bval_shr, Hb, bval_width_mask, land_ones_mod, mod_pow2_idem, shiftr_field by lia.
    + unfold read_le_wide. destruct (read_bytes_spec m (ptr + q) n) as [(? & _)|[_ ->]]; [lia..|done].
Qed.

(** ** Stores *)

Lemma write_bytes_spec m ptr bs m' :
  0 <= ptr -> write_bytes m ptr bs = Ok m' ->
  length m' = length m /\
  m' = take (Z.to_nat ptr) m ++ bs ++ drop (Z.to_nat ptr + length bs) m /\
  ptr + Z.of_nat (length bs) <= Z.of_nat (length m).
Proof.
  intros Hp. unfold write_bytes. destruct (Z.leb_spec (ptr + Z.of_nat (length bs)) (Z.of_nat (length m))); [|done].
  intros [= <-]. split_and!; [|done..]. rewrite !length_app, length_take, length_drop. lia.
Qed.

Lemma write_bytes_byte m ptr bs m' :
  Forall is_byte m -> Forall is_byte bs -> write_bytes m ptr bs = Ok m' -> Forall is_byte m'.
Proof.
  intros Hm Hb. unfold write_bytes. destruct (_ <=? _); [|done]. intros [= <-].
  rewrite !Forall_app. split_and!; [by apply Forall_take|done|by apply Forall_drop].
Qed.

Lemma to_u64_u64 v : wf_value v -> is_u64 (to_u64 v).
Proof. intros. rewrite to_u64_spec by done. apply mod_pow2_u64. lia. Qed.

Definition stored_bytes v (byte_size : Z) : list Z :=
  take (Z.to_nat (Z.min byte_size 8)) (to_le_bytes 8 (to_u64 v)).

Lemma stored_bytes_value v n :
  wf_value v -> 0 <= n -> le_value (stored_bytes v n) = to_u64 v mod 2^(8 * Z.min n 8).
Proof.
  intros Hv Hn. unfold stored_bytes. pose proof (to_u64_u64 v Hv) as [? ?].
  rewrite le_value_take, to_le_bytes_value by (apply to_le_bytes_byte || done).
  rewrite Z2Nat.id by lia. apply mod_mod_le. lia.
Qed.

Lemma length_stored_bytes v n : 0 <= n -> Z.of_nat (length (stored_bytes v n)) = Z.min n 8.
Proof. intros. unfold stored_bytes. rewrite length_take, length_to_le_bytes. lia. Qed.

(** A store is read back. After [StoreU64] memory has the same length and
    is still made of bytes, a load of the same size at the same place returns
    the low [8 * byte_size] bits of the stored value, every byte outside the
    stored ones is unchanged, and the store fails exactly when it would leave
    memory. *)
Lemma store_u64_roundtrip m v (location byte_size : Z)
    (Hm : Forall is_byte m) (Hv : wf_value v) (Hl : 0 <= location) (Hn : 0 <= byte_size) :
  if location + Z.min byte_size 8 <=? Z.of_nat (length m) then
    exists m', store_u64 m v location byte_size = Ok m' /\
      length m' = length m /\ Forall is_byte m' /\
      read_le_u64 m' location byte_size = Ok (tval v mod 2^(8 * Z.min byte_size 8)) /\
      (forall i : nat, Z.of_nat i < location \/ location + Z.min byte_size 8 <= Z.of_nat i -> m' !! i = m !! i)
  else store_u64 m v location byte_size = Err InvalidMemory.
Proof.
  unfold store_u64. fold (stored_bytes v byte_size). pose proof (length_stored_bytes v byte_size Hn) as Hlen.
  destruct (write_bytes m location (stored_bytes v byte_size)) as [m'| |] eqn:E.
  2,3: unfold write_bytes in E; rewrite Hlen in E; by destruct (_ <=? _); simplify_eq.
  pose proof (write_bytes_byte _ _ _ _ Hm ltac:(apply Forall_take, to_le_bytes_byte) E) as Hb.
  apply write_bytes_spec in E as (Hl' & Em & Hin); [|done]. rewrite Hlen in Hin.
  rewrite (proj2 (Z.leb_le _ _)) by done. exists m'. split_and!; [done..| |].
  - rewrite read_le_u64_spec, Hl', (proj2 (Z.leb_le _ _)), <- le_value_at by (done || lia).
    rewrite Em, drop_app_length' by (rewrite length_take; lia).
    rewrite take_app_length' by lia. rewrite stored_bytes_value, to_u64_spec by done.
    f_equal. apply mod_mod_le. lia.
  - intros i Hi. subst m'. destruct Hi as [Hi|Hi].
    + rewrite lookup_app_l, lookup_take by (rewrite length_take; lia). apply decide_True. lia.
    + rewrite !lookup_app_r by (rewrite ?length_take; lia). rewrite lookup_drop, length_take. f_equal. lia.
Qed.

(** ** The loop *)

(** Operands of an opcode are machine words. *)
Definition wf_op (op : ExprOpcode B) : Prop :=
  match op with
  | ConstU64 v => is_u64 v
  | ConstWide _ | BinOp _ => True
  | LoadU64 location byte_size mask => is_usize location /\ is_usize byte_size /\ is_u64 mask
  | LoadWide location byte_size width => is_usize location /\ is_usize byte_size /\ is_usize width
  | TypedBinOp _ lw rw w _ _ => is_usize lw /\ is_usize rw /\ is_usize w
  | TypedUnary _ ow w => is_usize ow /\ is_usize w
  | Resize sw tw _ => is_usize sw /\ is_usize tw
  | ConcatPart pw rw => is_usize pw /\ is_usize rw
  | Ternary then_len else_len => is_usize then_len /\ is_usize else_len
  | LoadIndexed location stride base width =>
      is_usize location /\ is_usize stride /\ is_usize base /\ is_usize width
  | LoadBitSelect location n width => is_usize location /\ is_usize n /\ is_usize width
  | StoreU64 location n => is_usize location /\ is_usize n
  end.

Definition fuelled {A} (r : vm A) : Prop := r <> Err OutOfFuel.

Lemma fuelled_bind {A C} (r : vm A) (k : A -> vm C) :
  fuelled r -> (forall a, r = Ok a -> fuelled (k a)) -> fuelled (r ≫= k).
Proof. destruct r; unfold fuelled; msimpl; auto. intros Hr _ [=]. by subst. Qed.

Lemma usize_add_Ok a b c : usize_add a b = Ok c -> c = a + b /\ a + b <= usize_max.
Proof.
  unfold usize_add, expect. destruct (checked_add a b) eqn:E; [|done]. intros [= <-]. by apply checked_add_Some.
Qed.

Lemma fuelled_expect {A} (o : option A) : fuelled (expect o).
Proof. unfold fuelled. by destruct o. Qed.

Ltac solve_fuelled :=
  repeat first
    [ done | apply fuelled_expect
    | apply fuelled_bind; [|intros ? _]
    | progress case_match
    | match goal with |- fuelled (match ?x with _ => _ end) => destruct x end ].

Lemma read_bytes_fuelled m p n : fuelled (read_bytes m p n).
Proof. unfold read_bytes. solve_fuelled. Qed.
Lemma read_le_u64_fuelled m p n : fuelled (read_le_u64 m p n).
Proof. unfold read_le_u64. apply fuelled_bind; [apply read_bytes_fuelled|done]. Qed.
Lemma read_le_wide_fuelled m p n w : fuelled (read_le_wide m p n w : vm B).
Proof. unfold read_le_wide. apply fuelled_bind; [apply read_bytes_fuelled|]. intros. solve_fuelled. Qed.
Lemma read_bits_fuelled m p o w : fuelled (read_bits m p o w : vm value).
Proof.
  unfold read_bits. case_match; apply fuelled_bind;
    [apply read_le_u64_fuelled|done|apply read_le_wide_fuelled|done].
Qed.
Lemma eval_binop_fuelled l op r : fuelled (eval_binop l op r : vm value).
Proof. destruct l, r, op; done. Qed.
Lemma eval_typed_binop_fuelled l op r lw rw w ls rs : fuelled (eval_typed_binop l op r lw rw w ls rs : vm value).
Proof.
  unfold eval_typed_binop.
  assert (fuelled (eval_typed_binop_wide l op r lw rw w ls rs)) as Hw
    by (unfold eval_typed_binop_wide; destruct op; solve_fuelled).
  destruct l as [l|], r as [r|]; try done. case_match; [|done].
  apply fuelled_bind; [|done]. unfold eval_typed_binop_u64. destruct op; solve_fuelled.
Qed.
Lemma eval_typed_unop_fuelled op v ow w : fuelled (eval_typed_unop op v ow w : vm value).
Proof. destruct v, op; unfold eval_typed_unop; solve_fuelled. Qed.

Lemma exec_op_fuelled op st m : fuelled (exec_op op st m : vm (list value * list Z)).
Proof.
  destruct op, st as [|v1 [|v2 st]]; try done; cbn [exec_op]; try (apply fuelled_bind; [|done]);
    auto using read_le_u64_fuelled, read_le_wide_fuelled, eval_binop_fuelled, eval_typed_binop_fuelled,
      eval_typed_unop_fuelled, read_bits_fuelled.
  all: unfold load_indexed, load_bit_select, store_u64, write_bytes; solve_fuelled;
    auto using read_bytes_fuelled, read_le_u64_fuelled, read_le_wide_fuelled, read_bits_fuelled.
Qed.

(** What one opcode does, with the branch runner abstract. *)
Inductive exec_case (run : Z -> State B -> vm (State B)) ops s : vm (State B) -> Prop :=
  | exec_panic : exec_case run ops s Panic
  | exec_plain op r : ops !! Z.to_nat (pc s) = Some op -> (forall t e, op <> Ternary t e) ->
      r = ('(st, m) ← exec_op op (stack s) (memory s); pc' ← usize_add (pc s) 1;
           Ok {| pc := pc'; stack := st; memory := m |}) ->
      exec_case run ops s r
  | exec_else t e cond st : ops !! Z.to_nat (pc s) = Some (Ternary t e) -> stack s = cond :: st ->
      is_zero cond = true ->
      exec_case run ops s (run (pc s + 1 + t + e) {| pc := pc s + 1 + t; stack := st; memory := memory s |})
  | exec_then t e cond st r : ops !! Z.to_nat (pc s) = Some (Ternary t e) -> stack s = cond :: st ->
      is_zero cond = false ->
      r = (s' ← run (pc s + 1 + t) {| pc := pc s + 1; stack := st; memory := memory s |};
           pc' ← usize_add (pc s') e; Ok {| pc := pc'; stack := stack s'; memory := memory s' |}) ->
      exec_case run ops s r.

Lemma exec_at_case run ops s : exec_case run ops s (exec_at run ops s).
Proof.
  unfold exec_at. destruct (ops !! Z.to_nat (pc s)) as [op|] eqn:E; msimpl; [|constructor].
  assert ((forall t e, op <> Ternary t e) \/ exists t e, op = Ternary t e) as [Hn|(t & e & ->)]
    by (destruct op; eauto; left; congruence).
  - assert (match op with Ternary _ _ => False | _ => True end) as Ht by (destruct op; try done; by eapply Hn).
    eapply exec_plain; [done|done|]. by destruct op.
  - destruct (stack s) as [|cond st] eqn:Es; [constructor|].
    destruct (usize_add (pc s) 1) as [p1| |] eqn:E1; [|by unfold usize_add in E1; destruct (checked_add _ _)|constructor].
    apply usize_add_Ok in E1 as [-> ?]. destruct (is_zero cond) eqn:Ec.
    + destruct (usize_add (pc s + 1) t) as [p2| |] eqn:E2; [|by unfold usize_add in E2; destruct (checked_add _ _)|constructor].
      apply usize_add_Ok in E2 as [-> ?].
      destruct (usize_add (pc s + 1 + t) e) as [p3| |] eqn:E3; [|by unfold usize_add in E3; destruct (checked_add _ _)|constructor].
      apply usize_add_Ok in E3 as [-> ?]. by econstructor.
    + destruct (usize_add (pc s + 1) t) as [p2| |] eqn:E2; [|by unfold usize_add in E2; destruct (checked_add _ _)|constructor].
      apply usize_add_Ok in E2 as [-> ?]. by eapply exec_then.
Qed.

(** ** Termination *)

Lemma exec_plain_Ok op s s' :
  ('(st, m) ← exec_op op (stack s) (memory s); pc' ← usize_add (pc s) 1;
   Ok {| pc := pc'; stack := st; memory := m |}) = Ok s' ->
  exec_op op (stack s) (memory s) = Ok (stack s', memory s') /\ pc s' = pc s + 1.
Proof.
  destruct (exec_op op (stack s) (memory s)) as [[st m]| |]; msimpl; try done.
  destruct (usize_add (pc s) 1) as [p1| |] eqn:E; try done. intros [= <-].
  by apply usize_add_Ok in E as [-> _].
Qed.

Section bytecode.
Context (ops : list (ExprOpcode B)) (Hops : Forall wf_op ops).

Lemma wf_op_at i op : ops !! i = Some op -> wf_op op.
Proof using Hops. rewrite Forall_lookup in Hops. by apply Hops. Qed.

Lemma exec_at_mono runner s s' :
  (forall e s1 s2, runner e s1 = Ok s2 -> pc s1 <= pc s2) ->
  exec_at runner ops s = Ok s' -> pc s < pc s'.
Proof using Hops.
  intros IH Hexec. pose proof (exec_at_case runner ops s) as Hcase. rewrite Hexec in Hcase.
  inversion Hcase as [|op r Hop _ Hr|t el cond st Hop _ _ Hr|t el cond st r Hop _ _ Hr]; subst.
  - symmetry in Hr. apply exec_plain_Ok in Hr as [_ ?]. lia.
  - destruct (wf_op_at _ _ Hop) as [[? _] [? _]]. apply IH in Hr. simpl in Hr. lia.
  - destruct (wf_op_at _ _ Hop) as [[? _] [? _]].
    destruct (runner _ _) as [s2| |] eqn:E2; try done. apply IH in E2. simpl in E2.
    revert Hr. msimpl. destruct (usize_add (pc s2) el) as [p3| |] eqn:E3; try done.
    apply usize_add_Ok in E3 as [-> _]. intros [= ->]. simpl in *. lia.
Qed.

Lemma run_mono fuel e s s' : run fuel ops e s = Ok s' -> pc s <= pc s'.
Proof using Hops.
  revert e s s'. induction fuel as [|fuel IH]; intros e s s'; cbn [run];
    (destruct (e <=? pc s); [by intros [= <-]|]); [done|].
  destruct (exec_at (run fuel ops) ops s) as [s1| |] eqn:E; msimpl; try done. intros Hrun%IH.
  apply exec_at_mono in E; [lia|done].
Qed.

(** Two runners that agree, and do not run out of fuel, on the states an
    opcode can hand them. *)
Lemma exec_at_ext run1 run2 s :
  0 <= pc s ->
  (forall e s1, pc s < pc s1 -> fuelled (run1 e s1) /\ run2 e s1 = run1 e s1) ->
  fuelled (exec_at run1 ops s) /\ exec_at run2 ops s = exec_at run1 ops s.
Proof using Hops.
  intros Hpc Hrun. unfold exec_at. destruct (ops !! Z.to_nat (pc s)) as [op|] eqn:Eop; [|done]. msimpl.
  pose proof (wf_op_at _ _ Eop) as Hop.
  assert (forall r : vm (list value * list Z), fuelled r -> fuelled ('(st, m) ← r;
    pc' ← usize_add (pc s) 1; Ok {| pc := pc'; stack := st; memory := m |})) as Hplain.
  { intros r Hr. apply fuelled_bind; [done|]. intros [st m] _. apply fuelled_bind; [apply fuelled_expect|done]. }
  destruct op; try (split; [apply (Hplain _ (exec_op_fuelled _ _ _))|done]).
  destruct (stack s) as [|cond st]; [done|]. destruct Hop as [[? _] [? _]].
  destruct (usize_add (pc s) 1) as [p1| |] eqn:E1; try (split; [by unfold usize_add in E1; destruct (checked_add _ _)|done]).
  apply usize_add_Ok in E1 as [-> _].
  destruct (usize_add (pc s + 1) then_len) as [p2| |] eqn:E2;
    [|by unfold usize_add in E2; destruct (checked_add _ _)|by destruct (is_zero cond)].
  apply usize_add_Ok in E2 as [-> _]. destruct (is_zero cond).
  - destruct (usize_add _ _) as [p3| |] eqn:E3; [|by unfold usize_add in E3; destruct (checked_add _ _)|done].
    apply Hrun. simpl. lia.
  - destruct (Hrun (pc s + 1 + then_len) {| pc := pc s + 1; stack := st; memory := memory s |}) as [Hf ->];
      [simpl; lia|]. split; [|done].
    apply (fuelled_bind _ _ Hf). intros s2 _. apply fuelled_bind; [apply fuelled_expect|done].
Qed.

(** Every opcode advances [pc], so a run needs no more fuel than opcodes are
    left, and more fuel changes nothing. *)
Lemma run_enough fuel fuel' e s :
  0 <= pc s -> (0 < fuel)%nat -> (length ops < fuel + Z.to_nat (pc s))%nat -> (fuel <= fuel')%nat ->
  fuelled (run fuel ops e s) /\ run fuel' ops e s = run fuel ops e s.
Proof using Hops.
  revert fuel' e s. induction fuel as [|fuel IH]; intros fuel' e s Hpc Hpos Hfuel Hle; [lia|].
  destruct fuel' as [|fuel']; [lia|]. cbn [run]. destruct (e <=? pc s); [done|].
  destruct (decide (length ops <= Z.to_nat (pc s))%nat).
  { unfold exec_at. by rewrite lookup_ge_None_2 by lia. }
  destruct (exec_at_ext (run fuel ops) (run fuel' ops) s Hpc) as [Hf ->].
  { intros e1 s1 Hlt. apply IH; lia. }
  destruct (exec_at (run fuel ops) ops s) as [s1| |] eqn:E; [|done..].
  apply IH; [..|lia]; pose proof (exec_at_mono _ _ _ (run_mono fuel) E); lia.
Qed.
End bytecode.

Definition start m : State B := {| pc := 0; stack := []; memory := m |}.

(** C37: evaluation terminates. On bytecode whose operands are machine words
    -- jumps past the end included -- [eval] never runs out of its
    [length ops + 1] steps, and the result is the same for every larger
    bound: each opcode advances [pc], also through nested [Ternary] branches,
    so the loop [while pc < ops.len()] ends. *)
Theorem eval_terminates ops m (fuel : nat) (Hops : Forall wf_op ops) (Hfuel : (length ops < fuel)%nat) :
  eval ops m <> Err OutOfFuel /\
  run fuel ops (Z.of_nat (length ops)) (start m) =
    run (S (length ops)) ops (Z.of_nat (length ops)) (start m).
Proof.
  destruct (run_enough ops Hops (S (length ops)) fuel (Z.of_nat (length ops)) (start m)) as [Hf ->];
    [simpl; lia..|]. split; [|done].
  apply (fuelled_bind _ _ Hf). intros s _. apply fuelled_bind; [apply fuelled_expect|done].
Qed.

(** ** Typing *)

Lemma land_u64 a b : is_u64 a -> 0 <= b -> is_u64 (Z.land a b).
Proof.
  unfold is_u64. intros Ha Hb. rewrite <- (Z.mod_small a (2^64)) by done.
  assert (Z.land (a mod 2^64) b = Z.land a b mod 2^64) as -> by bit_solve.
  apply Z.mod_pos_bound. lia.
Qed.

Lemma bitwise_u64 (f : Z -> Z -> Z) a b :
  (forall x y, f x y mod 2^64 = f (x mod 2^64) (y mod 2^64)) ->
  is_u64 a -> is_u64 b -> is_u64 (f a b).
Proof.
  unfold is_u64. intros Hf Ha Hb. rewrite <- (Z.mod_small a (2^64)), <- (Z.mod_small b (2^64)), <- Hf by done.
  apply Z.mod_pos_bound. lia.
Qed.

Lemma shiftr_u64 a n : is_u64 a -> 0 <= n -> is_u64 (Z.shiftr a n).
Proof.
  unfold is_u64. intros Ha Hn. rewrite Z.shiftr_div_pow2 by done. pose proof (pow2_pos n Hn).
  split; [apply Z.div_pos; lia|]. apply Z.div_lt_upper_bound; [lia|]. nia.
Qed.

Lemma div_u64 a b : is_u64 a -> is_u64 b -> b <> 0 -> is_u64 (a / b) /\ is_u64 (a mod b).
Proof.
  unfold is_u64. intros Ha Hb Hz. pose proof (Z.mod_pos_bound a b ltac:(lia)).
  split; [|lia]. split; [apply Z.div_pos; lia|]. apply Z.div_lt_upper_bound; [lia|]. nia.
Qed.

Lemma eval_binop_u64_typed l op r z :
  is_u64 l -> is_u64 r -> eval_binop_u64 l op r = Ok z -> is_u64 z.
Proof.
  intros Hl Hr. destruct op; cbn [eval_binop_u64]; try done; intros [= <-];
    try apply wrap64_u64; try apply bool_value_u64; repeat case_match; try apply wrap64_u64;
    try (unfold is_u64; lia).
  all: try (apply div_u64; [done..|]; by apply Z.eqb_neq).
  1: by apply (bitwise_u64 Z.land); [intros; bit_solve|..].
  1: by apply (bitwise_u64 Z.lor); [intros; bit_solve|..].
  1: by apply (bitwise_u64 Z.lxor); [intros; bit_solve|..].
  apply shiftr_u64; [done|]. apply Hr.
Qed.

Lemma width_mask_u64_range w : 0 <= w -> 0 <= width_mask_u64 w < 2^64.
Proof.
  intros. unfold width_mask_u64. destruct (Z.eqb_spec w 0); [lia|]. destruct (Z.leb_spec w 63); [|by unfold u64_max].
  rewrite Z.shiftl_1_l. pose proof (pow2_pos w ltac:(lia)).
  pose proof (Z.pow_le_mono_r 2 w 63 ltac:(lia) ltac:(lia)). lia.
Qed.

Lemma concat_part_typed (a p : value) pw rw :
  wf_value a -> wf_value p -> is_usize pw -> is_usize rw -> wf_value (concat_part a p pw rw).
Proof.
  unfold is_usize. intros Ha Hp Hpw Hrw.
  pose proof (proj2 (tb_value_from_bits_spec (big_or (big_shl (to_biguint a) pw) (normalized_bits p pw)) rw ltac:(lia))) as Hwide.
  destruct a as [a|], p as [p|]; try exact Hwide. unfold concat_part. destruct (rw <=? 64); [|exact Hwide].
  simpl. apply (bitwise_u64 Z.lor); [intros; bit_solve| |].
  - destruct (64 <=? pw); [unfold is_u64; lia|apply wrap64_u64].
  - apply land_u64; [done|]. apply width_mask_u64_range. lia.
Qed.

Lemma eval_typed_unop_typed op v ow w (r : value) :
  wf_value v -> is_usize ow -> is_usize w -> eval_typed_unop op v ow w = Ok r -> wf_value r.
Proof.
  unfold is_usize. intros Hv How Hw.
  assert (eval_typed_unop_wide op v ow w = Ok r -> wf_value r) as Hwide.
  { unfold eval_typed_unop_wide. cbv zeta. destruct op; cbv beta match; try done; intros [= <-];
      try (apply tb_value_from_bits_spec; lia); apply bool_value_u64. }
  destruct v as [v|]; [|done]. unfold eval_typed_unop. destruct (_ && _) eqn:E; [|done].
  rewrite andb_true_iff, !Z.leb_le in E. rewrite eval_typed_unop_u64_spec by lia.
  destruct op; cbn [unop_meaning]; msimpl; try done; intros [= <-]; simpl;
    try apply bool_value_u64; apply mod_pow2_u64; lia.
Qed.

Lemma eval_binop_typed (l : value) op (r v : value) : wf_value l -> wf_value r -> eval_binop l op r = Ok v -> wf_value v.
Proof.
  intros Hl Hr. assert (forall a b : B, (v' ← eval_binop_wide_cmp a op b; Ok (U64 v')) = Ok v -> wf_value v) as Hc.
  { intros a b. destruct op; try done; intros [= <-]; apply bool_value_u64. }
  assert (forall a b : B, (v' ← eval_binop_wide a op b; Ok (Wide v')) = Ok v -> wf_value v) as Hwide.
  { intros a b. by destruct (eval_binop_wide a op b); intros [= <-]. }
  destruct l as [l|l], r as [r|r]; cbn [eval_binop].
  { destruct (eval_binop_u64 l op r) as [z| |] eqn:E; try done. intros [= <-]. by apply eval_binop_u64_typed in E. }
  all: by destruct op; first [apply Hc|apply Hwide].
Qed.

Lemma read_le_u64_typed m p n z :
  Forall is_byte m -> 0 <= p -> 0 <= n -> read_le_u64 m p n = Ok z -> is_u64 z.
Proof.
  intros. rewrite read_le_u64_spec in * by done. destruct (_ <=? _); [|done]. simplify_eq.
  apply mod_pow2_u64. lia.
Qed.

Lemma read_bits_typed m p o w v :
  Forall is_byte m -> 0 <= p -> 0 <= o -> 0 <= w -> read_bits m p o w = Ok v -> wf_value v.
Proof.
  intros Hm Hp Ho Hw. unfold read_bits.
  pose proof (Z.mod_pos_bound o 8 ltac:(lia)). pose proof (Z.div_pos o 8 Ho ltac:(lia)).
  assert (0 <= (saturating_add (o mod 8) w + 7) / 8) by (apply Z.div_pos; [unfold saturating_add, usize_max; lia|lia]).
  case_match.
  - destruct (read_le_u64 _ _ _) as [z| |] eqn:E; try done. intros [= <-]. simpl.
    apply land_u64; [|apply width_mask_u64_range; lia]. apply shiftr_u64; [|lia].
    eapply read_le_u64_typed, E; [done|lia..].
  - destruct (read_le_wide _ _ _ _); try done. intros [= <-]. by apply tb_value_from_bits_spec.
Qed.

Lemma load_bit_select_typed m (i : value) loc n w v :
  Forall is_byte m -> wf_value i -> 0 <= loc -> 0 <= n -> 0 <= w ->
  load_bit_select m i loc n w = Ok v -> wf_value v.
Proof.
  intros Hm Hi Hl Hn Hw. unfold load_bit_select. destruct (_ && _) eqn:E.
  - rewrite andb_true_iff, !Z.leb_le in E. destruct (read_le_u64 _ _ _) as [z| |] eqn:Er; try done. msimpl.
    destruct (64 <=? to_u64 i); [done|]. intros [= <-]. simpl. apply land_u64.
    + apply shiftr_u64; [by eapply read_le_u64_typed, Er|]. by apply to_u64_u64.
    + destruct (w =? 64); [unfold u64_max; lia|]. rewrite Z.shiftl_1_l. pose proof (pow2_pos w Hw). lia.
  - destruct (read_le_wide _ _ _ _); try done. intros [= <-]. by apply tb_value_from_bits_spec.
Qed.

Definition typed (n : nat) (st : list value) m : Prop :=
  Forall wf_value st /\ Forall is_byte m /\ length m = n.

Lemma eval_typed_binop_typed (l : value) op (r v : value) lw rw w ls rs :
  wf_value l -> wf_value r -> is_usize lw -> is_usize rw -> is_usize w ->
  eval_typed_binop l op r lw rw w ls rs = Ok v -> wf_value v.
Proof.
  intros Hl Hr Hlw Hrw Hw E.
  pose proof (eval_typed_binop_spec l op r lw rw w ls rs Hl Hr Hlw Hrw Hw) as Hs. rewrite E in Hs.
  destruct (binop_meaning _ _ _ _ _ _ _ _); [|done]. destruct Hs as (v' & [= <-] & _ & ?). done.
Qed.

Lemma exec_op_typed n op st m st' m' :
  wf_op op -> typed n st m -> exec_op op st m = Ok (st', m') -> typed n st' m'.
Proof.
  intros Hop (Hst & Hm & Hn) E.
  assert (forall (st : list value) (v : value), Forall wf_value st -> wf_value v -> typed n (v :: st) m) as Hpush
    by (intros; split_and!; [by constructor|done..]).
  destruct op; cbn [exec_op wf_op] in *; unfold is_usize in *.
  1: simplify_eq; by apply Hpush.
  1: simplify_eq; by apply Hpush.
  1: { destruct (read_le_u64 _ _ _) as [z| |] eqn:Er; try done. simplify_eq/=. apply Hpush; [done|].
    apply land_u64; [eapply read_le_u64_typed, Er; [done|lia..]|]. by apply Hop. }
  1: { destruct (read_le_wide _ _ _ _) as [z| |] eqn:Er; try done. simplify_eq/=. by apply Hpush. }
  all: try (destruct st as [|v1 st]; [done|]; apply Forall_cons in Hst as [Hv1 Hst]).
  all: try (destruct st as [|v2 st]; [done|]; apply Forall_cons in Hst as [Hv2 Hst]).
  - destruct (eval_binop v2 op v1) as [z| |] eqn:Er; try done. simplify_eq/=. apply Hpush; [done|].
    by apply (eval_binop_typed v2 op v1).
  - destruct (eval_typed_binop _ _ _ _ _ _ _ _) as [z| |] eqn:Er; try done. simplify_eq/=. apply Hpush; [done|].
    eapply eval_typed_binop_typed, Er; try done; apply Hop.
  - destruct (eval_typed_unop _ _ _ _) as [z| |] eqn:Er; try done. simplify_eq/=. apply Hpush; [done|].
    eapply eval_typed_unop_typed, Er; try done; apply Hop.
  - simplify_eq/=. apply Hpush; [done|]. by apply resize_tb_value_spec; [..|apply Hop|apply Hop].
  - simplify_eq/=. apply Hpush; [done|]. by apply concat_part_typed; [..|apply Hop|apply Hop].
  - done.
  - unfold load_indexed in E. destruct (read_bits _ _ _ _) as [z| |] eqn:Er; try done. simplify_eq/=.
    apply Hpush; [done|]. eapply read_bits_typed, Er; [done|lia| |lia].
    pose proof (to_u64_u64 v1 Hv1) as [? _]. unfold saturating_add, saturating_mul, usize_max. lia.
  - destruct (load_bit_select _ _ _ _ _) as [z| |] eqn:Er; try done. simplify_eq/=. apply Hpush; [done|].
    eapply load_bit_select_typed, Er; [done|done|lia..].
  - destruct (store_u64 _ _ _ _) as [m2| |] eqn:Er; try done. simplify_eq/=. unfold store_u64 in Er.
    split_and!; [done| |].
    + eapply write_bytes_byte, Er; [done|]. apply Forall_take, to_le_bytes_byte.
    + apply write_bytes_spec in Er as [-> _]; [done|lia].
Qed.

Lemma exec_at_typed n ops run s s' :
  Forall wf_op ops ->
  (forall e s1 s2, typed n (stack s1) (memory s1) -> run e s1 = Ok s2 -> typed n (stack s2) (memory s2)) ->
  typed n (stack s) (memory s) -> exec_at run ops s = Ok s' -> typed n (stack s') (memory s').
Proof.
  intros Hops Hrun Hs E. pose proof (exec_at_case run ops s) as Hcase. rewrite E in Hcase.
  inversion Hcase as [|op r Hop _ Hr|t el cond st Hop Hst _ Hr|t el cond st r Hop Hst _ Hr]; subst.
  - symmetry in Hr. apply exec_plain_Ok in Hr as [He _]. eapply exec_op_typed, He; [|done].
    rewrite Forall_lookup in Hops. by eapply Hops.
  - eapply Hrun, Hr. rewrite Hst in Hs. destruct Hs as ([_ ?]%Forall_cons & ?). by split.
  - destruct (run _ _) as [s2| |] eqn:E2; try done. apply Hrun in E2.
    2:{ rewrite Hst in Hs. destruct Hs as ([_ ?]%Forall_cons & ?). by split. }
    revert Hr. msimpl. by destruct (usize_add (pc s2) el); intros [= ->].
Qed.

Lemma run_typed n fuel ops e s s' :
  Forall wf_op ops -> typed n (stack s) (memory s) -> run fuel ops e s = Ok s' ->
  typed n (stack s') (memory s').
Proof.
  intros Hops. revert e s s'. induction fuel as [|fuel IH]; intros e s s' Hs; cbn [run];
    (destruct (e <=? pc s); [by intros [= <-]|]); [done|].
  destruct (exec_at (run fuel ops) ops s) as [s1| |] eqn:E; msimpl; try done.
  apply IH. by eapply exec_at_typed, E.
Qed.

(** C38: evaluation is type-preserving. Well-formed bytecode on a byte memory
    yields a well-formed value -- a native result always fits a [u64], so the
    fast paths never leave the machine word -- and a memory of the same
    length made of bytes. *)
Theorem eval_well_typed ops m m' (v : value)
    (Hops : Forall wf_op ops) (Hm : Forall is_byte m) (He : eval ops m = Ok (v, m')) :
  wf_value v /\ Forall is_byte m' /\ length m' = length m.
Proof.
  revert He. unfold eval. fold (start m).
  destruct (run _ ops _ (start m)) as [s| |] eqn:E; try done. msimpl.
  apply (run_typed (length m)) in E as (Hst & ? & ?); [|done|by split_and!].
  destruct (stack s) as [|v' st]; [done|]. intros [= -> <-]. apply Forall_cons in Hst as [? _]. done.
Qed.

(** ** Constant folding *)

Definition with_memory m s : State B := {| pc := pc s; stack := stack s; memory := m |}.

Lemma exec_op_constant op st m1 m2 :
  touches_memory op = false ->
  (exec_op op st m1 = '(st', _) ← exec_op op st m2; Ok (st', m1) :> vm (list value * list Z)) /\
  (forall st' m', exec_op op st m2 = Ok (st', m') -> m' = m2).
Proof.
  intros Ht. destruct op; try done; cbn [exec_op];
    (destruct st as [|v1 [|v2 st]]; [try (split; [done|by intros; simplify_eq])..]).
  all: split; [|intros st' m']; first [destruct (eval_binop _ _ _)|destruct (eval_typed_binop _ _ _ _ _ _ _ _)|destruct (eval_typed_unop _ _ _ _)];
    msimpl; try done; intros; by simplify_eq.
Qed.

Section constant.
Context (ops : list (ExprOpcode B)) (Hc : existsb touches_memory ops = false).

Lemma untouched i op : ops !! i = Some op -> touches_memory op = false.
Proof using Hc.
  intros Hi%list_elem_of_lookup_2. destruct (touches_memory op) eqn:E; [|done].
  exfalso. apply eq_true_false_abs in Hc; [done|]. apply existsb_exists. exists op.
  split; [by apply list_elem_of_In|done].
Qed.

(** Two runs that differ only in memory go through the same states. *)
Definition same_run m s (r1 r2 : vm (State B)) : Prop :=
  r1 = with_memory m <$> r2 /\ (forall s', r2 = Ok s' -> memory s' = memory s).

Lemma exec_at_constant run m s :
  (forall e s1, same_run m s1 (run e (with_memory m s1)) (run e s1)) ->
  same_run m s (exec_at run ops (with_memory m s)) (exec_at run ops s).
Proof using Hc.
  intros Hrun. unfold exec_at. cbn [pc stack memory with_memory].
  destruct (ops !! Z.to_nat (pc s)) as [op|] eqn:Eop; [|done]. msimpl.
  assert (forall op, touches_memory op = false -> same_run m s
    ('(st, m') ← exec_op op (stack s) m; pc' ← usize_add (pc s) 1;
       Ok {| pc := pc'; stack := st; memory := m' |})
    ('(st, m') ← exec_op op (stack s) (memory s); pc' ← usize_add (pc s) 1;
       Ok {| pc := pc'; stack := st; memory := m' |})) as Hplain.
  { intros op' Ht. destruct (exec_op_constant op' (stack s) m (memory s) Ht) as [-> Hm].
    destruct (exec_op op' (stack s) (memory s)) as [[st m']| |]; [|done..]. msimpl.
    rewrite (Hm st m' eq_refl). unfold same_run. destruct (usize_add (pc s) 1); [|done..].
    split; [done|]. by intros s' [= <-]. }
  pose proof (untouched _ _ Eop) as Ht. destruct op; try apply (Hplain _ Ht).
  destruct (stack s) as [|cond st]; [done|]. destruct (usize_add (pc s) 1) as [p1| |]; [|done..].
  destruct (usize_add p1 then_len) as [p2| |]; [|by destruct (is_zero cond)..]. destruct (is_zero cond).
  - destruct (usize_add p2 else_len) as [p3| |]; [|done..].
    apply (Hrun p3 {| pc := p2; stack := st; memory := memory s |}).
  - destruct (Hrun p2 {| pc := p1; stack := st; memory := memory s |}) as [E1 E2].
    unfold with_memory in E1. cbn [pc stack] in E1. rewrite E1.
    destruct (run p2 {| pc := p1; stack := st; memory := memory s |}) as [s2| |];
      cbn [fmap result_fmap]; msimpl; [|done..]. specialize (E2 s2 eq_refl). simpl in E2.
    unfold same_run. cbn [fmap result_fmap pc stack with_memory].
    destruct (usize_add (pc s2) else_len); [|done..]. split; [done|]. by intros s' [= <-].
Qed.

Lemma run_constant fuel e m s :
  same_run m s (run fuel ops e (with_memory m s)) (run fuel ops e s).
Proof using Hc.
  revert e s. induction fuel as [|fuel IH]; intros e s; cbn [run pc with_memory].
  { destruct (e <=? pc s); split; try done. by intros s' [= <-]. }
  destruct (e <=? pc s); [split; [done|]; by intros s' [= <-]|].
  destruct (exec_at_constant (run fuel ops) m s (IH)) as [-> Hm].
  destruct (exec_at (run fuel ops) ops s) as [s1| |]; [|done..].
  cbn [fmap result_fmap]. msimpl. destruct (IH e s1) as [-> Hm1]. split; [done|].
  intros s' E. rewrite (Hm1 s' E). by apply Hm.
Qed.
End constant.

(** Constant folding is sound. When [constant_u64] returns a value,
    evaluating the bytecode on any memory returns the same value and leaves
    that memory as it was; and it declines only bytecode with an opcode that
    addresses memory. *)
Lemma constant_u64_sound ops (c : option Z) (Hc : constant_u64 ops = Ok c) :
  match c with
  | Some z => forall m, eval_u64 ops m = Ok (z, m)
  | None => exists op, op ∈ ops /\ touches_memory op = true
  end.
Proof.
  unfold constant_u64 in Hc. destruct (existsb touches_memory ops) eqn:E.
  { simplify_eq/=. apply existsb_exists in E as (op & Hin & ?). exists op. by rewrite list_elem_of_In. }
  unfold eval_u64, eval in *. fold (start []) in Hc.
  destruct (run _ ops _ (start [])) as [s| |] eqn:Er; try done. revert Hc. msimpl.
  destruct (stack s) as [|v st] eqn:Es; [done|]. intros [= <-] m.
  destruct (run_constant ops E (S (length ops)) (Z.of_nat (length ops)) m (start [])) as [Hrun _].
  rewrite Er in Hrun. change (with_memory m (start [])) with ({| pc := 0; stack := []; memory := m |} : State B) in Hrun.
  rewrite Hrun. cbn [fmap result_fmap]. unfold with_memory. msimpl. cbn [stack memory]. by rewrite Es.
Qed.

(** ** Concatenation *)

Lemma lor_shiftl_mod a b w : 0 <= w -> 0 <= b -> Z.lor (Z.shiftl a w) (b mod 2^w) = a * 2^w + b mod 2^w.
Proof.
  intros Hw Hb. assert (Z.land (Z.shiftl a w) (b mod 2^w) = 0) as Hz.
  { apply Z.bits_inj'. intros i Hi. rewrite Z.land_spec, Z.shiftl_spec, testbit_mod, Z.testbit_0_l by lia.
    destruct (Z.ltb_spec i w); [|apply andb_false_r]. by rewrite Z.testbit_neg_r by lia. }
  rewrite <- Z.lxor_lor, <- Z.add_nocarry_lxor by done. by rewrite Z.shiftl_mul_pow2.
Qed.

(** [ConcatPart] appends a part below the accumulator. When the
    accumulator fits the [result_width - part_width] bits gathered so far --
    which is how the parts of a concatenation are folded -- the native and
    the wide code both give [accumulator * 2^part_width + part mod
    2^part_width], which fits [result_width], so the folding can go on. *)
Lemma concat_part_correct (a p : value) (pw rw : Z)
    (Ha : wf_value a) (Hp : wf_value p) (Hpw : 0 <= pw) (Hrw : pw <= rw <= usize_max)
    (Hfit : tval a < 2^(rw - pw)) :
  tval (concat_part a p pw rw) = tval a * 2^pw + tval p mod 2^pw /\
  wf_value (concat_part a p pw rw) /\ tval (concat_part a p pw rw) < 2^rw.
Proof.
  pose proof (tval_nonneg a Ha). pose proof (mod_pow2_range (tval p) pw Hpw) as Hr.
  assert (2^rw = 2^(rw - pw) * 2^pw) as Erw by (rewrite <- Z.pow_add_r by lia; f_equal; lia).
  assert (0 <= tval a * 2^pw + tval p mod 2^pw < 2^rw) as Hin by (rewrite Erw; nia).
  assert (tval (tb_value_from_bits (big_or (big_shl (to_biguint a) pw) (normalized_bits p pw)) rw) =
    tval a * 2^pw + tval p mod 2^pw) as Hwide.
  { rewrite (proj1 (tb_value_from_bits_spec _ rw ltac:(lia))), bval_or, bval_shl, bval_to_biguint,
      bval_normalized_bits by done.
    rewrite lor_shiftl_mod by (done || by apply tval_nonneg). by apply Z.mod_small. }
  assert (tval (concat_part a p pw rw) = tval a * 2^pw + tval p mod 2^pw) as E.
  { destruct a as [a|], p as [p|]; try exact Hwide. unfold concat_part.
    destruct (Z.leb_spec rw 64); [|exact Hwide]. simpl tval in *. rewrite land_width_mask_u64 by lia.
    destruct (Z.leb_spec 64 pw).
    - assert (rw - pw = 0) as E0 by lia. rewrite E0 in Hfit. change (2^0) with 1 in Hfit.
      replace a with 0 by lia. by rewrite Z.lor_0_l.
    - unfold wrap64. rewrite Z.mod_small; [apply lor_shiftl_mod; [done|by apply Hp]|].
      rewrite Z.shiftl_mul_pow2 by done. pose proof (Z.pow_le_mono_r 2 rw 64 ltac:(lia) ltac:(lia)).
      split; [apply Z.mul_nonneg_nonneg; [lia|apply Z.pow_nonneg; lia]|]. lia. }
  rewrite E. split_and!; [done| |lia]. apply concat_part_typed; unfold is_usize; try done; lia.
Qed.
End run.

(** ** Witnesses *)

Definition sample_memory : list Z := [1; 2; 3; 4; 5; 6; 7; 8; 9; 10; 11; 12].

Lemma sample_memory_bytes : Forall is_byte sample_memory.
Proof. unfold sample_memory, is_byte. repeat constructor; lia. Qed.

(** [mem[0] != 0 ? 7 : 2^64] *)
Definition sample_code : list (ExprOpcode N) :=
  [LoadU64 0 1 255; Ternary 1 1; ConstU64 7; ConstWide (2^64)%N].

Lemma sample_code_wf : Forall (wf_op (B:=N)) sample_code.
Proof. unfold sample_code, wf_op, is_usize, is_u64, usize_max. repeat constructor; lia. Qed.

Lemma eval_terminates_witness :
  (Forall wf_op sample_code /\ (length sample_code < 100)%nat) /\
  eval sample_code sample_memory <> Err OutOfFuel /\
  run 100 sample_code (Z.of_nat (length sample_code)) (start sample_memory) =
    run (S (length sample_code)) sample_code (Z.of_nat (length sample_code)) (start sample_memory).
Proof.
  assert (length sample_code < 100)%nat as Hl by (simpl; lia).
  split; [exact (conj sample_code_wf Hl)|].
  exact (eval_terminates (B:=N) (I:=Z) sample_code sample_memory 100 sample_code_wf Hl).
Defined.

Lemma eval_well_typed_witness :
  (Forall wf_op sample_code /\ Forall is_byte sample_memory /\
   eval sample_code sample_memory = Ok (U64 7, sample_memory)) /\
  wf_value (U64 7 : TestbenchValue N) /\ Forall is_byte sample_memory /\
  length sample_memory = length sample_memory.
Proof.
  assert (eval sample_code sample_memory = Ok (U64 7, sample_memory)) as He by (vm_compute; reflexivity).
  split; [exact (conj sample_code_wf (conj sample_memory_bytes He))|].
  exact (eval_well_typed (B:=N) (I:=Z) sample_code sample_memory sample_memory (U64 7)
    sample_code_wf sample_memory_bytes He).
Defined.

Definition constant_code : list (ExprOpcode N) :=
  [ConstU64 200; ConstU64 100; TypedBinOp Op.Add 8 8 8 false false].

